(* ===== verification/_CoqProject ===== *)
-Q . S2P
Prelude.v
Json.v
Encoding.v
Topics.v
Heap.v
Cache.v
CacheInvariant.v
CacheFence.v
Snapshot.v
Queue.v
Replay.v
Cursor.v
Ports.v
Retry.v
Pagination.v
PaginationSafety.v
Collect.v
CollectSafety.v
Termination.v
Scheduler.v
Coalescer.v
Unicode.v
Search.v
Catalogue.v
Options.v
Access.v
Authorization.v
Selection.v
SelectionRefinement.v
Namespaces.v
Scopes.v
Threads.v
Watch.v
WatchInvariant.v
WatchSafety.v
WatchTheorems.v
Diff.v
Collection.v
CollectionFence.v
Index.v
Actions.v
Idempotency.v
ActionService.v
ActionSafety.v
Exec.v
ExecSafety.v
PortForward.v
PortForwardSafety.v
PortForwardTheorems.v
Dashboard.v
DashboardPods.v
DashboardProblems.v
DashboardWorkloads.v
DashboardEvents.v
DashboardSummary.v
