(* ===== verification/Prelude.v ===== *)
(** * Verification of the kubepeep service layer

    kubepeep is a local, read-mostly Kubernetes console: a Go process that serves a browser
    client on the loopback interface. Its core logic is the service layer under
    src/internal/services, with the session stores of src/internal/api and the scope
    repository of src/internal/adapters/sqlite. This library translates that logic into
    executable Gallina and proves what makes it correct.

    ** The program and its parts

    A request selects a context and a namespace scope ([Selection], [Namespaces],
    [Scopes]); every change of the selection publishes a new opaque generation. A list
    query is normalised ([Options], [Search], [Catalogue]) into origins (a resource in a
    namespace); each origin is reviewed ([Access], [Authorization]), read page by page
    with retries ([Retry], [Pagination]) under a scheduler and a coalescer ([Scheduler],
    [Coalescer]), merged by a composite cursor ([Cursor]) and assembled into a page
    ([Collect]). Watched collections are kept as snapshots ([Topics], [Snapshot],
    [Cache]), kept up to date by the workers of the watch manager ([Watch]) and streamed
    to subscribers through bounded queues and a replay ring ([Queue], [Replay]); collected
    pages and a local index answer repeated queries ([Collection], [Index]). Actions change
    the cluster: validated, authorized anew and idempotent ([Actions], [Idempotency],
    [ActionService]), interactive processes ([Exec]) and forwarded ports ([PortForward]).
    The dashboard reads whole scopes within budgets and condenses them into blocks: pods
    and their problems ([DashboardPods]), workloads ([DashboardWorkloads]), grouped events
    ([DashboardEvents]), counters and metrics ([DashboardSummary]).
    Generations tie the parts together: cache entries, reviews, watches, operations and
    sessions of an old generation are fenced off.

    ** Files and sources

    - [Prelude] (this file): Go strings as bytes, results, 64-bit counters, stable sorting,
      sums over maps, tactics and the hint database [kp].
    - [Json], [Encoding], [Unicode]: encoding/json string encoding, base 36 and base64url,
      runes, as the source uses them. [Heap]: container/heap.
    - [Topics], [Snapshot], [Queue], [Replay]: services/resources/watch.go (topics, events,
      snapshots, subscriber queues, stream registry, replay ring).
    - [Cache], [CacheInvariant], [CacheFence]: services/resources/cache.go.
    - [Threads]: pools of interleaved goroutines and a rely/guarantee logic for them, used
      by [Watch], [ActionService], [Exec] and [PortForward] and the files that prove them.
    - [Watch], [WatchInvariant], [WatchSafety], [WatchTheorems]: the watch manager, its
      workers, subscribers and idle timers (watch.go).
    - [Diff]: diff.go. [Collection], [CollectionFence]: collection_cache.go. [Index]: index.go.
    - [Cursor], [Retry], [Pagination], [PaginationSafety], [Collect], [CollectSafety],
      [Termination]: services/resources/cursor.go, retry.go, pagination.go, list.go;
      [Ports] states the interfaces they call (ports.go).
    - [Scheduler], [Coalescer]: services/resources/scheduler.go and coalescer.go.
    - [Search], [Catalogue], [Options]: search.go, options.go, selectors.go, service.go,
      dynamic_views.go and services/resourcecatalog.
    - [Access], [Authorization]: services/authorization (errors.go, allowlist.go, matrix.go,
      service.go).
    - [Selection], [SelectionRefinement]: services/selection, api/generation.go,
      api/session.go.
    - [Namespaces], [Scopes]: services/namespaces (parser.go, model.go, service.go) and
      adapters/sqlite/namespace_scopes.go.
    - [Actions]: services/actions (types.go, validation.go, support.go, audit.go, requests,
      the documents of deployment_yaml.go and resource_yaml.go). [Idempotency]:
      idempotency.go. [ActionService], [ActionSafety]: service.go.
    - [Exec], [ExecSafety]: exec.go, exec_abort.go and the handler actions_exec.go.
    - [PortForward], [PortForwardSafety], [PortForwardTheorems]: portforward.go, and
      ResolveServicePort of adapters/kubernetes/actions.go.
    - services/dashboard: [Dashboard] for budgets.go, errors.go, helpers.go, the blocks of
      dto.go and the paging loops; [DashboardPods], [DashboardProblems] for pods.go and
      services/podhealth; [DashboardWorkloads] for workloads.go; [DashboardEvents] for
      events.go; [DashboardSummary] for summary.go, metrics.go and the counters of dto.go.

    A Go struct is a [Record], an enumeration an [Inductive], a map a [gmap], a fallible
    function returns [result] or [option]. Code that locks is translated one critical
    section at a time. In the older files goroutines are program points in a map, one action
    is one critical section or one wait, [step] is the transition function and [run] a
    sequence of actions, so theorems about [run] hold for every interleaving. The files on
    [Threads] write a goroutine as a program ([prog]): [Act] is a critical section, [Await]
    a question to the environment that blocks, [Sync] one that blocks and changes the state
    at once, and a loop is a program that names its next round. A [move] runs one step of
    one goroutine, makes a call, answers a question or changes the environment; [reachable]
    quantifies over all sequences of moves. Theorems about it come from an invariant, a
    bound on every step ([trans]) and assertions that the steps of others keep ([safe],
    [Sound]); what holds when a goroutine blocks or has returned follows from
    [reachable_quiet] and [reachable_post], and [reachable_kept] carries facts forward.
    Logs in the states ([x_log], [p_log] and the like) record what happened and are read by
    nothing but theorems. Clocks, random bytes, contexts and answers of remote systems come
    with the moves.

    ** What the theorems show

    - Authorization: every row shown and every LIST sent is backed by a review of the same
      request, of its origin or of the resource in all namespaces
      ([collect_shows_only_authorized], [no_list_without_review]); a mutation runs
      only on a live allowing answer ([mutation_needs_live_allow]); invalidated reviews are
      never cached or joined ([stale_review_fenced], [reviews_single_flight]); permission
      queries expand only to allowlisted keys ([permissions_expansion_sound]).
    - Selection: every answered call is explained by the swaps of a compare-and-set register
      on the generation, each of which one call asked for ([selection_refines_cas]),
      updates are never lost ([no_lost_update]), the newest intent wins
      ([newest_intent_wins]), undisturbed operations complete
      ([undisturbed_operation_completes]), the nonce follows the generation
      ([session_nonce_lifecycle]); stored scopes keep their invariants
      ([scope_store_sound]) and back the selection ([scope_operation_sound]).
    - Cache and streams: refresh tokens and generations fence stale data, for as long as
      their key is subscribed ([superseded_token_fenced]), budgets hold,
      coalescing is transparent, replay is exact, consumers are never stuck; subscribers
      hold the current objects of their worker ([subscribers_see_snapshot]) and a canceled
      generation is not watched again ([canceled_generation_never_watched]).
    - Actions: a command is the command of a valid request that was reviewed anew
      ([action_command_authorized]), a restart executes once per key
      ([restart_at_most_once]), operations of retired generations are canceled
      ([retired_operations_canceled]); a process starts for one redeemed ticket
      ([exec_process_authorized]) and ends once ([exec_session_ends_once]); a tunnel is
      opened with permission only ([tunnel_authorized]), within the limits
      ([forwards_bounded]), its port bound after the old session let go
      ([port_bound_after_release]), and it is gone with its generation
      ([retired_forwards_gone]).
    - Dashboard: a block that calls itself complete holds everything the API lists
      ([complete_block_holds_everything]) and every counter shown as available is exact
      ([available_counters_exact]); the problem of a pod is its gravest evidence
      ([problem_is_the_gravest]) whatever the order of events and maps
      ([problem_order_independent]); the restart list is the top of one ranking
      ([restarts_are_the_top]); the event rows are a partition of the events shown
      ([events_grouped_exactly]); the status of a workload is the verdict of its kind, given
      by rules ([workload_verdicts_exact]); metrics are exact or
      refused, and need permission ([metrics_exact], [metrics_need_permission]).
    - Flaws, proved on the model: a diff that panics ([one_block_diff_panics]), a refused
      default ([default_capabilities_refused]), an orphaned watch worker
      ([failed_join_orphans_worker]); and shown on a run of the model: a restart repeated
      after a disconnect ([disconnect_repeats_restart]), a cache that forgets the epoch of a
      key nobody subscribes to ([closed_key_forgets_epochs]). The local index calls a topic
      of stale entries complete, and says that it is stale ([index_complete_sound]).
    - Lists: the merge is a prefix of a stable sort, Collect answers, scopes are not widened.
    - Scheduling: slots and waiters are accounted for and no wake-up is lost; shared calls
      run once per key and are cancelled exactly when abandoned.
    - Input: search queries and namespace lists are read back from every way to write them,
      which inductive relations describe ([search_roundtrip], [namespace_input_roundtrip]);
      drafts are validated exactly.

    ** Parameters

    Code outside the repository is a parameter with its documented behaviour: the Kubernetes
    client ([Ports]), API error classification ([ApiErrors], [OperationErrors]), sort.Slice
    ([SliceSort]), selector syntax ([SelectorSyntax]), Unicode case folding
    ([CaseFolding]), DNS names ([DnsNames], [DnsLabels]), the YAML decoder
    ([YamlDecoder]), YAML conversion, SQLite's choice of row identifiers ([RowIds]), error
    predicates ([ActionErrors]), SHA-256 and the hash of a request's canonical JSON, random
    identifiers and tokens, the order in which Go walks a map ([arrange], a permutation),
    and the configured durations. The ports of the dashboard and its contexts are functions
    from the number of a call to its answer. Named hypotheses state what is assumed of them: lease
    identifiers do not repeat; a [Start] of an adapter that fails returns no process and no
    handle; reviews are allowed, denied or unknown. Witnesses instantiate them with
    concrete functions.

    ** Bounds and fuel

    Parsers take the input length as fuel, and each round consumes a byte; case-fold orbits
    have a bound that exceeds every orbit of the Unicode table; retries are bounded by
    the configured attempts; pagination loops are bounded by the context deadline, and
    [collect_always_answers] shows the fuel suffices. Theorems about revision and intent
    counters assume fewer than 2^64 steps, since those counters wrap; for port forwards
    [numbered] limits the requests likewise. Programs on [Threads] need no fuel: their
    loops are rounds. The paging of the dashboard is bounded by the budget of pages that
    the code itself counts, so it needs no other fuel.

    ** Not modelled

    The conversion of most Kubernetes objects to rows, log streams and downloads,
    preferences, cluster profiles and contexts; of the dashboard, the selection, scanning,
    detection and redaction of log lines, and the diagnostics records. The byte streams of an exec
    session and of a forwarded port (the loops that copy between two connections) are I/O,
    and so is the binder of local ports; a panic that the idempotency registry recovers is
    not modelled. The cache copies an object through JSON, which is taken to give the object
    back ([cloneTopicObject]); an empty list of items is always encoded as one, though a nil
    slice would be encoded as null ([items_json]), which the adapters do not return. Of the HTTP layer only the session stores and the exec handler are;
    client-go adapters (but for the resolution of a Service), the SQLite engine, process
    start, desktop shell, updater and the web client are I/O or glue around libraries.
    Logging, metrics and tracing calls are left out everywhere.

    ** This file

    Go's strings are byte sequences, so a Go [string] is a Rocq [string] (a
    sequence of 8-bit [ascii]); the functions of package [strings] the source
    calls are written here over bytes, together with sorting, unsigned 64-bit
    counters, sums over finite maps, and the tactics and hint databases the
    component files use. *)
From Stdlib Require Import Ascii String ZArith Lia.
From stdpp Require Import base gmap strings list fin_maps fin_map_dom sorting.

Declare Scope kp_scope.
Delimit Scope kp_scope with kp.

(** ** Results of fallible code: a value or the error it failed with *)

Inductive result (E A : Type) : Type :=
| Ok (value : A)
| Err (error : E).
Arguments Ok {E A} value.
Arguments Err {E A} error.

Definition is_ok {E A} (r : result E A) : bool :=
  match r with Ok _ => true | Err _ => false end.

(** [x <-? e ;; k]: Go's [x, err := e; if err != nil { return err }]. *)
Notation "x <-? e ;; k" :=
  (match e with Ok x => k | Err err => Err err end)
  (at level 100, e at next level, right associativity) : kp_scope.

(** ** Machine-width unsigned counters (uint64) *)

Definition u64_modulus : Z := 18446744073709551616.
Definition u64_add (x y : Z) : Z := Z.modulo (x + y) u64_modulus.
Definition u64_succ (x : Z) : Z := u64_add x 1.

(** Reading a Go map at a missing key gives the zero value. *)
Definition get_or {K V} `{Countable K} (m : gmap K V) (k : K) (zero : V) : V :=
  default zero (m !! k).

(** ** Package strings, over bytes *)

Definition chr (n : N) : ascii := ascii_of_N n.
Definition chars (s : string) : list ascii := list_ascii_of_string s.
Definition of_chars (l : list ascii) : string := string_of_list_ascii l.

Definition nul : string := String (chr 0) EmptyString.
Definition record_separator : string := String (chr 30) EmptyString.

(** The UTF-8 encodings of the code points [unicode.IsSpace] accepts. *)
Definition space_encodings : list (list ascii) :=
  ((λ n, [chr n]) <$> [9; 10; 11; 12; 13; 32]%N)
  ++ [[chr 194; chr 133]; [chr 194; chr 160]; [chr 225; chr 154; chr 128]]%N
  ++ ((λ n, [chr 226; chr 128; chr n])
        <$> [128; 129; 130; 131; 132; 133; 134; 135; 136; 137; 138; 168; 169; 175]%N)
  ++ [[chr 226; chr 129; chr 159]; [chr 227; chr 128; chr 128]]%N.

Fixpoint strip_prefix (p l : list ascii) : option (list ascii) :=
  match p, l with
  | [], _ => Some l
  | c :: p', d :: l' => if decide (c = d) then strip_prefix p' l' else None
  | _ :: _, [] => None
  end.

Fixpoint strip_any (ps : list (list ascii)) (l : list ascii) : option (list ascii) :=
  match ps with
  | [] => None
  | p :: ps' => match strip_prefix p l with Some r => Some r | None => strip_any ps' l end
  end.

(** Each round removes one encoded space, so [length l] rounds are enough. *)
Fixpoint trim_front (ps : list (list ascii)) (fuel : nat) (l : list ascii) : list ascii :=
  match fuel with
  | O => l
  | S f => match strip_any ps l with Some r => trim_front ps f r | None => l end
  end.

Definition trim_left (l : list ascii) : list ascii :=
  trim_front space_encodings (length l) l.
Definition trim_right (l : list ascii) : list ascii :=
  rev (trim_front (@rev ascii <$> space_encodings) (length l) (rev l)).

Definition TrimSpace (s : string) : string :=
  of_chars (trim_right (trim_left (chars s))).

(** ASCII case mapping (the values it is applied to are Kubernetes kinds, sort
    orders and watch event types, all ASCII). *)
Definition lower_ascii (c : ascii) : ascii :=
  let n := N_of_ascii c in
  if (65 <=? n)%N && (n <=? 90)%N then ascii_of_N (n + 32) else c.
Definition ToLower (s : string) : string := of_chars (lower_ascii <$> chars s).
Definition EqualFold (s t : string) : bool := String.eqb (ToLower s) (ToLower t).

Definition HasPrefix (s p : string) : bool :=
  match strip_prefix (chars p) (chars s) with Some _ => true | None => false end.

Fixpoint Contains_chars (l sub : list ascii) : bool :=
  match strip_prefix sub l with
  | Some _ => true
  | None => match l with [] => false | _ :: l' => Contains_chars l' sub end
  end.
Definition Contains (s sub : string) : bool := Contains_chars (chars s) (chars sub).

Fixpoint Join (l : list string) (sep : string) : string :=
  match l with
  | [] => ""
  | [x] => x
  | x :: l' => x +:+ sep +:+ Join l' sep
  end.

Definition len (s : string) : Z := Z.of_nat (String.length s).

(** Go's [<] on strings: bytewise lexicographic. *)
Definition str_lt (s t : string) : bool := String.ltb s t.

(** ** Sorting

    [sort.SliceStable] with comparator [less]: stable insertion sort. *)
Section sorting.
Context {A : Type} (less : A → A → bool).

Fixpoint insert_sorted (x : A) (l : list A) : list A :=
  match l with
  | [] => [x]
  | y :: l' => if less y x then y :: insert_sorted x l' else x :: y :: l'
  end.

Definition sort_stable (l : list A) : list A := foldr insert_sorted [] l.

End sorting.

(** A comparator [sort] accepts: a strict weak order. *)
Class StrictWeakOrder {A : Type} (less : A → A → bool) : Prop := {
  swo_irrefl : ∀ x, less x x = false;
  swo_trans : ∀ x y z, less x y = true → less y z = true → less x z = true;
  swo_incomp : ∀ x y z, less x y = false → less y z = false → less x z = false
}.

(** Adjacent elements are never out of order. *)
Definition sorted_by {A} (less : A → A → bool) (l : list A) : Prop :=
  StronglySorted (λ x y, less y x = false) l.

(** ** Histories

    A log of events in which every event is justified by the events before it. *)
Definition history_ok {A} (justified : list A → A → Prop) (l : list A) : Prop :=
  ∀ a e b, l = a ++ e :: b → justified a e.

Lemma history_snoc {A} (justified : list A → A → Prop) l e :
  history_ok justified l → justified l e → history_ok justified (l ++ [e]).
Proof.
  intros Hl He a e' b Heq. destruct b as [|e2 b _] using rev_ind.
  - apply app_inj_tail in Heq as [-> ->]. done.
  - rewrite app_comm_cons, app_assoc in Heq. apply app_inj_tail in Heq as [-> _]. by eapply Hl.
Qed.

(** ** Sums *)

Definition sum_Z (l : list Z) : Z := foldr Z.add 0%Z l.

Lemma sum_Z_cons x l : sum_Z (x :: l) = (x + sum_Z l)%Z.
Proof. done. Qed.
Lemma sum_Z_app l k : sum_Z (l ++ k) = (sum_Z l + sum_Z k)%Z.
Proof. unfold sum_Z. induction l; simpl; lia. Qed.

Definition map_sum {K V} `{Countable K} (f : V → Z) (m : gmap K V) : Z :=
  map_fold (λ _ v acc, (f v + acc)%Z) 0%Z m.

(** ** Tactics and hint databases *)

Create HintDb kp.

(** Split every boolean connective and comparison of the context and the goal. *)
Ltac bool_to_prop :=
  repeat match goal with
  | H : context [andb _ _ = true] |- _ => rewrite andb_true_iff in H
  | H : context [orb _ _ = true] |- _ => rewrite orb_true_iff in H
  | H : context [orb _ _ = false] |- _ => rewrite orb_false_iff in H
  | H : context [negb _ = true] |- _ => rewrite negb_true_iff in H
  | H : context [negb _ = false] |- _ => rewrite negb_false_iff in H
  | H : context [(_ <=? _)%Z = true] |- _ => rewrite Z.leb_le in H
  | H : context [(_ <=? _)%Z = false] |- _ => rewrite Z.leb_gt in H
  | H : context [(_ <? _)%Z = true] |- _ => rewrite Z.ltb_lt in H
  | H : context [(_ <? _)%Z = false] |- _ => rewrite Z.ltb_ge in H
  | H : context [(_ =? _)%Z = true] |- _ => rewrite Z.eqb_eq in H
  | H : context [(_ =? _)%Z = false] |- _ => rewrite Z.eqb_neq in H
  | H : context [(_ =? _)%string = true] |- _ => rewrite String.eqb_eq in H
  | H : context [(_ =? _)%string = false] |- _ => rewrite String.eqb_neq in H
  end;
  destruct_and?.

(** Case analysis on the innermost test of a hypothesis or of the goal. *)
Ltac case_in H :=
  match type of H with
  | context [match ?x with _ => _ end] =>
      lazymatch x with
      | context [match _ with _ => _ end] => fail
      | _ => destruct x eqn:?
      end
  end.
Ltac cases_in H := repeat (case_in H; simplify_eq/=).

Ltac case_goal :=
  match goal with
  | |- context [match ?x with _ => _ end] =>
      lazymatch x with
      | context [match _ with _ => _ end] => fail
      | _ => destruct x eqn:?
      end
  end.

(** ** Generic lemmas *)

Lemma u64_succ_range x : (0 ≤ u64_succ x < u64_modulus)%Z.
Proof. apply Z.mod_pos_bound. by vm_compute. Qed.

Lemma u64_succ_small x :
  (0 ≤ x < u64_modulus - 1)%Z → u64_succ x = (x + 1)%Z.
Proof. intros. unfold u64_succ, u64_add. apply Z.mod_small. lia. Qed.

Section map_sum_lemmas.
Context {K V : Type} `{Countable K} (f : V → Z).
Implicit Types m : gmap K V.

Lemma map_sum_empty : map_sum f (∅ : gmap K V) = 0%Z.
Proof. apply map_fold_empty. Qed.

Lemma map_sum_insert m k v :
  m !! k = None → map_sum f (<[k:=v]> m) = (f v + map_sum f m)%Z.
Proof. intros. unfold map_sum. rewrite map_fold_insert_L; [done| |done]. intros; lia. Qed.

Lemma map_sum_delete m k v :
  m !! k = Some v → map_sum f (delete k m) = (map_sum f m - f v)%Z.
Proof.
  intros Hk. rewrite <- (insert_delete_id m k v Hk) at 2.
  rewrite map_sum_insert; [lia|apply lookup_delete_eq].
Qed.

Lemma map_sum_overwrite m k v w :
  m !! k = Some v → map_sum f (<[k:=w]> m) = (map_sum f m - f v + f w)%Z.
Proof.
  intros Hk. rewrite <- insert_delete_eq, map_sum_insert by apply lookup_delete_eq.
  rewrite (map_sum_delete _ _ v) by done. lia.
Qed.

Lemma map_sum_nonneg m : (∀ k v, m !! k = Some v → (0 ≤ f v)%Z) → (0 ≤ map_sum f m)%Z.
Proof.
  induction m as [|k v m Hk IH] using map_ind; intros Hf.
  - by rewrite map_sum_empty.
  - rewrite map_sum_insert by done.
    assert (0 ≤ f v)%Z by (apply (Hf k); apply lookup_insert_eq).
    assert (0 ≤ map_sum f m)%Z; [|lia].
    apply IH. intros k' v' Hk'. apply (Hf k'). rewrite lookup_insert_ne; [done|congruence].
Qed.
End map_sum_lemmas.

Section sort_lemmas.
Context {A : Type} (less : A → A → bool).
Implicit Types l : list A.

Lemma insert_sorted_perm x l : insert_sorted less x l ≡ₚ x :: l.
Proof.
  induction l as [|y l IH]; simpl; [done|].
  destruct (less y x); [|done]. rewrite IH. constructor.
Qed.

Lemma sort_stable_perm l : sort_stable less l ≡ₚ l.
Proof.
  induction l as [|x l IH]; simpl; [done|]. by rewrite insert_sorted_perm, IH.
Qed.

Lemma sort_stable_length l : length (sort_stable less l) = length l.
Proof. apply Permutation_length, sort_stable_perm. Qed.

Context `{!StrictWeakOrder less}.

Lemma swo_asym x y : less x y = true → less y x = false.
Proof.
  intros Hxy. destruct (less y x) eqn:Hyx; [|done].
  pose proof (swo_trans _ _ _ Hxy Hyx) as Hxx. by rewrite swo_irrefl in Hxx.
Qed.

Lemma insert_sorted_sorted x l :
  sorted_by less l → sorted_by less (insert_sorted less x l).
Proof.
  unfold sorted_by. induction 1 as [|y l Hl IH Hy]; simpl; [repeat constructor|].
  destruct (less y x) eqn:Hyx.
  - constructor; [done|]. rewrite insert_sorted_perm.
    constructor; [by apply swo_asym|done].
  - constructor; [by constructor|]. constructor; [done|].
    eapply Forall_impl; [exact Hy|]. intros z Hz. by apply (swo_incomp z y x).
Qed.

Lemma sort_stable_sorted l : sorted_by less (sort_stable less l).
Proof.
  induction l; simpl; [constructor|]. by apply insert_sorted_sorted.
Qed.

(** Sorting a sorted list changes nothing. *)
Lemma sort_stable_id l : sorted_by less l → sort_stable less l = l.
Proof.
  induction 1 as [|x l Hl IH Hx]; simpl; [done|]. rewrite IH.
  destruct l as [|y l]; simpl; [done|].
  inversion Hx as [|? ? Hyx ?]; subst. by rewrite Hyx.
Qed.

(** The element a stable sort puts first: it is strictly below everything before it
    and not above anything after it. *)
Lemma sort_stable_extract pre x post :
  Forall (λ y, less x y = true) pre → Forall (λ y, less y x = false) post →
  sort_stable less (pre ++ x :: post) = x :: sort_stable less (pre ++ post).
Proof.
  intros Hpre Hpost. induction Hpre as [|y pre Hy _ IH]; simpl.
  - rewrite <- (sort_stable_perm post) in Hpost.
    destruct (sort_stable less post) as [|z l]; simpl; [done|].
    apply Forall_cons in Hpost as [-> _]. done.
  - rewrite IH. simpl. by rewrite Hy.
Qed.
End sort_lemmas.

#[export] Hint Resolve sort_stable_perm sort_stable_sorted insert_sorted_sorted : kp.
#[export] Hint Resolve u64_succ_range : kp.

Lemma Join_cons_cons x y l sep : Join (x :: y :: l) sep = x +:+ sep +:+ Join (y :: l) sep.
Proof. done. Qed.

Lemma existsb_elem {A} (p : A → bool) (l : list A) :
  existsb p l = true ↔ ∃ x, x ∈ l ∧ p x = true.
Proof.
  rewrite existsb_exists. split; intros (x & Hx & Hp); exists x;
    rewrite list_elem_of_In in *; done.
Qed.

Lemma NoDup_fmap_filter {A B} (f : A → B) (P : A → Prop) `{!∀ x, Decision (P x)} (l : list A) :
  NoDup (f <$> l) → NoDup (f <$> filter P l).
Proof.
  induction l as [|x l IH]; [done|]. rewrite fmap_cons, NoDup_cons. intros [Hx Hl].
  rewrite filter_cons. case_decide; [|auto]. rewrite fmap_cons, NoDup_cons. split; [|auto].
  rewrite list_elem_of_fmap. intros (y & Heq & [_ Hy]%list_elem_of_filter).
  apply Hx. rewrite Heq. by apply list_elem_of_fmap_2.
Qed.

(** ** Orders and sort.Slice *)

Lemma ascii_compare_N a b : Ascii.compare a b = N.compare (N_of_ascii a) (N_of_ascii b).
Proof. done. Qed.

Lemma str_lt_cons a s b t :
  str_lt (String a s) (String b t) = true ↔
  (N_of_ascii a < N_of_ascii b)%N ∨ a = b ∧ str_lt s t = true.
Proof.
  unfold str_lt, String.ltb. simpl. rewrite ascii_compare_N.
  destruct (N.compare_spec (N_of_ascii a) (N_of_ascii b)) as [Heq|Hlt|Hgt].
  - assert (a = b) as -> by (rewrite <- (ascii_N_embedding a), <- (ascii_N_embedding b); by rewrite Heq).
    split; [auto|]. intros [?|[_ ?]]; [lia|done].
  - split; [by left|done].
  - split; [done|]. intros [?|[-> _]]; lia.
Qed.

Lemma str_lt_total s t : str_lt s t = false → s = t ∨ str_lt t s = true.
Proof.
  unfold str_lt, String.ltb. rewrite (String.compare_antisym s t).
  destruct (String.compare t s) eqn:Hc; simpl; intros; [|by right|done].
  left. symmetry. by apply String.compare_eq_iff.
Qed.

#[export] Instance str_lt_swo : StrictWeakOrder str_lt.
Proof.
  assert (∀ s, str_lt s s = false) as Hirr.
  { intros s. destruct (str_lt s s) eqn:H; [|done]. exfalso. revert H.
    induction s as [|a s IH]; [done|]. rewrite str_lt_cons. intros [?|[_ ?]]; [lia|auto]. }
  assert (∀ s t u, str_lt s t = true → str_lt t u = true → str_lt s u = true) as Htr.
  { induction s as [|a s IH]; intros [|b t] [|c u]; try done.
    rewrite !str_lt_cons. intros [H1|[-> H1]] [H2|[-> H2]]; [left; lia|auto|auto|].
    right. split; [done|]. by apply (IH t). }
  split; [done|done|]. intros s t u H1 H2.
  destruct (str_lt s u) eqn:Hsu; [|done].
  apply str_lt_total in H1 as [->|H1]; [congruence|].
  pose proof (Htr _ _ _ H1 Hsu). congruence.
Qed.

(** Comparing by a key inherits the order of the keys. *)
#[export] Instance key_swo {A B} (f : A → B) (less : B → B → bool) `{!StrictWeakOrder less} :
  StrictWeakOrder (λ x y, less (f x) (f y)).
Proof.
  split; [intros; apply swo_irrefl|intros x y z; apply swo_trans|intros x y z; apply swo_incomp].
Qed.

(** Go's [sort.Slice]: some sorted permutation; which one, for equal elements, the
    library leaves open. *)
Class SliceSort := sort_Slice : ∀ {A : Type}, (A → A → bool) → list A → list A.
Class SliceSortOk `{SliceSort} : Prop := {
  sort_Slice_perm : ∀ {A} (less : A → A → bool) l, sort_Slice less l ≡ₚ l;
  sort_Slice_sorted : ∀ {A} (less : A → A → bool) `{!StrictWeakOrder less} l,
    sorted_by less (sort_Slice less l) }.

Definition stable_slice_sort : SliceSort := @sort_stable.
Lemma stable_slice_sort_ok : @SliceSortOk stable_slice_sort.
Proof. split; [apply @sort_stable_perm|intros; by apply @sort_stable_sorted]. Qed.

(** ** Strings free of a separator byte *)

Definition byte_free (c : ascii) (s : string) : Prop := c ∉ chars s.
#[export] Instance byte_free_dec c s : Decision (byte_free c s).
Proof. unfold byte_free. apply _. Defined.
Definition nul_free (s : string) : Prop := chr 0 ∉ chars s.
#[export] Instance nul_free_dec s : Decision (nul_free s).
Proof. unfold nul_free. apply _. Defined.

Lemma byte_free_split c g1 g2 r1 r2 :
  byte_free c g1 → byte_free c g2 →
  g1 +:+ String c r1 = g2 +:+ String c r2 → g1 = g2 ∧ r1 = r2.
Proof.
  unfold byte_free, chars. revert g2.
  induction g1 as [|a g1 IH]; intros [|b g2]; simpl.
  - by intros _ _ [=].
  - intros _ Hb [=]. subst. exfalso. apply Hb. left.
  - intros Ha _ [=]. subst. exfalso. apply Ha. left.
  - intros Ha Hb [= -> Heq]. destruct (IH g2) as [-> ->]; [set_solver..|done|done].
Qed.

Lemma chars_app s t : chars (s +:+ t) = chars s ++ chars t.
Proof. unfold chars. induction s as [|a s IH]; [done|].
  change (String a s +:+ t) with (String a (s +:+ t)). simpl. by rewrite IH. Qed.

Lemma chars_of_chars l : chars (of_chars l) = l.
Proof. apply list_ascii_of_string_of_list_ascii. Qed.

Lemma of_chars_chars s : of_chars (chars s) = s.
Proof. apply string_of_list_ascii_of_string. Qed.

Lemma byte_free_no_split c g x r : byte_free c g → g = x +:+ String c r → False.
Proof. intros Hg ->. apply Hg. rewrite chars_app. set_solver. Qed.

Lemma Join_sep_inj c l1 l2 :
  Forall (byte_free c) l1 → Forall (byte_free c) l2 →
  Forall (λ s, s ≠ "") l1 → Forall (λ s, s ≠ "") l2 →
  Join l1 (String c "") = Join l2 (String c "") → l1 = l2.
Proof.
  intros H1. revert l2. induction H1 as [|x l1 Hx Hl1 IH]; intros l2 H2 N1 N2 Heq.
  - destruct l2 as [|y [|z l2]]; [done|..]; inversion N2; subst; simpl in *;
      destruct y; done.
  - destruct l1 as [|x' l1], l2 as [|y [|y' l2]];
      rewrite ?Forall_cons in *; destruct_and?; cbn [Join String.append] in Heq.
    + subst. done.
    + by subst.
    + exfalso. by eapply (byte_free_no_split c x y), Heq.
    + destruct x; done.
    + exfalso. symmetry in Heq. by eapply (byte_free_no_split c y x), Heq.
    + apply byte_free_split in Heq as [-> Heq]; [|done..]. f_equal.
      apply IH; rewrite ?Forall_cons; done.
Qed.

Lemma nul_split g1 g2 r1 r2 :
  nul_free g1 → nul_free g2 → g1 +:+ nul +:+ r1 = g2 +:+ nul +:+ r2 → g1 = g2 ∧ r1 = r2.
Proof. apply (byte_free_split (chr 0)). Qed.
