(* ===== verification/Json.v ===== *)
(** * Json: UTF-8 and the part of encoding/json the source depends on

    The resource streams and caches budget memory by the length of
    [json.Marshal]'s output, so the encoder is written out here: Go's string
    escaping (with HTML escaping, as [Marshal] does), arrays, and objects as
    lists of already encoded members. [unicode/utf8] is the decoder both the
    encoder and the namespace-input grammar use. *)
From Stdlib Require Import Ascii String ZArith Lia.
From stdpp Require Import base gmap strings list pretty.
From S2P Require Import Prelude.

(** ** unicode/utf8 *)

Definition in_range (lo hi : N) (c : ascii) : bool :=
  (lo <=? N_of_ascii c)%N && (N_of_ascii c <=? hi)%N.
Definition is_continuation (c : ascii) : bool := in_range 128 191 c.

(** The width of the rune [l] starts with; [None] where DecodeRune returns
    RuneError with width 1 (or on empty input). *)
Definition rune_width (l : list ascii) : option nat :=
  match l with
  | [] => None
  | b0 :: r =>
    if in_range 0 127 b0 then Some 1
    else if in_range 194 223 b0 then
      match r with b1 :: _ => if is_continuation b1 then Some 2 else None | _ => None end
    else if in_range 224 239 b0 then
      match r with
      | b1 :: b2 :: _ =>
        let lo := if in_range 224 224 b0 then 160%N else 128%N in
        let hi := if in_range 237 237 b0 then 159%N else 191%N in
        if in_range lo hi b1 && is_continuation b2 then Some 3 else None
      | _ => None
      end
    else if in_range 240 244 b0 then
      match r with
      | b1 :: b2 :: b3 :: _ =>
        let lo := if in_range 240 240 b0 then 144%N else 128%N in
        let hi := if in_range 244 244 b0 then 143%N else 191%N in
        if in_range lo hi b1 && is_continuation b2 && is_continuation b3 then Some 4 else None
      | _ => None
      end
    else None
  end.

(** A rune takes at least one byte: [length l] rounds are enough. *)
Fixpoint valid_utf8 (fuel : nat) (l : list ascii) : bool :=
  match fuel, l with
  | _, [] => true
  | O, _ => false
  | S f, _ => match rune_width l with Some w => valid_utf8 f (drop w l) | None => false end
  end.
Definition ValidString (s : string) : bool := valid_utf8 (String.length s) (chars s).

Fixpoint count_runes (fuel : nat) (l : list ascii) : Z :=
  match fuel, l with
  | _, [] => 0
  | O, _ => 0
  | S f, _ => 1 + count_runes f (drop (default 1 (rune_width l)) l)
  end.
Definition RuneCountInString (s : string) : Z := count_runes (String.length s) (chars s).

(** ** encoding/json *)

Definition quote : ascii := chr 34.
Definition backslash : ascii := chr 92.

Definition hex_digit (n : N) : ascii :=
  if (n <? 10)%N then ascii_of_N (48 + n) else ascii_of_N (87 + n).

(** One ASCII byte inside a JSON string, as [appendString] writes it. *)
Definition escape_byte (c : ascii) : list ascii :=
  let n := N_of_ascii c in
  match n with
  | 34%N | 92%N => [backslash; c]
  | 8%N => [backslash; chr 98]
  | 12%N => [backslash; chr 102]
  | 10%N => [backslash; chr 110]
  | 13%N => [backslash; chr 114]
  | 9%N => [backslash; chr 116]
  | _ =>
    if (n <? 32)%N || (n =? 60)%N || (n =? 62)%N || (n =? 38)%N
    then [backslash; chr 117; chr 48; chr 48; hex_digit (n / 16); hex_digit (n mod 16)]
    else [c]
  end.

(** A multi-byte rune: U+2028 and U+2029 are escaped, the rest is copied. *)
Definition escape_rune (r : list ascii) : list ascii :=
  if decide (r = [chr 226; chr 128; chr 168]) then backslash :: chars "u2028"
  else if decide (r = [chr 226; chr 128; chr 169]) then backslash :: chars "u2029"
  else r.

Fixpoint escape_chars (fuel : nat) (l : list ascii) : list ascii :=
  match fuel, l with
  | _, [] => []
  | O, _ => []
  | S f, c :: l' =>
    match rune_width l with
    | Some 1 => escape_byte c ++ escape_chars f l'
    | Some w => escape_rune (take w l) ++ escape_chars f (drop w l)
    | None => (backslash :: chars "ufffd") ++ escape_chars f l'
    end
  end.

Definition json_string (s : string) : string :=
  of_chars (quote :: escape_chars (String.length s) (chars s) ++ [quote]).
Definition json_int (z : Z) : string := pretty z.
Definition json_bool (b : bool) : string := if b then "true" else "false".

Definition json_array (l : list string) : string := "[" +:+ Join l "," +:+ "]".

(** A member of an object: absent when [omitempty] drops it. *)
Definition json_member (name : string) (value : option string) : list string :=
  match value with
  | Some v => [json_string name +:+ ":" +:+ v]
  | None => []
  end.
Definition json_object (members : list string) : string := "{" +:+ Join members "," +:+ "}".

Definition omit_empty_string (s : string) : option string :=
  if decide (s = "") then None else Some (json_string s).
Definition omit_zero (z : Z) : option string :=
  if decide (z = 0%Z) then None else Some (json_int z).
Definition omit_false (b : bool) : option string :=
  if b then Some "true" else None.

(** ** Lengths *)

Definition sum_len (l : list string) : Z := sum_Z (len <$> l).

Lemma len_nonneg s : (0 ≤ len s)%Z.
Proof. unfold len. lia. Qed.

Lemma len_app s t : len (s +:+ t) = (len s + len t)%Z.
Proof.
  unfold len. induction s as [|c s IH]; simpl; [done|].
  rewrite !Nat2Z.inj_succ. unfold len in *. lia.
Qed.

Lemma len_String c s : len (String c s) = (1 + len s)%Z.
Proof. unfold len. simpl. lia. Qed.

Lemma sum_len_app l k : sum_len (l ++ k) = (sum_len l + sum_len k)%Z.
Proof.
  unfold sum_len, sum_Z. rewrite fmap_app. induction (len <$> l); simpl; lia.
Qed.

Lemma sum_len_cons x l : sum_len (x :: l) = (len x + sum_len l)%Z.
Proof. done. Qed.

Lemma sum_len_nonneg l : (0 ≤ sum_len l)%Z.
Proof.
  induction l as [|x l IH]; [done|]. rewrite sum_len_cons. pose proof (len_nonneg x). lia.
Qed.

(** Joining [n] strings by a separator of length one adds [n - 1] bytes. *)
Lemma len_Join l sep :
  len sep = 1%Z →
  len (Join l sep) = (sum_len l + Z.max 0 (Z.of_nat (length l) - 1))%Z.
Proof.
  intros Hsep. induction l as [|x [|y l] IH]; [done| |].
  - unfold sum_len, sum_Z. simpl. lia.
  - rewrite Join_cons_cons, !len_app, IH, Hsep, (sum_len_cons x). simpl length. lia.
Qed.

Lemma len_json_array l :
  len (json_array l) = (2 + sum_len l + Z.max 0 (Z.of_nat (length l) - 1))%Z.
Proof.
  unfold json_array. rewrite !len_app, len_Join by done.
  change (len "[") with 1%Z. change (len "]") with 1%Z. lia.
Qed.

Lemma len_json_object l :
  len (json_object l) = (2 + sum_len l + Z.max 0 (Z.of_nat (length l) - 1))%Z.
Proof.
  unfold json_object. rewrite !len_app, len_Join by done.
  change (len "{") with 1%Z. change (len "}") with 1%Z. lia.
Qed.

Create Rewrite HintDb json_len.
#[export] Hint Rewrite len_app sum_len_app sum_len_cons len_json_array len_json_object : json_len.
#[export] Hint Resolve len_nonneg sum_len_nonneg : kp.

(** The encoder evaluates. *)
Example json_string_escapes :
  json_string (of_chars [chr 97; chr 60; chr 10; chr 195; chr 169; chr 255])
  = of_chars (quote :: chars "a" ++ backslash :: chars "u003c" ++ backslash :: chars "n"
               ++ [chr 195; chr 169] ++ backslash :: chars "ufffd" ++ [quote]).
Proof. by vm_compute. Qed.
