(* ===== verification/Encoding.v ===== *)
(** * Encoding: the text encodings the program's opaque identifiers are made of

    The parts of Go's standard library used for stream and cursor identifiers:
    [strings.Split] on a one-byte separator, [strconv.FormatUint] and [ParseUint]
    in base 36, and [base64.RawURLEncoding]. *)
From Stdlib Require Import Ascii String ZArith Lia.
From stdpp Require Import base strings list.
From S2P Require Import Prelude.

(** ** strings.Split *)

Fixpoint split_at (sep : ascii) (s current : string) : list string :=
  match s with
  | "" => [current]
  | String c rest =>
    if Ascii.eqb c sep then current :: split_at sep rest ""
    else split_at sep rest (current +:+ String c "")
  end.

Definition Split (s : string) (sep : ascii) : list string := split_at sep s "".

Fixpoint has_byte (c : ascii) (s : string) : bool :=
  match s with "" => false | String d rest => Ascii.eqb d c || has_byte c rest end.

Lemma app_empty_r s : s +:+ "" = s.
Proof. induction s as [|c s IH]; [done|]. change (String c (s +:+ "") = String c s). by rewrite IH. Qed.

Lemma app_assoc_s s t u : (s +:+ t) +:+ u = s +:+ t +:+ u.
Proof.
  induction s as [|c s IH]; [done|].
  change (String c ((s +:+ t) +:+ u) = String c (s +:+ t +:+ u)). by rewrite IH.
Qed.

Lemma split_at_plain sep s current :
  has_byte sep s = false → split_at sep s current = [current +:+ s].
Proof.
  revert current; induction s as [|c s IH]; intros current; simpl; [by rewrite app_empty_r|].
  rewrite orb_false_iff. intros [-> Hs]. rewrite IH by done. by rewrite app_assoc_s.
Qed.

Lemma split_at_sep sep s t current :
  has_byte sep s = false →
  split_at sep (s +:+ String sep t) current = (current +:+ s) :: split_at sep t "".
Proof.
  revert current; induction s as [|c s IH]; intros current; simpl.
  - intros _. rewrite app_empty_r. change (String sep t) with ("" +:+ String sep t).
    change (split_at sep ("" +:+ String sep t) current)
      with (if Ascii.eqb sep sep then current :: split_at sep t ""
            else split_at sep t (current +:+ String sep "")).
    by rewrite Ascii.eqb_refl.
  - rewrite orb_false_iff. intros [Hc Hs].
    change (String c s +:+ String sep t) with (String c (s +:+ String sep t)).
    cbn [split_at]. rewrite Hc, IH by done. by rewrite app_assoc_s.
Qed.

(** Three dot-free parts joined by dots split back into themselves. *)
Lemma Split_three sep a b c :
  has_byte sep a = false → has_byte sep b = false → has_byte sep c = false →
  Split (a +:+ String sep (b +:+ String sep c)) sep = [a; b; c].
Proof.
  intros Ha Hb Hc. unfold Split. rewrite split_at_sep by done.
  rewrite split_at_sep by done. by rewrite split_at_plain by done.
Qed.

(** ** strconv in base 36 *)

Definition max_uint64 : Z := 18446744073709551615.

Definition digit36 (d : Z) : ascii :=
  ascii_of_nat (Z.to_nat (if (d <? 10)%Z then 48 + d else 87 + d)).

Definition value36 (c : ascii) : option Z :=
  let n := Z.of_nat (nat_of_ascii c) in
  if ((48 <=? n) && (n <=? 57))%Z then Some (n - 48)%Z
  else if ((97 <=? n) && (n <=? 122))%Z then Some (n - 87)%Z
  else if ((65 <=? n) && (n <=? 90))%Z then Some (n - 55)%Z
  else None.

(** Thirteen digits hold every 64-bit value. *)
Fixpoint format36 (fuel : nat) (n : Z) (acc : string) : string :=
  match fuel with
  | O => acc
  | S f =>
    let acc' := String (digit36 (n mod 36)) acc in
    if (n <? 36)%Z then acc' else format36 f (n / 36) acc'
  end.
Definition FormatUint36 (n : Z) : string := format36 13 n "".

Fixpoint parse36 (n : Z) (s : string) : option Z :=
  match s with
  | "" => Some n
  | String c rest =>
    match value36 c with
    | None => None
    | Some d => if (max_uint64 <? n * 36 + d)%Z then None else parse36 (n * 36 + d) rest
    end
  end.
Definition ParseUint36 (s : string) : option Z :=
  match s with "" => None | _ => parse36 0 s end.

Lemma digits36_table :
  forallb (λ d, bool_decide (value36 (digit36 (Z.of_nat d)) = Some (Z.of_nat d))
                && negb (Ascii.eqb (digit36 (Z.of_nat d)) ".")) (seq 0 36) = true.
Proof. by vm_compute. Qed.

Lemma digit36_ok d :
  (0 ≤ d < 36)%Z →
  value36 (digit36 d) = Some d ∧ Ascii.eqb (digit36 d) "." = false.
Proof.
  intros Hd. pose proof digits36_table as Ht. rewrite forallb_forall in Ht.
  specialize (Ht (Z.to_nat d)). rewrite Z2Nat.id in Ht by lia.
  assert (List.In (Z.to_nat d) (seq 0 36)) as Hin by (apply in_seq; lia).
  apply Ht, andb_true_iff in Hin as [H1%bool_decide_eq_true H2%negb_true_iff]. done.
Qed.

Lemma parse_format36 fuel n acc :
  (0 ≤ n ≤ max_uint64)%Z → (n < 36 ^ Z.of_nat fuel)%Z →
  fuel ≠ 0 → parse36 0 (format36 fuel n acc) = parse36 n acc.
Proof.
  revert n acc; induction fuel as [|fuel IH]; intros n acc Hn Hf Hne; [done|].
  cbn [format36]. pose proof (Z.mod_pos_bound n 36 ltac:(lia)) as Hm.
  destruct (digit36_ok (n mod 36) Hm) as [Hv _].
  destruct (n <? 36)%Z eqn:Hlt; bool_to_prop.
  - cbn [parse36]. rewrite Hv. rewrite Z.mod_small by lia.
    destruct (max_uint64 <? _)%Z eqn:Hb; bool_to_prop; [lia|]. done.
  - rewrite IH; [|split; [apply Z.div_pos; lia|]| |].
    + cbn [parse36]. rewrite Hv.
      assert (n / 36 * 36 + n mod 36 = n)%Z as -> by (Z.to_euclidean_division_equations; lia).
      destruct (max_uint64 <? _)%Z eqn:Hb; bool_to_prop; [lia|]. done.
    + assert (n / 36 ≤ n)%Z by (Z.to_euclidean_division_equations; lia). lia.
    + rewrite Nat2Z.inj_succ, Z.pow_succ_r in Hf by lia.
      apply Z.div_lt_upper_bound; lia.
    + intros ->. change (36 ^ Z.of_nat 1)%Z with 36%Z in Hf. lia.
Qed.

Lemma FormatUint36_nonempty n : FormatUint36 n ≠ "".
Proof.
  unfold FormatUint36. assert (∀ f n acc, acc ≠ "" → format36 f n acc ≠ "") as H.
  { induction f as [|f IH]; intros m acc Hacc; cbn [format36]; [done|].
    destruct (m <? 36)%Z; [done|]. by apply IH. }
  cbn [format36]. destruct (n <? 36)%Z; [done|]. by apply (H 12).
Qed.

Lemma ParseUint36_Format n : (0 ≤ n ≤ max_uint64)%Z → ParseUint36 (FormatUint36 n) = Some n.
Proof.
  intros Hn. unfold ParseUint36. destruct (FormatUint36 n) eqn:Hf;
    [by apply FormatUint36_nonempty in Hf|]. rewrite <- Hf. unfold FormatUint36.
  rewrite parse_format36; [done|done| |done]. unfold max_uint64 in Hn. lia.
Qed.

Lemma FormatUint36_inj n m :
  (0 ≤ n ≤ max_uint64)%Z → (0 ≤ m ≤ max_uint64)%Z → FormatUint36 n = FormatUint36 m → n = m.
Proof.
  intros Hn Hm Heq. apply ParseUint36_Format in Hn, Hm. rewrite Heq in Hn. congruence.
Qed.

Lemma FormatUint36_no_dot n : (0 ≤ n)%Z → has_byte "." (FormatUint36 n) = false.
Proof.
  unfold FormatUint36. assert (∀ f n acc, (0 ≤ n)%Z → has_byte "." acc = false →
    has_byte "." (format36 f n acc) = false) as H; [|intros; by apply H].
  induction f as [|f IH]; intros m acc Hm Hacc; cbn [format36]; [done|].
  pose proof (digit36_ok (m mod 36) (Z.mod_pos_bound m 36 ltac:(lia))) as [_ Hd].
  destruct (m <? 36)%Z; [|apply IH; [apply Z.div_pos; lia|]]; cbn [has_byte]; by rewrite Hd.
Qed.

(** ** base64.RawURLEncoding *)

Definition digit64 (d : Z) : ascii :=
  ascii_of_nat (Z.to_nat
    (if d <? 26 then 65 + d else if d <? 52 then 71 + d else if d <? 62 then d - 4
     else if d =? 62 then 45 else 95)%Z).

Definition value64 (c : ascii) : option Z :=
  let n := Z.of_nat (nat_of_ascii c) in
  if ((65 <=? n) && (n <=? 90))%Z then Some (n - 65)%Z
  else if ((97 <=? n) && (n <=? 122))%Z then Some (n - 71)%Z
  else if ((48 <=? n) && (n <=? 57))%Z then Some (n + 4)%Z
  else if (n =? 45)%Z then Some 62%Z
  else if (n =? 95)%Z then Some 63%Z
  else None.

(** Sextets of a byte string; a final group of one or two bytes gives two or three. *)
Fixpoint sextets (l : list Z) : list Z :=
  match l with
  | a :: b :: c :: rest =>
    (a / 4) :: (a mod 4 * 16 + b / 16) :: (b mod 16 * 4 + c / 64) :: (c mod 64) :: sextets rest
  | [a; b] => [a / 4; a mod 4 * 16 + b / 16; b mod 16 * 4]
  | [a] => [a / 4; a mod 4 * 16]
  | [] => []
  end%Z.

(** Back to bytes. The bits past the last whole byte are ignored, as Go's default
    (non-strict) decoder does; a single left-over sextet is an error. *)
Fixpoint octets (l : list Z) : option (list Z) :=
  match l with
  | p :: q :: r :: s :: rest =>
    match octets rest with
    | Some l' => Some ((p * 4 + q / 16) :: (q mod 16 * 16 + r / 4) :: (r mod 4 * 64 + s) :: l')%Z
    | None => None
    end
  | [p; q; r] => Some [p * 4 + q / 16; q mod 16 * 16 + r / 4]%Z
  | [p; q] => Some [p * 4 + q / 16]%Z
  | [_] => None
  | [] => Some []
  end.

Definition is_newline (c : ascii) : bool := Ascii.eqb c "010" || Ascii.eqb c "013".

(** The sextet values of a text, skipping line breaks as Go's decoder does. *)
Fixpoint text_sextets (s : string) : option (list Z) :=
  match s with
  | "" => Some []
  | String c rest =>
    if is_newline c then text_sextets rest
    else match value64 c, text_sextets rest with
         | Some d, Some l => Some (d :: l)
         | _, _ => None
         end
  end.

Definition sextets_text (l : list Z) : string := foldr (λ d s, String (digit64 d) s) "" l.

Definition base64_encode (bytes : list Z) : string := sextets_text (sextets bytes).
Definition base64_decode (s : string) : option (list Z) := text_sextets s ≫= octets.

Definition is_byte (b : Z) : Prop := (0 ≤ b < 256)%Z.

Lemma digits64_table :
  forallb (λ d, bool_decide (value64 (digit64 (Z.of_nat d)) = Some (Z.of_nat d))
                && (negb (Ascii.eqb (digit64 (Z.of_nat d)) ".")
                    && negb (is_newline (digit64 (Z.of_nat d))))) (seq 0 64) = true.
Proof. by vm_compute. Qed.

Lemma digit64_ok d :
  (0 ≤ d < 64)%Z →
  value64 (digit64 d) = Some d ∧ Ascii.eqb (digit64 d) "." = false
  ∧ is_newline (digit64 d) = false.
Proof.
  intros Hd. pose proof digits64_table as Ht. rewrite forallb_forall in Ht.
  specialize (Ht (Z.to_nat d)). rewrite Z2Nat.id in Ht by lia.
  assert (List.In (Z.to_nat d) (seq 0 64)) as Hin by (apply in_seq; lia).
  apply Ht, andb_true_iff in Hin as [H1%bool_decide_eq_true [H2 H3]%andb_true_iff].
  by rewrite !negb_true_iff in *.
Qed.

(** Induction three elements at a time. *)
Lemma list_ind3 {A} (P : list A → Prop) :
  P [] → (∀ a, P [a]) → (∀ a b, P [a; b]) →
  (∀ a b c l, P l → P (a :: b :: c :: l)) → ∀ l, P l.
Proof.
  intros H0 H1 H2 H3. fix IH 1. intros [|a [|b [|c l]]]; [done|by apply H1|by apply H2|].
  apply H3, IH.
Qed.

Lemma sextets_range l : Forall is_byte l → Forall (λ d, 0 ≤ d < 64)%Z (sextets l).
Proof.
  unfold is_byte. induction l using list_ind3; cbn [sextets]; rewrite ?Forall_cons; intros H; [done|..].
  all: repeat (match goal with H : _ ∧ _ |- _ => destruct H end); split_and?; auto;
    try (Z.to_euclidean_division_equations; lia).
Qed.

Lemma octets_sextets l : Forall is_byte l → octets (sextets l) = Some l.
Proof.
  unfold is_byte. induction l as [| | |a b c l IH] using list_ind3; cbn [sextets octets];
    rewrite ?Forall_cons; intros H; [done|..].
  3: rewrite IH by tauto.
  all: repeat (match goal with H : _ ∧ _ |- _ => destruct H end); do 2 f_equal;
    repeat f_equal; Z.to_euclidean_division_equations; lia.
Qed.

Lemma sextets_text_ok l :
  Forall (λ d, 0 ≤ d < 64)%Z l →
  text_sextets (sextets_text l) = Some l ∧ has_byte "." (sextets_text l) = false.
Proof.
  induction 1 as [|d l Hd _ [IH1 IH2]]; [done|].
  destruct (digit64_ok d Hd) as (Hv & Hdot & Hnl).
  change (sextets_text (d :: l)) with (String (digit64 d) (sextets_text l)).
  cbn [text_sextets has_byte]. by rewrite Hnl, Hv, IH1, Hdot, IH2.
Qed.

Lemma base64_roundtrip l : Forall is_byte l → base64_decode (base64_encode l) = Some l.
Proof.
  intros Hl. unfold base64_decode, base64_encode.
  destruct (sextets_text_ok _ (sextets_range l Hl)) as [-> _]. by apply octets_sextets.
Qed.

Lemma base64_no_dot l : Forall is_byte l → has_byte "." (base64_encode l) = false.
Proof. intros Hl. by apply sextets_text_ok, sextets_range. Qed.
