(* ===== verification/Topics.v ===== *)
(** * Topics: the watchable resources, their DTOs and their identities

    Models the data the live-update half of internal/services/resources works
    on: the topic catalogue and its validation, the eight DTO families a
    [TopicObject] can hold, watch keys, snapshots, stream events and the
    identity functions that decide when two objects are "the same" one
    (src/internal/services/resources/watch.go, types.go, pods.go, workloads.go,
    network.go, configuration.go, storage.go, events.go). *)
From Stdlib Require Import Ascii String ZArith Lia.
From stdpp Require Import base gmap strings list.
From S2P Require Import Prelude Json.
Set Warnings "-register-all".

(** ** Topics *)

Definition Topic : Type := string.

Definition TopicPods : Topic := "pods".
Definition TopicEvents : Topic := "events".
Definition TopicWorkloads : Topic := "workloads".
Definition TopicServices : Topic := "services".
Definition TopicIngresses : Topic := "ingresses".
Definition TopicEndpointSlices : Topic := "endpoint-slices".
Definition TopicConfigMaps : Topic := "configmaps".
Definition TopicPVCs : Topic := "persistent-volume-claims".

#[export] Instance Topic_eq_dec : EqDecision Topic := String.string_dec.

Record GroupVersionResource := GVR {
  Group : string; Version : string; Resource : string }.

#[export] Instance GVR_eq_dec : EqDecision GroupVersionResource.
Proof. solve_decision. Defined.

Definition topicOrder : list Topic :=
  [TopicPods; TopicEvents; TopicWorkloads; TopicServices; TopicIngresses;
   TopicEndpointSlices; TopicConfigMaps; TopicPVCs].

Definition topicGVRs_map : list (Topic * list GroupVersionResource) :=
  [(TopicPods, [GVR "" "v1" "pods"]);
   (TopicEvents, [GVR "" "v1" "events"]);
   (TopicWorkloads, [GVR "apps" "v1" "deployments"; GVR "apps" "v1" "statefulsets";
      GVR "apps" "v1" "daemonsets"; GVR "batch" "v1" "jobs"; GVR "batch" "v1" "cronjobs"]);
   (TopicServices, [GVR "" "v1" "services"]);
   (TopicIngresses, [GVR "networking.k8s.io" "v1" "ingresses"]);
   (TopicEndpointSlices, [GVR "discovery.k8s.io" "v1" "endpointslices"]);
   (TopicConfigMaps, [GVR "" "v1" "configmaps"]);
   (TopicPVCs, [GVR "" "v1" "persistentvolumeclaims"])].

(** [topicGVRs[topic]]; [None] is a missing key of the map. *)
Definition topicGVRs (t : Topic) : option (list GroupVersionResource) :=
  snd <$> find (λ p, bool_decide (p.1 = t)) topicGVRs_map.

Definition TopicGVRs (t : Topic) : list GroupVersionResource := default [] (topicGVRs t).

(** ** Domain errors (errors.go) *)

Inductive ErrorCode :=
| CodeValidationFailed | CodeForbidden | CodeAuthorizationUnavailable
| CodeAuthenticationUnavailable | CodeFeatureUnavailable | CodeClusterUnavailable
| CodeUpstreamTimeout | CodeNotFound | CodeCursorExpired | CodeGenerationChanged
| CodeLimitExceeded | CodeRateLimited | CodePreferenceSensitive.

#[export] Instance ErrorCode_eq_dec : EqDecision ErrorCode.
Proof. solve_decision. Defined.

(** The errors the package returns: a [DomainError] (its cause kept, since
    [errors.Is] looks through it), the package's sentinels, the context errors,
    and whatever else a port returns. *)
Inductive error :=
| DomainError (Code : ErrorCode) (Message : string) (Cause : option error) (retryAfter : Z)
| ErrCacheGenerationInvalidated
| ErrCacheWriteFenced
| ErrResourceExpired
| ErrResumeUnavailable
| ErrStreamingListsUnsupported
| ErrPrefetchDeferred
| ErrCoalescerClosed
| ContextCanceled
| ContextDeadlineExceeded
| EOF
| OtherError (text : string).

Definition domainError (code : ErrorCode) (message : string) (cause : option error) : error :=
  DomainError code message cause 0.
Definition validationError (message : string) : error :=
  domainError CodeValidationFailed message None.
Definition NewRateLimitedError (retryAfter : Z) (cause : option error) : error :=
  DomainError CodeRateLimited "The Kubernetes API is rate limiting requests." cause retryAfter.

(** [errors.As(err, &domain)]: the first DomainError of the chain is [err]
    itself, because a sentinel has no cause. *)
Definition ErrorCodeOf (err : error) : ErrorCode :=
  match err with DomainError code _ _ _ => code | _ => CodeClusterUnavailable end.
Definition PublicMessage (err : error) : string :=
  match err with
  | DomainError _ message _ _ => message
  | _ => "The Kubernetes API could not complete the request."
  end.

(** [errors.Is(err, target)] for a sentinel recognised by [target]. *)
Fixpoint errors_Is (target : error → bool) (err : error) : bool :=
  target err || match err with DomainError _ _ (Some cause) _ => errors_Is target cause | _ => false end.

Definition is_resource_expired (err : error) : bool :=
  errors_Is (λ e, match e with ErrResourceExpired => true | _ => false end) err.
Definition is_canceled (err : error) : bool :=
  errors_Is (λ e, match e with ContextCanceled => true | _ => false end) err.
Definition is_deadline (err : error) : bool :=
  errors_Is (λ e, match e with ContextDeadlineExceeded => true | _ => false end) err.

(** [ValidateTopics]: between one and eight distinct supported topics, returned
    in the canonical order. *)
Fixpoint validate_topics_loop (values : list Topic) (seen : list Topic)
    : result error (list Topic) :=
  match values with
  | [] => Ok seen
  | value :: rest =>
    match topicGVRs value with
    | None => Err (validationError "topic is not supported")
    | Some _ =>
      if decide (value ∈ seen) then Err (validationError "topic must not contain duplicates")
      else validate_topics_loop rest (value :: seen)
    end
  end.

Definition ValidateTopics (values : list Topic) : result error (list Topic) :=
  if (length values <? 1)%nat || (length topicOrder <? length values)%nat
  then Err (validationError "topic cardinality must be between 1 and 8")
  else match validate_topics_loop values [] with
       | Err e => Err e
       | Ok seen => Ok (filter (λ t, t ∈ seen) topicOrder)
       end.

(** ** DTOs

    The fields the modelled code reads, and [json], the object's encoding by
    encoding/json (which stands for every field of the DTO; the encoding of these
    structs of strings, integers, booleans, slices and string maps never fails). *)

Record OwnerDTO := { owner_Kind : string; owner_Name : string }.
#[export] Instance OwnerDTO_eq_dec : EqDecision OwnerDTO.
Proof. solve_decision. Defined.

Record PodDTO := {
  pod_Namespace : string; pod_Name : string; pod_Labels : gmap string string;
  pod_Status : string; pod_Owner : option OwnerDTO;
  pod_ConfigMaps : list string; pod_PVCs : list string; pod_json : string }.
Record EventDTO := {
  event_Namespace : string; event_Name : string; event_Timestamp : option string;
  event_ObjectKind : string; event_ObjectName : string; event_Reason : string;
  event_Type : string; event_json : string }.
Record WorkloadDTO := {
  workload_Kind : string; workload_Namespace : string; workload_Name : string;
  workload_Status : string; workload_Owner : option OwnerDTO;
  workload_ConfigMaps : list string; workload_PVCs : list string; workload_json : string }.
Record ServiceDTO := {
  service_Namespace : string; service_Name : string;
  service_Selector : gmap string string; service_json : string }.
Record IngressDTO := {
  ingress_Namespace : string; ingress_Name : string; ingress_json : string }.
Record EndpointSliceDTO := {
  slice_Namespace : string; slice_Name : string; slice_ServiceName : string;
  slice_json : string }.
Record ConfigMapListDTO := {
  configmap_Namespace : string; configmap_Name : string; configmap_json : string }.
Record PersistentVolumeClaimDTO := {
  pvc_Namespace : string; pvc_Name : string; pvc_Status : string; pvc_json : string }.

Inductive DTO :=
| DPod (v : PodDTO) | DEvent (v : EventDTO) | DWorkload (v : WorkloadDTO)
| DService (v : ServiceDTO) | DIngress (v : IngressDTO) | DEndpointSlice (v : EndpointSliceDTO)
| DConfigMap (v : ConfigMapListDTO) | DPVC (v : PersistentVolumeClaimDTO).

(** A non-nil [TopicObject]: a DTO held by value, by pointer, or a typed nil
    pointer. The nil interface is [None] where a [TopicObject] can be nil. *)
Inductive TopicObject :=
| ObjValue (d : DTO)
| ObjPtr (d : DTO)
| ObjNilPtr (family : Topic).

Definition dto_topic (d : DTO) : Topic :=
  match d with
  | DPod _ => TopicPods | DEvent _ => TopicEvents | DWorkload _ => TopicWorkloads
  | DService _ => TopicServices | DIngress _ => TopicIngresses
  | DEndpointSlice _ => TopicEndpointSlices | DConfigMap _ => TopicConfigMaps
  | DPVC _ => TopicPVCs
  end.

Definition dto_json (d : DTO) : string :=
  match d with
  | DPod v => pod_json v | DEvent v => event_json v | DWorkload v => workload_json v
  | DService v => service_json v | DIngress v => ingress_json v
  | DEndpointSlice v => slice_json v | DConfigMap v => configmap_json v
  | DPVC v => pvc_json v
  end.

(** The method [resourceTopic]. On a typed nil pointer Go's promoted value method
    would dereference it; the code tests for nil first wherever that can happen. *)
Definition resourceTopic (o : TopicObject) : Topic :=
  match o with ObjValue d | ObjPtr d => dto_topic d | ObjNilPtr t => t end.

Definition object_json (o : option TopicObject) : string :=
  match o with
  | Some (ObjValue d) | Some (ObjPtr d) => dto_json d
  | Some (ObjNilPtr _) | None => "null"
  end.

(** ** Watch keys, snapshots, references and stream events *)

Record WatchKey := {
  Generation : string; Context : string; Scope : string; key_Topic : Topic;
  key_GVR : GroupVersionResource; key_Namespace : string; Selector : string;
  EffectiveOrigins : list string }.

Record WatchSnapshot := {
  ResourceVersion : string;
  Items : list (option TopicObject) }.

Record ResourceRef := {
  ref_APIGroup : string; ref_Kind : string; ref_Namespace : string;
  ref_Name : string; ref_UID : string }.

Record StreamEvent := {
  ev_Event : string; ev_Topic : Topic; ev_Generation : string;
  ev_ResourceVersion : string; ev_Items : list (option TopicObject);
  ev_Object : option TopicObject; ev_Deleted : option ResourceRef;
  ev_Reason : string; ev_RefetchRequired : bool; ev_Final : bool; ev_Chunk : Z;
  ev_CompletedNamespaces : Z; ev_RequestedNamespaces : Z; ev_ObservedAt : string }.

(** The zero event, the base the code's composite literals start from. *)
Definition emptyEvent : StreamEvent := {|
  ev_Event := ""; ev_Topic := ""; ev_Generation := ""; ev_ResourceVersion := "";
  ev_Items := []; ev_Object := None; ev_Deleted := None; ev_Reason := "";
  ev_RefetchRequired := false; ev_Final := false; ev_Chunk := 0;
  ev_CompletedNamespaces := 0; ev_RequestedNamespaces := 0; ev_ObservedAt := "" |}.

Definition ref_json (r : ResourceRef) : string :=
  json_object (json_member "apiGroup" (Some (json_string (ref_APIGroup r)))
    ++ json_member "kind" (Some (json_string (ref_Kind r)))
    ++ json_member "namespace" (Some (json_string (ref_Namespace r)))
    ++ json_member "name" (Some (json_string (ref_Name r)))
    ++ json_member "uid" (Some (json_string (ref_UID r)))).

Definition items_json (items : list (option TopicObject)) : string :=
  json_array (object_json <$> items).

(** The members of a stream event's encoding, in the struct's order, with the
    [omitempty] tags applied. *)
Definition event_members (e : StreamEvent) : list string :=
  json_member "event" (Some (json_string (ev_Event e)))
  ++ json_member "topic" (omit_empty_string (ev_Topic e))
  ++ json_member "generation" (Some (json_string (ev_Generation e)))
  ++ json_member "resourceVersion" (omit_empty_string (ev_ResourceVersion e))
  ++ json_member "items" (match ev_Items e with [] => None | l => Some (items_json l) end)
  ++ json_member "object" (match ev_Object e with None => None | o => Some (object_json o) end)
  ++ json_member "deleted" (ref_json <$> ev_Deleted e)
  ++ json_member "reason" (omit_empty_string (ev_Reason e))
  ++ json_member "refetchRequired" (omit_false (ev_RefetchRequired e))
  ++ json_member "final" (omit_false (ev_Final e))
  ++ json_member "chunk" (omit_zero (ev_Chunk e))
  ++ json_member "completedNamespaces" (omit_zero (ev_CompletedNamespaces e))
  ++ json_member "requestedNamespaces" (omit_zero (ev_RequestedNamespaces e))
  ++ json_member "observedAt" (omit_empty_string (ev_ObservedAt e)).

Definition StreamEvent_json (e : StreamEvent) : string := json_object (event_members e).

(** ** Identities *)

Definition objectIdentity (kind namespace name : string) : string :=
  ToLower (TrimSpace kind) +:+ nul +:+ namespace +:+ nul +:+ name.

Definition eventObjectIdentity (e : EventDTO) : string :=
  if negb (String.eqb (event_Name e) "")
  then objectIdentity "event" (event_Namespace e) (event_Name e)
  else Join ["event"; event_Namespace e; event_ObjectKind e; event_ObjectName e;
             event_Reason e; default "" (event_Timestamp e)] nul.

Definition dto_identity (d : DTO) : string :=
  match d with
  | DPod v => objectIdentity "pod" (pod_Namespace v) (pod_Name v)
  | DEvent v => eventObjectIdentity v
  | DWorkload v => objectIdentity (workload_Kind v) (workload_Namespace v) (workload_Name v)
  | DService v => objectIdentity "service" (service_Namespace v) (service_Name v)
  | DIngress v => objectIdentity "ingress" (ingress_Namespace v) (ingress_Name v)
  | DEndpointSlice v => objectIdentity "endpointslice" (slice_Namespace v) (slice_Name v)
  | DConfigMap v => objectIdentity "configmap" (configmap_Namespace v) (configmap_Name v)
  | DPVC v => objectIdentity "persistentvolumeclaim" (pvc_Namespace v) (pvc_Name v)
  end.

Definition topicObjectIdentity (o : option TopicObject) : option string :=
  match o with
  | Some (ObjValue d) | Some (ObjPtr d) => Some (dto_identity d)
  | Some (ObjNilPtr _) | None => None
  end.

(** Topics whose references may omit the kind; [events] and [workloads] do not
    appear in the switch and keep the empty kind. *)
Definition default_kinds : list (Topic * string) :=
  [(TopicPods, "pod"); (TopicServices, "service"); (TopicIngresses, "ingress");
   (TopicEndpointSlices, "endpointslice"); (TopicConfigMaps, "configmap");
   (TopicPVCs, "persistentvolumeclaim")].
Definition default_kind (t : Topic) : string :=
  default "" (snd <$> find (λ p, bool_decide (p.1 = t)) default_kinds).

Definition resourceRefIdentity (t : Topic) (ref : option ResourceRef) : option string :=
  match ref with
  | None => None
  | Some r =>
    let kind := if String.eqb (ref_Kind r) "" then default_kind t else ref_Kind r in
    Some (objectIdentity kind (ref_Namespace r) (ref_Name r))
  end.

(** [canonicalCacheStrings]: trimmed, non-empty, distinct, sorted. The map the
    code collects them in has no order; sorting makes the result independent of
    it, so the model collects in list order. *)
Definition canonicalCacheStrings (values : list string) : list string :=
  sort_stable str_lt
    (remove_dups (filter (λ v, v ≠ "") (TrimSpace <$> values))).

(** The interface to [schema.GroupVersionResource.String] (apimachinery, not part
    of the repository): a printer that tells the catalogue's resources apart. *)
Class GVRPrinter := { GVR_String : GroupVersionResource → string }.

Section identity.
Context `{GVRPrinter}.

Definition WatchKey_identity (k : WatchKey) : string :=
  Generation k +:+ nul +:+ Context k +:+ nul +:+ Scope k +:+ nul
  +:+ key_Topic k +:+ nul +:+ GVR_String (key_GVR k) +:+ nul
  +:+ key_Namespace k +:+ nul +:+ Selector k +:+ nul
  +:+ Join (canonicalCacheStrings (EffectiveOrigins k)) record_separator.

End identity.

(** * Lemmas *)

Lemma topicGVRs_supported t : is_Some (topicGVRs t) ↔ t ∈ topicOrder.
Proof.
  unfold topicGVRs. rewrite fmap_is_Some. change topicOrder with (fst <$> topicGVRs_map).
  rewrite list_elem_of_fmap. split.
  - intros [[u g] [Hin Heq%bool_decide_eq_true]%find_some].
    exists (u, g). rewrite list_elem_of_In. done.
  - intros ([u g] & -> & Hin%list_elem_of_In).
    destruct (find _ _) as [p|] eqn:Hf; [done|].
    pose proof (find_none _ _ Hf _ Hin) as Hn. apply bool_decide_eq_false in Hn. by destruct Hn.
Qed.

Lemma validate_topics_loop_ok values seen out :
  validate_topics_loop values seen = Ok out →
  (∀ t, t ∈ out ↔ t ∈ values ∨ t ∈ seen)
  ∧ (∀ t, t ∈ values → is_Some (topicGVRs t))
  ∧ (NoDup seen → NoDup (values ++ seen)).
Proof.
  revert seen; induction values as [|v values IH]; intros seen; simpl.
  { intros [=->]. split_and!; [set_solver..|done]. }
  destruct (topicGVRs v) as [g|] eqn:Hg; [|done]. case_decide as Hin; [done|].
  intros (Hout & Hsup & Hnd)%IH. split_and!.
  - intros t. rewrite Hout. set_solver.
  - intros t [->|Ht]%elem_of_cons; [by rewrite Hg|auto].
  - intros Hseen. rewrite Permutation_middle. apply Hnd. by constructor.
Qed.

Lemma NoDup_topicOrder : NoDup topicOrder.
Proof. by apply (bool_decide_unpack _). Qed.

Lemma canonicalCacheStrings_elem values v :
  v ∈ canonicalCacheStrings values ↔ v ≠ "" ∧ ∃ w, w ∈ values ∧ v = TrimSpace w.
Proof.
  unfold canonicalCacheStrings. rewrite sort_stable_perm, elem_of_remove_dups, list_elem_of_filter.
  rewrite list_elem_of_fmap. naive_solver.
Qed.

Lemma canonicalCacheStrings_NoDup values : NoDup (canonicalCacheStrings values).
Proof.
  unfold canonicalCacheStrings. rewrite sort_stable_perm. apply NoDup_remove_dups.
Qed.

Lemma topics_nul_free t : t ∈ topicOrder → nul_free t.
Proof.
  intros Ht. assert (Forall nul_free topicOrder) as Hall by (by apply (bool_decide_unpack _)).
  rewrite Forall_forall in Hall. by apply Hall.
Qed.

Lemma validate_topics_loop_err values seen err :
  validate_topics_loop values seen = Err err →
  ErrorCodeOf err = CodeValidationFailed
  ∧ ((∃ t, t ∈ values ∧ t ∉ topicOrder) ∨ ¬ NoDup (values ++ seen)).
Proof.
  revert seen; induction values as [|v values IH]; intros seen; simpl; [done|].
  destruct (topicGVRs v) as [g|] eqn:Hg.
  - case_decide as Hin.
    + intros [= <-]. split; [done|]. right. intros [Hv _]%NoDup_cons. apply Hv. set_solver.
    + intros [Hc [(t & Ht & Hn)|Hdup]]%IH; (split; [done|]).
      * left. exists t. set_solver.
      * right. intros Hnd. apply Hdup. by rewrite <- Permutation_middle.
  - intros [= <-]. split; [done|]. left. exists v. split; [set_solver|].
    intros Hv. apply topicGVRs_supported in Hv as [g Hg']. congruence.
Qed.

Lemma ValidateTopics_ok values out :
  ValidateTopics values = Ok out →
  out = filter (λ t, t ∈ values) topicOrder ∧ out ≡ₚ values
  ∧ values ≠ [] ∧ NoDup values ∧ Forall (.∈ topicOrder) values.
Proof.
  unfold ValidateTopics. destruct (_ || _) eqn:Hcard; [done|].
  destruct (validate_topics_loop values []) as [seen|] eqn:Hl; [|done]. intros [= <-].
  apply validate_topics_loop_ok in Hl as (Hseen & Hsup & Hnd). rewrite app_nil_r in Hnd.
  specialize (Hnd NoDup_nil_2).
  assert (Forall (.∈ topicOrder) values) as Hall.
  { apply Forall_forall. intros t Ht. by apply topicGVRs_supported, Hsup. }
  assert (filter (λ t, t ∈ seen) topicOrder = filter (λ t, t ∈ values) topicOrder) as ->.
  { apply list_filter_iff. intros t. rewrite Hseen. set_solver. }
  split_and!; [done| |by intros ->|done|done].
  apply NoDup_Permutation; [apply NoDup_filter, NoDup_topicOrder|done|].
  intros t. rewrite list_elem_of_filter. rewrite Forall_forall in Hall. naive_solver.
Qed.

(** Topic lists are canonical. A list of topics is accepted exactly when it is
    non-empty, without duplicates and all supported; the result holds the same
    topics in the fixed order, whatever the order they were given in. Every
    refusal is a validation error. *)
Theorem validate_topics_canonical values :
  match ValidateTopics values with
  | Ok out => out = filter (λ t, t ∈ values) topicOrder ∧ out ≡ₚ values
              ∧ values ≠ [] ∧ NoDup values ∧ Forall (.∈ topicOrder) values
  | Err err => ErrorCodeOf err = CodeValidationFailed
               ∧ (values = [] ∨ ¬ NoDup values ∨ ∃ t, t ∈ values ∧ t ∉ topicOrder)
  end.
Proof.
  destruct (ValidateTopics values) as [out|err] eqn:Hv; [by apply ValidateTopics_ok|].
  unfold ValidateTopics in Hv. destruct (_ || _) eqn:Hcard.
  - injection Hv as <-. split; [done|]. apply orb_true_iff in Hcard as [H|H].
    + apply Nat.ltb_lt in H. left. by destruct values; [|simpl in H; lia].
    + apply Nat.ltb_lt in H. right. destruct (decide (NoDup values)) as [Hnd|]; [right|by left].
      destruct (decide (Forall (.∈ topicOrder) values)) as [Hs|Hs].
      * rewrite Forall_forall in Hs.
        pose proof (submseteq_length values topicOrder (NoDup_submseteq _ _ Hnd Hs)). lia.
      * apply not_Forall_Exists, Exists_exists in Hs as (t & ? & ?); [eauto|intros x; apply _].
  - destruct (validate_topics_loop values []) as [seen|] eqn:Hl; [done|]. injection Hv as ->.
    apply validate_topics_loop_err in Hl as [Hc Hor]. rewrite app_nil_r in Hor. naive_solver.
Qed.
