(* ===== verification/Heap.v ===== *)
(** * Heap: Go's container/heap on a slice

    [heap.Push] and [heap.Pop] with their sift loops [up] and [down], written on a
    list with the comparison of the client as a parameter, and the theorem that
    makes them a priority queue: for a strict weak order, [Pop] takes out a least
    element and the rest stays a heap. *)
From Stdlib Require Import ZArith Lia.
From stdpp Require Import base list.
From S2P Require Import Prelude.

Section heap.
Context {A : Type} (less : A → A → bool).

Definition less_at (l : list A) (i j : nat) : bool :=
  match l !! i, l !! j with Some x, Some y => less x y | _, _ => false end.

Definition swap (l : list A) (i j : nat) : list A :=
  match l !! i, l !! j with
  | Some x, Some y => <[i := y]> (<[j := x]> l)
  | _, _ => l
  end.

Definition parent (j : nat) : nat := (j - 1) / 2.

(** [fuel] bounds the number of levels; the index decreases, so its value plus one
    is enough. *)
Fixpoint up (fuel : nat) (l : list A) (j : nat) : list A :=
  match fuel with
  | O => l
  | S f =>
    let i := parent j in
    if (i =? j)%nat || negb (less_at l j i) then l else up f (swap l i j) i
  end.

Fixpoint down (fuel : nat) (l : list A) (i n : nat) : list A :=
  match fuel with
  | O => l
  | S f =>
    let j1 := 2 * i + 1 in
    if (n <=? j1)%nat then l
    else
      let j2 := j1 + 1 in
      let j := if (j2 <? n)%nat && less_at l j2 j1 then j2 else j1 in
      if negb (less_at l j i) then l else down f (swap l i j) j n
  end.

Definition heap_Push (l : list A) (x : A) : list A :=
  let l' := l ++ [x] in up (length l') l' (length l' - 1).

Definition heap_Pop (l : list A) : option (A * list A) :=
  let n := length l - 1 in
  let l' := down (length l) (swap l 0 n) 0 n in
  match l' !! n with
  | Some x => Some (x, take n l')
  | None => None
  end.
End heap.

(** * Correctness *)

Section proofs.
Context {A : Type} (less : A → A → bool) `{!StrictWeakOrder less}.

Definition le (x y : A) : Prop := less y x = false.

Lemma le_trans x y z : le x y → le y z → le x z.
Proof.
  unfold le. intros Hxy Hyz. by apply (swo_incomp z y x).
Qed.

Lemma less_le x y : less x y = true → le x y.
Proof. unfold le. intros. by apply (swo_asym less). Qed.

Lemma le_refl x : le x x.
Proof. unfold le. apply swo_irrefl. Qed.

(** Every element but those at the excepted indices is at least its parent. *)
Definition heap_on (ok : nat → Prop) (n : nat) (l : list A) : Prop :=
  ∀ i x p, 0 < i → i < n → ok i → l !! i = Some x → l !! parent i = Some p → le p x.

Definition heap (l : list A) : Prop := heap_on (λ _, True) (length l) l.

(** The elements below [j] are at least the element above [j]. *)
Definition bridged (j n : nat) (l : list A) : Prop :=
  ∀ i x p, 0 < j → 0 < i → i < n → parent i = j → l !! i = Some x → l !! parent j = Some p → le p x.

Lemma parent_lt j : 0 < j → parent j < j.
Proof. unfold parent. intros. apply Nat.Div0.div_lt_upper_bound. lia. Qed.

Lemma parent_child i j : 0 < i → parent i = j ↔ i = 2 * j + 1 ∨ i = 2 * j + 2.
Proof.
  unfold parent. intros Hi. pose proof (Nat.div_mod_eq (i - 1) 2) as Hd.
  pose proof (Nat.mod_upper_bound (i - 1) 2 ltac:(lia)). lia.
Qed.

Lemma swap_length (l : list A) i j : length (swap l i j) = length l.
Proof. unfold swap. repeat case_match; by rewrite ?length_insert. Qed.

Lemma swap_lookup (l : list A) i j x y k :
  l !! i = Some x → l !! j = Some y →
  swap l i j !! k = if decide (k = i) then Some y else if decide (k = j) then Some x else l !! k.
Proof.
  intros Hi Hj. unfold swap. rewrite Hi, Hj.
  pose proof (lookup_lt_Some _ _ _ Hi). pose proof (lookup_lt_Some _ _ _ Hj).
  destruct (decide (k = i)) as [->|]; [by rewrite list_lookup_insert_eq by (by rewrite length_insert)|].
  rewrite list_lookup_insert_ne by done.
  destruct (decide (k = j)) as [->|]; [by rewrite list_lookup_insert_eq|].
  by rewrite list_lookup_insert_ne.
Qed.

Lemma swap_perm (l : list A) i j : swap l i j ≡ₚ l.
Proof.
  destruct (l !! i) as [x|] eqn:Hi; [|by unfold swap; rewrite Hi].
  destruct (l !! j) as [y|] eqn:Hj; [|by unfold swap; rewrite Hi, Hj].
  apply Permutation_inj. split; [apply swap_length|].
  exists (λ k, if decide (k = i) then j else if decide (k = j) then i else k). split.
  - intros a b. repeat case_decide; naive_solver.
  - intros k. rewrite (swap_lookup _ _ _ _ _ _ Hi Hj). by repeat case_decide; simplify_eq.
Qed.

(** ** Sifting up *)

Lemma less_at_Some (l : list A) i j :
  less_at less l i j = true → ∃ x y, l !! i = Some x ∧ l !! j = Some y ∧ less x y = true.
Proof. unfold less_at. intros H. destruct (l !! i), (l !! j); try done. eauto. Qed.

Lemma less_at_false (l : list A) i j x y :
  l !! i = Some x → l !! j = Some y → less_at less l i j = false → le y x.
Proof. intros Hi Hj. unfold less_at. by rewrite Hi, Hj. Qed.

(** One exchange moves the only violation from [j] to its parent. *)
Lemma up_step (l : list A) j n :
  0 < j → less_at less l j (parent j) = true →
  heap_on (λ i, i ≠ j) n l → bridged j n l →
  heap_on (λ i, i ≠ parent j) n (swap l (parent j) j) ∧ bridged (parent j) n (swap l (parent j) j).
Proof.
  intros Hj (x & p & Hx & Hp & Hlt)%less_at_Some Hh Hb. apply less_le in Hlt as Hxp.
  pose proof (parent_lt j Hj) as Hpj. split.
  - intros i y q Hi Hin Hne. rewrite !(swap_lookup _ _ _ _ _ _ Hp Hx).
    rewrite (decide_False (P := i = parent j)) by done.
    destruct (decide (i = j)) as [->|Hij].
    + rewrite decide_True by done. by intros [= <-] [= <-].
    + intros Hy. destruct (decide (parent i = parent j)) as [Hpar|Hpar].
      * intros [= <-]. apply le_trans with p; [done|]. rewrite <- Hpar in Hp. by apply (Hh i).
      * destruct (decide (parent i = j)) as [Hpi|Hpi].
        -- intros [= <-]. by apply (Hb i y p).
        -- intros Hq. by apply (Hh i).
  - intros i y q Hpos Hi Hin Hpi. rewrite !(swap_lookup _ _ _ _ _ _ Hp Hx).
    pose proof (parent_lt i Hi). pose proof (parent_lt (parent j) Hpos).
    rewrite (decide_False (P := i = parent j)) by lia.
    rewrite (decide_False (P := parent (parent j) = parent j)) by lia.
    rewrite (decide_False (P := parent (parent j) = j)) by lia.
    intros Hy Hq. assert (le q p) as Hqp by (apply (Hh (parent j)); [done|lia|lia|done|done]).
    destruct (decide (i = j)) as [->|Hij]; [by simplify_eq|].
    apply le_trans with p; [done|]. rewrite <- Hpi in Hp. by apply (Hh i).
Qed.

Lemma up_spec fuel l j n :
  j < fuel → heap_on (λ i, i ≠ j) n l → bridged j n l →
  heap_on (λ _, True) n (up less fuel l j) ∧ up less fuel l j ≡ₚ l.
Proof.
  revert l j. induction fuel as [|fuel IH]; intros l j Hf Hh Hb; [lia|]. cbn [up].
  destruct (decide (j = 0)) as [->|Hj].
  { simpl. split; [|done]. intros i x p Hi Hin _. by apply Hh; [..|lia]. }
  assert (0 < j) as Hpos by lia. pose proof (parent_lt j Hpos) as Hlt.
  rewrite (proj2 (Nat.eqb_neq (parent j) j)) by lia. cbn [orb].
  destruct (less_at less l j (parent j)) eqn:Hless; cbn [negb].
  - destruct (up_step l j n Hpos Hless Hh Hb) as [Hh' Hb'].
    destruct (IH (swap l (parent j) j) (parent j)) as [IH1 IH2]; [lia|done|done|].
    split; [done|]. by rewrite IH2, swap_perm.
  - split; [|done]. intros i x p Hi Hin _ Hx Hp. destruct (decide (i = j)) as [->|Hij].
    + by apply (less_at_false l j (parent j)).
    + by apply (Hh i).
Qed.

Lemma heap_Push_spec l x : heap l → heap (heap_Push less l x) ∧ heap_Push less l x ≡ₚ x :: l.
Proof.
  intros Hl. unfold heap_Push. rewrite length_app. cbn [length].
  destruct (up_spec (length l + 1) (l ++ [x]) (length l + 1 - 1) (length l + 1)) as [H1 H2].
  - lia.
  - intros i y p Hi Hin Hne. pose proof (parent_lt i Hi).
    rewrite !lookup_app_l by lia. apply Hl; [done|lia|done].
  - intros i y p Hj Hi Hin Hpi. pose proof (parent_lt i Hi). lia.
  - split; [|by rewrite H2, Permutation_app_comm].
    unfold heap. by rewrite (Permutation_length H2), length_app.
Qed.

(** ** Sifting down *)

(** The index [down] chooses among the children of [i]. *)
Lemma child_choice (l : list A) i n :
  2 * i + 1 < n → n ≤ length l →
  let j := if (2 * i + 1 + 1 <? n)%nat && less_at less l (2 * i + 1 + 1) (2 * i + 1)
           then 2 * i + 1 + 1 else 2 * i + 1 in
  parent j = i ∧ i < j ∧ j < n
  ∧ ∀ k x y, 0 < k → k < n → parent k = i → l !! k = Some x → l !! j = Some y → le y x.
Proof.
  intros Hn Hlen j. assert (parent j = i ∧ i < j ∧ j < n) as (H1 & H2 & H3).
  { subst j. destruct (_ && _) eqn:Hc.
    - apply andb_true_iff in Hc as [?%Nat.ltb_lt _]. rewrite parent_child; lia.
    - rewrite parent_child; lia. }
  split_and!; [done..|]. intros k x y Hk Hkn Hpk Hx Hy.
  destruct (decide (k = j)) as [->|Hkj]; [simplify_eq; apply le_refl|].
  apply parent_child in Hpk; [|done]. subst j.
  destruct ((2 * i + 1 + 1 <? n)%nat && less_at less l (2 * i + 1 + 1) (2 * i + 1)) eqn:Hc.
  - apply andb_true_iff in Hc as [_ (a & b & Ha & Hb & Hlt)%less_at_Some].
    assert (k = 2 * i + 1) as -> by lia. simplify_eq. by apply less_le.
  - assert (k = 2 * i + 1 + 1) as -> by lia. apply andb_false_iff in Hc as [?%Nat.ltb_ge|Hc]; [lia|].
    by apply (less_at_false l (2 * i + 1 + 1) (2 * i + 1)).
Qed.

Lemma down_step (l : list A) i j n :
  parent j = i → i < j → j < n →
  (∀ k x y, 0 < k → k < n → parent k = i → l !! k = Some x → l !! j = Some y → le y x) →
  less_at less l j i = true →
  heap_on (λ k, parent k ≠ i) n l → bridged i n l →
  heap_on (λ k, parent k ≠ j) n (swap l i j) ∧ bridged j n (swap l i j).
Proof.
  intros Hpj Hij Hjn Hmin (y & x & Hy & Hx & Hlt)%less_at_Some Hh Hb.
  apply less_le in Hlt as Hyx. split.
  - intros k a b Hk Hkn Hne. rewrite !(swap_lookup _ _ _ _ _ _ Hx Hy).
    destruct (decide (k = i)) as [->|Hki].
    + intros [= <-]. pose proof (parent_lt i Hk). rewrite !decide_False by lia.
      intros Hb'. apply (Hb j y b); try done; lia.
    + rewrite (decide_False (P := parent k = j)) by done.
      destruct (decide (k = j)) as [->|Hkj].
      * intros [= <-]. rewrite decide_True by done. by intros [= <-].
      * destruct (decide (parent k = i)) as [Hpk|Hpk].
        -- intros Ha [= <-]. by apply (Hmin k a y).
        -- intros Ha Hb'. by apply (Hh k).
  - intros k a b _ Hk Hkn Hpk. rewrite !(swap_lookup _ _ _ _ _ _ Hx Hy).
    pose proof (parent_lt k Hk). rewrite (decide_False (P := k = i)), (decide_False (P := k = j)) by lia.
    rewrite (decide_True (P := parent j = i)) by done. intros Ha [= <-].
    rewrite <- Hpk in Hy. apply (Hh k); try done. lia.
Qed.

Lemma down_spec fuel l i n :
  n < fuel + i → n ≤ length l → heap_on (λ k, parent k ≠ i) n l → bridged i n l →
  let l' := down less fuel l i n in
  heap_on (λ _, True) n l' ∧ l' ≡ₚ l ∧ (∀ k, n ≤ k → l' !! k = l !! k).
Proof.
  revert l i. induction fuel as [|fuel IH]; intros l i Hf Hn Hh Hb; cbn [down]; cbv zeta.
  { split_and!; [|done|done]. intros k x p Hk Hkn _. apply Hh; try done.
    pose proof (parent_lt k Hk). lia. }
  destruct (n <=? 2 * i + 1)%nat eqn:Hleaf; [apply Nat.leb_le in Hleaf|apply Nat.leb_gt in Hleaf].
  { split_and!; [|done|done]. intros k x p Hk Hkn _. apply Hh; try done.
    intros [|]%parent_child; lia. }
  destruct (child_choice l i n Hleaf Hn) as (Hpj & Hij & Hjn & Hmin).
  set (j := if (_ <? n)%nat && less_at _ _ _ _ then 2 * i + 1 + 1 else 2 * i + 1) in *. destruct (less_at less l j i) eqn:Hless; cbn [negb].
  - destruct (down_step l i j n) as [Hh' Hb']; try done.
    destruct (IH (swap l i j) j) as (IH1 & IH2 & IH3); [lia|by rewrite swap_length|done|done|].
    split_and!; [done|by rewrite IH2, swap_perm|]. intros k Hk. rewrite IH3 by done.
    apply less_at_Some in Hless as (y & x & Hy & Hx & _).
    rewrite (swap_lookup _ _ _ _ _ _ Hx Hy), !decide_False by lia. done.
  - split_and!; [|done|done]. intros k x p Hk Hkn _ Hx Hp.
    destruct (decide (parent k = i)) as [Hpk|Hpk]; [|by apply (Hh k)].
    rewrite Hpk in Hp. destruct (lookup_lt_is_Some_2 l j) as [y Hy]; [lia|].
    apply le_trans with y; [by apply (less_at_false l j i)|by apply (Hmin k x y)].
Qed.

(** The root of a heap is a least element. *)
Lemma heap_root_least l r : heap l → l !! 0 = Some r → ∀ x, x ∈ l → le r x.
Proof.
  intros Hl Hr x [i Hi]%list_elem_of_lookup. revert x Hi.
  induction (lt_wf i) as [i _ IH]. intros x Hi. destruct (decide (i = 0)) as [->|Hi0].
  { simplify_eq. apply le_refl. }
  pose proof (parent_lt i ltac:(lia)) as Hlt. pose proof (lookup_lt_Some _ _ _ Hi) as Hil.
  destruct (lookup_lt_is_Some_2 l (parent i)) as [p Hp]; [lia|].
  apply le_trans with p; [by apply (IH (parent i))|]. apply (Hl i x p); try done; lia.
Qed.

(** [Pop] on a non-empty heap takes out a least element. *)
Lemma heap_Pop_spec l :
  heap l → l ≠ [] →
  ∃ x l', heap_Pop less l = Some (x, l') ∧ heap l' ∧ l ≡ₚ x :: l' ∧ (∀ y, y ∈ l → le x y).
Proof.
  intros Hl Hne. assert (0 < length l) as Hpos by (destruct l; [done|simpl; lia]).
  destruct (lookup_lt_is_Some_2 l 0) as [r Hr]; [lia|].
  set (n := length l - 1). destruct (lookup_lt_is_Some_2 l n) as [z Hz]; [lia|].
  pose proof (swap_lookup l 0 n r z) as Hsw.
  destruct (down_spec (length l) (swap l 0 n) 0 n) as (H1 & H2 & H3).
  - lia.
  - rewrite swap_length. lia.
  - intros k x p Hk Hkn Hpk. pose proof (parent_lt k Hk). rewrite !Hsw, !decide_False by (done || lia).
    apply Hl; [done|lia|done].
  - intros k x p Hj. lia.
  - unfold heap_Pop. fold n. set (l' := down _ _ _ _ _) in *.
    assert (length l' = length l) as Hlen by (by rewrite (Permutation_length H2), swap_length).
    assert (l' !! n = Some r) as Hn.
    { rewrite H3, Hsw by done. case_decide as Hn0; [by rewrite Hn0 in Hz; simplify_eq|]. by rewrite decide_True. }
    rewrite Hn. exists r, (take n l'). split_and!; [done|..].
    + intros i x p Hi. rewrite length_take. intros Hin _. pose proof (parent_lt i Hi).
      rewrite !lookup_take_lt by lia. apply H1; [done|lia|done].
    + rewrite <- (swap_perm l 0 n), <- H2. rewrite <- (take_drop n l') at 1.
      rewrite (drop_S l' r n Hn), drop_ge by lia. by rewrite Permutation_app_comm.
    + intros y Hy. by apply (heap_root_least l).
Qed.
End proofs.
