(* ===== verification/Cache.v ===== *)
(** * Cache: the generation-fenced resource cache

    Models src/internal/services/resources/cache.go: [ResourceCache] with its
    byte and entry budgets, the reference-counted [CacheSubscription]s, refresh
    tokens, per-key and per-generation epochs and the eviction policy. The mutex
    makes every method one atomic step, so a method is a function from the cache
    (and the subscription it is called on) to its result and the new cache; the
    clock readings a method makes are arguments. Metrics and tracing spans are
    left out. [sort.Slice] is not stable and the map it sorts the keys of has no
    order, so the arrangement of the eviction candidates is an argument, too. *)
From Stdlib Require Import Ascii String ZArith Lia.
From stdpp Require Import base gmap strings list pretty fin_maps fin_map_dom.
From S2P Require Import Prelude Json Topics.

Definition DefaultResourceCacheMaxBytes : Z := 201326592.   (* 192 << 20 *)
Definition DefaultResourceCacheMaxEntries : Z := 2048.
Definition DefaultResourceCacheFreshFor : Z := 30000000000.  (* 30 s in ns *)
Definition DefaultResourceCacheMaxStale : Z := 300000000000. (* 5 min *)
Definition MaximumSnapshotItems : Z := 10000.

Inductive CacheState :=
| CacheStateFresh | CacheStateStale | CacheStateRefreshing | CacheStatePartial
| CacheStateExpired.

#[export] Instance CacheState_eq_dec : EqDecision CacheState.
Proof. solve_decision. Defined.

Record ResourceCacheQuery := {
  Filters : list string; Sort : string; Order : string; PageSize : Z; Cursor : string }.

Record ResourceCacheKey := { rk_WatchKey :> WatchKey; Query : ResourceCacheQuery }.

Record ResourceCacheConfig := {
  cfg_MaxBytes : Z; cfg_MaxEntries : Z; cfg_FreshFor : Z; cfg_MaxStale : Z }.

Record CachedSnapshot := {
  cs_Snapshot : WatchSnapshot; cs_State : CacheState; cs_StoredAt : Z; cs_LastUsed : Z;
  cs_Bytes : Z; cs_RefCount : Z; cs_Complete : bool }.

Record ResourceCacheStats := {
  stat_Entries : Z; stat_Bytes : Z; stat_Subscriptions : Z; stat_Evictions : Z;
  stat_Invalidations : Z }.

Record CacheRefreshToken := {
  tok_identity : string; tok_generation : string; tok_generationEpoch : Z;
  tok_keyEpoch : Z }.

Record resourceCacheEntry := {
  e_key : ResourceCacheKey; e_snapshot : WatchSnapshot; e_storedAt : Z; e_lastUsed : Z;
  e_freshUntil : Z; e_expiresAt : Z; e_bytes : Z; e_partial : bool; e_refreshing : bool }.

Record ResourceCache := {
  entries : gmap string resourceCacheEntry;
  refs : gmap string Z;
  keys : gmap string ResourceCacheKey;
  keyEpoch : gmap string Z;
  generationEpoch : gmap string Z;
  invalidatedGeneration : gset string;
  bytes : Z;
  evictions : Z;
  invalidations : Z;
  maxBytes : Z;
  maxEntries : Z;
  freshFor : Z;
  maxStale : Z }.

Record CacheSubscription := {
  sub_key : ResourceCacheKey; sub_identity : string; sub_generationEpoch : Z;
  sub_closed : bool }.

(** ** Field updates *)

Definition with_entries (c : ResourceCache) (m : gmap string resourceCacheEntry) (b : Z) :=
  {| entries := m; refs := refs c; keys := keys c; keyEpoch := keyEpoch c;
     generationEpoch := generationEpoch c; invalidatedGeneration := invalidatedGeneration c;
     bytes := b; evictions := evictions c; invalidations := invalidations c;
     maxBytes := maxBytes c; maxEntries := maxEntries c; freshFor := freshFor c;
     maxStale := maxStale c |}.
Definition with_refs (c : ResourceCache) (m : gmap string Z) :=
  {| entries := entries c; refs := m; keys := keys c; keyEpoch := keyEpoch c;
     generationEpoch := generationEpoch c; invalidatedGeneration := invalidatedGeneration c;
     bytes := bytes c; evictions := evictions c; invalidations := invalidations c;
     maxBytes := maxBytes c; maxEntries := maxEntries c; freshFor := freshFor c;
     maxStale := maxStale c |}.
Definition with_keys (c : ResourceCache) (k : gmap string ResourceCacheKey) (e : gmap string Z) :=
  {| entries := entries c; refs := refs c; keys := k; keyEpoch := e;
     generationEpoch := generationEpoch c; invalidatedGeneration := invalidatedGeneration c;
     bytes := bytes c; evictions := evictions c; invalidations := invalidations c;
     maxBytes := maxBytes c; maxEntries := maxEntries c; freshFor := freshFor c;
     maxStale := maxStale c |}.
Definition with_generations (c : ResourceCache) (g : gmap string Z) (i : gset string) :=
  {| entries := entries c; refs := refs c; keys := keys c; keyEpoch := keyEpoch c;
     generationEpoch := g; invalidatedGeneration := i;
     bytes := bytes c; evictions := evictions c; invalidations := invalidations c;
     maxBytes := maxBytes c; maxEntries := maxEntries c; freshFor := freshFor c;
     maxStale := maxStale c |}.
Definition with_counters (c : ResourceCache) (ev inv : Z) :=
  {| entries := entries c; refs := refs c; keys := keys c; keyEpoch := keyEpoch c;
     generationEpoch := generationEpoch c; invalidatedGeneration := invalidatedGeneration c;
     bytes := bytes c; evictions := ev; invalidations := inv;
     maxBytes := maxBytes c; maxEntries := maxEntries c; freshFor := freshFor c;
     maxStale := maxStale c |}.

(** [cache.keyEpoch[identity]++] *)
Definition bump_keyEpoch (c : ResourceCache) (identity : string) : ResourceCache :=
  with_keys c (keys c) (<[identity := u64_succ (get_or (keyEpoch c) identity 0%Z)]> (keyEpoch c)).

(** In-place update of an entry, if there is one. *)
Definition update_entry (c : ResourceCache) (identity : string)
    (f : resourceCacheEntry → resourceCacheEntry) : ResourceCache :=
  with_entries c (alter f identity (entries c)) (bytes c).

Definition entry_touch (now : Z) (e : resourceCacheEntry) : resourceCacheEntry :=
  {| e_key := e_key e; e_snapshot := e_snapshot e; e_storedAt := e_storedAt e;
     e_lastUsed := now; e_freshUntil := e_freshUntil e; e_expiresAt := e_expiresAt e;
     e_bytes := e_bytes e; e_partial := e_partial e; e_refreshing := e_refreshing e |}.
Definition entry_set_refreshing (b : bool) (e : resourceCacheEntry) : resourceCacheEntry :=
  {| e_key := e_key e; e_snapshot := e_snapshot e; e_storedAt := e_storedAt e;
     e_lastUsed := e_lastUsed e; e_freshUntil := e_freshUntil e; e_expiresAt := e_expiresAt e;
     e_bytes := e_bytes e; e_partial := e_partial e; e_refreshing := b |}.
Definition entry_stale (now : Z) (e : resourceCacheEntry) : resourceCacheEntry :=
  {| e_key := e_key e; e_snapshot := e_snapshot e; e_storedAt := e_storedAt e;
     e_lastUsed := e_lastUsed e; e_freshUntil := now; e_expiresAt := e_expiresAt e;
     e_bytes := e_bytes e; e_partial := e_partial e; e_refreshing := false |}.

(** ** Construction *)

Definition NewResourceCache (config : ResourceCacheConfig) : ResourceCache :=
  let mb := if (cfg_MaxBytes config <=? 0)%Z then DefaultResourceCacheMaxBytes
            else cfg_MaxBytes config in
  let me := if (cfg_MaxEntries config <=? 0)%Z then DefaultResourceCacheMaxEntries
            else cfg_MaxEntries config in
  let ff := if (cfg_FreshFor config <=? 0)%Z then DefaultResourceCacheFreshFor
            else cfg_FreshFor config in
  let ms := if (cfg_MaxStale config <? ff)%Z then DefaultResourceCacheMaxStale
            else cfg_MaxStale config in
  {| entries := ∅; refs := ∅; keys := ∅; keyEpoch := ∅; generationEpoch := ∅;
     invalidatedGeneration := ∅; bytes := 0; evictions := 0; invalidations := 0;
     maxBytes := mb; maxEntries := me; freshFor := ff; maxStale := ms |}.

(** ** Keys *)

Section keys.
Context `{GVRPrinter}.

Definition canonicalResourceCacheKey (key : ResourceCacheKey)
    : result error (ResourceCacheKey * string) :=
  if String.eqb (Generation key) "" || String.eqb (Context key) "" || String.eqb (Scope key) ""
     || String.eqb (Resource (key_GVR key)) ""
  then Err (validationError "resource cache binding is incomplete")
  else if negb (bool_decide (key_GVR key ∈ TopicGVRs (key_Topic key)))
  then Err (validationError "resource cache topic and resource do not match")
  else if (PageSize (Query key) <? 0)%Z
  then Err (validationError "resource cache page size is invalid")
  else
    let canonical := {|
      rk_WatchKey := {|
        Generation := Generation key; Context := Context key; Scope := Scope key;
        key_Topic := key_Topic key; key_GVR := key_GVR key; key_Namespace := key_Namespace key;
        Selector := TrimSpace (Selector key);
        EffectiveOrigins := canonicalCacheStrings (EffectiveOrigins key) |};
      Query := {|
        Filters := canonicalCacheStrings (Filters (Query key));
        Sort := TrimSpace (Sort (Query key));
        Order := ToLower (TrimSpace (Order (Query key)));
        PageSize := PageSize (Query key); Cursor := Cursor (Query key) |} |} in
    let parts := [
      Generation canonical; Context canonical; Scope canonical; key_Topic canonical;
      GVR_String (key_GVR canonical); key_Namespace canonical; Selector canonical;
      Join (EffectiveOrigins canonical) record_separator;
      Join (Filters (Query canonical)) record_separator; Sort (Query canonical);
      Order (Query canonical); json_int (PageSize (Query canonical));
      Cursor (Query canonical)] in
    Ok (canonical, Join parts nul).

End keys.

(** ** Snapshots *)

Definition is_nil_object (o : option TopicObject) : bool :=
  match o with None | Some (ObjNilPtr _) => true | _ => false end.

(** A JSON round trip: it fails on nil objects and otherwise rebuilds the object. *)
Definition cloneTopicObject (o : option TopicObject) : result error (option TopicObject) :=
  if is_nil_object o
  then Err (validationError "resource cache snapshot contains a nil object")
  else Ok o.

Fixpoint clone_items (items : list (option TopicObject))
    : result error (list (option TopicObject)) :=
  match items with
  | [] => Ok []
  | o :: rest =>
    match cloneTopicObject o with
    | Err e => Err e
    | Ok o' => match clone_items rest with Err e => Err e | Ok rest' => Ok (o' :: rest') end
    end
  end.

Definition cloneWatchSnapshot (s : WatchSnapshot) : result error WatchSnapshot :=
  match clone_items (Items s) with
  | Err e => Err e
  | Ok items => Ok {| ResourceVersion := ResourceVersion s; Items := items |}
  end.

Definition object_of_topic (t : Topic) (o : option TopicObject) : bool :=
  match o with
  | Some o' => negb (is_nil_object o) && bool_decide (resourceTopic o' = t)
  | None => false
  end.

Definition validatedCacheSnapshot (t : Topic) (s : WatchSnapshot)
    : result error (WatchSnapshot * Z) :=
  if (MaximumSnapshotItems <? Z.of_nat (length (Items s)))%Z
  then Err (domainError CodeLimitExceeded "The resource cache snapshot is too large." None)
  else if negb (forallb (object_of_topic t) (Items s))
  then Err (validationError "resource cache snapshot contains an object for another topic")
  else match cloneWatchSnapshot s with
       | Err e => Err e
       | Ok cloned => Ok (cloned, (len (items_json (Items s)) + len (ResourceVersion s))%Z)
       end.

(** ** Freshness *)

Definition entry_state (e : resourceCacheEntry) (now : Z) : CacheState :=
  if negb (now <? e_expiresAt e)%Z then CacheStateExpired
  else if e_refreshing e then CacheStateRefreshing
  else if e_partial e then CacheStatePartial
  else if negb (now <? e_freshUntil e)%Z then CacheStateStale
  else CacheStateFresh.

(** ** Removal and eviction *)

Definition removeEntryLocked (c : ResourceCache) (identity : string) (eviction : bool)
    : ResourceCache :=
  match entries c !! identity with
  | None => c
  | Some entry =>
    let c1 := with_entries c (delete identity (entries c)) (bytes c - e_bytes entry)%Z in
    let c2 := if (get_or (refs c) identity 0 =? 0)%Z
              then with_keys c1 (delete identity (keys c1)) (delete identity (keyEpoch c1))
              else c1 in
    if eviction then with_counters c2 (u64_succ (evictions c2)) (invalidations c2) else c2
  end.

Record candidate := { cand_identity : string; cand_expired : bool; cand_lastUsed : Z }.

Definition candidate_less (l r : candidate) : bool :=
  if negb (Bool.eqb (cand_expired l) (cand_expired r)) then cand_expired l
  else (cand_lastUsed l <? cand_lastUsed r)%Z.

Definition eviction_candidates (c : ResourceCache) (exclude : string) (now : Z)
    : list candidate :=
  (λ p : string * resourceCacheEntry,
     {| cand_identity := p.1; cand_expired := negb (now <? e_expiresAt p.2)%Z;
        cand_lastUsed := e_lastUsed p.2 |})
  <$> filter (λ p : string * resourceCacheEntry,
                p.1 ≠ exclude ∧ ¬ (get_or (refs c) p.1 0 > 0)%Z)
        (map_to_list (entries c)).

Definition within_budget (c : ResourceCache) (b n : Z) : bool :=
  (b <=? maxBytes c)%Z && (n <=? maxEntries c)%Z.

Definition entry_bytes (c : ResourceCache) (identity : string) : Z :=
  default 0%Z (e_bytes <$> entries c !! identity).

(** First pass: could evicting a prefix of the candidates make room? *)
Fixpoint evict_probe (c : ResourceCache) (l : list candidate) (b n : Z) : Z * Z :=
  match l with
  | [] => (b, n)
  | item :: rest =>
    let b' := (b - entry_bytes c (cand_identity item))%Z in
    let n' := (n - 1)%Z in
    if within_budget c b' n' then (b', n') else evict_probe c rest b' n'
  end.

(** Second pass: evict until the projection fits. *)
Fixpoint evict_loop (c : ResourceCache) (l : list candidate) (b n : Z) : bool * ResourceCache :=
  match l with
  | [] => (false, c)
  | item :: rest =>
    let b' := (b - entry_bytes c (cand_identity item))%Z in
    let n' := (n - 1)%Z in
    let c' := removeEntryLocked c (cand_identity item) true in
    if within_budget c b' n' then (true, c') else evict_loop c' rest b' n'
  end.

Definition entry_count (c : ResourceCache) : Z := Z.of_nat (size (entries c)).

Section eviction.
Variable arrange : list candidate → list candidate.

Definition evictForLocked (c : ResourceCache) (now : Z) (exclude : string)
    (additionalBytes : Z) (additionalEntry : bool) : bool * ResourceCache :=
  let projectedBytes := (bytes c + additionalBytes)%Z in
  let projectedEntries := (entry_count c + if additionalEntry then 1 else 0)%Z in
  if within_budget c projectedBytes projectedEntries then (true, c)
  else
    let candidates := arrange (eviction_candidates c exclude now) in
    let '(b, n) := evict_probe c candidates projectedBytes projectedEntries in
    if negb (within_budget c b n) then (false, c)
    else evict_loop c candidates projectedBytes projectedEntries.
End eviction.

(** What [sort.Slice] promises: a permutation of the candidates, sorted by
    (expired first, then least recently used). *)
Class CandidateSort (arrange : list candidate → list candidate) : Prop := {
  arrange_perm : ∀ l, arrange l ≡ₚ l;
  arrange_sorted : ∀ l, sorted_by candidate_less (arrange l) }.

(** ** Subscriptions *)

Definition currentLocked (c : ResourceCache) (s : CacheSubscription) : bool :=
  if decide (Generation (sub_key s) ∈ invalidatedGeneration c) then false
  else (sub_generationEpoch s =? get_or (generationEpoch c) (Generation (sub_key s)) 0)%Z.

Section subscribe.
Context `{GVRPrinter}.

Definition Subscribe (c : ResourceCache) (key : ResourceCacheKey)
    : result error CacheSubscription * ResourceCache :=
  match canonicalResourceCacheKey key with
  | Err e => (Err e, c)
  | Ok (canonical, identity) =>
    if decide (Generation canonical ∈ invalidatedGeneration c)
    then (Err (domainError CodeGenerationChanged "The cache generation is no longer active."
                 (Some ErrCacheGenerationInvalidated)), c)
    else
      let c1 := with_refs c (<[identity := (get_or (refs c) identity 0 + 1)%Z]> (refs c)) in
      let c2 := with_keys c1 (<[identity := canonical]> (keys c1)) (keyEpoch c1) in
      (Ok {| sub_key := canonical; sub_identity := identity;
             sub_generationEpoch := get_or (generationEpoch c2) (Generation canonical) 0%Z;
             sub_closed := false |}, c2)
  end.

Definition Invalidate (c : ResourceCache) (key : ResourceCacheKey)
    : option error * ResourceCache :=
  match canonicalResourceCacheKey key with
  | Err e => (Some e, c)
  | Ok (_, identity) =>
    let c1 := bump_keyEpoch c identity in
    let c2 := removeEntryLocked c1 identity false in
    (None, with_counters c2 (evictions c2) (u64_succ (invalidations c2)))
  end.

End subscribe.

Definition Load (c : ResourceCache) (s : CacheSubscription) (now : Z)
    : option CachedSnapshot * ResourceCache :=
  if sub_closed s then (None, c)
  else match entries c !! sub_identity s with
  | None => (None, c)
  | Some entry =>
    if negb (currentLocked c s) then (None, c)
    else
      let c1 := update_entry c (sub_identity s) (entry_touch now) in
      let state := entry_state entry now in
      match cloneWatchSnapshot (e_snapshot entry) with
      | Err _ => (None, c1)
      | Ok snapshot =>
        (Some {| cs_Snapshot := snapshot; cs_State := state; cs_StoredAt := e_storedAt entry;
                 cs_LastUsed := now; cs_Bytes := e_bytes entry;
                 cs_RefCount := get_or (refs c) (sub_identity s) 0%Z;
                 cs_Complete := negb (e_partial entry)
                                && negb (bool_decide (state = CacheStateExpired)) |}, c1)
      end
  end.

Definition BeginRefresh (c : ResourceCache) (s : CacheSubscription) (now : Z)
    : result error CacheRefreshToken * ResourceCache :=
  if sub_closed s || negb (currentLocked c s) then (Err ErrCacheWriteFenced, c)
  else
    let c1 := bump_keyEpoch c (sub_identity s) in
    let c2 := update_entry c1 (sub_identity s)
                (λ e, entry_touch now (entry_set_refreshing true e)) in
    (Ok {| tok_identity := sub_identity s; tok_generation := Generation (sub_key s);
           tok_generationEpoch := sub_generationEpoch s;
           tok_keyEpoch := get_or (keyEpoch c2) (sub_identity s) 0%Z |}, c2).

(** The guard under the lock that fences late writers. *)
Definition commit_allowed (c : ResourceCache) (s : CacheSubscription) (token : CacheRefreshToken)
    : bool :=
  negb (sub_closed s) && currentLocked c s
  && String.eqb (tok_identity token) (sub_identity s)
  && String.eqb (tok_generation token) (Generation (sub_key s))
  && (tok_generationEpoch token =? get_or (generationEpoch c) (Generation (sub_key s)) 0)%Z
  && (tok_keyEpoch token =? get_or (keyEpoch c) (sub_identity s) 0)%Z.

Section commit.
Variable arrange : list candidate → list candidate.

(** [nowEvict] and [now] are the readings of [evictForLocked] and of the store. *)
Definition Commit (c : ResourceCache) (s : CacheSubscription) (token : CacheRefreshToken)
    (snapshot : WatchSnapshot) (partial : bool) (nowEvict now : Z)
    : option error * ResourceCache :=
  if sub_closed s then (Some ErrCacheWriteFenced, c)
  else match validatedCacheSnapshot (key_Topic (sub_key s)) snapshot with
  | Err e => (Some e, c)
  | Ok (cloned, size) =>
    if negb (commit_allowed c s token) then (Some ErrCacheWriteFenced, c)
    else
      let previousBytes := entry_bytes c (sub_identity s) in
      let isNew := match entries c !! sub_identity s with None => true | Some _ => false end in
      let '(room, c1) :=
        if (maxBytes c <? size)%Z then (false, c)
        else evictForLocked arrange c nowEvict (sub_identity s) (size - previousBytes)%Z isNew in
      if negb room then
        (Some (domainError CodeLimitExceeded "The resource cache memory budget is exhausted." None),
         update_entry c1 (sub_identity s) (entry_set_refreshing false))
      else
        let entry := {|
          e_key := sub_key s; e_snapshot := cloned; e_storedAt := now; e_lastUsed := now;
          e_freshUntil := (now + freshFor c1)%Z; e_expiresAt := (now + maxStale c1)%Z;
          e_bytes := size; e_partial := partial; e_refreshing := false |} in
        (None, with_entries c1 (<[sub_identity s := entry]> (entries c1))
                 (bytes c1 + (size - previousBytes))%Z)
  end.
End commit.

Definition AbortRefresh (c : ResourceCache) (s : CacheSubscription) (token : CacheRefreshToken)
    : ResourceCache :=
  if negb (String.eqb (tok_identity token) (sub_identity s))
     || negb (tok_generationEpoch token =? get_or (generationEpoch c) (Generation (sub_key s)) 0)%Z
     || negb (tok_keyEpoch token =? get_or (keyEpoch c) (sub_identity s) 0)%Z
  then c
  else update_entry c (sub_identity s) (entry_set_refreshing false).

Definition MarkStale (c : ResourceCache) (s : CacheSubscription) (now : Z) : ResourceCache :=
  if sub_closed s || negb (currentLocked c s) then c
  else update_entry c (sub_identity s) (entry_stale now).

(** [Close]: the first call wins the compare-and-swap; later ones do nothing. *)
Definition sub_close (s : CacheSubscription) : CacheSubscription :=
  {| sub_key := sub_key s; sub_identity := sub_identity s;
     sub_generationEpoch := sub_generationEpoch s; sub_closed := true |}.

Definition Close (c : ResourceCache) (s : CacheSubscription)
    : CacheSubscription * ResourceCache :=
  if sub_closed s then (s, c)
  else
    let i := sub_identity s in
    let n := get_or (refs c) i 0%Z in
    (sub_close s,
     if (n >? 1)%Z then with_refs c (<[i := (n - 1)%Z]> (refs c))
     else
       let c1 := with_refs c (delete i (refs c)) in
       match entries c !! i with
       | None => with_keys c1 (delete i (keys c1)) (delete i (keyEpoch c1))
       | Some _ => c1
       end).

(** One round of [InvalidateGeneration]'s loop over [cache.keys]. *)
Definition invalidate_identity (c : ResourceCache) (identity : string) : ResourceCache :=
  bump_keyEpoch (removeEntryLocked c identity false) identity.

Definition generation_identities (c : ResourceCache) (generation : string) : list string :=
  fst <$> filter (λ p : string * ResourceCacheKey, Generation p.2 = generation)
            (map_to_list (keys c)).

Definition InvalidateGeneration (c : ResourceCache) (generation : string) : ResourceCache :=
  if String.eqb generation "" then c
  else
    let c1 := with_generations c
      (<[generation := u64_succ (get_or (generationEpoch c) generation 0%Z)]> (generationEpoch c))
      ({[generation]} ∪ invalidatedGeneration c) in
    let ids := generation_identities c1 generation in
    let labels := length (filter (λ i, is_Some (entries c1 !! i)) ids) in
    let c2 := foldl invalidate_identity c1 ids in
    with_counters c2 (evictions c2) (u64_add (invalidations c2) (Z.of_nat labels)).

Definition EvictInactive (c : ResourceCache) (idleFor now : Z) : Z * ResourceCache :=
  if (idleFor <? 0)%Z then (0%Z, c)
  else
    let cutoff := (now - idleFor)%Z in
    let idle := fst <$> filter (λ p : string * resourceCacheEntry,
                   get_or (refs c) p.1 0%Z = 0%Z ∧ ¬ (cutoff < e_lastUsed p.2)%Z)
                 (map_to_list (entries c)) in
    (Z.of_nat (length idle), foldl (λ c i, removeEntryLocked c i true) c idle).

Definition Stats (c : ResourceCache) : ResourceCacheStats :=
  {| stat_Entries := entry_count c; stat_Bytes := bytes c;
     stat_Subscriptions := map_sum id (refs c); stat_Evictions := evictions c;
     stat_Invalidations := invalidations c |}.
