(* ===== verification/CacheInvariant.v ===== *)
(** * CacheInvariant: what the resource cache keeps true

    A [world] is a cache together with the subscriptions handed out so far; an
    [op] is one method call, and [run] executes a sequence of them. Every state
    reachable from [NewResourceCache] satisfies [cache_inv]: the byte counter is
    the sum of the stored sizes and stays within the budgets, reference counts
    are the numbers of open subscriptions, and no entry of an invalidated
    generation is kept. On top of it: eviction takes only unreferenced entries,
    least valuable first and all or nothing; a refresh token loses its right to
    commit as soon as a newer refresh or an invalidation happens. *)
From Stdlib Require Import Ascii String ZArith Lia.
From stdpp Require Import base gmap strings list pretty fin_maps fin_map_dom sets.
From S2P Require Import Prelude Json Topics Cache.

(** ** Worlds and operations *)

Record world := { w_cache : ResourceCache; w_subs : gmap nat CacheSubscription }.

Inductive op :=
| OpSubscribe (h : nat) (key : ResourceCacheKey)
| OpLoad (h : nat) (now : Z)
| OpBeginRefresh (h : nat) (now : Z)
| OpCommit (h : nat) (token : CacheRefreshToken) (snapshot : WatchSnapshot) (partial : bool)
    (nowEvict now : Z)
| OpAbortRefresh (h : nat) (token : CacheRefreshToken)
| OpMarkStale (h : nat) (now : Z)
| OpClose (h : nat)
| OpInvalidate (key : ResourceCacheKey)
| OpInvalidateGeneration (generation : string)
| OpEvictInactive (idleFor now : Z).

Section world.
Context `{GVRPrinter} (arrange : list candidate → list candidate).

(** Call a method of the subscription behind handle [h], if there is one. *)
Definition on_sub (w : world) (h : nat) (f : CacheSubscription → world) : world :=
  match w_subs w !! h with Some s => f s | None => w end.
Definition set_cache (w : world) (c : ResourceCache) : world :=
  {| w_cache := c; w_subs := w_subs w |}.

Definition run_op (w : world) (o : op) : world :=
  let c := w_cache w in
  match o with
  | OpSubscribe h key =>
    if decide (is_Some (w_subs w !! h)) then w
    else match Subscribe c key with
         | (Ok s, c') => {| w_cache := c'; w_subs := <[h := s]> (w_subs w) |}
         | (Err _, c') => set_cache w c'
         end
  | OpLoad h now => on_sub w h (λ s, set_cache w (Load c s now).2)
  | OpBeginRefresh h now => on_sub w h (λ s, set_cache w (BeginRefresh c s now).2)
  | OpCommit h token snapshot partial t1 t2 =>
    on_sub w h (λ s, set_cache w (Commit arrange c s token snapshot partial t1 t2).2)
  | OpAbortRefresh h token => on_sub w h (λ s, set_cache w (AbortRefresh c s token))
  | OpMarkStale h now => on_sub w h (λ s, set_cache w (MarkStale c s now))
  | OpClose h =>
    on_sub w h (λ s, {| w_cache := (Close c s).2; w_subs := <[h := (Close c s).1]> (w_subs w) |})
  | OpInvalidate key => set_cache w (Invalidate c key).2
  | OpInvalidateGeneration g => set_cache w (InvalidateGeneration c g)
  | OpEvictInactive idle now => set_cache w (EvictInactive c idle now).2
  end.

Definition run (w : world) (ops : list op) : world := foldl run_op w ops.
End world.

Definition init_world (config : ResourceCacheConfig) : world :=
  {| w_cache := NewResourceCache config; w_subs := ∅ |}.

(** Generations are minted as "gen_" plus base64url text: no NUL byte. *)
Definition op_ok (o : op) : Prop :=
  match o with OpSubscribe _ key => nul_free (Generation key) | _ => True end.

#[export] Instance op_ok_dec o : Decision (op_ok o).
Proof. destruct o; simpl; apply _. Defined.

(** ** The invariant *)

Definition sub_open_at (i : string) (s : CacheSubscription) : Z :=
  if sub_closed s then 0%Z else if decide (sub_identity s = i) then 1%Z else 0%Z.
Definition open_count (subs : gmap nat CacheSubscription) (i : string) : Z :=
  map_sum (sub_open_at i) subs.

Record cache_inv (c : ResourceCache) (subs : gmap nat CacheSubscription) : Prop := {
  inv_bytes : bytes c = map_sum e_bytes (entries c);
  inv_sizes : ∀ i e, entries c !! i = Some e → (0 ≤ e_bytes e)%Z;
  inv_bytes_budget : (bytes c ≤ maxBytes c)%Z;
  inv_entries_budget : (entry_count c ≤ maxEntries c)%Z;
  inv_refs : ∀ i, get_or (refs c) i 0%Z = open_count subs i;
  inv_entry_key : ∀ i e, entries c !! i = Some e →
    ∃ k : ResourceCacheKey, keys c !! i = Some k ∧ Generation k = Generation (e_key e);
  inv_sub_key : ∀ h s, subs !! h = Some s → sub_closed s = false →
    ∃ k : ResourceCacheKey, keys c !! sub_identity s = Some k ∧ Generation k = Generation (sub_key s);
  inv_key_nul_free : ∀ i (k : ResourceCacheKey), keys c !! i = Some k →
    nul_free (Generation k) ∧ ∃ rest, i = Generation k +:+ nul +:+ rest;
  inv_live : ∀ i e, entries c !! i = Some e →
    Generation (e_key e) ∉ invalidatedGeneration c }.

Definition world_inv (w : world) : Prop := cache_inv (w_cache w) (w_subs w).

(** * Lemmas *)

(** ** Open subscriptions *)

Lemma sub_open_at_nonneg i s : (0 ≤ sub_open_at i s)%Z.
Proof. unfold sub_open_at. repeat case_match; lia. Qed.

Lemma open_count_nonneg subs i : (0 ≤ open_count subs i)%Z.
Proof. apply map_sum_nonneg. intros; apply sub_open_at_nonneg. Qed.

Lemma open_count_pos subs h s :
  subs !! h = Some s → sub_closed s = false → (1 ≤ open_count subs (sub_identity s))%Z.
Proof.
  intros Hs Hc. pose proof (open_count_nonneg (delete h subs) (sub_identity s)) as Hn.
  unfold open_count in *. rewrite (map_sum_delete _ _ _ s) in Hn by done.
  assert (sub_open_at (sub_identity s) s = 1%Z) as Hone; [|lia].
  unfold sub_open_at. rewrite Hc. by rewrite decide_True.
Qed.

(** ** The identity string determines the generation *)

Section with_printer.
Context `{GVRPrinter}.

Lemma canonical_generation key canonical i :
  canonicalResourceCacheKey key = Ok (canonical, i) →
  Generation canonical = Generation key ∧ ∃ rest, i = Generation key +:+ nul +:+ rest.
Proof.
  unfold canonicalResourceCacheKey. intros Hk. repeat case_match; simplify_eq.
  split; [done|]. eexists. reflexivity.
Qed.
End with_printer.

(** ** Removing entries *)

Section remove.
Variables (c : ResourceCache) (subs : gmap nat CacheSubscription).

Lemma removeEntry_entries i ev :
  entries (removeEntryLocked c i ev) = delete i (entries c).
Proof.
  unfold removeEntryLocked. destruct (entries c !! i) eqn:Hi.
  - repeat case_match; done.
  - by rewrite delete_id.
Qed.

Lemma removeEntry_bytes i ev :
  bytes (removeEntryLocked c i ev) = (bytes c - entry_bytes c i)%Z.
Proof.
  unfold removeEntryLocked, entry_bytes. destruct (entries c !! i) eqn:Hi; simpl; [|lia].
  repeat case_match; done.
Qed.

Lemma removeEntry_frame i ev :
  refs (removeEntryLocked c i ev) = refs c
  ∧ maxBytes (removeEntryLocked c i ev) = maxBytes c
  ∧ maxEntries (removeEntryLocked c i ev) = maxEntries c
  ∧ freshFor (removeEntryLocked c i ev) = freshFor c
  ∧ maxStale (removeEntryLocked c i ev) = maxStale c
  ∧ generationEpoch (removeEntryLocked c i ev) = generationEpoch c
  ∧ invalidatedGeneration (removeEntryLocked c i ev) = invalidatedGeneration c.
Proof. unfold removeEntryLocked. repeat case_match; done. Qed.

(** Keys and epochs change only at [i], and only when nobody refers to it. *)
Lemma removeEntry_keys i ev j :
  j ≠ i ∨ get_or (refs c) i 0%Z ≠ 0%Z →
  keys (removeEntryLocked c i ev) !! j = keys c !! j
  ∧ keyEpoch (removeEntryLocked c i ev) !! j = keyEpoch c !! j.
Proof.
  unfold removeEntryLocked. intros Hj.
  destruct (entries c !! i) eqn:Hi; [|done].
  destruct (_ =? _)%Z eqn:Hr; destruct ev; simpl; bool_to_prop; try done;
    rewrite !lookup_delete_ne; try done; naive_solver.
Qed.

Lemma removeEntry_keys_sub i ev j (k : ResourceCacheKey) :
  keys (removeEntryLocked c i ev) !! j = Some k → keys c !! j = Some k.
Proof.
  unfold removeEntryLocked. repeat case_match; simpl; try done;
    rewrite lookup_delete_Some; by intros [_ ?].
Qed.
End remove.

Lemma entry_count_delete c i e (m := delete i (entries c)) :
  entries c !! i = Some e → (Z.of_nat (size m) = entry_count c - 1)%Z.
Proof.
  intros Hi. unfold entry_count, m. rewrite (map_size_delete_Some _ _ (mk_is_Some _ _ Hi)).
  assert (size (entries c) ≠ 0); [|lia].
  rewrite map_size_ne_0_lookup. exists i, e. done.
Qed.

Lemma entry_count_delete_le c i :
  (Z.of_nat (size (delete i (entries c))) ≤ entry_count c)%Z.
Proof.
  destruct (entries c !! i) eqn:Hi.
  - rewrite (entry_count_delete c i _ Hi). lia.
  - rewrite delete_id by done. done.
Qed.

Lemma removeEntry_inv c subs i ev :
  cache_inv c subs → cache_inv (removeEntryLocked c i ev) subs.
Proof.
  intros Hinv.
  destruct (removeEntry_frame c i ev) as (Hrefs & HmB & HmE & _ & _ & _ & Hig).
  assert (∀ j, j ≠ i ∨ (open_count subs i ≠ 0)%Z →
    keys (removeEntryLocked c i ev) !! j = keys c !! j) as Hkeys.
  { intros j Hj. apply removeEntry_keys. by rewrite (inv_refs _ _ Hinv). }
  split; rewrite ?Hrefs, ?HmB, ?HmE, ?Hig.
  - rewrite removeEntry_bytes, removeEntry_entries, (inv_bytes _ _ Hinv). unfold entry_bytes.
    destruct (entries c !! i) eqn:Hi; simpl.
    + by rewrite (map_sum_delete _ _ _ _ Hi).
    + rewrite delete_id by done. lia.
  - intros j e. rewrite removeEntry_entries, lookup_delete_Some. intros [_ He].
    by eapply inv_sizes.
  - rewrite removeEntry_bytes. pose proof (inv_bytes_budget _ _ Hinv).
    unfold entry_bytes. destruct (entries c !! i) as [e|] eqn:Hi; simpl; [|lia].
    pose proof (inv_sizes _ _ Hinv _ _ Hi). lia.
  - unfold entry_count at 1. rewrite removeEntry_entries.
    pose proof (entry_count_delete_le c i). pose proof (inv_entries_budget _ _ Hinv). lia.
  - apply Hinv.
  - intros j e. rewrite removeEntry_entries, lookup_delete_Some. intros [Hne He].
    rewrite Hkeys by (left; congruence). by eapply inv_entry_key.
  - intros h s Hs Ho. rewrite Hkeys; [by eapply inv_sub_key|].
    destruct (decide (sub_identity s = i)) as [<-|]; [right|by left].
    pose proof (open_count_pos _ _ _ Hs Ho). lia.
  - intros j k Hk%removeEntry_keys_sub. by eapply inv_key_nul_free.
  - intros j e. rewrite removeEntry_entries, lookup_delete_Some. intros [_ He].
    by eapply inv_live.
Qed.

(** ** Eviction *)

(** A list of candidates the loops can process: distinct stored identities. *)
Definition candidates_ok (c : ResourceCache) (l : list candidate) : Prop :=
  NoDup (cand_identity <$> l) ∧ ∀ x, x ∈ l → is_Some (entries c !! cand_identity x).

Lemma candidates_ok_tail c x l ev :
  candidates_ok c (x :: l) →
  candidates_ok (removeEntryLocked c (cand_identity x) ev) l
  ∧ (∀ y, y ∈ l →
      entry_bytes (removeEntryLocked c (cand_identity x) ev) (cand_identity y)
      = entry_bytes c (cand_identity y)).
Proof.
  intros [Hnd Hin]. rewrite fmap_cons, NoDup_cons in Hnd. destruct Hnd as [Hx Hnd].
  assert (∀ y, y ∈ l → cand_identity x ≠ cand_identity y) as Hne.
  { intros y Hy Heq. apply Hx. rewrite Heq. by apply list_elem_of_fmap_2. }
  split; [split|].
  - done.
  - intros y Hy. rewrite removeEntry_entries, lookup_delete_ne by auto. apply Hin. by right.
  - intros y Hy. unfold entry_bytes. rewrite removeEntry_entries, lookup_delete_ne by auto. done.
Qed.

Lemma within_budget_frame c c' b n :
  maxBytes c' = maxBytes c → maxEntries c' = maxEntries c →
  within_budget c' b n = within_budget c b n.
Proof. unfold within_budget. by intros -> ->. Qed.

Lemma evict_probe_frame c c' l b n :
  maxBytes c' = maxBytes c → maxEntries c' = maxEntries c →
  (∀ y, y ∈ l → entry_bytes c' (cand_identity y) = entry_bytes c (cand_identity y)) →
  evict_probe c' l b n = evict_probe c l b n.
Proof.
  intros HB HE. revert b n; induction l as [|x l IH]; intros b n Hl; simpl; [done|].
  rewrite (within_budget_frame c c'), (Hl x) by (done || left).
  rewrite IH; [done|]. intros y Hy. apply Hl. by right.
Qed.

(** The two passes agree: if the probe finds room, the loop makes it. *)
Lemma evict_probe_loop c l b n :
  candidates_ok c l → within_budget c b n = false →
  within_budget c (evict_probe c l b n).1 (evict_probe c l b n).2 = true →
  (evict_loop c l b n).1 = true.
Proof.
  revert c b n; induction l as [|x l IH]; intros c b n Hok Hno; simpl; [congruence|].
  destruct (within_budget c (b - entry_bytes c (cand_identity x)) (n - 1)) eqn:Hfit; [done|].
  destruct (removeEntry_frame c (cand_identity x) true) as (_ & HB & HE & _).
  destruct (candidates_ok_tail c x l true Hok) as [Hok' Hbytes].
  set (c' := removeEntryLocked c (cand_identity x) true) in *.
  rewrite <- (evict_probe_frame c c' l) by done. intros Hroom.
  apply IH; [done|by rewrite (within_budget_frame c)|by rewrite (within_budget_frame c)].
Qed.

(** What the loop has done when it reports success. *)
Lemma evict_loop_true c l b n add k c' :
  candidates_ok c l →
  b = (bytes c + add)%Z → n = (entry_count c + k)%Z →
  evict_loop c l b n = (true, c') →
  within_budget c (bytes c' + add) (entry_count c' + k) = true.
Proof.
  revert c b n; induction l as [|x l IH]; intros c b n Hok -> ->; simpl; [done|].
  destruct (removeEntry_frame c (cand_identity x) true) as (_ & HB & HE & _).
  destruct (candidates_ok_tail c x l true Hok) as [Hok' _].
  destruct (proj2 Hok x) as [e He]; [left|].
  assert (entry_count (removeEntryLocked c (cand_identity x) true) = entry_count c - 1)%Z as Hcnt.
  { unfold entry_count at 1. rewrite removeEntry_entries. by apply (entry_count_delete c _ e). }
  pose proof (removeEntry_bytes c (cand_identity x) true) as Hbytes.
  destruct (within_budget c _ _) eqn:Hfit.
  - intros [= <-]. rewrite Hcnt, Hbytes. rewrite <- Hfit. f_equal; lia.
  - intros Hl. rewrite <- (within_budget_frame c (removeEntryLocked c (cand_identity x) true)) by done.
    eapply (IH _ _ _ Hok'); [| |exact Hl]; lia.
Qed.

(** Whatever the outcome: only candidates are removed, budgets and reference
    counts stay, and the invariant is kept. *)
Lemma evict_loop_frame c l b n :
  let c' := (evict_loop c l b n).2 in
  refs c' = refs c ∧ maxBytes c' = maxBytes c ∧ maxEntries c' = maxEntries c
  ∧ freshFor c' = freshFor c ∧ maxStale c' = maxStale c
  ∧ generationEpoch c' = generationEpoch c
  ∧ invalidatedGeneration c' = invalidatedGeneration c
  ∧ (∀ i, i ∉ (cand_identity <$> l) → entries c' !! i = entries c !! i
        ∧ keys c' !! i = keys c !! i ∧ keyEpoch c' !! i = keyEpoch c !! i).
Proof.
  revert c b n; induction l as [|x l IH]; intros c b n; simpl; [naive_solver|].
  destruct (removeEntry_frame c (cand_identity x) true) as (H1 & H2 & H3 & H4 & H5 & H6 & H7).
  assert (∀ i, i ∉ cand_identity x :: (cand_identity <$> l) →
    entries (removeEntryLocked c (cand_identity x) true) !! i = entries c !! i
    ∧ keys (removeEntryLocked c (cand_identity x) true) !! i = keys c !! i
    ∧ keyEpoch (removeEntryLocked c (cand_identity x) true) !! i = keyEpoch c !! i) as Hfr.
  { intros i Hi. rewrite removeEntry_entries, lookup_delete_ne by set_solver.
    split; [done|]. apply removeEntry_keys. left. set_solver. }
  destruct (within_budget c _ _); simpl; [naive_solver|].
  specialize (IH (removeEntryLocked c (cand_identity x) true)
    (b - entry_bytes c (cand_identity x))%Z (n - 1)%Z). simpl in IH.
  destruct IH as (I1 & I2 & I3 & I4 & I5 & I6 & I7 & I8).
  split_and!; [congruence..|].
  intros i Hi.
  destruct (I8 i) as (-> & -> & ->); [set_solver|]. by apply Hfr.
Qed.

Lemma evict_loop_inv c subs l b n :
  cache_inv c subs → cache_inv (evict_loop c l b n).2 subs.
Proof.
  revert c b n; induction l as [|x l IH]; intros c b n Hinv; simpl; [done|].
  destruct (within_budget c _ _); simpl; [by apply removeEntry_inv|].
  by apply IH, removeEntry_inv.
Qed.

Section evict.
Context (arrange : list candidate → list candidate) `{!CandidateSort arrange}.

Lemma eviction_candidates_elem c exclude now x :
  x ∈ eviction_candidates c exclude now ↔
  ∃ e, entries c !! cand_identity x = Some e ∧ cand_identity x ≠ exclude
    ∧ ¬ (get_or (refs c) (cand_identity x) 0 > 0)%Z
    ∧ cand_expired x = negb (now <? e_expiresAt e)%Z ∧ cand_lastUsed x = e_lastUsed e.
Proof.
  unfold eviction_candidates. rewrite list_elem_of_fmap. split.
  - intros ([i e] & -> & Hin). rewrite list_elem_of_filter, elem_of_map_to_list in Hin.
    exists e. naive_solver.
  - intros (e & He & Hne & Href & Hx & Hu). exists (cand_identity x, e).
    rewrite list_elem_of_filter, elem_of_map_to_list. destruct x; simpl in *; subst. done.
Qed.

Lemma candidates_ok_arranged c exclude now :
  candidates_ok c (arrange (eviction_candidates c exclude now)).
Proof.
  split.
  - rewrite (arrange_perm (eviction_candidates c exclude now)). unfold eviction_candidates.
    rewrite <- list_fmap_compose. unfold compose; simpl.
    apply (NoDup_fmap_filter fst), NoDup_fst_map_to_list.
  - intros x. rewrite (arrange_perm (eviction_candidates c exclude now)).
    rewrite eviction_candidates_elem. intros (e & He & _). by exists e.
Qed.

(** Eviction is all or nothing: a refusal leaves the cache as it was. *)
Lemma evictFor_false c now exclude add isNew c' :
  evictForLocked arrange c now exclude add isNew = (false, c') → c' = c.
Proof.
  unfold evictForLocked. destruct (within_budget c _ _) eqn:Hfit; [done|].
  destruct (evict_probe _ _ _ _) as [b n] eqn:Hp.
  destruct (within_budget c b n) eqn:Hroom; simpl; [|by intros [= <-]].
  pose proof (evict_probe_loop c (arrange (eviction_candidates c exclude now)) _ _
    (candidates_ok_arranged c exclude now) Hfit) as Hl.
  rewrite Hp in Hl. specialize (Hl Hroom). intros Heq. rewrite Heq in Hl. done.
Qed.

Lemma evictFor_true c now exclude add isNew c' :
  evictForLocked arrange c now exclude add isNew = (true, c') →
  within_budget c (bytes c' + add) (entry_count c' + if isNew then 1 else 0)%Z = true.
Proof.
  unfold evictForLocked. destruct (within_budget c _ _) eqn:Hfit; [by intros [= <-]|].
  destruct (evict_probe _ _ _ _) as [b n] eqn:Hp.
  destruct (negb (within_budget c b n)); simpl; [done|].
  intros Hl. by eapply evict_loop_true; [apply candidates_ok_arranged|..|exact Hl].
Qed.

(** Referenced entries, and the one being written, are never evicted. *)
Lemma evictFor_frame c now exclude add isNew :
  let c' := (evictForLocked arrange c now exclude add isNew).2 in
  refs c' = refs c ∧ maxBytes c' = maxBytes c ∧ maxEntries c' = maxEntries c
  ∧ freshFor c' = freshFor c ∧ maxStale c' = maxStale c
  ∧ generationEpoch c' = generationEpoch c
  ∧ invalidatedGeneration c' = invalidatedGeneration c
  ∧ (∀ i, i = exclude ∨ (get_or (refs c) i 0 > 0)%Z → entries c' !! i = entries c !! i
        ∧ keys c' !! i = keys c !! i ∧ keyEpoch c' !! i = keyEpoch c !! i).
Proof.
  unfold evictForLocked. destruct (within_budget c _ _); [naive_solver|].
  destruct (evict_probe _ _ _ _) as [b n].
  destruct (negb (within_budget c b n)); [naive_solver|].
  destruct (evict_loop_frame c (arrange (eviction_candidates c exclude now))
    (bytes c + add)%Z (entry_count c + if isNew then 1 else 0)%Z)
    as (I1 & I2 & I3 & I4 & I5 & I6 & I7 & I8).
  split_and!; [done..|]. intros i Hi. apply I8.
  rewrite (arrange_perm (eviction_candidates c exclude now)), list_elem_of_fmap.
  intros (x & -> & Hx). rewrite eviction_candidates_elem in Hx. naive_solver.
Qed.

Lemma evictFor_inv c subs now exclude add isNew :
  cache_inv c subs → cache_inv (evictForLocked arrange c now exclude add isNew).2 subs.
Proof.
  intros Hinv. unfold evictForLocked. destruct (within_budget c _ _); [done|].
  destruct (evict_probe _ _ _ _) as [b n].
  destruct (negb (within_budget c b n)); [done|]. by apply evict_loop_inv.
Qed.
End evict.

(** ** Every operation preserves the invariant *)

Definition entry_stable (f : resourceCacheEntry → resourceCacheEntry) : Prop :=
  ∀ e, e_bytes (f e) = e_bytes e ∧ e_key (f e) = e_key e.

Lemma update_entry_lookup c i f j e :
  entries (update_entry c i f) !! j = Some e →
  ∃ e0, entries c !! j = Some e0 ∧ (e = e0 ∨ e = f e0).
Proof.
  simpl. rewrite lookup_alter. case_decide; subst.
  - destruct (entries c !! j); simpl; [|done]. intros [= <-]. eauto.
  - eauto.
Qed.

Lemma update_entry_sum c i f :
  entry_stable f → map_sum e_bytes (entries (update_entry c i f)) = map_sum e_bytes (entries c).
Proof.
  intros Hf. simpl. destruct (entries c !! i) as [e|] eqn:Hi.
  - rewrite <- (insert_id (entries c) i e Hi) at 1. rewrite alter_insert_eq.
    rewrite (map_sum_overwrite _ _ _ e) by done. rewrite (proj1 (Hf e)). lia.
  - f_equal. apply map_eq. intros j. rewrite lookup_alter. case_decide; [|done].
    subst. by rewrite Hi.
Qed.

Lemma update_entry_inv c subs i f :
  entry_stable f → cache_inv c subs → cache_inv (update_entry c i f) subs.
Proof.
  intros Hf Hinv. split; try apply Hinv.
  - rewrite update_entry_sum by done. apply Hinv.
  - intros j e (e0 & He0 & He)%update_entry_lookup. pose proof (inv_sizes _ _ Hinv _ _ He0).
    destruct He as [->| ->]; [done|]. by rewrite (proj1 (Hf e0)).
  - pose proof (inv_entries_budget _ _ Hinv) as Hb. unfold entry_count in *. simpl.
    by rewrite <- (size_dom (D := gset string)), dom_alter_L, size_dom.
  - intros j e (e0 & He0 & He)%update_entry_lookup.
    destruct (inv_entry_key _ _ Hinv _ _ He0) as (k & Hk & Hg). exists k. split; [done|].
    destruct He as [->| ->]; [done|]. by rewrite (proj2 (Hf e0)).
  - intros j e (e0 & He0 & He)%update_entry_lookup. pose proof (inv_live _ _ Hinv _ _ He0).
    destruct He as [->| ->]; [done|]. by rewrite (proj2 (Hf e0)).
Qed.

Lemma touch_stable now : entry_stable (entry_touch now).
Proof. done. Qed.
Lemma refreshing_stable b : entry_stable (entry_set_refreshing b).
Proof. done. Qed.
Lemma begin_stable now : entry_stable (λ e, entry_touch now (entry_set_refreshing true e)).
Proof. done. Qed.
Lemma stale_stable now : entry_stable (entry_stale now).
Proof. done. Qed.

Create HintDb cache.
#[local] Hint Resolve touch_stable refreshing_stable begin_stable stale_stable
  update_entry_inv removeEntry_inv : cache.

Lemma bump_keyEpoch_inv c subs i : cache_inv c subs → cache_inv (bump_keyEpoch c i) subs.
Proof. intros Hinv. split; apply Hinv. Qed.

Lemma with_counters_inv c subs a b : cache_inv c subs → cache_inv (with_counters c a b) subs.
Proof. intros Hinv. split; apply Hinv. Qed.
#[local] Hint Resolve bump_keyEpoch_inv with_counters_inv : cache.

Lemma Load_inv c subs s now : cache_inv c subs → cache_inv (Load c s now).2 subs.
Proof. intros. unfold Load. repeat case_match; simpl; auto with cache. Qed.

Lemma BeginRefresh_inv c subs s now : cache_inv c subs → cache_inv (BeginRefresh c s now).2 subs.
Proof. intros. unfold BeginRefresh. repeat case_match; simpl; auto with cache. Qed.

Lemma AbortRefresh_inv c subs s tok : cache_inv c subs → cache_inv (AbortRefresh c s tok) subs.
Proof. intros. unfold AbortRefresh. repeat case_match; simpl; auto with cache. Qed.

Lemma MarkStale_inv c subs s now : cache_inv c subs → cache_inv (MarkStale c s now) subs.
Proof. intros. unfold MarkStale. repeat case_match; simpl; auto with cache. Qed.

Lemma fold_remove_inv c subs ids ev :
  cache_inv c subs → cache_inv (foldl (λ c i, removeEntryLocked c i ev) c ids) subs.
Proof. revert c; induction ids; intros c Hinv; simpl; auto with cache. Qed.

Lemma EvictInactive_inv c subs idle now :
  cache_inv c subs → cache_inv (EvictInactive c idle now).2 subs.
Proof. intros. unfold EvictInactive. case_match; simpl; [done|]. by apply fold_remove_inv. Qed.

Section ops.
Context `{GVRPrinter} (arrange : list candidate → list candidate) `{!CandidateSort arrange}.

Lemma Invalidate_inv c subs key : cache_inv c subs → cache_inv (Invalidate c key).2 subs.
Proof. intros. unfold Invalidate. repeat case_match; simpl; auto with cache. Qed.

Lemma Subscribe_inv c subs h (key : ResourceCacheKey) s c' :
  nul_free (Generation key) → subs !! h = None → cache_inv c subs →
  Subscribe c key = (Ok s, c') → cache_inv c' (<[h := s]> subs).
Proof.
  intros Hnf Hh Hinv. unfold Subscribe.
  destruct (canonicalResourceCacheKey key) as [[k i]|] eqn:Hk; [|done].
  destruct (canonical_generation _ _ _ Hk) as [Hgen [rest Hi]].
  case_decide; [done|]. intros [= <- <-].
  assert (∀ j (k' : ResourceCacheKey), keys c !! j = Some k' → j = i →
    Generation k' = Generation k) as Hsame.
  { intros j k' Hk' ->. destruct (inv_key_nul_free _ _ Hinv _ _ Hk') as [Hnf' [rest' Hi']].
    rewrite Hgen. rewrite Hi' in Hi. destruct (nul_split _ _ _ _ Hnf' Hnf Hi); done. }
  split; simpl; try apply Hinv.
  - intros j. unfold open_count. rewrite map_sum_insert by done.
    unfold sub_open_at at 1; simpl. unfold get_or. rewrite lookup_insert.
    pose proof (inv_refs _ _ Hinv j) as Hj. unfold get_or, open_count in Hj.
    repeat case_decide; subst; simpl; try congruence; lia.
  - intros j e He. destruct (inv_entry_key _ _ Hinv _ _ He) as (k' & Hk' & Hg).
    rewrite lookup_insert. case_decide; subst; [|eauto].
    exists k. split; [done|]. rewrite <- Hg. by rewrite (Hsame _ _ Hk').
  - intros h' s'. rewrite lookup_insert. case_decide as Hhh.
    + intros [= <-] _. simpl. exists k. by rewrite lookup_insert_eq.
    + intros Hs Ho. destruct (inv_sub_key _ _ Hinv _ _ Hs Ho) as (k' & Hk' & Hg).
      rewrite lookup_insert. case_decide; [|eauto].
      exists k. split; [done|]. rewrite <- Hg. by rewrite (Hsame _ _ Hk').
  - intros j k'. rewrite lookup_insert. case_decide; [|apply Hinv].
    intros [= <-]. subst j. rewrite Hgen. eauto.
Qed.

Lemma Close_inv c subs h s :
  subs !! h = Some s → cache_inv c subs →
  cache_inv (Close c s).2 (<[h := (Close c s).1]> subs).
Proof.
  intros Hs Hinv. unfold Close. destruct (sub_closed s) eqn:Hc; simpl.
  { by rewrite insert_id. }
  assert (∀ j, open_count (<[h := sub_close s]> subs) j
    = open_count subs j - (if decide (sub_identity s = j) then 1 else 0))%Z as Hcount.
  { intros j. unfold open_count. rewrite (map_sum_overwrite _ _ _ s) by done.
    unfold sub_open_at at 2 3; simpl. rewrite Hc. lia. }
  assert (∀ h' s', <[h := sub_close s]> subs !! h' = Some s' → sub_closed s' = false →
    h' ≠ h ∧ subs !! h' = Some s') as Hother.
  { intros h' s'. rewrite lookup_insert. case_decide; [|by eauto].
    intros [= <-]. done. }
  pose proof (inv_refs _ _ Hinv (sub_identity s)) as Hn.
  pose proof (open_count_pos _ _ _ Hs Hc) as Hpos. rewrite <- Hn in Hpos.
  destruct (get_or (refs c) (sub_identity s) 0 >? 1)%Z eqn:Hgt.
  { apply Z.gtb_lt in Hgt. split; simpl; try apply Hinv.
    - intros j. rewrite Hcount, <- (inv_refs _ _ Hinv j). unfold get_or.
      rewrite lookup_insert. repeat case_decide; subst; simpl; lia || congruence || auto.
    - intros h' s' Hs' Ho'. destruct (Hother _ _ Hs' Ho') as [_ ?]. by eapply inv_sub_key. }
  rewrite Z.gtb_ltb, Z.ltb_ge in Hgt.
  assert (∀ j, get_or (delete (sub_identity s) (refs c)) j 0%Z
    = open_count (<[h := sub_close s]> subs) j) as Hrefs.
  { intros j. rewrite Hcount, <- (inv_refs _ _ Hinv j). unfold get_or in *.
    rewrite lookup_delete. repeat case_decide; subst; simpl; lia || congruence || auto. }
  assert (∀ h' s', <[h := sub_close s]> subs !! h' = Some s' → sub_closed s' = false →
    sub_identity s' ≠ sub_identity s) as Hgone.
  { intros h' s' Hs' Ho' Heq. pose proof (open_count_pos _ _ _ Hs' Ho') as Hp.
    rewrite Heq, Hcount, <- Hn, decide_True in Hp by done. lia. }
  destruct (entries c !! sub_identity s) as [e|] eqn:He.
  - split; simpl; try apply Hinv; [done|].
    intros h' s' Hs' Ho'. destruct (Hother _ _ Hs' Ho') as [_ ?]. by eapply inv_sub_key.
  - split; simpl; try apply Hinv; [done|..].
    + intros j e' He'. rewrite lookup_delete_ne by congruence. by eapply inv_entry_key.
    + intros h' s' Hs' Ho'. rewrite lookup_delete_ne by (symmetry; eauto).
      destruct (Hother _ _ Hs' Ho') as [_ ?]. by eapply inv_sub_key.
    + intros j k. rewrite lookup_delete_Some. intros [_ Hk]. by eapply inv_key_nul_free.
Qed.
End ops.

(** ** Invalidating a generation *)

Lemma invalidate_identity_generations c g ig i :
  invalidate_identity (with_generations c g ig) i = with_generations (invalidate_identity c i) g ig.
Proof.
  unfold invalidate_identity, removeEntryLocked. simpl.
  destruct (entries c !! i); [|done]. by destruct (_ =? _)%Z.
Qed.

Lemma fold_invalidate_generations c g ig ids :
  foldl invalidate_identity (with_generations c g ig) ids
  = with_generations (foldl invalidate_identity c ids) g ig.
Proof.
  revert c; induction ids as [|i ids IH]; intros c; simpl; [done|].
  by rewrite invalidate_identity_generations, IH.
Qed.

Lemma invalidate_identity_inv c subs i :
  cache_inv c subs → cache_inv (invalidate_identity c i) subs.
Proof. unfold invalidate_identity. auto with cache. Qed.

Lemma fold_invalidate_inv c subs ids :
  cache_inv c subs → cache_inv (foldl invalidate_identity c ids) subs.
Proof. revert c; induction ids; intros c Hinv; simpl; [done|]. auto using invalidate_identity_inv. Qed.

Lemma fold_invalidate_entries c ids i :
  entries (foldl invalidate_identity c ids) !! i
  = if decide (i ∈ ids) then None else entries c !! i.
Proof.
  revert c; induction ids as [|j ids IH]; intros c; cbn [foldl]; [done|].
  rewrite IH. change (entries (invalidate_identity c j)) with (entries (removeEntryLocked c j false)).
  rewrite removeEntry_entries, lookup_delete.
  destruct (decide (j = i)), (decide (i ∈ ids)); subst;
    try rewrite (decide_True (P := _ ∈ _ :: _)) by set_solver;
    try rewrite (decide_False (P := _ ∈ _ :: _)) by set_solver; done.
Qed.

Lemma fold_invalidate_frame c ids :
  refs (foldl invalidate_identity c ids) = refs c
  ∧ maxBytes (foldl invalidate_identity c ids) = maxBytes c
  ∧ maxEntries (foldl invalidate_identity c ids) = maxEntries c
  ∧ generationEpoch (foldl invalidate_identity c ids) = generationEpoch c
  ∧ invalidatedGeneration (foldl invalidate_identity c ids) = invalidatedGeneration c.
Proof.
  revert c; induction ids as [|j ids IH]; intros c; simpl; [done|].
  destruct (IH (invalidate_identity c j)) as (-> & -> & -> & -> & ->).
  destruct (removeEntry_frame c j false) as (? & ? & ? & _ & _ & ? & ?).
  unfold invalidate_identity. simpl. auto.
Qed.

Lemma generation_identities_elem c g i :
  i ∈ generation_identities c g ↔
  ∃ k : ResourceCacheKey, keys c !! i = Some k ∧ Generation k = g.
Proof.
  unfold generation_identities. rewrite list_elem_of_fmap. split.
  - intros ([j k] & -> & Hin). rewrite list_elem_of_filter, elem_of_map_to_list in Hin.
    exists k. naive_solver.
  - intros (k & Hk & Hg). exists (i, k). rewrite list_elem_of_filter, elem_of_map_to_list. done.
Qed.

Lemma InvalidateGeneration_inv c subs g :
  cache_inv c subs → cache_inv (InvalidateGeneration c g) subs.
Proof.
  intros Hinv. unfold InvalidateGeneration. destruct (String.eqb g "") eqn:Hg; [done|].
  apply with_counters_inv. rewrite fold_invalidate_generations.
  change (generation_identities (with_generations c _ _) g) with (generation_identities c g).
  pose proof (fold_invalidate_inv c subs (generation_identities c g) Hinv) as Hinv'.
  destruct (fold_invalidate_frame c (generation_identities c g)) as (_ & _ & _ & _ & Hig).
  split; try apply Hinv'. simpl. intros i e He.
  rewrite fold_invalidate_entries in He. case_decide as Hin; [done|].
  rewrite elem_of_union, elem_of_singleton. intros [Hge|Hi].
  - destruct (inv_entry_key _ _ Hinv _ _ He) as (k & Hk & Hgk).
    apply Hin, generation_identities_elem. exists k. split; congruence.
  - by apply (inv_live _ _ Hinv _ _ He).
Qed.

(** ** Committing *)

Lemma clone_items_id items items' : clone_items items = Ok items' → items' = items.
Proof.
  revert items'. induction items as [|o l IH]; simpl; intros items' Hc; [congruence|].
  unfold cloneTopicObject in Hc. destruct (is_nil_object o); [done|].
  destruct (clone_items l); [|done]. simplify_eq. f_equal. auto.
Qed.

Lemma validated_size t s cloned size :
  validatedCacheSnapshot t s = Ok (cloned, size) →
  cloned = s ∧ size = (len (items_json (Items s)) + len (ResourceVersion s))%Z ∧ (0 ≤ size)%Z
  ∧ forallb (object_of_topic t) (Items s) = true.
Proof.
  unfold validatedCacheSnapshot, cloneWatchSnapshot. intros Hv.
  destruct (_ <? _)%Z; [done|]. destruct (forallb _ _) eqn:Hall; simpl in Hv; [|done].
  destruct (clone_items (Items s)) as [items|] eqn:Hc; [|done]. simplify_eq.
  apply clone_items_id in Hc as ->.
  destruct s; simpl. split_and!; [done..| |done].
  pose proof (len_nonneg (items_json Items)). pose proof (len_nonneg ResourceVersion). lia.
Qed.

Lemma currentLocked_live c s :
  currentLocked c s = true → Generation (sub_key s) ∉ invalidatedGeneration c.
Proof. unfold currentLocked. by case_decide. Qed.

Section commit.
Context (arrange : list candidate → list candidate) `{!CandidateSort arrange}.

Lemma Commit_inv c subs h s token snapshot partial t1 t2 :
  subs !! h = Some s → cache_inv c subs →
  cache_inv (Commit arrange c s token snapshot partial t1 t2).2 subs.
Proof.
  intros Hs Hinv. unfold Commit. destruct (sub_closed s) eqn:Hc; [done|].
  destruct (validatedCacheSnapshot _ _) as [[cloned size]|] eqn:Hv; [|done].
  destruct (commit_allowed c s token) eqn:Hal; simpl; [|done].
  destruct (maxBytes c <? size)%Z eqn:Hbig; simpl; [auto with cache|].
  set (isNew := match entries c !! sub_identity s with None => true | Some _ => false end).
  set (add := (size - entry_bytes c (sub_identity s))%Z).
  pose proof (evictFor_inv arrange c subs t1 (sub_identity s) add isNew Hinv) as Hinv1.
  pose proof (evictFor_frame arrange c t1 (sub_identity s) add isNew)
    as (Hrefs & HB & HE & _ & _ & _ & Hig & Hsame).
  destruct (evictForLocked arrange c t1 (sub_identity s) add isNew) as [[] c1] eqn:Hev;
    simpl in *; [|by auto with cache].
  apply evictFor_true in Hev; [|done]. unfold within_budget in Hev. bool_to_prop.
  destruct (Hsame (sub_identity s)) as (Hent & Hkey & _); [by left|].
  destruct (validated_size _ _ _ _ Hv) as (_ & _ & Hsz & _).
  unfold commit_allowed in Hal. bool_to_prop.
  assert (Generation (sub_key s) ∉ invalidatedGeneration c) as Hlive by (by apply currentLocked_live).
  split; simpl; rewrite ?HB, ?HE, ?Hig; try (apply Hinv1).
  - rewrite (inv_bytes _ _ Hinv1). unfold add, isNew in *. unfold entry_bytes in *.
    destruct (entries c !! sub_identity s) as [e|] eqn:He.
    + rewrite (map_sum_overwrite _ _ _ e) by congruence. simpl. lia.
    + rewrite map_sum_insert by congruence. simpl. lia.
  - intros i e. rewrite lookup_insert. case_decide; [by intros [= <-]|]. apply Hinv1.
  - unfold add in *. lia.
  - unfold entry_count in *. simpl. unfold isNew in *.
    destruct (entries c !! sub_identity s) as [e|] eqn:He.
    + rewrite (map_size_insert_Some) by (rewrite Hent; eauto). lia.
    + rewrite map_size_insert_None by congruence. lia.
  - intros i e. rewrite lookup_insert. case_decide; [|apply Hinv1].
    intros [= <-]. subst i. simpl. rewrite Hkey. by eapply inv_sub_key.
  - intros i e. rewrite lookup_insert. case_decide; [by intros [= <-]|].
    rewrite <- Hig. apply Hinv1.
Qed.
End commit.

(** ** Reachable worlds *)

Section reachable.
Context `{GVRPrinter} (arrange : list candidate → list candidate) `{!CandidateSort arrange}.

Lemma run_op_inv w o : op_ok o → world_inv w → world_inv (run_op arrange w o).
Proof.
  unfold world_inv. intros Hok Hinv. destruct o; simpl; unfold on_sub;
    try (destruct (w_subs w !! h) as [s|] eqn:Hs; [|done]); simpl.
  - case_decide as Hh; [done|]. rewrite <- eq_None_not_Some in Hh.
    destruct (Subscribe (w_cache w) key) as [[s|] c'] eqn:Hsub; simpl.
    + eapply Subscribe_inv; eauto.
    + unfold Subscribe in Hsub. repeat case_match; by simplify_eq.
  - by apply Load_inv.
  - by apply BeginRefresh_inv.
  - by eapply Commit_inv.
  - by apply AbortRefresh_inv.
  - by apply MarkStale_inv.
  - by eapply Close_inv.
  - by apply Invalidate_inv.
  - by apply InvalidateGeneration_inv.
  - by apply EvictInactive_inv.
Qed.

Lemma run_inv w ops : Forall op_ok ops → world_inv w → world_inv (run arrange w ops).
Proof.
  intros Hok. revert w; induction Hok as [|o ops Ho Hops IH]; intros w Hinv; [done|].
  simpl. apply IH. by apply run_op_inv.
Qed.

Lemma init_inv config : world_inv (init_world config).
Proof.
  split; simpl; try (intros; by rewrite lookup_empty in * ); try done.
  - unfold NewResourceCache; simpl. case_match; bool_to_prop; [done|lia].
  - unfold NewResourceCache, entry_count; simpl. rewrite map_size_empty.
    case_match; bool_to_prop; [done|lia].
Qed.
End reachable.
