(* ===== verification/CacheFence.v ===== *)
(** * CacheFence: refresh tokens, generations and eviction

    The guarantees clients of the resource cache rely on, for every reachable
    world: the memory budget, the write fence (an old refresh token can no longer
    store anything once a newer refresh or an invalidation happened), the
    permanence of a generation's invalidation, the eviction policy, and that what
    was committed is what is loaded. *)
From Stdlib Require Import Ascii String ZArith Lia.
From stdpp Require Import base gmap strings list pretty fin_maps fin_map_dom sets.
From S2P Require Import Prelude Json Topics Cache CacheInvariant.

Definition epoch (c : ResourceCache) (i : string) : Z := get_or (keyEpoch c) i 0%Z.

(** The operations that take the right to commit away from the tokens a subscription [s]
    has been given. *)
Definition superseding `{GVRPrinter} (w : world) (o : op) (s : CacheSubscription) : Prop :=
  match o with
  | OpBeginRefresh h _ =>
    ∃ s', w_subs w !! h = Some s' ∧ sub_identity s' = sub_identity s ∧ sub_closed s' = false
      ∧ currentLocked (w_cache w) s' = true
  | OpInvalidate key => ∃ k, canonicalResourceCacheKey key = Ok (k, sub_identity s)
  | OpInvalidateGeneration g => g ≠ "" ∧ Generation (sub_key s) = g
  | _ => False
  end.

(** Key [i] has an open subscription before [ops] and after each of them. *)
Definition keeps_key `{GVRPrinter} (arrange : list candidate → list candidate) (w : world) (ops : list op)
    (i : string) : Prop :=
  ∀ l1 l2, ops = l1 ++ l2 →
    ∃ h s, w_subs (run arrange w l1) !! h = Some s ∧ sub_identity s = i ∧ sub_closed s = false.

(** The operations that move the epoch of key [i]. *)
Definition epoch_op `{GVRPrinter} (w : world) (o : op) (i : string) : Prop :=
  match o with
  | OpBeginRefresh h _ =>
    ∃ s, w_subs w !! h = Some s ∧ sub_identity s = i ∧ sub_closed s = false
      ∧ currentLocked (w_cache w) s = true
  | OpInvalidate key => ∃ k, canonicalResourceCacheKey key = Ok (k, i)
  | OpInvalidateGeneration g =>
    g ≠ "" ∧ ∃ k : ResourceCacheKey, keys (w_cache w) !! i = Some k ∧ Generation k = g
  | _ => False
  end.

(** ** Iterated epoch increments *)

Lemma iter_succ_mod n x :
  (0 ≤ x < u64_modulus)%Z →
  Nat.iter n u64_succ x = Z.modulo (x + Z.of_nat n) u64_modulus.
Proof.
  intros Hx. induction n as [|n IH].
  - simpl. rewrite Z.add_0_r, Z.mod_small; done.
  - rewrite Nat.iter_succ, IH. unfold u64_succ, u64_add.
    rewrite Zplus_mod_idemp_l. f_equal. lia.
Qed.

Lemma iter_succ_ne n x :
  (0 ≤ x < u64_modulus)%Z → (0 < Z.of_nat n < u64_modulus)%Z →
  Nat.iter n u64_succ x ≠ x.
Proof.
  intros Hx Hn. rewrite iter_succ_mod by done. unfold u64_modulus in *.
  intros Heq. destruct (decide (x + Z.of_nat n < 18446744073709551616)%Z).
  - rewrite Z.mod_small in Heq by lia. lia.
  - rewrite <- (Z_mod_plus_full _ (-1)), Z.mod_small in Heq by lia. lia.
Qed.

(** ** One operation moves an open key's epoch by at most one *)

Section epochs.
Context `{GVRPrinter} (arrange : list candidate → list candidate) `{!CandidateSort arrange}.

Lemma open_count_witness (w : world) i :
  (1 ≤ open_count (w_subs w) i)%Z →
  ∃ h s, w_subs w !! h = Some s ∧ sub_identity s = i ∧ sub_closed s = false.
Proof.
  unfold open_count. generalize (w_subs w) as m.
  induction m as [|h s m Hh IH] using map_ind; [rewrite map_sum_empty; lia|].
  rewrite map_sum_insert by done. unfold sub_open_at at 1.
  assert ((1 ≤ map_sum (sub_open_at i) m)%Z → ∃ h' s', <[h := s]> m !! h' = Some s'
          ∧ sub_identity s' = i ∧ sub_closed s' = false) as Hrec.
  { intros (h'&s'&Hs'&?)%IH. exists h', s'. split; [|done]. rewrite lookup_insert_ne; [done|congruence]. }
  destruct (sub_closed s) eqn:Hc; [intros; apply Hrec; lia|].
  destruct (decide (sub_identity s = i)); [|intros; apply Hrec; lia].
  exists h, s. by rewrite lookup_insert_eq.
Qed.

Lemma epoch_bump c i j :
  epoch (bump_keyEpoch c j) i = if decide (j = i) then u64_succ (epoch c i) else epoch c i.
Proof.
  unfold epoch, get_or; simpl. rewrite lookup_insert. by case_decide; subst.
Qed.

Lemma epoch_removeEntry c i j ev :
  get_or (refs c) i 0%Z ≠ 0%Z → epoch (removeEntryLocked c j ev) i = epoch c i.
Proof.
  intros Hr. unfold epoch, get_or.
  rewrite (proj2 (removeEntry_keys c j ev i ltac:(destruct (decide (i = j)); subst; auto))). done.
Qed.

Lemma epoch_fold_remove c ids i ev :
  get_or (refs c) i 0%Z ≠ 0%Z →
  epoch (foldl (λ c j, removeEntryLocked c j ev) c ids) i = epoch c i.
Proof.
  revert c; induction ids as [|j ids IH]; intros c Hr; simpl; [done|].
  rewrite IH, epoch_removeEntry; [done..|].
  by rewrite (proj1 (removeEntry_frame c j ev)).
Qed.

Lemma invalidate_identity_refs c j : refs (invalidate_identity c j) = refs c.
Proof. apply (removeEntry_frame c j false). Qed.

Lemma epoch_invalidate_identity c i j :
  get_or (refs c) i 0%Z ≠ 0%Z →
  epoch (invalidate_identity c j) i = if decide (j = i) then u64_succ (epoch c i) else epoch c i.
Proof.
  intros Hr. unfold invalidate_identity. rewrite epoch_bump, epoch_removeEntry by done. done.
Qed.

Lemma epoch_fold_invalidate c ids i :
  get_or (refs c) i 0%Z ≠ 0%Z → NoDup ids →
  epoch (foldl invalidate_identity c ids) i
  = if decide (i ∈ ids) then u64_succ (epoch c i) else epoch c i.
Proof.
  intros Hr Hnd. revert c Hr; induction Hnd as [|j ids Hj Hnd IH]; intros c Hr; cbn [foldl]; [done|].
  rewrite IH by (by rewrite invalidate_identity_refs).
  rewrite epoch_invalidate_identity by done.
  destruct (decide (j = i)) as [->|].
  - rewrite decide_False, decide_True by set_solver. done.
  - destruct (decide (i ∈ ids)); [rewrite decide_True by set_solver|rewrite decide_False by set_solver];
      done.
Qed.

Lemma generation_identities_NoDup c g : NoDup (generation_identities c g).
Proof. unfold generation_identities. apply NoDup_fmap_filter, NoDup_fst_map_to_list. Qed.

Lemma epoch_InvalidateGeneration c g i :
  get_or (refs c) i 0%Z ≠ 0%Z →
  epoch (InvalidateGeneration c g) i
  = if decide (g ≠ "" ∧ i ∈ generation_identities c g)
    then u64_succ (epoch c i) else epoch c i.
Proof.
  intros Hr. unfold InvalidateGeneration. destruct (String.eqb g "") eqn:Hg; bool_to_prop.
  { rewrite decide_False; [done|naive_solver]. }
  change (epoch (with_counters ?x _ _) i) with (epoch x i).
  rewrite epoch_fold_invalidate; [|done|apply generation_identities_NoDup].
  change (epoch (with_generations c _ _) i) with (epoch c i).
  change (generation_identities (with_generations c _ _) g) with (generation_identities c g).
  destruct (decide (i ∈ generation_identities c g)).
  - by rewrite (decide_True (P := _ ∧ _)).
  - rewrite (decide_False (P := _ ∧ _)); naive_solver.
Qed.

(** A subscription stays what it is, except that it may get closed. *)
Lemma run_op_sub w o h s :
  w_subs w !! h = Some s →
  ∃ s', w_subs (run_op arrange w o) !! h = Some s' ∧ (s' = s ∨ s' = sub_close s).
Proof.
  intros Hs. destruct o; simpl; unfold on_sub; simpl; eauto;
    try (destruct (w_subs w !! h0); simpl; by eauto).
  - case_decide as Hh; [eauto|]. destruct (Subscribe _ _) as [[s1|] c1]; simpl; [|eauto].
    rewrite lookup_insert_ne; [eauto|]. intros ->. apply Hh. eauto.
  - destruct (w_subs w !! h0) as [s0|] eqn:Hs0; simpl; [|eauto].
    rewrite lookup_insert. case_decide; [|eauto]. simplify_eq.
    eexists; split; [done|]. unfold Close. case_match; eauto.
Qed.

Lemma run_sub w ops h s :
  w_subs w !! h = Some s →
  ∃ s', w_subs (run arrange w ops) !! h = Some s' ∧ (s' = s ∨ s' = sub_close s).
Proof.
  revert w s; induction ops as [|o ops IH]; intros w s Hs; simpl; [eauto|].
  destruct (run_op_sub w o h s Hs) as (s1 & Hs1 & Heq1).
  destruct (IH _ _ Hs1) as (s2 & Hs2 & Heq2). exists s2. split; [done|].
  destruct Heq1 as [->| ->], Heq2 as [->| ->]; eauto.
Qed.

(** Closing the other subscriptions of a key keeps the key's epoch. *)
Lemma Close_epoch c subs h s i :
  subs !! h = Some s → cache_inv c subs →
  (1 ≤ open_count (<[h := (Close c s).1]> subs) i)%Z →
  epoch (Close c s).2 i = epoch c i.
Proof.
  intros Hs Hinv Hopen. pose proof (Close_inv c subs h s Hs Hinv) as Hinv'.
  rewrite <- (inv_refs _ _ Hinv') in Hopen. revert Hopen. unfold Close.
  destruct (sub_closed s); [done|]. simpl. destruct (_ >? 1)%Z; [done|].
  destruct (entries c !! sub_identity s); [done|]. simpl. unfold get_or.
  rewrite lookup_delete. case_decide as Hi; simpl; [lia|]. intros _.
  unfold epoch, get_or. simpl. by rewrite lookup_delete_ne.
Qed.

Lemma Commit_epoch c subs h s tok snapshot partial t1 t2 i :
  subs !! h = Some s → cache_inv c subs → (1 ≤ open_count subs i)%Z →
  epoch (Commit arrange c s tok snapshot partial t1 t2).2 i = epoch c i.
Proof.
  intros Hs Hinv Hopen. unfold Commit. destruct (sub_closed s); [done|].
  destruct (validatedCacheSnapshot _ _) as [[cloned size]|]; [|done].
  destruct (commit_allowed c s tok); simpl; [|done].
  destruct (maxBytes c <? size)%Z; simpl; [done|].
  match goal with |- context [evictForLocked arrange c t1 ?x ?y ?z] =>
    pose proof (evictFor_frame arrange c t1 x y z) as (_ & _ & _ & _ & _ & _ & _ & Hfr);
    destruct (evictForLocked arrange c t1 x y z) as [room c1] end.
  simpl in Hfr. destruct (Hfr i) as (_ & _ & He); [right; rewrite (inv_refs _ _ Hinv); lia|].
  destruct room; simpl; unfold epoch, get_or; simpl; by rewrite He.
Qed.

Lemma run_op_epoch w o i :
  op_ok o → world_inv w → (1 ≤ open_count (w_subs w) i)%Z →
  (1 ≤ open_count (w_subs (run_op arrange w o)) i)%Z →
  (epoch_op w o i ∧ epoch (w_cache (run_op arrange w o)) i = u64_succ (epoch (w_cache w) i))
  ∨ (¬ epoch_op w o i ∧ epoch (w_cache (run_op arrange w o)) i = epoch (w_cache w) i).
Proof.
  intros Hok Hinv Hopen Hopen'.
  assert (get_or (refs (w_cache w)) i 0 ≠ 0)%Z as Hr by (rewrite (inv_refs _ _ Hinv); lia).
  destruct o; simpl in *; unfold on_sub in *; simpl in *.
  - right. split; [tauto|]. case_decide; [done|]. unfold Subscribe.
    destruct (canonicalResourceCacheKey key) as [[k j]|]; simpl; [|done]. by case_decide.
  - right. split; [tauto|]. destruct (w_subs w !! h); simpl; [|done].
    unfold Load. repeat case_match; done.
  - destruct (w_subs w !! h) as [s0|] eqn:Hs0; simpl; [|right; naive_solver].
    unfold BeginRefresh. destruct (sub_closed s0 || _) eqn:Hg; simpl.
    + right. split; [|done]. intros (? & ? & ? & Hc & Hl). simplify_eq. by rewrite Hc, Hl in Hg.
    + bool_to_prop. change (epoch (update_entry ?x _ _) ?i) with (epoch x i). rewrite epoch_bump.
      case_decide; [left|right]; naive_solver.
  - right. split; [tauto|]. destruct (w_subs w !! h) as [s0|] eqn:Hs0; simpl; [|done].
    by eapply Commit_epoch.
  - right. split; [tauto|]. destruct (w_subs w !! h); simpl; [|done].
    unfold AbortRefresh. by case_match.
  - right. split; [tauto|]. destruct (w_subs w !! h); simpl; [|done].
    unfold MarkStale. by case_match.
  - right. split; [tauto|]. destruct (w_subs w !! h) as [s0|] eqn:Hs0; simpl in *; [|done].
    by eapply Close_epoch.
  - unfold Invalidate. destruct (canonicalResourceCacheKey key) as [[k j]|]; simpl; [|naive_solver].
    change (epoch (with_counters ?x _ _) ?i) with (epoch x i).
    rewrite epoch_removeEntry, epoch_bump by done. case_decide; [left|right]; naive_solver.
  - rewrite epoch_InvalidateGeneration by done. rewrite <- generation_identities_elem.
    case_decide; [left|right]; done.
  - right. split; [tauto|]. unfold EvictInactive. case_match; [done|]. simpl.
    by apply epoch_fold_remove.
Qed.

Lemma subscribed_cons w o ops i :
  keeps_key arrange w (o :: ops) i ↔
  (1 ≤ open_count (w_subs w) i)%Z ∧ keeps_key arrange (run_op arrange w o) ops i.
Proof.
  split.
  - intros Hs. split.
    + destruct (Hs [] (o :: ops) eq_refl) as (h&s&Hh&<-&Ho). by eapply open_count_pos.
    + intros l1 l2 ->. by apply (Hs (o :: l1) l2).
  - intros [Hopen Hs] [|o' l1] l2 Heq; simpl in Heq; simplify_eq; [|by eapply Hs].
    by apply open_count_witness.
Qed.

Lemma subscribed_app w l1 l2 i :
  keeps_key arrange w (l1 ++ l2) i → keeps_key arrange w l1 i ∧ keeps_key arrange (run arrange w l1) l2 i.
Proof.
  intros Hs. split.
  - intros a b ->. apply (Hs a (b ++ l2)). by rewrite app_assoc.
  - intros a b ->. destruct (Hs (l1 ++ a) b) as (h&s&Hh&?); [by rewrite app_assoc|].
    exists h, s. unfold run in *. by rewrite foldl_app in Hh.
Qed.

Lemma subscribed_open w ops i : keeps_key arrange w ops i → (1 ≤ open_count (w_subs w) i)%Z.
Proof. intros Hs. destruct (Hs [] ops eq_refl) as (h&s&Hh&<-&Ho). by eapply open_count_pos. Qed.

(** A subscription that is still open was open all the time. *)
Lemma open_subscribed w ops h s s' :
  w_subs w !! h = Some s → w_subs (run arrange w ops) !! h = Some s' → sub_closed s' = false →
  s' = s ∧ keeps_key arrange w ops (sub_identity s).
Proof.
  intros Hs Hs' Hc. destruct (run_sub w ops h s Hs) as (s1&Hs1&[->| ->]); [|by simplify_eq].
  assert (s' = s) as -> by congruence. split; [done|]. intros l1 l2 ->.
  destruct (run_sub w l1 h s Hs) as (s2&Hs2&H2). exists h, s2. split; [done|].
  destruct H2 as [->| ->]; [done|]. unfold run in *. rewrite foldl_app in Hs'.
  destruct (run_sub _ l2 h _ Hs2) as (s3&Hs3&H3). unfold run in Hs3.
  assert (s3 = s) as -> by congruence. exfalso. destruct H3 as [H3|H3]; by rewrite H3 in Hc.
Qed.

(** Over a sequence of operations the epoch advances by at most their number. *)
Lemma run_epoch w ops i :
  Forall op_ok ops → world_inv w → keeps_key arrange w ops i →
  ∃ n, n ≤ length ops ∧
    epoch (w_cache (run arrange w ops)) i = Nat.iter n u64_succ (epoch (w_cache w) i).
Proof.
  intros Hok. revert w; induction Hok as [|o ops Ho Hops IH]; intros w Hinv Hs; simpl in *.
  { exists 0. split; [lia|done]. }
  apply subscribed_cons in Hs as [Hopen Hs].
  destruct (IH (run_op arrange w o)) as (n & Hn & He); [by apply run_op_inv|done|].
  destruct (run_op_epoch w o i Ho Hinv Hopen (subscribed_open _ _ _ Hs)) as [[_ E]|[_ E]]; rewrite E in He.
  - exists (S n). split; [lia|]. rewrite He, <- Nat.iter_succ_r. done.
  - exists n. split; [lia|done].
Qed.

(** An operation that supersedes the tokens of a subscribed key moves its epoch. *)
Lemma superseding_epoch w o s i :
  op_ok o → world_inv w → superseding w o s → (∀ g, o ≠ OpInvalidateGeneration g) → sub_identity s = i →
  keeps_key arrange w [o] i →
  epoch (w_cache (run_op arrange w o)) i = u64_succ (epoch (w_cache w) i).
Proof.
  intros Hok Hinv Hsup Hg <- [Hopen Hs]%subscribed_cons.
  destruct (run_op_epoch w o (sub_identity s) Hok Hinv Hopen (subscribed_open _ _ _ Hs)) as [[_ ?]|[Hn _]]; [done|].
  destruct Hn. destruct o; try done. by destruct (Hg generation).
Qed.
End epochs.

(** ** Evicted entries form a prefix of the arranged candidates *)

Lemma evict_loop_prefix c l b n :
  ∃ l1 l2, l = l1 ++ l2 ∧
    ∀ i, entries (evict_loop c l b n).2 !! i
         = if decide (i ∈ cand_identity <$> l1) then None else entries c !! i.
Proof.
  revert c b n; induction l as [|x l IH]; intros c b n; cbn [evict_loop].
  { exists [], []. done. }
  destruct (within_budget c _ _).
  - exists [x], l. split; [done|]. intros i. simpl. rewrite removeEntry_entries, lookup_delete.
    destruct (decide (cand_identity x = i)) as [<-|].
    + rewrite decide_True by set_solver. done.
    + rewrite decide_False by set_solver. done.
  - destruct (IH (removeEntryLocked c (cand_identity x) true)
      (b - entry_bytes c (cand_identity x))%Z (n - 1)%Z) as (l1 & l2 & -> & Hent).
    exists (x :: l1), l2. split; [done|]. intros i. rewrite Hent, fmap_cons.
    rewrite removeEntry_entries, lookup_delete.
    destruct (decide (i ∈ cand_identity <$> l1)); [rewrite decide_True by set_solver; done|].
    destruct (decide (cand_identity x = i)) as [<-|].
    + rewrite decide_True by set_solver. done.
    + rewrite decide_False by set_solver. done.
Qed.

Lemma sorted_by_app_inv {A} (less : A → A → bool) l1 l2 x y :
  sorted_by less (l1 ++ l2) → x ∈ l1 → y ∈ l2 → less y x = false.
Proof.
  induction l1 as [|z l1 IH]; intros Hs Hx Hy; [set_solver|].
  inversion Hs as [|? ? Hs' Hall]; subst. apply elem_of_cons in Hx as [->|Hx]; [|by apply IH].
  rewrite Forall_forall in Hall. apply Hall. set_solver.
Qed.

(** The stable sort is one arrangement [sort.Slice] may produce. *)
#[export] Instance candidate_less_swo : StrictWeakOrder candidate_less.
Proof.
  split.
  - intros x. unfold candidate_less. rewrite Bool.eqb_reflx. simpl. lia.
  - intros [i1 [] u1] [i2 [] u2] [i3 [] u3]; unfold candidate_less; simpl; intros; try done; lia.
  - intros [i1 [] u1] [i2 [] u2] [i3 [] u3]; unfold candidate_less; simpl; intros; try done; lia.
Qed.

#[export] Instance stable_candidate_sort : CandidateSort (sort_stable candidate_less).
Proof. split; [apply sort_stable_perm|]. intros l. apply sort_stable_sorted, _. Qed.

(** ** The invalidated generations only grow *)

Section permanence.
Context `{GVRPrinter} (arrange : list candidate → list candidate) `{!CandidateSort arrange}.

Lemma evictFor_invalidated c now exclude add isNew :
  invalidatedGeneration (evictForLocked arrange c now exclude add isNew).2 = invalidatedGeneration c.
Proof. apply evictFor_frame; done. Qed.

Lemma fold_remove_invalidated c ids ev :
  invalidatedGeneration (foldl (λ c i, removeEntryLocked c i ev) c ids) = invalidatedGeneration c.
Proof.
  revert c; induction ids as [|i ids IH]; intros c; simpl; [done|].
  rewrite IH. apply removeEntry_frame.
Qed.

Lemma run_op_invalidated w o g :
  g ∈ invalidatedGeneration (w_cache w) → g ∈ invalidatedGeneration (w_cache (run_op arrange w o)).
Proof.
  intros Hg. destruct o; simpl; unfold on_sub;
    try (destruct (w_subs w !! h) as [s|]; [|done]); simpl.
  - case_decide; [done|]. unfold Subscribe. by repeat case_match; simplify_eq/=.
  - unfold Load. by repeat case_match.
  - unfold BeginRefresh. by repeat case_match.
  - unfold Commit. destruct (sub_closed s); [done|].
    destruct (validatedCacheSnapshot _ _) as [[cloned size]|]; [|done].
    destruct (commit_allowed _ s token); simpl; [|done].
    destruct (maxBytes _ <? size)%Z; simpl; [done|].
    match goal with |- context [evictForLocked arrange ?c ?t ?x ?y ?z] =>
      pose proof (evictFor_invalidated c t x y z) as He;
      destruct (evictForLocked arrange c t x y z) as [[] c1] end; simpl in *; by rewrite He.
  - unfold AbortRefresh. by case_match.
  - unfold MarkStale. by case_match.
  - unfold Close. by repeat case_match.
  - unfold Invalidate. destruct (canonicalResourceCacheKey key) as [[k i]|]; simpl; [|done].
    by rewrite (proj2 (proj2 (proj2 (proj2 (proj2 (proj2 (removeEntry_frame _ i false))))))).
  - unfold InvalidateGeneration. case_match; [done|]. simpl.
    rewrite fold_invalidate_generations. simpl. set_solver.
  - unfold EvictInactive. case_match; [done|]. simpl. by rewrite fold_remove_invalidated.
Qed.

Lemma run_invalidated w ops g :
  g ∈ invalidatedGeneration (w_cache w) → g ∈ invalidatedGeneration (w_cache (run arrange w ops)).
Proof. revert w; induction ops as [|o ops IH]; intros w Hg; simpl; auto using run_op_invalidated. Qed.
End permanence.

(** ** The guarantees *)

Section guarantees.
Context `{GVRPrinter} (arrange : list candidate → list candidate) `{!CandidateSort arrange}.

(** C20: after any sequence of cache operations the byte counter equals the sum of
    the stored snapshots' sizes, the configured byte and entry budgets hold, and
    each reference count is the number of subscriptions still open on its key. *)
Theorem cache_memory_budget config ops :
  Forall op_ok ops →
  let w := run arrange (init_world config) ops in
  let c := w_cache w in
  bytes c = map_sum e_bytes (entries c)
  ∧ (bytes c ≤ maxBytes c)%Z ∧ (entry_count c ≤ maxEntries c)%Z
  ∧ ∀ i, get_or (refs c) i 0%Z = open_count (w_subs w) i.
Proof.
  intros Hok w c. pose proof (run_inv arrange _ _ Hok (init_inv config)) as Hinv.
  split_and!; apply Hinv.
Qed.

(** A token of an invalidated generation commits nothing, whoever presents it. *)
Lemma invalidated_fenced c s tok :
  tok_generation tok ∈ invalidatedGeneration c → commit_allowed c s tok = false.
Proof.
  intros Hin. unfold commit_allowed, currentLocked.
  destruct (String.eqb_spec (tok_generation tok) (Generation (sub_key s))) as [Heq|].
  - rewrite <- Heq, decide_True by done. by rewrite andb_false_r.
  - by rewrite !andb_false_r.
Qed.

(** A token whose key has moved on commits nothing, whoever presents it. *)
Lemma moved_epoch_fenced c s tok :
  tok_keyEpoch tok ≠ epoch c (tok_identity tok) → commit_allowed c s tok = false.
Proof.
  intros Hne. unfold commit_allowed.
  destruct (String.eqb_spec (tok_identity tok) (sub_identity s)) as [Heq|].
  - rewrite Heq in Hne. apply andb_false_iff. right. by apply Z.eqb_neq.
  - by rewrite !andb_false_r.
Qed.

Lemma fenced_commit c s tok snapshot partial t1 t2 :
  sub_closed s = true ∨ commit_allowed c s tok = false →
  (Commit arrange c s tok snapshot partial t1 t2).2 = c
  ∧ (is_ok (validatedCacheSnapshot (key_Topic (sub_key s)) snapshot) = true →
     (Commit arrange c s tok snapshot partial t1 t2).1 = Some ErrCacheWriteFenced).
Proof.
  intros Hf. unfold Commit. destruct (sub_closed s) eqn:Hc; [done|]. destruct Hf as [|Hf]; [done|].
  destruct (validatedCacheSnapshot _ _) as [[cloned size]|]; simpl; [|done]. by rewrite Hf.
Qed.

Lemma BeginRefresh_token c s now tok c1 :
  BeginRefresh c s now = (Ok tok, c1) →
  tok_identity tok = sub_identity s ∧ tok_generation tok = Generation (sub_key s)
  ∧ tok_keyEpoch tok = epoch c1 (sub_identity s)
  ∧ (0 ≤ epoch c1 (sub_identity s) < u64_modulus)%Z.
Proof.
  unfold BeginRefresh. destruct (sub_closed s || _); [done|]. intros [= <- <-]. simpl.
  split; [done|]. split; [done|]. split; [done|].
  change (epoch (update_entry ?x _ _) ?i) with (epoch x i). rewrite epoch_bump, decide_True by done.
  apply u64_succ_range.
Qed.

(** The epoch of a key that stays subscribed never comes back to a superseded token's. *)
Lemma superseded_epoch w0 mid o post s i :
  let w2 := run arrange w0 mid in
  let w3 := run arrange (run_op arrange w2 o) post in
  Forall op_ok (mid ++ o :: post) → world_inv w0 → superseding w2 o s →
  (∀ g, o ≠ OpInvalidateGeneration g) → sub_identity s = i →
  (0 ≤ epoch (w_cache w0) i < u64_modulus)%Z →
  (Z.of_nat (length mid + length post) < u64_modulus - 1)%Z →
  keeps_key arrange w0 (mid ++ o :: post) i → epoch (w_cache w0) i ≠ epoch (w_cache w3) i.
Proof.
  intros w2 w3 Hok Hinv Hsup Hg Hi Hrange Hlen Hsub.
  rewrite !Forall_app, Forall_cons in Hok. destruct Hok as (Hmid & Ho & Hpost).
  assert (world_inv w2) as Hinv2 by (by apply run_inv).
  apply subscribed_app in Hsub as [Hsub1 Hsub]. fold w2 in Hsub.
  pose proof Hsub as [_ Hsub3]%subscribed_cons.
  destruct (run_epoch arrange w0 mid i Hmid Hinv Hsub1) as (n1 & Hn1 & En1).
  destruct (run_epoch arrange (run_op arrange w2 o) post i Hpost ltac:(by apply run_op_inv) Hsub3) as (n2 & Hn2 & En2).
  pose proof (superseding_epoch arrange w2 o s i Ho Hinv2 Hsup Hg Hi (proj1 (subscribed_app arrange w2 [o] post i Hsub))) as Eo.
  fold w3 in En2. fold w2 in En1. rewrite En2, Eo, En1, <- Nat.iter_succ_r, <- Nat.iter_add.
  intros Heq. symmetry in Heq. revert Heq. apply iter_succ_ne; [done|lia].
Qed.

(** C5: write fence. Once a newer refresh of the same key has begun, or the key or its
    generation has been invalidated, a refresh token issued before can no longer store a
    snapshot: [Commit] fails, with [ErrCacheWriteFenced] if the snapshot itself is valid,
    and changes nothing. This holds for the subscription the token was issued to; for an
    invalidated generation it holds whoever presents the token; and for any other
    subscription as long as the key has been subscribed all the time since the token was
    issued, for the cache forgets the epoch of a key nobody subscribes to. (Epochs are
    64-bit: fewer than 2^64 - 1 operations lie in between.) *)
Theorem superseded_token_fenced config pre h s now tok c1 mid o post via s' snapshot partial t1 t2 :
  let w1 := run arrange (init_world config) pre in
  let w2 := run arrange (set_cache w1 c1) mid in
  let w3 := run arrange (run_op arrange w2 o) post in
  Forall op_ok (pre ++ mid ++ o :: post) →
  w_subs w1 !! h = Some s →
  BeginRefresh (w_cache w1) s now = (Ok tok, c1) →
  superseding w2 o s →
  (Z.of_nat (length mid + length post) < u64_modulus - 1)%Z →
  w_subs w3 !! via = Some s' →
  (via = h ∨ (∃ g, o = OpInvalidateGeneration g)
   ∨ keeps_key arrange (set_cache w1 c1) (mid ++ o :: post) (sub_identity s)) →
  (Commit arrange (w_cache w3) s' tok snapshot partial t1 t2).2 = w_cache w3
  ∧ (is_ok (validatedCacheSnapshot (key_Topic (sub_key s')) snapshot) = true →
     (Commit arrange (w_cache w3) s' tok snapshot partial t1 t2).1 = Some ErrCacheWriteFenced).
Proof.
  intros w1 w2 w3 [Hpre Hok]%Forall_app Hs Hbegin Hsup Hlen Hs' Hvia.
  assert (world_inv (set_cache w1 c1)) as Hinv.
  { assert (world_inv w1) as Hinv1 by (apply run_inv; auto using init_inv).
    pose proof (BeginRefresh_inv (w_cache w1) (w_subs w1) s now Hinv1) as Hb. by rewrite Hbegin in Hb. }
  pose proof (BeginRefresh_token _ _ _ _ _ Hbegin) as (Hid & Htg & Hte & Hrange).
  apply fenced_commit. destruct (sub_closed s') eqn:Hclosed; [by left|right].
  assert (w3 = run arrange (set_cache w1 c1) (mid ++ o :: post)) as Hw3
    by (unfold w3, w2, run; by rewrite foldl_app).
  assert ((∃ g, o = OpInvalidateGeneration g) ∨ ∀ g, o ≠ OpInvalidateGeneration g) as [[g ->]|Hng]
    by (destruct o; try (right; congruence); left; eauto).
  - destruct Hsup as [Hg <-]. apply invalidated_fenced. rewrite Htg. apply run_invalidated; [done|]. simpl.
    unfold InvalidateGeneration. rewrite (proj2 (String.eqb_neq _ _) Hg). simpl.
    rewrite fold_invalidate_generations. simpl. set_solver.
  - assert (keeps_key arrange (set_cache w1 c1) (mid ++ o :: post) (sub_identity s)) as Hsub.
    { destruct Hvia as [->|[?|?]]; [|naive_solver..]. rewrite Hw3 in Hs'. by eapply open_subscribed. }
    apply moved_epoch_fenced. rewrite Hid, Hte.
    by eapply (superseded_epoch (set_cache w1 c1) mid o post s).
Qed.

(** invalidating a generation is final. Whatever happens afterwards, no entry
    of that generation is in the cache, nobody can subscribe to it again, and the
    subscriptions it had can neither read, nor begin a refresh, nor commit. *)
Theorem invalidated_generation_is_final config pre g post key s now tok snapshot partial t1 t2 :
  let w := run arrange (run_op arrange (run arrange (init_world config) pre)
                          (OpInvalidateGeneration g)) post in
  let c := w_cache w in
  Forall op_ok (pre ++ post) → g ≠ "" → Generation (rk_WatchKey key) = g →
  Generation (rk_WatchKey (sub_key s)) = g →
  (∀ i e, entries c !! i = Some e → Generation (rk_WatchKey (e_key e)) ≠ g)
  ∧ (∃ e, Subscribe c key = (Err e, c))
  ∧ Load c s now = (None, c)
  ∧ BeginRefresh c s now = (Err ErrCacheWriteFenced, c)
  ∧ (∃ e, Commit arrange c s tok snapshot partial t1 t2 = (Some e, c)).
Proof.
  intros w c [Hpre Hpost]%Forall_app Hg Hkey Hsub.
  assert (world_inv w) as Hinv.
  { apply run_inv, run_op_inv, run_inv; auto using init_inv. done. }
  assert (g ∈ invalidatedGeneration c) as Hin.
  { apply (run_invalidated arrange). simpl. unfold InvalidateGeneration.
    destruct (String.eqb_spec g ""); [done|]. simpl.
    rewrite fold_invalidate_generations. simpl. set_solver. }
  assert (currentLocked c s = false) as Hcur
    by (unfold currentLocked; rewrite decide_True; congruence).
  split_and!.
  - intros i e He Heq. apply (inv_live _ _ Hinv _ _ He). by rewrite Heq.
  - unfold Subscribe. destruct (canonicalResourceCacheKey key) as [[k i]|] eqn:Hk; [|eauto].
    destruct (canonical_generation _ _ _ Hk) as [Hgen _].
    rewrite decide_True by congruence. eauto.
  - unfold Load. rewrite Hcur. by repeat case_match.
  - unfold BeginRefresh. rewrite Hcur, orb_true_r. done.
  - unfold Commit. destruct (sub_closed s); [eauto|].
    destruct (validatedCacheSnapshot _ _) as [[cloned size]|]; [|eauto].
    unfold commit_allowed. rewrite Hcur, andb_false_r. simpl. eauto.
Qed.

(** eviction policy. Making room removes entries only if enough room can be
    made (a refusal leaves the cache unchanged), never removes the entry being
    written or one with open subscriptions, and never removes an entry while
    keeping an unreferenced one that is expired, or less recently used, where the
    removed one was not. *)
Theorem eviction_policy c now exclude add isNew room c' :
  evictForLocked arrange c now exclude add isNew = (room, c') →
  (room = false → c' = c)
  ∧ (room = true →
     within_budget c (bytes c' + add) (entry_count c' + if isNew then 1 else 0) = true)
  ∧ (∀ i e, entries c !! i = Some e → entries c' !! i = None →
       i ≠ exclude ∧ ¬ (get_or (refs c) i 0 > 0)%Z
       ∧ ∀ j e', entries c' !! j = Some e' → j ≠ exclude → ¬ (get_or (refs c) j 0 > 0)%Z →
           candidate_less
             {| cand_identity := j; cand_expired := negb (now <? e_expiresAt e')%Z;
                cand_lastUsed := e_lastUsed e' |}
             {| cand_identity := i; cand_expired := negb (now <? e_expiresAt e)%Z;
                cand_lastUsed := e_lastUsed e |} = false).
Proof.
  intros Hev. split_and!.
  - intros ->. by eapply evictFor_false.
  - intros ->. by eapply evictFor_true.
  - intros i e Hi Hgone. revert Hev. unfold evictForLocked.
    destruct (within_budget c _ _); [intros [= <- <-]; congruence|].
    destruct (evict_probe _ _ _ _) as [b n].
    destruct (negb (within_budget c b n)); [intros [= <- <-]; congruence|].
    intros Hl. destruct (evict_loop_prefix c (arrange (eviction_candidates c exclude now))
      (bytes c + add)%Z (entry_count c + if isNew then 1 else 0)%Z) as (l1 & l2 & Hsplit & Hent).
    rewrite Hl in Hent. simpl in Hent. rewrite Hent in Hgone.
    assert (∀ x, x ∈ l1 ++ l2 ↔ x ∈ eviction_candidates c exclude now) as Helem.
    { intros x. rewrite <- Hsplit. by rewrite (arrange_perm (eviction_candidates c exclude now)). }
    destruct (decide (i ∈ cand_identity <$> l1)) as [Hin|]; [|congruence].
    apply list_elem_of_fmap in Hin as (x & -> & Hx).
    assert (x ∈ eviction_candidates c exclude now) as Hxc by (apply Helem; set_solver).
    apply eviction_candidates_elem in Hxc as (e0 & He0 & Hne & Href & Hexp & Hused).
    assert (e0 = e) as -> by congruence. split_and!; [done..|].
    intros j e' Hj Hjne Hjref. rewrite Hent in Hj. case_decide as Hjn; [done|].
    set (y := {| cand_identity := j; cand_expired := negb (now <? e_expiresAt e')%Z;
                 cand_lastUsed := e_lastUsed e' |}).
    assert (y ∈ l1 ++ l2) as Hy by (apply Helem, eviction_candidates_elem; exists e'; done).
    apply elem_of_app in Hy as [Hy|Hy].
    { exfalso. apply Hjn. by apply (list_elem_of_fmap_2 cand_identity _ y). }
    rewrite <- Hexp, <- Hused. destruct x as [xi xe xu]; simpl in *.
    eapply (sorted_by_app_inv candidate_less l1 l2); [|exact Hx|exact Hy].
    rewrite <- Hsplit. apply arrange_sorted.
Qed.

(** what was committed is what is loaded. After a successful [Commit] the same
    subscription loads exactly the snapshot that was committed, with the size that
    was accounted for it, classified by its age: expired from [maxStale] on, else
    partial if it was committed so, else stale from [freshFor] on, else fresh. *)
Theorem commit_then_load c s tok snapshot partial t1 t2 c' now :
  Commit arrange c s tok snapshot partial t1 t2 = (None, c') →
  ∃ view c'', Load c' s now = (Some view, c'')
    ∧ cs_Snapshot view = snapshot ∧ cs_StoredAt view = t2
    ∧ cs_Bytes view = (len (items_json (Items snapshot)) + len (ResourceVersion snapshot))%Z
    ∧ cs_State view =
        (if t2 + maxStale c <=? now then CacheStateExpired
         else if partial then CacheStatePartial
         else if t2 + freshFor c <=? now then CacheStateStale else CacheStateFresh)%Z
    ∧ cs_Complete view = negb partial && (now <? t2 + maxStale c)%Z.
Proof.
  unfold Commit. destruct (sub_closed s) eqn:Hc; [done|].
  destruct (validatedCacheSnapshot _ _) as [[cloned size]|] eqn:Hv; [|done].
  destruct (commit_allowed c s tok) eqn:Hal; simpl; [|done].
  unfold commit_allowed in Hal. bool_to_prop.
  pose proof Hv as (-> & -> & _ & Hall)%validated_size.
  destruct (_ <? _)%Z; simpl; [done|].
  match goal with |- context [evictForLocked arrange c t1 ?x ?y ?z] =>
    pose proof (evictFor_frame arrange c t1 x y z) as (_ & _ & _ & Hff & Hms & Hge & Hig & _);
    destruct (evictForLocked arrange c t1 x y z) as [[] c1] end; simpl in *; [|done].
  intros [= <-]. unfold Load. rewrite Hc. simpl. rewrite lookup_insert_eq.
  assert (currentLocked (with_entries c1 (entries c1) (bytes c1)) s = true) as Hcur.
  { unfold currentLocked in *. simpl. rewrite Hig, Hge. done. }
  unfold currentLocked in Hcur. simpl in Hcur.
  unfold currentLocked. simpl. rewrite Hcur. simpl.
  assert (cloneWatchSnapshot snapshot = Ok snapshot) as Hclone.
  { unfold validatedCacheSnapshot in Hv. repeat case_match; congruence. }
  rewrite Hclone. do 2 eexists. split; [done|]. simpl. unfold entry_state. simpl.
  rewrite Hff, Hms, !Z.leb_antisym. split_and!; [done..| |].
  - repeat case_match; bool_to_prop; done.
  - destruct partial; [done|]. simpl. destruct (now <? t2 + maxStale c)%Z; simpl; [|done].
    by destruct (now <? t2 + freshFor c)%Z.
Qed.
End guarantees.

(** ** Distinct bindings never share a cache slot *)

(** The resources of the topic catalogue. *)
Definition catalogue : list GroupVersionResource := topicOrder ≫= TopicGVRs.

(** What the cache key needs of [GroupVersionResource.String]: it tells the
    catalogue's resources apart and prints no NUL byte. *)
Class GVRPrinterOk `{GVRPrinter} : Prop := {
  gvr_string_inj : ∀ g1 g2, g1 ∈ catalogue → g2 ∈ catalogue →
    GVR_String g1 = GVR_String g2 → g1 = g2;
  gvr_string_nul_free : ∀ g, g ∈ catalogue → nul_free (GVR_String g) }.

(** The strings of a key that enter its identity unencoded. *)
Definition key_clean (k : ResourceCacheKey) : Prop :=
  Forall nul_free ([Generation k; Context k; Scope k; key_Namespace k; Selector k;
                    Sort (Query k); Order (Query k)]
                   ++ EffectiveOrigins k ++ Filters (Query k))
  ∧ Forall (byte_free (chr 30)) (EffectiveOrigins k ++ Filters (Query k)).

#[export] Instance key_clean_dec k : Decision (key_clean k).
Proof. unfold key_clean. apply _. Defined.

Lemma nul_free_Join l c :
  c ≠ chr 0 → Forall nul_free l → nul_free (Join l (String c "")).
Proof.
  intros Hc. induction 1 as [|x l Hx Hl IH]; [by intros ?%elem_of_nil|].
  destruct l as [|y l]; [done|]. unfold nul_free in *. rewrite Join_cons_cons, !chars_app.
  rewrite !elem_of_app. intros [?|[Heq|?]]; [done| |done].
  apply Hc. set_solver.
Qed.

Lemma nul_free_pretty_N_go n s : nul_free s → nul_free (pretty_N_go n s).
Proof.
  revert s; induction n as [n IH] using (well_founded_induction N.lt_wf_0); intros s Hs.
  destruct (decide (n = 0)%N) as [->|Hn]; [by rewrite pretty_N_go_0|].
  rewrite pretty_N_go_step by lia. apply IH.
  - apply N.div_lt; lia.
  - unfold nul_free, chars in *. simpl. intros [Heq|Hin]%elem_of_cons; [|done].
    revert Heq. unfold pretty_N_char. by repeat case_match.
Qed.

Lemma nul_free_json_int z : nul_free (json_int z).
Proof.
  unfold json_int, pretty, pretty_Z, pretty, pretty_positive, pretty, pretty_N.
  destruct z as [|p|p].
  - by apply (bool_decide_unpack _).
  - case_decide; [by apply (bool_decide_unpack _)|]. apply nul_free_pretty_N_go. by apply (bool_decide_unpack _).
  - case_decide; [by apply (bool_decide_unpack _)|]. unfold nul_free. rewrite chars_app, elem_of_app.
    intros [Hin|Hin]; [revert Hin; by apply (bool_decide_unpack _)|].
    revert Hin. apply nul_free_pretty_N_go. by apply (bool_decide_unpack _).
Qed.

Lemma canonicalCacheStrings_nonempty l : Forall (λ s, s ≠ "") (canonicalCacheStrings l).
Proof. apply Forall_forall. intros v [? _]%canonicalCacheStrings_elem. done. Qed.

Lemma topic_in_catalogue g t : g ∈ TopicGVRs t → g ∈ catalogue ∧ t ∈ topicOrder.
Proof.
  unfold TopicGVRs. intros Hg. destruct (topicGVRs t) as [l|] eqn:Ht; [|set_solver].
  assert (t ∈ topicOrder) as Hin by (apply topicGVRs_supported; rewrite Ht; done).
  split; [|done]. apply list_elem_of_bind. exists t. unfold TopicGVRs. by rewrite Ht.
Qed.

(** cache isolation. Two cache keys (generation, context, scope, topic,
    resource, namespace, selector, resolved origins and query) that canonicalise
    to the same identity string canonicalise to the same key, so data can never be
    served across bindings; the keys' strings contain no NUL and their origins and
    filters no record separator. *)
Theorem cache_identity_injective `{!GVRPrinter} `{!GVRPrinterOk} key1 key2 k1 k2 i :
  canonicalResourceCacheKey key1 = Ok (k1, i) →
  canonicalResourceCacheKey key2 = Ok (k2, i) →
  key_clean k1 → key_clean k2 → k1 = k2.
Proof.
  unfold canonicalResourceCacheKey. intros H1 H2.
  destruct (_ || _ || _ || _); [done|]. destruct (negb _) eqn:Hg1; [done|].
  destruct (_ <? 0)%Z; [done|]. injection H1 as <- <-.
  destruct (_ || _ || _ || _); [done|]. destruct (negb _) eqn:Hg2 in H2; [done|].
  destruct (_ <? 0)%Z; [done|]. injection H2 as <- Heq.
  rewrite negb_false_iff, bool_decide_eq_true in Hg1, Hg2.
  apply topic_in_catalogue in Hg1 as [Hc1 Ht1], Hg2 as [Hc2 Ht2].
  intros [Hn1 Hs1] [Hn2 Hs2]. rewrite !Forall_app, !Forall_cons in *. simpl in *. destruct_and?.
  repeat (apply nul_split in Heq as [? Heq];
    [|solve [done | by apply topics_nul_free | by apply gvr_string_nul_free
            | apply nul_free_Join; [done|assumption] | apply nul_free_json_int]..]).
  assert (key_GVR key2 = key_GVR key1) as -> by (by apply gvr_string_inj).
  assert (PageSize (Query key2) = PageSize (Query key1)) as -> by (by apply (inj pretty)).
  assert (canonicalCacheStrings (EffectiveOrigins key2)
    = canonicalCacheStrings (EffectiveOrigins key1)) as ->
    by (apply (Join_sep_inj (chr 30)); auto using canonicalCacheStrings_nonempty).
  assert (canonicalCacheStrings (Filters (Query key2))
    = canonicalCacheStrings (Filters (Query key1))) as ->
    by (apply (Join_sep_inj (chr 30)); auto using canonicalCacheStrings_nonempty).
  congruence.
Qed.

(** ** Witnesses: the guarantees at concrete inputs *)

(** A printer in the shape apimachinery documents: "group/version, Resource=name". *)
Definition plain_printer : GVRPrinter :=
  {| GVR_String g := Group g +:+ "/" +:+ Version g +:+ ", Resource=" +:+ Resource g |}.

Lemma plain_printer_ok : @GVRPrinterOk plain_printer.
Proof.
  split.
  - assert (Forall (λ g1, Forall (λ g2,
      @GVR_String plain_printer g1 = @GVR_String plain_printer g2 → g1 = g2) catalogue) catalogue)
      as Hall by (by apply (bool_decide_unpack _)).
    intros g1 g2 H1 H2. rewrite Forall_forall in Hall. specialize (Hall g1 H1).
    rewrite Forall_forall in Hall. by apply Hall.
  - apply Forall_forall. by apply (bool_decide_unpack _).
Qed.

Definition demo_key : ResourceCacheKey := {|
  rk_WatchKey := {| Generation := "gen_1"; Context := "kind"; Scope := "7";
    key_Topic := TopicPods; key_GVR := GVR "" "v1" "pods"; key_Namespace := "default";
    Selector := " "; EffectiveOrigins := ["kube-system"; "default"; "default"] |};
  Query := {| Filters := []; Sort := ""; Order := " ASC "; PageSize := 20; Cursor := "" |} |}.

Definition demo_pod (name : string) : option TopicObject :=
  Some (ObjValue (DPod {| pod_Namespace := "default"; pod_Name := name; pod_Labels := ∅;
    pod_Status := "Running"; pod_Owner := None; pod_ConfigMaps := []; pod_PVCs := [];
    pod_json := "{}" |})).
Definition demo_snapshot : WatchSnapshot :=
  {| ResourceVersion := "41"; Items := [demo_pod "a"; demo_pod "b"] |}.
Definition demo_config : ResourceCacheConfig :=
  {| cfg_MaxBytes := 64; cfg_MaxEntries := 2; cfg_FreshFor := 30; cfg_MaxStale := 300 |}.

Definition demo_sort : list candidate → list candidate := sort_stable candidate_less.
Definition demo_ops : list op :=
  [OpSubscribe 0 demo_key; OpBeginRefresh 0 5; OpClose 0; OpEvictInactive 0 9].
Definition demo_world : world :=
  @run plain_printer demo_sort (init_world demo_config) [OpSubscribe 0 demo_key].
Definition demo_sub : CacheSubscription :=
  default {| sub_key := demo_key; sub_identity := ""; sub_generationEpoch := 0; sub_closed := true |}
    (w_subs demo_world !! 0).
Definition demo_token : CacheRefreshToken :=
  {| tok_identity := sub_identity demo_sub; tok_generation := "gen_1";
     tok_generationEpoch := 0; tok_keyEpoch := 1 |}.
Definition demo_begun : ResourceCache := (BeginRefresh (w_cache demo_world) demo_sub 5).2.

Lemma cache_memory_budget_witness :
  (bytes (w_cache (@run plain_printer demo_sort (init_world demo_config) demo_ops)) ≤ 64)%Z.
Proof.
  apply (@cache_memory_budget plain_printer demo_sort _ demo_config demo_ops).
  by apply (bool_decide_unpack _).
Defined.

Lemma superseded_token_fenced_witness :
  let w3 := @run_op plain_printer demo_sort (set_cache demo_world demo_begun) (OpBeginRefresh 0 6) in
  (Commit demo_sort (w_cache w3) demo_sub demo_token demo_snapshot false 7 8).1
  = Some ErrCacheWriteFenced.
Proof.
  apply (@superseded_token_fenced plain_printer demo_sort _ demo_config [OpSubscribe 0 demo_key] 0
    demo_sub 5 demo_token demo_begun [] (OpBeginRefresh 0 6) [] 0 demo_sub demo_snapshot false 7 8).
  - by apply (bool_decide_unpack _).
  - by vm_compute.
  - by vm_compute.
  - exists demo_sub. split_and!; by vm_compute.
  - done.
  - by vm_compute.
  - by left.
  - by vm_compute.
Defined.

(** The epoch of a key that nobody subscribes to is forgotten: after the last subscription
    is closed, epochs restart at 1, and a superseded token stores its snapshot through a new
    subscription that has begun a refresh. *)
Definition demo_reopened : world :=
  @run plain_printer demo_sort demo_world
    [OpBeginRefresh 0 5; OpBeginRefresh 0 6; OpClose 0; OpSubscribe 1 demo_key; OpBeginRefresh 1 7].
Example closed_key_forgets_epochs :
  (BeginRefresh (w_cache demo_world) demo_sub 5).1 = Ok demo_token
  ∧ ∃ s, w_subs demo_reopened !! 1 = Some s
      ∧ (Commit demo_sort (w_cache demo_reopened) s demo_token demo_snapshot false 8 9).1 = None.
Proof. split; [by vm_compute|]. eexists. split; by vm_compute. Qed.

Lemma invalidated_generation_is_final_witness :
  let w := @run_op plain_printer demo_sort demo_world (OpInvalidateGeneration "gen_1") in
  BeginRefresh (w_cache w) demo_sub 9 = (Err ErrCacheWriteFenced, w_cache w).
Proof.
  apply (@invalidated_generation_is_final plain_printer demo_sort _ demo_config
    [OpSubscribe 0 demo_key] "gen_1" [] demo_key demo_sub 9 demo_token demo_snapshot false 1 2).
  - by apply (bool_decide_unpack _).
  - done.
  - by vm_compute.
  - by vm_compute.
Defined.

(** A cache with two unreferenced entries of 40 and 20 bytes under a budget of 64. *)
Definition demo_entry (size expires used : Z) : resourceCacheEntry :=
  {| e_key := demo_key; e_snapshot := demo_snapshot; e_storedAt := 0; e_lastUsed := used;
     e_freshUntil := 30; e_expiresAt := expires; e_bytes := size; e_partial := false;
     e_refreshing := false |}.
Definition demo_full : ResourceCache :=
  with_entries (NewResourceCache demo_config)
    {["old" := demo_entry 40 300 2; "new" := demo_entry 20 300 9]} 60.

Lemma eviction_policy_witness :
  (evictForLocked demo_sort demo_full 10 "x" 10 true).1 = true
  ∧ within_budget demo_full 30 2 = true.
Proof.
  split; [by vm_compute|].
  apply (@eviction_policy demo_sort _ demo_full 10 "x" 10 true true
    (evictForLocked demo_sort demo_full 10 "x" 10 true).2); by vm_compute.
Defined.

Lemma commit_then_load_witness :
  ∃ view c'', Load (Commit demo_sort demo_begun demo_sub demo_token demo_snapshot false 7 8).2
                demo_sub 40 = (Some view, c'')
    ∧ cs_Snapshot view = demo_snapshot ∧ cs_State view = CacheStateStale.
Proof.
  destruct (@commit_then_load demo_sort _ demo_begun demo_sub demo_token demo_snapshot false 7 8
    (Commit demo_sort demo_begun demo_sub demo_token demo_snapshot false 7 8).2 40)
    as (view & c'' & Hload & Hsnap & _ & _ & Hstate & _); [by vm_compute|].
  exists view, c''. rewrite Hstate. split_and!; [done..|by vm_compute].
Defined.

(** The same binding written differently. *)
Definition demo_key' : ResourceCacheKey := {|
  rk_WatchKey := {| Generation := "gen_1"; Context := "kind"; Scope := "7";
    key_Topic := TopicPods; key_GVR := GVR "" "v1" "pods"; key_Namespace := "default";
    Selector := ""; EffectiveOrigins := ["default"; "kube-system "] |};
  Query := {| Filters := [""]; Sort := ""; Order := "asc"; PageSize := 20; Cursor := "" |} |}.
Definition demo_canonical (key : ResourceCacheKey) : ResourceCacheKey * string :=
  match @canonicalResourceCacheKey plain_printer key with Ok p => p | Err _ => (key, "") end.

Lemma cache_identity_injective_witness :
  (demo_canonical demo_key).2 = (demo_canonical demo_key').2
  ∧ (demo_canonical demo_key).1 = (demo_canonical demo_key').1.
Proof.
  split; [by vm_compute|].
  apply (@cache_identity_injective plain_printer plain_printer_ok demo_key demo_key'
    (demo_canonical demo_key).1 (demo_canonical demo_key').1 (demo_canonical demo_key).2).
  - by vm_compute.
  - by vm_compute.
  - by apply (bool_decide_unpack _).
  - by apply (bool_decide_unpack _).
Defined.
