(* ===== verification/Snapshot.v ===== *)
(** * Snapshot: watch snapshots and the events made of them

    Models the functions of src/internal/services/resources/watch.go that turn a
    LIST checkpoint into bounded stream events ([SnapshotEvents]), a watch change
    into an event ([watchChangeEvent]), and that apply an event to the retained
    snapshot together with its incremental byte accounting
    ([applyStreamEventToSnapshot], [snapshotEventSizeDelta]). *)
From Stdlib Require Import Ascii String ZArith Lia.
From stdpp Require Import base gmap strings list.
From S2P Require Import Prelude Json Topics Cache.

Definition MaximumStreamEventBytes : Z := 65536.   (* 64 << 10 *)
Definition MaximumSnapshotBytes : Z := 10485760.   (* 10 << 20 *)
Definition streamSSEEnvelopeReserve : Z := 64.

Definition event_size (e : StreamEvent) : Z := len (StreamEvent_json e).
(** What an event costs on the wire: its JSON plus the SSE framing. *)
Definition wire_size (e : StreamEvent) : Z := (event_size e + streamSSEEnvelopeReserve)%Z.

(** ** Snapshots as events *)

Definition snapshot_event (generation : string) (topic : Topic) (rv : string)
    (items : list (option TopicObject)) (chunk : Z) (final : bool) : StreamEvent :=
  {| ev_Event := "snapshot"; ev_Topic := topic; ev_Generation := generation;
     ev_ResourceVersion := rv; ev_Items := items; ev_Object := None; ev_Deleted := None;
     ev_Reason := ""; ev_RefetchRequired := false; ev_Final := final; ev_Chunk := chunk;
     ev_CompletedNamespaces := 0; ev_RequestedNamespaces := 0; ev_ObservedAt := "" |}.

Definition object_too_large : error :=
  domainError CodeLimitExceeded "A snapshot object exceeds the event limit." None.

Section snapshot_events.
Variables (generation : string) (topic : Topic) (rv : string).

(** The chunking loop: [events] so far (in order) and the chunk being filled. *)
Fixpoint snapshot_loop (items : list (option TopicObject)) (events : list StreamEvent)
    (chunk : list (option TopicObject))
    : result error (list StreamEvent * list (option TopicObject)) :=
  match items with
  | [] => Ok (events, chunk)
  | item :: rest =>
    let n := Z.of_nat (length events) in
    let candidate := chunk ++ [item] in
    if (MaximumStreamEventBytes - 512
        <? event_size (snapshot_event generation topic rv candidate n false))%Z
    then match chunk with
         | [] => Err object_too_large
         | _ :: _ =>
           let events' := events ++ [snapshot_event generation topic rv chunk n false] in
           let single := snapshot_event generation topic rv [item]
                           (Z.of_nat (length events')) true in
           if (MaximumStreamEventBytes <? event_size single + streamSSEEnvelopeReserve)%Z
           then Err object_too_large
           else snapshot_loop rest events' [item]
         end
    else snapshot_loop rest events candidate
  end.

Definition item_of_topic (o : option TopicObject) : bool :=
  match o with Some o' => bool_decide (resourceTopic o' = topic) | None => false end.

Definition SnapshotEvents (s : WatchSnapshot) : result error (list StreamEvent) :=
  if (MaximumSnapshotItems <? Z.of_nat (length (Items s)))%Z
  then Err (domainError CodeLimitExceeded "The initial snapshot is too large." None)
  else if negb (forallb item_of_topic (Items s))
  then Err (validationError "snapshot contains an object for another topic")
  else if (MaximumSnapshotBytes <? len (items_json (Items s)))%Z
  then Err (domainError CodeLimitExceeded "The initial snapshot is too large." None)
  else match snapshot_loop (Items s) [] [] with
       | Err e => Err e
       | Ok (events, chunk) =>
         Ok (events ++ [snapshot_event generation topic rv chunk (Z.of_nat (length events)) true])
       end.
End snapshot_events.

(** ** Watch changes as events *)

Record WatchChange := {
  ch_Type : string; ch_ResourceVersion : string; ch_Object : option TopicObject;
  ch_Deleted : option ResourceRef; ch_InitialEventsEnd : bool; ch_Err : option error }.

(** [observedAt] is the formatted wall clock. *)
Definition watchChangeEvent (key : WatchKey) (change : WatchChange) (observedAt : string)
    : result error StreamEvent :=
  let eventType := ToLower (ch_Type change) in
  if negb (String.eqb eventType "added") && negb (String.eqb eventType "modified")
     && negb (String.eqb eventType "deleted")
  then Err (validationError "watch event type is invalid")
  else
    let event object deleted := {|
      ev_Event := eventType; ev_Topic := key_Topic key; ev_Generation := Generation key;
      ev_ResourceVersion := ch_ResourceVersion change; ev_Items := []; ev_Object := object;
      ev_Deleted := deleted; ev_Reason := ""; ev_RefetchRequired := false; ev_Final := false;
      ev_Chunk := 0; ev_CompletedNamespaces := 0; ev_RequestedNamespaces := 0;
      ev_ObservedAt := observedAt |} in
    let finish e :=
      if (MaximumStreamEventBytes <? wire_size e)%Z
      then Err (domainError CodeLimitExceeded "The watch event exceeds the event limit." None)
      else Ok e in
    if String.eqb eventType "deleted" then
      match ch_Deleted change with
      | None => Err (validationError "deleted watch event requires a reference")
      | Some ref => finish (event None (Some ref))
      end
    else
      match ch_Object change with
      | None => Err (validationError "watch object does not match its topic")
      | Some o =>
        if negb (bool_decide (resourceTopic o = key_Topic key))
        then Err (validationError "watch object does not match its topic")
        else finish (event (Some o) None)
      end.

(** ** Applying an event to the retained snapshot *)

Definition has_identity (identity : string) (o : option TopicObject) : bool :=
  bool_decide (topicObjectIdentity o = Some identity).

(** [result.Items[index] = object] at the first match, else append. *)
Fixpoint upsert_item (identity : string) (object : option TopicObject)
    (items : list (option TopicObject)) : list (option TopicObject) :=
  match items with
  | [] => [object]
  | o :: rest => if has_identity identity o then object :: rest
                 else o :: upsert_item identity object rest
  end.

(** Drop the first match. *)
Fixpoint remove_item (identity : string) (items : list (option TopicObject))
    : list (option TopicObject) :=
  match items with
  | [] => []
  | o :: rest => if has_identity identity o then rest else o :: remove_item identity rest
  end.

Definition is_upsert (e : StreamEvent) : bool :=
  String.eqb (ev_Event e) "added" || String.eqb (ev_Event e) "modified".
Definition is_delete (e : StreamEvent) : bool := String.eqb (ev_Event e) "deleted".

Definition applyStreamEventToSnapshot (topic : Topic) (s : WatchSnapshot) (e : StreamEvent)
    : WatchSnapshot :=
  let rv := if String.eqb (ev_ResourceVersion e) "" then ResourceVersion s
            else ev_ResourceVersion e in
  if is_upsert e then
    match topicObjectIdentity (ev_Object e) with
    | None => {| ResourceVersion := rv; Items := Items s |}
    | Some identity =>
      {| ResourceVersion := rv; Items := upsert_item identity (ev_Object e) (Items s) |}
    end
  else if is_delete e then
    match resourceRefIdentity topic (ev_Deleted e) with
    | None => {| ResourceVersion := rv; Items := Items s |}
    | Some identity => {| ResourceVersion := rv; Items := remove_item identity (Items s) |}
    end
  else {| ResourceVersion := rv; Items := Items s |}.

(** The loop of [snapshotEventSizeDelta] over the stored items. *)
Fixpoint size_delta_loop (identity : string) (newBytes : Z) (total : nat)
    (items : list (option TopicObject)) : Z :=
  match items with
  | [] => if (0 <? newBytes)%Z && (0 <? Z.of_nat total)%Z then newBytes + 1 else newBytes
  | o :: rest =>
    if has_identity identity o then
      let delta := (newBytes - len (object_json o))%Z in
      if (newBytes =? 0)%Z && (1 <? Z.of_nat total)%Z then delta - 1 else delta
    else size_delta_loop identity newBytes total rest
  end.

Definition snapshotEventSizeDelta (topic : Topic) (s : WatchSnapshot) (e : StreamEvent) : Z :=
  let '(identity, newBytes) :=
    if is_upsert e then
      match topicObjectIdentity (ev_Object e) with
      | Some i => (Some i, len (object_json (ev_Object e)))
      | None => (None, 0%Z)
      end
    else if is_delete e then (resourceRefIdentity topic (ev_Deleted e), 0%Z)
    else (None, 0%Z) in
  match identity with
  | None => 0%Z
  | Some i => size_delta_loop i newBytes (length (Items s)) (Items s)
  end.

(** ** The snapshot as a map from identities to objects *)

Definition item_map (items : list (option TopicObject)) : gmap string TopicObject :=
  foldr (λ o m, match o, topicObjectIdentity o with
                | Some o', Some i => <[i := o']> m
                | _, _ => m
                end) ∅ items.

(** Every item has an identity, and no two items the same. *)
Definition items_wf (items : list (option TopicObject)) : Prop :=
  Forall (λ o, is_Some (topicObjectIdentity o)) items ∧ NoDup (topicObjectIdentity <$> items).

(** What a level-driven consumer does with a delta. *)
Definition apply_to_map (topic : Topic) (e : StreamEvent) (m : gmap string TopicObject)
    : gmap string TopicObject :=
  if is_upsert e then
    match ev_Object e, topicObjectIdentity (ev_Object e) with
    | Some o, Some i => <[i := o]> m
    | _, _ => m
    end
  else if is_delete e then
    match resourceRefIdentity topic (ev_Deleted e) with Some i => delete i m | None => m end
  else m.

(** * Lemmas *)

Lemma has_identity_true i o : has_identity i o = true ↔ topicObjectIdentity o = Some i.
Proof. unfold has_identity. apply bool_decide_eq_true. Qed.

Lemma upsert_item_identities i o items :
  topicObjectIdentity o = Some i →
  topicObjectIdentity <$> upsert_item i o items
  = if decide (Some i ∈ topicObjectIdentity <$> items)
    then topicObjectIdentity <$> items else (topicObjectIdentity <$> items) ++ [Some i].
Proof.
  intros Ho. induction items as [|x items IH]; cbn [upsert_item]; [simpl; by rewrite Ho|].
  destruct (has_identity i x) eqn:Hx.
  - apply has_identity_true in Hx. rewrite decide_True by (simpl; set_solver).
    simpl. congruence.
  - rewrite !fmap_cons, IH. destruct (decide (Some i ∈ topicObjectIdentity <$> items)).
    + rewrite decide_True by set_solver. done.
    + rewrite decide_False; [done|]. rewrite not_elem_of_cons. split; [|done].
      intros Heq. by rewrite (proj2 (has_identity_true i x)) in Hx.
Qed.

Lemma remove_item_sublist i items : remove_item i items `sublist_of` items.
Proof.
  induction items as [|x items IH]; simpl; [constructor|].
  destruct (has_identity i x); by constructor.
Qed.

Lemma sublist_fmap_NoDup {A B} (f : A → B) (l k : list A) :
  l `sublist_of` k → NoDup (f <$> k) → NoDup (f <$> l).
Proof.
  induction 1 as [|x l k Hs IH|x l k Hs IH]; simpl; [done|..];
    rewrite ?fmap_cons, ?NoDup_cons; intros [Hx Hk]; auto.
  split; [|auto]. rewrite list_elem_of_fmap. intros (y & Heq & Hy). apply Hx. rewrite Heq.
  apply list_elem_of_fmap_2. by eapply sublist_subseteq.
Qed.

Lemma upsert_item_wf i o items :
  topicObjectIdentity o = Some i → items_wf items → items_wf (upsert_item i o items).
Proof.
  intros Ho [Hall Hnd]. split.
  - clear Hnd. induction Hall as [|x l Hx Hl IH]; simpl; [constructor; [by rewrite Ho|constructor]|].
    destruct (has_identity i x); by constructor; rewrite ?Ho.
  - rewrite upsert_item_identities by done. case_decide; [done|].
    apply NoDup_app. split_and!; [done| |apply NoDup_singleton]. set_solver.
Qed.

Lemma remove_item_wf i items : items_wf items → items_wf (remove_item i items).
Proof.
  intros [Hall Hnd]. pose proof (remove_item_sublist i items) as Hs. split.
  - apply Forall_forall. intros o Ho. rewrite Forall_forall in Hall. apply Hall.
    by eapply sublist_subseteq.
  - by eapply sublist_fmap_NoDup.
Qed.

Lemma item_map_lookup_None items i :
  Some i ∉ topicObjectIdentity <$> items → item_map items !! i = None.
Proof.
  induction items as [|o items IH]; [done|].
  rewrite fmap_cons, not_elem_of_cons. intros [Ho Hi]. specialize (IH Hi).
  cbn [item_map foldr]. fold (item_map items). destruct o as [o|]; [|done].
  destruct (topicObjectIdentity (Some o)) as [j|]; [|done].
  rewrite lookup_insert_ne; [done|congruence].
Qed.

Lemma item_map_upsert i o items :
  topicObjectIdentity (Some o) = Some i → items_wf items →
  item_map (upsert_item i (Some o) items) = <[i := o]> (item_map items).
Proof.
  intros Ho [Hall Hnd]. induction items as [|x items IH]; cbn [upsert_item].
  { cbn [item_map foldr]. by rewrite Ho. }
  rewrite Forall_cons in Hall. destruct Hall as [[j Hj] Hall].
  rewrite fmap_cons, NoDup_cons in Hnd. destruct Hnd as [Hx Hnd].
  destruct x as [x|]; [|done].
  destruct (has_identity i (Some x)) eqn:Hi.
  - apply has_identity_true in Hi. cbn [item_map foldr]. rewrite Ho, Hi.
    by rewrite insert_insert_eq.
  - cbn [item_map foldr]. fold (item_map (upsert_item i (Some o) items)). fold (item_map items).
    rewrite Hj, IH by done. apply insert_insert_ne. intros Heq.
    rewrite (proj2 (has_identity_true i _)) in Hi; congruence.
Qed.

Lemma item_map_remove i items :
  items_wf items → item_map (remove_item i items) = delete i (item_map items).
Proof.
  intros [Hall Hnd]. induction items as [|x items IH]; cbn [remove_item].
  { cbn [item_map foldr]. by rewrite delete_empty. }
  rewrite Forall_cons in Hall. destruct Hall as [[j Hj] Hall].
  rewrite fmap_cons, NoDup_cons in Hnd. destruct Hnd as [Hx Hnd].
  destruct x as [x|]; [|done]. cbn [item_map foldr]. fold (item_map items). rewrite Hj.
  destruct (has_identity i (Some x)) eqn:Hi.
  - apply has_identity_true in Hi. assert (j = i) as -> by congruence.
    rewrite delete_insert_id; [done|]. rewrite Hj in Hx. by apply item_map_lookup_None.
  - cbn [item_map foldr]. fold (item_map (remove_item i items)). rewrite Hj, IH by done.
    rewrite delete_insert_ne; [done|]. intros Heq.
    rewrite (proj2 (has_identity_true i _)) in Hi; congruence.
Qed.

(** ** Byte accounting *)

Definition sum_json (items : list (option TopicObject)) : Z := sum_len (object_json <$> items).

Lemma len_items_json items :
  len (items_json items)
  = (2 + sum_json items + Z.max 0 (Z.of_nat (length items) - 1))%Z.
Proof. unfold items_json. rewrite len_json_array, length_fmap. done. Qed.

Lemma upsert_item_size i o total items :
  (0 < len (object_json o))%Z →
  let nb := len (object_json o) in
  (∃ old, size_delta_loop i nb total items = (nb - len (object_json old))%Z
     ∧ sum_json (upsert_item i o items) = (sum_json items + nb - len (object_json old))%Z
     ∧ length (upsert_item i o items) = length items)
  ∨ (size_delta_loop i nb total items = (if (0 <? Z.of_nat total) then nb + 1 else nb)%Z
     ∧ sum_json (upsert_item i o items) = (sum_json items + nb)%Z
     ∧ length (upsert_item i o items) = S (length items)).
Proof.
  intros Hnb nb. unfold sum_json. induction items as [|x items IH]; cbn [upsert_item size_delta_loop].
  - right. assert ((0 <? nb)%Z = true) as -> by lia. split_and!; [done| |done].
    simpl. rewrite sum_len_cons. unfold sum_len, sum_Z. simpl. fold nb. lia.
  - destruct (has_identity i x).
    + left. exists x. assert ((nb =? 0)%Z = false) as -> by lia.
      split_and!; [done| |done]. rewrite !fmap_cons, !sum_len_cons. fold nb. lia.
    + rewrite !fmap_cons, !sum_len_cons.
      destruct IH as [(old & H1 & H2 & H3)|(H1 & H2 & H3)]; [left; exists old|right];
        split_and!; try done; simpl; rewrite ?H2, ?H3; lia.
Qed.

Lemma remove_item_size i total items :
  (∃ old, size_delta_loop i 0 total items
        = (0 - len (object_json old) - if 1 <? Z.of_nat total then 1 else 0)%Z
     ∧ sum_json (remove_item i items) = (sum_json items - len (object_json old))%Z
     ∧ S (length (remove_item i items)) = length items)
  ∨ (size_delta_loop i 0 total items = 0%Z ∧ remove_item i items = items).
Proof.
  unfold sum_json. induction items as [|x items IH]; cbn [remove_item size_delta_loop]; [by right|].
  destruct (has_identity i x).
  - left. exists x. split_and!; [|rewrite fmap_cons, sum_len_cons; lia|done].
    change (0 =? 0)%Z with true. simpl. case_match; lia.
  - destruct IH as [(old & H1 & H2 & H3)|(H1 & H2)]; [left; exists old|right].
    + split_and!; [done| |simpl; by rewrite H3]. rewrite !fmap_cons, !sum_len_cons, H2. lia.
    + by rewrite H2.
Qed.

(** Incremental byte accounting. Adding [snapshotEventSizeDelta] to the size of
    the retained snapshot gives exactly the size of the snapshot after the event
    was applied, so the watch can enforce its memory budget without encoding the
    whole collection again. *)
Theorem size_delta_exact topic s e :
  (is_upsert e = true → (0 < len (object_json (ev_Object e)))%Z) →
  len (items_json (Items (applyStreamEventToSnapshot topic s e)))
  = (len (items_json (Items s)) + snapshotEventSizeDelta topic s e)%Z.
Proof.
  intros Hpos. rewrite !len_items_json. unfold applyStreamEventToSnapshot, snapshotEventSizeDelta.
  destruct (is_upsert e) eqn:Hup.
  - specialize (Hpos eq_refl). destruct (topicObjectIdentity (ev_Object e)) as [i|]; simpl; [|lia].
    destruct (upsert_item_size i (ev_Object e) (length (Items s)) (Items s) Hpos)
      as [(old & -> & -> & ->)|(-> & -> & ->)]; [lia|].
    destruct (Items s); simpl; lia.
  - destruct (is_delete e); simpl; [|lia].
    destruct (resourceRefIdentity topic (ev_Deleted e)) as [i|]; simpl; [|lia].
    destruct (remove_item_size i (length (Items s)) (Items s)) as [(old & -> & -> & Hl)|(-> & ->)];
      [|lia].
    case_match; bool_to_prop; lia.
Qed.

(** A snapshot is a faithful map from object identities to objects. If its items
    have pairwise distinct identities, they still do after an event, and the event
    acts on it as insertion (added, modified) or deletion (deleted) of one key. *)
Theorem apply_event_refines_map topic s e :
  items_wf (Items s) →
  items_wf (Items (applyStreamEventToSnapshot topic s e))
  ∧ item_map (Items (applyStreamEventToSnapshot topic s e))
    = apply_to_map topic e (item_map (Items s)).
Proof.
  intros Hwf. unfold applyStreamEventToSnapshot, apply_to_map. destruct (is_upsert e).
  - destruct (ev_Object e) as [o|]; [|done].
    destruct (topicObjectIdentity (Some o)) as [i|] eqn:Hi; simpl; [|done].
    split; [by apply upsert_item_wf|by apply item_map_upsert].
  - destruct (is_delete e); [|done].
    destruct (resourceRefIdentity topic (ev_Deleted e)) as [i|]; simpl; [|done].
    split; [by apply remove_item_wf|by apply item_map_remove].
Qed.

(** ** Chunked snapshots *)

Lemma event_size_final generation topic rv items n :
  event_size (snapshot_event generation topic rv items n true)
  = (event_size (snapshot_event generation topic rv items n false) + 13)%Z.
Proof.
  unfold event_size, StreamEvent_json. rewrite !len_json_object.
  unfold event_members. rewrite !sum_len_app, !length_app.
  cbn [snapshot_event ev_Event ev_Topic ev_Generation ev_ResourceVersion ev_Items ev_Object
       ev_Deleted ev_Reason ev_RefetchRequired ev_Final ev_Chunk ev_CompletedNamespaces
       ev_RequestedNamespaces ev_ObservedAt].
  change (sum_len (json_member "final" (omit_false true))) with 12%Z.
  change (sum_len (json_member "final" (omit_false false))) with 0%Z.
  change (length (json_member "final" (omit_false true))) with 1%nat.
  change (length (json_member "final" (omit_false false))) with 0%nat.
  change (length (json_member "event" (Some (json_string "snapshot")))) with 1%nat. lia.
Qed.

Section chunks.
Variables (generation : string) (topic : Topic) (rv : string).
Abbreviation mk := (snapshot_event generation topic rv).

(** A chunk the loop may hold as number [n]: it can be sent, final or not. *)
Definition chunk_fits (chunk : list (option TopicObject)) (n : nat) : Prop :=
  (wire_size (mk chunk (Z.of_nat n) true) ≤ MaximumStreamEventBytes)%Z.

Definition all_items (events : list StreamEvent) : list (option TopicObject) :=
  events ≫= ev_Items.

(** Events [0 .. n-1], none of them final, each of them sendable. *)
Definition prefix_ok (events : list StreamEvent) : Prop :=
  ∀ j e, events !! j = Some e →
    ev_Chunk e = Z.of_nat j ∧ ev_Final e = false ∧ ev_Event e = "snapshot"
    ∧ ev_Topic e = topic ∧ ev_Generation e = generation ∧ ev_ResourceVersion e = rv
    ∧ (wire_size e ≤ MaximumStreamEventBytes)%Z.

Lemma prefix_ok_snoc events chunk :
  prefix_ok events → chunk_fits chunk (length events) →
  prefix_ok (events ++ [mk chunk (Z.of_nat (length events)) false]).
Proof.
  intros Hev Hfit j e. rewrite lookup_app. destruct (events !! j) as [e'|] eqn:Hj.
  - intros [= <-]. by apply Hev.
  - intros [Hj0 <-]%list_lookup_singleton_Some. apply lookup_ge_None in Hj.
    assert (j = length events) as -> by lia. split_and!; [done..|].
    unfold chunk_fits, wire_size in *. rewrite event_size_final in Hfit. lia.
Qed.

Lemma snapshot_loop_spec items events chunk events' chunk' :
  snapshot_loop generation topic rv items events chunk = Ok (events', chunk') →
  prefix_ok events → (chunk = [] ∨ chunk_fits chunk (length events)) →
  prefix_ok events'
  ∧ (items ≠ [] ∨ chunk ≠ [] → chunk_fits chunk' (length events'))
  ∧ all_items events' ++ chunk' = all_items events ++ chunk ++ items.
Proof.
  revert events chunk; induction items as [|item items IH]; intros events chunk; cbn [snapshot_loop].
  { intros [= <- <-] Hev Hch. rewrite app_nil_r. split_and!; [done|naive_solver|done]. }
  destruct (_ <? _)%Z eqn:Hbig.
  - destruct chunk as [|c0 chunk]; [done|]. destruct (MaximumStreamEventBytes <? _)%Z eqn:Hsingle; [discriminate|].
    intros Hl Hev [|Hch]; [done|]. bool_to_prop.
    apply IH in Hl as (H1 & H2 & H3); [|by apply prefix_ok_snoc|by right].
    split_and!; [done|intros _; apply H2; by right|].
    rewrite H3. unfold all_items. rewrite bind_app. simpl.
    by rewrite app_nil_r, <- !app_assoc.
  - intros Hl Hev Hch. bool_to_prop.
    apply IH in Hl as (H1 & H2 & H3); [|done|].
    + split_and!; [done|intros _; apply H2; right; by destruct chunk|].
      rewrite H3. by rewrite <- !app_assoc.
    + right. unfold chunk_fits, wire_size. rewrite event_size_final.
      unfold streamSSEEnvelopeReserve, MaximumStreamEventBytes in *. lia.
Qed.

(** An accepted snapshot is delivered completely and in sendable pieces. The
    events carry the snapshot's items in order, are numbered from zero, only the
    last is final, and (for a non-empty snapshot) every one of them, with its SSE
    framing, is within the 64 KiB event limit. *)
Theorem snapshot_events_complete s events :
  SnapshotEvents generation topic rv s = Ok events → Items s ≠ [] →
  all_items events = Items s
  ∧ (∀ j e, events !! j = Some e →
       ev_Chunk e = Z.of_nat j ∧ ev_Event e = "snapshot" ∧ ev_Topic e = topic
       ∧ ev_Generation e = generation ∧ ev_ResourceVersion e = rv
       ∧ (wire_size e ≤ MaximumStreamEventBytes)%Z
       ∧ (ev_Final e = true ↔ S j = length events)).
Proof.
  unfold SnapshotEvents. intros Hs Hne.
  destruct (_ <? _)%Z; [done|]. destruct (negb _); [done|]. destruct (_ <? _)%Z; [done|].
  destruct (snapshot_loop _ _ _ _ _ _) as [[ev chunk]|] eqn:Hl; [|done]. simplify_eq.
  apply snapshot_loop_spec in Hl as (H1 & H2 & H3); [|by intros ??|by left].
  specialize (H2 (or_introl Hne)). split.
  - unfold all_items in *. rewrite bind_app. simpl. by rewrite app_nil_r, H3.
  - intros j e. rewrite length_app, lookup_app. simpl.
    destruct (ev !! j) as [e'|] eqn:Hj.
    + intros [= <-]. destruct (H1 j e' Hj) as (? & Hf & ? & ? & ? & ? & ?).
      split_and!; [done..|]. apply lookup_lt_Some in Hj. rewrite Hf. split; [done|lia].
    + intros [Hj0 <-]%list_lookup_singleton_Some. apply lookup_ge_None in Hj.
      assert (j = length ev) as -> by lia. split_and!; [done..|]. simpl. split; [lia|done].
Qed.
End chunks.

(** What a watch may publish. An accepted change is an added, modified or
    deleted event of the watched topic and generation, fits the wire limit, and
    carries exactly the payload its type needs: an object of that topic, or the
    reference of the deleted one. Anything else is refused with a typed error. *)
Theorem watch_change_event_sound key change now :
  match watchChangeEvent key change now with
  | Ok e =>
    (wire_size e ≤ MaximumStreamEventBytes)%Z
    ∧ ev_Topic e = key_Topic key ∧ ev_Generation e = Generation key
    ∧ ev_Event e = ToLower (ch_Type change)
    ∧ ev_ResourceVersion e = ch_ResourceVersion change ∧ ev_Items e = []
    ∧ ((is_upsert e = true ∧ ev_Deleted e = None
        ∧ ∃ o, ev_Object e = Some o ∧ ch_Object change = Some o ∧ resourceTopic o = key_Topic key)
       ∨ (is_delete e = true ∧ ev_Object e = None ∧ is_Some (ev_Deleted e)
          ∧ ev_Deleted e = ch_Deleted change))
  | Err err => ErrorCodeOf err = CodeLimitExceeded ∨ ErrorCodeOf err = CodeValidationFailed
  end.
Proof.
  unfold watchChangeEvent, is_upsert, is_delete.
  destruct (String.eqb_spec (ToLower (ch_Type change)) "added") as [Ha|Ha];
  destruct (String.eqb_spec (ToLower (ch_Type change)) "modified") as [Hm|Hm];
  destruct (String.eqb_spec (ToLower (ch_Type change)) "deleted") as [Hd|Hd]; simpl;
    try congruence; try (by right).
  all: destruct (ch_Deleted change) as [ref|], (ch_Object change) as [o|]; simpl; try (by right).
  all: try (destruct (decide (resourceTopic o = key_Topic key));
    [rewrite bool_decide_true by done|rewrite bool_decide_false by done; by right]; simpl).
  all: destruct (MaximumStreamEventBytes <? _)%Z eqn:Hlim; [by left|]; bool_to_prop; simpl.
  all: split_and!; [lia|done..|]; rewrite ?Ha, ?Hm, ?Hd; naive_solver.
Qed.

(** ** Witnesses *)

Definition demo_pod (name : string) : TopicObject := ObjValue (DPod {|
  pod_Namespace := "prod"; pod_Name := name; pod_Labels := ∅; pod_Status := "Running";
  pod_Owner := None; pod_ConfigMaps := []; pod_PVCs := []; pod_json := "{}" |}).

Definition demo_items : WatchSnapshot :=
  {| ResourceVersion := "7"; Items := [Some (demo_pod "a"); Some (demo_pod "b")] |}.

Definition demo_added : StreamEvent := {|
  ev_Event := "added"; ev_Topic := TopicPods; ev_Generation := "gen_1"; ev_ResourceVersion := "8";
  ev_Items := []; ev_Object := Some (demo_pod "c"); ev_Deleted := None; ev_Reason := "";
  ev_RefetchRequired := false; ev_Final := false; ev_Chunk := 0; ev_CompletedNamespaces := 0;
  ev_RequestedNamespaces := 0; ev_ObservedAt := "" |}.

Lemma size_delta_exact_witness :
  len (items_json (Items (applyStreamEventToSnapshot TopicPods demo_items demo_added))) = 10%Z.
Proof.
  rewrite (size_delta_exact TopicPods demo_items demo_added); [by vm_compute|].
  intros _. by vm_compute.
Defined.

Lemma apply_event_refines_map_witness :
  items_wf (Items (applyStreamEventToSnapshot TopicPods demo_items demo_added)).
Proof.
  apply (apply_event_refines_map TopicPods demo_items demo_added).
  by apply (bool_decide_unpack _).
Defined.

Lemma snapshot_events_complete_witness :
  ∃ events, SnapshotEvents "gen_1" TopicPods "7" demo_items = Ok events
    ∧ all_items events = Items demo_items.
Proof.
  eexists. split; [by vm_compute|].
  apply (snapshot_events_complete "gen_1" TopicPods "7" demo_items); [by vm_compute|done].
Defined.
