(* ===== verification/Queue.v ===== *)
(** * Queue: bounded delivery of stream events

    Models the per-subscriber queue of
    src/internal/services/resources/watch.go ([Subscription]: [push], [Next],
    [forceTerminal], [Close]) and the process-wide limit on open streams
    ([StreamRegistry]). Every operation is one critical section of the
    subscription's mutex; [Next] is split at the point where it releases the mutex
    and selects on its channels. *)
From Stdlib Require Import Ascii String ZArith Lia.
From stdpp Require Import base gmap strings list.
From S2P Require Import Prelude Json Topics Snapshot.

Definition MaximumStreamQueueBytes : Z := 1048576.  (* 1 << 20 *)
Definition MaximumStreamQueueEvents : Z := 1000.
Definition MaximumStreams : Z := 8.

Record queuedEvent := { q_event : StreamEvent; q_bytes : Z }.

(** [signal] is the one-slot channel: whether it holds a token. [hasCloseFn] says
    whether [closeFn] is set. *)
Record Subscription := {
  signal : bool; queue : list queuedEvent; bytes : Z; closed : bool; hasCloseFn : bool }.

Definition newSubscription : Subscription :=
  {| signal := false; queue := []; bytes := 0; closed := false; hasCloseFn := false |}.

Definition streamEventIdentity (e : StreamEvent) : option string :=
  if String.eqb (ev_Topic e) "" || String.eqb (ev_Topic e) TopicEvents then None
  else
    (λ identity, ev_Topic e +:+ nul +:+ identity) <$>
      (if is_upsert e then topicObjectIdentity (ev_Object e)
       else if is_delete e then resourceRefIdentity (ev_Topic e) (ev_Deleted e)
       else None).

(** The scan from the back of the queue, written on the reversed queue: the
    position (from the back) of the pending delta for [identity], unless a
    snapshot of the topic comes first. *)
Fixpoint coalesce_scan (topic : Topic) (identity : string) (rev_queue : list queuedEvent)
    : option nat :=
  match rev_queue with
  | [] => None
  | q :: rest =>
    if String.eqb (ev_Event (q_event q)) "snapshot" && bool_decide (ev_Topic (q_event q) = topic)
    then None
    else if bool_decide (streamEventIdentity (q_event q) = Some identity) then Some 0
    else S <$> coalesce_scan topic identity rest
  end.

Definition coalesce_index (e : StreamEvent) (q : list queuedEvent) : option nat :=
  match streamEventIdentity e with
  | None => None
  | Some identity =>
    (λ back, length q - 1 - back) <$> coalesce_scan (ev_Topic e) identity (reverse q)
  end.

Definition push (s : Subscription) (e : StreamEvent) : bool * Subscription :=
  let wireBytes := wire_size e in
  if (MaximumStreamEventBytes <? wireBytes)%Z then (false, s)
  else if closed s then (false, s)
  else
    match coalesce_index e (queue s) with
    | Some index =>
      let old := default 0%Z (q_bytes <$> queue s !! index) in
      if (MaximumStreamQueueBytes <? bytes s - old + wireBytes)%Z then (false, s)
      else (true,
        {| signal := signal s; closed := closed s; hasCloseFn := hasCloseFn s;
           queue := <[index := {| q_event := e; q_bytes := wireBytes |}]> (queue s);
           bytes := bytes s + (wireBytes - old) |})
    | None =>
      if (MaximumStreamQueueEvents <=? Z.of_nat (length (queue s)))%Z
         || (MaximumStreamQueueBytes <? bytes s + wireBytes)%Z
      then (false, s)
      else (true,
        {| signal := true; closed := closed s; hasCloseFn := hasCloseFn s;
           queue := queue s ++ [{| q_event := e; q_bytes := wireBytes |}];
           bytes := bytes s + wireBytes |})
    end.

Definition forceTerminal (s : Subscription) (e : StreamEvent) : Subscription :=
  if closed s then s
  else {| signal := true; closed := true; hasCloseFn := hasCloseFn s;
          queue := [{| q_event := e; q_bytes := wire_size e |}]; bytes := wire_size e |}.

(** [Close] also says whether the callback runs. *)
Definition Close (s : Subscription) : bool * Subscription :=
  if closed s then (false, s)
  else (hasCloseFn s,
    {| signal := true; closed := true; hasCloseFn := false; queue := queue s; bytes := bytes s |}).

(** The locked part of one iteration of [Next]: an event, the end of the stream,
    or a wait on the channels. *)
Inductive poll_result := Delivered (e : StreamEvent) | EndOfStream | Blocked.

Definition Next_poll (s : Subscription) : poll_result * Subscription :=
  match queue s with
  | item :: rest =>
    (Delivered (q_event item),
     {| signal := signal s; closed := closed s; hasCloseFn := hasCloseFn s;
        queue := rest; bytes := bytes s - q_bytes item |})
  | [] => (if closed s then EndOfStream else Blocked, s)
  end.

(** The select of [Next]: the caller's context ends, the subscription's own
    context ends (which closes it), or a signal is received. *)
Inductive wake := WakeCaller | WakeSubscription | WakeSignal.

Definition Next_select (s : Subscription) (w : wake) : option Subscription :=
  match w with
  | WakeCaller => Some s
  | WakeSubscription => Some (Close s).2
  | WakeSignal =>
    if signal s then Some {| signal := false; closed := closed s; hasCloseFn := hasCloseFn s;
                             queue := queue s; bytes := bytes s |}
    else None
  end.

(** The loop of [WatchManager.Subscribe] that queues the retained snapshot for a new
    subscriber, before any consumer can read: the first refused event turns the
    stream into one reset. *)
Definition slow_consumer_reset (key : WatchKey) : StreamEvent := {|
  ev_Event := "reset"; ev_Topic := key_Topic key; ev_Generation := Generation key;
  ev_ResourceVersion := ""; ev_Items := []; ev_Object := None; ev_Deleted := None;
  ev_Reason := "slow_consumer"; ev_RefetchRequired := true; ev_Final := false; ev_Chunk := 0;
  ev_CompletedNamespaces := 0; ev_RequestedNamespaces := 0; ev_ObservedAt := "" |}.

Fixpoint push_initial (key : WatchKey) (s : Subscription) (initial : list StreamEvent)
    : Subscription :=
  match initial with
  | [] => s
  | e :: rest =>
    match push s e with
    | (true, s') => push_initial key s' rest
    | (false, s') => forceTerminal s' (slow_consumer_reset key)
    end
  end.

(** ** The subscription as a state machine *)

Inductive sub_op :=
| OpPush (e : StreamEvent)
| OpTerminal (e : StreamEvent)
| OpClose
| OpPoll
| OpWake (w : wake).

(** The subscription, whether its consumer sits in the select of [Next], and the
    events delivered so far. *)
Record sub_world := { sub : Subscription; waiting : bool; delivered : list StreamEvent }.

Definition init_sub (callback : bool) : sub_world :=
  {| sub := {| signal := false; queue := []; bytes := 0; closed := false; hasCloseFn := callback |};
     waiting := false; delivered := [] |}.

Definition sub_step (w : sub_world) (o : sub_op) : sub_world :=
  match o with
  | OpPush e => {| sub := (push (sub w) e).2; waiting := waiting w; delivered := delivered w |}
  | OpTerminal e => {| sub := forceTerminal (sub w) e; waiting := waiting w; delivered := delivered w |}
  | OpClose => {| sub := (Close (sub w)).2; waiting := waiting w; delivered := delivered w |}
  | OpPoll =>
    if waiting w then w
    else match Next_poll (sub w) with
         | (Delivered e, s) => {| sub := s; waiting := false; delivered := delivered w ++ [e] |}
         | (EndOfStream, s) => {| sub := s; waiting := false; delivered := delivered w |}
         | (Blocked, s) => {| sub := s; waiting := true; delivered := delivered w |}
         end
  | OpWake k =>
    if waiting w then
      match Next_select (sub w) k with
      | Some s => {| sub := s; waiting := false; delivered := delivered w |}
      | None => w
      end
    else w
  end.

Definition sub_run (w : sub_world) (ops : list sub_op) : sub_world := foldl sub_step w ops.

(** ** Open streams *)

(** [active] and, for each token handed out, whether its [sync.Once] has run. *)
Record StreamRegistry := { active : Z; released : list bool }.

Definition Acquire (r : StreamRegistry) : result error nat * StreamRegistry :=
  if (MaximumStreams <=? active r)%Z
  then (Err (domainError CodeLimitExceeded "The stream limit was reached." None), r)
  else (Ok (length (released r)),
        {| active := active r + 1; released := released r ++ [false] |}).

Definition Release (token : nat) (r : StreamRegistry) : StreamRegistry :=
  match released r !! token with
  | Some false => {| active := active r - 1; released := <[token := true]> (released r) |}
  | _ => r
  end.

(** * Lemmas *)

(** An event that neither resets the topic nor touches the object: it may stay
    behind a replaced delta. *)
Definition unrelated (topic : Topic) (identity : string) (q : queuedEvent) : Prop :=
  ¬ (ev_Event (q_event q) = "snapshot" ∧ ev_Topic (q_event q) = topic)
  ∧ streamEventIdentity (q_event q) ≠ Some identity.

Lemma coalesce_scan_Some topic identity l n :
  coalesce_scan topic identity l = Some n →
  ∃ post old pre, l = post ++ old :: pre ∧ length post = n
    ∧ streamEventIdentity (q_event old) = Some identity ∧ Forall (unrelated topic identity) post.
Proof.
  revert n; induction l as [|q l IH]; intros n; simpl; [done|].
  destruct (_ && _) eqn:Hsnap; [done|].
  destruct (decide (streamEventIdentity (q_event q) = Some identity)) as [Hid|Hid];
    [rewrite (bool_decide_true (streamEventIdentity _ = _)) by done
    |rewrite (bool_decide_false (streamEventIdentity _ = _)) by done].
  - intros [= <-]. exists [], q, l. split_and!; [done..|constructor].
  - intros (m & Hm & ->)%fmap_Some. destruct (IH m Hm) as (post & old & pre & -> & <- & Ho & Hpost).
    exists (q :: post), old, pre. split_and!; [done..|]. constructor; [|done].
    split; [|done]. intros [Hev Htop]. apply andb_false_iff in Hsnap as [Hf|Hf].
    + by rewrite Hev in Hf.
    + by rewrite bool_decide_true in Hf.
Qed.

Lemma coalesce_index_Some e l index :
  coalesce_index e l = Some index →
  ∃ pre old post identity, l = pre ++ old :: post ∧ index = length pre
    ∧ streamEventIdentity e = Some identity
    ∧ streamEventIdentity (q_event old) = Some identity
    ∧ Forall (unrelated (ev_Topic e) identity) post.
Proof.
  unfold coalesce_index. destruct (streamEventIdentity e) as [i|] eqn:Hi; [|done].
  intros (back & Hscan & ->)%fmap_Some.
  apply coalesce_scan_Some in Hscan as (post & old & pre & Hrev & Hlen & Hold & Hpost).
  exists (reverse pre), old, (reverse post), i. split_and!; [| |done|done|].
  - rewrite <- (reverse_involutive l), Hrev, reverse_app, reverse_cons. by rewrite <- app_assoc.
  - rewrite <- (reverse_involutive l), Hrev, !length_reverse, length_app. simpl. lia.
  - by apply Forall_reverse.
Qed.

(** ** Bounds *)

Definition queued_ok (q : queuedEvent) : Prop :=
  q_bytes q = wire_size (q_event q) ∧ (q_bytes q ≤ MaximumStreamEventBytes)%Z.

Record queue_inv (s : Subscription) : Prop := {
  qi_bytes : bytes s = sum_Z (q_bytes <$> queue s);
  qi_each : Forall queued_ok (queue s);
  qi_events : (Z.of_nat (length (queue s)) ≤ MaximumStreamQueueEvents)%Z;
  qi_budget : (bytes s ≤ MaximumStreamQueueBytes)%Z }.

(** Operations the worker performs: terminal events are the short ones it builds. *)
Definition sub_op_ok (o : sub_op) : Prop :=
  match o with OpTerminal e => (wire_size e ≤ MaximumStreamEventBytes)%Z | _ => True end.
#[export] Instance sub_op_ok_dec o : Decision (sub_op_ok o).
Proof. destruct o; apply _. Defined.

Lemma push_inv s e : queue_inv s → queue_inv (push s e).2.
Proof.
  intros [Hb He Hn Hm]. unfold push.
  destruct (MaximumStreamEventBytes <? _)%Z eqn:Hwire; [done|].
  destruct (closed s); [done|]. bool_to_prop.
  destruct (coalesce_index e (queue s)) as [index|] eqn:Hidx.
  - apply coalesce_index_Some in Hidx as (pre & old & post & i & Hq & -> & _ & _ & _).
    rewrite Hq, list_lookup_middle by done. simpl.
    destruct (MaximumStreamQueueBytes <? _)%Z eqn:Hfull; [done|]. bool_to_prop.
    rewrite Hq in Hb, He, Hn. rewrite fmap_app, fmap_cons, sum_Z_app in Hb.
    apply Forall_app in He as [He1 [_ He2]%Forall_cons].
    split; cbn [bytes queue snd]; rewrite ?(insert_app_r_alt pre _ (length pre)), ?Nat.sub_diag by done;
      cbn [list_insert insert].
    + rewrite fmap_app, fmap_cons, sum_Z_app. cbn [sum_Z foldr q_bytes] in *. lia.
    + apply Forall_app. split; [done|]. constructor; [|done]. by split.
    + rewrite length_app in *. done.
    + lia.
  - destruct (_ || _) eqn:Hfull; [done|]. apply orb_false_iff in Hfull as [? ?]. bool_to_prop.
    split; cbn [bytes queue snd].
    + rewrite fmap_app, sum_Z_app. cbn. lia.
    + apply Forall_app. split; [done|]. constructor; [|done]. by split.
    + rewrite length_app. simpl. lia.
    + lia.
Qed.

Lemma forceTerminal_inv s e :
  (wire_size e ≤ MaximumStreamEventBytes)%Z → queue_inv s → queue_inv (forceTerminal s e).
Proof.
  intros He Hs. unfold forceTerminal. destruct (closed s); [done|].
  split; cbn [bytes queue]; [cbn; lia| |done|].
  - constructor; [by split|constructor].
  - unfold MaximumStreamEventBytes, MaximumStreamQueueBytes in *. lia.
Qed.

Lemma queue_Close_inv s : queue_inv s → queue_inv (Close s).2.
Proof. intros [????]. unfold Close. destruct (closed s); by split. Qed.

Lemma wire_size_pos e : (0 < wire_size e)%Z.
Proof. unfold wire_size, event_size, streamSSEEnvelopeReserve. pose proof (len_nonneg (StreamEvent_json e)). lia. Qed.

Lemma Next_poll_inv s : queue_inv s → queue_inv (Next_poll s).2.
Proof.
  intros Hs. unfold Next_poll. destruct (queue s) as [|q l] eqn:Hq; [done|].
  destruct Hs as [Hb He Hn Hm]. rewrite Hq in Hb, He, Hn.
  apply Forall_cons in He as [[Hq1 Hq2] He]. pose proof (wire_size_pos (q_event q)).
  change (bytes s = q_bytes q + sum_Z (q_bytes <$> l))%Z in Hb. cbn [length] in Hn.
  split; cbn [bytes queue snd]; [lia|done|lia..].
Qed.

Lemma Next_select_inv s w s' : queue_inv s → Next_select s w = Some s' → queue_inv s'.
Proof.
  intros Hs. destruct w; cbn [Next_select]; [by intros [= <-]|intros [= <-]; by apply queue_Close_inv|].
  destruct (signal s); [|done]. intros [= <-]. destruct Hs; by split.
Qed.

Lemma sub_step_inv w o : sub_op_ok o → queue_inv (sub w) → queue_inv (sub (sub_step w o)).
Proof.
  intros Ho Hs. destruct o as [e|e| | |k]; cbn [sub_step sub].
  - by apply push_inv.
  - by apply forceTerminal_inv.
  - by apply queue_Close_inv.
  - destruct (waiting w); [done|]. pose proof (Next_poll_inv _ Hs) as Hp.
    destruct (Next_poll (sub w)) as [[e| |] s']; done.
  - destruct (waiting w); [|done]. destruct (Next_select (sub w) k) as [s'|] eqn:Hk; [|done].
    by eapply Next_select_inv.
Qed.

Lemma sub_run_inv w ops :
  Forall sub_op_ok ops → queue_inv (sub w) → queue_inv (sub (sub_run w ops)).
Proof.
  intros Hops. revert w. induction Hops as [|o ops Ho _ IH]; intros w Hw; [done|].
  apply IH. by apply sub_step_inv.
Qed.

(** a subscriber's memory is bounded. Whatever is pushed, forced, closed or read
    in whatever order, the queue holds at most 1000 events, its byte counter is the
    sum of the events' wire sizes and at most 1 MiB, and no queued event is larger
    than the 64 KiB the stream may send. *)
Theorem subscriber_queue_bounded callback ops :
  Forall sub_op_ok ops →
  let s := sub (sub_run (init_sub callback) ops) in
  (Z.of_nat (length (queue s)) ≤ 1000)%Z
  ∧ bytes s = sum_Z (wire_size ∘ q_event <$> queue s)
  ∧ (bytes s ≤ 1048576)%Z
  ∧ Forall (λ q, wire_size (q_event q) ≤ MaximumStreamEventBytes)%Z (queue s).
Proof.
  intros Hops s. destruct (sub_run_inv (init_sub callback) ops Hops) as [Hb He Hn Hm].
  { by split; simpl. }
  fold s in Hb, He, Hn, Hm. split_and!; [done| |done|].
  - rewrite Hb. f_equal. apply list_fmap_ext. intros i q Hq.
    by destruct (Forall_lookup_1 _ _ _ _ He Hq).
  - eapply Forall_impl; [exact He|]. intros q [H1 H2]. by rewrite <- H1.
Qed.

(** ** Coalescing *)

(** A level-driven consumer of one topic: it keeps the current objects by
    identity. The first chunk of a snapshot replaces them, later chunks add, and a
    delta writes or deletes one key. *)
Definition consume_event (topic : Topic) (m : gmap string TopicObject) (e : StreamEvent)
    : gmap string TopicObject :=
  if decide (ev_Topic e = topic) then
    if String.eqb (ev_Event e) "snapshot" then
      if (ev_Chunk e =? 0)%Z then item_map (ev_Items e) else item_map (ev_Items e) ∪ m
    else apply_to_map topic e m
  else m.

Definition consume (topic : Topic) (m : gmap string TopicObject) (l : list StreamEvent) :=
  foldl (consume_event topic) m l.

Definition set_key (k : string) (v : option TopicObject) (m : gmap string TopicObject) :=
  match v with Some o => <[k := o]> m | None => delete k m end.

Lemma set_key_twice k v v' m : set_key k v (set_key k v' m) = set_key k v m.
Proof. apply map_eq. intros i. destruct v, v'; simpl; simplify_map_eq; destruct (decide (k = i)); by simplify_map_eq. Qed.

Lemma set_key_comm k k' v v' m :
  k ≠ k' → set_key k v (set_key k' v' m) = set_key k' v' (set_key k v m).
Proof.
  intros Hk. apply map_eq. intros i.
  destruct v, v', (decide (k = i)), (decide (k' = i)); simpl; by simplify_map_eq.
Qed.

(** The key a delta writes, and what it writes there. *)
Definition delta_key (e : StreamEvent) : option string :=
  if is_upsert e then topicObjectIdentity (ev_Object e)
  else if is_delete e then resourceRefIdentity (ev_Topic e) (ev_Deleted e)
  else None.
Definition delta_value (e : StreamEvent) : option TopicObject :=
  if is_upsert e then ev_Object e else None.

Definition topic_clean (e : StreamEvent) : Prop := ev_Topic e = "" ∨ ev_Topic e ∈ topicOrder.
#[export] Instance topic_clean_dec e : Decision (topic_clean e).
Proof. unfold topic_clean. apply _. Defined.

Lemma topic_clean_nul_free e : topic_clean e → nul_free (ev_Topic e).
Proof. intros [->|?]; [by apply (bool_decide_unpack _)|by apply topics_nul_free]. Qed.

Lemma streamEventIdentity_Some e i :
  streamEventIdentity e = Some i ↔
  ev_Topic e ≠ "" ∧ ev_Topic e ≠ TopicEvents
  ∧ ∃ k, delta_key e = Some k ∧ i = ev_Topic e +:+ nul +:+ k.
Proof.
  unfold streamEventIdentity. fold (delta_key e).
  destruct (String.eqb_spec (ev_Topic e) ""); simpl; [naive_solver|].
  destruct (String.eqb_spec (ev_Topic e) TopicEvents); simpl; [naive_solver|].
  rewrite fmap_Some. naive_solver.
Qed.

Lemma delta_not_snapshot e k : delta_key e = Some k → String.eqb (ev_Event e) "snapshot" = false.
Proof.
  unfold delta_key, is_upsert, is_delete. destruct (String.eqb_spec (ev_Event e) "snapshot") as [->|]; done.
Qed.

Lemma consume_delta e k m :
  delta_key e = Some k → consume_event (ev_Topic e) m e = set_key k (delta_value e) m.
Proof.
  intros Hk. unfold consume_event. rewrite decide_True, (delta_not_snapshot _ _ Hk) by done.
  unfold apply_to_map, delta_key, delta_value in *. destruct (is_upsert e).
  - rewrite Hk. by destruct (ev_Object e) as [o|].
  - destruct (is_delete e); [|done]. by rewrite Hk.
Qed.

Lemma consume_unrelated topic k v m q :
  topic ≠ "" → topic ≠ TopicEvents → unrelated topic (topic +:+ nul +:+ k) q →
  consume_event topic (set_key k v m) (q_event q) = set_key k v (consume_event topic m (q_event q)).
Proof.
  intros Hne Hev [Hsnap Hid]. unfold consume_event. case_decide as Htop; [|done].
  destruct (String.eqb_spec (ev_Event (q_event q)) "snapshot"); [naive_solver|].
  destruct (delta_key (q_event q)) as [k'|] eqn:Hk'.
  - pose proof (consume_delta _ _ m Hk') as H1. pose proof (consume_delta _ _ (set_key k v m) Hk') as H2.
    unfold consume_event in H1, H2.
    rewrite decide_True, (delta_not_snapshot _ _ Hk'), Htop in H1, H2 by done.
    rewrite H1, H2. apply set_key_comm. intros ->. apply Hid, streamEventIdentity_Some.
    rewrite Htop. eauto.
  - unfold apply_to_map, delta_key in *. subst topic. destruct (is_upsert _).
    + rewrite Hk'. by destruct (ev_Object _).
    + destruct (is_delete _); [by rewrite Hk'|done].
Qed.

Lemma consume_all_unrelated topic k v m l :
  topic ≠ "" → topic ≠ TopicEvents → Forall (unrelated topic (topic +:+ nul +:+ k)) l →
  consume topic (set_key k v m) (q_event <$> l) = set_key k v (consume topic m (q_event <$> l)).
Proof.
  intros Hne Hev Hl. unfold consume. revert m.
  induction Hl as [|q l Hq _ IH]; intros m; [done|]. cbn [fmap list_fmap foldl].
  by rewrite consume_unrelated, IH.
Qed.

Lemma consume_other topic m e : ev_Topic e ≠ topic → consume_event topic m e = m.
Proof. intros. unfold consume_event. by rewrite decide_False. Qed.

Lemma consume_app topic m l k :
  consume topic m (l ++ k) = consume topic (consume topic m l) k.
Proof. unfold consume. apply foldl_app. Qed.

Lemma consume_cons topic m e l :
  consume topic m (e :: l) = consume topic (consume_event topic m e) l.
Proof. done. Qed.

(** Replacing an undelivered delta by a later one for the same object shows the
    consumer the same final state as delivering both. *)
Lemma replace_consume pre old post e i topic m :
  topic_clean e → topic_clean (q_event old) →
  streamEventIdentity e = Some i → streamEventIdentity (q_event old) = Some i →
  Forall (unrelated (ev_Topic e) i) post →
  consume topic m (pre ++ e :: (q_event <$> post))
  = consume topic m (pre ++ q_event old :: (q_event <$> post) ++ [e]).
Proof.
  intros Hce Hco (Hne & Hnev & k & Hk & ->)%streamEventIdentity_Some
    (_ & _ & k' & Hk' & Heq)%streamEventIdentity_Some Hpost.
  apply nul_split in Heq as [Htop <-]; [|by apply topic_clean_nul_free..].
  rewrite !consume_app. generalize (consume topic m pre). clear m pre. intros m.
  rewrite !consume_cons, consume_app, consume_cons.
  destruct (decide (ev_Topic e = topic)) as [<-|Hother].
  - pose proof (consume_delta (q_event old) k m Hk') as Hold. rewrite <- Htop in Hold.
    rewrite Hold, !(consume_delta e k) by done. rewrite !consume_all_unrelated by done.
    unfold consume at 2. cbn [foldl]. by rewrite set_key_twice.
  - unfold consume at 2. cbn [foldl]. rewrite !consume_other; congruence.
Qed.

Lemma push_consume s e s' topic m :
  push s e = (true, s') →
  topic_clean e → Forall (λ q, topic_clean (q_event q)) (queue s) →
  consume topic m (q_event <$> queue s') = consume topic m ((q_event <$> queue s) ++ [e]).
Proof.
  unfold push. intros Hp Hce Hcq. destruct (MaximumStreamEventBytes <? _)%Z; [done|].
  destruct (closed s); [done|].
  destruct (coalesce_index e (queue s)) as [index|] eqn:Hidx.
  - apply coalesce_index_Some in Hidx as (pre & old & post & i & Hq & -> & Hi & Ho & Hpost).
    destruct (MaximumStreamQueueBytes <? _)%Z; [done|]. injection Hp as <-. cbn [queue].
    rewrite Hq in Hcq. apply Forall_app in Hcq as [_ [Hco _]%Forall_cons].
    rewrite Hq, (insert_app_r_alt pre _ (length pre)), Nat.sub_diag by done.
    rewrite !fmap_app, !fmap_cons, <- app_assoc. cbn [q_event list_insert insert fmap list_fmap].
    by apply (replace_consume _ _ _ _ i).
  - destruct (_ || _); [done|]. injection Hp as <-. cbn [queue]. by rewrite fmap_app.
Qed.

(** An accepted event keeps the subscription open and brings nothing but itself. *)
Lemma push_true s e s' :
  push s e = (true, s') →
  closed s = false ∧ closed s' = false ∧ ∀ q, q ∈ queue s' → q ∈ queue s ∨ q_event q = e.
Proof.
  unfold push. intros Hp. destruct (MaximumStreamEventBytes <? _)%Z; [done|].
  destruct (closed s) eqn:Hc; [done|]. split; [done|].
  destruct (coalesce_index e (queue s)) as [index|].
  - destruct (MaximumStreamQueueBytes <? _)%Z; [done|]. injection Hp as <-. cbn [queue closed].
    split; [done|]. intros q [i Hi]%list_elem_of_lookup.
    apply list_lookup_insert_Some in Hi as [(_ & <- & _)|[_ Hi]]; [by right|].
    left. by eapply list_elem_of_lookup_2.
  - destruct (_ || _); [done|]. injection Hp as <-. cbn [queue closed]. split; [done|].
    intros q [Hq|Hq%list_elem_of_singleton]%elem_of_app; [by left|right; by subst].
Qed.

Lemma push_false s e s' : push s e = (false, s') → s' = s.
Proof.
  unfold push. intros Hp. destruct (_ <? _)%Z; [congruence|]. destruct (closed s); [congruence|].
  destruct (coalesce_index e (queue s)); [destruct (_ <? _)%Z|destruct (_ || _)]; congruence.
Qed.

(** C23: coalescing is invisible. When [push] accepts an event, a consumer that
    reads the whole queue ends with the same objects as if every event had been
    appended, for every topic and every starting state; and events of the
    chronological topic [events] are always appended, never merged. *)
Theorem coalescing_transparent s e s' topic m :
  push s e = (true, s') →
  topic_clean e → Forall (λ q, topic_clean (q_event q)) (queue s) →
  consume topic m (q_event <$> queue s') = consume topic m ((q_event <$> queue s) ++ [e])
  ∧ (ev_Topic e = TopicEvents → (q_event <$> queue s') = (q_event <$> queue s) ++ [e]).
Proof.
  intros Hp Hce Hcq. split; [by apply push_consume|]. intros Hev. revert Hp. unfold push.
  destruct (MaximumStreamEventBytes <? _)%Z; [done|]. destruct (closed s); [done|].
  destruct (coalesce_index e (queue s)) as [index|] eqn:Hidx.
  - apply coalesce_index_Some in Hidx as (_ & _ & _ & i & _ & _ & Hi & _).
    by apply streamEventIdentity_Some in Hi as (_ & ? & _).
  - destruct (_ || _); [done|]. intros [= <-]. cbn [queue]. by rewrite fmap_app.
Qed.

(** ** The end of a stream *)

(** Once closed, the queue only shrinks from the front. *)
Definition drained (w w' : sub_world) : Prop :=
  ∃ d, delivered w' = delivered w ++ d
     ∧ (q_event <$> queue (sub w)) = d ++ (q_event <$> queue (sub w')).

Lemma drained_same w w' :
  delivered w' = delivered w → queue (sub w') = queue (sub w) → drained w w'.
Proof. intros H1 H2. exists []. by rewrite H1, H2, app_nil_r. Qed.

Lemma closed_step w o :
  closed (sub w) = true → closed (sub (sub_step w o)) = true ∧ drained w (sub_step w o).
Proof.
  intros Hc. destruct o as [e|e| | |k]; cbn [sub_step].
  - unfold push. rewrite Hc. destruct (_ <? _)%Z; (split; [done|by apply drained_same]).
  - unfold forceTerminal. rewrite Hc. split; [done|by apply drained_same].
  - unfold Close. rewrite Hc. split; [done|by apply drained_same].
  - destruct (waiting w); [split; [done|by apply drained_same]|]. unfold Next_poll.
    destruct (queue (sub w)) as [|q l] eqn:Hq; [rewrite Hc; split; [done|by apply drained_same]|].
    split; [done|]. exists [q_event q]. by rewrite Hq.
  - destruct (waiting w); [|split; [done|by apply drained_same]].
    destruct k; cbn [Next_select]; [split; [done|by apply drained_same]| |].
    + unfold Close. rewrite Hc. split; [done|by apply drained_same].
    + destruct (signal (sub w)); (split; [done|by apply drained_same]).
Qed.

Lemma closed_run w ops :
  closed (sub w) = true → closed (sub (sub_run w ops)) = true ∧ drained w (sub_run w ops).
Proof.
  revert w; induction ops as [|o ops IH]; intros w Hc; [split; [done|by apply drained_same]|].
  destruct (closed_step w o Hc) as [Hc' (d & Hd & Hq)].
  destruct (IH _ Hc') as [Hc'' (d' & Hd' & Hq')]. split; [done|]. exists (d ++ d').
  change (sub_run w (o :: ops)) with (sub_run (sub_step w o) ops).
  by rewrite Hd', Hd, Hq, Hq', !app_assoc.
Qed.

(** a terminal event ends the stream. After [forceTerminal] on an open
    subscription, every later interleaving of pushes, closes and reads delivers at
    most that one event, and once it was read the next read reports the end of the
    stream. *)
Theorem terminal_event_is_last w e ops :
  closed (sub w) = false →
  let w' := sub_run (sub_step w (OpTerminal e)) ops in
  (delivered w' = delivered w ∧ (Next_poll (sub w')).1 = Delivered e)
  ∨ (delivered w' = delivered w ++ [e] ∧ (Next_poll (sub w')).1 = EndOfStream).
Proof.
  intros Hc w'. destruct (closed_run (sub_step w (OpTerminal e)) ops) as [Hc' (d & Hd & Hq)].
  { cbn [sub_step sub]. unfold forceTerminal. by rewrite Hc. }
  fold w' in Hc', Hd, Hq. cbn [sub_step sub delivered] in Hd, Hq. unfold forceTerminal in Hq.
  rewrite Hc in Hq. cbn [queue fmap list_fmap q_event] in Hq. unfold Next_poll.
  destruct d as [|x d]; simpl in Hq.
  - left. destruct (queue (sub w')) as [|q l]; [done|]. injection Hq as -> _.
    by rewrite Hd, app_nil_r.
  - right. injection Hq as <- Hnil. symmetry in Hnil. apply app_eq_nil in Hnil as [-> Hnil].
    apply fmap_nil_inv in Hnil. by rewrite Hnil, Hc', Hd.
Qed.

(** ** Wake-ups *)

(** A consumer sitting in the select has a token to receive whenever there is
    something to do. *)
Definition wake_inv (w : sub_world) : Prop :=
  waiting w = true → queue (sub w) ≠ [] ∨ closed (sub w) = true → signal (sub w) = true.

Lemma insert_nonempty {A} i (x : A) l : <[i := x]> l ≠ [] → l ≠ [].
Proof. by destruct l, i. Qed.

Lemma push_wake s e :
  (queue s ≠ [] ∨ closed s = true → signal s = true) →
  queue (push s e).2 ≠ [] ∨ closed (push s e).2 = true → signal (push s e).2 = true.
Proof.
  intros Hs. unfold push. destruct (MaximumStreamEventBytes <? _)%Z; [done|].
  destruct (closed s) eqn:Hc; simpl; [by rewrite Hc|].
  destruct (coalesce_index e (queue s)) as [index|].
  - destruct (MaximumStreamQueueBytes <? _)%Z; simpl; [by rewrite Hc|].
    intros [Hq%insert_nonempty|?]; [auto|done].
  - destruct (_ || _); simpl; [by rewrite Hc|done].
Qed.

Lemma sub_step_wake w o : wake_inv w → wake_inv (sub_step w o).
Proof.
  unfold wake_inv. intros Hw. destruct o as [e|e| | |k]; cbn [sub_step sub waiting].
  - intros Hwait. specialize (Hw Hwait). by apply push_wake.
  - unfold forceTerminal. destruct (closed (sub w)) eqn:Hc; [by rewrite Hc|done].
  - unfold Close. destruct (closed (sub w)) eqn:Hc; simpl; [by rewrite Hc|done].
  - destruct (waiting w) eqn:Hwait; [by rewrite Hwait|]. unfold Next_poll.
    destruct (queue (sub w)) as [|q l] eqn:Hq; [|done].
    destruct (closed (sub w)) eqn:Hc; [done|]. simpl. rewrite Hq, Hc. naive_solver.
  - destruct (waiting w) eqn:Hwait; [|by rewrite Hwait].
    destruct (Next_select (sub w) k); [done|by rewrite Hwait].
Qed.

Lemma sub_run_wake w ops : wake_inv w → wake_inv (sub_run w ops).
Proof.
  revert w; induction ops as [|o ops IH]; intros w Hw; [done|]. by apply IH, sub_step_wake.
Qed.

(** no lost wake-up. Whenever the consumer is blocked in [Next] while an event is
    queued or the stream is closed, the signal channel holds a token, so the
    consumer can always continue; an in-place replacement needs no new token. *)
Theorem consumer_never_stuck callback ops :
  let w := sub_run (init_sub callback) ops in
  waiting w = true → queue (sub w) ≠ [] ∨ closed (sub w) = true →
  is_Some (Next_select (sub w) WakeSignal)
  ∧ ((∃ e, delivered (sub_run w [OpWake WakeSignal; OpPoll]) = delivered w ++ [e])
     ∨ (Next_poll (sub (sub_run w [OpWake WakeSignal]))).1 = EndOfStream).
Proof.
  intros w Hwait Hready.
  assert (signal (sub w) = true) as Hsig by (by apply (sub_run_wake (init_sub callback) ops)).
  cbn [Next_select]. rewrite Hsig. split; [done|].
  unfold sub_run; cbn [foldl sub_step]. rewrite Hwait. cbn [Next_select]. rewrite Hsig. simpl.
  unfold Next_poll. cbn [queue closed]. destruct (queue (sub w)) as [|q l].
  - right. destruct Hready as [Hn|Hc]; [done|by rewrite Hc].
  - left. by exists (q_event q).
Qed.

(** ** The initial snapshot and the queue budget *)

Definition sum_wire (l : list StreamEvent) : Z := sum_Z (wire_size <$> l).

Lemma sum_wire_nonneg l : (0 ≤ sum_wire l)%Z.
Proof.
  induction l as [|e l IH]; [done|]. pose proof (wire_size_pos e).
  change (0 ≤ wire_size e + sum_wire l)%Z. lia.
Qed.

Lemma push_snapshot s e :
  ev_Event e = "snapshot" → closed s = false → (wire_size e ≤ MaximumStreamEventBytes)%Z →
  push s e = if (Z.of_nat (length (queue s)) <? 1000)%Z && (bytes s + wire_size e <=? 1048576)%Z
             then (true, {| signal := true; closed := false; hasCloseFn := hasCloseFn s;
                            queue := queue s ++ [{| q_event := e; q_bytes := wire_size e |}];
                            bytes := bytes s + wire_size e |})
             else (false, s).
Proof.
  intros He Hc Hw. unfold push, coalesce_index, streamEventIdentity, is_upsert, is_delete.
  destruct (MaximumStreamEventBytes <? _)%Z eqn:Hbig; bool_to_prop; [lia|]. rewrite Hc, He. simpl.
  replace (if _ || _ then None else None) with (@None string) by (by destruct (_ || _)).
  unfold MaximumStreamQueueEvents, MaximumStreamQueueBytes. rewrite Z.leb_antisym, (Z.ltb_antisym _ 1048576).
  by destruct (_ <? 1000)%Z, (_ <=? 1048576)%Z.
Qed.

Lemma push_initial_spec key initial s :
  closed s = false →
  Forall (λ e, ev_Event e = "snapshot" ∧ (wire_size e ≤ MaximumStreamEventBytes)%Z) initial →
  (Z.of_nat (length (queue s)) ≤ 1000)%Z → (bytes s ≤ 1048576)%Z →
  let s' := push_initial key s initial in
  if (Z.of_nat (length (queue s) + length initial) <=? 1000)%Z
     && (bytes s + sum_wire initial <=? 1048576)%Z
  then closed s' = false ∧ (q_event <$> queue s') = (q_event <$> queue s) ++ initial
  else closed s' = true ∧ (q_event <$> queue s') = [slow_consumer_reset key].
Proof.
  intros Hc Hall. revert s Hc. induction Hall as [|e l [He Hw] Hl IH]; intros s Hc Hn Hb.
  { simpl. rewrite Nat.add_0_r, Z.add_0_r.
    destruct (_ <=? 1000)%Z eqn:H1, (_ <=? 1048576)%Z eqn:H2; simpl; bool_to_prop; try lia.
    by rewrite app_nil_r. }
  cbn [push_initial length]. rewrite push_snapshot by done.
  change (sum_wire (e :: l)) with (wire_size e + sum_wire l)%Z. pose proof (sum_wire_nonneg l).
  destruct ((Z.of_nat (length (queue s)) <? 1000)%Z && (bytes s + wire_size e <=? 1048576)%Z) eqn:Hfit.
  - apply andb_true_iff in Hfit as [Hf1 Hf2]. bool_to_prop. specialize (IH {|
      signal := true; closed := false; hasCloseFn := hasCloseFn s;
      queue := queue s ++ [{| q_event := e; q_bytes := wire_size e |}];
      bytes := bytes s + wire_size e |}).
    cbn [queue bytes closed] in IH. rewrite length_app in IH. cbn [length] in IH.
    specialize (IH eq_refl ltac:(lia) ltac:(lia)).
    replace (length (queue s) + S (length l)) with (length (queue s) + 1 + length l) by lia.
    rewrite Z.add_assoc. destruct (_ && _); [|done].
    destruct IH as [? ->]. rewrite fmap_app, <- app_assoc. done.
  - apply andb_false_iff in Hfit. unfold forceTerminal. rewrite Hc.
    destruct (_ && _) eqn:Hall'; [|done]. bool_to_prop. destruct Hfit; bool_to_prop; lia.
Qed.

(** What a new subscriber of a retained snapshot gets. The snapshot's events are
    all queued when they fit the 1000-event and 1 MiB queue budget; otherwise,
    although the snapshot itself was accepted (up to 10 MiB), the subscription
    starts with the single reset event "slow_consumer" and is closed. *)
Theorem initial_snapshot_delivery key callback initial :
  Forall (λ e, ev_Event e = "snapshot" ∧ (wire_size e ≤ MaximumStreamEventBytes)%Z) initial →
  let s' := push_initial key (sub (init_sub callback)) initial in
  if (Z.of_nat (length initial) <=? 1000)%Z && (sum_wire initial <=? 1048576)%Z
  then closed s' = false ∧ (q_event <$> queue s') = initial
  else closed s' = true ∧ (q_event <$> queue s') = [slow_consumer_reset key].
Proof. intros Hall. by apply (push_initial_spec key initial (sub (init_sub callback))). Qed.

(** ** Open streams *)

Inductive registry_op := RAcquire | RRelease (token : nat).
Definition registry_step (r : StreamRegistry) (o : registry_op) : StreamRegistry :=
  match o with RAcquire => (Acquire r).2 | RRelease t => Release t r end.

Definition open_tokens (r : StreamRegistry) : Z :=
  Z.of_nat (length (filter (λ b, b = false) (released r))).

Lemma open_tokens_release t r :
  released r !! t = Some false →
  Z.of_nat (length (filter (λ b, b = false) (<[t := true]> (released r)))) = (open_tokens r - 1)%Z.
Proof.
  unfold open_tokens. generalize (released r). intros l. revert t.
  induction l as [|b l IH]; intros [|t]; simpl; [done..| |].
  - intros [= ->]. rewrite filter_cons_False by done.
    rewrite (filter_cons_True (λ b, b = false) false) by done. simpl. lia.
  - intros Ht. change (<[S t:=true]> (b :: l)) with (b :: <[t:=true]> l).
    rewrite !filter_cons. case_decide; simpl; rewrite ?Nat2Z.inj_succ, IH by done; lia.
Qed.

(** The stream limit. After any sequence of acquisitions and releases (each
    release function may be called again), [active] is the number of streams not
    yet released and never more than 8. *)
Theorem registry_bounded ops :
  let r := foldl registry_step {| active := 0; released := [] |} ops in
  active r = open_tokens r ∧ (0 ≤ active r ≤ MaximumStreams)%Z.
Proof.
  assert (∀ r, active r = open_tokens r ∧ (0 ≤ active r ≤ MaximumStreams)%Z →
    let r' := foldl registry_step r ops in
    active r' = open_tokens r' ∧ (0 ≤ active r' ≤ MaximumStreams)%Z) as H; [|by apply H].
  induction ops as [|o ops IH]; intros r Hr; [done|]. apply IH. destruct Hr as [Ha Hb].
  destruct o as [|t]; cbn [registry_step].
  - unfold Acquire. destruct (MaximumStreams <=? active r)%Z eqn:Hlim; simpl; [done|]. bool_to_prop.
    split; [|lia]. unfold open_tokens in *. cbn [released]. rewrite filter_app, length_app.
    rewrite (filter_cons_True (λ b, b = false) false) by done. simpl. lia.
  - unfold Release. destruct (released r !! t) as [[]|] eqn:Ht; simpl; [done| |done].
    pose proof (open_tokens_release _ _ Ht) as Hdec. unfold open_tokens at 1. cbn [released].
    rewrite Hdec. split; [lia|]. assert (0 ≤ open_tokens r - 1)%Z by (rewrite <- Hdec; lia). lia.
Qed.

(** ** Witnesses *)

Definition demo_key : WatchKey := {|
  Generation := "gen_1"; Context := "dev"; Scope := "all"; key_Topic := TopicPods;
  key_GVR := {| Group := ""; Version := "v1"; Resource := "pods" |};
  key_Namespace := "prod"; Selector := ""; EffectiveOrigins := ["prod"] |}.

Lemma subscriber_queue_bounded_witness :
  (bytes (sub (sub_run (init_sub true) [OpPush demo_added; OpPush demo_added; OpPoll])) ≤ 1048576)%Z.
Proof.
  apply (subscriber_queue_bounded true [OpPush demo_added; OpPush demo_added; OpPoll]).
  by apply (bool_decide_unpack _).
Defined.

Lemma coalescing_transparent_witness :
  let s := (push (sub (init_sub true)) demo_added).2 in
  consume TopicPods ∅ (q_event <$> queue (push s demo_added).2)
  = consume TopicPods ∅ ([demo_added] ++ [demo_added]).
Proof.
  apply (coalescing_transparent (push (sub (init_sub true)) demo_added).2 demo_added
    (push (push (sub (init_sub true)) demo_added).2 demo_added).2 TopicPods ∅).
  - by vm_compute.
  - by apply (bool_decide_unpack _).
  - by apply (bool_decide_unpack _).
Defined.

Lemma terminal_event_is_last_witness :
  (Next_poll (sub (sub_run (sub_step (init_sub true) (OpTerminal (slow_consumer_reset demo_key)))
     [OpPush demo_added]))).1 = Delivered (slow_consumer_reset demo_key).
Proof.
  destruct (terminal_event_is_last (init_sub true) (slow_consumer_reset demo_key) [OpPush demo_added])
    as [[_ H]|[H _]]; [by vm_compute|exact H|by vm_compute in H].
Defined.

Lemma consumer_never_stuck_witness :
  is_Some (Next_select (sub (sub_run (init_sub true) [OpPoll; OpPush demo_added])) WakeSignal).
Proof.
  apply (consumer_never_stuck true [OpPoll; OpPush demo_added]); [by vm_compute|by left].
Defined.

Definition demo_chunk : StreamEvent := snapshot_event "gen_1" TopicPods "7" [Some (demo_pod "a")] 0 true.

Lemma initial_snapshot_delivery_witness :
  (q_event <$> queue (push_initial demo_key (sub (init_sub true)) (replicate 1001 demo_chunk)))
  = [slow_consumer_reset demo_key].
Proof.
  assert (((Z.of_nat (length (replicate 1001 demo_chunk)) <=? 1000)%Z
           && (sum_wire (replicate 1001 demo_chunk) <=? 1048576)%Z) = false) as Hfull by (by vm_compute).
  pose proof (initial_snapshot_delivery demo_key true (replicate 1001 demo_chunk)) as H.
  cbv zeta in H. rewrite Hfull in H. apply H.
  apply Forall_replicate. by vm_compute.
Defined.
