(* ===== verification/Replay.v ===== *)
(** * Replay: the bounded ring that lets an SSE client resume

    Models [ReplayRing] of src/internal/services/resources/watch.go: the binding of
    a ring to an instance, a generation and a set of topics, the identifiers
    [kpse1.<epoch>.<sequence>], appending with eviction of the oldest events, and
    replay after a given identifier. *)
From Stdlib Require Import Ascii String ZArith Lia.
From stdpp Require Import base gmap strings list.
From S2P Require Import Prelude Json Topics Encoding Snapshot Queue.

Record ringEvent := { r_id : string; r_event : StreamEvent; r_bytes : Z }.
Record ReplayRing := {
  epoch : string; binding : string; sequence : Z; events : list ringEvent; ring_bytes : Z }.
Record ReplayEntry := { entry_ID : string; entry_Event : StreamEvent }.

Definition ReplayBinding (instance generation : string) (topics : list Topic)
    : result error string :=
  if String.eqb instance "" || String.eqb generation ""
  then Err (validationError "stream replay binding is incomplete")
  else match ValidateTopics topics with
       | Err e => Err e
       | Ok canonical => Ok (instance +:+ nul +:+ generation +:+ nul +:+ Join canonical ",")
       end.

(** [random] is what [rand.Read] puts into the 16-byte buffer, or its failure. *)
Definition NewReplayRing (instance generation : string) (topics : list Topic)
    (random : result error (list Z)) : result error ReplayRing :=
  match ReplayBinding instance generation topics with
  | Err e => Err e
  | Ok b =>
    match random with
    | Err _ => Err (OtherError "resources: generate stream epoch")
    | Ok epochBytes =>
      Ok {| epoch := base64_encode epochBytes; binding := b; sequence := 0;
            events := []; ring_bytes := 0 |}
    end
  end.

Definition event_id (epoch : string) (n : Z) : string :=
  "kpse1." +:+ epoch +:+ "." +:+ FormatUint36 n.

(** Drop the oldest events while a budget is exceeded. *)
Fixpoint trim_ring (l : list ringEvent) (b : Z) : list ringEvent * Z :=
  match l with
  | [] => ([], b)
  | e :: rest =>
    if (MaximumStreamQueueEvents <? Z.of_nat (length l))%Z || (MaximumStreamQueueBytes <? b)%Z
    then trim_ring rest (b - r_bytes e) else (l, b)
  end.

Definition is_control (e : StreamEvent) : bool :=
  String.eqb (ev_Event e) "heartbeat" || String.eqb (ev_Event e) "reset"
  || String.eqb (ev_Event e) "error".

Definition Append (r : ReplayRing) (e : StreamEvent) : result error string * ReplayRing :=
  if is_control e then (Ok "", r)
  else if (MaximumStreamEventBytes <? wire_size e)%Z
  then (Err (domainError CodeLimitExceeded "The stream event exceeds the event limit." None), r)
  else
    let n := u64_succ (sequence r) in
    let id := event_id (epoch r) n in
    let '(evs, b) := trim_ring (events r ++ [{| r_id := id; r_event := e; r_bytes := wire_size e |}])
                       (ring_bytes r + wire_size e) in
    (Ok id, {| epoch := epoch r; binding := binding r; sequence := n; events := evs; ring_bytes := b |}).

Definition malformed : error := validationError "Last-Event-ID is malformed".

(** The entries after the first one with identifier [lastID]. *)
Fixpoint after_id (lastID : string) (l : list ringEvent) : option (list ringEvent) :=
  match l with
  | [] => None
  | e :: rest => if String.eqb (r_id e) lastID then Some rest else after_id lastID rest
  end.

Definition entry (e : ringEvent) : ReplayEntry := {| entry_ID := r_id e; entry_Event := r_event e |}.

Definition ReplayEntries (r : ReplayRing) (lastID b : string) : result error (list ReplayEntry) :=
  match Split lastID "." with
  | [p0; p1; p2] =>
    if negb (String.eqb p0 "kpse1") then Err malformed
    else match base64_decode p1 with
         | None => Err malformed
         | Some bytes =>
           if negb (length bytes =? 16)%nat then Err malformed
           else match ParseUint36 p2 with
                | None => Err malformed
                | Some _ =>
                  if negb (String.eqb p1 (epoch r)) then Err ErrResumeUnavailable
                  else if negb (String.eqb b (binding r)) then Err ErrResumeUnavailable
                  else match after_id lastID (events r) with
                       | None => Err ErrResumeUnavailable
                       | Some rest => Ok (entry <$> rest)
                       end
                end
         end
  | _ => Err malformed
  end.

Definition Replay (r : ReplayRing) (lastID b : string) : result error (list StreamEvent) :=
  match ReplayEntries r lastID b with
  | Err e => Err e
  | Ok entries => Ok (entry_Event <$> entries)
  end.

(** ** Histories *)

(** Append a list of events, collecting the identified ones. *)
Fixpoint append_all (r : ReplayRing) (l : list StreamEvent) : list ReplayEntry * ReplayRing :=
  match l with
  | [] => ([], r)
  | e :: rest =>
    let '(out, r') := Append r e in
    let '(h, r'') := append_all r' rest in
    match out with
    | Ok id => if String.eqb id "" then (h, r'')
               else ({| entry_ID := id; entry_Event := e |} :: h, r'')
    | Err _ => (h, r'')
    end
  end.

(** * Lemmas *)

Definition sum_ring (l : list ringEvent) : Z := sum_Z (r_bytes <$> l).
Definition ring_fits (l : list ringEvent) (b : Z) : Prop :=
  (Z.of_nat (length l) ≤ MaximumStreamQueueEvents ∧ b ≤ MaximumStreamQueueBytes)%Z.

Lemma sum_ring_cons e l : sum_ring (e :: l) = (r_bytes e + sum_ring l)%Z.
Proof. done. Qed.

Lemma sum_ring_app l k : sum_ring (l ++ k) = (sum_ring l + sum_ring k)%Z.
Proof. unfold sum_ring. by rewrite fmap_app, sum_Z_app. Qed.

Lemma trim_ring_spec l b :
  b = sum_ring l →
  let '(l', b') := trim_ring l b in
  b' = sum_ring l' ∧ ring_fits l' b' ∧ ∃ pre, l = pre ++ l'.
Proof.
  revert b; induction l as [|e l IH]; intros b ->; cbn [trim_ring].
  { split_and!; [done|by split|by exists []]. }
  destruct (_ || _) eqn:Hover.
  - specialize (IH (sum_ring (e :: l) - r_bytes e)%Z). rewrite sum_ring_cons in *.
    specialize (IH ltac:(lia)). destruct (trim_ring _ _) as [l' b'].
    destruct IH as (? & ? & pre & ->). split_and!; [done..|]. by exists (e :: pre).
  - apply orb_false_iff in Hover as [? ?]. bool_to_prop. split_and!; [done|by split|by exists []].
Qed.

(** The newest event always stays: alone it is within both budgets. *)
Lemma trim_ring_keeps_last l x b :
  b = sum_ring (l ++ [x]) → (r_bytes x ≤ MaximumStreamEventBytes)%Z →
  ∃ l', (trim_ring (l ++ [x]) b).1 = l' ++ [x].
Proof.
  revert b; induction l as [|e l IH]; intros b -> Hx.
  - exists []. cbn [trim_ring app length]. rewrite sum_ring_cons. change (sum_ring []) with 0%Z.
    destruct (_ || _) eqn:Hover; [|done]. exfalso. apply orb_true_iff in Hover as [H|H]; [done|].
    bool_to_prop. unfold MaximumStreamQueueBytes, MaximumStreamEventBytes in *. lia.
  - cbn [trim_ring app]. destruct (_ || _); [|by exists (e :: l)].
    apply IH; [|done]. rewrite sum_ring_cons. lia.
Qed.

Lemma event_id_inj ep n m :
  (0 ≤ n ≤ max_uint64)%Z → (0 ≤ m ≤ max_uint64)%Z → event_id ep n = event_id ep m → n = m.
Proof.
  intros Hn Hm. unfold event_id. intros Heq. do 2 apply (inj (String.append _)) in Heq.
  apply (inj (String.append _)) in Heq. by apply FormatUint36_inj.
Qed.

Record ring_inv (r0 : ReplayRing) (h : list ReplayEntry) (r : ReplayRing) : Prop := {
  ri_epoch : epoch r = epoch r0;
  ri_binding : binding r = binding r0;
  ri_sequence : sequence r = Z.of_nat (length h);
  ri_ids : ∀ k en, h !! k = Some en → entry_ID en = event_id (epoch r0) (Z.of_nat (S k));
  ri_suffix : ∃ pre, h = pre ++ (entry <$> events r);
  ri_bytes : ring_bytes r = sum_ring (events r);
  ri_fits : ring_fits (events r) (ring_bytes r);
  ri_newest : h ≠ [] → events r ≠ [] }.

Lemma event_id_nonempty ep n : String.eqb (event_id ep n) "" = false.
Proof. done. Qed.

Lemma append_inv r0 h r e :
  ring_inv r0 h r → (Z.of_nat (length h) < max_uint64)%Z →
  match Append r e with
  | (Ok id, r') => if String.eqb id "" then ring_inv r0 h r'
                   else ring_inv r0 (h ++ [{| entry_ID := id; entry_Event := e |}]) r'
  | (Err _, r') => ring_inv r0 h r'
  end.
Proof.
  intros Hr Hlen. unfold Append. destruct (is_control e); [done|].
  destruct (MaximumStreamEventBytes <? wire_size e)%Z eqn:Hbig; [done|]. bool_to_prop.
  destruct Hr as [Hep Hbi Hseq Hids [pre Hpre] Hby Hfi Hnew].
  set (x := {| r_id := _; r_event := _; r_bytes := _ |}).
  assert (ring_bytes r + wire_size e = sum_ring (events r ++ [x]))%Z as Hsum.
  { rewrite sum_ring_app, Hby. change (sum_ring [x]) with (wire_size e + 0)%Z. lia. }
  destruct (trim_ring_keeps_last _ x _ Hsum Hbig) as [l' Hlast].
  pose proof (trim_ring_spec _ _ Hsum) as Htrim.
  destruct (trim_ring _ _) as [evs b]. destruct Htrim as (Hb & Hf & pre' & Heq).
  rewrite event_id_nonempty. cbn [fst] in Hlast.
  assert (u64_succ (sequence r) = Z.of_nat (S (length h))) as Hn.
  { rewrite Hseq, u64_succ_small; unfold max_uint64, u64_modulus in *; lia. }
  split; cbn [epoch binding sequence events ring_bytes]; try done.
  - rewrite Hn, length_app. simpl. lia.
  - intros k en. rewrite lookup_app. destruct (h !! k) as [en'|] eqn:Hk.
    + intros [= <-]. by apply Hids.
    + intros [Hk0 <-]%list_lookup_singleton_Some. apply lookup_ge_None in Hk.
      assert (k = length h) as -> by lia. cbn [entry_ID]. by rewrite Hn, Hep.
  - exists (pre ++ (entry <$> pre')). rewrite Hpre, <- !app_assoc. f_equal.
    rewrite <- fmap_app, <- Heq, fmap_app. done.
  - intros _. rewrite Hlast. by destruct l'.
Qed.

Lemma append_all_inv r0 l h r :
  ring_inv r0 h r → (Z.of_nat (length h + length l) ≤ max_uint64)%Z →
  ring_inv r0 (h ++ (append_all r l).1) (append_all r l).2.
Proof.
  revert h r; induction l as [|e l IH]; intros h r Hr Hlen; cbn [append_all].
  { by rewrite app_nil_r. }
  cbn [length] in Hlen. pose proof (append_inv r0 h r e Hr ltac:(lia)) as Hstep.
  destruct (Append r e) as [[id|err] r'].
  - destruct (String.eqb id "").
    + specialize (IH h r' Hstep ltac:(lia)). by destruct (append_all r' l).
    + specialize (IH _ r' Hstep). rewrite length_app in IH. cbn [length] in IH.
      specialize (IH ltac:(lia)). destruct (append_all r' l) as [h' r''].
      cbn [fst snd] in *. by rewrite <- app_assoc in IH.
  - specialize (IH h r' Hstep ltac:(lia)). by destruct (append_all r' l).
Qed.

Lemma after_id_first l j e :
  l !! j = Some e → (∀ i x, l !! i = Some x → r_id x = r_id e → i = j) →
  after_id (r_id e) l = Some (drop (S j) l).
Proof.
  revert j; induction l as [|x l IH]; intros j; [done|]. cbn [after_id].
  intros Hj Huniq. destruct j as [|j]; simpl in Hj.
  - injection Hj as ->. by rewrite String.eqb_refl.
  - destruct (String.eqb_spec (r_id x) (r_id e)) as [Heq|Hne].
    + exfalso. by specialize (Huniq 0 x eq_refl Heq).
    + rewrite (IH j Hj); [done|]. intros i y Hy Hid. specialize (Huniq (S i) y Hy Hid). lia.
Qed.

Lemma after_id_None id l : (∀ x, x ∈ l → r_id x ≠ id) → after_id id l = None.
Proof.
  induction l as [|x l IH]; intros Hx; [done|]. cbn [after_id].
  destruct (String.eqb_spec (r_id x) id) as [Heq|_]; [by destruct (Hx x (list_elem_of_here _ _))|].
  apply IH. intros y Hy. apply Hx. by right.
Qed.

(** Identifiers of the ring's own epoch pass every syntactic test. *)
Lemma ReplayEntries_own r eb n b :
  epoch r = base64_encode eb → Forall is_byte eb → length eb = 16%nat → (0 ≤ n ≤ max_uint64)%Z →
  ReplayEntries r (event_id (epoch r) n) b
  = if String.eqb b (binding r)
    then match after_id (event_id (epoch r) n) (events r) with
         | None => Err ErrResumeUnavailable
         | Some rest => Ok (entry <$> rest)
         end
    else Err ErrResumeUnavailable.
Proof.
  intros Hep Hby Hlen Hn. unfold ReplayEntries.
  assert (Split (event_id (epoch r) n) "." = ["kpse1"; epoch r; FormatUint36 n]) as ->.
  { apply (Split_three "." "kpse1" (epoch r) (FormatUint36 n)); [done| |].
    - rewrite Hep. by apply base64_no_dot.
    - apply FormatUint36_no_dot. lia. }
  rewrite Hep at 1. rewrite base64_roundtrip, Hlen, ParseUint36_Format by done.
  rewrite !String.eqb_refl. cbn [negb]. by destruct (String.eqb b (binding r)).
Qed.

Lemma NewReplayRing_inv instance generation topics eb r0 :
  NewReplayRing instance generation topics (Ok eb) = Ok r0 →
  epoch r0 = base64_encode eb ∧ ring_inv r0 [] r0.
Proof.
  unfold NewReplayRing. destruct (ReplayBinding _ _ _) as [bd|]; [|done].
  intros Hr0. injection Hr0 as <-. split; [done|]. split; try done. by exists [].
Qed.

(** C33: resuming is exact. Take a ring with a 16-byte random epoch and any sequence of
    appended events. Presenting the identifier of any event the ring issued gives
    either exactly the events issued after it, in order, with their identifiers, or
    an explicit "resume unavailable" when that event was evicted; never a sequence
    with a gap. The most recent event is always resumable, and the ring keeps at
    most 1000 events and 1 MiB. *)
Theorem replay_exact instance generation topics eb r0 l k en :
  NewReplayRing instance generation topics (Ok eb) = Ok r0 →
  Forall is_byte eb → length eb = 16%nat → (Z.of_nat (length l) ≤ max_uint64)%Z →
  let h := (append_all r0 l).1 in
  let r := (append_all r0 l).2 in
  h !! k = Some en →
  ReplayEntries r (entry_ID en) (binding r0)
    = (if (length h - length (events r) <=? k)%nat then Ok (drop (S k) h) else Err ErrResumeUnavailable)
  ∧ (length h - length (events r) ≤ length h - 1)%nat
  ∧ (Z.of_nat (length (events r)) ≤ 1000 ∧ sum_ring (events r) ≤ 1048576)%Z.
Proof.
  intros [Hep0 Hinv0]%NewReplayRing_inv Hby Hlen Hl h r Hk.
  assert (ring_inv r0 h r) as Hinv by (by apply (append_all_inv r0 l [] r0)).
  destruct Hinv as [Hep Hbi Hseq Hids [pre Hpre] Hb [Hf1 Hf2] Hnew].
  assert (length h ≤ length l)%nat as Hh.
  { subst h r. clear. generalize r0. induction l as [|e l IH]; intros r; cbn [append_all]; [done|].
    destruct (Append r e) as [[id|] r']; specialize (IH r'); destruct (append_all r' l);
      [destruct (String.eqb id "")|]; simpl in *; lia. }
  pose proof (lookup_lt_Some _ _ _ Hk) as Hkl.
  assert (length h = length pre + length (events r))%nat as Hlens.
  { rewrite Hpre at 1. by rewrite length_app, length_fmap. }
  split; [|split; [|split; [done|by rewrite <- Hb]]].
  2: { assert (h ≠ []) as Hne by (intros E; rewrite E in Hkl; simpl in Hkl; lia).
       apply Hnew in Hne. destruct (events r); [done|]. simpl in *. lia. }
  rewrite (Hids _ _ Hk), <- Hep, (ReplayEntries_own r eb) by (rewrite ?Hep; done || lia).
  rewrite Hbi, String.eqb_refl.
  assert (∀ i x, events r !! i = Some x → r_id x = event_id (epoch r) (Z.of_nat (S (length pre + i)))) as Hev.
  { intros i x Hx. rewrite Hep. apply (Hids _ (entry x)). rewrite Hpre, lookup_app_r by lia.
    rewrite list_lookup_fmap. replace (length pre + i - length pre)%nat with i by lia. by rewrite Hx. }
  destruct (length h - length (events r) <=? k)%nat eqn:Hcmp; [apply Nat.leb_le in Hcmp|apply Nat.leb_gt in Hcmp].
  - destruct (lookup_lt_is_Some_2 (events r) (k - length pre)) as [x Hx]; [lia|].
    assert (event_id (epoch r) (Z.of_nat (S k)) = r_id x) as ->
      by (rewrite (Hev _ _ Hx); do 2 f_equal; lia).
    rewrite (after_id_first _ _ _ Hx).
    + rewrite fmap_drop. rewrite Hpre at 1. rewrite drop_app_ge by lia. do 2 f_equal. lia.
    + intros i y Hy Heq. rewrite (Hev _ _ Hx), (Hev _ _ Hy) in Heq.
      apply lookup_lt_Some in Hy, Hx. apply event_id_inj in Heq; unfold max_uint64 in *; lia.
  - rewrite after_id_None; [done|]. intros x [i Hi]%list_elem_of_lookup. rewrite (Hev _ _ Hi).
    intros Heq. apply lookup_lt_Some in Hi. apply event_id_inj in Heq; unfold max_uint64 in *; lia.
Qed.

Lemma topics_comma_free t : t ∈ topicOrder → byte_free "," t ∧ t ≠ "".
Proof.
  intros Ht. assert (Forall (λ t, byte_free "," t ∧ t ≠ "") topicOrder) as Hall
    by (by apply (bool_decide_unpack _)).
  rewrite Forall_forall in Hall. by apply Hall.
Qed.

(** The binding string determines what it was made of. *)
Lemma ReplayBinding_inj i g ts i' g' ts' b :
  nul_free i → nul_free g → nul_free i' → nul_free g' →
  ReplayBinding i g ts = Ok b → ReplayBinding i' g' ts' = Ok b →
  i = i' ∧ g = g' ∧ ts ≡ₚ ts'.
Proof.
  intros Hi Hg Hi' Hg'. unfold ReplayBinding.
  destruct (_ || _); [done|]. destruct (ValidateTopics ts) as [c|] eqn:Hc; [|done]. intros [= <-].
  destruct (_ || _); [done|]. destruct (ValidateTopics ts') as [c'|] eqn:Hc'; [|done]. intros Heq.
  injection Heq as Heq. symmetry in Heq. apply nul_split in Heq as [-> Heq]; [|done..].
  apply nul_split in Heq as [-> Heq]; [|done..]. split_and!; [done..|].
  apply ValidateTopics_ok in Hc as (Hf & Hp & _), Hc' as (Hf' & Hp' & _).
  rewrite <- Hp, <- Hp', (Join_sep_inj "," c c'); [done|..]; [| | | |done];
    apply Forall_forall; intros t; rewrite ?Hf, ?Hf'; intros [_ Ht]%list_elem_of_filter;
    by apply topics_comma_free.
Qed.

Lemma append_all_binding r l : binding (append_all r l).2 = binding r ∧ epoch (append_all r l).2 = epoch r.
Proof.
  revert r; induction l as [|e l IH]; intros r; cbn [append_all]; [done|].
  assert (binding (Append r e).2 = binding r ∧ epoch (Append r e).2 = epoch r) as [Hb He].
  { unfold Append. destruct (is_control e); [done|]. destruct (_ <? _)%Z; [done|].
    by destruct (trim_ring _ _). }
  destruct (Append r e) as [[id|] r']; specialize (IH r'); destruct (append_all r' l) as [h r''];
    [destruct (String.eqb id "")|]; cbn [snd] in *; destruct IH; split; congruence.
Qed.

(** Replay isolation. A ring serves a resume request only when the request's
    instance, generation and set of topics are the ones the ring was created for,
    the identifier carries the ring's own epoch, and the identified event is still
    in the ring. *)
Theorem replay_isolated i g ts i' g' ts' random r0 l lastID b out :
  nul_free i → nul_free g → nul_free i' → nul_free g' →
  NewReplayRing i g ts random = Ok r0 → ReplayBinding i' g' ts' = Ok b →
  ReplayEntries (append_all r0 l).2 lastID b = Ok out →
  i = i' ∧ g = g' ∧ ts ≡ₚ ts'
  ∧ (∃ n, Split lastID "." = ["kpse1"; epoch r0; n])
  ∧ lastID ∈ (r_id <$> events (append_all r0 l).2).
Proof.
  intros Hi Hg Hi' Hg' Hnew Hbind. destruct (append_all_binding r0 l) as [Hb He].
  destruct (append_all r0 l) as [h r]. cbn [snd] in *. unfold ReplayEntries.
  destruct (Split lastID ".") as [|p0 [|p1 [|p2 [|]]]]; try done.
  destruct (String.eqb_spec p0 "kpse1") as [->|]; [|done]. cbn [negb].
  destruct (base64_decode p1); [|done]. destruct (negb _); [done|].
  destruct (ParseUint36 p2); [|done].
  destruct (String.eqb_spec p1 (epoch r)) as [->|]; [|done]. cbn [negb].
  destruct (String.eqb_spec b (binding r)) as [->|]; [|done]. cbn [negb].
  destruct (after_id lastID (events r)) as [rest|] eqn:Hafter; [|done]. intros _.
  assert (ReplayBinding i g ts = Ok (binding r0)) as Hbind0.
  { unfold NewReplayRing in Hnew. destruct (ReplayBinding i g ts) as [b0|]; [|done].
    destruct random; [|done]. injection Hnew as <-. done. }
  rewrite Hb in Hbind. destruct (ReplayBinding_inj i g ts i' g' ts' (binding r0)) as (-> & -> & Hts); [done..|].
  split_and!; [done..| |].
  - exists p2. by rewrite He.
  - revert Hafter. clear. induction (events r) as [|x evs IH]; [done|]. cbn [after_id].
    destruct (String.eqb_spec (r_id x) lastID) as [<-|]; [intros _; left|].
    intros H. right. by apply IH.
Qed.

(** ** Witnesses *)

Definition demo_epoch : list Z := [1; 2; 3; 4; 5; 6; 7; 8; 9; 10; 11; 12; 13; 14; 255; 0]%Z.
Definition demo_ring : ReplayRing := {|
  epoch := base64_encode demo_epoch;
  binding := "i1" +:+ nul +:+ "gen_1" +:+ nul +:+ "pods"; sequence := 0; events := [];
  ring_bytes := 0 |}.
Definition demo_history : list ReplayEntry * ReplayRing :=
  append_all demo_ring [demo_added; demo_added; slow_consumer_reset demo_key; demo_added].

Lemma replay_exact_witness :
  ∃ en, demo_history.1 !! 0 = Some en
    ∧ ReplayEntries demo_history.2 (entry_ID en) (binding demo_ring) = Ok (drop 1 demo_history.1).
Proof.
  destruct (demo_history.1 !! 0) as [en|] eqn:Hen; [|by vm_compute in Hen].
  exists en. split; [done|].
  destruct (replay_exact "i1" "gen_1" [TopicPods] demo_epoch demo_ring
    [demo_added; demo_added; slow_consumer_reset demo_key; demo_added] 0 en) as [H _].
  - by vm_compute.
  - by apply (bool_decide_unpack _).
  - done.
  - done.
  - exact Hen.
  - etransitivity; [exact H|]. by vm_compute.
Defined.

Lemma replay_isolated_witness :
  "i1" = "i1" ∧ "kpse1.AQIDBAUGBwgJCgsMDQ7_AA.1" ∈ (r_id <$> events demo_history.2).
Proof.
  destruct (replay_isolated "i1" "gen_1" [TopicPods] "i1" "gen_1" [TopicPods] (Ok demo_epoch)
    demo_ring [demo_added; demo_added; slow_consumer_reset demo_key; demo_added]
    "kpse1.AQIDBAUGBwgJCgsMDQ7_AA.1" (binding demo_ring) (drop 1 demo_history.1))
    as (H1 & _ & _ & _ & H2).
  1-4: by apply (bool_decide_unpack _).
  1-3: by vm_compute.
  split; [exact H1|exact H2].
Defined.
