(* ===== verification/Cursor.v ===== *)
(** * Cursor: composite pagination cursors and the bounded k-way merge

    Models src/internal/services/resources/cursor.go: one cursor per Kubernetes LIST
    source with its native continue token and the objects read but not yet emitted,
    the validation of a cursor handed back by a client, and the heap-based merge
    that fills one page from the authorized sources. *)
From Stdlib Require Import Ascii String ZArith Lia.
From stdpp Require Import base gmap strings list sorting.
From S2P Require Import Prelude Json Topics Heap.

Definition DefaultListLimit : Z := 100.
Definition MaximumListLimit : Z := 500.
Definition MaximumCursorBytes : Z := 16384.  (* 16 << 10 *)

Record Origin := {
  org_Namespace : string; org_APIGroup : string; org_Version : string; org_Resource : string }.

#[export] Instance Origin_eq_dec : EqDecision Origin.
Proof. solve_decision. Defined.

Definition Origin_Key (o : Origin) : string :=
  org_APIGroup o +:+ "/" +:+ org_Version o +:+ "/" +:+ org_Resource o +:+ "/" +:+ org_Namespace o.

Definition origin_less (a b : Origin) : bool := str_lt (Origin_Key a) (Origin_Key b).

Section cursor.
Context {T : Type}.

Record OriginPage := {
  page_Origin : Origin; page_Items : list T; page_Continue : string; page_ResourceVersion : string }.

Record OriginCursor := {
  oc_Origin : Origin; oc_Continue : string; oc_ResourceVersion : string;
  oc_Exhausted : bool; oc_Buffered : list T }.

Record CompositeCursor := { cc_Version : Z; cc_Origins : list OriginCursor }.

Definition oc_Key (st : OriginCursor) : string := Origin_Key (oc_Origin st).

(** ** Creation and validation *)

Definition fresh_origin (o : Origin) : OriginCursor :=
  {| oc_Origin := o; oc_Continue := ""; oc_ResourceVersion := ""; oc_Exhausted := false;
     oc_Buffered := [] |}.

Definition NewCompositeCursor `{SliceSort} (origins : list Origin) : CompositeCursor :=
  {| cc_Version := 1; cc_Origins := fresh_origin <$> sort_Slice origin_less origins |}.

(** The loop of [Validate] over the cursor's origins and the canonical ones. *)
Fixpoint validate_origins (states : list OriginCursor) (canonical : list Origin)
    (seen : list string) : option error :=
  match states, canonical with
  | [], _ => None
  | st :: states', c :: canonical' =>
    let key := oc_Key st in
    if String.eqb (org_Version (oc_Origin st)) "" || String.eqb (org_Resource (oc_Origin st)) ""
    then Some (validationError "cursor origin is incomplete")
    else if bool_decide (key ∈ seen) || negb (String.eqb key (Origin_Key c))
    then Some (validationError "cursor origins do not match this collection")
    else if (MaximumCursorBytes <? len (oc_Continue st))%Z
    then Some (validationError "upstream continue token is too large")
    else if oc_Exhausted st && negb (String.eqb (oc_Continue st) "")
    then Some (validationError "exhausted cursor origin cannot have a continue token")
    else validate_origins states' canonical' (key :: seen)
  | _ :: _, [] => None   (* the lengths were compared before *)
  end.

Definition Validate `{SliceSort} (c : CompositeCursor) (expected : list Origin) : option error :=
  if negb (cc_Version c =? 1)%Z then Some (validationError "cursor state version is not supported")
  else if (length (cc_Origins c) =? 0)%nat || negb (length (cc_Origins c) =? length expected)%nat
  then Some (validationError "cursor origins do not match this collection")
  else validate_origins (cc_Origins c) (sort_Slice origin_less expected) [].

Definition Complete (c : CompositeCursor) : bool :=
  forallb (λ st, oc_Exhausted st && (length (oc_Buffered st) =? 0)%nat) (cc_Origins c).

(** ** Merging *)

Definition set_buffered (st : OriginCursor) (items : list T) : OriginCursor :=
  {| oc_Origin := oc_Origin st; oc_Continue := oc_Continue st;
     oc_ResourceVersion := oc_ResourceVersion st; oc_Exhausted := oc_Exhausted st;
     oc_Buffered := items |}.

(** The map [byOrigin]: the page of an origin key. Two pages with one key are refused. *)
Fixpoint page_for (key : string) (pages : list OriginPage) : option OriginPage :=
  match pages with
  | [] => None
  | p :: rest => if String.eqb (Origin_Key (page_Origin p)) key then Some p else page_for key rest
  end.

Fixpoint duplicate_page (pages : list OriginPage) : bool :=
  match pages with
  | [] => false
  | p :: rest =>
    existsb (λ q, String.eqb (Origin_Key (page_Origin q)) (Origin_Key (page_Origin p))) rest
    || duplicate_page rest
  end.

Section merge.
Variable less : T → T → bool.

Definition refill (pages : list OriginPage) (st : OriginCursor) : OriginCursor :=
  match page_for (oc_Key st) pages with
  | Some p =>
    {| oc_Origin := oc_Origin st; oc_Continue := page_Continue p;
       oc_ResourceVersion := page_ResourceVersion p;
       oc_Exhausted := String.eqb (page_Continue p) "";
       oc_Buffered := sort_stable less (oc_Buffered st ++ page_Items p) |}
  | None => set_buffered st (sort_stable less (oc_Buffered st))
  end.

(** [originMergeHeap.Less] on two origin indices. The heap only holds indices with
    buffered objects; the cases without a head, where the code would panic, are
    ordered last. *)
Definition buffer_head (os : list OriginCursor) (i : nat) : option T :=
  os !! i ≫= λ st, head (oc_Buffered st).

Definition merge_less (os : list OriginCursor) (l r : nat) : bool :=
  match buffer_head os l, buffer_head os r with
  | Some x, Some y => if less x y then true else if less y x then false else (l <? r)%nat
  | Some _, None => true
  | None, Some _ => false
  | None, None => (l <? r)%nat
  end.

(** [allowed]: a nil map admits every origin. *)
Definition is_allowed (allowed : option (gmap string bool)) (key : string) : bool :=
  match allowed with None => true | Some m => default false (m !! key) end.

Definition mergeable (allowed : option (gmap string bool)) (st : OriginCursor) : bool :=
  negb (length (oc_Buffered st) =? 0)%nat && is_allowed allowed (oc_Key st).

(** The heap after pushing every mergeable index in order. *)
Definition initial_heap (allowed : option (gmap string bool)) (os : list OriginCursor) : list nat :=
  foldl (λ h i, match os !! i with
                | Some st => if mergeable allowed st then heap_Push (merge_less os) h i else h
                | None => h
                end) [] (seq 0 (length os)).

(** At most [n] more items; [None] is a panic of the slice accesses. *)
Fixpoint merge_loop (n : nat) (os : list OriginCursor) (h : list nat)
    : option (list T * list OriginCursor) :=
  match n with
  | O => Some ([], os)
  | S n' =>
    match h with
    | [] => Some ([], os)
    | _ :: _ =>
      match heap_Pop (merge_less os) h with
      | None => None
      | Some (selected, h') =>
        match os !! selected with
        | None => None
        | Some st =>
          match oc_Buffered st with
          | [] => None
          | x :: rest =>
            let os' := <[selected := set_buffered st rest]> os in
            let h'' := match rest with [] => h' | _ => heap_Push (merge_less os') h' selected end in
            match merge_loop n' os' h'' with
            | None => None
            | Some (items, os'') => Some (x :: items, os'')
            end
          end
        end
      end
    end
  end.
End merge.

Definition mergeAuthorizedOriginPages (current : CompositeCursor) (pages : list OriginPage)
    (limit : Z) (less : option (T → T → bool)) (allowed : option (gmap string bool))
    : option (result error (list T * CompositeCursor)) :=
  match less with
  | None => Some (Err (validationError "merge arguments are invalid"))
  | Some less' =>
    if (limit <? 1)%Z || (MaximumListLimit <? limit)%Z
    then Some (Err (validationError "merge arguments are invalid"))
    else if duplicate_page pages then Some (Err (validationError "duplicate origin page"))
    else
      let next := refill less' pages <$> cc_Origins current in
      match merge_loop less' (Z.to_nat limit) next (initial_heap less' allowed next) with
      | None => None
      | Some (items, next') =>
        Some (Ok (items, {| cc_Version := cc_Version current; cc_Origins := next' |}))
      end
  end.

Definition MergeOriginPages (current : CompositeCursor) (pages : list OriginPage) (limit : Z)
    (less : option (T → T → bool)) : option (result error (list T * CompositeCursor)) :=
  mergeAuthorizedOriginPages current pages limit less None.
End cursor.
Arguments OriginPage : clear implicits.
Arguments OriginCursor : clear implicits.
Arguments CompositeCursor : clear implicits.

(** * Correctness of the merge *)

Section merge_proofs.
Context {T : Type} (less : T → T → bool) `{!StrictWeakOrder less}.
Context (allowed : option (gmap string bool)).
Implicit Types os : list (OriginCursor T).

#[export] Instance merge_less_swo os : StrictWeakOrder (merge_less less os).
Proof.
  split.
  - intros i. unfold merge_less. destruct (buffer_head os i); [|apply Nat.ltb_irrefl].
    rewrite swo_irrefl. apply Nat.ltb_irrefl.
  - intros i j k. unfold merge_less.
    destruct (buffer_head os i) as [x|], (buffer_head os j) as [y|], (buffer_head os k) as [z|]; try done.
    + destruct (less x y) eqn:Hxy, (less y z) eqn:Hyz.
      * by rewrite (swo_trans _ _ _ Hxy Hyz).
      * destruct (less z y) eqn:Hzy; [done|]. intros _ _. destruct (less x z) eqn:Hxz; [done|].
        pose proof (swo_incomp _ _ _ Hxz Hzy). congruence.
      * destruct (less y x) eqn:Hyx; [done|]. intros _ _. destruct (less x z) eqn:Hxz; [done|].
        pose proof (swo_incomp _ _ _ Hyx Hxz). congruence.
      * destruct (less y x) eqn:Hyx; [done|]. destruct (less z y) eqn:Hzy; [done|].
        rewrite (swo_incomp _ _ _ Hxy Hyz), (swo_incomp _ _ _ Hzy Hyx), !Nat.ltb_lt. lia.
    + rewrite !Nat.ltb_lt. lia.
  - intros i j k. unfold merge_less.
    destruct (buffer_head os i) as [x|], (buffer_head os j) as [y|], (buffer_head os k) as [z|]; try done.
    + destruct (less x y) eqn:Hxy; [done|]. destruct (less y z) eqn:Hyz; [done|].
      rewrite (swo_incomp _ _ _ Hxy Hyz). destruct (less z x) eqn:Hzx; [done|].
      rewrite (swo_incomp _ _ _ Hyz Hzx), (swo_incomp _ _ _ Hzx Hxy), !Nat.ltb_ge. lia.
    + rewrite !Nat.ltb_ge. lia.
Qed.

(** What may be emitted, origin by origin. *)
Definition active_items os : list T :=
  os ≫= λ st, if is_allowed allowed (oc_Key st) then oc_Buffered st else [].

Definition buffers_sorted os : Prop := Forall (λ st, sorted_by less (oc_Buffered st)) os.

Record merge_inv os (h : list nat) : Prop := {
  mi_heap : heap (merge_less less os) h;
  mi_nodup : NoDup h;
  mi_elem : ∀ i, i ∈ h ↔ ∃ st, os !! i = Some st ∧ mergeable allowed st = true;
  mi_sorted : buffers_sorted os }.

Lemma sorted_head_le (x y : T) l : sorted_by less (x :: l) → y ∈ x :: l → less y x = false.
Proof.
  intros Hs [->|Hy]%elem_of_cons; [apply swo_irrefl|].
  inversion Hs as [|? ? ? Hall]; subst. rewrite Forall_forall in Hall. by apply Hall.
Qed.

(** Comparing an element of a later (earlier) origin with the chosen head. *)
Lemma active_elem os y :
  y ∈ active_items os ↔ ∃ j st, os !! j = Some st ∧ mergeable allowed st = true ∧ y ∈ oc_Buffered st.
Proof.
  unfold active_items, mergeable. rewrite list_elem_of_bind. split.
  - intros (st & Hy & [j Hj]%list_elem_of_lookup). destruct (is_allowed _ _) eqn:Ha; [|by apply elem_of_nil in Hy].
    exists j, st. split_and!; [done| |done]. by destruct (oc_Buffered st); [apply elem_of_nil in Hy|].
  - intros (j & st & Hj & [_ Ha]%andb_true_iff & Hy). exists st. rewrite Ha.
    split; [done|]. by eapply list_elem_of_lookup_2.
Qed.

Lemma chosen_first os h i st x rest :
  merge_inv os h → i ∈ h → (∀ j, j ∈ h → le (merge_less less os) i j) →
  os !! i = Some st → oc_Buffered st = x :: rest → is_allowed allowed (oc_Key st) = true →
  sort_stable less (active_items os)
  = x :: sort_stable less (active_items (<[i := set_buffered st rest]> os)).
Proof.
  intros Hinv Hi Hmin Hst Hbuf Hal.
  assert (∀ j stj y, os !! j = Some stj → mergeable allowed stj = true → y ∈ oc_Buffered stj →
    less y x = false ∧ (j < i → less x y = true)) as Hcmp.
  { intros j stj y Hj Hm Hy. assert (j ∈ h) as Hjh by (apply (mi_elem _ _ Hinv); eauto).
    apply Hmin in Hjh. unfold le, merge_less, buffer_head in Hjh. rewrite Hj, Hst in Hjh. simpl in Hjh.
    destruct (oc_Buffered stj) as [|z bj] eqn:Hbj; [by apply elem_of_nil in Hy|].
    rewrite Hbuf in Hjh. simpl in Hjh.
    assert (less y z = false) as Hzy.
    { eapply sorted_head_le; [|done]. pose proof (mi_sorted _ _ Hinv) as Hs.
      unfold buffers_sorted in Hs. rewrite Forall_forall in Hs. rewrite <- Hbj. apply Hs.
      by eapply list_elem_of_lookup_2. }
    destruct (less z x) eqn:Hzx; [done|]. split; [by apply (swo_incomp y z x)|].
    intros Hlt. destruct (less x z) eqn:Hxz; [|apply Nat.ltb_ge in Hjh; lia].
    destruct (less x y) eqn:Hxy; [done|]. pose proof (swo_incomp _ _ _ Hxy Hzy). congruence. }
  pose proof (take_drop_middle _ _ _ Hst) as Hsplit.
  assert (i < length os) as Hlen by (by eapply lookup_lt_Some).
  rewrite insert_take_drop by done. rewrite <- Hsplit at 1. unfold active_items.
  rewrite !bind_app. cbn [mbind list_bind]. rewrite Hal.
  change (oc_Key (set_buffered st rest)) with (oc_Key st). rewrite Hal, Hbuf. cbn [set_buffered oc_Buffered app].
  apply sort_stable_extract; apply Forall_forall; intros y Hy.
  - apply active_elem in Hy as (j & stj & Hj & Hm & Hy).
    apply lookup_take_Some in Hj as [Hj Hji]. by eapply Hcmp.
  - apply elem_of_app in Hy as [Hy|Hy].
    + apply (Hcmp i st); [done| |rewrite Hbuf; by right]. unfold mergeable. by rewrite Hbuf, Hal.
    + apply active_elem in Hy as (j & stj & Hj & Hm & Hy). rewrite lookup_drop in Hj. by eapply Hcmp.
Qed.

(** The merge of one origin touches its buffer only, from the front. *)
Definition origin_frame (a b : OriginCursor T) : Prop :=
  oc_Origin b = oc_Origin a ∧ oc_Continue b = oc_Continue a
  ∧ oc_ResourceVersion b = oc_ResourceVersion a ∧ oc_Exhausted b = oc_Exhausted a
  ∧ ∃ k, oc_Buffered a = k ++ oc_Buffered b ∧ (is_allowed allowed (oc_Key a) = false → k = []).

#[export] Instance origin_frame_preorder : PreOrder origin_frame.
Proof.
  split.
  - intros a. unfold origin_frame. split_and!; [done..|]. by exists [].
  - intros a b c (H1 & H2 & H3 & H4 & k & Hk & Ha) (H1' & H2' & H3' & H4' & k' & Hk' & Ha').
    unfold origin_frame. split_and!; [congruence..|]. exists (k ++ k').
    rewrite Hk, Hk', app_assoc. split; [done|]. intros Hn. rewrite Ha by done. simpl. apply Ha'.
    unfold oc_Key in *. by rewrite H1.
Qed.

Lemma frame_insert os i st rest x :
  os !! i = Some st → oc_Buffered st = x :: rest → is_allowed allowed (oc_Key st) = true →
  Forall2 origin_frame os (<[i := set_buffered st rest]> os).
Proof.
  intros Hst Hbuf Hal. apply Forall2_same_length_lookup_2; [by rewrite length_insert|].
  intros j a b Ha Hb. destruct (decide (i = j)) as [<-|Hij].
  - rewrite list_lookup_insert_eq in Hb by (by eapply lookup_lt_Some). simplify_eq.
    unfold origin_frame. split_and!; [done..|]. exists [x]. split; [done|]. congruence.
  - rewrite list_lookup_insert_ne in Hb by done. simplify_eq. reflexivity.
Qed.

Lemma heap_ext {A} (l1 l2 : A → A → bool) h :
  (∀ x y, x ∈ h → y ∈ h → l1 x y = l2 x y) → heap l1 h → heap l2 h.
Proof.
  intros Hext Hh i x p Hi Hin Hok Hx Hp. unfold le.
  rewrite <- Hext by (by eapply list_elem_of_lookup_2). by eapply (Hh i).
Qed.

Lemma merge_inv_pop os h i h' st x rest :
  merge_inv os h → h ≡ₚ i :: h' → heap (merge_less less os) h' →
  os !! i = Some st → oc_Buffered st = x :: rest → is_allowed allowed (oc_Key st) = true →
  let os' := <[i := set_buffered st rest]> os in
  merge_inv os' (match rest with [] => h' | _ => heap_Push (merge_less less os') h' i end).
Proof.
  intros [Hh Hnd Hel Hs] Hperm Hh' Hst Hbuf Hal os'.
  rewrite Hperm in Hnd. apply NoDup_cons in Hnd as [Hni Hnd'].
  assert (i < length os) as Hlen by (by eapply lookup_lt_Some).
  assert (∀ j, j ≠ i → os' !! j = os !! j) as Hother by (intros; by apply list_lookup_insert_ne).
  assert (heap (merge_less less os') h') as Hheap.
  { eapply heap_ext; [|exact Hh']. intros j k Hj Hk. unfold merge_less, buffer_head.
    rewrite !Hother; [done|congruence..]. }
  assert (∀ j, j ≠ i → (∃ st, os' !! j = Some st ∧ mergeable allowed st = true) ↔ j ∈ h') as Hrest.
  { intros j Hj. rewrite Hother, <- Hel, Hperm, elem_of_cons by done. naive_solver. }
  assert (os' !! i = Some (set_buffered st rest)) as Hi by (by apply list_lookup_insert_eq).
  assert (buffers_sorted os') as Hs'.
  { apply Forall_insert; [done|]. unfold buffers_sorted in Hs. rewrite Forall_forall in Hs.
    pose proof (Hs st) as Hst'. rewrite Hbuf in Hst'.
    assert (sorted_by less (x :: rest)) as Hx by (apply Hst'; by eapply list_elem_of_lookup_2).
    by inversion Hx. }
  destruct rest as [|y rest].
  - split; [done|done| |done]. intros j. destruct (decide (j = i)) as [->|Hj]; [|by rewrite Hrest].
    split; [done|]. intros (st' & Hst' & Hm). by simplify_eq.
  - destruct (heap_Push_spec (merge_less less os') h' i Hheap) as [Hp1 Hp2].
    split; [done| | |done].
    + rewrite Hp2. by constructor.
    + intros j. rewrite Hp2, elem_of_cons. destruct (decide (j = i)) as [->|Hj].
      * split; [|auto]. intros _. exists (set_buffered st (y :: rest)). split; [done|].
        unfold mergeable. change (oc_Key (set_buffered st (y :: rest))) with (oc_Key st). by rewrite Hal.
      * rewrite Hrest by done. naive_solver.
Qed.

Lemma merge_loop_spec n os h :
  merge_inv os h →
  ∃ items os', merge_loop less n os h = Some (items, os')
    ∧ items ++ sort_stable less (active_items os') = sort_stable less (active_items os)
    ∧ length items = min n (length (active_items os))
    ∧ Forall2 origin_frame os os'.
Proof.
  revert os h; induction n as [|n IH]; intros os h Hinv; cbn [merge_loop].
  { exists [], os. split_and!; [done..|]. reflexivity. }
  destruct h as [|h0 h1] eqn:Hh.
  { exists [], os. assert (active_items os = []) as Hnil.
    { destruct (active_items os) as [|y l] eqn:Hy; [done|]. exfalso.
      assert (y ∈ active_items os) as (j & st & Hj & Hm & _)%active_elem by (rewrite Hy; by left).
      assert (j ∈ @nil nat) as Hj' by (apply (mi_elem _ _ Hinv); eauto). by apply elem_of_nil in Hj'. }
    rewrite Hnil. split_and!; [done..|]. reflexivity. }
  rewrite <- Hh in *. destruct (heap_Pop_spec (merge_less less os) h) as (i & h' & Hpop & Hh' & Hperm & Hmin);
    [apply Hinv|by rewrite Hh|]. rewrite Hpop.
  assert (i ∈ h) as Hi by (rewrite Hperm; by left).
  destruct (proj1 (mi_elem _ _ Hinv i) Hi) as (st & Hst & [Hne Hal]%andb_true_iff). rewrite Hst.
  destruct (oc_Buffered st) as [|x rest] eqn:Hbuf; [done|].
  pose proof (merge_inv_pop os h i h' st x rest Hinv Hperm Hh' Hst Hbuf Hal) as Hinv'.
  destruct (IH _ _ Hinv') as (items & os'' & -> & Hitems & Hcount & Hframe).
  pose proof (chosen_first os h i st x rest Hinv Hi Hmin Hst Hbuf Hal) as Hfirst.
  exists (x :: items), os''. split_and!; [done| | |].
  - by rewrite Hfirst, <- Hitems.
  - cbn [length]. rewrite Hcount. apply (f_equal length) in Hfirst. cbn [length] in Hfirst.
    rewrite !sort_stable_length in Hfirst. lia.
  - etrans; [by eapply frame_insert|done].
Qed.

Definition push_index os (h : list nat) (i : nat) : list nat :=
  match os !! i with
  | Some st => if mergeable allowed st then heap_Push (merge_less less os) h i else h
  | None => h
  end.

(** The heap after pushing the mergeable indices below [n]. *)
Lemma heap_upto os n :
  heap (merge_less less os) (foldl (push_index os) [] (seq 0 n))
  ∧ NoDup (foldl (push_index os) [] (seq 0 n))
  ∧ ∀ i, i ∈ foldl (push_index os) [] (seq 0 n)
         ↔ i < n ∧ ∃ st, os !! i = Some st ∧ mergeable allowed st = true.
Proof.
  induction n as [|n (IH1 & IH2 & IH3)].
  { split_and!; [by intros ?????|constructor|]. intros i. rewrite elem_of_nil. lia. }
  rewrite seq_S, foldl_app. cbn [foldl Nat.add]. generalize dependent (foldl (push_index os) [] (seq 0 n)).
  intros h IH1 IH2 IH3. unfold push_index.
  destruct (os !! n) as [st|] eqn:Hn; [destruct (mergeable allowed st) eqn:Hm|].
  - destruct (heap_Push_spec (merge_less less os) h n IH1) as [Hp1 Hp2].
    split_and!; [done|rewrite Hp2; constructor; [rewrite IH3; lia|done]|].
    intros i. rewrite Hp2, elem_of_cons, IH3. destruct (decide (i = n)) as [->|]; naive_solver lia.
  - split_and!; [done..|]. intros i. rewrite IH3. destruct (decide (i = n)) as [->|]; [|naive_solver lia].
    split; [lia|]. intros (_ & ? & ? & ?). congruence.
  - split_and!; [done..|]. intros i. rewrite IH3. destruct (decide (i = n)) as [->|]; [|naive_solver lia].
    split; [lia|]. intros (_ & ? & ? & ?). congruence.
Qed.

Lemma initial_heap_inv os :
  buffers_sorted os → merge_inv os (initial_heap less allowed os).
Proof.
  intros Hs. destruct (heap_upto os (length os)) as (H1 & H2 & H3). split; [done|done| |done].
  intros i. unfold initial_heap. fold (push_index os). rewrite H3. split; [naive_solver|].
  intros (st & Hst & Hm). split; [by eapply lookup_lt_Some|eauto].
Qed.
End merge_proofs.

Lemma merge_spec {T} (less : T → T → bool) allowed
    (current : CompositeCursor T) pages limit :
  StrictWeakOrder less → (1 ≤ limit ≤ MaximumListLimit)%Z → duplicate_page pages = false →
  let before := refill less pages <$> cc_Origins current in
  let sorted := sort_stable less (active_items allowed before) in
  ∃ next, mergeAuthorizedOriginPages current pages limit (Some less) allowed
          = Some (Ok (take (Z.to_nat limit) sorted, next))
    ∧ sort_stable less (active_items allowed (cc_Origins next)) = drop (Z.to_nat limit) sorted
    ∧ Forall2 (origin_frame allowed) before (cc_Origins next)
    ∧ cc_Version next = cc_Version current.
Proof.
  intros Hless Hlimit Hdup before sorted.
  assert (buffers_sorted less before) as Hs.
  { apply Forall_fmap, Forall_forall. intros st _. simpl. unfold refill.
    destruct (page_for _ _); simpl; by apply sort_stable_sorted. }
  destruct (merge_loop_spec less allowed (Z.to_nat limit) before _ (initial_heap_inv less allowed before Hs))
    as (items & os' & Hloop & Hitems & Hlen & Hframe).
  unfold mergeAuthorizedOriginPages. fold before. rewrite Hdup, Hloop.
  destruct (_ || _) eqn:Hl; [apply orb_true_iff in Hl as [?|?]; bool_to_prop; lia|].
  exists {| cc_Version := cc_Version current; cc_Origins := os' |}.
  assert (Z.to_nat limit < length items ∨ length items ≤ Z.to_nat limit) as _ by lia.
  assert (length sorted = length (active_items allowed before)) as Hsl by apply sort_stable_length.
  fold sorted in Hitems. cbn [cc_Origins cc_Version].
  assert (take (Z.to_nat limit) sorted = items ∧ drop (Z.to_nat limit) sorted
          = sort_stable less (active_items allowed os')) as [-> ->].
  { rewrite <- Hitems. destruct (decide (Z.to_nat limit ≤ length (active_items allowed before))).
    - rewrite take_app_length', drop_app_length' by lia. done.
    - assert (sort_stable less (active_items allowed os') = []) as ->.
      { apply (f_equal length) in Hitems. rewrite length_app, Hsl in Hitems.
        apply length_zero_iff_nil. lia. }
      rewrite app_nil_r, take_ge, drop_ge by lia. done. }
  done.
Qed.

(** C22: the merge is the specification. For a comparison that is a strict weak order,
    a page limit between 1 and 500 and pages of distinct origins, the heap merge
    never panics and emits exactly the first [limit] elements of the stable sort of
    everything the allowed origins hold (ties in origin order); what remains
    buffered for them is the rest of that sort, and every origin keeps its tokens
    and a suffix of its buffer, the whole buffer when it is not allowed. *)
Theorem merge_is_stable_sort_prefix {T} (less : T → T → bool) allowed
    (current : CompositeCursor T) pages limit :
  StrictWeakOrder less → (1 ≤ limit ≤ MaximumListLimit)%Z → duplicate_page pages = false →
  let before := refill less pages <$> cc_Origins current in
  let sorted := sort_stable less (active_items allowed before) in
  ∃ next, mergeAuthorizedOriginPages current pages limit (Some less) allowed
          = Some (Ok (take (Z.to_nat limit) sorted, next))
    ∧ sort_stable less (active_items allowed (cc_Origins next)) = drop (Z.to_nat limit) sorted
    ∧ Forall2 (origin_frame allowed) before (cc_Origins next)
    ∧ cc_Version next = cc_Version current.
Proof. apply merge_spec. Qed.

(** ** Validation *)

#[export] Instance str_le_antisym : AntiSymm (=) (λ x y : string, str_lt y x = false).
Proof. intros x y H1 H2. apply str_lt_total in H1 as [?|?]; congruence. Qed.

(** Sorting strings depends on the multiset only. *)
Lemma sort_strings_perm l k : l ≡ₚ k → sort_stable str_lt l = sort_stable str_lt k.
Proof.
  intros Hp. apply (StronglySorted_unique (λ x y, str_lt y x = false));
    [apply (sort_stable_sorted str_lt)..|]. by rewrite !sort_stable_perm.
Qed.

Lemma sorted_keys_unique `{SliceSortOk} (origins : list Origin) :
  Origin_Key <$> sort_Slice origin_less origins = sort_stable str_lt (Origin_Key <$> origins).
Proof.
  apply (StronglySorted_unique (λ x y, str_lt y x = false)).
  - pose proof (sort_Slice_sorted origin_less origins) as Hs. unfold sorted_by in Hs.
    induction Hs as [|o l Hl IH Ho]; simpl; constructor; [done|]. by apply Forall_fmap.
  - apply (sort_stable_sorted str_lt).
  - rewrite sort_stable_perm. apply fmap_Permutation, sort_Slice_perm.
Qed.

(** What a well-formed cursor for [expected] is. *)
Definition origin_ok {T} (st : OriginCursor T) : Prop :=
  org_Version (oc_Origin st) ≠ "" ∧ org_Resource (oc_Origin st) ≠ ""
  ∧ (len (oc_Continue st) ≤ MaximumCursorBytes)%Z ∧ (oc_Exhausted st = true → oc_Continue st = "").

Definition cursor_ok {T} (c : CompositeCursor T) (expected : list Origin) : Prop :=
  cc_Version c = 1%Z ∧ cc_Origins c ≠ []
  ∧ (oc_Key <$> cc_Origins c) = sort_stable str_lt (Origin_Key <$> expected)
  ∧ NoDup (Origin_Key <$> expected) ∧ Forall origin_ok (cc_Origins c).

Lemma validate_origins_spec {T} (states : list (OriginCursor T)) canonical seen :
  length states = length canonical →
  validate_origins states canonical seen = None ↔
  (oc_Key <$> states) = (Origin_Key <$> canonical) ∧ NoDup (oc_Key <$> states)
  ∧ Forall (λ st, oc_Key st ∉ seen) states ∧ Forall origin_ok states.
Proof.
  revert canonical seen. induction states as [|st states IH]; intros [|c canonical] seen Hlen; try done.
  { cbn [validate_origins]. split; [|done]. intros _. split_and!; [done|constructor..]. }
  cbn [validate_origins]. rewrite !fmap_cons, NoDup_cons, !Forall_cons. unfold origin_ok at 1.
  destruct (String.eqb_spec (org_Version (oc_Origin st)) ""); [split; [done|naive_solver]|].
  destruct (String.eqb_spec (org_Resource (oc_Origin st)) ""); [split; [done|naive_solver]|]. cbn [orb].
  destruct (decide (oc_Key st ∈ seen)).
  { rewrite bool_decide_true by done. split; [done|naive_solver]. }
  rewrite bool_decide_false by done. cbn [orb].
  destruct (String.eqb_spec (oc_Key st) (Origin_Key c)) as [Hk|Hk]; cbn [negb];
    [|split; [done|]; intros ([= ? ?] & _); done].
  destruct (MaximumCursorBytes <? _)%Z eqn:Hc; bool_to_prop; [split; [done|]; intros; naive_solver lia|].
  destruct (oc_Exhausted st && negb (String.eqb (oc_Continue st) "")) eqn:Hx.
  { split; [done|]. apply andb_true_iff in Hx as [Hx1 Hx2%negb_true_iff%String.eqb_neq]. naive_solver. }
  assert (oc_Exhausted st = true → oc_Continue st = "") as Hex.
  { intros Hx1. rewrite Hx1 in Hx. simpl in Hx. by apply negb_false_iff, String.eqb_eq in Hx. }
  rewrite IH by (simpl in Hlen; lia).
  assert ((Forall (λ st0, oc_Key st0 ∉ (oc_Key st :: seen)) states)
          ↔ ((oc_Key st ∉ (oc_Key <$> states)) ∧ Forall (λ st0, oc_Key st0 ∉ seen) states)) as ->.
  { rewrite !Forall_forall, list_elem_of_fmap. split.
    - intros Hall. split; [intros (st' & Heq & Hin); apply (Hall st' Hin); rewrite Heq; by left|].
      intros st' Hin Hs. apply (Hall st' Hin). by right.
    - intros [Hn Hall] st' Hin [Heq|Hs]%elem_of_cons; [apply Hn; eauto|by apply (Hall st')]. }
  rewrite Hk in *. split.
  - intros (Heq & Hnd & [Hni Hns] & Hok). rewrite Heq in *. split_and!; done || lia.
  - intros (Heq & [Hni Hnd] & [_ Hns] & _ & Hok). injection Heq as Heq. done.
Qed.

Lemma Validate_spec {T} `{SliceSortOk} (c : CompositeCursor T) expected :
  Validate c expected = None ↔ cursor_ok c expected.
Proof.
  unfold Validate, cursor_ok.
  destruct (cc_Version c =? 1)%Z eqn:Hv; cbn [negb]; bool_to_prop; [|naive_solver].
  assert (length (sort_Slice origin_less expected) = length expected) as Hsl
    by apply Permutation_length, sort_Slice_perm.
  assert ((oc_Key <$> cc_Origins c) = sort_stable str_lt (Origin_Key <$> expected) →
    length (cc_Origins c) = length expected) as Hlen.
  { intros Heq. apply (f_equal length) in Heq. by rewrite sort_stable_length, !length_fmap in Heq. }
  destruct (length (cc_Origins c) =? 0)%nat eqn:Hz; cbn [orb].
  { apply Nat.eqb_eq, length_zero_iff_nil in Hz. naive_solver. }
  apply Nat.eqb_neq in Hz.
  destruct (length (cc_Origins c) =? length expected)%nat eqn:Hl; cbn [negb].
  - apply Nat.eqb_eq in Hl. rewrite validate_origins_spec, sorted_keys_unique by congruence.
    split.
    + intros (Hk & Hnd & _ & Hok). split_and!; [done|by intros Hnil; rewrite Hnil in Hz|done| |done].
      rewrite Hk in Hnd. by rewrite sort_stable_perm in Hnd.
    + intros (_ & _ & Hk & Hnd & Hok). split_and!; [done| | |done].
      * rewrite Hk. by rewrite sort_stable_perm.
      * apply Forall_forall. intros st _. by apply not_elem_of_nil.
  - apply Nat.eqb_neq in Hl. split; [done|]. intros (_ & _ & Hk & _). by apply Hlen in Hk.
Qed.

(** Cursor validation is exact. A cursor coming back from a client is accepted
    if and only if it is of version 1, covers exactly the expected origins in the
    canonical order without duplicates, and every origin is complete, has a token
    within the size limit and no token once exhausted. The outcome does not depend
    on the order the expected origins are listed in. *)
Theorem cursor_validation_exact {T} `{SliceSortOk} (c : CompositeCursor T) expected expected' :
  (Validate c expected = None ↔ cursor_ok c expected)
  ∧ (expected ≡ₚ expected' → Validate c expected = None → Validate c expected' = None).
Proof.
  split; [apply Validate_spec|]. intros Hperm (Hv & Hne & Hk & Hnd & Hok)%Validate_spec.
  apply Validate_spec. split_and!; [done|done| |by rewrite <- Hperm|done].
  rewrite Hk. by apply sort_strings_perm, fmap_Permutation.
Qed.

Lemma NewCompositeCursor_valid {T} `{SliceSortOk} (origins : list Origin) :
  origins ≠ [] → NoDup (Origin_Key <$> origins) →
  Forall (λ o, org_Version o ≠ "" ∧ org_Resource o ≠ "") origins →
  Validate (NewCompositeCursor (T := T) origins) origins = None.
Proof.
  intros Hne Hnd Hall. apply Validate_spec. unfold cursor_ok, NewCompositeCursor. cbn [cc_Version cc_Origins].
  rewrite <- list_fmap_compose. change (oc_Key ∘ fresh_origin (T := T)) with Origin_Key.
  split_and!; [done| |apply sorted_keys_unique|done|].
  - intros Hnil%fmap_nil_inv. apply Hne. apply Permutation_nil. by rewrite <- Hnil, sort_Slice_perm.
  - apply Forall_fmap. rewrite sort_Slice_perm. eapply Forall_impl; [exact Hall|].
    intros o [? ?]. unfold origin_ok. by simpl.
Qed.

(** A cursor whose origins keep their identity and tokens keeps its validity. *)
Lemma Validate_frame {T} `{SliceSortOk} (a b : CompositeCursor T) origins :
  cc_Version b = cc_Version a →
  Forall2 (λ x y, oc_Origin y = oc_Origin x ∧ oc_Continue y = oc_Continue x
                  ∧ oc_Exhausted y = oc_Exhausted x) (cc_Origins a) (cc_Origins b) →
  Validate a origins = None → Validate b origins = None.
Proof.
  intros Hver Hall (Hv & Hne & Hk & Hnd & Hok)%Validate_spec. apply Validate_spec.
  assert ((oc_Key <$> cc_Origins b) = (oc_Key <$> cc_Origins a)) as Hkeys.
  { clear -Hall. induction Hall as [|x y l l' [Ho _] _ IH]; [done|].
    rewrite !fmap_cons, IH. unfold oc_Key. by rewrite Ho. }
  split_and!; [congruence| |by rewrite Hkeys|done|].
  - intros Hnil. apply Hne. rewrite Hnil in Hkeys. by symmetry in Hkeys; apply fmap_nil_inv in Hkeys.
  - clear -Hall Hok. induction Hall as [|x y l l' (H1 & H2 & H3) _ IH]; [done|].
    apply Forall_cons in Hok as [Hx ?]. constructor; [|auto]. unfold origin_ok in *. by rewrite H1, H2, H3.
Qed.

Lemma merge_limit_ok {T} (current : CompositeCursor T) pages limit less allowed out :
  mergeAuthorizedOriginPages current pages limit (Some less) allowed = Some (Ok out) →
  (1 ≤ limit ≤ MaximumListLimit)%Z ∧ duplicate_page pages = false.
Proof.
  unfold mergeAuthorizedOriginPages. destruct (_ || _) eqn:Hl; [done|].
  destruct (duplicate_page pages); [done|]. intros _.
  apply orb_false_iff in Hl as [? ?]. bool_to_prop. split; [lia|done].
Qed.

Lemma merge_valid {T} `{SliceSortOk} (less : T → T → bool) `{!StrictWeakOrder less} allowed
    (current : CompositeCursor T) origins limit items next :
  Validate current origins = None →
  mergeAuthorizedOriginPages current [] limit (Some less) allowed = Some (Ok (items, next)) →
  Validate next origins = None.
Proof.
  intros Hv Hmerge. destruct (merge_limit_ok _ _ _ _ _ _ Hmerge) as [Hlim _].
  destruct (merge_spec less allowed current [] limit _ Hlim eq_refl) as (next' & Heq & _ & Hframe & Hver).
  rewrite Hmerge in Heq. injection Heq as -> <-. eapply Validate_frame; [done| |done].
  apply (Forall2_fmap_l (refill less [])) in Hframe. eapply Forall2_impl; [exact Hframe|].
  intros a b (H1 & H2 & _ & H4 & _). by rewrite H1, H2, H4.
Qed.

(** Cursors stay valid. A fresh cursor for a non-empty list of complete, distinct
    origins passes validation, and emitting a page from a valid cursor gives a valid
    cursor for the same origins. *)
Theorem cursors_stay_valid {T} `{SliceSortOk} (less : T → T → bool) allowed
    (current : CompositeCursor T) origins limit items next :
  StrictWeakOrder less →
  (origins ≠ [] → NoDup (Origin_Key <$> origins) →
   Forall (λ o, org_Version o ≠ "" ∧ org_Resource o ≠ "") origins →
   Validate (NewCompositeCursor (T := T) origins) origins = None)
  ∧ (Validate current origins = None →
     mergeAuthorizedOriginPages current [] limit (Some less) allowed = Some (Ok (items, next)) →
     Validate next origins = None).
Proof. intros Hless. split; [apply NewCompositeCursor_valid|by apply merge_valid]. Qed.

(** ** Witnesses *)

Definition demo_origin (ns : string) : Origin :=
  {| org_Namespace := ns; org_APIGroup := ""; org_Version := "v1"; org_Resource := "pods" |}.
Definition demo_state (ns : string) (buffered : list nat) : OriginCursor nat :=
  {| oc_Origin := demo_origin ns; oc_Continue := ""; oc_ResourceVersion := "5";
     oc_Exhausted := true; oc_Buffered := buffered |}.
Definition demo_cursor : CompositeCursor nat :=
  {| cc_Version := 1; cc_Origins := [demo_state "a" [1; 4]; demo_state "b" [2; 2]; demo_state "c" [0]] |}.
Definition demo_allowed : option (gmap string bool) :=
  Some {[ "/v1/pods/a" := true; "/v1/pods/b" := true ]}.

#[export] Instance ltb_swo : StrictWeakOrder Nat.ltb.
Proof. split; intros *; rewrite ?Nat.ltb_lt, ?Nat.ltb_ge; lia. Qed.

Lemma merge_is_stable_sort_prefix_witness :
  ∃ next, mergeAuthorizedOriginPages demo_cursor [] 3 (Some Nat.ltb) demo_allowed
          = Some (Ok ([1; 2; 2], next)).
Proof.
  destruct (merge_is_stable_sort_prefix Nat.ltb demo_allowed demo_cursor [] 3) as (next & H & _);
    [apply _|by vm_compute|done|].
  exists next. exact H.
Defined.

Lemma cursor_validation_exact_witness :
  Validate (H := stable_slice_sort) demo_cursor [demo_origin "c"; demo_origin "a"; demo_origin "b"] = None.
Proof.
  apply (@cursor_validation_exact nat stable_slice_sort stable_slice_sort_ok demo_cursor
    [demo_origin "a"; demo_origin "b"; demo_origin "c"] [demo_origin "c"; demo_origin "a"; demo_origin "b"]).
  - by apply (bool_decide_unpack _).
  - by vm_compute.
Defined.

Lemma cursors_stay_valid_witness :
  Validate (H := stable_slice_sort) (NewCompositeCursor (T := nat) (H := stable_slice_sort)
    [demo_origin "b"; demo_origin "a"]) [demo_origin "b"; demo_origin "a"] = None.
Proof.
  apply (@cursors_stay_valid nat stable_slice_sort stable_slice_sort_ok Nat.ltb None demo_cursor
    [demo_origin "b"; demo_origin "a"] 3 [] demo_cursor _); by apply (bool_decide_unpack _).
Defined.
