(* ===== verification/Ports.v ===== *)
(** * Ports: what the resource services need from the outside

    The interface between the collection code and its environment: the
    authorization service, the Kubernetes LIST adapter, the request context and the
    clock. They are the fields of [Ports] over an arbitrary type of worlds, so every
    theorem holds for every behaviour of the environment. The code runs in a state
    monad that records each port call, so theorems can say what was asked before
    what. Also the authorization types of
    src/internal/services/authorization/types.go and errors.go that cross the
    interface. *)
From Stdlib Require Import Ascii String ZArith Lia.
From stdpp Require Import base gmap strings list.
From S2P Require Import Prelude Json Topics Cursor.

(** ** Authorization types *)

(** [Decision] and [ReasonCode] are string types in the source. *)
Definition DecisionAllowed : string := "allowed".
Definition DecisionDenied : string := "denied".
Definition DecisionUnknown : string := "unknown".

Definition ReasonSARIncomplete : string := "SAR_INCOMPLETE".
Definition ReasonSARUnavailable : string := "SAR_UNAVAILABLE".
Definition ReasonSARTimeout : string := "SAR_TIMEOUT".
Definition ReasonSARForbidden : string := "SAR_FORBIDDEN".
Definition ReasonSARAuthenticationUnavailable : string := "SAR_AUTHENTICATION_UNAVAILABLE".
Definition ReasonRequestCanceled : string := "REQUEST_CANCELED".
Definition ReasonOperationAllowed : string := "OPERATION_ALLOWED".
Definition ReasonOperationDenied : string := "OPERATION_DENIED".

Record Key := {
  k_Generation : string; k_Namespace : string; k_APIGroup : string; k_Resource : string;
  k_Subresource : string; k_Verb : string; k_ResourceName : string }.

#[export] Instance Key_eq_dec : EqDecision Key.
Proof. solve_decision. Defined.

(** The fields of [Capability] the collection code reads or writes. *)
Record Capability := { cap_Decision : string; cap_ReasonCode : string }.

Definition is_decision (d : string) (c : Capability) : bool := String.eqb (cap_Decision c) d.

(** [ReviewFailure]: code and message for an inconclusive review. *)
Definition ReviewFailure (reason : string) : ErrorCode * string :=
  if String.eqb reason ReasonSARTimeout then
    (CodeUpstreamTimeout, "The Kubernetes permission review timed out. Resource access has not been denied; the review can be retried.")
  else if String.eqb reason ReasonSARAuthenticationUnavailable then
    (CodeAuthenticationUnavailable, "Kubernetes rejected the current credentials (HTTP 401). Refresh the login or credential provider for this context.")
  else if String.eqb reason ReasonSARForbidden then
    (CodeAuthorizationUnavailable, "Kubernetes denied the permission-review request (SelfSubjectAccessReview). This does not mean the resource itself is forbidden; reads are checked by the actual Kubernetes request.")
  else if String.eqb reason ReasonSARIncomplete then
    (CodeAuthorizationUnavailable, "Kubernetes returned an incomplete permission review without an allow or deny decision. The review will be checked again.")
  else if String.eqb reason ReasonRequestCanceled then
    (CodeAuthorizationUnavailable, "The Kubernetes permission review was canceled before it returned a decision. The review can be retried.")
  else if String.eqb reason ReasonSARUnavailable then
    (CodeAuthorizationUnavailable, "The Kubernetes permission-review endpoint could not be reached or returned an error. Resource access has not been denied; the review can be retried.")
  else (CodeAuthorizationUnavailable, "The Kubernetes permission review did not return a decision. This does not establish that resource access was denied.").

(** ** Requests *)

Record PageRequest := {
  pr_Origin : Origin; pr_Limit : Z; pr_Continue : string; pr_LabelSelector : string;
  pr_FieldSelector : string }.

(** ** The environment *)

Class Ports (T W : Type) := {
  port_ctx_err : W → option error;                                  (* ctx.Err() *)
  port_Check : Key → W → Capability * W;                            (* Authorizer.Check *)
  port_ListPage : PageRequest → W → (OriginPage T * option error) * W; (* Lister.ListPage *)
  port_Jitter : Z → W → Z * W;                                      (* policy.Jitter *)
  port_Wait : Z → W → option error * W;                             (* policy.Wait *)
  port_OnThrottle : W → W;                                          (* policy.OnThrottle *)
  (* how many jobs of a batch are handed to workers before ctx.Done *)
  port_dispatch : nat → W → nat }.

(** Classification of foreign errors by apimachinery. *)
Class ApiErrors := { IsTimeout : error → bool; IsForbidden : error → bool }.

(** A lister answers for the origin it was asked for, or leaves the origin zero. *)
Class ListerOk `{Ports T W} : Prop := {
  lister_origin : ∀ r w, let '((page, _), _) := port_ListPage r w in
    page_Origin page = pr_Origin r ∨ Origin_Key (page_Origin page) = "///" }.

(** ** The monad *)

Inductive call (T : Type) :=
| CalledCheck (k : Key) (answer : Capability)
| CalledList (r : PageRequest) (answer : OriginPage T * option error)
| CalledWait (cause : error) (delay : Z).
Arguments CalledCheck {T}. Arguments CalledList {T}. Arguments CalledWait {T}.

Record St (T W : Type) := { world : W; log : list (call T); throttles : Z }.
Arguments world {T W}. Arguments log {T W}. Arguments throttles {T W}.

Definition M (T W A : Type) : Type := St T W → A * St T W.

#[export] Instance M_ret T W : MRet (M T W) := λ A a s, (a, s).
#[export] Instance M_bind T W : MBind (M T W) := λ A B f m s, let '(a, s') := m s in f a s'.

Section calls.
Context {T W : Type} `{Ports T W}.

Definition with_world (s : St T W) (w : W) (c : call T) : St T W :=
  {| world := w; log := log s ++ [c]; throttles := throttles s |}.

Definition ctx_err : M T W (option error) := λ s, (port_ctx_err s.(world), s).

Definition Check (k : Key) : M T W Capability := λ s,
  let '(c, w) := port_Check k (world s) in (c, with_world s w (CalledCheck k c)).

Definition ListPage (r : PageRequest) : M T W (OriginPage T * option error) := λ s,
  let '(p, w) := port_ListPage r (world s) in (p, with_world s w (CalledList r p)).

Definition Jitter (d : Z) : M T W Z := λ s,
  let '(d', w) := port_Jitter d (world s) in
  (d', {| world := w; log := log s; throttles := throttles s |}).

Definition Wait (cause : error) (d : Z) : M T W (option error) := λ s,
  let '(e, w) := port_Wait d (world s) in (e, with_world s w (CalledWait cause d)).

Definition OnThrottle : M T W unit := λ s,
  (tt, {| world := port_OnThrottle (world s); log := log s; throttles := throttles s |}).

(** [apiPressure.recordThrottle]. *)
Definition recordThrottle : M T W unit := λ s,
  (tt, {| world := world s; log := log s; throttles := throttles s + 1 |}).

Definition dispatched {A} (jobs : list A) : M T W (list A) := λ s,
  (take (port_dispatch (length jobs) (world s)) jobs, s).
End calls.

(** ** Reasoning about the monad *)

(** [safe P m Q]: started in a state satisfying [P], [m] ends with a value and a
    state satisfying [Q]. Every [m] is total. *)
Definition safe {T W A} (P : St T W → Prop) (m : M T W A) (Q : A → St T W → Prop) : Prop :=
  ∀ s, P s → Q (m s).1 (m s).2.

Lemma safe_ret {T W A} (P : St T W → Prop) (a : A) (Q : A → St T W → Prop) :
  (∀ s, P s → Q a s) → safe P (mret a) Q.
Proof. intros HQ s. apply HQ. Qed.

Lemma safe_bind {T W A B} (P : St T W → Prop) (m : M T W A) (f : A → M T W B) R Q :
  safe P m R → (∀ a, safe (R a) (f a) Q) → safe P (m ≫= f) Q.
Proof.
  intros Hm Hf s Hs. specialize (Hm s Hs). unfold mbind, M_bind.
  destruct (m s) as [a s']. by apply Hf.
Qed.

Lemma safe_weaken {T W A} (P P' : St T W → Prop) (m : M T W A) (Q Q' : A → St T W → Prop) :
  (∀ s, P' s → P s) → (∀ a s, Q a s → Q' a s) → safe P m Q → safe P' m Q'.
Proof. intros HP HQ Hm s Hs. by apply HQ, Hm, HP. Qed.
