(* ===== verification/Retry.v ===== *)
(** * Retry: bounded retries of idempotent reads

    Models src/internal/services/resources/retry.go: the policy and its
    normalization, which errors are worth a retry
    ([authorization.TranslateOperationError] included), [retryListPage] with its
    delays and [RetryRead]. The jitter, the wait and the lister are ports. *)
From Stdlib Require Import Ascii String ZArith Lia.
From stdpp Require Import base gmap strings list.
From S2P Require Import Prelude Json Topics Cursor Ports.

Definition DefaultListAttempts : Z := 3.
Definition DefaultRetryBase : Z := 200000000.     (* 200 ms, in nanoseconds *)
Definition MaximumRetryDelay : Z := 5000000000.   (* 5 s *)

Record RetryPolicy := { Attempts : Z; Base : Z; Maximum : Z; hasOnThrottle : bool }.

Definition normalizeRetryPolicy (p : RetryPolicy) : RetryPolicy := {|
  Attempts := if (Attempts p <=? 0)%Z then DefaultListAttempts else Attempts p;
  Base := if (Base p <=? 0)%Z then DefaultRetryBase else Base p;
  Maximum := if (Maximum p <=? 0)%Z || (MaximumRetryDelay <? Maximum p)%Z then MaximumRetryDelay
             else Maximum p;
  hasOnThrottle := hasOnThrottle p |}.

(** [base << attempt] on int64. *)
Definition int64_wrap (z : Z) : Z := ((z + 2 ^ 63) mod 2 ^ 64 - 2 ^ 63)%Z.
Definition int64_shl (x : Z) (n : nat) : Z := int64_wrap (Z.shiftl x (Z.of_nat n)).

(** ** Fan-out under pressure *)

Definition DefaultFanout : Z := 4.
Definition MaximumConfigurableFanout : Z := 8.

Definition NormalizeFanout (value : Z) : Z :=
  if (value <=? 0)%Z then DefaultFanout
  else if (MaximumConfigurableFanout <? value)%Z then MaximumConfigurableFanout else value.

Definition fanout (throttles configured : Z) : Z :=
  let value := NormalizeFanout configured in
  if (2 <=? throttles)%Z then Z.max 1 (value / 2) else value.

Section retry.
Context {T W : Type} `{Ports T W} `{ApiErrors}.

(** [TranslateOperationError(err).Retryable] for an error that is not a
    [DomainError]: cancellation and a real 403 are final, everything else may pass. *)
Definition translated_retryable (err : error) : bool :=
  if is_canceled err then false
  else if is_deadline err || IsTimeout err then true
  else negb (IsForbidden err).

Definition retryableRead (err : error) : bool :=
  if is_canceled err then false
  else match err with
       | DomainError code _ _ _ =>
         bool_decide (code ∈ [CodeRateLimited; CodeClusterUnavailable; CodeUpstreamTimeout;
                              CodeAuthenticationUnavailable])
       | _ => translated_retryable err
       end.

(** [errors.As] for [RetryAfter()]: only a [DomainError] has the method. *)
Definition RetryAfter (err : error) : Z :=
  match err with DomainError _ _ _ d => d | _ => 0%Z end.

Definition rate_limited (err : error) : bool := bool_decide (ErrorCodeOf err = CodeRateLimited).

Definition zero_page (o : Origin) : OriginPage T :=
  {| page_Origin := o; page_Items := []; page_Continue := ""; page_ResourceVersion := "" |}.

(** The delay before the jitter, and after it. *)
Definition base_delay (p : RetryPolicy) (attempt : nat) (retryAfter : Z) : Z :=
  let delay := int64_shl (Base p) attempt in
  let delay := if (delay <? retryAfter)%Z then retryAfter else delay in
  if (Maximum p <? delay)%Z then Maximum p else delay.

Definition final_delay (p : RetryPolicy) (retryAfter jittered : Z) : Z :=
  let delay := if (jittered <? 0)%Z then 0%Z else jittered in
  let delay := if (Maximum p <? delay)%Z then Maximum p else delay in
  if (delay <? retryAfter)%Z then retryAfter else delay.

(** [remaining] attempts are left, [attempt] were made. *)
Fixpoint retry_loop (p : RetryPolicy) (request : PageRequest) (remaining attempt : nat)
    (lastErr : option error) : M T W (OriginPage T * option error) :=
  match remaining with
  | O => mret (zero_page (pr_Origin request), lastErr)
  | S rest =>
    cancelled ← ctx_err;
    match cancelled with
    | Some e => mret (zero_page (pr_Origin request), Some e)
    | None =>
      answer ← ListPage request;
      match answer with
      | (page, None) => mret (page, None)
      | (page, Some err) =>
        _ ← (if rate_limited err && hasOnThrottle p then OnThrottle else mret tt);
        if negb (retryableRead err) || (rest =? 0)%nat then mret (page, Some err)
        else
          _ ← (if rate_limited err then recordThrottle else mret tt);
          if (Maximum p <? RetryAfter err)%Z then mret (page, Some err)
          else
            jittered ← Jitter (base_delay p attempt (RetryAfter err));
            waited ← Wait err (final_delay p (RetryAfter err) jittered);
            match waited with
            | Some e => mret (zero_page (pr_Origin request), Some e)
            | None => retry_loop p request rest (S attempt) (Some err)
            end
      end
    end
  end.

Definition retryListPage (policy : RetryPolicy) (request : PageRequest)
    : M T W (OriginPage T * option error) :=
  let p := normalizeRetryPolicy policy in
  retry_loop p request (Z.to_nat (Attempts p)) 0 None.

(** [RetryRead]: the default policy around any read. *)
Section read.
Context {A : Type} (zero : A) (read : M T W (A * option error)).

Fixpoint read_loop (remaining attempt : nat) : M T W (A * option error) :=
  match remaining with
  | O => mret (zero, None)  (* not reached: the last attempt returns *)
  | S rest =>
    cancelled ← ctx_err;
    match cancelled with
    | Some e => mret (zero, Some e)
    | None =>
      answer ← read;
      match answer with
      | (value, None) => mret (value, None)
      | (value, Some err) =>
        if negb (retryableRead err) || (rest =? 0)%nat then mret (value, Some err)
        else
          jittered ← Jitter (int64_shl DefaultRetryBase attempt);
          waited ← Wait err jittered;
          match waited with
          | Some e => mret (zero, Some e)
          | None => read_loop rest (S attempt)
          end
      end
    end
  end.

Definition RetryRead : M T W (A * option error) := read_loop (Z.to_nat DefaultListAttempts) 0.
End read.

(** * Properties *)

Definition is_list (c : call T) : bool :=
  match c with CalledList _ _ => true | _ => false end.
Definition list_calls (l : list (call T)) : nat := length (filter (λ c, is_list c = true) l).

(** What one [retryListPage] may add to the log. *)
Definition retry_call_ok (p : RetryPolicy) (request : PageRequest) (c : call T) : Prop :=
  match c with
  | CalledList r _ => r = request
  | CalledWait err d => retryableRead err = true ∧ (RetryAfter err ≤ d)%Z ∧ (0 ≤ d ≤ Maximum p)%Z
  | CalledCheck _ _ => False
  end.

Lemma list_calls_app l k : list_calls (l ++ k) = list_calls l + list_calls k.
Proof. unfold list_calls. by rewrite filter_app, length_app. Qed.

Lemma final_delay_bounds p err jittered :
  (0 ≤ Maximum p)%Z → (RetryAfter err ≤ Maximum p)%Z →
  (RetryAfter err ≤ final_delay p (RetryAfter err) jittered)%Z
  ∧ (0 ≤ final_delay p (RetryAfter err) jittered ≤ Maximum p)%Z.
Proof. intros. unfold final_delay. repeat case_match; bool_to_prop; lia. Qed.

(** The log a run leaves: [m] appends calls that satisfy [ok], at most [n] of them
    LIST calls, and its answer satisfies [Q] with respect to them. *)
Definition appends {A} (ok : call T → Prop) (n : nat) (m : M T W A) (Q : A → list (call T) → Prop) : Prop :=
  ∀ s, ∃ added, log (m s).2 = log s ++ added ∧ Forall ok added ∧ list_calls added ≤ n
    ∧ Q (m s).1 added.

Lemma appends_ret {A} ok n (a : A) (Q : A → list (call T) → Prop) : Q a [] → appends ok n (mret a) Q.
Proof. intros HQ s. exists []. split_and!; [by rewrite app_nil_r|by apply Forall_nil|apply Nat.le_0_l|done]. Qed.

Lemma appends_bind {A B} ok n k (m : M T W A) (f : A → M T W B) R Q :
  appends ok n m R → (∀ a, appends ok k (f a) (λ b added, ∀ pre, R a pre → Q b (pre ++ added))) →
  appends ok (n + k) (m ≫= f) Q.
Proof.
  intros Hm Hf s. unfold mbind, M_bind. destruct (Hm s) as (l1 & Hl1 & Hok1 & Hn1 & HR).
  destruct (m s) as [a s']. destruct (Hf a s') as (l2 & Hl2 & Hok2 & Hn2 & HQ).
  exists (l1 ++ l2). cbn [fst snd] in *. split_and!.
  - by rewrite Hl2, Hl1, app_assoc.
  - by apply Forall_app.
  - rewrite list_calls_app. lia.
  - by apply HQ.
Qed.

Lemma appends_mono {A} ok n k (m : M T W A) (Q Q' : A → list (call T) → Prop) :
  n ≤ k → (∀ a l, Forall ok l → Q a l → Q' a l) → appends ok n m Q → appends ok k m Q'.
Proof.
  intros Hnk HQ Hm s. destruct (Hm s) as (l & Hl & Hok & Hn & Ha). exists l.
  split_and!; [done|done|lia|by apply HQ].
Qed.

Lemma appends_silent {A} ok n (m : M T W A) :
  (∀ s, log (m s).2 = log s) → appends ok n m (λ _ l, l = []).
Proof. intros Hm s. exists []. rewrite app_nil_r. split_and!; [done|by apply Forall_nil|apply Nat.le_0_l|done]. Qed.

(** The origin a page claims: the requested one, or none. *)
Definition page_origin_ok (request : PageRequest) (page : OriginPage T) : Prop :=
  page_Origin page = pr_Origin request ∨ Origin_Key (page_Origin page) = "///".

Lemma appends_ListPage ok r :
  (∀ e, ok (CalledList r e)) →
  appends ok 1 (ListPage r) (λ a l, l = [CalledList r a] ∧ (ListerOk → page_origin_ok r a.1)).
Proof.
  intros Hok s. unfold ListPage. destruct (port_ListPage r (world s)) as [a w] eqn:Hp.
  cbn [fst snd with_world log]. exists [CalledList r a].
  split_and!; [done|by repeat constructor|done|done|]. intros Hl.
  pose proof (lister_origin r (world s)) as Ho. rewrite Hp in Ho. by destruct a.
Qed.

Lemma appends_Wait (ok : call T → Prop) e d :
  ok (CalledWait e d) → appends ok 0 (Wait e d) (λ _ l, l = [CalledWait e d]).
Proof.
  intros Hok s. unfold Wait. destruct (port_Wait d (world s)) as [a w]. cbn [fst snd with_world log].
  exists [CalledWait e d]. split_and!; [done|by repeat constructor|done|done].
Qed.

Lemma Jitter_silent d s : log (Jitter d s).2 = log s.
Proof. unfold Jitter. by destruct (port_Jitter d (world s)). Qed.

(** A successful answer is what the lister returned for this request, and any page
    claims the requested origin or none. *)
Definition answer_ok (request : PageRequest) (a : OriginPage T * option error) (l : list (call T)) : Prop :=
  (a.2 = None → ∃ l', l = l' ++ [CalledList request a])
  ∧ (ListerOk → page_origin_ok request a.1).

Lemma answer_ok_app request a pre l : answer_ok request a l → answer_ok request a (pre ++ l).
Proof.
  intros [Ha Ho]. split; [|done]. intros Hn. destruct (Ha Hn) as [l' ->].
  exists (pre ++ l'). by rewrite app_assoc.
Qed.

Lemma answer_ok_zero request e l : answer_ok request (zero_page (pr_Origin request), Some e) l.
Proof. split; [done|]. by left. Qed.

Lemma retry_loop_spec p request remaining attempt lastErr :
  (0 ≤ Maximum p)%Z → remaining ≠ 0 ∨ lastErr ≠ None →
  appends (retry_call_ok p request) remaining
    (retry_loop p request remaining attempt lastErr) (answer_ok request).
Proof.
  intros Hmax. revert attempt lastErr. induction remaining as [|rest IH]; intros attempt lastErr Hlast.
  { cbn [retry_loop]. apply appends_ret. destruct lastErr; [apply answer_ok_zero|naive_solver]. }
  cbn [retry_loop]. apply (appends_bind _ 0 (S rest) _ _ (λ _ l, l = [])); [by apply appends_silent|].
  intros [e|]; [apply appends_ret; intros; apply answer_ok_zero|].
  eapply (appends_bind _ 1 rest); [by apply appends_ListPage|].
  intros [page [err|]]; [|apply appends_ret; intros pre [-> Ho] pre' ->; split; [intros _; by exists []|done]].
  apply (appends_bind _ 0 rest _ _ (λ _ l, l = [])).
  { destruct (_ && _); by apply appends_silent. }
  intros _. destruct (negb (retryableRead err) || (rest =? 0)%nat) eqn:Hfinal.
  { apply appends_ret. intros ? _ ? [_ Ho] ? _. by split. }
  apply orb_false_iff in Hfinal as [Hret%negb_false_iff Hrest%Nat.eqb_neq].
  apply (appends_bind _ 0 rest _ _ (λ _ l, l = [])).
  { destruct (rate_limited err); by apply appends_silent. }
  intros _. destruct (Maximum p <? RetryAfter err)%Z eqn:Hafter.
  { apply appends_ret. intros ? _ ? _ ? [_ Ho] ? _. by split. }
  bool_to_prop.
  apply (appends_bind _ 0 rest _ _ (λ _ l, l = [])); [apply appends_silent, Jitter_silent|].
  intros jittered. apply (appends_bind _ 0 rest _ _ (λ _ _, True)).
  { eapply appends_mono; [done|done|]. apply appends_Wait. simpl.
    pose proof (final_delay_bounds p err jittered Hmax Hafter). tauto. }
  intros [e|]; [apply appends_ret; intros; apply answer_ok_zero|].
  eapply appends_mono; [done| |apply IH; by right].
  intros a l _ Ha. intros. repeat apply answer_ok_app. done.
Qed.

Lemma read_loop_spec {A} (zero : A) read ok n remaining attempt :
  (∀ e d, ok (CalledWait e d)) → appends ok n read (λ _ _, True) →
  appends ok (remaining * n) (read_loop zero read remaining attempt) (λ _ _, True).
Proof.
  intros Hw Hread. revert attempt. induction remaining as [|rest IH]; intros attempt.
  { by apply appends_ret. }
  cbn [read_loop Nat.mul]. apply (appends_bind _ 0 (n + rest * n) _ _ (λ _ l, l = [])); [by apply appends_silent|].
  intros [e|]; [by apply appends_ret|].
  apply (appends_bind _ n (rest * n) _ _ (λ _ _, True)); [done|].
  intros [value [err|]]; [|by apply appends_ret].
  destruct (_ || _); [by apply appends_ret|].
  apply (appends_bind _ 0 (rest * n) _ _ (λ _ l, l = [])); [apply appends_silent, Jitter_silent|].
  intros jittered. apply (appends_bind _ 0 (rest * n) _ _ (λ _ _, True)).
  { eapply appends_mono; [done|done|]. by apply appends_Wait. }
  intros [e|]; [by apply appends_ret|]. eapply appends_mono; [done|done|apply IH].
Qed.

Lemma normalized_bounds policy :
  let p := normalizeRetryPolicy policy in
  (0 < Attempts p)%Z ∧ (0 ≤ Maximum p ≤ MaximumRetryDelay)%Z.
Proof.
  cbv zeta. unfold normalizeRetryPolicy, DefaultListAttempts, MaximumRetryDelay. cbn [Attempts Maximum].
  split; [case_match; bool_to_prop; lia|]. destruct (_ || _) eqn:Hm; [lia|].
  apply orb_false_iff in Hm as [? ?]. bool_to_prop. lia.
Qed.

Lemma retryListPage_spec policy request :
  appends (retry_call_ok (normalizeRetryPolicy policy) request)
    (Z.to_nat (Attempts (normalizeRetryPolicy policy))) (retryListPage policy request)
    (answer_ok request).
Proof.
  destruct (normalized_bounds policy) as [Ha Hm]. apply retry_loop_spec; [lia|left; lia].
Qed.

(** retries are bounded and polite. One [retryListPage] issues at most the
    policy's number of LIST calls, all of them for the same request; it waits only
    after an error that is worth a retry, never longer than the policy's maximum
    (at most 5 s) and never shorter than the delay the server asked for; and a page
    it reports as successful is the answer of its last LIST call. It always
    returns. *)
Theorem retries_bounded policy request s :
  let p := normalizeRetryPolicy policy in
  let '((page, err), s') := retryListPage policy request s in
  ∃ added, log s' = log s ++ added
    ∧ Forall (retry_call_ok p request) added
    ∧ (Z.of_nat (list_calls added) ≤ Attempts p)%Z
    ∧ (Maximum p ≤ MaximumRetryDelay)%Z
    ∧ (err = None → ∃ l', added = l' ++ [CalledList request (page, None)]).
Proof.
  intros p. destruct (normalized_bounds policy) as [Hatt Hmax].
  destruct (retryListPage_spec policy request s) as (added & Hlog & Hok & Hn & Hans & _).
  destruct (retryListPage policy request s) as [[page err] s'].
  exists added. subst p. split_and!; [done|done|lia|apply Hmax|intros ->; by apply Hans].
Qed.
End retry.
