(* ===== verification/Pagination.v ===== *)
(** * Pagination: bounded reading of many Kubernetes LIST sources

    Models src/internal/services/resources/pagination.go: authorization and fetching
    of one origin, the worker batch, applying a page to a cursor, and the four
    pagination strategies with their selection.

    The worker pool runs its jobs one after the other here. The code returns the
    results in the order of the requested indices whatever the interleaving, and the
    environment ([Ports]) is arbitrary, so every combination of answers a concurrent
    run can see is an answer of some environment. A batch may be cut short when the
    context ends ([port_dispatch]).

    Loops that run as long as the upstream returns pages take fuel; [OutOfFuel] is
    an explicit outcome. *)
From Stdlib Require Import Ascii String ZArith Lia.
From stdpp Require Import base gmap strings list.
From S2P Require Import Prelude Json Topics Cursor Ports Retry.

Definition DefaultOriginChunkSize : Z := 10.
Definition MaxOriginChunkSize : Z := 50.

(** The options a collection reads. *)
Record ListOptions := {
  Limit : Z; opt_Sort : string; opt_Order : string; LabelSelector : string; FieldSelector : string }.

Section pagination.
Context {T W : Type} `{Ports T W} `{ApiErrors}.

(** [hasLister] and [hasAuthorizer] say whether the ports are set at all. *)
Record CollectionRequest := {
  sel_Generation : string; sel_Context : string; sel_Scope : string;
  Options : ListOptions; Origins : list Origin; req_Cursor : option (CompositeCursor T);
  hasLister : bool; hasAuthorizer : bool; Less : option (T → T → bool);
  RequestedNamespaces : Z; Fanout : Z; Retry : RetryPolicy; PreferredNamespace : string;
  NativeIdentityOrder : bool; GlobalGrantFastPath : bool; ReadThroughUnknown : bool;
  globalListGrant : option Capability }.

Record originOutcome := {
  out_page : OriginPage T; out_capability : Capability; out_err : option error;
  out_queried : bool; out_authoritative : bool }.

Definition outcome_key (o : originOutcome) : string := Origin_Key (page_Origin (out_page o)).
Definition outcome_allowed (o : originOutcome) : bool := is_decision DecisionAllowed (out_capability o).

(** ** One origin *)

Definition list_key (request : CollectionRequest) (namespace group resource : string) : Key := {|
  k_Generation := sel_Generation request; k_Namespace := namespace; k_APIGroup := group;
  k_Resource := resource; k_Subresource := ""; k_Verb := "list"; k_ResourceName := "" |}.

Definition origin_key (request : CollectionRequest) (o : Origin) : Key :=
  list_key request (org_Namespace o) (org_APIGroup o) (org_Resource o).

Definition authorizeOrigin (request : CollectionRequest) (o : Origin) : M T W originOutcome :=
  match globalListGrant request with
  | Some grant => mret {| out_page := zero_page o; out_capability := grant; out_err := None;
                          out_queried := false; out_authoritative := false |}
  | None =>
    capability ← Check (origin_key request o);
    let outcome c e := {| out_page := zero_page o; out_capability := c; out_err := e;
                          out_queried := false; out_authoritative := false |} in
    if negb (is_decision DecisionUnknown capability) || negb (ReadThroughUnknown request)
    then mret (outcome capability None)
    else
      answer ← retryListPage (Retry request)
        {| pr_Origin := o; pr_Limit := 1; pr_Continue := "";
           pr_LabelSelector := LabelSelector (Options request);
           pr_FieldSelector := FieldSelector (Options request) |};
      match (answer : OriginPage T * option error).2 with
      | None => mret (outcome {| cap_Decision := DecisionAllowed;
                                 cap_ReasonCode := ReasonOperationAllowed |} None)
      | Some err =>
        if bool_decide (ErrorCodeOf err = CodeForbidden)
        then mret (outcome {| cap_Decision := DecisionDenied;
                              cap_ReasonCode := ReasonOperationDenied |} (Some err))
        else mret (outcome capability (Some err))
      end
  end.

Definition fetchOrigin (request : CollectionRequest) (st : OriginCursor T) (limit : Z)
    (capability : Capability) : M T W originOutcome :=
  answer ← retryListPage (Retry request)
    {| pr_Origin := oc_Origin st; pr_Limit := limit; pr_Continue := oc_Continue st;
       pr_LabelSelector := LabelSelector (Options request);
       pr_FieldSelector := FieldSelector (Options request) |};
  let '(page, err) := (answer : OriginPage T * option error) in
  let page := if String.eqb (Origin_Key (page_Origin page)) "///"
              then {| page_Origin := oc_Origin st; page_Items := page_Items page;
                      page_Continue := page_Continue page;
                      page_ResourceVersion := page_ResourceVersion page |}
              else page in
  let capability := match err with
                    | Some e => if bool_decide (ErrorCodeOf e = CodeForbidden)
                                then {| cap_Decision := DecisionDenied;
                                        cap_ReasonCode := ReasonOperationDenied |}
                                else capability
                    | None => capability
                    end in
  mret {| out_page := page; out_capability := capability; out_err := err; out_queried := true;
          out_authoritative := match err with None => true | Some _ => false end |}.

Definition applyOriginPage (st : OriginCursor T) (page : OriginPage T)
    (less : option (T → T → bool)) : result error (OriginCursor T) :=
  if negb (String.eqb (oc_Key st) (Origin_Key (page_Origin page)))
  then Err (validationError "origin page does not match cursor state")
  else if negb (String.eqb (page_Continue page) "")
          && String.eqb (page_Continue page) (oc_Continue st)
  then Err (validationError "upstream pagination made no progress")
  else match less with
       | None => Err (validationError "pagination comparator is unavailable")
       | Some less' =>
         Ok {| oc_Origin := oc_Origin st; oc_Continue := page_Continue page;
               oc_ResourceVersion := page_ResourceVersion page;
               oc_Exhausted := String.eqb (page_Continue page) "";
               oc_Buffered := sort_stable less' (oc_Buffered st ++ page_Items page) |}
       end.

Definition originChunkLimit (origins : nat) (pageLimit : Z) : Z :=
  if (origins <=? 1)%nat then pageLimit
  else
    let chunk := if (MaxOriginChunkSize <? DefaultOriginChunkSize)%Z then MaxOriginChunkSize
                 else DefaultOriginChunkSize in
    if (pageLimit <? chunk)%Z then pageLimit else chunk.

(** ** Batches *)

Definition buffered_count (st : OriginCursor T) : Z := Z.of_nat (length (oc_Buffered st)).

Definition origin_job (request : CollectionRequest) (os : list (OriginCursor T)) (fetch : bool)
    (known : gmap string bool) (st : OriginCursor T) : M T W originOutcome :=
  outcome ← authorizeOrigin request (oc_Origin st);
  let outcome := {| out_page := out_page outcome; out_capability := out_capability outcome;
                    out_err := out_err outcome; out_queried := out_queried outcome;
                    out_authoritative := oc_Exhausted st || (0 <? buffered_count st)%Z |} in
  if bool_decide (known !! oc_Key st = Some false) then mret outcome
  else if fetch && outcome_allowed outcome
  then fetchOrigin request st (originChunkLimit (length os) (Limit (Options request)))
         (out_capability outcome)
  else mret outcome.

Fixpoint run_jobs (request : CollectionRequest) (os : list (OriginCursor T)) (fetch : bool)
    (known : gmap string bool) (indices : list nat) : M T W (list (nat * originOutcome)) :=
  match indices with
  | [] => mret []
  | index :: rest =>
    match os !! index with
    | None => run_jobs request os fetch known rest   (* never: indices are in range *)
    | Some st =>
      outcome ← origin_job request os fetch known st;
      others ← run_jobs request os fetch known rest;
      mret ((index, outcome) :: others)
    end
  end.

Definition runOriginWorkers (request : CollectionRequest) (os : list (OriginCursor T))
    (indices : list nat) (fetch : bool) (known : gmap string bool)
    : M T W (list (nat * originOutcome)) :=
  jobs ← dispatched indices;
  run_jobs request os fetch known jobs.

Definition authorizeBatch (request : CollectionRequest) (os : list (OriginCursor T))
    (indices : list nat) : M T W (list originOutcome) :=
  indexed ← runOriginWorkers request os indices false ∅;
  mret (snd <$> indexed).

Definition fetchBatch (request : CollectionRequest) (os : list (OriginCursor T))
    (indices : list nat) (known : gmap string bool) : M T W (list (nat * originOutcome)) :=
  runOriginWorkers request os indices true known.

(** Apply the fetched pages of a batch in order. *)
Fixpoint apply_batch (less : option (T → T → bool)) (os : list (OriginCursor T))
    (batch : list (nat * originOutcome)) : result error (list (OriginCursor T)) :=
  match batch with
  | [] => Ok os
  | (index, o) :: rest =>
    match out_err o with
    | None =>
      if out_queried o then
        match os !! index with
        | None => apply_batch less os rest   (* never *)
        | Some st =>
          match applyOriginPage st (out_page o) less with
          | Err e => Err e
          | Ok st' => apply_batch less (<[index := st']> os) rest
          end
        end
      else apply_batch less os rest
    | Some _ => apply_batch less os rest
    end
  end.

Definition authorizedBufferedCount (os : list (OriginCursor T)) (allowed : gmap string bool) : Z :=
  sum_Z ((λ st, if default false (allowed !! oc_Key st) then buffered_count st else 0%Z) <$> os).

Definition cursorSourcesExhausted (os : list (OriginCursor T)) : bool := forallb oc_Exhausted os.

(** ** Strategies *)

Inductive step A := Done (a : A) | Failed (e : error) | OutOfFuel.
Arguments Done {A}. Arguments Failed {A}. Arguments OutOfFuel {A}.

(** The outcomes of the window and the cursor's origins after it. *)
Definition window : Type := list originOutcome * list (OriginCursor T).

Definition GlobalNative_Next (request : CollectionRequest) (os : list (OriginCursor T))
    : M T W (step window) :=
  match os with
  | [st] =>
    outcome ← authorizeOrigin request (oc_Origin st);
    if negb (outcome_allowed outcome) || oc_Exhausted st
       || (Limit (Options request) <=? buffered_count st)%Z
    then mret (Done ([{| out_page := out_page outcome; out_capability := out_capability outcome;
                         out_err := out_err outcome; out_queried := out_queried outcome;
                         out_authoritative := oc_Exhausted st || (0 <? buffered_count st)%Z |}], os))
    else
      fetched ← fetchOrigin request st (Limit (Options request)) (out_capability outcome);
      match out_err fetched with
      | Some _ => mret (Done ([outcome; fetched], os))
      | None =>
        match applyOriginPage st (out_page fetched) (Less request) with
        | Err e => mret (Failed e)
        | Ok st' => mret (Done ([outcome; fetched], [st']))
        end
      end
  | _ => mret (Failed (validationError "global pagination requires exactly one origin"))
  end.

(** The inner loop of [NamespaceSequential.Next]: fill from one authorized origin. *)
Fixpoint sequential_fill (fuel : nat) (request : CollectionRequest) (origins : nat)
    (capability : Capability) (st : OriginCursor T) (available : Z) (outs : list originOutcome)
    : M T W (step (OriginCursor T * Z * list originOutcome)) :=
  if (available <? Limit (Options request))%Z && negb (oc_Exhausted st) then
    match fuel with
    | O => mret OutOfFuel
    | S fuel' =>
      fetched ← fetchOrigin request st (originChunkLimit origins (Limit (Options request))) capability;
      match out_err fetched with
      | Some _ => mret (Done (st, available, outs ++ [fetched]))
      | None =>
        match applyOriginPage st (out_page fetched) (Less request) with
        | Err e => mret (Failed e)
        | Ok st' =>
          sequential_fill fuel' request origins capability st'
            (available + (buffered_count st' - buffered_count st))%Z (outs ++ [fetched])
        end
      end
    end
  else mret (Done (st, available, outs)).

(** The indices prefetched together from [index] on: untouched origins up to the
    first one with a buffer or a token. *)
Fixpoint window_indices (index room : nat) (l : list (OriginCursor T)) : list nat :=
  match l, room with
  | [], _ | _, O => []
  | st :: rest, S room' =>
    if (0 <? buffered_count st)%Z || negb (String.eqb (oc_Continue st) "") then []
    else if oc_Exhausted st then window_indices (S index) room rest
    else index :: window_indices (S index) room' rest
  end.

(** The prefetch step for the origin at [index]. *)
Definition sequential_prefetch (request : CollectionRequest) (index : nat) (st : OriginCursor T)
    (os : list (OriginCursor T)) (prefetched : gmap nat originOutcome)
    : M T W (list (nat * originOutcome)) :=
  if (0 <? index)%nat && (buffered_count st =? 0)%Z && String.eqb (oc_Continue st) ""
     && bool_decide (prefetched !! index = None)
  then fetchBatch request os
         (window_indices index (Z.to_nat (NormalizeFanout (Fanout request))) (drop index os)) ∅
  else mret [].

Definition add_prefetched (batch : list (nat * originOutcome)) (m : gmap nat originOutcome)
    : gmap nat originOutcome := foldl (λ m p, <[p.1 := p.2]> m) m batch.

Fixpoint sequential_loop (fuel : nat) (request : CollectionRequest) (indices : list nat)
    (os : list (OriginCursor T)) (available : Z) (prefetched : gmap nat originOutcome)
    (outs : list originOutcome) : M T W (step window) :=
  match indices with
  | [] => mret (Done (outs, os))
  | index :: rest =>
    cancelled ← ctx_err;
    match cancelled with
    | Some e => mret (Failed e)
    | None =>
      match os !! index with
      | None => mret (Done (outs, os))   (* never *)
      | Some st0 =>
        if oc_Exhausted st0 && (buffered_count st0 =? 0)%Z
        then sequential_loop fuel request rest os available prefetched outs
        else
          batch ← sequential_prefetch request index st0 os prefetched;
          match apply_batch (Less request) os batch with
          | Err e => mret (Failed e)
          | Ok os =>
            let prefetched := add_prefetched batch prefetched in
            let outs := outs ++ (snd <$> batch) in
            let st := default st0 (os !! index) in
            authorized ← (match prefetched !! index with
                          | Some o => mret o
                          | None =>
                            o ← authorizeOrigin request (oc_Origin st);
                            mret {| out_page := out_page o; out_capability := out_capability o;
                                    out_err := out_err o; out_queried := out_queried o;
                                    out_authoritative := oc_Exhausted st || (0 <? buffered_count st)%Z |}
                          end);
            let was := bool_decide (is_Some (prefetched !! index)) in
            let outs := if was then outs else outs ++ [authorized] in
            if negb (outcome_allowed authorized) || was && bool_decide (is_Some (out_err authorized))
            then sequential_loop fuel request rest os available prefetched outs
            else
              filled ← sequential_fill fuel request (length os) (out_capability authorized) st
                         (available + buffered_count st)%Z outs;
              match filled with
              | Failed e => mret (Failed e)
              | OutOfFuel => mret OutOfFuel
              | Done (st', available, outs) =>
                let os := <[index := st']> os in
                if (Limit (Options request) <=? available)%Z then mret (Done (outs, os))
                else sequential_loop fuel request rest os available prefetched outs
              end
          end
      end
    end
  end.

Definition NamespaceSequential_Next (fuel : nat) (request : CollectionRequest)
    (os : list (OriginCursor T)) : M T W (step window) :=
  sequential_loop fuel request (seq 0 (length os)) os 0 ∅ [].

(** *** LazyMerge *)

(** The indices still to read whose buffer is empty ([preferEmpty]) or not. *)
Definition lazy_indices (preferEmpty : bool) (os : list (OriginCursor T)) : list nat :=
  (filter (λ p : nat * OriginCursor T,
     oc_Exhausted p.2 = false ∧ bool_decide (oc_Buffered p.2 = []) = preferEmpty)
     (zip (seq 0 (length os)) os)).*1.

(** Slices of at most [k] elements. *)
Fixpoint chunks_of {A} (fuel k : nat) (l : list A) : list (list A) :=
  match fuel, l with
  | S fuel', _ :: _ => take k l :: chunks_of fuel' k (drop k l)
  | _, _ => []
  end.

Definition note_allowed (batch : list originOutcome) (m : gmap string bool) : gmap string bool :=
  foldl (λ m o, <[outcome_key o := outcome_allowed o]> m) m batch.

Record lazy_state := {
  lz_outs : list originOutcome; lz_origins : list (OriginCursor T);
  lz_allowed : gmap string bool; lz_progress : bool }.

Definition page_ready (request : CollectionRequest) (z : lazy_state) : bool :=
  (Limit (Options request) <=? authorizedBufferedCount (lz_origins z) (lz_allowed z))%Z.

(** One pass over slices of origins; the boolean says that the page is full. *)
Fixpoint lazy_slices (request : CollectionRequest) (slices : list (list nat)) (z : lazy_state)
    : M T W (step (bool * lazy_state)) :=
  match slices with
  | [] => mret (Done (false, z))
  | slice :: rest =>
    cancelled ← ctx_err;
    match cancelled with
    | Some e => mret (Failed e)
    | None =>
      batch ← fetchBatch request (lz_origins z) slice (lz_allowed z);
      match apply_batch (Less request) (lz_origins z) batch with
      | Err e => mret (Failed e)
      | Ok os =>
        let z := {| lz_outs := lz_outs z ++ (snd <$> batch); lz_origins := os;
                    lz_allowed := note_allowed (snd <$> batch) (lz_allowed z);
                    lz_progress := lz_progress z || existsb (λ o, bool_decide (out_err o = None)
                                                                 && out_queried o) (snd <$> batch) |} in
        if page_ready request z then mret (Done (true, z)) else lazy_slices request rest z
      end
    end
  end.

Definition lazy_pass (request : CollectionRequest) (preferEmpty : bool) (z : lazy_state)
    : M T W (step (bool * lazy_state)) :=
  let indices := lazy_indices preferEmpty (lz_origins z) in
  lazy_slices request
    (chunks_of (length indices) (Z.to_nat (NormalizeFanout (Fanout request))) indices) z.

Fixpoint lazy_rounds (fuel : nat) (request : CollectionRequest) (z : lazy_state)
    : M T W (step window) :=
  match fuel with
  | O => mret OutOfFuel
  | S fuel' =>
    let z := {| lz_outs := lz_outs z; lz_origins := lz_origins z; lz_allowed := lz_allowed z;
                lz_progress := false |} in
    first ← lazy_pass request true z;
    match first with
    | Failed e => mret (Failed e)
    | OutOfFuel => mret OutOfFuel
    | Done (true, z) => mret (Done (lz_outs z, lz_origins z))
    | Done (false, z) =>
      second ← lazy_pass request false z;
      match second with
      | Failed e => mret (Failed e)
      | OutOfFuel => mret OutOfFuel
      | Done (true, z) => mret (Done (lz_outs z, lz_origins z))
      | Done (false, z) =>
        if negb (lz_progress z) || cursorSourcesExhausted (lz_origins z)
        then mret (Done (lz_outs z, lz_origins z))
        else lazy_rounds fuel' request z
      end
    end
  end.

Definition buffered_indices (os : list (OriginCursor T)) : list nat :=
  (filter (λ p : nat * OriginCursor T, oc_Buffered p.2 ≠ []) (zip (seq 0 (length os)) os)).*1.

Definition LazyMerge_Next (fuel : nat) (request : CollectionRequest) (os : list (OriginCursor T))
    : M T W (step window) :=
  outs ← authorizeBatch request os (buffered_indices os);
  let z := {| lz_outs := outs; lz_origins := os; lz_allowed := note_allowed outs ∅;
              lz_progress := false |} in
  if page_ready request z then mret (Done (outs, os)) else lazy_rounds fuel request z.

(** *** Selection *)

Definition singleGVR (origins : list Origin) : bool :=
  match origins with
  | [] => false
  | first :: rest =>
    forallb (λ o, String.eqb (org_APIGroup o) (org_APIGroup first)
                  && String.eqb (org_Version o) (org_Version first)
                  && String.eqb (org_Resource o) (org_Resource first)) rest
  end.

Definition globalOrigins (origins : list Origin) : bool :=
  match origins with
  | [] => false
  | _ => forallb (λ o, String.eqb (org_Namespace o) "") origins
  end.

Inductive strategy := GlobalNative | NamespaceSequential | LazyMerge | NamespacePriority.

Definition selectPaginationStrategy (request : CollectionRequest) (origins : list Origin) : strategy :=
  if negb (String.eqb (PreferredNamespace request) "") && negb (globalOrigins origins)
  then NamespacePriority
  else if globalOrigins origins then GlobalNative
  else if NativeIdentityOrder request && String.eqb (opt_Sort (Options request)) "identity"
          && String.eqb (opt_Order (Options request)) "asc" && singleGVR origins
  then NamespaceSequential
  else LazyMerge.

(** The request of one phase of [NamespacePriority]. *)
Definition phase_request (request : CollectionRequest) (available : Z) : CollectionRequest := {|
  sel_Generation := sel_Generation request; sel_Context := sel_Context request;
  sel_Scope := sel_Scope request;
  Options := {| Limit := Limit (Options request) - available; opt_Sort := opt_Sort (Options request);
                opt_Order := opt_Order (Options request);
                LabelSelector := LabelSelector (Options request);
                FieldSelector := FieldSelector (Options request) |};
  Origins := Origins request; req_Cursor := req_Cursor request; hasLister := hasLister request;
  hasAuthorizer := hasAuthorizer request; Less := Less request;
  RequestedNamespaces := RequestedNamespaces request; Fanout := Fanout request;
  Retry := Retry request; PreferredNamespace := "";
  NativeIdentityOrder := NativeIdentityOrder request;
  GlobalGrantFastPath := GlobalGrantFastPath request;
  ReadThroughUnknown := ReadThroughUnknown request; globalListGrant := globalListGrant request |}.

(** A strategy other than [NamespacePriority], which a phase (having no preferred
    namespace) never selects. *)
Definition basic_Next (fuel : nat) (request : CollectionRequest) (os : list (OriginCursor T))
    : M T W (step window) :=
  match selectPaginationStrategy request (oc_Origin <$> os) with
  | GlobalNative => GlobalNative_Next request os
  | NamespaceSequential => NamespaceSequential_Next fuel request os
  | LazyMerge | NamespacePriority => LazyMerge_Next fuel request os
  end.

Definition phase_indices (request : CollectionRequest) (preferred : bool)
    (os : list (OriginCursor T)) : list nat :=
  (filter (λ p : nat * OriginCursor T,
     bool_decide (org_Namespace (oc_Origin p.2) = PreferredNamespace request) = preferred)
     (zip (seq 0 (length os)) os)).*1.

Definition select_origins (os : list (OriginCursor T)) (indices : list nat) : list (OriginCursor T) :=
  omap (λ i, os !! i) indices.

(** Write the phase's origins back to their places. *)
Definition write_back (os : list (OriginCursor T)) (indices : list nat)
    (next : list (OriginCursor T)) : list (OriginCursor T) :=
  foldl (λ os p, <[p.1 := p.2]> os) os (zip indices next).

(** The phases [preferred = true], then [false]. *)
Fixpoint priority_phases (fuel : nat) (request : CollectionRequest) (phases : list bool)
    (os : list (OriginCursor T)) (available : Z) (outs : list originOutcome) : M T W (step window) :=
  match phases with
  | [] => mret (Done (outs, os))
  | preferred :: rest =>
    let indices := phase_indices request preferred os in
    match indices with
    | [] => priority_phases fuel request rest os available outs
    | _ =>
      page ← basic_Next fuel (phase_request request available) (select_origins os indices);
      match page with
      | Failed e => mret (Failed e)
      | OutOfFuel => mret OutOfFuel
      | Done (phase_outs, next) =>
        let outs := outs ++ phase_outs in
        let os := write_back os indices next in
        let available :=
          (available + authorizedBufferedCount next (note_allowed phase_outs ∅))%Z in
        if preferred && bool_decide (req_Cursor request = None) && (0 <? available)%Z
        then mret (Done (outs, os))
        else if (Limit (Options request) <=? available)%Z then mret (Done (outs, os))
        else priority_phases fuel request rest os available outs
      end
    end
  end.

Definition strategy_Next (fuel : nat) (request : CollectionRequest) (origins : list Origin)
    (os : list (OriginCursor T)) : M T W (step window) :=
  match selectPaginationStrategy request origins with
  | NamespacePriority => priority_phases fuel request [true; false] os 0 []
  | GlobalNative => GlobalNative_Next request os
  | NamespaceSequential => NamespaceSequential_Next fuel request os
  | LazyMerge => LazyMerge_Next fuel request os
  end.
End pagination.
Arguments CollectionRequest : clear implicits.
Arguments originOutcome : clear implicits.
Arguments window : clear implicits.
Arguments Done {A}. Arguments Failed {A}. Arguments OutOfFuel {A}.
