(* ===== verification/PaginationSafety.v ===== *)
(** * PaginationSafety: no read without authorization

    A small program logic over the call log ([runs]) and, with it, the proof that
    every strategy of Pagination.v sends a LIST only for an origin whose review in
    this very request did not refuse it, and reports an origin as allowed only with
    evidence from this request. *)
From Stdlib Require Import Ascii String ZArith Lia.
From stdpp Require Import base gmap strings list.
From S2P Require Import Prelude Json Topics Cursor Ports Retry Pagination.

Section safety.
Context {T W : Type} `{Ports T W} `{ApiErrors} `{!ListerOk}.
Implicit Types (request : CollectionRequest T) (lg : list (call T)) (o : Origin).
(** The keys of the origins that may be listed. *)
Context (scope : list string).

(** ** Evidence *)

Definition allowed_by (c : Capability) : Prop := is_decision DecisionAllowed c = true.
Definition unknown_by (c : Capability) : Prop := is_decision DecisionUnknown c = true.

Definition global_granted request : Prop :=
  ∃ g, globalListGrant request = Some g ∧ allowed_by g.

(** A LIST for [o] may be sent: it is in scope and reviewed as allowed, or (only where
    enabled) inconclusively reviewed, so that the LIST itself decides. *)
Definition may_list request lg o : Prop :=
  Origin_Key o ∈ scope
  ∧ (global_granted request
     ∨ ∃ c, CalledCheck (origin_key request o) c ∈ lg
            ∧ (allowed_by c ∨ unknown_by c ∧ ReadThroughUnknown request = true)).

(** Rows of [o] may be shown: reviewed as allowed, or an inconclusive review followed
    by a LIST of [o] that succeeded. *)
Definition granted request lg o : Prop :=
  global_granted request
  ∨ ∃ c, CalledCheck (origin_key request o) c ∈ lg
         ∧ (allowed_by c
            ∨ unknown_by c ∧ ReadThroughUnknown request = true
              ∧ ∃ r page, pr_Origin r = o ∧ CalledList r (page, None) ∈ lg).

Definition log_ok request lg : Prop :=
  ∀ i r e, lg !! i = Some (CalledList r e) → may_list request (take i lg) (pr_Origin r).

Definition outcome_ok request lg (out : originOutcome T) : Prop :=
  outcome_allowed out = true → granted request lg (page_Origin (out_page out)).

(** Where a buffered row comes from: the cursor the request started with, or a LIST
    of that origin in this request. *)
Definition row_from (os0 : list (OriginCursor T)) lg o (x : T) : Prop :=
  (∃ st0, st0 ∈ os0 ∧ oc_Origin st0 = o ∧ x ∈ oc_Buffered st0)
  ∨ ∃ r page, CalledList r (page, None) ∈ lg ∧ pr_Origin r = o ∧ x ∈ page_Items page.

Definition rows_ok (os0 : list (OriginCursor T)) lg (st : OriginCursor T) : Prop :=
  ∀ x, x ∈ oc_Buffered st → row_from os0 lg (oc_Origin st) x.

(** The rows of a successful outcome were listed for its origin. *)
Definition page_logged lg (out : originOutcome T) : Prop :=
  out_err out = None → out_queried out = true →
  ∃ r page, CalledList r (page, None) ∈ lg ∧ pr_Origin r = page_Origin (out_page out)
    ∧ page_Items page = page_Items (out_page out).

Lemma row_from_mono os0 lg lg' o x : lg `prefix_of` lg' → row_from os0 lg o x → row_from os0 lg' o x.
Proof.
  intros [k ->] [?|(r & page & Hl & ? & ?)]; [by left|]. right. exists r, page.
  split_and!; [apply elem_of_app; by left|done..].
Qed.

Lemma rows_mono os0 lg lg' os :
  lg `prefix_of` lg' → Forall (rows_ok os0 lg) os → Forall (rows_ok os0 lg') os.
Proof.
  intros Hp Hall. eapply Forall_impl; [exact Hall|]. intros st Hst x Hx.
  eapply row_from_mono; [done|by apply Hst].
Qed.

Lemma page_logged_mono lg lg' out : lg `prefix_of` lg' → page_logged lg out → page_logged lg' out.
Proof.
  intros [k ->] Hl He Hq. destruct (Hl He Hq) as (r & page & Hin & ? & ?). exists r, page.
  split_and!; [apply elem_of_app; by left|done..].
Qed.

Lemma granted_may_list request lg o : Origin_Key o ∈ scope → granted request lg o → may_list request lg o.
Proof. intros Ho [Hg|(c & Hc & [Ha|(Hu & Hr & _)])]; (split; [done|]); [by left|right; eauto..]. Qed.

Lemma may_list_mono request lg lg' o : lg `prefix_of` lg' → may_list request lg o → may_list request lg' o.
Proof.
  intros [k ->] [Ho [Hg|(c & Hc & Hd)]]; (split; [done|]); [by left|]. right. exists c. split; [|done].
  apply elem_of_app. by left.
Qed.

Lemma granted_mono request lg lg' o : lg `prefix_of` lg' → granted request lg o → granted request lg' o.
Proof.
  intros [k ->] [Hg|(c & Hc & Hd)]; [by left|]. right. exists c.
  split; [apply elem_of_app; by left|]. destruct Hd as [?|(? & ? & r & page & ? & ?)]; [by left|].
  right. split_and!; [done..|]. exists r, page. split; [done|]. apply elem_of_app. by left.
Qed.

Lemma outcomes_mono request lg lg' outs :
  lg `prefix_of` lg' → Forall (outcome_ok request lg) outs → Forall (outcome_ok request lg') outs.
Proof.
  intros Hp Hall. eapply Forall_impl; [exact Hall|]. intros out Ho Ha. eapply granted_mono; [done|by apply Ho].
Qed.

Lemma log_ok_app request lg added :
  log_ok request lg →
  Forall (λ c, match c with CalledList r _ => may_list request lg (pr_Origin r) | _ => True end) added →
  log_ok request (lg ++ added).
Proof.
  intros Hlg Hadd i r e Hi. destruct (decide (i < length lg)).
  - rewrite lookup_app_l in Hi by done. rewrite take_app_le by lia. by eapply Hlg.
  - rewrite lookup_app_r in Hi by lia. rewrite Forall_lookup in Hadd.
    apply may_list_mono with lg; [|by apply (Hadd _ _ Hi)].
    rewrite take_app_ge by lia. by eexists.
Qed.

(** ** The logic *)

(** Run with log [lg], [m] extends it to a log that is still authorized and
    satisfies [Q] with the answer. *)
Definition runs {A} request lg (m : M T W A) (Q : A → list (call T) → Prop) : Prop :=
  ∀ s, log s = lg → log_ok request lg →
    ∃ added, log (m s).2 = lg ++ added ∧ log_ok request (lg ++ added) ∧ Q (m s).1 (lg ++ added).

Lemma runs_ret {A} request lg (a : A) (Q : A → list (call T) → Prop) :
  Q a lg → runs request lg (mret a) Q.
Proof. intros HQ s <- Hlg. exists []. by rewrite app_nil_r. Qed.

Lemma runs_bind {A B} request lg (m : M T W A) (f : A → M T W B) R Q :
  runs request lg m R →
  (∀ a lg', lg `prefix_of` lg' → R a lg' → runs request lg' (f a) Q) →
  runs request lg (m ≫= f) Q.
Proof.
  intros Hm Hf s Hs Hlg. destruct (Hm s Hs Hlg) as (l1 & Hl1 & Hok1 & HR).
  unfold mbind, M_bind. destruct (m s) as [a s']. cbn [fst snd] in *.
  destruct (Hf a (lg ++ l1) (prefix_app_r _ _ _ (reflexivity _)) HR s' Hl1 Hok1) as (l2 & Hl2 & Hok2 & HQ).
  exists (l1 ++ l2). by rewrite !app_assoc.
Qed.

Lemma runs_weaken {A} request lg (m : M T W A) (Q Q' : A → list (call T) → Prop) :
  (∀ a lg', lg `prefix_of` lg' → Q a lg' → Q' a lg') → runs request lg m Q → runs request lg m Q'.
Proof.
  intros HQ Hm s Hs Hlg. destruct (Hm s Hs Hlg) as (l & Hl & Hok & Ha). exists l.
  split_and!; [done..|]. apply HQ; [by eexists|done].
Qed.

Lemma runs_silent {A} request lg (m : M T W A) :
  (∀ s, log (m s).2 = log s) → runs request lg m (λ _ _, True).
Proof. intros Hm s <- Hlg. exists []. rewrite app_nil_r. by rewrite Hm. Qed.

Lemma runs_Check request lg k :
  runs request lg (Check k) (λ c lg', CalledCheck k c ∈ lg').
Proof.
  intros s <- Hlg. unfold Check. destruct (port_Check k (world s)) as [c w]. cbn [fst snd with_world log].
  exists [CalledCheck k c]. split_and!; [done|apply log_ok_app; [done|by repeat constructor]|set_solver].
Qed.

Lemma runs_retry request lg policy r :
  may_list request lg (pr_Origin r) →
  runs request lg (retryListPage policy r)
    (λ a lg', page_origin_ok r a.1 ∧ (a.2 = None → CalledList r a ∈ lg')).
Proof.
  intros Hmay s <- Hlg. destruct (retryListPage_spec policy r s) as (added & Hl & Hok & _ & Hsucc & Horig).
  exists added. split_and!; [done| |by apply Horig|].
  - apply log_ok_app; [done|]. eapply Forall_impl; [exact Hok|]. intros [|r' e|]; simpl; [done|by intros ->|done].
  - intros Hn. destruct (Hsucc Hn) as [l' ->]. set_solver.
Qed.

(** ** Origins *)

Definition answers request o (out : originOutcome T) lg : Prop :=
  outcome_ok request lg out ∧ page_Origin (out_page out) = o ∧ page_logged lg out.

Lemma answers_mono request o out lg lg' :
  lg `prefix_of` lg' → answers request o out lg → answers request o out lg'.
Proof.
  intros Hp (Hok & Ho & Hl). split_and!; [|done|by eapply page_logged_mono].
  intros Ha. eapply granted_mono; [done|by apply Hok].
Qed.

Lemma runs_authorize request lg o :
  Origin_Key o ∈ scope →
  runs request lg (authorizeOrigin request o)
    (λ out lg', answers request o out lg' ∧ out_queried out = false).
Proof.
  intros Hscope. unfold authorizeOrigin. destruct (globalListGrant request) as [g|] eqn:Hg.
  { apply runs_ret. unfold answers. split_and!; try done. intros Ha. left. by exists g. }
  eapply runs_bind; [apply runs_Check|]. intros c lg1 _ Hc. cbn beta in Hc. unfold answers.
  destruct (is_decision DecisionUnknown c) eqn:Hu; cbn [negb orb].
  2: { apply runs_ret. split_and!; try done. intros Ha. right. exists c. split; [done|by left]. }
  destruct (ReadThroughUnknown request) eqn:Hr; cbn [negb].
  2: { apply runs_ret. split_and!; try done. intros Ha. right. exists c. split; [done|by left]. }
  eapply runs_bind; [apply runs_retry; split; [done|]; right; exists c; cbn [pr_Origin]; eauto|].
  intros [page err] lg2 Hpre [Ho Hsucc]. cbn [fst snd] in *.
  destruct err as [err|]; [case_bool_decide|].
  - by apply runs_ret.
  - apply runs_ret. split_and!; try done. intros Ha. unfold outcome_allowed in Ha. simpl in Ha.
    unfold is_decision in *. apply String.eqb_eq in Hu, Ha. rewrite Hu in Ha. done.
  - apply runs_ret. split_and!; try done. intros _. right. exists c.
    split; [destruct Hpre as [k ->]; apply elem_of_app; by left|]. right. split_and!; [done..|].
    eexists _, page. split; [|by apply Hsucc]. done.
Qed.

Lemma runs_fetch request lg st limit capability :
  Origin_Key (oc_Origin st) ∈ scope → granted request lg (oc_Origin st) →
  runs request lg (fetchOrigin request st limit capability)
    (λ out lg', answers request (oc_Origin st) out lg' ∧ out_queried out = true).
Proof.
  intros Hscope Hg. unfold fetchOrigin.
  eapply runs_bind; [apply runs_retry; by apply granted_may_list|].
  intros [page err] lg' Hpre [Ho Hlog]. cbn [fst snd] in *. apply runs_ret.
  set (page' := if String.eqb _ _ then _ else _).
  assert (page_Origin page' = oc_Origin st) as Heq.
  { subst page'. destruct (String.eqb_spec (Origin_Key (page_Origin page)) "///"); [done|].
    destruct Ho as [Ho|Ho]; [exact Ho|congruence]. }
  assert (page_Items page' = page_Items page) as Hitems by (subst page'; by destruct (String.eqb _ _)).
  split; [|done]. split_and!; [|done|].
  - intros _. cbn [out_page]. rewrite Heq. by eapply granted_mono.
  - intros He _. cbn [out_err out_page] in *. subst err. eexists _, page.
    split_and!; [by apply Hlog|by rewrite Heq|done].
Qed.

(** ** Batches *)

Definition origins_of (os : list (OriginCursor T)) : list Origin := oc_Origin <$> os.

Definition in_scope (os : list (OriginCursor T)) : Prop := Forall (λ o, Origin_Key o ∈ scope) (origins_of os).
Lemma in_scope_origins os os' : origins_of os' = origins_of os → in_scope os → in_scope os'.
Proof. unfold in_scope. by intros ->. Qed.
Lemma in_scope_elem os o : in_scope os → o ∈ origins_of os → Origin_Key o ∈ scope.
Proof. unfold in_scope. rewrite Forall_forall. auto. Qed.

(** An outcome with evidence, about an origin of the cursor. *)
Definition outcome_for request lg (os : list (OriginCursor T)) (out : originOutcome T) : Prop :=
  outcome_ok request lg out ∧ page_Origin (out_page out) ∈ origins_of os.

Lemma outcomes_for_mono request lg lg' os outs :
  lg `prefix_of` lg' → Forall (outcome_for request lg os) outs → Forall (outcome_for request lg' os) outs.
Proof.
  intros Hp Hall. eapply Forall_impl; [exact Hall|]. intros out [Ho Hin]. split; [|done].
  intros Ha. eapply granted_mono; [done|by apply Ho].
Qed.

Lemma runs_job request lg os fetch known st :
  Origin_Key (oc_Origin st) ∈ scope →
  runs request lg (origin_job request os fetch known st) (answers request (oc_Origin st)).
Proof.
  intros Hscope. unfold origin_job. eapply runs_bind; [by apply runs_authorize|].
  intros out lg' _ [[Hok [Ho Hl]] Hq]. case_bool_decide; [by apply runs_ret|].
  set (out' := {| out_page := _ |}). destruct (fetch && outcome_allowed out') eqn:Hf; [|by apply runs_ret].
  apply andb_true_iff in Hf as [_ Ha].
  eapply runs_weaken; [|apply runs_fetch; [done|]; rewrite <- Ho; by apply Hok]. by intros ? ? _ [? _].
Qed.

Lemma lookup_origin os index st : os !! index = Some st → oc_Origin st ∈ origins_of os.
Proof. intros Hst. apply list_elem_of_fmap. exists st. split; [done|]. by eapply list_elem_of_lookup_2. Qed.

(** An indexed outcome with evidence, about the origin at its index. *)
Definition indexed_for request lg (origins : list Origin) (i : nat) (out : originOutcome T) : Prop :=
  ∃ o, origins !! i = Some o ∧ answers request o out lg.

Lemma indexed_for_mono request lg lg' origins i out :
  lg `prefix_of` lg' → indexed_for request lg origins i out → indexed_for request lg' origins i out.
Proof. intros Hp (o & Ho & Ha). exists o. split; [done|by eapply answers_mono]. Qed.

Lemma runs_jobs request lg os fetch known indices :
  in_scope os →
  runs request lg (run_jobs request os fetch known indices)
    (λ batch lg', Forall (λ p, indexed_for request lg' (origins_of os) p.1 p.2) batch).
Proof.
  intros Hscope. revert lg. induction indices as [|index rest IH]; intros lg; cbn [run_jobs].
  { apply runs_ret. constructor. }
  destruct (os !! index) as [st|] eqn:Hst; [|apply IH].
  eapply runs_bind; [apply runs_job; eapply in_scope_elem; [done|by eapply lookup_origin]|]. intros out lg1 _ Ha.
  eapply runs_bind; [apply IH|]. intros others lg2 Hpre Hothers. apply runs_ret.
  constructor; [|done]. exists (oc_Origin st). split; [|by eapply answers_mono].
  cbn [fst]. unfold origins_of. by rewrite list_lookup_fmap, Hst.
Qed.

Lemma runs_workers request lg os indices fetch known :
  in_scope os →
  runs request lg (runOriginWorkers request os indices fetch known)
    (λ batch lg', Forall (λ p, indexed_for request lg' (origins_of os) p.1 p.2) batch).
Proof.
  intros Hscope. unfold runOriginWorkers. eapply runs_bind; [by apply runs_silent|]. intros jobs lg' _ _. by apply runs_jobs.
Qed.

Lemma snd_outcomes request lg os (batch : list (nat * originOutcome T)) :
  Forall (λ p, indexed_for request lg (origins_of os) p.1 p.2) batch →
  Forall (outcome_for request lg os) (snd <$> batch).
Proof.
  intros Hall. apply Forall_fmap. eapply Forall_impl; [exact Hall|].
  intros [i out] (o & Hi & Hok & Ho & _). split; [done|]. cbn [snd]. simpl in Ho. rewrite Ho.
  by eapply list_elem_of_lookup_2.
Qed.

Lemma runs_authorizeBatch request lg os indices :
  in_scope os →
  runs request lg (authorizeBatch request os indices)
    (λ outs lg', Forall (outcome_for request lg' os) outs).
Proof.
  intros Hscope. unfold authorizeBatch. eapply runs_bind; [by apply runs_workers|]. intros batch lg' _ Hb.
  apply runs_ret. by apply snd_outcomes.
Qed.

(** ** Applying pages keeps the origins and the provenance of rows *)

Lemma applyOriginPage_origin st page less st' :
  applyOriginPage (T := T) st page less = Ok st' → oc_Origin st' = oc_Origin st.
Proof.
  unfold applyOriginPage. destruct (negb _); [done|]. destruct (_ && _); [done|].
  destruct less; [|done]. by intros [= <-].
Qed.

Lemma applyOriginPage_rows request os0 lg st out less st' :
  applyOriginPage st (out_page out) less = Ok st' → answers request (oc_Origin st) out lg →
  out_err out = None → out_queried out = true → rows_ok os0 lg st → rows_ok os0 lg st'.
Proof.
  unfold applyOriginPage. destruct (negb _); [done|]. destruct (_ && _); [done|].
  destruct less as [less|]; [|done]. intros [= <-] (_ & Ho & Hl) He Hq Hst x.
  cbn [oc_Buffered oc_Origin]. rewrite sort_stable_perm. intros [Hx|Hx]%elem_of_app; [by apply Hst|].
  destruct (Hl He Hq) as (r & page & Hin & Hr & Hitems). right. exists r, page.
  split_and!; [done|congruence|by rewrite Hitems].
Qed.

Lemma origins_insert os index st st' :
  os !! index = Some st → oc_Origin st' = oc_Origin st →
  origins_of (<[index := st']> os) = origins_of os.
Proof.
  intros Hst Ho. unfold origins_of. rewrite list_fmap_insert, Ho. apply list_insert_id.
  by rewrite list_lookup_fmap, Hst.
Qed.

Lemma apply_batch_ok request os0 lg less os batch os' :
  apply_batch (T := T) less os batch = Ok os' →
  Forall (λ p, indexed_for request lg (origins_of os) p.1 p.2) batch →
  Forall (rows_ok os0 lg) os →
  origins_of os' = origins_of os ∧ Forall (rows_ok os0 lg) os'.
Proof.
  revert os. induction batch as [|[index out] batch IH]; intros os; cbn [apply_batch].
  { by intros [= <-]. }
  intros Hap [(o & Hi & Ha) Hb]%Forall_cons Hrows. cbn [fst snd] in *.
  destruct (out_err out) eqn:He; [by apply IH|]. destruct (out_queried out) eqn:Hq; [|by apply IH].
  destruct (os !! index) as [st|] eqn:Hst; [|by apply IH].
  destruct (applyOriginPage st (out_page out) less) as [st'|] eqn:Hpage; [|done].
  unfold origins_of in Hi. rewrite list_lookup_fmap, Hst in Hi. injection Hi as <-.
  pose proof (applyOriginPage_origin _ _ _ _ Hpage) as Ho.
  pose proof (origins_insert os index st st' Hst Ho) as Hins.
  destruct (IH _ Hap) as [H1' H2'].
  - by rewrite Hins.
  - apply Forall_insert; [done|]. eapply applyOriginPage_rows; try done.
    rewrite Forall_lookup in Hrows. by eapply Hrows.
  - split; [congruence|done].
Qed.

(** ** Strategies *)

Section started.
(** The cursor the request started with. *)
Variable os0 : list (OriginCursor T).

(** What every strategy promises about its window. *)
Definition window_ok request (origins : list Origin) (r : step (window T)) lg : Prop :=
  match r with
  | Done (outs, os') =>
    Forall (outcome_for request lg os') outs ∧ origins_of os' = origins
    ∧ Forall (rows_ok os0 lg) os'
  | _ => True
  end.

Lemma outcomes_for_origins request lg os os' outs :
  origins_of os' = origins_of os →
  Forall (outcome_for request lg os) outs → Forall (outcome_for request lg os') outs.
Proof.
  intros Ho Hall. eapply Forall_impl; [exact Hall|]. intros out [Hok Hin]. split; [done|]. by rewrite Ho.
Qed.

Lemma runs_GlobalNative request lg os :
  in_scope os → Forall (rows_ok os0 lg) os →
  runs request lg (GlobalNative_Next request os) (window_ok request (origins_of os)).
Proof.
  intros Hscope Hrows. unfold GlobalNative_Next. destruct os as [|st [|]]; [by apply runs_ret| |by apply runs_ret].
  assert (Origin_Key (oc_Origin st) ∈ scope) as Hst by (eapply in_scope_elem; [done|by left]).
  eapply runs_bind; [by apply runs_authorize|]. intros out lg1 Hp1 [[Hok [Ho _]] _].
  apply (rows_mono _ _ _ _ Hp1) in Hrows.
  assert (oc_Origin st ∈ origins_of [st]) as Hin by (by eapply (lookup_origin _ 0)).
  destruct (negb (outcome_allowed out) || _ || _) eqn:Hstop.
  { apply runs_ret. split_and!; [|done|done]. constructor; [|constructor]. split; [exact Hok|].
    cbn [out_page]. by rewrite Ho. }
  apply orb_false_iff in Hstop as [[Ha%negb_false_iff _]%orb_false_iff _].
  eapply runs_bind; [apply runs_fetch; [done|]; rewrite <- Ho; by apply Hok|].
  intros fetched lg2 Hp2 [Hf Hq]. apply (rows_mono _ _ _ _ Hp2) in Hrows.
  assert (Forall (outcome_for request lg2 [st]) [out; fetched]) as Hall.
  { destruct Hf as (Hokf & Hof & _). constructor; [|constructor; [|constructor]].
    - split; [|by rewrite Ho]. intros Hal. eapply granted_mono; [done|by apply Hok].
    - split; [done|by rewrite Hof]. }
  destruct (out_err fetched) eqn:He; [by apply runs_ret|].
  destruct (applyOriginPage st (out_page fetched) (Less request)) as [st'|] eqn:Hap; [|by apply runs_ret].
  apply runs_ret. assert (origins_of [st'] = origins_of [st]) as Heq.
  { unfold origins_of. simpl. by rewrite (applyOriginPage_origin _ _ _ _ Hap). }
  split_and!; [by eapply outcomes_for_origins|done|]. constructor; [|constructor].
  apply Forall_cons in Hrows as [Hrow _].
  by eapply applyOriginPage_rows.
Qed.

Lemma runs_sequential_fill fuel request lg os origins capability st available outs :
  in_scope os → granted request lg (oc_Origin st) → oc_Origin st ∈ origins_of os → rows_ok os0 lg st →
  Forall (outcome_for request lg os) outs →
  runs request lg (sequential_fill fuel request origins capability st available outs)
    (λ r lg', match r with
              | Done (st', _, outs') =>
                oc_Origin st' = oc_Origin st ∧ rows_ok os0 lg' st' ∧ Forall (outcome_for request lg' os) outs'
              | _ => True
              end).
Proof.
  intros Hscope. revert lg st available outs. induction fuel as [|fuel IH]; intros lg st available outs Hg Hin Hst Houts;
    cbn [sequential_fill]; (destruct (_ && _); [|by apply runs_ret]); [by apply runs_ret|].
  eapply runs_bind; [apply runs_fetch; [by eapply in_scope_elem|done]|]. intros fetched lg1 Hpre [Hf Hq].
  assert (Forall (outcome_for request lg1 os) (outs ++ [fetched])) as Hall.
  { destruct Hf as (Hok & Ho & _). apply Forall_app. split; [by eapply outcomes_for_mono|].
    constructor; [|constructor]. split; [done|by rewrite Ho]. }
  assert (rows_ok os0 lg1 st) as Hst1.
  { intros x Hx. eapply row_from_mono; [done|by apply Hst]. }
  destruct (out_err fetched) eqn:He; [by apply runs_ret|].
  destruct (applyOriginPage st (out_page fetched) (Less request)) as [st'|] eqn:Hap; [|by apply runs_ret].
  apply applyOriginPage_origin in Hap as Hap'. rewrite <- Hap' in Hg, Hin.
  rewrite <- Hap'. apply IH; [by eapply granted_mono|done| |done]. by eapply applyOriginPage_rows.
Qed.

Definition prefetched_ok request lg (origins : list Origin) (m : gmap nat (originOutcome T)) : Prop :=
  map_Forall (indexed_for request lg origins) m.

Lemma prefetched_mono request lg lg' origins m :
  lg `prefix_of` lg' → prefetched_ok request lg origins m → prefetched_ok request lg' origins m.
Proof. intros Hp Hm i out Hi. eapply indexed_for_mono; [done|by apply Hm]. Qed.

Lemma add_prefetched_ok request lg origins batch m :
  Forall (λ p, indexed_for request lg origins p.1 p.2) batch →
  prefetched_ok request lg origins m → prefetched_ok request lg origins (add_prefetched batch m).
Proof.
  unfold add_prefetched. intros Hb. revert m. induction Hb as [|[i out] batch Hp _ IH]; intros m Hm; [done|].
  cbn [foldl]. apply IH. by apply map_Forall_insert_2.
Qed.

Lemma runs_prefetch request lg index st os prefetched :
  in_scope os →
  runs request lg (sequential_prefetch request index st os prefetched)
    (λ batch lg', Forall (λ p, indexed_for request lg' (origins_of os) p.1 p.2) batch).
Proof.
  intros Hscope. unfold sequential_prefetch. destruct (_ && _); [by apply runs_workers|]. apply runs_ret. constructor.
Qed.

(** The authorization of the origin at [index]: the prefetched answer or a new one. *)
Lemma runs_sequential_authorize request lg os index st prefetched :
  in_scope os → os !! index = Some st → prefetched_ok request lg (origins_of os) prefetched →
  runs request lg
    (match prefetched !! index with
     | Some o => mret o
     | None =>
       o ← authorizeOrigin request (oc_Origin st);
       mret {| out_page := out_page o; out_capability := out_capability o;
               out_err := out_err o; out_queried := out_queried o;
               out_authoritative := oc_Exhausted st || (0 <? buffered_count st)%Z |}
     end)
    (answers request (oc_Origin st)).
Proof.
  intros Hscope Hst Hm. destruct (prefetched !! index) as [out|] eqn:Hi.
  - apply runs_ret. destruct (Hm _ _ Hi) as (o & Ho & Ha).
    unfold origins_of in Ho. rewrite list_lookup_fmap, Hst in Ho. by injection Ho as <-.
  - eapply runs_bind; [apply runs_authorize; eapply in_scope_elem; [done|by eapply lookup_origin]|].
    intros out lg' _ [Ha _]. by apply runs_ret.
Qed.

Lemma lookup_same_origins os os1 index st :
  origins_of os1 = origins_of os → os !! index = Some st → is_Some (os1 !! index).
Proof.
  intros Heq Hst. apply lookup_lt_is_Some. apply (f_equal length) in Heq. unfold origins_of in Heq.
  rewrite !length_fmap in Heq. rewrite Heq. by eapply lookup_lt_Some.
Qed.

Lemma runs_sequential fuel request lg indices os available prefetched outs :
  in_scope os → Forall (outcome_for request lg os) outs → prefetched_ok request lg (origins_of os) prefetched →
  Forall (rows_ok os0 lg) os →
  runs request lg (sequential_loop fuel request indices os available prefetched outs)
    (window_ok request (origins_of os)).
Proof.
  revert lg os available prefetched outs.
  induction indices as [|index rest IH]; intros lg os available prefetched outs Hscope Houts Hm Hrows;
    cbn [sequential_loop]; [by apply runs_ret|].
  eapply runs_bind; [by apply runs_silent|]. intros [e|] lg0 Hp0 _; [by apply runs_ret|].
  apply (outcomes_for_mono _ _ _ _ _ Hp0) in Houts. apply (prefetched_mono _ _ _ _ _ Hp0) in Hm.
  apply (rows_mono _ _ _ _ Hp0) in Hrows.
  destruct (os !! index) as [st0|] eqn:Hst0; [|by apply runs_ret].
  destruct (_ && _); [by apply IH|].
  eapply runs_bind; [by apply runs_prefetch|]. intros batch lg1 Hp1 Hbatch.
  apply (outcomes_for_mono _ _ _ _ _ Hp1) in Houts. apply (prefetched_mono _ _ _ _ _ Hp1) in Hm.
  apply (rows_mono _ _ _ _ Hp1) in Hrows.
  destruct (apply_batch (Less request) os batch) as [os1|] eqn:Hap; [|by apply runs_ret].
  destruct (apply_batch_ok _ os0 _ _ _ _ _ Hap Hbatch Hrows) as [Heq Hrows1].
  apply snd_outcomes in Hbatch as Hsnd. pose proof (add_prefetched_ok _ _ _ _ _ Hbatch Hm) as Hm1.
  rewrite <- Heq in Hm1 |- *. cbv zeta.
  assert (Forall (outcome_for request lg1 os1) (outs ++ (snd <$> batch))) as Houts1.
  { eapply outcomes_for_origins; [done|]. by apply Forall_app. }
  destruct (lookup_same_origins os os1 index st0 Heq Hst0) as [st Hst].
  apply (in_scope_origins _ _ Heq) in Hscope.
  clear Houts Hsnd Hm Hbatch Hrows Heq Hap. rewrite Hst. cbn [default].
  eapply runs_bind; [by apply (runs_sequential_authorize request lg1 os1)|].
  intros authorized lg2 Hp2 (Hok & Ho & _).
  apply (outcomes_for_mono _ _ _ _ _ Hp2) in Houts1. apply (prefetched_mono _ _ _ _ _ Hp2) in Hm1.
  apply (rows_mono _ _ _ _ Hp2) in Hrows1.
  set (outs2 := if bool_decide _ then _ else _).
  assert (Forall (outcome_for request lg2 os1) outs2) as Houts2.
  { subst outs2. case_bool_decide; [done|]. apply Forall_app. split; [done|]. constructor; [|constructor].
    split; [done|]. rewrite Ho. by eapply lookup_origin. }
  destruct (negb (outcome_allowed authorized) || _) eqn:Hskip; [by apply IH|].
  apply orb_false_iff in Hskip as [Ha%negb_false_iff _].
  eapply runs_bind; [apply (runs_sequential_fill _ _ _ os1);
    [done|rewrite <- Ho; by apply Hok|by eapply lookup_origin|rewrite Forall_lookup in Hrows1; by eapply Hrows1|done]|].
  intros [[[st' av] outs3]| |] lg3 Hp3 Hfill; [|by apply runs_ret..]. destruct Hfill as (Hst' & Hrow' & Houts3).
  pose proof (origins_insert os1 index st st' Hst Hst') as Hins.
  rewrite <- Hins in Hm1 |- *. apply (in_scope_origins _ _ Hins) in Hscope.
  apply (prefetched_mono _ _ _ _ _ Hp3) in Hm1.
  apply (rows_mono _ _ _ _ Hp3) in Hrows1.
  assert (Forall (rows_ok os0 lg3) (<[index:=st']> os1)) as Hrows2 by (by apply Forall_insert).
  assert (Forall (outcome_for request lg3 (<[index:=st']> os1)) outs3) as Houts4
    by (by eapply outcomes_for_origins).
  destruct (_ <=? _)%Z; [by apply runs_ret|by apply IH].
Qed.

Definition lazy_ok request (origins : list Origin) lg (z : lazy_state) : Prop :=
  in_scope (lz_origins z) ∧ Forall (outcome_for request lg (lz_origins z)) (lz_outs z) ∧ origins_of (lz_origins z) = origins
  ∧ Forall (rows_ok os0 lg) (lz_origins z).

Definition pass_ok request (origins : list Origin) (r : step (bool * lazy_state)) lg : Prop :=
  match r with Done (_, z) => lazy_ok request origins lg z | _ => True end.

Lemma lazy_ok_mono request origins lg lg' z :
  lg `prefix_of` lg' → lazy_ok request origins lg z → lazy_ok request origins lg' z.
Proof.
  intros Hp (Hs & Ho & Hor & Hr). split_and!; [done|by eapply outcomes_for_mono|done|by eapply rows_mono].
Qed.

Lemma runs_lazy_slices request origins lg slices z :
  lazy_ok request origins lg z →
  runs request lg (lazy_slices request slices z) (pass_ok request origins).
Proof.
  revert lg z. induction slices as [|slice rest IH]; intros lg z Hz; cbn [lazy_slices]; [by apply runs_ret|].
  eapply runs_bind; [by apply runs_silent|]. intros [e|] lg0 Hp0 _; [by apply runs_ret|].
  apply (lazy_ok_mono _ _ _ _ _ Hp0) in Hz.
  eapply runs_bind; [apply runs_workers, Hz|]. intros batch lg1 Hp1 Hbatch.
  apply (lazy_ok_mono _ _ _ _ _ Hp1) in Hz. destruct Hz as (Hscope & Houts & Horig & Hrows).
  destruct (apply_batch (Less request) (lz_origins z) batch) as [os|] eqn:Hap; [|by apply runs_ret].
  destruct (apply_batch_ok _ os0 _ _ _ _ _ Hap Hbatch Hrows) as [Heq Hrows1]. set (z' := {| lz_outs := _ |}).
  assert (lazy_ok request origins lg1 z') as Hz'.
  { split_and!; [by eapply in_scope_origins| |by rewrite <- Horig|done]. eapply outcomes_for_origins; [exact Heq|].
    apply Forall_app. split; [done|by apply snd_outcomes]. }
  destruct (page_ready request z'); [by apply runs_ret|by apply IH].
Qed.

Lemma runs_lazy_rounds fuel request origins lg z :
  lazy_ok request origins lg z →
  runs request lg (lazy_rounds fuel request z) (window_ok request origins).
Proof.
  revert lg z. induction fuel as [|fuel IH]; intros lg z Hz; cbn [lazy_rounds]; [by apply runs_ret|].
  eapply runs_bind; [by apply (runs_lazy_slices _ origins)|].
  intros [[[] z1]|e|] lg1 Hp1 Hz1; [apply runs_ret, Hz1| |by apply runs_ret..].
  eapply runs_bind; [by apply (runs_lazy_slices _ origins)|].
  intros [[[] z2]|e|] lg2 Hp2 Hz2; [apply runs_ret, Hz2| |by apply runs_ret..].
  destruct (_ || _); [apply runs_ret, Hz2|by apply IH].
Qed.

Lemma runs_LazyMerge fuel request lg os :
  in_scope os → Forall (rows_ok os0 lg) os →
  runs request lg (LazyMerge_Next fuel request os) (window_ok request (origins_of os)).
Proof.
  intros Hscope Hrows. unfold LazyMerge_Next. eapply runs_bind; [by apply runs_authorizeBatch|].
  intros outs lg1 Hp Houts. apply (rows_mono _ _ _ _ Hp) in Hrows. set (z := {| lz_outs := _ |}).
  destruct (page_ready request z); [by apply runs_ret|]. by apply runs_lazy_rounds.
Qed.

Lemma runs_NamespaceSequential fuel request lg os :
  in_scope os → Forall (rows_ok os0 lg) os →
  runs request lg (NamespaceSequential_Next fuel request os) (window_ok request (origins_of os)).
Proof. intros. apply runs_sequential; [done|constructor|by apply map_Forall_empty|done]. Qed.

Lemma runs_basic fuel request lg os :
  in_scope os → Forall (rows_ok os0 lg) os →
  runs request lg (basic_Next fuel request os) (window_ok request (origins_of os)).
Proof.
  intros. unfold basic_Next. destruct (selectPaginationStrategy _ _);
    auto using runs_GlobalNative, runs_NamespaceSequential, runs_LazyMerge.
Qed.

(** *** Phases *)

Lemma phase_indices_valid request preferred os i :
  i ∈ phase_indices request preferred os → is_Some (os !! i).
Proof.
  unfold phase_indices. rewrite list_elem_of_fmap. intros ([j st] & -> & [_ Hz]%list_elem_of_filter).
  apply elem_of_zip_l in Hz. apply lookup_lt_is_Some. apply elem_of_seq in Hz. simpl. lia.
Qed.

Lemma select_origins_zip os indices next :
  (∀ i, i ∈ indices → is_Some (os !! i)) →
  origins_of next = origins_of (select_origins os indices) →
  Forall (λ p : nat * OriginCursor T, origins_of os !! p.1 = Some (oc_Origin p.2)) (zip indices next).
Proof.
  revert next. induction indices as [|i indices IH]; intros next Hval Heq; [constructor|].
  destruct (Hval i) as [st Hst]; [by left|]. unfold origins_of, select_origins in Heq. cbn [omap list_omap] in Heq.
  rewrite Hst in Heq. destruct next as [|st' next]; [done|]. injection Heq as Ho Heq.
  constructor; [|apply IH; [|done]; intros; apply Hval; by right].
  cbn [fst snd]. unfold origins_of. by rewrite list_lookup_fmap, Hst, Ho.
Qed.

Lemma write_back_ok lg os indices next :
  Forall (λ p : nat * OriginCursor T, origins_of os !! p.1 = Some (oc_Origin p.2)) (zip indices next) →
  Forall (rows_ok os0 lg) os → Forall (rows_ok os0 lg) next →
  origins_of (write_back os indices next) = origins_of os
  ∧ Forall (rows_ok os0 lg) (write_back os indices next).
Proof.
  intros Hall Hos Hnext. unfold write_back.
  assert (Forall (λ p : nat * OriginCursor T, rows_ok os0 lg p.2) (zip indices next)) as Hz.
  { apply Forall_forall. intros [i st] Hin. apply elem_of_zip_r in Hin. rewrite Forall_forall in Hnext. by apply Hnext. }
  revert Hall Hz. generalize (zip indices next). intros l. revert os Hos.
  induction l as [|[i st'] l IH]; intros os Hos Hall Hz; [done|].
  apply Forall_cons in Hall as [Hi Hall]. apply Forall_cons in Hz as [Hr Hz].
  cbn [foldl fst snd] in *. unfold origins_of in Hi. rewrite list_lookup_fmap in Hi.
  destruct (os !! i) as [st|] eqn:Hst; [|done]. injection Hi as Hi.
  pose proof (origins_insert os i st st' Hst (eq_sym Hi)) as Heq.
  destruct (IH (<[i:=st']> os)) as [H1' H2']; [by apply Forall_insert|by rewrite Heq|done|].
  split; [congruence|done].
Qed.

Lemma select_origins_sub (os : list (OriginCursor T)) indices st : st ∈ select_origins os indices → st ∈ os.
Proof.
  unfold select_origins. intros (i & _ & Hi)%list_elem_of_omap. by eapply list_elem_of_lookup_2.
Qed.

Lemma runs_phase request available lg (m : M T W (step (window T))) origins :
  runs (phase_request request available) lg m (window_ok (phase_request request available) origins) →
  runs request lg m (window_ok request origins).
Proof. done. Qed.

Lemma runs_priority fuel request lg phases os available outs :
  in_scope os → Forall (outcome_for request lg os) outs → Forall (rows_ok os0 lg) os →
  runs request lg (priority_phases fuel request phases os available outs)
    (window_ok request (origins_of os)).
Proof.
  revert lg os available outs. induction phases as [|preferred rest IH]; intros lg os available outs Hscope Houts Hrows;
    cbn [priority_phases]; [by apply runs_ret|]. cbv zeta.
  destruct (phase_indices request preferred os) as [|i0 l0] eqn:Hind; [by apply IH|]. rewrite <- Hind. clear i0 l0 Hind.
  set (indices := phase_indices request preferred os).
  assert (Forall (rows_ok os0 lg) (select_origins os indices)) as Hsel.
  { apply Forall_forall. intros st Hst%select_origins_sub. rewrite Forall_forall in Hrows. by apply Hrows. }
  assert (in_scope (select_origins os indices)) as Hselected.
  { apply Forall_forall. intros o (st & -> & Hst%select_origins_sub)%list_elem_of_fmap.
    eapply in_scope_elem; [done|]. apply list_elem_of_fmap. eauto. }
  eapply runs_bind; [eapply runs_phase; by apply runs_basic|].
  intros [[phase_outs next]|e|] lg1 Hp1 Hwin; [|by apply runs_ret..]. destruct Hwin as (Hphase & Hnext & Hrn).
  apply (rows_mono _ _ _ _ Hp1) in Hrows.
  destruct (write_back_ok lg1 os indices next) as [Hwb Hrows1]; [|done|done|].
  { apply select_origins_zip; [|done]. intros i. apply phase_indices_valid. }
  assert (Forall (outcome_for request lg1 (write_back os indices next)) (outs ++ phase_outs)) as Hall.
  { eapply outcomes_for_origins; [exact Hwb|]. apply Forall_app. split; [by eapply outcomes_for_mono|].
    eapply Forall_impl; [exact Hphase|]. intros out [Hok Hin]. split; [done|]. rewrite Hnext in Hin.
    unfold origins_of in *. apply list_elem_of_fmap in Hin as (st & Heq & Hst%select_origins_sub).
    apply list_elem_of_fmap. eauto. }
  rewrite <- Hwb. apply (in_scope_origins _ _ Hwb) in Hscope. destruct (_ && _); [by apply runs_ret|].
  destruct (_ <=? _)%Z; [by apply runs_ret|by apply IH].
Qed.

Lemma runs_strategy fuel request origins lg os :
  in_scope os → Forall (rows_ok os0 lg) os →
  runs request lg (strategy_Next fuel request origins os) (window_ok request (origins_of os)).
Proof.
  intros. unfold strategy_Next. destruct (selectPaginationStrategy _ _);
    auto using runs_GlobalNative, runs_NamespaceSequential, runs_LazyMerge.
  by apply runs_priority.
Qed.
End started.

Lemma rows_initial lg (os : list (OriginCursor T)) : Forall (rows_ok os lg) os.
Proof. apply Forall_forall. intros st Hst x Hx. left. eauto. Qed.

End safety.
