(* ===== verification/Collect.v ===== *)
(** * Collect: one bounded, authorized page of a collection

    Models [Collect] of src/internal/services/resources/list.go: the guards, the
    cluster-wide grant, the pagination step, the aggregation of the outcomes into
    coverage, and the merge of the allowed origins into one page with its cursor.
    Tracing spans and the collection timestamp are not modelled; on an error the
    partially filled result is dropped. *)
From Stdlib Require Import Ascii String ZArith Lia.
From stdpp Require Import base gmap strings list.
From S2P Require Import Prelude Json Topics Cursor Ports Retry Pagination.

Record PartialErrorDTO := { pe_Namespace : string; pe_Code : ErrorCode; pe_Message : string }.

Record CoverageDTO := {
  cov_RequestedNamespaces : Z; cov_CompletedNamespaces : Z;
  cov_DeniedNamespaces : list string; cov_Failed : list PartialErrorDTO }.

Definition classifyReadError (err : error) : ErrorCode * string :=
  if is_deadline err then (CodeUpstreamTimeout, "Collection timed out.")
  else if is_canceled err then (CodeGenerationChanged, "The active selection changed.")
  else match err with
       | DomainError code message _ _ => (code, message)
       | _ => (CodeClusterUnavailable, "The Kubernetes API could not complete the request.")
       end.

(** The verb %q on a namespace: printable ASCII between quotes, with the quote and the
    backslash escaped (namespaces are DNS labels, so nothing else occurs). *)
Definition dquote : ascii := chr 34.
Fixpoint quote_body (s : string) : string :=
  match s with
  | "" => ""
  | String c rest =>
    if Ascii.eqb c dquote || Ascii.eqb c (chr 92) then String (chr 92) (String c (quote_body rest))
    else String c (quote_body rest)
  end.
Definition Quote (s : string) : string := String dquote (quote_body s +:+ String dquote "").

Definition denial_message (resource namespace : string) : string :=
  if String.eqb namespace "" then
    "Kubernetes permission review denied cluster-wide LIST on " +:+ resource
      +:+ ". Check the current identity's ClusterRole bindings."
  else
    "Kubernetes permission review denied LIST on " +:+ resource +:+ " in namespace "
      +:+ Quote namespace +:+ ". Check the current identity's Role or ClusterRole bindings.".

Definition countNamespaces (origins : list Origin) : Z :=
  Z.of_nat (size (list_to_set (org_Namespace <$> origins) : gset string)).

Section collect.
Context {T W : Type} `{Ports T W} `{ApiErrors} `{SliceSort}.

Record ListResult := {
  res_Items : list T; res_Cursor : option (CompositeCursor T); res_Complete : bool;
  res_Truncated : bool; res_Coverage : CoverageDTO }.

Inductive collected := Returned (r : ListResult) | Raised (e : error) | FuelExhausted | Panicked.

(** ** Aggregation *)

Record aggregate := {
  agg_origin : Origin; agg_capability : Capability; agg_authoritative : bool;
  agg_failure : option PartialErrorDTO }.

Definition aggregate_one (m : gmap string aggregate) (o : originOutcome T) : gmap string aggregate :=
  let current := default {| agg_origin := page_Origin (out_page o); agg_capability := out_capability o;
                            agg_authoritative := false; agg_failure := None |} (m !! outcome_key o) in
  <[outcome_key o := {|
      agg_origin := agg_origin current;
      agg_capability := out_capability o;
      agg_authoritative := agg_authoritative current
                           || bool_decide (out_err o = None) && out_authoritative o;
      agg_failure := match out_err o, agg_failure current with
                     | Some err, None =>
                       let '(code, message) := classifyReadError err in
                       Some {| pe_Namespace := org_Namespace (page_Origin (out_page o));
                               pe_Code := code; pe_Message := message |}
                     | _, f => f
                     end |}]> m.

Definition expired (o : originOutcome T) : bool :=
  match out_err o with Some e => is_resource_expired e | None => false end.

Definition aggregate_all (outs : list (originOutcome T)) : result error (gmap string aggregate) :=
  if existsb expired outs
  then Err (domainError CodeCursorExpired "The Kubernetes list snapshot expired; start a new list."
              (Some ErrResourceExpired))
  else Ok (foldl aggregate_one ∅ outs).

(** ** Coverage *)

Record coverage_state := {
  cs_failed : list PartialErrorDTO; cs_allowed : Z; cs_known : Z; cs_unknown : Z;
  cs_successes : Z; cs_allowedOrigins : gmap string bool; cs_completed : gset string;
  cs_denied : gset string; cs_firstDenial : string; cs_firstFailure : option PartialErrorDTO }.

Definition empty_coverage : coverage_state := {|
  cs_failed := []; cs_allowed := 0; cs_known := 0; cs_unknown := 0; cs_successes := 0;
  cs_allowedOrigins := ∅; cs_completed := ∅; cs_denied := ∅; cs_firstDenial := "";
  cs_firstFailure := None |}.

Definition first_failure (old : option PartialErrorDTO) (f : PartialErrorDTO) : option PartialErrorDTO :=
  match old with None => Some f | Some _ => old end.

(** The common tail of the loop body: a failure and an authoritative success. *)
Definition cover_tail (namespace : string) (a : aggregate) (c : coverage_state) : coverage_state :=
  {| cs_failed := match agg_failure a with Some f => cs_failed c ++ [f] | None => cs_failed c end;
     cs_allowed := cs_allowed c; cs_known := cs_known c; cs_unknown := cs_unknown c;
     cs_successes := if agg_authoritative a then cs_successes c + 1 else cs_successes c;
     cs_allowedOrigins := cs_allowedOrigins c;
     cs_completed := if agg_authoritative a then {[ namespace ]} ∪ cs_completed c else cs_completed c;
     cs_denied := cs_denied c; cs_firstDenial := cs_firstDenial c;
     cs_firstFailure := match agg_failure a with
                        | Some f => first_failure (cs_firstFailure c) f
                        | None => cs_firstFailure c
                        end |}.

(** A live 403 or 401 overrides an allowed review. *)
Definition still_allowed (a : aggregate) : bool :=
  match agg_failure a with
  | None => true
  | Some f => bool_decide (pe_Code f ≠ CodeForbidden ∧ pe_Code f ≠ CodeAuthenticationUnavailable)
  end.

Definition cover_one (aggregates : gmap string aggregate) (c : coverage_state) (origin : Origin)
    : coverage_state :=
  match aggregates !! Origin_Key origin with
  | None => c
  | Some a =>
    let namespace := org_Namespace (agg_origin a) in
    if is_decision DecisionDenied (agg_capability a) then
      let message := match agg_failure a with
                     | Some f => pe_Message f
                     | None => denial_message (org_Resource (agg_origin a)) namespace
                     end in
      {| cs_failed := cs_failed c ++ [{| pe_Namespace := namespace; pe_Code := CodeForbidden;
                                         pe_Message := message |}];
         cs_allowed := cs_allowed c; cs_known := cs_known c + 1; cs_unknown := cs_unknown c;
         cs_successes := cs_successes c; cs_allowedOrigins := cs_allowedOrigins c;
         cs_completed := cs_completed c; cs_denied := {[ namespace ]} ∪ cs_denied c;
         cs_firstDenial := if String.eqb (cs_firstDenial c) "" then message else cs_firstDenial c;
         cs_firstFailure := cs_firstFailure c |}
    else if is_decision DecisionUnknown (agg_capability a) then
      let failure := match agg_failure a with
                     | Some f => f
                     | None => let '(code, message) := ReviewFailure (cap_ReasonCode (agg_capability a)) in
                               {| pe_Namespace := namespace; pe_Code := code; pe_Message := message |}
                     end in
      {| cs_failed := cs_failed c ++ [failure]; cs_allowed := cs_allowed c; cs_known := cs_known c;
         cs_unknown := cs_unknown c + 1; cs_successes := cs_successes c;
         cs_allowedOrigins := cs_allowedOrigins c; cs_completed := cs_completed c;
         cs_denied := cs_denied c; cs_firstDenial := cs_firstDenial c;
         cs_firstFailure := first_failure (cs_firstFailure c) failure |}
    else if is_decision DecisionAllowed (agg_capability a) then
      cover_tail namespace a
        {| cs_failed := cs_failed c; cs_allowed := cs_allowed c + 1; cs_known := cs_known c + 1;
           cs_unknown := cs_unknown c; cs_successes := cs_successes c;
           cs_allowedOrigins := <[Origin_Key origin := still_allowed a]> (cs_allowedOrigins c);
           cs_completed := cs_completed c; cs_denied := cs_denied c;
           cs_firstDenial := cs_firstDenial c; cs_firstFailure := cs_firstFailure c |}
    else cover_tail namespace a c
  end.

Definition cover (aggregates : gmap string aggregate) (origins : list Origin) : coverage_state :=
  foldl (cover_one aggregates) empty_coverage origins.

(** The collection-wide failure, when nothing can be returned. *)
Definition collection_failure (c : coverage_state) : option error :=
  let from_failure f := domainError (pe_Code f) (pe_Message f) None in
  if (cs_allowed c =? 0)%Z then
    if (0 <? cs_known c)%Z && negb (bool_decide (cs_denied c = ∅)) && (cs_unknown c =? 0)%Z
    then Some (domainError CodeForbidden (cs_firstDenial c) None)
    else match cs_firstFailure c with
         | Some f => Some (from_failure f)
         | None => Some (domainError CodeAuthorizationUnavailable (ReviewFailure "").2 None)
         end
  else if (cs_successes c =? 0)%Z then
    match cs_firstFailure c with
    | Some f => Some (from_failure f)
    | None => Some (domainError CodeClusterUnavailable
                      "The Kubernetes API could not complete the request." None)
    end
  else None.

(** ** The page *)

Definition preferred_map (preferred : string) (os : list (OriginCursor T)) (allowed : gmap string bool)
    : gmap string bool :=
  foldl (λ m st, if bool_decide (org_Namespace (oc_Origin st) = preferred)
                    && default false (allowed !! oc_Key st)
                 then <[oc_Key st := true]> m else m) ∅ os.

Definition mergePreferredNamespace (cursor : CompositeCursor T) (request : CollectionRequest T)
    (allowed : gmap string bool) : option (result error (list T * CompositeCursor T)) :=
  let limit := Limit (Options request) in
  if String.eqb (PreferredNamespace request) ""
  then mergeAuthorizedOriginPages cursor [] limit (Less request) (Some allowed)
  else
    let preferred := preferred_map (PreferredNamespace request) (cc_Origins cursor) allowed in
    match mergeAuthorizedOriginPages cursor [] limit (Less request) (Some preferred) with
    | Some (Ok (items, next)) =>
      if (Z.of_nat (length items) =? limit)%Z then Some (Ok (items, next))
      else match mergeAuthorizedOriginPages next [] (limit - Z.of_nat (length items))
                   (Less request) (Some allowed) with
           | Some (Ok (rest, next')) => Some (Ok (items ++ rest, next'))
           | other => other
           end
    | other => other
    end.

(** Whether the cursor is worth a further page: some unfinished origin is untouched,
    or allowed and not known to fail without a buffer. *)
Definition resumable (aggregates : gmap string aggregate) (st : OriginCursor T) : bool :=
  if oc_Exhausted st && bool_decide (oc_Buffered st = []) then false
  else match aggregates !! oc_Key st with
       | None => true
       | Some a => is_decision DecisionAllowed (agg_capability a)
                   && (bool_decide (agg_failure a = None) || negb (bool_decide (oc_Buffered st = [])))
       end.

Definition next_cursor (aggregates : gmap string aggregate) (next : CompositeCursor T)
    : option (CompositeCursor T) :=
  if Complete next then Some next
  else if existsb (resumable aggregates) (cc_Origins next) then Some next else None.

Definition canonicalOrigins (origins : list Origin) : list Origin := sort_Slice origin_less origins.

Definition with_grant (request : CollectionRequest T) (grant : option Capability)
    : CollectionRequest T := {|
  sel_Generation := sel_Generation request; sel_Context := sel_Context request;
  sel_Scope := sel_Scope request; Options := Options request; Origins := Origins request;
  req_Cursor := req_Cursor request; hasLister := hasLister request;
  hasAuthorizer := hasAuthorizer request; Less := Less request;
  RequestedNamespaces := RequestedNamespaces request; Fanout := Fanout request;
  Retry := Retry request; PreferredNamespace := PreferredNamespace request;
  NativeIdentityOrder := NativeIdentityOrder request;
  GlobalGrantFastPath := GlobalGrantFastPath request;
  ReadThroughUnknown := ReadThroughUnknown request; globalListGrant := grant |}.

(** The cluster-wide probe of the fast path. *)
Definition global_probe (request : CollectionRequest T) (origins : list Origin)
    : M T W (CollectionRequest T) :=
  match origins with
  | first :: _ =>
    if GlobalGrantFastPath request && (1 <? length origins)%nat && singleGVR origins then
      capability ← Check (list_key request "" (org_APIGroup first) (org_Resource first));
      mret (if is_decision DecisionAllowed capability then with_grant request (Some capability)
            else request)
    else mret request
  | [] => mret request
  end.

(** Exhausted, empty origins no outcome speaks of. *)
Definition completed_indices (outs : list (originOutcome T)) (os : list (OriginCursor T)) : list nat :=
  (filter (λ p : nat * OriginCursor T,
     oc_Exhausted p.2 = true ∧ oc_Buffered p.2 = [] ∧ oc_Key p.2 ∉ (outcome_key <$> outs))
     (zip (seq 0 (length os)) os)).*1.

Definition recheck_completed (request : CollectionRequest T) (outs : list (originOutcome T))
    (os : list (OriginCursor T)) : M T W (list (originOutcome T)) :=
  match req_Cursor request with
  | None => mret outs
  | Some _ =>
    if existsb outcome_allowed outs then mret outs
    else more ← authorizeBatch request os (completed_indices outs os); mret (outs ++ more)
  end.

(** From the outcomes and the cursor to the result. *)
Definition finish (request : CollectionRequest T) (origins : list Origin)
    (outs : list (originOutcome T)) (cursor : CompositeCursor T) : collected :=
  match aggregate_all outs with
  | Err e => Raised e
  | Ok aggregates =>
    let c := cover aggregates origins in
    match collection_failure c with
    | Some e => Raised e
    | None =>
      match mergePreferredNamespace cursor request (cs_allowedOrigins c) with
      | None => Panicked
      | Some (Err e) => Raised e
      | Some (Ok (items, next)) =>
        match Validate next origins with
        | Some e => Raised e
        | None =>
          Returned {|
            res_Items := items;
            res_Cursor := next_cursor aggregates next;
            res_Complete := Complete next && bool_decide (cs_failed c = []);
            res_Truncated := negb (Complete next) || negb (bool_decide (cs_failed c = []));
            res_Coverage := {|
              cov_RequestedNamespaces :=
                if (0 <? RequestedNamespaces request)%Z then RequestedNamespaces request
                else countNamespaces origins;
              cov_CompletedNamespaces :=
                if globalOrigins origins && (0 <? cs_successes c)%Z && (0 <? RequestedNamespaces request)%Z
                then RequestedNamespaces request else Z.of_nat (size (cs_completed c));
              cov_DeniedNamespaces := sort_stable str_lt (elements (cs_denied c));
              cov_Failed := cs_failed c |} |}
        end
      end
    end
  end.

Definition Collect (fuel : nat) (request : CollectionRequest T) : M T W collected :=
  if negb (hasLister request) || negb (hasAuthorizer request) || bool_decide (Less request = None)
  then mret (Raised (domainError CodeFeatureUnavailable "The resource reader is unavailable." None))
  else if String.eqb (sel_Generation request) "" || String.eqb (sel_Context request) ""
          || String.eqb (sel_Scope request) ""
  then mret (Raised (validationError "selection binding is incomplete"))
  else if (Limit (Options request) <? 1)%Z || (MaximumListLimit <? Limit (Options request))%Z
  then mret (Raised (validationError "list options must be normalized before collection"))
  else
    let origins := canonicalOrigins (Origins request) in
    request ← global_probe request origins;
    match origins with
    | [] => mret (Returned {| res_Items := []; res_Cursor := None; res_Complete := true;
                              res_Truncated := false;
                              res_Coverage := {| cov_RequestedNamespaces := 0;
                                                 cov_CompletedNamespaces := 0;
                                                 cov_DeniedNamespaces := []; cov_Failed := [] |} |})
    | _ =>
      let cursor := default (NewCompositeCursor origins) (req_Cursor request) in
      let invalid := match req_Cursor request with Some c => Validate c origins | None => None end in
      match invalid with
      | Some e => mret (Raised e)
      | None =>
        page ← strategy_Next fuel request origins (cc_Origins cursor);
        match page with
        | OutOfFuel => mret FuelExhausted
        | Failed e => mret (Raised e)
        | Done (outs, os) =>
          outs ← recheck_completed request outs os;
          mret (finish request origins outs {| cc_Version := cc_Version cursor; cc_Origins := os |})
        end
      end
    end.
End collect.
Arguments ListResult : clear implicits.
Arguments collected : clear implicits.
