(* ===== verification/CollectSafety.v ===== *)
(** * CollectSafety: what a collection may show

    The theorems about [Collect]: every row of a page is authorized by evidence from
    the same request and has a known provenance, the page respects its limit, and
    the run never panics and (with a deadline) always ends. *)
From Stdlib Require Import Ascii String ZArith Lia.
From stdpp Require Import base gmap strings list.
From S2P Require Import Prelude Json Topics Cursor Ports Retry Pagination PaginationSafety Collect.

(** ** The merge of a page *)

Section merge.
Context {T : Type} (less : T → T → bool) `{!StrictWeakOrder less}.

(** Rows of a cursor, by origin. *)
Definition has_row (c : CompositeCursor T) (o : Origin) (x : T) : Prop :=
  ∃ st, st ∈ cc_Origins c ∧ oc_Origin st = o ∧ x ∈ oc_Buffered st.

Lemma refill_rows st : oc_Buffered (refill less [] st) ≡ₚ oc_Buffered st.
Proof. unfold refill. simpl. apply sort_stable_perm. Qed.

Lemma merge_rows cursor limit m items next :
  mergeAuthorizedOriginPages cursor [] limit (Some less) (Some m) = Some (Ok (items, next)) →
  (∀ x, x ∈ items → ∃ o, has_row cursor o x ∧ m !! Origin_Key o = Some true)
  ∧ (Z.of_nat (length items) ≤ limit)%Z
  ∧ (∀ o x, has_row next o x → has_row cursor o x).
Proof.
  intros Hm. destruct (merge_limit_ok _ _ _ _ _ _ Hm) as [Hlim _].
  destruct (merge_spec less (Some m) cursor [] limit _ Hlim eq_refl) as (next' & Heq & _ & Hframe & _).
  rewrite Hm in Heq. injection Heq as Hitems <-. split_and!.
  - intros x Hx. rewrite Hitems in Hx. apply (sublist_subseteq _ _ (sublist_take _ _)) in Hx.
    rewrite sort_stable_perm in Hx. apply active_elem in Hx as (j & st & Hj & [_ Ha]%andb_true_iff & Hx).
    rewrite list_lookup_fmap in Hj. destruct (cc_Origins cursor !! j) as [st0|] eqn:Hj0; [|done].
    injection Hj as <-. rewrite refill_rows in Hx. exists (oc_Origin st0). split.
    + exists st0. split_and!; [by eapply list_elem_of_lookup_2|done|done].
    + unfold is_allowed in Ha. change (oc_Key (refill less [] st0)) with (Origin_Key (oc_Origin st0)) in Ha.
      by destruct (m !! _) as [[]|].
  - rewrite Hitems, length_take. lia.
  - intros o x (st' & Hst' & <- & Hx). apply list_elem_of_lookup in Hst' as [j Hj].
    destruct (Forall2_lookup_r _ _ _ _ _ Hframe Hj) as (st & Hst & Ho & _ & _ & _ & k & Hk & _).
    rewrite list_lookup_fmap in Hst. destruct (cc_Origins cursor !! j) as [st0|] eqn:Hj0; [|done].
    injection Hst as <-. exists st0. split_and!; [by eapply list_elem_of_lookup_2|by rewrite Ho|].
    rewrite <- refill_rows, Hk. apply elem_of_app. by right.
Qed.

Lemma merge_keys cursor limit m items next :
  mergeAuthorizedOriginPages cursor [] limit (Some less) (Some m) = Some (Ok (items, next)) →
  (oc_Key <$> cc_Origins next) = (oc_Key <$> cc_Origins cursor).
Proof.
  intros Hm. destruct (merge_limit_ok _ _ _ _ _ _ Hm) as [Hlim _].
  destruct (merge_spec less (Some m) cursor [] limit _ Hlim eq_refl) as (next' & Heq & _ & Hframe & _).
  rewrite Hm in Heq. injection Heq as _ <-. apply (Forall2_fmap_l (refill less [])) in Hframe.
  induction Hframe as [|a b l l' (Ho & _) _ IH]; [done|]. rewrite !fmap_cons, IH.
  unfold oc_Key. by rewrite Ho.
Qed.

Lemma preferred_map_allowed preferred (os : list (OriginCursor T)) allowed k :
  preferred_map preferred os allowed !! k = Some true → allowed !! k = Some true.
Proof.
  unfold preferred_map. assert (∀ m : gmap string bool, (m !! k = Some true → allowed !! k = Some true) →
    foldl (λ m st, if bool_decide (org_Namespace (oc_Origin st) = preferred)
                      && default false (allowed !! oc_Key st)
                   then <[oc_Key st := true]> m else m) m os !! k = Some true →
    allowed !! k = Some true) as Hgen; [|by apply Hgen].
  induction os as [|st os IH]; intros m Hm; [done|]. cbn [foldl]. apply IH.
  destruct (_ && _) eqn:Hc; [|done]. apply andb_true_iff in Hc as [_ Hc].
  destruct (decide (oc_Key st = k)) as [<-|Hne]; [|by rewrite lookup_insert_ne].
  intros _. by destruct (allowed !! oc_Key st) as [[]|].
Qed.

Lemma mergePreferred_rows cursor request m items next :
  Less request = Some less →
  mergePreferredNamespace cursor request m = Some (Ok (items, next)) →
  (∀ x, x ∈ items → ∃ o, has_row cursor o x ∧ m !! Origin_Key o = Some true)
  ∧ (Z.of_nat (length items) ≤ Limit (Options request))%Z
  ∧ (oc_Key <$> cc_Origins next) = (oc_Key <$> cc_Origins cursor).
Proof.
  intros Hless. unfold mergePreferredNamespace. rewrite Hless.
  destruct (String.eqb _ _).
  { intros Hm. pose proof (merge_keys _ _ _ _ _ Hm). apply merge_rows in Hm as (? & ? & _). done. }
  destruct (mergeAuthorizedOriginPages cursor [] _ (Some less) (Some (preferred_map _ _ _)))
    as [[[items1 next1]|]|] eqn:H1; [|done..].
  pose proof (merge_keys _ _ _ _ _ H1) as Hk1. apply merge_rows in H1 as (Hin1 & Hlen1 & Hrow1).
  assert (∀ x, x ∈ items1 → ∃ o, has_row cursor o x ∧ m !! Origin_Key o = Some true) as Hfirst.
  { intros x Hx. destruct (Hin1 x Hx) as (o & Hr & Ha). exists o. split; [done|]. by eapply preferred_map_allowed. }
  destruct (_ =? _)%Z; [intros [= <- <-]; done|].
  destruct (mergeAuthorizedOriginPages next1 [] _ (Some less) (Some m))
    as [[[items2 next2]|]|] eqn:H2; [|done..]. intros [= <- <-].
  pose proof (merge_keys _ _ _ _ _ H2) as Hk2. apply merge_rows in H2 as (Hin2 & Hlen2 & _). split_and!.
  - intros x [Hx|Hx]%elem_of_app; [by apply Hfirst|].
    destruct (Hin2 x Hx) as (o & Hr & Ha). exists o. split; [by apply Hrow1|done].
  - rewrite length_app. lia.
  - congruence.
Qed.

Lemma mergePreferred_total cursor request m :
  Less request = Some less → (1 ≤ Limit (Options request) ≤ MaximumListLimit)%Z →
  ∃ items next, mergePreferredNamespace cursor request m = Some (Ok (items, next)).
Proof.
  intros Hless Hlim. unfold mergePreferredNamespace. rewrite Hless.
  destruct (String.eqb _ _).
  { destruct (merge_spec less (Some m) cursor [] _ _ Hlim eq_refl) as (next & -> & _). eauto. }
  destruct (merge_spec less (Some (preferred_map (PreferredNamespace request) (cc_Origins cursor) m))
    cursor [] _ _ Hlim eq_refl) as (next & -> & _).
  set (items := take _ _). destruct (_ =? _)%Z eqn:He; [eauto|].
  assert (Z.of_nat (length items) < Limit (Options request))%Z as Hlt.
  { subst items. bool_to_prop. rewrite length_take in *. lia. }
  destruct (merge_spec less (Some m) next [] (Limit (Options request) - Z.of_nat (length items)) _
    ltac:(lia) eq_refl) as (next' & -> & _). eauto.
Qed.
End merge.

(** ** Aggregation keeps the evidence *)

Section aggregate.
Context {T : Type}.

Lemma aggregate_capability (outs : list (originOutcome T)) k a :
  foldl aggregate_one ∅ outs !! k = Some a →
  ∃ out, out ∈ outs ∧ outcome_key out = k ∧ agg_capability a = out_capability out.
Proof.
  revert k a. induction outs as [|out outs IH] using rev_ind; intros k a; [done|].
  rewrite foldl_app. cbn [foldl]. unfold aggregate_one at 1.
  destruct (decide (outcome_key out = k)) as [<-|Hne].
  - rewrite lookup_insert, decide_True by done. intros [= <-]. exists out. split_and!; [set_solver|done|done].
  - rewrite lookup_insert_ne by done. intros (out' & ? & ? & ?)%IH. exists out'.
    split_and!; [set_solver|done|done].
Qed.

Lemma cover_allowed aggregates origins k :
  cs_allowedOrigins (cover aggregates origins) !! k = Some true →
  ∃ a, aggregates !! k = Some a ∧ is_decision DecisionAllowed (agg_capability a) = true.
Proof.
  unfold cover. revert k. induction origins as [|o origins IH] using rev_ind; intros k; [done|].
  rewrite foldl_app. cbn [foldl]. set (c := foldl _ _ _) in *. unfold cover_one.
  destruct (aggregates !! Origin_Key o) as [a|] eqn:Ha; [|apply IH].
  destruct (is_decision DecisionDenied _); [apply IH|].
  destruct (is_decision DecisionUnknown _); [apply IH|].
  destruct (is_decision DecisionAllowed (agg_capability a)) eqn:Hd; [|apply IH].
  cbn [cover_tail cs_allowedOrigins]. destruct (decide (Origin_Key o = k)) as [<-|Hne]; [eauto|].
  rewrite lookup_insert_ne by done. apply IH.
Qed.

(** An origin marked as allowed has an outcome that says so. *)
Lemma allowed_outcome (outs : list (originOutcome T)) aggregates origins k :
  aggregate_all outs = Ok aggregates →
  cs_allowedOrigins (cover aggregates origins) !! k = Some true →
  ∃ out, out ∈ outs ∧ outcome_key out = k ∧ outcome_allowed out = true.
Proof.
  unfold aggregate_all. destruct (existsb _ _); [done|]. intros [= <-].
  intros (a & Ha & Hd)%cover_allowed. apply aggregate_capability in Ha as (out & Hin & Hk & Hc).
  exists out. split_and!; [done..|]. unfold outcome_allowed. by rewrite <- Hc.
Qed.
End aggregate.

(** ** Collect *)

Section collect.
Context {T W : Type} `{Ports T W} `{ApiErrors} `{!ListerOk} `{SliceSortOk}.
Context (less : T → T → bool) `{!StrictWeakOrder less}.
Implicit Types (request : CollectionRequest T) (lg : list (call T)).

(** Rows of [o] may be shown to the user: [granted], where the cluster-wide grant is
    itself a review of this request. *)
Definition shown request lg (o : Origin) : Prop :=
  granted request lg o
  ∨ ∃ first c, first ∈ Origins request
      ∧ CalledCheck (list_key request "" (org_APIGroup first) (org_Resource first)) c ∈ lg
      ∧ allowed_by c.

Lemma finish_rows request origins lg outs os version r (os0 : list (OriginCursor T)) :
  Less request = Some less →
  finish request origins outs {| cc_Version := version; cc_Origins := os |} = Returned r →
  Forall (outcome_for request lg os) outs → Forall (rows_ok os0 lg) os →
  (Z.of_nat (length (res_Items r)) ≤ Limit (Options request))%Z
  ∧ ∀ x, x ∈ res_Items r → ∃ o, row_from os0 lg o x ∧ granted request lg o.
Proof.
  intros Hless Hfin Houts Hrows. unfold finish in Hfin.
  destruct (aggregate_all outs) as [aggregates|] eqn:Hagg; [|done].
  destruct (collection_failure _); [done|].
  destruct (mergePreferredNamespace _ _ _) as [[[items next]|]|] eqn:Hmerge; [|done..].
  destruct (Validate next origins) eqn:Hvalid; [done|]. injection Hfin as <-. cbn [res_Items].
  destruct (mergePreferred_rows less _ _ _ _ _ Hless Hmerge) as (Hin & Hlen & Hkeys).
  assert (NoDup (oc_Key <$> os)) as Hnd.
  { apply Validate_spec in Hvalid as (_ & _ & Hk & Hnd & _). cbn [cc_Origins] in Hkeys.
    rewrite <- Hkeys, Hk. by rewrite sort_stable_perm. }
  split; [done|]. intros x Hx. destruct (Hin x Hx) as (o & (st & Hst & <- & Hb) & Ha).
  cbn [cc_Origins] in Hst. exists (oc_Origin st). split.
  - rewrite Forall_forall in Hrows. by apply Hrows.
  - destruct (allowed_outcome _ _ _ _ Hagg Ha) as (out & Hout & Hk & Hal).
    rewrite Forall_forall in Houts. destruct (Houts out Hout) as [Hok Hor].
    unfold origins_of in Hor. apply list_elem_of_fmap in Hor as (st' & Heq & Hst').
    assert (st' = st) as ->.
    { apply list_elem_of_lookup in Hst as [i Hi]. apply list_elem_of_lookup in Hst' as [j Hj].
      assert (i = j) as ->; [|congruence]. eapply NoDup_lookup; [exact Hnd|..].
      - rewrite list_lookup_fmap, Hi. simpl. reflexivity.
      - rewrite list_lookup_fmap, Hj. simpl. unfold oc_Key. by rewrite <- Heq, <- Hk. }
    rewrite <- Heq. by apply Hok.
Qed.

Lemma runs_recheck scope request lg outs os :
  in_scope scope os → Forall (outcome_for request lg os) outs →
  runs scope request lg (recheck_completed request outs os) (λ outs' lg', Forall (outcome_for request lg' os) outs').
Proof.
  intros Hscope Houts. unfold recheck_completed. destruct (req_Cursor request); [|by apply runs_ret].
  destruct (existsb _ _); [by apply runs_ret|].
  eapply runs_bind; [by apply runs_authorizeBatch|]. intros more lg' Hp Hmore. apply runs_ret.
  apply Forall_app. split; [by eapply outcomes_for_mono|done].
Qed.

(** The request after the cluster-wide probe, with the evidence for its grant, which is the
    first call of the request. *)
Definition probed request lg request' : Prop :=
  request' = request
  ∨ ∃ first c, first ∈ Origins request
      ∧ CalledCheck (list_key request "" (org_APIGroup first) (org_Resource first)) c ∈ take 1 lg
      ∧ allowed_by c ∧ request' = with_grant request (Some c)
      ∧ GlobalGrantFastPath request = true
      ∧ ∀ o, o ∈ Origins request → org_APIGroup o = org_APIGroup first ∧ org_Resource o = org_Resource first.

Definition scope_of request : list string := Origin_Key <$> Origins request.

Lemma take_1_app {A} (x : A) l k : x ∈ take 1 l → x ∈ take 1 (l ++ k).
Proof. destruct l; [by intros ?%not_elem_of_nil|done]. Qed.

Lemma global_probe_spec request s :
  log s = [] →
  let '(request', s') := global_probe request (canonicalOrigins (Origins request)) s in
  probed request (log s') request' ∧ log_ok (scope_of request) request' (log s').
Proof.
  intros Hs. unfold global_probe. destruct (canonicalOrigins (Origins request)) as [|first rest] eqn:Hc.
  { simpl. split; [by left|]. rewrite Hs. by intros ???; rewrite lookup_nil. }
  destruct (_ && _ && _) eqn:Hfast.
  2: { simpl. split; [by left|]. rewrite Hs. by intros ???; rewrite lookup_nil. }
  unfold mbind, M_bind, Check. destruct (port_Check _ (world s)) as [c w]. cbn [mret M_ret log with_world].
  rewrite Hs. split.
  - destruct (is_decision DecisionAllowed c) eqn:Hd; [right|by left]. exists first, c.
    apply andb_true_iff in Hfast as [[Hfast _]%andb_true_iff Hgvr]. unfold canonicalOrigins in Hc.
    assert (∀ o, o ∈ Origins request ↔ o ∈ first :: rest) as Helem
      by (intros o; by rewrite <- Hc, sort_Slice_perm).
    split_and!; [apply Helem; by left|by left|done|done|done|].
    intros o [->|Ho]%Helem%elem_of_cons; [done|]. cbn [singleGVR] in Hgvr. rewrite forallb_forall in Hgvr.
    apply list_elem_of_In, Hgvr in Ho. bool_to_prop. naive_solver.
  - intros [|i] r e Hi; [done|]. simpl in Hi. by rewrite lookup_nil in Hi.
Qed.

Lemma granted_shown request lg lg' request' o :
  globalListGrant request = None → lg `prefix_of` lg' →
  probed request lg request' → granted request' lg' o → shown request lg' o.
Proof.
  intros Hnone [k ->] [->|(first & c & Hin & Hc & Ha & -> & _)] Hg; [by left|].
  right. exists first, c. split_and!; [done| |done]. apply elem_of_app. left.
  by apply (sublist_subseteq _ _ (sublist_take _ _)) in Hc.
Qed.

Lemma probed_fields request lg request' :
  probed request lg request' →
  Less request' = Less request ∧ Options request' = Options request
  ∧ req_Cursor request' = req_Cursor request.
Proof. intros [->|(? & ? & _ & _ & _ & -> & _)]; done. Qed.

(** The cursor a collection starts from. *)
Definition start_cursor request : CompositeCursor T :=
  default (NewCompositeCursor (canonicalOrigins (Origins request))) (req_Cursor request).

Lemma start_in_scope request :
  match req_Cursor request with Some c => Validate c (canonicalOrigins (Origins request)) | None => None end = None →
  in_scope (scope_of request) (cc_Origins (start_cursor request)).
Proof.
  intros Hv. unfold in_scope, origins_of, scope_of, start_cursor. apply Forall_fmap.
  assert ((oc_Key <$> cc_Origins (default (NewCompositeCursor (canonicalOrigins (Origins request))) (req_Cursor request)))
    ≡ₚ Origin_Key <$> Origins request) as Hkeys.
  { destruct (req_Cursor request) as [c|]; cbn [default from_option id].
    - apply Validate_spec in Hv as (_ & _ & -> & _). rewrite sort_stable_perm.
      apply fmap_Permutation, sort_Slice_perm.
    - cbn [cc_Origins NewCompositeCursor]. rewrite <- list_fmap_compose. change (oc_Key ∘ fresh_origin) with Origin_Key.
      unfold canonicalOrigins. by rewrite !sort_Slice_perm. }
  apply Forall_forall. intros st Hst. cbn [compose]. rewrite <- Hkeys. change (Origin_Key (oc_Origin st)) with (oc_Key st).
  by apply list_elem_of_fmap_2.
Qed.

(** Every call of a collection, and its rows when it returns some. *)
Lemma Collect_run fuel request s :
  log s = [] →
  ∃ request', probed request (log (Collect fuel request s).2) request'
    ∧ log_ok (scope_of request) request' (log (Collect fuel request s).2)
    ∧ ∀ r, Less request = Some less → (Collect fuel request s).1 = Returned r →
        (Z.of_nat (length (res_Items r)) ≤ Limit (Options request))%Z
        ∧ ∀ x, x ∈ res_Items r →
            ∃ o, row_from (cc_Origins (start_cursor request)) (log (Collect fuel request s).2) o x
              ∧ granted request' (log (Collect fuel request s).2) o.
Proof.
  intros Hs.
  assert (∀ e : error, ∃ request', probed request (log s) request' ∧ log_ok (scope_of request) request' (log s)
    ∧ ∀ r, Less request = Some less → @Raised T e = Returned r →
        (Z.of_nat (length (res_Items r)) ≤ Limit (Options request))%Z
        ∧ ∀ x, x ∈ res_Items r → ∃ o, row_from (cc_Origins (start_cursor request)) (log s) o x ∧ granted request' (log s) o)
    as Hearly.
  { intros e. exists request. rewrite Hs. split_and!; [by left|by intros ???; rewrite lookup_nil|done]. }
  unfold Collect. destruct (_ || bool_decide _); [apply Hearly|]. destruct (_ || _ || _); [apply Hearly|].
  destruct (_ || _) eqn:Hlim; [apply Hearly|]. clear Hearly. apply orb_false_iff in Hlim as [? ?]. bool_to_prop.
  cbn [mbind M_bind]. unfold mbind, M_bind.
  pose proof (global_probe_spec request s Hs) as Hprobe.
  destruct (global_probe _ _ s) as [request' s1]. destruct Hprobe as [Hprobed Hlog]. exists request'.
  destruct (probed_fields _ _ _ Hprobed) as (Hl & Hopt & Hcur).
  destruct (canonicalOrigins (Origins request)) as [|o0 origins0] eqn:Horig.
  { cbn [fst snd mret M_ret]. split_and!; [done|done|]. intros r _ [= <-]. cbn [res_Items length].
    split; [lia|]. by intros x ?%elem_of_nil. }
  rewrite <- Horig. pose proof (start_in_scope request) as Hscope. set (origins := canonicalOrigins (Origins request)) in *.
  rewrite Hcur. destruct (match req_Cursor request with Some c => Validate c origins | None => None end) eqn:Hvalid; [by split_and!|].
  specialize (Hscope eq_refl).
  change (default (NewCompositeCursor origins) (req_Cursor request)) with (start_cursor request).
  destruct (runs_strategy (scope_of request) (cc_Origins (start_cursor request)) fuel request' origins (log s1)
    (cc_Origins (start_cursor request)) Hscope (rows_initial _ _) s1 eq_refl Hlog) as (l1 & Hl1 & Hok1 & Hwin).
  destruct (strategy_Next _ _ _ _ s1) as [page s2]. cbn [fst snd] in *.
  assert (∀ l, probed request (log s1 ++ l) request') as Hprobed'.
  { intros l. destruct Hprobed as [?|(first & c & Hin & Hc & Hr)]; [by left|right]. exists first, c.
    split_and!; [done|by apply take_1_app|apply Hr..]. }
  destruct page as [[outs os]|e|]; [|cbn [fst snd mret M_ret]; by rewrite Hl1; split_and!..]. destruct Hwin as (Houts & Hor & Hrows).
  destruct (runs_recheck (scope_of request) request' (log s1 ++ l1) outs os (in_scope_origins _ _ _ Hor Hscope) Houts s2 Hl1 Hok1)
    as (l2 & Hl2 & Hok2 & Houts2).
  destruct (recheck_completed _ _ _ s2) as [outs2 s3]. cbn [fst snd mret M_ret] in *. rewrite Hl2.
  split_and!; [rewrite <- app_assoc; apply Hprobed'|done|]. intros r Hless Hfin.
  apply (rows_mono _ _ ((log s1 ++ l1) ++ l2)) in Hrows; [|by eexists].
  destruct (finish_rows request' origins _ outs2 os _ r _ ltac:(congruence) Hfin Houts2 Hrows) as [Hlen Hall].
  split; [by rewrite <- Hopt|done].
Qed.

Lemma Collect_rows fuel request s r s' :
  log s = [] → globalListGrant request = None → Less request = Some less →
  Collect fuel request s = (Returned r, s') →
  (Z.of_nat (length (res_Items r)) ≤ Limit (Options request))%Z
  ∧ ∀ x, x ∈ res_Items r →
      ∃ o, row_from (cc_Origins (start_cursor request)) (log s') o x ∧ shown request (log s') o.
Proof.
  intros Hs Hnone Hless Hrun. destruct (Collect_run fuel request s Hs) as (request' & Hprobed & _ & Hrows).
  rewrite Hrun in Hprobed, Hrows. cbn [fst snd] in *. destruct (Hrows r Hless eq_refl) as [Hlen Hall]. split; [done|].
  intros x Hx. destruct (Hall x Hx) as (o & Hrow & Hg). exists o. split; [done|].
  by eapply granted_shown.
Qed.

(** C1: a page shows only authorized rows. Whatever the authorizer, the API server and
    the context answer, every row [Collect] returns belongs to an origin that this
    very request has evidence for (its own review, a cluster-wide review, or a
    successful LIST where an inconclusive review is read through), and it was listed
    from that origin in this request or buffered for it in the cursor presented;
    and the page has at most the requested number of rows. *)
Theorem collect_shows_only_authorized fuel request s r s' :
  log s = [] → globalListGrant request = None → Less request = Some less →
  Collect fuel request s = (Returned r, s') →
  (Z.of_nat (length (res_Items r)) ≤ Limit (Options request))%Z
  ∧ ∀ x, x ∈ res_Items r →
      ∃ o, row_from (cc_Origins (start_cursor request)) (log s') o x ∧ shown request (log s') o.
Proof. apply Collect_rows. Qed.
End collect.

(** ** Every LIST is reviewed *)

Section lists.
Context {T W : Type} `{Ports T W} `{ApiErrors} `{!ListerOk} `{SliceSortOk}.
Implicit Types (request : CollectionRequest T) (lg : list (call T)).

(** A LIST of [o] was reviewed before: for [o] itself, or for its whole resource in all
    namespaces, which counts only on the fast path and only when it answered "allowed". *)
Definition list_reviewed request lg (o : Origin) : Prop :=
  ∃ wanted, wanted ∈ Origins request ∧ Origin_Key wanted = Origin_Key o
  ∧ ((∃ c, CalledCheck (origin_key request o) c ∈ lg
           ∧ (allowed_by c ∨ unknown_by c ∧ ReadThroughUnknown request = true))
     ∨ GlobalGrantFastPath request = true
       ∧ ∃ c, CalledCheck (list_key request "" (org_APIGroup wanted) (org_Resource wanted)) c ∈ lg ∧ allowed_by c).

(** C2: no LIST without a review. Whatever the authorizer, the API server and the context
    do, every LIST a collection sends (probes, retries and failed collections included) is
    for an origin of the request, and earlier in the same request a review of that origin
    answered "allowed", or answered inconclusively where reading through such answers is
    enabled; or, on the fast path for one resource in several namespaces, the review of that
    resource in all namespaces answered "allowed". *)
Theorem no_list_without_review fuel request s :
  log s = [] → globalListGrant request = None →
  ∀ i r e, log (Collect fuel request s).2 !! i = Some (CalledList r e) →
    list_reviewed request (take i (log (Collect fuel request s).2)) (pr_Origin r).
Proof.
  intros Hs Hnone i r e Hi. assert (StrictWeakOrder (λ _ _ : T, false)) by by split.
  destruct (Collect_run (λ _ _, false) fuel request s Hs) as (request' & Hprobed & Hlog & _).
  destruct (Hlog i r e Hi) as [(wanted & Hkey & Hin)%list_elem_of_fmap Hmay]. exists wanted. split_and!; [done|done|].
  destruct Hprobed as [->|(first & c & Hfirst & Hc & Ha & -> & Hfast & Hsame)].
  - destruct Hmay as [(g & Hg & _)|Hmay]; [congruence|by left].
  - destruct Hmay as [_|Hmay]; [|by left]. right. split; [done|]. exists c.
    destruct (Hsame wanted Hin) as [-> ->]. split; [|done].
    destruct i as [|i]; [|destruct (log (Collect fuel request s).2) as [|x l]; [by apply not_elem_of_nil in Hc|]].
    + destruct (log (Collect fuel request s).2) as [|x l]; [done|]. injection Hi as ->.
      apply list_elem_of_singleton in Hc. done.
    + apply list_elem_of_singleton in Hc as ->. by left.
Qed.
End lists.
