(* ===== verification/Termination.v ===== *)
(** * Termination: a collection always answers

    The loops of the pagination strategies read as long as the upstream returns
    pages. What bounds them is the deadline of the request context, which [Collect]
    sets. With a context that ends after finitely many LIST calls ([Deadline]), any
    fuel above that number is enough, and [Collect] returns a page or an error. *)
From Stdlib Require Import Ascii String ZArith Lia.
From stdpp Require Import base gmap strings list.
From S2P Require Import Prelude Json Topics Cursor Ports Retry Pagination PaginationSafety Collect CollectSafety.

(** [budget w]: how many LIST calls can still be made before the context has ended. *)
Class Deadline `{Ports T W} (budget : W → nat) : Prop := {
  deadline_passed : ∀ w, budget w = 0 → is_Some (port_ctx_err w);
  deadline_list : ∀ r w, budget (port_ListPage r w).2 ≤ budget w - 1;
  deadline_check : ∀ k w, budget (port_Check k w).2 ≤ budget w;
  deadline_jitter : ∀ d w, budget (port_Jitter d w).2 ≤ budget w;
  deadline_wait : ∀ d w, budget (port_Wait d w).2 ≤ budget w;
  deadline_throttle : ∀ w, budget (port_OnThrottle w) ≤ budget w }.

Section termination.
Context {T W : Type} `{Ports T W} `{ApiErrors} (budget : W → nat) `{!Deadline budget}.
Implicit Types (request : CollectionRequest T).

Definition left_of (s : St T W) : nat := budget (world s).

(** [m] never gives budget back, and spends some when its answer satisfies [p]. *)
Definition drains {A} (m : M T W A) (p : A → bool) : Prop :=
  ∀ s, left_of (m s).2 ≤ left_of s ∧ (p (m s).1 = true → left_of (m s).2 < left_of s).

Definition never {A} : A → bool := λ _, false.

Lemma drains_ret {A} (a : A) p : p a = false → drains (mret a) p.
Proof. intros Hp s. split; [done|]. simpl. congruence. Qed.

Lemma drains_bind {A B} (m : M T W A) (f : A → M T W B) p r :
  drains m p → (∀ a, drains (f a) (λ b, r b && negb (p a))) → drains (m ≫= f) r.
Proof.
  intros Hm Hf s. unfold mbind, M_bind. destruct (Hm s) as [Hm1 Hm2].
  destruct (m s) as [a s1]. destruct (Hf a s1) as [Hf1 Hf2]. cbn [fst snd] in *.
  split; [lia|]. intros Hr. rewrite Hr in Hf2. destruct (p a); simpl in *; [|specialize (Hf2 eq_refl)]; lia.
Qed.

Lemma drains_weaken {A} (m : M T W A) (p q : A → bool) :
  (∀ a, q a = true → p a = true) → drains m p → drains m q.
Proof. intros Hpq Hm s. destruct (Hm s) as [H1 H2]. split; [done|]. intros Hq. by apply H2, Hpq. Qed.

Lemma drains_never {A} (m : M T W A) p : drains m p → drains m never.
Proof. apply drains_weaken. done. Qed.

Lemma drains_ctx : drains (ctx_err) never.
Proof. intros s. by split. Qed.

Lemma drains_Check k : drains (Check k) never.
Proof.
  intros s. unfold Check, left_of. pose proof (deadline_check k (world s)).
  destruct (port_Check k (world s)). by split.
Qed.

Lemma drains_Jitter d : drains (Jitter d) never.
Proof.
  intros s. unfold Jitter, left_of. pose proof (deadline_jitter d (world s)).
  destruct (port_Jitter d (world s)). by split.
Qed.

Lemma drains_Wait e d : drains (Wait e d) never.
Proof.
  intros s. unfold Wait, left_of. pose proof (deadline_wait d (world s)).
  destruct (port_Wait d (world s)). by split.
Qed.

Lemma drains_unit (m : M T W unit) :
  (∀ s, left_of (m s).2 ≤ left_of s) → drains m never.
Proof. intros Hm s. by split. Qed.

(** ** Reads *)

Definition succeeded (a : OriginPage T * option error) : bool := bool_decide (a.2 = None).

Lemma drains_bind_never {A B} (m : M T W A) (f : A → M T W B) r :
  drains m never → (∀ a, drains (f a) r) → drains (m ≫= f) r.
Proof.
  intros Hm Hf. eapply drains_bind; [exact Hm|]. intros a. eapply drains_weaken; [|apply Hf].
  intros b. by rewrite andb_true_r.
Qed.

(** A LIST sent after the context was found alive spends budget, whatever follows. *)
Lemma drains_guarded {A} r (k : error → M T W A) (f : OriginPage T * option error → M T W A) p :
  (∀ e, drains (k e) p) → (∀ a, drains (f a) never) →
  drains (c ← ctx_err; match c with Some e => k e | None => a ← ListPage r; f a end) p.
Proof.
  intros Hk Hf s. cbv [mbind M_bind ctx_err ListPage].
  destruct (port_ctx_err (world s)) as [e|] eqn:Hctx; [apply Hk|].
  assert (left_of s ≠ 0) as Hpos.
  { intros Hz. destruct (deadline_passed (world s) Hz) as [e He]. congruence. }
  pose proof (deadline_list r (world s)) as Hlist. destruct (port_ListPage r (world s)) as [a w].
  destruct (Hf a (with_world s w (CalledList r a))) as [Hle _]. unfold left_of in *.
  cbn [snd with_world world] in *. split; [lia|]. intros _. lia.
Qed.

Lemma drains_retry_loop p r remaining attempt lastErr :
  remaining ≠ 0 ∨ lastErr ≠ None →
  drains (retry_loop p r remaining attempt lastErr) succeeded.
Proof.
  revert attempt lastErr. induction remaining as [|rest IH]; intros attempt lastErr Hlast; cbn [retry_loop].
  { apply drains_ret. unfold succeeded. simpl. apply bool_decide_false. naive_solver. }
  apply drains_guarded; [intros e; by apply drains_ret|]. intros [page [err|]]; [|by apply drains_ret].
  apply drains_bind_never.
  { destruct (_ && _); apply drains_unit; intros s2; [exact (deadline_throttle (world s2))|done]. }
  intros _. destruct (negb _ || (rest =? 0)%nat); [by apply drains_ret|].
  apply drains_bind_never. { destruct (rate_limited err); by apply drains_unit. }
  intros _. destruct (_ <? _)%Z; [by apply drains_ret|].
  apply drains_bind_never; [apply drains_Jitter|]. intros jittered.
  apply drains_bind_never; [apply drains_Wait|]. intros [e|]; [by apply drains_ret|].
  eapply drains_never, IH. by right.
Qed.

Lemma drains_retry policy r : drains (retryListPage policy r) succeeded.
Proof.
  unfold retryListPage. apply drains_retry_loop. left.
  pose proof (normalized_bounds policy) as [? _]. lia.
Qed.

(** An outcome that moved the cursor. *)
Definition progressed (out : originOutcome T) : bool :=
  bool_decide (out_err out = None) && out_queried out.

Lemma drains_fetch request st limit c :
  drains (fetchOrigin request st limit c) (λ out, bool_decide (out_err out = None)).
Proof.
  unfold fetchOrigin. eapply drains_bind; [apply drains_retry|]. intros [page err].
  apply drains_ret. unfold succeeded. simpl. by destruct (bool_decide _).
Qed.

Lemma drains_authorize request o : drains (authorizeOrigin request o) progressed.
Proof.
  assert (∀ (out : originOutcome T), out_queried out = false → drains (mret out) progressed) as Hret.
  { intros out Hq. apply drains_ret. unfold progressed. by rewrite Hq, andb_false_r. }
  unfold authorizeOrigin. destruct (globalListGrant request); [by apply Hret|].
  apply drains_bind_never; [apply drains_Check|]. intros c. destruct (_ || _); [by apply Hret|].
  apply drains_bind_never; [eapply drains_never, drains_retry|]. intros [page [err|]]; [|by apply Hret].
  simpl. case_bool_decide; by apply Hret.
Qed.

Lemma drains_job request os fetch known st : drains (origin_job request os fetch known st) progressed.
Proof.
  unfold origin_job. eapply drains_bind; [apply drains_authorize|]. intros out.
  set (out' := {| out_page := _ |}).
  assert (progressed out' = progressed out) as Heq by done.
  case_bool_decide; [apply drains_ret; rewrite Heq; by destruct (progressed out)|].
  destruct (_ && _); [|apply drains_ret; rewrite Heq; by destruct (progressed out)].
  eapply drains_weaken; [|apply drains_fetch]. intros a Ha. unfold progressed in *.
  by apply andb_true_iff in Ha as [[? _]%andb_true_iff _].
Qed.

Lemma drains_jobs request os fetch known indices :
  drains (run_jobs request os fetch known indices) (existsb progressed ∘ fmap snd).
Proof.
  induction indices as [|index rest IH]; cbn [run_jobs]; [by apply drains_ret|].
  destruct (os !! index); [|apply IH].
  eapply drains_bind; [apply drains_job|]. intros out.
  eapply drains_bind; [apply IH|]. intros others. apply drains_ret. simpl.
  destruct (progressed out); [by rewrite andb_false_r|]. simpl.
  destruct (existsb progressed _); by rewrite ?andb_false_r.
Qed.

Lemma drains_workers request os indices fetch known :
  drains (runOriginWorkers request os indices fetch known) (existsb progressed ∘ fmap snd).
Proof.
  unfold runOriginWorkers. apply drains_bind_never; [by intros s|]. intros jobs. apply drains_jobs.
Qed.

(** ** Strategies *)

(** With less than [n] left, [m] gives an answer and no budget back. *)
Definition ends {A} (n : nat) (m : M T W (step A)) : Prop :=
  ∀ s, left_of s < n → (m s).1 ≠ OutOfFuel ∧ left_of (m s).2 ≤ left_of s.

Lemma ends_ret {A} n (r : step A) : r ≠ OutOfFuel → ends n (mret r).
Proof. intros Hr s _. by split. Qed.

Lemma ends_bind {A B} n (m : M T W A) (f : A → M T W (step B)) p :
  drains m p → (∀ a, ends n (f a)) → ends n (m ≫= f).
Proof.
  intros Hm Hf s Hs. unfold mbind, M_bind. destruct (Hm s) as [Hle _]. destruct (m s) as [a s1].
  cbn [snd] in *. destruct (Hf a s1) as [H1 H2]; [lia|]. split; [done|lia].
Qed.

Lemma ends_step {A B} n (m : M T W (step A)) (f : step A → M T W (step B)) :
  ends n m → (∀ r, r ≠ OutOfFuel → ends n (f r)) → ends n (m ≫= f).
Proof.
  intros Hm Hf s Hs. unfold mbind, M_bind. destruct (Hm s Hs) as [Hr Hle]. destruct (m s) as [a s1].
  cbn [fst snd] in *. destruct (Hf a Hr s1) as [H1 H2]; [lia|]. split; [done|lia].
Qed.

Lemma ends_GlobalNative n request os : ends n (GlobalNative_Next request os).
Proof.
  unfold GlobalNative_Next. destruct os as [|st [|]]; [by apply ends_ret| |by apply ends_ret].
  eapply ends_bind; [apply drains_authorize|]. intros out. destruct (_ || _ || _); [by apply ends_ret|].
  eapply ends_bind; [apply drains_fetch|]. intros fetched. destruct (out_err fetched); [by apply ends_ret|].
  destruct (applyOriginPage _ _ _); by apply ends_ret.
Qed.

Lemma ends_sequential_fill fuel request origins c st available outs :
  ends fuel (sequential_fill fuel request origins c st available outs).
Proof.
  revert st available outs. induction fuel as [|fuel IH]; intros st available outs s Hs; [lia|].
  cbn [sequential_fill]. destruct (_ && _); [|by split]. unfold mbind, M_bind.
  destruct (drains_fetch request st (originChunkLimit origins (Limit (Options request))) c s) as [Hle Hlt].
  destruct (fetchOrigin _ _ _ _ s) as [fetched s1]. cbn [fst snd] in *.
  destruct (out_err fetched) eqn:He; [by split|].
  destruct (applyOriginPage _ _ _) as [st'|]; [|by split].
  rewrite bool_decide_true in Hlt by done. specialize (Hlt eq_refl).
  destruct (IH st' (available + (buffered_count st' - buffered_count st))%Z (outs ++ [fetched]) s1) as [H1 H2];
    [lia|]. split; [done|lia].
Qed.

Lemma drains_prefetch request index st os prefetched :
  drains (sequential_prefetch request index st os prefetched) never.
Proof.
  unfold sequential_prefetch. destruct (_ && _); [eapply drains_never, drains_workers|by apply drains_ret].
Qed.

Lemma drains_sequential_authorize request (st : OriginCursor T) (known : option (originOutcome T)) :
  drains (match known with
          | Some o => mret o
          | None =>
            o ← authorizeOrigin request (oc_Origin st);
            mret {| out_page := out_page o; out_capability := out_capability o;
                    out_err := out_err o; out_queried := out_queried o;
                    out_authoritative := oc_Exhausted st || (0 <? buffered_count st)%Z |}
          end) never.
Proof.
  destruct known; [by apply drains_ret|].
  eapply drains_bind; [apply drains_authorize|]. intros out. by apply drains_ret.
Qed.

Lemma ends_sequential fuel request indices os available prefetched outs :
  ends fuel (sequential_loop fuel request indices os available prefetched outs).
Proof.
  revert os available prefetched outs.
  induction indices as [|index rest IH]; intros os available prefetched outs; cbn [sequential_loop];
    [by apply ends_ret|].
  eapply ends_bind; [apply drains_ctx|]. intros [e|]; [by apply ends_ret|].
  destruct (os !! index) as [st0|]; [|by apply ends_ret]. destruct (_ && _); [apply IH|].
  eapply ends_bind; [apply drains_prefetch|]. intros batch.
  destruct (apply_batch _ _ _) as [os1|]; [|by apply ends_ret]. cbv zeta.
  eapply ends_bind; [apply drains_sequential_authorize|]. intros authorized.
  destruct (_ || _); [apply IH|].
  eapply ends_step; [apply ends_sequential_fill|].
  intros [[[st' av] outs3]|e|] Hr; [|by apply ends_ret|done].
  destruct (_ <=? _)%Z; [by apply ends_ret|apply IH].
Qed.

(** Whether a pass made progress that was not there before. *)
Definition new_progress (z : lazy_state (T := T)) (r : step (bool * lazy_state (T := T))) : bool :=
  match r with Done (_, z') => lz_progress z' && negb (lz_progress z) | _ => false end.

Lemma drains_slices request slices z : drains (lazy_slices request slices z) (new_progress z).
Proof.
  revert z. induction slices as [|slice rest IH]; intros z; cbn [lazy_slices].
  { apply drains_ret. simpl. by destruct (lz_progress z). }
  apply drains_bind_never; [apply drains_ctx|]. intros [e|]; [by apply drains_ret|].
  eapply drains_bind; [apply drains_workers|]. intros batch.
  destruct (apply_batch _ _ _) as [os|]; [|by apply drains_ret]. cbv zeta.
  set (z' := {| lz_outs := _ |}). cbn [compose].
  assert (lz_progress z' = lz_progress z || existsb progressed (snd <$> batch)) as Hz' by done.
  destruct (page_ready request z').
  - apply drains_ret. unfold new_progress, compose. rewrite Hz'. by destruct (lz_progress z), (existsb _ _).
  - eapply drains_weaken; [|apply IH]. unfold new_progress, compose. intros [[b z'']|e|]; [|done..].
    rewrite Hz'. by destruct (lz_progress z''), (lz_progress z), (existsb _ _).
Qed.

Lemma lazy_slices_answer request slices z s : (lazy_slices request slices z s).1 ≠ OutOfFuel.
Proof.
  revert z s. induction slices as [|slice rest IH]; intros z s; cbn [lazy_slices]; [done|].
  unfold mbind, M_bind. destruct (ctx_err s) as [[e|] s1]; [done|].
  destruct (fetchBatch _ _ _ _ s1) as [batch s2]. destruct (apply_batch _ _ _) as [os|]; [|done].
  cbv zeta. destruct (page_ready _ _); [done|apply IH].
Qed.

Lemma ends_lazy_rounds fuel request z : ends fuel (lazy_rounds fuel request z).
Proof.
  revert z. induction fuel as [|fuel IH]; intros z s Hs; [lia|]. cbn [lazy_rounds]. cbv zeta.
  set (z0 := {| lz_outs := _ |}). unfold mbind, M_bind, lazy_pass.
  match goal with |- context [lazy_slices request ?sl z0 s] =>
    pose proof (drains_slices request sl z0 s) as [Hle1 Hlt1];
    pose proof (lazy_slices_answer request sl z0 s) as Ha1;
    destruct (lazy_slices request sl z0 s) as [r1 s1] end.
  cbn [fst snd] in *. destruct r1 as [[[] z1]|e|]; [by split| |by split|done].
  match goal with |- context [lazy_slices request ?sl z1 s1] =>
    pose proof (drains_slices request sl z1 s1) as [Hle2 Hlt2];
    pose proof (lazy_slices_answer request sl z1 s1) as Ha2;
    destruct (lazy_slices request sl z1 s1) as [r2 s2] end.
  cbn [fst snd] in *. destruct r2 as [[[] z2]|e|]; [split; [done|by etrans]| |split; [done|by etrans]|done].
  destruct (negb (lz_progress z2) || _) eqn:Hstop; [split; [done|by etrans]|].
  apply orb_false_iff in Hstop as [Hprog%negb_false_iff _].
  assert (left_of s2 < left_of s) as Hlt.
  { simpl in Hlt1, Hlt2. rewrite Hprog in Hlt2. simpl in Hlt2.
    destruct (lz_progress z1); simpl in *; [specialize (Hlt1 eq_refl)|specialize (Hlt2 eq_refl)]; lia. }
  destruct (IH z2 s2) as [H1 H2]; [lia|]. split; [done|lia].
Qed.

Lemma ends_LazyMerge fuel request os : ends fuel (LazyMerge_Next fuel request os).
Proof.
  unfold LazyMerge_Next. eapply ends_bind.
  - unfold authorizeBatch. apply drains_bind_never; [eapply drains_never, drains_workers|].
    intros batch. apply (drains_ret _ never). done.
  - intros outs. cbv zeta. destruct (page_ready _ _); [by apply ends_ret|]. apply ends_lazy_rounds.
Qed.

Lemma ends_NamespaceSequential fuel request os : ends fuel (NamespaceSequential_Next fuel request os).
Proof. apply ends_sequential. Qed.

Lemma ends_basic fuel request os : ends fuel (basic_Next fuel request os).
Proof.
  unfold basic_Next. destruct (selectPaginationStrategy _ _);
    auto using ends_GlobalNative, ends_NamespaceSequential, ends_LazyMerge.
Qed.

Lemma ends_priority fuel request phases os available outs :
  ends fuel (priority_phases fuel request phases os available outs).
Proof.
  revert os available outs. induction phases as [|preferred rest IH]; intros os available outs;
    cbn [priority_phases]; [by apply ends_ret|]. cbv zeta.
  destruct (phase_indices request preferred os); [apply IH|].
  eapply ends_step; [apply ends_basic|]. intros [[outs1 next]|e|] Hr; [|by apply ends_ret|done].
  destruct (_ && _); [by apply ends_ret|]. destruct (_ <=? _)%Z; [by apply ends_ret|apply IH].
Qed.

Lemma ends_strategy fuel request origins os : ends fuel (strategy_Next fuel request origins os).
Proof.
  unfold strategy_Next. destruct (selectPaginationStrategy _ _);
    auto using ends_GlobalNative, ends_NamespaceSequential, ends_LazyMerge, ends_priority.
Qed.

(** ** Collect *)

Context `{SliceSort}.

Lemma finish_answers (less : T → T → bool) request origins outs cursor :
  StrictWeakOrder less → Less request = Some less →
  (1 ≤ Limit (Options request) ≤ MaximumListLimit)%Z →
  (∃ r, finish request origins outs cursor = Returned r)
  ∨ ∃ e, finish request origins outs cursor = Raised e.
Proof.
  intros Hswo Hless Hlim. unfold finish. destruct (aggregate_all outs) as [aggs|]; [|eauto].
  destruct (collection_failure _); [eauto|].
  destruct (mergePreferred_total less cursor request (cs_allowedOrigins (cover aggs origins)) Hless Hlim)
    as (items & next & ->). destruct (Validate next origins); eauto.
Qed.

Lemma global_probe_drains request origins s :
  left_of (global_probe request origins s).2 ≤ left_of s
  ∧ Less (global_probe request origins s).1 = Less request
  ∧ Options (global_probe request origins s).1 = Options request.
Proof.
  unfold global_probe. destruct origins as [|o l]; [done|]. destruct (_ && _ && _); [|done].
  unfold mbind, M_bind. pose proof (drains_Check (list_key request "" (org_APIGroup o) (org_Resource o)) s) as [Hle _].
  destruct (Check _ s) as [c s1]. cbn [fst snd mret M_ret] in *. split; [done|].
  by destruct (is_decision DecisionAllowed c).
Qed.

(** C24: a collection always answers. If the request context ends after finitely many
    LIST calls and the comparison is a strict weak order, [Collect] returns a page or
    an error for every behaviour of the authorizer and the API server, including
    one that keeps sending continue tokens forever; it never loops on and never
    panics. Any fuel above the number of LIST calls the context allows is enough. *)
Theorem collect_always_answers fuel request s :
  (∀ less, Less request = Some less → StrictWeakOrder less) →
  left_of s < fuel →
  (∃ r, (Collect fuel request s).1 = Returned r) ∨ ∃ e, (Collect fuel request s).1 = Raised e.
Proof.
  intros Hswo Hfuel. unfold Collect. destruct (Less request) as [less|] eqn:Hless.
  2: { rewrite bool_decide_true by done. rewrite orb_true_r. simpl. eauto. }
  specialize (Hswo less eq_refl). destruct (_ || bool_decide _); [simpl; eauto|].
  destruct (_ || _ || _); [simpl; eauto|].
  destruct ((Limit (Options request) <? 1)%Z || _) eqn:Hlim; [simpl; eauto|].
  apply orb_false_iff in Hlim as [Hl1 Hl2]. bool_to_prop. unfold mbind, M_bind.
  destruct (global_probe_drains request (canonicalOrigins (Origins request)) s) as (Hle & Hl & Ho).
  destruct (global_probe _ _ s) as [request' s1]. cbn [fst snd] in *.
  destruct (canonicalOrigins (Origins request)) as [|o origins]; [simpl; eauto|].
  destruct (match req_Cursor request' with Some c => _ | None => _ end); [simpl; eauto|].
  match goal with |- context [strategy_Next fuel request' ?os0 ?c s1] =>
    destruct (ends_strategy fuel request' os0 c s1) as [Hne _]; [lia|];
    destruct (strategy_Next fuel request' os0 c s1) as [[[outs os]|e|] s2] end;
    [|simpl; eauto|done].
  destruct (recheck_completed _ _ _ s2) as [outs2 s3]. cbn [fst mret M_ret].
  apply (finish_answers less); [done|by rewrite Hl|]. rewrite Ho. lia.
Qed.
End termination.

(** ** Witnesses *)

(** A cluster with two namespaces; "a" is readable, "b" is denied. Every LIST
    returns one row and a new token, for ever; the context allows five LIST calls. *)
Definition demo_ports : Ports nat nat := {|
  port_ctx_err := λ w, if (w =? 0)%nat then Some ContextDeadlineExceeded else None;
  port_Check := λ k w, ({| cap_Decision := if String.eqb (k_Namespace k) "a" then DecisionAllowed
                                           else DecisionDenied; cap_ReasonCode := "" |}, w);
  port_ListPage := λ r w,
    (({| page_Origin := pr_Origin r; page_Items := [w]; page_Continue := "t" +:+ pr_Continue r;
         page_ResourceVersion := "1" |}, None), w - 1);
  port_Jitter := λ d w, (d, w);
  port_Wait := λ d w, (None, w);
  port_OnThrottle := λ w, w;
  port_dispatch := λ n w, n |}.

Definition demo_errors : ApiErrors := {| IsTimeout := λ _, false; IsForbidden := λ _, false |}.

Definition demo_request : CollectionRequest nat := {|
  sel_Generation := "gen_1"; sel_Context := "dev"; sel_Scope := "all";
  Options := {| Limit := 3; opt_Sort := "name"; opt_Order := "asc"; LabelSelector := "";
                FieldSelector := "" |};
  Origins := [demo_origin "b"; demo_origin "a"]; req_Cursor := None; hasLister := true;
  hasAuthorizer := true; Less := Some Nat.ltb; RequestedNamespaces := 0; Fanout := 0;
  Retry := {| Attempts := 0; Base := 0; Maximum := 0; hasOnThrottle := false |};
  PreferredNamespace := ""; NativeIdentityOrder := false; GlobalGrantFastPath := true;
  ReadThroughUnknown := false; globalListGrant := None |}.

Definition demo_start : St nat nat := {| world := 5; log := []; throttles := 0 |}.

Lemma demo_lister_ok : @ListerOk nat nat demo_ports.
Proof. split. intros r w. by left. Qed.

Lemma demo_deadline : @Deadline nat nat demo_ports (λ w, w).
Proof. split; simpl; intros; try lia. subst. eauto. Qed.

Lemma collect_always_answers_witness :
  ∃ r, (@Collect nat nat demo_ports demo_errors stable_slice_sort 6 demo_request demo_start).1 = Returned r.
Proof.
  destruct (@collect_always_answers nat nat demo_ports demo_errors (λ w, w) demo_deadline
    stable_slice_sort 6 demo_request demo_start) as [H|[e H]].
  - intros less [= <-]. apply _.
  - vm_compute. lia.
  - exact H.
  - by vm_compute in H.
Defined.

Lemma collect_shows_only_authorized_witness :
  ∃ r, (@Collect nat nat demo_ports demo_errors stable_slice_sort 6 demo_request demo_start).1 = Returned r
    ∧ res_Items r = [3; 4; 5] ∧ (Z.of_nat (length (res_Items r)) ≤ 3)%Z.
Proof.
  destruct (@Collect nat nat demo_ports demo_errors stable_slice_sort 6 demo_request demo_start)
    as [[r|e| |] s'] eqn:Hc; [|by vm_compute in Hc..].
  exists r. split; [done|]. split.
  - vm_compute in Hc. by injection Hc as <- _.
  - apply (@collect_shows_only_authorized nat nat demo_ports demo_errors demo_lister_ok stable_slice_sort
      stable_slice_sort_ok Nat.ltb ltb_swo 6 demo_request demo_start r s'); done.
Defined.

Definition demo_log : list (call nat) := log (@Collect nat nat demo_ports demo_errors stable_slice_sort 6 demo_request demo_start).2.
Lemma no_list_without_review_witness :
  ∃ r e, demo_log !! 2 = Some (CalledList r e) ∧ org_Namespace (pr_Origin r) = "a"
    ∧ list_reviewed demo_request (take 2 demo_log) (pr_Origin r).
Proof.
  eexists _, _. split; [by vm_compute|]. split; [by vm_compute|].
  eapply (@no_list_without_review nat nat demo_ports demo_errors demo_lister_ok stable_slice_sort
    stable_slice_sort_ok 6 demo_request demo_start); [done|done|by vm_compute].
Defined.
