(* ===== verification/Scheduler.v ===== *)
(** * Scheduler: the adaptive request scheduler

    Model of src/internal/services/resources/scheduler.go. The fields under the
    mutex are the record [RequestScheduler]; each stretch of code between a Lock and
    its Unlock is one function on it. [Acquire] runs in many goroutines at once, so
    the concurrent system is a step function over the scheduler and the program
    counter of every goroutine: any list of actions is an interleaving. The
    [changed] channel that waiters select on is the number of channels created
    before it, so a channel is closed exactly when a later one exists.

    Times are nanoseconds since Go's zero time; the clock is read by the action that
    uses it. The two token-bucket limiters belong to client-go: [limiter.Wait]
    answers nil or an error, and the action says which. *)
From Stdlib Require Import Ascii String ZArith Lia.
From stdpp Require Import base gmap strings list.
From S2P Require Import Prelude Json Topics.

Local Open Scope Z_scope.

(** ** State *)

Inductive RequestPriority := PriorityVisible | PriorityLikelyNext | PriorityUnrelated.

#[export] Instance RequestPriority_eq_dec : EqDecision RequestPriority.
Proof. solve_decision. Defined.

Definition is_visible (p : RequestPriority) : bool :=
  match p with PriorityVisible => true | _ => false end.

Record SchedulerStats := {
  st_Active : Z; st_VisibleWaiting : Z; st_Deferred : Z; st_Congestion : Z; st_Limit : Z;
  st_Adaptive : bool; st_Increases : Z; st_Reductions : Z }.

Record SchedulerConfig := {
  cfg_Minimum : Z; cfg_Initial : Z; cfg_Maximum : Z; cfg_Adaptive : bool;
  cfg_HealthyThreshold : Z }.

Record RequestScheduler := {
  changed : nat;
  active : Z;
  visibleWaiting : Z;
  deferred : Z;
  congestion : Z;
  prefetchPauseUntil : Z;
  minimum : Z;
  limit : Z;
  maximum : Z;
  adaptive : bool;
  healthy : Z;
  healthyThreshold : Z;
  increases : Z;
  reductions : Z }.

Definition NewRequestSchedulerWithConfig (c : SchedulerConfig) : RequestScheduler :=
  let Minimum := if cfg_Minimum c <=? 0 then 2 else cfg_Minimum c in
  let Maximum := if cfg_Maximum c <=? 0 then 8 else cfg_Maximum c in
  let Initial := if cfg_Initial c <=? 0 then 4 else cfg_Initial c in
  let Minimum := Z.min Minimum Maximum in
  let Initial := Z.max Minimum (Z.min Initial Maximum) in
  let HealthyThreshold :=
    if cfg_HealthyThreshold c <=? 0 then 8 else cfg_HealthyThreshold c in
  {| changed := 0; active := 0; visibleWaiting := 0; deferred := 0; congestion := 0;
     prefetchPauseUntil := 0; minimum := Minimum; limit := Initial; maximum := Maximum;
     adaptive := cfg_Adaptive c; healthy := 0; healthyThreshold := HealthyThreshold;
     increases := 0; reductions := 0 |}.

Definition NewRequestScheduler (max : Z) : RequestScheduler :=
  let max := if max <=? 0 then 8 else max in
  NewRequestSchedulerWithConfig
    {| cfg_Minimum := max; cfg_Initial := max; cfg_Maximum := max; cfg_Adaptive := false;
       cfg_HealthyThreshold := 0 |}.

(** ** The critical sections *)

Definition set_slots (s : RequestScheduler) (channel : nat) (a w d : Z) : RequestScheduler :=
  {| changed := channel; active := a; visibleWaiting := w; deferred := d;
     congestion := congestion s; prefetchPauseUntil := prefetchPauseUntil s;
     minimum := minimum s; limit := limit s; maximum := maximum s; adaptive := adaptive s;
     healthy := healthy s; healthyThreshold := healthyThreshold s;
     increases := increases s; reductions := reductions s |}.

Definition prefetchDeferredLocked (s : RequestScheduler) (now : Z) (p : RequestPriority) : bool :=
  if limit s <=? 1 then true
  else
    let reserve := match p with PriorityUnrelated => 4 | _ => 2 end in
    let reserve := Z.min reserve (limit s - 1) in
    (0 <? visibleWaiting s) || (limit s - reserve <=? active s) || (now <? prefetchPauseUntil s).

(** What the locked part of one turn of [Acquire]'s loop ends in. *)
Inductive entered :=
| Defer                    (* return nil, ErrPrefetchDeferred *)
| Take                     (* a slot is held; go on to limiter.Wait *)
| Park (channel : nat).    (* select on [channel] *)

Definition acquire_locked (s : RequestScheduler) (now : Z) (p : RequestPriority)
  : entered * RequestScheduler :=
  let refuse :=
    (Defer, set_slots s (changed s) (active s) (visibleWaiting s) (u64_succ (deferred s))) in
  if negb (is_visible p) && prefetchDeferredLocked s now p then refuse
  else if active s <? limit s then
    (Take, set_slots s (changed s) (active s + 1) (visibleWaiting s) (deferred s))
  else if negb (is_visible p) then refuse
  else
    (Park (changed s), set_slots s (changed s) (active s) (visibleWaiting s + 1) (deferred s)).

(** [scheduler.visibleWaiting--] after the select. *)
Definition stop_waiting (s : RequestScheduler) : RequestScheduler :=
  set_slots s (changed s) (active s) (visibleWaiting s - 1) (deferred s).

Definition release (s : RequestScheduler) : RequestScheduler :=
  set_slots s (S (changed s)) (active s - 1) (visibleWaiting s) (deferred s).

Definition second : Z := 1000000000.

Definition Observe (s : RequestScheduler) (now latency : Z) (throttled timedOut : bool)
  : RequestScheduler :=
  if negb throttled && negb timedOut && (latency <? 2 * second) then
    if adaptive s && (limit s <? maximum s) then
      let h := healthy s + 1 in
      let grow := healthyThreshold s <=? h in
      {| changed := if grow then S (changed s) else changed s;
         active := active s; visibleWaiting := visibleWaiting s; deferred := deferred s;
         congestion := congestion s; prefetchPauseUntil := prefetchPauseUntil s;
         minimum := minimum s; limit := if grow then limit s + 1 else limit s;
         maximum := maximum s; adaptive := adaptive s; healthy := if grow then 0 else h;
         healthyThreshold := healthyThreshold s;
         increases := if grow then u64_succ (increases s) else increases s;
         reductions := reductions s |}
    else s
  else
    let next := Z.max (minimum s) (Z.quot (limit s) 2) in
    let shrink := adaptive s && (throttled || timedOut) && (next <? limit s) in
    let pause := if throttled || timedOut then 15 * second else 5 * second in
    let until := now + pause in
    {| changed := changed s; active := active s; visibleWaiting := visibleWaiting s;
       deferred := deferred s; congestion := u64_succ (congestion s);
       prefetchPauseUntil :=
         if prefetchPauseUntil s <? until then until else prefetchPauseUntil s;
       minimum := minimum s; limit := if shrink then next else limit s;
       maximum := maximum s; adaptive := adaptive s; healthy := 0;
       healthyThreshold := healthyThreshold s; increases := increases s;
       reductions := if shrink then u64_succ (reductions s) else reductions s |}.

Definition Stats (scheduler : option RequestScheduler) : SchedulerStats :=
  match scheduler with
  | None => {| st_Active := 0; st_VisibleWaiting := 0; st_Deferred := 0; st_Congestion := 0;
               st_Limit := 0; st_Adaptive := false; st_Increases := 0; st_Reductions := 0 |}
  | Some s =>
    {| st_Active := active s; st_VisibleWaiting := visibleWaiting s; st_Deferred := deferred s;
       st_Congestion := congestion s; st_Limit := limit s; st_Adaptive := adaptive s;
       st_Increases := increases s; st_Reductions := reductions s |}
  end.

(** ** Goroutines in [Acquire] *)

(** Where a goroutine stands: about to lock, in [limiter.Wait], about to release
    after the limiter failed, in the select, about to lock after the select took
    [changed] or [ctx.Done], returned with an error, or returned with the release
    function and whether its [sync.Once] has run. *)
Inductive thread :=
| Entering (p : RequestPriority)
| Limiting
| LimiterFailed (err : error)
| Waiting (channel : nat)
| Woken
| Leaving (err : error)
| Refused (err : error)
| Granted (released : bool).

Record system := { sched : RequestScheduler; threads : gmap nat thread }.

Definition init_system (c : SchedulerConfig) : system :=
  {| sched := NewRequestSchedulerWithConfig c; threads := ∅ |}.

Inductive action :=
| Call (t : nat) (p : RequestPriority) (ctxErr : option error) (* Acquire is called *)
| Enter (t : nat) (now : Z)                     (* one locked turn of the loop *)
| LimiterAnswers (t : nat) (answer : option error) (* limiter.Wait returns *)
| GiveBack (t : nat)                            (* release after a limiter error *)
| ChannelClosed (t : nat)                       (* case <-changed *)
| ContextDone (t : nat) (err : error)           (* case <-ctx.Done() *)
| StopWaiting (t : nat)                         (* visibleWaiting-- *)
| Release (t : nat)                             (* the returned function is called *)
| Observed (now latency : Z) (throttled timedOut : bool).

Definition move (w : system) (s : RequestScheduler) (t : nat) (th : thread) : system :=
  {| sched := s; threads := <[t := th]> (threads w) |}.

(** One action; [None] when the goroutine is not at that point, or when a channel
    it would receive from is still open. *)
Definition step (w : system) (a : action) : option system :=
  let s := sched w in
  match a with
  | Call t p ctxErr =>
    match threads w !! t with
    | None => Some (move w s t (match ctxErr with Some e => Refused e | None => Entering p end))
    | Some _ => None
    end
  | Enter t now =>
    match threads w !! t with
    | Some (Entering p) =>
      let '(out, s') := acquire_locked s now p in
      Some (move w s' t (match out with
                         | Defer => Refused ErrPrefetchDeferred
                         | Take => Limiting
                         | Park c => Waiting c
                         end))
    | _ => None
    end
  | LimiterAnswers t answer =>
    match threads w !! t with
    | Some Limiting =>
      Some (move w s t (match answer with Some e => LimiterFailed e | None => Granted false end))
    | _ => None
    end
  | GiveBack t =>
    match threads w !! t with
    | Some (LimiterFailed e) => Some (move w (release s) t (Refused e))
    | _ => None
    end
  | ChannelClosed t =>
    match threads w !! t with
    | Some (Waiting c) => if (c <? changed s)%nat then Some (move w s t Woken) else None
    | _ => None
    end
  | ContextDone t err =>
    match threads w !! t with
    | Some (Waiting _) => Some (move w s t (Leaving err))
    | _ => None
    end
  | StopWaiting t =>
    match threads w !! t with
    | Some Woken => Some (move w (stop_waiting s) t (Entering PriorityVisible))
    | Some (Leaving e) => Some (move w (stop_waiting s) t (Refused e))
    | _ => None
    end
  | Release t =>
    match threads w !! t with
    | Some (Granted false) => Some (move w (release s) t (Granted true))
    | Some (Granted true) => Some w
    | _ => None
    end
  | Observed now latency throttled timedOut =>
    Some {| sched := Observe s now latency throttled timedOut; threads := threads w |}
  end.

Fixpoint run (w : system) (acts : list action) : option system :=
  match acts with
  | [] => Some w
  | a :: acts' => match step w a with Some w' => run w' acts' | None => None end
  end.

(** Slots a goroutine holds, and whether it counts as a visible waiter. *)
Definition slots (th : thread) : Z :=
  match th with Limiting | LimiterFailed _ | Granted false => 1 | _ => 0 end.
Definition waits (th : thread) : Z :=
  match th with Waiting _ | Woken | Leaving _ => 1 | _ => 0 end.

(** ** The invariant *)

Record system_inv (w : system) : Prop := {
  inv_bounds : 1 ≤ minimum (sched w) ≤ limit (sched w) ∧ limit (sched w) ≤ maximum (sched w);
  inv_active : active (sched w) = map_sum slots (threads w);
  inv_active_max : active (sched w) ≤ maximum (sched w);
  inv_waiting : visibleWaiting (sched w) = map_sum waits (threads w);
  inv_healthy : 0 ≤ healthy (sched w) < healthyThreshold (sched w);
  inv_channel : ∀ t c, threads w !! t = Some (Waiting c) → (c ≤ changed (sched w))%nat;
  inv_parked : ∀ t, threads w !! t = Some (Waiting (changed (sched w))) →
                 limit (sched w) ≤ active (sched w) }.

Lemma sched_move_inv w s t th :
  system_inv w →
  minimum s = minimum (sched w) → limit s = limit (sched w) →
  maximum s = maximum (sched w) → healthy s = healthy (sched w) →
  healthyThreshold s = healthyThreshold (sched w) →
  (changed s = changed (sched w) ∧ active (sched w) ≤ active s
    ∧ (active s ≤ active (sched w) ∨ active s ≤ maximum (sched w))
   ∨ changed s = S (changed (sched w)) ∧ active s = active (sched w) - 1) →
  active s = map_sum slots (<[t := th]> (threads w)) →
  visibleWaiting s = map_sum waits (<[t := th]> (threads w)) →
  (∀ c, th = Waiting c → c = changed s ∧ limit s ≤ active s) →
  system_inv (move w s t th).
Proof.
  intros [Hb Ha Hm Hw Hh Hc Hp] E1 E2 E3 E4 E5 Hstep Hact Hwait Hpark.
  unfold move. split; cbn [sched threads]; rewrite ?E1, ?E2, ?E3, ?E4, ?E5; try done; try lia.
  - intros t' c Ht'. destruct (decide (t' = t)) as [->|Hne].
    + rewrite lookup_insert_eq in Ht'. simplify_eq. destruct (Hpark c eq_refl). lia.
    + rewrite lookup_insert_ne in Ht' by done. apply Hc in Ht'. lia.
  - intros t' Ht'. destruct (decide (t' = t)) as [->|Hne].
    + rewrite lookup_insert_eq in Ht'. simplify_eq. destruct (Hpark _ eq_refl). lia.
    + rewrite lookup_insert_ne in Ht' by done. destruct Hstep as [(E&?&?)|[E ?]].
      * rewrite E in Ht'. specialize (Hp _ Ht'). lia.
      * specialize (Hc _ _ Ht'). lia.
Qed.

(** A goroutine that moves changes the two counts by what it gained or lost. *)
Lemma count_move (f : thread → Z) (m : gmap nat thread) t th th' :
  m !! t = Some th → map_sum f (<[t := th']> m) = map_sum f m - f th + f th'.
Proof. apply map_sum_overwrite. Qed.

Ltac move_tac :=
  apply sched_move_inv; try done; cbn [set_slots release stop_waiting active visibleWaiting changed
    limit minimum maximum healthy healthyThreshold]; try lia;
  first [by erewrite count_move by done; cbn [slots waits]; lia
        |by rewrite map_sum_insert by done; cbn [slots waits]; lia
        |by case_match; erewrite ?count_move, ?map_sum_insert by done; cbn [slots waits]; lia
        |intros; by repeat case_match
        |lia].

Lemma enter_inv w t p now :
  system_inv w → threads w !! t = Some (Entering p) →
  ∀ w', step w (Enter t now) = Some w' → system_inv w'.
Proof.
  intros Hinv Ht w'. pose proof Hinv as [Hb Ha Hm Hw Hh Hc Hp].
  cbn [step]. rewrite Ht. unfold acquire_locked.
  destruct (negb (is_visible p) && prefetchDeferredLocked (sched w) now p).
  { intros [= <-]. move_tac. }
  destruct (Z.ltb_spec (active (sched w)) (limit (sched w))).
  { intros [= <-]. move_tac. }
  destruct (negb (is_visible p)); intros [= <-]; [move_tac|].
  apply sched_move_inv; try done; cbn [set_slots active visibleWaiting changed limit maximum];
    [lia|by erewrite count_move by done; cbn [slots]; lia
    |by erewrite count_move by done; cbn [waits]; lia|].
  intros c [= <-]. done.
Qed.

Lemma observe_inv w now latency throttled timedOut :
  system_inv w →
  system_inv {| sched := Observe (sched w) now latency throttled timedOut; threads := threads w |}.
Proof.
  intros [Hb Ha Hm Hw Hh Hc Hp]. unfold Observe.
  destruct (negb throttled && negb timedOut && (latency <? 2 * second)).
  - destruct (adaptive (sched w) && (limit (sched w) <? maximum (sched w))) eqn:Hgrow; [|done].
    bool_to_prop. destruct (Z.leb_spec (healthyThreshold (sched w)) (healthy (sched w) + 1));
      split; cbn; try done; try lia; intros t; [intros c|];
      intros Ht; apply Hc in Ht; lia.
  - remember (limit (sched w) ÷ 2) as half.
    destruct (adaptive _ && _ && _) eqn:Hs; bool_to_prop; split; cbn; try done; try lia.
    intros t Ht. specialize (Hp t Ht). lia.
Qed.

Lemma sched_step_inv w a w' : system_inv w → step w a = Some w' → system_inv w'.
Proof.
  intros Hinv. pose proof Hinv as [Hb Ha Hm Hw Hh Hc Hp].
  destruct a as [t p e|t now|t e|t|t|t e|t|t|now l th to]; cbn [step].
  2: { destruct (threads w !! t) as [[p| | | | | | |]|] eqn:Ht; try done.
       intros Hstep. apply (enter_inv w t p now Hinv Ht). cbn [step]. by rewrite Ht. }
  all: intros Hstep; cases_in Hstep; simplify_eq; try done; try by apply observe_inv.
  all: move_tac.
Qed.

Lemma sched_run_inv w acts w' : system_inv w → run w acts = Some w' → system_inv w'.
Proof.
  revert w. induction acts as [|a acts IH]; intros w Hw Hrun; cbn in Hrun; [by simplify_eq|].
  destruct (step w a) as [w1|] eqn:Ha; [|done]. by eapply IH; [eapply sched_step_inv|].
Qed.

Lemma sched_init_inv c : system_inv (init_system c).
Proof.
  split; cbn; try done; try (by rewrite map_sum_empty).
  - repeat case_match; bool_to_prop; lia.
  - repeat case_match; bool_to_prop; lia.
  - case_match; bool_to_prop; lia.
Qed.

Lemma sched_reach_inv c acts w : run (init_system c) acts = Some w → system_inv w.
Proof. apply sched_run_inv, sched_init_inv. Qed.

Lemma slots_nonneg (m : gmap nat thread) : 0 ≤ map_sum slots m.
Proof. apply map_sum_nonneg. by intros _ [] _; cbn; try destruct released. Qed.

Lemma sched_waits_nonneg (m : gmap nat thread) : 0 ≤ map_sum waits m.
Proof. apply map_sum_nonneg. by intros _ [] _; cbn. Qed.

(** A positive count has a goroutine that contributes to it. *)
Lemma count_witness (f : thread → Z) (m : gmap nat thread) :
  0 < map_sum f m → ∃ t th, m !! t = Some th ∧ 0 < f th.
Proof.
  induction m as [|k v m Hk IH] using map_ind; [rewrite map_sum_empty; lia|].
  rewrite map_sum_insert by done. intros Hpos. destruct (decide (0 < f v)) as [Hv|Hv].
  - exists k, v. by rewrite lookup_insert_eq.
  - destruct IH as (t&th&Ht&Hth); [lia|]. exists t, th. split; [|done].
    rewrite lookup_insert_ne; [done|congruence].
Qed.

(** ** Properties *)

(** C25: the concurrency of LIST requests is bounded and every slot is accounted for.
    Whatever the configuration and however calls of Acquire, cancellations, limiter
    failures, (repeated) releases and observations interleave, the limit stays between
    the effective minimum and maximum, the active count is exactly the number of
    goroutines that hold a slot not yet released and never exceeds the maximum, and the
    visible-waiting count is exactly the number of goroutines waiting for a slot. *)
Theorem slots_accounted c acts w :
  run (init_system c) acts = Some w →
  let st := Stats (Some (sched w)) in
  1 ≤ minimum (sched w) ≤ st_Limit st ∧ st_Limit st ≤ maximum (sched w)
  ∧ st_Active st = map_sum slots (threads w) ∧ 0 ≤ st_Active st ≤ maximum (sched w)
  ∧ st_VisibleWaiting st = map_sum waits (threads w) ∧ 0 ≤ st_VisibleWaiting st.
Proof.
  intros Hrun. destruct (sched_reach_inv _ _ _ Hrun) as [Hb Ha Hm Hw _ _ _]. cbn.
  rewrite Ha, Hw in *. pose proof (slots_nonneg (threads w)).
  pose proof (sched_waits_nonneg (threads w)). lia.
Qed.

(** no wake-up is lost. A goroutine parked in the select can either proceed at once,
    because its channel has been closed, or every slot up to the limit is taken, and
    then some goroutine holds a slot whose release (or whose limiter answer) is still
    to come; the release it leads to closes the channel the waiter sits on. *)
Theorem no_lost_wakeup c acts w t channel :
  run (init_system c) acts = Some w →
  threads w !! t = Some (Waiting channel) →
  is_Some (step w (ChannelClosed t))
  ∨ limit (sched w) ≤ active (sched w)
    ∧ (∃ t' th, threads w !! t' = Some th ∧ slots th = 1)
    ∧ (channel < changed (release (sched w)))%nat.
Proof.
  intros Hrun Ht. destruct (sched_reach_inv _ _ _ Hrun) as [Hb Ha Hm Hw _ Hc Hp].
  pose proof (Hc _ _ Ht) as Hle. cbn [step]. rewrite Ht.
  destruct (Nat.ltb_spec channel (changed (sched w))) as [Hlt|Hge]; [by left; eexists|].
  right. assert (channel = changed (sched w)) as -> by lia. pose proof (Hp _ Ht) as Hfull.
  split_and!; [done| |cbn; lia].
  destruct (count_witness slots (threads w)) as (t'&th&Ht'&Hpos); [lia|].
  exists t', th. split; [done|]. by destruct th as [| | | | | | |[]].
Qed.

Definition reserve_of (p : RequestPriority) : Z :=
  match p with PriorityUnrelated => 4 | _ => 2 end.

(** Prefetch never takes what visible work needs. In every reachable state a
    prefetch request (likely-next or unrelated) is admitted exactly when no visible
    request is waiting, no congestion pause is running, and after the admission at
    least min(reserve, limit-1) slots, hence at least one, are still free; otherwise it
    is refused at once with the deferral counted, and it never joins the wait queue. A
    visible request is never deferred: it takes a slot exactly when one is free. *)
Theorem prefetch_yields_to_visible c acts w now p :
  run (init_system c) acts = Some w →
  let s := sched w in
  let '(out, s') := acquire_locked s now p in
  if is_visible p then
    (out = Take ↔ active s < limit s) ∧ (out ≠ Take → out = Park (changed s))
  else
    (out = Take ↔ visibleWaiting s = 0 ∧ prefetchPauseUntil s ≤ now ∧ 1 < limit s
                  ∧ active s + 1 + Z.min (reserve_of p) (limit s - 1) ≤ limit s)
    ∧ (out = Take → active s' = active s + 1 ∧ active s' < limit s')
    ∧ (out ≠ Take → out = Defer ∧ active s' = active s ∧ visibleWaiting s' = visibleWaiting s
                    ∧ deferred s' = u64_succ (deferred s)).
Proof.
  intros Hrun s. destruct (sched_reach_inv _ _ _ Hrun) as [Hb Ha Hm Hw _ _ _]. fold s in Hb, Ha, Hm, Hw.
  pose proof (sched_waits_nonneg (threads w)). unfold acquire_locked, prefetchDeferredLocked.
  destruct p; cbn [is_visible negb andb reserve_of].
  { destruct (Z.ltb_spec (active s) (limit s)); split; try done; split; try done; lia. }
  all: destruct (Z.leb_spec (limit s) 1); [split_and!; try done; split; [done|lia]|].
  all: destruct (_ || _ || _) eqn:E; bool_to_prop;
    [split_and!; try done; split; [done|];
     intros; repeat (destruct E as [E|E]; bool_to_prop); lia|].
  all: destruct (Z.ltb_spec (active s) (limit s)); [|lia]; cbn;
    split_and!; try done; try lia; split; [lia|done].
Qed.

Lemma step_pause w a w' :
  step w a = Some w' → prefetchPauseUntil (sched w) ≤ prefetchPauseUntil (sched w').
Proof.
  destruct a as [t p e|t now|t e|t|t|t e|t|t|now l th to]; cbn [step]; intros Hstep.
  2: { unfold acquire_locked in Hstep. cases_in Hstep; cbn; lia. }
  all: cases_in Hstep; simplify_eq; cbn; try lia.
  unfold Observe. repeat case_match; cbn; repeat case_match; bool_to_prop; lia.
Qed.

Lemma run_pause w acts w' :
  run w acts = Some w' → prefetchPauseUntil (sched w) ≤ prefetchPauseUntil (sched w').
Proof.
  revert w. induction acts as [|a acts IH]; intros w Hrun; cbn in Hrun; [simplify_eq; lia|].
  destruct (step w a) as [w1|] eqn:Ha; [|done]. apply step_pause in Ha. apply IH in Hrun. lia.
Qed.

(** Congestion silences speculative work and only that. After a 429 or a timeout is
    observed at time [t], whatever happens next, every prefetch request that arrives
    before [t] plus fifteen seconds is deferred (five seconds for a response that is
    merely slow), while the admission of visible requests does not depend on the pause. *)
Theorem congestion_defers_prefetch w0 t latency throttled timedOut acts w1 w now p :
  step w0 (Observed t latency throttled timedOut) = Some w1 →
  run w1 acts = Some w →
  throttled || timedOut || (2 * second <=? latency) = true →
  now < t + (if throttled || timedOut then 15 else 5) * second →
  (p ≠ PriorityVisible → (acquire_locked (sched w) now p).1 = Defer)
  ∧ ∀ now', acquire_locked (sched w) now PriorityVisible
            = acquire_locked (sched w) now' PriorityVisible.
Proof.
  cbn [step]. intros [= <-] Hrun Hcong Hnow. split; [|done]. intros Hp.
  apply run_pause in Hrun. cbn [sched] in Hrun.
  assert (t + (if throttled || timedOut then 15 else 5) * second
          ≤ prefetchPauseUntil (sched w)) as Hpause.
  { etrans; [|exact Hrun]. unfold Observe.
    replace (negb throttled && negb timedOut && (latency <? 2 * second)) with false.
    - cbn. destruct (throttled || timedOut); case_match; bool_to_prop; lia.
    - symmetry. destruct throttled, timedOut; try done; cbn in *. apply Z.leb_le in Hcong.
      by apply Z.ltb_ge. }
  unfold acquire_locked, prefetchDeferredLocked.
  destruct p; [done| |]; cbn [is_visible negb andb].
  all: destruct (limit (sched w) <=? 1); [done|].
  all: rewrite (proj2 (Z.ltb_lt now (prefetchPauseUntil (sched w)))) by lia.
  all: by rewrite orb_true_r.
Qed.

(** ** The control law *)

Definition healthy_response (now latency : Z) (s : RequestScheduler) : RequestScheduler :=
  Observe s now latency false false.
Definition throttled_response (now latency : Z) (s : RequestScheduler) : RequestScheduler :=
  Observe s now latency true false.

Lemma healthy_growth now latency n s :
  latency < 2 * second → adaptive s = true → limit s ≤ maximum s →
  0 ≤ healthy s < healthyThreshold s →
  limit (Nat.iter n (healthy_response now latency) s)
  = Z.min (maximum s) (limit s + (healthy s + Z.of_nat n) / healthyThreshold s).
Proof.
  intros Hlat. revert s. induction n as [|n IH]; intros s Had Hlim Hh.
  - cbn. rewrite Z.add_0_r, Z.div_small by lia. lia.
  - rewrite Nat.iter_succ_r. unfold healthy_response at 2, Observe.
    rewrite (proj2 (Z.ltb_lt _ _) Hlat), Had. cbn [negb andb].
    destruct (Z.ltb_spec (limit s) (maximum s)).
    + destruct (Z.leb_spec (healthyThreshold s) (healthy s + 1)); rewrite IH;
        cbn [limit maximum healthy healthyThreshold adaptive]; try done; try lia.
      * replace (healthy s + Z.of_nat (S n)) with (Z.of_nat n + 1 * healthyThreshold s) by lia.
        rewrite Z.div_add, Z.add_0_l by lia. lia.
      * do 3 f_equal. lia.
    + rewrite IH by done.
      assert (0 ≤ (healthy s + Z.of_nat n) / healthyThreshold s) by (apply Z.div_pos; lia).
      assert (0 ≤ (healthy s + Z.of_nat (S n)) / healthyThreshold s) by (apply Z.div_pos; lia).
      lia.
Qed.

Lemma throttled_decay now latency n s :
  adaptive s = true → 1 ≤ minimum s ≤ limit s →
  limit (Nat.iter n (throttled_response now latency) s)
  = Z.max (minimum s) (limit s / 2 ^ Z.of_nat n).
Proof.
  revert s. induction n as [|n IH]; intros s Had Hmin.
  - cbn. rewrite Z.div_1_r. lia.
  - assert (limit (throttled_response now latency s) = Z.max (minimum s) (limit s / 2)) as E.
    { unfold throttled_response, Observe. cbn. rewrite Had, Z.quot_div_nonneg by lia. cbn.
      destruct (Z.ltb_spec (Z.max (minimum s) (limit s / 2)) (limit s)); [done|].
      pose proof (Z.div_lt (limit s) 2). lia. }
    rewrite Nat.iter_succ_r, IH; [|done|rewrite E; cbn; lia].
    rewrite E. cbn [minimum throttled_response Observe negb andb].
    assert (0 < 2 ^ Z.of_nat n) by (apply Z.pow_pos_nonneg; lia).
    rewrite Nat2Z.inj_succ, Z.pow_succ_r, <- Z.div_div by lia.
    destruct (Z.max_spec (minimum s) (limit s / 2)) as [[Hle ->]|[Hle ->]]; [done|].
    assert (minimum s / 2 ^ Z.of_nat n ≤ minimum s) by (apply Z.div_le_upper_bound; nia).
    assert (limit s / 2 / 2 ^ Z.of_nat n ≤ minimum s) by (apply Z.div_le_upper_bound; nia).
    lia.
Qed.

(** The limit follows additive increase, multiplicative decrease. From any reachable
    state of an adaptive scheduler, [n] healthy responses raise the limit by one for
    every [healthyThreshold] of them (counting those already seen), up to the maximum;
    [n] throttled responses halve it [n] times, down to the minimum and no further. *)
Theorem aimd_control c acts w now latency n :
  run (init_system c) acts = Some w →
  adaptive (sched w) = true →
  let s := sched w in
  (latency < 2 * second →
   limit (Nat.iter n (healthy_response now latency) s)
   = Z.min (maximum s) (limit s + (healthy s + Z.of_nat n) / healthyThreshold s))
  ∧ limit (Nat.iter n (throttled_response now latency) s)
    = Z.max (minimum s) (limit s / 2 ^ Z.of_nat n).
Proof.
  intros Hrun Had s. destruct (sched_reach_inv _ _ _ Hrun) as [Hb _ _ _ Hh _ _]. fold s in Hb, Hh.
  split; [intros Hlat; by apply healthy_growth; try lia|apply throttled_decay; [done|lia]].
Qed.

(** ** Witnesses *)

Definition demo_config : SchedulerConfig :=
  {| cfg_Minimum := 2; cfg_Initial := 2; cfg_Maximum := 8; cfg_Adaptive := true;
     cfg_HealthyThreshold := 3 |}.

(** Two visible requests fill the limit, a third parks, a prefetch is deferred. *)
Definition demo_actions : list action :=
  [Call 1 PriorityVisible None; Enter 1 0; LimiterAnswers 1 None;
   Call 2 PriorityVisible None; Enter 2 0;
   Call 3 PriorityVisible None; Enter 3 0;
   Call 4 PriorityLikelyNext None; Enter 4 0].

Definition demo_system : system :=
  default (init_system demo_config) (run (init_system demo_config) demo_actions).

Lemma slots_accounted_witness :
  let st := Stats (Some (sched demo_system)) in
  st_Active st = 2 ∧ st_VisibleWaiting st = 1
  ∧ 1 ≤ minimum (sched demo_system) ≤ st_Limit st ∧ st_Limit st ≤ maximum (sched demo_system)
  ∧ st_Active st = map_sum slots (threads demo_system).
Proof.
  destruct (slots_accounted demo_config demo_actions demo_system) as (H1&H2&H3&_); [by vm_compute|].
  split_and!; [by vm_compute|by vm_compute|apply H1|apply H1|apply H2|apply H3].
Defined.

Lemma no_lost_wakeup_witness :
  (limit (sched demo_system) ≤ active (sched demo_system))
  ∧ step demo_system (ChannelClosed 3) = None
  ∧ (is_Some (step demo_system (ChannelClosed 3))
     ∨ limit (sched demo_system) ≤ active (sched demo_system)
       ∧ (∃ t' th, threads demo_system !! t' = Some th ∧ slots th = 1)
       ∧ (0 < changed (release (sched demo_system)))%nat).
Proof.
  split_and!; [by apply (bool_decide_unpack _); vm_compute|by vm_compute|].
  apply (no_lost_wakeup demo_config demo_actions demo_system 3 0); by vm_compute.
Defined.

Lemma prefetch_yields_to_visible_witness :
  (acquire_locked (sched demo_system) 0 PriorityLikelyNext).1 = Defer
  ∧ ((acquire_locked (sched demo_system) 0 PriorityVisible).1 = Take
     ↔ active (sched demo_system) < limit (sched demo_system)).
Proof.
  pose proof (prefetch_yields_to_visible demo_config demo_actions demo_system 0 PriorityVisible
    ltac:(by vm_compute)) as H.
  split; [by vm_compute|]. cbn [is_visible] in H.
  destruct (acquire_locked (sched demo_system) 0 PriorityVisible). apply H.
Defined.

Lemma congestion_defers_prefetch_witness :
  (acquire_locked
     (default (init_system demo_config)
        (run (init_system demo_config) [Observed 0 0 true false; Observed 5 0 false false])).(sched)
     (14 * second) PriorityUnrelated).1 = Defer.
Proof.
  refine (proj1 (congestion_defers_prefetch (init_system demo_config) 0 0 true false
    [Observed 5 0 false false] _ _ (14 * second) PriorityUnrelated eq_refl eq_refl eq_refl _) _);
    [by vm_compute|done].
Defined.

Lemma aimd_control_witness :
  limit (Nat.iter 7 (healthy_response 0 1) (sched demo_system)) = 4
  ∧ limit (Nat.iter 3 (throttled_response 0 1) (sched demo_system)) = 2.
Proof.
  split.
  - refine (eq_trans (proj1 (aimd_control demo_config demo_actions demo_system 0 1 7 _ _) _) _);
      by vm_compute.
  - refine (eq_trans (proj2 (aimd_control demo_config demo_actions demo_system 0 1 3 _ _)) _);
      by vm_compute.
Defined.
