(* ===== verification/Coalescer.v ===== *)
(** * Coalescer: deduplication of overlapping requests

    Model of src/internal/services/resources/coalescer.go. The [coalescedCall]
    objects are shared between the goroutines that wait for them, so they live in a
    store indexed by address, and the [calls] map holds addresses, compared as the Go
    code compares pointers. Each stretch between Lock and Unlock is one function; the
    concurrent system is a step function over the coalescer and the goroutines inside
    [Do], so any list of actions is an interleaving. The goroutine that runs the
    operation of a call is represented by the call itself: it has not finished as long
    as [finished] is false, and then the action [OperationReturns] is possible. *)
From Stdlib Require Import Ascii String ZArith Lia.
From stdpp Require Import base gmap strings list.
From S2P Require Import Prelude Json Topics.

Section coalescer.
Context {V : Type}.

(** What an operation or a call of [Do] returns: a value and possibly an error. *)
Definition answer : Type := option V * option error.

(** ** State *)

(** [cause] is the cause the shared context was cancelled with, if it was; the [done]
    channel is closed in the section that sets [finished]. *)
Record coalescedCall := {
  key : string; cause : option error; waiters : Z; finished : bool; result_err : answer }.

Record RequestCoalescer := { store : gmap nat coalescedCall; calls : gmap string nat; closed : bool }.

Definition NewRequestCoalescer : RequestCoalescer :=
  {| store := ∅; calls := ∅; closed := false |}.

(** A [CancelCauseFunc]: the first call sets the cause (nil stands for Canceled). *)
Definition cancel (call : coalescedCall) (why : option error) : coalescedCall :=
  {| key := key call;
     cause := match cause call with
              | Some e => Some e
              | None => Some (default ContextCanceled why)
              end;
     waiters := waiters call; finished := finished call; result_err := result_err call |}.

Definition with_waiters (call : coalescedCall) (n : Z) : coalescedCall :=
  {| key := key call; cause := cause call; waiters := n; finished := finished call;
     result_err := result_err call |}.

Definition set_call (s : RequestCoalescer) (c : nat) (call : coalescedCall) : RequestCoalescer :=
  {| store := <[c := call]> (store s); calls := calls s; closed := closed s |}.

(** [if coalescer.calls[key] == call { delete(coalescer.calls, key) }] *)
Definition unregister (s : RequestCoalescer) (k : string) (c : nat) : RequestCoalescer :=
  if decide (calls s !! k = Some c)
  then {| store := store s; calls := delete k (calls s); closed := closed s |} else s.

(** ** Operations *)

(** The part of [Do] up to its select: the call to wait for, or the error returned.
    [hasOperation] is [operation != nil]. *)
Definition Do_locked (s : RequestCoalescer) (k : string) (hasOperation : bool)
  : result error nat * RequestCoalescer :=
  if negb hasOperation || String.eqb k "" then
    (Err (validationError "coalesced request is invalid"), s)
  else if closed s then (Err ErrCoalescerClosed, s)
  else
    match calls s !! k with
    | Some c =>
      match store s !! c with
      | Some call => (Ok c, set_call s c (with_waiters call (waiters call + 1)))
      | None => (Ok c, s)
      end
    | None =>
      let c := fresh (dom (store s)) in
      let call := {| key := k; cause := None; waiters := 1; finished := false;
                     result_err := (None, None) |} in
      (Ok c, {| store := <[c := call]> (store s); calls := <[k := c]> (calls s);
                closed := closed s |})
    end.

(** The part of [run] after the operation has returned. *)
Definition run_finish (s : RequestCoalescer) (c : nat) (a : answer) : RequestCoalescer :=
  match store s !! c with
  | Some call =>
    let call' := {| key := key call; cause := cause call; waiters := waiters call;
                    finished := true; result_err := a |} in
    set_call (unregister s (key call) c) c (cancel call' None)
  | None => s
  end.

Definition leave (s : RequestCoalescer) (c : nat) (canceled : bool) : RequestCoalescer :=
  match store s !! c with
  | Some call =>
    let n := if (0 <? waiters call)%Z then (waiters call - 1)%Z else waiters call in
    let call := with_waiters call n in
    if canceled && (n =? 0)%Z && negb (finished call)
    then set_call (unregister s (key call) c) c (cancel call (Some ContextCanceled))
    else set_call s c call
  | None => s
  end.

(** Cancel every call of the list, in the order given. *)
Definition cancel_all (s : RequestCoalescer) (cs : list nat) : RequestCoalescer :=
  foldl (λ s c, match store s !! c with
                | Some call => set_call s c (cancel call (Some ErrCoalescerClosed))
                | None => s
                end) s cs.

Definition Close (s : RequestCoalescer) : RequestCoalescer :=
  if closed s then s
  else cancel_all {| store := store s; calls := calls s; closed := true |}
         ((map_to_list (calls s)).*2).

(** ** Goroutines in [Do] *)

(** In the select, about to [leave] after [call.done] or after [ctx.Done], or
    returned. [Returned] remembers the call the answer came from. *)
Inductive thread :=
| Selecting (c : nat)
| SawDone (c : nat)
| SawCancel (c : nat) (err : error)
| Returned (from : option nat) (a : answer).

Record system := { coalescer : RequestCoalescer; threads : gmap nat thread }.

Definition init_system : system := {| coalescer := NewRequestCoalescer; threads := ∅ |}.

Inductive action :=
| CallDo (t : nat) (k : string) (hasOperation : bool)
| SelectDone (t : nat)                     (* case <-call.done *)
| SelectCancel (t : nat) (err : error)     (* case <-ctx.Done() *)
| Leave (t : nat)
| OperationReturns (c : nat) (a : answer)
| CallClose.

Definition move (w : system) (s : RequestCoalescer) (t : nat) (th : thread) : system :=
  {| coalescer := s; threads := <[t := th]> (threads w) |}.

Definition step (w : system) (a : action) : option system :=
  let s := coalescer w in
  match a with
  | CallDo t k hasOperation =>
    match threads w !! t with
    | Some _ => None
    | None =>
      match Do_locked s k hasOperation with
      | (Ok c, s') => Some (move w s' t (Selecting c))
      | (Err e, s') => Some (move w s' t (Returned None (None, Some e)))
      end
    end
  | SelectDone t =>
    match threads w !! t with
    | Some (Selecting c) =>
      match store s !! c with
      | Some call => if finished call then Some (move w s t (SawDone c)) else None
      | None => None
      end
    | _ => None
    end
  | SelectCancel t err =>
    match threads w !! t with
    | Some (Selecting c) => Some (move w s t (SawCancel c err))
    | _ => None
    end
  | Leave t =>
    match threads w !! t with
    | Some (SawDone c) =>
      match store s !! c with
      | Some call => Some (move w (leave s c false) t (Returned (Some c) (result_err call)))
      | None => None
      end
    | Some (SawCancel c err) => Some (move w (leave s c true) t (Returned None (None, Some err)))
    | _ => None
    end
  | OperationReturns c a =>
    match store s !! c with
    | Some call =>
      if finished call then None
      else Some {| coalescer := run_finish s c a; threads := threads w |}
    | None => None
    end
  | CallClose => Some {| coalescer := Close s; threads := threads w |}
  end.

Fixpoint run (w : system) (acts : list action) : option system :=
  match acts with
  | [] => Some w
  | a :: acts' => match step w a with Some w' => run w' acts' | None => None end
  end.

(** Whether a goroutine is counted among the waiters of call [c]. *)
Definition waits_for (c : nat) (th : thread) : Z :=
  match th with
  | Selecting c' | SawDone c' | SawCancel c' _ => if decide (c' = c) then 1 else 0
  | Returned _ _ => 0
  end%Z.

(** ** The invariant *)

(** A call that [n] goroutines wait for: the count is exact; a finished call is no
    longer registered and its context has ended; an unfinished call is registered, has
    a waiter and is cancelled exactly when the coalescer was closed, or it has been
    abandoned: no waiter is left, and it is cancelled. *)
Record call_ok (s : RequestCoalescer) (n : Z) (c : nat) (call : coalescedCall) : Prop := {
  ok_waiters : waiters call = n;
  ok_finished : finished call = true → calls s !! key call ≠ Some c ∧ is_Some (cause call);
  ok_running : finished call = false →
    calls s !! key call = Some c ∧ (0 < n)%Z
      ∧ cause call = (if closed s then Some ErrCoalescerClosed else None)
    ∨ calls s !! key call ≠ Some c ∧ n = 0%Z ∧ is_Some (cause call) }.

(** Goroutines refer to calls that exist; those past [done] to finished ones, and a
    returned answer is the answer of its call. *)
Definition thread_ok (s : RequestCoalescer) (th : thread) : Prop :=
  match th with
  | Selecting c | SawCancel c _ => is_Some (store s !! c)
  | SawDone c => ∃ call, store s !! c = Some call ∧ finished call = true
  | Returned (Some c) a =>
    ∃ call, store s !! c = Some call ∧ finished call = true ∧ result_err call = a
  | Returned None _ => True
  end.

Record system_inv (w : system) : Prop := {
  inv_calls : ∀ k c, calls (coalescer w) !! k = Some c →
    ∃ call, store (coalescer w) !! c = Some call ∧ key call = k;
  inv_store : ∀ c call, store (coalescer w) !! c = Some call →
    call_ok (coalescer w) (map_sum (waits_for c) (threads w)) c call;
  inv_threads : ∀ t th, threads w !! t = Some th → thread_ok (coalescer w) th }.

(** Calls persist, and a finished call keeps its answer. *)
Definition store_ext (s s' : RequestCoalescer) : Prop :=
  ∀ c call, store s !! c = Some call →
    ∃ call', store s' !! c = Some call'
             ∧ (finished call = true → finished call' = true ∧ result_err call' = result_err call).

Lemma thread_ok_ext s s' th : store_ext s s' → thread_ok s th → thread_ok s' th.
Proof.
  intros Hext. destruct th as [c|c|c e|[c|] a]; cbn; [intros [call Hc]|..|done].
  - destruct (Hext _ _ Hc) as (call'&->&_). by eexists.
  - intros (call&Hc&Hf). destruct (Hext _ _ Hc) as (call'&->&H). exists call'. naive_solver.
  - intros [call Hc]. destruct (Hext _ _ Hc) as (call'&->&_). by eexists.
  - intros (call&Hc&Hf&<-). destruct (Hext _ _ Hc) as (call'&->&H). exists call'. naive_solver.
Qed.

(** A step that changes the call at one address. *)
Lemma update_inv w s' ths' c call' :
  let s := coalescer w in
  system_inv w → closed s' = closed s →
  store s' = <[c := call']> (store s) →
  (∀ k c', c' ≠ c → calls s' !! k = Some c' ↔ calls s !! k = Some c') →
  (∀ k, calls s' !! k = Some c → key call' = k) →
  (∀ c', c' ≠ c → map_sum (waits_for c') ths' = map_sum (waits_for c') (threads w)) →
  call_ok s' (map_sum (waits_for c) ths') c call' →
  (∀ call, store s !! c = Some call → finished call = true →
     finished call' = true ∧ result_err call' = result_err call) →
  (∀ t th, ths' !! t = Some th → threads w !! t = Some th ∨ thread_ok s' th) →
  system_inv {| coalescer := s'; threads := ths' |}.
Proof.
  intros s [Hcalls Hstore Hths] Hclosed Hst Hk Hkey Hn Hok Hkeep Hth.
  split; cbn [coalescer threads].
  - intros k c' Hc'. destruct (decide (c' = c)) as [->|Hne].
    + exists call'. rewrite Hst, lookup_insert_eq. auto.
    + rewrite Hst, lookup_insert_ne by done. apply Hcalls. by apply Hk.
  - intros c' call. destruct (decide (c' = c)) as [->|Hne].
    + rewrite Hst, lookup_insert_eq. by intros [= <-].
    + rewrite Hst, lookup_insert_ne, Hn by done. intros Hc'.
      destruct (Hstore _ _ Hc') as [H1 H2 H3]. split; [done|..]; rewrite (Hk _ c'), ?Hclosed; auto.
  - intros t th Ht. destruct (Hth t th Ht) as [Hold|]; [|done].
    apply (thread_ok_ext s); [|by eapply Hths]. intros c' call Hc'. rewrite Hst.
    destruct (decide (c' = c)) as [->|Hne].
    + rewrite lookup_insert_eq. exists call'. split; [done|]. by apply Hkeep.
    + rewrite lookup_insert_ne by done. by exists call.
Qed.

(** A step of one goroutine that leaves the coalescer alone. *)
Lemma shared_move_inv w t th :
  system_inv w → thread_ok (coalescer w) th →
  (∀ c, map_sum (waits_for c) (<[t := th]> (threads w)) = map_sum (waits_for c) (threads w)) →
  system_inv (move w (coalescer w) t th).
Proof.
  intros [Hcalls Hstore Hths] Hth Hn. split; cbn [move coalescer threads]; [done|..].
  - intros c call Hc. rewrite Hn. by apply Hstore.
  - intros t' th'. destruct (decide (t' = t)) as [->|Hne].
    + rewrite lookup_insert_eq. by intros [= <-].
    + rewrite lookup_insert_ne by done. apply Hths.
Qed.

(** What one goroutine adds to the count of another call, and of its own. *)
Lemma count_new t th (ths : gmap nat thread) c :
  ths !! t = None →
  map_sum (waits_for c) (<[t := th]> ths) = (waits_for c th + map_sum (waits_for c) ths)%Z.
Proof. apply map_sum_insert. Qed.

Lemma count_old t th th' (ths : gmap nat thread) c :
  ths !! t = Some th →
  map_sum (waits_for c) (<[t := th']> ths)
  = (map_sum (waits_for c) ths - waits_for c th + waits_for c th')%Z.
Proof. apply map_sum_overwrite. Qed.

Lemma unregister_store s k c : store (unregister s k c) = store s.
Proof. unfold unregister. by case_decide. Qed.

Lemma unregister_closed s k c : closed (unregister s k c) = closed s.
Proof. unfold unregister. by case_decide. Qed.

Lemma unregister_other s k c k' c' :
  c' ≠ c → calls (unregister s k c) !! k' = Some c' ↔ calls s !! k' = Some c'.
Proof.
  intros Hne. unfold unregister. case_decide as Hk; [cbn|done].
  destruct (decide (k' = k)) as [->|]; [|by rewrite lookup_delete_ne].
  rewrite lookup_delete_eq. split; [done|congruence].
Qed.

Lemma unregister_self s k c : calls (unregister s k c) !! k ≠ Some c.
Proof. unfold unregister. case_decide as Hk; [cbn; by rewrite lookup_delete_eq|done]. Qed.

Lemma unregister_sub s k c k' c' :
  calls (unregister s k c) !! k' = Some c' → calls s !! k' = Some c'.
Proof.
  unfold unregister. case_decide as Hk; [cbn|done]. rewrite lookup_delete_Some. naive_solver.
Qed.

(** The goroutines of a step that moved goroutine [t]. *)
Lemma moved_threads (ths : gmap nat thread) s t th t' th' :
  thread_ok s th → <[t := th]> ths !! t' = Some th' → ths !! t' = Some th' ∨ thread_ok s th'.
Proof. intros Hth. rewrite lookup_insert_Some. naive_solver. Qed.

Lemma zero_count (ths : gmap nat thread) c s :
  (∀ t th, ths !! t = Some th → thread_ok s th) → store s !! c = None →
  map_sum (waits_for c) ths = 0%Z.
Proof.
  intros Hths Hc. induction ths as [|t th ths Ht IH] using map_ind; [apply map_sum_empty|].
  rewrite map_sum_insert, IH; [|intros t' th' Ht'; apply (Hths t'); rewrite lookup_insert_ne by congruence; done|done].
  specialize (Hths t th ltac:(apply lookup_insert_eq)).
  destruct th as [c'|c'|c' e|[c'|] a]; cbn in *; try done; case_decide; try done; subst;
    rewrite Hc in Hths; destruct Hths; naive_solver.
Qed.

Lemma Do_inv w t k has :
  system_inv w → threads w !! t = None →
  ∀ c s', Do_locked (coalescer w) k has = (Ok c, s') → system_inv (move w s' t (Selecting c)).
Proof.
  intros Hinv Ht c s' Hdo. pose proof Hinv as [Hcalls Hstore Hths]. unfold Do_locked in Hdo.
  destruct (negb has || (k =? "")%string); [done|]. destruct (closed (coalescer w)) eqn:Hcl; [done|].
  destruct (calls (coalescer w) !! k) as [c0|] eqn:Hk.
  - destruct (Hcalls _ _ Hk) as (call&Hc&<-). rewrite Hc in Hdo. simplify_eq.
    apply (update_inv w _ _ c (with_waiters call (waiters call + 1))); try done.
    + intros k' Hk'. destruct (Hcalls _ _ Hk') as (?&?&?). by simplify_eq.
    + intros c' Hne. rewrite count_new by done. cbn. by rewrite decide_False by congruence.
    + rewrite count_new by done. destruct (Hstore _ _ Hc) as [H1 H2 H3].
      cbn [waits_for]. rewrite decide_True by done. split; cbn; [lia|done|].
      intros Hf. destruct (H3 Hf) as [(?&?&?)|(?&?&?)]; [left|done]. split_and!; [done|lia|done].
    + intros call0 Hc0 Hf. simplify_eq. done.
    + intros t' th'. apply moved_threads. cbn. rewrite lookup_insert_eq. by eexists.
  - simplify_eq. set (c := fresh (dom (store (coalescer w)))).
    assert (store (coalescer w) !! c = None) as Hfresh by (apply not_elem_of_dom; apply is_fresh).
    assert (∀ k', calls (coalescer w) !! k' ≠ Some c) as Hnot.
    { intros k' Hk'. destruct (Hcalls _ _ Hk') as (?&?&_). congruence. }
    refine (update_inv w _ _ c _ Hinv _ _ _ _ _ _ _ _); cbn [closed calls key]; [done|reflexivity|..].
    + intros k' c' Hne. rewrite lookup_insert_Some. naive_solver.
    + intros k'. rewrite lookup_insert_Some. naive_solver.
    + intros c' Hne. rewrite count_new by done. cbn. by rewrite decide_False by congruence.
    + rewrite count_new, (zero_count _ _ _ Hths Hfresh) by done.
      cbn [waits_for]. rewrite decide_True by done.
      split; cbn; [done|done|]. intros _. left. rewrite lookup_insert_eq. split_and!; done.
    + intros call Hc. congruence.
    + intros t' th'. apply moved_threads. cbn. rewrite lookup_insert_eq. by eexists.
Qed.

Lemma finish_inv w c call a :
  system_inv w → store (coalescer w) !! c = Some call → finished call = false →
  system_inv {| coalescer := run_finish (coalescer w) c a; threads := threads w |}.
Proof.
  intros Hinv Hc Hf. pose proof Hinv as [Hcalls Hstore Hths]. unfold run_finish. rewrite Hc.
  refine (update_inv w _ _ c _ Hinv _ _ _ _ _ _ _ _); cbn [set_call closed calls store key cancel].
  - apply unregister_closed.
  - by rewrite unregister_store.
  - intros k' c' Hne. by apply unregister_other.
  - intros k' Hk'. apply unregister_sub, Hcalls in Hk'. naive_solver.
  - done.
  - destruct (Hstore _ _ Hc) as [H1 H2 H3]. split; cbn; [done| |done].
    intros _. split; [apply unregister_self|]. destruct (cause call); by eexists.
  - intros call0 Hc0 Hf0. congruence.
  - intros t th Ht. by left.
Qed.

(** What [leave] does to the call of a goroutine that was waiting: one waiter fewer, and
    when the last one gives up on a running call, that call is cancelled and dropped. *)
Lemma leave_spec s c call canceled :
  store s !! c = Some call → (0 < waiters call)%Z →
  ∃ call' s1, leave s c canceled = set_call s1 c call'
    ∧ key call' = key call ∧ waiters call' = (waiters call - 1)%Z
    ∧ finished call' = finished call ∧ result_err call' = result_err call
    ∧ (if canceled && (waiters call - 1 =? 0)%Z && negb (finished call)
       then s1 = unregister s (key call) c ∧ is_Some (cause call')
       else s1 = s ∧ cause call' = cause call).
Proof.
  intros Hc Hpos. unfold leave. rewrite Hc, (proj2 (Z.ltb_lt _ _) Hpos).
  cbn [finished with_waiters key].
  destruct (_ && _ && _); do 2 eexists; split_and!; try done.
  cbn. destruct (cause call); by eexists.
Qed.

Lemma thread_call s th c :
  thread_ok s th → waits_for c th = 1%Z → is_Some (store s !! c).
Proof.
  destruct th as [c0|c0|c0 e|[c0|] a]; cbn; try done; try (case_decide; [|done]); subst; try done.
  intros (call&->&_) _. by eexists.
Qed.

Lemma shared_waits_nonneg c (ths : gmap nat thread) : (0 ≤ map_sum (waits_for c) ths)%Z.
Proof. apply map_sum_nonneg. intros _ v _. destruct v; cbn; try case_decide; lia. Qed.

Lemma set_call_ext s s1 c call call' :
  store s !! c = Some call → store s1 = store s →
  finished call' = finished call → result_err call' = result_err call →
  store_ext s (set_call s1 c call').
Proof.
  intros Hc Hs Hf Ha c' call0 Hc'. cbn. rewrite Hs. destruct (decide (c' = c)) as [->|Hne].
  - rewrite lookup_insert_eq. simplify_eq. exists call'. rewrite Hf, Ha. auto.
  - rewrite lookup_insert_ne by done. by exists call0.
Qed.

Lemma leave_inv w t th c canceled th' :
  system_inv w → threads w !! t = Some th → waits_for c th = 1%Z →
  (∀ c', c' ≠ c → waits_for c' th = 0%Z) → (∀ c', waits_for c' th' = 0%Z) →
  thread_ok (coalescer w) th' →
  (canceled = false → ∃ call, store (coalescer w) !! c = Some call ∧ finished call = true) →
  system_inv (move w (leave (coalescer w) c canceled) t th').
Proof.
  intros Hinv Ht Hone Hzero Hzero' Hth' Hdone. pose proof Hinv as [Hcalls Hstore Hths].
  destruct (thread_call _ _ _ (Hths _ _ Ht) Hone) as [call Hc].
  destruct (Hstore _ _ Hc) as [H1 H2 H3].
  assert (map_sum (waits_for c) (<[t := th']> (threads w)) = waiters call - 1)%Z as Hcount.
  { rewrite (count_old _ th) by done. rewrite Hone, Hzero', H1. lia. }
  pose proof (shared_waits_nonneg c (<[t := th']> (threads w))) as Hnn.
  destruct (leave_spec (coalescer w) c call canceled) as (call'&s1&->&Ek&Ew&Ef&Ea&Hs1); [done|lia|].
  remember (canceled && (waiters call - 1 =? 0)%Z && negb (finished call)) as last eqn:Hlast.
  assert (store s1 = store (coalescer w) ∧ closed s1 = closed (coalescer w)) as [Es Ecl].
  { destruct last; destruct Hs1 as [-> _]; [by rewrite unregister_store, unregister_closed|done]. }
  refine (update_inv w _ _ c call' Hinv _ _ _ _ _ _ _ _); cbn [set_call closed calls store].
  - done.
  - by rewrite Es.
  - intros k' c' Hne. destruct last; destruct Hs1 as [-> _]; [by apply unregister_other|done].
  - intros k' Hk'. rewrite Ek. assert (calls (coalescer w) !! k' = Some c) as Hk.
    { destruct last; destruct Hs1 as [-> _]; [by eapply unregister_sub|done]. }
    apply Hcalls in Hk as (?&?&?). congruence.
  - intros c' Hne. rewrite (count_old _ th) by done. rewrite Hzero, Hzero' by done. lia.
  - rewrite Hcount. split; cbn; rewrite ?Ek, ?Ew, ?Ef; [done|..]; intros Hf.
    + destruct last; [symmetry in Hlast; bool_to_prop; congruence|].
      destruct Hs1 as [-> ->]. by apply H2.
    + symmetry in Hlast. destruct last.
      * destruct Hs1 as [-> ?]. bool_to_prop. right. split_and!; [apply unregister_self|lia|done].
      * destruct Hs1 as [-> ->]. rewrite Hf, andb_true_r in Hlast.
        destruct canceled; [|destruct (Hdone eq_refl) as (?&?&?); congruence]. cbn in Hlast.
        apply Z.eqb_neq in Hlast. destruct (H3 Hf) as [(?&?&?)|(?&?&?)]; [left|lia].
        split_and!; [done|lia|done].
  - intros call0 Hc0 Hf0. simplify_eq. by rewrite Ef, Ea.
  - intros t' th0. apply moved_threads. eapply thread_ok_ext; [by eapply set_call_ext|done].
Qed.

(** Closing cancels registered calls and touches nothing else. *)
Lemma cancel_all_spec cs s :
  calls (cancel_all s cs) = calls s ∧ closed (cancel_all s cs) = closed s
  ∧ ∀ c, store (cancel_all s cs) !! c
         = (if decide (c ∈ cs) then (λ call, cancel call (Some ErrCoalescerClosed)) <$> store s !! c
            else store s !! c).
Proof.
  revert s. induction cs as [|c0 cs IH]; intros s; [split_and!; try done; intros c; by rewrite decide_False by set_solver|].
  cbn [cancel_all foldl]. fold (cancel_all). destruct (store s !! c0) as [call0|] eqn:Hc0.
  - destruct (IH (set_call s c0 (cancel call0 (Some ErrCoalescerClosed)))) as (E1&E2&E3).
    split_and!; [done|done|]. intros c. unfold cancel_all in *. rewrite E3. cbn [store set_call].
    destruct (decide (c = c0)) as [->|Hne].
    + rewrite lookup_insert_eq, (decide_True (P := c0 ∈ c0 :: cs)) by set_solver. rewrite Hc0. cbn.
      case_decide; [|done]. cbn. f_equal. unfold cancel. cbn. by destruct (cause call0).
    + rewrite lookup_insert_ne by done.
      destruct (decide (c ∈ cs)); [rewrite decide_True by set_solver|rewrite decide_False by set_solver]; done.
  - destruct (IH s) as (E1&E2&E3). split_and!; [done|done|]. intros c. unfold cancel_all in *.
    rewrite E3. destruct (decide (c = c0)) as [->|Hne].
    + rewrite Hc0. by repeat case_decide.
    + destruct (decide (c ∈ cs)); [rewrite decide_True by set_solver|rewrite decide_False by set_solver]; done.
Qed.

Lemma registered_elem (s : RequestCoalescer) c :
  c ∈ (map_to_list (calls s)).*2 ↔ ∃ k, calls s !! k = Some c.
Proof.
  rewrite list_elem_of_fmap. split.
  - intros ([k c0]&->&Hk). exists k. by apply elem_of_map_to_list.
  - intros [k Hk]. exists (k, c). split; [done|]. by apply elem_of_map_to_list.
Qed.

Lemma close_inv w :
  system_inv w → system_inv {| coalescer := Close (coalescer w); threads := threads w |}.
Proof.
  intros Hinv. pose proof Hinv as [Hcalls Hstore Hths]. unfold Close.
  destruct (closed (coalescer w)) eqn:Hcl; [by destruct w|].
  set (cs := (map_to_list (calls (coalescer w))).*2).
  destruct (cancel_all_spec cs
    {| store := store (coalescer w); calls := calls (coalescer w); closed := true |})
    as (E1&E2&E3). cbn [calls closed store] in E1, E2, E3.
  split; cbn [coalescer threads].
  - rewrite E1. intros k c Hk. destruct (Hcalls _ _ Hk) as (call&Hc&<-). rewrite E3, Hc.
    case_decide; by eexists.
  - intros c call'. rewrite E3. destruct (store (coalescer w) !! c) as [call|] eqn:Hc; [|by case_decide].
    destruct (Hstore _ _ Hc) as [H1 H2 H3]. intros Hcall'.
    assert (key call' = key call ∧ waiters call' = waiters call ∧ finished call' = finished call
      ∧ (is_Some (cause call) → is_Some (cause call'))
      ∧ (c ∈ cs → cause call = None → cause call' = Some ErrCoalescerClosed)) as (Ek&Ew&Ef&Ec&En).
    { case_decide; cbn in Hcall'; simplify_eq; split_and!; try done; cbn.
      - intros [e ->]. by eexists.
      - by intros _ ->. }
    split; rewrite ?Ek, ?Ew, ?Ef, ?E1, ?E2; [done|intros Hf; destruct (H2 Hf); auto|].
    intros Hf. destruct (H3 Hf) as [(Hk&?&Hcause)|(?&?&?)]; [left|right; auto]. rewrite Hcl in Hcause.
    split_and!; [done|done|]. apply En; [|done]. apply registered_elem. by eexists.
  - intros t th Ht. apply (thread_ok_ext (coalescer w)); [|by eapply Hths].
    intros c call Hc. rewrite E3, Hc. case_decide; cbn; by eexists.
Qed.

Lemma shared_step_inv w a w' : system_inv w → step w a = Some w' → system_inv w'.
Proof.
  intros Hinv. pose proof Hinv as [Hcalls Hstore Hths]. destruct a as [t k has|t|t e|t|c a|]; cbn [step].
  - destruct (threads w !! t) eqn:Ht; [done|].
    destruct (Do_locked (coalescer w) k has) as [[c|e] s'] eqn:Hdo; intros [= <-].
    + by eapply Do_inv.
    + assert (s' = coalescer w) as -> by (unfold Do_locked in Hdo; by cases_in Hdo).
      apply shared_move_inv; [done|done|]. intros c. by rewrite count_new by done.
  - destruct (threads w !! t) as [[c| | |]|] eqn:Ht; try done.
    destruct (store (coalescer w) !! c) as [call|] eqn:Hc; [|done].
    destruct (finished call) eqn:Hf; intros [= <-]. apply shared_move_inv; [done|by exists call|].
    intros c'. rewrite (count_old _ (Selecting c)) by done. cbn. lia.
  - destruct (threads w !! t) as [[c| | |]|] eqn:Ht; try done. intros [= <-].
    apply shared_move_inv; [done|exact (Hths _ _ Ht)|].
    intros c'. rewrite (count_old _ (Selecting c)) by done. cbn. lia.
  - destruct (threads w !! t) as [[|c|c e|]|] eqn:Ht; try done.
    + destruct (Hths _ _ Ht) as (call&Hc&Hf). rewrite Hc. intros [= <-].
      eapply (leave_inv w t (SawDone c) c false); [done|done|..]; cbn.
      * by rewrite decide_True.
      * intros c' Hne. by rewrite decide_False.
      * done.
      * by exists call.
      * by exists call.
    + intros [= <-]. eapply (leave_inv w t (SawCancel c e) c true); [done|done|..]; cbn; try done.
      * by rewrite decide_True.
      * intros c' Hne. by rewrite decide_False.
  - destruct (store (coalescer w) !! c) as [call|] eqn:Hc; [|done].
    destruct (finished call) eqn:Hf; intros [= <-]. by eapply finish_inv.
  - intros [= <-]. by apply close_inv.
Qed.

Lemma shared_run_inv w acts w' : system_inv w → run w acts = Some w' → system_inv w'.
Proof.
  revert w. induction acts as [|a acts IH]; intros w Hw Hrun; cbn in Hrun; [by simplify_eq|].
  destruct (step w a) as [w1|] eqn:Ha; [|done]. by eapply IH; [eapply shared_step_inv|].
Qed.

Lemma shared_reach_inv acts w : run init_system acts = Some w → system_inv w.
Proof. apply shared_run_inv. split; cbn; intros *; by rewrite lookup_empty. Qed.

(** ** Where answers come from *)

(** Every finished call of [s'] was finished in [s] with the same answer. *)
Definition no_new_answer (s s' : RequestCoalescer) : Prop :=
  ∀ c call', store s' !! c = Some call' → finished call' = true →
    ∃ call, store s !! c = Some call ∧ finished call = true ∧ result_err call = result_err call'.

Lemma no_new_answer_refl s : no_new_answer s s.
Proof. intros c call Hc Hf. by exists call. Qed.

Lemma no_new_answer_set s s1 c call' :
  store s1 = store s →
  (finished call' = true → ∃ call, store s !! c = Some call ∧ finished call = true
                                   ∧ result_err call = result_err call') →
  no_new_answer s (set_call s1 c call').
Proof.
  intros Hs Hold c' call0. cbn. rewrite Hs, lookup_insert_Some.
  intros [[<- <-]|[_ Hc']] Hf; [by apply Hold|by exists call0].
Qed.

Lemma Do_no_new_answer s k has : no_new_answer s (Do_locked s k has).2.
Proof.
  unfold Do_locked. destruct (negb has || _); [apply no_new_answer_refl|].
  destruct (closed s) eqn:Hcl; [apply no_new_answer_refl|].
  destruct (calls s !! k) as [c|].
  - destruct (store s !! c) as [call|] eqn:Hc; [|apply no_new_answer_refl].
    apply no_new_answer_set; [done|]. cbn. by exists call.
  - intros c call'. cbn. rewrite lookup_insert_Some. intros [[<- <-]|[_ Hc]] Hf; [done|by exists call'].
Qed.

Lemma leave_no_new_answer s c b : no_new_answer s (leave s c b).
Proof.
  unfold leave. destruct (store s !! c) as [call|] eqn:Hc; [|apply no_new_answer_refl].
  destruct (_ && _ && _); apply no_new_answer_set;
    rewrite ?unregister_store; cbn; try done; by exists call.
Qed.

Lemma close_no_new_answer s : no_new_answer s (Close s).
Proof.
  unfold Close. destruct (closed s); [apply no_new_answer_refl|]. intros c call'.
  rewrite (proj2 (proj2 (cancel_all_spec _ _))). cbn [store].
  case_decide; [|by eexists]. rewrite fmap_Some. intros (call&Hc&->) Hf. by exists call.
Qed.

Lemma step_answer w a w' c call' :
  step w a = Some w' → store (coalescer w') !! c = Some call' → finished call' = true →
  a = OperationReturns c (result_err call')
  ∨ ∃ call, store (coalescer w) !! c = Some call ∧ finished call = true
            ∧ result_err call = result_err call'.
Proof.
  intros Hstep. destruct a as [t k has|t|t e|t|c0 a|]; cbn [step] in Hstep.
  - destruct (threads w !! t); [done|]. pose proof (Do_no_new_answer (coalescer w) k has) as Hn.
    destruct (Do_locked (coalescer w) k has) as [[]]; simplify_eq; intros; right; by eapply Hn.
  - cases_in Hstep; right; by eexists.
  - cases_in Hstep; right; by eexists.
  - cases_in Hstep; intros; right; by eapply leave_no_new_answer.
  - destruct (store (coalescer w) !! c0) as [call|] eqn:Hc0; [|done].
    destruct (finished call); simplify_eq. cbn [coalescer]. unfold run_finish. rewrite Hc0. cbn.
    rewrite unregister_store, lookup_insert_Some. intros [[<- <-]|[_ Hc]] Hf; [by left|].
    right. by exists call'.
  - simplify_eq. intros; right; by eapply close_no_new_answer.
Qed.

Lemma run_answer w acts w' c call' :
  run w acts = Some w' → store (coalescer w') !! c = Some call' → finished call' = true →
  OperationReturns c (result_err call') ∈ acts
  ∨ ∃ call, store (coalescer w) !! c = Some call ∧ finished call = true
            ∧ result_err call = result_err call'.
Proof.
  revert w. induction acts as [|a acts IH]; intros w Hrun Hc Hf; cbn in Hrun.
  { simplify_eq. right. by exists call'. }
  destruct (step w a) as [w1|] eqn:Ha; [|done].
  destruct (IH _ Hrun Hc Hf) as [?|(call1&Hc1&Hf1&E1)]; [left; by constructor|].
  destruct (step_answer _ _ _ _ _ Ha Hc1 Hf1) as [->|(call0&?&?&?)].
  - left. rewrite E1. constructor.
  - right. exists call0. by rewrite <- E1.
Qed.

(** ** Properties *)

(** A call whose operation still runs with a live context. *)
Definition live (call : coalescedCall) : Prop := finished call = false ∧ cause call = None.

(** C26: at most one live operation per key. However calls of Do, completions,
    cancellations and Close interleave, two calls with the same key whose operations
    still run with a live context are the same call; the coalescer keeps no finished
    call, so a request after completion starts a fresh operation; and the number of
    waiters of a call is exactly the number of goroutines inside Do for it. *)
Theorem one_operation_per_key acts w c1 c2 call1 call2 :
  run init_system acts = Some w →
  store (coalescer w) !! c1 = Some call1 → store (coalescer w) !! c2 = Some call2 →
  (live call1 → live call2 → key call1 = key call2 → c1 = c2)
  ∧ (finished call1 = true → ∀ k, calls (coalescer w) !! k ≠ Some c1)
  ∧ waiters call1 = map_sum (waits_for c1) (threads w).
Proof.
  intros Hrun H1 H2. destruct (shared_reach_inv _ _ Hrun) as [Hcalls Hstore Hths].
  destruct (Hstore _ _ H1) as [Hw Hfin Hlive1], (Hstore _ _ H2) as [_ _ Hlive2].
  split_and!; [|intros Hf k Hk; destruct (Hcalls _ _ Hk) as (?&?&?), (Hfin Hf); congruence|done].
  intros [F1 C1] [F2 C2] Hkey.
  destruct (Hlive1 F1) as [(R1&_)|(_&_&[? ?])], (Hlive2 F2) as [(R2&_)|(_&_&[? ?])]; congruence.
Qed.

(** shared work is cancelled exactly when nobody wants it any more. As long as the
    operation of a call runs, its context is cancelled if and only if its last waiter
    has left or the coalescer was closed: one waiter's cancellation never disturbs the
    others, and abandoned work does not run on. *)
Theorem cancelled_iff_abandoned acts w c call :
  run init_system acts = Some w →
  store (coalescer w) !! c = Some call → finished call = false →
  is_Some (cause call)
  ↔ map_sum (waits_for c) (threads w) = 0%Z ∨ closed (coalescer w) = true.
Proof.
  intros Hrun Hc Hf. destruct (shared_reach_inv _ _ Hrun) as [Hcalls Hstore Hths].
  destruct (Hstore _ _ Hc) as [Hw _ Hlive].
  destruct (Hlive Hf) as [(_&Hpos&Hcause)|(_&Hz&Hcause)]; rewrite ?Hcause.
  - destruct (closed (coalescer w)); split; [auto|by eexists|by intros []|intros [|]; [lia|done]].
  - naive_solver.
Qed.

(** Every waiter of a call gets the answer of its operation. Two goroutines whose Do
    returned an answer of the same call returned the same answer, and it is the one the
    operation of that call returned. *)
Theorem waiters_share_the_answer acts w t1 t2 c a1 a2 :
  run init_system acts = Some w →
  threads w !! t1 = Some (Returned (Some c) a1) →
  threads w !! t2 = Some (Returned (Some c) a2) →
  a1 = a2 ∧ OperationReturns c a1 ∈ acts.
Proof.
  intros Hrun H1 H2. destruct (shared_reach_inv _ _ Hrun) as [Hcalls Hstore Hths].
  destruct (Hths _ _ H1) as (call&Hc&Hf&<-), (Hths _ _ H2) as (call2&Hc2&_&<-).
  simplify_eq. split; [done|].
  destruct (run_answer _ _ _ _ _ Hrun Hc Hf) as [|(?&Hnone&_)]; [done|].
  cbn in Hnone. by rewrite lookup_empty in Hnone.
Qed.

End coalescer.

(** ** Witnesses *)

Definition demo_actions : list (@action nat) :=
  [CallDo 1 "pods" true; CallDo 2 "pods" true; CallDo 3 "pods" true; SelectCancel 3 ContextCanceled;
   Leave 3; OperationReturns 0 (Some 7, None); SelectDone 1; Leave 1; SelectDone 2; Leave 2;
   CallDo 4 "pods" true].

Definition demo_system : @system nat :=
  default init_system (run init_system demo_actions).

Definition demo_call (c : nat) : @coalescedCall nat :=
  default {| key := ""; cause := None; waiters := 0; finished := false; result_err := (None, None) |}
    (store (coalescer demo_system) !! c).

Lemma one_operation_per_key_witness :
  finished (demo_call 0) = true ∧ finished (demo_call 1) = false
  ∧ ∀ k, calls (coalescer demo_system) !! k ≠ Some 0.
Proof.
  split_and!; [by vm_compute|by vm_compute|].
  apply (one_operation_per_key demo_actions demo_system 0 1 (demo_call 0) (demo_call 1));
    by vm_compute.
Defined.

Lemma cancelled_iff_abandoned_witness :
  cause (demo_call 1) = None
  ∧ (is_Some (cause (demo_call 1))
     ↔ map_sum (waits_for 1) (threads demo_system) = 0%Z ∨ closed (coalescer demo_system) = true).
Proof.
  split; [by vm_compute|].
  apply (cancelled_iff_abandoned demo_actions demo_system 1 (demo_call 1)); by vm_compute.
Defined.

Lemma waiters_share_the_answer_witness :
  threads demo_system !! 1 = Some (Returned (Some 0) (Some 7, None))
  ∧ (Some 7, @None error) = (Some 7, None).
Proof.
  split; [by vm_compute|].
  apply (waiters_share_the_answer demo_actions demo_system 1 2 0); by vm_compute.
Defined.
