(* ===== verification/Unicode.v ===== *)
(** * Unicode: runes of UTF-8 strings

    The part of unicode/utf8 and unicode that the search grammar
    (src/internal/services/resources/search.go) and the selectors of list queries use,
    on top of the decoder widths in [Json]: decoding a rune, [WriteRune], and
    [unicode.IsSpace]. Simple case folding is a table of the Unicode standard:
    [SimpleFold] is a parameter with the documented property that iterating it cycles
    through the code points equivalent to the first one. *)
From Stdlib Require Import Ascii String ZArith Lia.
From stdpp Require Import base gmap strings list.
From S2P Require Import Prelude Json.

Local Open Scope N_scope.

(** ** Decoding and encoding *)

Definition RuneError : N := 65533.

Definition byte (c : ascii) : N := N_of_ascii c.

(** The code point of a well-formed sequence. *)
Definition rune_value (l : list ascii) : N :=
  match byte <$> l with
  | [b0] => b0
  | [b0; b1] => (b0 - 192) * 64 + (b1 - 128)
  | [b0; b1; b2] => (b0 - 224) * 4096 + (b1 - 128) * 64 + (b2 - 128)
  | [b0; b1; b2; b3] =>
    (b0 - 240) * 262144 + (b1 - 128) * 4096 + (b2 - 128) * 64 + (b3 - 128)
  | _ => RuneError
  end.

(** [utf8.DecodeRuneInString]: the rune and its width. *)
Definition DecodeRune (l : list ascii) : N * nat :=
  match rune_width l with
  | Some w => (rune_value (take w l), w)
  | None => (RuneError, match l with [] => 0 | _ => 1 end)%nat
  end.

Definition encode3 (r : N) : list ascii :=
  [chr (224 + r / 4096); chr (128 + (r / 64) mod 64); chr (128 + r mod 64)].

(** [utf8.AppendRune], which [strings.Builder.WriteRune] calls: surrogates and values
    out of range become RuneError. *)
Definition EncodeRune (r : N) : list ascii :=
  if r <? 128 then [chr r]
  else if r <? 2048 then [chr (192 + r / 64); chr (128 + r mod 64)]
  else if (55296 <=? r) && (r <=? 57343) || (1114111 <? r) then encode3 RuneError
  else if r <? 65536 then encode3 r
  else [chr (240 + r / 262144); chr (128 + (r / 4096) mod 64); chr (128 + (r / 64) mod 64);
        chr (128 + r mod 64)].

(** [unicode.IsSpace] *)
Definition space_runes : list N :=
  [9; 10; 11; 12; 13; 32; 133; 160; 5760; 8192; 8193; 8194; 8195; 8196; 8197; 8198; 8199; 8200;
   8201; 8202; 8232; 8233; 8239; 8287; 12288].
Definition IsSpace (r : N) : bool := existsb (N.eqb r) space_runes.

(** ** Lemmas *)

Lemma byte_lt c : byte c < 256.
Proof. apply N_ascii_bounded. Qed.

Lemma chr_byte c : chr (byte c) = c.
Proof. apply ascii_N_embedding. Qed.

Lemma byte_chr n : n < 256 → byte (chr n) = n.
Proof. apply N_ascii_embedding. Qed.

Lemma in_range_spec lo hi c : in_range lo hi c = true ↔ lo ≤ byte c ≤ hi.
Proof. unfold in_range, byte. rewrite andb_true_iff, !N.leb_le. done. Qed.

Lemma in_range_false lo hi c : in_range lo hi c = false ↔ byte c < lo ∨ hi < byte c.
Proof. unfold in_range, byte. rewrite andb_false_iff, !N.leb_gt. done. Qed.

Ltac ranges :=
  repeat match goal with
  | H : _ && _ = true |- _ => apply andb_true_iff in H as [? ?]
  | H : in_range _ _ _ = true |- _ => apply in_range_spec in H
  | H : is_continuation _ = true |- _ => apply in_range_spec in H
  | H : in_range _ _ _ = false |- _ => apply in_range_false in H
  end.

(** The four shapes of a rune, with the ranges of their bytes. *)
Inductive rune_shape : list ascii → nat → list ascii → Prop :=
| shape1 b0 l : byte b0 ≤ 127 → rune_shape (b0 :: l) 1 l
| shape2 b0 b1 l : 194 ≤ byte b0 ≤ 223 → 128 ≤ byte b1 ≤ 191 → rune_shape (b0 :: b1 :: l) 2 l
| shape3 b0 b1 b2 l :
    224 ≤ byte b0 ≤ 239 → 128 ≤ byte b1 ≤ 191 → 128 ≤ byte b2 ≤ 191 →
    (byte b0 = 224 → 160 ≤ byte b1) → (byte b0 = 237 → byte b1 ≤ 159) →
    rune_shape (b0 :: b1 :: b2 :: l) 3 l
| shape4 b0 b1 b2 b3 l :
    240 ≤ byte b0 ≤ 244 → 128 ≤ byte b1 ≤ 191 → 128 ≤ byte b2 ≤ 191 → 128 ≤ byte b3 ≤ 191 →
    (byte b0 = 240 → 144 ≤ byte b1) → (byte b0 = 244 → byte b1 ≤ 143) →
    rune_shape (b0 :: b1 :: b2 :: b3 :: l) 4 l.

Lemma rune_width_shape l w : rune_width l = Some w → rune_shape l w (drop w l).
Proof.
  destruct l as [|b0 r]; [done|]. cbn [rune_width].
  destruct (in_range 0 127 b0) eqn:E1; [intros [= <-]; ranges; constructor; lia|].
  destruct (in_range 194 223 b0) eqn:E2.
  { destruct r as [|b1 r]; [done|]. case_match; [|done]. intros [= <-]. ranges. by constructor. }
  destruct (in_range 224 239 b0) eqn:E3.
  { destruct r as [|b1 [|b2 r]]; try done. case_match; [|done]. intros [= <-]. ranges.
    destruct (in_range 224 224 b0) eqn:E4, (in_range 237 237 b0) eqn:E5; ranges;
      constructor; lia. }
  destruct (in_range 240 244 b0) eqn:E4; [|done].
  destruct r as [|b1 [|b2 [|b3 r]]]; try done. case_match; [|done]. intros [= <-]. ranges.
  destruct (in_range 240 240 b0) eqn:E5, (in_range 244 244 b0) eqn:E6; ranges; constructor; lia.
Qed.

(** Division by constants in goals on code points. *)
#[local] Ltac Zify.zify_post_hook ::= Z.to_euclidean_division_equations.

(** Writing the rune that was read gives back the bytes it was read from. *)
Lemma encode_decode l w : rune_width l = Some w → EncodeRune (rune_value (take w l)) = take w l.
Proof.
  intros [b0 r|b0 b1 r|b0 b1 b2 r|b0 b1 b2 b3 r]%rune_width_shape; unfold rune_value;
    rewrite ?firstn_cons, ?firstn_O, ?fmap_cons, ?fmap_nil; unfold EncodeRune, encode3.
  - rewrite (proj2 (N.ltb_lt _ _)) by lia. by rewrite chr_byte.
  - set (x := byte b0) in *. set (y := byte b1) in *.
    rewrite (proj2 (N.ltb_ge _ 128)), (proj2 (N.ltb_lt _ 2048)) by lia.
    rewrite <- (chr_byte b0), <- (chr_byte b1). fold x y. repeat f_equal; lia.
  - set (x := byte b0) in *. set (y := byte b1) in *. set (z := byte b2) in *.
    rewrite (proj2 (N.ltb_ge _ 128)), (proj2 (N.ltb_ge _ 2048)), (proj2 (N.ltb_lt _ 65536)) by lia.
    match goal with |- context [?b || _] => replace b with false end.
    2: { symmetry. rewrite andb_false_iff, !N.leb_gt. lia. }
    rewrite (proj2 (N.ltb_ge 1114111 _)) by lia.
    rewrite <- (chr_byte b0), <- (chr_byte b1), <- (chr_byte b2). fold x y z. repeat f_equal; lia.
  - set (x := byte b0) in *. set (y := byte b1) in *. set (z := byte b2) in *. set (u := byte b3) in *.
    rewrite (proj2 (N.ltb_ge _ 128)), (proj2 (N.ltb_ge _ 2048)), (proj2 (N.ltb_ge _ 65536)) by lia.
    rewrite (proj2 (N.leb_gt _ 57343)), andb_false_r, (proj2 (N.ltb_ge 1114111 _)) by lia.
    rewrite <- (chr_byte b0), <- (chr_byte b1), <- (chr_byte b2), <- (chr_byte b3).
    fold x y z u. repeat f_equal; lia.
Qed.

Lemma shape_width l w r : rune_shape l w r → rune_width l = Some w.
Proof.
  assert (∀ lo hi c, lo ≤ byte c ≤ hi → in_range lo hi c = true) as Hin
    by (intros; by apply in_range_spec).
  assert (∀ lo hi c, byte c < lo ∨ hi < byte c → in_range lo hi c = false) as Hout
    by (intros; by apply in_range_false).
  destruct 1; cbn [rune_width].
  - by rewrite Hin by lia.
  - rewrite Hout, Hin by lia. unfold is_continuation. by rewrite Hin by lia.
  - rewrite !(Hout _ _ b0), Hin by lia. unfold is_continuation. rewrite (Hin _ _ b2) by lia.
    rewrite Hin; [done|]. destruct (in_range 224 224 b0) eqn:E1, (in_range 237 237 b0) eqn:E2;
      ranges; lia.
  - rewrite !(Hout _ _ b0), Hin by lia. unfold is_continuation.
    rewrite (Hin _ _ b2), (Hin _ _ b3) by lia.
    rewrite Hin; [done|]. destruct (in_range 240 240 b0) eqn:E1, (in_range 244 244 b0) eqn:E2;
      ranges; lia.
Qed.

(** Decoding looks only at the bytes of the rune. *)
Lemma rune_width_app l w l' : rune_width l = Some w → rune_width (take w l ++ l') = Some w.
Proof.
  intros H%rune_width_shape. apply (shape_width _ _ l').
  destruct H; rewrite ?firstn_cons, ?firstn_O; cbn [app]; by constructor.
Qed.

Lemma rune_width_bounds l w : rune_width l = Some w → (1 ≤ w ≤ 4 ∧ w ≤ length l)%nat.
Proof. intros H%rune_width_shape. destruct H; cbn [length]; lia. Qed.

(** A rune of several bytes has no ASCII byte in it. *)
Lemma multibyte_high l w :
  rune_width l = Some w → (2 ≤ w)%nat → Forall (λ c, 128 ≤ byte c) (take w l).
Proof.
  intros H%rune_width_shape Hw. destruct H; [lia|..];
    rewrite ?firstn_cons, ?firstn_O; repeat constructor; lia.
Qed.

Lemma rune_width_ascii c l : byte c ≤ 127 → rune_width (c :: l) = Some 1%nat.
Proof. intros Hc. apply (shape_width _ _ l). by constructor. Qed.

Lemma DecodeRune_ascii c l : byte c ≤ 127 → DecodeRune (c :: l) = (byte c, 1%nat).
Proof. intros Hc. unfold DecodeRune. by rewrite rune_width_ascii. Qed.

Lemma DecodeRune_progress l : l ≠ [] → (1 ≤ (DecodeRune l).2)%nat.
Proof.
  intros Hl. unfold DecodeRune. destruct (rune_width l) as [w|] eqn:Hw; cbn.
  - apply rune_width_bounds in Hw. lia.
  - destruct l; [done|lia].
Qed.

(** ** Spaces *)

Lemma strip_prefix_app p r : strip_prefix p (p ++ r) = Some r.
Proof. induction p as [|c p IH]; cbn; [done|]. by rewrite decide_True. Qed.

Lemma strip_prefix_length p l r : strip_prefix p l = Some r → length l = (length p + length r)%nat.
Proof.
  revert l. induction p as [|c p IH]; intros [|d l]; cbn; try (by intros [= <-]).
  case_decide; [|done]. intros ?%IH. lia.
Qed.

Lemma strip_any_elem ps p r : p ∈ ps → is_Some (strip_any ps (p ++ r)).
Proof.
  induction 1 as [q ps|q q' ps _ IH]; cbn [strip_any]; [by rewrite strip_prefix_app; eexists|].
  destruct (strip_prefix q' (q ++ r)); [by eexists|done].
Qed.

Lemma strip_any_length ps l r :
  Forall (λ p, p ≠ []) ps → strip_any ps l = Some r → (length r < length l)%nat.
Proof.
  induction 1 as [|p ps Hp _ IH]; cbn [strip_any]; [done|].
  destruct (strip_prefix p l) as [r'|] eqn:E; [|done]. intros [= <-].
  apply strip_prefix_length in E. destruct p; [done|]. cbn in E. lia.
Qed.

Lemma space_encodings_nonempty : Forall (λ p, p ≠ []) space_encodings.
Proof. by apply (bool_decide_unpack _); vm_compute. Qed.

(** Trimming removes every leading space. *)
Lemma trim_front_done ps fuel l :
  Forall (λ p, p ≠ []) ps → (length l ≤ fuel)%nat → strip_any ps (trim_front ps fuel l) = None.
Proof.
  intros Hps. revert l. induction fuel as [|f IH]; intros l Hl; cbn [trim_front].
  - destruct (strip_any ps l) as [r|] eqn:E; [|done]. apply strip_any_length in E; [lia|done].
  - destruct (strip_any ps l) as [r|] eqn:E; [|done]. apply IH.
    apply strip_any_length in E; [lia|done].
Qed.

Lemma trim_left_done l : strip_any space_encodings (trim_left l) = None.
Proof. apply trim_front_done; [apply space_encodings_nonempty|done]. Qed.

Lemma trim_front_length ps fuel l :
  Forall (λ p, p ≠ []) ps → (length (trim_front ps fuel l) ≤ length l)%nat.
Proof.
  intros Hps. revert l. induction fuel as [|f IH]; intros l; cbn [trim_front]; [done|].
  destruct (strip_any ps l) as [r|] eqn:E; [|done]. apply strip_any_length in E; [|done].
  specialize (IH r). lia.
Qed.

Lemma trim_left_length l : (length (trim_left l) ≤ length l)%nat.
Proof. apply trim_front_length, space_encodings_nonempty. Qed.

Lemma trim_front_fix ps fuel l : strip_any ps l = None → trim_front ps fuel l = l.
Proof. intros H. destruct fuel; cbn [trim_front]; [done|by rewrite H]. Qed.

Lemma trim_left_fix l : strip_any space_encodings l = None → trim_left l = l.
Proof. apply trim_front_fix. Qed.

Lemma space_rune_encoded r : IsSpace r = true → EncodeRune r ∈ space_encodings.
Proof.
  intros H. apply existsb_exists in H as (x&Hx&->%N.eqb_eq). revert x Hx.
  assert (Forall (λ x, EncodeRune x ∈ space_encodings) space_runes) as H
    by (apply (bool_decide_unpack _); by vm_compute).
  intros x Hx. rewrite Forall_forall in H. apply H. by apply list_elem_of_In.
Qed.

(** What trimming leaves does not start with a space rune. *)
Lemma trimmed_head l : strip_any space_encodings l = None → IsSpace (DecodeRune l).1 = false.
Proof.
  intros Hl. destruct (IsSpace (DecodeRune l).1) eqn:E; [|done]. unfold DecodeRune in E.
  destruct (rune_width l) as [w|] eqn:Hw; [|done]. cbn in E.
  apply space_rune_encoded in E. rewrite encode_decode in E by done.
  destruct (strip_any_elem _ _ (drop w l) E) as [r Hr]. rewrite take_drop in Hr. congruence.
Qed.

(** ** Simple case folding *)

(** [unicode.SimpleFold], as documented: iterating it runs through the finitely many
    code points equivalent to [r] and comes back to [r]; a code point with no
    equivalent maps to itself. *)
Class CaseFolding := {
  SimpleFold : N → N;
  orbit_bound : nat;
  fold_cycles : ∀ r, ∃ n, (0 < n ≤ orbit_bound)%nat ∧ Nat.iter n SimpleFold r = r }.

Section folding.
Context `{CaseFolding}.

(** The loop of [foldSimple] over one rune: the least equivalent code point. *)
Fixpoint fold_orbit (fuel : nat) (current candidate canonical : N) : N :=
  match fuel with
  | O => canonical
  | S f =>
    if candidate =? current then canonical
    else fold_orbit f current (SimpleFold candidate)
           (if candidate <? canonical then candidate else canonical)
  end.
Definition fold_rune (r : N) : N := fold_orbit orbit_bound r (SimpleFold r) r.

(** The runes [range] yields over a string. *)
Fixpoint runes (fuel : nat) (l : list ascii) : list N :=
  match fuel, l with
  | _, [] | O, _ => []
  | S f, _ => let '(r, w) := DecodeRune l in r :: runes f (drop w l)
  end.

Definition foldSimple (value : string) : string :=
  of_chars (concat (EncodeRune ∘ fold_rune <$> runes (String.length value) (chars value))).

Definition ContainsFolded (value search : string) : bool :=
  Contains (foldSimple value) (foldSimple search).

(** ** The orbit *)

(** Two code points are equivalent when folding leads from one to the other. *)
Definition fold_equiv (r r' : N) : Prop := ∃ n, Nat.iter n SimpleFold r = r'.

Lemma fold_orbit_spec fuel r k canonical :
  (∃ n, (k < n ≤ k + fuel)%nat ∧ Nat.iter n SimpleFold r = r) →
  let res := fold_orbit fuel r (Nat.iter (S k) SimpleFold r) canonical in
  res ≤ canonical
  ∧ (∀ n, (k < n)%nat → (∀ m, (k < m ≤ n)%nat → Nat.iter m SimpleFold r ≠ r) →
       res ≤ Nat.iter n SimpleFold r)
  ∧ (res = canonical ∨ ∃ n, res = Nat.iter n SimpleFold r).
Proof.
  revert k canonical. induction fuel as [|f IH]; intros k canonical (n&Hn&Hr); [lia|].
  cbn [fold_orbit]. set (c := Nat.iter (S k) SimpleFold r).
  destruct (N.eqb_spec c r) as [Hc|Hc].
  { split_and!; [done| |by left]. intros m Hm Hnot. exfalso. by apply (Hnot (S k)); [lia|]. }
  assert (n ≠ S k) as Hne by (intros ->; done).
  destruct (IH (S k) (if c <? canonical then c else canonical)) as (H1&H2&H3); [exists n; split; [lia|done]|].
  change (SimpleFold c) with (Nat.iter (S (S k)) SimpleFold r).
  split_and!.
  - destruct (N.ltb_spec c canonical); lia.
  - intros m Hm Hnot. destruct (decide (m = S k)) as [->|].
    + fold c. destruct (N.ltb_spec c canonical); lia.
    + apply H2; [lia|]. intros. apply Hnot. lia.
  - destruct H3 as [->|[m Hm]]; [|right; by exists m].
    destruct (c <? canonical); [right; by exists (S k)|by left].
Qed.

Lemma fold_rune_orbit r :
  (∃ n, fold_rune r = Nat.iter n SimpleFold r) ∧ ∀ n, fold_rune r ≤ Nat.iter n SimpleFold r.
Proof.
  destruct (fold_orbit_spec orbit_bound r 0 r) as (H1&H2&H3); [by apply fold_cycles|].
  fold (fold_rune r) in H1, H2, H3. split.
  - destruct H3 as [E|]; [|done]. by exists 0%nat.
  - intros n. induction n as [n IH] using lt_wf_ind.
    destruct (decide (Exists (λ j, Nat.iter j SimpleFold r = r) (seq 1 n))) as [Hj|Hj].
    + apply Exists_exists in Hj as (j&Hj%elem_of_seq&Er).
      replace n with ((n - j) + j)%nat by lia. rewrite Nat.iter_add, Er. apply IH. lia.
    + destruct (decide (n = 0%nat)) as [->|]; [done|]. apply H2; [lia|].
      intros m Hm Er. apply Hj, Exists_exists. exists m. split; [apply elem_of_seq; lia|done].
Qed.

Lemma fold_equiv_sym r r' : fold_equiv r r' → fold_equiv r' r.
Proof.
  intros [n <-]. destruct (fold_cycles r) as (p&Hp&Er).
  assert (∀ k, Nat.iter (k * p) SimpleFold r = r) as Hk.
  { induction k as [|k IH]; [done|]. cbn [Nat.mul]. by rewrite Nat.iter_add, IH. }
  exists (n * p - n)%nat. rewrite <- Nat.iter_add.
  replace (n * p - n + n)%nat with (n * p)%nat by nia. apply Hk.
Qed.

(** Folding gives every member of a class of equivalent code points the same value. *)
Lemma fold_rune_equiv r r' : fold_equiv r r' → fold_rune r = fold_rune r'.
Proof.
  assert (∀ x y, fold_equiv x y → fold_rune x ≤ fold_rune y) as Hle.
  { intros x y [n <-]. destruct (fold_rune_orbit (Nat.iter n SimpleFold x)) as [[m ->] _].
    rewrite <- Nat.iter_add. apply fold_rune_orbit. }
  intros Hr. apply N.le_antisymm; [by apply Hle|by apply Hle, fold_equiv_sym].
Qed.

Lemma foldSimple_equiv s s' :
  Forall2 fold_equiv (runes (String.length s) (chars s)) (runes (String.length s') (chars s')) →
  foldSimple s = foldSimple s'.
Proof.
  intros Hs. unfold foldSimple. do 2 f_equal. revert Hs.
  generalize (runes (String.length s) (chars s)) (runes (String.length s') (chars s')).
  induction 1 as [|r r' l l' Hr _ IH]; [done|]. rewrite !fmap_cons, IH. cbn.
  by rewrite (fold_rune_equiv r r').
Qed.

End folding.
