(* ===== verification/Search.v ===== *)
(** * Search: the compound search expression of list queries

    Model of src/internal/services/resources/search.go: the parser of search
    expressions (words, quoted phrases, negation) and the matcher. Positions in the Go
    code are byte offsets into one string; here the parser holds the remaining bytes.
    The loops consume at least one byte per round, so the length of the input is
    enough fuel: [parse_loop_total] shows that the parser never runs out. *)
From Stdlib Require Import Ascii String ZArith Lia.
From stdpp Require Import base gmap strings list.
From S2P Require Import Prelude Json Unicode.

Record SearchQuery := {
  Include : list string; Exclude : list string;
  IncludePhrases : list string; ExcludePhrases : list string }.

#[export] Instance SearchQuery_eq_dec : EqDecision SearchQuery.
Proof. solve_decision. Defined.

Definition empty_query : SearchQuery :=
  {| Include := []; Exclude := []; IncludePhrases := []; ExcludePhrases := [] |}.

(** [strings.IndexFunc(input, unicode.IsSpace)] splits the input into the word and the
    rest; each round reads one rune. *)
Fixpoint word_span (fuel : nat) (l : list ascii) : list ascii * list ascii :=
  match fuel, l with
  | _, [] | O, _ => ([], l)
  | S f, _ =>
    let '(r, w) := DecodeRune l in
    if IsSpace r then ([], l)
    else let '(word, rest) := word_span f (drop w l) in (take w l ++ word, rest)
  end.
Definition readWord (input : list ascii) : list ascii * list ascii :=
  word_span (length input) input.

(** The loop of [readQuoted] after the opening quote. *)
Fixpoint quoted_loop (fuel : nat) (input builder : list ascii) : list ascii * list ascii :=
  match fuel, input with
  | _, [] | O, _ => (builder, [])
  | S f, _ =>
    let '(runeValue, width) := DecodeRune input in
    let rest := drop width input in
    if (runeValue =? 34)%N then (builder, rest)
    else
      let plain := quoted_loop f rest (builder ++ EncodeRune runeValue) in
      if (runeValue =? 92)%N then
        match rest with
        | [] => plain
        | _ =>
          let '(next, nextWidth) := DecodeRune rest in
          if (next =? 34)%N || (next =? 92)%N
          then quoted_loop f (drop nextWidth rest) (builder ++ EncodeRune next)
          else plain
        end
      else plain
  end.

Definition readQuoted (input : list ascii) : list ascii * list ascii :=
  match input with
  | c :: rest => if decide (c = quote) then quoted_loop (length rest) rest [] else readWord input
  | [] => readWord input
  end.

Definition add_token (q : SearchQuery) (negated : bool) (token : string) : SearchQuery :=
  let phrase := Contains token " " in
  {| Include := if negb negated && negb phrase then Include q ++ [token] else Include q;
     Exclude := if negated && negb phrase then Exclude q ++ [token] else Exclude q;
     IncludePhrases := if negb negated && phrase then IncludePhrases q ++ [token] else IncludePhrases q;
     ExcludePhrases := if negated && phrase then ExcludePhrases q ++ [token] else ExcludePhrases q |}.

Definition minus : ascii := chr 45.
Definition bang : ascii := chr 33.

(** The negation mark at the head of [remaining], and what is left after it. *)
Definition read_negation (remaining : list ascii) : bool * list ascii :=
  match remaining with
  | c :: rest =>
    if decide (c = minus ∨ c = bang) then (true, trim_left rest) else (false, remaining)
  | [] => (false, [])
  end.

(** One token: quoted or a word. *)
Definition read_token (remaining : list ascii) : list ascii * list ascii :=
  match remaining with
  | c :: _ => if decide (c = quote) then readQuoted remaining else readWord remaining
  | [] => ([], [])
  end.

(** The loop of [ParseSearch]; [None] when the fuel runs out. *)
Fixpoint parse_loop (fuel : nat) (remaining : list ascii) (q : SearchQuery) : option SearchQuery :=
  match fuel with
  | O => None
  | S f =>
    match trim_left remaining with
    | [] => Some q
    | head =>
      let '(negated, body) := read_negation head in
      match body with
      | [] => Some q
      | _ =>
        let '(token, rest) := read_token body in
        let token := TrimSpace (of_chars token) in
        if String.eqb token "" then parse_loop f rest q
        else parse_loop f rest (add_token q negated token)
      end
    end
  end.

Definition ParseSearch (raw : string) : SearchQuery :=
  let remaining := chars (TrimSpace raw) in
  default empty_query (parse_loop (S (length remaining)) remaining empty_query).

Definition IsEmpty (q : SearchQuery) : bool :=
  (length (Include q) + length (Exclude q) + length (IncludePhrases q)
   + length (ExcludePhrases q) =? 0)%nat.

Definition Matches `{CaseFolding} (q : SearchQuery) (fields : list string) : bool :=
  if IsEmpty q then true
  else
    let haystack := foldSimple (Join fields " ") in
    let found := λ term, Contains haystack (foldSimple term) in
    forallb found (Include q) && forallb found (IncludePhrases q)
    && forallb (negb ∘ found) (Exclude q) && forallb (negb ∘ found) (ExcludePhrases q).

(** ** Progress *)

Lemma word_span_length fuel l : (length (word_span fuel l).2 ≤ length l)%nat.
Proof.
  revert l. induction fuel as [|f IH]; intros l; destruct l as [|c l']; try done.
  cbn [word_span]. destruct (DecodeRune (c :: l')) as [r w]. case_match; [done|].
  specialize (IH (drop w (c :: l'))). destruct (word_span f (drop w (c :: l'))) as [a b].
  rewrite length_drop in IH. cbn in *. lia.
Qed.

(** A word that does not start with a space is not empty. *)
Lemma readWord_progress l :
  l ≠ [] → strip_any space_encodings l = None → (length (readWord l).2 < length l)%nat.
Proof.
  intros Hl Hs. apply trimmed_head in Hs. pose proof (DecodeRune_progress l Hl) as Hw.
  unfold readWord. destruct l as [|c l']; [done|]. cbn [length word_span].
  destruct (DecodeRune (c :: l')) as [r w]. cbn [fst snd] in Hs, Hw. rewrite Hs.
  pose proof (word_span_length (length l') (drop w (c :: l'))) as Hlen.
  destruct (word_span _ _) as [a b]. rewrite length_drop in Hlen. cbn in *. lia.
Qed.

Lemma quoted_loop_length fuel l b : (length (quoted_loop fuel l b).2 ≤ length l)%nat.
Proof.
  revert l b. induction fuel as [|f IH]; intros l b; destruct l as [|c l']; cbn [quoted_loop snd length];
    try lia.
  pose proof (DecodeRune_progress (c :: l') ltac:(done)) as Hw.
  destruct (DecodeRune (c :: l')) as [r w]. cbn in Hw.
  assert (length (drop w (c :: l')) < S (length l'))%nat as Hrest by (rewrite length_drop; cbn; lia).
  set (rest := drop w (c :: l')) in *. clearbody rest.
  destruct (r =? 34)%N; [cbn; lia|]. destruct (r =? 92)%N; [|specialize (IH rest (b ++ EncodeRune r)); lia].
  destruct rest as [|d rest']; [specialize (IH [] (b ++ EncodeRune r)); lia|].
  destruct (DecodeRune (d :: rest')) as [n nw]. destruct ((n =? 34)%N || (n =? 92)%N).
  - specialize (IH (drop nw (d :: rest')) (b ++ EncodeRune n)). rewrite length_drop in IH. lia.
  - specialize (IH (d :: rest') (b ++ EncodeRune r)). lia.
Qed.

Lemma read_token_progress l :
  l ≠ [] → strip_any space_encodings l = None → (length (read_token l).2 < length l)%nat.
Proof.
  intros Hl Hs. destruct l as [|c l']; [done|]. cbn [read_token].
  case_decide as Hc; [|by apply readWord_progress]. cbn [readQuoted]. rewrite decide_True by done.
  pose proof (quoted_loop_length (length l') l' []). cbn. lia.
Qed.

(** The parser's position after the space and the negation mark. *)
Lemma read_negation_spec l :
  strip_any space_encodings l = None →
  strip_any space_encodings (read_negation l).2 = None
  ∧ (length (read_negation l).2 ≤ length l)%nat.
Proof.
  intros Hl. destruct l as [|c l']; [done|]. cbn [read_negation]. case_decide; cbn [snd]; [|done].
  split; [apply trim_left_done|]. pose proof (trim_left_length l'). cbn. lia.
Qed.

Lemma parse_loop_total fuel l q : (length l < fuel)%nat → is_Some (parse_loop fuel l q).
Proof.
  revert l q. induction fuel as [|f IH]; intros l q Hl; [lia|]. cbn [parse_loop].
  pose proof (trim_left_done l) as Hdone. pose proof (trim_left_length l) as Hlen.
  destruct (trim_left l) as [|c l'] eqn:E; [by eexists|].
  destruct (read_negation_spec _ Hdone) as [Hs Hn].
  destruct (read_negation (c :: l')) as [negated body]. cbn [snd] in Hs, Hn.
  destruct body as [|d body]; [by eexists|].
  pose proof (read_token_progress (d :: body) ltac:(done) Hs) as Hp.
  destruct (read_token (d :: body)) as [token rest]. cbn [snd] in Hp.
  case_match; apply IH; cbn in *; lia.
Qed.

(** ** Printing a query *)

(** A quoted token, with quotes and backslashes escaped, and its negation mark. *)
Definition escape_token (l : list ascii) : list ascii :=
  concat ((λ c, if decide (c = quote ∨ c = backslash) then [backslash; c] else [c]) <$> l).

Definition render_token (t : bool * string) : list ascii :=
  (if t.1 then [minus] else []) ++ quote :: escape_token (chars t.2) ++ [quote].

Fixpoint render (ts : list (bool * string)) : list ascii :=
  match ts with
  | [] => []
  | [t] => render_token t
  | t :: ts' => render_token t ++ chr 32 :: render ts'
  end.

(** The tokens a query can hold: valid UTF-8, trimmed, not empty. *)
Definition token_ok (t : bool * string) : Prop :=
  ValidString t.2 = true ∧ TrimSpace t.2 = t.2 ∧ t.2 ≠ "".

(** The query of some tokens: words and phrases are told apart by the space. *)
Definition phrase (t : bool * string) : bool := bool_decide (chr 32 ∈ chars t.2).
Definition query_of (ts : list (bool * string)) : SearchQuery := {|
  Include := snd <$> filter (λ t, t.1 = false ∧ phrase t = false) ts;
  Exclude := snd <$> filter (λ t, t.1 = true ∧ phrase t = false) ts;
  IncludePhrases := snd <$> filter (λ t, t.1 = false ∧ phrase t = true) ts;
  ExcludePhrases := snd <$> filter (λ t, t.1 = true ∧ phrase t = true) ts |}.

(** How a query is written. A token is excluded by a leading minus or bang, with white space
    after it or not; the token itself is quoted, or a bare word if it holds no white space and
    cannot be mistaken for a quoted or a marked one. White space separates tokens. *)
Definition white (l : list ascii) : Prop := Forall (λ c, c ∈ chr <$> [9; 10; 11; 12; 13; 32]%N) l.
Inductive mark_text : bool → list ascii → Prop :=
| mark_none : mark_text false []
| mark_minus gap : white gap → mark_text true (minus :: gap)
| mark_bang gap : white gap → mark_text true (bang :: gap).
Definition spaceless (t : string) : Prop :=
  Forall (λ r, IsSpace r = false) (runes (String.length t) (chars t)).
Inductive token_text : bool * string → list ascii → Prop :=
| text_quoted negated t mark :
    mark_text negated mark → token_text (negated, t) (mark ++ quote :: escape_token (chars t) ++ [quote])
| text_word negated t mark :
    mark_text negated mark → spaceless t → (∀ r, chars t ≠ quote :: r) →
    (negated = false → ∀ r, chars t ≠ minus :: r ∧ chars t ≠ bang :: r) →
    token_text (negated, t) (mark ++ chars t).
Inductive query_text : list (bool * string) → list ascii → Prop :=
| text_none : query_text [] []
| text_last t l : token_text t l → query_text [t] l
| text_more t l gap ts text :
    token_text t l → white gap → gap ≠ [] → ts ≠ [] → query_text ts text → query_text (t :: ts) (l ++ gap ++ text).

Lemma escape_token_high l : Forall (λ c, 128 ≤ byte c)%N l → escape_token l = l.
Proof.
  induction 1 as [|c l Hc _ IH]; [done|]. unfold escape_token in *. rewrite fmap_cons. cbn [concat].
  rewrite IH, decide_False; [done|]. by intros [->| ->].
Qed.

Lemma escape_token_app l k : escape_token (l ++ k) = escape_token l ++ escape_token k.
Proof. unfold escape_token. by rewrite fmap_app, concat_app. Qed.

Lemma quoted_loop_plain f l b w :
  rune_width l = Some w → (rune_value (take w l) ≠ 34 ∧ rune_value (take w l) ≠ 92)%N →
  quoted_loop (S f) l b = quoted_loop f (drop w l) (b ++ take w l).
Proof.
  intros Hw [H1 H2]. destruct l as [|c l]; [done|]. cbn [quoted_loop].
  unfold DecodeRune. rewrite Hw. apply N.eqb_neq in H1 as ->. apply N.eqb_neq in H2 as ->.
  by rewrite encode_decode.
Qed.

Lemma rune_value_high l w :
  rune_width l = Some w → (2 ≤ w)%nat → (128 ≤ rune_value (take w l))%N.
Proof.
  intros [b0 r|b0 b1 r|b0 b1 b2 r|b0 b1 b2 b3 r]%rune_width_shape Hw; [lia|..];
    unfold rune_value; rewrite ?firstn_cons, ?firstn_O, ?fmap_cons, ?fmap_nil; lia.
Qed.

Lemma quoted_multibyte f l w b t :
  rune_width l = Some w → (2 ≤ w)%nat →
  quoted_loop (S f) (escape_token l ++ t) b
  = quoted_loop f (escape_token (drop w l) ++ t) (b ++ take w l).
Proof.
  intros Hw Hbig. pose proof (rune_width_bounds _ _ Hw) as Hb.
  assert (escape_token l = take w l ++ escape_token (drop w l)) as ->.
  { rewrite <- (escape_token_high (take w l)) at 1 by (by apply multibyte_high).
    by rewrite <- escape_token_app, take_drop. }
  rewrite <- (assoc_L (++)). set (tail := escape_token (drop w l) ++ t).
  assert (take w (take w l ++ tail) = take w l) as Etake
    by (apply take_app_length'; rewrite length_take; lia).
  assert (drop w (take w l ++ tail) = tail) as Edrop
    by (apply drop_app_length'; rewrite length_take; lia).
  rewrite (quoted_loop_plain _ _ _ w), Etake, Edrop; [done|by apply rune_width_app|].
  rewrite Etake. pose proof (rune_value_high _ _ Hw Hbig). lia.
Qed.

Lemma quoted_ascii f c l b t :
  (byte c ≤ 127)%N →
  quoted_loop (S f) (escape_token (c :: l) ++ t) b
  = quoted_loop f (escape_token l ++ t) (b ++ [c]).
Proof.
  intros Hc. unfold escape_token at 1. rewrite fmap_cons. cbn [concat]. fold (escape_token l).
  rewrite <- (assoc_L (++)). case_decide as Hesc.
  - cbn [app quoted_loop]. rewrite DecodeRune_ascii by done.
    replace (byte backslash =? 34)%N with false by done.
    replace (byte backslash =? 92)%N with true by done.
    cbn [drop]. rewrite DecodeRune_ascii by done.
    replace ((byte c =? 34)%N || (byte c =? 92)%N) with true by (by destruct Hesc as [->| ->]).
    cbn [drop]. by replace (EncodeRune (byte c)) with [c] by (by destruct Hesc as [->| ->]).
  - cbn [app]. rewrite (quoted_loop_plain _ _ _ 1%nat); [done|by apply rune_width_ascii|].
    rewrite firstn_cons, firstn_O. change (rune_value [c]) with (byte c).
    split; intros E; apply Hesc; [left|right]; rewrite <- (chr_byte c); by rewrite E.
Qed.

Lemma length_escape_token l : (length l ≤ length (escape_token l))%nat.
Proof.
  induction l as [|c l IH]; [done|]. unfold escape_token in *. rewrite fmap_cons. cbn [concat].
  rewrite length_app. case_decide; cbn [length]; lia.
Qed.

(** Reading back what [escape_token] wrote: one round for each rune. *)
Lemma quoted_loop_escape vf l fuel b rest :
  valid_utf8 vf l = true → (length l < fuel)%nat →
  quoted_loop fuel (escape_token l ++ quote :: rest) b = (b ++ l, rest).
Proof.
  revert l fuel b. induction vf as [|vf IH]; intros l fuel b Hv Hf; destruct l as [|c l]; try done.
  1, 2: destruct fuel as [|f]; [cbn in Hf; lia|]; cbn; by rewrite app_nil_r.
  cbn [valid_utf8] in Hv. destruct (rune_width (c :: l)) as [w|] eqn:Hw; [|done].
  pose proof (rune_width_bounds _ _ Hw) as Hb. destruct fuel as [|f]; [lia|].
  destruct (decide (2 ≤ w)%nat) as [Hbig|Hsmall].
  - rewrite (quoted_multibyte _ _ w) by done.
    rewrite IH; [|done|rewrite length_drop; cbn [length] in *; lia]. by rewrite <- (assoc_L (++)), take_drop.
  - assert (w = 1)%nat as -> by lia. rewrite skipn_cons, drop_0 in Hv. cbn [length] in Hf.
    apply rune_width_shape in Hw. rewrite skipn_cons, drop_0 in Hw.
    inversion Hw as [? ? Hc| | |]; subst.
    rewrite quoted_ascii by done. rewrite IH; [|done|lia]. by rewrite <- (assoc_L (++)).
Qed.

(** ** The parser on printed queries *)

Lemma strip_space l : strip_any space_encodings (chr 32 :: l) = Some l.
Proof. done. Qed.

Lemma render_token_head t l : strip_any space_encodings (render_token t ++ l) = None.
Proof. by destruct t as [[] s]. Qed.

Lemma render_cons t ts :
  render (t :: ts) = render_token t ++ match ts with [] => [] | _ => chr 32 :: render ts end.
Proof. destruct ts; cbn [render]; by rewrite ?app_nil_r. Qed.

Lemma render_head ts : strip_any space_encodings (render ts) = None.
Proof. destruct ts as [|t ts]; [done|]. rewrite render_cons. apply render_token_head. Qed.

Lemma trim_left_space l : strip_any space_encodings l = None → trim_left (chr 32 :: l) = l.
Proof.
  intros Hl. unfold trim_left. cbn [length trim_front]. rewrite strip_space. by apply trim_front_fix.
Qed.

Lemma render_last t ts : ∃ x, render (t :: ts) = x ++ [quote].
Proof.
  revert t. induction ts as [|t' ts IH]; intros t.
  - exists ((if t.1 then [minus] else []) ++ quote :: escape_token (chars t.2)).
    cbn [render]. unfold render_token. by rewrite <- (assoc_L (++)).
  - destruct (IH t') as [x Hx]. exists (render_token t ++ chr 32 :: x).
    rewrite render_cons, Hx. by rewrite <- (assoc_L (++)).
Qed.

Lemma trim_right_quote x : trim_right (x ++ [quote]) = x ++ [quote].
Proof.
  unfold trim_right. rewrite (rev_app_distr x [quote]). cbn [rev app].
  rewrite trim_front_fix by done. by rewrite <- (rev_involutive x) at 2.
Qed.

Lemma render_trimmed ts : TrimSpace (of_chars (render ts)) = of_chars (render ts).
Proof.
  unfold TrimSpace. rewrite chars_of_chars, (trim_left_fix _ (render_head ts)).
  destruct ts as [|t ts]; [done|]. destruct (render_last t ts) as [x ->]. by rewrite trim_right_quote.
Qed.

Lemma read_token_quoted (t : string) rest :
  ValidString t = true →
  read_token (quote :: escape_token (chars t) ++ quote :: rest) = (chars t, rest).
Proof.
  intros Hv. cbn [read_token readQuoted]. rewrite !decide_True by done.
  rewrite (quoted_loop_escape (String.length t)); [done|done|].
  rewrite length_app. cbn [length]. pose proof (length_escape_token (chars t)). lia.
Qed.

(** *** White space *)

Lemma white_head c l : c ∈ chr <$> [9; 10; 11; 12; 13; 32]%N → strip_any space_encodings (c :: l) = Some l.
Proof.
  intros Hc. apply list_elem_of_fmap in Hc as (n & -> & Hn). revert n Hn.
  assert (Forall (λ n, strip_any space_encodings (chr n :: l) = Some l) [9; 10; 11; 12; 13; 32]%N) as H
    by (repeat constructor). by apply Forall_forall.
Qed.
Lemma white_space c : c ∈ chr <$> [9; 10; 11; 12; 13; 32]%N → (byte c ≤ 127)%N ∧ IsSpace (byte c) = true.
Proof.
  intros Hc. apply list_elem_of_fmap in Hc as (n & -> & Hn). revert n Hn.
  assert (Forall (λ n, (byte (chr n) ≤ 127)%N ∧ IsSpace (byte (chr n)) = true) [9; 10; 11; 12; 13; 32]%N) as H
    by (repeat constructor; done). by apply Forall_forall.
Qed.
Lemma trim_left_white gap l : white gap → strip_any space_encodings l = None → trim_left (gap ++ l) = l.
Proof.
  intros Hg Hl. unfold trim_left. assert (length gap ≤ length (gap ++ l)) as Hf by (rewrite length_app; lia).
  revert Hf. generalize (length (gap ++ l)) as f. induction Hg as [|c gap Hc _ IH]; intros f Hf; [by apply trim_front_fix|].
  destruct f as [|f]; [cbn in Hf; lia|]. cbn [app trim_front]. rewrite white_head by done. apply IH. cbn in Hf. lia.
Qed.

Lemma strip_prefix_split p l r : strip_prefix p l = Some r → l = p ++ r.
Proof.
  revert l. induction p as [|c p IH]; intros [|d l]; cbn; try (by intros [= ->]). case_decide; [|done]. subst. by intros ->%IH.
Qed.
Lemma strip_any_Some ps l r : strip_any ps l = Some r → ∃ p, p ∈ ps ∧ l = p ++ r.
Proof.
  induction ps as [|p ps IH]; cbn [strip_any]; [done|]. destruct (strip_prefix p l) as [r'|] eqn:Ep.
  - intros [= ->]. exists p. split; [by left|by apply strip_prefix_split].
  - intros (p' & Hp' & ->)%IH. exists p'. split; [by right|done].
Qed.

(** A space encoding at the head decodes to a space. *)
Lemma nonspace_head l : IsSpace (DecodeRune l).1 = false → strip_any space_encodings l = None.
Proof.
  intros Hl. destruct (strip_any space_encodings l) as [r|] eqn:E; [|done]. exfalso.
  apply strip_any_Some in E as (p & Hp & ->).
  assert (Forall (λ p, rune_width p = Some (length p) ∧ IsSpace (rune_value p) = true) space_encodings) as H
    by (apply (bool_decide_unpack _); by vm_compute).
  rewrite Forall_forall in H. destruct (H p Hp) as [Hw Hs]. pose proof (rune_width_app p (length p) r Hw) as Hr.
  rewrite firstn_all in Hr. unfold DecodeRune in Hl. rewrite Hr in Hl. cbn [fst] in Hl.
  rewrite take_app_length in Hl. congruence.
Qed.

(** *** Words *)

(** What may follow a token. *)
Definition ends_word (rest : list ascii) : Prop :=
  rest = [] ∨ ∃ c r, rest = c :: r ∧ c ∈ chr <$> [9; 10; 11; 12; 13; 32]%N.
Lemma DecodeRune_app l rest w : rune_width l = Some w → DecodeRune (l ++ rest) = DecodeRune l.
Proof.
  intros Hw. unfold DecodeRune. pose proof (rune_width_app l w (drop w l ++ rest) Hw) as Ha.
  rewrite (assoc_L (++)), take_drop in Ha. rewrite Ha, Hw. f_equal. f_equal. apply take_app_le.
  pose proof (rune_width_bounds _ _ Hw). lia.
Qed.
Lemma word_span_word vf l rf f rest :
  valid_utf8 vf l = true → (length l ≤ rf)%nat → (length l ≤ f)%nat →
  Forall (λ r, IsSpace r = false) (runes rf l) → ends_word rest → word_span f (l ++ rest) = (l, rest).
Proof.
  intros Hv Hrf Hf Hr Hrest. revert l rf f Hv Hrf Hf Hr. induction vf as [|vf IH]; intros l rf f Hv Hrf Hf Hr;
    destruct l as [|c l]; try done.
  1, 2: destruct Hrest as [->|(d & r & -> & [Hd Hs]%white_space)]; destruct f; try done; cbn [app word_span];
    rewrite DecodeRune_ascii by done; by rewrite Hs.
  cbn [valid_utf8] in Hv. destruct (rune_width (c :: l)) as [w|] eqn:Hw; [|done].
  pose proof (rune_width_bounds _ _ Hw) as Hb. destruct rf as [|rf]; [cbn in Hrf; lia|]. destruct f as [|f]; [cbn in Hf; lia|].
  cbn [runes] in Hr. cbn [app word_span]. change (c :: l ++ rest) with ((c :: l) ++ rest).
  rewrite (DecodeRune_app _ _ w) by done. destruct (DecodeRune (c :: l)) as [r w'] eqn:Hd.
  assert (w' = w) as -> by (unfold DecodeRune in Hd; rewrite Hw in Hd; by injection Hd).
  apply Forall_cons in Hr as [Hsp Hr]. rewrite Hsp. rewrite drop_app_le, take_app_le by lia.
  rewrite (IH (drop w (c :: l)) rf f) by (done || (rewrite length_drop; cbn [length] in *; lia)).
  by rewrite take_drop.
Qed.

Lemma chars_length s : length (chars s) = String.length s.
Proof. induction s as [|c s IH]; [done|]. unfold chars in *. cbn. by rewrite IH. Qed.

Lemma readWord_word t rest :
  ValidString t = true → spaceless t → ends_word rest → readWord (chars t ++ rest) = (chars t, rest).
Proof.
  intros Hv Hs Hr. unfold readWord. eapply (word_span_word _ _ (String.length t)); [exact Hv| | |exact Hs|done].
  - by rewrite chars_length.
  - rewrite length_app. lia.
Qed.

(** *** Tokens *)

Lemma word_head t rest :
  ValidString t = true → t ≠ "" → spaceless t → strip_any space_encodings (chars t ++ rest) = None.
Proof.
  intros Hv Hne Hs. apply nonspace_head. unfold ValidString, spaceless in *.
  destruct t as [|c t]; [done|]. change (chars (String c t)) with (c :: chars t) in *.
  cbn [String.length valid_utf8 runes] in *. destruct (rune_width (c :: chars t)) as [w|] eqn:Hw; [|done].
  rewrite (DecodeRune_app _ _ w) by done. destruct (DecodeRune _) as [r w']. by apply Forall_cons in Hs as [? _].
Qed.

(** The body of a token, without its mark. *)
Definition body_text (t : string) (body : list ascii) : Prop :=
  body = quote :: escape_token (chars t) ++ [quote] ∨ body = chars t ∧ spaceless t ∧ ∀ r, chars t ≠ quote :: r.
Lemma body_head t body rest :
  ValidString t = true → t ≠ "" → body_text t body → strip_any space_encodings (body ++ rest) = None.
Proof. intros Hv Hne [->|(-> & Hs & _)]; [done|by apply word_head]. Qed.
Lemma body_read t body rest :
  ValidString t = true → t ≠ "" → body_text t body → ends_word rest → read_token (body ++ rest) = (chars t, rest).
Proof.
  intros Hv Hne [->|(-> & Hs & Hq)] Hr.
  - cbn [app]. rewrite <- (assoc_L (++)). by apply read_token_quoted.
  - rewrite <- (readWord_word t rest) by done. unfold read_token. destruct t as [|c t]; [done|].
    change (chars (String c t)) with (c :: chars t) in *. cbn [app]. rewrite decide_False; [done|]. intros ->. by destruct (Hq (chars t)).
Qed.

Lemma token_body t l :
  token_text t l → ∃ mark body, l = mark ++ body ∧ mark_text t.1 mark ∧ body_text t.2 body
    ∧ (t.1 = false → ∀ c r, body = c :: r → c ≠ minus ∧ c ≠ bang).
Proof.
  destruct 1 as [negated t mark Hm|negated t mark Hm Hs Hq Hn].
  - eexists mark, _. split_and!; [done|done|by left|]. by intros _ c r [= <- _].
  - exists mark, (chars t). split_and!; [done|done|by right|]. intros Hf c r Hc. cbn in Hf. destruct (Hn Hf r).
    split; intros ->; congruence.
Qed.

(** One round of the parser on one written token. *)
Lemma parse_token f t gap l rest q :
  token_ok t → token_text t l → white gap → ends_word rest →
  parse_loop (S f) (gap ++ l ++ rest) q = parse_loop f rest (add_token q t.1 t.2).
Proof.
  intros (Hv & Htrim & Hne) (mark & body & -> & Hm & Hb & Hplain)%token_body Hgap Hrest. cbn [parse_loop].
  pose proof (body_head t.2 body rest Hv Hne Hb) as Hhead. rewrite <- (assoc_L (++)).
  assert (read_negation (trim_left (gap ++ mark ++ body ++ rest)) = (t.1, body ++ rest)
    ∧ ∃ c r, trim_left (gap ++ mark ++ body ++ rest) = c :: r) as [Hneg (c & r & Hcr)].
  { destruct t as [negated t]. cbn [fst snd] in *. destruct Hm as [|g Hg|g Hg]; cbn [app].
    - rewrite trim_left_white by done. assert (∃ c r, body = c :: r) as (c & r & ->).
      { destruct Hb as [->|(-> & _)]; [by do 2 eexists|]. destruct t; [done|by do 2 eexists]. }
      cbn [app read_negation]. destruct (Hplain eq_refl c r eq_refl). rewrite decide_False by tauto. split; [done|by do 2 eexists].
    - rewrite trim_left_white by done. cbn [read_negation]. rewrite decide_True by auto.
      rewrite trim_left_white by done. split; [done|by do 2 eexists].
    - rewrite trim_left_white by done. cbn [read_negation]. rewrite decide_True by auto.
      rewrite trim_left_white by done. split; [done|by do 2 eexists]. }
  rewrite Hcr in *. rewrite Hneg. pose proof (body_read t.2 body rest Hv Hne Hb Hrest) as Hread.
  destruct (body ++ rest) as [|d b] eqn:Hbr.
  { destruct body; [|done]. destruct Hb as [?|(Hb & _)]; [done|]. by destruct t.2. }
  rewrite Hread, of_chars_chars, Htrim. by rewrite (proj2 (String.eqb_neq _ _) Hne).
Qed.

Lemma parse_written ts l gap f q :
  Forall token_ok ts → query_text ts l → white gap → (ts = [] → gap = []) → (length ts < f)%nat →
  parse_loop f (gap ++ l) q = Some (foldl (λ q t, add_token q t.1 t.2) q ts).
Proof.
  intros Hok Ht. revert gap f q. induction Ht as [|t l Ht|t l gap' ts text Ht Hw Hne Hts _ IH]; intros gap f q Hg Hgn Hf;
    (destruct f as [|f]; [cbn in Hf; lia|]).
  - by rewrite Hgn.
  - apply Forall_cons in Hok as [Hok _]. rewrite <- (app_nil_r l), (parse_token _ t) by (done || by left).
    destruct f as [|f]; [cbn in Hf; lia|done].
  - apply Forall_cons in Hok as [Hok Hoks]. rewrite (parse_token _ t); [|done..|].
    + cbn [foldl]. apply IH; [done|done|done|cbn in Hf; lia].
    + right. destruct Hw as [|c gap' Hc Hw]; [done|]. by do 2 eexists.
Qed.

(** The folding of [ParseSearch] files the tokens. *)
Lemma Contains_space t : Contains t " " = bool_decide (chr 32 ∈ chars t).
Proof.
  unfold Contains. change (chars " ") with [chr 32]. induction (chars t) as [|c l IH]; [done|].
  cbn [Contains_chars strip_prefix]. destruct (decide (chr 32 = c)) as [<-|Hc].
  - symmetry. apply bool_decide_eq_true. by left.
  - rewrite IH. apply bool_decide_ext. rewrite elem_of_cons. naive_solver.
Qed.
Lemma query_of_fold ts q :
  foldl (λ q t, add_token q t.1 t.2) q ts = {|
    Include := Include q ++ Include (query_of ts); Exclude := Exclude q ++ Exclude (query_of ts);
    IncludePhrases := IncludePhrases q ++ IncludePhrases (query_of ts);
    ExcludePhrases := ExcludePhrases q ++ ExcludePhrases (query_of ts) |}.
Proof.
  revert q. induction ts as [|t ts IH]; intros q; [by destruct q; cbn; rewrite !app_nil_r|].
  cbn [foldl]. rewrite IH. unfold add_token, query_of. rewrite Contains_space, !filter_cons. fold (phrase t).
  cbn [Include Exclude IncludePhrases ExcludePhrases].
  destruct t as [negated t]. cbn [fst]. destruct negated, (phrase _) eqn:Hp; cbn [andb negb];
    f_equal; first [rewrite decide_True by done|rewrite decide_False by naive_solver]; rewrite ?fmap_cons; cbn [snd];
    by rewrite <- ?(assoc_L (++)).
Qed.

(** *** The printed query *)

Lemma render_text ts : query_text ts (render ts).
Proof.
  assert (∀ t, token_text t (render_token t)) as Ht.
  { intros [[] t]; unfold render_token; cbn [fst snd app]; apply (text_quoted _ _ [minus]) || apply (text_quoted _ _ []);
      repeat constructor. }
  induction ts as [|t [|t' ts] IH]; [constructor|by apply text_last|].
  change (render (t :: t' :: ts)) with (render_token t ++ [chr 32] ++ render (t' :: ts)).
  apply text_more; [done|repeat constructor; set_solver|done|done|done].
Qed.

Lemma query_text_length ts l : Forall token_ok ts → query_text ts l → (length ts ≤ length l)%nat.
Proof.
  intros Hok Ht. induction Ht as [|t l Ht|t l gap ts text Ht Hw Hne Hts _ IH]; [done| |].
  - apply Forall_cons in Hok as [(_ & _ & Hne) _]. cbn [length]. destruct Ht as [n t m|n t m]; rewrite length_app.
    + cbn [length]. lia.
    + destruct t; [done|]. cbn. lia.
  - apply Forall_cons in Hok as [_ Hok]. specialize (IH Hok). rewrite !length_app. destruct gap; [done|]. cbn [length] in *. lia.
Qed.

(** ** Trimming *)

Lemma trim_front_suffix ps fuel l : ∃ k, l = k ++ trim_front ps fuel l.
Proof.
  revert l. induction fuel as [|f IH]; intros l; cbn [trim_front]; [by exists []|].
  destruct (strip_any ps l) as [r|] eqn:E; [|by exists []].
  destruct (IH r) as [k Hk].
  apply strip_any_Some in E as (p & _ & ->).
  exists (p ++ k). by rewrite <- (assoc_L (++)), <- Hk.
Qed.

Lemma strip_prefix_app_inv p x y r :
  strip_prefix p x = Some r → strip_prefix p (x ++ y) = Some (r ++ y).
Proof.
  revert x. induction p as [|c p IH]; intros [|d x]; cbn; try (by intros [= <-]).
  case_decide; [apply IH|done].
Qed.

Lemma strip_any_app_None ps x y : strip_any ps (x ++ y) = None → strip_any ps x = None.
Proof.
  induction ps as [|p ps IH]; cbn [strip_any]; [done|].
  destruct (strip_prefix p x) as [r|] eqn:E; [by rewrite (strip_prefix_app_inv _ _ y _ E)|].
  destruct (strip_prefix p (x ++ y)); [done|apply IH].
Qed.

Lemma TrimSpace_idemp s : TrimSpace (TrimSpace s) = TrimSpace s.
Proof.
  unfold TrimSpace. rewrite chars_of_chars. set (l := trim_left (chars s)).
  assert (∃ k, l = trim_right l ++ k) as [k Hk].
  { unfold trim_right. destruct (trim_front_suffix (@rev ascii <$> space_encodings) (length l) (rev l))
      as [k Hk]. exists (rev k). rewrite <- rev_app_distr, <- Hk. by rewrite rev_involutive. }
  assert (strip_any space_encodings (trim_right l) = None) as Hhead.
  { apply (strip_any_app_None _ _ k). rewrite <- Hk. apply trim_left_done. }
  rewrite (trim_left_fix _ Hhead). f_equal. unfold trim_right at 1.
  rewrite trim_front_fix; [by rewrite rev_involutive|].
  unfold trim_right. rewrite rev_involutive. apply trim_front_done; [|by rewrite length_rev].
  by apply (bool_decide_unpack _); vm_compute.
Qed.

(** ** Well-formed queries *)

Definition term_ok (phrase : bool) (t : string) : Prop :=
  t ≠ "" ∧ TrimSpace t = t ∧ Contains t " " = phrase.

Record query_ok (q : SearchQuery) : Prop := {
  ok_include : Forall (term_ok false) (Include q);
  ok_exclude : Forall (term_ok false) (Exclude q);
  ok_include_phrases : Forall (term_ok true) (IncludePhrases q);
  ok_exclude_phrases : Forall (term_ok true) (ExcludePhrases q) }.

Lemma add_token_ok q negated t :
  query_ok q → t ≠ "" → TrimSpace t = t → query_ok (add_token q negated t).
Proof.
  intros [H1 H2 H3 H4] Hne Ht. unfold add_token.
  split; cbn; case_match; try done; bool_to_prop;
    (apply Forall_app_2; [done|apply Forall_singleton; by split_and!]).
Qed.

Lemma parse_loop_ok fuel l q q' : query_ok q → parse_loop fuel l q = Some q' → query_ok q'.
Proof.
  revert l q. induction fuel as [|f IH]; intros l q Hq; cbn [parse_loop]; [done|].
  destruct (trim_left l) as [|c l']; [by intros [= <-]|].
  destruct (read_negation (c :: l')) as [negated [|d body]]; [by intros [= <-]|].
  destruct (read_token (d :: body)) as [token rest].
  destruct (String.eqb_spec (TrimSpace (of_chars token)) ""); [by apply IH|].
  apply IH, add_token_ok; [done|done|apply TrimSpace_idemp].
Qed.

(** ** Properties *)

(** Parsing always terminates with a well-formed query. For every input, valid UTF-8
    or not, balanced quotes or not, the parser's loop ends within one round per byte,
    and every term it produced is non-empty and trimmed, with the terms that contain a
    space, and only those, filed as phrases. *)
Theorem search_parse_total raw :
  let remaining := chars (TrimSpace raw) in
  parse_loop (S (length remaining)) remaining empty_query = Some (ParseSearch raw)
  ∧ query_ok (ParseSearch raw).
Proof.
  intros remaining. destruct (parse_loop_total (S (length remaining)) remaining empty_query)
    as [q Hq]; [lia|]. unfold ParseSearch. fold remaining. rewrite Hq. split; [done|].
  eapply parse_loop_ok; [|done]. split; by apply Forall_nil.
Qed.

(** Matching is exact and ignores case. A row matches when every included word and
    phrase occurs in its fields up to simple case folding and no excluded one does; and
    replacing code points of the fields by case-fold equivalents (upper case by lower
    case, say) never changes the answer. *)
Theorem search_matching `{CaseFolding} q fields fields' :
  (Matches q fields = true
   ↔ (∀ t, t ∈ Include q ++ IncludePhrases q → ContainsFolded (Join fields " ") t = true)
     ∧ (∀ t, t ∈ Exclude q ++ ExcludePhrases q → ContainsFolded (Join fields " ") t = false))
  ∧ let decoded s := runes (String.length s) (chars s) in
    (Forall2 fold_equiv (decoded (Join fields " ")) (decoded (Join fields' " ")) →
     Matches q fields = Matches q fields').
Proof.
  split.
  - unfold Matches. destruct (IsEmpty q) eqn:E.
    + apply Nat.eqb_eq in E. assert (∀ A (l : list A), length l = 0 → l = []) as Hnil
        by (intros A []; done).
      rewrite (Hnil _ (Include q)), (Hnil _ (Exclude q)), (Hnil _ (IncludePhrases q)),
        (Hnil _ (ExcludePhrases q)) by lia.
      split; [|done]. intros _. split; intros t Ht; by inversion Ht.
    + rewrite !andb_true_iff, !forallb_forall. setoid_rewrite elem_of_app.
      setoid_rewrite <- list_elem_of_In. setoid_rewrite negb_true_iff. unfold ContainsFolded.
      naive_solver.
  - intros decoded Hd. unfold Matches. by rewrite (foldSimple_equiv _ _ Hd).
Qed.

(** C37: a query is read back as it was written. Tokens to include or to exclude (valid UTF-8,
    trimmed, not empty) may be written bare or quoted - spaces, quotes, backslashes and leading
    marks inside quotes - excluded by a minus or a bang, and separated by any white space; then
    parsing yields exactly those tokens in order: the included and the excluded words, and the
    included and the excluded phrases, a phrase being a token with a space. Every list of
    tokens can be written, as its quoted rendering shows. *)
Theorem search_roundtrip ts raw :
  Forall token_ok ts → raw = of_chars (render ts) ∨ query_text ts (chars (TrimSpace raw)) →
  ParseSearch raw = query_of ts.
Proof.
  intros Hok Hraw. assert (query_text ts (chars (TrimSpace raw))) as Ht.
  { destruct Hraw as [->|?]; [|done]. rewrite render_trimmed, chars_of_chars. apply render_text. }
  unfold ParseSearch. pose proof (query_text_length _ _ Hok Ht).
  change (chars (TrimSpace raw)) with ([] ++ chars (TrimSpace raw)) at 2.
  rewrite (parse_written ts); [|done|done|by apply Forall_nil|done|lia]. cbn [default from_option id].
  rewrite query_of_fold. by destruct (query_of ts).
Qed.

(** ** Witnesses *)

Definition demo_tokens : list (bool * string) :=
  [(false, "api"); (true, "kube system"); (false, "say " +:+ of_chars [quote] +:+ "hi" +:+ of_chars [quote; backslash])].

(** Bare and quoted, with either mark and several kinds of white space. *)
Definition demo_raw : string :=
  of_chars ([chr 32] ++ chars "api" ++ [chr 9; chr 32; bang; chr 32; quote] ++ chars "kube system" ++ [quote; chr 10]
            ++ [quote] ++ chars "say \" ++ [quote] ++ chars "hi\" ++ [quote] ++ chars "\\" ++ [quote; chr 32]).
Lemma search_roundtrip_witness :
  ParseSearch (of_chars (render demo_tokens)) = query_of demo_tokens
  ∧ ParseSearch demo_raw = query_of demo_tokens
  ∧ ExcludePhrases (query_of demo_tokens) = ["kube system"].
Proof.
  assert (Forall token_ok demo_tokens) as Hok
    by (repeat (apply Forall_cons; split); [..|by apply Forall_nil]; by split_and!; vm_compute).
  split_and!; [| |by vm_compute]; apply search_roundtrip; [done|by left|done|right].
  assert (chars (TrimSpace demo_raw) = chars "api" ++ [chr 9; chr 32]
    ++ ([bang; chr 32] ++ quote :: escape_token (chars "kube system") ++ [quote]) ++ [chr 10]
    ++ ([] ++ quote :: escape_token (chars (snd (default (false, "") (demo_tokens !! 2)))) ++ [quote])) as -> by by vm_compute.
  apply (text_more (false, "api") (chars "api")).
  - apply (text_word false "api" []); [constructor|by repeat constructor|done|done].
  - repeat constructor; set_solver.
  - done.
  - done.
  - apply text_more; [apply text_quoted|by repeat constructor|done|done|apply text_last, text_quoted; constructor].
    apply mark_bang. by repeat constructor.
Defined.

(** ASCII case folding alone. *)
Definition ascii_fold (r : N) : N :=
  if (65 <=? r)%N && (r <=? 90)%N then (r + 32)%N
  else if (97 <=? r)%N && (r <=? 122)%N then (r - 32)%N else r.

Lemma ascii_fold_cycles r : ∃ n, (0 < n ≤ 2)%nat ∧ Nat.iter n ascii_fold r = r.
Proof.
  exists 2. split; [lia|]. change (ascii_fold (ascii_fold r) = r).
  unfold ascii_fold at 2.
  destruct ((65 <=? r)%N && (r <=? 90)%N) eqn:E1; [|destruct ((97 <=? r)%N && (r <=? 122)%N) eqn:E2].
  - apply andb_true_iff in E1 as [?%N.leb_le ?%N.leb_le]. unfold ascii_fold.
    rewrite (proj2 (N.leb_gt (r + 32) 90)), andb_false_r by lia.
    rewrite !(proj2 (N.leb_le _ _)) by lia. cbn [andb]. lia.
  - apply andb_true_iff in E2 as [?%N.leb_le ?%N.leb_le]. unfold ascii_fold.
    rewrite !(proj2 (N.leb_le _ _)) by lia. cbn [andb]. lia.
  - unfold ascii_fold. by rewrite E1, E2.
Qed.

#[local] Instance ascii_folding : CaseFolding :=
  {| SimpleFold := ascii_fold; orbit_bound := 2; fold_cycles := ascii_fold_cycles |}.

Lemma search_matching_witness :
  Matches (ParseSearch "Kube -system") ["KUBE-dns"; "default"] = true
  ∧ Matches (ParseSearch "Kube -system") ["KUBE-dns"] = Matches (ParseSearch "Kube -system") ["kube-DNS"].
Proof.
  split; [by vm_compute|].
  apply (search_matching (ParseSearch "Kube -system") ["KUBE-dns"] ["kube-DNS"]).
  repeat first [apply Forall2_nil; done | apply Forall2_cons; split; [first [by exists 0|by exists 1]|]].
Defined.
