(* ===== verification/Catalogue.v ===== *)
(** * Catalogue: which Kubernetes resources the application reads

    The fixed tables that bind every collection of the API to one Kubernetes group,
    version and resource: src/internal/services/resourcecatalog/catalog.go and
    gateway.go, the tables of src/internal/services/resources/service.go, cluster.go and
    options.go with what the init functions of gateway.go and helm.go add to them, the
    identities of discovered resources (dynamic_views.go) and the origins a list request
    reads. Go map literals are [gmap]s built from the literal's entries. *)
From Stdlib Require Import Ascii String ZArith Lia.
From stdpp Require Import base gmap strings list.
From S2P Require Import Prelude Json Topics Encoding Unicode Cursor Ports Retry Pagination Collect.

(** ** Names *)

Definition CollectionServiceAccounts : string := "service-accounts".
Definition CollectionRoles : string := "roles".
Definition CollectionRoleBindings : string := "role-bindings".
Definition CollectionClusterRoles : string := "cluster-roles".
Definition CollectionClusterRoleBindings : string := "cluster-role-bindings".
Definition CollectionCRDs : string := "customresourcedefinitions".
Definition CollectionPriorityClasses : string := "priority-classes".
Definition CollectionRuntimeClasses : string := "runtime-classes".
Definition CollectionMutatingWebhooks : string := "mutating-webhook-configurations".
Definition CollectionValidatingWebhooks : string := "validating-webhook-configurations".
Definition CollectionIngressClasses : string := "ingress-classes".
Definition CollectionNetworkPolicies : string := "network-policies".
Definition CollectionEndpoints : string := "endpoints".
Definition CollectionResourceQuotas : string := "resource-quotas".
Definition CollectionLimitRanges : string := "limit-ranges".
Definition CollectionHPAs : string := "horizontalpodautoscalers".
Definition CollectionPDBs : string := "poddisruptionbudgets".
Definition CollectionWorkloads : string := "workloads".
Definition CollectionPods : string := "pods".
Definition CollectionEvents : string := "events".
Definition CollectionServices : string := "services".
Definition CollectionIngresses : string := "ingresses".
Definition CollectionEndpointSlices : string := "endpoint-slices".
Definition CollectionConfigMaps : string := "configmaps".
Definition CollectionSecrets : string := "secrets".
Definition CollectionNodes : string := "nodes".
Definition CollectionLeases : string := "leases".
Definition CollectionPersistentVolumes : string := "persistent-volumes".
Definition CollectionPersistentVolumeClaims : string := "persistent-volume-claims".
Definition CollectionVolumeAttachments : string := "volume-attachments".
Definition CollectionStorageClasses : string := "storage-classes".
Definition CollectionCSINodes : string := "csi-nodes".
Definition CollectionCSIDrivers : string := "csi-drivers".
Definition CollectionHelmReleases : string := "helm-releases".
Definition CollectionHelmConfigMapReleases : string := "helm-configmap-releases".

Definition WorkloadDeployments : string := "deployments".
Definition WorkloadStatefulSets : string := "statefulsets".
Definition WorkloadDaemonSets : string := "daemonsets".
Definition WorkloadJobs : string := "jobs".
Definition WorkloadCronJobs : string := "cronjobs".
Definition WorkloadReplicaSets : string := "replicasets".

Definition canonicalWorkloadKinds : list string :=
  [WorkloadDeployments; WorkloadStatefulSets; WorkloadDaemonSets; WorkloadJobs; WorkloadCronJobs;
   WorkloadReplicaSets].

Definition OrderAscending : string := "asc".
Definition OrderDescending : string := "desc".

Definition MaximumNamespaces : Z := 100.

(** ** The resource catalogue *)

Record Resource := {
  res_Collection : string; res_Group : string; res_Version : string; res_Resource : string;
  res_Kind : string; res_Namespaced : bool }.

Definition mk_resource (c g v r k : string) (n : bool) : Resource :=
  {| res_Collection := c; res_Group := g; res_Version := v; res_Resource := r; res_Kind := k;
     res_Namespaced := n |}.

Definition resources : list Resource := [
  mk_resource "gateway-classes" "gateway.networking.k8s.io" "v1" "gatewayclasses" "GatewayClass" false;
  mk_resource "gateways" "gateway.networking.k8s.io" "v1" "gateways" "Gateway" true;
  mk_resource "http-routes" "gateway.networking.k8s.io" "v1" "httproutes" "HTTPRoute" true;
  mk_resource "grpc-routes" "gateway.networking.k8s.io" "v1" "grpcroutes" "GRPCRoute" true;
  mk_resource "tcp-routes" "gateway.networking.k8s.io" "v1" "tcproutes" "TCPRoute" true;
  mk_resource "tls-routes" "gateway.networking.k8s.io" "v1" "tlsroutes" "TLSRoute" true;
  mk_resource "udp-routes" "gateway.networking.k8s.io" "v1" "udproutes" "UDPRoute" true;
  mk_resource "reference-grants" "gateway.networking.k8s.io" "v1" "referencegrants" "ReferenceGrant" true;
  mk_resource "backend-tls-policies" "gateway.networking.k8s.io" "v1" "backendtlspolicies" "BackendTLSPolicy" true;
  mk_resource "listener-sets" "gateway.networking.k8s.io" "v1" "listenersets" "ListenerSet" true;
  mk_resource "pods" "" "v1" "pods" "Pod" true;
  mk_resource "deployments" "apps" "v1" "deployments" "Deployment" true;
  mk_resource "statefulsets" "apps" "v1" "statefulsets" "StatefulSet" true;
  mk_resource "daemonsets" "apps" "v1" "daemonsets" "DaemonSet" true;
  mk_resource "replicasets" "apps" "v1" "replicasets" "ReplicaSet" true;
  mk_resource "jobs" "batch" "v1" "jobs" "Job" true;
  mk_resource "cronjobs" "batch" "v1" "cronjobs" "CronJob" true;
  mk_resource "services" "" "v1" "services" "Service" true;
  mk_resource "endpoints" "" "v1" "endpoints" "Endpoints" true;
  mk_resource "endpoint-slices" "discovery.k8s.io" "v1" "endpointslices" "EndpointSlice" true;
  mk_resource "ingresses" "networking.k8s.io" "v1" "ingresses" "Ingress" true;
  mk_resource "ingress-classes" "networking.k8s.io" "v1" "ingressclasses" "IngressClass" false;
  mk_resource "network-policies" "networking.k8s.io" "v1" "networkpolicies" "NetworkPolicy" true;
  mk_resource "configmaps" "" "v1" "configmaps" "ConfigMap" true;
  mk_resource "secrets" "" "v1" "secrets" "Secret" true;
  mk_resource "nodes" "" "v1" "nodes" "Node" false;
  mk_resource "namespaces" "" "v1" "namespaces" "Namespace" false;
  mk_resource "leases" "coordination.k8s.io" "v1" "leases" "Lease" true;
  mk_resource "persistent-volumes" "" "v1" "persistentvolumes" "PersistentVolume" false;
  mk_resource "persistent-volume-claims" "" "v1" "persistentvolumeclaims" "PersistentVolumeClaim" true;
  mk_resource "storage-classes" "storage.k8s.io" "v1" "storageclasses" "StorageClass" false;
  mk_resource "csi-drivers" "storage.k8s.io" "v1" "csidrivers" "CSIDriver" false;
  mk_resource "csi-nodes" "storage.k8s.io" "v1" "csinodes" "CSINode" false;
  mk_resource "volume-attachments" "storage.k8s.io" "v1" "volumeattachments" "VolumeAttachment" false;
  mk_resource "service-accounts" "" "v1" "serviceaccounts" "ServiceAccount" true;
  mk_resource "resource-quotas" "" "v1" "resourcequotas" "ResourceQuota" true;
  mk_resource "limit-ranges" "" "v1" "limitranges" "LimitRange" true;
  mk_resource "hpas" "autoscaling" "v2" "horizontalpodautoscalers" "HorizontalPodAutoscaler" true;
  mk_resource "pdbs" "policy" "v1" "poddisruptionbudgets" "PodDisruptionBudget" true;
  mk_resource "roles" "rbac.authorization.k8s.io" "v1" "roles" "Role" true;
  mk_resource "role-bindings" "rbac.authorization.k8s.io" "v1" "rolebindings" "RoleBinding" true;
  mk_resource "cluster-roles" "rbac.authorization.k8s.io" "v1" "clusterroles" "ClusterRole" false;
  mk_resource "cluster-role-bindings" "rbac.authorization.k8s.io" "v1" "clusterrolebindings" "ClusterRoleBinding" false;
  mk_resource "customresourcedefinitions" "apiextensions.k8s.io" "v1" "customresourcedefinitions" "CustomResourceDefinition" false;
  mk_resource "priority-classes" "scheduling.k8s.io" "v1" "priorityclasses" "PriorityClass" false;
  mk_resource "runtime-classes" "node.k8s.io" "v1" "runtimeclasses" "RuntimeClass" false;
  mk_resource "mutating-webhook-configurations" "admissionregistration.k8s.io" "v1" "mutatingwebhookconfigurations" "MutatingWebhookConfiguration" false;
  mk_resource "validating-webhook-configurations" "admissionregistration.k8s.io" "v1" "validatingwebhookconfigurations" "ValidatingWebhookConfiguration" false].

Definition Lookup (collection : string) : option Resource :=
  find (λ r, String.eqb (res_Collection r) collection) resources.

Definition GatewayGroup : string := "gateway.networking.k8s.io".

Definition GatewayResources : list Resource :=
  base.filter (λ r, res_Group r = GatewayGroup) resources.

(** ** Discovered resources *)

Record DynamicResource := {
  dyn_Group : string; dyn_Version : string; dyn_Resource : string; dyn_Kind : string;
  dyn_Namespaced : bool; dyn_ShortNames : list string }.

#[export] Instance DynamicResource_eq_dec : EqDecision DynamicResource.
Proof. solve_decision. Defined.

Definition is_lower (c : ascii) : bool := in_range 97 122 c.
Definition is_digit (c : ascii) : bool := in_range 48 57 c.
Definition is_alnum (c : ascii) : bool := is_lower c || is_digit c.
Definition is_segment_char (c : ascii) : bool := is_alnum c || Ascii.eqb c "-".
Definition is_group_char (c : ascii) : bool := is_segment_char c || Ascii.eqb c ".".

(** The regular expression ^[a-z][a-z0-9-]{0,62}$ *)
Definition dynamicSegment (s : string) : bool :=
  match chars s with
  | [] => false
  | c :: l => is_lower c && forallb is_segment_char l && (length l <=? 62)%nat
  end.

(** The regular expression ^[a-z0-9](?:[a-z0-9.-]{0,251}[a-z0-9])?$ *)
Definition dynamicGroup (s : string) : bool :=
  match chars s with
  | [] => false
  | c :: l =>
    is_alnum c
    && match rev l with
       | [] => true
       | d :: m => is_alnum d && forallb is_group_char m && (length m <=? 251)%nat
       end
  end.

Definition DynamicResource_Valid (r : DynamicResource) : bool :=
  if negb (String.eqb (dyn_Group r) "")
     && (negb (dynamicGroup (dyn_Group r)) || Contains (dyn_Group r) "..")
  then false
  else dynamicSegment (dyn_Version r) && dynamicSegment (dyn_Resource r).

Definition DynamicResource_Collection (r : DynamicResource) : string :=
  let group := if String.eqb (dyn_Group r) "" then "_" else dyn_Group r in
  let scope := if dyn_Namespaced r then "n" else "c" in
  "dynamic:" +:+ group +:+ ":" +:+ dyn_Version r +:+ ":" +:+ dyn_Resource r +:+ ":" +:+ scope.

(** The resource, when the second result of the Go function is true. *)
Definition ParseDynamicCollection (collection : string) : option DynamicResource :=
  match Split collection ":" with
  | [p0; p1; p2; p3; p4] =>
    if negb (String.eqb p0 "dynamic") || (negb (String.eqb p4 "n") && negb (String.eqb p4 "c"))
    then None
    else
      let r := {| dyn_Group := if String.eqb p1 "_" then "" else p1; dyn_Version := p2;
                  dyn_Resource := p3; dyn_Kind := ""; dyn_Namespaced := String.eqb p4 "n";
                  dyn_ShortNames := [] |} in
      if DynamicResource_Valid r then Some r else None
  | _ => None
  end.

(** ** Rules and origins of the collections *)

Record collectionRules := {
  statuses : list string; sorts : list string; defaultSort : string; defaultOrder : string }.

Definition mk_rules (st so : list string) (d o : string) : collectionRules :=
  {| statuses := st; sorts := so; defaultSort := d; defaultOrder := o |}.

Definition gvr (g v r : string) : Origin :=
  {| org_Namespace := ""; org_APIGroup := g; org_Version := v; org_Resource := r |}.

Definition plain_rules : collectionRules := mk_rules [] ["identity"; "name"] "identity" OrderAscending.

Definition rulesByCollection_literal : list (string * collectionRules) := [
  (CollectionWorkloads, mk_rules ["Healthy"; "Progressing"; "Degraded"; "Suspended"; "Completed"; "Failed"; "Unknown"] ["identity"; "name"; "age"; "status"] "identity" OrderAscending);
  (CollectionPods, mk_rules ["Running"; "Pending"; "Succeeded"; "Failed"; "Unknown"] ["identity"; "name"; "age"; "restarts"; "status"] "identity" OrderAscending);
  (CollectionEvents, mk_rules ["Normal"; "Warning"; "Unknown"] ["timestamp"; "count"; "identity"] "timestamp" OrderDescending);
  (CollectionServices, mk_rules [] ["identity"; "name"; "type"] "identity" OrderAscending);
  (CollectionIngresses, mk_rules [] ["identity"; "name"] "identity" OrderAscending);
  (CollectionEndpointSlices, mk_rules [] ["identity"; "name"; "addressType"] "identity" OrderAscending);
  (CollectionConfigMaps, mk_rules [] ["identity"; "name"; "createdAt"] "identity" OrderAscending);
  (CollectionSecrets, mk_rules [] ["identity"; "name"; "createdAt"] "identity" OrderAscending);
  (CollectionNodes, mk_rules [] ["identity"; "name"; "age"; "status"] "identity" OrderAscending);
  (CollectionLeases, mk_rules [] ["identity"; "name"; "age"] "identity" OrderAscending);
  (CollectionPersistentVolumes, mk_rules [] ["identity"; "name"; "age"; "status"] "identity" OrderAscending);
  (CollectionPersistentVolumeClaims, mk_rules [] ["identity"; "name"; "age"; "status"] "identity" OrderAscending);
  (CollectionVolumeAttachments, mk_rules [] ["identity"; "name"; "age"] "identity" OrderAscending);
  (CollectionStorageClasses, mk_rules [] ["identity"; "name"; "age"] "identity" OrderAscending);
  (CollectionCSINodes, mk_rules [] ["identity"; "name"; "age"] "identity" OrderAscending);
  (CollectionCSIDrivers, mk_rules [] ["identity"; "name"; "age"] "identity" OrderAscending);
  (CollectionServiceAccounts, mk_rules [] ["identity"; "name"] "identity" OrderAscending);
  (CollectionResourceQuotas, mk_rules [] ["identity"; "name"] "identity" OrderAscending);
  (CollectionLimitRanges, mk_rules [] ["identity"; "name"] "identity" OrderAscending);
  (CollectionHPAs, mk_rules [] ["identity"; "name"; "age"] "identity" OrderAscending);
  (CollectionPDBs, mk_rules [] ["identity"; "name"] "identity" OrderAscending);
  (CollectionRoles, mk_rules [] ["identity"; "name"] "identity" OrderAscending);
  (CollectionRoleBindings, mk_rules [] ["identity"; "name"] "identity" OrderAscending);
  (CollectionClusterRoles, mk_rules [] ["identity"; "name"] "identity" OrderAscending);
  (CollectionClusterRoleBindings, mk_rules [] ["identity"; "name"] "identity" OrderAscending);
  (CollectionCRDs, mk_rules [] ["identity"; "name"] "identity" OrderAscending);
  (CollectionPriorityClasses, mk_rules [] ["identity"; "name"] "identity" OrderAscending);
  (CollectionRuntimeClasses, mk_rules [] ["identity"; "name"] "identity" OrderAscending);
  (CollectionMutatingWebhooks, mk_rules [] ["identity"; "name"] "identity" OrderAscending);
  (CollectionValidatingWebhooks, mk_rules [] ["identity"; "name"] "identity" OrderAscending);
  (CollectionIngressClasses, mk_rules [] ["identity"; "name"] "identity" OrderAscending);
  (CollectionNetworkPolicies, mk_rules [] ["identity"; "name"] "identity" OrderAscending);
  (CollectionEndpoints, mk_rules [] ["identity"; "name"] "identity" OrderAscending)].

Definition clusterGVR_literal : list (string * Origin) := [
  (CollectionNodes, gvr "" "v1" "nodes");
  (CollectionPersistentVolumes, gvr "" "v1" "persistentvolumes");
  (CollectionVolumeAttachments, gvr "storage.k8s.io" "v1" "volumeattachments");
  (CollectionStorageClasses, gvr "storage.k8s.io" "v1" "storageclasses");
  (CollectionCSINodes, gvr "storage.k8s.io" "v1" "csinodes");
  (CollectionCSIDrivers, gvr "storage.k8s.io" "v1" "csidrivers");
  (CollectionClusterRoles, gvr "rbac.authorization.k8s.io" "v1" "clusterroles");
  (CollectionClusterRoleBindings, gvr "rbac.authorization.k8s.io" "v1" "clusterrolebindings");
  (CollectionCRDs, gvr "apiextensions.k8s.io" "v1" "customresourcedefinitions");
  (CollectionPriorityClasses, gvr "scheduling.k8s.io" "v1" "priorityclasses");
  (CollectionRuntimeClasses, gvr "node.k8s.io" "v1" "runtimeclasses");
  (CollectionMutatingWebhooks, gvr "admissionregistration.k8s.io" "v1" "mutatingwebhookconfigurations");
  (CollectionValidatingWebhooks, gvr "admissionregistration.k8s.io" "v1" "validatingwebhookconfigurations");
  (CollectionIngressClasses, gvr "networking.k8s.io" "v1" "ingressclasses")].

Definition collectionGVR_literal : list (string * Origin) := [
  (CollectionPods, gvr "" "v1" "pods");
  (CollectionEvents, gvr "" "v1" "events");
  (CollectionServices, gvr "" "v1" "services");
  (CollectionIngresses, gvr "networking.k8s.io" "v1" "ingresses");
  (CollectionEndpointSlices, gvr "discovery.k8s.io" "v1" "endpointslices");
  (CollectionConfigMaps, gvr "" "v1" "configmaps");
  (CollectionSecrets, gvr "" "v1" "secrets");
  (CollectionLeases, gvr "coordination.k8s.io" "v1" "leases");
  (CollectionPersistentVolumeClaims, gvr "" "v1" "persistentvolumeclaims");
  (CollectionRoles, gvr "rbac.authorization.k8s.io" "v1" "roles");
  (CollectionRoleBindings, gvr "rbac.authorization.k8s.io" "v1" "rolebindings");
  (CollectionNetworkPolicies, gvr "networking.k8s.io" "v1" "networkpolicies");
  (CollectionEndpoints, gvr "" "v1" "endpoints");
  (CollectionServiceAccounts, gvr "" "v1" "serviceaccounts");
  (CollectionResourceQuotas, gvr "" "v1" "resourcequotas");
  (CollectionLimitRanges, gvr "" "v1" "limitranges");
  (CollectionHPAs, gvr "autoscaling" "v2" "horizontalpodautoscalers");
  (CollectionPDBs, gvr "policy" "v1" "poddisruptionbudgets")].

Definition workloadGVR_literal : list (string * Origin) := [
  (WorkloadDeployments, gvr "apps" "v1" "deployments");
  (WorkloadStatefulSets, gvr "apps" "v1" "statefulsets");
  (WorkloadDaemonSets, gvr "apps" "v1" "daemonsets");
  (WorkloadJobs, gvr "batch" "v1" "jobs");
  (WorkloadCronJobs, gvr "batch" "v1" "cronjobs");
  (WorkloadReplicaSets, gvr "apps" "v1" "replicasets")].

(** The maps after package initialisation: the literals, then the entries the init
    functions of gateway.go and helm.go add. *)
Definition gateway_origin (r : Resource) : Origin := gvr (res_Group r) (res_Version r) (res_Resource r).

Definition helm_collections : list (string * string) :=
  [(CollectionHelmReleases, "secrets"); (CollectionHelmConfigMapReleases, "configmaps")].

Definition rules_entries : list (string * collectionRules) :=
  ((λ c, (c.1, plain_rules)) <$> helm_collections)
  ++ ((λ r, (res_Collection r, plain_rules)) <$> GatewayResources)
  ++ rulesByCollection_literal.

Definition cluster_entries : list (string * Origin) :=
  ((λ r, (res_Collection r, gateway_origin r))
     <$> base.filter (λ r, res_Namespaced r = false) GatewayResources)
  ++ clusterGVR_literal.

Definition collection_entries : list (string * Origin) :=
  ((λ c, (c.1, gvr "" "v1" c.2)) <$> helm_collections)
  ++ ((λ r, (res_Collection r, gateway_origin r))
        <$> base.filter (λ r, res_Namespaced r = true) GatewayResources)
  ++ collectionGVR_literal.

Definition rulesByCollection : gmap string collectionRules := list_to_map rules_entries.
Definition clusterGVR : gmap string Origin := list_to_map cluster_entries.
Definition collectionGVR : gmap string Origin := list_to_map collection_entries.
Definition workloadGVR : gmap string Origin := list_to_map workloadGVR_literal.

Definition ClusterOriginFor (collection : string) : result error Origin :=
  let static :=
    match clusterGVR !! collection with
    | Some origin => Ok origin
    | None => Err (validationError "collection is not cluster-scoped")
    end in
  match ParseDynamicCollection collection with
  | Some r =>
    if dyn_Namespaced r then static else Ok (gvr (dyn_Group r) (dyn_Version r) (dyn_Resource r))
  | None => static
  end.

Definition isClusterScoped (collection : string) : bool :=
  match ParseDynamicCollection collection with
  | Some r => negb (dyn_Namespaced r)
  | None => bool_decide (is_Some (clusterGVR !! collection))
  end.

(** ** Identities of discovered resources *)

Lemma has_byte_chars c s : has_byte c s = existsb (Ascii.eqb c) (chars s).
Proof.
  induction s as [|d s IH]; [done|]. cbn. by rewrite IH, Ascii.eqb_sym.
Qed.

Lemma segment_no_colon l : forallb is_segment_char l = true → existsb (Ascii.eqb ":") l = false.
Proof.
  induction l as [|c l IH]; cbn [existsb forallb]; [done|]. rewrite andb_true_iff. intros [Hc Hl].
  rewrite IH by done.
  destruct (Ascii.eqb_spec ":" c) as [<-|]; [discriminate Hc|done].
Qed.

Lemma group_no_colon l : forallb is_group_char l = true → existsb (Ascii.eqb ":") l = false.
Proof.
  induction l as [|c l IH]; cbn [existsb forallb]; [done|]. rewrite andb_true_iff. intros [Hc Hl].
  rewrite IH by done.
  destruct (Ascii.eqb_spec ":" c) as [<-|]; [discriminate Hc|done].
Qed.

Lemma dynamicSegment_plain s : dynamicSegment s = true → has_byte ":" s = false.
Proof.
  rewrite has_byte_chars. unfold dynamicSegment. destruct (chars s) as [|c l]; [done|].
  rewrite !andb_true_iff. intros [[Hc Hl] _]. apply segment_no_colon. cbn [forallb].
  rewrite andb_true_iff. split; [|done]. unfold is_segment_char, is_alnum. by rewrite Hc.
Qed.

Lemma dynamicGroup_plain s : dynamicGroup s = true → has_byte ":" s = false.
Proof.
  rewrite has_byte_chars. unfold dynamicGroup. destruct (chars s) as [|c l] eqn:E; [done|].
  rewrite andb_true_iff. intros [Hc Hl]. apply group_no_colon. cbn [forallb].
  assert (∀ d, is_alnum d = true → is_group_char d = true) as Hd
    by (intros d Hd; unfold is_group_char, is_segment_char; by rewrite Hd).
  rewrite andb_true_iff. split; [by apply Hd|].
  rewrite <- (rev_involutive l). destruct (rev l) as [|d m]; [done|].
  rewrite !andb_true_iff in Hl. destruct Hl as [[H1 H2] _].
  cbn [rev]. rewrite forallb_app. cbn [forallb]. rewrite (Hd d), andb_true_r by done.
  apply forallb_forall. intros x Hx%in_rev. rewrite forallb_forall in H2. by apply H2.
Qed.

Lemma Join_split_at sep s current : Join (split_at sep s current) (String sep "") = current +:+ s.
Proof.
  revert current. induction s as [|c s IH]; intros current; cbn [split_at].
  - cbn [Join]. by rewrite app_empty_r.
  - destruct (Ascii.eqb_spec c sep) as [->|].
    + specialize (IH ""). destruct (split_at sep s "") as [|x l] eqn:E.
      { exfalso. clear -E. destruct s as [|d s]; cbn [split_at] in E; [done|].
        destruct (Ascii.eqb d sep); [done|]. revert E. generalize ("" +:+ String d "").
        induction s as [|e s IHs]; intros cur; cbn [split_at]; [done|].
        destruct (Ascii.eqb e sep); [done|apply IHs]. }
      rewrite Join_cons_cons, IH. done.
    + rewrite IH, app_assoc_s. done.
Qed.

(** Four colons between five plain parts. *)
Lemma Split_five sep a b c d e :
  Forall (λ s, has_byte sep s = false) [a; b; c; d; e] →
  Split (a +:+ String sep (b +:+ String sep (c +:+ String sep (d +:+ String sep e)))) sep
  = [a; b; c; d; e].
Proof.
  rewrite !Forall_cons. intros (Ha&Hb&Hc&Hd&He&_). unfold Split.
  by rewrite !split_at_sep, split_at_plain by done.
Qed.

(** What a collection name keeps of a resource. *)
Definition bare (r : DynamicResource) : DynamicResource :=
  {| dyn_Group := dyn_Group r; dyn_Version := dyn_Version r; dyn_Resource := dyn_Resource r;
     dyn_Kind := ""; dyn_Namespaced := dyn_Namespaced r; dyn_ShortNames := [] |}.

Lemma valid_parts r :
  DynamicResource_Valid r = true →
  has_byte ":" (dyn_Group r) = false ∧ dyn_Group r ≠ "_" ∧ has_byte ":" (dyn_Version r) = false
  ∧ has_byte ":" (dyn_Resource r) = false.
Proof.
  unfold DynamicResource_Valid. destruct (String.eqb_spec (dyn_Group r) "") as [->|Hg]; cbn [negb andb].
  - rewrite andb_true_iff. intros [Hv Hr]. split_and!; [done|done|by apply dynamicSegment_plain..].
  - destruct (dynamicGroup (dyn_Group r)) eqn:E; cbn [negb orb]; [|done].
    destruct (Contains (dyn_Group r) ".."); [done|]. rewrite andb_true_iff. intros [Hv Hr].
    split_and!; [by apply dynamicGroup_plain| |by apply dynamicSegment_plain..].
    intros Hu. by rewrite Hu in E.
Qed.

(** The name of a discovered resource identifies it. A valid resource is read back from
    its collection name (the kind and the short names, which the name does not carry,
    aside); and a collection name that parses denotes a valid resource whose own name it
    is, except that the core group may also be written as an empty segment. *)
Theorem dynamic_identity_roundtrip :
  (∀ r, DynamicResource_Valid r = true →
        ParseDynamicCollection (DynamicResource_Collection r) = Some (bare r))
  ∧ (∀ c r, ParseDynamicCollection c = Some r →
       DynamicResource_Valid r = true
       ∧ (c = DynamicResource_Collection r
          ∨ dyn_Group r = ""
            ∧ c = "dynamic::" +:+ dyn_Version r +:+ ":" +:+ dyn_Resource r +:+ ":"
                  +:+ (if dyn_Namespaced r then "n" else "c"))).
Proof.
  split.
  - intros r Hv. destruct (valid_parts r Hv) as (Hg&Hu&Hver&Hres).
    unfold ParseDynamicCollection, DynamicResource_Collection.
    set (group := if String.eqb (dyn_Group r) "" then "_" else dyn_Group r).
    assert (has_byte ":" group = false) as Hgroup by (unfold group; by case_match).
    set (scope := if dyn_Namespaced r then "n" else "c").
    change ("dynamic:" +:+ group +:+ ":" +:+ dyn_Version r +:+ ":" +:+ dyn_Resource r +:+ ":" +:+ scope)
      with ("dynamic" +:+ String ":" (group +:+ String ":" (dyn_Version r +:+ String ":"
              (dyn_Resource r +:+ String ":" scope)))).
    rewrite Split_five; unfold scope.
    2: { repeat (apply Forall_cons; split); try done. by destruct (dyn_Namespaced r). }
    assert ((if String.eqb group "_" then "" else group) = dyn_Group r) as ->.
    { unfold group. destruct (String.eqb_spec (dyn_Group r) "") as [->|]; [done|].
      by apply String.eqb_neq in Hu as ->. }
    assert (String.eqb (if dyn_Namespaced r then "n" else "c") "n" = dyn_Namespaced r) as ->
      by (by destruct (dyn_Namespaced r)).
    fold (bare r). change (DynamicResource_Valid (bare r)) with (DynamicResource_Valid r).
    rewrite Hv. by destruct (dyn_Namespaced r).
  - intros c r Hp. unfold ParseDynamicCollection in Hp.
    pose proof (Join_split_at ":" c "") as Hjoin. fold (Split c ":") in Hjoin.
    destruct (Split c ":") as [|p0 [|p1 [|p2 [|p3 [|p4 [|]]]]]]; try done.
    destruct (negb _ || _) eqn:Hhead; [done|]. case_match eqn:Hvalid; [|done]. simplify_eq.
    split; [done|]. rewrite !Join_cons_cons in Hjoin. cbn [Join] in Hjoin.
    change ("" +:+ c) with c in Hjoin.
    apply orb_false_iff in Hhead as [->%negb_false_iff%String.eqb_eq Hscope].
    assert (p4 = if String.eqb p4 "n" then "n" else "c") as Hp4.
    { apply andb_false_iff in Hscope as [E|E]; apply negb_false_iff in E; [by rewrite E; apply String.eqb_eq|].
      apply String.eqb_eq in E as ->. done. }
    unfold DynamicResource_Collection. cbn [dyn_Group dyn_Version dyn_Resource dyn_Namespaced].
    rewrite <- Hp4. destruct (String.eqb_spec p1 "_") as [->|Hp1]; [left; by rewrite <- Hjoin|].
    destruct (String.eqb_spec p1 "") as [->|Hp1']; [right|left]; by rewrite <- Hjoin.
Qed.

(** ** The tables agree *)

Lemma entries_lookup {A} (l : list (string * A)) k :
  is_Some ((list_to_map l : gmap string A) !! k) ↔ k ∈ l.*1.
Proof.
  split.
  - intros [x Hx]. by eapply (list_elem_of_fmap_2' fst); [eapply elem_of_list_to_map_2|].
  - intros Hk. destruct ((list_to_map l : gmap string A) !! k) eqn:E; [by eexists|].
    by apply not_elem_of_list_to_map in E.
Qed.

(** Comparing closed lists of names by evaluation. *)
Lemma elem_existsb (c : string) l : existsb (String.eqb c) l = true ↔ c ∈ l.
Proof.
  rewrite existsb_exists. setoid_rewrite <- list_elem_of_In. setoid_rewrite String.eqb_eq. naive_solver.
Qed.

Lemma all_in l k : forallb (λ c, existsb (String.eqb c) k) l = true → l ⊆ k.
Proof.
  rewrite forallb_forall. intros Hl c Hc. apply elem_existsb, Hl. by apply list_elem_of_In.
Qed.

Lemma none_in l k :
  forallb (λ c, negb (existsb (String.eqb c) k)) l = true → ∀ c, c ∈ l → c ∉ k.
Proof.
  rewrite forallb_forall. intros Hl c Hc%list_elem_of_In Hk. apply Hl, negb_true_iff in Hc.
  apply elem_existsb in Hk. congruence.
Qed.

Lemma tables_agree :
  (∀ c, is_Some (rulesByCollection !! c) ↔
        c = CollectionWorkloads ∨ is_Some (collectionGVR !! c) ∨ is_Some (clusterGVR !! c))
  ∧ (∀ c, is_Some (collectionGVR !! c) → is_Some (clusterGVR !! c) → False).
Proof.
  assert (rules_entries.*1 ⊆ CollectionWorkloads :: collection_entries.*1 ++ cluster_entries.*1) as H1
    by (apply all_in; by vm_compute).
  assert (CollectionWorkloads :: collection_entries.*1 ++ cluster_entries.*1 ⊆ rules_entries.*1) as H2
    by (apply all_in; by vm_compute).
  assert (∀ c, c ∈ collection_entries.*1 → c ∉ cluster_entries.*1) as H3
    by (apply none_in; by vm_compute).
  split.
  - intros c. unfold rulesByCollection, collectionGVR, clusterGVR. rewrite !entries_lookup.
    revert H1 H2. generalize (rules_entries.*1) (collection_entries.*1) (cluster_entries.*1).
    set_solver.
  - intros c. unfold collectionGVR, clusterGVR. rewrite !entries_lookup. intros Hc. by apply H3.
Qed.

(** Cluster-scoped origins carry no namespace. *)
Lemma cluster_namespace c origin : clusterGVR !! c = Some origin → org_Namespace origin = "".
Proof.
  intros E%elem_of_list_to_map_2%(list_elem_of_fmap_2 snd). cbn [snd] in E.
  assert (forallb (λ o, String.eqb (org_Namespace o) "") cluster_entries.*2 = true) as H
    by (by vm_compute).
  rewrite forallb_forall in H. apply String.eqb_eq, H. by apply list_elem_of_In.
Qed.

Lemma workload_kinds k : is_Some (workloadGVR !! k) ↔ k ∈ canonicalWorkloadKinds.
Proof. unfold workloadGVR. by rewrite entries_lookup. Qed.

(** Every collection the application knows is backed by exactly one table. A name with
    listing rules is the workloads collection, or has exactly one of a namespaced and a
    cluster-scoped group/version/resource, and no other name has one; the gateway
    resources of the catalogue are all among them, and every workload kind has its own. *)
Theorem collections_have_one_origin :
  (∀ c, is_Some (rulesByCollection !! c) ↔
        c = CollectionWorkloads ∨ is_Some (collectionGVR !! c) ∨ is_Some (clusterGVR !! c))
  ∧ (∀ c, is_Some (collectionGVR !! c) → is_Some (clusterGVR !! c) → False)
  ∧ collectionGVR !! CollectionWorkloads = None ∧ clusterGVR !! CollectionWorkloads = None
  ∧ (∀ r, r ∈ GatewayResources → is_Some (rulesByCollection !! res_Collection r))
  ∧ (∀ k, is_Some (workloadGVR !! k) ↔ k ∈ canonicalWorkloadKinds).
Proof.
  destruct tables_agree as [H1 H2]. split_and!; [done|done|by vm_compute|by vm_compute| |exact workload_kinds].
  intros r Hr. apply entries_lookup. unfold rules_entries.
  rewrite !fmap_app, !elem_of_app. right; left. rewrite <- list_fmap_compose.
  by apply (list_elem_of_fmap_2 res_Collection).
Qed.
