(* ===== verification/Options.v ===== *)
(** * Options: normalising list queries

    Model of src/internal/services/resources/options.go and selectors.go, and of the
    origins a query reads (OriginsFor, GlobalOriginsFor and originsFor of service.go).
    Label and field selectors are parsed by apimachinery: [SelectorSyntax] holds its
    three functions as the code uses them. *)
From Stdlib Require Import Ascii String ZArith Lia.
From stdpp Require Import base gmap strings list.
From S2P Require Import Prelude Json Topics Encoding Unicode Search Cursor Ports Retry Pagination Collect Catalogue.

Definition MaximumSearchBytes : Z := 256.
Definition MaximumSelectorBytes : Z := 1024.

Definition contains (values : list string) (target : string) : bool :=
  existsb (λ value, String.eqb value target) values.

(** ** Canonical lists *)

(** The validation loop of [canonicalStrings]; [order] is nil or the allowed values. *)
Fixpoint canonical_check (field : string) (order : option (list string)) (seen : gset string)
    (values : list string) : option error :=
  match values with
  | [] => None
  | value :: rest =>
    if String.eqb value "" || negb (ValidString value)
    then Some (validationError (field +:+ " must not be empty"))
    else if decide (value ∈ seen)
    then Some (validationError (field +:+ " must not contain duplicates"))
    else if match order with Some o => negb (contains o value) | None => false end
    then Some (validationError (field +:+ " has an invalid value"))
    else canonical_check field order ({[value]} ∪ seen) rest
  end.

Definition canonicalStrings (values : list string) (maximum : Z) (order : option (list string))
    (field : string) : result error (list string) :=
  if (maximum <? Z.of_nat (length values))%Z
  then Err (validationError (field +:+ " exceeds its cardinality limit"))
  else
    match canonical_check field order ∅ values with
    | Some err => Err err
    | None =>
      match order with
      | None => Ok (sort_stable str_lt values)
      | Some o => Ok (base.filter (λ candidate, candidate ∈ values) o)
      end
    end.

Definition canonicalKinds (values : list string) : result error (list string) :=
  match values with
  | [] => Ok canonicalWorkloadKinds
  | _ => canonicalStrings values (Z.of_nat (length canonicalWorkloadKinds))
           (Some canonicalWorkloadKinds) "kind"
  end.

Definition ResolveNamespaces (active requested : list string) : result error (list string) :=
  match requested with
  | [] => canonicalStrings active MaximumNamespaces None "active namespace"
  | _ =>
    (requestedCanonical <-? canonicalStrings requested MaximumNamespaces None "namespace" ;;
     activeCanonical <-?
       canonicalStrings active (Z.max MaximumNamespaces (Z.of_nat (length active))) None
         "active namespace" ;;
     if forallb (λ namespace, contains activeCanonical namespace) requestedCanonical
     then Ok requestedCanonical
     else Err (validationError "namespace is outside the active scope"))%kp
  end.

(** ** Origins *)

Section origins.
Context `{SliceSort}.

Definition in_namespace (base : Origin) (namespace : string) : Origin :=
  {| org_Namespace := namespace; org_APIGroup := org_APIGroup base;
     org_Version := org_Version base; org_Resource := org_Resource base |}.

Definition zero_origin : Origin := gvr "" "" "".

Definition originsFor (collection : string) (namespaces kinds : list string)
  : result error (list Origin) :=
  if String.eqb collection CollectionWorkloads then
    (kinds <-? canonicalKinds kinds ;;
     Ok (canonicalOrigins
           (kinds ≫= λ kind, in_namespace (get_or workloadGVR kind zero_origin) <$> namespaces)))%kp
  else
    let base :=
      match ParseDynamicCollection collection with
      | Some r =>
        if dyn_Namespaced r then Some (gvr (dyn_Group r) (dyn_Version r) (dyn_Resource r))
        else collectionGVR !! collection
      | None => collectionGVR !! collection
      end in
    match base with
    | None => Err (validationError "collection is not supported")
    | Some base => Ok (canonicalOrigins (in_namespace base <$> namespaces))
    end.

Definition OriginsFor (collection : string) (namespaces kinds : list string)
  : result error (list Origin) :=
  (namespaces <-? canonicalStrings namespaces MaximumNamespaces None "namespace" ;;
   originsFor collection namespaces kinds)%kp.

Definition GlobalOriginsFor (collection : string) (kinds : list string)
  : result error (list Origin) :=
  originsFor collection [""] kinds.

End origins.

(** ** List options *)

Record ListOptions := {
  lo_Limit : Z; lo_Continue : string; lo_Search : string; lo_SearchQuery : SearchQuery;
  lo_Namespaces : list string; lo_Statuses : list string; lo_Kinds : list string;
  lo_Sort : string; lo_Order : string; lo_Workload : string; lo_Node : string;
  lo_Restarts : string; lo_Problematic : option bool; lo_LatestJobRuns : bool;
  lo_ObjectKind : string; lo_Reason : string; lo_AddressType : string;
  lo_LabelSelector : string; lo_FieldSelector : string; lo_Priority : Z }.

(** apimachinery's selector syntax: [labels_Parse] and [fields_ParseSelector] give the
    canonical text of a valid selector (the latter with the fields it constrains), and
    [OneTermEqualSelector] the text of one equality. *)
Class SelectorSyntax := {
  labels_Parse : string → option string;
  fields_ParseSelector : string → option (list string * string);
  OneTermEqualSelector : string → string → string }.

Record SelectorSupport := { sup_Label : bool; sup_Fields : list string }.

Definition SelectorSupportFor (collection : string) : SelectorSupport :=
  {| sup_Label := true;
     sup_Fields :=
       ["metadata.name"]
       ++ (if isClusterScoped collection then [] else ["metadata.namespace"])
       ++ (if String.eqb collection CollectionPods then ["spec.nodeName"; "status.phase"]
           else if String.eqb collection CollectionEvents then
             ["involvedObject.kind"; "involvedObject.name"; "involvedObject.namespace";
              "involvedObject.uid"; "reason"; "reportingComponent"; "source"; "type"]
           else []) |}.

Section normalize.
Context `{SelectorSyntax}.

Definition with_selectors (o : ListOptions) (label field : string) : ListOptions := {|
  lo_Limit := lo_Limit o; lo_Continue := lo_Continue o; lo_Search := lo_Search o;
  lo_SearchQuery := lo_SearchQuery o; lo_Namespaces := lo_Namespaces o;
  lo_Statuses := lo_Statuses o; lo_Kinds := lo_Kinds o; lo_Sort := lo_Sort o;
  lo_Order := lo_Order o; lo_Workload := lo_Workload o; lo_Node := lo_Node o;
  lo_Restarts := lo_Restarts o; lo_Problematic := lo_Problematic o;
  lo_LatestJobRuns := lo_LatestJobRuns o; lo_ObjectKind := lo_ObjectKind o;
  lo_Reason := lo_Reason o; lo_AddressType := lo_AddressType o;
  lo_LabelSelector := label; lo_FieldSelector := field; lo_Priority := lo_Priority o |}.

(** The filters pushed down as field selectors. *)
Definition derived_selectors (collection : string) (o : ListOptions) : list string :=
  (if String.eqb collection CollectionPods && negb (String.eqb (lo_Node o) "")
   then [OneTermEqualSelector "spec.nodeName" (lo_Node o)] else [])
  ++ (if String.eqb collection CollectionEvents then
        (if String.eqb (lo_ObjectKind o) "" then []
         else [OneTermEqualSelector "involvedObject.kind" (lo_ObjectKind o)])
        ++ (if String.eqb (lo_Reason o) "" then []
            else [OneTermEqualSelector "reason" (lo_Reason o)])
      else []).

Definition normalizeSelectors (collection : string) (o : ListOptions) : result error ListOptions :=
  if (MaximumSelectorBytes <? len (lo_LabelSelector o))%Z || negb (ValidString (lo_LabelSelector o))
  then Err (validationError "labelSelector must be valid UTF-8 up to 1 KiB")
  else if (MaximumSelectorBytes <? len (lo_FieldSelector o))%Z || negb (ValidString (lo_FieldSelector o))
  then Err (validationError "fieldSelector must be valid UTF-8 up to 1 KiB")
  else
    (label <-?
       (if String.eqb (lo_LabelSelector o) "" then Ok ""
        else match labels_Parse (lo_LabelSelector o) with
             | Some text => Ok text
             | None => Err (validationError "labelSelector is invalid")
             end) ;;
     field <-?
       (if String.eqb (lo_FieldSelector o) "" then Ok ""
        else match fields_ParseSelector (lo_FieldSelector o) with
             | None => Err (validationError "fieldSelector is invalid")
             | Some (requirements, text) =>
               if forallb (contains (sup_Fields (SelectorSupportFor collection))) requirements
               then Ok text
               else Err (validationError
                           "fieldSelector contains a field unsupported by this collection")
             end) ;;
     let derived := derived_selectors collection o in
     let derived := if String.eqb field "" then derived else field :: derived in
     Ok (with_selectors o label (Join derived ",")))%kp.

Definition RestartValues : list string := ["any"; "gt0"; "gte3"; "gte10"].
Definition AddressTypes : list string := ["IPv4"; "IPv6"; "FQDN"; "Unknown"].

Definition some_string (s : string) : bool := negb (String.eqb s "").

(** Conditions of [NormalizeListOptions] that refuse the request, in order; each is
    checked after the lists before it have been canonicalised. *)
Definition refuse {A} (condition : bool) (message : string) (k : result error A) : result error A :=
  if condition then Err (validationError message) else k.

Definition NormalizeListOptions (collection : string) (o : ListOptions) : result error ListOptions :=
  let rules :=
    match ParseDynamicCollection collection with
    | Some _ => Some plain_rules
    | None => rulesByCollection !! collection
    end in
  match rules with
  | None => Err (validationError "collection is not supported")
  | Some rules =>
    refuse (2 <? lo_Priority o)%Z "list priority is invalid" (
    let Limit := if (lo_Limit o =? 0)%Z then DefaultListLimit else lo_Limit o in
    refuse ((Limit <? 1) || (MaximumListLimit <? Limit))%Z "limit must be between 1 and 500" (
    refuse (MaximumCursorBytes <? len (lo_Continue o))%Z "continue exceeds 16 KiB" (
    refuse ((MaximumSearchBytes <? len (lo_Search o))%Z || negb (ValidString (lo_Search o)))
      "search must be valid UTF-8 up to 256 bytes" (
    refuse (isClusterScoped collection && (0 <? length (lo_Namespaces o))%nat)
      "namespace is not supported by this cluster-scoped collection" (
    (Namespaces <-? canonicalStrings (lo_Namespaces o) MaximumNamespaces None "namespace" ;;
     Statuses <-? canonicalStrings (lo_Statuses o) (Z.of_nat (length (statuses rules)))
                    (match statuses rules with [] => None | l => Some l end) "status" ;;
     Kinds <-? (if String.eqb collection CollectionWorkloads then canonicalKinds (lo_Kinds o)
                else refuse (0 <? length (lo_Kinds o))%nat "kind is not supported by this collection"
                       (Ok (lo_Kinds o))) ;;
     let Sort := if String.eqb (lo_Sort o) "" then defaultSort rules else lo_Sort o in
     refuse (negb (contains (sorts rules) Sort)) "sort is not supported by this collection" (
     let Order := if String.eqb (lo_Order o) "" then defaultOrder rules else lo_Order o in
     refuse (negb (String.eqb Order OrderAscending) && negb (String.eqb Order OrderDescending))
       "order must be asc or desc" (
     refuse (negb (String.eqb collection CollectionPods)
             && (some_string (lo_Workload o) || some_string (lo_Node o) || some_string (lo_Restarts o)
                 || bool_decide (is_Some (lo_Problematic o)) || lo_LatestJobRuns o))
       "pod filters are not supported by this collection" (
     refuse (some_string (lo_Restarts o) && negb (contains RestartValues (lo_Restarts o)))
       "restarts has an invalid value" (
     refuse (negb (String.eqb collection CollectionEvents)
             && (some_string (lo_ObjectKind o) || some_string (lo_Reason o)))
       "event filters are not supported by this collection" (
     refuse (negb (String.eqb collection CollectionEndpointSlices) && some_string (lo_AddressType o))
       "addressType is not supported by this collection" (
     refuse (some_string (lo_AddressType o) && negb (contains AddressTypes (lo_AddressType o)))
       "addressType has an invalid value" (
     normalizeSelectors collection {|
       lo_Limit := Limit; lo_Continue := lo_Continue o; lo_Search := lo_Search o;
       lo_SearchQuery := ParseSearch (lo_Search o); lo_Namespaces := Namespaces;
       lo_Statuses := Statuses; lo_Kinds := Kinds; lo_Sort := Sort; lo_Order := Order;
       lo_Workload := lo_Workload o; lo_Node := lo_Node o; lo_Restarts := lo_Restarts o;
       lo_Problematic := lo_Problematic o; lo_LatestJobRuns := lo_LatestJobRuns o;
       lo_ObjectKind := lo_ObjectKind o; lo_Reason := lo_Reason o;
       lo_AddressType := lo_AddressType o; lo_LabelSelector := lo_LabelSelector o;
       lo_FieldSelector := lo_FieldSelector o; lo_Priority := lo_Priority o |}))))))))%kp)))))
  end.

End normalize.

(** ** Lemmas on canonical lists *)

Definition value_ok (order : option (list string)) (v : string) : Prop :=
  v ≠ "" ∧ ValidString v = true ∧ match order with Some o => v ∈ o | None => True end.

Lemma contains_elem l s : contains l s = true ↔ s ∈ l.
Proof.
  unfold contains. rewrite existsb_exists. setoid_rewrite <- list_elem_of_In.
  setoid_rewrite String.eqb_eq. naive_solver.
Qed.

Lemma canonical_check_None field order seen values :
  canonical_check field order seen values = None
  ↔ Forall (value_ok order) values ∧ NoDup values ∧ ∀ v, v ∈ values → v ∉ seen.
Proof.
  revert seen. induction values as [|v rest IH]; intros seen; cbn [canonical_check].
  { split; [|done]. intros _. split_and!; [by apply Forall_nil|by apply NoDup_nil|set_solver]. }
  rewrite Forall_cons, NoDup_cons. unfold value_ok at 1.
  destruct (String.eqb_spec v "") as [->|Hv]; [cbn; split; [done|naive_solver]|]. cbn [orb].
  destruct (ValidString v) eqn:Hvalid; cbn [negb]; [|split; [done|naive_solver]].
  case_decide as Hseen; [split; [done|set_solver]|].
  assert (match order with Some o => negb (contains o v) | None => false end = false
          ↔ match order with Some o => v ∈ o | None => True end) as Horder.
  { destruct order; [|done]. by rewrite negb_false_iff, contains_elem. }
  destruct (match order with Some o => negb (contains o v) | None => false end);
    [split; [done|naive_solver]|].
  rewrite IH. split; [intros (H1&H2&H3)|intros ((_&H1)&(H2&H3)&H4)]; split_and!; naive_solver set_solver.
Qed.

Lemma canonical_check_Some field order seen values err :
  canonical_check field order seen values = Some err → ErrorCodeOf err = CodeValidationFailed.
Proof.
  revert seen. induction values as [|v rest IH]; intros seen; cbn [canonical_check]; [done|].
  destruct (_ || _); [by intros [= <-]|]. case_decide; [by intros [= <-]|].
  destruct (match order with Some o => negb (contains o v) | None => false end);
    [by intros [= <-]|apply IH].
Qed.

(** What [canonicalStrings] accepts and what it returns. *)
Definition canonical_form (order : option (list string)) (values : list string) : list string :=
  match order with
  | None => sort_stable str_lt values
  | Some o => base.filter (λ candidate, candidate ∈ values) o
  end.

Definition canonical_input (maximum : Z) (order : option (list string)) (values : list string) : Prop :=
  (Z.of_nat (length values) ≤ maximum)%Z ∧ Forall (value_ok order) values ∧ NoDup values.

Lemma canonicalStrings_spec values maximum order field :
  match canonicalStrings values maximum order field with
  | Ok l => canonical_input maximum order values ∧ l = canonical_form order values
  | Err e => ¬ canonical_input maximum order values ∧ ErrorCodeOf e = CodeValidationFailed
  end.
Proof.
  unfold canonicalStrings, canonical_input.
  destruct (Z.ltb_spec maximum (Z.of_nat (length values))); [split; [lia|done]|].
  pose proof (canonical_check_None field order ∅ values) as Hn.
  destruct (canonical_check field order ∅ values) as [e|] eqn:E.
  - split; [|by eapply canonical_check_Some]. intros (_&H1&H2).
    assert (Some e = None); [|done]. apply Hn. split_and!; [done|done|set_solver].
  - destruct (proj1 Hn eq_refl) as (H1&H2&_). by destruct order.
Qed.

Lemma canonicalStrings_Ok values maximum order field l :
  canonicalStrings values maximum order field = Ok l ↔
  canonical_input maximum order values ∧ l = canonical_form order values.
Proof.
  pose proof (canonicalStrings_spec values maximum order field) as H.
  destruct (canonicalStrings values maximum order field) as [l'|e]; [|split; [done|tauto]].
  destruct H as [H ->]. split; [intros [= <-]; done|]. by intros [_ ->].
Qed.

Lemma canonicalStrings_Err values maximum order field :
  ¬ canonical_input maximum order values →
  ∃ e, canonicalStrings values maximum order field = Err e ∧ ErrorCodeOf e = CodeValidationFailed.
Proof.
  intros Hn. pose proof (canonicalStrings_spec values maximum order field) as H.
  destruct (canonicalStrings values maximum order field) as [l'|e]; [tauto|]. exists e. naive_solver.
Qed.

Lemma canonical_input_perm maximum order l k :
  l ≡ₚ k → canonical_input maximum order l ↔ canonical_input maximum order k.
Proof. intros Hp. unfold canonical_input. by rewrite Hp. Qed.

Lemma canonical_form_perm order l k : l ≡ₚ k → canonical_form order l = canonical_form order k.
Proof.
  intros Hp. destruct order as [o|]; cbn; [|by apply sort_strings_perm].
  apply list_filter_iff. intros x. by rewrite Hp.
Qed.

(** The order of the values never matters. *)
Lemma canonicalStrings_perm l k maximum order field :
  l ≡ₚ k →
  match canonicalStrings l maximum order field, canonicalStrings k maximum order field with
  | Ok a, Ok b => a = b
  | Err _, Err _ => True
  | _, _ => False
  end.
Proof.
  intros Hp. pose proof (canonicalStrings_spec l maximum order field) as Hl.
  pose proof (canonicalStrings_spec k maximum order field) as Hk.
  pose proof (canonical_input_perm maximum order _ _ Hp) as Hin.
  pose proof (canonical_form_perm order _ _ Hp) as Hform.
  destruct (canonicalStrings l _ _ _), (canonicalStrings k _ _ _); try tauto.
  destruct Hl as [_ ->], Hk as [_ ->]. done.
Qed.

(** ** Namespaces *)

Definition scope_ok (active requested : list string) : Prop :=
  Forall (value_ok None) active ∧ NoDup active
  ∧ match requested with
    | [] => (Z.of_nat (length active) ≤ MaximumNamespaces)%Z
    | _ => canonical_input MaximumNamespaces None requested ∧ requested ⊆ active
    end.

Lemma sorted_subset (l active : list string) :
  NoDup l → l ⊆ active → (Z.of_nat (length l) ≤ 100)%Z →
  let s := sort_stable str_lt l in
  s ≡ₚ l ∧ NoDup s ∧ sorted_by str_lt s ∧ s ⊆ active ∧ (Z.of_nat (length s) ≤ 100)%Z.
Proof.
  intros Hnd Hsub Hlen s. pose proof (sort_stable_perm str_lt l) as Hp. fold s in Hp.
  split_and!; [done|by rewrite Hp|apply sort_stable_sorted, _| |by rewrite Hp].
  intros x. rewrite Hp. apply Hsub.
Qed.

(** C30: a query can never widen the active scope. Resolving the requested namespaces
    against the active ones succeeds exactly when both lists are well formed and every
    requested namespace is active (or nothing is requested and the active scope is within
    the fan-out limit of 100); the result is then the requested namespaces (the active
    ones), each once, sorted, at most 100 of them, and every one of them active. Anything
    else is a validation error. *)
Theorem resolve_namespaces_exact active requested :
  match ResolveNamespaces active requested with
  | Ok l =>
    scope_ok active requested
    ∧ l ≡ₚ match requested with [] => active | _ => requested end
    ∧ NoDup l ∧ sorted_by str_lt l ∧ l ⊆ active ∧ (Z.of_nat (length l) ≤ 100)%Z
  | Err e => ¬ scope_ok active requested ∧ ErrorCodeOf e = CodeValidationFailed
  end.
Proof.
  unfold ResolveNamespaces, scope_ok.
  destruct requested as [|r rest].
  - pose proof (canonicalStrings_spec active MaximumNamespaces None "active namespace") as H.
    destruct (canonicalStrings _ _ _ _) as [l|e].
    + destruct H as [(H1&H2&H3) ->]. split; [done|]. by apply sorted_subset.
    + destruct H as [H1 H2]. split; [|done]. intros (?&?&?). by apply H1.
  - set (requested := r :: rest).
    pose proof (canonicalStrings_spec requested MaximumNamespaces None "namespace") as Hr.
    destruct (canonicalStrings requested _ _ _) as [lr|e]; [|split; [tauto|by apply Hr]].
    destruct Hr as [Hr ->].
    pose proof (canonicalStrings_spec active (Z.max MaximumNamespaces (Z.of_nat (length active))) None
                  "active namespace") as Ha.
    destruct (canonicalStrings active _ _ _) as [la|e].
    + destruct Ha as [(_&Ha1&Ha2) ->]. cbn [canonical_form].
      destruct (forallb _ _) eqn:E.
      * assert (requested ⊆ active) as Hsub.
        { intros x Hx. rewrite forallb_forall in E. specialize (E x).
          rewrite <- list_elem_of_In, contains_elem, !sort_stable_perm in E. auto. }
        split; [done|]. by apply sorted_subset; [apply Hr| |apply Hr].
      * split; [|done]. intros (_&_&_&Hsub).
        assert (forallb (λ n, contains (sort_stable str_lt active) n) (sort_stable str_lt requested) = true);
          [|congruence].
        apply forallb_forall. intros x. rewrite <- list_elem_of_In, contains_elem, !sort_stable_perm. auto.
    + destruct Ha as [Ha ?]. split; [|done]. intros (?&?&_). apply Ha. split_and!; [lia|done|done].
Qed.

(** ** Normalised queries *)

Definition rules_of (collection : string) : option collectionRules :=
  match ParseDynamicCollection collection with
  | Some _ => Some plain_rules
  | None => rulesByCollection !! collection
  end.

(** The contract of a normalised query. *)
Record normalized (collection : string) (rules : collectionRules) (o : ListOptions) : Prop := {
  norm_priority : (lo_Priority o ≤ 2)%Z;
  norm_limit : (1 ≤ lo_Limit o ≤ 500)%Z;
  norm_continue : (len (lo_Continue o) ≤ 16384)%Z;
  norm_search : (len (lo_Search o) ≤ 256)%Z ∧ ValidString (lo_Search o) = true
                ∧ lo_SearchQuery o = ParseSearch (lo_Search o);
  norm_namespaces : sorted_by str_lt (lo_Namespaces o) ∧ NoDup (lo_Namespaces o)
                    ∧ (Z.of_nat (length (lo_Namespaces o)) ≤ 100)%Z
                    ∧ Forall (value_ok None) (lo_Namespaces o);
  norm_cluster : isClusterScoped collection = true → lo_Namespaces o = [];
  norm_statuses : lo_Statuses o `sublist_of` statuses rules;
  norm_kinds : if String.eqb collection CollectionWorkloads
               then lo_Kinds o ≠ [] ∧ lo_Kinds o `sublist_of` canonicalWorkloadKinds
               else lo_Kinds o = [];
  norm_sort : lo_Sort o ∈ sorts rules;
  norm_order : lo_Order o = OrderAscending ∨ lo_Order o = OrderDescending;
  norm_pod_filters : collection ≠ CollectionPods →
    lo_Workload o = "" ∧ lo_Node o = "" ∧ lo_Restarts o = "" ∧ lo_Problematic o = None
    ∧ lo_LatestJobRuns o = false;
  norm_restarts : lo_Restarts o = "" ∨ lo_Restarts o ∈ RestartValues;
  norm_event_filters : collection ≠ CollectionEvents → lo_ObjectKind o = "" ∧ lo_Reason o = "";
  norm_address : lo_AddressType o = ""
                 ∨ collection = CollectionEndpointSlices ∧ lo_AddressType o ∈ AddressTypes }.

Lemma refuse_Ok {A} b m (k : result error A) x : refuse b m k = Ok x → b = false ∧ k = Ok x.
Proof. by destruct b. Qed.

Lemma some_string_false s : some_string s = false ↔ s = "".
Proof. unfold some_string. by rewrite negb_false_iff, String.eqb_eq. Qed.

Lemma filtered_kinds l :
  Forall (value_ok (Some canonicalWorkloadKinds)) l → l ≠ [] →
  base.filter (λ k, k ∈ l) canonicalWorkloadKinds ≠ [].
Proof.
  intros Hl Hne. destruct l as [|k l]; [done|]. apply Forall_cons in Hl as [(_&_&Hk) _].
  intros E. assert (k ∈ base.filter (λ k', k' ∈ k :: l) canonicalWorkloadKinds) as Hin
    by (apply list_elem_of_filter; split; [by left|done]).
  rewrite E in Hin. by apply not_elem_of_nil in Hin.
Qed.

Lemma canonicalKinds_Ok l k :
  canonicalKinds l = Ok k → k ≠ [] ∧ k `sublist_of` canonicalWorkloadKinds.
Proof.
  destruct l as [|x l]; cbn [canonicalKinds]; [by intros [= <-]|].
  rewrite canonicalStrings_Ok. intros [(_&H1&_) ->]. cbn [canonical_form].
  split; [by apply filtered_kinds|apply sublist_filter].
Qed.

Section normalize_lemmas.
Context `{SelectorSyntax}.

(** Selectors change nothing but the two selector texts. *)
Lemma normalizeSelectors_Ok collection o o' :
  normalizeSelectors collection o = Ok o' →
  ∃ label field, o' = with_selectors o label field
    ∧ ∃ own, field = Join (own ++ derived_selectors collection o) ","
             ∧ (own = [] ∨ ∃ requirements text, own = [text]
                  ∧ fields_ParseSelector (lo_FieldSelector o) = Some (requirements, text)
                  ∧ requirements ⊆ sup_Fields (SelectorSupportFor collection)).
Proof.
  unfold normalizeSelectors. destruct (_ || _); [done|]. destruct (_ || _); [done|].
  destruct (if String.eqb (lo_LabelSelector o) "" then _ else _) as [label|]; [|done].
  destruct (String.eqb_spec (lo_FieldSelector o) "") as [Hf|Hf].
  { intros [= <-]. exists label, (Join (derived_selectors collection o) ",").
    split; [done|]. exists []. split; [done|by left]. }
  destruct (fields_ParseSelector (lo_FieldSelector o)) as [[requirements text]|] eqn:Hp; [|done].
  destruct (forallb _ requirements) eqn:Hall; [|done]. intros [= <-]. do 2 eexists. split; [done|].
  destruct (String.eqb_spec text "") as [->|Ht].
  - exists []. split; [done|by left].
  - exists [text]. split; [done|]. right. exists requirements, text. split_and!; [done|done|].
    intros x Hx. rewrite forallb_forall in Hall. apply contains_elem, Hall. by apply list_elem_of_In.
Qed.

Lemma statuses_sublist rules l s :
  canonicalStrings l (Z.of_nat (length (statuses rules)))
    (match statuses rules with [] => None | l => Some l end) "status" = Ok s →
  s `sublist_of` statuses rules.
Proof.
  rewrite canonicalStrings_Ok. intros [(Hlen&_) ->].
  destruct (statuses rules) as [|x r]; cbn [canonical_form]; [|apply sublist_filter].
  destruct l; [done|cbn in Hlen; lia].
Qed.

Lemma NormalizeListOptions_Ok collection o o' :
  NormalizeListOptions collection o = Ok o' →
  ∃ rules, rules_of collection = Some rules ∧ normalized collection rules o'.
Proof.
  unfold NormalizeListOptions. fold (rules_of collection).
  destruct (rules_of collection) as [rules|]; [|done].
  intros [H1 [H2 [H3 [H4 [H5 Hk]%refuse_Ok]%refuse_Ok]%refuse_Ok]%refuse_Ok]%refuse_Ok.
  destruct (canonicalStrings (lo_Namespaces o) _ _ _) as [ns|] eqn:Hns; [|done].
  destruct (canonicalStrings (lo_Statuses o) _ _ _) as [sts|] eqn:Hst; [|done].
  destruct (if String.eqb collection CollectionWorkloads then _ else _) as [kinds|] eqn:Hkinds; [|done].
  apply refuse_Ok in Hk as [H6 [H7 [H8 [H9 [H10 [H11 [H12 Hk]%refuse_Ok]%refuse_Ok]%refuse_Ok]%refuse_Ok]%refuse_Ok]%refuse_Ok].
  apply normalizeSelectors_Ok in Hk as (label&field&->&_).
  apply canonicalStrings_Ok in Hns as [(Hlen&Hvalid&Hnd) ->]. cbn [canonical_form].
  destruct (sorted_subset (lo_Namespaces o) (lo_Namespaces o)) as (Hp&?&?&_&?); [done|done|done|].
  apply statuses_sublist in Hst.
  exists rules. split; [done|]. unfold with_selectors. split; cbn.
  - by apply Z.ltb_ge in H1.
  - bool_to_prop. unfold MaximumListLimit in *. lia.
  - by apply Z.ltb_ge in H3.
  - bool_to_prop. by split_and!.
  - split_and!; [done..|]. by rewrite Hp.
  - intros Hc. rewrite Hc in H5. cbn in H5. by destruct (lo_Namespaces o).
  - done.
  - destruct (String.eqb collection CollectionWorkloads); [by eapply canonicalKinds_Ok|].
    apply refuse_Ok in Hkinds as [Hz [= <-]]. by destruct (lo_Kinds o).
  - apply negb_false_iff in H6. by apply contains_elem.
  - apply andb_false_iff in H7 as [E|E]; apply negb_false_iff, String.eqb_eq in E; auto.
  - intros Hc. apply String.eqb_neq in Hc. rewrite Hc in H8. cbn in H8.
    rewrite !orb_false_iff, !some_string_false in H8. destruct H8 as ((((?&?)&?)&Hpr)&?).
    split_and!; try done. destruct (lo_Problematic o); [|done]. by rewrite bool_decide_true in Hpr.
  - apply andb_false_iff in H9 as [E|E]; [left; by apply some_string_false|right].
    by apply negb_false_iff, contains_elem in E.
  - intros Hc. apply String.eqb_neq in Hc. rewrite Hc in H10. cbn in H10.
    by rewrite orb_false_iff, !some_string_false in H10.
  - apply andb_false_iff in H12 as [E|E]; [left; by apply some_string_false|right].
    apply negb_false_iff, contains_elem in E. split; [|done].
    apply andb_false_iff in H11 as [E'|E']; [by apply negb_false_iff, String.eqb_eq in E'|].
    apply some_string_false in E'. rewrite E' in E. unfold AddressTypes in E. set_solver.
Qed.

(** ** Errors and the order of repeated parameters *)

Definition fails_validation {A} (r : result error A) : Prop :=
  match r with Ok _ => True | Err e => ErrorCodeOf e = CodeValidationFailed end.

Lemma refuse_validation {A} b m (k : result error A) :
  fails_validation k → fails_validation (refuse b m k).
Proof. by destruct b. Qed.

Lemma canonicalStrings_validation l maximum order field :
  fails_validation (canonicalStrings l maximum order field).
Proof.
  pose proof (canonicalStrings_spec l maximum order field) as Hs.
  destruct (canonicalStrings _ _ _ _); [done|by apply Hs].
Qed.

Lemma canonicalKinds_validation l : fails_validation (canonicalKinds l).
Proof. destruct l; [done|apply canonicalStrings_validation]. Qed.

Lemma normalizeSelectors_validation collection o :
  fails_validation (normalizeSelectors collection o).
Proof. unfold normalizeSelectors. repeat case_match; simplify_eq; done. Qed.

Lemma NormalizeListOptions_validation collection o :
  fails_validation (NormalizeListOptions collection o).
Proof.
  unfold NormalizeListOptions. fold (rules_of collection).
  destruct (rules_of collection) as [rules|]; [|done]. do 5 apply refuse_validation.
  pose proof (canonicalStrings_validation (lo_Namespaces o) MaximumNamespaces None "namespace") as H1.
  destruct (canonicalStrings (lo_Namespaces o) _ _ _); [|done].
  pose proof (canonicalStrings_validation (lo_Statuses o) (Z.of_nat (length (statuses rules)))
    (match statuses rules with [] => None | l => Some l end) "status") as H2.
  destruct (canonicalStrings (lo_Statuses o) _ _ _); [|done].
  destruct (String.eqb collection CollectionWorkloads).
  - pose proof (canonicalKinds_validation (lo_Kinds o)). destruct (canonicalKinds _); [|done].
    do 7 apply refuse_validation. apply normalizeSelectors_validation.
  - destruct (0 <? length (lo_Kinds o))%nat; [done|]. cbn [refuse].
    do 7 apply refuse_validation. apply normalizeSelectors_validation.
Qed.

(** The same request with its repeated parameters in another order. *)
Definition with_lists (o : ListOptions) (namespaces sts kinds : list string) : ListOptions := {|
  lo_Limit := lo_Limit o; lo_Continue := lo_Continue o; lo_Search := lo_Search o;
  lo_SearchQuery := lo_SearchQuery o; lo_Namespaces := namespaces; lo_Statuses := sts;
  lo_Kinds := kinds; lo_Sort := lo_Sort o; lo_Order := lo_Order o;
  lo_Workload := lo_Workload o; lo_Node := lo_Node o; lo_Restarts := lo_Restarts o;
  lo_Problematic := lo_Problematic o; lo_LatestJobRuns := lo_LatestJobRuns o;
  lo_ObjectKind := lo_ObjectKind o; lo_Reason := lo_Reason o;
  lo_AddressType := lo_AddressType o; lo_LabelSelector := lo_LabelSelector o;
  lo_FieldSelector := lo_FieldSelector o; lo_Priority := lo_Priority o |}.

(** Equal values, or both errors. *)
Definition same_answer {A} (r1 r2 : result error A) : Prop :=
  match r1, r2 with Ok a, Ok b => a = b | Err _, Err _ => True | _, _ => False end.

Lemma same_refl {A} (r : result error A) : same_answer r r.
Proof. by destruct r. Qed.

Lemma same_refuse {A} b m (r1 r2 : result error A) :
  same_answer r1 r2 → same_answer (refuse b m r1) (refuse b m r2).
Proof. by destruct b. Qed.

Lemma same_bind {A B} (r1 r2 : result error A) (k : A → result error B) :
  same_answer r1 r2 →
  same_answer (x <-? r1 ;; k x)%kp (x <-? r2 ;; k x)%kp.
Proof. destruct r1, r2; cbn; try done. intros ->. apply same_refl. Qed.

Lemma canonicalKinds_perm l k : l ≡ₚ k → same_answer (canonicalKinds l) (canonicalKinds k).
Proof.
  intros Hp. destruct l as [|x l].
  - apply Permutation_nil_l in Hp as ->. apply same_refl.
  - destruct k as [|y k]; [by apply Permutation_nil_r in Hp|].
    by apply (canonicalStrings_perm (x :: l) (y :: k)).
Qed.

Lemma NormalizeListOptions_perm collection o ns sts kinds :
  lo_Namespaces o ≡ₚ ns → lo_Statuses o ≡ₚ sts → lo_Kinds o ≡ₚ kinds →
  same_answer (NormalizeListOptions collection o)
              (NormalizeListOptions collection (with_lists o ns sts kinds)).
Proof.
  intros Hns Hsts Hkinds. unfold NormalizeListOptions. fold (rules_of collection).
  destruct (rules_of collection) as [rules|]; [|done].
  cbn [with_lists lo_Priority lo_Limit lo_Continue lo_Search lo_Namespaces lo_Statuses lo_Kinds].
  rewrite <- (Permutation_length Hns), <- (Permutation_length Hkinds). do 5 apply same_refuse.
  pose proof (canonicalStrings_perm _ _ MaximumNamespaces None "namespace" Hns) as H1.
  destruct (canonicalStrings (lo_Namespaces o) _ _ _), (canonicalStrings ns _ _ _); try done. subst.
  pose proof (canonicalStrings_perm _ _ (Z.of_nat (length (statuses rules)))
    (match statuses rules with [] => None | l => Some l end) "status" Hsts) as H2.
  destruct (canonicalStrings (lo_Statuses o) _ _ _), (canonicalStrings sts _ _ _); try done. subst.
  destruct (String.eqb collection CollectionWorkloads).
  - apply (same_bind _ _ (λ Kinds, _)). by apply canonicalKinds_perm.
  - destruct (0 <? length (lo_Kinds o))%nat eqn:Hz; [done|]. cbn [refuse].
    destruct (lo_Kinds o); [|done]. apply Permutation_nil_l in Hkinds as ->. apply same_refl.
Qed.

(** A list query is normalised or refused. Whatever the request, the result is either a
    validation error or a query that keeps its contract: limit between 1 and 500, bounded
    cursor and search text with the parsed search, namespaces sorted, distinct, at most
    100 and absent for cluster-scoped collections, statuses, kinds, sort and order taken
    from the collection's own rules, and filters only where the collection has them.
    Repeating the request with its namespaces, statuses and kinds in another order gives
    the same query, so equal requests share their cursor and cache identity. *)
Theorem list_query_normalized collection o ns sts kinds :
  lo_Namespaces o ≡ₚ ns → lo_Statuses o ≡ₚ sts → lo_Kinds o ≡ₚ kinds →
  match NormalizeListOptions collection o with
  | Ok o' => (∃ rules, rules_of collection = Some rules ∧ normalized collection rules o')
             ∧ NormalizeListOptions collection (with_lists o ns sts kinds) = Ok o'
  | Err e => ErrorCodeOf e = CodeValidationFailed
             ∧ ∃ e', NormalizeListOptions collection (with_lists o ns sts kinds) = Err e'
  end.
Proof.
  intros Hns Hsts Hkinds.
  pose proof (NormalizeListOptions_perm collection o ns sts kinds Hns Hsts Hkinds) as Hsame.
  pose proof (NormalizeListOptions_validation collection o) as Hv.
  pose proof (NormalizeListOptions_Ok collection o) as Hok.
  destruct (NormalizeListOptions collection o) as [o'|e],
    (NormalizeListOptions collection (with_lists o ns sts kinds)) as [o''|e']; try done.
  - cbn in Hsame. subst. split; [by apply Hok|done].
  - split; [done|by eexists].
Qed.

End normalize_lemmas.

(** ** Origins of a normalised query *)

Section origin_lemmas.
Context `{SliceSort, !SliceSortOk}.

(** What one collection reads, before the namespaces are filled in. *)
Definition bases (collection : string) (kinds : list string) : list Origin :=
  if String.eqb collection CollectionWorkloads then
    (λ kind, get_or workloadGVR kind zero_origin) <$> kinds
  else
    match ParseDynamicCollection collection with
    | Some r => [gvr (dyn_Group r) (dyn_Version r) (dyn_Resource r)]
    | None => option_list (collectionGVR !! collection)
    end.

Lemma filter_sublist (l k : list string) :
  NoDup k → l `sublist_of` k → base.filter (λ x, x ∈ l) k = l.
Proof.
  intros Hnd Hsub. induction Hsub as [|x l k Hsub IH|x l k Hsub IH]; [done|..];
    apply NoDup_cons in Hnd as [Hx Hnd].
  - rewrite filter_cons_True by (by left). f_equal.
    transitivity (base.filter (λ y, y ∈ l) k); [|by apply IH]. clear -Hx.
    induction k as [|y k IH]; [done|]. rewrite not_elem_of_cons in Hx. destruct Hx as [Hne Hx].
    destruct (decide (y ∈ l)).
    + rewrite !filter_cons_True by (done || by right). f_equal. by apply IH.
    + rewrite !filter_cons_False by (done || set_solver). by apply IH.
  - rewrite filter_cons_False; [by apply IH|]. intros Hxl. apply Hx. by eapply sublist_subseteq.
Qed.

Lemma NoDup_workload_kinds : NoDup canonicalWorkloadKinds.
Proof. apply (bool_decide_unpack _). by vm_compute. Qed.

Lemma workload_kind_ok k : k ∈ canonicalWorkloadKinds → value_ok (Some canonicalWorkloadKinds) k.
Proof.
  intros Hk. split_and!; [| |done]; revert k Hk; apply Forall_forall;
    apply (bool_decide_unpack _); by vm_compute.
Qed.

(** Canonical kinds are their own canonical form. *)
Lemma canonicalKinds_fix kinds :
  kinds ≠ [] → kinds `sublist_of` canonicalWorkloadKinds → canonicalKinds kinds = Ok kinds.
Proof.
  intros Hne Hsub. destruct kinds as [|k l]; [done|]. cbn [canonicalKinds].
  apply canonicalStrings_Ok. cbn [canonical_form].
  rewrite (filter_sublist (k :: l)) by (done || apply NoDup_workload_kinds).
  split; [|done]. split_and!.
  - apply sublist_length in Hsub. lia.
  - apply Forall_forall. intros x Hx. apply workload_kind_ok. by eapply sublist_subseteq.
  - by apply (sublist_NoDup _ canonicalWorkloadKinds); [apply NoDup_workload_kinds|].
Qed.

Lemma workload_resource kind :
  kind ∈ canonicalWorkloadKinds → org_Resource (get_or workloadGVR kind zero_origin) = kind.
Proof. revert kind. apply Forall_forall. apply (bool_decide_unpack _). by vm_compute. Qed.

Lemma NoDup_in_namespaces base ns : NoDup ns → NoDup (in_namespace base <$> ns).
Proof. apply NoDup_fmap_2. by intros ?? [=]. Qed.

Lemma NoDup_workload_origins kinds ns :
  kinds ⊆ canonicalWorkloadKinds → NoDup kinds → NoDup ns →
  NoDup (((λ kind, get_or workloadGVR kind zero_origin) <$> kinds) ≫= λ b, in_namespace b <$> ns).
Proof.
  intros Hsub Hk Hns. induction Hk as [|k kinds Hnotin Hk IH]; [by apply NoDup_nil|].
  rewrite fmap_cons, bind_cons. apply NoDup_app. split_and!.
  - by apply NoDup_in_namespaces.
  - intros o (n&->&_)%list_elem_of_fmap (b&Ho&Hb)%list_elem_of_bind.
    apply list_elem_of_fmap in Hb as (k'&->&Hk'). apply list_elem_of_fmap in Ho as (n'&E&_).
    apply (f_equal org_Resource) in E. cbn in E.
    rewrite !workload_resource in E by (apply Hsub; set_solver). by subst.
  - apply IH. set_solver.
Qed.

Lemma canonicalOrigins_perm l : canonicalOrigins l ≡ₚ l.
Proof. apply sort_Slice_perm. Qed.

Lemma bind_fmap_list {A B C} (f : A → B) (g : B → list C) (l : list A) :
  (f <$> l) ≫= g = l ≫= λ x, g (f x).
Proof. induction l as [|x l IH]; [done|]. rewrite fmap_cons, !bind_cons. by rewrite IH. Qed.

Lemma dynamic_not_workloads : ParseDynamicCollection CollectionWorkloads = None.
Proof. by vm_compute. Qed.

(** The origins of an accepted namespaced collection. *)
Lemma originsFor_bases collection rules o ns :
  rules_of collection = Some rules → normalized collection rules o →
  isClusterScoped collection = false →
  originsFor collection ns (lo_Kinds o)
  = Ok (canonicalOrigins (bases collection (lo_Kinds o) ≫= λ b, in_namespace b <$> ns))
  ∧ bases collection (lo_Kinds o) ≠ [] ∧
  (NoDup ns → NoDup (bases collection (lo_Kinds o) ≫= λ b, in_namespace b <$> ns)).
Proof.
  intros Hrules Hnorm Hcluster. unfold originsFor, bases. pose proof (norm_kinds _ _ _ Hnorm) as Hk.
  destruct (String.eqb_spec collection CollectionWorkloads) as [->|Hw].
  - destruct Hk as [Hne Hsub]. rewrite canonicalKinds_fix by done.
    split_and!; [by rewrite bind_fmap_list|by destruct (lo_Kinds o)|].
    apply NoDup_workload_origins; [by apply sublist_subseteq|].
    by apply (sublist_NoDup _ canonicalWorkloadKinds); [apply NoDup_workload_kinds|].
  - unfold rules_of, isClusterScoped in *.
    destruct (ParseDynamicCollection collection) as [r|].
    + apply negb_false_iff in Hcluster as ->. cbn. rewrite app_nil_r.
      split_and!; [done|done|apply NoDup_in_namespaces].
    + destruct (proj1 (proj1 tables_agree collection)) as [?|[[b Hb]|Hc]]; [by eexists|done| |].
      * rewrite Hb. cbn. rewrite app_nil_r. split_and!; [done|done|apply NoDup_in_namespaces].
      * apply bool_decide_eq_false in Hcluster. done.
Qed.

(** an accepted query reads exactly what its collection names. A normalised query of a
    cluster-scoped collection has its single origin; any other one has, for every resource
    the collection is bound to (the selected workload kinds, the discovered resource, or
    the table's entry) and every namespace of the query, exactly one origin, and no origin
    besides: nothing outside the query's namespaces or the fixed tables is ever listed.
    The cluster-wide variant has the same resources with the empty namespace. *)
Theorem accepted_query_origins `{SelectorSyntax} collection o o' :
  NormalizeListOptions collection o = Ok o' →
  if isClusterScoped collection then
    ∃ origin, ClusterOriginFor collection = Ok origin ∧ org_Namespace origin = ""
  else
    ∃ origins global,
      OriginsFor collection (lo_Namespaces o') (lo_Kinds o') = Ok origins
      ∧ origins ≡ₚ (bases collection (lo_Kinds o') ≫= λ b, in_namespace b <$> lo_Namespaces o')
      ∧ NoDup origins
      ∧ GlobalOriginsFor collection (lo_Kinds o') = Ok global
      ∧ global ≡ₚ ((λ b, in_namespace b "") <$> bases collection (lo_Kinds o')) ∧ global ≠ [].
Proof.
  intros Ho. destruct (NormalizeListOptions_Ok _ _ _ Ho) as (rules&Hrules&Hnorm).
  destruct (isClusterScoped collection) eqn:Hcluster.
  { unfold isClusterScoped, ClusterOriginFor in *.
    destruct (ParseDynamicCollection collection) as [r|].
    - apply negb_true_iff in Hcluster as ->. by eexists.
    - apply bool_decide_eq_true in Hcluster as [origin E]. rewrite E. exists origin. split; [done|].
      by eapply cluster_namespace. }
  destruct (norm_namespaces _ _ _ Hnorm) as (Hsorted&Hnd&Hlen&Hvalid).
  destruct (originsFor_bases _ _ _ (lo_Namespaces o') Hrules Hnorm Hcluster) as (E1&_&N1).
  destruct (originsFor_bases _ _ _ [""] Hrules Hnorm Hcluster) as (E2&Hne&_).
  assert (canonicalStrings (lo_Namespaces o') MaximumNamespaces None "namespace"
          = Ok (lo_Namespaces o')) as Hcan.
  { apply canonicalStrings_Ok. cbn [canonical_form]. split; [done|].
    symmetry. by apply sort_stable_id. }
  exists (canonicalOrigins (bases collection (lo_Kinds o') ≫= λ b, in_namespace b <$> lo_Namespaces o')),
    (canonicalOrigins (bases collection (lo_Kinds o') ≫= λ b, in_namespace b <$> [""])).
  unfold OriginsFor, GlobalOriginsFor. rewrite Hcan, E1, E2.
  assert ((bases collection (lo_Kinds o') ≫= λ b, in_namespace b <$> [""])
          = (λ b, in_namespace b "") <$> bases collection (lo_Kinds o')) as Hglobal.
  { generalize (bases collection (lo_Kinds o')). induction l as [|b l IH]; [done|].
    rewrite bind_cons, fmap_cons, IH. done. }
  split_and!; [done|apply canonicalOrigins_perm|rewrite canonicalOrigins_perm; by apply N1|done
    |by rewrite canonicalOrigins_perm, Hglobal|].
  intros Hnil. pose proof (canonicalOrigins_perm (bases collection (lo_Kinds o') ≫= λ b, in_namespace b <$> [""])) as Hp.
  rewrite Hnil, Hglobal in Hp. apply Permutation_nil_l in Hp. symmetry in Hp. by apply fmap_nil_inv in Hp.
Qed.

End origin_lemmas.

(** ** Witnesses *)

(** A selector syntax with a single field and no label grammar. *)
#[local] Instance demo_syntax : SelectorSyntax := {|
  labels_Parse := Some;
  fields_ParseSelector := λ s, Some (["metadata.name"], s);
  OneTermEqualSelector := λ k v, k +:+ "=" +:+ v |}.

Definition demo_query : ListOptions := {|
  lo_Limit := 0; lo_Continue := ""; lo_Search := "api -test"; lo_SearchQuery := empty_query;
  lo_Namespaces := ["team"; "default"]; lo_Statuses := ["Failed"]; lo_Kinds := ["jobs"; "deployments"];
  lo_Sort := ""; lo_Order := ""; lo_Workload := ""; lo_Node := ""; lo_Restarts := "";
  lo_Problematic := None; lo_LatestJobRuns := false; lo_ObjectKind := ""; lo_Reason := "";
  lo_AddressType := ""; lo_LabelSelector := ""; lo_FieldSelector := ""; lo_Priority := 0 |}.

Definition demo_normalized : ListOptions :=
  match NormalizeListOptions CollectionWorkloads demo_query with Ok o => o | Err _ => demo_query end.

Lemma list_query_normalized_witness :
  lo_Namespaces demo_normalized = ["default"; "team"] ∧ lo_Kinds demo_normalized = ["deployments"; "jobs"]
  ∧ NormalizeListOptions CollectionWorkloads
      (with_lists demo_query ["default"; "team"] ["Failed"] ["deployments"; "jobs"]) = Ok demo_normalized.
Proof.
  split_and!; [by vm_compute|by vm_compute|].
  assert (NormalizeListOptions CollectionWorkloads demo_query = Ok demo_normalized) as E by (by vm_compute).
  pose proof (list_query_normalized CollectionWorkloads demo_query ["default"; "team"] ["Failed"]
    ["deployments"; "jobs"] (Permutation_swap _ _ _) (reflexivity _) (Permutation_swap _ _ _)) as H.
  rewrite E in H. apply H.
Defined.

Lemma accepted_query_origins_witness :
  ∃ origins global,
    @OriginsFor stable_slice_sort CollectionWorkloads ["default"; "team"] ["deployments"; "jobs"] = Ok origins
    ∧ length origins = 4
    ∧ @GlobalOriginsFor stable_slice_sort CollectionWorkloads ["deployments"; "jobs"] = Ok global ∧ global ≠ [].
Proof.
  pose proof (@accepted_query_origins stable_slice_sort stable_slice_sort_ok demo_syntax
    CollectionWorkloads demo_query demo_normalized ltac:(by vm_compute)) as H.
  replace (isClusterScoped CollectionWorkloads) with false in H by (by vm_compute).
  destruct H as (origins&global&H1&H2&_&H3&_&H4). exists origins, global.
  split_and!; [exact H1| |exact H3|exact H4]. apply Permutation_length in H2. rewrite H2. by vm_compute.
Defined.
