(* ===== verification/Access.v ===== *)
(** * Access: authorization keys, errors and the capability allowlist

    Model of src/internal/services/authorization: the public errors (errors.go), key
    validation and review classification (service.go), the capability allowlist
    (allowlist.go) and the expansion of a permissions request into reviews
    (matrix.go). DNS label and subdomain validation is apimachinery's ([DnsNames]);
    the classification of foreign errors is apimachinery's and the standard library's
    ([OperationErrors]). The cache and the guard are in [Authorization]. *)
From Stdlib Require Import Ascii String ZArith Lia.
From stdpp Require Import base gmap strings list.
From S2P Require Import Prelude Json Topics Unicode Cursor Ports Retry Pagination Collect Catalogue.

(** ** Public errors *)

Inductive AuthCode :=
| AuthValidationFailed | AuthForbidden | AuthAuthorizationUnavailable
| AuthAuthenticationUnavailable | AuthClusterUnavailable | AuthUpstreamTimeout
| AuthClientCanceled.

#[export] Instance AuthCode_eq_dec : EqDecision AuthCode.
Proof. solve_decision. Defined.

Record PublicError := { pub_Code : AuthCode; pub_HTTPStatus : Z; pub_Retryable : bool }.

Definition newPublicError (code : AuthCode) (status : Z) (retryable : bool) : PublicError :=
  {| pub_Code := code; pub_HTTPStatus := status; pub_Retryable := retryable |}.
Definition access_validationError : PublicError := newPublicError AuthValidationFailed 400 false.
Definition forbiddenError : PublicError := newPublicError AuthForbidden 403 false.
Definition authorizationUnavailableError : PublicError :=
  newPublicError AuthAuthorizationUnavailable 503 true.

(** What apimachinery, net and crypto/x509 say about a foreign error. [network_error] is
    the timeout flag of a [net.Error], if the chain has one; [dns_error] is a DNS failure
    that is not a timeout. *)
Class OperationErrors (E : Type) := {
  err_canceled : E → bool; err_deadline : E → bool; err_IsTimeout : E → bool;
  err_IsServerTimeout : E → bool; err_IsForbidden : E → bool; err_IsUnauthorized : E → bool;
  err_IsServiceUnavailable : E → bool; err_IsTooManyRequests : E → bool;
  err_IsInternalError : E → bool; certificate_error : E → bool; dns_error : E → bool;
  network_error : E → option bool }.

Definition unavailable : PublicError := newPublicError AuthClusterUnavailable 503 true.
Definition upstream_timeout : PublicError := newPublicError AuthUpstreamTimeout 504 true.

Definition TranslateOperationError `{OperationErrors E} (err : E) : PublicError :=
  if err_canceled err then newPublicError AuthClientCanceled 0 false
  else if err_deadline err || err_IsTimeout err || err_IsServerTimeout err then upstream_timeout
  else if err_IsForbidden err then forbiddenError
  else if err_IsUnauthorized err then newPublicError AuthAuthenticationUnavailable 503 true
  else if err_IsServiceUnavailable err || err_IsTooManyRequests err || err_IsInternalError err
  then unavailable
  else if certificate_error err then unavailable
  else if dns_error err then unavailable
  else match network_error err with
       | Some true => upstream_timeout
       | Some false | None => unavailable
       end.

(** [ReviewFailure]: code and status by reason. *)
Definition review_failure (reason : string) : PublicError :=
  if String.eqb reason ReasonSARTimeout then newPublicError AuthUpstreamTimeout 504 true
  else if String.eqb reason ReasonSARAuthenticationUnavailable
  then newPublicError AuthAuthenticationUnavailable 503 true
  else authorizationUnavailableError.

(** ** Decisions *)

Definition ReasonSARAllowed : string := "SAR_ALLOWED".
Definition ReasonSARDenied : string := "SAR_DENIED".
Definition ReasonOperationUnavailable : string := "OPERATION_UNAVAILABLE".

Definition DefaultTTL : Z := 45 * 1000000000.
Definition MinTTL : Z := 30 * 1000000000.
Definition MaxTTL : Z := 60 * 1000000000.
Definition UnknownTTL : Z := 3 * 1000000000.

Record Capability := {
  cap_CapabilityID : string; cap_Namespace : string; cap_APIGroup : string;
  cap_Resource : string; cap_Subresource : string; cap_Verb : string;
  cap_ResourceName : string; cap_Decision : string; cap_ReasonCode : string;
  cap_ExpiresAt : Z }.

Definition capabilityFor (key : Key) (decision reason : string) (expiresAt : Z) : Capability := {|
  cap_CapabilityID := ""; cap_Namespace := k_Namespace key; cap_APIGroup := k_APIGroup key;
  cap_Resource := k_Resource key; cap_Subresource := k_Subresource key; cap_Verb := k_Verb key;
  cap_ResourceName := k_ResourceName key; cap_Decision := decision; cap_ReasonCode := reason;
  cap_ExpiresAt := expiresAt |}.

Record AccessReviewResult := { rev_Allowed : bool; rev_Denied : bool; rev_Complete : bool }.

Definition classifyReview `{OperationErrors E} (review : AccessReviewResult) (err : option E)
  : string * string :=
  match err with
  | Some e =>
    (DecisionUnknown,
     match pub_Code (TranslateOperationError e) with
     | AuthClientCanceled => ReasonRequestCanceled
     | AuthUpstreamTimeout => ReasonSARTimeout
     | AuthAuthenticationUnavailable => ReasonSARAuthenticationUnavailable
     | AuthForbidden => ReasonSARForbidden
     | _ => ReasonSARUnavailable
     end)
  | None =>
    if negb (rev_Complete review) || Bool.eqb (rev_Allowed review) (rev_Denied review)
    then (DecisionUnknown, ReasonSARIncomplete)
    else if rev_Allowed review then (DecisionAllowed, ReasonSARAllowed)
    else (DecisionDenied, ReasonSARDenied)
  end.

(** ** Keys *)

(** [unicode.IsControl] *)
Definition IsControl (r : N) : bool := (r <=? 31)%N || (127 <=? r)%N && (r <=? 159)%N.

Definition string_runes (s : string) : list N := runes (String.length s) (chars s).

Definition safeOpaque (value : string) (maximum : Z) : bool :=
  if String.eqb value "" || (maximum <? len value)%Z || negb (String.eqb value (TrimSpace value))
  then false
  else forallb (λ r, negb (IsControl r || IsSpace r)) (string_runes value).

Definition ContainsAny (s cutset : string) : bool :=
  existsb (λ c, existsb (Ascii.eqb c) (chars cutset)) (chars s).

Definition ValidName (name : string) : bool :=
  negb (String.eqb name "") && (len name <=? 253)%Z && negb (String.eqb name ".")
  && negb (String.eqb name "..") && negb (ContainsAny name "/%\")
  && negb (existsb (λ r, IsSpace r || IsControl r) (string_runes name)).

(** apimachinery's validation: whether it reports no error. *)
Class DnsNames := { IsDNS1123Label : string → bool; IsDNS1123Subdomain : string → bool }.

Definition maxGenerationLength : Z := 256.

Definition ValidateKey `{DnsNames} (key : Key) : bool :=
  safeOpaque (k_Generation key) maxGenerationLength
  && negb (String.eqb (k_Resource key) "") && negb (String.eqb (k_Verb key) "")
  && (String.eqb (k_Namespace key) "" || IsDNS1123Label (k_Namespace key))
  && (String.eqb (k_APIGroup key) "" || IsDNS1123Subdomain (k_APIGroup key))
  && IsDNS1123Label (k_Resource key)
  && (String.eqb (k_Subresource key) "" || IsDNS1123Label (k_Subresource key))
  && IsDNS1123Label (k_Verb key)
  && (String.eqb (k_ResourceName key) "" || ValidName (k_ResourceName key)).

(** ** The allowlist *)

Inductive CapabilityScope := ScopeCluster | ScopeNamespace.
Inductive ResourceNamePolicy := ResourceNameEmpty | ResourceNameTarget.

#[export] Instance CapabilityScope_eq_dec : EqDecision CapabilityScope.
Proof. solve_decision. Defined.
#[export] Instance ResourceNamePolicy_eq_dec : EqDecision ResourceNamePolicy.
Proof. solve_decision. Defined.

Record CapabilitySpec := {
  spec_ID : string; spec_APIGroup : string; spec_Resource : string; spec_Subresource : string;
  spec_Verb : string; spec_Scope : CapabilityScope; spec_Policy : ResourceNamePolicy }.

Definition spec (i g r s v : string) (sc : CapabilityScope) (p : ResourceNamePolicy)
  : CapabilitySpec :=
  {| spec_ID := i; spec_APIGroup := g; spec_Resource := r; spec_Subresource := s; spec_Verb := v;
     spec_Scope := sc; spec_Policy := p |}.

Definition baseCapabilityAllowlist : list CapabilitySpec := [
  spec "namespaces.list" "" "namespaces" "" "list" ScopeCluster ResourceNameEmpty;
  spec "pods.list" "" "pods" "" "list" ScopeNamespace ResourceNameEmpty;
  spec "pods.get" "" "pods" "" "get" ScopeNamespace ResourceNameTarget;
  spec "pods.watch" "" "pods" "" "watch" ScopeNamespace ResourceNameEmpty;
  spec "pods.logs.get" "" "pods" "log" "get" ScopeNamespace ResourceNameTarget;
  spec "pods.delete" "" "pods" "" "delete" ScopeNamespace ResourceNameTarget;
  spec "pods.exec.create" "" "pods" "exec" "create" ScopeNamespace ResourceNameTarget;
  spec "pods.portforward.create" "" "pods" "portforward" "create" ScopeNamespace ResourceNameTarget;
  spec "events.list" "" "events" "" "list" ScopeNamespace ResourceNameEmpty;
  spec "events.watch" "" "events" "" "watch" ScopeNamespace ResourceNameEmpty;
  spec "deployments.list" "apps" "deployments" "" "list" ScopeNamespace ResourceNameEmpty;
  spec "deployments.get" "apps" "deployments" "" "get" ScopeNamespace ResourceNameTarget;
  spec "deployments.watch" "apps" "deployments" "" "watch" ScopeNamespace ResourceNameEmpty;
  spec "deployments.update" "apps" "deployments" "" "update" ScopeNamespace ResourceNameTarget;
  spec "deployments.restart" "apps" "deployments" "" "patch" ScopeNamespace ResourceNameTarget;
  spec "deployments.scale" "apps" "deployments" "scale" "update" ScopeNamespace ResourceNameTarget;
  spec "deployments.delete" "apps" "deployments" "" "delete" ScopeNamespace ResourceNameTarget;
  spec "statefulsets.list" "apps" "statefulsets" "" "list" ScopeNamespace ResourceNameEmpty;
  spec "statefulsets.get" "apps" "statefulsets" "" "get" ScopeNamespace ResourceNameTarget;
  spec "statefulsets.watch" "apps" "statefulsets" "" "watch" ScopeNamespace ResourceNameEmpty;
  spec "statefulsets.restart" "apps" "statefulsets" "" "patch" ScopeNamespace ResourceNameTarget;
  spec "statefulsets.scale" "apps" "statefulsets" "scale" "update" ScopeNamespace ResourceNameTarget;
  spec "statefulsets.delete" "apps" "statefulsets" "" "delete" ScopeNamespace ResourceNameTarget;
  spec "daemonsets.list" "apps" "daemonsets" "" "list" ScopeNamespace ResourceNameEmpty;
  spec "daemonsets.get" "apps" "daemonsets" "" "get" ScopeNamespace ResourceNameTarget;
  spec "daemonsets.watch" "apps" "daemonsets" "" "watch" ScopeNamespace ResourceNameEmpty;
  spec "daemonsets.restart" "apps" "daemonsets" "" "patch" ScopeNamespace ResourceNameTarget;
  spec "daemonsets.delete" "apps" "daemonsets" "" "delete" ScopeNamespace ResourceNameTarget;
  spec "jobs.list" "batch" "jobs" "" "list" ScopeNamespace ResourceNameEmpty;
  spec "jobs.get" "batch" "jobs" "" "get" ScopeNamespace ResourceNameTarget;
  spec "jobs.watch" "batch" "jobs" "" "watch" ScopeNamespace ResourceNameEmpty;
  spec "jobs.delete" "batch" "jobs" "" "delete" ScopeNamespace ResourceNameTarget;
  spec "cronjobs.list" "batch" "cronjobs" "" "list" ScopeNamespace ResourceNameEmpty;
  spec "cronjobs.get" "batch" "cronjobs" "" "get" ScopeNamespace ResourceNameTarget;
  spec "cronjobs.watch" "batch" "cronjobs" "" "watch" ScopeNamespace ResourceNameEmpty;
  spec "cronjobs.suspend" "batch" "cronjobs" "" "patch" ScopeNamespace ResourceNameTarget;
  spec "cronjobs.runnow" "batch" "jobs" "" "create" ScopeNamespace ResourceNameEmpty;
  spec "cronjobs.delete" "batch" "cronjobs" "" "delete" ScopeNamespace ResourceNameTarget;
  spec "services.list" "" "services" "" "list" ScopeNamespace ResourceNameEmpty;
  spec "services.get" "" "services" "" "get" ScopeNamespace ResourceNameTarget;
  spec "services.watch" "" "services" "" "watch" ScopeNamespace ResourceNameEmpty;
  spec "ingresses.list" "networking.k8s.io" "ingresses" "" "list" ScopeNamespace ResourceNameEmpty;
  spec "ingresses.get" "networking.k8s.io" "ingresses" "" "get" ScopeNamespace ResourceNameTarget;
  spec "ingresses.watch" "networking.k8s.io" "ingresses" "" "watch" ScopeNamespace ResourceNameEmpty;
  spec "endpoint-slices.list" "discovery.k8s.io" "endpointslices" "" "list" ScopeNamespace ResourceNameEmpty;
  spec "endpoint-slices.get" "discovery.k8s.io" "endpointslices" "" "get" ScopeNamespace ResourceNameTarget;
  spec "endpoint-slices.watch" "discovery.k8s.io" "endpointslices" "" "watch" ScopeNamespace ResourceNameEmpty;
  spec "configmaps.list" "" "configmaps" "" "list" ScopeNamespace ResourceNameEmpty;
  spec "configmaps.get" "" "configmaps" "" "get" ScopeNamespace ResourceNameTarget;
  spec "configmaps.watch" "" "configmaps" "" "watch" ScopeNamespace ResourceNameEmpty;
  spec "secrets.list" "" "secrets" "" "list" ScopeNamespace ResourceNameEmpty;
  spec "secrets.get" "" "secrets" "" "get" ScopeNamespace ResourceNameTarget;
  spec "nodes.list" "" "nodes" "" "list" ScopeCluster ResourceNameEmpty;
  spec "nodes.get" "" "nodes" "" "get" ScopeCluster ResourceNameTarget;
  spec "persistentvolumes.list" "" "persistentvolumes" "" "list" ScopeCluster ResourceNameEmpty;
  spec "persistentvolumes.get" "" "persistentvolumes" "" "get" ScopeCluster ResourceNameTarget;
  spec "persistentvolumeclaims.list" "" "persistentvolumeclaims" "" "list" ScopeNamespace ResourceNameEmpty;
  spec "persistentvolumeclaims.get" "" "persistentvolumeclaims" "" "get" ScopeNamespace ResourceNameTarget;
  spec "storageclasses.list" "" "storageclasses" "" "list" ScopeCluster ResourceNameEmpty;
  spec "storageclasses.get" "" "storageclasses" "" "get" ScopeCluster ResourceNameTarget;
  spec "volumeattachments.list" "" "volumeattachments" "" "list" ScopeCluster ResourceNameEmpty;
  spec "volumeattachments.get" "" "volumeattachments" "" "get" ScopeCluster ResourceNameTarget;
  spec "csinodes.list" "" "csinodes" "" "list" ScopeCluster ResourceNameEmpty;
  spec "csinodes.get" "" "csinodes" "" "get" ScopeCluster ResourceNameTarget;
  spec "csidrivers.list" "" "csidrivers" "" "list" ScopeCluster ResourceNameEmpty;
  spec "csidrivers.get" "" "csidrivers" "" "get" ScopeCluster ResourceNameTarget;
  spec "leases.list" "coordination.k8s.io" "leases" "" "list" ScopeNamespace ResourceNameEmpty;
  spec "leases.get" "coordination.k8s.io" "leases" "" "get" ScopeNamespace ResourceNameTarget;
  spec "namespaces.get" "" "namespaces" "" "get" ScopeCluster ResourceNameTarget;
  spec "replicasets.list" "apps" "replicasets" "" "list" ScopeNamespace ResourceNameEmpty;
  spec "replicasets.get" "apps" "replicasets" "" "get" ScopeNamespace ResourceNameTarget;
  spec "replicasets.watch" "apps" "replicasets" "" "watch" ScopeNamespace ResourceNameEmpty;
  spec "replicasets.delete" "apps" "replicasets" "" "delete" ScopeNamespace ResourceNameTarget;
  spec "horizontalpodautoscalers.list" "autoscaling" "horizontalpodautoscalers" "" "list" ScopeNamespace ResourceNameEmpty;
  spec "horizontalpodautoscalers.get" "autoscaling" "horizontalpodautoscalers" "" "get" ScopeNamespace ResourceNameTarget;
  spec "poddisruptionbudgets.list" "policy" "poddisruptionbudgets" "" "list" ScopeNamespace ResourceNameEmpty;
  spec "poddisruptionbudgets.get" "policy" "poddisruptionbudgets" "" "get" ScopeNamespace ResourceNameTarget;
  spec "resourcequotas.list" "" "resourcequotas" "" "list" ScopeNamespace ResourceNameEmpty;
  spec "resourcequotas.get" "" "resourcequotas" "" "get" ScopeNamespace ResourceNameTarget;
  spec "limitranges.list" "" "limitranges" "" "list" ScopeNamespace ResourceNameEmpty;
  spec "limitranges.get" "" "limitranges" "" "get" ScopeNamespace ResourceNameTarget;
  spec "serviceaccounts.list" "" "serviceaccounts" "" "list" ScopeNamespace ResourceNameEmpty;
  spec "serviceaccounts.get" "" "serviceaccounts" "" "get" ScopeNamespace ResourceNameTarget;
  spec "roles.list" "rbac.authorization.k8s.io" "roles" "" "list" ScopeNamespace ResourceNameEmpty;
  spec "roles.get" "rbac.authorization.k8s.io" "roles" "" "get" ScopeNamespace ResourceNameTarget;
  spec "rolebindings.list" "rbac.authorization.k8s.io" "rolebindings" "" "list" ScopeNamespace ResourceNameEmpty;
  spec "rolebindings.get" "rbac.authorization.k8s.io" "rolebindings" "" "get" ScopeNamespace ResourceNameTarget;
  spec "clusterroles.list" "rbac.authorization.k8s.io" "clusterroles" "" "list" ScopeCluster ResourceNameEmpty;
  spec "clusterroles.get" "rbac.authorization.k8s.io" "clusterroles" "" "get" ScopeCluster ResourceNameTarget;
  spec "clusterrolebindings.list" "rbac.authorization.k8s.io" "clusterrolebindings" "" "list" ScopeCluster ResourceNameEmpty;
  spec "clusterrolebindings.get" "rbac.authorization.k8s.io" "clusterrolebindings" "" "get" ScopeCluster ResourceNameTarget;
  spec "customresourcedefinitions.list" "apiextensions.k8s.io" "customresourcedefinitions" "" "list" ScopeCluster ResourceNameEmpty;
  spec "customresourcedefinitions.get" "apiextensions.k8s.io" "customresourcedefinitions" "" "get" ScopeCluster ResourceNameTarget;
  spec "priorityclasses.list" "scheduling.k8s.io" "priorityclasses" "" "list" ScopeCluster ResourceNameEmpty;
  spec "priorityclasses.get" "scheduling.k8s.io" "priorityclasses" "" "get" ScopeCluster ResourceNameTarget;
  spec "runtimeclasses.list" "node.k8s.io" "runtimeclasses" "" "list" ScopeCluster ResourceNameEmpty;
  spec "runtimeclasses.get" "node.k8s.io" "runtimeclasses" "" "get" ScopeCluster ResourceNameTarget;
  spec "mutatingwebhookconfigurations.list" "admissionregistration.k8s.io" "mutatingwebhookconfigurations" "" "list" ScopeCluster ResourceNameEmpty;
  spec "mutatingwebhookconfigurations.get" "admissionregistration.k8s.io" "mutatingwebhookconfigurations" "" "get" ScopeCluster ResourceNameTarget;
  spec "validatingwebhookconfigurations.list" "admissionregistration.k8s.io" "validatingwebhookconfigurations" "" "list" ScopeCluster ResourceNameEmpty;
  spec "validatingwebhookconfigurations.get" "admissionregistration.k8s.io" "validatingwebhookconfigurations" "" "get" ScopeCluster ResourceNameTarget;
  spec "ingressclasses.list" "networking.k8s.io" "ingressclasses" "" "list" ScopeCluster ResourceNameEmpty;
  spec "ingressclasses.get" "networking.k8s.io" "ingressclasses" "" "get" ScopeCluster ResourceNameTarget;
  spec "networkpolicies.list" "networking.k8s.io" "networkpolicies" "" "list" ScopeNamespace ResourceNameEmpty;
  spec "networkpolicies.get" "networking.k8s.io" "networkpolicies" "" "get" ScopeNamespace ResourceNameTarget;
  spec "endpoints.list" "" "endpoints" "" "list" ScopeNamespace ResourceNameEmpty;
  spec "endpoints.get" "" "endpoints" "" "get" ScopeNamespace ResourceNameTarget;
  spec "metrics.pods.list" "metrics.k8s.io" "pods" "" "list" ScopeNamespace ResourceNameEmpty].

Definition UpdateCapability (r : Resource) : string := "yaml." +:+ res_Collection r +:+ ".update".

Definition update_spec (r : Resource) : CapabilitySpec :=
  spec (UpdateCapability r) (res_Group r) (res_Resource r) "" "update"
    (if res_Namespaced r then ScopeNamespace else ScopeCluster) ResourceNameTarget.

Definition capabilityAllowlist : list CapabilitySpec :=
  baseCapabilityAllowlist ++ (update_spec <$> resources).

(** A later entry of the list replaces an earlier one with the same ID. *)
Definition LookupCapability (id : string) : option CapabilitySpec :=
  last (base.filter (λ s, spec_ID s = id) capabilityAllowlist).

Section expansion.
Context `{DnsNames}.

Definition KeyForCapability (generation namespace id resourceName : string)
  : result PublicError Key :=
  match LookupCapability id with
  | None => Err access_validationError
  | Some s =>
    if match spec_Scope s with
       | ScopeCluster => negb (String.eqb namespace "")
       | ScopeNamespace => String.eqb namespace ""
       end
    then Err access_validationError
    else if bool_decide (spec_Policy s = ResourceNameEmpty) && negb (String.eqb resourceName "")
    then Err access_validationError
    else
      let key := {| k_Generation := generation; k_Namespace := namespace;
                    k_APIGroup := spec_APIGroup s; k_Resource := spec_Resource s;
                    k_Subresource := spec_Subresource s; k_Verb := spec_Verb s;
                    k_ResourceName := resourceName |} in
      if ValidateKey key then Ok key else Err access_validationError
  end.

(** ** Permission requests *)

Definition maxQueryNamespaces : nat := 20.
Definition maxQueryCapabilities : nat := 100.
Definition maxQueryResourceNames : nat := 20.
Definition maxExpandedDecisions : nat := 100.

Record PermissionsRequest := {
  perm_Generation : string; perm_ActiveNamespaces : list string; perm_Namespaces : list string;
  perm_CapabilityIDs : list string; perm_ResourceNames : list string; perm_Refresh : bool }.

Record ExpandedCapability := { exp_CapabilityID : string; exp_Key : Key }.

(** [active = None] is the nil map: any namespace is accepted. *)
Fixpoint validateUniqueNamespaces (seen : list string) (active : option (list string))
    (namespaces : list string) : bool :=
  match namespaces with
  | [] => true
  | n :: rest =>
    IsDNS1123Label n && negb (bool_decide (n ∈ seen))
    && match active with Some l => bool_decide (n ∈ l) | None => true end
    && validateUniqueNamespaces (n :: seen) active rest
  end.

Fixpoint validateResourceNames (seen names : list string) : bool :=
  match names with
  | [] => true
  | n :: rest => ValidName n && negb (bool_decide (n ∈ seen)) && validateResourceNames (n :: seen) rest
  end.

Fixpoint select_specs (seen ids : list string) : option (list CapabilitySpec) :=
  match ids with
  | [] => Some []
  | id :: rest =>
    if decide (id ∈ seen) then None
    else s ← LookupCapability id; others ← select_specs (id :: seen) rest; Some (s :: others)
  end.
Definition selectedSpecifications (ids : list string) : option (list CapabilitySpec) :=
  match ids with [] => Some capabilityAllowlist | _ => select_specs [] ids end.

(** The namespace and resource-name pairs one specification is expanded over; [None] when a
    namespaced capability has no namespace. *)
Definition targets (namespaces names : list string) (s : CapabilitySpec)
  : option (list (string * string)) :=
  let names := if bool_decide (spec_Policy s = ResourceNameTarget)
               then match names with [] => [""] | _ => names end else [""] in
  match spec_Scope s with
  | ScopeCluster => Some ((λ name, ("", name)) <$> names)
  | ScopeNamespace =>
    match namespaces with
    | [] => None
    | _ => Some (namespaces ≫= λ n, (λ name, (n, name)) <$> names)
    end
  end.

(** The [appendDecision] calls of one specification. *)
Fixpoint append_decisions (generation id : string) (expanded : list ExpandedCapability)
    (ts : list (string * string)) : result PublicError (list ExpandedCapability) :=
  match ts with
  | [] => Ok expanded
  | (namespace, name) :: rest =>
    if (length expanded =? maxExpandedDecisions)%nat then Err access_validationError
    else
      match KeyForCapability generation namespace id name with
      | Err e => Err e
      | Ok key =>
        append_decisions generation id (expanded ++ [{| exp_CapabilityID := id; exp_Key := key |}]) rest
      end
  end.

Fixpoint expand_specs (generation : string) (namespaces names : list string)
    (expanded : list ExpandedCapability) (specs : list CapabilitySpec)
  : result PublicError (list ExpandedCapability) :=
  match specs with
  | [] => Ok expanded
  | s :: rest =>
    match targets namespaces names s with
    | None => Err access_validationError
    | Some ts =>
      match append_decisions generation (spec_ID s) expanded ts with
      | Err e => Err e
      | Ok expanded => expand_specs generation namespaces names expanded rest
      end
    end
  end.

Definition ExpandPermissions (r : PermissionsRequest)
  : result PublicError (list ExpandedCapability * bool) :=
  if negb (safeOpaque (perm_Generation r) maxGenerationLength)
     || (maxQueryNamespaces <? length (perm_Namespaces r))%nat
     || (maxQueryCapabilities <? length (perm_CapabilityIDs r))%nat
     || (maxQueryResourceNames <? length (perm_ResourceNames r))%nat
  then Err access_validationError
  else if negb (validateUniqueNamespaces [] None (perm_ActiveNamespaces r))
  then Err access_validationError
  else
    let '(namespaces, truncated) :=
      match perm_Namespaces r with
      | [] => (take maxQueryNamespaces (perm_ActiveNamespaces r),
               (maxQueryNamespaces <? length (perm_ActiveNamespaces r))%nat)
      | l => (l, false)
      end in
    if negb (validateUniqueNamespaces [] (Some (perm_ActiveNamespaces r)) namespaces)
    then Err access_validationError
    else if negb (validateResourceNames [] (perm_ResourceNames r)) then Err access_validationError
    else
      match selectedSpecifications (perm_CapabilityIDs r) with
      | None => Err access_validationError
      | Some specs =>
        let hasTarget := existsb (λ s, bool_decide (spec_Policy s = ResourceNameTarget)) specs in
        if negb (length (perm_ResourceNames r) =? 0)%nat && negb hasTarget
        then Err access_validationError
        else
          match expand_specs (perm_Generation r) namespaces (perm_ResourceNames r) [] specs with
          | Err e => Err e
          | Ok expanded =>
            if (length expanded =? 0)%nat then Err access_validationError
            else Ok (expanded, truncated)
          end
      end.

End expansion.

(** ** Lemmas *)

Lemma allowlist_ids_distinct : NoDup (spec_ID <$> capabilityAllowlist).
Proof. apply (bool_decide_unpack _). by vm_compute. Qed.

Lemma NoDup_fmap_inj {A B} (f : A → B) l x y :
  NoDup (f <$> l) → x ∈ l → y ∈ l → f x = f y → x = y.
Proof.
  induction l as [|z l IH]; [by intros _ ?%not_elem_of_nil|].
  rewrite fmap_cons. intros [Hz Hnd]%NoDup_cons [->|Hx]%elem_of_cons [->|Hy]%elem_of_cons Hf; try done.
  - destruct Hz. rewrite Hf. by apply list_elem_of_fmap_2.
  - destruct Hz. rewrite <- Hf. by apply list_elem_of_fmap_2.
  - by apply IH.
Qed.

Lemma LookupCapability_Some id s :
  LookupCapability id = Some s → s ∈ capabilityAllowlist ∧ spec_ID s = id.
Proof. intros H%last_Some_elem_of. apply list_elem_of_filter in H. naive_solver. Qed.

Section expansion_lemmas.
Context `{DnsNames}.

(** A key as the allowlist and the request determine it. *)
Definition key_of (generation namespace name : string) (s : CapabilitySpec) : Key :=
  {| k_Generation := generation; k_Namespace := namespace; k_APIGroup := spec_APIGroup s;
     k_Resource := spec_Resource s; k_Subresource := spec_Subresource s; k_Verb := spec_Verb s;
     k_ResourceName := name |}.

Lemma KeyForCapability_Ok generation namespace id name key :
  KeyForCapability generation namespace id name = Ok key →
  ∃ s, s ∈ capabilityAllowlist ∧ spec_ID s = id ∧ key = key_of generation namespace name s
    ∧ ValidateKey key = true
    ∧ (spec_Scope s = ScopeCluster ↔ namespace = "")
    ∧ (name ≠ "" → spec_Policy s = ResourceNameTarget).
Proof.
  unfold KeyForCapability. destruct (LookupCapability id) as [s|] eqn:Hs; [|done].
  apply LookupCapability_Some in Hs as [Hin <-]. intros Hk. exists s.
  destruct (match spec_Scope s with ScopeCluster => _ | ScopeNamespace => _ end) eqn:Hscope; [done|].
  destruct (bool_decide (spec_Policy s = ResourceNameEmpty) && _) eqn:Hpolicy; [done|].
  fold (key_of generation namespace name s) in Hk.
  destruct (ValidateKey (key_of generation namespace name s)) eqn:Hv; [|done]. simplify_eq.
  split_and!; try done.
  - destruct (spec_Scope s); bool_to_prop; naive_solver.
  - intros Hn. apply andb_false_iff in Hpolicy as [E|E].
    + apply bool_decide_eq_false in E. by destruct (spec_Policy s).
    + apply negb_false_iff, String.eqb_eq in E. done.
Qed.

(** What the expansion of one request may contain. *)
Definition decision_ok (generation : string) (namespaces names : list string)
    (e : ExpandedCapability) : Prop :=
  ∃ s namespace name, s ∈ capabilityAllowlist ∧ spec_ID s = exp_CapabilityID e
    ∧ exp_Key e = key_of generation namespace name s ∧ ValidateKey (exp_Key e) = true
    ∧ match spec_Scope s with ScopeCluster => namespace = "" | ScopeNamespace => namespace ∈ namespaces end
    ∧ (name = "" ∨ spec_Policy s = ResourceNameTarget ∧ name ∈ names).

Lemma targets_ok namespaces names s ts :
  targets namespaces names s = Some ts →
  (0 < length ts)%nat ∧ ∀ namespace name, (namespace, name) ∈ ts →
    match spec_Scope s with ScopeCluster => namespace = "" | ScopeNamespace => namespace ∈ namespaces end
    ∧ (name = "" ∨ spec_Policy s = ResourceNameTarget ∧ name ∈ names).
Proof.
  unfold targets.
  set (ns := if bool_decide (spec_Policy s = ResourceNameTarget) then _ else _).
  assert (0 < length ns)%nat as Hlen by (unfold ns; case_bool_decide; [destruct names|]; cbn; lia).
  assert (∀ name, name ∈ ns → name = "" ∨ spec_Policy s = ResourceNameTarget ∧ name ∈ names) as Hns.
  { intros name. unfold ns. case_bool_decide; [destruct names|]; set_solver. }
  destruct (spec_Scope s).
  - intros [= <-]. rewrite length_fmap. split; [done|].
    intros namespace name (x&[= -> ->]&Hx)%list_elem_of_fmap. auto.
  - destruct namespaces as [|n rest]; [done|]. intros <-%(inj Some). split.
    + rewrite bind_cons, length_app, length_fmap. lia.
    + intros namespace name (n'&Hx&Hn')%list_elem_of_bind.
      apply list_elem_of_fmap in Hx as (x&[= -> ->]&Hx). auto.
Qed.

Lemma append_decisions_Ok generation id expanded ts out :
  append_decisions generation id expanded ts = Ok out →
  (length expanded ≤ maxExpandedDecisions)%nat →
  length out = (length expanded + length ts)%nat ∧ (length out ≤ maxExpandedDecisions)%nat
  ∧ ∀ e, e ∈ out → e ∈ expanded ∨ ∃ namespace name, (namespace, name) ∈ ts
      ∧ exp_CapabilityID e = id ∧ KeyForCapability generation namespace id name = Ok (exp_Key e).
Proof.
  revert expanded. induction ts as [|[namespace name] ts IH]; intros expanded; cbn [append_decisions].
  { intros [= <-] Hlen. split_and!; [cbn; lia|done|]. auto. }
  destruct (Nat.eqb_spec (length expanded) maxExpandedDecisions); [done|].
  destruct (KeyForCapability generation namespace id name) as [key|] eqn:Hkey; [|done].
  intros Hout Hlen. apply IH in Hout as (E1&E2&E3); [|rewrite length_app; cbn; lia].
  rewrite length_app in E1. cbn [length] in E1 |- *. split_and!; [lia|done|].
  intros e [He|(n'&m'&Hin&Hid&Hk)]%E3.
  - apply elem_of_app in He as [He| ->%list_elem_of_singleton]; [by left|].
    right. exists namespace, name. split_and!; [by left|done|done].
  - right. exists n', m'. split_and!; [by right|done|done].
Qed.

Lemma expand_specs_Ok generation namespaces names expanded specs out :
  expand_specs generation namespaces names expanded specs = Ok out →
  (length expanded ≤ maxExpandedDecisions)%nat →
  Forall (λ s, s ∈ capabilityAllowlist) specs →
  Forall (decision_ok generation namespaces names) expanded →
  (length expanded + length specs ≤ length out)%nat ∧ (length out ≤ maxExpandedDecisions)%nat
  ∧ Forall (decision_ok generation namespaces names) out.
Proof.
  revert expanded. induction specs as [|s specs IH]; intros expanded; cbn [expand_specs].
  { intros [= <-] ???. cbn. split_and!; [lia|done|done]. }
  destruct (targets namespaces names s) as [ts|] eqn:Hts; [|done].
  destruct (append_decisions generation (spec_ID s) expanded ts) as [mid|] eqn:Hmid; [|done].
  intros Hout Hlen [Hs Hspecs]%Forall_cons Hexp.
  apply targets_ok in Hts as [Hpos Hts]. apply append_decisions_Ok in Hmid as (L1&L2&Hmid); [|done].
  apply IH in Hout as (L3&L4&Hall); [cbn; split_and!; [lia|done|done]|done|done|].
  apply Forall_forall. intros e [He|(namespace&name&Hin&Hid&Hk)]%Hmid.
  { rewrite Forall_forall in Hexp. by apply Hexp. }
  apply KeyForCapability_Ok in Hk as (s'&Hs'&Eid&Ek&Hv&_&_).
  assert (s' = s) as ->.
  { by apply (NoDup_fmap_inj spec_ID capabilityAllowlist); [apply allowlist_ids_distinct|..]. }
  destruct (Hts _ _ Hin) as [Hscope Hname].
  exists s, namespace, name. by split_and!.
Qed.

Lemma select_specs_allowlist seen ids specs :
  select_specs seen ids = Some specs → Forall (λ s, s ∈ capabilityAllowlist) specs.
Proof.
  revert seen specs. induction ids as [|id ids IH]; intros seen specs; cbn [select_specs].
  { intros [= <-]. by apply Forall_nil. }
  case_decide; [done|]. intros (s&Hs%LookupCapability_Some&(others&Ho&[= <-])%bind_Some)%bind_Some.
  apply Forall_cons. split; [naive_solver|by eapply IH].
Qed.

Lemma selected_allowlist ids specs :
  selectedSpecifications ids = Some specs → Forall (λ s, s ∈ capabilityAllowlist) specs.
Proof.
  destruct ids as [|id ids]; [|apply select_specs_allowlist].
  intros [= <-]. by apply Forall_forall.
Qed.

Lemma unique_namespaces_spec seen active l :
  validateUniqueNamespaces seen active l = true →
  Forall (λ n, IsDNS1123Label n = true ∧ (n ∉ seen)
               ∧ match active with Some a => n ∈ a | None => True end) l ∧ NoDup l.
Proof.
  revert seen. induction l as [|n l IH]; intros seen; cbn [validateUniqueNamespaces].
  { split; [by apply Forall_nil|by apply NoDup_nil]. }
  rewrite !andb_true_iff, negb_true_iff. intros [[[H1 H2] H3] [H4 H5]%IH].
  apply bool_decide_eq_false in H2. rewrite Forall_cons, NoDup_cons. rewrite Forall_forall in H4.
  split_and!; try done.
  - destruct active; [by apply bool_decide_eq_true in H3|done].
  - apply Forall_forall. intros x Hx. destruct (H4 x Hx) as (?&?&?). set_solver.
  - intros Hn. destruct (H4 n Hn) as (_&Hs&_). set_solver.
Qed.

Lemma ExpandPermissions_Ok r expanded truncated :
  ExpandPermissions r = Ok (expanded, truncated) →
  ∃ namespaces specs,
    selectedSpecifications (perm_CapabilityIDs r) = Some specs
    ∧ (length specs ≤ length expanded)%nat ∧ (1 ≤ length expanded ≤ 100)%nat
    ∧ namespaces ⊆ perm_ActiveNamespaces r ∧ (length namespaces ≤ 20)%nat
    ∧ Forall (decision_ok (perm_Generation r) namespaces (perm_ResourceNames r)) expanded
    ∧ (truncated = true ↔ perm_Namespaces r = [] ∧ (20 < length (perm_ActiveNamespaces r))%nat).
Proof.
  unfold ExpandPermissions. destruct (negb _ || _ || _ || _) eqn:Hguard; [done|].
  rewrite !orb_false_iff, !Nat.ltb_ge in Hguard. destruct Hguard as [[[_ Hn] _] _].
  destruct (negb (validateUniqueNamespaces [] None _)); [done|].
  set (choice := match perm_Namespaces r with [] => _ | l => (l, false) end).
  assert ((length choice.1 ≤ 20)%nat ∧ (choice.2 = true ↔ perm_Namespaces r = []
            ∧ (20 < length (perm_ActiveNamespaces r))%nat)) as [Hlen Htr].
  { unfold choice. destruct (perm_Namespaces r) eqn:E; cbn [fst snd].
    - rewrite length_take, Nat.ltb_lt. split; [unfold maxQueryNamespaces; lia|naive_solver].
    - split; [by unfold maxQueryNamespaces in Hn|naive_solver]. }
  destruct choice as [namespaces tr]. cbn [fst snd] in Hlen, Htr.
  destruct (validateUniqueNamespaces [] (Some _) namespaces) eqn:Hu; [|done].
  apply unique_namespaces_spec in Hu as [Hu _]. cbn [negb].
  destruct (negb (validateResourceNames _ _)); [done|].
  destruct (selectedSpecifications _) as [specs|] eqn:Hspecs; [|done].
  destruct (_ && negb _); [done|].
  destruct (expand_specs _ _ _ _ _) as [out|] eqn:Hout; [|done].
  apply expand_specs_Ok in Hout as (L1&L2&Hall);
    [|unfold maxExpandedDecisions; cbn; lia|by eapply selected_allowlist|by apply Forall_nil].
  destruct (Nat.eqb_spec (length out) 0); [done|]. intros [= <- <-]. exists namespaces, specs.
  unfold maxExpandedDecisions in L2. cbn in L1. split_and!; try done; try lia.
  intros x Hx. rewrite Forall_forall in Hu. by destruct (Hu x Hx) as (_&_&?).
Qed.

(** C29: a permissions request can only ask about allowlisted operations in the active
    scope. When the expansion succeeds it holds between 1 and 100 decisions; each one
    is an entry of the allowlist with that entry's group, resource, subresource and verb,
    the request's generation, no namespace for a cluster capability and one of the first
    20 (or requested) active namespaces otherwise, a resource name only where the entry
    allows one and only a requested one; and every key passed validation. *)
Theorem permissions_expansion_sound r expanded truncated :
  ExpandPermissions r = Ok (expanded, truncated) →
  (1 ≤ length expanded ≤ 100)%nat
  ∧ (truncated = true ↔ perm_Namespaces r = [] ∧ (20 < length (perm_ActiveNamespaces r))%nat)
  ∧ ∃ namespaces, namespaces ⊆ perm_ActiveNamespaces r ∧ (length namespaces ≤ 20)%nat
      ∧ Forall (decision_ok (perm_Generation r) namespaces (perm_ResourceNames r)) expanded.
Proof.
  intros (namespaces&specs&_&_&?&?&?&?&?)%ExpandPermissions_Ok.
  split_and!; [lia|lia|done|]. by exists namespaces.
Qed.

Lemma ExpandPermissions_Err r e : ExpandPermissions r = Err e → e = access_validationError.
Proof.
  assert (∀ g n i m e, KeyForCapability g n i m = Err e → e = access_validationError) as Hkey.
  { intros g n i m e'. unfold KeyForCapability. destruct (LookupCapability i); [|naive_solver].
    repeat case_match; naive_solver. }
  assert (∀ g i ts l e, append_decisions g i l ts = Err e → e = access_validationError) as Happ.
  { intros g i ts. induction ts as [|[n m] ts IH]; intros l e'; cbn [append_decisions]; [done|].
    case_match; [naive_solver|]. destruct (KeyForCapability g n i m) eqn:E; [apply IH|].
    intros [= <-]. by eapply Hkey. }
  assert (∀ g ns names specs l e, expand_specs g ns names l specs = Err e → e = access_validationError)
    as Hexp.
  { intros g ns names specs. induction specs as [|s specs IH]; intros l e'; cbn [expand_specs]; [done|].
    destruct (targets ns names s); [|naive_solver].
    destruct (append_decisions g (spec_ID s) l _) eqn:E; [apply IH|]. intros [= <-]. by eapply Happ. }
  unfold ExpandPermissions. destruct (negb _ || _ || _ || _); [naive_solver|].
  destruct (negb (validateUniqueNamespaces _ _ _)); [naive_solver|].
  destruct (match perm_Namespaces r with [] => _ | _ => _ end) as [namespaces tr].
  destruct (negb (validateUniqueNamespaces _ _ _)); [naive_solver|].
  destruct (negb (validateResourceNames _ _)); [naive_solver|].
  destruct (selectedSpecifications _); [|naive_solver]. destruct (_ && negb _); [naive_solver|].
  destruct (expand_specs _ _ _ _ _) eqn:E; [case_match; naive_solver|].
  intros [= <-]. by eapply Hexp.
Qed.

(** A permissions request that names no capability is always refused. The default is
    the whole allowlist, which has more entries than the 100 decisions a request may
    expand to, so the request fails validation whatever its other parameters are. *)
Theorem default_capabilities_refused r :
  perm_CapabilityIDs r = [] → ExpandPermissions r = Err access_validationError.
Proof.
  intros Hids. destruct (ExpandPermissions r) as [[expanded truncated]|e] eqn:E.
  - apply ExpandPermissions_Ok in E as (namespaces&specs&Hs&L1&L2&_).
    rewrite Hids in Hs. change (Some capabilityAllowlist = Some specs) in Hs.
    apply (inj Some) in Hs. rewrite <- Hs in L1.
    assert (length capabilityAllowlist = 156%nat) as Hlen by (by vm_compute). lia.
  - f_equal. by eapply ExpandPermissions_Err.
Qed.

End expansion_lemmas.

(** ** The capability matrix *)

Record PartialError := { part_Namespace : string; part_Code : AuthCode }.

Record CapabilityMatrix := {
  mat_Generation : string; mat_Decisions : list Capability; mat_Complete : bool;
  mat_Truncated : bool; mat_Errors : list PartialError }.

Definition with_id (c : Capability) (id : string) : Capability := {|
  cap_CapabilityID := id; cap_Namespace := cap_Namespace c; cap_APIGroup := cap_APIGroup c;
  cap_Resource := cap_Resource c; cap_Subresource := cap_Subresource c; cap_Verb := cap_Verb c;
  cap_ResourceName := cap_ResourceName c; cap_Decision := cap_Decision c;
  cap_ReasonCode := cap_ReasonCode c; cap_ExpiresAt := cap_ExpiresAt c |}.

Definition cap_unknown (c : Capability) : bool := String.eqb (cap_Decision c) DecisionUnknown.

Section matrix.
Context `{DnsNames} {S : Type}.
(** The service's [Check] ([bypass = false]) and [Refresh] ([bypass = true]). *)
Variable check : bool → Key → S → Capability * S.

Fixpoint matrix_decisions (refresh : bool) (items : list ExpandedCapability) (s : S)
  : list Capability * S :=
  match items with
  | [] => ([], s)
  | item :: rest =>
    let '(c, s) := check refresh (exp_Key item) s in
    let '(cs, s) := matrix_decisions refresh rest s in
    (with_id c (exp_CapabilityID item) :: cs, s)
  end.

Definition matrix_error (c : Capability) : PartialError :=
  {| part_Namespace := cap_Namespace c; part_Code := pub_Code (review_failure (cap_ReasonCode c)) |}.

Definition Matrix (r : PermissionsRequest) (s : S) : (CapabilityMatrix * option PublicError) * S :=
  match ExpandPermissions r with
  | Err e => (({| mat_Generation := perm_Generation r; mat_Decisions := []; mat_Complete := false;
                  mat_Truncated := false; mat_Errors := [] |}, Some e), s)
  | Ok (expanded, truncated) =>
    let '(decisions, s) := matrix_decisions (perm_Refresh r) expanded s in
    let unknown := base.filter (λ c, cap_unknown c = true) decisions in
    let known := length (base.filter (λ c, cap_unknown c = false) decisions) in
    let matrix := {| mat_Generation := perm_Generation r; mat_Decisions := decisions;
                     mat_Complete := (length unknown =? 0)%nat; mat_Truncated := truncated;
                     mat_Errors := matrix_error <$> unknown |} in
    let err := if (known =? 0)%nat
               then Some (match decisions with
                          | c :: _ => review_failure (cap_ReasonCode c)
                          | [] => authorizationUnavailableError
                          end)
               else None in
    ((matrix, err), s)
  end.

End matrix.

(** ** Witnesses *)

#[export] Instance demo_dns : DnsNames :=
  {| IsDNS1123Label := dynamicSegment; IsDNS1123Subdomain := dynamicGroup |}.

Definition demo_request : PermissionsRequest := {|
  perm_Generation := "gen_1"; perm_ActiveNamespaces := ["default"; "payments"];
  perm_Namespaces := []; perm_CapabilityIDs := ["pods.get"; "nodes.list"];
  perm_ResourceNames := ["api"]; perm_Refresh := false |}.

Definition demo_expansion : list ExpandedCapability :=
  match ExpandPermissions demo_request with Ok (l, _) => l | Err _ => [] end.

Lemma permissions_expansion_sound_witness :
  length demo_expansion = 3%nat
  ∧ ∃ namespaces, namespaces ⊆ perm_ActiveNamespaces demo_request ∧ (length namespaces ≤ 20)%nat
      ∧ Forall (decision_ok "gen_1" namespaces ["api"]) demo_expansion.
Proof.
  split; [by vm_compute|].
  apply (permissions_expansion_sound demo_request demo_expansion false). by vm_compute.
Defined.

Lemma default_capabilities_refused_witness :
  ExpandPermissions {| perm_Generation := "gen_1"; perm_ActiveNamespaces := ["default"];
                       perm_Namespaces := []; perm_CapabilityIDs := []; perm_ResourceNames := [];
                       perm_Refresh := false |} = Err access_validationError.
Proof. by apply default_capabilities_refused. Defined.
