(* ===== verification/Authorization.v ===== *)
(** * Authorization: the review cache and the operation guard

    Model of the stateful part of src/internal/services/authorization/service.go: the
    cache of access reviews, the deduplication of concurrent reviews, the revisions that
    fence reviews started before an invalidation, and [Guard], which runs a Kubernetes
    operation after revalidating it. [Check], [Refresh] and [Guard] run in many goroutines,
    so the system is a step function over the service and the program counter of every
    goroutine; each stretch of code between Lock and Unlock is one function. The answers of
    the reviewer and of the operation, the clock and the state of the request context
    come with the actions. Observability calls are left out. *)
From Stdlib Require Import Ascii String ZArith Lia.
From stdpp Require Import base gmap strings list.
From S2P Require Import Prelude Json Topics Unicode Cursor Ports Retry Pagination Collect Catalogue Access.

#[export] Instance Key_countable : Countable Key.
Proof.
  refine (inj_countable'
    (λ k, (k_Generation k, k_Namespace k, k_APIGroup k, k_Resource k, k_Subresource k, k_Verb k,
           k_ResourceName k))
    (λ '(g, n, a, r, s, v, m), {| k_Generation := g; k_Namespace := n; k_APIGroup := a;
       k_Resource := r; k_Subresource := s; k_Verb := v; k_ResourceName := m |}) _).
  by intros [].
Defined.

#[export] Instance Key_inhabited : Inhabited Key :=
  populate {| k_Generation := EmptyString; k_Namespace := EmptyString; k_APIGroup := EmptyString;
    k_Resource := EmptyString; k_Subresource := EmptyString; k_Verb := EmptyString;
    k_ResourceName := EmptyString |}.

(** ** State *)

(** [revisionStamp]: global, generation and key revision. *)
Definition revisionStamp : Type := Z * Z * Z.

(** [calls] holds the [reviewCall] objects by address: [None] until [done] is closed. *)
Record Service := {
  ttl : Z;
  cache : gmap Key Capability;
  inflight : gmap (Key * revisionStamp) nat;
  calls : gmap nat (option Capability);
  globalRevision : Z;
  generationRevisions : gmap string Z;
  keyRevisions : gmap Key Z }.

Definition New (requested : Z) : option Service :=
  let t := if (requested =? 0)%Z then DefaultTTL else requested in
  if (t <? MinTTL)%Z || (MaxTTL <? t)%Z then None
  else Some {| ttl := t; cache := ∅; inflight := ∅; calls := ∅; globalRevision := 0;
               generationRevisions := ∅; keyRevisions := ∅ |}.

Definition revisionLocked (s : Service) (key : Key) : revisionStamp :=
  (globalRevision s, get_or (generationRevisions s) (k_Generation key) 0%Z,
   get_or (keyRevisions s) key 0%Z).

Definition with_flights (s : Service) (c : gmap Key Capability) (i : gmap (Key * revisionStamp) nat)
    (cs : gmap nat (option Capability)) : Service :=
  {| ttl := ttl s; cache := c; inflight := i; calls := cs; globalRevision := globalRevision s;
     generationRevisions := generationRevisions s; keyRevisions := keyRevisions s |}.

(** ** The critical sections of [check] *)

Inductive entered :=
| Hit (c : Capability)                       (* a cached decision is returned *)
| Join (call : nat)                          (* wait for a running review *)
| Start (call : nat) (revision : revisionStamp). (* perform a review *)

Definition check_enter (s : Service) (now : Z) (key : Key) (bypass : bool) : entered * Service :=
  let hit := if bypass then None
             else match cache s !! key with
                  | Some c => if (now <? cap_ExpiresAt c)%Z then Some c else None
                  | None => None
                  end in
  match hit with
  | Some c => (Hit c, s)
  | None =>
    let s := with_flights s (delete key (cache s)) (inflight s) (calls s) in
    let revision := revisionLocked s key in
    match inflight s !! (key, revision) with
    | Some call => (Join call, s)
    | None =>
      let call := fresh (dom (calls s)) in
      (Start call revision,
       with_flights s (cache s) (<[(key, revision) := call]> (inflight s)) (<[call := None]> (calls s)))
    end
  end.

Section service.
Context `{DnsNames} `{OperationErrors E}.

Definition errorsCanceled (ctxErr : bool) (err : option E) : bool :=
  ctxErr || match err with
            | Some e => bool_decide (pub_Code (TranslateOperationError e) = AuthClientCanceled)
            | None => false
            end.

Definition review_result (s : Service) (key : Key) (review : AccessReviewResult) (err : option E)
    (now : Z) : Capability :=
  let '(decision, reason) := classifyReview review err in
  let t := if String.eqb decision DecisionUnknown then UnknownTTL else ttl s in
  capabilityFor key decision reason (now + t).

(** The section after [ReviewAccess] has returned. *)
Definition check_finish (s : Service) (key : Key) (call : nat) (revision : revisionStamp)
    (result : Capability) (canceled : bool) : Service :=
  let i := delete (key, revision) (inflight s) in
  let c := if bool_decide (revision = revisionLocked s key) && negb canceled
           then <[key := result]> (cache s) else cache s in
  with_flights s c i (<[call := Some result]> (calls s)).

(** ** Invalidation *)

Definition InvalidateGeneration (s : Service) (generation : string) : Service := {|
  ttl := ttl s; cache := filter (λ p, k_Generation p.1 ≠ generation) (cache s);
  inflight := inflight s; calls := calls s; globalRevision := globalRevision s;
  generationRevisions :=
    <[generation := u64_succ (get_or (generationRevisions s) generation 0%Z)]> (generationRevisions s);
  keyRevisions := keyRevisions s |}.

Definition InvalidateAll (s : Service) : Service := {|
  ttl := ttl s; cache := ∅; inflight := inflight s; calls := calls s;
  globalRevision := u64_succ (globalRevision s); generationRevisions := ∅; keyRevisions := ∅ |}.

Definition invalidateKey (s : Service) (key : Key) : Service := {|
  ttl := ttl s; cache := delete key (cache s); inflight := inflight s; calls := calls s;
  globalRevision := globalRevision s; generationRevisions := generationRevisions s;
  keyRevisions := <[key := u64_succ (get_or (keyRevisions s) key 0%Z)]> (keyRevisions s) |}.

(** ** Goroutines *)

Inductive OperationKind := OperationRead | OperationMutation | OperationUpgrade
                         | OperationOther (name : string).

Definition is_read (k : OperationKind) : bool :=
  match k with OperationRead => true | _ => false end.

Record GuardResult := { res_Capability : Capability; res_Executed : bool }.

(** A goroutine about to lock in [check], running or awaiting a review, returned from
    [Check] or [Refresh], running the guarded operation, or returned from [Guard]. The
    last argument of the first three says which guard the decision is for, if any. *)
Inductive thread :=
| Entering (key : Key) (bypass : bool) (guard : option OperationKind)
| Reviewing (key : Key) (call : nat) (revision : revisionStamp) (guard : option OperationKind)
| Joined (key : Key) (call : nat) (guard : option OperationKind)
| Answered (c : Capability)
| Operating (key : Key) (kind : OperationKind) (c : Capability)
| GuardDone (res : GuardResult) (err : option PublicError).

(** [Revalidate] after the decision, for a guard. *)
Definition revalidated (key : Key) (kind : OperationKind) (c : Capability) : thread :=
  let refused e := GuardDone {| res_Capability := c; res_Executed := false |} (Some e) in
  if String.eqb (cap_Decision c) DecisionDenied then refused forbiddenError
  else if String.eqb (cap_Decision c) DecisionUnknown && negb (is_read kind)
  then refused (review_failure (cap_ReasonCode c))
  else Operating key kind c.

Definition decided (key : Key) (guard : option OperationKind) (c : Capability) : thread :=
  match guard with None => Answered c | Some kind => revalidated key kind c end.

Definition with_decision (c : Capability) (decision reason : string) (expires : Z) : Capability := {|
  cap_CapabilityID := cap_CapabilityID c; cap_Namespace := cap_Namespace c;
  cap_APIGroup := cap_APIGroup c; cap_Resource := cap_Resource c;
  cap_Subresource := cap_Subresource c; cap_Verb := cap_Verb c;
  cap_ResourceName := cap_ResourceName c; cap_Decision := decision; cap_ReasonCode := reason;
  cap_ExpiresAt := expires |}.

(** [Guard] after the operation: its result, and whether the key is invalidated. *)
Definition guard_finish (c : Capability) (err : option E) (now : Z) : thread * bool :=
  match err with
  | None =>
    let c' := if String.eqb (cap_Decision c) DecisionUnknown
              then with_decision c DecisionAllowed ReasonOperationAllowed now else c in
    (GuardDone {| res_Capability := c'; res_Executed := true |} None, false)
  | Some e =>
    let public := TranslateOperationError e in
    let done d r := GuardDone {| res_Capability := with_decision c d r now; res_Executed := true |}
                      (Some public) in
    if bool_decide (pub_Code public = AuthForbidden)
    then (done DecisionDenied ReasonOperationDenied, true)
    else (done DecisionUnknown ReasonOperationUnavailable, false)
  end.

Record system := { service : Service; threads : gmap nat thread }.

Inductive action :=
| CallCheck (t : nat) (key : Key) (bypass : bool) (now : Z)       (* Check or Refresh *)
| CallGuard (t : nat) (key : Key) (kind : OperationKind) (now : Z)
| Enter (t : nat) (now : Z)
| ReviewReturns (t : nat) (review : AccessReviewResult) (err : option E) (ctxErr : bool) (now : Z)
| CallDone (t : nat)                        (* case <-call.done *)
| ContextDone (t : nat) (now : Z)           (* case <-ctx.Done() *)
| OperationReturns (t : nat) (err : option E) (now : Z)
| CallInvalidateGeneration (generation : string)
| CallInvalidateAll.

Definition move (w : system) (s : Service) (t : nat) (th : thread) : system :=
  {| service := s; threads := <[t := th]> (threads w) |}.

Definition unknown_unavailable (key : Key) (now : Z) : Capability :=
  capabilityFor key DecisionUnknown ReasonSARUnavailable now.

Definition call_guard (key : Key) (kind : OperationKind) (now : Z) : thread :=
  let refused :=
    GuardDone {| res_Capability := unknown_unavailable key now; res_Executed := false |}
      (Some access_validationError) in
  if negb (ValidateKey key) then refused
  else match kind with
       | OperationRead => Entering key false (Some kind)
       | OperationMutation | OperationUpgrade => Entering key true (Some kind)
       | OperationOther _ => refused
       end.

(** One action; [None] when the goroutine is not at that point. *)
Definition step (w : system) (a : action) : option system :=
  let s := service w in
  match a with
  | CallCheck t key bypass now =>
    match threads w !! t with
    | None => Some (move w s t (if ValidateKey key then Entering key bypass None
                                else Answered (unknown_unavailable key now)))
    | Some _ => None
    end
  | CallGuard t key kind now =>
    match threads w !! t with
    | None => Some (move w s t (call_guard key kind now))
    | Some _ => None
    end
  | Enter t now =>
    match threads w !! t with
    | Some (Entering key bypass guard) =>
      let '(out, s') := check_enter s now key bypass in
      Some (move w s' t (match out with
                         | Hit c => decided key guard c
                         | Join call => Joined key call guard
                         | Start call revision => Reviewing key call revision guard
                         end))
    | _ => None
    end
  | ReviewReturns t review err ctxErr now =>
    match threads w !! t with
    | Some (Reviewing key call revision guard) =>
      let result := review_result s key review err now in
      Some (move w (check_finish s key call revision result (errorsCanceled ctxErr err)) t
              (decided key guard result))
    | _ => None
    end
  | CallDone t =>
    match threads w !! t with
    | Some (Joined key call guard) =>
      match calls s !! call with
      | Some (Some result) => Some (move w s t (decided key guard result))
      | _ => None
      end
    | _ => None
    end
  | ContextDone t now =>
    match threads w !! t with
    | Some (Joined key call guard) =>
      Some (move w s t (decided key guard
                          (capabilityFor key DecisionUnknown ReasonRequestCanceled now)))
    | _ => None
    end
  | OperationReturns t err now =>
    match threads w !! t with
    | Some (Operating key kind c) =>
      let '(th, invalidate) := guard_finish c err now in
      Some (move w (if invalidate then invalidateKey s key else s) t th)
    | _ => None
    end
  | CallInvalidateGeneration generation =>
    Some {| service := InvalidateGeneration s generation; threads := threads w |}
  | CallInvalidateAll => Some {| service := InvalidateAll s; threads := threads w |}
  end.

Fixpoint run (w : system) (acts : list action) : option system :=
  match acts with
  | [] => Some w
  | a :: acts' => match step w a with Some w' => run w' acts' | None => None end
  end.

Definition init_system (s : Service) : system := {| service := s; threads := ∅ |}.

(** ** The invariant *)

(** A decision about [key]: the key's own attributes and one of the three decisions. *)
Definition for_key (key : Key) (c : Capability) : Prop :=
  ∃ d r e, c = capabilityFor key d r e
           ∧ (d = DecisionAllowed ∨ d = DecisionDenied ∨ d = DecisionUnknown).

Definition thread_ok (s : Service) (th : thread) : Prop :=
  match th with
  | Entering k b (Some kind) => b = negb (is_read kind)
  | Reviewing k c r _ => inflight s !! (k, r) = Some c
  | Joined k c _ =>
    (∃ r, inflight s !! (k, r) = Some c) ∨ ∃ cap, calls s !! c = Some (Some cap) ∧ for_key k cap
  | Operating k kind cap =>
    for_key k cap ∧ cap_Decision cap ≠ DecisionDenied
    ∧ (is_read kind = false → cap_Decision cap = DecisionAllowed)
  | _ => True
  end.

Record system_inv (w : system) : Prop := {
  inv_ttl : (MinTTL ≤ ttl (service w) ≤ MaxTTL)%Z;
  inv_flight : ∀ k r c, inflight (service w) !! (k, r) = Some c →
    calls (service w) !! c = Some None ∧ ∃ t g, threads w !! t = Some (Reviewing k c r g);
  inv_unique : ∀ t1 t2 k1 k2 c r1 r2 g1 g2,
    threads w !! t1 = Some (Reviewing k1 c r1 g1) → threads w !! t2 = Some (Reviewing k2 c r2 g2) →
    t1 = t2;
  inv_cache : ∀ k cap, cache (service w) !! k = Some cap → for_key k cap;
  inv_threads : ∀ t th, threads w !! t = Some th → thread_ok (service w) th }.

Lemma for_key_capability k d r e :
  d = DecisionAllowed ∨ d = DecisionDenied ∨ d = DecisionUnknown → for_key k (capabilityFor k d r e).
Proof. intros Hd. by exists d, r, e. Qed.

Lemma classify_cases review (err : option E) :
  let d := (classifyReview review err).1 in
  d = DecisionAllowed ∨ d = DecisionDenied ∨ d = DecisionUnknown.
Proof. unfold classifyReview. repeat case_match; cbn; auto. Qed.

Lemma review_result_key s key review err now : for_key key (review_result s key review err now).
Proof.
  unfold review_result. pose proof (classify_cases review err) as Hd.
  destruct (classifyReview review err) as [d r]. by apply for_key_capability.
Qed.

(** What a decision lets a goroutine do. *)
Lemma decided_ok s key guard c : for_key key c → thread_ok s (decided key guard c).
Proof.
  intros Hk. destruct guard as [kind|]; [|done]. cbn [decided]. unfold revalidated.
  destruct (String.eqb_spec (cap_Decision c) DecisionDenied); [done|].
  destruct (String.eqb_spec (cap_Decision c) DecisionUnknown) as [Hu|Hu]; cbn [andb].
  - destruct (is_read kind) eqn:Hr; [|done]. cbn. split_and!; [done|done|]. congruence.
  - cbn. split_and!; [done|done|]. intros _. destruct Hk as (d&r&e&->&Hd). cbn in *. naive_solver.
Qed.

Lemma decided_not_reviewing key guard c k call r g :
  decided key guard c ≠ Reviewing k call r g.
Proof. destruct guard; cbn; [unfold revalidated; repeat case_match|]; done. Qed.

(** A step of one goroutine that keeps the flights and the calls. *)
Lemma calm_inv w s t th :
  system_inv w →
  ttl s = ttl (service w) → inflight s = inflight (service w) → calls s = calls (service w) →
  (∀ k cap, cache s !! k = Some cap → for_key k cap) →
  (∀ k c r g, threads w !! t ≠ Some (Reviewing k c r g)) →
  (∀ k c r g, th ≠ Reviewing k c r g) → thread_ok s th →
  system_inv (move w s t th).
Proof.
  intros [H1 H2 H3 H4 H5] E1 E2 E3 Hc Hold Hnew Hth.
  assert (∀ t' k c r g, threads (move w s t th) !! t' = Some (Reviewing k c r g)
          ↔ threads w !! t' = Some (Reviewing k c r g)) as Hrev.
  { intros t' k c r g. cbn. rewrite lookup_insert_Some. split.
    - intros [[_ Heq]|[_ ?]]; [by apply Hnew in Heq|done].
    - intros Heq. right. split; [|done]. intros <-. by apply Hold in Heq. }
  split; cbn [move service threads]; rewrite ?E1, ?E2, ?E3; [done|..|done|].
  - intros k r c Hf. destruct (H2 _ _ _ Hf) as [? (t'&g&Ht')]. split; [done|].
    exists t', g. by apply Hrev.
  - intros t1 t2 k1 k2 c r1 r2 g1 g2 Ha%Hrev Hb%Hrev. by eapply H3.
  - intros t' th'. rewrite lookup_insert_Some. intros [[_ <-]|[_ Ht']]; [done|].
    apply H5 in Ht'. destruct th'; cbn in *; by rewrite ?E2, ?E3.
Qed.

(** A change of the cache and the revisions only. *)
Lemma cache_inv w s :
  system_inv w →
  ttl s = ttl (service w) → inflight s = inflight (service w) → calls s = calls (service w) →
  (∀ k cap, cache s !! k = Some cap → for_key k cap) →
  system_inv {| service := s; threads := threads w |}.
Proof.
  intros [H1 H2 H3 H4 H5] E1 E2 E3 Hc.
  split; cbn [service threads]; rewrite ?E1, ?E2, ?E3; try done.
  intros t th Ht. apply H5 in Ht. destruct th; cbn in *; by rewrite ?E2, ?E3.
Qed.

(** ** Preservation *)

(** The three outcomes of the first critical section. *)
Lemma check_enter_spec s now key bypass out s' :
  check_enter s now key bypass = (out, s') →
  let uncached := delete key (cache s) in
  match out with
  | Hit c => bypass = false ∧ cache s !! key = Some c ∧ (now < cap_ExpiresAt c)%Z ∧ s' = s
  | Join call => inflight s !! (key, revisionLocked s key) = Some call
                 ∧ s' = with_flights s uncached (inflight s) (calls s)
  | Start call revision =>
      revision = revisionLocked s key ∧ inflight s !! (key, revision) = None
      ∧ calls s !! call = None
      ∧ s' = with_flights s uncached (<[(key, revision) := call]> (inflight s))
                (<[call := None]> (calls s))
  end.
Proof.
  unfold check_enter. cbv zeta.
  match goal with |- match ?h with Some _ => _ | None => _ end = _ → _ => destruct h eqn:Hhit end.
  - intros [= <- <-]. destruct bypass; [done|]. destruct (cache s !! key) eqn:Hc; [|done].
    case_match eqn:Hlt; [|done]. apply Z.ltb_lt in Hlt. by simplify_eq.
  - change (revisionLocked (with_flights _ _ _ _) key) with (revisionLocked s key).
    cbn [with_flights inflight calls cache].
    destruct (inflight s !! _) eqn:Hfl; intros [= <- <-]; [done|].
    split_and!; [done|done| |done]. apply not_elem_of_dom, is_fresh.
Qed.

Lemma enter_start w t key bypass g now :
  system_inv w → threads w !! t = Some (Entering key bypass g) →
  ∀ call revision s', check_enter (service w) now key bypass = (Start call revision, s') →
  system_inv (move w s' t (Reviewing key call revision g)).
Proof.
  intros [H1 H2 H3 H4 H5] Ht call revision s' He.
  apply check_enter_spec in He as (_&Hfree&Hfresh&->).
  assert (∀ k r c, inflight (service w) !! (k, r) = Some c → c ≠ call) as Hother.
  { intros k r c Hf ->. destruct (H2 _ _ _ Hf). congruence. }
  assert (∀ t' k r g', threads w !! t' ≠ Some (Reviewing k call r g')) as Hnew.
  { intros t' k r g' Hr. apply H5 in Hr. by apply Hother in Hr. }
  split; cbn [move service threads with_flights ttl cache inflight calls]; [done|..].
  - intros k r c. rewrite lookup_insert_Some. intros [[[= <- <-] <-]|[Hne Hf]].
    + rewrite lookup_insert_eq. split; [done|]. exists t, g. by rewrite lookup_insert_eq.
    + pose proof (Hother _ _ _ Hf). rewrite lookup_insert_ne by done.
      destruct (H2 _ _ _ Hf) as [? (t'&g'&Ht')]. split; [done|]. exists t', g'.
      rewrite lookup_insert_ne; [done|congruence].
  - intros t1 t2 k1 k2 c r1 r2 g1 g2. rewrite !lookup_insert_Some.
    intros [[<- Heq1]|[? Hr1]] [[<- Heq2]|[? Hr2]]; simplify_eq; try done.
    + by apply Hnew in Hr2.
    + by apply Hnew in Hr1.
    + by eapply H3.
  - intros k cap Hd. apply lookup_delete_Some in Hd as [_ Hc]. by apply H4.
  - intros t' th. rewrite lookup_insert_Some. intros [[<- <-]|[Hne Hth]].
    + cbn. by rewrite lookup_insert_eq.
    + apply H5 in Hth. destruct th as [| |k c ? | | |]; cbn in *; try done.
      * rewrite lookup_insert_ne; [done|]. intros [= <- <-]. congruence.
      * destruct Hth as [[r Hr]|(cap&Hcap&?)].
        -- left. exists r. rewrite lookup_insert_ne; [done|]. intros [= <- <-]. congruence.
        -- right. exists cap. rewrite lookup_insert_ne; [done|]. congruence.
Qed.

Lemma review_finish_inv w t key call revision g result canceled :
  system_inv w → threads w !! t = Some (Reviewing key call revision g) → for_key key result →
  system_inv (move w (check_finish (service w) key call revision result canceled) t
                (decided key g result)).
Proof.
  intros [H1 H2 H3 H4 H5] Ht Hk. pose proof (H5 _ _ Ht) as Hflight. cbn in Hflight.
  assert (∀ k r, inflight (service w) !! (k, r) = Some call → (k, r) = (key, revision)) as Hone.
  { intros k r Hf. destruct (H2 _ _ _ Hf) as [_ (t'&g'&Ht')].
    pose proof (H3 _ _ _ _ _ _ _ _ _ Ht Ht') as <-. congruence. }
  assert (∀ k r c, delete (key, revision) (inflight (service w)) !! (k, r) = Some c →
            c ≠ call ∧ inflight (service w) !! (k, r) = Some c) as Hrest.
  { intros k r c Hd. apply lookup_delete_Some in Hd as [Hne Hf]. split; [|done].
    intros ->. apply Hne. symmetry. by apply Hone. }
  split; cbn [move service threads check_finish with_flights ttl cache inflight calls]; [done|..].
  - intros k r c [Hne Hf]%Hrest. rewrite lookup_insert_ne by done.
    destruct (H2 _ _ _ Hf) as [? (t'&g'&Ht')]. split; [done|]. exists t', g'.
    rewrite lookup_insert_ne; [done|congruence].
  - intros t1 t2 k1 k2 c r1 r2 g1 g2. rewrite !lookup_insert_Some.
    intros [[<- Hr1]|[? Hr1]] [[<- Hr2]|[? Hr2]]; try done;
      try (by apply decided_not_reviewing in Hr1); try (by apply decided_not_reviewing in Hr2).
    by eapply H3.
  - intros k cap. case_match; [|by apply H4]. rewrite lookup_insert_Some.
    intros [[<- <-]|[_ Hc]]; [done|by apply H4].
  - intros t' th. rewrite lookup_insert_Some. intros [[<- <-]|[Hne Hth]]; [by apply decided_ok|].
    pose proof (H5 _ _ Hth) as Hok. destruct th as [|k c r ?|k c ? | | |]; cbn in *; try done.
    + apply lookup_delete_Some. split; [|done]. intros [= <- <-].
      assert (c = call) as -> by congruence. by apply Hne, (H3 _ _ _ _ _ _ _ _ _ Ht Hth).
    + destruct (decide (c = call)) as [->|Hc].
      * right. exists result. rewrite lookup_insert_eq. split; [done|].
        destruct Hok as [[r Hr]|(cap&Hcap&?)]; [by apply Hone in Hr as [= -> ->]|].
        destruct (H2 _ _ _ Hflight). congruence.
      * destruct Hok as [[r Hr]|(cap&Hcap&?)].
        -- left. exists r. apply lookup_delete_Some. split; [congruence|done].
        -- right. exists cap. by rewrite lookup_insert_ne.
Qed.

Lemma enter_others w t key bypass g now out s' :
  system_inv w → threads w !! t = Some (Entering key bypass g) →
  check_enter (service w) now key bypass = (out, s') →
  match out with
  | Hit c => system_inv (move w s' t (decided key g c))
  | Join call => system_inv (move w s' t (Joined key call g))
  | Start call revision => system_inv (move w s' t (Reviewing key call revision g))
  end.
Proof.
  intros Hinv Ht Hent. destruct out as [c|call|call revision]; [..|by eapply enter_start].
  all: apply check_enter_spec in Hent.
  - destruct Hent as (_&Hc&_&->). pose proof (inv_cache _ Hinv _ _ Hc). apply calm_inv; try done.
    + apply (inv_cache _ Hinv).
    + rewrite Ht. done.
    + intros. apply decided_not_reviewing.
    + by apply decided_ok.
  - destruct Hent as [Hf ->]. apply calm_inv; try done.
    + intros k cap Hd. cbn in Hd. apply lookup_delete_Some in Hd as [_ Hc]. by apply (inv_cache _ Hinv).
    + rewrite Ht. done.
    + left. by eexists.
Qed.

Lemma call_guard_ok s key kind now : thread_ok s (call_guard key kind now).
Proof. unfold call_guard. repeat case_match; done. Qed.

Lemma step_keeps w a w' : system_inv w → step w a = Some w' → system_inv w'.
Proof.
  intros Hinv. destruct a; cbn [step].
  - case_match eqn:Ht; [done|]. intros [= <-]. apply calm_inv; try done.
    + apply (inv_cache _ Hinv).
    + rewrite Ht. done.
    + intros. by case_match.
    + by case_match.
  - case_match eqn:Ht; [done|]. intros [= <-]. apply calm_inv; try done.
    + apply (inv_cache _ Hinv).
    + rewrite Ht. done.
    + intros. unfold call_guard. by repeat case_match.
    + apply call_guard_ok.
  - destruct (threads w !! t) as [[]|] eqn:Ht; try done.
    destruct (check_enter _ _ _ _) as [out s'] eqn:He. intros [= <-].
    pose proof (enter_others _ _ _ _ _ _ _ _ Hinv Ht He). by destruct out.
  - destruct (threads w !! t) as [[]|] eqn:Ht; try done. intros [= <-].
    apply review_finish_inv; [done..|apply review_result_key].
  - destruct (threads w !! t) as [[]|] eqn:Ht; try done.
    destruct (calls _ !! _) as [[result|]|] eqn:Hc; try done. intros [= <-].
    apply calm_inv; try done.
    + apply (inv_cache _ Hinv).
    + rewrite Ht. done.
    + intros. apply decided_not_reviewing.
    + apply decided_ok. destruct (inv_threads _ Hinv _ _ Ht) as [[r Hr]|(cap&?&?)].
      * destruct (inv_flight _ Hinv _ _ _ Hr). congruence.
      * congruence.
  - destruct (threads w !! t) as [[]|] eqn:Ht; try done. intros [= <-].
    apply calm_inv; try done.
    + apply (inv_cache _ Hinv).
    + rewrite Ht. done.
    + intros. apply decided_not_reviewing.
    + apply decided_ok, for_key_capability. auto.
  - destruct (threads w !! t) as [[]|] eqn:Ht; try done.
    destruct (guard_finish c err now) as [th invalidate] eqn:Hg. intros [= <-].
    apply calm_inv; try (destruct invalidate; done).
    + intros k cap. destruct invalidate; [|apply (inv_cache _ Hinv)].
      intros Hd. cbn in Hd. apply lookup_delete_Some in Hd as [_ Hc]. by apply (inv_cache _ Hinv).
    + rewrite Ht. done.
    + unfold guard_finish in Hg. intros. repeat case_match; simplify_eq; done.
    + unfold guard_finish in Hg. repeat case_match; simplify_eq; done.
  - intros [= <-]. apply cache_inv; try done. intros k cap Hf. cbn in Hf.
    apply map_lookup_filter_Some in Hf as [Hc _]. by apply (inv_cache _ Hinv).
  - intros [= <-]. apply cache_inv; done.
Qed.

Lemma auth_run_keeps acts w w' : system_inv w → run w acts = Some w' → system_inv w'.
Proof.
  revert w. induction acts as [|a acts IH]; intros w Hinv; cbn; [by intros [= <-]|].
  case_match; [|done]. apply IH. by eapply step_keeps.
Qed.

Lemma auth_run_app acts1 acts2 w :
  run w (acts1 ++ acts2)%list = match run w acts1 with Some v => run v acts2 | None => None end.
Proof. revert w. induction acts1 as [|a l IH]; intros w; cbn; [done|]. by destruct (step w a). Qed.

Lemma auth_init_inv requested s : New requested = Some s → system_inv (init_system s).
Proof.
  unfold New. intros Hn. destruct (_ || _) eqn:Hb; simplify_eq.
  apply orb_false_iff in Hb as [?%Z.ltb_ge ?%Z.ltb_ge]. by split.
Qed.

(** ** Revisions as a fence *)

(** The order of stamps: a new global revision restarts the other two counters. *)
Definition stamp_le (a b : revisionStamp) : Prop :=
  let '(g, n, k) := a in let '(g', n', k') := b in
  (g < g')%Z ∨ (g = g' ∧ n ≤ n' ∧ k ≤ k')%Z.

#[local] Instance stamp_le_preorder : PreOrder stamp_le.
Proof.
  split; [intros [[]]|intros [[]] [[]] [[]]]; cbn; lia.
Qed.

Lemma stamp_le_antisym a b : stamp_le a b → stamp_le b a → a = b.
Proof. destruct a as [[]], b as [[]]. cbn. intros. f_equal; [f_equal|]; lia. Qed.

(** All revisions are at most [n]: there have been at most [n] invalidations. *)
Definition revisions_within (n : Z) (s : Service) : Prop :=
  (0 ≤ globalRevision s ≤ n)%Z
  ∧ (∀ g v, generationRevisions s !! g = Some v → (0 ≤ v ≤ n)%Z)
  ∧ (∀ k v, keyRevisions s !! k = Some v → (0 ≤ v ≤ n)%Z).

Lemma within_get {K} `{Countable K} (m : gmap K Z) n k :
  (0 ≤ n)%Z → (∀ j v, m !! j = Some v → (0 ≤ v ≤ n)%Z) → (0 ≤ get_or m k 0%Z ≤ n)%Z.
Proof. intros ? Hm. unfold get_or. destruct (m !! k) eqn:Hk; cbn; [by apply Hm in Hk|lia]. Qed.

Lemma within_bump {K} `{Countable K} (m : gmap K Z) n k :
  (0 ≤ n < u64_modulus - 1)%Z → (∀ j v, m !! j = Some v → (0 ≤ v ≤ n)%Z) →
  ∀ j v, <[k := u64_succ (get_or m k 0%Z)]> m !! j = Some v → (0 ≤ v ≤ n + 1)%Z.
Proof.
  intros Hn Hm j v. rewrite lookup_insert_Some. intros [[_ <-]|[_ Hj]].
  - pose proof (within_get m n k ltac:(lia) Hm). rewrite u64_succ_small; lia.
  - apply Hm in Hj. lia.
Qed.

(** Actions that invalidate [key]. *)
Definition invalidates (w : system) (a : action) (key : Key) : bool :=
  match a with
  | CallInvalidateAll => true
  | CallInvalidateGeneration g => bool_decide (g = k_Generation key)
  | OperationReturns t (Some e) _ =>
    match threads w !! t with
    | Some (Operating k _ _) =>
      bool_decide (k = key) && bool_decide (pub_Code (TranslateOperationError e) = AuthForbidden)
    | _ => false
    end
  | _ => false
  end.

Lemma get_or_bump {K} `{Countable K} (m : gmap K Z) k j v :
  get_or (<[k := v]> m) j 0%Z = if bool_decide (k = j) then v else get_or m j 0%Z.
Proof. unfold get_or. rewrite lookup_insert. by case_decide; case_bool_decide. Qed.

(** What one action does to the revisions and the cached decision of a key. *)
Definition fence_step (w w' : system) (a : action) (key : Key) : Prop :=
  stamp_le (revisionLocked (service w) key) (revisionLocked (service w') key)
  ∧ (invalidates w a key = true →
     revisionLocked (service w) key ≠ revisionLocked (service w') key
     ∧ cache (service w') !! key = None).

Lemma same_revisions_fence w w' a key n :
  globalRevision (service w') = globalRevision (service w) →
  generationRevisions (service w') = generationRevisions (service w) →
  keyRevisions (service w') = keyRevisions (service w) →
  invalidates w a key = false → revisions_within n (service w) →
  revisions_within (n + 1) (service w') ∧ fence_step w w' a key.
Proof.
  intros Hg Hn Hk Hinv (?&Hgs&Hks). unfold revisions_within, fence_step, revisionLocked.
  rewrite Hg, Hn, Hk, Hinv. split; [split_and!|].
  - lia.
  - lia.
  - intros g v ?%Hgs. lia.
  - intros k v ?%Hks. lia.
  - by split.
Qed.

Lemma enter_revisions s now key bypass out s' :
  check_enter s now key bypass = (out, s') →
  globalRevision s' = globalRevision s ∧ generationRevisions s' = generationRevisions s
  ∧ keyRevisions s' = keyRevisions s.
Proof. intros He%check_enter_spec. destruct out; naive_solver. Qed.

Ltac revision_fields :=
  unfold revisionLocked;
  cbn [service move InvalidateGeneration invalidateKey globalRevision generationRevisions keyRevisions].

Lemma generation_fence w g key n :
  (0 ≤ n < u64_modulus - 1)%Z → revisions_within n (service w) →
  let w' := {| service := InvalidateGeneration (service w) g; threads := threads w |} in
  revisions_within (n + 1) (service w') ∧ fence_step w w' (CallInvalidateGeneration g) key.
Proof.
  intros Hn (Hg&Hgs&Hks). pose proof (within_get _ n g ltac:(lia) Hgs).
  intros w'. split; [|split].
  - split_and!; cbn; [lia|lia| |intros k v ?%Hks; lia]. by apply within_bump.
  - right. subst w'. revision_fields. rewrite get_or_bump. case_bool_decide; [subst; rewrite u64_succ_small by lia|]; lia.
  - intros ->%bool_decide_eq_true. split; [|].
    + subst w'. revision_fields. rewrite get_or_bump, bool_decide_true, u64_succ_small by (done || lia).
      intros [=]. lia.
    + cbn. apply map_lookup_filter_None. naive_solver.
Qed.

Lemma all_fence w key n :
  (0 ≤ n < u64_modulus - 1)%Z → revisions_within n (service w) →
  let w' := {| service := InvalidateAll (service w); threads := threads w |} in
  revisions_within (n + 1) (service w') ∧ fence_step w w' CallInvalidateAll key.
Proof.
  intros Hn (Hg&_&_). unfold fence_step, revisions_within, revisionLocked. cbn.
  rewrite u64_succ_small by lia. split_and!; try lia; try done.
  intros _. split; [|done]. intros [=]. lia.
Qed.

Lemma key_fence w k th t a key n :
  (0 ≤ n < u64_modulus - 1)%Z → revisions_within n (service w) →
  (invalidates w a key = true → k = key) →
  let w' := move w (invalidateKey (service w) k) t th in
  revisions_within (n + 1) (service w') ∧ fence_step w w' a key.
Proof.
  intros Hn (Hg&Hgs&Hks) Hkey. pose proof (within_get _ n k ltac:(lia) Hks).
  intros w'. split; [|split].
  - split_and!; cbn; [lia|lia|intros g v ?%Hgs; lia|]. by apply within_bump.
  - right. subst w'. revision_fields. rewrite get_or_bump. case_bool_decide; [subst; rewrite u64_succ_small by lia|]; lia.
  - intros ->%Hkey. split; [|].
    + subst w'. revision_fields. rewrite get_or_bump, bool_decide_true, u64_succ_small by (done || lia).
      intros [=]. lia.
    + cbn. by rewrite lookup_delete_eq.
Qed.

Lemma guard_finish_invalidates (c : Capability) (err : option E) now :
  (guard_finish c err now).2 = match err with
    | Some e => bool_decide (pub_Code (TranslateOperationError e) = AuthForbidden)
    | None => false end.
Proof. unfold guard_finish. by repeat case_match. Qed.

Lemma step_fence w a w' key n :
  (0 ≤ n < u64_modulus - 1)%Z → revisions_within n (service w) → step w a = Some w' →
  revisions_within (n + 1) (service w') ∧ fence_step w w' a key.
Proof.
  intros Hn Hw. destruct a; cbn [step].
  - case_match; [done|]. intros [= <-]. by apply same_revisions_fence.
  - case_match; [done|]. intros [= <-]. by apply same_revisions_fence.
  - destruct (threads w !! t) as [[]|] eqn:Ht; try done.
    destruct (check_enter _ _ _ _) as [out s'] eqn:He. intros [= <-].
    apply enter_revisions in He as (?&?&?). by apply same_revisions_fence.
  - destruct (threads w !! t) as [[]|] eqn:Ht; try done. intros [= <-].
    by apply same_revisions_fence.
  - destruct (threads w !! t) as [[]|] eqn:Ht; try done.
    destruct (calls _ !! _) as [[result|]|] eqn:Hc; try done. intros [= <-].
    by apply same_revisions_fence.
  - destruct (threads w !! t) as [[]|] eqn:Ht; try done. intros [= <-].
    by apply same_revisions_fence.
  - destruct (threads w !! t) as [[| | | |k kind c|]|] eqn:Ht; try done.
    pose proof (guard_finish_invalidates c err now) as Hg.
    destruct (guard_finish c err now) as [th invalidate]. cbn in Hg. subst invalidate.
    destruct err as [e|]; [|intros [= <-]; by apply same_revisions_fence].
    case_bool_decide as Hf; intros [= <-].
    + apply key_fence; [done..|]. cbn. rewrite Ht.
      by intros [->%bool_decide_eq_true _]%andb_prop.
    + apply same_revisions_fence; try done. cbn. rewrite Ht.
      rewrite (bool_decide_false _ Hf). apply andb_false_r.
  - intros [= <-]. by apply generation_fence.
  - intros [= <-]. by apply all_fence.
Qed.

Lemma run_fence acts w w' key n :
  (0 ≤ n)%Z → (n + Z.of_nat (length acts) < u64_modulus)%Z →
  revisions_within n (service w) → run w acts = Some w' →
  revisions_within (n + Z.of_nat (length acts)) (service w')
  ∧ stamp_le (revisionLocked (service w) key) (revisionLocked (service w') key).
Proof.
  revert w n. induction acts as [|a acts IH]; intros w n Hn Hlen Hw; cbn [run length] in *.
  - intros [= <-]. split; [by rewrite Z.add_0_r|done].
  - destruct (step w a) as [w1|] eqn:Hstep; [|done]. intros Hrun.
    destruct (step_fence w a w1 key n ltac:(lia) Hw Hstep) as [Hw1 [Hle _]].
    destruct (IH w1 (n + 1)%Z ltac:(lia) ltac:(lia) Hw1 Hrun) as [Hw' Hle'].
    split; [by replace (n + Z.of_nat (S (length acts)))%Z
              with (n + 1 + Z.of_nat (length acts))%Z by lia|].
    by trans (revisionLocked (service w1) key).
Qed.

(** Running reviews carry a revision that is not ahead of the service. *)
Definition reviews_behind (w : system) : Prop :=
  ∀ t k c r g, threads w !! t = Some (Reviewing k c r g) →
    stamp_le r (revisionLocked (service w) k).

Lemma moved_not_reviewing w s t0 th t k c r g :
  (∀ k c r g, th ≠ Reviewing k c r g) → threads (move w s t0 th) !! t = Some (Reviewing k c r g) →
  threads w !! t = Some (Reviewing k c r g).
Proof.
  intros Hth. cbn. rewrite lookup_insert_Some. intros [[_ Heq]|[_ ?]]; [by apply Hth in Heq|done].
Qed.

(** A review starts at the revision its goroutine saw. *)
Lemma reviewing_origin w a w' t k c r g :
  step w a = Some w' → threads w' !! t = Some (Reviewing k c r g) →
  threads w !! t = Some (Reviewing k c r g)
  ∨ (r = revisionLocked (service w) k ∧ r = revisionLocked (service w') k).
Proof.
  destruct a; cbn [step].
  - case_match; [done|]. intros [= <-] Hr%moved_not_reviewing; [by left|]. intros. by case_match.
  - case_match; [done|]. intros [= <-] Hr%moved_not_reviewing; [by left|].
    intros. unfold call_guard. by repeat case_match.
  - destruct (threads w !! t0) as [[]|] eqn:Ht; try done.
    destruct (check_enter _ _ _ _) as [out s'] eqn:He. intros [= <-].
    destruct out.
    + intros Hr%moved_not_reviewing; [by left|]. intros. apply decided_not_reviewing.
    + intros Hr%moved_not_reviewing; [by left|]. done.
    + cbn. rewrite lookup_insert_Some. intros [[_ [= -> -> -> ->]]|[_ ?]]; [|by left].
      apply check_enter_spec in He as (->&_&_&->). by right.
  - destruct (threads w !! t0) as [[]|] eqn:Ht; try done.
    intros [= <-] Hr%moved_not_reviewing; [by left|]. intros. apply decided_not_reviewing.
  - destruct (threads w !! t0) as [[]|] eqn:Ht; try done. destruct (calls _ !! _) as [[]|]; try done.
    intros [= <-] Hr%moved_not_reviewing; [by left|]. intros. apply decided_not_reviewing.
  - destruct (threads w !! t0) as [[]|] eqn:Ht; try done.
    intros [= <-] Hr%moved_not_reviewing; [by left|]. intros. apply decided_not_reviewing.
  - destruct (threads w !! t0) as [[]|] eqn:Ht; try done.
    destruct (guard_finish _ _ _) as [th invalidate] eqn:Hg.
    intros [= <-] Hr%moved_not_reviewing; [by left|].
    unfold guard_finish in Hg. intros. repeat case_match; simplify_eq; done.
  - intros [= <-] Hr. by left.
  - intros [= <-] Hr. by left.
Qed.

Lemma run_behind acts w w' n :
  (0 ≤ n)%Z → (n + Z.of_nat (length acts) < u64_modulus)%Z →
  revisions_within n (service w) → reviews_behind w → run w acts = Some w' → reviews_behind w'.
Proof.
  revert w n. induction acts as [|a acts IH]; intros w n Hn Hlen Hw Hb; cbn [run length] in *.
  - by intros [= <-].
  - destruct (step w a) as [w1|] eqn:Hstep; [|done].
    assert (revisions_within (n + 1) (service w1)) as Hw1.
    { by eapply (step_fence w a w1 inhabitant n ltac:(lia) Hw). }
    apply (IH w1 (n + 1)%Z); [lia|lia|done|].
    intros t k c r g Hr. destruct (reviewing_origin _ _ _ _ _ _ _ _ Hstep Hr) as [Hr0|[_ ->]]; [|done].
    destruct (step_fence w a w1 k n ltac:(lia) Hw Hstep) as [_ [Hle _]].
    trans (revisionLocked (service w) k); [by eapply Hb|done].
Qed.

Lemma init_within requested s : New requested = Some s → revisions_within 0 s.
Proof. unfold New. intros Hn. destruct (_ || _); simplify_eq. by split_and!. Qed.

(** C19: a review that was running when its key was invalidated ([InvalidateAll],
    [InvalidateGeneration] of its generation, or a 403 of a guarded operation on the key)
    never enters the cache when it ends, however the goroutines interleave afterwards; the
    invalidation itself empties the key's cache slot; and a goroutine that asks about the
    key after the invalidation is never made to wait for that stale review. *)
Theorem stale_review_fenced requested s before w t key call revision g a w1 after w2 :
  New requested = Some s → run (init_system s) before = Some w →
  threads w !! t = Some (Reviewing key call revision g) →
  invalidates w a key = true → step w a = Some w1 →
  run w1 after = Some w2 → threads w2 !! t = Some (Reviewing key call revision g) →
  (Z.of_nat (length before) + 1 + Z.of_nat (length after) < u64_modulus)%Z →
  cache (service w1) !! key = None
  ∧ (∀ review err ctxErr now w3,
       step w2 (ReviewReturns t review err ctxErr now) = Some w3 →
       cache (service w3) = cache (service w2))
  ∧ (∀ t' bypass g' now w3, threads w2 !! t' = Some (Entering key bypass g') →
       step w2 (Enter t' now) = Some w3 → threads w3 !! t' ≠ Some (Joined key call g')).
Proof.
  intros Hnew Hbefore Ht Hinv Hstep Hafter Ht2 Hlen.
  assert (reviews_behind (init_system s)) as Hb0 by (by intros ?????).
  destruct (run_fence before (init_system s) w key 0 ltac:(lia) ltac:(lia) (init_within _ _ Hnew) Hbefore) as [Hw _].
  pose proof (run_behind before (init_system s) w 0 ltac:(lia) ltac:(lia) (init_within _ _ Hnew) Hb0 Hbefore
                _ _ _ _ _ Ht) as Hle.
  destruct (step_fence w a w1 key (0 + Z.of_nat (length before))%Z ltac:(lia) Hw Hstep)
    as [Hw1 [Hle1 Hfence]].
  destruct (Hfence Hinv) as [Hne Hempty]. clear Hfence.
  destruct (run_fence after w1 w2 key (0 + Z.of_nat (length before) + 1)%Z ltac:(lia) ltac:(lia)
              Hw1 Hafter) as [_ Hle2].
  assert (revision ≠ revisionLocked (service w2) key) as Hstale.
  { intros ->. apply Hne, stamp_le_antisym; [done|].
    by trans (revisionLocked (service w2) key). }
  assert (system_inv w2) as Hinv2.
  { eapply auth_run_keeps, Hafter. eapply step_keeps, Hstep.
    eapply auth_run_keeps, Hbefore. by eapply auth_init_inv. }
  split; [done|split].
  - intros review err ctxErr now w3. cbn [step]. rewrite Ht2. intros [= <-]. cbn.
    by rewrite bool_decide_false.
  - intros t' bypass g' now w3 He. cbn [step]. rewrite He.
    destruct (check_enter _ _ _ _) as [out s'] eqn:Hce. intros [= <-]. cbn.
    rewrite lookup_insert_eq. apply check_enter_spec in Hce. destruct out; cbn.
    + destruct g'; cbn; [unfold revalidated; repeat case_match|]; done.
    + intros [= ->]. destruct Hce as [Hf _].
      destruct (inv_flight _ Hinv2 _ _ _ Hf) as [_ (t''&g''&Ht'')].
      pose proof (inv_unique _ Hinv2 _ _ _ _ _ _ _ _ _ Ht2 Ht'') as <-. congruence.
    + done.
Qed.

(** single flight and isolation. In every reachable state at most one goroutine reviews
    a key at a given revision; whoever joined a review waits for one that some goroutine is
    still running or that has answered about exactly that key, so nobody waits for ever; and a
    cached decision is a decision about its own key. *)
Theorem reviews_single_flight requested s acts w :
  New requested = Some s → run (init_system s) acts = Some w →
  (∀ t1 t2 key c1 c2 revision g1 g2, threads w !! t1 = Some (Reviewing key c1 revision g1) →
     threads w !! t2 = Some (Reviewing key c2 revision g2) → t1 = t2)
  ∧ (∀ t key call g, threads w !! t = Some (Joined key call g) →
       (∃ t' revision g', threads w !! t' = Some (Reviewing key call revision g'))
       ∨ ∃ result w', step w (CallDone t) = Some w' ∧ threads w' !! t = Some (decided key g result)
                      ∧ for_key key result)
  ∧ (∀ key c, cache (service w) !! key = Some c → for_key key c).
Proof.
  intros Hnew Hrun. pose proof (auth_run_keeps _ _ _ (auth_init_inv _ _ Hnew) Hrun) as Hinv.
  split; [|split].
  - intros t1 t2 key c1 c2 revision g1 g2 H1 H2.
    pose proof (inv_threads _ Hinv _ _ H1) as Hf1. pose proof (inv_threads _ Hinv _ _ H2) as Hf2.
    cbn in Hf1, Hf2. assert (c1 = c2) as -> by congruence. by eapply (inv_unique _ Hinv).
  - intros t key call g Ht. destruct (inv_threads _ Hinv _ _ Ht) as [[r Hr]|(cap&Hc&Hk)].
    + left. destruct (inv_flight _ Hinv _ _ _ Hr) as [_ (t'&g'&?)]. eauto.
    + right. exists cap. cbn [step]. rewrite Ht, Hc. eexists. split; [done|].
      cbn. by rewrite lookup_insert_eq.
  - apply (inv_cache _ Hinv).
Qed.

(** ** Mutations act on a live answer *)

(** The guarded operation a goroutine is heading for. *)
Definition purpose (th : thread) : option (Key * OperationKind) :=
  match th with
  | Entering k _ (Some kind) | Reviewing k _ _ (Some kind) | Joined k _ (Some kind)
  | Operating k kind _ => Some (k, kind)
  | _ => None
  end.

Lemma decided_purpose key g c :
  purpose (decided key g c) = None ∨ ∃ kind, g = Some kind ∧ decided key g c = Operating key kind c.
Proof. destruct g; cbn; [unfold revalidated; repeat case_match; naive_solver|by left]. Qed.

(** What a step makes of the goroutine [t]: nothing, or one of the moves of [check]. *)
Definition progresses (w w' : system) (a : action) (th th' : thread) : Prop :=
  match th with
  | Entering k b g =>
      (b = false ∧ ∃ c, cache (service w) !! k = Some c ∧ th' = decided k g c)
      ∨ (∃ call, inflight (service w) !! (k, revisionLocked (service w) k) = Some call
                 ∧ inflight (service w') = inflight (service w) ∧ th' = Joined k call g)
      ∨ (∃ call r, th' = Reviewing k call r g)
  | Reviewing k call r g => ∃ t review err ctxErr now,
      a = ReviewReturns t review err ctxErr now ∧ threads w !! t = Some th
      ∧ th' = decided k g (review_result (service w) k review err now)
  | Joined k call g =>
      (∃ c, calls (service w) !! call = Some (Some c) ∧ th' = decided k g c)
      ∨ ∃ now, th' = decided k g (capabilityFor k DecisionUnknown ReasonRequestCanceled now)
  | Operating _ _ _ => purpose th' = None
  | Answered _ | GuardDone _ _ => False
  end.

Lemma step_thread w a w' t th :
  step w a = Some w' → threads w !! t = Some th →
  threads w' !! t = Some th ∨ ∃ th', threads w' !! t = Some th' ∧ progresses w w' a th th'.
Proof.
  intros Hstep Ht.
  assert (∀ t0 th0 s th', threads w !! t0 = Some th0 →
            (t = t0 → progresses w (move w s t0 th') a th th') →
            threads (move w s t0 th') !! t = Some th
            ∨ ∃ th'', threads (move w s t0 th') !! t = Some th''
                      ∧ progresses w (move w s t0 th') a th th'') as Hmove.
  { intros t0 th0 s th' _ Hp. cbn [move threads]. destruct (decide (t0 = t)) as [->|Hne].
    - right. exists th'. rewrite lookup_insert_eq. auto.
    - left. by rewrite lookup_insert_ne. }
  destruct a as [t0 key bypass now|t0 key kind now|t0 now|t0 review err ctxErr now|t0|t0 now|t0 err now|g|];
    cbn [step] in Hstep.
  - destruct (threads w !! t0) eqn:Ht0; simplify_eq. left. cbn. rewrite lookup_insert_ne; [done|congruence].
  - destruct (threads w !! t0) eqn:Ht0; simplify_eq. left. cbn. rewrite lookup_insert_ne; [done|congruence].
  - destruct (threads w !! t0) as [[]|] eqn:Ht0; try done.
    destruct (check_enter _ _ _ _) as [out s'] eqn:He. simplify_eq.
    apply (Hmove _ _ _ _ Ht0). intros ->. assert (th = Entering key bypass guard) as -> by congruence.
    cbn. apply check_enter_spec in He. destruct out; [naive_solver| |naive_solver].
    destruct He as [? ->]. right. left. eexists. by split_and!.
  - destruct (threads w !! t0) as [[]|] eqn:Ht0; try done. simplify_eq.
    apply (Hmove _ _ _ _ Ht0). intros ->. assert (th = Reviewing key call revision guard) as -> by congruence.
    cbn. do 5 eexists. by split_and!.
  - destruct (threads w !! t0) as [[]|] eqn:Ht0; try done.
    destruct (calls _ !! _) as [[]|] eqn:Hc; simplify_eq.
    apply (Hmove _ _ _ _ Ht0). intros ->. assert (th = Joined key call guard) as -> by congruence.
    cbn. left. eauto.
  - destruct (threads w !! t0) as [[]|] eqn:Ht0; try done. simplify_eq.
    apply (Hmove _ _ _ _ Ht0). intros ->. assert (th = Joined key call guard) as -> by congruence.
    cbn. right. eauto.
  - destruct (threads w !! t0) as [[]|] eqn:Ht0; try done.
    destruct (guard_finish _ _ _) as [th' invalidate] eqn:Hg. simplify_eq.
    apply (Hmove _ _ _ _ Ht0). intros ->. assert (th = Operating key kind c) as -> by congruence.
    cbn. unfold guard_finish in Hg. repeat case_match; simplify_eq; done.
  - simplify_eq. by left.
  - simplify_eq. by left.
Qed.

(** A goroutine without a purpose never gets one. *)
Lemma idle_run acts w w' t th :
  threads w !! t = Some th → purpose th = None → run w acts = Some w' →
  ∃ th', threads w' !! t = Some th' ∧ purpose th' = None.
Proof.
  revert w th. induction acts as [|a acts IH]; intros w th Ht Hp; cbn [run]; [intros [= <-]; eauto|].
  destruct (step w a) as [w1|] eqn:Hs; [|done].
  destruct (step_thread _ _ _ _ _ Hs Ht) as [Ht1|(th'&Ht1&Hpr)]; [by eapply IH|].
  apply (IH _ _ Ht1). destruct th as [k b g|k c r g|k c g| | |]; cbn in *; try done;
    destruct g; try done; naive_solver.
Qed.

(** An operation runs with the decision it started with. *)
Lemma operating_run acts w w' t key kind c key' kind' c' :
  threads w !! t = Some (Operating key kind c) → run w acts = Some w' →
  threads w' !! t = Some (Operating key' kind' c') → (key', kind', c') = (key, kind, c).
Proof.
  revert w. induction acts as [|a acts IH]; intros w Ht; cbn [run]; [intros [= <-]; congruence|].
  destruct (step w a) as [w1|] eqn:Hs; [|done]. intros Hrun Ht'.
  destruct (step_thread _ _ _ _ _ Hs Ht) as [Ht1|(th'&Ht1&Hpr)]; [by eapply IH|].
  destruct (idle_run _ _ _ _ _ Ht1 Hpr Hrun) as (?&?&?). simplify_eq.
Qed.

(** After a decision, a later operation of the goroutine is the decided one. *)
Lemma decided_run acts w w' t key g c key' kind' c' :
  threads w !! t = Some (decided key g c) → run w acts = Some w' →
  threads w' !! t = Some (Operating key' kind' c') →
  key' = key ∧ g = Some kind' ∧ c' = c ∧ decided key g c = Operating key kind' c.
Proof.
  intros Ht Hrun Ht'. destruct (decided_purpose key g c) as [Hp|(kind&->&Hd)].
  - destruct (idle_run _ _ _ _ _ Ht Hp Hrun) as (?&?&?). simplify_eq.
  - rewrite Hd in Ht. by pose proof (operating_run _ _ _ _ _ _ _ _ _ _ Ht Hrun Ht') as [= -> -> ->].
Qed.

(** A running review ends only by the answer of the goroutine that performs it. *)
Lemma flight_ends w a w' k r call :
  system_inv w → inflight (service w) !! (k, r) = Some call → step w a = Some w' →
  inflight (service w') !! (k, r) = Some call
  ∨ ∃ t review err ctxErr now g, a = ReviewReturns t review err ctxErr now
    ∧ threads w !! t = Some (Reviewing k call r g)
    ∧ calls (service w') !! call = Some (Some (review_result (service w) k review err now)).
Proof.
  intros Hinv Hf. destruct a; cbn [step]; intros Hs.
  1,2: case_match; simplify_eq; by left.
  - destruct (threads w !! t) as [[]|] eqn:Ht; try done.
    destruct (check_enter _ _ _ _) as [out s'] eqn:He. simplify_eq. cbn. left.
    apply check_enter_spec in He. destruct out as [|?|call' r'];
      [by destruct He as (_&_&_&->)|by destruct He as [_ ->]|].
    destruct He as (->&Hn&_&->). cbn. rewrite lookup_insert_ne; [done|congruence].
  - destruct (threads w !! t) as [[|key' call' r' g'| | | |]|] eqn:Ht; try done. simplify_eq.
    destruct (decide ((key', r') = (k, r))) as [Heq|Hne].
    + right. injection Heq as -> ->. pose proof (inv_threads _ Hinv _ _ Ht) as Hf'. cbn in Hf'.
      assert (call' = call) as -> by congruence. do 6 eexists. split_and!; [done|done|].
      cbn. by rewrite lookup_insert_eq.
    + left. cbn. by rewrite lookup_delete_ne.
  - destruct (threads w !! t) as [[]|] eqn:Ht; try done. destruct (calls _ !! _) as [[]|]; simplify_eq.
    by left.
  - destruct (threads w !! t) as [[]|] eqn:Ht; try done. simplify_eq. by left.
  - destruct (threads w !! t) as [[]|] eqn:Ht; try done.
    destruct (guard_finish _ _ _) as [? invalidate]. simplify_eq. left. by destruct invalidate.
  - simplify_eq. by left.
  - simplify_eq. by left.
Qed.

(** The result of a finished review never changes. *)
Lemma answers_last w a w' call c :
  system_inv w → calls (service w) !! call = Some (Some c) → step w a = Some w' →
  calls (service w') !! call = Some (Some c).
Proof.
  intros Hinv Hc. destruct a; cbn [step]; intros Hs.
  1,2: case_match; simplify_eq; done.
  - destruct (threads w !! t) as [[]|] eqn:Ht; try done.
    destruct (check_enter _ _ _ _) as [out s'] eqn:He. simplify_eq. cbn.
    apply check_enter_spec in He. destruct out as [|?|call' r'];
      [by destruct He as (_&_&_&->)|by destruct He as [_ ->]|].
    destruct He as (_&_&Hn&->). cbn. rewrite lookup_insert_ne; [done|congruence].
  - destruct (threads w !! t) as [[|key' call' r' g'| | | |]|] eqn:Ht; try done. simplify_eq.
    cbn. rewrite lookup_insert_ne; [done|]. intros ->.
    pose proof (inv_threads _ Hinv _ _ Ht) as Hf. destruct (inv_flight _ Hinv _ _ _ Hf). congruence.
  - destruct (threads w !! t) as [[]|] eqn:Ht; try done. repeat case_match; by simplify_eq.
  - destruct (threads w !! t) as [[]|] eqn:Ht; try done. by simplify_eq.
  - destruct (threads w !! t) as [[]|] eqn:Ht; try done.
    destruct (guard_finish _ _ _) as [? invalidate]. simplify_eq. by destruct invalidate.
  - by simplify_eq.
  - by simplify_eq.
Qed.

Lemma unknown_stops key kind now :
  is_read kind = false → ∀ r c, decided key (Some kind) (capabilityFor key DecisionUnknown r now)
                                ≠ Operating key kind c.
Proof. intros Hk r c. cbn. unfold revalidated. cbn. by rewrite Hk. Qed.

Lemma joined_answer acts w w' t k call g c key kind c' :
  system_inv w → calls (service w) !! call = Some (Some c) → threads w !! t = Some (Joined k call g) →
  run w acts = Some w' → threads w' !! t = Some (Operating key kind c') → is_read kind = false →
  key = k ∧ c' = c.
Proof.
  revert w. induction acts as [|a acts IH]; intros w Hinv Hc Ht; cbn [run]; [intros [= <-]; congruence|].
  destruct (step w a) as [w1|] eqn:Hs; [|done]. intros Hrun Ht' Hkind.
  destruct (step_thread _ _ _ _ _ Hs Ht) as [Ht1|(th'&Ht1&[(c0&Hc0&->)|[now ->]])].
  - apply (IH w1); [by eapply step_keeps|by eapply answers_last|done..].
  - destruct (decided_run _ _ _ _ _ _ _ _ _ _ Ht1 Hrun Ht') as (->&_&->&_). split; congruence.
  - destruct (decided_run _ _ _ _ _ _ _ _ _ _ Ht1 Hrun Ht') as (->&->&->&Hd).
    by apply unknown_stops in Hd.
Qed.

(** The goroutine has not been handed a decision yet. *)
Definition unanswered (w : system) (t : nat) : Prop :=
  match threads w !! t with
  | Some (Joined k call _) => ∃ r, inflight (service w) !! (k, r) = Some call
  | Some (Operating _ _ _) => False
  | _ => True
  end.

Lemma new_unanswered w a w' t :
  threads w !! t = None → step w a = Some w' → unanswered w' t.
Proof.
  intros Ht Hs. unfold unanswered.
  assert (∀ t0 th s, threads w !! t0 = Some th → ∀ th', threads (move w s t0 th') !! t = None) as Hoth.
  { intros t0 th s Ht0 th'. cbn. rewrite lookup_insert_ne; [done|congruence]. }
  assert (∀ t0 s th', match th' with Joined _ _ _ | Operating _ _ _ => False | _ => True end →
            match threads (move w s t0 th') !! t with
            | Some (Joined _ _ _) | Some (Operating _ _ _) => False | _ => True end) as Hown.
  { intros t0 s th' Hth. cbn. destruct (decide (t0 = t)) as [->|?].
    - by rewrite lookup_insert_eq.
    - by rewrite lookup_insert_ne, Ht by done. }
  destruct a; cbn [step] in Hs.
  - destruct (threads w !! t0) eqn:Ht0; simplify_eq. 
    match goal with |- context [move w ?s t0 ?th] => pose proof (Hown t0 s th) as Ho end.
    repeat case_match; naive_solver.
  - destruct (threads w !! t0) eqn:Ht0; simplify_eq.
    pose proof (Hown t0 (service w) (call_guard key kind now)) as Ho.
    assert (match call_guard key kind now with Joined _ _ _ | Operating _ _ _ => False | _ => True end)
      as Hg by (unfold call_guard; by repeat case_match).
    specialize (Ho Hg). by repeat case_match.
  - destruct (threads w !! t0) as [[]|] eqn:Ht0; try done.
    destruct (check_enter _ _ _ _) as [out s'] eqn:He. simplify_eq. by rewrite (Hoth _ _ _ Ht0).
  - destruct (threads w !! t0) as [[]|] eqn:Ht0; try done. simplify_eq. by rewrite (Hoth _ _ _ Ht0).
  - destruct (threads w !! t0) as [[]|] eqn:Ht0; try done. destruct (calls _ !! _) as [[]|]; simplify_eq.
    by rewrite (Hoth _ _ _ Ht0).
  - destruct (threads w !! t0) as [[]|] eqn:Ht0; try done. simplify_eq. by rewrite (Hoth _ _ _ Ht0).
  - destruct (threads w !! t0) as [[]|] eqn:Ht0; try done.
    destruct (guard_finish _ _ _) as [? invalidate]. simplify_eq. by rewrite (Hoth _ _ _ Ht0).
  - simplify_eq. cbn. by rewrite Ht.
  - simplify_eq. cbn. by rewrite Ht.
Qed.

(** [a] is the reviewer's answer, to some goroutine, that [key] is allowed; [c] is the
    decision made of it. *)
Definition allowed_answer (v : system) (a : action) (key : Key) (c : Capability) : Prop :=
  ∃ t review ctxErr now call r g,
    a = ReviewReturns t review None ctxErr now
    ∧ threads v !! t = Some (Reviewing key call r g)
    ∧ rev_Complete review = true ∧ rev_Allowed review = true ∧ rev_Denied review = false
    ∧ c = review_result (service v) key review None now.

Lemma allowed_review s key review (err : option E) now :
  cap_Decision (review_result s key review err now) = DecisionAllowed →
  err = None ∧ rev_Complete review = true ∧ rev_Allowed review = true ∧ rev_Denied review = false.
Proof.
  unfold review_result, classifyReview. intros Hd.
  destruct err; [repeat case_match; done|].
  destruct (rev_Complete review), (rev_Allowed review), (rev_Denied review); done.
Qed.

Lemma live_answer acts w w' t key kind c :
  system_inv w → unanswered w t → run w acts = Some w' →
  threads w' !! t = Some (Operating key kind c) → is_read kind = false →
  ∃ acts1 a acts2 v, acts = (acts1 ++ a :: acts2)%list ∧ run w acts1 = Some v ∧ allowed_answer v a key c.
Proof.
  intros Hinv Hun Hrun Ht' Hkind.
  assert (cap_Decision c = DecisionAllowed) as Hallow.
  { pose proof (auth_run_keeps _ _ _ Hinv Hrun) as Hinv'.
    destruct (inv_threads _ Hinv' _ _ Ht') as (_&_&Ha). auto. }
  revert w Hinv Hun Hrun. induction acts as [|a acts IH]; intros w Hinv Hun; cbn [run].
  { intros [= <-]. unfold unanswered in Hun. by rewrite Ht' in Hun. }
  destruct (step w a) as [w1|] eqn:Hs; [|done]. intros Hrun.
  assert (unanswered w1 t → ∃ acts1 a0 acts2 v, (a :: acts)%list = (acts1 ++ a0 :: acts2)%list
            ∧ run w acts1 = Some v ∧ allowed_answer v a0 key c) as Hlater.
  { intros Hun1. destruct (IH w1 (step_keeps _ _ _ Hinv Hs) Hun1 Hrun) as (l1&a0&l2&v&->&Hv&Ha).
    exists (a :: l1)%list, a0, l2, v. split; [done|]. split; [cbn; by rewrite Hs|done]. }
  assert (∀ t0 review err ctxErr now call r g,
            a = ReviewReturns t0 review err ctxErr now →
            threads w !! t0 = Some (Reviewing key call r g) →
            c = review_result (service w) key review err now →
            ∃ acts1 a0 acts2 v, (a :: acts)%list = (acts1 ++ a0 :: acts2)%list
              ∧ run w acts1 = Some v ∧ allowed_answer v a0 key c) as Hnow.
  { intros t0 review err ctxErr now call r g -> Hr ->.
    apply allowed_review in Hallow as (->&?&?&?). exists []%list. do 3 eexists. do 2 (split; [done|]).
    do 7 eexists. split_and!; done. }
  unfold unanswered in Hun. destruct (threads w !! t) as [th|] eqn:Ht.
  2: { apply Hlater. by eapply new_unanswered. }
  destruct (step_thread _ _ _ _ _ Hs Ht) as [Ht1|(th'&Ht1&Hpr)].
  - destruct th as [| |k call g| | |]; try (apply Hlater; unfold unanswered; by rewrite Ht1).
    destruct Hun as [r Hf]. destruct (flight_ends _ _ _ _ _ _ Hinv Hf Hs)
      as [Hf1|(t0&review&err&ctxErr&now&g0&Ha&Hr&Hc)].
    + apply Hlater. unfold unanswered. rewrite Ht1. eauto.
    + destruct (joined_answer _ _ _ _ _ _ _ _ _ _ _ (step_keeps _ _ _ Hinv Hs) Hc Ht1 Hrun Ht' Hkind)
        as [-> Heq]. by eapply Hnow.
  - destruct th as [k b g|k call r g|k call g| |k kd cc|]; cbn in Hpr; try done.
    + destruct Hpr as [(->&cc&_&->)|[(call&Hf&Hsame&->)|(call&r&->)]].
      * destruct (decided_run _ _ _ _ _ _ _ _ _ _ Ht1 Hrun Ht') as (->&->&_&_).
        pose proof (inv_threads _ Hinv _ _ Ht) as Hok. cbn in Hok. by rewrite Hkind in Hok.
      * apply Hlater. unfold unanswered. rewrite Ht1, Hsame. eauto.
      * apply Hlater. unfold unanswered. by rewrite Ht1.
    + destruct Hpr as (t0&review&err&ctxErr&now&Ha&Hr&->).
      destruct (decided_run _ _ _ _ _ _ _ _ _ _ Ht1 Hrun Ht') as (->&_&Heq&_). by eapply Hnow.
    + destruct Hun as [r Hf]. destruct Hpr as [(cc&Hc&->)|[now ->]].
      * destruct (inv_flight _ Hinv _ _ _ Hf). congruence.
      * destruct (decided_run _ _ _ _ _ _ _ _ _ _ Ht1 Hrun Ht') as (->&->&->&Hd).
        by apply unknown_stops in Hd.
Qed.

(** C3: a guarded mutation or upgrade runs only on a live answer. If a goroutine that had
    not yet called [Guard] in state [w] later runs its operation for [key] with a kind other
    than read, then between [w] and that moment the reviewer itself answered, to a
    goroutine reviewing exactly that key, with a complete review that allows and does not
    deny; the decision the operation carries is that answer's. No cached decision, timeout,
    cancellation or answer about another key lets a mutation through. *)
Theorem mutation_needs_live_allow requested s before w t acts w' key kind c :
  New requested = Some s → run (init_system s) before = Some w → threads w !! t = None →
  run w acts = Some w' → threads w' !! t = Some (Operating key kind c) → is_read kind = false →
  ∃ acts1 a acts2 v, acts = (acts1 ++ a :: acts2)%list ∧ run w acts1 = Some v
                     ∧ allowed_answer v a key c.
Proof.
  intros Hnew Hbefore Ht. apply live_answer.
  - eapply auth_run_keeps, Hbefore. by eapply auth_init_inv.
  - unfold unanswered. by rewrite Ht.
Qed.

End service.

(** ** Rule summaries *)

Record ResourceRuleHint := {
  rule_Verbs : list string; rule_APIGroups : list string; rule_Resources : list string;
  rule_ResourceNames : list string }.

Record RulesReviewResult := { rules_Complete : bool; rules_Rules : list ResourceRuleHint }.

Record RulesSummary := {
  sum_Namespace : string; sum_Complete : bool; sum_ReasonCode : string;
  sum_Rules : list ResourceRuleHint }.

Definition maxRules : nat := 256.
Definition maxRuleValues : nat := 64.
Definition maxRuleValueLength : Z := 256.

Definition sanitizeRuleValues (source : list string) : list string :=
  List.filter (λ value, negb (String.eqb value EmptyString || (maxRuleValueLength <? len value)%Z
                              || negb (String.eqb (TrimSpace value) value))
                        && forallb (λ r, negb (IsControl r)) (string_runes value))
    (take maxRuleValues source).

Definition sanitizeRuleHints (source : list ResourceRuleHint) : list ResourceRuleHint :=
  (λ rule, {| rule_Verbs := sanitizeRuleValues (rule_Verbs rule);
              rule_APIGroups := sanitizeRuleValues (rule_APIGroups rule);
              rule_Resources := sanitizeRuleValues (rule_Resources rule);
              rule_ResourceNames := sanitizeRuleValues (rule_ResourceNames rule) |})
    <$> take maxRules source.

Definition ReasonSSRRUnavailable : string := "SSRR_UNAVAILABLE"%string.
Definition ReasonSSRRIncomplete : string := "SSRR_INCOMPLETE"%string.
Definition ReasonSSRRSummaryAvailable : string := "SSRR_SUMMARY_AVAILABLE"%string.

(** [reviewer] is [None] without a rules reviewer, and answers [None] on an error. *)
Definition Summary `{DnsNames} (reviewer : option (string → option RulesReviewResult))
    (namespace : string) : RulesSummary :=
  let unavailable := {| sum_Namespace := namespace; sum_Complete := false;
                        sum_ReasonCode := ReasonSSRRUnavailable; sum_Rules := [] |} in
  if negb (String.eqb namespace EmptyString) && negb (IsDNS1123Label namespace) then unavailable
  else match reviewer with
       | None => unavailable
       | Some ReviewRules =>
         match ReviewRules namespace with
         | None => unavailable
         | Some review =>
           let rules := sanitizeRuleHints (rules_Rules review) in
           {| sum_Namespace := namespace; sum_Complete := rules_Complete review;
              sum_ReasonCode := if rules_Complete review then ReasonSSRRSummaryAvailable
                                else ReasonSSRRIncomplete;
              sum_Rules := rules |}
         end
       end.

Definition rule_values (rule : ResourceRuleHint) : list (list string) :=
  [rule_Verbs rule; rule_APIGroups rule; rule_Resources rule; rule_ResourceNames rule].

Lemma sanitizeRuleValues_ok source :
  (length (sanitizeRuleValues source) ≤ maxRuleValues)%nat
  ∧ Forall (λ v, v ≠ EmptyString ∧ (len v ≤ maxRuleValueLength)%Z ∧ TrimSpace v = v
                 ∧ Forall (λ r, IsControl r = false) (string_runes v)) (sanitizeRuleValues source).
Proof.
  unfold sanitizeRuleValues. split.
  - etrans; [apply List.filter_length_le|]. rewrite length_take. lia.
  - apply Forall_forall. intros v Hv%list_elem_of_In%List.filter_In.
    destruct Hv as [_ [Hb Hr]%andb_prop].
    rewrite negb_true_iff, !orb_false_iff, negb_false_iff in Hb.
    destruct Hb as [[Hne ?%Z.ltb_ge] Htrim%String.eqb_eq].
    apply String.eqb_neq in Hne. split_and!; [done..|].
    apply Forall_forall. intros r Hin%list_elem_of_In.
    apply (proj1 (forallb_forall _ _) Hr) in Hin. by apply negb_true_iff in Hin.
Qed.

(** A summary is bounded and safe to show: at most 256 rules of at most 64 values per field,
    each non-empty, at most 256 bytes, trimmed and without control characters. *)
Theorem summary_bounded `{DnsNames} reviewer namespace :
  let summary := Summary reviewer namespace in
  (length (sum_Rules summary) ≤ maxRules)%nat
  ∧ Forall (λ rule, Forall (λ values, (length values ≤ maxRuleValues)%nat
      ∧ Forall (λ v, v ≠ EmptyString ∧ (len v ≤ maxRuleValueLength)%Z ∧ TrimSpace v = v
                     ∧ Forall (λ r, IsControl r = false) (string_runes v)) values) (rule_values rule))
      (sum_Rules summary).
Proof.
  cbv zeta. unfold Summary. repeat case_match; cbn [sum_Rules];
    try (split; [apply Nat.le_0_l|by constructor]).
  all: unfold sanitizeRuleHints; split; [rewrite length_fmap, length_take; apply Nat.le_min_l|].
  all: apply Forall_fmap, Forall_forall; intros rule _; cbn.
  all: unfold rule_values; rewrite !Forall_cons, Forall_nil; split_and!;
    first [done|apply sanitizeRuleValues_ok].
Qed.

(** ** Witnesses *)

Section demo.
Local Open Scope string_scope.

(** An error type with one error, a 403. *)
#[local] Instance demo_errors : OperationErrors unit := {|
  err_canceled := λ _, false; err_deadline := λ _, false; err_IsTimeout := λ _, false;
  err_IsServerTimeout := λ _, false; err_IsForbidden := λ _, true; err_IsUnauthorized := λ _, false;
  err_IsServiceUnavailable := λ _, false; err_IsTooManyRequests := λ _, false;
  err_IsInternalError := λ _, false; certificate_error := λ _, false; dns_error := λ _, false;
  network_error := λ _, None |}.

Definition demo_service : Service := {|
  ttl := DefaultTTL; cache := ∅; inflight := ∅; calls := ∅; globalRevision := 0;
  generationRevisions := ∅; keyRevisions := ∅ |}.

Definition demo_key : Key := {|
  k_Generation := "gen_1"; k_Namespace := "team"; k_APIGroup := ""; k_Resource := "pods";
  k_Subresource := ""; k_Verb := "delete"; k_ResourceName := "api-0" |}.

Definition demo_yes : AccessReviewResult :=
  {| rev_Allowed := true; rev_Denied := false; rev_Complete := true |}.

Definition demo_run (acts : list (@action unit)) : system :=
  default (init_system demo_service) (run (init_system demo_service) acts).

(** Goroutine 0 starts a review; goroutine 1 deletes the pod and is refused with a 403. *)
Definition demo_before : list (@action unit) :=
  [CallCheck 0 demo_key false 10; Enter 0 11].

Definition demo_mutation : list (@action unit) :=
  [CallGuard 1 demo_key OperationMutation 12; Enter 1 13;
   ReviewReturns 0 demo_yes None false 20; CallDone 1].

Definition demo_runs (w : system) (acts : list (@action unit)) : bool :=
  match run w acts with Some _ => true | None => false end.

Lemma demo_run_ok acts :
  demo_runs (init_system demo_service) acts = true →
  run (init_system demo_service) acts = Some (demo_run acts).
Proof. unfold demo_runs, demo_run. by destruct (run _ acts). Defined.

Lemma demo_run_app acts1 acts2 :
  demo_runs (init_system demo_service) acts1 = true → demo_runs (demo_run acts1) acts2 = true →
  run (demo_run acts1) acts2 = Some (demo_run (acts1 ++ acts2)%list).
Proof.
  intros H1%demo_run_ok. unfold demo_runs, demo_run at 3. rewrite auth_run_app, H1. cbn.
  by destruct (run _ acts2).
Defined.

Lemma stale_review_fenced_witness :
  run (init_system demo_service) demo_before = Some (demo_run demo_before)
  ∧ cache (service (demo_run (demo_before ++ [CallInvalidateAll])%list)) !! demo_key = None.
Proof.
  split; [reflexivity|].
  exact (proj1 (stale_review_fenced 0 demo_service demo_before (demo_run demo_before) 0 demo_key 0
           (0, 0, 0)%Z None CallInvalidateAll (demo_run (demo_before ++ [CallInvalidateAll])%list) []
           (demo_run (demo_before ++ [CallInvalidateAll])%list)
           eq_refl eq_refl eq_refl eq_refl eq_refl eq_refl eq_refl eq_refl)).
Defined.

Lemma reviews_single_flight_witness :
  run (init_system demo_service) (demo_before ++ demo_mutation)%list
    = Some (demo_run (demo_before ++ demo_mutation)%list)
  ∧ ∀ key c, cache (service (demo_run (demo_before ++ demo_mutation)%list)) !! key = Some c → for_key key c.
Proof.
  assert (run (init_system demo_service) (demo_before ++ demo_mutation)%list
    = Some (demo_run (demo_before ++ demo_mutation)%list)) as Hr.
  { apply demo_run_ok. by vm_compute. }
  split; [exact Hr|].
  exact (proj2 (proj2 (reviews_single_flight 0 demo_service _ _ eq_refl Hr))).
Defined.

Definition demo_allowed : Capability := capabilityFor demo_key DecisionAllowed ReasonSARAllowed (20 + DefaultTTL).

Lemma mutation_needs_live_allow_witness :
  ∃ acts1 a acts2 v, demo_mutation = (acts1 ++ a :: acts2)%list
    ∧ run (demo_run demo_before) acts1 = Some v ∧ allowed_answer v a demo_key demo_allowed.
Proof.
  apply (mutation_needs_live_allow 0 demo_service demo_before (demo_run demo_before) 1 demo_mutation
           (demo_run (demo_before ++ demo_mutation)%list) demo_key OperationMutation demo_allowed).
  - reflexivity.
  - apply demo_run_ok. by vm_compute.
  - by vm_compute.
  - apply demo_run_app; by vm_compute.
  - by vm_compute.
  - reflexivity.
Defined.

End demo.
