(* ===== verification/Selection.v ===== *)
(** * Selection: generations, the session nonce and the active selection

    Model of src/internal/api/generation.go, src/internal/api/session.go and
    src/internal/services/selection (coordinator.go, state.go). A change of the active
    context or scope runs in three parts: [Begin] records the newest intent and cancels its
    predecessor, remote preparation runs without a lock, and [CommitConditional] runs the
    local transaction and publishes a new generation under the coordinator's lock.
    Goroutines interleave at every lock: the coordinator's [c.mu] is held across a whole
    commit, whose parts (rotate the generation, restart the generation's work and call the
    hooks, install the selection, rotate the nonce) are separate steps here, because
    [Snapshot], [IfCurrent], [Initialize] and [Current] take other locks and can run between
    them. The callbacks' answers and the random bytes come with the actions. *)
From Stdlib Require Import Ascii String ZArith Lia.
From stdpp Require Import base gmap strings list.
From S2P Require Import Prelude Json Encoding.

Local Open Scope string_scope.

(** ** The generation store *)

(** [newOpaqueValue]: the random bytes come from crypto/rand, [None] when it fails. *)
Definition newOpaqueValue (prefix : string) (random : option (list Z)) : option string :=
  (λ bytes, prefix +:+ base64_encode bytes) <$> random.

Definition Rotate_generation (random : option (list Z)) : option string :=
  newOpaqueValue "gen_" random.

(** ** The session store *)

Definition MaxSessionTTL : Z := 8 * 3600 * 1000000000.

Record SessionStore := {
  ses_ttl : Z; ses_token : string; ses_generation : string; ses_expiresAt : Z }.

Definition NewSessionStore (ttl : Z) : option SessionStore :=
  let ttl := if (ttl =? 0)%Z then MaxSessionTTL else ttl in
  if (ttl <? 0)%Z || (MaxSessionTTL <? ttl)%Z then None
  else Some {| ses_ttl := ttl; ses_token := ""; ses_generation := ""; ses_expiresAt := 0 |}.

Definition rotateLocked (s : SessionStore) (generation : string) (now : Z) (random : option (list Z))
  : option SessionStore :=
  match random with
  | None => None
  | Some bytes => Some {| ses_ttl := ses_ttl s; ses_token := base64_encode bytes;
                          ses_generation := generation; ses_expiresAt := now + ses_ttl s |}
  end.

Record SessionData := {
  sd_CSRFToken : string; sd_Origin : string; sd_Generation : string; sd_ExpiresAt : Z }.

Definition session_data (s : SessionStore) (origin : string) : SessionData :=
  {| sd_CSRFToken := ses_token s; sd_Origin := origin; sd_Generation := ses_generation s;
     sd_ExpiresAt := ses_expiresAt s |}.

Definition session_stale (s : SessionStore) (generation : string) (now : Z) : bool :=
  String.eqb (ses_token s) "" || negb (String.eqb (ses_generation s) generation)
  || negb (now <? ses_expiresAt s)%Z.

Definition Current (s : SessionStore) (origin generation : string) (now : Z) (random : option (list Z))
  : option SessionData * SessionStore :=
  if String.eqb generation "" then (None, s)
  else if session_stale s generation now
  then match rotateLocked s generation now random with
       | None => (None, s)
       | Some s' => (Some (session_data s' origin), s')
       end
  else (Some (session_data s origin), s).

Definition Rotate_session (s : SessionStore) (generation : string) (now : Z) (random : option (list Z))
  : option SessionStore :=
  if String.eqb generation "" then None else rotateLocked s generation now random.

Definition ValidateSession (s : SessionStore) (token generation : string) (now : Z) : bool :=
  if String.eqb token "" || String.eqb generation "" || session_stale s generation now then false
  else String.eqb token (ses_token s).

(** ** The coordinator *)

Inductive ctx_error := ctx_Canceled | ctx_DeadlineExceeded.

#[export] Instance ctx_error_eq_dec : EqDecision ctx_error.
Proof. solve_decision. Defined.

Record ScopeResolution := {
  res_ScopeID : Z; res_ScopeName : string; res_ScopeMode : string; res_ScopeSource : string;
  res_DefaultNamespace : option string; res_Namespaces : list string; res_PreferGlobal : bool }.

Record SelectionBinding := {
  bind_ClusterProfileID : Z; bind_Context : string; bind_Cluster : string;
  bind_ActiveScopeID : Z; bind_Generation : string }.

Record SelectionMutation := {
  mut_PublishGeneration : bool; mut_Activation : option ScopeResolution }.

Record SelectionResult := {
  sel_Generation : string; sel_Binding : SelectionBinding; sel_Resolution : ScopeResolution;
  sel_Changed : bool }.

Inductive sel_error :=
| ErrSuperseded | ErrGenerationChanged | NamespacesErrGenerationChanged
| PublishedStateError (stage : string)
| OtherError (message : string).

Definition mapMutationError (e : sel_error) : sel_error :=
  match e with
  | ErrGenerationChanged | ErrSuperseded => NamespacesErrGenerationChanged
  | _ => e
  end.

(** [intents] gives the error of every intent's context, [None] while it is live; an
    intent is named by its goroutine. [workCtx] is the address of the current work context and
    [workDone] the set of canceled ones. [invalidations] records the hook calls. *)
Record Coordinator := {
  generation : string;
  sessions : SessionStore;
  sequence : Z;
  intents : gmap nat (option ctx_error);
  intentStop : option nat;
  workCtx : nat;
  workDone : gset nat;
  workStop : bool;
  hooks : nat;
  invalidations : list string }.

Definition NewCoordinator (generation : string) (s : SessionStore) (hooks : nat) : option Coordinator :=
  if String.eqb generation "" then None
  else Some {| generation := generation; sessions := s; sequence := 0; intents := ∅;
               intentStop := None; workCtx := 0; workDone := ∅; workStop := true; hooks := hooks;
               invalidations := [] |}.

Definition cancel_intent (i : nat) (m : gmap nat (option ctx_error)) : gmap nat (option ctx_error) :=
  match m !! i with Some None => <[i := Some ctx_Canceled]> m | _ => m end.

Definition with_intents (c : Coordinator) (n : Z) (m : gmap nat (option ctx_error)) (stop : option nat)
  : Coordinator :=
  {| generation := generation c; sessions := sessions c; sequence := n; intents := m;
     intentStop := stop; workCtx := workCtx c; workDone := workDone c; workStop := workStop c;
     hooks := hooks c; invalidations := invalidations c |}.

(** [parent] is the error of the caller's context, if it has ended. *)
Definition Begin (c : Coordinator) (i : nat) (parent : option ctx_error) : Coordinator :=
  let m := match intentStop c with Some p => cancel_intent p (intents c) | None => intents c end in
  with_intents c (u64_succ (sequence c)) (<[i := parent]> m) (Some i).

Definition Cancel (c : Coordinator) (i : nat) : Coordinator :=
  with_intents c (sequence c) (cancel_intent i (intents c)) (intentStop c).

Definition superseded (c : Coordinator) (i : nat) (seq : Z) : bool :=
  negb (seq =? sequence c)%Z || bool_decide (intents c !! i = Some (Some ctx_Canceled)).

Definition Intent_Validate (c : Coordinator) (i : nat) (seq : Z) (expectedGeneration : string)
  : option sel_error :=
  if superseded c i seq then Some ErrSuperseded
  else if String.eqb expectedGeneration "" || negb (String.eqb expectedGeneration (generation c))
  then Some ErrGenerationChanged else None.

Definition with_generation (c : Coordinator) (g : string) : Coordinator :=
  {| generation := g; sessions := sessions c; sequence := sequence c; intents := intents c;
     intentStop := intentStop c; workCtx := workCtx c; workDone := workDone c;
     workStop := workStop c; hooks := hooks c; invalidations := invalidations c |}.

(** Stop the generation's work, start a new context and call the hooks. *)
Definition restart_work (c : Coordinator) (next : string) : Coordinator :=
  {| generation := generation c; sessions := sessions c; sequence := sequence c;
     intents := intents c; intentStop := intentStop c; workCtx := S (workCtx c);
     workDone := (if workStop c then {[workCtx c]} else ∅) ∪ workDone c; workStop := true;
     hooks := hooks c; invalidations := (invalidations c ++ replicate (hooks c) next)%list |}.

Definition with_sessions (c : Coordinator) (s : SessionStore) : Coordinator :=
  {| generation := generation c; sessions := s; sequence := sequence c; intents := intents c;
     intentStop := intentStop c; workCtx := workCtx c; workDone := workDone c;
     workStop := workStop c; hooks := hooks c; invalidations := invalidations c |}.

Definition Close (c : Coordinator) : Coordinator :=
  {| generation := generation c; sessions := sessions c; sequence := sequence c;
     intents := match intentStop c with Some p => cancel_intent p (intents c) | None => intents c end;
     intentStop := None; workCtx := workCtx c;
     workDone := (if workStop c then {[workCtx c]} else ∅) ∪ workDone c; workStop := false;
     hooks := hooks c; invalidations := invalidations c |}.

(** ** The active selection *)

Record State := { st_binding : SelectionBinding; st_resolution : ScopeResolution }.

Definition with_binding_generation (b : SelectionBinding) (g : string) (scope : Z) : SelectionBinding :=
  {| bind_ClusterProfileID := bind_ClusterProfileID b; bind_Context := bind_Context b;
     bind_Cluster := bind_Cluster b; bind_ActiveScopeID := scope; bind_Generation := g |}.

Definition NewState (c : Coordinator) (b : SelectionBinding) (r : ScopeResolution) : option State :=
  let b := if String.eqb (bind_Generation b) ""
           then with_binding_generation b (generation c) (bind_ActiveScopeID b) else b in
  if negb (String.eqb (bind_Generation b) (generation c)) then None
  else Some {| st_binding := b; st_resolution := r |}.

(** [IfCurrent]: whether the function runs. *)
Definition IfCurrent (s : State) (b : SelectionBinding) : bool :=
  (bind_ClusterProfileID (st_binding s) =? bind_ClusterProfileID b)%Z
  && String.eqb (bind_Context (st_binding s)) (bind_Context b)
  && String.eqb (bind_Generation (st_binding s)) (bind_Generation b)
  && (bind_ActiveScopeID (st_binding s) =? bind_ActiveScopeID b)%Z.

Definition Initialize (s : State) (current : string) (b : SelectionBinding) (r : ScopeResolution)
  : option sel_error * State :=
  if (bind_ClusterProfileID b <=? 0)%Z || String.eqb (bind_Context b) ""
  then (Some (OtherError "selection: initial profile and context are required"), s)
  else if negb (bind_ClusterProfileID (st_binding s) =? 0)%Z
          || negb (String.eqb (bind_Context (st_binding s)) "")
  then (Some (OtherError "selection: initial state is already bound"), s)
  else (None, {| st_binding := with_binding_generation b current (res_ScopeID r); st_resolution := r |}).

(** What is committed: the scope mutation of [Mutate], or a new context ([checked] for
    [ReplaceContextPrepared]; [present] when there is a transaction). *)
Inductive payload :=
| ScopeMutation
| NewContext (b : SelectionBinding) (r : ScopeResolution) (checked present : bool).

(** The transaction callbacks; [answer] is what the inner callback returns. *)
Definition transaction (s : State) (expected : string) (p : payload)
    (answer : result sel_error SelectionMutation) : result sel_error SelectionMutation :=
  match p with
  | ScopeMutation =>
    if negb (String.eqb (bind_Generation (st_binding s)) expected) then Err ErrGenerationChanged
    else match answer with
         | Err e => Err e
         | Ok m =>
           match mut_PublishGeneration m, mut_Activation m with
           | true, None =>
             Err (OtherError "selection: published scope mutation requires an activation")
           | false, Some _ =>
             Err (OtherError "selection: inactive scope mutation cannot activate a resolution")
           | _, _ => Ok m
           end
         end
  | NewContext _ r checked present =>
    if checked && negb (String.eqb (bind_Generation (st_binding s)) expected)
    then Err ErrGenerationChanged
    else if negb present then Err (OtherError "selection: context transaction is required")
    else match answer with
         | Err e => Err e
         | Ok _ => Ok {| mut_PublishGeneration := true; mut_Activation := Some r |}
         end
  end.

(** The [afterPublish] callbacks. *)
Definition install (s : State) (p : payload) (m : SelectionMutation) (g : string) : State :=
  match p with
  | ScopeMutation =>
    match mut_PublishGeneration m, mut_Activation m with
    | true, Some r =>
      {| st_binding := with_binding_generation (st_binding s) g (res_ScopeID r); st_resolution := r |}
    | _, _ => s
    end
  | NewContext b r _ _ =>
    {| st_binding := with_binding_generation b g (res_ScopeID r); st_resolution := r |}
  end.

Definition installed_result (s : State) (m : SelectionMutation) (g : string) : SelectionResult :=
  {| sel_Generation := g; sel_Binding := st_binding s; sel_Resolution := st_resolution s;
     sel_Changed := mut_PublishGeneration m |}.

Definition with_result_generation (r : SelectionResult) (g : string) : SelectionResult :=
  {| sel_Generation := g; sel_Binding := sel_Binding r; sel_Resolution := sel_Resolution r;
     sel_Changed := sel_Changed r |}.

(** What [Mutate] and [ReplaceContextPrepared] return, or what [ReplaceContext] returns. *)
Inductive outcome :=
| Result (r : SelectionResult) | Failed (e : sel_error)
| Replaced (next : string) (err : option sel_error).

Definition raw (p : payload) : bool :=
  match p with NewContext _ _ false _ => true | _ => false end.

Definition conclude_error (p : payload) (next : string) (e : sel_error) : outcome :=
  if raw p then Replaced next (Some e) else Failed (mapMutationError e).

Definition conclude (p : payload) (next : string) (r : SelectionResult) : outcome :=
  match p with
  | ScopeMutation =>
    if String.eqb (sel_Generation r) ""
    then Failed (OtherError "selection: commit completed without a result snapshot")
    else Result (with_result_generation r next)
  | NewContext _ _ true _ => Result (with_result_generation r next)
  | NewContext _ _ false _ => Replaced next None
  end.

(** ** Goroutines *)

(** A call; the flag says whether the preparation callback is there. *)
Inductive request :=
| Mutate (prepare : bool) | ReplaceContextPrepared (prepare : bool)
| ReplaceContext (b : SelectionBinding) (r : ScopeResolution) (transaction : bool).

Inductive preparation :=
| PrepareFailed (e : sel_error)
| PreparedCommit (present : bool)
| PreparedContext (b : SelectionBinding) (r : ScopeResolution) (present : bool).

Inductive thread :=
| Opened (seq : Z) (expected : string) (req : request)       (* before the first Validate *)
| Validated (seq : Z) (expected : string) (req : request)    (* before reading the binding *)
| Compared (seq : Z) (expected : string) (req : request)     (* before the second Validate *)
| Preparing (seq : Z) (expected : string) (req : request)
| Prepared (seq : Z) (expected : string) (answer : preparation) (* before the third Validate *)
| Committing (seq : Z) (expected : string) (p : payload)
| Rotating (expected : string) (p : payload) (m : SelectionMutation) (* c.mu is held from here *)
| Restarting (p : payload) (m : SelectionMutation) (next : string)
| Installing (p : payload) (m : SelectionMutation) (next : string)
| Nonce (p : payload) (r : SelectionResult) (next : string)
| Returned (o : outcome).

Record system := {
  coordinator : Coordinator; state : State; lock : option nat; threads : gmap nat thread }.

Inductive action :=
| Call (t : nat) (expected : string) (req : request) (parent : option ctx_error)
| RunValidate (t : nat) | RunRead (t : nat) | RunPrepare (t : nat) (answer : preparation)
| RunCommit (t : nat) (answer : result sel_error SelectionMutation)
| RunRotate (t : nat) (random : option (list Z)) | RunRestart (t : nat) | RunInstall (t : nat)
| RunNonce (t : nat) (now : Z) (random : option (list Z))
| ParentDone (t : nat) (err : ctx_error)
| RunInitialize (b : SelectionBinding) (r : ScopeResolution)
| RunSession (origin gen : string) (now : Z) (random : option (list Z))
| RunClose.

Definition after_prepare (seq : Z) (expected : string) (answer : preparation) : thread :=
  match answer with
  | PrepareFailed e => Returned (Failed e)
  | PreparedCommit false =>
    Returned (Failed (OtherError "selection: local commit callback is required"))
  | PreparedCommit true => Committing seq expected ScopeMutation
  | PreparedContext b r present =>
    if (bind_ClusterProfileID b <=? 0)%Z || String.eqb (bind_Context b) ""
    then Returned (Failed (OtherError "selection: prepared profile and context are required"))
    else if negb present
    then Returned (Failed (OtherError "selection: prepared context transaction is required"))
    else Committing seq expected (NewContext b r true true)
  end.

Definition goto (w : system) (c : Coordinator) (s : State) (l : option nat) (t : nat) (th : thread)
  : system :=
  {| coordinator := c; state := s; lock := l; threads := <[t := th]> (threads w) |}.

(** Returning cancels the intent and gives up the lock. *)
Definition return_ (w : system) (c : Coordinator) (s : State) (t : nat) (o : outcome) : system :=
  goto w (Cancel c t) s None t (Returned o).

Definition validate_then (w : system) (t : nat) (seq : Z) (expected : string) (next : thread) : system :=
  match Intent_Validate (coordinator w) t seq expected with
  | Some e => return_ w (coordinator w) (state w) t (Failed (mapMutationError e))
  | None => match next with
            | Returned o => return_ w (coordinator w) (state w) t o
            | _ => goto w (coordinator w) (state w) None t next
            end
  end.

Definition begin_call (w : system) (t : nat) (expected : string) (req : request) (parent : option ctx_error)
  : system :=
  let c := Begin (coordinator w) t parent in
  match req with
  | Mutate false => goto w (coordinator w) (state w) None t
      (Returned (Failed (OtherError "selection: preparation callback is required")))
  | ReplaceContextPrepared false => goto w (coordinator w) (state w) None t
      (Returned (Failed (OtherError "selection: context preparation callback is required")))
  | Mutate true | ReplaceContextPrepared true =>
      goto w c (state w) None t (Opened (sequence c) expected req)
  | ReplaceContext b r present =>
      goto w c (state w) None t (Committing (sequence c) expected (NewContext b r false present))
  end.

(** [CommitConditional] up to the end of the transaction. *)
Definition commit (w : system) (t : nat) (seq : Z) (expected : string) (p : payload)
    (answer : result sel_error SelectionMutation) : system :=
  let c := coordinator w in
  let failed e := return_ w c (state w) t (conclude_error p "" e) in
  if superseded c t seq then failed ErrSuperseded
  else if String.eqb expected "" || negb (String.eqb expected (generation c))
  then failed ErrGenerationChanged
  else match transaction (state w) expected p answer with
       | Err e => failed e
       | Ok m => goto w c (state w) (Some t) t
                   (if mut_PublishGeneration m then Rotating expected p m
                    else Installing p m (generation c))
       end.

Definition fits (req : request) (answer : preparation) : bool :=
  match req, answer with
  | _, PrepareFailed _ | Mutate _, PreparedCommit _ | ReplaceContextPrepared _, PreparedContext _ _ _ => true
  | _, _ => false
  end.

(** One step; [None] when the goroutine is elsewhere or the lock is taken. *)
Definition step (w : system) (a : action) : option system :=
  let c := coordinator w in let s := state w in
  let free := bool_decide (lock w = None) in
  match a with
  | Call t expected req parent =>
    if free && bool_decide (threads w !! t = None) then Some (begin_call w t expected req parent) else None
  | RunValidate t =>
    if free then
      match threads w !! t with
      | Some (Opened seq e req) => Some (validate_then w t seq e (Validated seq e req))
      | Some (Compared seq e req) => Some (validate_then w t seq e (Preparing seq e req))
      | Some (Prepared seq e answer) => Some (validate_then w t seq e (after_prepare seq e answer))
      | _ => None
      end
    else None
  | RunRead t =>
    match threads w !! t with
    | Some (Validated seq e req) =>
      Some (if String.eqb (bind_Generation (st_binding s)) e
            then goto w c s (lock w) t (Compared seq e req)
            else goto w (Cancel c t) s (lock w) t (Returned (Failed NamespacesErrGenerationChanged)))
    | _ => None
    end
  | RunPrepare t answer =>
    match threads w !! t with
    | Some (Preparing seq e req) =>
      if fits req answer then Some (goto w c s (lock w) t (Prepared seq e answer)) else None
    | _ => None
    end
  | RunCommit t answer =>
    if free then
      match threads w !! t with
      | Some (Committing seq e p) => Some (commit w t seq e p answer)
      | _ => None
      end
    else None
  | RunRotate t random =>
    match threads w !! t with
    | Some (Rotating e p m) =>
      Some (match Rotate_generation random with
            | None => return_ w c s t (conclude_error p "" (PublishedStateError "generation"))
            | Some next => goto w (with_generation c next) s (lock w) t (Restarting p m next)
            end)
    | _ => None
    end
  | RunRestart t =>
    match threads w !! t with
    | Some (Restarting p m next) => Some (goto w (restart_work c next) s (lock w) t (Installing p m next))
    | _ => None
    end
  | RunInstall t =>
    match threads w !! t with
    | Some (Installing p m next) =>
      let s' := install s p m next in
      let r := installed_result s' m next in
      Some (if mut_PublishGeneration m then goto w c s' (lock w) t (Nonce p r next)
            else return_ w c s' t (conclude p next r))
    | _ => None
    end
  | RunNonce t now random =>
    match threads w !! t with
    | Some (Nonce p r next) =>
      Some (match Rotate_session (sessions c) next now random with
            | None => return_ w c s t (conclude_error p next (PublishedStateError "csrf"))
            | Some ses => return_ w (with_sessions c ses) s t (conclude p next r)
            end)
    | _ => None
    end
  | ParentDone t err =>
    match intents c !! t with
    | Some None =>
      Some {| coordinator := with_intents c (sequence c) (<[t := Some err]> (intents c)) (intentStop c);
              state := s; lock := lock w; threads := threads w |}
    | _ => None
    end
  | RunInitialize b r =>
    Some {| coordinator := c; state := (Initialize s (generation c) b r).2; lock := lock w;
            threads := threads w |}
  | RunSession origin gen now random =>
    Some {| coordinator := with_sessions c (Current (sessions c) origin gen now random).2; state := s;
            lock := lock w; threads := threads w |}
  | RunClose =>
    if free then Some {| coordinator := Close c; state := s; lock := None; threads := threads w |}
    else None
  end.

Fixpoint run (w : system) (acts : list action) : option system :=
  match acts with
  | [] => Some w
  | a :: acts' => match step w a with Some w' => run w' acts' | None => None end
  end.

Definition init_system (c : Coordinator) (s : State) : system :=
  {| coordinator := c; state := s; lock := None; threads := ∅ |}.

(** ** Publishing mutations *)

Definition publishes (m : SelectionMutation) : Prop := mut_PublishGeneration m = true.

Lemma transaction_activation s e p answer m :
  transaction s e p answer = Ok m → publishes m → p = ScopeMutation → mut_Activation m ≠ None.
Proof.
  intros Ht Hp ->. cbn in Ht. unfold publishes in Hp. repeat case_match; simplify_eq; congruence.
Qed.

Lemma transaction_generation s s' e p answer :
  bind_Generation (st_binding s) = bind_Generation (st_binding s') →
  transaction s e p answer = transaction s' e p answer.
Proof. intros Hg. unfold transaction. by rewrite Hg. Qed.

Lemma install_generation s p m next :
  publishes m → (p = ScopeMutation → mut_Activation m ≠ None) →
  bind_Generation (st_binding (install s p m next)) = next.
Proof.
  intros Hp Ha. destruct p; cbn; [|done]. rewrite Hp. destruct (mut_Activation m); [done|by destruct Ha].
Qed.

(** ** The invariant *)

Definition holding (th : thread) : bool :=
  match th with Rotating _ _ _ | Restarting _ _ _ | Installing _ _ _ | Nonce _ _ _ => true | _ => false end.

(** The selection carries the published generation. *)
Definition settled (w : system) : Prop :=
  bind_Generation (st_binding (state w)) = generation (coordinator w).
(** A mutation that is published says what it selects. *)
Definition activates (p : payload) (m : SelectionMutation) : Prop :=
  publishes m ∧ (p = ScopeMutation → mut_Activation m ≠ None).

(** Between rotating the generation and installing the selection. *)
Definition window (w : system) (p : payload) (m : SelectionMutation) (next : string) : Prop :=
  generation (coordinator w) = next ∧ activates p m.

Definition phase_ok (w : system) (th : thread) : Prop :=
  match th with
  | Rotating e p m => settled w ∧ e = generation (coordinator w) ∧ activates p m
  | Restarting p m next => window w p m next
  | Installing p m next =>
      if mut_PublishGeneration m then window w p m next
      else settled w ∧ next = generation (coordinator w) ∧ p = ScopeMutation
  | Nonce p r next => settled w ∧ next = generation (coordinator w)
  | _ => False
  end.

Definition others_free (w : system) (except : option nat) : Prop :=
  ∀ t th, Some t ≠ except → threads w !! t = Some th → holding th = false.

Definition selection_inv (w : system) : Prop :=
  others_free w (lock w)
  ∧ match lock w with
    | None => settled w
    | Some t => ∃ th, threads w !! t = Some th ∧ phase_ok w th
    end.

(** Steps of other goroutines: the phase only depends on the generation and the state. *)
Lemma phase_same w w' th :
  generation (coordinator w') = generation (coordinator w) → state w' = state w →
  phase_ok w th → phase_ok w' th.
Proof.
  intros Hg Hs. destruct th; cbn; unfold settled, window; rewrite ?Hg, ?Hs; try done.
Qed.

Lemma holder_holds w t th : phase_ok w th → threads w !! t = Some th → holding th = true.
Proof. by destruct th. Qed.

Lemma quiet_inv w c t th :
  selection_inv w → generation c = generation (coordinator w) → holding th = false →
  (∀ th0, threads w !! t = Some th0 → holding th0 = false) →
  selection_inv (goto w c (state w) (lock w) t th).
Proof.
  intros [Hfree Hphase] Hg Hth Hold. split.
  - intros t' th' Hne. cbn. rewrite lookup_insert_Some. intros [[_ <-]|[_ ?]]; [done|by eapply Hfree].
  - cbn [lock goto]. destruct (lock w) as [h|].
    + destruct Hphase as (th'&Hh&Hok). exists th'. split; [|by eapply phase_same].
      cbn. rewrite lookup_insert_ne; [done|]. intros <-.
      pose proof (Hold _ Hh). pose proof (holder_holds _ _ _ Hok Hh). congruence.
    + unfold settled in *. cbn. by rewrite Hg.
Qed.

(** The same without a change of goroutines. *)
Lemma still_inv w c :
  selection_inv w → generation c = generation (coordinator w) →
  selection_inv {| coordinator := c; state := state w; lock := lock w; threads := threads w |}.
Proof.
  intros [Hfree Hphase] Hg. split; [done|]. cbn [lock threads]. destruct (lock w) as [h|].
  - destruct Hphase as (th'&Hh&Hok). exists th'. split; [done|by eapply phase_same].
  - unfold settled in *. cbn. by rewrite Hg.
Qed.

(** The holder moves on. *)
Lemma holder_inv w c s t th th' :
  selection_inv w → threads w !! t = Some th → holding th = true →
  phase_ok (goto w c s (lock w) t th') th' → selection_inv (goto w c s (lock w) t th').
Proof.
  intros [Hfree Hphase] Ht Hh Hok.
  assert (lock w = Some t) as Hlock.
  { destruct (decide (Some t = lock w)) as [?|Hne]; [done|]. rewrite (Hfree _ _ Hne Ht) in Hh. done. }
  rewrite Hlock in *. split.
  - intros t' th'' Hne. cbn in *. rewrite lookup_insert_Some.
    intros [[<- _]|[_ ?]]; [done|by eapply Hfree].
  - cbn. exists th'. by rewrite lookup_insert_eq.
Qed.

(** The holder, or a goroutine that found the lock free, returns. *)
Lemma return_inv w c s t o :
  selection_inv w → (lock w = None ∨ lock w = Some t) →
  settled (return_ w c s t o) → selection_inv (return_ w c s t o).
Proof.
  intros [Hfree _] Hl Hs. split; [|done]. intros t' th' _. cbn. rewrite lookup_insert_Some.
  intros [[_ <-]|[Hne ?]]; [done|]. eapply Hfree; [|done]. destruct Hl as [->| ->]; congruence.
Qed.

Lemma free_settled w : selection_inv w → lock w = None → settled w.
Proof. intros [_ Hp] Hl. by rewrite Hl in Hp. Qed.

Lemma free_holding w t th : selection_inv w → lock w = None → threads w !! t = Some th → holding th = false.
Proof. intros [Hf _] Hl Ht. eapply Hf, Ht. by rewrite Hl. Qed.

(** A goroutine that is not in a commit moves while the lock is free. *)
Lemma free_move w c t th :
  selection_inv w → lock w = None → generation c = generation (coordinator w) →
  holding th = false → selection_inv (goto w c (state w) None t th).
Proof.
  intros Hinv Hl Hg Hth. rewrite <- Hl. apply quiet_inv; [done..|].
  intros th0. by apply free_holding.
Qed.

Lemma free_return w t o :
  selection_inv w → lock w = None → selection_inv (return_ w (coordinator w) (state w) t o).
Proof.
  intros Hinv Hl. apply return_inv; [done|by left|]. exact (free_settled w Hinv Hl).
Qed.

Lemma validate_inv w t seq e next :
  selection_inv w → lock w = None → holding next = false →
  selection_inv (validate_then w t seq e next).
Proof.
  intros Hinv Hl Hn. unfold validate_then. case_match; [by apply free_return|].
  destruct next; try (by apply free_move); by apply free_return.
Qed.

Lemma after_prepare_free seq e answer : holding (after_prepare seq e answer) = false.
Proof. unfold after_prepare. by repeat case_match. Qed.

Lemma commit_inv w t seq e p answer :
  selection_inv w → lock w = None → selection_inv (commit w t seq e p answer).
Proof.
  intros Hinv Hl. unfold commit. case_match; [by apply free_return|].
  destruct (_ || _) eqn:He; [by apply free_return|].
  destruct (transaction _ _ _ _) as [m|err] eqn:Ht; [|by apply free_return].
  apply orb_false_iff in He as [_ He%negb_false_iff%String.eqb_eq]. subst e.
  pose proof (free_settled w Hinv Hl) as Hs. split.
  - intros t' th' Hne. cbn in *. rewrite lookup_insert_Some.
    intros [[<- _]|[_ ?]]; [done|by eapply free_holding].
  - cbn [lock goto threads]. eexists. rewrite lookup_insert_eq. split; [done|].
    destruct (mut_PublishGeneration m) eqn:Hm; cbn [phase_ok coordinator goto state].
    + split_and!; [done|done|]. split; [done|]. intros ->. by eapply transaction_activation.
    + rewrite Hm. split; [done|]. split; [done|].
      destruct p; [done|]. cbn in Ht. repeat case_match; simplify_eq.
Qed.

Lemma lock_of w t th : selection_inv w → threads w !! t = Some th → holding th = true → lock w = Some t.
Proof.
  intros [Hfree _] Ht Hh. destruct (decide (Some t = lock w)) as [?|Hne]; [done|].
  rewrite (Hfree _ _ Hne Ht) in Hh. done.
Qed.

Lemma phase_of w t th : selection_inv w → threads w !! t = Some th → holding th = true → phase_ok w th.
Proof.
  intros Hinv Ht Hh. pose proof (lock_of _ _ _ Hinv Ht Hh) as Hl. destruct Hinv as [_ Hp].
  rewrite Hl in Hp. destruct Hp as (?&?&?). congruence.
Qed.

Lemma rotate_inv w t e p m random :
  selection_inv w → threads w !! t = Some (Rotating e p m) →
  selection_inv (match Rotate_generation random with
    | None => return_ w (coordinator w) (state w) t (conclude_error p "" (PublishedStateError "generation"))
    | Some next => goto w (with_generation (coordinator w) next) (state w) (lock w) t (Restarting p m next)
    end).
Proof.
  intros Hinv Ht. destruct (phase_of _ _ _ Hinv Ht eq_refl) as (Hs&->&Ha).
  destruct (Rotate_generation random) as [next|] eqn:Hrot.
  - by eapply holder_inv.
  - apply return_inv; [done|right; by eapply lock_of|done].
Qed.

Lemma install_inv w t p m next :
  selection_inv w → threads w !! t = Some (Installing p m next) →
  let s' := install (state w) p m next in
  let r := installed_result s' m next in
  selection_inv (if mut_PublishGeneration m then goto w (coordinator w) s' (lock w) t (Nonce p r next)
                 else return_ w (coordinator w) s' t (conclude p next r)).
Proof.
  intros Hinv Ht s' r. pose proof (phase_of _ _ _ Hinv Ht eq_refl) as Hok. cbn in Hok.
  destruct (mut_PublishGeneration m) eqn:Hm.
  - destruct Hok as (Hg&Hp&Ha). eapply holder_inv; [done..|]. split; [|done].
    unfold settled, s'. cbn. by rewrite install_generation.
  - destruct Hok as (Hs&_&->). apply return_inv; [done|right; by eapply lock_of|].
    assert (s' = state w) as Hs' by (unfold s'; cbn; by rewrite Hm). rewrite Hs'. done.
Qed.

Lemma initialize_inv w b r :
  selection_inv w →
  selection_inv {| coordinator := coordinator w; lock := lock w; threads := threads w;
                   state := (Initialize (state w) (generation (coordinator w)) b r).2 |}.
Proof.
  intros [Hfree Hphase]. split; [done|]. cbn [lock threads].
  assert (settled w → settled {| coordinator := coordinator w; lock := lock w; threads := threads w;
    state := (Initialize (state w) (generation (coordinator w)) b r).2 |}) as Hsettled.
  { unfold settled, Initialize. cbn. intros Hg. by repeat case_match. }
  destruct (lock w); [|by apply Hsettled].
  destruct Hphase as (th&Ht&Hok). exists th. split; [done|].
  destruct th; cbn in Hok |- *; try done.
  - destruct Hok as (Hs&?&?). split_and!; [by apply Hsettled|done..].
  - destruct (mut_PublishGeneration m); [done|]. destruct Hok as (Hs&?). split; [by apply Hsettled|done].
  - destruct Hok as (Hs&?). split; [by apply Hsettled|done].
Qed.

Lemma selection_step w a w' : selection_inv w → step w a = Some w' → selection_inv w'.
Proof.
  intros Hinv Hs. destruct a; cbn [step] in Hs.
  - case_bool_decide as Hl; cbn in Hs; [|done]. case_bool_decide as Ht; [|done].
    injection Hs as <-. unfold begin_call. repeat case_match; by apply free_move.
  - case_bool_decide as Hl; [|done]. repeat case_match; simplify_eq; apply validate_inv; try done.
    apply after_prepare_free.
  - destruct (threads w !! t) as [[]|] eqn:Ht; simplify_eq.
    case_match; apply quiet_inv; try done; intros th0 ?; by simplify_eq.
  - destruct (threads w !! t) as [[]|] eqn:Ht; simplify_eq.
    case_match; simplify_eq. apply quiet_inv; try done; intros th0 ?; by simplify_eq.
  - case_bool_decide as Hl; [|done]. repeat case_match; simplify_eq. by apply commit_inv.
  - destruct (threads w !! t) as [[]|] eqn:Ht; simplify_eq. by eapply rotate_inv.
  - destruct (threads w !! t) as [[]|] eqn:Ht; simplify_eq.
    pose proof (phase_of _ _ _ Hinv Ht eq_refl) as Hok. eapply holder_inv; [done..|].
    cbn in *. pose proof Hok as (_&->&_). done.
  - destruct (threads w !! t) as [[]|] eqn:Ht; simplify_eq. by apply install_inv.
  - destruct (threads w !! t) as [[]|] eqn:Ht; simplify_eq.
    destruct (phase_of _ _ _ Hinv Ht eq_refl) as [Hset _].
    case_match; apply return_inv; try done; right; by eapply lock_of.
  - repeat case_match; simplify_eq. by apply still_inv.
  - simplify_eq. by apply initialize_inv.
  - simplify_eq. by apply still_inv.
  - case_bool_decide as Hl; simplify_eq. rewrite <- Hl. by apply still_inv.
Qed.

Lemma selection_run acts w w' : selection_inv w → run w acts = Some w' → selection_inv w'.
Proof.
  revert w. induction acts as [|a acts IH]; intros w Hinv; cbn; [by intros [= <-]|].
  destruct (step w a) eqn:Hs; [|done]. apply IH. by eapply selection_step.
Qed.

Lemma selection_init c b r s :
  NewState c b r = Some s → selection_inv (init_system c s).
Proof.
  unfold NewState. intros Hn. split; [by intros ???|]. cbn. unfold settled. cbn.
  repeat case_match; simplify_eq; by apply String.eqb_eq, negb_false_iff.
Qed.

(** ** Publications *)

(** The generation an action publishes, with the generation its caller had named. *)
Definition publication (w : system) (a : action) : list (string * string) :=
  match a with
  | RunRotate t random =>
    match threads w !! t, Rotate_generation random with
    | Some (Rotating e _ _), Some next => [(e, next)]
    | _, _ => []
    end
  | _ => []
  end.

Fixpoint publications (w : system) (acts : list action) : list (string * string) :=
  match acts with
  | [] => []
  | a :: acts' =>
    (publication w a ++ match step w a with Some w' => publications w' acts' | None => [] end)%list
  end.

(** Each publication replaces the generation published before it. *)
Fixpoint chain (g : string) (pubs : list (string * string)) (g' : string) : Prop :=
  match pubs with [] => g = g' | (e, next) :: rest => e = g ∧ chain next rest g' end.

Lemma publication_quiet w a w' :
  step w a = Some w' → publication w a = [] → generation (coordinator w') = generation (coordinator w).
Proof.
  intros Hs Hp. destruct a; cbn [step publication] in Hs, Hp.
  - destruct (_ && _); simplify_eq. unfold begin_call. by repeat case_match.
  - case_bool_decide; [|done]. repeat case_match; simplify_eq; unfold validate_then; by repeat case_match.
  - repeat case_match; by simplify_eq.
  - repeat case_match; by simplify_eq.
  - case_bool_decide; [|done]. repeat case_match; simplify_eq. unfold commit. by repeat case_match.
  - repeat case_match; by simplify_eq.
  - repeat case_match; by simplify_eq.
  - repeat case_match; by simplify_eq.
  - repeat case_match; by simplify_eq.
  - repeat case_match; by simplify_eq.
  - by simplify_eq.
  - by simplify_eq.
  - case_bool_decide; by simplify_eq.
Qed.

Lemma publication_step w a w' e next :
  selection_inv w → step w a = Some w' → publication w a = [(e, next)] →
  e = generation (coordinator w) ∧ generation (coordinator w') = next
  ∧ ∃ random, Rotate_generation random = Some next.
Proof.
  intros Hinv Hs Hp. destruct a as [| | | | |t random| | | | | | |]; try done. cbn [step publication] in Hs, Hp.
  destruct (threads w !! t) as [[]|] eqn:Ht; try done.
  destruct (Rotate_generation random) as [n|] eqn:Hr; simplify_eq.
  destruct (phase_of _ _ _ Hinv Ht eq_refl) as (_&->&_). eauto.
Qed.

Lemma publication_cases w a : publication w a = [] ∨ ∃ e next, publication w a = [(e, next)].
Proof. unfold publication. repeat case_match; eauto. Qed.

Lemma publications_chain acts w w' :
  selection_inv w → run w acts = Some w' →
  chain (generation (coordinator w)) (publications w acts) (generation (coordinator w')).
Proof.
  revert w. induction acts as [|a acts IH]; intros w Hinv; cbn [run publications]; [by intros [= <-]|].
  destruct (step w a) as [w1|] eqn:Hs; [|done]. intros Hrun.
  pose proof (IH w1 (selection_step _ _ _ Hinv Hs) Hrun) as Hc.
  destruct (publication_cases w a) as [Hp|(e&next&Hp)]; rewrite Hp; cbn.
  - by rewrite <- (publication_quiet _ _ _ Hs Hp).
  - destruct (publication_step _ _ _ _ _ Hinv Hs Hp) as (->&Hg&_). split; [done|]. by rewrite <- Hg.
Qed.

(** The named generations of a chain are the initial one and the published ones but the last. *)
Lemma chain_named g pubs g' :
  chain g pubs g' → ((fst <$> pubs) ++ [g'] = g :: (snd <$> pubs))%list.
Proof.
  revert g. induction pubs as [|[e n] pubs IH]; intros g; cbn; [by intros ->|].
  intros [-> Hc]. f_equal. by apply IH.
Qed.

(** ** Work contexts *)

(** The generation whose hooks are still to be called. *)
Definition pending (w : system) : list string :=
  match lock w with
  | Some t => match threads w !! t with Some (Restarting _ _ next) => [next] | _ => [] end
  | None => []
  end.

Definition notifications (c : Coordinator) (gens : list string) : list string :=
  gens ≫= replicate (hooks c).

Record work_inv (pubs : list string) (w : system) : Prop := {
  work_count : (workCtx (coordinator w) + length (pending w) = length pubs)%nat;
  work_old : ∀ i, (i < workCtx (coordinator w))%nat → i ∈ workDone (coordinator w);
  work_new : ∀ i, i ∈ workDone (coordinator w) → (i ≤ workCtx (coordinator w))%nat;
  work_current : workCtx (coordinator w) ∈ workDone (coordinator w) ↔ workStop (coordinator w) = false;
  work_hooks : (invalidations (coordinator w) ++ notifications (coordinator w) (pending w))%list
               = notifications (coordinator w) pubs }.

Definition same_work (c c' : Coordinator) : Prop :=
  workCtx c' = workCtx c ∧ workDone c' = workDone c ∧ workStop c' = workStop c
  ∧ hooks c' = hooks c ∧ invalidations c' = invalidations c.

Lemma same_work_inv pubs w w' :
  same_work (coordinator w) (coordinator w') → pending w' = pending w → work_inv pubs w → work_inv pubs w'.
Proof.
  intros (H1&H2&H3&H4&H5) Hp [Hc Ho Hn Hcur Hh].
  split; unfold notifications in *; rewrite ?Hp, ?H1, ?H2, ?H3, ?H4, ?H5; done.
Qed.

Lemma same_work_cancel c t : same_work c (Cancel c t).
Proof. done. Qed.

Lemma pending_unlocked w c s t th : pending (goto w c s None t th) = [].
Proof. done. Qed.

Lemma pending_other w c t th :
  selection_inv w → (∀ th0, threads w !! t = Some th0 → holding th0 = false) →
  pending (goto w c (state w) (lock w) t th) = pending w.
Proof.
  intros Hinv Ht. unfold pending. cbn. destruct (lock w) as [h|] eqn:Hl; [|done].
  destruct (decide (t = h)) as [->|Hne]; [|by rewrite lookup_insert_ne].
  destruct Hinv as [_ Hp]. rewrite Hl in Hp. destruct Hp as (th0&Hth0&Hok).
  pose proof (holder_holds _ _ _ Hok Hth0). rewrite (Ht _ Hth0) in *. done.
Qed.

Lemma pending_holder w t th :
  selection_inv w → threads w !! t = Some th → holding th = true →
  pending w = match th with Restarting _ _ next => [next] | _ => [] end.
Proof.
  intros Hinv Ht Hh. unfold pending. by rewrite (lock_of _ _ _ Hinv Ht Hh), Ht.
Qed.

Lemma pending_goto w c s t th th' :
  selection_inv w → threads w !! t = Some th → holding th = true →
  pending (goto w c s (lock w) t th') = match th' with Restarting _ _ next => [next] | _ => [] end.
Proof.
  intros Hinv Ht Hh. unfold pending. cbn. by rewrite (lock_of _ _ _ Hinv Ht Hh), lookup_insert_eq.
Qed.

Lemma pending_free w : lock w = None → pending w = [].
Proof. unfold pending. by intros ->. Qed.

(** Steps that leave the work contexts alone. *)
Lemma quiet_work w a w' :
  selection_inv w → step w a = Some w' → publication w a = [] →
  (∀ t, a ≠ RunRestart t) → a ≠ RunClose →
  same_work (coordinator w) (coordinator w') ∧ pending w' = pending w.
Proof.
  intros Hinv Hs Hp Hr Hc. destruct a; cbn [step publication] in Hs, Hp.
  - case_bool_decide as Hl; cbn in Hs; [|done]. case_bool_decide; simplify_eq.
    rewrite (pending_free w Hl). unfold begin_call. by repeat case_match.
  - case_bool_decide as Hl; [|done]. rewrite (pending_free w Hl).
    repeat case_match; simplify_eq; unfold validate_then; by repeat case_match.
  - destruct (threads w !! t) as [[]|] eqn:Ht; simplify_eq.
    case_match; (split; [done|]); apply pending_other; try done; intros ??; by simplify_eq.
  - destruct (threads w !! t) as [[]|] eqn:Ht; simplify_eq. case_match; simplify_eq.
    split; [done|]. apply pending_other; try done; intros ??; by simplify_eq.
  - case_bool_decide as Hl; [|done]. rewrite (pending_free w Hl).
    repeat case_match; simplify_eq. unfold commit.
    repeat (case_match; [by split|]). case_match; [|by split]. split; [done|].
    unfold pending. cbn. rewrite lookup_insert_eq. by repeat case_match.
  - destruct (threads w !! t) as [[]|] eqn:Ht; try done.
    rewrite (pending_holder _ _ _ Hinv Ht eq_refl). repeat case_match; by simplify_eq.
  - by destruct (Hr t).
  - destruct (threads w !! t) as [[]|] eqn:Ht; try done.
    rewrite (pending_holder _ _ _ Hinv Ht eq_refl). simplify_eq. case_match; [|by split].
    split; [done|]. by rewrite (pending_goto _ _ _ _ _ _ Hinv Ht eq_refl).
  - destruct (threads w !! t) as [[]|] eqn:Ht; try done.
    rewrite (pending_holder _ _ _ Hinv Ht eq_refl). simplify_eq. by case_match.
  - repeat case_match; by simplify_eq.
  - by simplify_eq.
  - by simplify_eq.
  - done.
Qed.

Lemma close_work pubs w :
  lock w = None → work_inv pubs w →
  work_inv pubs {| coordinator := Close (coordinator w); state := state w; lock := None; threads := threads w |}.
Proof.
  intros Hl [H1 H2 H3 H4 H5]. rewrite (pending_free w Hl) in *. split; cbn; try done.
  - intros i Hi. apply elem_of_union_r. auto.
  - intros i [Hi|Hi]%elem_of_union; [|auto]. destruct (workStop _); set_solver.
  - split; [done|]. intros _. destruct (workStop (coordinator w)); set_solver.
Qed.

Lemma restart_work_inv pubs w t p m next :
  selection_inv w → threads w !! t = Some (Restarting p m next) → work_inv pubs w →
  work_inv pubs (goto w (restart_work (coordinator w) next) (state w) (lock w) t (Installing p m next)).
Proof.
  intros Hinv Ht [H1 H2 H3 H4 H5].
  rewrite (pending_holder _ _ _ Hinv Ht eq_refl) in *. cbn in H1, H5.
  split; rewrite ?(pending_goto _ _ _ _ _ _ Hinv Ht eq_refl); cbn.
  - lia.
  - intros i Hi. destruct (decide (i = workCtx (coordinator w))) as [->|?].
    + destruct (workStop (coordinator w)) eqn:Hst; [set_solver|]. apply elem_of_union_r. by apply H4.
    + apply elem_of_union_r, H2. lia.
  - intros i [Hi|Hi]%elem_of_union; [destruct (workStop _); set_solver|]. apply H3 in Hi. lia.
  - split; [|done]. intros [Hi|Hi]%elem_of_union.
    + destruct (workStop _); [|set_solver]. apply elem_of_singleton in Hi. lia.
    + apply H3 in Hi. lia.
  - rewrite app_nil_r in *. done.
Qed.

Lemma rotate_work pubs w t e p m next :
  selection_inv w → threads w !! t = Some (Rotating e p m) → work_inv pubs w →
  work_inv (pubs ++ [next])%list
    (goto w (with_generation (coordinator w) next) (state w) (lock w) t (Restarting p m next)).
Proof.
  intros Hinv Ht [H1 H2 H3 H4 H5]. rewrite (pending_holder _ _ _ Hinv Ht eq_refl) in *.
  cbn in H1, H5. rewrite app_nil_r in H5.
  split; rewrite ?(pending_goto _ _ _ _ _ _ Hinv Ht eq_refl); cbn; try done.
  - rewrite length_app. cbn. lia.
  - unfold notifications in *. cbn. rewrite bind_app, H5. done.
Qed.

Lemma work_step pubs w a w' :
  selection_inv w → work_inv pubs w → step w a = Some w' →
  work_inv (pubs ++ (snd <$> publication w a))%list w'.
Proof.
  intros Hinv Hw Hs. destruct (publication_cases w a) as [Hp|(e&next&Hp)]; rewrite Hp; cbn.
  - rewrite app_nil_r.
    assert (a = RunClose ∨ (∃ t, a = RunRestart t) ∨ ((∀ t, a ≠ RunRestart t) ∧ a ≠ RunClose))
      as [->|[[t ->]|[??]]] by (destruct a; naive_solver).
    + cbn in Hs. case_bool_decide as Hl; simplify_eq. by apply close_work.
    + cbn in Hs. destruct (threads w !! t) as [[]|] eqn:Ht; simplify_eq. by eapply restart_work_inv.
    + destruct (quiet_work _ _ _ Hinv Hs Hp) as [Hsame Hpend]; [done..|by eapply same_work_inv].
  - destruct a as [| | | | |t random| | | | | | |]; try done. cbn [step publication] in Hs, Hp.
    destruct (threads w !! t) as [[]|] eqn:Ht; try done.
    destruct (Rotate_generation random) as [n|] eqn:Hr; simplify_eq. by eapply rotate_work.
Qed.

Lemma work_run acts pubs w w' :
  selection_inv w → work_inv pubs w → run w acts = Some w' →
  work_inv (pubs ++ (snd <$> publications w acts))%list w'.
Proof.
  revert pubs w. induction acts as [|a acts IH]; intros pubs w Hinv Hw; cbn [run publications].
  { intros [= <-]. cbn. by rewrite app_nil_r. }
  destruct (step w a) as [w1|] eqn:Hs; [|done]. intros Hrun. rewrite fmap_app, app_assoc.
  apply IH; [by eapply selection_step|by eapply work_step|done].
Qed.

(** no lost update. The publications of any run form a chain: each names the generation
    published just before it, starting from the initial one, so a change prepared against
    an older selection is never published over a newer one. Hence, when generations do not
    repeat (24 random bytes each), every generation is replaced at most once, however many
    calls name it. *)
Theorem no_lost_update c b r s acts w :
  NewState c b r = Some s → run (init_system c s) acts = Some w →
  let pubs := publications (init_system c s) acts in
  chain (generation c) pubs (generation (coordinator w))
  ∧ (NoDup (generation c :: (snd <$> pubs)) → NoDup (fst <$> pubs)).
Proof.
  intros Hnew Hrun pubs.
  pose proof (publications_chain acts _ w (selection_init _ _ _ _ Hnew) Hrun) as Hc. fold pubs in Hc.
  split; [done|]. intros Hnd. change (generation c) with (generation (coordinator (init_system c s))) in Hnd.
  rewrite <- (chain_named _ _ _ Hc) in Hnd. by apply NoDup_app in Hnd as [? _].
Qed.

(** Generation-scoped work follows the publications. When no commit is in progress there
    has been one work context per published generation besides the first; all but the
    current one are canceled, the current one is canceled exactly when the coordinator was
    closed after it was created, and every hook was called once per publication with the
    published generation, in order. *)
Theorem work_follows_publications g ses n c b r s acts w :
  NewCoordinator g ses n = Some c → NewState c b r = Some s →
  run (init_system c s) acts = Some w → lock w = None →
  let pubs := snd <$> publications (init_system c s) acts in
  workCtx (coordinator w) = length pubs
  ∧ (∀ i, i ∈ workDone (coordinator w) ↔
          (i < workCtx (coordinator w))%nat
          ∨ (i = workCtx (coordinator w) ∧ workStop (coordinator w) = false))
  ∧ invalidations (coordinator w) = (pubs ≫= replicate (hooks (coordinator w))).
Proof.
  intros Hc Hnew Hrun Hl pubs. unfold NewCoordinator in Hc. case_match; [done|]. injection Hc as Hc.
  assert (work_inv [] (init_system c s)) as Hw0.
  { rewrite <- Hc. split; cbn; try done. intros; lia. }
  destruct (work_run acts [] _ w (selection_init _ _ _ _ Hnew) Hw0 Hrun) as [H1 H2 H3 H4 H5].
  rewrite (pending_free w Hl) in *. rewrite Nat.add_0_r in H1. cbn in H5. rewrite app_nil_r in H5.
  split_and!; [exact H1| |exact H5].
  intros i. split.
  - intros Hi. destruct (decide (i = workCtx (coordinator w))) as [->|?].
    + right. by rewrite <- H4.
    + left. apply H3 in Hi. lia.
  - intros [Hi|[-> Hi]]; [by apply H2|by apply H4].
Qed.

(** ** The newest intent *)

Definition intent_seq (th : thread) : option Z :=
  match th with
  | Opened q _ _ | Validated q _ _ | Compared q _ _ | Preparing q _ _ | Prepared q _ _
  | Committing q _ _ => Some q
  | _ => None
  end.

(** The sequence counts the intents; an intent's number is not ahead of it. *)
Definition sequence_inv (n : Z) (w : system) : Prop :=
  (0 ≤ sequence (coordinator w) ≤ n)%Z
  ∧ (∀ t th q, threads w !! t = Some th → intent_seq th = Some q → (q ≤ sequence (coordinator w))%Z)
  ∧ (∀ i, intents (coordinator w) !! i = Some None → intentStop (coordinator w) = Some i).

Lemma cancel_intent_None i j m : cancel_intent i m !! j = Some None → m !! j = Some None ∧ j ≠ i.
Proof.
  unfold cancel_intent. destruct (m !! i) as [[e|]|] eqn:Hi.
  - intros Hj. split; [done|congruence].
  - rewrite lookup_insert_Some. intros [[_ ?]|[? ?]]; done.
  - intros Hj. split; [done|congruence].
Qed.

(** Coordinators that count and guard their intents alike. *)
Definition same_intents (c c' : Coordinator) : Prop :=
  sequence c' = sequence c ∧ intentStop c' = intentStop c
  ∧ ∀ i, intents c' !! i = Some None → intents c !! i = Some None.

Lemma same_intents_refl c : same_intents c c.
Proof. done. Qed.

Lemma same_intents_cancel c t : same_intents c (Cancel c t).
Proof. split_and!; try done. cbn. by intros i [? _]%cancel_intent_None. Qed.

Lemma keep_sequence n w c s l t th :
  sequence_inv n w → same_intents (coordinator w) c →
  (∀ q, intent_seq th = Some q → ∃ th0, threads w !! t = Some th0 ∧ intent_seq th0 = Some q) →
  sequence_inv (n + 1) (goto w c s l t th).
Proof.
  intros (H1&H2&H3) (Hq&Hs&Hi) Hth. split_and!; cbn; rewrite ?Hq, ?Hs; [lia|lia| |auto].
  intros t' th' q. rewrite lookup_insert_Some. intros [[_ <-]|[_ ?]] Hq'; [|by eapply H2].
  destruct (Hth _ Hq') as (th0&?&?). by eapply H2.
Qed.

Lemma still_sequence n w c s l :
  sequence_inv n w → same_intents (coordinator w) c →
  sequence_inv (n + 1) {| coordinator := c; state := s; lock := l; threads := threads w |}.
Proof.
  intros (H1&H2&H3) (Hq&Hs&Hi). split_and!; cbn; rewrite ?Hq, ?Hs; [lia|lia|done|auto].
Qed.

Definition opens (req : request) : bool :=
  match req with Mutate p | ReplaceContextPrepared p => p | ReplaceContext _ _ _ => true end.

Lemma begin_sequence n w t e req parent :
  (0 ≤ n < u64_modulus - 1)%Z → sequence_inv n w →
  sequence_inv (n + 1) (begin_call w t e req parent)
  ∧ sequence (coordinator (begin_call w t e req parent))
    = (sequence (coordinator w) + if opens req then 1 else 0)%Z.
Proof.
  intros Hn Hinv. pose proof Hinv as (H1&H2&H3).
  assert (u64_succ (sequence (coordinator w)) = (sequence (coordinator w) + 1)%Z) as Hsucc
    by (apply u64_succ_small; lia).
  assert (∀ s l th, intent_seq th = Some (sequence (Begin (coordinator w) t parent)) →
            sequence_inv (n + 1) (goto w (Begin (coordinator w) t parent) s l t th)) as Hbegin.
  { intros s l th Hth. cbn in Hth. split_and!; cbn; rewrite ?Hsucc; [lia|lia| |].
    - intros t' th' q. rewrite lookup_insert_Some. intros [[_ <-]|[_ Ht']] Hq.
      + rewrite Hth in Hq. injection Hq as <-. lia.
      + pose proof (H2 _ _ _ Ht' Hq). lia.
    - intros i. rewrite lookup_insert_Some. intros [[-> _]|[Hne Hi]]; [done|exfalso].
      destruct (intentStop (coordinator w)) as [p|] eqn:Hp.
      + apply cancel_intent_None in Hi as [Hi ?]. apply H3 in Hi. congruence.
      + apply H3 in Hi. congruence. }
  unfold begin_call. destruct req as [[]|[]|]; (split; [|cbn; rewrite ?Hsucc; lia]);
    first [by apply Hbegin|by apply keep_sequence].
Qed.

(** Moves of a goroutine keep its number, or end it. *)
Lemma validate_moves w t seq e next :
  intent_seq next = Some seq ∨ intent_seq next = None ∧ holding next = false →
  ∃ c th, validate_then w t seq e next = goto w c (state w) None t th
          ∧ same_intents (coordinator w) c ∧ (intent_seq th = Some seq ∨ intent_seq th = None).
Proof.
  intros Hn. unfold validate_then, return_. case_match.
  - do 2 eexists. split; [done|]. split; [apply same_intents_cancel|by right].
  - destruct next; try (do 2 eexists; split; [done|]; split; [apply same_intents_refl|naive_solver]).
    do 2 eexists. split; [done|]. split; [apply same_intents_cancel|by right].
Qed.

Lemma commit_moves w t seq e p answer :
  ∃ c l th, commit w t seq e p answer = goto w c (state w) l t th
            ∧ same_intents (coordinator w) c ∧ intent_seq th = None.
Proof.
  unfold commit, return_.
  repeat (case_match; [do 3 eexists; split; [done|]; split; [apply same_intents_cancel|done]|]).
  case_match; do 3 eexists; (split; [done|]); split;
    [apply same_intents_refl|by case_match|apply same_intents_cancel|done].
Qed.

Lemma after_prepare_seq seq e answer :
  intent_seq (after_prepare seq e answer) = Some seq
  ∨ intent_seq (after_prepare seq e answer) = None ∧ holding (after_prepare seq e answer) = false.
Proof. unfold after_prepare. repeat case_match; cbn; auto. Qed.

Lemma validate_sequence n w t seq e th next :
  sequence_inv n w → threads w !! t = Some th → intent_seq th = Some seq →
  intent_seq next = Some seq ∨ intent_seq next = None ∧ holding next = false →
  sequence_inv (n + 1) (validate_then w t seq e next)
  ∧ sequence (coordinator (validate_then w t seq e next)) = sequence (coordinator w).
Proof.
  intros Hinv Ht Hth Hn. destruct (validate_moves w t seq e next Hn) as (c&th'&->&Hsame&Hth').
  split; [|by destruct Hsame]. apply keep_sequence; [done|done|]. intros q Hq.
  exists th. split; [done|]. naive_solver.
Qed.

Lemma sequence_step n w a w' :
  (0 ≤ n < u64_modulus - 1)%Z → sequence_inv n w → step w a = Some w' →
  sequence_inv (n + 1) w' ∧ (sequence (coordinator w) ≤ sequence (coordinator w'))%Z.
Proof.
  intros Hn Hinv Hs.
  assert (∀ w'', sequence_inv (n + 1) w'' ∧ sequence (coordinator w'') = sequence (coordinator w) →
     sequence_inv (n + 1) w'' ∧ (sequence (coordinator w) ≤ sequence (coordinator w''))%Z) as Heq
    by (intros w'' [? ->]; by split).
  assert (∀ c s l t th, same_intents (coordinator w) c → intent_seq th = None →
     sequence_inv (n + 1) (goto w c s l t th)
     ∧ (sequence (coordinator w) ≤ sequence c)%Z) as Hmove.
  { intros c s l t th Hsame Hth. split; [|destruct Hsame as [-> _]; lia].
    apply keep_sequence; [done|done|]. intros q. by rewrite Hth. }
  destruct a; cbn [step] in Hs.
  - destruct (_ && _); simplify_eq. destruct (begin_sequence n w t expected req parent Hn Hinv) as [? ->].
    split; [done|]. case_match; lia.
  - case_bool_decide; [|done]. destruct (threads w !! t) as [[]|] eqn:Ht; simplify_eq; apply Heq;
      eapply validate_sequence; try done; first [by left|apply after_prepare_seq].
  - destruct (threads w !! t) as [[]|] eqn:Ht; simplify_eq. case_match.
    + apply Heq. split; [|done]. apply keep_sequence; try done. intros q [= <-]. eauto.
    + apply Hmove; [apply same_intents_cancel|done].
  - destruct (threads w !! t) as [[]|] eqn:Ht; simplify_eq. case_match; simplify_eq.
    apply Heq. split; [|done]. apply keep_sequence; try done. intros q [= <-]. eauto.
  - case_bool_decide; [|done]. destruct (threads w !! t) as [[]|] eqn:Ht; simplify_eq.
    destruct (commit_moves w t seq expected p answer) as (c&l&th&->&?&?). by apply Hmove.
  - destruct (threads w !! t) as [[]|] eqn:Ht; simplify_eq.
    case_match; apply Hmove; (apply same_intents_cancel || done).
  - destruct (threads w !! t) as [[]|] eqn:Ht; simplify_eq. by apply Hmove.
  - destruct (threads w !! t) as [[]|] eqn:Ht; simplify_eq.
    case_match; apply Hmove; (apply same_intents_cancel || done).
  - destruct (threads w !! t) as [[]|] eqn:Ht; simplify_eq.
    case_match; apply Hmove; try done; [|apply same_intents_cancel].
    split_and!; try done. cbn. by intros i [? _]%cancel_intent_None.
  - destruct (intents (coordinator w) !! t) as [[]|] eqn:Hi; simplify_eq. split; [|cbn; lia].
    apply still_sequence; [done|]. split_and!; try done. cbn. intros i.
    rewrite lookup_insert_Some. by intros [[_ ?]|[_ ?]].
  - simplify_eq. split; [|cbn; lia]. by apply still_sequence.
  - simplify_eq. split; [|cbn; lia]. by apply still_sequence.
  - case_bool_decide; simplify_eq. destruct Hinv as (H1&H2&H3). split; [|cbn; lia].
    split_and!; cbn; [lia|lia|done|]. intros i Hi. exfalso.
    destruct (intentStop (coordinator w)) as [p|] eqn:Hp.
    + apply cancel_intent_None in Hi as [Hi ?]. apply H3 in Hi. congruence.
    + apply H3 in Hi. congruence.
Qed.

Lemma sequence_run acts n w w' :
  (0 ≤ n)%Z → (n + Z.of_nat (length acts) < u64_modulus)%Z → sequence_inv n w → run w acts = Some w' →
  sequence_inv (n + Z.of_nat (length acts)) w'.
Proof.
  revert n w. induction acts as [|a acts IH]; intros n w Hn Hlen Hinv; cbn [run length] in *.
  { intros [= <-]. by rewrite Z.add_0_r. }
  destruct (step w a) as [w1|] eqn:Hs; [|done]. intros Hrun.
  destruct (sequence_step n w a w1 ltac:(lia) Hinv Hs) as [Hinv1 _].
  replace (n + Z.of_nat (S (length acts)))%Z with (n + 1 + Z.of_nat (length acts))%Z by lia.
  apply (IH (n + 1)%Z w1); [lia|lia|done|done].
Qed.

(** The goroutine that moves, if any. *)
Definition actor (a : action) : option nat :=
  match a with
  | Call t _ _ _ | RunValidate t | RunRead t | RunPrepare t _ | RunCommit t _ | RunRotate t _
  | RunRestart t | RunInstall t | RunNonce t _ _ => Some t
  | ParentDone _ _ | RunInitialize _ _ | RunSession _ _ _ _ | RunClose => None
  end.

Lemma step_frame w a w' t :
  step w a = Some w' → actor a ≠ Some t → threads w' !! t = threads w !! t.
Proof.
  intros Hs Ha.
  assert (∀ c s l t' th, Some t' ≠ Some t → threads (goto w c s l t' th) !! t = threads w !! t) as Hg
    by (intros; cbn; by rewrite lookup_insert_ne by congruence).
  destruct a; cbn [step actor] in Hs, Ha; repeat case_match; simplify_eq; try done;
    unfold begin_call, validate_then, commit, return_; repeat case_match; by apply Hg.
Qed.

(** The call failed before its transaction. *)
Definition refused (o : outcome) : Prop :=
  match o with Failed _ => True | Replaced next (Some _) => next = "" | _ => False end.

Definition overtaken (w : system) (t : nat) (q : Z) : Prop :=
  ∃ th, threads w !! t = Some th
        ∧ ((intent_seq th = Some q ∧ (q < sequence (coordinator w))%Z)
           ∨ ∃ o, th = Returned o ∧ refused o).

Lemma superseded_ahead c t q : (q < sequence c)%Z → superseded c t q = true.
Proof. intros ?. unfold superseded. by rewrite (proj2 (Z.eqb_neq _ _)) by lia. Qed.

Lemma conclude_error_refused p e : refused (conclude_error p "" e).
Proof. unfold conclude_error. by case_match. Qed.

Lemma overtaken_step n w a w' t q :
  (0 ≤ n < u64_modulus - 1)%Z → sequence_inv n w → overtaken w t q → step w a = Some w' →
  overtaken w' t q.
Proof.
  intros Hn Hinv (th&Ht&Hth) Hs.
  pose proof (sequence_step _ _ _ _ Hn Hinv Hs) as [_ Hle].
  destruct (decide (actor a = Some t)) as [Ha|Ha].
  2: { exists th. rewrite (step_frame _ _ _ _ Hs Ha). split; [done|].
       destruct Hth as [[? ?]|?]; [left; split; [done|lia]|by right]. }
  destruct Hth as [[Hq Hlt]|(o&->&Ho)].
  2: { destruct a; simplify_eq/=; rewrite Ht in Hs; repeat case_match; simplify_eq;
       by case_bool_decide. }
  assert (∀ c s l th', intent_seq th' = Some q → (q < sequence c)%Z → overtaken (goto w c s l t th') t q)
    as Hmove.
  { intros c s l th' Hq' Hlt'. exists th'. cbn. rewrite lookup_insert_eq. auto. }
  assert (∀ c s l o, refused o → overtaken (goto w c s l t (Returned o)) t q) as Hend.
  { intros c s l o Ho. exists (Returned o). cbn. rewrite lookup_insert_eq. eauto. }
  assert (∀ e next, overtaken (validate_then w t q e next) t q) as Hval.
  { intros e next. unfold validate_then, Intent_Validate. rewrite superseded_ahead by done. by apply Hend. }
  destruct a; simplify_eq/=; rewrite ?Ht in Hs; destruct th; simplify_eq/=;
    try (by destruct (bool_decide _)); repeat case_match; simplify_eq; try done.
  all: try (by apply Hval); try (by apply Hmove); try (by apply Hend).
  unfold commit. rewrite superseded_ahead by done. apply Hend, conclude_error_refused.
Qed.

Lemma overtaken_run acts n w w' t q :
  (0 ≤ n)%Z → (n + Z.of_nat (length acts) < u64_modulus)%Z → sequence_inv n w → overtaken w t q →
  run w acts = Some w' → overtaken w' t q.
Proof.
  revert n w. induction acts as [|a acts IH]; intros n w Hn Hlen Hinv Ho; cbn [run length] in *.
  { by intros [= <-]. }
  destruct (step w a) as [w1|] eqn:Hs; [|done].
  destruct (sequence_step n w a w1 ltac:(lia) Hinv Hs) as [Hinv1 _].
  apply (IH (n + 1)%Z w1); [lia|lia|done|]. eapply (overtaken_step n); (done || lia).
Qed.

(** C28: the newest intent wins. As soon as another call begins its intent, the context of every
    earlier intent is canceled; and whatever happens afterwards, a call that had not entered
    its commit by then never runs its transaction: it is either still on its way or has
    returned an error, and if it reaches its commit it returns without having changed the
    selection, the generation or the session. *)
Theorem newest_intent_wins g ses hks c b r s before w t th q t' e req parent w1 acts w2 :
  NewCoordinator g ses hks = Some c → NewState c b r = Some s →
  run (init_system c s) before = Some w →
  threads w !! t = Some th → intent_seq th = Some q →
  step w (Call t' e req parent) = Some w1 → opens req = true → run w1 acts = Some w2 →
  (Z.of_nat (length before) + 1 + Z.of_nat (length acts) < u64_modulus)%Z →
  intents (coordinator w1) !! t ≠ Some None
  ∧ overtaken w2 t q
  ∧ ∀ answer w3, step w2 (RunCommit t answer) = Some w3 →
      state w3 = state w2 ∧ generation (coordinator w3) = generation (coordinator w2)
      ∧ sessions (coordinator w3) = sessions (coordinator w2)
      ∧ ∃ o, threads w3 !! t = Some (Returned o) ∧ refused o.
Proof.
  intros Hc Hnew Hbefore Ht Hq Hs Hopen Hrun Hlen.
  assert (sequence_inv 0 (init_system c s)) as H0.
  { unfold NewCoordinator in Hc. case_match; simplify_eq. by split_and!. }
  pose proof (sequence_run before 0 _ w ltac:(lia) ltac:(lia) H0 Hbefore) as Hw.
  set (n := (0 + Z.of_nat (length before))%Z) in *.
  destruct (sequence_step n w _ w1 ltac:(lia) Hw Hs) as [Hw1 _].
  assert (t ≠ t') as Hne.
  { intros ->. cbn in Hs. rewrite Ht in Hs. rewrite andb_false_r in Hs. done. }
  assert (w1 = begin_call w t' e req parent) as Hw1eq by (cbn in Hs; destruct (_ && _); by simplify_eq).
  assert (overtaken w1 t q) as Hover.
  { exists th. rewrite (step_frame _ _ _ t Hs) by (cbn; congruence). split; [done|]. left. split; [done|].
    rewrite Hw1eq. destruct (begin_sequence n w t' e req parent ltac:(lia) Hw) as [_ ->].
    rewrite Hopen. destruct Hw as (_&Hqs&_). pose proof (Hqs _ _ _ Ht Hq). lia. }
  pose proof (overtaken_run acts (n + 1)%Z w1 w2 t q ltac:(lia) ltac:(lia) Hw1 Hover Hrun) as Hover2.
  split; [|split; [done|]].
  - intros Hlive. destruct Hw1 as (_&_&Hstop). apply Hstop in Hlive. rewrite Hw1eq in Hlive.
    destruct req as [[]|[]|]; cbn in Hopen, Hlive; congruence.
  - intros answer w3 Hs3. destruct Hover2 as (th2&Ht2&Hth2). cbn in Hs3. rewrite Ht2 in Hs3.
    case_bool_decide; [|done]. destruct th2; simplify_eq. destruct Hth2 as [[[= ->] Hlt]|(o&?&_)]; [|done].
    unfold commit. rewrite superseded_ahead by done. cbn. split_and!; [done..|].
    eexists. rewrite lookup_insert_eq. split; [done|]. apply conclude_error_refused.
Qed.

(** ** The session nonce *)

(** The nonce handed out by [Current], fresh or kept, is non-empty and bound to the
    requested generation; it validates with that generation exactly until it expires, and
    no other token or generation validates; a replaced nonce lives for the store's time to
    live, and once the store is rotated to another generation the old nonce no longer
    validates for its own. *)
Theorem session_nonce_lifecycle st origin g now random data st' later :
  (∀ bytes, random = Some bytes → bytes ≠ []) →
  Current st origin g now random = (Some data, st') →
  sd_Generation data = g ∧ sd_CSRFToken data ≠ "" ∧ g ≠ ""
  ∧ (if session_stale st g now then sd_ExpiresAt data = (now + ses_ttl st)%Z else st' = st)
  ∧ ValidateSession st' (sd_CSRFToken data) g later = (later <? sd_ExpiresAt data)%Z
  ∧ (∀ g' token, ValidateSession st' token g' later = true → g' = g ∧ token = sd_CSRFToken data)
  ∧ ∀ g' now' random' st'', g' ≠ g → Rotate_session st' g' now' random' = Some st'' →
      ValidateSession st'' (sd_CSRFToken data) g later = false.
Proof.
  intros Hrandom Hcur.
  assert (data = session_data st' origin ∧ ses_generation st' = g ∧ ses_token st' ≠ "" ∧ g ≠ ""
          ∧ (if session_stale st g now then ses_expiresAt st' = (now + ses_ttl st)%Z else st' = st))
    as (->&Hgen&Htok&Hg&Hexp).
  { unfold Current in Hcur. destruct (String.eqb_spec g ""); [done|].
    destruct (session_stale st g now) eqn:Hst.
    - unfold rotateLocked in Hcur. destruct random as [bytes|]; [|done]. injection Hcur as <- <-.
      split_and!; try done. cbn.
      pose proof (Hrandom bytes eq_refl). destruct bytes as [|x [|y [|z l]]]; done.
    - injection Hcur as <- <-. unfold session_stale in Hst.
      rewrite !orb_false_iff, !negb_false_iff in Hst. destruct Hst as [[Ht Hs] _].
      apply String.eqb_neq in Ht. apply String.eqb_eq in Hs. done. }
  cbn. unfold ValidateSession, session_stale. rewrite Hgen.
  rewrite (proj2 (String.eqb_neq g "") Hg), (proj2 (String.eqb_neq _ _) Htok), String.eqb_refl. cbn.
  split_and!; try done.
  - destruct (later <? ses_expiresAt st')%Z; cbn; [apply String.eqb_refl|done].
  - intros g' token. destruct (String.eqb_spec token ""); [done|]. destruct (String.eqb_spec g' ""); [done|].
    cbn. destruct (String.eqb_spec g g') as [->|]; [|done]. cbn.
    destruct (negb _); [done|]. by intros ->%String.eqb_eq.
  - intros g' now' random' st'' Hne' Hrot. unfold Rotate_session in Hrot.
    destruct (String.eqb g' ""); [done|]. unfold rotateLocked in Hrot. destruct random'; [|done].
    injection Hrot as <-. cbn. rewrite (proj2 (String.eqb_neq g' g) Hne').
    by destruct (String.eqb (base64_encode l) "").
Qed.

(** ** Witnesses *)

Section demo.

Definition demo_sessions : SessionStore :=
  {| ses_ttl := MaxSessionTTL; ses_token := ""; ses_generation := ""; ses_expiresAt := 0 |}.

Definition demo_coordinator : Coordinator :=
  {| generation := "gen_0"; sessions := demo_sessions; sequence := 0; intents := ∅;
     intentStop := None; workCtx := 0; workDone := ∅; workStop := true; hooks := 2;
     invalidations := [] |}.

Definition demo_resolution (id : Z) : ScopeResolution :=
  {| res_ScopeID := id; res_ScopeName := "team"; res_ScopeMode := "list"; res_ScopeSource := "manual";
     res_DefaultNamespace := None; res_Namespaces := ["api"]; res_PreferGlobal := false |}.

Definition demo_binding (context : string) : SelectionBinding :=
  {| bind_ClusterProfileID := 1; bind_Context := context; bind_Cluster := "c"; bind_ActiveScopeID := 0;
     bind_Generation := "gen_0" |}.

Definition demo_state : State := {| st_binding := demo_binding "dev"; st_resolution := demo_resolution 0 |}.

(** Goroutine 1 prepares a scope mutation; goroutine 2 replaces the context meanwhile. *)
Definition demo_first : list action :=
  [Call 1 "gen_0" (Mutate true) None; RunValidate 1; RunRead 1; RunValidate 1].

Definition demo_second : action :=
  Call 2 "gen_0" (ReplaceContext (demo_binding "prod") (demo_resolution 7) true) None.

Definition demo_rest : list action :=
  [RunCommit 2 (Ok {| mut_PublishGeneration := true; mut_Activation := None |});
   RunRotate 2 (Some [1; 2; 3]%Z); RunInitialize (demo_binding "x") (demo_resolution 1); RunRestart 2;
   RunInstall 2; RunNonce 2 5 (Some [9]%Z);
   RunPrepare 1 (PreparedCommit true); RunValidate 1].

Definition demo_runs (w : system) (acts : list action) : bool :=
  match run w acts with Some _ => true | None => false end.

Definition demo_after (acts : list action) : system :=
  default (init_system demo_coordinator demo_state) (run (init_system demo_coordinator demo_state) acts).

Lemma demo_after_run acts :
  demo_runs (init_system demo_coordinator demo_state) acts = true →
  run (init_system demo_coordinator demo_state) acts = Some (demo_after acts).
Proof. unfold demo_runs, demo_after. by destruct (run _ acts). Defined.

Lemma selection_run_app acts1 acts2 w :
  run w (acts1 ++ acts2)%list = match run w acts1 with Some v => run v acts2 | None => None end.
Proof. revert w. induction acts1 as [|a l IH]; intros w; cbn; [done|]. by destruct (step w a). Qed.

Lemma demo_after_app acts1 acts2 :
  demo_runs (init_system demo_coordinator demo_state) acts1 = true → demo_runs (demo_after acts1) acts2 = true →
  run (demo_after acts1) acts2 = Some (demo_after (acts1 ++ acts2)%list).
Proof.
  intros H1%demo_after_run. unfold demo_runs, demo_after at 3. rewrite selection_run_app, H1. cbn.
  by destruct (run _ acts2).
Defined.

Definition demo_all : list action := (demo_first ++ demo_second :: demo_rest)%list.

Lemma no_lost_update_witness :
  publications (init_system demo_coordinator demo_state) demo_all = [("gen_0", "gen_AQID")]
  ∧ NoDup (fst <$> publications (init_system demo_coordinator demo_state) demo_all).
Proof.
  assert (publications (init_system demo_coordinator demo_state) demo_all = [("gen_0", "gen_AQID")])
    as Hp by (by vm_compute).
  split; [exact Hp|].
  apply (no_lost_update demo_coordinator (demo_binding "dev") (demo_resolution 0) demo_state demo_all
           (demo_after demo_all)).
  - by vm_compute.
  - apply demo_after_run. by vm_compute.
  - rewrite Hp. repeat constructor; set_solver.
Defined.

Lemma work_follows_publications_witness :
  workCtx (coordinator (demo_after demo_all)) = 1%nat
  ∧ invalidations (coordinator (demo_after demo_all)) = ["gen_AQID"; "gen_AQID"].
Proof.
  destruct (work_follows_publications "gen_0" demo_sessions 2 demo_coordinator (demo_binding "dev")
           (demo_resolution 0) demo_state demo_all (demo_after demo_all)) as (H1&_&H3).
  - by vm_compute.
  - by vm_compute.
  - apply demo_after_run. by vm_compute.
  - by vm_compute.
  - split; [rewrite H1; by vm_compute|rewrite H3; by vm_compute].
Defined.

Lemma newest_intent_wins_witness :
  intents (coordinator (demo_after (demo_first ++ [demo_second])%list)) !! 1%nat ≠ Some None
  ∧ overtaken (demo_after demo_all) 1 1.
Proof.
  destruct (newest_intent_wins "gen_0" demo_sessions 2 demo_coordinator (demo_binding "dev")
           (demo_resolution 0) demo_state demo_first (demo_after demo_first) 1
           (Preparing 1 "gen_0" (Mutate true)) 1 2 "gen_0"
           (ReplaceContext (demo_binding "prod") (demo_resolution 7) true) None
           (demo_after (demo_first ++ [demo_second])%list) demo_rest
           (demo_after ((demo_first ++ [demo_second]) ++ demo_rest)%list)) as (H1&H2&_).
  - by vm_compute.
  - by vm_compute.
  - apply demo_after_run. by vm_compute.
  - by vm_compute.
  - by vm_compute.
  - pose proof (demo_after_app demo_first [demo_second]) as Hr. cbn [run] in Hr.
    change (Call 2 _ _ None) with demo_second. destruct (step (demo_after demo_first) demo_second) eqn:Hs.
    + apply Hr; by vm_compute.
    + exfalso. assert (demo_runs (demo_after demo_first) [demo_second] = true) as Hx by (by vm_compute).
      unfold demo_runs in Hx. cbn [run] in Hx. rewrite Hs in Hx. done.
  - by vm_compute.
  - apply demo_after_app; by vm_compute.
  - by vm_compute.
  - split; [exact H1|exact H2].
Defined.

Lemma session_nonce_lifecycle_witness :
  ValidateSession (Current demo_sessions "http://127.0.0.1" "gen_0" 10 (Some [1; 2; 3]%Z)).2 "AQID" "gen_0" 20
    = (20 <? 10 + MaxSessionTTL)%Z.
Proof.
  exact (proj1 (proj2 (proj2 (proj2 (proj2 (session_nonce_lifecycle demo_sessions "http://127.0.0.1" "gen_0" 10
    (Some [1; 2; 3]%Z) {| sd_CSRFToken := "AQID"; sd_Origin := "http://127.0.0.1"; sd_Generation := "gen_0";
                          sd_ExpiresAt := 10 + MaxSessionTTL |}
    (Current demo_sessions "http://127.0.0.1" "gen_0" 10 (Some [1; 2; 3]%Z)).2 20
    ltac:(by intros ? [= <-]) eq_refl)))))).
Defined.

End demo.
