(* ===== verification/SelectionRefinement.v ===== *)
(** * SelectionRefinement: the active selection is a compare-and-set register

    The abstract specification of the selection of [Selection] and the proof that every
    interleaving of its calls implements it. The register holds a selection; [Bind] sets it
    once at startup and [Swap] replaces it for a caller that names its generation. The
    operations of a run carry what the calls of the run asked for, not what the code made of
    it: [requested] reads them off the sequence of actions. *)
From Stdlib Require Import Ascii String ZArith Lia.
From stdpp Require Import base gmap strings list.
From S2P Require Import Prelude Json Encoding Selection.
Local Open Scope string_scope.
Local Open Scope list_scope.

(** ** The register *)

(** [target] is the new context, [None] for a change of the scope alone. *)
Inductive reg_op :=
| Bind (b : SelectionBinding) (r : ScopeResolution)
| Swap (t : nat) (expected : string) (target : option SelectionBinding) (r : ScopeResolution) (next : string).

Definition caller (o : reg_op) : option nat := match o with Swap t _ _ _ _ => Some t | Bind _ _ => None end.

Definition selected (b : SelectionBinding) (r : ScopeResolution) (g : string) : State := {|
  st_binding := {| bind_ClusterProfileID := bind_ClusterProfileID b; bind_Context := bind_Context b;
                   bind_Cluster := bind_Cluster b; bind_ActiveScopeID := res_ScopeID r; bind_Generation := g |};
  st_resolution := r |}.
Definition generation_of (s : State) : string := bind_Generation (st_binding s).

Definition register (s : State) (o : reg_op) : option State :=
  match o with
  | Bind b r => if decide ((bind_ClusterProfileID (st_binding s) = 0%Z ∧ bind_Context (st_binding s) = "")
                           ∧ (0 < bind_ClusterProfileID b)%Z ∧ bind_Context b ≠ "")
                then Some (selected b r (generation_of s)) else None
  | Swap _ expected target r next =>
    if decide (expected = generation_of s) then Some (selected (default (st_binding s) target) r next) else None
  end.
Fixpoint register_all (s : State) (ops : list reg_op) : option State :=
  match ops with [] => Some s | o :: ops => s ← register s o; register_all s ops end.

(** ** What the calls of a run asked for *)

(** The actions by which goroutine [t] proposes a change of generation [expected]. *)
Inductive proposal (t : nat) (expected : string) : payload → list action → Prop :=
| propose_scope parent :
    proposal t expected ScopeMutation
      [Call t expected (Mutate true) parent; RunPrepare t (PreparedCommit true)]
| propose_prepared parent b r :
    proposal t expected (NewContext b r true true)
      [Call t expected (ReplaceContextPrepared true) parent; RunPrepare t (PreparedContext b r true)]
| propose_context parent b r present :
    proposal t expected (NewContext b r false present)
      [Call t expected (ReplaceContext b r present) parent].

(** A transaction that answered [m] selects [r], in the context [target] if there is one. *)
Definition selects (p : payload) (m : SelectionMutation) (target : option SelectionBinding) (r : ScopeResolution) : Prop :=
  match p with
  | ScopeMutation => target = None ∧ mut_PublishGeneration m = true ∧ mut_Activation m = Some r
  | NewContext b r' _ present => target = Some b ∧ r' = r ∧ present = true
  end.

(** The call, its preparation, the answer of its transaction and its random bytes, in this
    order. *)
Definition requested (acts : list action) (o : reg_op) : Prop :=
  match o with
  | Bind b r => RunInitialize b r ∈ acts
  | Swap t expected target r next =>
    ∃ p l m random, proposal t expected p l ∧ selects p m target r ∧ Rotate_generation random = Some next
      ∧ l ++ [RunCommit t (Ok m); RunRotate t random] `sublist_of` acts
  end.

(** The selection a result describes. *)
Definition describes (r : SelectionResult) (a : State) : Prop :=
  sel_Binding r = st_binding a ∧ sel_Resolution r = st_resolution a ∧ sel_Generation r = generation_of a.

(** [t] swapped, and [r] is the selection right after that. *)
Definition swapped (s : State) (ops : list reg_op) (t : nat) (r : SelectionResult) : Prop :=
  ∃ before expected target res a,
    (before ++ [Swap t expected target res (sel_Generation r)]) `prefix_of` ops
    ∧ register_all s (before ++ [Swap t expected target res (sel_Generation r)]) = Some a
    ∧ describes r a.
(** [r] is the selection at some moment, and [t] did not swap. *)
Definition observed (s : State) (ops : list reg_op) (t : nat) (r : SelectionResult) : Prop :=
  (t ∉ omap caller ops)
  ∧ ∃ before a, before `prefix_of` ops ∧ register_all s before = Some a ∧ describes r a.

(** What a call that has returned did. Only a failure of the new nonce reports an error
    although the selection was swapped. *)
Definition failed_without (ops : list reg_op) (t : nat) (e : sel_error) : Prop :=
  e = PublishedStateError "csrf" ∨ t ∉ omap caller ops.
Definition answered (s : State) (ops : list reg_op) (t : nat) (o : outcome) : Prop :=
  match o with
  | Result r => if sel_Changed r then swapped s ops t r else observed s ops t r
  | Failed e | Replaced _ (Some e) => failed_without ops t e
  | Replaced next None => ∃ expected target r, Swap t expected target r next ∈ ops
  end.

(** ** Growing runs *)

Lemma requested_grow acts a o : requested acts o → requested (acts ++ [a]) o.
Proof.
  destruct o as [b r|t e target r next]; cbn; [rewrite elem_of_app; by left|].
  intros (p&l&m&random&Hp&Hm&Hr&Hs). exists p, l, m, random. split_and!; [done..|by apply sublist_inserts_r].
Qed.

Lemma omap_caller_snoc ops extra t : t ∈ omap caller (ops ++ extra) ↔ t ∈ omap caller ops ∨ t ∈ omap caller extra.
Proof. by rewrite omap_app, elem_of_app. Qed.

Lemma swapped_grow s ops extra t r : swapped s ops t r → swapped s (ops ++ extra) t r.
Proof.
  intros (before&e&target&res&a&Hp&Hr). exists before, e, target, res, a. split; [|done].
  by apply prefix_app_r.
Qed.

(** Operations of other callers. *)
Lemma answered_grow s ops extra t out :
  t ∉ omap caller extra → answered s ops t out → answered s (ops ++ extra) t out.
Proof.
  intros Ho. assert (t ∉ omap caller ops → t ∉ omap caller (ops ++ extra)) as Hnew
    by (rewrite omap_caller_snoc; tauto).
  destruct out as [r|e|next [e|]]; cbn; unfold failed_without.
  - destruct (sel_Changed r); [apply swapped_grow|]. intros (Hn&before&a&Hp&Hr).
    split; [by apply Hnew|]. exists before, a. split; [by apply prefix_app_r|done].
  - intros [?|?]; auto.
  - intros [?|?]; auto.
  - intros (e&target&r&Hin). exists e, target, r. apply elem_of_app. by left.
Qed.

(** ** The simulation *)

Section simulation.
Context (s : State).

(** What the actions so far have told goroutine [t]. *)
Definition told (ops : list reg_op) (acts : list action) (t : nat) (th : thread) : Prop :=
  match th with
  | Opened _ e req | Validated _ e req | Compared _ e req | Preparing _ e req =>
    (req = Mutate true ∨ req = ReplaceContextPrepared true)
    ∧ ∃ parent, [Call t e req parent] `sublist_of` acts
  | Prepared _ e answer =>
    ∃ req parent, (req = Mutate true ∨ req = ReplaceContextPrepared true) ∧ fits req answer = true
      ∧ [Call t e req parent; RunPrepare t answer] `sublist_of` acts
  | Committing _ e p => ∃ l, proposal t e p l ∧ l `sublist_of` acts
  | Rotating e p m =>
    ∃ l answer target r, proposal t e p l ∧ selects p answer target r ∧ selects p m target r
      ∧ l ++ [RunCommit t (Ok answer)] `sublist_of` acts
  | Restarting _ _ next => next ≠ ""
  | Installing _ m next => mut_PublishGeneration m = true → next ≠ ""
  | Nonce p r next =>
    next ≠ "" ∧ sel_Generation r = next ∧ sel_Changed r = true ∧ swapped s ops t r
  | Returned o => answered s ops t o
  end.

Definition same_but_generation (s1 s2 : State) : Prop :=
  st_resolution s1 = st_resolution s2
  ∧ with_binding_generation (st_binding s1) "" (bind_ActiveScopeID (st_binding s1))
    = with_binding_generation (st_binding s2) "" (bind_ActiveScopeID (st_binding s2)).

(** Generation [next] is out, its selection is not yet installed. *)
Definition pending (acts : list action) (a : State) (w : system) (t : nat) (p : payload)
    (m : SelectionMutation) (next : string) : Prop :=
  ∃ target r, selects p m target r ∧ requested acts (Swap t (generation_of a) target r next)
    ∧ same_but_generation a (state w).

Definition held (acts : list action) (a : State) (w : system) (t : nat) (th : thread) : Prop :=
  match th with
  | Restarting p m next => pending acts a w t p m next
  | Installing p m next => if mut_PublishGeneration m then pending acts a w t p m next else a = state w
  | _ => a = state w
  end.
Definition locked (acts : list action) (a : State) (w : system) : Prop :=
  match lock w with
  | None => a = state w
  | Some t => ∀ th, threads w !! t = Some th → held acts a w t th
  end.

Definition done_swapping (th : thread) : bool :=
  match th with Nonce _ _ _ | Returned _ => true | _ => false end.

Record refines (acts : list action) (w : system) (ops : list reg_op) (a : State) : Prop := {
  ref_inv : selection_inv w;
  ref_register : register_all s ops = Some a;
  ref_requested : Forall (requested acts) ops;
  ref_once : NoDup (omap caller ops);
  ref_callers : ∀ t, t ∈ omap caller ops → ∃ th, threads w !! t = Some th ∧ done_swapping th = true;
  ref_locked : locked acts a w;
  ref_told : ∀ t th, threads w !! t = Some th → told ops acts t th }.

Lemma told_grow ops extra acts act t th :
  t ∉ omap caller extra → told ops acts t th → told (ops ++ extra) (acts ++ [act]) t th.
Proof.
  intros Ht. destruct th; cbn; try done.
  1-4: intros [? [parent ?]]; split; [done|]; exists parent; by apply sublist_inserts_r.
  - intros (req&parent&?&?&?). exists req, parent. split_and!; [done..|by apply sublist_inserts_r].
  - intros (l&?&?). exists l. split; [done|by apply sublist_inserts_r].
  - intros (l&ans&target&r&?&?&?&?). exists l, ans, target, r. split_and!; [done..|by apply sublist_inserts_r].
  - intros (?&?&?&?). split_and!; [done..|by apply swapped_grow].
  - by apply answered_grow.
Qed.

Lemma held_grow acts act a w w' t th : state w' = state w → held acts a w t th → held (acts ++ [act]) a w' t th.
Proof.
  intros Hs. assert (∀ p m next, pending acts a w t p m next → pending (acts ++ [act]) a w' t p m next) as Hp.
  { intros p m next (target&r&?&?&?). exists target, r. rewrite Hs. split_and!; [done|by apply requested_grow|done]. }
  destruct th as [| | | | | | | |p m next| |]; cbn; rewrite ?Hs; auto. destruct (mut_PublishGeneration m); auto.
Qed.

Lemma locked_grow acts act a w w' :
  state w' = state w → lock w' = lock w →
  (∀ t, lock w = Some t → threads w' !! t = threads w !! t) → locked acts a w → locked (acts ++ [act]) a w'.
Proof.
  intros Hs Hl Ht. unfold locked. rewrite Hl, Hs. destruct (lock w) as [t|]; [|done].
  intros Hk th. rewrite Ht by done. intros Hth. by eapply held_grow, Hk.
Qed.

(** One step: goroutine [t] moves, if any, and [extra] is done on the register. *)
Lemma advance acts act w w' ops a extra a' (mover : option nat) :
  refines acts w ops a → selection_inv w' →
  register_all a extra = Some a' → Forall (requested (acts ++ [act])) extra →
  NoDup (omap caller extra) → (∀ t, t ∈ omap caller extra → mover = Some t ∧ t ∉ omap caller ops) →
  (∀ t, mover ≠ Some t → threads w' !! t = threads w !! t) →
  (∀ t, mover = Some t → ∃ th, threads w' !! t = Some th ∧ told (ops ++ extra) (acts ++ [act]) t th
      ∧ (t ∈ omap caller (ops ++ extra) → done_swapping th = true)) →
  locked (acts ++ [act]) a' w' → refines (acts ++ [act]) w' (ops ++ extra) a'.
Proof.
  intros [_ Hreg Hreq Hone Hcall _ Htold] Hinv' Hex Hreqx Honex Hcallx Hothers Hmover Hlocked.
  split; [done| | | | |done|].
  - revert Hreg Hex. clear. revert s. induction ops as [|o ops IH]; cbn; [by intros ? [= ->]|].
    intros s0. destruct (register s0 o); [|done]. apply IH.
  - apply Forall_app. split; [|done]. eapply Forall_impl; [done|]. intros. by apply requested_grow.
  - rewrite omap_app. apply NoDup_app. split_and!; [done| |done]. intros t Ht Hx. by apply (Hcallx t Hx).
  - intros t Ht. destruct (decide (mover = Some t)) as [->|Hne].
    + destruct (Hmover t eq_refl) as (th&?&_&Hd). exists th. auto.
    + rewrite Hothers by done. apply omap_caller_snoc in Ht as [Ht|Ht]; [auto|]. by destruct (Hcallx t Ht).
  - intros t th. destruct (decide (mover = Some t)) as [->|Hne].
    + destruct (Hmover t eq_refl) as (th'&->&?&_). by intros [= <-].
    + rewrite Hothers by done. intros Hth. apply told_grow; [|auto]. intros Hx. by destruct (Hcallx t Hx).
Qed.

Lemma advance_quiet acts act w w' ops a (mover : option nat) :
  refines acts w ops a → selection_inv w' →
  (∀ t, mover ≠ Some t → threads w' !! t = threads w !! t) →
  (∀ t, mover = Some t → ∃ th, threads w' !! t = Some th ∧ told ops (acts ++ [act]) t th
      ∧ (t ∈ omap caller ops → done_swapping th = true)) →
  locked (acts ++ [act]) a w' → refines (acts ++ [act]) w' ops a.
Proof.
  intros Hr Hinv Ho Hm Hl. rewrite <- (app_nil_r ops). eapply advance; try done.
  - constructor.
  - intros t. by rewrite elem_of_nil.
  - intros t Ht. rewrite app_nil_r. auto.
Qed.

(** Goroutine [t] moves. *)
Lemma moved acts act w c s' l ops a t th :
  refines acts w ops a → selection_inv (goto w c s' l t th) →
  (∀ th0, threads w !! t = Some th0 → done_swapping th0 = true → done_swapping th = true) →
  told ops (acts ++ [act]) t th → locked (acts ++ [act]) a (goto w c s' l t th) →
  refines (acts ++ [act]) (goto w c s' l t th) ops a.
Proof.
  intros Hr Hinv Hd Ht Hl. eapply (advance_quiet _ _ _ _ _ _ (Some t)); try done.
  - intros t' Hne. cbn. apply lookup_insert_ne. congruence.
  - intros t' [= <-]. exists th. cbn. rewrite lookup_insert_eq. split_and!; [done..|].
    intros (th0&Hth0&Hd0)%(ref_callers _ _ _ _ Hr). by eapply Hd.
Qed.

Lemma not_in_ops acts w ops a t :
  refines acts w ops a → (∀ th0, threads w !! t = Some th0 → done_swapping th0 = false) → t ∉ omap caller ops.
Proof. intros Hr Hd (th0&Hth0&Hd0)%(ref_callers _ _ _ _ Hr). rewrite (Hd th0) in Hd0; done. Qed.

(** A goroutine outside a commit. *)
Lemma moved_outside acts act w c s' l ops a t th :
  refines acts w ops a → selection_inv (goto w c s' l t th) → s' = state w → l = lock w →
  (∀ th0, threads w !! t = Some th0 → done_swapping th0 = false ∧ holding th0 = false) →
  told ops (acts ++ [act]) t th → refines (acts ++ [act]) (goto w c s' l t th) ops a.
Proof.
  intros Hr Hinv -> -> Hd Ht. eapply moved; try done.
  - intros th0 Hth0 Hdone. destruct (Hd th0 Hth0). congruence.
  - eapply (locked_grow _ _ _ w); [done..| |by eapply ref_locked]. intros t' Hlock. cbn.
    apply lookup_insert_ne. intros <-. pose proof (ref_inv _ _ _ _ Hr) as [_ Hp].
    rewrite Hlock in Hp. destruct Hp as (th0&Hth0&Hok). pose proof (holder_holds _ _ _ Hok Hth0).
    destruct (Hd th0 Hth0). congruence.
Qed.

(** It fails. *)
Lemma failed_outside acts act w c s' l ops a t o e :
  refines acts w ops a → selection_inv (goto w c s' l t (Returned o)) → s' = state w → l = lock w →
  (∀ th0, threads w !! t = Some th0 → done_swapping th0 = false ∧ holding th0 = false) →
  o = Failed e ∨ (∃ next, o = Replaced next (Some e)) →
  refines (acts ++ [act]) (goto w c s' l t (Returned o)) ops a.
Proof.
  intros Hr Hinv Hs Hl Hd Ho. eapply moved_outside; try done.
  assert (t ∉ omap caller ops) by (eapply not_in_ops; [done|]; intros th0 ?; by apply Hd).
  destruct Ho as [->|[next ->]]; by right.
Qed.

Lemma free_lock acts w ops a : refines acts w ops a → lock w = None → a = state w.
Proof. intros Hr Hl. pose proof (ref_locked _ _ _ _ Hr) as Hk. unfold locked in Hk. by rewrite Hl in Hk. Qed.

Lemma holder_held acts w ops a t th :
  refines acts w ops a → threads w !! t = Some th → holding th = true → lock w = Some t ∧ held acts a w t th.
Proof.
  intros Hr Ht Hh. pose proof (lock_of _ _ _ (ref_inv _ _ _ _ Hr) Ht Hh) as Hl. split; [done|].
  pose proof (ref_locked _ _ _ _ Hr) as Hk. unfold locked in Hk. rewrite Hl in Hk. by apply Hk.
Qed.

Lemma conclude_error_failed p next e :
  (∃ e', conclude_error p next e = Failed e' ∧ (e = e' ∨ e' = mapMutationError e)) ∨ conclude_error p next e = Replaced next (Some e).
Proof. unfold conclude_error. destruct (raw p); [by right|left]. eauto. Qed.

Lemma call_refines acts w ops a t e req parent :
  refines acts w ops a → lock w = None → threads w !! t = None →
  selection_inv (begin_call w t e req parent) →
  refines (acts ++ [Call t e req parent]) (begin_call w t e req parent) ops a.
Proof.
  intros Hr Hl Ht Hinv. unfold begin_call in *.
  assert (∀ th0, threads w !! t = Some th0 → done_swapping th0 = false ∧ holding th0 = false) by (by rewrite Ht).
  assert ([Call t e req parent] `sublist_of` acts ++ [Call t e req parent]) by (by apply sublist_inserts_l).
  destruct req as [[]|[]|b r present].
  1, 3: eapply moved_outside; try done; cbn; eauto.
  1, 2: eapply failed_outside; try done; by left.
  eapply moved_outside; try done. cbn. eexists. split; [by apply propose_context|done].
Qed.

Lemma validate_refines acts act w ops a t th0 seq e next :
  refines acts w ops a → lock w = None → threads w !! t = Some th0 →
  done_swapping th0 = false → holding th0 = false →
  (t ∉ omap caller ops → told ops (acts ++ [act]) t next) →
  selection_inv (validate_then w t seq e next) →
  refines (acts ++ [act]) (validate_then w t seq e next) ops a.
Proof.
  intros Hr Hl Ht Hd Hh Hn Hinv. unfold validate_then in *.
  assert (∀ th, threads w !! t = Some th → done_swapping th = false ∧ holding th = false) as Hth
    by (intros th ?; by simplify_eq).
  assert (t ∉ omap caller ops) as Hnc by (eapply not_in_ops; [done|]; intros th ?; by apply Hth).
  destruct (Intent_Validate _ _ _ _).
  - eapply failed_outside; try done. by left.
  - destruct next; eapply moved_outside; try done; by apply Hn.
Qed.

Lemma after_prepare_told ops acts t seq e answer :
  told ops acts t (Prepared seq e answer) → t ∉ omap caller ops →
  told ops acts t (after_prepare seq e answer).
Proof.
  intros (req&parent&Hreq&Hfits&Hsub) Hnc. destruct answer as [err|[]|b r present]; cbn.
  - by right.
  - eexists. split; [apply propose_scope|]. destruct Hreq as [->| ->]; [done|by cbn in Hfits].
  - by right.
  - case_match; [by right|]. destruct present; [|by right]. eexists. split; [apply propose_prepared|].
    destruct Hreq as [->| ->]; [by cbn in Hfits|done].
Qed.

Lemma transaction_selects st e p answer m :
  transaction st e p answer = Ok m → publishes m →
  ∃ m' target r, answer = Ok m' ∧ selects p m' target r ∧ selects p m target r.
Proof.
  intros Ht Hm. unfold publishes in Hm. destruct p as [|b r checked present]; cbn in Ht.
  - destruct (negb _); [done|]. destruct answer as [m'|]; [|done].
    destruct (mut_PublishGeneration m') eqn:Hp, (mut_Activation m') as [r|] eqn:Ha; simplify_eq; try congruence.
    exists m, None, r. by split_and!.
  - destruct (_ && _); [done|]. destruct present; [|done]. destruct answer as [m'|]; [|done].
    injection Ht as <-. exists m', (Some b), r. by split_and!.
Qed.

Lemma commit_refines acts w ops a t seq e p answer :
  refines acts w ops a → lock w = None → threads w !! t = Some (Committing seq e p) →
  selection_inv (commit w t seq e p answer) →
  refines (acts ++ [RunCommit t answer]) (commit w t seq e p answer) ops a.
Proof.
  intros Hr Hl Ht Hinv. pose proof (ref_told _ _ _ _ Hr _ _ Ht) as (l&Hp&Hsub).
  assert (∀ th, threads w !! t = Some th → done_swapping th = false ∧ holding th = false) as Hth
    by (intros th ?; by simplify_eq).
  assert (∀ err, selection_inv (return_ w (coordinator w) (state w) t (conclude_error p "" err)) →
    refines (acts ++ [RunCommit t answer]) (return_ w (coordinator w) (state w) t (conclude_error p "" err)) ops a)
    as Hfail.
  { intros err Hi. destruct (conclude_error_failed p "" err) as [(e'&He&_)|He]; rewrite He in *;
      eapply failed_outside; try done; eauto. }
  unfold commit in *. destruct (superseded _ _ _); [by apply Hfail|]. destruct (_ || _); [by apply Hfail|].
  destruct (transaction _ _ _ _) as [m|err] eqn:Htx; [|by apply Hfail].
  eapply moved; try done.
  - intros th0 Hth0. destruct (Hth _ Hth0). congruence.
  - destruct (mut_PublishGeneration m) eqn:Hm; cbn; [|by rewrite Hm].
    destruct (transaction_selects _ _ _ _ _ Htx Hm) as (m'&target&r&->&?&?).
    exists l, m', target, r. split_and!; [done..|by apply sublist_app].
  - intros th. cbn. rewrite lookup_insert_eq. intros [= <-]. pose proof (free_lock _ _ _ _ Hr Hl).
    destruct (mut_PublishGeneration m) eqn:Hm; cbn; [done|by rewrite Hm].
Qed.

Lemma Rotate_generation_named random next : Rotate_generation random = Some next → next ≠ "".
Proof. unfold Rotate_generation, newOpaqueValue. destruct random; cbn; [|done]. by intros [= <-]. Qed.

Lemma rotate_refines acts w w' ops a t e p m random :
  refines acts w ops a → threads w !! t = Some (Rotating e p m) →
  step w (RunRotate t random) = Some w' → selection_inv w' →
  refines (acts ++ [RunRotate t random]) w' ops a.
Proof.
  intros Hr Ht Hs Hinv. cbn in Hs. rewrite Ht in Hs. injection Hs as <-.
  destruct (holder_held _ _ _ _ _ _ Hr Ht eq_refl) as [Hl Ha]. cbn in Ha.
  destruct (phase_of _ _ _ (ref_inv _ _ _ _ Hr) Ht eq_refl) as (Hset&He&_).
  destruct (ref_told _ _ _ _ Hr _ _ Ht) as (l&m'&target&r&Hp&Hm'&Hm&Hsub).
  destruct (Rotate_generation random) as [next|] eqn:Hrot.
  - eapply moved; try done; [intros ? ?; by simplify_eq|by apply Rotate_generation_named in Hrot|].
    unfold locked. cbn. rewrite Hl. intros th. rewrite lookup_insert_eq. intros [= <-].
    exists target, r. split_and!; [done| |by rewrite Ha].
    exists p, l, m', random. split_and!; try done.
    + by replace (generation_of a) with e by (rewrite He, Ha; symmetry; exact Hset).
    + rewrite (app_assoc _ [_] [_] : l ++ [_; _] = _). by apply sublist_app.
  - assert (t ∉ omap caller ops) by (eapply not_in_ops; [done|]; intros th ?; by simplify_eq).
    eapply moved; try done.
    destruct (conclude_error_failed p "" (PublishedStateError "generation")) as [(e'&->&_)| ->]; by right.
Qed.

Lemma restart_refines acts w ops a t p m next :
  refines acts w ops a → threads w !! t = Some (Restarting p m next) →
  selection_inv (goto w (restart_work (coordinator w) next) (state w) (lock w) t (Installing p m next)) →
  refines (acts ++ [RunRestart t])
    (goto w (restart_work (coordinator w) next) (state w) (lock w) t (Installing p m next)) ops a.
Proof.
  intros Hr Ht Hinv. destruct (holder_held _ _ _ _ _ _ Hr Ht eq_refl) as [Hl Ha].
  destruct (phase_of _ _ _ (ref_inv _ _ _ _ Hr) Ht eq_refl) as (_&Hm&_). red in Hm.
  pose proof (ref_told _ _ _ _ Hr _ _ Ht) as Hn. cbn in Hn.
  eapply moved; try done; [intros ? ?; by simplify_eq|cbn; auto|].
  unfold locked. cbn. rewrite Hl. intros th. rewrite lookup_insert_eq. intros [= <-].
  cbn. rewrite Hm. by apply (held_grow _ _ _ w _ _ (Restarting p m next)).
Qed.

Lemma install_selected a st p m target r next :
  publishes m → selects p m target r → same_but_generation a st →
  install st p m next = selected (default (st_binding a) target) r next.
Proof.
  intros Hm Hs [_ Hb]. unfold publishes in Hm. destruct p; cbn in *.
  - destruct Hs as (->&_&->). rewrite Hm. unfold selected, with_binding_generation in *. cbn. inversion Hb. congruence.
  - by destruct Hs as (->&->&_).
Qed.

Lemma register_all_snoc ops a o : register_all s ops = Some a → register_all s (ops ++ [o]) = register a o.
Proof.
  revert s. induction ops as [|o' ops IH]; cbn; intros s0.
  - intros [= ->]. by destruct (register a o).
  - destruct (register s0 o'); [apply IH|done].
Qed.

Lemma install_refines acts w ops a t p m next :
  refines acts w ops a → threads w !! t = Some (Installing p m next) → mut_PublishGeneration m = true →
  let s' := install (state w) p m next in
  let w' := goto w (coordinator w) s' (lock w) t (Nonce p (installed_result s' m next) next) in
  selection_inv w' → ∃ ops' a', refines (acts ++ [RunInstall t]) w' ops' a'.
Proof.
  intros Hr Ht Hm s' w' Hinv. destruct (holder_held _ _ _ _ _ _ Hr Ht eq_refl) as [Hl Ha]. cbn in Ha.
  pose proof (ref_told _ _ _ _ Hr _ _ Ht Hm) as Hnext.
  rewrite Hm in Ha. destruct Ha as (target&r&Hsel&Hreq&Hsame).
  assert (t ∉ omap caller ops) as Hnc by (eapply not_in_ops; [done|]; intros th ?; by simplify_eq).
  set (o := Swap t (generation_of a) target r next).
  assert (register a o = Some s') as Ho.
  { unfold s'. rewrite (install_selected a _ _ _ _ _ _ Hm Hsel Hsame). cbn. by rewrite decide_True. }
  assert (generation_of s' = next) as Hgen.
  { cbn in Ho. rewrite decide_True in Ho by done. by injection Ho as <-. }
  pose proof (register_all_snoc _ _ o (ref_register _ _ _ _ Hr)) as Hall. rewrite Ho in Hall.
  exists (ops ++ [o]), s'. eapply (advance _ _ _ _ _ _ _ _ (Some t)); try done.
  - cbn [register_all]. by rewrite Ho.
  - constructor; [|done]. by apply requested_grow.
  - cbn. apply NoDup_singleton.
  - intros t'. cbn. rewrite list_elem_of_singleton. by intros ->.
  - intros t' Hne. cbn. apply lookup_insert_ne. congruence.
  - intros t' [= <-]. eexists. cbn [threads w' goto]. rewrite lookup_insert_eq. split_and!; [done| |done].
    split_and!; [done|done|done|]. exists ops, (generation_of a), target, r, s'. split_and!; try done.
  - unfold locked. cbn. rewrite Hl. intros th. rewrite lookup_insert_eq. by intros [= <-].
Qed.

Lemma keep_refines acts w ops a t p m next :
  refines acts w ops a → threads w !! t = Some (Installing p m next) → mut_PublishGeneration m = false →
  let s' := install (state w) p m next in
  let w' := return_ w (coordinator w) s' t (conclude p next (installed_result s' m next)) in
  selection_inv w' → refines (acts ++ [RunInstall t]) w' ops a.
Proof.
  intros Hr Ht Hm s' w' Hinv. destruct (holder_held _ _ _ _ _ _ Hr Ht eq_refl) as [Hl Ha]. cbn in Ha.
  pose proof (phase_of _ _ _ (ref_inv _ _ _ _ Hr) Ht eq_refl) as Hok. cbn in Hok. rewrite Hm in Ha, Hok.
  destruct Hok as (Hset&->&->).
  assert (t ∉ omap caller ops) as Hnc by (eapply not_in_ops; [done|]; intros th ?; by simplify_eq).
  assert (s' = a) as Hs' by (rewrite Ha; unfold s'; cbn; by rewrite Hm).
  assert (describes (installed_result (state w) m (generation (coordinator w))) a) as Hdesc.
  { rewrite Ha. split_and!; [done..|]. symmetry. exact Hset. }
  eapply moved; try done.
  cbn. destruct (String.eqb _ _); [by right|]. cbn. rewrite Hm. split; [done|].
  exists ops, a. split_and!; [done|by apply (ref_register _ _ _ _ Hr)|exact Hdesc].
Qed.

Lemma nonce_refines acts act w c ops a t p r next o :
  refines acts w ops a → threads w !! t = Some (Nonce p r next) →
  o = conclude_error p next (PublishedStateError "csrf") ∨ o = conclude p next r →
  selection_inv (return_ w c (state w) t o) → refines (acts ++ [act]) (return_ w c (state w) t o) ops a.
Proof.
  intros Hr Ht Ho Hinv. destruct (holder_held _ _ _ _ _ _ Hr Ht eq_refl) as [_ Ha].
  destruct (ref_told _ _ _ _ Hr _ _ Ht) as (Hn&Hg&Hc&Hsw).
  eapply moved; try done. destruct Ho as [->|Ho].
  - destruct (conclude_error_failed p next (PublishedStateError "csrf")) as [(e'&->&[<- | ->])| ->]; by left.
  - assert (answered s ops t (Result (with_result_generation r next))) as Hres.
    { cbn. rewrite Hc. destruct r as [g b sr ch]. cbn in *. by subst g. }
    subst o. unfold conclude. destruct p as [|b sr [] present]; [|done|].
    + by rewrite (proj2 (String.eqb_neq _ _)) by (by rewrite Hg).
    + destruct Hsw as (before&e&target&res&a'&Hpre&_). exists e, target, res. rewrite Hg in Hpre.
      destruct Hpre as [rest ->]. rewrite !elem_of_app, list_elem_of_singleton. cbn. by left; right.
Qed.

(** A step that moves no goroutine and leaves the selection alone. *)
Lemma still_refines acts act w c ops a :
  refines acts w ops a →
  selection_inv {| coordinator := c; state := state w; lock := lock w; threads := threads w |} →
  refines (acts ++ [act]) {| coordinator := c; state := state w; lock := lock w; threads := threads w |} ops a.
Proof.
  intros Hr Hinv. eapply (advance_quiet _ _ _ _ _ _ None); try done.
  eapply (locked_grow _ _ _ w); [done..|]. by eapply ref_locked.
Qed.

(** Binding at startup, whatever generation is read. *)
Lemma Initialize_register a st g b r :
  same_but_generation a st →
  match register a (Bind b r) with
  | Some a' => same_but_generation a' (Initialize st g b r).2 ∧ generation_of a' = generation_of a
               ∧ (a = st → generation_of a = g → a' = (Initialize st g b r).2)
  | None => (Initialize st g b r).2 = st
  end.
Proof.
  intros [Hr Hb].
  assert (bind_ClusterProfileID (st_binding a) = bind_ClusterProfileID (st_binding st)
          ∧ bind_Context (st_binding a) = bind_Context (st_binding st)) as [Hid Hctx]
    by (unfold with_binding_generation in Hb; by inversion Hb).
  unfold register, Initialize. rewrite Hid, Hctx. clear Hr Hb.
  destruct (decide _) as [([H1 H2]&H3&H4)|Hn].
  - rewrite (proj2 (Z.leb_gt _ _)), (proj2 (String.eqb_neq _ _)) by done.
    rewrite H1, H2. cbn. split_and!; [by split|done|]. intros -> <-. done.
  - destruct (_ || _) eqn:H1; [done|]. destruct (negb _ || _) eqn:H2; [done|]. cbn.
    apply orb_false_iff in H1 as [?%Z.leb_gt ?%String.eqb_neq].
    apply orb_false_iff in H2 as [H2 H2']. apply negb_false_iff, Z.eqb_eq in H2.
    apply negb_false_iff, String.eqb_eq in H2'. by destruct Hn.
Qed.

#[local] Instance same_but_generation_refl : Reflexive same_but_generation.
Proof. by split. Qed.

Definition initialized (w : system) (b : SelectionBinding) (r : ScopeResolution) : system :=
  {| coordinator := coordinator w; state := (Initialize (state w) (generation (coordinator w)) b r).2;
     lock := lock w; threads := threads w |}.

(** The selection and the register agree up to the generation that is being published. *)
Lemma holder_same acts w ops a t th :
  refines acts w ops a → threads w !! t = Some th → holding th = true →
  same_but_generation a (state w)
  ∧ ((∃ p m next, held acts a w t th = pending acts a w t p m next
        ∧ ∀ acts' a' w', held acts' a' w' t th = pending acts' a' w' t p m next)
     ∨ a = state w ∧ generation_of a = generation (coordinator w)
       ∧ ∀ acts' a' w', held acts' a' w' t th = (a' = state w')).
Proof.
  intros Hr Ht Hh. destruct (holder_held _ _ _ _ _ _ Hr Ht Hh) as [_ Ha].
  pose proof (phase_of _ _ _ (ref_inv _ _ _ _ Hr) Ht Hh) as Hok.
  destruct th as [| | | | | |e p m|p m next|p m next|p r next|]; try done; cbn in *.
  - destruct Hok as [Hs _]. rewrite Ha. split; [done|]. right. by split_and!.
  - split; [by destruct Ha as (?&?&_&_&?)|]. left. eauto.
  - destruct (mut_PublishGeneration m).
    + split; [by destruct Ha as (?&?&_&_&?)|]. left. eauto.
    + destruct Hok as [Hs _]. rewrite Ha. split; [done|]. right. by split_and!.
  - destruct Hok as [Hs _]. rewrite Ha. split; [done|]. right. by split_and!.
Qed.

Lemma initialize_refines acts w ops a b r :
  refines acts w ops a → selection_inv (initialized w b r) →
  ∃ ops' a', refines (acts ++ [RunInitialize b r]) (initialized w b r) ops' a'.
Proof.
  intros Hr Hinv. set (g := generation (coordinator w)).
  assert (same_but_generation a (state w)
    ∧ (lock w = None → a = state w ∧ generation_of a = g)) as [Hsame Hfree].
  { destruct (lock w) as [t|] eqn:Hl.
    - pose proof (ref_inv _ _ _ _ Hr) as [_ Hp]. rewrite Hl in Hp. destruct Hp as (th&Ht&Hok).
      split; [|done]. by eapply holder_same, holder_holds.
    - rewrite (free_lock _ _ _ _ Hr Hl). split; [done|]. intros _. split; [done|].
      by apply free_settled; [apply (ref_inv _ _ _ _ Hr)|]. }
  pose proof (Initialize_register a (state w) g b r Hsame) as Hi.
  destruct (register a (Bind b r)) as [a'|] eqn:Ho.
  - destruct Hi as (Hsame'&Hgen&Heq). exists (ops ++ [Bind b r]), a'.
    eapply (advance _ _ _ _ _ _ _ _ None); try done.
    + cbn [register_all]. by rewrite Ho.
    + constructor; [|done]. apply elem_of_app. right. by left.
    + constructor.
    + intros t. by rewrite elem_of_nil.
    + unfold locked. cbn [lock initialized]. destruct (lock w) as [t|] eqn:Hl; [|by apply Heq; apply Hfree].
      intros th Ht. cbn [threads initialized] in Ht.
      pose proof (ref_inv _ _ _ _ Hr) as [_ Hp]. rewrite Hl in Hp. destruct Hp as (th'&Ht'&Hok).
      pose proof (holder_holds _ _ _ Hok Ht') as Hh. simplify_eq.
      destruct (holder_held _ _ _ _ _ _ Hr Ht Hh) as [_ Ha].
      destruct (holder_same _ _ _ _ _ _ Hr Ht Hh) as [_ [(p&m&next&Hp&Hp')|(->&Hg&Hp')]].
      * rewrite Hp' in *. destruct Ha as (target&res&?&?&_). exists target, res.
        split_and!; [done| |done]. rewrite Hgen. by apply requested_grow.
      * rewrite Hp'. by apply Heq.
  - exists ops, a.
    assert (initialized w b r = {| coordinator := coordinator w; state := state w; lock := lock w;
      threads := threads w |}) as Hsys by (unfold initialized; f_equal; exact Hi).
    rewrite Hsys in *. by apply still_refines.
Qed.

Lemma refines_step acts w ops a act w' :
  refines acts w ops a → step w act = Some w' → ∃ ops' a', refines (acts ++ [act]) w' ops' a'.
Proof.
  intros Hr Hs. pose proof (selection_step _ _ _ (ref_inv _ _ _ _ Hr) Hs) as Hinv.
  destruct act as [t e req parent|t|t|t answer|t answer|t random|t|t|t now random|t err|b r|o g now random|];
    pose proof Hs as Hstep; cbn [step] in Hs.
  - case_bool_decide as Hl; cbn in Hs; [|done]. case_bool_decide; [|done]. injection Hs as <-.
    eexists _, _. by apply call_refines.
  - case_bool_decide as Hl; [|done]. exists ops, a.
    destruct (threads w !! t) as [th|] eqn:Ht; [|done]. pose proof (ref_told _ _ _ _ Hr _ _ Ht) as Htold.
    apply (told_grow ops [] acts (RunValidate t)) in Htold; [|apply not_elem_of_nil].
    rewrite app_nil_r in Htold. destruct th; simplify_eq; eapply validate_refines; try done.
    by apply after_prepare_told.
  - exists ops, a. destruct (threads w !! t) as [th|] eqn:Ht; [|done].
    pose proof (ref_told _ _ _ _ Hr _ _ Ht) as Htold.
    apply (told_grow ops [] acts (RunRead t)) in Htold; [|apply not_elem_of_nil]. rewrite app_nil_r in Htold.
    destruct th; simplify_eq. case_match.
    + eapply moved_outside; try done. intros th ?; by simplify_eq.
    + eapply failed_outside; try done; [intros th ?; by simplify_eq|by left].
  - exists ops, a. destruct (threads w !! t) as [th|] eqn:Ht; [|done].
    pose proof (ref_told _ _ _ _ Hr _ _ Ht) as Htold. destruct th as [| | |seq e req| | | | | | |]; simplify_eq.
    destruct (fits req answer) eqn:Hf; simplify_eq. destruct Htold as (Hreq&parent&Hsub).
    eapply moved_outside; try done; [intros th ?; by simplify_eq|].
    exists req, parent. split_and!; [done..|]. change [?x; ?y] with ([x] ++ [y]). by apply sublist_app.
  - case_bool_decide as Hl; [|done]. destruct (threads w !! t) as [[]|] eqn:Ht; simplify_eq.
    eexists _, _. by apply commit_refines.
  - destruct (threads w !! t) as [[]|] eqn:Ht; simplify_eq. eexists _, _. by eapply rotate_refines.
  - destruct (threads w !! t) as [[]|] eqn:Ht; simplify_eq. eexists _, _. by apply restart_refines.
  - destruct (threads w !! t) as [[]|] eqn:Ht; simplify_eq.
    destruct (mut_PublishGeneration m) eqn:Hm; [by eapply install_refines|].
    eexists _, _. by eapply keep_refines.
  - destruct (threads w !! t) as [[]|] eqn:Ht; simplify_eq. exists ops, a.
    case_match; eapply nonce_refines; try done; auto.
  - destruct (intents _ !! t) as [[]|]; simplify_eq. eexists _, _. by apply still_refines.
  - injection Hs as <-. by apply initialize_refines with ops a.
  - injection Hs as <-. eexists _, _. by apply still_refines.
  - case_bool_decide as Hl; [|done]. injection Hs as <-. rewrite <- Hl in *. eexists _, _. by apply still_refines.
Qed.

Lemma refines_run acts0 w0 ops0 a0 acts w :
  refines acts0 w0 ops0 a0 → run w0 acts = Some w → ∃ ops a, refines (acts0 ++ acts) w ops a.
Proof.
  revert acts0 w0 ops0 a0. induction acts as [|act acts IH]; intros acts0 w0 ops0 a0 Hr; cbn.
  - intros [= <-]. rewrite app_nil_r. eauto.
  - destruct (step w0 act) as [w1|] eqn:Hs; [|done]. intros Hrun.
    destruct (refines_step _ _ _ _ _ _ Hr Hs) as (ops1&a1&Hr1).
    rewrite (app_assoc _ [_] _ : acts0 ++ act :: acts = _). by eapply IH.
Qed.

End simulation.

(** C4: The active selection is a compare-and-set register on the generation. Whatever the
    interleaving and the failures, there is a sequence of register operations that explains
    the settled selection and every answer: each swap names the generation the register then
    holds, was asked for by one call (its action, its preparation, its transaction and its
    random bytes are in the run and determine the new selection), and no call swaps twice; a
    call that reports a change has swapped and describes the selection right after its swap,
    one that reports no change or an error has not swapped, unless only the new session
    nonce failed. *)
Theorem selection_refines_cas c b r s acts w :
  NewState c b r = Some s → run (init_system c s) acts = Some w → lock w = None →
  ∃ ops, register_all s ops = Some (state w)
    ∧ generation (coordinator w) = generation_of (state w)
    ∧ Forall (requested acts) ops ∧ NoDup (omap caller ops)
    ∧ ∀ t o, threads w !! t = Some (Returned o) → answered s ops t o.
Proof.
  intros Hnew Hrun Hl.
  assert (refines s [] (init_system c s) [] s) as H0.
  { split; try done; [by eapply selection_init|constructor|]. intros t. by rewrite elem_of_nil. }
  destruct (refines_run _ _ _ _ _ _ _ H0 Hrun) as (ops&a&Hr). exists ops.
  rewrite <- (free_lock _ _ _ _ _ Hr Hl) at 1. split_and!.
  - by apply (ref_register _ _ _ _ _ Hr).
  - symmetry. by apply free_settled; [apply (ref_inv _ _ _ _ _ Hr)|].
  - by apply (ref_requested _ _ _ _ _ Hr).
  - by apply (ref_once _ _ _ _ _ Hr).
  - intros t o Ht. exact (ref_told _ _ _ _ _ Hr _ _ Ht).
Qed.

(** A context replacement overtakes a scope mutation that is being prepared. *)
Lemma selection_refines_cas_witness :
  ∃ ops, register_all demo_state ops = Some (state (demo_after demo_all))
    ∧ (∃ expected target r, Swap 2 expected target r "gen_AQID" ∈ ops)
    ∧ failed_without ops 1 NamespacesErrGenerationChanged.
Proof.
  destruct (selection_refines_cas demo_coordinator (demo_binding "dev") (demo_resolution 0) demo_state demo_all
              (demo_after demo_all)) as (ops&H1&_&_&_&Hans).
  - by vm_compute.
  - apply demo_after_run. by vm_compute.
  - by vm_compute.
  - exists ops. split; [exact H1|]. split.
    + apply (Hans 2%nat (Replaced "gen_AQID" None)). by vm_compute.
    + apply (Hans 1%nat (Failed NamespacesErrGenerationChanged)). by vm_compute.
Defined.
