(* ===== verification/Namespaces.v ===== *)
(** * Namespaces: the namespace-input grammar and scope drafts

    Model of src/internal/services/namespaces: the input grammar (parser.go), the scope
    drafts and their invariants (model.go), and the pure parts of the service (service.go):
    request parsing, request shapes, existence reports and resolutions. The service's
    operations, which run through the selection, are in [Scopes].

    JSON input is decoded as encoding/json does it for a list of strings; the YAML decoder
    (gopkg.in/yaml.v3) is a parameter ([YamlDecoder]), the checks on its node tree are
    modelled; DNS-1123 label validation is apimachinery's ([DnsNames]). *)
From Stdlib Require Import Ascii String ZArith Lia.
From stdpp Require Import base gmap strings list.
From S2P Require Import Prelude Json Unicode Topics Cursor Ports Retry Pagination Collect Catalogue Access Encoding Selection.

Local Open Scope string_scope.

(** ** Errors and limits *)

Inductive scope_error :=
| ErrBodyTooLarge | ErrInvalidNamespaceInput | ErrNamespaceLimit | ErrNotFound | ErrConflict
| ErrSelectionMismatch | ErrScopeGenerationChanged | ErrNamespaceListForbidden
| ErrNamespaceListUnavailable | ErrInvariant
| FieldError (field message : string)
| ReportError
| RepositoryError (text : string).

Definition MaxNamespaceEntries : Z := 10000.
Definition MaxScopeBodyBytes : Z := 1048576.
Definition MaxScopeNameRunes : Z := 120.
Definition MaxContextBytes : Z := 1024.

Section names.
Context `{DnsNames}.

Definition ValidNamespaceName (name : string) : bool :=
  negb (String.eqb name "*") && IsDNS1123Label name.

(** ** Reports *)

Record InvalidNamespace := { inv_Input : string; inv_Code : string }.

Record ValidationReport := {
  rep_Valid : list string; rep_ValidCount : Z; rep_DuplicateCount : Z;
  rep_DiscardedEmptyCount : Z; rep_Invalid : list InvalidNamespace; rep_InvalidCount : Z;
  rep_Checked : bool; rep_ReasonCode : string }.

Definition invalid_name (item : string) : InvalidNamespace :=
  {| inv_Input := item; inv_Code := "INVALID_NAMESPACE_NAME" |}.

(** The counters of the loop: valid and invalid names, duplicates, discarded entries. *)
Record tally := {
  tal_seen : gset string; tal_valid : list string; tal_invalid : list InvalidNamespace;
  tal_duplicates : Z; tal_empty : Z }.

Definition classify_one (acc : tally) (item : string) : tally :=
  let item := TrimSpace item in
  if String.eqb item "" then
    {| tal_seen := tal_seen acc; tal_valid := tal_valid acc; tal_invalid := tal_invalid acc;
       tal_duplicates := tal_duplicates acc; tal_empty := tal_empty acc + 1 |}
  else if bool_decide (item ∈ tal_seen acc) then
    {| tal_seen := tal_seen acc; tal_valid := tal_valid acc; tal_invalid := tal_invalid acc;
       tal_duplicates := tal_duplicates acc + 1; tal_empty := tal_empty acc |}
  else
    let seen := {[item]} ∪ tal_seen acc in
    if negb (ValidNamespaceName item) then
      {| tal_seen := seen; tal_valid := tal_valid acc;
         tal_invalid := (tal_invalid acc ++ [invalid_name item])%list;
         tal_duplicates := tal_duplicates acc; tal_empty := tal_empty acc |}
    else
      {| tal_seen := seen; tal_valid := (tal_valid acc ++ [item])%list; tal_invalid := tal_invalid acc;
         tal_duplicates := tal_duplicates acc; tal_empty := tal_empty acc |}.

Definition empty_tally : tally :=
  {| tal_seen := ∅; tal_valid := []; tal_invalid := []; tal_duplicates := 0; tal_empty := 0 |}.

Definition classifyItems (items : list string) : ValidationReport :=
  let acc := foldl classify_one empty_tally items in
  {| rep_Valid := tal_valid acc; rep_ValidCount := Z.of_nat (length (tal_valid acc));
     rep_DuplicateCount := tal_duplicates acc; rep_DiscardedEmptyCount := tal_empty acc;
     rep_Invalid := tal_invalid acc; rep_InvalidCount := Z.of_nat (length (tal_invalid acc));
     rep_Checked := false; rep_ReasonCode := "NOT_CHECKED" |}.

End names.

(** ** Text input *)

Definition LF : ascii := chr 10.
Definition CR : ascii := chr 13.

Fixpoint replace_crlf (l : list ascii) : list ascii :=
  match l with
  | [] => []
  | c :: r =>
    match r with
    | d :: r' => if Ascii.eqb c CR && Ascii.eqb d LF then LF :: replace_crlf r' else c :: replace_crlf r
    | [] => [c]
    end
  end.

Definition normalize_newlines (l : list ascii) : list ascii :=
  (λ c, if Ascii.eqb c CR then LF else c) <$> replace_crlf l.

(** Split at the separators, keeping empty segments. *)
Fixpoint split_at (sep : ascii → bool) (l : list ascii) : list (list ascii) :=
  match l with
  | [] => [[]]
  | c :: r => if sep c then [] :: split_at sep r
              else match split_at sep r with
                   | s :: rest => (c :: s) :: rest
                   | [] => [[c]]
                   end
  end.

Definition structural (c : ascii) : bool :=
  Ascii.eqb c "," || Ascii.eqb c ";" || Ascii.eqb c LF.

Definition blank (c : ascii) : bool := Ascii.eqb c " " || Ascii.eqb c (chr 9).

Definition splitStructural (l : list ascii) : list (list ascii) := split_at structural l.

Fixpoint drop_blank (l : list ascii) : list ascii :=
  match l with c :: r => if blank c then drop_blank r else l | [] => [] end.

(** [strings.Trim] with a cutset of blank and tab. *)
Definition trim_blank (l : list ascii) : list ascii := rev (drop_blank (rev (drop_blank l))).

(** [strings.FieldsFunc]: the non-empty pieces. *)
Definition fields (l : list ascii) : list (list ascii) :=
  List.filter (λ s, match s with [] => false | _ => true end) (split_at blank l).

Definition segment_items (segment : list ascii) : list string :=
  match trim_blank segment with
  | [] => [""]
  | trimmed => of_chars <$> fields trimmed
  end.

Definition tokenizeText (input : string) : list string :=
  splitStructural (normalize_newlines (chars input)) ≫= segment_items.

(** ** JSON input *)

Definition json_blank (c : ascii) : bool :=
  Ascii.eqb c " " || Ascii.eqb c (chr 9) || Ascii.eqb c LF || Ascii.eqb c CR.

Fixpoint json_ws (l : list ascii) : list ascii :=
  match l with c :: r => if json_blank c then json_ws r else l | [] => [] end.

Definition hex_value (c : ascii) : option N :=
  if in_range 48 57 c then Some (byte c - 48)%N
  else if in_range 97 102 c then Some (byte c - 87)%N
  else if in_range 65 70 c then Some (byte c - 55)%N else None.

(** [getu4] after the backslash and the u. *)
Definition hex4 (l : list ascii) : option (N * list ascii) :=
  match l with
  | a :: b :: c :: d :: r =>
    a ← hex_value a; b ← hex_value b; c ← hex_value c; d ← hex_value d;
    Some (((a * 16 + b) * 16 + c) * 16 + d, r)%N
  | _ => None
  end.

Definition surrogate (r : N) : bool := (55296 <=? r)%N && (r <=? 57343)%N.

(** The rune of a \u escape: a valid pair is combined, a lone surrogate is replaced. *)
Definition unicode_escape (r : N) (rest : list ascii) : N * list ascii :=
  if surrogate r then
    match rest with
    | c :: d :: rest' =>
      if Ascii.eqb c backslash && Ascii.eqb d "u" then
        match hex4 rest' with
        | Some (r', rest'') =>
          if (55296 <=? r)%N && (r <? 56320)%N && (56320 <=? r')%N && (r' <? 57344)%N
          then (65536 + (r - 55296) * 1024 + (r' - 56320), rest'')%N
          else (RuneError, rest)
        | None => (RuneError, rest)
        end
      else (RuneError, rest)
    | _ => (RuneError, rest)
    end
  else (r, rest).

Definition simple_escape (c : ascii) : option ascii :=
  if Ascii.eqb c quote then Some quote
  else if Ascii.eqb c backslash then Some backslash
  else if Ascii.eqb c "/" then Some "/"%char
  else if Ascii.eqb c "b" then Some (chr 8)
  else if Ascii.eqb c "f" then Some (chr 12)
  else if Ascii.eqb c "n" then Some LF
  else if Ascii.eqb c "r" then Some CR
  else if Ascii.eqb c "t" then Some (chr 9) else None.

(** The rest of a string literal after the opening quote, and what follows it. *)
Fixpoint json_chars (fuel : nat) (l : list ascii) : option (list ascii * list ascii) :=
  match fuel with
  | O => None
  | S fuel' =>
    match l with
    | [] => None
    | c :: r =>
      if Ascii.eqb c quote then Some ([], r)
      else if Ascii.eqb c backslash then
        match r with
        | [] => None
        | e :: r' =>
          if Ascii.eqb e "u" then
            '(v, r'') ← hex4 r';
            let '(v, r'') := unicode_escape v r'' in
            '(text, rest) ← json_chars fuel' r''; Some ((EncodeRune v ++ text)%list, rest)
          else
            d ← simple_escape e; '(text, rest) ← json_chars fuel' r'; Some (d :: text, rest)
        end
      else if in_range 0 31 c then None
      else
        let '(v, w) := DecodeRune l in
        '(text, rest) ← json_chars fuel' (drop w l); Some ((EncodeRune v ++ text)%list, rest)
    end
  end.

Definition json_literal (l : list ascii) : option (string * list ascii) :=
  match l with
  | c :: r => if Ascii.eqb c quote
              then '(text, rest) ← json_chars (S (length r)) r; Some (of_chars text, rest) else None
  | [] => None
  end.

(** An element of a list of strings: a string, or null, which leaves the zero value. *)
Definition json_element (l : list ascii) : option (string * list ascii) :=
  match strip_prefix (chars "null") l with
  | Some r => Some ("", r)
  | None => json_literal l
  end.

(** The elements after an opening bracket or a comma, to the closing bracket. *)
Fixpoint json_items (fuel : nat) (l : list ascii) : option (list string * list ascii) :=
  match fuel with
  | O => None
  | S fuel' =>
    '(x, r) ← json_element (json_ws l);
    match json_ws r with
    | c :: r' =>
      if Ascii.eqb c "]" then Some ([x], r')
      else if Ascii.eqb c "," then '(xs, rest) ← json_items fuel' r'; Some (x :: xs, rest) else None
    | [] => None
    end
  end.

Definition json_strings (l : list ascii) : option (list string * list ascii) :=
  match json_ws l with
  | c :: r =>
    if Ascii.eqb c "[" then
      match json_ws r with
      | d :: r' => if Ascii.eqb d "]" then Some ([], r') else json_items (S (length r)) r
      | [] => None
      end
    else None
  | [] => None
  end.

(** [requireJSONEOF] *)
Definition json_eof {A} (x : A) (rest : list ascii) : option A :=
  match json_ws rest with [] => Some x | _ => None end.

(** The object form has exactly one member, [namespaces]. *)
Definition json_object_items (l : list ascii) : option (list string) :=
  '(name, r) ← json_literal (json_ws l);
  if negb (String.eqb name "namespaces") then None
  else match json_ws r with
       | c :: r' =>
         if negb (Ascii.eqb c ":") then None
         else
           '(items, rest) ← json_strings r';
           match json_ws rest with
           | d :: rest' => if Ascii.eqb d "}" then json_eof items rest' else None
           | [] => None
           end
       | [] => None
       end.

Definition parseJSONItems (input : string) : option (list string) :=
  match chars input with
  | c :: r =>
    if Ascii.eqb c "[" then '(items, rest) ← json_strings (chars input); json_eof items rest
    else if Ascii.eqb c "{" then json_object_items r else None
  | [] => None
  end.

(** ** YAML input *)

Inductive NodeKind := DocumentNode | SequenceNode | MappingNode | ScalarNode | AliasNode.

#[export] Instance NodeKind_eq_dec : EqDecision NodeKind.
Proof. solve_decision. Defined.

Inductive Node :=
| YamlNode (kind : NodeKind) (tagged : bool) (tag value anchor : string) (content : list Node).

Definition node_kind (n : Node) : NodeKind := let 'YamlNode k _ _ _ _ _ := n in k.
Definition node_tag (n : Node) : string := let 'YamlNode _ _ t _ _ _ := n in t.
Definition node_value (n : Node) : string := let 'YamlNode _ _ _ v _ _ := n in v.
Definition node_content (n : Node) : list Node := let 'YamlNode _ _ _ _ _ c := n in c.

(** The first document, and whether the input ends after it; [None] on an error. *)
Class YamlDecoder := yaml_Decode : string → option (Node * bool).

Fixpoint hasForbiddenYAMLSyntax (n : Node) : bool :=
  let 'YamlNode k tagged _ _ anchor content := n in
  bool_decide (k = AliasNode) || negb (String.eqb anchor "") || tagged
  || existsb hasForbiddenYAMLSyntax content.

Fixpoint yamlStringSequence (l : list Node) : option (list string) :=
  match l with
  | [] => Some []
  | n :: rest =>
    if negb (bool_decide (node_kind n = ScalarNode)) || negb (String.eqb (node_tag n) "!!str") then None
    else items ← yamlStringSequence rest; Some (node_value n :: items)
  end.

Definition parseYAMLItems `{YamlDecoder} (input : string) : option (list string) :=
  '(document, eof) ← yaml_Decode input;
  if negb eof then None
  else if negb (bool_decide (node_kind document = DocumentNode)) then None
  else match node_content document with
       | [root] =>
         if hasForbiddenYAMLSyntax root then None
         else match node_kind root with
              | SequenceNode => yamlStringSequence (node_content root)
              | MappingNode =>
                match node_content root with
                | [key; value] =>
                  if negb (bool_decide (node_kind key = ScalarNode))
                     || negb (String.eqb (node_tag key) "!!str")
                     || negb (String.eqb (node_value key) "namespaces")
                     || negb (bool_decide (node_kind value = SequenceNode))
                  then None else yamlStringSequence (node_content value)
                | _ => None
                end
              | _ => None
              end
       | _ => None
       end.

(** ** Raw input *)

Definition byte_order_mark : string := of_chars [chr 239; chr 187; chr 191].

Definition TrimPrefix (s p : string) : string :=
  match strip_prefix (chars p) (chars s) with Some r => of_chars r | None => s end.

Section input.
Context `{DnsNames} `{YamlDecoder}.

Definition input_items (trimmed : string) : option (list string) :=
  if HasPrefix trimmed "[" || HasPrefix trimmed "{" then parseJSONItems trimmed
  else if HasPrefix trimmed "---" || HasPrefix trimmed "namespaces:" || HasPrefix trimmed "- "
  then parseYAMLItems trimmed
  else Some (tokenizeText trimmed).

Definition ParseNamespaceList (items : list string) : result scope_error ValidationReport :=
  if (MaxNamespaceEntries <? Z.of_nat (length items))%Z then Err ErrNamespaceLimit
  else Ok (classifyItems items).

Definition ParseRawInput (raw : string) : result scope_error ValidationReport :=
  if (MaxScopeBodyBytes <? len raw)%Z then Err ErrBodyTooLarge
  else if negb (ValidString raw) then Err ErrInvalidNamespaceInput
  else
    let trimmed := TrimSpace (TrimPrefix (TrimSpace raw) byte_order_mark) in
    if String.eqb trimmed "" then Ok (classifyItems [])
    else match input_items trimmed with
         | None => Err ErrInvalidNamespaceInput
         | Some items => ParseNamespaceList items
         end.

(** ** Scope drafts *)

Inductive ScopeMode := ScopeModeSingle | ScopeModeList | ScopeModeAll | ScopeModeOther (text : string).

Record ScopeDraft := {
  draft_ClusterProfileID : Z; draft_Context : string; draft_Name : string; draft_Mode : ScopeMode;
  draft_Namespaces : list string; draft_DefaultNamespace : option string }.

Fixpoint check_names (seen : gset string) (l : list string) : option scope_error :=
  match l with
  | [] => None
  | n :: rest =>
    if negb (ValidNamespaceName n) || String.eqb n "*"
    then Some (FieldError "namespaces" "contains an invalid Kubernetes namespace name")
    else if bool_decide (n ∈ seen) then Some (FieldError "namespaces" "contains a duplicate namespace")
    else check_names ({[n]} ∪ seen) rest
  end.

Definition check_mode (d : ScopeDraft) : option scope_error :=
  match draft_Mode d with
  | ScopeModeSingle =>
    match draft_Namespaces d with
    | [n] => match draft_DefaultNamespace d with
             | Some def => if String.eqb def n then None
                           else Some (FieldError "defaultNamespace" "must equal the single namespace")
             | None => None
             end
    | _ => Some (FieldError "namespaces" "single mode requires exactly one namespace")
    end
  | ScopeModeList =>
    match draft_Namespaces d with
    | [] => Some (FieldError "namespaces" "list mode requires at least one namespace")
    | l => match draft_DefaultNamespace d with
           | Some def => if bool_decide (def ∈ l) then None
                         else Some (FieldError "defaultNamespace" "must belong to the namespace list")
           | None => None
           end
    end
  | ScopeModeAll =>
    match draft_Namespaces d with
    | [] => match draft_DefaultNamespace d with
            | Some _ => Some (FieldError "defaultNamespace" "must be null in all mode")
            | None => None
            end
    | _ => Some (FieldError "namespaces" "all mode stores no namespace items")
    end
  | ScopeModeOther _ => Some (FieldError "mode" "must be single, list, or all")
  end.

Definition ValidateDraft (d : ScopeDraft) : option scope_error :=
  if (draft_ClusterProfileID d <=? 0)%Z
  then Some (FieldError "clusterProfileId" "must identify an existing profile")
  else if negb (String.eqb (TrimSpace (draft_Context d)) (draft_Context d))
          || (len (draft_Context d) =? 0)%Z || (MaxContextBytes <? len (draft_Context d))%Z
          || negb (ValidString (draft_Context d))
  then Some (FieldError "context" "must contain between 1 and 1024 UTF-8 bytes")
  else if negb (ValidString (draft_Name d)) || negb (String.eqb (TrimSpace (draft_Name d)) (draft_Name d))
          || (RuneCountInString (draft_Name d) <? 1)%Z
          || (MaxScopeNameRunes <? RuneCountInString (draft_Name d))%Z
  then Some (FieldError "name" "must contain between 1 and 120 trimmed characters")
  else if match draft_DefaultNamespace d with
          | Some def => negb (String.eqb (TrimSpace def) def) | None => false end
  then Some (FieldError "defaultNamespace" "must be a trimmed Kubernetes namespace name")
  else match check_names ∅ (draft_Namespaces d) with
       | Some e => Some e
       | None => check_mode d
       end.

(** ** Requests *)

Record ScopeWriteRequest := {
  req_ClusterProfileID : Z; req_Name : string; req_Context : string; req_Mode : ScopeMode;
  req_Namespaces : option (list string); req_RawInput : option string;
  req_DefaultNamespace : option string; req_Version : Z; req_ExpectedGeneration : string }.

Definition parseRequestInput (r : ScopeWriteRequest) : result scope_error ValidationReport :=
  match req_Namespaces r, req_RawInput r with
  | Some _, Some _ => Err (FieldError "namespaces" "cannot be combined with rawInput")
  | _, Some raw => ParseRawInput raw
  | Some items, None => ParseNamespaceList items
  | None, None => ParseNamespaceList []
  end.

Definition draftFromRequest (r : ScopeWriteRequest) : result scope_error ScopeDraft :=
  match parseRequestInput r with
  | Err e => Err e
  | Ok report =>
    if (0 <? rep_InvalidCount report)%Z then Err ReportError
    else
      let draft := {| draft_ClusterProfileID := req_ClusterProfileID r; draft_Context := req_Context r;
                      draft_Name := req_Name r; draft_Mode := req_Mode r;
                      draft_Namespaces := rep_Valid report;
                      draft_DefaultNamespace := req_DefaultNamespace r |} in
      match ValidateDraft draft with Some e => Err e | None => Ok draft end
  end.

Definition validateRequestShape (r : ScopeWriteRequest) (report : ValidationReport) : option scope_error :=
  let inputCount := (rep_ValidCount report + rep_InvalidCount report)%Z in
  let shape :=
    match req_Mode r with
    | ScopeModeSingle => if (inputCount =? 1)%Z then None
                         else Some (FieldError "namespaces" "single mode requires exactly one namespace")
    | ScopeModeList => if (inputCount =? 0)%Z
                       then Some (FieldError "namespaces" "list mode requires at least one namespace")
                       else None
    | ScopeModeAll => if (inputCount =? 0)%Z then None
                      else Some (FieldError "namespaces" "all mode stores no namespace items")
    | ScopeModeOther _ => None
    end in
  match shape with
  | Some e => Some e
  | None =>
    match req_DefaultNamespace r with
    | Some def => if bool_decide (def ∈ rep_Valid report) then None
                  else Some (FieldError "defaultNamespace" "must belong to the namespace input")
    | None => None
    end
  end.

Definition not_found (name : string) : InvalidNamespace :=
  {| inv_Input := name; inv_Code := "NAMESPACE_NOT_FOUND" |}.

Definition applyExistence (report : ValidationReport) (existing : list string) : ValidationReport :=
  let valid := base.filter (λ n, n ∈ existing) (rep_Valid report) in
  let invalid := (rep_Invalid report
                  ++ (not_found <$> base.filter (λ n, n ∉ existing) (rep_Valid report)))%list in
  {| rep_Valid := valid; rep_ValidCount := Z.of_nat (length valid);
     rep_DuplicateCount := rep_DuplicateCount report;
     rep_DiscardedEmptyCount := rep_DiscardedEmptyCount report; rep_Invalid := invalid;
     rep_InvalidCount := Z.of_nat (length invalid); rep_Checked := true;
     rep_ReasonCode := "NAMESPACE_LIST_ALLOWED" |}.

End input.

(** ** What a report says *)

Section report.
Context `{DnsNames}.

(** The non-empty entries, trimmed. *)
Definition named (items : list string) : list string :=
  base.filter (λ x, x ≠ "") (TrimSpace <$> items).

(** Their first occurrences. *)
Fixpoint firsts (seen : gset string) (l : list string) : list string :=
  match l with
  | [] => []
  | x :: rest => if decide (x ∈ seen) then firsts seen rest else x :: firsts ({[x]} ∪ seen) rest
  end.

Lemma firsts_spec seen l :
  NoDup (firsts seen l) ∧ ∀ x, x ∈ firsts seen l ↔ x ∈ l ∧ x ∉ seen.
Proof.
  revert seen. induction l as [|y l IH]; intros seen; cbn [firsts]; [split; [constructor|set_solver]|].
  case_decide as Hy.
  - destruct (IH seen) as [Hn Hx]. split; [done|]. set_solver.
  - destruct (IH ({[y]} ∪ seen)) as [Hn Hx]. split.
    + constructor; [set_solver|done].
    + intros x. rewrite elem_of_cons, Hx. destruct (decide (x = y)); set_solver.
Qed.

Lemma firsts_NoDup seen l : NoDup l → (∀ x, x ∈ l → x ∉ seen) → firsts seen l = l.
Proof.
  revert seen. induction l as [|y l IH]; intros seen Hn Hs; [done|]. cbn.
  apply NoDup_cons in Hn as [Hy Hn]. rewrite decide_False by set_solver.
  f_equal. apply IH; [done|]. set_solver.
Qed.

Lemma firsts_length seen l : (length (firsts seen l) ≤ length l)%nat.
Proof.
  revert seen. induction l as [|y l IH]; intros seen; cbn; [lia|].
  case_decide; cbn; [specialize (IH seen)|specialize (IH ({[y]} ∪ seen))]; lia.
Qed.

Lemma filter_bool_length {A} (p : A → bool) (l : list A) :
  (length (base.filter (λ x, p x = true) l) + length (base.filter (λ x, p x = false) l) = length l)%nat.
Proof.
  induction l as [|x l IH]; [done|]. rewrite !filter_cons.
  destruct (p x); [rewrite decide_True, decide_False by done|rewrite decide_False, decide_True by done];
    cbn; lia.
Qed.

Lemma classify_fold acc items :
  let d := firsts (tal_seen acc) (named items) in
  let out := foldl classify_one acc items in
  tal_valid out = (tal_valid acc ++ base.filter (λ x, ValidNamespaceName x = true) d)%list
  ∧ tal_invalid out
    = (tal_invalid acc ++ (invalid_name <$> base.filter (λ x, ValidNamespaceName x = false) d))%list
  ∧ tal_duplicates out = (tal_duplicates acc + (Z.of_nat (length (named items)) - Z.of_nat (length d)))%Z
  ∧ tal_empty out = (tal_empty acc + (Z.of_nat (length items) - Z.of_nat (length (named items))))%Z.
Proof.
  revert acc. induction items as [|x items IH]; intros acc; cbn [foldl].
  { cbn. rewrite !app_nil_r. split_and!; (done || lia). }
  specialize (IH (classify_one acc x)). unfold named in *. rewrite fmap_cons, filter_cons.
  unfold classify_one in *. destruct (String.eqb_spec (TrimSpace x) "") as [Hx|Hx].
  - rewrite decide_False by naive_solver. cbn [tal_seen tal_valid tal_invalid tal_duplicates tal_empty length] in *.
    destruct IH as (->&->&->&->). split_and!; (done || lia).
  - rewrite decide_True by done. cbn [firsts]. case_bool_decide as Hs.
    + rewrite decide_True by done. cbn [tal_seen tal_valid tal_invalid tal_duplicates tal_empty length] in *.
      destruct IH as (->&->&->&->). split_and!; (done || lia).
    + rewrite decide_False by done. rewrite !filter_cons.
      destruct (ValidNamespaceName (TrimSpace x)) eqn:Hv; cbn [negb] in *;
        cbn [tal_seen tal_valid tal_invalid tal_duplicates tal_empty length] in *;
        destruct IH as (->&->&->&->); [rewrite decide_True, decide_False by done|
                                        rewrite decide_False, decide_True by done];
        rewrite <- ?app_assoc; split_and!; (done || lia).
Qed.

(** A validation report is exact. Trim every entry and drop the empty ones; among the
    first occurrences that remain, in input order, the valid names are exactly the DNS-1123
    labels and the invalid ones exactly the others; so no name is listed twice, and valid,
    invalid, duplicate and discarded entries add up to the entries of the input. *)
Theorem namespace_report_exact items :
  let report := classifyItems items in
  let entries := firsts ∅ (named items) in
  rep_Valid report = base.filter (λ x, ValidNamespaceName x = true) entries
  ∧ rep_Invalid report = invalid_name <$> base.filter (λ x, ValidNamespaceName x = false) entries
  ∧ NoDup (rep_Valid report) ∧ NoDup (inv_Input <$> rep_Invalid report)
  ∧ (∀ x, x ∈ rep_Valid report → x ∉ (inv_Input <$> rep_Invalid report))
  ∧ (rep_ValidCount report + rep_InvalidCount report + rep_DuplicateCount report
     + rep_DiscardedEmptyCount report = Z.of_nat (length items))%Z
  ∧ rep_ValidCount report = Z.of_nat (length (rep_Valid report))
  ∧ rep_InvalidCount report = Z.of_nat (length (rep_Invalid report))
  ∧ (0 ≤ rep_DuplicateCount report)%Z ∧ (0 ≤ rep_DiscardedEmptyCount report)%Z.
Proof.
  intros report entries. destruct (classify_fold empty_tally items) as (Hv&Hi&Hd&He).
  cbn [tal_seen empty_tally tal_valid tal_invalid tal_duplicates tal_empty] in *. fold entries in Hv, Hi, Hd, He.
  cbn [app] in Hv, Hi.
  destruct (firsts_spec ∅ (named items)) as [Hn Hin]. fold entries in Hn, Hin.
  pose proof (firsts_length ∅ (named items)) as Hle. fold entries in Hle.
  assert (length (named items) ≤ length items)%nat as Hle2.
  { unfold named. etrans; [apply length_filter|]. by rewrite length_fmap. }
  pose proof (filter_bool_length ValidNamespaceName entries) as Hsplit.
  assert (inv_Input <$> (invalid_name <$> base.filter (λ x, ValidNamespaceName x = false) entries)
          = base.filter (λ x, ValidNamespaceName x = false) entries) as Hinputs.
  { rewrite <- list_fmap_compose. apply list_fmap_id. }
  cbn [report classifyItems rep_Valid rep_Invalid rep_ValidCount rep_InvalidCount rep_DuplicateCount
       rep_DiscardedEmptyCount].
  rewrite Hv, Hi, Hinputs. split_and!; try done.
  - by apply NoDup_filter.
  - by apply NoDup_filter.
  - intros x [? _]%list_elem_of_filter [? _]%list_elem_of_filter. congruence.
  - rewrite length_fmap, Hd, He. lia.
  - rewrite Hd. lia.
  - rewrite He. lia.
Qed.

End report.

(** ** JSON lists read back *)

Lemma json_chars_ascii f c rest :
  rune_width [c] = Some 1%nat →
  json_chars (S f) (escape_byte c ++ rest) = '(text, r) ← json_chars f rest; Some (c :: text, r).
Proof.
  intros Hc. destruct c as [[] [] [] [] [] [] [] []]; first [discriminate Hc|reflexivity].
Qed.

Lemma json_chars_multibyte f l w rest :
  rune_width l = Some w → (2 ≤ w)%nat →
  json_chars (S f) (take w l ++ rest) = '(text, r) ← json_chars f rest; Some (take w l ++ text, r)%list.
Proof.
  intros Hw Hw2.
  assert (DecodeRune (take w l ++ rest) = (rune_value (take w l), w)) as Hdec.
  { unfold DecodeRune. rewrite (rune_width_app l w rest Hw). f_equal.
    pose proof (rune_width_bounds l w Hw). rewrite take_app_length'; [done|]. rewrite length_take. lia. }
  assert (length (take w l) = w) as Hlen.
  { pose proof (rune_width_bounds l w Hw). rewrite length_take. lia. }
  pose proof (multibyte_high l w Hw Hw2) as Hhigh.
  destruct (take w l) as [|c k] eqn:Htake; [cbn in Hlen; lia|].
  apply Forall_cons in Hhigh as [Hc _]. cbn [app json_chars].
  destruct (Ascii.eqb_spec c quote) as [->|_]; [by vm_compute in Hc|].
  destruct (Ascii.eqb_spec c backslash) as [->|_]; [by vm_compute in Hc|].
  assert (in_range 0 31 c = false) as -> by (apply in_range_false; lia).
  change (c :: k ++ rest)%list with ((c :: k) ++ rest)%list. rewrite Hdec.
  rewrite drop_app_length' by done. rewrite <- Htake, encode_decode, Htake by done. done.
Qed.

Lemma json_chars_separator f c rest :
  c = chr 168 ∨ c = chr 169 →
  json_chars (S f) (escape_rune [chr 226; chr 128; c] ++ rest)
  = '(text, r) ← json_chars f rest; Some ([chr 226; chr 128; c] ++ text, r)%list.
Proof. by intros [->| ->]. Qed.

(** Reading back what [escape_chars] wrote, one round for each rune. *)
Lemma json_chars_escape vf ef l fuel rest :
  valid_utf8 vf l = true → (length l ≤ ef)%nat → (length l < fuel)%nat →
  json_chars fuel (escape_chars ef l ++ quote :: rest) = Some (l, rest).
Proof.
  revert ef l fuel. induction vf as [|vf IH]; intros ef l fuel Hv Hef Hf; destruct l as [|c l];
    try done; try (by destruct fuel, ef; cbn in *; [lia|lia|..]).
  cbn [valid_utf8] in Hv. destruct (rune_width (c :: l)) as [w|] eqn:Hw; [|done].
  pose proof (rune_width_bounds _ _ Hw) as Hb. destruct fuel as [|f]; [lia|].
  destruct ef as [|ef]; [cbn in Hef; lia|].
  assert (length (drop w (c :: l)) ≤ ef ∧ length (drop w (c :: l)) < f)%nat as [Hd1 Hd2]
    by (rewrite length_drop; cbn [length] in *; lia).
  cbn [escape_chars]. rewrite Hw. destruct (decide (2 ≤ w)%nat) as [Hbig|Hsmall].
  - destruct w as [|[|w]]; [lia..|]. set (W := S (S w)) in *. rewrite <- app_assoc.
    assert (∀ tail, json_chars (S f) (escape_rune (take W (c :: l)) ++ tail)
              = '(text, r) ← json_chars f tail; Some (take W (c :: l) ++ text, r)%list) as Hrune.
    { intros tail. destruct (decide (take W (c :: l) = [chr 226; chr 128; chr 168])) as [Ht|Hne1].
      { rewrite Ht. apply json_chars_separator. by left. }
      destruct (decide (take W (c :: l) = [chr 226; chr 128; chr 169])) as [Ht|Hne2].
      { rewrite Ht. apply json_chars_separator. by right. }
      unfold escape_rune. rewrite !decide_False by done. by apply json_chars_multibyte. }
    rewrite Hrune, IH by done. cbn [mbind option_bind]. by rewrite take_drop.
  - assert (w = 1)%nat as -> by lia. rewrite skipn_cons, drop_0 in *. rewrite <- app_assoc.
    rewrite json_chars_ascii; [by rewrite IH|].
    apply rune_width_shape in Hw. rewrite skipn_cons, drop_0 in Hw.
    inversion Hw as [? ? Hc| | |]; subst. by apply rune_width_ascii.
Qed.

Lemma length_chars s : length (chars s) = String.length s.
Proof. induction s as [|c s IH]; [done|]. unfold chars in *. cbn. by rewrite IH. Qed.

Lemma escape_chars_length ef l : (length l ≤ ef)%nat → (length l ≤ length (escape_chars ef l))%nat.
Proof.
  revert l. induction ef as [|ef IH]; intros l Hl; destruct l as [|c l]; cbn [length] in *; try lia.
  cbn [escape_chars]. destruct (rune_width (c :: l)) as [w|] eqn:Hw.
  - pose proof (rune_width_bounds _ _ Hw) as Hb. destruct w as [|[|w]]; [lia| |].
    + rewrite length_app. specialize (IH l ltac:(lia)).
      assert (1 ≤ length (escape_byte c))%nat 
        by (apply Nat.leb_le; by destruct c as [[] [] [] [] [] [] [] []]). lia.
    + set (W := S (S w)) in *. rewrite length_app.
      specialize (IH (drop W (c :: l))). rewrite length_drop in IH. cbn [length] in IH.
      assert (W ≤ length (escape_rune (take W (c :: l))))%nat; [|lia].
      assert (length (take W (c :: l)) = W) as Hlen by (rewrite length_take; cbn [length] in *; lia).
      unfold escape_rune. destruct (decide (take W (c :: l) = [chr 226; chr 128; chr 168])) as [Ht|_];
        [|destruct (decide (take W (c :: l) = [chr 226; chr 128; chr 169])) as [Ht|_]; [|lia]].
      all: rewrite Ht in Hlen; cbn in Hlen |- *; lia.
  - rewrite length_app. specialize (IH l ltac:(lia)). cbn. lia.
Qed.

Lemma json_literal_string s rest :
  ValidString s = true → json_literal (chars (json_string s) ++ rest)%list = Some (s, rest).
Proof.
  intros Hs. unfold json_string. rewrite chars_of_chars. cbn [app json_literal].
  rewrite <- app_assoc. cbn [app]. rewrite Ascii.eqb_refl.
  rewrite (json_chars_escape (String.length s)); [|done|by rewrite length_chars|].
  - cbn. by rewrite of_chars_chars.
  - rewrite !length_app. cbn. pose proof (escape_chars_length (String.length s) (chars s)).
    rewrite length_chars in *. lia.
Qed.

Lemma json_string_head s : ∃ r, chars (json_string s) = quote :: r.
Proof. unfold json_string. rewrite chars_of_chars. eauto. Qed.

Lemma json_element_string s rest :
  ValidString s = true →
  json_element (json_ws (chars (json_string s) ++ rest)%list) = Some (s, rest).
Proof.
  intros Hs. pose proof (json_literal_string s rest Hs) as Hl.
  destruct (json_string_head s) as [r Hr]. rewrite Hr in *. exact Hl.
Qed.

Lemma json_items_strings x l fuel rest :
  Forall (λ s, ValidString s = true) (x :: l) → (length l < fuel)%nat →
  json_items fuel (chars (Join (json_string <$> (x :: l)) ",") ++ "]"%char :: rest)%list
  = Some (x :: l, rest).
Proof.
  revert x fuel. induction l as [|y l IH]; intros x fuel Hv Hf; destruct fuel as [|f]; [lia..| |cbn in Hf; lia|].
  - apply Forall_cons in Hv as [Hx _]. cbn [fmap list_fmap Join json_items].
    by rewrite json_element_string.
  - apply Forall_cons in Hv as [Hx Hv]. rewrite !fmap_cons, Join_cons_cons, !chars_app, <- !app_assoc.
    cbn [json_items]. rewrite json_element_string by done. cbn [mbind option_bind].
    change (chars ",") with [","%char]. cbn [app json_ws]. change (json_blank ",") with false. cbn iota.
    change (Ascii.eqb "," "]") with false. rewrite Ascii.eqb_refl. cbn iota.
    rewrite <- fmap_cons. rewrite IH; [done|done|cbn in Hf; lia].
Qed.

Lemma length_Join_strings x l :
  (length l < length (chars (Join (json_string <$> (x :: l)) ",")))%nat.
Proof.
  revert x. induction l as [|y l IH]; intros x.
  - cbn [fmap list_fmap Join]. destruct (json_string_head x) as [r ->]. cbn. lia.
  - rewrite !fmap_cons, Join_cons_cons, !chars_app, !length_app. specialize (IH y).
    rewrite fmap_cons in IH. change (length (chars ",")) with 1%nat. cbn [length]. lia.
Qed.

(** Any list of valid UTF-8 strings, written as encoding/json writes it, reads back. *)
Lemma json_list_roundtrip l :
  Forall (λ s, ValidString s = true) l →
  parseJSONItems (json_array (json_string <$> l)) = Some l.
Proof.
  intros Hv. unfold parseJSONItems, json_array. rewrite !chars_app. cbn [chars app].
  change (chars "[") with ["["%char]. change (chars "]") with ["]"%char]. cbn [app].
  change (Ascii.eqb "[" "[") with true. cbn iota.
  unfold json_strings. cbn [json_ws]. change (json_blank "[") with false. cbn iota.
  change (Ascii.eqb "[" "[") with true. cbn iota. destruct l as [|x l]; [done|].
  set (body := (chars (Join (json_string <$> (x :: l)) ",") ++ ["]"%char])%list).
  assert (∃ r, body = quote :: r) as [r Hr].
  { unfold body. destruct (json_string_head x) as [r Hr]. destruct l as [|y l].
    - cbn [fmap list_fmap Join]. rewrite Hr. by eexists.
    - rewrite !fmap_cons, Join_cons_cons, !chars_app, Hr. by eexists. }
  assert (json_ws body = body) as Hws by (by rewrite Hr).
  rewrite Hws. rewrite Hr. change (Ascii.eqb quote "]") with false. cbn iota. rewrite <- Hr.
  unfold body at 2. rewrite json_items_strings; [done|done|].
  unfold body. rewrite length_app. pose proof (length_Join_strings x l). lia.
Qed.

(** ** Names written as text *)

(** Letters of a DNS-1123 label: lower-case alphanumerics and the hyphen. *)
Definition alphanumeric (c : ascii) : bool := in_range 97 122 c || in_range 48 57 c.
Definition label_char (c : ascii) : bool := alphanumeric c || Ascii.eqb c "-".

(** What apimachinery documents of a label: it consists of label letters and starts with an
    alphanumeric character. *)
Class DnsLabels `{DnsNames} : Prop :=
  label_syntax : ∀ name, IsDNS1123Label name = true →
    Forall (λ c, label_char c = true) (chars name)
    ∧ ∃ c r, chars name = c :: r ∧ alphanumeric c = true.

(** How names are written as text: between two names there are spaces and tabs, or one comma,
    semicolon or line end - LF, CRLF or CR - with spaces and tabs around it; every separator of
    a text may be another one. *)
Definition spacing (s : string) : Prop := Forall (λ c, c = " "%char ∨ c = chr 9) (chars s).
Definition marks : list string := [","; ";"; String LF ""; String CR (String LF ""); String CR ""].
Inductive separator : string → Prop :=
| separator_spacing s : spacing s → s ≠ "" → separator s
| separator_mark before mark after :
    spacing before → mark ∈ marks → spacing after → separator (before +:+ mark +:+ after).
Inductive written : list string → string → Prop :=
| written_one name : written [name] name
| written_more name sep names text :
    separator sep → written names text → written (name :: names) (name +:+ sep +:+ text).

(** Facts about label letters by enumeration. *)
Definition plain (c : ascii) : bool :=
  negb (structural c) && negb (blank c) && negb (Ascii.eqb c CR) && negb (Ascii.eqb c ":")
  && negb (Ascii.eqb c quote) && negb (Ascii.eqb c backslash) && (byte c <=? 127)%N
  && bool_decide (escape_byte c = [c]).

Lemma label_plain c : label_char c = true → plain c = true.
Proof.
  intros Hc. unfold label_char, alphanumeric in Hc.
  destruct c as [[] [] [] [] [] [] [] []]; first [discriminate Hc|reflexivity].
Qed.

(** Bytes that [TrimSpace] stops at, at either end. *)
Definition solid (c : ascii) : Prop :=
  ∀ r, strip_any space_encodings (c :: r) = None ∧ strip_any (@rev ascii <$> space_encodings) (c :: r) = None.

Lemma label_solid c : label_char c = true → solid c.
Proof.
  intros Hc r. unfold label_char, alphanumeric in Hc.
  destruct c as [[] [] [] [] [] [] [] []]; try discriminate Hc; split; vm_compute; reflexivity.
Qed.

Lemma bracket_solid : solid "["%char ∧ solid "]"%char.
Proof. split; intros r; split; vm_compute; reflexivity. Qed.

Lemma TrimSpace_solid s c k d j :
  chars s = c :: k → chars s = (j ++ [d])%list → solid c → solid d → TrimSpace s = s.
Proof.
  intros Hc Hd Sc Sd. unfold TrimSpace. rewrite Hc, (trim_left_fix _ (proj1 (Sc k))). rewrite <- Hc, Hd.
  unfold trim_right. rewrite rev_app_distr. cbn [rev app].
  rewrite (trim_front_fix _ _ _ (proj2 (Sd (rev j)))). change (d :: rev j) with ([d] ++ rev j)%list.
  rewrite rev_app_distr, rev_involutive. cbn [rev app]. rewrite <- Hd. apply of_chars_chars.
Qed.

Lemma ascii_valid l fuel :
  Forall (λ c, (byte c ≤ 127)%N) l → (length l ≤ fuel)%nat → valid_utf8 fuel l = true.
Proof.
  intros Hl. revert fuel. induction Hl as [|c l Hc Hl IH]; intros fuel Hf; [by destruct fuel|].
  destruct fuel as [|f]; [cbn in Hf; lia|]. cbn [valid_utf8]. rewrite rune_width_ascii by done.
  apply IH. cbn in Hf. lia.
Qed.

Lemma ascii_ValidString s : Forall (λ c, (byte c ≤ 127)%N) (chars s) → ValidString s = true.
Proof. intros Hs. apply ascii_valid; [done|]. by rewrite length_chars. Qed.

(** ** Splitting *)

Local Open Scope list_scope.

Lemma split_at_clean sep k : Forall (λ c, sep c = false) k → split_at sep k = [k].
Proof. induction 1 as [|c k Hc _ IH]; [done|]. cbn. by rewrite Hc, IH. Qed.

Lemma split_at_separator sep k d r :
  Forall (λ c, sep c = false) k → sep d = true → split_at sep (k ++ d :: r) = k :: split_at sep r.
Proof.
  intros Hk Hd. induction Hk as [|c k Hc _ IH]; cbn; [by rewrite Hd|]. by rewrite Hc, IH.
Qed.

Lemma split_at_prefix sep k l :
  Forall (λ c, sep c = false) k →
  split_at sep (k ++ l) = match split_at sep l with s :: rest => (k ++ s) :: rest | [] => [k] end.
Proof.
  assert (split_at sep l ≠ []) as Hne by (destruct l as [|c l]; [done|]; cbn; by destruct (sep c), (split_at sep l)).
  induction 1 as [|c k Hc _ IH]; [by destruct (split_at sep l) eqn:Hs|]. cbn [app split_at]. rewrite Hc, IH.
  by destruct (split_at sep l).
Qed.

Lemma split_at_snoc sep l c : sep c = true → split_at sep (l ++ [c]) = (split_at sep l ++ [[]])%list.
Proof.
  intros Hc. induction l as [|d l IH]; cbn; [by rewrite Hc|]. rewrite IH. destruct (sep d); [done|].
  destruct (split_at sep l) as [|s r] eqn:Hs; [|done]. destruct l as [|e l]; [done|].
  cbn in Hs. by destruct (sep e), (split_at sep l).
Qed.

Lemma replace_crlf_clean k r :
  Forall (λ c, Ascii.eqb c CR = false) k → replace_crlf (k ++ r) = (k ++ replace_crlf r)%list.
Proof.
  induction 1 as [|c k Hc _ IH]; [done|]. cbn [app]. rewrite <- IH.
  cbn [replace_crlf]. destruct (k ++ r)%list eqn:Hkr; [done|]. by rewrite Hc.
Qed.

Lemma normalize_clean k r :
  Forall (λ c, Ascii.eqb c CR = false) k →
  normalize_newlines (k ++ r) = (k ++ normalize_newlines r)%list.
Proof.
  intros Hk. unfold normalize_newlines. rewrite replace_crlf_clean, fmap_app by done. f_equal.
  induction Hk as [|c k Hc _ IH]; [done|]. rewrite fmap_cons, IH, Hc. done.
Qed.

Lemma normalize_cr c r :
  c ≠ LF → normalize_newlines (CR :: c :: r) = LF :: normalize_newlines (c :: r).
Proof.
  intros Hc. unfold normalize_newlines. cbn [replace_crlf].
  rewrite (proj2 (Ascii.eqb_neq c LF) Hc), andb_false_r. done.
Qed.

(** ** Tokens *)

Definition label (s : string) : Prop :=
  Forall (λ c, label_char c = true) (chars s) ∧ ∃ c r, chars s = c :: r ∧ alphanumeric c = true.

Lemma label_Forall (p : ascii → bool) s :
  (∀ c, plain c = true → p c = true) → label s → Forall (λ c, p c = true) (chars s).
Proof. intros Hp [Hs _]. eapply Forall_impl; [done|]. intros c Hc. by apply Hp, label_plain. Qed.

Lemma label_free (p : ascii → bool) s :
  (∀ c, plain c = true → p c = false) → label s → Forall (λ c, p c = false) (chars s).
Proof. intros Hp [Hs _]. eapply Forall_impl; [done|]. intros c Hc. by apply Hp, label_plain. Qed.

Lemma plain_facts c :
  plain c = true → structural c = false ∧ blank c = false ∧ Ascii.eqb c CR = false
  ∧ c ≠ ":"%char ∧ (byte c ≤ 127)%N ∧ escape_byte c = [c].
Proof.
  unfold plain. rewrite !andb_true_iff, !negb_true_iff, N.leb_le, bool_decide_eq_true.
  intros [[[[[[[? ?] ?] ?%Ascii.eqb_neq] ?] ?] ?] ?]. done.
Qed.

(** *** Fields *)

Definition blanks (l : list ascii) : Prop := Forall (λ c, blank c = true) l.

Lemma fields_before b l : blanks b → fields (b ++ l) = fields l.
Proof. induction 1 as [|c b Hc _ IH]; [done|]. unfold fields in *. cbn [app split_at]. by rewrite Hc. Qed.

Lemma fields_after b l : blanks b → fields (l ++ b) = fields l.
Proof.
  intros Hb. revert l. induction Hb as [|c b Hc _ IH]; intros l; [by rewrite app_nil_r|].
  rewrite (app_assoc l [c] b : l ++ c :: b = _)%list, IH. unfold fields. rewrite split_at_snoc by done.
  rewrite List.filter_app. cbn. by rewrite app_nil_r.
Qed.

Lemma fields_word k b l :
  Forall (λ c, blank c = false) k → k ≠ [] → blanks b → (b = [] → l = []) →
  fields (k ++ b ++ l) = k :: fields l.
Proof.
  intros Hk Hne Hb Hl. destruct Hb as [|c b Hc Hb].
  - rewrite Hl by done. rewrite !app_nil_r. unfold fields. rewrite split_at_clean by done. by destruct k.
  - rewrite <- (fields_before b l Hb). unfold fields at 1. cbn [app]. rewrite split_at_separator by done.
    cbn [List.filter]. by destruct k.
Qed.

Lemma fields_word_end k b : Forall (λ c, blank c = false) k → k ≠ [] → blanks b → fields (k ++ b) = [k].
Proof. intros Hk Hne Hb. rewrite <- (app_nil_r b). by rewrite fields_word. Qed.

Lemma drop_blank_split l : ∃ b, blanks b ∧ l = (b ++ drop_blank l)%list.
Proof.
  induction l as [|c l (b & Hb & Hl)]; [exists []; by repeat constructor|].
  cbn. destruct (blank c) eqn:Hc; [|exists []; by repeat constructor].
  exists (c :: b). split; [by constructor|]. cbn. by f_equal.
Qed.

Lemma trim_blank_split l : ∃ b b', blanks b ∧ blanks b' ∧ l = (b ++ trim_blank l ++ b')%list.
Proof.
  destruct (drop_blank_split l) as (b & Hb & Hl). destruct (drop_blank_split (rev (drop_blank l))) as (b' & Hb' & Hr).
  exists b, (rev b'). split; [done|]. split; [by apply Forall_rev|]. unfold trim_blank.
  rewrite <- rev_app_distr, <- Hr, rev_involutive. done.
Qed.

Lemma segment_fields l fs : fields l = fs → fs ≠ [] → segment_items l = of_chars <$> fs.
Proof.
  intros Hf Hne. destruct (trim_blank_split l) as (b & b' & Hb & Hb' & Hl).
  rewrite Hl, fields_before, fields_after in Hf by done. unfold segment_items.
  revert Hf. destruct (trim_blank l); intros Hf; [by subst|]. by rewrite Hf.
Qed.

Lemma label_last s : label s → ∃ j d, chars s = (j ++ [d])%list ∧ label_char d = true.
Proof.
  intros [Hs (c&r&Hc&_)]. destruct (exists_last (l := chars s)) as (j&d&Hj); [by rewrite Hc|].
  exists j, d. split; [done|]. rewrite Hj in Hs. by apply Forall_app in Hs as [_ [? _]%Forall_cons].
Qed.

Lemma alphanumeric_label c : alphanumeric c = true → label_char c = true.
Proof. unfold label_char. by intros ->. Qed.

Lemma label_head s : label s → ∃ c r, chars s = c :: r ∧ label_char c = true ∧ alphanumeric c = true.
Proof. intros [_ (c&r&Hc&Ha)]. exists c, r. split_and!; [done|by apply alphanumeric_label|done]. Qed.

Lemma label_not_blank c : label_char c = true → blank c = false.
Proof. intros Hc%label_plain. by apply plain_facts. Qed.

(** *** Written text *)

Lemma spacing_blanks s : spacing s → blanks (chars s).
Proof. intros Hs. eapply Forall_impl; [done|]. by intros c [->| ->]. Qed.
Lemma spacing_Forall (P : ascii → Prop) s : P " "%char → P (chr 9) → spacing s → Forall P (chars s).
Proof. intros H1 H2 Hs. eapply Forall_impl; [done|]. by intros c [->| ->]. Qed.
Lemma blanks_not_structural b : blanks b → Forall (λ c, structural c = false) b.
Proof.
  intros Hb. eapply Forall_impl; [done|]. intros c Hc. unfold blank in Hc.
  apply orb_true_iff in Hc as [->%Ascii.eqb_eq| ->%Ascii.eqb_eq]; done.
Qed.
Lemma label_chars s : label s → chars s ≠ [].
Proof. by intros [_ (c&r&->&_)]. Qed.

Lemma written_ends names text :
  written names text → Forall label names →
  (∃ c r, chars text = c :: r ∧ label_char c = true ∧ alphanumeric c = true)
  ∧ ∃ j d, chars text = (j ++ [d])%list ∧ label_char d = true.
Proof.
  induction 1 as [name|name sep names text Hsep Hw IH]; intros [Hx Hl]%Forall_cons.
  - split; [by apply label_head|by apply label_last].
  - rewrite !chars_app. destruct (label_head name Hx) as (c&r&->&?&?). split; [by do 2 eexists|].
    destruct (IH Hl) as [_ (j&d&->&?)]. exists ((c :: r) ++ chars sep ++ j)%list, d.
    by rewrite <- !app_assoc.
Qed.

(** The bytes of a separator. *)
Definition separating (c : ascii) : Prop := c ∈ [" "%char; chr 9; ","%char; ";"%char; LF; CR].
Lemma separator_bytes s : separator s → Forall separating (chars s).
Proof.
  assert (∀ s, spacing s → Forall separating (chars s)) as Hsp
    by (intros; apply spacing_Forall; [unfold separating; set_solver..|done]).
  destruct 1 as [|before mark after Hb Hm Ha]; [by apply Hsp|]. rewrite !chars_app, !Forall_app.
  split; [by apply Hsp|]. split; [|by apply Hsp]. unfold marks in Hm. rewrite !elem_of_cons in Hm.
  destruct Hm as [->|[->|[->|[->|[->|[]%elem_of_nil]]]]]; repeat constructor; unfold separating; set_solver.
Qed.

(** A property of the label letters and of the separators holds throughout. *)
Lemma written_Forall (P : ascii → Prop) names text :
  (∀ c, plain c = true → P c) → Forall P [" "%char; chr 9; ","%char; ";"%char; LF; CR] →
  written names text → Forall label names → Forall P (chars text).
Proof.
  intros HP Hsep. rewrite Forall_forall in Hsep.
  assert (∀ s, label s → Forall P (chars s)) as Hlab.
  { intros s [Hs _]. eapply Forall_impl; [done|]. intros c Hc. by apply HP, label_plain. }
  induction 1 as [name|name sep names text Hs Hw IH]; intros [Hx Hl]%Forall_cons; [by apply Hlab|].
  rewrite !chars_app, !Forall_app. split_and!; [by apply Hlab| |by apply IH].
  eapply Forall_impl; [by apply separator_bytes|]. apply Hsep.
Qed.

(** A separator with its line end normalised. *)
Lemma normalize_separator sep c r :
  separator sep → label_char c = true →
  ∃ n, normalize_newlines (chars sep ++ c :: r) = (n ++ normalize_newlines (c :: r))%list
    ∧ (blanks n ∧ n ≠ [] ∨ ∃ b d b', n = (b ++ d :: b')%list ∧ blanks b ∧ structural d = true ∧ blanks b').
Proof.
  assert (∀ s, spacing s → Forall (λ c, Ascii.eqb c CR = false) (chars s)) as Hfree
    by (intros; by apply spacing_Forall).
  intros Hsep Hc. destruct Hsep as [s Hs Hne|before mark after Hb Hm Ha].
  - exists (chars s). split; [by apply normalize_clean, Hfree|]. left. split; [by apply spacing_blanks|].
    destruct s; [done|]. unfold chars. by cbn.
  - assert (∃ d, structural d = true
      ∧ normalize_newlines (chars mark ++ chars after ++ c :: r) = d :: normalize_newlines (chars after ++ c :: r)) as (d&Hd&Hn).
    { assert (∃ e l, (chars after ++ c :: r)%list = e :: l ∧ e ≠ LF) as (e&l&He&Hlf).
      { assert (Forall (λ c, c ≠ LF) (chars after)) as Hlf by (by apply spacing_Forall).
        destruct (chars after) as [|e l]; [|by apply Forall_cons in Hlf as [? _]; do 2 eexists].
        exists c, r. split; [done|]. intros ->. by vm_compute in Hc. }
      rewrite He. unfold marks in Hm. rewrite !elem_of_cons in Hm.
      destruct Hm as [->|[->|[->|[->|[->|[]%elem_of_nil]]]]];
        [exists ","%char|exists ";"%char|exists LF|exists LF|exists LF]; (split; [done|]).
      1-3: cbn [chars list_ascii_of_string]; apply (normalize_clean [_]); by repeat constructor.
      - done.
      - by apply normalize_cr. }
    exists (chars before ++ d :: chars after)%list. split.
    + rewrite !chars_app, <- !app_assoc, normalize_clean by (by apply Hfree). rewrite Hn. cbn [app].
      by rewrite normalize_clean by (by apply Hfree).
    + right. exists (chars before), d, (chars after). split_and!; [done|by apply spacing_blanks|done|by apply spacing_blanks].
Qed.

Lemma of_chars_fmap (l : list string) : of_chars <$> (chars <$> l) = l.
Proof. induction l as [|s l IH]; [done|]. by rewrite !fmap_cons, of_chars_chars, IH. Qed.

(** The first segment of a written text, and the names of the others. *)
Lemma written_segments names text :
  written names text → Forall label names →
  ∃ segment rest first others,
    split_at structural (normalize_newlines (chars text)) = segment :: rest
    ∧ names = (first ++ others)%list ∧ first ≠ [] ∧ fields segment = chars <$> first
    ∧ (rest ≫= segment_items) = others.
Proof.
  assert (∀ s p, label s → (∀ c, plain c = true → p c = false) → Forall (λ c, p c = false) (chars s)) as Hfree
    by (intros; by apply label_free).
  induction 1 as [name|name sep names text Hsep Hw IH]; intros [Hx Hl]%Forall_cons.
  - assert (normalize_newlines (chars name) = chars name) as ->.
    { rewrite <- (app_nil_r (chars name)) at 1. rewrite normalize_clean by (apply Hfree; [done|apply plain_facts]).
      apply app_nil_r. }
    exists (chars name), [], [name], []. rewrite split_at_clean by (apply Hfree; [done|apply plain_facts]).
    split_and!; try done. rewrite <- (app_nil_r (chars name)).
    apply fields_word_end; [apply Hfree; [done|apply plain_facts]|by apply label_chars|constructor].
  - destruct (IH Hl) as (segment & rest & first & others & Hs & -> & Hne & Hf & Ho).
    destruct (written_ends _ _ Hw Hl) as [(c&r&Hc&Hcl&_) _].
    destruct (normalize_separator sep c r Hsep Hcl) as (n & Hn & Hkind).
    rewrite !chars_app, normalize_clean by (apply Hfree; [done|apply plain_facts]). rewrite Hc, Hn, <- Hc.
    rewrite split_at_prefix by (apply Hfree; [done|apply plain_facts]).
    destruct Hkind as [[Hb Hbne]|(b & d & b' & -> & Hb & Hd & Hb')].
    + rewrite split_at_prefix by (by apply blanks_not_structural). rewrite Hs.
      exists (chars name ++ n ++ segment)%list, rest, (name :: first), others. split_and!; try done.
      rewrite fields_word, Hf; [done|apply Hfree; [done|apply plain_facts]|by apply label_chars|done|done].
    + rewrite <- app_assoc. cbn [app]. rewrite split_at_separator by (done || by apply blanks_not_structural).
      rewrite split_at_prefix by (by apply blanks_not_structural). rewrite Hs.
      exists (chars name ++ b)%list, ((b' ++ segment)%list :: rest), [name], (first ++ others)%list. split_and!; try done.
      * apply fields_word_end; [apply Hfree; [done|apply plain_facts]|by apply label_chars|done].
      * cbn [mbind list_bind]. rewrite (segment_fields _ (chars <$> first)).
        -- rewrite of_chars_fmap. f_equal. exact Ho.
        -- by rewrite fields_before.
        -- by destruct first.
Qed.

Lemma tokenize_written names text : written names text → Forall label names → tokenizeText text = names.
Proof.
  intros Hw Hl. destruct (written_segments _ _ Hw Hl) as (segment & rest & first & others & Hs & -> & Hne & Hf & Ho).
  unfold tokenizeText, splitStructural. rewrite Hs. cbn [mbind list_bind].
  rewrite (segment_fields _ _ Hf) by (by destruct first).
  rewrite of_chars_fmap. f_equal. exact Ho.
Qed.

Lemma filter_Forall_all {A} (P : A → Prop) `{!∀ x, Decision (P x)} l :
  Forall P l → base.filter P l = l.
Proof. induction 1 as [|x l Hx _ IH]; [done|]. by rewrite filter_cons, decide_True, IH. Qed.

Lemma filter_Forall_none {A} (P : A → Prop) `{!∀ x, Decision (P x)} l :
  Forall (λ x, ¬ P x) l → base.filter P l = [].
Proof. induction 1 as [|x l Hx _ IH]; [done|]. by rewrite filter_cons, decide_False, IH. Qed.

(** A property of the characters of a literal. *)
Ltac each_char :=
  cbn [chars list_ascii_of_string]; repeat (apply Forall_cons_2; [by vm_compute|]); apply Forall_nil_2.

Section roundtrip.
Context `{DnsLabels} `{YamlDecoder}.

Lemma valid_label name : ValidNamespaceName name = true → label name.
Proof. unfold ValidNamespaceName. by intros [_ Hl%label_syntax]%andb_prop. Qed.

Lemma label_trimmed s : label s → TrimSpace s = s.
Proof.
  intros Hs. destruct (label_head s Hs) as (c&r&Hc&Hl&_). destruct (label_last s Hs) as (j&d&Hd&Hl').
  eapply TrimSpace_solid; [done|done|by apply label_solid..].
Qed.

Lemma label_nonempty s : label s → s ≠ "".
Proof. by intros [_ (c&r&Hc&_)] ->. Qed.

(** The report of a clean list of names. *)
Definition clean_report (names : list string) : ValidationReport :=
  {| rep_Valid := names; rep_ValidCount := Z.of_nat (length names); rep_DuplicateCount := 0;
     rep_DiscardedEmptyCount := 0; rep_Invalid := []; rep_InvalidCount := 0; rep_Checked := false;
     rep_ReasonCode := "NOT_CHECKED" |}.

Lemma classify_clean names :
  NoDup names → Forall (λ n, ValidNamespaceName n = true) names →
  classifyItems names = clean_report names.
Proof.
  intros Hn Hv. destruct (classify_fold empty_tally names) as (Hv1&Hi1&Hd1&He1).
  assert (named names = names) as Hnamed.
  { unfold named. clear -Hv H0. induction Hv as [|x l Hx _ IH]; [done|].
    apply valid_label in Hx. rewrite fmap_cons, label_trimmed, filter_cons, decide_True
      by (done || by apply label_nonempty). by rewrite IH. }
  assert (firsts ∅ names = names) as Hfirsts by (apply firsts_NoDup; set_solver).
  cbn [tal_seen empty_tally tal_valid tal_invalid tal_duplicates tal_empty app] in *.
  rewrite Hnamed, Hfirsts in *.
  assert (base.filter (λ x, ValidNamespaceName x = true) names = names) as Hall
    by (by apply filter_Forall_all).
  assert (base.filter (λ x, ValidNamespaceName x = false) names = []) as Hnone.
  { apply filter_Forall_none. eapply Forall_impl; [done|]. intros ? ->. done. }
  unfold classifyItems, clean_report. rewrite Hv1, Hi1, Hd1, He1, Hall, Hnone. f_equal; lia.
Qed.

(** Text whose ends are solid and that is not a document goes to the right parser. *)
Lemma ParseRawInput_items raw items c r j d :
  (len raw ≤ MaxScopeBodyBytes)%Z → Forall (λ c, (byte c ≤ 127)%N) (chars raw) →
  chars raw = c :: r → chars raw = (j ++ [d])%list → solid c → solid d →
  input_items raw = Some items → ParseRawInput raw = ParseNamespaceList items.
Proof.
  intros Hlen Hascii Hc Hd Sc Sd Hitems. unfold ParseRawInput.
  rewrite (proj2 (Z.ltb_ge _ _) Hlen), ascii_ValidString by done. cbn [negb].
  rewrite (TrimSpace_solid raw c r d j) by done.
  assert (TrimPrefix raw byte_order_mark = raw) as ->.
  { unfold TrimPrefix, byte_order_mark. rewrite chars_of_chars, Hc. cbn [strip_prefix].
    rewrite decide_False; [done|]. intros <-. rewrite Hc in Hascii.
    apply Forall_cons in Hascii as [Hb _]. by vm_compute in Hb. }
  rewrite (TrimSpace_solid raw c r d j) by done.
  destruct (String.eqb_spec raw "") as [->|_]; [done|]. by rewrite Hitems.
Qed.

Lemma strip_prefix_Some p l k : strip_prefix p l = Some k → l = (p ++ k)%list.
Proof.
  revert l. induction p as [|c p IH]; intros l; cbn; [by intros [= ->]|].
  destruct l as [|d l]; [done|]. case_decide; [subst|done]. intros ?%IH. by subst.
Qed.

Lemma text_items names text : written names text → Forall label names → input_items text = Some names.
Proof.
  intros Hw Hl. unfold input_items. destruct (written_ends _ _ Hw Hl) as [(c&r&Hc&_&Ha) _].
  assert (∀ p, match chars p with d :: _ => alphanumeric d = false | [] => False end →
               HasPrefix text p = false) as Hno.
  { intros p Hp. unfold HasPrefix. destruct (chars p) as [|d q] eqn:Hq; [done|].
    rewrite Hc. cbn [strip_prefix]. rewrite decide_False; [done|]. intros ->. congruence. }
  rewrite (Hno "["), (Hno "{"), (Hno "---"), (Hno "- ") by done. cbn [orb].
  assert (HasPrefix text "namespaces:" = false) as ->.
  { unfold HasPrefix. destruct (strip_prefix _ _) eqn:Hp; [|done]. apply strip_prefix_Some in Hp.
    assert (Forall (λ c, c ≠ ":"%char) (chars text)) as Hcolon
      by (apply (written_Forall _ names); [apply plain_facts|by repeat constructor|done|done]).
    rewrite Hp in Hcolon. apply Forall_app in Hcolon as [Hcolon _].
    rewrite Forall_forall in Hcolon. by destruct (Hcolon ":"%char); [set_solver|]. }
  cbn [orb]. by rewrite (tokenize_written names).
Qed.

Lemma escape_label s : label s → chars (json_string s) = (quote :: chars s ++ [quote])%list.
Proof.
  intros [Hs _]. unfold json_string. rewrite chars_of_chars. f_equal. f_equal.
  rewrite <- length_chars. induction Hs as [|c l Hc _ IH]; [done|]. cbn [length escape_chars].
  apply label_plain, plain_facts in Hc as (_&_&_&_&Hb&He).
  rewrite rune_width_ascii, He by done. cbn. by rewrite IH.
Qed.

Lemma json_ascii names :
  Forall label names → Forall (λ c, (byte c ≤ 127)%N) (chars (json_array (json_string <$> names))).
Proof.
  intros Hl. unfold json_array. rewrite !chars_app, !Forall_app. split; [by each_char|].
  split; [|by each_char].
  assert (∀ s, label s → Forall (λ c, (byte c ≤ 127)%N) (chars (json_string s))) as Hone.
  { intros s Hs. rewrite escape_label by done. apply Forall_cons_2; [by vm_compute|]. apply Forall_app.
    split; [|by each_char]. destruct Hs as [Hs _]. eapply Forall_impl; [done|].
    intros c Hc. by apply plain_facts, label_plain. }
  destruct Hl as [|x l Hx Hl]; [constructor|]. revert x Hx.
  induction Hl as [|y l Hy Hl IH]; intros x Hx; [by apply Hone|].
  rewrite fmap_cons, fmap_cons, Join_cons_cons, !chars_app, !Forall_app, <- fmap_cons.
  split; [by apply Hone|]. split; [by each_char|]. by apply IH.
Qed.

(** C31: names survive their notations. A list of distinct valid namespace names within the
    limits, written as text - spaces and tabs between two names, or one comma, semicolon, LF,
    CRLF or CR with any spaces and tabs around it, a different separator each time - or as the
    JSON array encoding/json writes, is parsed back to exactly that list, in order, with
    nothing discarded, duplicated or rejected; and a JSON array of arbitrary valid UTF-8
    strings is decoded back to those strings. *)
Theorem namespace_input_roundtrip names text :
  names ≠ [] → NoDup names → Forall (λ n, ValidNamespaceName n = true) names →
  (Z.of_nat (length names) ≤ MaxNamespaceEntries)%Z → (len text ≤ MaxScopeBodyBytes)%Z →
  (text = json_array (json_string <$> names) ∨ written names text) →
  ParseRawInput text = Ok (clean_report names)
  ∧ ∀ strings, Forall (λ s, ValidString s = true) strings →
      parseJSONItems (json_array (json_string <$> strings)) = Some strings.
Proof.
  intros Hne Hn Hv Hcount Hlen Htext. split; [|apply json_list_roundtrip].
  assert (Forall label names) as Hl by (eapply Forall_impl; [done|]; apply valid_label).
  assert (ParseRawInput text = ParseNamespaceList names) as ->.
  - destruct Htext as [->|Hw].
    + eapply (ParseRawInput_items _ _ "["%char _
                (chars ("[" +:+ Join (json_string <$> names) ",")) "]"%char);
        [done|by apply json_ascii|by unfold json_array| |apply bracket_solid..|].
      * unfold json_array. rewrite !chars_app. by rewrite <- app_assoc.
      * unfold input_items. replace (HasPrefix (json_array (json_string <$> names)) "[") with true by done.
        cbn [orb]. apply json_list_roundtrip. eapply Forall_impl; [done|].
        intros s Hs. apply ascii_ValidString. destruct Hs as [Hs _]. eapply Forall_impl; [done|].
        intros c Hc. by apply plain_facts, label_plain.
    + destruct (written_ends _ _ Hw Hl) as [(c&r&Hc&Hcl&_) (j&d&Hd&Hdl)].
      eapply ParseRawInput_items; [done| |done|done|by apply label_solid..|by eapply text_items].
      apply (written_Forall _ names); [apply plain_facts| |done|done]. repeat constructor; by vm_compute.
  - unfold ParseNamespaceList. rewrite (proj2 (Z.ltb_ge _ _) Hcount). by rewrite classify_clean.
Qed.

End roundtrip.

(** ** Drafts *)

Section drafts.
Context `{DnsNames} `{YamlDecoder}.

(** What a stored scope satisfies. *)
Record draft_ok (d : ScopeDraft) : Prop := {
  ok_profile : (0 < draft_ClusterProfileID d)%Z;
  ok_context : TrimSpace (draft_Context d) = draft_Context d ∧ (1 ≤ len (draft_Context d) ≤ 1024)%Z
               ∧ ValidString (draft_Context d) = true;
  ok_name : ValidString (draft_Name d) = true ∧ TrimSpace (draft_Name d) = draft_Name d
            ∧ (1 ≤ RuneCountInString (draft_Name d) ≤ 120)%Z;
  ok_default_trimmed : ∀ def, draft_DefaultNamespace d = Some def → TrimSpace def = def;
  ok_names : Forall (λ n, ValidNamespaceName n = true) (draft_Namespaces d) ∧ NoDup (draft_Namespaces d);
  ok_mode : match draft_Mode d with
            | ScopeModeSingle => length (draft_Namespaces d) = 1%nat
            | ScopeModeList => draft_Namespaces d ≠ []
            | ScopeModeAll => draft_Namespaces d = []
            | ScopeModeOther _ => False
            end;
  ok_default : ∀ def, draft_DefaultNamespace d = Some def → def ∈ draft_Namespaces d }.

Lemma check_names_None seen l :
  check_names seen l = None ↔
  Forall (λ n, ValidNamespaceName n = true) l ∧ NoDup l ∧ ∀ n, n ∈ l → n ∉ seen.
Proof.
  revert seen. induction l as [|n l IH]; intros seen; cbn [check_names].
  { split; [|done]. intros _. split_and!; [constructor|constructor|set_solver]. }
  rewrite Forall_cons, NoDup_cons.
  assert (ValidNamespaceName n = true → String.eqb n "*" = false) as Hstar.
  { unfold ValidNamespaceName. by intros [?%negb_true_iff _]%andb_prop. }
  destruct (ValidNamespaceName n) eqn:Hv; cbn [negb orb]; [|split; [done|naive_solver]].
  rewrite Hstar by done. case_bool_decide as Hs; [split; [done|set_solver]|].
  rewrite IH. set_solver.
Qed.

Lemma check_mode_None d :
  check_mode d = None ↔
  match draft_Mode d with
  | ScopeModeSingle => length (draft_Namespaces d) = 1%nat
  | ScopeModeList => draft_Namespaces d ≠ []
  | ScopeModeAll => draft_Namespaces d = []
  | ScopeModeOther _ => False
  end ∧ ∀ def, draft_DefaultNamespace d = Some def → def ∈ draft_Namespaces d.
Proof.
  unfold check_mode. destruct (draft_Mode d).
  - destruct (draft_Namespaces d) as [|n [|m l]]; [naive_solver| |split; [done|by intros [? _]]].
    destruct (draft_DefaultNamespace d) as [def|]; [|naive_solver].
    destruct (String.eqb_spec def n) as [->|Hne]; split; try done.
    + intros _. split; [done|]. intros ? [= <-]. set_solver.
    + intros [_ Hd]. specialize (Hd def eq_refl). set_solver.
  - destruct (draft_Namespaces d) as [|n l]; [naive_solver|].
    destruct (draft_DefaultNamespace d) as [def|]; [|naive_solver].
    case_bool_decide as Hd; split; try done.
    + intros _. split; [done|]. by intros ? [= <-].
    + intros [_ Hd']. by specialize (Hd' def eq_refl).
  - destruct (draft_Namespaces d) as [|n l]; [|split; [done|naive_solver]].
    destruct (draft_DefaultNamespace d) as [def|]; [|naive_solver].
    split; [done|]. intros [_ Hd]. specialize (Hd def eq_refl). set_solver.
  - naive_solver.
Qed.

Lemma context_guard s :
  negb (String.eqb (TrimSpace s) s) || (len s =? 0)%Z || (MaxContextBytes <? len s)%Z
    || negb (ValidString s) = false
  ↔ TrimSpace s = s ∧ (1 ≤ len s ≤ 1024)%Z ∧ ValidString s = true.
Proof.
  rewrite !orb_false_iff, !negb_false_iff, Z.eqb_neq, Z.ltb_ge, String.eqb_eq.
  pose proof (len_nonneg s). unfold MaxContextBytes. intuition lia.
Qed.

Lemma name_guard s :
  negb (ValidString s) || negb (String.eqb (TrimSpace s) s) || (RuneCountInString s <? 1)%Z
    || (MaxScopeNameRunes <? RuneCountInString s)%Z = false
  ↔ ValidString s = true ∧ TrimSpace s = s ∧ (1 ≤ RuneCountInString s ≤ 120)%Z.
Proof.
  rewrite !orb_false_iff, !negb_false_iff, !Z.ltb_ge, String.eqb_eq.
  unfold MaxScopeNameRunes. intuition lia.
Qed.

Lemma ValidateDraft_None d : ValidateDraft d = None ↔ draft_ok d.
Proof.
  unfold ValidateDraft.
  destruct (Z.leb_spec (draft_ClusterProfileID d) 0) as [Hp|Hp]; [split; [done|intros []; lia]|].
  destruct (_ || negb (ValidString (draft_Context d))) eqn:Hc.
  { split; [done|]. intros [_ Hc' _ _ _ _ _]. apply context_guard in Hc'. congruence. }
  apply context_guard in Hc.
  destruct (_ || (MaxScopeNameRunes <? _)%Z) eqn:Hname.
  { split; [done|]. intros [_ _ Hn' _ _ _ _]. apply name_guard in Hn'. congruence. }
  apply name_guard in Hname.
  assert (match draft_DefaultNamespace d with
          | Some def => negb (String.eqb (TrimSpace def) def) | None => false end = false
          ↔ ∀ def, draft_DefaultNamespace d = Some def → TrimSpace def = def) as Hdef.
  { destruct (draft_DefaultNamespace d) as [def|]; [|naive_solver].
    rewrite negb_false_iff, String.eqb_eq. naive_solver. }
  destruct (match draft_DefaultNamespace d with Some _ => _ | None => _ end) eqn:Hd.
  { split; [done|]. intros [_ _ _ Hd' _ _ _]. by apply Hdef in Hd'. }
  pose proof (check_names_None ∅ (draft_Namespaces d)) as Hcn.
  destruct (check_names ∅ (draft_Namespaces d)) eqn:Hnames.
  { split; [done|]. intros [_ _ _ _ [? ?] _ _].
    assert (Some s = None) by (apply Hcn; set_solver). done. }
  rewrite check_mode_None. destruct (proj1 Hcn eq_refl) as (?&?&_). split.
  - intros [Hm Hdd]. split; naive_solver.
  - intros []. done.
Qed.

(** Scope drafts are validated exactly. A write request becomes a draft iff its names and
    raw text are not given together, the input parses, no entry is invalid and the draft
    satisfies the scope invariants: positive profile, trimmed context and name within their
    limits, distinct DNS-1123 names, one name in single mode, at least one in list mode,
    none in all mode, and a default namespace among the names; and then the draft holds the
    request's fields and the valid names of the input. *)
Theorem scope_draft_exact r d :
  draftFromRequest r = Ok d ↔
  draft_ok d
  ∧ ∃ report, parseRequestInput r = Ok report ∧ rep_InvalidCount report = 0%Z
      ∧ d = {| draft_ClusterProfileID := req_ClusterProfileID r; draft_Context := req_Context r;
               draft_Name := req_Name r; draft_Mode := req_Mode r;
               draft_Namespaces := rep_Valid report;
               draft_DefaultNamespace := req_DefaultNamespace r |}.
Proof.
  unfold draftFromRequest. destruct (parseRequestInput r) as [report|e] eqn:Hp; [|naive_solver].
  assert (0 ≤ rep_InvalidCount report)%Z as Hnn.
  { unfold parseRequestInput, ParseRawInput, ParseNamespaceList in Hp.
    repeat case_match; simplify_eq; cbn; lia. }
  destruct (Z.ltb_spec 0 (rep_InvalidCount report)) as [Hlt|Hge].
  { split; [done|]. intros (_&report'&[= <-]&?&_). lia. }
  match goal with |- context [ValidateDraft ?x] => pose proof (ValidateDraft_None x) as Hval;
    destruct (ValidateDraft x) as [e|] end.
  - split; [done|]. intros (Hok&report'&[= <-]&_&->). by apply Hval in Hok.
  - split.
    + intros [= <-]. split; [by apply Hval|]. exists report. split_and!; [done|lia|done].
    + intros (_&report'&[= <-]&_&->). done.
Qed.

End drafts.

(** ** Witnesses *)

Section demo.

#[local] Instance demo_label_names : DnsNames := {|
  IsDNS1123Label := λ s, forallb label_char (chars s)
                         && match chars s with c :: _ => alphanumeric c | [] => false end;
  IsDNS1123Subdomain := λ _, false |}.

#[local] Instance demo_labels : DnsLabels.
Proof.
  intros name [Hall Hhead]%andb_prop. split.
  - apply Forall_forall. intros c Hc%list_elem_of_In. by apply (proj1 (forallb_forall _ _) Hall).
  - destruct (chars name) as [|c r]; [done|]. eauto.
Qed.

#[local] Instance demo_yaml : YamlDecoder := λ _, None.

Definition demo_names : list string := ["team-a"; "namespaces"; "0x"].

(** A tab between two names, then a line end with spaces around it. *)
Definition demo_written : string :=
  "team-a" +:+ String (chr 9) "" +:+ "namespaces" +:+ (" " +:+ String CR (String LF "") +:+ "  ") +:+ "0x".

Lemma namespace_input_roundtrip_witness :
  ParseRawInput demo_written = Ok (clean_report demo_names)
  ∧ ParseRawInput (json_array (json_string <$> demo_names)) = Ok (clean_report demo_names).
Proof.
  split.
  - apply (namespace_input_roundtrip demo_names); try (by vm_compute).
    + repeat constructor; set_solver.
    + repeat constructor.
    + right. constructor; [apply separator_spacing; [by repeat constructor; right|done]|].
      constructor; [|constructor].
      apply separator_mark; [repeat constructor; by left|unfold marks; set_solver|repeat constructor; by left].
  - apply (namespace_input_roundtrip demo_names); try (by vm_compute).
    + repeat constructor; set_solver.
    + repeat constructor.
    + by left.
Defined.

Example demo_text : ParseRawInput "a, b;;a B" =
  Ok {| rep_Valid := ["a"; "b"]; rep_ValidCount := 2; rep_DuplicateCount := 1;
        rep_DiscardedEmptyCount := 1; rep_Invalid := [invalid_name "B"]; rep_InvalidCount := 1;
        rep_Checked := false; rep_ReasonCode := "NOT_CHECKED" |}.
Proof. by vm_compute. Qed.

Example demo_object : ParseRawInput (" { " +:+ json_string "namespaces" +:+ " : [ " +:+ json_string "a" +:+ " , null ] } ") =
  Ok {| rep_Valid := ["a"]; rep_ValidCount := 1; rep_DuplicateCount := 0;
        rep_DiscardedEmptyCount := 1; rep_Invalid := []; rep_InvalidCount := 0;
        rep_Checked := false; rep_ReasonCode := "NOT_CHECKED" |}.
Proof. by vm_compute. Qed.

End demo.
