(* ===== verification/Scopes.v ===== *)
(** * Scopes: stored namespace scopes and the operations on them

    Model of the scope repository (src/internal/adapters/sqlite/namespace_scopes.go) and of
    the scope operations of src/internal/services/namespaces/service.go: create, update,
    delete, select and set-default, each a preparation and a commit callback run by
    [Selection]. The tables are a map from identifiers to scope aggregates (the row with its
    items in position order) and the profiles' contexts; every write is one BEGIN IMMEDIATE
    transaction, so a failing one leaves the tables as they were. Failures of the database
    itself come with the call ([fault]); the unique indexes and the profile reference are
    checked; the identifier of
    a new row is SQLite's choice ([RowIds]). *)
From Stdlib Require Import Ascii String ZArith Lia.
From stdpp Require Import base gmap strings list.
From S2P Require Import Prelude Json Unicode Topics Cursor Ports Retry Pagination Collect Catalogue Access Encoding Selection Namespaces.

Local Open Scope string_scope.

(** ** Tables *)

Record Scope := {
  scope_ID : Z; scope_ClusterProfileID : Z; scope_Context : string; scope_Name : string;
  scope_Mode : ScopeMode; scope_Namespaces : list string; scope_DefaultNamespace : option string;
  scope_IsDefault : bool; scope_Version : Z }.

(** [profiles] gives the nullable context of every cluster profile. *)
Record tables := { profiles : gmap Z (option string); scopes : gmap Z Scope }.

Definition with_scopes (db : tables) (m : gmap Z Scope) : tables :=
  {| profiles := profiles db; scopes := m |}.

(** SQLite documents that a new rowid is positive and not in use. *)
Class RowIds := {
  new_rowid : gmap Z Scope → Z;
  new_rowid_fresh : ∀ m, (0 < new_rowid m)%Z ∧ m !! new_rowid m = None }.

Definition same_origin (s : Scope) (profile : Z) (context : string) : bool :=
  (scope_ClusterProfileID s =? profile)%Z && String.eqb (scope_Context s) context.

Definition draft_of (s : Scope) : ScopeDraft := {|
  draft_ClusterProfileID := scope_ClusterProfileID s; draft_Context := scope_Context s;
  draft_Name := scope_Name s; draft_Mode := scope_Mode s; draft_Namespaces := scope_Namespaces s;
  draft_DefaultNamespace := scope_DefaultNamespace s |}.

(** The row of a draft, and a row with another default flag. *)
Definition scope_of (id : Z) (d : ScopeDraft) (isDefault : bool) (version : Z) : Scope := {|
  scope_ID := id; scope_ClusterProfileID := draft_ClusterProfileID d; scope_Context := draft_Context d;
  scope_Name := draft_Name d; scope_Mode := draft_Mode d; scope_Namespaces := draft_Namespaces d;
  scope_DefaultNamespace := draft_DefaultNamespace d; scope_IsDefault := isDefault;
  scope_Version := version |}.

Definition with_default (s : Scope) (b : bool) : Scope :=
  scope_of (scope_ID s) (draft_of s) b (scope_Version s).

Lemma same_origin_spec s p c :
  same_origin s p c = true ↔ scope_ClusterProfileID s = p ∧ scope_Context s = c.
Proof. unfold same_origin. by rewrite andb_true_iff, Z.eqb_eq, String.eqb_eq. Qed.

Ltac same_origins :=
  rewrite ?same_origin_spec in *; cbn [with_default draft_of scope_of scope_ClusterProfileID scope_Context draft_ClusterProfileID draft_Context] in *;
  destruct_and?; split; congruence.

(** ** The repository *)

Section repository.
Context `{DnsNames} `{RowIds}.

Definition database_failure : scope_error := RepositoryError "sqlite namespace scopes".

Definition Get (fault : bool) (db : tables) (id : Z) : result scope_error Scope :=
  if fault then Err database_failure
  else match scopes db !! id with Some s => Ok s | None => Err ErrNotFound end.

Definition validateProfileContext (db : tables) (profile : Z) (context : string) : option scope_error :=
  match profiles db !! profile with
  | Some (Some stored) => if String.eqb stored context then None else Some ErrSelectionMismatch
  | _ => Some ErrSelectionMismatch
  end.

Definition scopeNameExists (db : tables) (profile : Z) (context name : string) (except : Z) : bool :=
  bool_decide (map_Exists (λ id s, same_origin s profile context = true ∧ scope_Name s = name
                                   ∧ id ≠ except) (scopes db)).

(** [verifyStoredScope] on the aggregate just written. *)
Definition verifyStoredScope (s : Scope) : bool :=
  let items := scope_Namespaces s in
  let default_count d := length (base.filter (λ n, n = d) items) in
  let default_once := match scope_DefaultNamespace s with
                      | None => true | Some d => (default_count d =? 1)%nat end in
  match scope_Mode s with
  | ScopeModeSingle => (length items =? 1)%nat && default_once
  | ScopeModeList => (1 <=? length items)%nat && default_once
  | ScopeModeAll => (length items =? 0)%nat
                    && match scope_DefaultNamespace s with None => true | Some _ => false end
  | ScopeModeOther _ => false
  end.

Definition store (db : tables) (s : Scope) : result scope_error Scope * tables :=
  if verifyStoredScope s then (Ok s, with_scopes db (<[scope_ID s := s]> (scopes db)))
  else (Err ErrInvariant, db).

Definition Create (fault : bool) (db : tables) (d : ScopeDraft) : result scope_error Scope * tables :=
  match ValidateDraft d with
  | Some e => (Err e, db)
  | None =>
    if fault then (Err database_failure, db)
    else match validateProfileContext db (draft_ClusterProfileID d) (draft_Context d) with
         | Some e => (Err e, db)
         | None =>
           if scopeNameExists db (draft_ClusterProfileID d) (draft_Context d) (draft_Name d) 0
           then (Err ErrConflict, db)
           else store db (scope_of (new_rowid (scopes db)) d false 1)
         end
  end.

Definition Update (fault : bool) (db : tables) (id expectedVersion : Z) (d : ScopeDraft)
  : result scope_error Scope * tables :=
  match ValidateDraft d with
  | Some e => (Err e, db)
  | None =>
    if (id <=? 0)%Z || (expectedVersion <=? 0)%Z then (Err ErrConflict, db)
    else if fault then (Err database_failure, db)
    else match scopes db !! id with
         | None => (Err ErrNotFound, db)
         | Some stored =>
           if negb (scope_Version stored =? expectedVersion)%Z then (Err ErrConflict, db)
           else if negb (same_origin stored (draft_ClusterProfileID d) (draft_Context d))
           then (Err ErrSelectionMismatch, db)
           else match validateProfileContext db (draft_ClusterProfileID d) (draft_Context d) with
                | Some e => (Err e, db)
                | None =>
                  if scopeNameExists db (draft_ClusterProfileID d) (draft_Context d) (draft_Name d) id
                  then (Err ErrConflict, db)
                  else store db (scope_of id d (scope_IsDefault stored) (expectedVersion + 1))
                end
         end
  end.

(** Set the default among the scopes of an origin, clearing the others first. *)
Definition SetDefault (fault : bool) (db : tables) (id : Z) : result scope_error Scope * tables :=
  if (id <=? 0)%Z then (Err ErrNotFound, db)
  else if fault then (Err database_failure, db)
  else match scopes db !! id with
       | None => (Err ErrNotFound, db)
       | Some target =>
         let cleared := map_imap (λ j s, Some (
           if same_origin s (scope_ClusterProfileID target) (scope_Context target)
              && scope_IsDefault s && negb (j =? id)%Z
           then with_default s false else s)) (scopes db) in
         (Ok (with_default target true),
          with_scopes db (alter (λ s, with_default s true) id cleared))
       end.

(** The unique index on the default of an origin: another row is the default. *)
Definition other_default (m : gmap Z Scope) (id : Z) (s : Scope) : bool :=
  bool_decide (map_Exists (λ j s', j ≠ id ∧ scope_IsDefault s' = true
    ∧ same_origin s' (scope_ClusterProfileID s) (scope_Context s) = true) m).

Definition Delete (fault : bool) (db : tables) (id expectedVersion replacementDefaultID : Z)
  : option scope_error * tables :=
  if (id <=? 0)%Z || (expectedVersion <=? 0)%Z then (Some ErrConflict, db)
  else if fault then (Some database_failure, db)
  else match scopes db !! id with
       | None => (Some ErrNotFound, db)
       | Some target =>
         if negb (scope_Version target =? expectedVersion)%Z then (Some ErrConflict, db)
         else if (0 <? replacementDefaultID)%Z then
           if (replacementDefaultID =? id)%Z then (Some ErrSelectionMismatch, db)
           else match scopes db !! replacementDefaultID with
                | None => (Some ErrNotFound, db)
                | Some replacement =>
                  if negb (same_origin replacement (scope_ClusterProfileID target) (scope_Context target))
                  then (Some ErrSelectionMismatch, db)
                  else if other_default (delete id (scopes db)) replacementDefaultID replacement
                  then (Some database_failure, db)
                  else (None, with_scopes db (alter (λ s, with_default s true) replacementDefaultID
                                                 (delete id (scopes db))))
                end
         else (None, with_scopes db (delete id (scopes db)))
       end.

(** ** The invariant of the tables *)

Record tables_inv (db : tables) : Prop := {
  inv_id : ∀ id s, scopes db !! id = Some s → scope_ID s = id ∧ (0 < id)%Z ∧ (1 ≤ scope_Version s)%Z;
  inv_draft : ∀ id s, scopes db !! id = Some s → draft_ok (draft_of s);
  inv_names : ∀ id1 id2 s1 s2, scopes db !! id1 = Some s1 → scopes db !! id2 = Some s2 →
    same_origin s1 (scope_ClusterProfileID s2) (scope_Context s2) = true →
    scope_Name s1 = scope_Name s2 → id1 = id2;
  inv_default : ∀ id1 id2 s1 s2, scopes db !! id1 = Some s1 → scopes db !! id2 = Some s2 →
    same_origin s1 (scope_ClusterProfileID s2) (scope_Context s2) = true →
    scope_IsDefault s1 = true → scope_IsDefault s2 = true → id1 = id2 }.

Lemma verified d id b v : draft_ok d → verifyStoredScope (scope_of id d b v) = true.
Proof.
  intros [_ _ _ _ [_ Hnd] Hm Hdef]. unfold verifyStoredScope. cbn.
  assert (match draft_DefaultNamespace d with
          | None => true | Some x => (length (base.filter (λ n, n = x) (draft_Namespaces d)) =? 1)%nat end
          = true) as ->.
  { destruct (draft_DefaultNamespace d) as [x|]; [|done]. specialize (Hdef x eq_refl).
    apply Nat.eqb_eq. clear -Hnd Hdef. induction Hnd as [|y l Hy Hnd IH]; [set_solver|].
    rewrite filter_cons. case_decide as Hyx.
    - subst y. cbn. f_equal. rewrite filter_Forall_none; [done|].
      apply Forall_forall. by intros z Hz ->.
    - apply IH. set_solver. }
  destruct (draft_Mode d).
  - by rewrite Hm.
  - rewrite andb_true_r. by destruct (draft_Namespaces d).
  - rewrite Hm in *. cbn. destruct (draft_DefaultNamespace d) as [x|]; [|done].
    specialize (Hdef x eq_refl). set_solver.
  - done.
Qed.

Lemma name_free db p c name except :
  scopeNameExists db p c name except = false →
  ∀ id s, scopes db !! id = Some s → same_origin s p c = true → scope_Name s = name → id = except.
Proof.
  unfold scopeNameExists. intros Hno%bool_decide_eq_false id s Hs Ho Hname.
  destruct (decide (id = except)) as [|Hne]; [done|]. destruct Hno. by exists id, s.
Qed.

(** Writing one scope whose name is free in its origin and which is no new default. *)
Lemma store_inv db d id b v :
  tables_inv db → draft_ok d → (0 < id)%Z → (1 ≤ v)%Z →
  scopeNameExists db (draft_ClusterProfileID d) (draft_Context d) (draft_Name d) id = false →
  (b = true → ∃ s, scopes db !! id = Some s ∧ scope_IsDefault s = true
                   ∧ same_origin s (draft_ClusterProfileID d) (draft_Context d) = true) →
  tables_inv (with_scopes db (<[id := scope_of id d b v]> (scopes db))).
Proof.
  intros [H1 H2 H3 H4] Hd Hid Hv Hname Hb. pose proof (name_free _ _ _ _ _ Hname) as Hfree.
  split; cbn.
  - intros j s. rewrite lookup_insert_Some. intros [[<- <-]|[_ Hs]]; [done|by apply H1].
  - intros j s. rewrite lookup_insert_Some. intros [[<- <-]|[_ Hs]]; [by destruct d|by eapply H2].
  - intros i j s1 s2. rewrite !lookup_insert_Some.
    intros [[<- <-]|[? Hs1]] [[<- <-]|[? Hs2]] Ho Hn; [done|..|by eapply H3].
    + symmetry. eapply Hfree; [done| |by rewrite <- Hn]. same_origins.
    + by eapply Hfree.
  - intros i j s1 s2. rewrite !lookup_insert_Some.
    intros [[<- <-]|[? Hs1]] [[<- <-]|[? Hs2]] Ho Hd1 Hd2; [done|..|by eapply H4].
    + destruct (Hb Hd1) as (s0&Hs0&Hdef&Horig). eapply (H4 id j s0 s2); try done.
      same_origins.
    + destruct (Hb Hd2) as (s0&Hs0&Hdef&Horig). eapply (H4 i id s1 s0); try done.
      same_origins.
Qed.

(** The name check of a new row, whose identifier is not in use. *)
Lemma name_free_new db p c name id :
  tables_inv db → scopes db !! id = None →
  scopeNameExists db p c name 0 = false → scopeNameExists db p c name id = false.
Proof.
  intros Hinv Hid Hno. apply bool_decide_eq_false. intros (j&s&Hj&Ho&Hname&Hne).
  pose proof (name_free _ _ _ _ _ Hno _ _ Hj Ho Hname). destruct (inv_id _ Hinv _ _ Hj). lia.
Qed.

Lemma Create_inv fault db d : tables_inv db → tables_inv (Create fault db d).2.
Proof.
  intros Hinv. unfold Create. destruct (ValidateDraft d) eqn:Hv; [done|].
  destruct fault; [done|]. case_match; [done|]. case_match eqn:Hname; [done|].
  apply ValidateDraft_None in Hv. unfold store. rewrite verified by done. cbn [snd scope_of scope_ID].
  destruct (new_rowid_fresh (scopes db)) as [Hpos Hnew].
  apply store_inv; [done|done|done|lia|by apply name_free_new|done].
Qed.

Lemma Update_inv fault db id v d : tables_inv db → tables_inv (Update fault db id v d).2.
Proof.
  intros Hinv. unfold Update. destruct (ValidateDraft d) eqn:Hv; [done|].
  destruct (_ || _) eqn:Hguard; [done|]. destruct fault; [done|].
  destruct (scopes db !! id) as [stored|] eqn:Hs; [|done]. case_match; [done|].
  destruct (same_origin stored _ _) eqn:Horig; cbn [negb]; [|done]. case_match; [done|].
  case_match eqn:Hname; [done|]. apply ValidateDraft_None in Hv. unfold store. rewrite verified by done.
  cbn [snd scope_of scope_ID]. apply orb_false_iff in Hguard as [?%Z.leb_gt ?%Z.leb_gt].
  apply store_inv; [done|done|done|lia|done|]. intros Hdef. eauto.
Qed.

Lemma with_default_fields s b :
  scope_ID (with_default s b) = scope_ID s ∧ scope_Version (with_default s b) = scope_Version s
  ∧ draft_of (with_default s b) = draft_of s ∧ scope_IsDefault (with_default s b) = b.
Proof. done. Qed.

Lemma with_default_same s : with_default s (scope_IsDefault s) = s.
Proof. by destruct s. Qed.

(** Tables in which only default flags changed, and rows disappeared. *)
Lemma relabel_inv db m :
  tables_inv db →
  (∀ id s, m !! id = Some s → ∃ s0 b, scopes db !! id = Some s0 ∧ s = with_default s0 b) →
  (∀ id1 id2 s1 s2, m !! id1 = Some s1 → m !! id2 = Some s2 →
     same_origin s1 (scope_ClusterProfileID s2) (scope_Context s2) = true →
     scope_IsDefault s1 = true → scope_IsDefault s2 = true → id1 = id2) →
  tables_inv (with_scopes db m).
Proof.
  intros [H1 H2 H3 H4] Hm Hdef. split; cbn; [..|done].
  - intros id s Hs. destruct (Hm _ _ Hs) as (s0&b&Hs0&->). exact (H1 _ _ Hs0).
  - intros id s Hs. destruct (Hm _ _ Hs) as (s0&b&Hs0&->). exact (H2 _ _ Hs0).
  - intros i j s1 s2 Hs1 Hs2. destruct (Hm _ _ Hs1) as (t1&b1&Ht1&->), (Hm _ _ Hs2) as (t2&b2&Ht2&->).
    exact (H3 _ _ _ _ Ht1 Ht2).
Qed.

Lemma SetDefault_inv fault db id : tables_inv db → tables_inv (SetDefault fault db id).2.
Proof.
  intros Hinv. unfold SetDefault. case_match; [done|]. destruct fault; [done|].
  destruct (scopes db !! id) as [target|] eqn:Ht; [|done]. cbn [snd].
  set (m := alter _ _ _).
  assert (∀ j s, m !! j = Some s → ∃ s0, scopes db !! j = Some s0
            ∧ s = with_default s0 (scope_IsDefault s)
            ∧ (j = id ∨ (scope_IsDefault s = true →
                 same_origin s (scope_ClusterProfileID target) (scope_Context target) = false
                 ∧ scope_IsDefault s0 = true))) as Hm.
  { intros j s. unfold m. destruct (decide (j = id)) as [->|Hj].
    - rewrite lookup_alter_eq, map_lookup_imap, Ht. cbn. rewrite Z.eqb_refl, andb_false_r.
      intros [= <-]. eauto 10.
    - rewrite lookup_alter_ne, map_lookup_imap by done. destruct (scopes db !! j) as [s0|]; [|done].
      cbn. intros [= <-]. exists s0. split; [done|].
      rewrite (proj2 (Z.eqb_neq j id) Hj). cbn. rewrite andb_true_r.
      destruct (same_origin s0 _ _) eqn:Ho; cbn; [|by rewrite with_default_same; auto].
      destruct (scope_IsDefault s0) eqn:Hd; [split; [done|by right]|].
      split; [by rewrite with_default_same|]. right. congruence. }
  apply relabel_inv; [done|..].
  - intros j s Hs. destruct (Hm _ _ Hs) as (s0&?&?&_). eauto.
  - intros i j s1 s2 Hs1 Hs2 Ho Hd1 Hd2.
    destruct (Hm _ _ Hs1) as (t1&Ht1&He1&Hc1), (Hm _ _ Hs2) as (t2&Ht2&He2&Hc2).
    destruct Hc1 as [->|Hc1], Hc2 as [->|Hc2]; [done|..].
    + destruct (Hc2 Hd2) as [Hno _]. rewrite Ht in Ht1. injection Ht1 as <-.
      rewrite He1 in Ho. exfalso. apply not_true_iff_false in Hno. apply Hno. same_origins.
    + destruct (Hc1 Hd1) as [Hno _]. rewrite Ht in Ht2. injection Ht2 as <-.
      rewrite He2 in Ho. exfalso. apply not_true_iff_false in Hno. apply Hno. same_origins.
    + destruct (Hc1 Hd1) as [_ D1], (Hc2 Hd2) as [_ D2].
      eapply (inv_default _ Hinv i j t1 t2); try done. rewrite He1, He2 in Ho. same_origins.
Qed.

Lemma Delete_inv fault db id v rep : tables_inv db → tables_inv (Delete fault db id v rep).2.
Proof.
  intros Hinv. unfold Delete. case_match; [done|]. destruct fault; [done|].
  destruct (scopes db !! id) as [target|] eqn:Ht; [|done]. case_match; [done|].
  assert (∀ j s, delete id (scopes db) !! j = Some s → scopes db !! j = Some s) as Hsub
    by (by intros j s [_ ?]%lookup_delete_Some).
  destruct (Z.ltb_spec 0 rep) as [Hrep|Hrep].
  - case_match eqn:Hne; [done|]. destruct (scopes db !! rep) as [r|] eqn:Hr; [|done].
    case_match; [done|]. destruct (other_default _ _ _) eqn:Hother; [done|]. cbn [snd].
    apply bool_decide_eq_false in Hother. set (m := alter _ _ _).
    assert (∀ j s, m !! j = Some s →
      (j = rep ∧ s = with_default r true) ∨ (j ≠ rep ∧ delete id (scopes db) !! j = Some s)) as Hm.
    { intros j s. unfold m. destruct (decide (j = rep)) as [->|Hj].
      - rewrite lookup_alter_eq, lookup_delete_ne, Hr by (apply Z.eqb_neq in Hne; congruence).
        intros [= <-]. by left.
      - rewrite lookup_alter_ne by done. by right. }
    apply relabel_inv; [done|..].
    + intros j s [[-> ->]|[_ Hs%Hsub]]%Hm; [eauto|].
      exists s, (scope_IsDefault s). by rewrite with_default_same.
    + intros i j s1 s2 Hs1%Hm Hs2%Hm Ho Hd1 Hd2.
      destruct Hs1 as [[-> ->]|[Hi Hs1]], Hs2 as [[-> ->]|[Hj Hs2]]; [done|..].
      * destruct Hother. exists j, s2. split_and!; try done. same_origins.
      * destruct Hother. exists i, s1. split_and!; try done.
      * eapply (inv_default _ Hinv); eauto.
  - cbn [snd]. apply relabel_inv; [done|..].
    + intros j s Hs%Hsub. exists s, (scope_IsDefault s). by rewrite with_default_same.
    + intros i j s1 s2 Hs1%Hsub Hs2%Hsub. by eapply (inv_default _ Hinv).
Qed.

(** A write of the repository. *)
Inductive write :=
| WriteCreate (d : ScopeDraft) | WriteUpdate (id v : Z) (d : ScopeDraft) | WriteSetDefault (id : Z)
| WriteDelete (id v rep : Z).

Definition apply_write (db : tables) (fault : bool) (x : write) : option scope_error * tables :=
  let res {A} (r : result scope_error A * tables) :=
    (match r.1 with Ok _ => None | Err e => Some e end, r.2) in
  match x with
  | WriteCreate d => res (Create fault db d)
  | WriteUpdate id v d => res (Update fault db id v d)
  | WriteSetDefault id => res (SetDefault fault db id)
  | WriteDelete id v rep => Delete fault db id v rep
  end.

(** The row a write addresses and the version it expects. *)
Definition precondition (x : write) : option (Z * Z) :=
  match x with WriteUpdate id v _ | WriteDelete id v _ => Some (id, v) | _ => None end.

Lemma write_failed db fault x e : (apply_write db fault x).1 = Some e → (apply_write db fault x).2 = db.
Proof.
  destruct x; unfold apply_write, Create, Update, SetDefault, Delete, store; cbn;
    repeat case_match; done.
Qed.

Lemma Update_Ok fault db id v d s db' :
  Update fault db id v d = (Ok s, db') →
  (0 < id)%Z ∧ (0 < v)%Z ∧ s = scope_of id d (scope_IsDefault s) (v + 1) ∧ draft_ok d
  ∧ scopes db' = <[id := s]> (scopes db) ∧ profiles db' = profiles db
  ∧ ∃ stored, scopes db !! id = Some stored ∧ scope_Version stored = v
      ∧ scope_IsDefault stored = scope_IsDefault s
      ∧ same_origin stored (draft_ClusterProfileID d) (draft_Context d) = true.
Proof.
  unfold Update. destruct (ValidateDraft d) eqn:Hd; [done|]. apply ValidateDraft_None in Hd.
  destruct (_ || _) eqn:Hg; [done|]. apply orb_false_iff in Hg as [?%Z.leb_gt ?%Z.leb_gt].
  destruct fault; [done|]. destruct (scopes db !! id) as [stored|] eqn:Hs; [|done].
  destruct (Z.eqb_spec (scope_Version stored) v) as [Hv|]; cbn [negb]; [|done].
  destruct (same_origin _ _ _) eqn:Ho; cbn [negb]; [|done].
  repeat (case_match; [done|]). unfold store. rewrite verified by done. intros [= <- <-].
  split_and!; try done. by exists stored.
Qed.

Lemma Delete_Ok fault db id v rep db' :
  Delete fault db id v rep = (None, db') →
  scopes db' !! id = None ∧ profiles db' = profiles db
  ∧ (∃ target, scopes db !! id = Some target ∧ scope_Version target = v)
  ∧ ∀ j, j ≠ id → scopes db' !! j =
      (if (0 <? rep)%Z && (j =? rep)%Z then (λ s, with_default s true) <$> scopes db !! j
       else scopes db !! j).
Proof.
  unfold Delete. destruct (_ || _); [done|]. destruct fault; [done|].
  destruct (scopes db !! id) as [target|] eqn:Ht; [|done].
  destruct (Z.eqb_spec (scope_Version target) v) as [Hv|]; cbn [negb]; [|done].
  destruct (0 <? rep)%Z.
  - destruct (Z.eqb_spec rep id) as [|Hne]; [done|]. destruct (scopes db !! rep) eqn:Hr; [|done].
    repeat (case_match; [done|]). intros [= <-]. cbn. split_and!; [|done|by eauto|].
    + by rewrite lookup_alter_ne, lookup_delete_eq.
    + intros j Hj. destruct (Z.eqb_spec j rep) as [->|?].
      * by rewrite lookup_alter_eq, lookup_delete_ne.
      * by rewrite lookup_alter_ne, lookup_delete_ne.
  - intros [= <-]. cbn. split_and!; [apply lookup_delete_eq|done|by eauto|].
    intros j Hj. by rewrite lookup_delete_ne.
Qed.

Lemma precondition_once db fault x id v db' :
  precondition x = Some (id, v) → apply_write db fault x = (None, db') →
  (∃ s, scopes db !! id = Some s ∧ scope_Version s = v)
  ∧ ∀ fault', (apply_write db' fault' x).1 ≠ None.
Proof.
  destruct x as [|i w d| |i w rep]; try done; intros [= -> ->].
  - cbn. destruct (Update fault db id v d) as [[s|e] db1] eqn:Hu; [|done]. intros [= <-].
    apply Update_Ok in Hu as (_&_&->&_&Hdb&_&stored&Hs&Hv&_). split; [eauto|].
    intros fault'. destruct (Update fault' db1 id v d) as [[s'|e'] db2] eqn:Hu'; [|done].
    apply Update_Ok in Hu' as (_&_&_&_&_&_&stored'&Hs'&Hv'&_).
    rewrite Hdb, lookup_insert_eq in Hs'. injection Hs' as <-. cbn in Hv'. lia.
  - cbn [apply_write]. intros Hd. apply Delete_Ok in Hd as (Hgone&_&Hs&_). split; [done|].
    intros fault' Hd'. destruct (Delete fault' db' id v rep) as [e db2] eqn:Hd2. cbn in Hd'. subst e.
    apply Delete_Ok in Hd2 as (_&_&(t&Ht&_)&_). congruence.
Qed.

(** the stored scopes keep their invariants. In every state reached by repository writes,
    however they fail: rows carry their own identifier and a positive version and satisfy the
    draft invariants, names are unique within a profile and context and at most one scope is
    its default; a write that fails changes nothing; and an update or deletion that succeeds
    found exactly the version its caller expected, which an update then increments, so the
    same precondition cannot succeed twice. *)
Theorem scope_store_sound db0 writes db :
  tables_inv db0 → foldl (λ db x, (apply_write db x.1 x.2).2) db0 writes = db →
  tables_inv db
  ∧ ∀ fault x,
      (∀ e, (apply_write db fault x).1 = Some e → (apply_write db fault x).2 = db)
      ∧ (∀ id v, precondition x = Some (id, v) → (apply_write db fault x).1 = None →
           (∃ s, scopes db !! id = Some s ∧ scope_Version s = v)
           ∧ ∀ fault', (apply_write (apply_write db fault x).2 fault' x).1 ≠ None).
Proof.
  intros Hinv Hdb. split.
  - subst db. revert db0 Hinv. induction writes as [|[fault x] writes IH]; intros db0 Hinv; [done|].
    cbn [foldl]. apply IH. destruct x; cbn.
    + by apply Create_inv.
    + by apply Update_inv.
    + by apply SetDefault_inv.
    + by apply Delete_inv.
  - clear Hinv Hdb. intros fault x. split; [intros e; apply write_failed|]. intros id v Hpre Hok.
    destruct (apply_write db fault x) as [e db'] eqn:Hw. cbn in Hok |- *. subst e.
    by eapply precondition_once.
Qed.

End repository.

(** ** The service's operations *)

Definition mode_text (m : ScopeMode) : string :=
  match m with
  | ScopeModeSingle => "single" | ScopeModeList => "list" | ScopeModeAll => "all"
  | ScopeModeOther t => t
  end.

Definition is_all (m : ScopeMode) : bool := match m with ScopeModeAll => true | _ => false end.

Definition resolutionFor (s : Scope) (allNamespaces : list string) : ScopeResolution := {|
  res_ScopeID := scope_ID s; res_ScopeName := scope_Name s; res_ScopeMode := mode_text (scope_Mode s);
  res_ScopeSource := "saved"; res_DefaultNamespace := scope_DefaultNamespace s;
  res_Namespaces := if is_all (scope_Mode s) then allNamespaces else scope_Namespaces s;
  res_PreferGlobal := is_all (scope_Mode s) |}.

(** The zero [ScopeResolution]: back to setup. *)
Definition no_resolution : ScopeResolution := {|
  res_ScopeID := 0; res_ScopeName := ""; res_ScopeMode := ""; res_ScopeSource := "";
  res_DefaultNamespace := None; res_Namespaces := []; res_PreferGlobal := false |}.

Definition scopeMatchesBinding (s : Scope) (b : SelectionBinding) : bool :=
  same_origin s (bind_ClusterProfileID b) (bind_Context b).

Definition validateActiveOrigin (profile : Z) (context expected : string) (b : SelectionBinding)
  : option scope_error :=
  if negb (String.eqb (bind_Generation b) expected) then Some ErrScopeGenerationChanged
  else if negb (bind_ClusterProfileID b =? profile)%Z || negb (String.eqb (bind_Context b) context)
  then Some ErrSelectionMismatch else None.

Section operations.
Context `{DnsNames} `{RowIds}.

Fixpoint check_listed (seen : gset string) (l : list string) : bool :=
  match l with
  | [] => true
  | n :: rest => if negb (ValidNamespaceName n) || bool_decide (n ∈ seen) then false
                 else check_listed ({[n]} ∪ seen) rest
  end.

(** [catalog] is the answer of the namespace catalogue, [None] without one. *)
Definition listAll (catalog : option (result scope_error (list string)))
  : result scope_error (list string) :=
  match catalog with
  | None => Err ErrNamespaceListUnavailable
  | Some (Err e) => Err e
  | Some (Ok listed) => if check_listed ∅ listed then Ok listed else Err ErrNamespaceListUnavailable
  end.

(** The calls of the service, with the arguments that are not checked before [Mutate]. *)
Inductive operation :=
| CreateScope (d : ScopeDraft)
| UpdateScope (id version : Z) (d : ScopeDraft)
| DeleteScope (id version replacement : Z) (returnToSetup : bool)
| SelectScope (id : Z) (setDefault : bool).

(** The checks before [Mutate] on the raw arguments. *)
Definition entry_check (op : operation) (expected : string) (confirmed : bool) : option scope_error :=
  let generation := if String.eqb expected "" then Some (FieldError "expectedGeneration" "is required")
                    else None in
  match op with
  | CreateScope _ => generation
  | UpdateScope id version _ =>
    if (id <=? 0)%Z then Some ErrNotFound
    else if (version <=? 0)%Z then Some (FieldError "version" "must be a positive precondition")
    else generation
  | DeleteScope id version replacement returnToSetup =>
    if (id <=? 0)%Z then Some ErrNotFound
    else if negb confirmed then Some (FieldError "confirmed" "must be true")
    else if (version <=? 0)%Z then Some (FieldError "version" "must be a positive precondition")
    else match generation with
         | Some e => Some e
         | None => if returnToSetup && (0 <? replacement)%Z
                   then Some (FieldError "replacementScopeId" "cannot be combined with returnToSetup")
                   else None
         end
  | SelectScope id _ => if (id <=? 0)%Z then Some ErrNotFound else generation
  end.

(** What a preparation hands to its commit. *)
Record prepared := {
  prep_all : list string; prep_version : Z; prep_replacementErr : option scope_error }.

Definition prepared_none : prepared :=
  {| prep_all := []; prep_version := 0; prep_replacementErr := None |}.

Definition with_all (s : ScopeMode) (catalog : option (result scope_error (list string)))
    (k : list string → result scope_error prepared) : result scope_error prepared :=
  if is_all s then match listAll catalog with Err e => Err e | Ok l => k l end else k [].

(** The replacement of a deleted scope, read with its own outcome. *)
Definition prepare_replacement (fault : bool) (db : tables)
    (catalog : option (result scope_error (list string))) (id replacement : Z) (b : SelectionBinding)
  : prepared :=
  if (0 <? replacement)%Z && negb (replacement =? id)%Z then
    match Get fault db replacement with
    | Err e => {| prep_all := []; prep_version := 0; prep_replacementErr := Some e |}
    | Ok r =>
      if negb (scopeMatchesBinding r b)
      then {| prep_all := []; prep_version := scope_Version r;
              prep_replacementErr := Some ErrSelectionMismatch |}
      else if is_all (scope_Mode r)
      then match listAll catalog with
           | Err e => {| prep_all := []; prep_version := scope_Version r; prep_replacementErr := Some e |}
           | Ok l => {| prep_all := l; prep_version := scope_Version r; prep_replacementErr := None |}
           end
      else {| prep_all := []; prep_version := scope_Version r; prep_replacementErr := None |}
    end
  else prepared_none.

(** The preparation callbacks; the faults are those of the successive reads. *)
Definition create_prepare (catalog : option (result scope_error (list string))) (expected : string)
    (d : ScopeDraft) (b : SelectionBinding) : result scope_error prepared :=
  match validateActiveOrigin (draft_ClusterProfileID d) (draft_Context d) expected b with
  | Some e => Err e
  | None => with_all (draft_Mode d) catalog (λ _, Ok prepared_none)
  end.

Definition update_prepare (f1 : bool) (db : tables) (catalog : option (result scope_error (list string)))
    (expected : string) (id : Z) (d : ScopeDraft) (b : SelectionBinding) : result scope_error prepared :=
  match validateActiveOrigin (draft_ClusterProfileID d) (draft_Context d) expected b with
  | Some e => Err e
  | None =>
    match Get f1 db id with
    | Err e => Err e
    | Ok existing =>
      if negb (scopeMatchesBinding existing b)
         || negb (same_origin existing (draft_ClusterProfileID d) (draft_Context d))
      then Err ErrSelectionMismatch
      else with_all (draft_Mode d) catalog
             (λ l, Ok {| prep_all := l; prep_version := 0; prep_replacementErr := None |})
    end
  end.

Definition delete_prepare (f1 f2 : bool) (db : tables)
    (catalog : option (result scope_error (list string))) (id replacement : Z) (returnToSetup : bool)
    (b : SelectionBinding) : result scope_error prepared :=
  match Get f1 db id with
  | Err e => Err e
  | Ok existing =>
    if negb (scopeMatchesBinding existing b) then Err ErrSelectionMismatch
    else if scope_IsDefault existing && (replacement <=? 0)%Z && negb returnToSetup
    then Err (FieldError "replacementScopeId"
                "must identify a replacement default or explicitly return to setup")
    else if (bind_ActiveScopeID b =? id)%Z && negb (scope_IsDefault existing) && (replacement <=? 0)%Z
    then Err (FieldError "replacementScopeId" "must identify another scope in the active origin")
    else Ok (prepare_replacement f2 db catalog id replacement b)
  end.

Definition select_prepare (f1 : bool) (db : tables) (catalog : option (result scope_error (list string)))
    (id : Z) (b : SelectionBinding) : result scope_error prepared :=
  match Get f1 db id with
  | Err e => Err e
  | Ok s =>
    if negb (scopeMatchesBinding s b) then Err ErrSelectionMismatch
    else with_all (scope_Mode s) catalog
           (λ l, Ok {| prep_all := l; prep_version := scope_Version s; prep_replacementErr := None |})
  end.

Definition prepare (f1 f2 : bool) (db : tables) (catalog : option (result scope_error (list string)))
    (expected : string) (op : operation) (b : SelectionBinding) : result scope_error prepared :=
  match op with
  | CreateScope d => create_prepare catalog expected d b
  | UpdateScope id _ d => update_prepare f1 db catalog expected id d b
  | DeleteScope id _ replacement returnToSetup =>
      delete_prepare f1 f2 db catalog id replacement returnToSetup b
  | SelectScope id _ => select_prepare f1 db catalog id b
  end.

Definition no_mutation : SelectionMutation :=
  {| mut_PublishGeneration := false; mut_Activation := None |}.
Definition activate (r : ScopeResolution) : SelectionMutation :=
  {| mut_PublishGeneration := true; mut_Activation := Some r |}.

(** The commit callbacks; the faults are those of the reads and of the write. *)
Definition create_commit (f3 : bool) (db : tables) (expected : string) (d : ScopeDraft)
    (current : SelectionBinding) : result scope_error SelectionMutation * tables :=
  match validateActiveOrigin (draft_ClusterProfileID d) (draft_Context d) expected current with
  | Some e => (Err e, db)
  | None => match Create f3 db d with
            | (Err e, db') => (Err e, db')
            | (Ok _, db') => (Ok no_mutation, db')
            end
  end.

Definition update_commit (f1 f3 : bool) (db : tables) (expected : string) (id version : Z)
    (d : ScopeDraft) (p : prepared) (current : SelectionBinding)
  : result scope_error SelectionMutation * tables :=
  match validateActiveOrigin (draft_ClusterProfileID d) (draft_Context d) expected current with
  | Some e => (Err e, db)
  | None =>
    match Get f1 db id with
    | Err e => (Err e, db)
    | Ok s =>
      if negb (scopeMatchesBinding s current)
         || negb (same_origin s (draft_ClusterProfileID d) (draft_Context d))
      then (Err ErrSelectionMismatch, db)
      else match Update f3 db id version d with
           | (Err e, db') => (Err e, db')
           | (Ok updated, db') =>
             (Ok (if (bind_ActiveScopeID current =? id)%Z
                  then activate (resolutionFor updated (prep_all p)) else no_mutation), db')
           end
    end
  end.

Definition delete_commit (f1 f2 f3 : bool) (db : tables) (id version replacement : Z) (p : prepared)
    (current : SelectionBinding) : result scope_error SelectionMutation * tables :=
  match Get f1 db id with
  | Err e => (Err e, db)
  | Ok s =>
    if negb (scopeMatchesBinding s current) then (Err ErrSelectionMismatch, db)
    else if (replacement <=? 0)%Z then
      match Delete f3 db id version 0 with
      | (Some e, db') => (Err e, db')
      | (None, db') =>
        (Ok (if (bind_ActiveScopeID current =? id)%Z then activate no_resolution else no_mutation), db')
      end
    else
      match prep_replacementErr p with
      | Some e => (Err e, db)
      | None =>
        match Get f2 db replacement with
        | Err e => (Err e, db)
        | Ok r =>
          if negb (scopeMatchesBinding r current) then (Err ErrSelectionMismatch, db)
          else if negb (scope_Version r =? prep_version p)%Z then (Err ErrConflict, db)
          else match Delete f3 db id version (if scope_IsDefault s then scope_ID r else 0) with
               | (Some e, db') => (Err e, db')
               | (None, db') =>
                 (Ok (if (bind_ActiveScopeID current =? id)%Z
                      then activate (resolutionFor r (prep_all p)) else no_mutation), db')
               end
        end
      end
  end.

Definition select_commit (f1 f3 : bool) (db : tables) (id : Z) (setDefault : bool) (p : prepared)
    (current : SelectionBinding) : result scope_error SelectionMutation * tables :=
  match Get f1 db id with
  | Err e => (Err e, db)
  | Ok s =>
    if negb (scopeMatchesBinding s current) then (Err ErrSelectionMismatch, db)
    else if negb (scope_Version s =? prep_version p)%Z then (Err ErrConflict, db)
    else if setDefault
    then match SetDefault f3 db id with
         | (Err e, db') => (Err e, db')
         | (Ok s', db') => (Ok (activate (resolutionFor s' (prep_all p))), db')
         end
    else (Ok (activate (resolutionFor s (prep_all p))), db)
  end.

Definition commit_op (f1 f2 f3 : bool) (db : tables) (expected : string) (op : operation) (p : prepared)
    (current : SelectionBinding) : result scope_error SelectionMutation * tables :=
  match op with
  | CreateScope d => create_commit f3 db expected d current
  | UpdateScope id version d => update_commit f1 f3 db expected id version d p current
  | DeleteScope id version replacement _ => delete_commit f1 f2 f3 db id version replacement p current
  | SelectScope id setDefault => select_commit f1 f3 db id setDefault p current
  end.

Definition ResolveForOperation (catalog : option (result scope_error (list string)))
    (b : SelectionBinding) (s : Scope) : result scope_error ScopeResolution :=
  if negb (scopeMatchesBinding s b) then Err ErrSelectionMismatch
  else if negb (is_all (scope_Mode s)) then Ok (resolutionFor s [])
  else match listAll catalog with Err e => Err e | Ok l => Ok (resolutionFor s l) end.

(** ** What an operation publishes *)

Lemma check_listed_ok seen l :
  check_listed seen l = true →
  Forall (λ n, ValidNamespaceName n = true) l ∧ NoDup l ∧ ∀ n, n ∈ l → n ∉ seen.
Proof.
  revert seen. induction l as [|n l IH]; intros seen; cbn [check_listed].
  { intros _. split_and!; [constructor|constructor|set_solver]. }
  destruct (ValidNamespaceName n) eqn:Hv; cbn [negb orb]; [|done]. case_bool_decide; [done|].
  intros (Hf&Hn&Hs)%IH. rewrite Forall_cons, NoDup_cons. set_solver.
Qed.

(** Names a client may be shown. *)
Definition names_ok (l : list string) : Prop :=
  Forall (λ n, ValidNamespaceName n = true) l ∧ NoDup l.

Lemma names_ok_nil : names_ok [].
Proof. split; constructor. Qed.

Lemma listAll_ok catalog l : listAll catalog = Ok l → names_ok l.
Proof.
  unfold listAll. destruct catalog as [[listed|e]|]; try done.
  destruct (check_listed ∅ listed) eqn:Hc; [|done]. intros [= <-].
  apply check_listed_ok in Hc as (?&?&_). by split.
Qed.

Lemma with_all_ok mode catalog k p :
  with_all mode catalog k = Ok p → ∃ l, names_ok l ∧ k l = Ok p.
Proof.
  unfold with_all. case_match; [|eauto using names_ok_nil].
  destruct (listAll catalog) as [l|e] eqn:Hl; [|done]. apply listAll_ok in Hl. eauto.
Qed.

Lemma prepare_ok f1 f2 db catalog expected op b p :
  prepare f1 f2 db catalog expected op b = Ok p → names_ok (prep_all p).
Proof.
  destruct op as [d|id v d|id v rep ret|id setd]; cbn [prepare]; unfold create_prepare, update_prepare, delete_prepare, select_prepare.
  - case_match; [done|]. intros (l&_&[= <-])%with_all_ok. apply names_ok_nil.
  - case_match; [done|]. case_match; [|done]. case_match; [done|].
    by intros (l&Hl&[= <-])%with_all_ok.
  - case_match; [|done]. repeat (case_match; [done|]). intros [= <-].
    unfold prepare_replacement. case_match; [|apply names_ok_nil].
    case_match; [|apply names_ok_nil]. case_match; [apply names_ok_nil|].
    case_match; [|apply names_ok_nil]. destruct (listAll catalog) eqn:Hl; [|apply names_ok_nil].
    by apply listAll_ok in Hl.
  - case_match; [|done]. case_match; [done|]. by intros (l&Hl&[= <-])%with_all_ok.
Qed.

(** The scope an operation is about. *)
Definition subject (op : operation) : Z :=
  match op with CreateScope _ => 0 | UpdateScope id _ _ | DeleteScope id _ _ _ | SelectScope id _ => id end.

(** Whether a successful operation changes the active selection. *)
Definition changes_selection (op : operation) (current : SelectionBinding) : bool :=
  match op with
  | CreateScope _ => false
  | UpdateScope id _ _ | DeleteScope id _ _ _ => (bind_ActiveScopeID current =? id)%Z
  | SelectScope _ _ => true
  end.

(** The activated resolution is that of a scope stored after the operation, in the active
    origin; or the selection returns to setup and the scope is gone. *)
Definition activation_ok (db' : tables) (op : operation) (p : prepared) (current : SelectionBinding)
    (r : ScopeResolution) : Prop :=
  (∃ s, scopes db' !! res_ScopeID r = Some s ∧ scopeMatchesBinding s current = true
        ∧ r = resolutionFor s (prep_all p))
  ∨ (r = no_resolution ∧ scopes db' !! subject op = None
     ∧ match op with DeleteScope _ _ rep _ => (rep ≤ 0)%Z | _ => False end).

Definition mutation_ok (db' : tables) (op : operation) (p : prepared) (current : SelectionBinding)
    (m : SelectionMutation) : Prop :=
  mut_PublishGeneration m = changes_selection op current
  ∧ match mut_Activation m with
    | None => mut_PublishGeneration m = false
    | Some r => mut_PublishGeneration m = true ∧ activation_ok db' op p current r
    end.

Lemma mutation_silent db' op p current :
  changes_selection op current = false → mutation_ok db' op p current no_mutation.
Proof. intros Hc. split; [by rewrite Hc|done]. Qed.

Lemma mutation_stored db' op p current s s' :
  changes_selection op current = true → scopes db' !! scope_ID s = Some s' →
  resolutionFor s' (prep_all p) = resolutionFor s (prep_all p) →
  scopeMatchesBinding s' current = true →
  mutation_ok db' op p current (activate (resolutionFor s (prep_all p))).
Proof.
  intros Hc Hs Heq Hm. split; [by rewrite Hc|]. split; [done|]. left. exists s'.
  split_and!; [done|done|by rewrite Heq].
Qed.

Lemma active_origin_matches profile context expected b :
  validateActiveOrigin profile context expected b = None →
  bind_ClusterProfileID b = profile ∧ bind_Context b = context ∧ bind_Generation b = expected.
Proof.
  unfold validateActiveOrigin. destruct (String.eqb_spec (bind_Generation b) expected); [|done].
  destruct (Z.eqb_spec (bind_ClusterProfileID b) profile); [|done].
  by destruct (String.eqb_spec (bind_Context b) context).
Qed.

Lemma commit_update f3 db expected id version d p current updated db' :
  validateActiveOrigin (draft_ClusterProfileID d) (draft_Context d) expected current = None →
  Update f3 db id version d = (Ok updated, db') →
  mutation_ok db' (UpdateScope id version d) p current
    (if (bind_ActiveScopeID current =? id)%Z then activate (resolutionFor updated (prep_all p))
     else no_mutation).
Proof.
  intros (Hp&Hc&_)%active_origin_matches Hu. destruct (_ =? id)%Z eqn:Ha; [|by apply mutation_silent].
  apply Update_Ok in Hu as (_&_&Hupd&_&Hdb&_&_).
  eapply (mutation_stored _ _ _ _ updated updated); [done| |done|].
  - rewrite Hdb, Hupd. cbn. apply lookup_insert_eq.
  - unfold scopeMatchesBinding. rewrite Hupd. same_origins.
Qed.

Lemma commit_replacement f3 db id version rep ret s r p current db' :
  tables_inv db → scopes db !! rep = Some r → id ≠ rep →
  scopeMatchesBinding r current = true →
  Delete f3 db id version (if scope_IsDefault s then scope_ID r else 0) = (None, db') →
  mutation_ok db' (DeleteScope id version rep ret) p current
    (if (bind_ActiveScopeID current =? id)%Z then activate (resolutionFor r (prep_all p))
     else no_mutation).
Proof.
  intros Hinv Hr Hne Hm Hd. destruct (_ =? id)%Z eqn:Ha; [|by apply mutation_silent].
  destruct (inv_id _ Hinv _ _ Hr) as [Hid _].
  apply Delete_Ok in Hd as (_&_&_&Hrest).
  assert (∃ b, scopes db' !! scope_ID r = Some (with_default r b)) as [b Hb].
  { rewrite Hid, Hrest, Hr by done. destruct (_ && _); cbn; [by eexists|].
    exists (scope_IsDefault r). by rewrite with_default_same. }
  by eapply mutation_stored.
Qed.

Lemma Get_Ok fault db id s : Get fault db id = Ok s → scopes db !! id = Some s.
Proof. unfold Get. destruct fault; [done|]. destruct (scopes db !! id); naive_solver. Qed.

Lemma SetDefault_Ok fault db id s db' :
  SetDefault fault db id = (Ok s, db') →
  ∃ target, scopes db !! id = Some target ∧ s = with_default target true ∧ scopes db' !! id = Some s.
Proof.
  unfold SetDefault. case_match; [done|]. destruct fault; [done|].
  destruct (scopes db !! id) as [target|] eqn:Ht; [|done]. intros [= <- <-]. exists target.
  split_and!; [done|done|]. cbn. rewrite lookup_alter_eq, map_lookup_imap, Ht. cbn.
  by rewrite Z.eqb_refl, andb_false_r.
Qed.

Lemma commit_select f3 db id setd s p current r db' :
  tables_inv db → scopes db !! id = Some s → scopeMatchesBinding s current = true →
  (if setd : bool
   then match SetDefault f3 db id with
        | (Err e, db') => (Err e, db')
        | (Ok s', db') => (Ok (activate (resolutionFor s' (prep_all p))), db')
        end
   else (Ok (activate (resolutionFor s (prep_all p))), db)) = (Ok r, db') →
  mutation_ok db' (SelectScope id setd) p current r.
Proof.
  intros Hinv Hs Hm. destruct (inv_id _ Hinv _ _ Hs) as [Hid _]. destruct setd.
  - destruct (SetDefault f3 db id) as [[s'|e] db1] eqn:Hd; [|done]. intros [= <- <-].
    apply SetDefault_Ok in Hd as (target&Ht&->&Hdb). rewrite Hs in Ht. injection Ht as <-.
    eapply (mutation_stored _ _ _ _ (with_default s true)); [done| |done|].
    + cbn. by rewrite Hid.
    + done.
  - intros [= <- <-]. eapply mutation_stored; [done|by rewrite Hid|done|done].
Qed.

Lemma delete_silent fault db id version current p rep ret db' :
  (rep ≤ 0)%Z → Delete fault db id version 0 = (None, db') →
  mutation_ok db' (DeleteScope id version rep ret) p current
    (if (bind_ActiveScopeID current =? id)%Z then activate no_resolution else no_mutation).
Proof.
  intros Hrep Hd. apply Delete_Ok in Hd as (Hgone&_). case_match eqn:Ha; [|by apply mutation_silent].
  split; [by cbn; rewrite Ha|]. split; [done|]. by right.
Qed.

Lemma commit_mutation f1 f2 f3 db expected op p current m db' :
  tables_inv db → (match op with DeleteScope id _ rep _ => id ≠ rep | _ => True end) →
  commit_op f1 f2 f3 db expected op p current = (Ok m, db') → mutation_ok db' op p current m.
Proof.
  intros Hinv Hself. destruct op as [d|id v d|id v rep ret|id setd]; cbn [commit_op]; unfold create_commit, update_commit, delete_commit, select_commit.
  - case_match; [done|]. destruct (Create f3 db d) as [[s|e] db1]; [|done]. intros [= <- <-].
    by apply mutation_silent.
  - destruct (validateActiveOrigin _ _ _ _) eqn:Ho; [done|].
    destruct (Get f1 db id) as [s|e] eqn:Hg; [|done]. case_match; [done|].
    destruct (Update f3 db id v d) as [[u|e] db1] eqn:Hu; [|done]. intros [= <- <-].
    by eapply commit_update.
  - destruct (Get f1 db id) as [s|e] eqn:Hg; [|done]. case_match; [done|].
    destruct (Z.leb_spec rep 0) as [Hrep|Hrep].
    + destruct (Delete f3 db id v 0) as [[e|] db1] eqn:Hd; [done|]. intros [= <- <-].
      by eapply delete_silent.
    + case_match; [done|]. destruct (Get f2 db rep) as [r|e] eqn:Hr; [|done].
      destruct (scopeMatchesBinding r current) eqn:Hmr; cbn [negb]; [|done]. case_match; [done|].
      destruct (Delete f3 db id v _) as [[e|] db1] eqn:Hd; [done|]. intros [= <- <-].
      apply Get_Ok in Hr. by eapply commit_replacement.
  - destruct (Get f1 db id) as [s|e] eqn:Hg; [|done].
    destruct (scopeMatchesBinding s current) eqn:Hms; cbn [negb]; [|done]. case_match; [done|].
    apply Get_Ok in Hg. by eapply commit_select.
Qed.

(** A scope never replaces itself: no stored version is the zero the preparation left. *)
Lemma self_replacement f1 f2 g1 g2 g3 db dbp catalog expected id v ret b p current :
  tables_inv db → prepare f1 f2 dbp catalog expected (DeleteScope id v id ret) b = Ok p → (0 < id)%Z →
  ∃ e, commit_op g1 g2 g3 db expected (DeleteScope id v id ret) p current = (Err e, db).
Proof.
  intros Hinv. cbn [prepare]; unfold create_prepare, update_prepare, delete_prepare, select_prepare. case_match; [|done]. repeat (case_match; [done|]). intros [= <-] Hid.
  unfold prepare_replacement. rewrite Z.eqb_refl, andb_false_r. cbn [commit_op]; unfold create_commit, update_commit, delete_commit, select_commit.
  destruct (Get g1 db id) as [s1|e1] eqn:Hg; [|eauto]. case_match; [eauto|].
  rewrite (proj2 (Z.leb_gt id 0)) by lia. cbn [prep_replacementErr prepared_none].
  destruct (Get g2 db id) as [r|e2] eqn:Hr; [|eauto]. case_match; [eauto|]. cbn [prep_version prepared_none].
  apply Get_Ok in Hr. destruct (inv_id _ Hinv _ _ Hr) as (_&_&Hv).
  rewrite (proj2 (Z.eqb_neq (scope_Version r) 0)) by lia. eauto.
Qed.

Lemma commit_failed f1 f2 f3 db expected op p current e db' :
  commit_op f1 f2 f3 db expected op p current = (Err e, db') → db' = db.
Proof.
  assert (∀ x fault e' db1, apply_write db fault x = (Some e', db1) → db1 = db) as Hw.
  { intros x fault e' db1 Ha. pose proof (write_failed db fault x e') as Hf. rewrite Ha in Hf. by apply Hf. }
  destruct op as [d|id v d|id v rep ret|id setd]; cbn [commit_op]; unfold create_commit, update_commit, delete_commit, select_commit.
  - case_match; [by intros [= _ <-]|]. destruct (Create f3 db d) as [[s|e1] db1] eqn:Hc; [done|].
    intros [= <- <-]. eapply (Hw (WriteCreate d) f3). cbn. by rewrite Hc.
  - case_match; [by intros [= _ <-]|]. case_match; [|by intros [= _ <-]]. case_match; [by intros [= _ <-]|].
    destruct (Update f3 db id v d) as [[s|e1] db1] eqn:Hc; [done|].
    intros [= <- <-]. eapply (Hw (WriteUpdate id v d) f3). cbn. by rewrite Hc.
  - case_match; [|by intros [= _ <-]]. case_match; [by intros [= _ <-]|]. case_match.
    + destruct (Delete f3 db id v 0) as [[e1|] db1] eqn:Hc; [|done].
      intros [= <- <-]. by eapply (Hw (WriteDelete id v 0) f3).
    + case_match; [by intros [= _ <-]|]. case_match; [|by intros [= _ <-]].
      repeat (case_match; [by intros [= _ <-]|]).
      match goal with |- context [Delete f3 db id v ?x] => destruct (Delete f3 db id v x) as [[e1|] db1] eqn:Hc; [|done];
        intros [= <- <-]; by eapply (Hw (WriteDelete id v x) f3) end.
  - case_match; [|by intros [= _ <-]]. repeat (case_match; [by intros [= _ <-]|]).
    destruct setd; [|done]. destruct (SetDefault f3 db id) as [[s'|e1] db1] eqn:Hc; [done|].
    intros [= <- <-]. eapply (Hw (WriteSetDefault id) f3). cbn. by rewrite Hc.
Qed.

Lemma commit_inv_tables f1 f2 f3 db expected op p current r db' :
  tables_inv db → commit_op f1 f2 f3 db expected op p current = (r, db') → tables_inv db'.
Proof.
  intros Hinv. destruct op as [d|id v d|id v rep ret|id setd]; cbn [commit_op]; unfold create_commit, update_commit, delete_commit, select_commit.
  - case_match; [by intros [= _ <-]|]. pose proof (Create_inv f3 db d Hinv) as Hi.
    destruct (Create f3 db d) as [[s|e1] db1]; by intros [= _ <-].
  - case_match; [by intros [= _ <-]|]. case_match; [|by intros [= _ <-]]. case_match; [by intros [= _ <-]|].
    pose proof (Update_inv f3 db id v d Hinv) as Hi.
    destruct (Update f3 db id v d) as [[s|e1] db1]; by intros [= _ <-].
  - case_match; [|by intros [= _ <-]]. case_match; [by intros [= _ <-]|]. case_match.
    + pose proof (Delete_inv f3 db id v 0 Hinv) as Hi.
      destruct (Delete f3 db id v 0) as [[e1|] db1]; by intros [= _ <-].
    + case_match; [by intros [= _ <-]|]. case_match; [|by intros [= _ <-]].
      repeat (case_match; [by intros [= _ <-]|]).
      match goal with |- context [Delete f3 db id v ?x] => pose proof (Delete_inv f3 db id v x Hinv) as Hi;
        destruct (Delete f3 db id v x) as [[e1|] db1]; by intros [= _ <-] end.
  - case_match; [|by intros [= _ <-]]. repeat (case_match; [by intros [= _ <-]|]).
    destruct setd; [|by intros [= _ <-]]. pose proof (SetDefault_inv f3 db id Hinv) as Hi.
    destruct (SetDefault f3 db id) as [[s'|e1] db1]; by intros [= _ <-].
Qed.

Lemma commit_ok_mutation f1 f2 g1 g2 g3 dbp db catalog expected op bp p current m db' :
  tables_inv db → entry_check op expected true = None →
  prepare f1 f2 dbp catalog expected op bp = Ok p →
  commit_op g1 g2 g3 db expected op p current = (Ok m, db') → mutation_ok db' op p current m.
Proof.
  intros Hinv Hentry Hprep Hc.
  apply (commit_mutation g1 g2 g3 db expected op p current m db' Hinv); [|done].
  destruct op as [| |id v rep ret|]; try done. intros <-.
  assert (0 < id)%Z as Hid by (cbn in Hentry; destruct (Z.leb_spec id 0); done || lia).
  destruct (self_replacement _ _ g1 g2 g3 _ _ _ _ _ _ _ _ _ current Hinv Hprep Hid). congruence.
Qed.

(** C27: the active selection is backed by the store. Whatever a scope operation prepared, and
    whatever happened to the tables since: if its commit fails the tables are unchanged; if
    it succeeds the tables keep their invariants, the selection accepts its mutation, a new
    generation is published exactly for a selection or for a change of the active scope, and
    the activated resolution is that of a scope stored after the commit, of the active
    profile and context, with distinct valid names (or the active scope was deleted without
    a replacement and the selection is empty). *)
Theorem scope_operation_sound f1 f2 g1 g2 g3 dbp db catalog expected op bp p current r db' :
  tables_inv db → entry_check op expected true = None →
  prepare f1 f2 dbp catalog expected op bp = Ok p →
  commit_op g1 g2 g3 db expected op p current = (r, db') →
  match r with
  | Err _ => db' = db
  | Ok m =>
    tables_inv db' ∧ mutation_ok db' op p current m
    ∧ (∀ s e, bind_Generation (st_binding s) = e → transaction s e ScopeMutation (Ok m) = Ok m)
    ∧ ∀ res, mut_Activation m = Some res → names_ok (res_Namespaces res)
  end.
Proof.
  intros Hinv Hentry Hprep Hc. destruct r as [m|e]; [|by eapply commit_failed].
  pose proof (commit_inv_tables _ _ _ _ _ _ _ _ _ _ Hinv Hc) as Hinv'. split; [done|].
  pose proof (commit_ok_mutation _ _ _ _ _ _ _ _ _ _ _ _ _ _ _ Hinv Hentry Hprep Hc) as Hm.
  split; [done|]. destruct Hm as [_ Hact]. split.
  - intros s e <-. cbn. rewrite String.eqb_refl. cbn.
    destruct (mut_Activation m); [by destruct Hact as [-> _]|by rewrite Hact].
  - intros res Hres. rewrite Hres in Hact. destruct Hact as [_ [(s&Hs&_&->)|(->&_)]]; [|apply names_ok_nil].
    cbn. case_match; [by eapply prepare_ok|]. by destruct (inv_draft _ Hinv' _ _ Hs).
Qed.

(** ** An undisturbed operation completes *)

(** The steps of one call of [Mutate] that nobody overtakes. *)
Definition undisturbed (t : nat) (expected : string) (m : SelectionMutation) (bytes : list Z) (now : Z)
    (nonce : list Z) : list action :=
  [Call t expected (Mutate true) None; RunValidate t; RunRead t; RunValidate t;
   RunPrepare t (PreparedCommit true); RunValidate t; RunCommit t (Ok m); RunRotate t (Some bytes);
   RunRestart t; RunInstall t; RunNonce t now (Some nonce)].

Lemma fresh_intent c t parent seq e :
  seq = sequence (Begin c t parent) → parent = None → e ≠ "" → e = generation c →
  Intent_Validate (Begin c t parent) t seq e = None ∧ superseded (Begin c t parent) t seq = false.
Proof.
  intros -> -> He ->. assert (superseded (Begin c t None) t (sequence (Begin c t None)) = false) as Hs.
  { unfold superseded. rewrite Z.eqb_refl. cbn. rewrite lookup_insert_eq. done. }
  split; [|done]. unfold Intent_Validate. rewrite Hs. cbn.
  by rewrite String.eqb_refl, (proj2 (String.eqb_neq _ _) He).
Qed.

Lemma goto_goto w c s l t th c' s' l' th' :
  goto (goto w c s l t th) c' s' l' t th' = goto w c' s' l' t th'.
Proof. unfold goto. cbn. by rewrite insert_insert_eq. Qed.

Lemma run_step w a w1 acts : step w a = Some w1 → run w (a :: acts) = run w1 acts.
Proof. intros Hs. cbn. by rewrite Hs. Qed.

(** One step of the goroutine whose state was just set. *)
Ltac solo :=
  cbn [step]; rewrite ?bool_decide_true by done; cbn [goto threads lock coordinator state];
  rewrite lookup_insert_eq.

Lemma solo_validate w c s t q e th th' :
  Intent_Validate c t q e = None →
  match th with
  | Opened q' e' req => q' = q ∧ e' = e ∧ th' = Validated q e req
  | Compared q' e' req => q' = q ∧ e' = e ∧ th' = Preparing q e req
  | Prepared q' e' (PreparedCommit true) => q' = q ∧ e' = e ∧ th' = Committing q e ScopeMutation
  | _ => False
  end →
  step (goto w c s None t th) (RunValidate t) = Some (goto w c s None t th').
Proof.
  intros Hv Hth.
  assert (∀ next, match next with Returned _ => False | _ => True end →
            validate_then (goto w c s None t th) t q e next = goto w c s None t next) as Hval.
  { intros next Hn. unfold validate_then. cbn [goto coordinator]. rewrite Hv.
    destruct next; try done; apply goto_goto. }
  solo. repeat case_match; destruct_and?; simplify_eq; try done; cbn [after_prepare]; by rewrite Hval.
Qed.

Lemma solo_commit w c s t q e m :
  superseded c t q = false → e ≠ "" → generation c = e → bind_Generation (st_binding s) = e →
  transaction s e ScopeMutation (Ok m) = Ok m → publishes m →
  step (goto w c s None t (Committing q e ScopeMutation)) (RunCommit t (Ok m))
  = Some (goto w c s (Some t) t (Rotating e ScopeMutation m)).
Proof.
  intros Hs He Hg Hb Htx Hp. solo. unfold commit. cbn [goto coordinator state].
  rewrite Hs, Hg, String.eqb_refl, (proj2 (String.eqb_neq _ _) He), Htx. cbn [negb orb].
  by rewrite Hp, goto_goto.
Qed.

Lemma rotate_session_next ses bytes now nonce :
  Rotate_session ses ("gen_" +:+ base64_encode bytes) now (Some nonce)
  = Some {| ses_ttl := ses_ttl ses; ses_token := base64_encode nonce;
            ses_generation := "gen_" +:+ base64_encode bytes; ses_expiresAt := now + ses_ttl ses |}.
Proof. done. Qed.

Lemma undisturbed_run w t r bytes now nonce :
  lock w = None → threads w !! t = None → generation (coordinator w) ≠ "" →
  bind_Generation (st_binding (state w)) = generation (coordinator w) →
  let next := "gen_" +:+ base64_encode bytes in
  ∃ w', run w (undisturbed t (generation (coordinator w)) (activate r) bytes now nonce) = Some w'
    ∧ lock w' = None
    ∧ state w' = {| st_binding := with_binding_generation (st_binding (state w)) next (res_ScopeID r);
                    st_resolution := r |}
    ∧ generation (coordinator w') = next ∧ ses_generation (sessions (coordinator w')) = next
    ∧ threads w' !! t = Some (Returned (Result
        {| sel_Generation := next; sel_Binding := st_binding (state w'); sel_Resolution := r;
           sel_Changed := true |})).
Proof.
  intros Hl Ht Hg Hb next.
  destruct (fresh_intent (coordinator w) t None _ _ eq_refl eq_refl Hg eq_refl) as [Hv Hs].
  set (c := Begin (coordinator w) t None) in *. set (g := generation (coordinator w)) in *.
  set (s := state w) in *.
  assert (transaction s g ScopeMutation (Ok (activate r)) = Ok (activate r)) as Htx
    by (cbn; by rewrite Hb, String.eqb_refl).
  assert (step w (Call t g (Mutate true) None) = Some (goto w c s None t (Opened (sequence c) g (Mutate true))))
    as E1 by (cbn [step]; by rewrite Hl, Ht).
  eexists. split.
  - unfold undisturbed. rewrite (run_step _ _ _ _ E1).
    erewrite run_step by (by eapply solo_validate).
    erewrite run_step by (solo; cbn [step]; rewrite Hb, String.eqb_refl, goto_goto; reflexivity).
    erewrite run_step by (by eapply solo_validate).
    erewrite run_step by (solo; rewrite goto_goto; reflexivity).
    erewrite run_step by (by eapply solo_validate).
    erewrite run_step by (by apply solo_commit).
    erewrite run_step by (solo; cbn [Rotate_generation newOpaqueValue fmap option_fmap option_map];
                          rewrite goto_goto; reflexivity).
    erewrite run_step by (solo; rewrite goto_goto; reflexivity).
    erewrite run_step by (solo; cbn [mut_PublishGeneration activate]; rewrite goto_goto; reflexivity).
    erewrite run_step by (solo; rewrite rotate_session_next; unfold return_; rewrite goto_goto; reflexivity).
    reflexivity.
  - cbn. rewrite lookup_insert_eq. done.
Qed.

(** C32: an undisturbed scope operation completes. From a settled selection, when a scope
    operation prepares and commits and is one that changes the active selection, and no other
    call interferes, the call returns the new selection: the stored scope's resolution under
    a newly generated generation, with the session nonce rotated to it and the coordinator
    free again. *)
Theorem undisturbed_operation_completes w t f1 f2 g1 g2 g3 db catalog op p m db' bytes now nonce :
  let current := st_binding (state w) in
  let g := generation (coordinator w) in
  let next := "gen_" +:+ base64_encode bytes in
  lock w = None → threads w !! t = None → g ≠ "" → bind_Generation current = g →
  tables_inv db → entry_check op g true = None →
  prepare f1 f2 db catalog g op current = Ok p →
  commit_op g1 g2 g3 db g op p current = (Ok m, db') → changes_selection op current = true →
  ∃ r w', mut_Activation m = Some r ∧ activation_ok db' op p current r
    ∧ run w (undisturbed t g m bytes now nonce) = Some w' ∧ lock w' = None
    ∧ state w' = {| st_binding := with_binding_generation current next (res_ScopeID r); st_resolution := r |}
    ∧ generation (coordinator w') = next ∧ ses_generation (sessions (coordinator w')) = next
    ∧ threads w' !! t = Some (Returned (Result
        {| sel_Generation := next; sel_Binding := st_binding (state w'); sel_Resolution := r;
           sel_Changed := true |})).
Proof.
  intros current g next Hl Ht Hg Hb Hinv Hentry Hprep Hc Hch.
  assert (mutation_ok db' op p current m) as [Hpub Hact].
  { apply (commit_ok_mutation f1 f2 g1 g2 g3 db db catalog g op current p current m db'); done. }
  rewrite Hch in Hpub. destruct (mut_Activation m) as [r|] eqn:Hr; [|congruence].
  destruct Hact as [_ Hok].
  assert (m = activate r) as ->.
  { destruct m. cbn in *. by subst. }
  destruct (undisturbed_run w t r bytes now nonce Hl Ht Hg Hb) as (w'&?&?&?&?&?&?).
  exists r, w'. done.
Qed.

End operations.

(** ** Validation requests *)

Section validation.
Context `{DnsNames} `{YamlDecoder}.

(** [Validate] up to the existence check. *)
Definition validate_request (r : ScopeWriteRequest) : result scope_error ValidationReport :=
  if (req_ClusterProfileID r <=? 0)%Z
  then Err (FieldError "clusterProfileId" "must identify an existing profile")
  else if negb (ValidString (req_Context r)) || negb (String.eqb (TrimSpace (req_Context r)) (req_Context r))
          || (len (req_Context r) =? 0)%Z || (MaxContextBytes <? len (req_Context r))%Z
  then Err (FieldError "context" "must contain between 1 and 1024 trimmed UTF-8 bytes")
  else if negb (String.eqb (req_Name r) "")
          && (negb (ValidString (req_Name r)) || negb (String.eqb (TrimSpace (req_Name r)) (req_Name r))
              || (MaxScopeNameRunes <? RuneCountInString (req_Name r))%Z)
  then Err (FieldError "name" "must contain at most 120 trimmed characters")
  else if match req_Mode r with ScopeModeOther _ => true | _ => false end
  then Err (FieldError "mode" "must be single, list, or all")
  else if match req_DefaultNamespace r with Some d => negb (ValidNamespaceName d) | None => false end
  then Err (FieldError "defaultNamespace" "must be a Kubernetes namespace name")
  else if is_all (req_Mode r) && match req_DefaultNamespace r with Some _ => true | None => false end
  then Err (FieldError "defaultNamespace" "must be null in all mode")
  else match parseRequestInput r with
       | Err e => Err e
       | Ok report => match validateRequestShape r report with Some e => Err e | None => Ok report end
       end.

Definition with_existence (report : ValidationReport) (code : string) : ValidationReport :=
  {| rep_Valid := rep_Valid report; rep_ValidCount := rep_ValidCount report;
     rep_DuplicateCount := rep_DuplicateCount report;
     rep_DiscardedEmptyCount := rep_DiscardedEmptyCount report; rep_Invalid := rep_Invalid report;
     rep_InvalidCount := rep_InvalidCount report; rep_Checked := false; rep_ReasonCode := code |}.

(** The report after the catalogue answered inside an undisturbed [Mutate]. *)
Definition existence_report (report : ValidationReport) (listed : result scope_error (list string))
  : ValidationReport :=
  match listed with
  | Ok existing => applyExistence report existing
  | Err ErrNamespaceListForbidden => with_existence report "NAMESPACE_LIST_FORBIDDEN"
  | Err _ => with_existence report "NAMESPACE_LIST_UNAVAILABLE"
  end.

(** Checking existence moves names from valid to invalid and loses none; a denied or failed
    listing leaves a manual list as it was. *)
Theorem existence_keeps_names report listed :
  let report' := existence_report report listed in
  (rep_Valid report' ++ (inv_Input <$> rep_Invalid report'))%list
    ≡ₚ (rep_Valid report ++ (inv_Input <$> rep_Invalid report))%list
  ∧ (rep_Checked report' = false → rep_Valid report' = rep_Valid report).
Proof.
  destruct listed as [existing|e]; cbn.
  - split; [|done]. rewrite fmap_app, <- list_fmap_compose.
    replace ((inv_Input ∘ not_found) <$> base.filter (λ n, n ∉ existing) (rep_Valid report))
      with (base.filter (λ n, n ∉ existing) (rep_Valid report)) by (symmetry; apply list_fmap_id).
    assert (∀ l : list string, base.filter (λ n, n ∈ existing) l ++ base.filter (λ n, n ∉ existing) l ≡ₚ l)
      as Hsplit.
    { clear. induction l as [|x l IH]; [done|]. rewrite !filter_cons.
      destruct (decide (x ∈ existing)) as [Hx|Hx].
      - rewrite (decide_False (P := x ∉ existing)) by auto. cbn. by rewrite IH.
      - rewrite (decide_True (P := x ∉ existing)) by auto. rewrite <- Permutation_middle. by rewrite IH. }
    rewrite (Permutation_app_comm (inv_Input <$> rep_Invalid report)), app_assoc, Hsplit. done.
  - by destruct e.
Qed.

End validation.

(** ** Witnesses *)

Lemma tables_inv_empty `{DnsNames} (ps : gmap Z (option string)) :
  tables_inv {| profiles := ps; scopes := ∅ |}.
Proof. split; cbn; by intros. Qed.

Section demo.

#[local] Existing Instance demo_label_names.

Definition max_id (m : gmap Z Scope) : Z := map_fold (λ k _ acc, Z.max k acc) 0%Z m.

Lemma max_id_spec m : (0 ≤ max_id m)%Z ∧ ∀ k s, m !! k = Some s → (k ≤ max_id m)%Z.
Proof.
  unfold max_id. apply (map_fold_weak_ind (λ acc m, (0 ≤ acc)%Z ∧ ∀ k s, m !! k = Some s → (k ≤ acc)%Z)).
  - split; [lia|]. by intros.
  - intros i x m' acc Hi [H1 H2]. split; [lia|]. intros k s.
    rewrite lookup_insert_Some. intros [[<- _]|[_ Hk]]; [lia|]. apply H2 in Hk. lia.
Qed.

(** SQLite's usual choice: one more than the largest rowid. *)
#[local] Instance demo_rowids : RowIds.
Proof.
  refine {| new_rowid := λ m, (1 + max_id m)%Z |}. intros m. destruct (max_id_spec m) as [H1 H2].
  split; [lia|]. destruct (m !! (1 + max_id m)%Z) eqn:Hm; [|done]. apply H2 in Hm. lia.
Defined.

Definition demo_empty : tables := {| profiles := {[1%Z := Some "dev"]}; scopes := ∅ |}.

Definition demo_draft (name : string) : ScopeDraft := {|
  draft_ClusterProfileID := 1; draft_Context := "dev"; draft_Name := name; draft_Mode := ScopeModeList;
  draft_Namespaces := ["api"; "web"]; draft_DefaultNamespace := Some "web" |}.

Definition demo_writes : list (bool * write) :=
  [(false, WriteCreate (demo_draft "team")); (false, WriteCreate (demo_draft "team"));
   (false, WriteSetDefault 1); (false, WriteUpdate 1 1 (demo_draft "crew"))].

Definition demo_db : tables := foldl (λ db x, (apply_write db x.1 x.2).2) demo_empty demo_writes.

Definition demo_scope : Scope := scope_of 1 (demo_draft "crew") true 2.

Lemma demo_db_inv : tables_inv demo_db.
Proof.
  unfold demo_db, demo_writes. cbn [foldl fst snd apply_write].
  apply Update_inv, SetDefault_inv, Create_inv, Create_inv, tables_inv_empty.
Qed.

Lemma demo_db_scope : scopes demo_db !! 1%Z = Some demo_scope.
Proof. by vm_compute. Qed.

Lemma scope_store_sound_witness :
  tables_inv demo_db ∧ (apply_write demo_db false (WriteUpdate 1 2 (demo_draft "ops"))).1 = None.
Proof.
  split; [|by vm_compute].
  exact (proj1 (scope_store_sound demo_empty demo_writes demo_db (tables_inv_empty _) eq_refl)).
Defined.

(** Selecting the stored scope from the demo selection of context dev. *)
Definition demo_select : operation := SelectScope 1 false.
Definition demo_prepared : prepared := {| prep_all := []; prep_version := 2; prep_replacementErr := None |}.
Definition demo_activation : SelectionMutation := activate (resolutionFor demo_scope []).

Lemma scope_operation_sound_witness :
  mutation_ok demo_db demo_select demo_prepared (demo_binding "dev") demo_activation
  ∧ names_ok (res_Namespaces (resolutionFor demo_scope [])).
Proof.
  destruct (scope_operation_sound false false false false false demo_db demo_db None "gen_0" demo_select
    (demo_binding "dev") demo_prepared (demo_binding "dev") (Ok demo_activation) demo_db) as (_&H1&_&H2).
  - exact demo_db_inv.
  - reflexivity.
  - by vm_compute.
  - unfold demo_select. cbn [commit_op]; unfold create_commit, update_commit, delete_commit, select_commit. unfold Get. rewrite demo_db_scope. reflexivity.
  - split; [exact H1|exact (H2 _ eq_refl)].
Defined.

Lemma undisturbed_operation_completes_witness :
  ∃ r w', mut_Activation demo_activation = Some r
    ∧ run (init_system demo_coordinator demo_state)
        (undisturbed 1 "gen_0" demo_activation [1; 2; 3]%Z 5 [9]%Z) = Some w'
    ∧ bind_ActiveScopeID (st_binding (state w')) = 1%Z ∧ generation (coordinator w') = "gen_AQID".
Proof.
  destruct (undisturbed_operation_completes (init_system demo_coordinator demo_state) 1 false false false
    false false demo_db None demo_select demo_prepared demo_activation demo_db [1; 2; 3]%Z 5 [9]%Z)
    as (r&w'&Hr&_&Hrun&_&Hs&Hg&_).
  - reflexivity.
  - reflexivity.
  - done.
  - reflexivity.
  - exact demo_db_inv.
  - reflexivity.
  - by vm_compute.
  - unfold demo_select. cbn [commit_op]; unfold create_commit, update_commit, delete_commit, select_commit. unfold Get. rewrite demo_db_scope. reflexivity.
  - reflexivity.
  - exists r, w'. split; [exact Hr|]. split; [exact Hrun|]. rewrite Hs, Hg.
    injection Hr as <-. by split.
Defined.

End demo.
