(* ===== verification/Threads.v ===== *)
(** * Threads: goroutines over a shared state

    A goroutine is a program of atomic steps: a step is one critical section of the code
    (or one access that needs no lock), and between two steps every other goroutine may
    run. [Await] is a point where the goroutine blocks until its environment answers: a
    channel receive, a call to the cluster, a timer. [Sync] is an [Await] whose answer changes
    the state in the same step, as an operation on a channel does. Programs end in [Ret]; a loop ends one
    round in [Ret (Goto h)] and the scheduler enters the program of the loop head [h].

    The second half is a rely/guarantee logic for such programs: a global invariant, a
    relation [trans t] that bounds what one step of a goroutine labelled [t] may change,
    and assertions of one goroutine that are stable under the steps of all others. *)
From Stdlib Require Import Lia.
From stdpp Require Import base list.
From S2P Require Import Prelude.

(** [S] is the shared state, [Q] the questions goroutines block on, [E] the answers. *)
Inductive prog (S Q E A : Type) : Type :=
| Ret (a : A)
| Act (f : S → S) (k : S → prog S Q E A)
| Await (q : Q) (k : E → prog S Q E A)
| Sync (q : Q) (f : E → S → S) (k : E → prog S Q E A).
Arguments Ret {S Q E A} a.
Arguments Act {S Q E A} f k.
Arguments Await {S Q E A} q k.
Arguments Sync {S Q E A} q f k.

Section programs.
Context {S Q E : Type}.

Fixpoint prog_bind {A B} (g : A → prog S Q E B) (p : prog S Q E A) : prog S Q E B :=
  match p with
  | Ret a => g a
  | Act f k => Act f (λ s, prog_bind g (k s))
  | Await q k => Await q (λ e, prog_bind g (k e))
  | Sync q f k => Sync q f (λ e, prog_bind g (k e))
  end.

#[export] Instance prog_mret : MRet (prog S Q E) := λ A, Ret.
#[export] Instance prog_mbind : MBind (prog S Q E) := λ A B g p, prog_bind g p.

(** A critical section with a result. *)
Definition atomically {B} (f : S → B * S) : prog S Q E B :=
  Act (λ s, (f s).2) (λ s, Ret (f s).1).
Definition look {B} (f : S → B) : prog S Q E B := Act id (λ s, Ret (f s)).
Definition modify (f : S → S) : prog S Q E () := Act f (λ _, Ret tt).
Definition receive (q : Q) : prog S Q E E := Await q Ret.
Definition receiving (q : Q) (f : E → S → S) : prog S Q E E := Sync q f Ret.
Definition when (b : bool) (p : prog S Q E ()) : prog S Q E () := if b then p else Ret tt.

(** Programs that fail: [try] goes on with a result, [checked] after a check that passed,
    [valid] when there is no error to report. *)
Definition try {Er A B} (p : prog S Q E (result Er A)) (k : A → prog S Q E (result Er B)) : prog S Q E (result Er B) :=
  r ← p; match r with Err e => Ret (Err e) | Ok a => k a end.
Definition valid {Er A} (e : option Er) (k : prog S Q E (result Er A)) : prog S Q E (result Er A) :=
  match e with Some e => Ret (Err e) | None => k end.
Definition checked {Er A} (p : prog S Q E (option Er)) (k : prog S Q E (result Er A)) : prog S Q E (result Er A) :=
  e ← p; valid e k.
End programs.

(** ** Facts the others keep

    [P] survives every transition that is not labelled [x]. *)
Definition kept {S U} (trans : option U → S → S → Prop) (x : U) (P : S → Prop) : Prop :=
  ∀ u s s', u ≠ Some x → trans u s s' → P s → P s'.

Section kept.
Context {S U : Type} {trans : option U → S → S → Prop}.
Implicit Types (P Q : S → Prop).

Lemma kept_and x P Q : kept trans x P → kept trans x Q → kept trans x (λ s, P s ∧ Q s).
Proof. intros HP HQ u s s' Hu Ht [??]. split; [by eapply HP|by eapply HQ]. Qed.
Lemma kept_const x (P : Prop) : kept trans x (λ _, P).
Proof. by intros u s s' _ _ ?. Qed.
Lemma kept_impl x (P : Prop) Q : kept trans x Q → kept trans x (λ s, P → Q s).
Proof. intros HQ u s s' Hu Ht HP ?. by eapply HQ, HP. Qed.
Lemma kept_all {A} x (P : A → S → Prop) : (∀ a, kept trans x (P a)) → kept trans x (λ s, ∀ a, P a s).
Proof. intros HP u s s' Hu Ht Hs a. by eapply HP. Qed.
Lemma kept_exists {A} x (P : A → S → Prop) : (∀ a, kept trans x (P a)) → kept trans x (λ s, ∃ a, P a s).
Proof. intros HP u s s' Hu Ht [a Ha]. exists a. by eapply HP. Qed.
End kept.

(** Who performs a step: the call of a caller, or the [k]-th goroutine that was started. *)
Inductive who := ByCall (n : nat) | BySpawned (k : nat).
#[export] Instance who_eq_dec : EqDecision who.
Proof. solve_decision. Defined.
Definition caller_of (u : option who) : option nat :=
  match u with Some (ByCall n) => Some n | _ => None end.
Lemma not_caller u n : u ≠ Some (ByCall n) → caller_of u ≠ Some n.
Proof. destruct u as [[x|x]|]; simpl; congruence. Qed.

(** What one round of a goroutine ends with: a loop head to enter, or its result. *)
Inductive outcome (H R : Type) := Goto (h : H) | Done (r : R).
Arguments Goto {H R} h.
Arguments Done {H R} r.

Section pool.
Context {S Q E T N H R : Type}.

(** What the scheduler knows of the program: when an answer is possible, the code of a
    label and of a loop head, the steps [N] of the environment, which goroutines a step
    started, and which label owns which object (a label that owns something is started at
    most once). [caller] numbers the calls of a program that has to tell them apart: a
    number is used once. [callable] and [env_ok] say which calls and answers are assumed to
    occur. *)
Record system := {
  ready : Q → S → E → bool;
  code : T → prog S Q E (outcome H R);
  enter : H → prog S Q E (outcome H R);
  env : N → S → S;
  born : S → S → list T;
  owner : T → option nat;
  caller : T → option nat;
  count : S → nat;
  callable : T → Prop;
  env_ok : Q → E → Prop }.

Record config := Config { shared : S; pool : list (T * prog S Q E (outcome H R)) }.

Context (sys : system).

Inductive move :=
| Call (t : T)                (* a caller starts a goroutine *)
| Env (n : N)                 (* a step of the environment *)
| Run (i : nat)               (* goroutine [i] performs its next step *)
| Reply (i : nat) (e : E).    (* goroutine [i] receives an answer *)

Definition newborn (s s' : S) : list (T * prog S Q E (outcome H R)) :=
  (λ t, (t, code sys t)) <$> born sys s s'.

Definition advance (c : config) (m : move) : config :=
  match m with
  | Call t => Config (shared c) (pool c ++ [(t, code sys t)])
  | Env n =>
    let s := shared c in Config (env sys n s) (pool c ++ newborn s (env sys n s))
  | Run i =>
    match pool c !! i with
    | Some (t, Ret (Goto h)) => Config (shared c) (<[i := (t, enter sys h)]> (pool c))
    | Some (t, Act f k) =>
      let s := shared c in
      Config (f s) (<[i := (t, k s)]> (pool c) ++ newborn s (f s))
    | _ => c
    end
  | Reply i e =>
    match pool c !! i with
    | Some (t, Await q k) =>
      if ready sys q (shared c) e then Config (shared c) (<[i := (t, k e)]> (pool c)) else c
    | Some (t, Sync q f k) =>
      let s := shared c in
      if ready sys q s e then Config (f e s) (<[i := (t, k e)]> (pool c) ++ newborn s (f e s)) else c
    | _ => c
    end
  end.

Definition schedule (c : config) (l : list move) : config := foldl advance c l.

(** The moves a theorem quantifies over: any, with the calls and answers assumed. *)
Definition move_ok (c : config) (m : move) : Prop :=
  match m with
  | Call t => callable sys t ∧ ∀ w, caller sys t = Some w → w ∉ omap (caller sys ∘ fst) (pool c)
  | Reply i e => match pool c !! i with Some (_, (Await q _ | Sync q _ _)) => env_ok sys q e | _ => True end
  | _ => True
  end.

Inductive reachable (c0 : config) : config → Prop :=
| reach_start : reachable c0 c0
| reach_move c m : reachable c0 c → move_ok c m → reachable c0 (advance c m).

(** Observing goroutine [i]: what it waits for, or its result. *)
Definition blocked (c : config) (i : nat) : option (T * Q) :=
  match pool c !! i with Some (t, (Await q _ | Sync q _ _)) => Some (t, q) | _ => None end.
Definition returned (c : config) (i : nat) : option (T * R) :=
  match pool c !! i with Some (t, Ret (Done r)) => Some (t, r) | _ => None end.

Lemma reachable_trans c1 c2 c3 : reachable c1 c2 → reachable c2 c3 → reachable c1 c3.
Proof. intros H12. induction 1 as [|c m _ IH Hm]; [done|]. by constructor. Qed.

(** A schedule whose moves are all admissible. *)
Fixpoint moves_ok (c : config) (l : list move) : Prop :=
  match l with [] => True | m :: rest => move_ok c m ∧ moves_ok (advance c m) rest end.

#[export] Instance moves_ok_dec `{Hcall : ∀ t, Decision (callable sys t)}
    `{Henv : ∀ q e, Decision (env_ok sys q e)} c l : Decision (moves_ok c l).
Proof.
  revert c. induction l as [|m l IH]; intros c; simpl; [apply _|].
  apply and_dec; [|apply IH]. unfold move_ok. destruct m as [t|n|i|i e]; try apply _.
  - apply and_dec; [apply _|]. destruct (caller sys t) as [w|]; [|left; by intros ? [=]].
    destruct (decide (w ∈ omap (caller sys ∘ fst) (pool c))) as [Hw|Hw];
      [right; intros Hn; by apply (Hn w)|left; by intros ? [= <-]].
  -   destruct (pool c !! i) as [[t [o|f k|q k|q f k]]|]; apply _.
Defined.

Lemma schedule_reachable c l : moves_ok c l → reachable c (schedule c l).
Proof.
  revert c. induction l as [|m l IH]; intros c Hl; [constructor|]. destruct Hl as [Hm Hl].
  eapply reachable_trans; [|by apply IH]. by repeat constructor.
Qed.

Lemma returned_lookup c i t r :
  returned c i = Some (t, r) ↔ pool c !! i = Some (t, Ret (Done r)).
Proof.
  unfold returned. destruct (pool c !! i) as [[t' [[h|r']|f k|q k|q f k]]|]; split; intros ?; by simplify_eq.
Qed.

(** Whoever returned has returned. *)
Lemma returned_advance c m i t r :
  returned c i = Some (t, r) → returned (advance c m) i = Some (t, r).
Proof.
  rewrite !returned_lookup. intros Hi. destruct m as [t'|n|j|j e]; cbn [advance].
  - by apply lookup_app_l_Some.
  - by apply lookup_app_l_Some.
  - destruct (pool c !! j) as [[t' [[h|r']|f k|q k|q f k]]|] eqn:Hj; try done; cbn [pool];
      assert (i ≠ j) by (intros ->; congruence).
    + by rewrite list_lookup_insert_ne.
    + apply lookup_app_l_Some. by rewrite list_lookup_insert_ne.
  - destruct (pool c !! j) as [[t' [[h|r']|f k|q k|q f k]]|] eqn:Hj; try done;
      (destruct (ready _ _ _ _); [|done]); cbn [pool]; assert (i ≠ j) by (intros ->; congruence).
    + by rewrite list_lookup_insert_ne.
    + apply lookup_app_l_Some. by rewrite list_lookup_insert_ne.
Qed.

Lemma returned_stays c c' i t r :
  reachable c c' → returned c i = Some (t, r) → returned c' i = Some (t, r).
Proof. induction 1 as [|c' m _ IH _]; [done|]. intros Hi. by apply returned_advance, IH. Qed.

(** ** The logic *)

(** [invariant] holds between any two steps; [trans (Some t)] bounds a step of [t] and
    [trans None] one of the environment; [quiet] is promised while a goroutine is blocked;
    [pre], [at_head] and [post] annotate labels, loop heads and results; [unused] holds for
    the number of a call that was not made yet. *)
Record spec := {
  invariant : S → Prop;
  trans : option T → S → S → Prop;
  quiet : T → Q → S → Prop;
  pre : T → S → Prop;
  at_head : T → H → S → Prop;
  post : T → R → S → Prop;
  unused : nat → S → Prop }.

Context (sp : spec).

(** [u] may run while [t] is between two steps. *)
Definition peer (t : T) (u : option T) : Prop :=
  match u with
  | Some u => (∀ w, owner sys t = Some w → owner sys u ≠ Some w)
              ∧ ∀ w, caller sys t = Some w → caller sys u ≠ Some w
  | None => True
  end.

Definition stable (t : T) (L : S → Prop) : Prop :=
  ∀ u s s', peer t u → invariant sp s → trans sp u s s' → L s → L s'.

Definition ends (t : T) (o : outcome H R) (s : S) : Prop :=
  match o with Goto h => at_head sp t h s | Done r => post sp t r s end.

(** The obligations of one step from [s] to [s']. *)
Definition step_ok (u : option T) (s s' : S) : Prop :=
  invariant sp s' ∧ trans sp u s s' ∧ Forall (λ t, pre sp t s') (born sys s s').

Fixpoint safe {A} (t : T) (L : S → Prop) (p : prog S Q E A) (post : A → S → Prop) : Prop :=
  match p with
  | Ret a => ∀ s, invariant sp s → L s → post a s
  | Act f k => ∀ s, invariant sp s → L s →
      step_ok (Some t) s (f s) ∧ ∃ L', stable t L' ∧ L' (f s) ∧ safe t L' (k s) post
  | Await q k =>
      (∀ s, invariant sp s → L s → quiet sp t q s)
      ∧ ∀ s e, invariant sp s → L s → ready sys q s e = true → env_ok sys q e →
          ∃ L', stable t L' ∧ L' s ∧ safe t L' (k e) post
  | Sync q f k =>
      (∀ s, invariant sp s → L s → quiet sp t q s)
      ∧ ∀ s e, invariant sp s → L s → ready sys q s e = true → env_ok sys q e →
          step_ok (Some t) s (f e s) ∧ ∃ L', stable t L' ∧ L' (f e s) ∧ safe t L' (k e) post
  end.

(** What a proof about a particular program has to supply. *)
Class Sound : Prop := {
  stable_pre : ∀ t, stable t (pre sp t);
  stable_head : ∀ t h, stable t (at_head sp t h);
  stable_post : ∀ t r, stable t (post sp t r);
  safe_code : ∀ t, safe t (pre sp t) (code sys t) (ends t);
  safe_head : ∀ t h, safe t (at_head sp t h) (enter sys h) (ends t);
  call_step : ∀ t s, callable sys t → invariant sp s →
    (∀ n, caller sys t = Some n → unused sp n s) → owner sys t = None ∧ pre sp t s;
  env_step : ∀ n s, invariant sp s → step_ok None s (env sys n s);
  trans_unused : ∀ n u s s', trans sp u s s' → u ≫= caller sys ≠ Some n →
    unused sp n s → unused sp n s';
  trans_count : ∀ u s s', trans sp u s s' → count sys s ≤ count sys s';
  trans_born : ∀ u s s', trans sp u s s' →
    NoDup (omap (owner sys) (born sys s s'))
    ∧ Forall (λ t, caller sys t = None) (born sys s s')
    ∧ ∀ w, w ∈ omap (owner sys) (born sys s s') → count sys s ≤ w < count sys s' }.

Definition thread_ok (s : S) (p : T * prog S Q E (outcome H R)) : Prop :=
  ∃ L, stable p.1 L ∧ L s ∧ safe p.1 L p.2 (ends p.1).

Record config_ok (c : config) : Prop := {
  ok_inv : invariant sp (shared c);
  ok_threads : Forall (thread_ok (shared c)) (pool c);
  ok_owners : NoDup (omap (owner sys ∘ fst) (pool c));
  ok_callers : NoDup (omap (caller sys ∘ fst) (pool c));
  ok_unused : ∀ n, n ∉ omap (caller sys ∘ fst) (pool c) → unused sp n (shared c);
  ok_known : ∀ w, w ∈ omap (owner sys ∘ fst) (pool c) → w < count sys (shared c) }.

(** ** Rules *)

Lemma safe_consequence {A} t (L L' : S → Prop) (p : prog S Q E A) (P : A → S → Prop) :
  (∀ s, invariant sp s → L' s → L s) → safe t L p P → safe t L' p P.
Proof. intros HL. destruct p; simpl; naive_solver. Qed.

Lemma safe_compose {A B} t L (p : prog S Q E A) (g : A → prog S Q E B) P Q' :
  safe t L p P → (∀ a, safe t (P a) (g a) Q') → safe t L (p ≫= g) Q'.
Proof.
  intros Hp Hg. revert L Hp. change (p ≫= g) with (prog_bind g p).
  induction p as [a|f k IH|q k IH|q f k IH]; intros L Hp; simpl in *.
  - by eapply safe_consequence; [|apply Hg].
  - intros s Hi HL. destruct (Hp s Hi HL) as (Hs & L' & HL' & HLs & Hk). eauto 7.
  - destruct Hp as [Hq Hk]. split; [done|]. intros s e Hi HL Hr He.
    destruct (Hk s e Hi HL Hr He) as (L' & ? & ? & ?). eauto.
  - destruct Hp as [Hq Hk]. split; [done|]. intros s e Hi HL Hr He.
    destruct (Hk s e Hi HL Hr He) as (Hs & L' & ? & ? & ?). eauto 7.
Qed.

Lemma safe_post {A} t L (p : prog S Q E A) (P P' : A → S → Prop) :
  (∀ a s, invariant sp s → P a s → P' a s) → safe t L p P → safe t L p P'.
Proof.
  intros HP. revert L. induction p as [a|f k IH|q k IH|q f k IH]; intros L Hp; simpl in *.
  - naive_solver.
  - intros s Hi HL. destruct (Hp s Hi HL) as (Hs & L' & HL' & HLs & Hk). eauto 7.
  - destruct Hp as [Hq Hk]. split; [done|]. intros s e Hi HL Hr He.
    destruct (Hk s e Hi HL Hr He) as (L' & ? & ? & ?). eauto.
  - destruct Hp as [Hq Hk]. split; [done|]. intros s e Hi HL Hr He.
    destruct (Hk s e Hi HL Hr He) as (Hs & L' & ? & ? & ?). eauto 7.
Qed.

(** A critical section: from the assertion before to the one after, for each result. *)
Lemma safe_atomically {A} t (L : S → Prop) (f : S → A * S) (P : A → S → Prop) :
  (∀ a, stable t (P a)) →
  (∀ s, invariant sp s → L s → step_ok (Some t) s (f s).2 ∧ P (f s).1 (f s).2) →
  safe t L (atomically f) P.
Proof.
  intros HP Hf s Hi HL. destruct (Hf s Hi HL) as [Hs HPs]. split; [done|].
  exists (P (f s).1). split_and!; [apply HP|done|by intros ???].
Qed.

Lemma safe_modify t (L : S → Prop) (f : S → S) (L' : S → Prop) :
  stable t L' →
  (∀ s, invariant sp s → L s → step_ok (Some t) s (f s) ∧ L' (f s)) →
  safe t L (modify f) (λ _, L').
Proof.
  intros HP Hf s Hi HL. destruct (Hf s Hi HL) as [Hs HPs]. split; [done|].
  exists L'. split_and!; [done..|by intros ??].
Qed.

Lemma safe_when t (L : S → Prop) b (p : prog S Q E ()) :
  safe t L p (λ _, L) → safe t L (when b p) (λ _, L).
Proof. intros Hp. destruct b; simpl; [done|by intros ???]. Qed.

Lemma safe_return {A} t (L : S → Prop) (a : A) (P : A → S → Prop) :
  (∀ s, invariant sp s → L s → P a s) → safe t L (Ret a) P.
Proof. intros HP. exact HP. Qed.

(** A fact about the result needs no state. *)
Lemma safe_pure {A} t L (P : Prop) (p : prog S Q E A) Q' :
  (P → safe t L p Q') → safe t (λ s, L s ∧ P) p Q'.
Proof.
  intros Hp. destruct p as [a|f k|q k|q f k]; simpl.
  - intros s Hi [HL HP]. by apply (Hp HP).
  - intros s Hi [HL HP]. by apply (Hp HP).
  - split.
    + intros s Hi [HL HP]. by apply (Hp HP).
    + intros s e Hi [HL HP]. by apply (Hp HP).
  - split.
    + intros s Hi [HL HP]. by apply (Hp HP).
    + intros s e Hi [HL HP]. by apply (Hp HP).
Qed.

Lemma safe_absurd {A} t (p : prog S Q E A) Q' : safe t (λ _, False) p Q'.
Proof. by destruct p; simpl; [intros ? _ []..|split; intros ? **|split; intros ? **]. Qed.

Lemma safe_exists {A B} t (L : B → S → Prop) (p : prog S Q E A) P :
  (∀ b, safe t (L b) p P) → safe t (λ s, ∃ b, L b s) p P.
Proof.
  intros Hb. destruct p as [a|f k|q k|q f k]; simpl.
  - intros s Hi [b Hs]. by apply (Hb b).
  - intros s Hi [b Hs]. by apply (Hb b).
  - split; [intros s Hi [b Hs]; by apply (Hb b)|]. intros s e Hi [b Hs]. by apply (Hb b).
  - split; [intros s Hi [b Hs]; by apply (Hb b)|]. intros s e Hi [b Hs]. by apply (Hb b).
Qed.

(** A read changes nothing. *)
Lemma safe_look {A} t (L : S → Prop) (f : S → A) :
  (∀ s, invariant sp s → step_ok (Some t) s s) → stable t L → safe t L (look f) (λ _, L).
Proof.
  intros Hstay HL s Hi Hs. split; [by apply Hstay|]. exists L. split_and!; [done|done|by intros ??].
Qed.

(** Blocking: the answer is one of those assumed. *)
Lemma safe_receive t (L : S → Prop) q :
  stable t L → (∀ s, invariant sp s → L s → quiet sp t q s) →
  safe t L (receive q) (λ a s, L s ∧ env_ok sys q a).
Proof.
  intros HL Hq. split; [exact Hq|]. intros s a Hi Hs _ Ha. exists L. split_and!; [done|done|].
  intros s' _ Hs'. split; [done|exact Ha].
Qed.

(** Blocking, with a change of the state. *)
Lemma safe_receiving t (L : S → Prop) q (f : E → S → S) (P : E → S → Prop) :
  (∀ e, stable t (P e)) → (∀ s, invariant sp s → L s → quiet sp t q s) →
  (∀ s e, invariant sp s → L s → ready sys q s e = true → env_ok sys q e →
     step_ok (Some t) s (f e s) ∧ P e (f e s)) →
  safe t L (receiving q f) P.
Proof.
  intros HP Hq Hf. split; [exact Hq|]. intros s e Hi Hs Hr He.
  destruct (Hf s e Hi Hs Hr He) as [Hok HPs]. split; [done|]. exists (P e).
  split_and!; [apply HP|done|by intros ???].
Qed.

(** Programs that fail. *)
Lemma safe_try {Er A B} t L (p : prog S Q E (result Er A)) k (L' : A → S → Prop) (P : result Er B → S → Prop) :
  safe t L p (λ r s, match r with Err e => P (Err e) s | Ok a => L' a s end) →
  (∀ a, safe t (L' a) (k a) P) → safe t L (try p k) P.
Proof. intros Hp Hk. eapply safe_compose; [exact Hp|]. intros [a|e]; [done|by apply safe_return]. Qed.

Lemma safe_valid {Er A} t (L : S → Prop) e (k : prog S Q E (result Er A)) P :
  (∀ e', e = Some e' → ∀ s, invariant sp s → L s → P (Err e') s) → (e = None → safe t L k P) →
  safe t L (valid e k) P.
Proof. intros He Hk. destruct e as [e|]; simpl; [|by apply Hk]. by intros s; apply He. Qed.

Lemma safe_checked {Er A} t L p (k : prog S Q E (result Er A)) L' P :
  safe t L p (λ e s, match e with Some e => P (Err e) s | None => L' s end) →
  safe t L' k P → safe t L (checked p k) P.
Proof. intros Hp Hk. eapply safe_compose; [exact Hp|]. intros [e|]; [by apply safe_return|done]. Qed.

(** ** Soundness *)

Lemma threads_step u s s' (l : list (T * prog S Q E (outcome H R))) :
  invariant sp s → trans sp u s s' → Forall (λ p, peer p.1 u) l →
  Forall (thread_ok s) l → Forall (thread_ok s') l.
Proof.
  intros Hi Ht Hp Hl. rewrite Forall_forall in *. intros p Hin.
  destruct (Hl p Hin) as (L & HL & HLs & Hs). exists L. split_and!; [done| |done].
  eapply HL; [by apply Hp|done..].
Qed.

Lemma newborn_labels (f : T → option nat) s s' :
  omap (f ∘ fst) (newborn s s') = omap f (born sys s s').
Proof. unfold newborn. induction (born sys s s') as [|t l IH]; [done|].
  rewrite fmap_cons. cbn [omap list_omap compose fst]. by rewrite <- IH.
Qed.

Context `{!Sound}.

Lemma newborn_ok u s s' :
  step_ok u s s' → Forall (thread_ok s') (newborn s s').
Proof.
  intros (_ & _ & Hpre). unfold newborn. rewrite Forall_fmap.
  eapply Forall_impl; [exact Hpre|]. intros t Ht. exists (pre sp t). simpl.
  split_and!; [apply stable_pre|done|apply safe_code].
Qed.

(** Adding the goroutines a step started. *)
Lemma grow_ok u s s' (l : list (T * prog S Q E (outcome H R))) :
  invariant sp s → step_ok u s s' → Forall (thread_ok s') l →
  NoDup (omap (owner sys ∘ fst) l) → NoDup (omap (caller sys ∘ fst) l) →
  (∀ n, n ∉ omap (caller sys ∘ fst) l → unused sp n s') →
  (∀ w, w ∈ omap (owner sys ∘ fst) l → w < count sys s) →
  config_ok (Config s' (l ++ newborn s s')).
Proof.
  intros Hi Hs Hl Hnd Hnc Hun Hk. pose proof (newborn_ok u s s' Hs) as Hb. destruct Hs as (Hi' & Ht & _).
  pose proof (trans_count u s s' Ht). destruct (trans_born u s s' Ht) as (Hnb & Hcb & Hkb).
  assert (omap (caller sys) (born sys s s') = []) as Hnone.
  { clear -Hcb. induction Hcb as [|t l Ht _ IH]; [done|]. cbn [omap list_omap]. by rewrite Ht. }
  split; simpl; [done|by apply Forall_app| | | |]; rewrite omap_app, newborn_labels.
  - apply NoDup_app. split_and!; [done| |done]. intros w Hw1 Hw2.
    specialize (Hk w Hw1). specialize (Hkb w Hw2). lia.
  - by rewrite Hnone, app_nil_r.
  - by rewrite Hnone, app_nil_r.
  - intros w [Hw|Hw]%elem_of_app; [specialize (Hk w Hw)|specialize (Hkb w Hw)]; lia.
Qed.

Lemma omap_label_insert (f : T → option nat) (l : list (T * prog S Q E (outcome H R))) i t p p' :
  l !! i = Some (t, p) → omap (f ∘ fst) (<[i := (t, p')]> l) = omap (f ∘ fst) l.
Proof.
  intros Hi. rewrite insert_take_drop by (by eapply lookup_lt_Some).
  rewrite <- (take_drop_middle l i (t, p) Hi) at 3. by rewrite !omap_app.
Qed.

Lemma others_differ (f : T → option nat) (l : list (T * prog S Q E (outcome H R))) i t p :
  l !! i = Some (t, p) → NoDup (omap (f ∘ fst) l) →
  Forall (λ q : T * prog S Q E (outcome H R), ∀ w, f q.1 = Some w → f t ≠ Some w) (delete i l).
Proof.
  intros Hi. rewrite <- (take_drop_middle l i (t, p) Hi) at 1. rewrite omap_app.
  cbn [omap list_omap compose fst]. intros Hnd. apply Forall_forall. intros q Hq w Hw Hown.
  rewrite Hown in Hnd. rewrite delete_take_drop in Hq.
  apply NoDup_app in Hnd as (_ & Hd & [Hw' _]%NoDup_cons).
  apply elem_of_app in Hq as [Hq|Hq].
  - apply (Hd w); [|constructor]. apply list_elem_of_omap. by exists q.
  - apply Hw', list_elem_of_omap. by exists q.
Qed.

Lemma Forall_insert_delete {A} (P : A → Prop) (l : list A) i x :
  Forall P (delete i l) → P x → Forall P (<[i := x]> l).
Proof.
  intros Hl Hx. destruct (decide (i < length l)) as [Hlt|Hge].
  - rewrite insert_take_drop by done. rewrite delete_take_drop in Hl.
    apply Forall_app in Hl as [? ?]. apply Forall_app. split; [done|]. by constructor.
  - rewrite list_insert_ge by lia.
    by rewrite delete_take_drop, take_ge, drop_ge, app_nil_r in Hl by lia.
Qed.

(** One goroutine is replaced, the state stays. *)
Lemma replace_ok c i t p p' :
  config_ok c → pool c !! i = Some (t, p) → thread_ok (shared c) (t, p') →
  config_ok (Config (shared c) (<[i := (t, p')]> (pool c))).
Proof.
  intros [Hi Ht Ho Hcl Hun Hk] Hp Hp'. split; simpl; [done| |by erewrite omap_label_insert..].
  apply Forall_insert_delete; [|done]. by apply Forall_delete.
Qed.

(** One goroutine performs a step on the state. *)
Lemma change_ok c i t p p' s' :
  config_ok c → pool c !! i = Some (t, p) → step_ok (Some t) (shared c) s' →
  (∃ L, stable t L ∧ L s' ∧ safe t L p' (ends t)) →
  config_ok (Config s' (<[i := (t, p')]> (pool c) ++ newborn (shared c) s')).
Proof.
  intros [Hi Ht Ho Hcl Hun Hk] Hp Hok HL. apply (grow_ok (Some t)); [done|done| | | | |].
  - apply Forall_insert_delete; [|done]. destruct Hok as (Hi' & Htr & _).
    apply (threads_step (Some t) (shared c)); [done|done| |by apply Forall_delete].
    pose proof (others_differ (owner sys) _ _ _ _ Hp Ho) as H1.
    pose proof (others_differ (caller sys) _ _ _ _ Hp Hcl) as H2.
    rewrite Forall_forall in H1, H2 |- *. intros q Hq. split; [by apply H1|by apply H2].
  - by erewrite omap_label_insert.
  - by erewrite omap_label_insert.
  - intros m. erewrite omap_label_insert by done. intros Hm'. destruct Hok as (_ & Htr & _).
    eapply (trans_unused m (Some t)); [done| |by apply Hun]. simpl. intros Heq. apply Hm'.
    apply list_elem_of_omap. exists (t, p). split; [by eapply list_elem_of_lookup_2|done].
  - by erewrite omap_label_insert.
Qed.

Lemma advance_ok c m : config_ok c → move_ok c m → config_ok (advance c m).
Proof.
  intros Hc Hm. pose proof Hc as [Hi Ht Ho Hcl Hun Hk]. destruct m as [t|n|i|i e]; cbn [advance].
  - destruct Hm as [Hm Hnew]. destruct (call_step t _ Hm Hi (λ n Hn, Hun n (Hnew n Hn))) as [Hown Hpre].
    split; simpl; [done| | | | |]; rewrite ?omap_app; cbn; rewrite ?Hown, ?app_nil_r; try done.
    + apply Forall_app. split; [done|]. constructor; [|done]. exists (pre sp t).
      split_and!; [apply stable_pre|done|apply safe_code].
    + destruct (caller sys t) as [w|]; [|by rewrite app_nil_r]. apply NoDup_app.
      split_and!; [done| |apply NoDup_singleton]. intros x Hx ->%list_elem_of_singleton. by apply (Hnew w).
    + intros n Hn. apply Hun. intros Hin. apply Hn, elem_of_app. by left.
  - pose proof (env_step n _ Hi) as Hn. apply (grow_ok None); [done|done| |done|done| |done].
    + destruct Hn as (Hi' & Htr & _). apply (threads_step None (shared c)); [done|done| |done].
      by apply Forall_true.
    + intros m Hm'. destruct Hn as (_ & Htr & _). by eapply (trans_unused m None), Hun.
  - destruct (pool c !! i) as [[t p]|] eqn:Hp; [|done].
    destruct (Forall_lookup_1 _ _ _ _ Ht Hp) as (L & HL & HLs & Hs). cbn [fst snd] in *.
    destruct p as [[h|r]|f k|q k|q f k]; try done.
    + apply (replace_ok _ _ _ (Ret (Goto h))); [done|done|].
      exists (at_head sp t h). split_and!; [apply stable_head| |apply safe_head]. by apply (Hs _ Hi).
    + destruct (Hs _ Hi HLs) as (Hok & Hk'). by eapply change_ok.
  - cbn [move_ok] in Hm.
    destruct (pool c !! i) as [[t p]|] eqn:Hp; [|done]. destruct p as [o|f k|q k|q f k]; try done;
      (destruct (ready sys q (shared c) e) eqn:Hr; [|done]);
      destruct (Forall_lookup_1 _ _ _ _ Ht Hp) as (L & HL & HLs & [_ Hs]); cbn [fst snd] in *.
    + destruct (Hs _ e Hi HLs Hr Hm) as (L' & HL' & HLs' & Hk').
      apply (replace_ok _ _ _ (Await q k)); [done|done|]. by exists L'.
    + destruct (Hs _ e Hi HLs Hr Hm) as (Hok & Hk'). by eapply change_ok.
Qed.

(** A move is a step that its goroutine, or the environment, may perform. *)
Lemma advance_step c m :
  config_ok c → move_ok c m → shared (advance c m) = shared c ∨ ∃ u, step_ok u (shared c) (shared (advance c m)).
Proof.
  intros [Hi Ht Ho Hcl Hun Hk] Hm. destruct m as [t|n|i|i e]; cbn [advance].
  - by left.
  - right. exists None. by apply env_step.
  - destruct (pool c !! i) as [[t p]|] eqn:Hp; [|by left].
    destruct (Forall_lookup_1 _ _ _ _ Ht Hp) as (L & HL & HLs & Hs). cbn [fst snd] in *.
    destruct p as [[h|r]|f k|q k|q f k]; try (by left). right. exists (Some t). by apply Hs.
  - cbn [move_ok] in Hm. destruct (pool c !! i) as [[t p]|] eqn:Hp; [|by left].
    destruct (Forall_lookup_1 _ _ _ _ Ht Hp) as (L & HL & HLs & Hs). cbn [fst snd] in *.
    destruct p as [o|f k|q k|q f k]; try (by left); (destruct (ready sys q (shared c) e) eqn:Hr; [|by left]).
    + by left.
    + right. exists (Some t). by apply Hs.
Qed.

Lemma reachable_ok c0 c : config_ok c0 → reachable c0 c → config_ok c.
Proof. intros Hc0. induction 1 as [|c m _ IH Hm]; [done|]. by apply advance_ok. Qed.

(** ** What a proof gains *)

(** What every step keeps holds from then on. *)
Lemma reachable_kept c0 c c' (P : S → Prop) :
  (∀ u s s', invariant sp s → trans sp u s s' → P s → P s') →
  config_ok c0 → reachable c0 c → reachable c c' → P (shared c) → P (shared c').
Proof.
  intros HP Hc0 Hr. induction 1 as [|c' m Hr' IH Hm]; [done|]. intros Hs. specialize (IH Hs).
  pose proof (reachable_ok _ _ Hc0 (reachable_trans _ _ _ Hr Hr')) as Hok.
  destruct (advance_step c' m Hok Hm) as [->|(u & _ & Ht & _)]; [done|].
  eapply HP; [apply (ok_inv _ Hok)|done..].
Qed.


Lemma reachable_quiet c0 c i t q :
  config_ok c0 → reachable c0 c → blocked c i = Some (t, q) → quiet sp t q (shared c).
Proof.
  unfold blocked. intros Hc0 Hr Hp. destruct (reachable_ok _ _ Hc0 Hr) as [Hi Ht _ _ _ _].
  destruct (pool c !! i) as [[t' [o|f k|q' k|q' f k]]|] eqn:Hl; simplify_eq;
    destruct (Forall_lookup_1 _ _ _ _ Ht Hl) as (L & _ & HLs & [Hq _]); by apply Hq.
Qed.

(** A result's promise holds from then on. *)
Lemma reachable_post c0 c c' i t r :
  config_ok c0 → reachable c0 c → returned c i = Some (t, r) → reachable c c' →
  post sp t r (shared c').
Proof.
  intros Hc0 Hr Hp Hr'. destruct (reachable_ok _ _ Hc0 (reachable_trans _ _ _ Hr Hr')) as [Hi Ht _ _ _ _].
  apply (returned_stays c c') in Hp; [|done]. apply returned_lookup in Hp.
  destruct (Forall_lookup_1 _ _ _ _ Ht Hp) as (L & _ & HLs & Hs). by apply Hs.
Qed.
End pool.
