(* ===== verification/Watch.v ===== *)
(** * Watch: shared watches and their subscribers

    Models the watch manager of src/internal/services/resources/watch.go: [WatchManager]
    with one [watchWorker] per distinct key, shared by all subscribers of that key. A
    worker's goroutine keeps a level state (the retained snapshot) up to date from a LIST
    checkpoint and a stream of changes, mirrors it into the resource cache and broadcasts
    it to the bounded queues of its subscribers; idle workers stop after a while.

    Goroutines are programs of the file Threads. A critical section of [manager.mu] is one
    step; so is every method of the cache and of a subscription, which have locks of their
    own. Two simplifications of the interleaving: the cache calls made while
    [manager.mu] is held belong to that section's step, and [go worker.run()] happens in
    the step of the section that precedes it. The cluster (LIST, WATCH and their answers), timers
    and contexts are the environment. Metrics and tracing are left out. *)
From Stdlib Require Import Ascii String ZArith Lia.
From stdpp Require Import base gmap strings list fin_maps.
From S2P Require Import Prelude Json Topics Cache Snapshot Queue Cursor Threads.


Definition DefaultWatchSnapshotBytes : Z := 33554432.      (* 32 << 20 *)
Definition DefaultWatchIdleTimeout : Z := 45000000000.     (* 45 s in ns *)
Definition initial_backoff : Z := 250000000.               (* 250 ms *)
Definition maximum_backoff : Z := 10000000000.             (* 10 s *)

(** ** Settings

    [WatchManagerConfig], and which of the optional interfaces the port implements. *)
Record WatchManagerConfig := {
  has_port : bool; port_progressive : bool; port_initial : bool;
  IdleTimeout : Z; MaxSnapshotBytes : Z; StreamingLists : bool; OnChange : bool }.

Definition NewWatchManagerWithConfig (config : WatchManagerConfig) : WatchManagerConfig := {|
  has_port := has_port config; port_progressive := port_progressive config;
  port_initial := port_initial config;
  IdleTimeout := if (IdleTimeout config <=? 0)%Z then DefaultWatchIdleTimeout
                 else IdleTimeout config;
  MaxSnapshotBytes := if (MaxSnapshotBytes config <=? 0)%Z then DefaultWatchSnapshotBytes
                      else MaxSnapshotBytes config;
  StreamingLists := StreamingLists config; OnChange := OnChange config |}.

(** ** State *)

(** [wk_canceled] is the state of the worker's context; [wk_idleTimer] the armed or fired
    timer it points to. *)
Record watchWorker := {
  wk_key : WatchKey; wk_canceled : bool; wk_subscribers : gset nat;
  wk_initial : list StreamEvent; wk_snapshot : WatchSnapshot; wk_snapshotBytes : Z;
  wk_snapshotReady : bool; wk_connected : bool; wk_cacheFresh : bool;
  wk_cacheSubscription : CacheSubscription; wk_idleTimer : option nat; wk_stopping : bool }.

(** A subscriber's queue with its consumer: the events it was handed, its worker, and
    whether the context it subscribed with has ended. *)
Record subscriber := {
  ss_queue : Subscription; ss_worker : nat; ss_delivered : list StreamEvent; ss_ctxDone : bool }.

(** The goroutines of the package and the calls into it. *)
Inductive goroutine :=
| CallSubscribe (key : WatchKey)
| CallUnsubscribe (j : nat)
| CallCancelGeneration (generation : string)
| CallClose
| CallEvictIdle
| GoRun (w : nat)
| GoWatchContext (j w : nat)
| GoStopIfIdle (w : nat).

(** [store] and [subs] hold every worker and subscriber ever made, by address; [timers] the
    armed idle timers with the worker they will stop; [spawned] and [changes] log the
    goroutines started and the calls of [onChange]. *)
Record world := {
  cache : ResourceCache; workers : gmap string nat; closed : bool; unsupported : gset string;
  store : list watchWorker; subs : list subscriber; timers : gmap nat nat; timer_count : nat;
  spawned : list goroutine; changes : list WatchKey; clock : Z }.

Definition empty_snapshot : WatchSnapshot := {| ResourceVersion := ""; Items := [] |}.
Definition zero_key : WatchKey := {|
  Generation := ""; Context := ""; Scope := ""; key_Topic := ""; key_GVR := GVR "" "" "";
  key_Namespace := ""; Selector := ""; EffectiveOrigins := [] |}.
Definition zero_query : ResourceCacheQuery :=
  {| Filters := []; Sort := ""; Order := ""; PageSize := 0; Cache.Cursor := "" |}.
Definition zero_cache_subscription : CacheSubscription := {|
  sub_key := {| rk_WatchKey := zero_key; Query := zero_query |}; sub_identity := "";
  sub_generationEpoch := 0; sub_closed := true |}.

(** [ResourceCacheKey{WatchKey: key}] *)
Definition cache_key (key : WatchKey) : ResourceCacheKey :=
  {| rk_WatchKey := key; Query := zero_query |}.

Definition new_worker (key : WatchKey) (sub : CacheSubscription) : watchWorker := {|
  wk_key := key; wk_canceled := false; wk_subscribers := ∅; wk_initial := [];
  wk_snapshot := empty_snapshot; wk_snapshotBytes := 0; wk_snapshotReady := false;
  wk_connected := false; wk_cacheFresh := false; wk_cacheSubscription := sub;
  wk_idleTimer := None; wk_stopping := false |}.

(** Reading through a pointer; every pointer the code holds is valid. *)
Definition worker_at (w : nat) (s : world) : watchWorker :=
  default (new_worker zero_key zero_cache_subscription) (store s !! w).

(** ** Field updates *)

Definition set_subscribers (l : gset nat) (k : watchWorker) : watchWorker := {|
  wk_key := wk_key k; wk_canceled := wk_canceled k; wk_subscribers := l;
  wk_initial := wk_initial k; wk_snapshot := wk_snapshot k;
  wk_snapshotBytes := wk_snapshotBytes k; wk_snapshotReady := wk_snapshotReady k;
  wk_connected := wk_connected k; wk_cacheFresh := wk_cacheFresh k;
  wk_cacheSubscription := wk_cacheSubscription k; wk_idleTimer := wk_idleTimer k;
  wk_stopping := wk_stopping k |}.
Definition set_canceled (k : watchWorker) : watchWorker := {|
  wk_key := wk_key k; wk_canceled := true; wk_subscribers := wk_subscribers k;
  wk_initial := wk_initial k; wk_snapshot := wk_snapshot k;
  wk_snapshotBytes := wk_snapshotBytes k; wk_snapshotReady := wk_snapshotReady k;
  wk_connected := wk_connected k; wk_cacheFresh := wk_cacheFresh k;
  wk_cacheSubscription := wk_cacheSubscription k; wk_idleTimer := wk_idleTimer k;
  wk_stopping := wk_stopping k |}.
Definition set_level (snap : WatchSnapshot) (size : Z) (ready : bool) (init : list StreamEvent)
    (k : watchWorker) : watchWorker := {|
  wk_key := wk_key k; wk_canceled := wk_canceled k; wk_subscribers := wk_subscribers k;
  wk_initial := init; wk_snapshot := snap; wk_snapshotBytes := size; wk_snapshotReady := ready;
  wk_connected := wk_connected k; wk_cacheFresh := wk_cacheFresh k;
  wk_cacheSubscription := wk_cacheSubscription k; wk_idleTimer := wk_idleTimer k;
  wk_stopping := wk_stopping k |}.
Definition set_initial (init : list StreamEvent) (k : watchWorker) : watchWorker :=
  set_level (wk_snapshot k) (wk_snapshotBytes k) (wk_snapshotReady k) init k.
Definition set_connected (b : bool) (k : watchWorker) : watchWorker := {|
  wk_key := wk_key k; wk_canceled := wk_canceled k; wk_subscribers := wk_subscribers k;
  wk_initial := wk_initial k; wk_snapshot := wk_snapshot k;
  wk_snapshotBytes := wk_snapshotBytes k; wk_snapshotReady := wk_snapshotReady k;
  wk_connected := b; wk_cacheFresh := wk_cacheFresh k;
  wk_cacheSubscription := wk_cacheSubscription k; wk_idleTimer := wk_idleTimer k;
  wk_stopping := wk_stopping k |}.
Definition set_cache (fresh : bool) (sub : CacheSubscription) (k : watchWorker) : watchWorker := {|
  wk_key := wk_key k; wk_canceled := wk_canceled k; wk_subscribers := wk_subscribers k;
  wk_initial := wk_initial k; wk_snapshot := wk_snapshot k;
  wk_snapshotBytes := wk_snapshotBytes k; wk_snapshotReady := wk_snapshotReady k;
  wk_connected := wk_connected k; wk_cacheFresh := fresh; wk_cacheSubscription := sub;
  wk_idleTimer := wk_idleTimer k; wk_stopping := wk_stopping k |}.
Definition set_idle (timer : option nat) (stop : bool) (k : watchWorker) : watchWorker := {|
  wk_key := wk_key k; wk_canceled := wk_canceled k; wk_subscribers := wk_subscribers k;
  wk_initial := wk_initial k; wk_snapshot := wk_snapshot k;
  wk_snapshotBytes := wk_snapshotBytes k; wk_snapshotReady := wk_snapshotReady k;
  wk_connected := wk_connected k; wk_cacheFresh := wk_cacheFresh k;
  wk_cacheSubscription := wk_cacheSubscription k; wk_idleTimer := timer; wk_stopping := stop |}.

Definition with_cache (c : ResourceCache) (s : world) : world := {|
  cache := c; workers := workers s; closed := closed s; unsupported := unsupported s;
  store := store s; subs := subs s; timers := timers s; timer_count := timer_count s;
  spawned := spawned s; changes := changes s; clock := clock s |}.
Definition with_workers (m : gmap string nat) (s : world) : world := {|
  cache := cache s; workers := m; closed := closed s; unsupported := unsupported s;
  store := store s; subs := subs s; timers := timers s; timer_count := timer_count s;
  spawned := spawned s; changes := changes s; clock := clock s |}.
Definition with_store (l : list watchWorker) (s : world) : world := {|
  cache := cache s; workers := workers s; closed := closed s; unsupported := unsupported s;
  store := l; subs := subs s; timers := timers s; timer_count := timer_count s;
  spawned := spawned s; changes := changes s; clock := clock s |}.
Definition with_subs (l : list subscriber) (s : world) : world := {|
  cache := cache s; workers := workers s; closed := closed s; unsupported := unsupported s;
  store := store s; subs := l; timers := timers s; timer_count := timer_count s;
  spawned := spawned s; changes := changes s; clock := clock s |}.
Definition with_timers (m : gmap nat nat) (n : nat) (s : world) : world := {|
  cache := cache s; workers := workers s; closed := closed s; unsupported := unsupported s;
  store := store s; subs := subs s; timers := m; timer_count := n;
  spawned := spawned s; changes := changes s; clock := clock s |}.
Definition with_spawned (l : list goroutine) (s : world) : world := {|
  cache := cache s; workers := workers s; closed := closed s; unsupported := unsupported s;
  store := store s; subs := subs s; timers := timers s; timer_count := timer_count s;
  spawned := l; changes := changes s; clock := clock s |}.
Definition with_flags (b : bool) (u : gset string) (s : world) : world := {|
  cache := cache s; workers := workers s; closed := b; unsupported := u;
  store := store s; subs := subs s; timers := timers s; timer_count := timer_count s;
  spawned := spawned s; changes := changes s; clock := clock s |}.
Definition with_log (l : list WatchKey) (now : Z) (s : world) : world := {|
  cache := cache s; workers := workers s; closed := closed s; unsupported := unsupported s;
  store := store s; subs := subs s; timers := timers s; timer_count := timer_count s;
  spawned := spawned s; changes := l; clock := now |}.

Definition on_worker (w : nat) (f : watchWorker → watchWorker) (s : world) : world :=
  with_store (alter f w (store s)) s.
Definition set_queue (q : Subscription) (j : subscriber) : subscriber := {|
  ss_queue := q; ss_worker := ss_worker j; ss_delivered := ss_delivered j;
  ss_ctxDone := ss_ctxDone j |}.

(** ** What goroutines wait for *)

Inductive question :=
| QInitial (w : nat)                                   (* port.WatchInitial *)
| QSync (w : nat) (items : list (option TopicObject))  (* the select of tryInitialWatch *)
| QList (w : nat)                                      (* port.List, port.ListProgress *)
| QWatch (w : nat) (rv : string)                       (* port.Watch *)
| QStream (w : nat)                                    (* the select of run *)
| QWait (w : nat) (backoff : Z)                        (* worker.wait *)
| QContext (j w : nat).                                (* the goroutine of Subscribe *)

Inductive answer :=
| Opened (err : option error)                          (* WatchInitial or Watch returned *)
| Progress (items : list (option TopicObject))         (* ListProgress calls back *)
| Listed (r : result error WatchSnapshot)              (* the LIST returned *)
| Changed (change : WatchChange)
| StreamEnded
| StableFired
| SyncTimeout
| Elapsed (duration : Z)
| CallerDone
| CtxDone.

(** Loop heads of the worker's goroutine, with the local variables that survive a round:
    collecting a streaming list, inside a LIST, about to connect, receiving changes. *)
Inductive point :=
| AtSync (w : nat) (items : list (option TopicObject)) (bytes : Z)
| AtList (w : nat) (token : CacheRefreshToken) (previewed : Z)
| AtConnect (w : nat) (rv : string) (backoff : Z)
| AtStream (w : nat) (rv : string) (backoff : Z).

Inductive call_result := Returned | Subscribed (r : result error nat) | Evicted (n : nat).

Abbreviation program := (prog world question answer).
Abbreviation round := (program (outcome point call_result)).

(** An answer that can arrive: contexts only end when they were canceled, only a
    progressive port calls back, and a jittered delay is within a fifth of its base. *)
Definition answerable (progressive : bool) (q : question) (s : world) (a : answer) : bool :=
  match q, a with
  | QInitial _, Opened _ | QWatch _ _, Opened _ => true
  | QList _, Listed _ => true
  | QList _, Progress _ => progressive
  | QSync _ _, (Changed _ | StreamEnded | SyncTimeout) => true
  | QStream _, (Changed _ | StreamEnded | StableFired) => true
  | QWait _ b, Elapsed d => (4 * b <=? 5 * d)%Z && (5 * d <=? 6 * b)%Z
  | QContext j _, CallerDone =>
    match subs s !! j with Some ss => ss_ctxDone ss | None => false end
  | (QSync w _ | QStream w | QWait w _ | QContext _ w), CtxDone => wk_canceled (worker_at w s)
  | _, _ => false
  end.

(** ** Events the worker builds *)

Definition plain_event (name : string) (key : WatchKey) (items : list (option TopicObject))
    (reason : string) (refetch : bool) : StreamEvent := {|
  ev_Event := name; ev_Topic := key_Topic key; ev_Generation := Generation key;
  ev_ResourceVersion := ""; ev_Items := items; ev_Object := None; ev_Deleted := None;
  ev_Reason := reason; ev_RefetchRequired := refetch; ev_Final := false; ev_Chunk := 0;
  ev_CompletedNamespaces := 0; ev_RequestedNamespaces := 0; ev_ObservedAt := "" |}.

(** The wire names of the error codes (errors.go). *)
Definition code_string (c : ErrorCode) : string :=
  match c with
  | CodeValidationFailed => "VALIDATION_FAILED" | CodeForbidden => "FORBIDDEN"
  | CodeAuthorizationUnavailable => "AUTHORIZATION_UNAVAILABLE"
  | CodeAuthenticationUnavailable => "AUTHENTICATION_UNAVAILABLE"
  | CodeFeatureUnavailable => "FEATURE_UNAVAILABLE"
  | CodeClusterUnavailable => "CLUSTER_UNAVAILABLE"
  | CodeUpstreamTimeout => "UPSTREAM_TIMEOUT" | CodeNotFound => "NOT_FOUND"
  | CodeCursorExpired => "CURSOR_EXPIRED" | CodeGenerationChanged => "GENERATION_CHANGED"
  | CodeLimitExceeded => "LIMIT_EXCEEDED" | CodeRateLimited => "RATE_LIMITED"
  | CodePreferenceSensitive => "PREFERENCE_SENSITIVE_VALUE"
  end.

(** [sanitizePortError] (logs.go). *)
Definition sanitizePortError (err : error) : error :=
  if is_deadline err
  then domainError CodeUpstreamTimeout "The Kubernetes request timed out." (Some err)
  else if is_canceled err
  then domainError CodeGenerationChanged "The active selection changed." (Some err)
  else match err with
       | DomainError _ _ _ _ => err
       | _ => domainError CodeClusterUnavailable
                "The Kubernetes API could not complete the request." (Some err)
       end.

(** [ErrorCodeOf(sanitizePortError(err))], where [err] may be [errors.Join] of several
    errors: [errors.Is] finds a sentinel in any of them and [errors.As] the first
    [DomainError]. *)
Definition is_domain (err : error) : bool :=
  match err with DomainError _ _ _ _ => true | _ => false end.
Definition failure_code (errs : list error) : ErrorCode :=
  if existsb is_deadline errs then CodeUpstreamTimeout
  else if existsb is_canceled errs then CodeGenerationChanged
  else match find is_domain errs with
       | Some e => ErrorCodeOf e
       | None => CodeClusterUnavailable
       end.

(** [code == CodeForbidden || code == CodeAuthorizationUnavailable] *)
Definition access_lost (err : error) : bool :=
  match ErrorCodeOf (sanitizePortError err) with
  | CodeForbidden | CodeAuthorizationUnavailable => true
  | _ => false
  end.

Definition is_fenced (err : error) : bool :=
  errors_Is (λ e, match e with ErrCacheWriteFenced => true | _ => false end) err.
Definition is_streaming_unsupported (err : error) : bool :=
  errors_Is (λ e, match e with ErrStreamingListsUnsupported => true | _ => false end) err.

(** ** Critical sections *)

Section sections.
Context `{GVRPrinter}.
(** Settings; the order [sort.Slice] gives equal eviction candidates; the order Go walks a
    map's keys in; the formatted wall clock. *)
Context (cfg : WatchManagerConfig) (arrange : list candidate → list candidate)
        (order : list nat → list nat) (format_time : Z → string).

(** *** The worker's cache subscription *)

Definition begin_refresh (w : nat) (s : world) : result error CacheRefreshToken * world :=
  let '(r, c) := BeginRefresh (cache s) (wk_cacheSubscription (worker_at w s)) (clock s) in
  (r, with_cache c s).
Definition commit (w : nat) (token : CacheRefreshToken) (snap : WatchSnapshot) (s : world)
    : option error * world :=
  let '(r, c) := Commit arrange (cache s) (wk_cacheSubscription (worker_at w s)) token snap false
                   (clock s) (clock s) in
  (r, with_cache c s).
Definition abort_refresh (w : nat) (token : CacheRefreshToken) (s : world) : world :=
  with_cache (AbortRefresh (cache s) (wk_cacheSubscription (worker_at w s)) token) s.
Definition mark_stale (w : nat) (s : world) : world :=
  with_cache (MarkStale (cache s) (wk_cacheSubscription (worker_at w s)) (clock s)) s.
Definition close_cache (w : nat) (s : world) : world :=
  let '(sub, c) := Cache.Close (cache s) (wk_cacheSubscription (worker_at w s)) in
  on_worker w (λ k, set_cache (wk_cacheFresh k) sub k) (with_cache c s).
Definition invalidate (key : WatchKey) (s : world) : option error * world :=
  let '(r, c) := Invalidate (cache s) (cache_key key) in (r, with_cache c s).

Definition cancel (w : nat) (s : world) : world := on_worker w set_canceled s.
Definition notify (w : nat) (s : world) : world :=
  if OnChange cfg then with_log (changes s ++ [wk_key (worker_at w s)]) (clock s) s else s.

(** *** The retained snapshot *)

(** The bytes worker [w] holds, or nothing if [w] is the worker asking. *)
Definition held_bytes (s : world) (w : nat) : Z := wk_snapshotBytes (worker_at w s).
Definition SnapshotBytes (s : world) : Z := map_sum (held_bytes s) (workers s).
Definition SharedWatchCount (s : world) : nat := size (workers s).

Definition snapshotFitsLocked (w : nat) (size : Z) (s : world) : bool :=
  let limit := if (MaxSnapshotBytes cfg <=? 0)%Z then DefaultWatchSnapshotBytes
               else MaxSnapshotBytes cfg in
  (size + map_sum (λ other, if decide (other = w) then 0%Z else held_bytes s other) (workers s)
   <=? limit)%Z.

Definition memory_budget : error :=
  domainError CodeLimitExceeded "The resource watch snapshot memory budget was reached." None.

Definition installSnapshotLocked (w : nat) (snap : WatchSnapshot) (events : list StreamEvent)
    (s : world) : option error * world :=
  let k := worker_at w s in
  if wk_stopping k || closed s || wk_canceled k then (Some ContextCanceled, s)
  else
    let size := len (items_json (Items snap)) in
    if (MaximumSnapshotItems <? Z.of_nat (length (Items snap)))%Z
       || (MaximumSnapshotBytes <? size)%Z || negb (snapshotFitsLocked w size s)
    then (Some memory_budget, s)
    else (None, on_worker w (set_level snap size true events) s).

Inductive update_result := Inactive | Untracked | Updated | Overflowed.

(** The locked part of [updateSnapshot]. *)
Definition updateSnapshot_locked (w : nat) (event : StreamEvent) (s : world)
    : update_result * world :=
  let k := worker_at w s in
  if wk_stopping k then (Inactive, s)
  else if negb (wk_snapshotReady k) then (Untracked, s)
  else
    let size := if (wk_snapshotBytes k =? 0)%Z
                then match Items (wk_snapshot k) with
                     | [] => 2%Z
                     | items => len (items_json items)
                     end
                else wk_snapshotBytes k in
    let topic := key_Topic (wk_key k) in
    let next := applyStreamEventToSnapshot topic (wk_snapshot k) event in
    let size' := (size + snapshotEventSizeDelta topic (wk_snapshot k) event)%Z in
    if (MaximumSnapshotItems <? Z.of_nat (length (Items next)))%Z
       || (MaximumSnapshotBytes <? size')%Z || negb (snapshotFitsLocked w size' s)
    then (Overflowed,
          on_worker w (λ k, set_idle (wk_idleTimer k) true
                              (set_level empty_snapshot 0 false [] k)) s)
    else (Updated, on_worker w (set_level next size' true []) s).

(** A bookmark moves the checkpoint of a retained snapshot. *)
Definition bookmark (w : nat) (rv : string) (s : world) : world :=
  on_worker w (λ k, if wk_snapshotReady k
                    then set_level {| ResourceVersion := rv; Items := Items (wk_snapshot k) |}
                           (wk_snapshotBytes k) true [] k
                    else k) s.

(** [setConnected]: the flag, and whether the cache must be marked stale. *)
Definition setConnected_locked (w : nat) (b : bool) (s : world) : bool * world :=
  (negb b && negb (wk_stopping (worker_at w s)), on_worker w (set_connected b) s).

(** *** Subscribers *)

Definition push_to (j : nat) (event : StreamEvent) (s : world) : bool * world :=
  match subs s !! j with
  | None => (false, s)
  | Some ss => let '(ok, q) := push (ss_queue ss) event in
               (ok, with_subs (<[j := set_queue q ss]> (subs s)) s)
  end.
Definition force_terminal (j : nat) (event : StreamEvent) (s : world) : world :=
  with_subs (alter (λ ss, set_queue (forceTerminal (ss_queue ss) event) ss) j (subs s)) s.
(** [Subscription.Close]: whether the callback runs, and for which worker. *)
Definition close_sub (j : nat) (s : world) : option nat * world :=
  match subs s !! j with
  | None => (None, s)
  | Some ss => let '(callback, q) := Queue.Close (ss_queue ss) in
               (if callback then Some (ss_worker ss) else None,
                with_subs (<[j := set_queue q ss]> (subs s)) s)
  end.

(** *** Idle timers *)

Definition stop_timer (t : option nat) (s : world) : world :=
  match t with
  | Some t => with_timers (delete t (timers s)) (timer_count s) s
  | None => s
  end.
Definition clear_timer (w : nat) (s : world) : world :=
  on_worker w (λ k, set_idle None (wk_stopping k) k) (stop_timer (wk_idleTimer (worker_at w s)) s).

Definition identity_of (w : nat) (s : world) : string := WatchKey_identity (wk_key (worker_at w s)).
Definition is_current (w : nat) (s : world) : bool :=
  bool_decide (workers s !! identity_of w s = Some w).
Definition unregister (w : nat) (s : world) : world :=
  with_workers (delete (identity_of w s) (workers s)) s.
Definition set_stopping (w : nat) (s : world) : world :=
  on_worker w (λ k, set_idle (wk_idleTimer k) true k) s.

(** The locked part of [remove]: whether the worker is to be stopped at once. *)
Definition remove_locked (w j : nat) (s : world) : bool * world :=
  let s := on_worker w (λ k, set_subscribers (wk_subscribers k ∖ {[j]}) k) s in
  let k := worker_at w s in
  if bool_decide (wk_subscribers k = ∅) && bool_decide (wk_idleTimer k = None) then
    let current := is_current w s in
    if negb current || (IdleTimeout cfg <=? 0)%Z then
      (true, set_stopping w (if current then unregister w s else s))
    else
      let t := timer_count s in
      (false, on_worker w (λ k, set_idle (Some t) (wk_stopping k) k)
                (with_timers (<[t := w]> (timers s)) (S t) s))
  else (false, s).

(** [flushSnapshot] without its interleavings, as [stopIfIdle] runs it under the lock. *)
Definition flush_section (w : nat) (snap : WatchSnapshot) (ready : bool) (s : world)
    : option error * world :=
  if negb ready then (None, s)
  else match begin_refresh w s with
       | (Err e, s) => (Some e, s)
       | (Ok token, s) =>
         match commit w token snap s with
         | (Some e, s) => (Some e, abort_refresh w token s)
         | (None, s) => (None, s)
         end
       end.

(** The locked part of [stopIfIdle]: whether the worker stops. *)
Definition stopIfIdle_locked (w : nat) (s : world) : bool * world :=
  if negb (is_current w s) || negb (bool_decide (wk_subscribers (worker_at w s) = ∅))
  then (false, on_worker w (λ k, set_idle None (wk_stopping k) k) s)
  else
    let s := set_stopping w s in
    let k := worker_at w s in
    let '(err, s) := flush_section w (wk_snapshot k) (wk_snapshotReady k) s in
    let s := match err with
             | Some _ => mark_stale w s
             | None => if wk_connected k then s else mark_stale w s
             end in
    (true, on_worker w (λ k, set_idle None (wk_stopping k) k) (unregister w s)).

(** The locked part of [finish]: the subscribers to close. *)
Definition finish_locked (w : nat) (s : world) : list nat * world :=
  let s := if is_current w s then unregister w s else s in
  let s := clear_timer w (set_stopping w s) in
  (order (elements (wk_subscribers (worker_at w s))), on_worker w (set_subscribers ∅) s).

(** *** Subscribing *)

Inductive subscribed :=
| Refused (err : error)
| Joined (j w : nat)
| Rejected (j w : nat) (created : bool).

(** A new worker for [key], with the snapshot the cache still has. *)
Definition create_worker (key : WatchKey) (s : world) : result error nat * world :=
  match Cache.Subscribe (cache s) (cache_key key) with
  | (Err e, c) => (Err e, with_cache c s)
  | (Ok sub, c) =>
    let w := length (store s) in
    let s := with_store (store s ++ [new_worker key sub]) (with_cache c s) in
    let register s := (Ok w, with_workers (<[WatchKey_identity key := w]> (workers s)) s) in
    let refuse e s := (Err e, cancel w (close_cache w s)) in
    let '(cached, c) := Load (cache s) sub (clock s) in
    let s := with_cache c s in
    match cached with
    | Some found =>
      if bool_decide (cs_State found = CacheStateExpired) then register s
      else match SnapshotEvents (Generation key) (key_Topic key)
                   (ResourceVersion (cs_Snapshot found)) (cs_Snapshot found) with
           | Ok events =>
             match installSnapshotLocked w (cs_Snapshot found) events s with
             | (Some e, s) => refuse e s
             | (None, s) =>
               register (on_worker w (λ k, set_cache
                 (bool_decide (cs_State found = CacheStateFresh)) (wk_cacheSubscription k) k) s)
             end
           | Err _ =>
             match invalidate key s with
             | (Some e, s) => refuse e s
             | (None, s) => register s
             end
           end
    | None => register s
    end
  end.

(** The retained snapshot as events, made again when an update dropped them. *)
Definition prepare_initial (w : nat) (key : WatchKey) (s : world)
    : result error (list StreamEvent) * world :=
  let k := worker_at w s in
  match wk_initial k with
  | [] =>
    if wk_snapshotReady k then
      match SnapshotEvents (Generation key) (key_Topic key) (ResourceVersion (wk_snapshot k))
              (wk_snapshot k) with
      | Err e => (Err e, s)
      | Ok events => (Ok events, on_worker w (set_initial events) s)
      end
    else (Ok [], s)
  | initial => (Ok initial, s)
  end.

(** The queue of a new subscription with its callback set. *)
Definition fresh_queue : Subscription := {|
  signal := false; queue := []; bytes := 0; Queue.closed := false; hasCloseFn := true |}.

(** Queue the initial events; the first refusal ends the stream with a reset. *)
Fixpoint fill_queue (key : WatchKey) (q : Subscription) (initial : list StreamEvent)
    : bool * Subscription :=
  match initial with
  | [] => (true, q)
  | e :: rest =>
    match push q e with
    | (true, q') => fill_queue key q' rest
    | (false, q') => (false, forceTerminal q' (slow_consumer_reset key))
    end
  end.

(** The section of [Subscribe] after the worker was found or created. *)
Definition join_worker (w : nat) (created : bool) (key : WatchKey) (s : world)
    : subscribed * world :=
  let s := clear_timer w s in
  match prepare_initial w key s with
  | (Err e, s) => (Refused e, s)
  | (Ok initial, s) =>
    let j := length (subs s) in
    let '(ok, q) := fill_queue key fresh_queue initial in
    let s := with_subs (subs s ++ [{| ss_queue := q; ss_worker := w; ss_delivered := [];
                                      ss_ctxDone := false |}]) s in
    let s := on_worker w (λ k, set_subscribers (wk_subscribers k ∪ {[j]}) k) s in
    if ok then
      (Joined j w, with_spawned (spawned s ++ (if created then [GoRun w] else [])
                                   ++ [GoWatchContext j w]) s)
    else (Rejected j w created, if created then set_stopping w (unregister w s) else s)
  end.

Definition Subscribe_locked (key : WatchKey) (s : world) : subscribed * world :=
  if closed s
  then (Refused (domainError CodeFeatureUnavailable "Resource watches are shutting down." None), s)
  else match workers s !! WatchKey_identity key with
       | Some w => join_worker w false key s
       | None =>
         match create_worker key s with
         | (Err e, s) => (Refused e, s)
         | (Ok w, s) => join_worker w true key s
         end
       end.

(** The registered workers a predicate selects, in the order of the map walk. *)
Definition registered (P : watchWorker → bool) (s : world) : list nat :=
  order (filter (λ w, P (worker_at w s) = true) (snd <$> map_to_list (workers s))).
Definition drop_registered (P : watchWorker → bool) (s : world) : world :=
  with_workers (filter (λ p : string * nat, P (worker_at p.2 s) = false) (workers s)) s.

Definition of_generation (generation : string) (k : watchWorker) : bool :=
  String.eqb (Generation (wk_key k)) generation.

Definition CancelGeneration_locked (generation : string) (s : world) : list nat * world :=
  let s := with_flags (closed s)
             (filter (λ u, HasPrefix u (generation +:+ nul) = false) (unsupported s)) s in
  (registered (of_generation generation) s, drop_registered (of_generation generation) s).

(** [None] when the manager was closed before. *)
Definition Close_locked (s : world) : option (list nat) * world :=
  if closed s then (None, s)
  else (Some (registered (λ _, true) s),
        drop_registered (λ _, true) (with_flags true (unsupported s) s)).

Definition is_idle (k : watchWorker) : bool :=
  negb (wk_stopping k) && bool_decide (wk_subscribers k = ∅).
Definition EvictIdle_locked (s : world) : list nat * world :=
  let l := registered is_idle s in
  (l, foldl (λ s w, clear_timer w (set_stopping w s)) (drop_registered is_idle s) l).

(** *** Coverage *)

Record Selection := {
  sel_Generation : string; sel_Context : string; sel_Scope : string; sel_Namespaces : list string }.

Definition covers_origin (sel : Selection) (topic : Topic) (o : Origin) (k : watchWorker) : bool :=
  negb (wk_stopping k) && wk_connected k && wk_snapshotReady k
  && String.eqb (Selector (wk_key k)) ""
  && String.eqb (Generation (wk_key k)) (sel_Generation sel)
  && String.eqb (Context (wk_key k)) (sel_Context sel)
  && String.eqb (Scope (wk_key k)) (sel_Scope sel)
  && String.eqb (key_Topic (wk_key k)) topic
  && bool_decide (canonicalCacheStrings (EffectiveOrigins (wk_key k))
                  = canonicalCacheStrings (sel_Namespaces sel))
  && bool_decide (key_GVR (wk_key k) = GVR (org_APIGroup o) (org_Version o) (org_Resource o))
  && String.eqb (key_Namespace (wk_key k)) (org_Namespace o).

Definition coveringWorkerLocked (sel : Selection) (topic : Topic) (o : Origin) (s : world)
    : option nat := head (registered (covers_origin sel topic o) s).

Definition Covers (sel : Selection) (topic : Topic) (origins : list Origin) (s : world) : bool :=
  match origins with
  | [] => false
  | _ => forallb (λ o, bool_decide (is_Some (coveringWorkerLocked sel topic o s))) origins
  end.

Fixpoint snapshots_for (sel : Selection) (topic : Topic) (origins : list Origin) (s : world)
    (found : gmap string WatchSnapshot) : option (gmap string WatchSnapshot) :=
  match origins with
  | [] => Some found
  | o :: rest =>
    match coveringWorkerLocked sel topic o s with
    | None => None
    | Some w => snapshots_for sel topic rest s
                  (<[Origin_Key o := wk_snapshot (worker_at w s)]> found)
    end
  end.
Definition SnapshotsFor (sel : Selection) (topic : Topic) (origins : list Origin) (s : world)
    : option (gmap string WatchSnapshot) :=
  match origins with [] => None | _ => snapshots_for sel topic origins s ∅ end.

(** ** Programs *)

Definition begin (w : nat) : program (result error CacheRefreshToken) :=
  atomically (begin_refresh w).
Definition abort (w : nat) (token : CacheRefreshToken) : program () := modify (abort_refresh w token).
Definition markStale (w : nat) : program () := modify (mark_stale w).
Definition the_worker (w : nat) : program watchWorker := look (worker_at w).

Definition invalidateCache (w : nat) : program (option error) :=
  k ← the_worker w;
  err ← atomically (invalidate (wk_key k));
  modify (notify w);; mret err.

Definition flushSnapshot (w : nat) (snap : WatchSnapshot) (ready : bool) : program (option error) :=
  if negb ready then mret None
  else
    r ← begin w;
    match r with
    | Err e => mret (Some e)
    | Ok token =>
      err ← atomically (commit w token snap);
      match err with
      | Some e => abort w token;; mret (Some e)
      | None => mret None
      end
    end.

Definition flushCache (w : nat) : program (option error) :=
  k ← the_worker w;
  if negb (wk_snapshotReady k) then mret None
  else
    err ← flushSnapshot w (wk_snapshot k) true;
    when (bool_decide (is_Some err) || negb (wk_connected k)) (markStale w);;
    mret err.

Definition remove (w j : nat) : program () :=
  immediate ← atomically (remove_locked w j);
  if immediate : bool then
    err ← flushCache w;
    when (bool_decide (is_Some err)) (markStale w);;
    modify (cancel w)
  else mret tt.

(** [Subscription.Close] with its callback. *)
Definition closeSubscription (j : nat) : program () :=
  callback ← atomically (close_sub j);
  match callback with Some w => remove w j | None => mret tt end.

(** The pushes of [broadcast], outside the manager's lock. *)
Fixpoint push_all (w : nat) (event : StreamEvent) (targets : list nat) : program () :=
  match targets with
  | [] => mret tt
  | j :: rest =>
    ok ← atomically (push_to j event);
    (if ok : bool then mret tt
     else
       k ← the_worker w;
       modify (force_terminal j (slow_consumer_reset (wk_key k)));;
       remove w j);;
    push_all w event rest
  end.

Definition broadcast (w : nat) (event : StreamEvent) : program bool :=
  k ← the_worker w;
  match order (elements (wk_subscribers k)) with
  | [] => mret (negb (wk_stopping k))
  | targets => push_all w event targets;; mret true
  end.

Definition terminal (w : nat) (reason : string) : program () :=
  k ← the_worker w;
  broadcast w (plain_event "reset" (wk_key k) [] reason true);; mret tt.
Definition fail (w : nat) (errs : list error) : program () :=
  k ← the_worker w;
  broadcast w (plain_event "error" (wk_key k) [] (code_string (failure_code errs)) true);; mret tt.

Definition close_all (l : list nat) : program () :=
  foldr (λ j p, closeSubscription j;; p) (mret tt) l.

Definition finish (w : nat) : program () :=
  modify (cancel w);;
  l ← atomically (finish_locked w);
  modify (close_cache w);;
  close_all l.

(** *** The worker's goroutine *)

(** [return] inside [run], with the deferred [finish]. *)
Definition exit (w : nat) : round := finish w;; mret (Done Returned).
Definition fail_exit (w : nat) (errs : list error) : round := fail w errs;; exit w.

Definition setConnected (w : nat) (b : bool) : program () :=
  stale ← atomically (setConnected_locked w b);
  when stale (markStale w).

Definition announce (w : nat) (events : list StreamEvent) : program bool :=
  foldr (λ e p, ok ← broadcast w e; if ok : bool then p else mret false) (mret true) events.

Definition relist (w : nat) : round :=
  r ← begin w;
  match r with
  | Err e => fail_exit w [e]
  | Ok token => mret (Goto (AtList w token 0))
  end.

(** [invalidateCache] with the early return on its error. *)
Definition invalidate_or_fail (w : nat) (errs : list error) (next : round) : round :=
  err ← invalidateCache w;
  match err with Some e => fail_exit w (errs ++ [e]) | None => next end.

Definition refreshed (w : nat) : program bool :=
  k ← the_worker w;
  broadcast w (plain_event "refreshed" (wk_key k) [] "resource_version_expired" true).

Definition install_and_announce (w : nat) (snap : WatchSnapshot) (events : list StreamEvent)
    (failed : option error → round) (ok : round) : round :=
  err ← atomically (installSnapshotLocked w snap events);
  match err with
  | Some e => failed (Some e)
  | None =>
    modify (notify w);;
    sent ← announce w events;
    if sent : bool then ok else failed None
  end.

(** What [relist] does with a complete LIST. *)
Definition list_complete (w : nat) (token : CacheRefreshToken) (snap : WatchSnapshot) : round :=
  k ← the_worker w;
  match SnapshotEvents (Generation (wk_key k)) (key_Topic (wk_key k)) (ResourceVersion snap) snap with
  | Err e => abort w token;; fail_exit w [e]
  | Ok events =>
    let install := install_and_announce w snap events
      (λ e, fail_exit w [default ContextCanceled e])
      (mret (Goto (AtConnect w (ResourceVersion snap) initial_backoff))) in
    err ← atomically (commit w token snap);
    match err with
    | None => install
    | Some e =>
      abort w token;;
      if is_fenced e then fail_exit w [e] else invalidate_or_fail w [e] install
    end
  end.

Definition list_round (w : nat) (token : CacheRefreshToken) (previewed : Z) : round :=
  a ← receive (QList w);
  match a with
  | Progress items =>
    let page := if (500 <=? previewed)%Z then [] else take (Z.to_nat (500 - previewed)) items in
    match page with
    | [] => mret (Goto (AtList w token previewed))
    | _ =>
      k ← the_worker w;
      broadcast w (plain_event "progress" (wk_key k) page "" false);;
      mret (Goto (AtList w token (previewed + Z.of_nat (length page))))
    end
  | Listed (Ok snap) => list_complete w token snap
  | Listed (Err e) =>
    abort w token;;
    if access_lost e then invalidate_or_fail w [e] (fail_exit w [e]) else fail_exit w [e]
  | _ => mret (Goto (AtList w token previewed))
  end.

Definition markInitialUnsupported (w : nat) (err : error) : program () :=
  when (is_streaming_unsupported err)
    (modify (λ s, let k := wk_key (worker_at w s) in
       with_flags (closed s) (unsupported s ∪ {[Generation k +:+ nul +:+ GVR_String (key_GVR k)]}) s)).

(** The stream is open: back to the top of [run]'s loop with it. *)
Definition connected (w : nat) (rv : string) (backoff : Z) : round :=
  setConnected w true;; mret (Goto (AtStream w rv backoff)).

(** The bookmark that ends the initial events of a streaming list. *)
Definition sync_complete (w : nat) (snap : WatchSnapshot) : round :=
  k ← the_worker w;
  match SnapshotEvents (Generation (wk_key k)) (key_Topic (wk_key k)) (ResourceVersion snap) snap with
  | Err _ => relist w
  | Ok events =>
    r ← begin w;
    (match r with
     | Err _ => mret tt
     | Ok token =>
       err ← atomically (commit w token snap);
       when (bool_decide (is_Some err)) (abort w token)
     end);;
    install_and_announce w snap events (λ _, relist w)
      (connected w (ResourceVersion snap) initial_backoff)
  end.

Definition sync_round (w : nat) (items : list (option TopicObject)) (size : Z) : round :=
  a ← receive (QSync w items);
  match a with
  | Changed ch =>
    match ch_Err ch with
    | Some e => markInitialUnsupported w e;; relist w
    | None =>
      if EqualFold (ch_Type ch) "BOOKMARK" && ch_InitialEventsEnd ch then
        if String.eqb (ch_ResourceVersion ch) "" then relist w
        else sync_complete w {| ResourceVersion := ch_ResourceVersion ch; Items := items |}
      else
        k ← the_worker w;
        if negb (EqualFold (ch_Type ch) "ADDED") || negb (item_of_topic (key_Topic (wk_key k)) (ch_Object ch))
        then relist w
        else
          let encoded := len (object_json (ch_Object ch)) in
          if (MaximumSnapshotItems <=? Z.of_nat (length items))%Z
             || (MaximumSnapshotBytes <? size + encoded)%Z
          then relist w
          else mret (Goto (AtSync w (items ++ [ch_Object ch]) (size + encoded)))
    end
  | _ => relist w
  end.

Definition tryInitialWatch (w : nat) : round :=
  if negb (port_initial cfg && StreamingLists cfg) then relist w
  else
    known ← look (λ s, let k := wk_key (worker_at w s) in
                       bool_decide (Generation k +:+ nul +:+ GVR_String (key_GVR k) ∈ unsupported s));
    if known : bool then relist w
    else
      a ← receive (QInitial w);
      match a with
      | Opened None => mret (Goto (AtSync w [] 0))
      | Opened (Some e) => markInitialUnsupported w e;; relist w
      | _ => relist w
      end.

Definition run (w : nat) : round :=
  k ← the_worker w;
  let rv := ResourceVersion (wk_snapshot k) in
  if negb (wk_snapshotReady k) then tryInitialWatch w
  else if negb (wk_cacheFresh k) || String.eqb rv "" then relist w
  else mret (Goto (AtConnect w rv initial_backoff)).

(** [worker.wait(jitterDuration(backoff))], then a new connection with twice the backoff. *)
Definition wait_and_reconnect (w : nat) (rv : string) (backoff : Z) : round :=
  a ← receive (QWait w backoff);
  match a with
  | Elapsed _ => mret (Goto (AtConnect w rv (Z.min (backoff * 2) maximum_backoff)))
  | _ => exit w
  end.

Definition expired (w : nat) : round :=
  invalidate_or_fail w [] (refreshed w;; relist w).

Definition connect_round (w : nat) (rv : string) (backoff : Z) : round :=
  a ← receive (QWatch w rv);
  match a with
  | Opened (Some e) =>
    if is_resource_expired e then expired w
    else if access_lost e then invalidate_or_fail w [] (fail_exit w [e])
    else wait_and_reconnect w rv backoff
  | _ => connected w rv backoff
  end.

(** [updateSnapshot]: whether the worker goes on. *)
Definition updateSnapshot (w : nat) (event : StreamEvent) : program bool :=
  r ← atomically (updateSnapshot_locked w event);
  match r with
  | Inactive => mret false
  | Untracked | Updated => mret true
  | Overflowed =>
    err ← invalidateCache w;
    match err with
    | Some e => fail w [e]
    | None => terminal w "snapshot_limit_exceeded"
    end;;
    mret false
  end.

Definition disconnect (w : nat) : round := setConnected w false;; exit w.

Definition apply_change (w : nat) (rv : string) (backoff : Z) (ch : WatchChange) : round :=
  k ← the_worker w;
  now ← look clock;
  match watchChangeEvent (wk_key k) ch (format_time now) with
  | Err _ => setConnected w false;; terminal w "event_too_large";; exit w
  | Ok event =>
    let rv := if String.eqb (ch_ResourceVersion ch) "" then rv else ch_ResourceVersion ch in
    ok ← updateSnapshot w event;
    if negb ok then disconnect w
    else
      markStale w;;
      modify (notify w);;
      sent ← broadcast w event;
      if sent : bool then mret (Goto (AtStream w rv backoff)) else disconnect w
  end.

Definition stream_round (w : nat) (rv : string) (backoff : Z) : round :=
  a ← receive (QStream w);
  match a with
  | StableFired => mret (Goto (AtStream w rv initial_backoff))
  | StreamEnded => setConnected w false;; wait_and_reconnect w rv backoff
  | Changed ch =>
    match ch_Err ch with
    | Some e =>
      setConnected w false;;
      if is_resource_expired e then expired w
      else if access_lost e then invalidate_or_fail w [] (fail_exit w [e])
      else fail_exit w [e]
    | None =>
      if EqualFold (ch_Type ch) "BOOKMARK" then
        if String.eqb (ch_ResourceVersion ch) "" then mret (Goto (AtStream w rv backoff))
        else modify (bookmark w (ch_ResourceVersion ch));;
             mret (Goto (AtStream w (ch_ResourceVersion ch) backoff))
      else apply_change w rv backoff ch
    end
  | _ => disconnect w
  end.

Definition enter_point (p : point) : round :=
  match p with
  | AtSync w items size => sync_round w items size
  | AtList w token previewed => list_round w token previewed
  | AtConnect w rv backoff => connect_round w rv backoff
  | AtStream w rv backoff => stream_round w rv backoff
  end.

(** *** Calls and the other goroutines *)

Definition Subscribe (key : WatchKey) : round :=
  if negb (has_port cfg)
  then mret (Done (Subscribed (Err
         (domainError CodeFeatureUnavailable "Resource watches are unavailable." None))))
  else if String.eqb (Generation key) "" || String.eqb (Context key) "" || String.eqb (Scope key) ""
  then mret (Done (Subscribed (Err (validationError "watch binding is incomplete"))))
  else if negb (bool_decide (key_GVR key ∈ TopicGVRs (key_Topic key)))
  then mret (Done (Subscribed (Err (validationError "watch topic and resource do not match"))))
  else
    r ← atomically (Subscribe_locked key);
    match r with
    | Refused e => mret (Done (Subscribed (Err e)))
    | Joined j _ => mret (Done (Subscribed (Ok j)))
    | Rejected j w created =>
      (if created : bool then finish w else remove w j);; mret (Done (Subscribed (Ok j)))
    end.

(** The last loops of [CancelGeneration] and [Close]. *)
Definition stop_all (reason : string) (l : list nat) : program () :=
  foldr (λ w p, terminal w reason;; modify (cancel w);; p) (mret tt) l.

Definition CancelGeneration (generation : string) : round :=
  modify (λ s, with_cache (InvalidateGeneration (cache s) generation) s);;
  l ← atomically (CancelGeneration_locked generation);
  stop_all "generation_changed" l;;
  mret (Done Returned).

Definition Close : round :=
  r ← atomically Close_locked;
  match r with
  | None => mret (Done Returned)
  | Some l => stop_all "server_shutdown" l;; mret (Done Returned)
  end.

Definition evict_all (l : list nat) : program () :=
  foldr (λ w p,
    err ← flushCache w;
    when (bool_decide (is_Some err)) (markStale w);;
    modify (close_cache w);;
    modify (cancel w);;
    p) (mret tt) l.

Definition EvictIdle : round :=
  l ← atomically EvictIdle_locked;
  evict_all l;; mret (Done (Evicted (length l))).

Definition stopIfIdle (w : nat) : round :=
  stop ← atomically (stopIfIdle_locked w);
  when stop (modify (cancel w));; mret (Done Returned).

Definition watch_context (j w : nat) : round :=
  a ← receive (QContext j w);
  match a with
  | CallerDone => closeSubscription j;; mret (Done Returned)
  | _ => mret (Done Returned)
  end.

Definition goroutine_code (g : goroutine) : round :=
  match g with
  | CallSubscribe key => Subscribe key
  | CallUnsubscribe j => closeSubscription j;; mret (Done Returned)
  | CallCancelGeneration generation => CancelGeneration generation
  | CallClose => Close
  | CallEvictIdle => EvictIdle
  | GoRun w => run w
  | GoWatchContext j w => watch_context j w
  | GoStopIfIdle w => stopIfIdle w
  end.

(** *** The environment

    Time passes, a timer fires (its goroutine starts even if the worker is meanwhile in
    use again), a caller's context ends, a consumer takes an event, and the owner of the
    cache evicts unused entries. *)
Inductive env_event :=
| Tick (d : Z)
| Fire (t : nat)
| EndContext (j : nat)
| Consume (j : nat)
| EvictCache (idleFor : Z).

Definition consume_next (ss : subscriber) : subscriber :=
  match Next_poll (ss_queue ss) with
  | (Delivered e, q) => {| ss_queue := q; ss_worker := ss_worker ss;
                           ss_delivered := ss_delivered ss ++ [e]; ss_ctxDone := ss_ctxDone ss |}
  | _ => ss
  end.
Definition end_context (ss : subscriber) : subscriber := {|
  ss_queue := ss_queue ss; ss_worker := ss_worker ss; ss_delivered := ss_delivered ss;
  ss_ctxDone := true |}.

Definition env_apply (n : env_event) (s : world) : world :=
  match n with
  | Tick d => with_log (changes s) (clock s + Z.max 0 d)%Z s
  | Fire t =>
    match timers s !! t with
    | Some w => with_spawned (spawned s ++ [GoStopIfIdle w])
                  (with_timers (delete t (timers s)) (timer_count s) s)
    | None => s
    end
  | EndContext j => with_subs (alter end_context j (subs s)) s
  | Consume j => with_subs (alter consume_next j (subs s)) s
  | EvictCache d => with_cache (EvictInactive (cache s) d (clock s)).2 s
  end.

Definition NewWatchManager (c : ResourceCache) (now : Z) : world := {|
  cache := c; workers := ∅; closed := false; unsupported := ∅; store := []; subs := [];
  timers := ∅; timer_count := 0; spawned := []; changes := []; clock := now |}.
End sections.
