(* ===== verification/WatchInvariant.v ===== *)
(** * WatchInvariant: what every step of the watch manager keeps

    The invariant of the manager's state, and [core]: a bound on what one step may do to
    the workers and subscribers of others. Each primitive change of the state (cache
    calls, a worker's flags, the retained snapshot, a queue, joining, leaving, registering)
    is shown once to keep both; [core] is transitive, so a critical section is a chain of
    primitives. *)
From Stdlib Require Import Ascii String ZArith Lia.
From stdpp Require Import base gmap strings list fin_maps.
From S2P Require Import Prelude Json Topics Cache CacheInvariant Snapshot Queue Cursor Threads Watch.


(** ** The cache, as the watches see it *)

(** Every cached snapshot has pairwise distinct identities. *)
Definition cache_wf (c : ResourceCache) : Prop :=
  ∀ i e, entries c !! i = Some e → items_wf (Items (e_snapshot e)).

(** A cache operation keeps stored snapshots or drops them, stores only well-formed ones,
    and never revives a generation. *)
Definition cache_step (c c' : ResourceCache) : Prop :=
  (∀ i e', entries c' !! i = Some e' →
     (∃ e, entries c !! i = Some e ∧ e_snapshot e' = e_snapshot e)
     ∨ items_wf (Items (e_snapshot e')))
  ∧ invalidatedGeneration c ⊆ invalidatedGeneration c'.

Create HintDb watch.

Lemma cache_step_refl c : cache_step c c.
Proof. split; [eauto|done]. Qed.

Lemma cache_step_trans c1 c2 c3 : cache_step c1 c2 → cache_step c2 c3 → cache_step c1 c3.
Proof.
  intros [H1 G1] [H2 G2]. split; [|set_solver]. intros i e3 He3.
  destruct (H2 i e3 He3) as [(e2 & He2 & Hs2)|Hwf]; [|by right].
  destruct (H1 i e2 He2) as [(e1 & He1 & Hs1)|Hwf]; [left; exists e1; split; congruence|].
  right. by rewrite Hs2.
Qed.

Lemma cache_step_wf c c' : cache_step c c' → cache_wf c → cache_wf c'.
Proof. intros [Hs _] Hc i e' He'. destruct (Hs i e' He') as [(e & He & ->)|?]; eauto. Qed.

Lemma entries_same_step c c' :
  entries c' = entries c → invalidatedGeneration c' = invalidatedGeneration c → cache_step c c'.
Proof. intros He Hg. split; [rewrite He; eauto|by rewrite Hg]. Qed.

Lemma update_entry_step c i f :
  (∀ e, e_snapshot (f e) = e_snapshot e) → cache_step c (update_entry c i f).
Proof.
  intros Hf. split; [|done]. intros j e (e0 & He0 & He)%update_entry_lookup. left. exists e0.
  split; [done|]. by destruct He as [->| ->].
Qed.

Lemma removeEntry_step c i ev : cache_step c (removeEntryLocked c i ev).
Proof.
  destruct (removeEntry_frame c i ev) as (_ & _ & _ & _ & _ & _ & Hg). split; [|by rewrite Hg].
  intros j e. rewrite removeEntry_entries, lookup_delete_Some. naive_solver.
Qed.

Lemma foldl_step {A} (f : ResourceCache → A → ResourceCache) c l :
  (∀ c x, cache_step c (f c x)) → cache_step c (foldl f c l).
Proof.
  intros Hf. revert c. induction l as [|x l IH]; intros c; simpl; [apply cache_step_refl|].
  by eapply cache_step_trans; [apply Hf|].
Qed.

Lemma evict_loop_step c l b n : cache_step c (evict_loop c l b n).2.
Proof.
  revert c b n. induction l as [|x l IH]; intros c b n; simpl; [apply cache_step_refl|].
  destruct (within_budget _ _ _); [apply removeEntry_step|].
  by eapply cache_step_trans; [apply removeEntry_step|].
Qed.

Lemma evictFor_step arrange c now exclude add isNew :
  cache_step c (evictForLocked arrange c now exclude add isNew).2.
Proof.
  unfold evictForLocked. destruct (within_budget _ _ _); [apply cache_step_refl|].
  destruct (evict_probe _ _ _ _). destruct (negb _); [apply cache_step_refl|apply evict_loop_step].
Qed.

#[export] Hint Resolve cache_step_refl update_entry_step removeEntry_step : watch.

Lemma BeginRefresh_step c sub now : cache_step c (BeginRefresh c sub now).2.
Proof.
  unfold BeginRefresh. destruct (_ || _); [apply cache_step_refl|].
  eapply cache_step_trans; [|by apply update_entry_step]. by apply entries_same_step.
Qed.

Lemma AbortRefresh_step c sub token : cache_step c (AbortRefresh c sub token).
Proof. unfold AbortRefresh. destruct (_ || _); auto with watch. Qed.

Lemma MarkStale_step c sub now : cache_step c (MarkStale c sub now).
Proof. unfold MarkStale. destruct (_ || _); auto with watch. Qed.

Lemma Load_step c sub now : cache_step c (Load c sub now).2.
Proof.
  unfold Load. destruct (sub_closed sub); [apply cache_step_refl|].
  destruct (entries c !! _); [|apply cache_step_refl]. destruct (negb _); [apply cache_step_refl|].
  destruct (cloneWatchSnapshot _); by apply update_entry_step.
Qed.

Lemma Invalidate_step `{GVRPrinter} c key : cache_step c (Invalidate c key).2.
Proof.
  unfold Invalidate. destruct (canonicalResourceCacheKey key) as [[k i]|]; [|apply cache_step_refl].
  eapply cache_step_trans; [|by apply entries_same_step].
  eapply cache_step_trans; [|apply removeEntry_step]. by apply entries_same_step.
Qed.

Lemma InvalidateGeneration_step c g : cache_step c (InvalidateGeneration c g).
Proof.
  unfold InvalidateGeneration. destruct (String.eqb g ""); [apply cache_step_refl|].
  eapply cache_step_trans; [|by apply entries_same_step].
  eapply cache_step_trans; [|apply foldl_step].
  - split; [eauto|]. simpl. set_solver.
  - intros c' i. eapply cache_step_trans; [apply removeEntry_step|]. by apply entries_same_step.
Qed.

Lemma EvictInactive_step c d now : cache_step c (EvictInactive c d now).2.
Proof.
  unfold EvictInactive. destruct (_ <? _)%Z; [apply cache_step_refl|]. simpl.
  apply foldl_step. intros; apply removeEntry_step.
Qed.

Lemma Close_step c sub : cache_step c (Cache.Close c sub).2.
Proof.
  unfold Cache.Close. destruct (sub_closed sub); [apply cache_step_refl|]. simpl.
  destruct (_ >? _)%Z; [by apply entries_same_step|].
  destruct (entries c !! _); by apply entries_same_step.
Qed.

Lemma Commit_step arrange c sub token snap partial t1 t2 :
  items_wf (Items snap) → cache_step c (Commit arrange c sub token snap partial t1 t2).2.
Proof.
  intros Hwf. unfold Commit. destruct (sub_closed sub); [apply cache_step_refl|].
  destruct (validatedCacheSnapshot _ _) as [[cloned size]|] eqn:Hv; [|apply cache_step_refl].
  destruct (negb _); [apply cache_step_refl|].
  apply validated_size in Hv as (-> & _).
  assert (∀ b c1, (if (maxBytes c <? size)%Z then (false, c)
     else evictForLocked arrange c t1 (sub_identity sub) (size - entry_bytes c (sub_identity sub))%Z
            match entries c !! sub_identity sub with Some _ => false | None => true end) = (b, c1) →
     cache_step c c1) as Hev.
  { intros b c1. destruct (_ <? _)%Z; [intros [= <- <-]; apply cache_step_refl|].
    intros Heq. pose proof (evictFor_step arrange c t1 (sub_identity sub)
      (size - entry_bytes c (sub_identity sub))
      (match entries c !! sub_identity sub with Some _ => false | None => true end)) as Hs.
    by rewrite Heq in Hs. }
  destruct (if (_ <? _)%Z then _ else _) as [room c1] eqn:Hroom. specialize (Hev _ _ eq_refl).
  destruct (negb room); (eapply cache_step_trans; [exact Hev|]); [by apply update_entry_step|].
  split; [|done]. intros i e. cbn [entries with_entries snd]. rewrite lookup_insert_Some.
  intros [[<- <-]|[_ He]]; [by right|left; by exists e].
Qed.

Lemma Subscribe_step `{GVRPrinter} c key : cache_step c (Cache.Subscribe c key).2.
Proof.
  unfold Cache.Subscribe. destruct (canonicalResourceCacheKey key) as [[k i]|]; [|apply cache_step_refl].
  case_decide; [apply cache_step_refl|]. by apply entries_same_step.
Qed.

#[export] Hint Resolve BeginRefresh_step AbortRefresh_step MarkStale_step Load_step Invalidate_step
  InvalidateGeneration_step EvictInactive_step Close_step Commit_step Subscribe_step : watch.

(** What a loaded snapshot and a new subscription are worth. *)
Lemma Load_wf c sub now found :
  cache_wf c → (Load c sub now).1 = Some found → items_wf (Items (cs_Snapshot found)).
Proof.
  unfold Load. intros Hc Hl. destruct (sub_closed sub); [done|].
  destruct (entries c !! _) as [e|] eqn:He; [|done]. destruct (negb _); [done|].
  unfold cloneWatchSnapshot in Hl. destruct (clone_items _) eqn:Hcl; [|done].
  apply clone_items_id in Hcl as ->. simplify_eq/=. by eapply Hc.
Qed.

Lemma Subscribe_live `{GVRPrinter} c key sub c' :
  Cache.Subscribe c key = (Ok sub, c') →
  (Generation key ∉ invalidatedGeneration c) ∧ Generation key ≠ "" ∧ sub_closed sub = false
  ∧ key_GVR key ∈ TopicGVRs (key_Topic key).
Proof.
  unfold Cache.Subscribe. destruct (canonicalResourceCacheKey key) as [[k i]|] eqn:Hk; [|done].
  destruct (canonical_generation _ _ _ Hk) as [Hg _]. rewrite Hg. case_decide; [done|].
  intros [= <- _]. split; [done|]. unfold canonicalResourceCacheKey in Hk.
  destruct (_ || _) eqn:Hne; [done|]. apply orb_false_iff in Hne as [Hne _].
  destruct (bool_decide (key_GVR key ∈ _)) eqn:Hgvr; [|done]. bool_to_prop.
  split_and!; [done|done|]. by apply bool_decide_eq_true in Hgvr.
Qed.

(** ** Views: what a subscriber knows *)

(** A pending sequence does no harm to a consumer that is already up to date, whichever
    part of it arrives. *)
Definition settles (topic : Topic) (m : gmap string TopicObject) (l : list StreamEvent) : Prop :=
  ∀ p, p `suffix_of` l → consume topic m p = m.

Definition neutral (topic : Topic) (e : StreamEvent) : Prop := ∀ m, consume_event topic m e = m.

Lemma settles_nil topic m : settles topic m [].
Proof. intros p Hp. by apply suffix_nil_inv in Hp as ->. Qed.

Lemma settles_cons topic m e l :
  settles topic m l → consume topic m (e :: l) = m → settles topic m (e :: l).
Proof.
  intros Hl He p [[|x q] Hq]; simplify_eq/=; [done|]. apply Hl. by exists q.
Qed.

Lemma settles_suffix topic m l p : p `suffix_of` l → settles topic m l → settles topic m p.
Proof. intros Hp Hl q Hq. apply Hl. by etrans. Qed.

Lemma plain_neutral topic name key items reason refetch :
  name ∉ ["snapshot"; "added"; "modified"; "deleted"] →
  neutral topic (plain_event name key items reason refetch).
Proof.
  intros Hn m. unfold consume_event, apply_to_map, is_upsert, is_delete. simpl.
  rewrite !(proj2 (String.eqb_neq name _)) by set_solver. simpl. by case_decide.
Qed.

Lemma item_map_app a b : item_map (a ++ b) = item_map a ∪ item_map b.
Proof.
  induction a as [|o a IH]; simpl; [by rewrite map_empty_union|]. fold (item_map (a ++ b)).
  fold (item_map a). rewrite IH. destruct o as [o|]; [|done].
  destruct o; simpl; rewrite ?insert_union_l; done.
Qed.

Lemma item_map_lookup items i :
  is_Some (item_map items !! i) → Some i ∈ topicObjectIdentity <$> items.
Proof.
  intros [o Ho]. destruct (decide (Some i ∈ topicObjectIdentity <$> items)); [done|].
  by rewrite item_map_lookup_None in Ho.
Qed.

Lemma items_wf_app a b :
  items_wf (a ++ b) → items_wf a ∧ items_wf b ∧ item_map a ##ₘ item_map b.
Proof.
  unfold items_wf. rewrite fmap_app, NoDup_app, Forall_app. intros [[??] (? & Hd & ?)].
  split_and!; [done..|]. apply map_disjoint_spec. intros i x y Hx Hy.
  apply (Hd (Some i)); apply item_map_lookup; eauto.
Qed.

(** Chunks after the first add their items. *)
Lemma consume_chunks topic m l n :
  (∀ j e, l !! j = Some e → ev_Chunk e = Z.of_nat (S n + j) ∧ ev_Event e = "snapshot" ∧ ev_Topic e = topic) →
  items_wf (all_items l) → consume topic m l = item_map (all_items l) ∪ m.
Proof.
  revert m n. induction l as [|e l IH]; intros m n Hl Hwf; [symmetry; apply (map_empty_union m)|].
  change (all_items (e :: l)) with (ev_Items e ++ all_items l) in *.
  apply items_wf_app in Hwf as (_ & Hwl & Hdis). rewrite consume_cons, (IH _ (S n)); [|..|done].
  - destruct (Hl 0 e eq_refl) as (Hc & Hev & Ht). unfold consume_event.
    rewrite decide_True, Hev, Hc, String.eqb_refl by done.
    destruct (Z.eqb_spec (Z.of_nat (S n + 0)) 0); [lia|].
    rewrite item_map_app, (map_union_comm (item_map (ev_Items e)) (item_map (all_items l))) by done.
    apply (assoc_L (∪)).
  - intros j e' He'. destruct (Hl (S j) e' He') as (-> & -> & ->). split_and!; [lia|done..].
Qed.

Lemma SnapshotEvents_shape generation topic rv s events :
  SnapshotEvents generation topic rv s = Ok events →
  events ≠ [] ∧ all_items events = Items s
  ∧ ∀ j e, events !! j = Some e →
      ev_Chunk e = Z.of_nat j ∧ ev_Event e = "snapshot" ∧ ev_Topic e = topic.
Proof.
  unfold SnapshotEvents. intros Hs.
  destruct (_ <? _)%Z; [done|]. destruct (negb _); [done|]. destruct (_ <? _)%Z; [done|].
  destruct (snapshot_loop _ _ _ _ _ _) as [[ev chunk]|] eqn:Hl; [|done]. simplify_eq.
  apply snapshot_loop_spec in Hl as (H1 & _ & H3); [|by intros ??|by left]. split_and!.
  - by destruct ev.
  - unfold all_items in *. rewrite bind_app. simpl. by rewrite app_nil_r, H3.
  - intros j e [Hj|[Hge Hj]]%lookup_app_Some.
    + by destruct (H1 j e Hj) as (? & _ & ? & ? & _).
    + apply list_lookup_singleton_Some in Hj as [Hj <-]. simpl. split_and!; [lia|done..].
Qed.

(** A snapshot's events bring every consumer to the snapshot, and do not disturb one that
    is already there, even when it joined between two of them. *)
Lemma snapshot_consume generation topic rv s events :
  SnapshotEvents generation topic rv s = Ok events → items_wf (Items s) →
  (∀ m, consume topic m events = item_map (Items s))
  ∧ settles topic (item_map (Items s)) events.
Proof.
  intros (Hne & Hall & Hshape)%SnapshotEvents_shape Hwf. rewrite <- Hall in *. clear s Hall.
  assert (∀ m, consume topic m events = item_map (all_items events)) as Hfull.
  { destruct events as [|e l]; [done|]. intros m.
    change (all_items (e :: l)) with (ev_Items e ++ all_items l) in *.
    apply items_wf_app in Hwf as (_ & Hwl & Hdis).
    destruct (Hshape 0 e eq_refl) as (Hc & Hev & Ht).
    rewrite consume_cons, (consume_chunks _ _ _ 0); [|..|done].
    - unfold consume_event. rewrite decide_True, Hev, Hc by done. simpl.
      by rewrite item_map_app, map_union_comm.
    - intros j e' He'. destruct (Hshape (S j) e' He') as (-> & -> & ->). split_and!; [lia|done..]. }
  split; [done|]. intros p [l Hl]. subst events. destruct l as [|e0 l]; [apply Hfull|].
  rewrite (consume_chunks _ _ _ (length l)).
  - unfold all_items in *. rewrite bind_app, item_map_app in *.
    apply items_wf_app in Hwf as (_ & _ & Hdis). apply map_subseteq_union.
    by apply map_union_subseteq_r.
  - intros j e He. apply (Hshape (S (length l) + j)). simpl. rewrite lookup_app_r by lia.
    rewrite <- He. f_equal. lia.
  - unfold all_items in *. rewrite bind_app in Hwf. by apply items_wf_app in Hwf as (_ & ? & _).
Qed.

(** A change applied to the level state, and the same event on top of it. *)
Lemma delta_consume topic m e :
  ev_Topic e = topic → ev_Event e ≠ "snapshot" → consume_event topic m e = apply_to_map topic e m.
Proof.
  intros Ht Hev. unfold consume_event. rewrite decide_True by done.
  by rewrite (proj2 (String.eqb_neq _ _)).
Qed.

Lemma apply_to_map_idemp topic e m :
  apply_to_map topic e (apply_to_map topic e m) = apply_to_map topic e m.
Proof.
  unfold apply_to_map. destruct (is_upsert e).
  - destruct (ev_Object e) as [o|]; [|done]. destruct (topicObjectIdentity (Some o)); [|done].
    apply insert_insert_eq.
  - destruct (is_delete e); [|done]. destruct (resourceRefIdentity topic (ev_Deleted e)); [|done].
    apply delete_delete_eq.
Qed.

(** ** The state *)

Definition is_open (ss : subscriber) : Prop := Queue.closed (ss_queue ss) = false.

(** All a subscriber was given, read or not, and the objects that makes it show. *)
Definition history (ss : subscriber) : list StreamEvent :=
  ss_delivered ss ++ (q_event <$> queue (ss_queue ss)).
Definition view (topic : Topic) (ss : subscriber) : gmap string TopicObject :=
  consume topic ∅ (history ss).

(** The objects a worker retains. *)
Definition level (k : watchWorker) : gmap string TopicObject := item_map (Items (wk_snapshot k)).
Definition topic_of (k : watchWorker) : Topic := key_Topic (wk_key k).

(** Keys as the API builds them: the strings a watch is bound to have no NUL. *)
Definition key_clean (key : WatchKey) : Prop :=
  nul_free (Generation key) ∧ nul_free (Context key) ∧ nul_free (Scope key).
#[export] Instance key_clean_dec key : Decision (key_clean key).
Proof. unfold key_clean. apply _. Defined.

Section invariant.
Context `{GVRPrinter} (cfg : WatchManagerConfig).

Definition snapshot_limit : Z :=
  if (MaxSnapshotBytes cfg <=? 0)%Z then DefaultWatchSnapshotBytes else MaxSnapshotBytes cfg.

Record worker_ok (k : watchWorker) : Prop := {
  wo_key : key_clean (wk_key k);
  wo_topic : topic_of k ∈ topicOrder;
  wo_generation : Generation (wk_key k) ≠ "";
  wo_ready : wk_snapshotReady k = true →
    items_wf (Items (wk_snapshot k))
    ∧ wk_snapshotBytes k = len (items_json (Items (wk_snapshot k)))
    ∧ (Z.of_nat (length (Items (wk_snapshot k))) ≤ MaximumSnapshotItems)%Z
    ∧ (wk_snapshotBytes k ≤ MaximumSnapshotBytes)%Z
    ∧ (wk_initial k = [] ∨
       SnapshotEvents (Generation (wk_key k)) (topic_of k) (ResourceVersion (wk_snapshot k))
         (wk_snapshot k) = Ok (wk_initial k));
  wo_empty : wk_snapshotReady k = false → wk_snapshotBytes k = 0%Z ∧ wk_initial k = [] }.

Record watch_inv (s : world) : Prop := {
  wi_workers : ∀ w k, store s !! w = Some k → worker_ok k;
  wi_registered : ∀ i w, workers s !! i = Some w →
    ∃ k, store s !! w = Some k ∧ WatchKey_identity (wk_key k) = i;
  wi_budget : (SnapshotBytes s ≤ snapshot_limit)%Z;
  wi_members : ∀ w k j, store s !! w = Some k → j ∈ wk_subscribers k →
    ∃ ss, subs s !! j = Some ss ∧ ss_worker ss = w;
  wi_queues : ∀ j ss, subs s !! j = Some ss →
    ss_worker ss < length (store s) ∧ Forall (λ q, topic_clean (q_event q)) (queue (ss_queue ss));
  wi_closed : closed s = true → workers s = ∅;
  wi_cache : cache_wf (cache s) }.

(** ** What a step may do to others *)

(** Every open subscriber of [w] is in its set. *)
Definition attached (w : nat) (s : world) : Prop :=
  ∀ j ss, subs s !! j = Some ss → ss_worker ss = w → is_open ss →
    ∃ k, store s !! w = Some k ∧ j ∈ wk_subscribers k.

Definition unregistered (w : nat) (s : world) : Prop := ∀ i, workers s !! i ≠ Some w.
(** The subscribers of [w] that are still open are among [l]. *)
Definition open_within (w : nat) (l : list nat) (s : world) : Prop :=
  ∀ j ss, subs s !! j = Some ss → ss_worker ss = w → is_open ss → j ∈ l.

(** A worker that is over: nobody can find it and it has no subscribers. *)
Definition gone (w : nat) (s : world) : Prop :=
  unregistered w s ∧ ∃ k, store s !! w = Some k ∧ wk_subscribers k = ∅.

(** A generation nobody watches and nobody can watch again. *)
Definition dead (g : string) (s : world) : Prop :=
  (g = "" ∨ g ∈ invalidatedGeneration (cache s))
  ∧ ∀ i w k, workers s !! i = Some w → store s !! w = Some k → Generation (wk_key k) ≠ g.

(** [o] is the worker whose goroutine takes the step, if one does. *)
Record kept (o : option nat) (w : nat) (k k' : watchWorker) : Prop := {
  kept_key : wk_key k' = wk_key k;
  kept_canceled : wk_canceled k = true → wk_canceled k' = true;
  kept_returned : sub_closed (wk_cacheSubscription k) = true →
    sub_closed (wk_cacheSubscription k') = true;
  kept_level : o ≠ Some w → wk_snapshotReady k' = wk_snapshotReady k
    ∧ (wk_snapshotReady k = true → level k' = level k) }.

(** A subscriber after the step: as before, or new and up to date. *)
Definition sees (s : world) (k k' : watchWorker) (j : nat) (ss' : subscriber) : Prop :=
  (∃ ss, j ∈ wk_subscribers k ∧ subs s !! j = Some ss ∧ is_open ss
     ∧ view (topic_of k) ss' = view (topic_of k) ss)
  ∨ (wk_snapshotReady k' = true → view (topic_of k) ss' = level k').

Record core (o : option nat) (s s' : world) : Prop := {
  core_store : ∀ w k, store s !! w = Some k → ∃ k', store s' !! w = Some k' ∧ kept o w k k';
  core_subs : ∀ j ss, subs s !! j = Some ss → ∃ ss', subs s' !! j = Some ss'
    ∧ ss_worker ss' = ss_worker ss ∧ (is_open ss' → is_open ss);
  core_view : ∀ w k k' j ss', o ≠ Some w → store s !! w = Some k → store s' !! w = Some k' →
    j ∈ wk_subscribers k' → subs s' !! j = Some ss' → is_open ss' → sees s k k' j ss';
  core_attached : ∀ w, w < length (store s) → o ≠ Some w → attached w s → attached w s';
  core_out : ∀ w, w < length (store s) → unregistered w s →
    unregistered w s' ∧ ∀ l, open_within w l s → open_within w l s';
  core_gone : ∀ w, gone w s → gone w s';
  core_dead : ∀ g, dead g s → dead g s';
  core_generations : invalidatedGeneration (cache s) ⊆ invalidatedGeneration (cache s');
  core_closed : closed s = true → closed s' = true }.

Lemma kept_refl o w k : kept o w k k.
Proof. by split. Qed.

Lemma kept_trans o w k1 k2 k3 : kept o w k1 k2 → kept o w k2 k3 → kept o w k1 k3.
Proof.
  intros [A1 A2 A3 A4] [B1 B2 B3 B4]. split; [congruence|auto|auto|]. intros Ho.
  destruct (A4 Ho) as [R1 L1], (B4 Ho) as [R2 L2]. split; [congruence|]. intros Hr.
  rewrite L2, L1; congruence.
Qed.

Lemma core_length o s s' : core o s s' → length (store s) ≤ length (store s').
Proof.
  intros Hc. destruct (length (store s)) as [|n] eqn:Hn; [lia|].
  destruct (lookup_lt_is_Some_2 (store s) n) as [k Hk]; [lia|].
  destruct (core_store _ _ _ Hc _ _ Hk) as (k' & Hk' & _). apply lookup_lt_Some in Hk'. lia.
Qed.

Lemma core_refl o s : core o s s.
Proof.
  split; [eauto using kept_refl|eauto| |done..]. intros w k k' j ss' _ ?????. simplify_eq.
  left. eauto.
Qed.

Lemma core_trans o s1 s2 s3 : core o s1 s2 → core o s2 s3 → core o s1 s3.
Proof.
  intros A B. pose proof (core_length _ _ _ A) as Hlen. split.
  - intros w k Hk. destruct (core_store _ _ _ A w k Hk) as (k2 & Hk2 & K2).
    destruct (core_store _ _ _ B w k2 Hk2) as (k3 & Hk3 & K3). eauto using kept_trans.
  - intros j ss Hj. destruct (core_subs _ _ _ A j ss Hj) as (s2' & H2 & W2 & O2).
    destruct (core_subs _ _ _ B j s2' H2) as (s3' & H3 & W3 & O3).
    exists s3'. split_and!; [done|congruence|auto].
  - intros w k k3 j ss3 Ho Hk Hk3 Hj Hss3 Hopen.
    destruct (core_store _ _ _ A w k Hk) as (k2 & Hk2 & K2).
    destruct (core_store _ _ _ B w k2 Hk2) as (k3' & Hk3' & K3). simplify_eq.
    assert (topic_of k2 = topic_of k) as Ht by (unfold topic_of; by rewrite (kept_key _ _ _ _ K2)).
    destruct (core_view _ _ _ B w k2 k3 j ss3 Ho Hk2 Hk3 Hj Hss3 Hopen)
      as [(ss2 & Hj2 & Hss2 & Hopen2 & Hv2)|Hnew]; [|right; by rewrite <- Ht].
    rewrite Ht in Hv2. unfold sees. rewrite Hv2.
    destruct (core_view _ _ _ A w k k2 j ss2 Ho Hk Hk2 Hj2 Hss2 Hopen2)
      as [(ss & Hj1 & Hss & Hopen1 & Hv1)|Hnew]; [left; eauto 6|].
    destruct (kept_level _ _ _ _ K3 Ho) as [Hr Hl].
    right. intros Hr3. rewrite Hr in Hr3. rewrite Hl by done. auto.
  - intros w Hw Ho Ha. apply (core_attached _ _ _ B); [lia|done|]. by apply (core_attached _ _ _ A).
  - intros w Hw Hu. destruct (core_out _ _ _ A w Hw Hu) as [Hu2 Hl2].
    destruct (core_out _ _ _ B w ltac:(lia) Hu2) as [Hu3 Hl3]. auto.
  - intros w Hg. by apply (core_gone _ _ _ B), (core_gone _ _ _ A).
  - intros g Hg. by apply (core_dead _ _ _ B), (core_dead _ _ _ A).
  - etrans; [apply (core_generations _ _ _ A)|apply (core_generations _ _ _ B)].
  - intros Hc. by apply (core_closed _ _ _ B), (core_closed _ _ _ A).
Qed.

(** A step that respects every worker respects all but one. *)
Lemma core_any o s s' : core None s s' → core o s s'.
Proof.
  intros Hc. split; try apply Hc; try (intros; by eapply Hc).
  intros w k Hk. destruct (core_store _ _ _ Hc w k Hk) as (k' & Hk' & [? ? ? Hl]).
  exists k'. split; [done|]. split; [done..|]. intros _. by apply Hl.
Qed.

(** ** Primitive changes

    [good o s s']: from a state that satisfies the invariant, [s'] satisfies it too, and
    the change is one worker [o]'s goroutine may make (anyone, if [o] is [None]). *)
Definition good (o : option nat) (s s' : world) : Prop := watch_inv s → watch_inv s' ∧ core o s s'.

Lemma good_refl o s : good o s s.
Proof. intros Hi. split; [done|apply core_refl]. Qed.

Lemma good_trans o s1 s2 s3 : good o s1 s2 → good o s2 s3 → good o s1 s3.
Proof.
  intros A B H1. destruct (A H1) as [H2 C2]. destruct (B H2) as [H3 C3].
  split; [done|by eapply core_trans].
Qed.

Lemma good_any o s s' : good None s s' → good o s s'.
Proof. intros A H1. destruct (A H1). split; [done|by apply core_any]. Qed.

(** *** Everything but workers and subscribers *)

Lemma good_frame s s' :
  store s' = store s → subs s' = subs s → workers s' = workers s → closed s' = closed s →
  cache_step (cache s) (cache s') → good None s s'.
Proof.
  intros Hst Hsu Hwo Hcl Hca [I1 I2 I3 I4 I5 I6 I7]. split.
  - split; rewrite ?Hst, ?Hsu, ?Hwo, ?Hcl; try done; [|by eapply cache_step_wf].
    unfold SnapshotBytes, held_bytes, worker_at in *. by rewrite Hst, Hwo.
  - destruct Hca as [_ Hgen].
    split; unfold sees, attached, open_within, gone, unregistered, dead; rewrite ?Hst, ?Hsu, ?Hwo, ?Hcl; try done.
    + eauto using kept_refl.
    + eauto.
    + intros w k k' j ss' _ Hk Hk' Hj Hss Hop. simplify_eq. left. eauto.
    + intros g [[->|Hg] Hd]; (split; [|done]); [by left|right]. set_solver.
Qed.

(** *** One worker *)

Lemma on_worker_lookup w f s v k' :
  store (on_worker w f s) !! v = Some k' ↔
  ∃ k, store s !! v = Some k ∧ k' = if decide (v = w) then f k else k.
Proof.
  unfold on_worker. simpl. case_decide as Hv.
  - subst. rewrite list_lookup_alter_eq, fmap_Some. naive_solver.
  - rewrite list_lookup_alter_ne by done. naive_solver.
Qed.

Lemma on_worker_length w f s : length (store (on_worker w f s)) = length (store s).
Proof. apply length_alter. Qed.

Lemma map_sum_ext {K} `{Countable K} (f g : nat → Z) (m : gmap K nat) :
  (∀ i v, m !! i = Some v → f v = g v) → map_sum f m = map_sum g m.
Proof.
  induction m as [|i v m Hi IH] using map_ind; intros Hfg; [by rewrite !map_sum_empty|].
  rewrite !map_sum_insert by done. rewrite (Hfg i v) by apply lookup_insert_eq. f_equal.
  apply IH. intros j u Hj. apply (Hfg j). rewrite lookup_insert_ne; [done|congruence].
Qed.

Lemma map_sum_subseteq {K} `{Countable K} (f : nat → Z) (m m' : gmap K nat) :
  m' ⊆ m → (∀ v, 0 ≤ f v)%Z → (map_sum f m' ≤ map_sum f m)%Z.
Proof.
  intros Hsub Hf. rewrite <- (map_difference_union m' m) by done.
  assert (m' ##ₘ m ∖ m') as Hd by (by apply map_disjoint_difference_r1).
  revert Hd. generalize (m ∖ m'). intros d. induction d as [|i v d Hi IH] using map_ind; intros Hd.
  - by rewrite map_union_empty.
  - apply map_disjoint_insert_r in Hd as [Hi' Hd]. rewrite <- insert_union_r by done.
    rewrite map_sum_insert by (apply lookup_union_None; done). specialize (IH Hd). specialize (Hf v). lia.
Qed.

(** Replacing the share of a worker that is registered at most once. *)
Lemma map_sum_replace {K} `{Countable K} (h : nat → Z) (w : nat) (size : Z) (m : gmap K nat) :
  (∀ i j, m !! i = Some w → m !! j = Some w → i = j) → (0 ≤ size)%Z →
  (map_sum (λ v, if decide (v = w) then size else h v) m
   ≤ size + map_sum (λ v, if decide (v = w) then 0 else h v) m)%Z.
Proof.
  intros Huniq Hs. destruct (decide (map_Exists (λ _ v, v = w) m)) as [(i & v & Hi & ->)|Hno].
  - rewrite <- (insert_delete_id m i w Hi). rewrite !map_sum_insert by apply lookup_delete_eq.
    rewrite !decide_True by done. apply Z.add_le_mono_l. rewrite Z.add_0_l. apply Z.eq_le_incl.
    apply map_sum_ext. intros j v [Hij Hj]%lookup_delete_Some. rewrite !decide_False; [done|..];
      intros ->; by apply Hij, Huniq.
  - rewrite (map_sum_ext _ (λ v, if decide (v = w) then 0%Z else h v)); [lia|].
    intros i v Hi. assert (v ≠ w) by (intros ->; apply Hno; by exists i, w). by rewrite !decide_False.
Qed.

Lemma held_nonneg s v : watch_inv s → (0 ≤ held_bytes s v)%Z.
Proof.
  intros Hi. unfold held_bytes, worker_at. destruct (store s !! v) as [k|] eqn:Hk; simpl; [|done].
  destruct (wi_workers _ Hi v k Hk) as [_ _ _ Hr He].
  destruct (wk_snapshotReady k); [destruct (Hr eq_refl) as (_ & -> & _)|by destruct (He eq_refl) as [-> _]].
  apply len_nonneg.
Qed.

Lemma registered_once s w i j :
  watch_inv s → workers s !! i = Some w → workers s !! j = Some w → i = j.
Proof.
  intros Hi H1 H2. destruct (wi_registered _ Hi _ _ H1) as (k1 & Hk1 & <-).
  destruct (wi_registered _ Hi _ _ H2) as (k2 & Hk2 & <-). congruence.
Qed.

(** A change that leaves the level state, the subscribers and the key alone. *)
Definition soft (k k' : watchWorker) : Prop :=
  wk_key k' = wk_key k ∧ wk_subscribers k' = wk_subscribers k
  ∧ wk_snapshot k' = wk_snapshot k ∧ wk_snapshotBytes k' = wk_snapshotBytes k
  ∧ wk_snapshotReady k' = wk_snapshotReady k
  ∧ (wk_canceled k = true → wk_canceled k' = true)
  ∧ (sub_closed (wk_cacheSubscription k) = true → sub_closed (wk_cacheSubscription k') = true).

Lemma good_soft w f s :
  (∀ k, store s !! w = Some k → soft k (f k) ∧ (worker_ok k → worker_ok (f k))) →
  good None s (on_worker w f s).
Proof.
  intros Hf Hi.
  assert (∀ v k, store s !! v = Some k → soft k (if decide (v = w) then f k else k)) as Hsoft.
  { intros v k Hk. case_decide; [|by unfold soft]. subst. by apply Hf. }
  assert (∀ v, held_bytes (on_worker w f s) v = held_bytes s v) as Hheld.
  { intros v. unfold held_bytes, worker_at. destruct (store s !! v) as [k|] eqn:Hk.
    - rewrite (proj2 (on_worker_lookup w f s v _)) by eauto. simpl. by apply Hsoft.
    - assert (store (on_worker w f s) !! v = None) as ->; [|done].
      apply lookup_ge_None. rewrite on_worker_length. by apply lookup_ge_None. }
  split.
  - destruct Hi as [I1 I2 I3 I4 I5 I6 I7]. split; try done.
    + intros v k' (k & Hk & ->)%on_worker_lookup. case_decide; [|by eapply I1]. subst.
      apply Hf; [done|by eapply I1].
    + intros i v Hv. destruct (I2 i v Hv) as (k & Hk & <-). eexists. split; [apply on_worker_lookup; eauto|].
      by destruct (Hsoft v k Hk) as (-> & _).
    + unfold SnapshotBytes. rewrite (map_sum_ext _ (held_bytes s)) by auto. done.
    + intros v k' j (k & Hk & ->)%on_worker_lookup. destruct (Hsoft v k Hk) as (_ & -> & _). by eapply I4.
    + intros j ss Hj. rewrite on_worker_length. by eapply I5.
  - split; try done.
    + intros v k Hk. eexists. split; [apply on_worker_lookup; eauto|].
      destruct (Hsoft v k Hk) as (? & ? & Hsn & ? & ? & ? & ?). split; auto.
      intros _. unfold level. by rewrite Hsn.
    + eauto.
    + intros v k k' j ss' _ Hk (k0 & Hk0 & ->)%on_worker_lookup Hj Hss Hop. simplify_eq.
      destruct (Hsoft v k Hk) as (_ & Hs & _). rewrite Hs in Hj. left. eauto.
    + intros v Hv _ Ha j ss Hj Hw Hop. destruct (Ha j ss Hj Hw Hop) as (k & Hk & Hin).
      eexists. split; [apply on_worker_lookup; eauto|]. by destruct (Hsoft v k Hk) as (_ & -> & _).
    + intros v (Hu & k & Hk & Hsub). split; [done|]. eexists.
      split; [apply on_worker_lookup; eauto|]. by destruct (Hsoft v k Hk) as (_ & -> & _).
    + intros g [Hg Hd]. split; [done|]. intros i v k' Hv (k & Hk & ->)%on_worker_lookup.
      destruct (Hsoft v k Hk) as (-> & _). by eapply Hd.
Qed.

(** *** The level state, by the worker's own goroutine *)

Lemma worker_at_lookup w s k : store s !! w = Some k → worker_at w s = k.
Proof. unfold worker_at. by intros ->. Qed.

Lemma held_on_worker w f s v :
  w < length (store s) →
  held_bytes (on_worker w f s) v
  = if decide (v = w) then wk_snapshotBytes (f (worker_at w s)) else held_bytes s v.
Proof.
  intros Hw. unfold held_bytes, worker_at, on_worker. simpl. case_decide as Hv.
  - subst. rewrite list_lookup_alter_eq. destruct (lookup_lt_is_Some_2 _ _ Hw) as [k ->]. done.
  - by rewrite list_lookup_alter_ne.
Qed.

Lemma fits_budget w f s :
  watch_inv s → w < length (store s) →
  (0 ≤ wk_snapshotBytes (f (worker_at w s)))%Z →
  snapshotFitsLocked cfg w (wk_snapshotBytes (f (worker_at w s))) s = true →
  (SnapshotBytes (on_worker w f s) ≤ snapshot_limit)%Z.
Proof.
  intros Hi Hw Hpos Hfit. unfold snapshotFitsLocked in Hfit. bool_to_prop.
  fold snapshot_limit in Hfit. etrans; [|exact Hfit]. unfold SnapshotBytes.
  rewrite (map_sum_ext (held_bytes (on_worker w f s))
    (λ v, if decide (v = w) then wk_snapshotBytes (f (worker_at w s)) else held_bytes s v))
    by (intros; by apply held_on_worker).
  apply map_sum_replace; [|done]. intros i j. by apply registered_once.
Qed.

Lemma shrink_budget w f s :
  watch_inv s → w < length (store s) →
  (wk_snapshotBytes (f (worker_at w s)) ≤ held_bytes s w)%Z →
  (SnapshotBytes (on_worker w f s) ≤ snapshot_limit)%Z.
Proof.
  intros Hi Hw Hle. etrans; [|apply (wi_budget _ Hi)]. unfold SnapshotBytes.
  change (workers (on_worker w f s)) with (workers s). induction (workers s) as [|i v m Hv IH] using map_ind; [by rewrite !map_sum_empty|].
  rewrite !map_sum_insert by done. rewrite held_on_worker by done. case_decide; subst; lia.
Qed.

(** What only the owner changes: the snapshot; not the key, the subscribers, the context. *)
Definition rigid (k k' : watchWorker) : Prop :=
  wk_key k' = wk_key k ∧ wk_subscribers k' = wk_subscribers k
  ∧ wk_canceled k' = wk_canceled k ∧ wk_cacheSubscription k' = wk_cacheSubscription k.

Lemma good_owner w f s :
  (∀ k, store s !! w = Some k → rigid k (f k) ∧ (worker_ok k → worker_ok (f k))) →
  (watch_inv s → (SnapshotBytes (on_worker w f s) ≤ snapshot_limit)%Z) →
  good (Some w) s (on_worker w f s).
Proof.
  intros Hf Hb Hi.
  assert (∀ v k, store s !! v = Some k → rigid k (if decide (v = w) then f k else k)) as Hr.
  { intros v k Hk. case_decide; [|by unfold rigid]. subst. by apply Hf. }
  specialize (Hb Hi). split.
  - destruct Hi as [I1 I2 I3 I4 I5 I6 I7]. split; try done.
    + intros v k' (k & Hk & ->)%on_worker_lookup. case_decide; [|by eapply I1]. subst.
      apply Hf; [done|by eapply I1].
    + intros i v Hv. destruct (I2 i v Hv) as (k & Hk & <-). eexists. split; [apply on_worker_lookup; eauto|].
      by destruct (Hr v k Hk) as (-> & _).
    + intros v k' j (k & Hk & ->)%on_worker_lookup. destruct (Hr v k Hk) as (_ & -> & _). by eapply I4.
    + intros j ss Hj. rewrite on_worker_length. by eapply I5.
  - split; try done.
    + intros v k Hk. eexists. split; [apply on_worker_lookup; eauto|].
      destruct (Hr v k Hk) as (? & ? & Hc & Hs). split; [done|by rewrite Hc|by rewrite Hs|].
      intros Hv. rewrite decide_False by congruence. done.
    + eauto.
    + intros v k k' j ss' Hv Hk (k0 & Hk0 & ->)%on_worker_lookup Hj Hss Hop. simplify_eq.
      destruct (Hr v k Hk) as (_ & Hs & _). rewrite Hs in Hj. left. eauto.
    + intros v Hv _ Ha j ss Hj Hw Hop. destruct (Ha j ss Hj Hw Hop) as (k & Hk & Hin).
      eexists. split; [apply on_worker_lookup; eauto|]. by destruct (Hr v k Hk) as (_ & -> & _).
    + intros v (Hu & k & Hk & Hsub). split; [done|]. eexists.
      split; [apply on_worker_lookup; eauto|]. by destruct (Hr v k Hk) as (_ & -> & _).
    + intros g [Hg Hd]. split; [done|]. intros i v k' Hv (k & Hk & ->)%on_worker_lookup.
      destruct (Hr v k Hk) as (-> & _). by eapply Hd.
Qed.

(** *** One subscriber's queue *)

Lemma alter_sub_lookup (f : subscriber → subscriber) j (l : list subscriber) i ss' :
  alter f j l !! i = Some ss' ↔ ∃ ss, l !! i = Some ss ∧ ss' = if decide (i = j) then f ss else ss.
Proof.
  case_decide as Hi.
  - subst. rewrite list_lookup_alter_eq, fmap_Some. naive_solver.
  - rewrite list_lookup_alter_ne by done. naive_solver.
Qed.

Lemma good_queue o j f s :
  (∀ ss, subs s !! j = Some ss →
     ss_worker (f ss) = ss_worker ss ∧ (is_open (f ss) → is_open ss)
     ∧ (Forall (λ q, topic_clean (q_event q)) (queue (ss_queue ss)) →
        Forall (λ q, topic_clean (q_event q)) (queue (ss_queue (f ss))))
     ∧ (o ≠ Some (ss_worker ss) → is_open (f ss) → ∀ k, store s !! ss_worker ss = Some k →
        view (topic_of k) (f ss) = view (topic_of k) ss)) →
  good o s (with_subs (alter f j (subs s)) s).
Proof.
  intros Hf Hi. split.
  - destruct Hi as [I1 I2 I3 I4 I5 I6 I7]. split; try done.
    + intros w k i Hk Hin. destruct (I4 w k i Hk Hin) as (ss & Hss & Hw). eexists.
      split; [apply alter_sub_lookup; eauto|]. case_decide; [|done]. subst.
      by destruct (Hf ss Hss) as (-> & _).
    + intros i ss' (ss & Hss & ->)%alter_sub_lookup. destruct (I5 i ss Hss) as [Hl Hcl].
      case_decide; [|done]. subst. destruct (Hf ss Hss) as (-> & _ & Hq & _). auto.
  - split; try done; simpl.
    + eauto using kept_refl.
    + intros i ss Hss. eexists. split; [apply alter_sub_lookup; eauto|]. case_decide; [|done].
      subst. by destruct (Hf ss Hss) as (-> & ? & _).
    + intros w k k' i ss' Ho Hk Hk' Hin (ss & Hss & ->)%alter_sub_lookup Hop. simplify_eq.
      destruct (wi_members _ Hi w _ i Hk Hin) as (ss0 & Hss0 & Hw). simplify_eq. left. exists ss.
      case_decide; [|done]. subst. destruct (Hf ss Hss) as (_ & Hop' & _ & Hv). auto.
    + intros w _ _ Ha i ss' (ss & Hss & ->)%alter_sub_lookup. case_decide; [|by eapply Ha].
      subst. destruct (Hf ss Hss) as (-> & Hop & _). intros Hw Ho. eapply Ha; eauto.
    + intros w _ Hu. split; [done|]. intros l Hl i ss' (ss & Hss & ->)%alter_sub_lookup.
      case_decide; [|by eapply Hl]. subst. destruct (Hf ss Hss) as (-> & Hop & _). eauto.
Qed.

(** *** Leaving *)

Lemma good_members o w X s :
  (∀ k, store s !! w = Some k → X ⊆ wk_subscribers k) →
  (o = Some w ∨ ∀ j ss k, subs s !! j = Some ss → ss_worker ss = w → is_open ss →
     store s !! w = Some k → j ∈ wk_subscribers k → j ∈ X) →
  good o s (on_worker w (set_subscribers X) s).
Proof.
  intros HX Hopen Hi.
  assert (∀ v, held_bytes (on_worker w (set_subscribers X) s) v = held_bytes s v) as Hheld.
  { intros v. destruct (decide (w < length (store s))) as [Hw|Hw].
    - rewrite held_on_worker by done. case_decide; [|done]. by subst.
    - unfold held_bytes, worker_at, on_worker. simpl. destruct (decide (v = w)); subst.
      + rewrite list_lookup_alter_eq. by rewrite (proj2 (lookup_ge_None (store s) w)) by lia.
      + by rewrite list_lookup_alter_ne. }
  split.
  - destruct Hi as [I1 I2 I3 I4 I5 I6 I7]. split; try done.
    + intros v k' (k & Hk & ->)%on_worker_lookup. case_decide; [|by eapply I1].
      destruct (I1 v k Hk). by split.
    + intros i v Hv. destruct (I2 i v Hv) as (k & Hk & <-). eexists. split; [apply on_worker_lookup; eauto|].
      by case_decide.
    + unfold SnapshotBytes. rewrite (map_sum_ext _ (held_bytes s)) by auto. done.
    + intros v k' j (k & Hk & ->)%on_worker_lookup Hj. apply (I4 v k j Hk).
      case_decide; [|done]. subst. by apply (HX k Hk).
    + intros j ss Hj. rewrite on_worker_length. by eapply I5.
  - split; try done.
    + intros v k Hk. eexists. split; [apply on_worker_lookup; eauto|]. case_decide; by split.
    + eauto.
    + intros v k k' j ss' _ Hk (k0 & Hk0 & ->)%on_worker_lookup Hj Hss Hop. simplify_eq. left.
      exists ss'. split_and!; try done. case_decide; [|done]. subst. by apply (HX k Hk).
    + intros v _ Ho Ha j ss Hj Hw Hop. destruct (Ha j ss Hj Hw Hop) as (k & Hk & Hin).
      eexists. split; [apply on_worker_lookup; eauto|]. case_decide; [|done]. subst.
      destruct Hopen as [->|Hopen]; [done|]. simpl. by eapply Hopen.
    + intros v (Hu & k & Hk & Hsub). split; [done|]. eexists.
      split; [apply on_worker_lookup; eauto|]. case_decide; [|done]. subst. simpl.
      specialize (HX k Hk). set_solver.
    + intros g [Hg Hd]. split; [done|]. intros i v k' Hv (k & Hk & ->)%on_worker_lookup.
      case_decide; by apply (Hd i v k).
Qed.

Lemma good_unregister m s : m ⊆ workers s → good None s (with_workers m s).
Proof.
  intros Hm Hi. assert (∀ i w, m !! i = Some w → workers s !! i = Some w) as Hsub
    by (intros; by eapply lookup_weaken). split.
  - destruct Hi as [I1 I2 I3 I4 I5 I6 I7]. split; try done; simpl; eauto.
    + unfold SnapshotBytes. simpl. change (held_bytes (with_workers m s)) with (held_bytes s).
      etrans; [|exact I3]. apply map_sum_subseteq; [done|]. intros v. by apply held_nonneg.
    + intros Hc. apply map_eq. intros i. rewrite lookup_empty. destruct (m !! i) eqn:Hj; [|done].
      apply Hsub in Hj. by rewrite (I6 Hc) in Hj.
  - split; try done; simpl; eauto using kept_refl.
    + intros w k k' j ss' _ Hk Hk' Hj Hss Hop. simplify_eq. left. eauto.
    + intros w _ Hu. split; [|done]. intros i Hw%Hsub. by eapply Hu.
    + intros w (Hu & Hk). split; [|done]. intros i Hw%Hsub. by eapply Hu.
    + intros g [Hg Hd]. split; [done|]. intros i w k Hw%Hsub. by eapply Hd.
Qed.

(** *** Creating and joining *)

Lemma good_orphan k c s :
  worker_ok k → wk_subscribers k = ∅ → cache_step (cache s) c →
  good None s (with_store (store s ++ [k]) (with_cache c s)).
Proof.
  intros Hk Hnone Hc Hi.
  assert (∀ v, v < length (store s) → (store s ++ [k]) !! v = store s !! v) as Hold
    by (intros; by apply lookup_app_l).
  assert (∀ i v, workers s !! i = Some v → v < length (store s)) as Hreg.
  { intros i v Hv. destruct (wi_registered _ Hi i v Hv) as (k' & Hk' & _). by eapply lookup_lt_Some. }
  assert (∀ v k', (store s ++ [k]) !! v = Some k' → store s !! v = Some k' ∨ k' = k) as Hinv.
  { intros v k' [?|[_ [_ ->]%list_lookup_singleton_Some]]%lookup_app_Some; auto. }
  split.
  - destruct Hi as [I1 I2 I3 I4 I5 I6 I7]. split; try done; simpl.
    + intros v k' [Hv| ->]%Hinv; [by eapply I1|done].
    + intros i v Hv. destruct (I2 i v Hv) as (k' & Hk' & Heq). exists k'. split; [|done].
      rewrite Hold by eauto. done.
    + unfold SnapshotBytes in *. simpl. rewrite (map_sum_ext _ (held_bytes s)); [done|].
      intros i v Hv. unfold held_bytes, worker_at. simpl. rewrite Hold by eauto. done.
    + intros v k' j [Hv| ->]%Hinv Hj; [by eapply I4|]. rewrite Hnone in Hj. set_solver.
    + intros j ss Hj. rewrite length_app. destruct (I5 j ss Hj). split; [simpl; lia|done].
    + by eapply cache_step_wf.
  - split; try done; simpl; try apply Hc.
    + intros v k' Hk'. exists k'. split; [by apply lookup_app_l_Some|apply kept_refl].
    + eauto.
    + intros v k0 k' j ss' _ Hk0 Hk' Hj Hss Hop.
      rewrite Hold in Hk' by (by eapply lookup_lt_Some). simplify_eq. left. eauto.
    + intros v Hv _ Ha j ss Hj Hw Hop. destruct (Ha j ss Hj Hw Hop) as (k' & Hk' & Hin).
      exists k'. simpl. by rewrite Hold.
    + intros v (Hu & k' & Hk' & Hrest). split; [done|]. exists k'. split; [|done].
      simpl. by apply lookup_app_l_Some.
    + intros g [Hg Hd]. split; [destruct Hc as [_ Hc]; set_solver|]. intros i v k' Hv Hk'.
      simpl in *. rewrite Hold in Hk' by eauto. by eapply Hd.
Qed.

Lemma good_register k c s (w := length (store s)) (i := WatchKey_identity (wk_key k)) :
  worker_ok k → wk_subscribers k = ∅ → closed s = false →
  workers s !! i = None → cache_step (cache s) c →
  Generation (wk_key k) ∉ invalidatedGeneration (cache s) →
  (wk_snapshotBytes k + SnapshotBytes s ≤ snapshot_limit)%Z →
  good None s (with_workers (<[i := w]> (workers s)) (with_store (store s ++ [k]) (with_cache c s))).
Proof.
  intros Hk Hnone Hclosed Hfree Hc Hgen Hfit Hi.
  destruct (good_orphan k c s Hk Hnone Hc Hi) as [[I1 I2 I3 I4 I5 I6 I7] [C1 C2 C3 C4 C5 C6 C7 C8 C9]].
  assert ((store s ++ [k]) !! w = Some k) as Hlast by (by apply list_lookup_middle).
  assert (∀ v, unregistered v s → v < length (store s) →
    ∀ j, <[i:=w]> (workers s) !! j ≠ Some v) as Hun.
  { intros v Hu Hv j [[_ Hj]|[_ Hj]]%lookup_insert_Some; [subst w; lia|by eapply Hu]. }
  split.
  - split; try done; simpl in *.
    + intros j v [[<- <-]|[_ Hv]]%lookup_insert_Some; eauto.
    + unfold SnapshotBytes. simpl. rewrite map_sum_insert by done.
      unfold held_bytes at 1, worker_at at 1. cbn [store with_workers with_store with_cache].
      rewrite Hlast. simpl. unfold SnapshotBytes in Hfit. rewrite (map_sum_ext _ (held_bytes s)); [done|].
      intros j v Hv. unfold held_bytes, worker_at. simpl.
      destruct (wi_registered _ Hi j v Hv) as (k' & Hk' & _).
      by rewrite lookup_app_l by (by eapply lookup_lt_Some).
    + congruence.
  - split; try done; simpl in *.
    + intros v Hv Hu. destruct (C5 v Hv Hu) as [_ Hl]. split; [|done]. intros j. by apply Hun.
    + intros v Hg. destruct (C6 v Hg) as (_ & Hrest). destruct Hg as (Hu & k' & Hk' & _).
      split; [|done]. intros j. apply Hun; [done|by eapply lookup_lt_Some].
    + intros g [Hg Hd]. destruct (C7 g (conj Hg Hd)) as [Hg' Hd']. split; [done|]. simpl in *.
      intros j v k' [[<- <-]|[_ Hv]]%lookup_insert_Some Hk'; [|by eapply Hd'].
      rewrite Hlast in Hk'. simplify_eq. intros <-.
      destruct Hg as [Hg|Hg]; [by apply (wo_generation _ Hk)|done].
Qed.

Lemma good_join w i k ss s (j := length (subs s)) :
  store s !! w = Some k → workers s !! i = Some w → ss_worker ss = w →
  Forall (λ q, topic_clean (q_event q)) (queue (ss_queue ss)) →
  (is_open ss → wk_snapshotReady k = true → view (topic_of k) ss = level k) →
  good None s (on_worker w (λ k, set_subscribers (wk_subscribers k ∪ {[j]}) k)
                 (with_subs (subs s ++ [ss]) s)).
Proof.
  intros Hk Hreg Hw Hq Hview Hi.
  assert (∀ v, held_bytes (on_worker w (λ k, set_subscribers (wk_subscribers k ∪ {[j]}) k)
                 (with_subs (subs s ++ [ss]) s)) v = held_bytes s v) as Hheld.
  { intros v. rewrite held_on_worker by (by eapply lookup_lt_Some). case_decide; [|done]. by subst. }
  assert (∀ n, n < length (subs s) → (subs s ++ [ss]) !! n = subs s !! n) as Hold
    by (intros; by apply lookup_app_l).
  assert ((subs s ++ [ss]) !! j = Some ss) as Hnew by (by apply list_lookup_middle).
  assert (∀ n x, (subs s ++ [ss]) !! n = Some x → subs s !! n = Some x ∨ n = j ∧ x = ss) as Hinv.
  { intros n x [?|[Hge [Hn ->]%list_lookup_singleton_Some]]%lookup_app_Some; [by left|right; subst j; split; [lia|done]]. }
  split.
  - destruct Hi as [I1 I2 I3 I4 I5 I6 I7]. split; try done.
    + intros v k' (k0 & Hk0 & ->)%on_worker_lookup. case_decide; [|by eapply I1].
      destruct (I1 v k0 Hk0). by split.
    + intros i' v Hv. destruct (I2 i' v Hv) as (k0 & Hk0 & <-). eexists.
      split; [apply on_worker_lookup; eauto|]. by case_decide.
    + unfold SnapshotBytes. rewrite (map_sum_ext _ (held_bytes s)) by auto. done.
    + intros v k' n (k0 & Hk0 & ->)%on_worker_lookup Hn. cbn [subs on_worker with_store with_subs] in *.
      assert (n ∈ wk_subscribers k0 ∨ v = w ∧ n = j) as [Hn'|[-> ->]].
      { case_decide; [|by left]. simpl in Hn. set_solver. }
      * destruct (I4 v k0 n Hk0 Hn') as (x & Hx & Hxw). exists x. split; [by apply lookup_app_l_Some|done].
      * eauto.
    + intros n x [Hx|[-> ->]]%Hinv; rewrite on_worker_length; [by eapply I5|].
      split; [|done]. rewrite Hw. by eapply lookup_lt_Some.
  - split; try done.
    + intros v k0 Hk0. eexists. split; [apply on_worker_lookup; eauto|].
      case_decide; (split; try done; by intros _).
    + intros n x Hx. exists x. split; [|done]. simpl. by apply lookup_app_l_Some.
    + intros v k0 k' n x _ Hk0 (k1 & Hk1 & ->)%on_worker_lookup Hn [Hx|[-> ->]]%Hinv Hop;
        cbn [store with_subs] in Hk1; simplify_eq.
      * left. exists x. split_and!; try done. case_decide; [|done]. simpl in Hn.
        apply elem_of_union in Hn as [Hn|Hn%elem_of_singleton]; [done|].
        apply lookup_lt_Some in Hx. subst j. lia.
      * right. case_decide; [subst; simplify_eq; exact (Hview Hop)|].
        destruct (wi_members _ Hi v _ j Hk0 Hn) as (y & Hy & _). apply lookup_lt_Some in Hy. subst j. lia.
    + intros v _ _ Ha n x [Hx|[-> ->]]%Hinv Hxw Hop.
      * destruct (Ha n x Hx Hxw Hop) as (k0 & Hk0 & Hn). eexists.
        split; [apply on_worker_lookup; eauto|]. case_decide; [simpl; set_solver|done].
      * exists (set_subscribers (wk_subscribers k ∪ {[j]}) k). simplify_eq. split; [|simpl; set_solver].
        apply on_worker_lookup. exists k. by rewrite decide_True.
    + intros v _ Hu. split; [done|]. intros l Hl n x [Hx|[-> ->]]%Hinv Hxw Hop; [by eapply Hl|].
      simplify_eq. by destruct (Hu i).
    + intros v (Hu & k0 & Hk0 & Hrest). split; [done|]. exists k0. split; [|done].
      apply on_worker_lookup. exists k0. split; [done|]. rewrite decide_False; [done|].
      intros ->. by destruct (Hu i).
    + intros g [Hg Hd]. split; [done|]. intros i' v k' Hv (k0 & Hk0 & ->)%on_worker_lookup.
      case_decide; by apply (Hd i' v k0).
Qed.
End invariant.
