(* ===== verification/WatchSafety.v ===== *)
(** * WatchSafety: the watch manager under every interleaving

    The proof that the programs of the file Watch keep the invariant and the promises of
    the file WatchInvariant whichever way goroutines, timers, callers, consumers and the
    cluster interleave. The theorems: retained snapshots stay within the memory budget,
    every open subscriber of a worker that is waiting for its environment knows exactly the
    worker's objects, a canceled generation is never watched again, and a finished worker
    leaves nothing behind. *)
From Stdlib Require Import Ascii String ZArith Lia.
From stdpp Require Import base gmap strings list fin_maps.
From S2P Require Import Prelude Json Topics Cache CacheInvariant Snapshot Queue Cursor Threads Watch.
From S2P Require Import WatchInvariant.

(** ** The system *)

Definition goroutine_owner (g : goroutine) : option nat :=
  match g with GoRun w => Some w | _ => None end.

(** The calls into the package; the other goroutines are started by it. *)
Definition call_ok (g : goroutine) : Prop :=
  match g with
  | CallSubscribe key => key_clean key
  | CallUnsubscribe _ | CallCancelGeneration _ | CallClose | CallEvictIdle => True
  | GoRun _ | GoWatchContext _ _ | GoStopIfIdle _ => False
  end.

(** What is assumed of the cluster: a LIST, and the initial events of a streaming list,
    name every object once; objects have an encoding. *)
Definition answer_ok (q : question) (a : answer) : Prop :=
  match q, a with
  | QList _, Listed (Ok snap) => items_wf (Items snap)
  | QSync _ items, Changed ch =>
    EqualFold (ch_Type ch) "ADDED" = true → items_wf (items ++ [ch_Object ch])
  | QStream _, Changed ch => (0 < len (object_json (ch_Object ch)))%Z
  | _, _ => True
  end.

Section safety.
Context `{GVRPrinter} (cfg : WatchManagerConfig) (arrange : list candidate → list candidate)
        (order : list nat → list nat) (format_time : Z → string).
Context (order_perm : ∀ l, order l ≡ₚ l).

Definition watch_system : @system world question answer goroutine env_event point call_result := {|
  ready := answerable (port_progressive cfg);
  code := goroutine_code cfg arrange order;
  enter := enter_point cfg arrange order format_time;
  env := env_apply;
  born := λ s s', drop (length (spawned s)) (spawned s');
  owner := goroutine_owner;
  caller := λ _, None;
  count := λ s, length (store s);
  callable := call_ok;
  env_ok := answer_ok |}.

(** ** Assertions *)

(** Subscriber [j] of [w] shows the worker's objects once [due j] arrived as well; [p] is
    all that is pending. *)
Definition owed (w : nat) (due : nat → list StreamEvent) (p : list StreamEvent) (s : world) : Prop :=
  ∃ k, store s !! w = Some k ∧ attached w s
    ∧ (wk_snapshotReady k = true →
       settles (topic_of k) (level k) p
       ∧ ∀ j ss, j ∈ wk_subscribers k → subs s !! j = Some ss → is_open ss →
           consume (topic_of k) (view (topic_of k) ss) (due j) = level k).

Abbreviation settled w := (owed w (λ _, []) []).

Definition worker_returned (w : nat) (s : world) : Prop :=
  ∃ k, store s !! w = Some k ∧ wk_canceled k = true ∧ sub_closed (wk_cacheSubscription k) = true.

Definition point_worker (h : point) : nat :=
  match h with AtSync w _ _ | AtList w _ _ | AtConnect w _ _ | AtStream w _ _ => w end.
Definition point_ok (h : point) : Prop :=
  match h with AtSync _ items _ => items_wf items | _ => True end.

Definition born_ok (s s' : world) : Prop :=
  NoDup (omap goroutine_owner (born watch_system s s'))
  ∧ ∀ w, w ∈ omap goroutine_owner (born watch_system s s') → length (store s) ≤ w < length (store s').

Definition watch_spec : @spec world question goroutine point call_result := {|
  invariant := watch_inv cfg;
  trans := λ u s s', core (u ≫= goroutine_owner) s s' ∧ born_ok s s';
  quiet := λ t _ s, match t with GoRun w => settled w s | _ => True end;
  pre := λ t s, match t with
                | GoRun w => settled w s
                | CallSubscribe key => key_clean key
                | _ => True
                end;
  at_head := λ t h s, match t with
                      | GoRun w => settled w s ∧ point_worker h = w ∧ point_ok h
                      | _ => False
                      end;
  post := λ t _ s, match t with
                   | GoRun w => gone w s ∧ open_within w [] s ∧ worker_returned w s
                   | CallCancelGeneration g => dead g s
                   | CallClose => closed s = true
                   | _ => True
                   end;
  unused := λ _ _, True |}.

Abbreviation stable := (stable watch_system watch_spec).
Abbreviation safe := (safe watch_system watch_spec).
Abbreviation step_ok := (step_ok watch_system watch_spec).

(** Facts that no step takes back. *)
Definition mono (P : world → Prop) : Prop := ∀ o s s', core o s s' → P s → P s'.

Lemma mono_stable t P : mono P → stable t P.
Proof. intros HP u s s' _ _ [Hc _]. by eapply HP. Qed.

Lemma stable_and t (P Q : world → Prop) : stable t P → stable t Q → stable t (λ s, P s ∧ Q s).
Proof. intros HP HQ u s s' Hu Hi Ht [? ?]. split; [by eapply HP|by eapply HQ]. Qed.

Lemma mono_and P Q : mono P → mono Q → mono (λ s, P s ∧ Q s).
Proof. intros HP HQ o s s' Hc [? ?]. split; [by eapply HP|by eapply HQ]. Qed.

Lemma mono_pure (P : Prop) : mono (λ _, P).
Proof. by intros ????. Qed.

Definition key_is (w : nat) (key : WatchKey) (s : world) : Prop :=
  ∃ k, store s !! w = Some k ∧ wk_key k = key.
Definition known (w : nat) (s : world) : Prop := is_Some (store s !! w).
Definition closed_sub (j : nat) (s : world) : Prop := ∃ ss, subs s !! j = Some ss ∧ ¬ is_open ss.
Definition member_of (w j : nat) (s : world) : Prop := ∃ ss, subs s !! j = Some ss ∧ ss_worker ss = w.
Definition canceled (w : nat) (s : world) : Prop :=
  ∃ k, store s !! w = Some k ∧ wk_canceled k = true.
(** Out of the map, with the open subscribers among [l]. *)
Definition leaving (w : nat) (l : list nat) (s : world) : Prop :=
  known w s ∧ unregistered w s ∧ open_within w l s.

Lemma key_is_mono w key : mono (key_is w key).
Proof.
  intros o s s' Hc (k & Hk & <-). destruct (core_store _ _ _ Hc _ _ Hk) as (k' & Hk' & [Hkey _ _ _]).
  exists k'. by rewrite Hkey.
Qed.
Lemma known_mono w : mono (known w).
Proof. intros o s s' Hc [k Hk]. destruct (core_store _ _ _ Hc _ _ Hk) as (k' & Hk' & _). by exists k'. Qed.
Lemma closed_sub_mono j : mono (closed_sub j).
Proof.
  intros o s s' Hc (ss & Hss & Hop). destruct (core_subs _ _ _ Hc _ _ Hss) as (ss' & Hss' & _ & Ho).
  exists ss'. naive_solver.
Qed.
Lemma member_of_mono w j : mono (member_of w j).
Proof.
  intros o s s' Hc (ss & Hss & <-). destruct (core_subs _ _ _ Hc _ _ Hss) as (ss' & Hss' & Hw & _).
  by exists ss'.
Qed.
Lemma canceled_mono w : mono (canceled w).
Proof.
  intros o s s' Hc (k & Hk & Hx). destruct (core_store _ _ _ Hc _ _ Hk) as (k' & Hk' & [_ ? _ _]).
  exists k'. auto.
Qed.
Lemma returned_mono w : mono (worker_returned w).
Proof.
  intros o s s' Hc (k & Hk & Hx & Hy). destruct (core_store _ _ _ Hc _ _ Hk) as (k' & Hk' & [_ ? ? _]).
  exists k'. auto.
Qed.
Lemma leaving_mono w l : mono (leaving w l).
Proof.
  intros o s s' Hc (Hk & Hu & Hl). destruct Hk as [k Hk].
  destruct (core_out _ _ _ Hc w (lookup_lt_Some _ _ _ Hk) Hu) as [? ?].
  split_and!; [|done|auto]. by apply (known_mono w _ _ _ Hc); exists k.
Qed.
Lemma gone_mono w : mono (gone w).
Proof. intros o s s' Hc. apply (core_gone _ _ _ Hc). Qed.
Lemma dead_mono g : mono (dead g).
Proof. intros o s s' Hc. apply (core_dead _ _ _ Hc). Qed.
Lemma closed_mono : mono (λ s, closed s = true).
Proof. intros o s s' Hc. apply (core_closed _ _ _ Hc). Qed.

#[local] Hint Resolve mono_stable mono_and mono_pure stable_and key_is_mono known_mono closed_sub_mono
  member_of_mono canceled_mono returned_mono leaving_mono gone_mono dead_mono closed_mono : watch.

(** Steps of others do not change what a worker owes. *)
Lemma owed_core w due p o s s' :
  (∀ j, due j `suffix_of` p) → o ≠ Some w → core o s s' → owed w due p s → owed w due p s'.
Proof.
  intros Hdue Ho Hc (k & Hk & Ha & Hv).
  destruct (core_store _ _ _ Hc _ _ Hk) as (k' & Hk' & Kk).
  destruct (kept_level _ _ _ _ Kk Ho) as [Hr Hl]. exists k'.
  assert (topic_of k' = topic_of k) as Ht by (unfold topic_of; by rewrite (kept_key _ _ _ _ Kk)).
  split_and!; [done|apply (core_attached _ _ _ Hc); [by eapply lookup_lt_Some|done..]|].
  intros Hready. rewrite Hr in Hready. destruct (Hv Hready) as [Hset Hsubs]. rewrite Ht, (Hl Hready).
  split; [done|]. intros j ss' Hj Hss' Hop.
  destruct (core_view _ _ _ Hc w k k' j ss' Ho Hk Hk' Hj Hss' Hop)
    as [(ss & Hj0 & Hss & Hop0 & ->)|Hnew]; [by eapply Hsubs|].
  rewrite Hnew, (Hl Hready) by (by rewrite Hr). by apply Hset.
Qed.

Lemma owed_stable w due p : (∀ j, due j `suffix_of` p) → stable (GoRun w) (owed w due p).
Proof.
  intros Hdue u s s' Hu Hi [Hc _]. apply (owed_core _ _ _ (u ≫= goroutine_owner)); [done| |done].
  destruct u as [u|]; simpl; [|done]. by apply (proj1 Hu w).
Qed.

Lemma settled_stable w : stable (GoRun w) (settled w).
Proof. by apply owed_stable. Qed.

Lemma pending_stable w p : stable (GoRun w) (owed w (λ _, p) p).
Proof. by apply owed_stable. Qed.
#[local] Hint Resolve settled_stable pending_stable : watch.

(** ** Calm programs

    Steps that anyone may take: they keep every stable assertion of the goroutine that
    takes them. [C] is what they need, [R] what their result satisfies. *)

Lemma calm_step t s s' :
  watch_inv cfg s → good cfg None s s' → spawned s' = spawned s →
  step_ok (Some t) s s' ∧ ∀ L, stable t L → L s → L s'.
Proof.
  intros Hi Hg Hsp. destruct (Hg Hi) as [Hi' Hc].
  assert (born watch_system s s' = []) as Hb by (simpl; by rewrite Hsp, drop_all).
  assert (born_ok s s') as Hborn.
  { unfold born_ok. rewrite Hb. split; [constructor|]. intros w Hw. set_solver. }
  split.
  - split_and!; [done| |by rewrite Hb]. split; [by apply core_any|done].
  - intros L HL. apply (HL None); [done|done|]. by split.
Qed.

Definition calm {A} (C : world → Prop) (p : program A) (R : A → Prop) : Prop :=
  ∀ t L, stable t L → (∀ s, watch_inv cfg s → L s → C s) → safe t L p (λ a s, L s ∧ R a).

Definition any {A} (_ : A) : Prop := True.

Lemma calm_atomically {A} (C : world → Prop) (f : world → A * world) (R : A → Prop) :
  (∀ s, watch_inv cfg s → C s →
     good cfg None s (f s).2 ∧ spawned (f s).2 = spawned s ∧ R (f s).1) →
  calm C (atomically f) R.
Proof.
  intros Hf t L HL HC. apply safe_atomically.
  { intros a. apply stable_and; [done|]. apply mono_stable, mono_pure. }
  intros s Hi HLs. destruct (Hf s Hi (HC s Hi HLs)) as (Hg & Hsp & HR).
  destruct (calm_step t s (f s).2 Hi Hg Hsp) as [Hok HL'].
  split_and!; [done|by apply HL'|done].
Qed.

Lemma calm_modify (C : world → Prop) (f : world → world) :
  (∀ s, watch_inv cfg s → C s → good cfg None s (f s) ∧ spawned (f s) = spawned s) →
  calm C (modify f) any.
Proof.
  intros Hf t L HL HC. eapply safe_post; [|apply (safe_modify _ _ _ _ _ L HL)].
  - by intros [] s _ HLs.
  - intros s Hi HLs. destruct (Hf s Hi (HC s Hi HLs)) as (Hg & Hsp).
    destruct (calm_step t s (f s) Hi Hg Hsp) as [Hok HL']. split; [done|by apply HL'].
Qed.

Lemma calm_look {A} (C : world → Prop) (f : world → A) (R : A → Prop) :
  (∀ s, watch_inv cfg s → C s → R (f s)) → calm C (look f) R.
Proof.
  intros Hf t L HL HC s Hi HLs. destruct (calm_step t s s Hi (good_refl cfg None s) eq_refl) as [Hok _].
  split; [done|]. exists L. split_and!; [done..|]. intros s' _ HL'. split; [done|]. apply Hf; auto.
Qed.

Lemma calm_ret {A} (C : world → Prop) (a : A) (R : A → Prop) : R a → calm C (mret a) R.
Proof. by intros HR t L _ _ s _ HLs. Qed.

Lemma safe_calm_bind {A B} t L C (p : program A) R (g : A → program B) Q :
  calm C p R → stable t L → (∀ s, watch_inv cfg s → L s → C s) →
  (∀ a, R a → safe t L (g a) Q) → safe t L (p ≫= g) Q.
Proof.
  intros Hp HL HC Hg. eapply safe_compose; [by apply Hp|]. intros a. apply safe_pure. auto.
Qed.

Lemma calm_bind {A B} C (p : program A) R (g : A → program B) R' :
  calm C p R → (∀ a, R a → calm C (g a) R') → calm C (p ≫= g) R'.
Proof.
  intros Hp Hg t L HL HC. eapply safe_calm_bind; [done..|]. intros a HR. by apply Hg.
Qed.

Lemma calm_when C b (p : program ()) : calm C p any → calm C (when b p) any.
Proof. intros Hp. destruct b; [done|by apply calm_ret]. Qed.

Lemma calm_weaken {A} (C C' : world → Prop) (p : program A) (R R' : A → Prop) :
  (∀ s, C' s → C s) → (∀ a, R a → R' a) → calm C p R → calm C' p R'.
Proof.
  intros HC HR Hp t L HL HC'. eapply safe_post; [|apply Hp; auto].
  intros a s _ [? ?]. auto.
Qed.

(** *** Cache and flags *)

Lemma good_cache c s : cache_step (cache s) c → good cfg None s (with_cache c s).
Proof. intros Hc. by apply good_frame. Qed.

Lemma good_flags w f s :
  (∀ k, soft k (f k) ∧ wk_initial (f k) = wk_initial k) → good cfg None s (on_worker w f s).
Proof.
  intros Hf. apply good_soft. intros k _. destruct (Hf k) as [Hs Hin]. split; [done|].
  destruct Hs as (Hkey & _ & Hsn & Hby & Hre & _). intros [A1 A2 A3 A4 A5].
  unfold topic_of in *. split; unfold topic_of; rewrite ?Hkey, ?Hsn, ?Hby, ?Hre, ?Hin; auto.
Qed.

Lemma good_set_idle w t s : good cfg None s (on_worker w (λ k, set_idle t (wk_stopping k) k) s).
Proof. by apply good_flags. Qed.
Lemma good_set_stopping w s : good cfg None s (set_stopping w s).
Proof. by apply good_flags. Qed.
Lemma good_cancel w s : good cfg None s (cancel w s).
Proof. by apply good_flags. Qed.

Lemma good_timers m n s : good cfg None s (with_timers m n s).
Proof. by apply good_frame; auto with watch. Qed.

Lemma good_clear_timer w s : good cfg None s (clear_timer w s).
Proof.
  unfold clear_timer, stop_timer. eapply good_trans; [|apply good_set_idle].
  destruct (wk_idleTimer _); [apply good_timers|apply good_refl].
Qed.

Lemma good_close_cache w s : good cfg None s (close_cache w s).
Proof.
  unfold close_cache. destruct (Cache.Close _ _) as [sub c] eqn:Hcl.
  pose proof (Close_step (cache s) (wk_cacheSubscription (worker_at w s))) as Hst.
  rewrite Hcl in Hst. eapply good_trans; [by apply good_cache|].
  assert (sub_closed sub = true) as Hsub.
  { unfold Cache.Close in Hcl. destruct (sub_closed (wk_cacheSubscription _)) eqn:Hx; by simplify_eq. }
  apply good_flags. intros k. unfold soft. simpl. by rewrite Hsub.
Qed.

Lemma good_begin w s : good cfg None s (begin_refresh w s).2.
Proof.
  unfold begin_refresh. pose proof (BeginRefresh_step (cache s) (wk_cacheSubscription (worker_at w s)) (clock s)).
  destruct (BeginRefresh _ _ _). by apply good_cache.
Qed.

Lemma good_commit w token snap s :
  items_wf (Items snap) → good cfg None s (commit arrange w token snap s).2.
Proof.
  intros Hwf. unfold commit.
  pose proof (Commit_step arrange (cache s) (wk_cacheSubscription (worker_at w s)) token snap false
    (clock s) (clock s) Hwf). destruct (Commit _ _ _ _ _ _ _). by apply good_cache.
Qed.

Lemma good_abort w token s : good cfg None s (abort_refresh w token s).
Proof. apply good_cache, AbortRefresh_step. Qed.
Lemma good_mark_stale w s : good cfg None s (mark_stale w s).
Proof. apply good_cache, MarkStale_step. Qed.
Lemma good_invalidate key s : good cfg None s (invalidate key s).2.
Proof.
  unfold invalidate. pose proof (Invalidate_step (cache s) (cache_key key)).
  destruct (Invalidate _ _). by apply good_cache.
Qed.

(** None of them starts a goroutine. *)
Lemma spawned_begin w s : spawned (begin_refresh w s).2 = spawned s.
Proof. unfold begin_refresh. by destruct (BeginRefresh _ _ _). Qed.
Lemma spawned_commit w token snap s : spawned (commit arrange w token snap s).2 = spawned s.
Proof. unfold commit. by destruct (Commit _ _ _ _ _ _ _). Qed.
Lemma spawned_invalidate key s : spawned (invalidate key s).2 = spawned s.
Proof. unfold invalidate. by destruct (Invalidate _ _). Qed.
Lemma spawned_close_cache w s : spawned (close_cache w s) = spawned s.
Proof. unfold close_cache. by destruct (Cache.Close _ _). Qed.
Lemma spawned_clear_timer w s : spawned (clear_timer w s) = spawned s.
Proof. unfold clear_timer, stop_timer. by destruct (wk_idleTimer _). Qed.

(** What reading a worker tells. *)
Definition read_ok (k : watchWorker) : Prop :=
  (wk_snapshotReady k = true → items_wf (Items (wk_snapshot k)))
  ∧ (key_Topic (wk_key k) = "" ∨ key_Topic (wk_key k) ∈ topicOrder).

Lemma worker_at_ok w s : watch_inv cfg s → read_ok (worker_at w s).
Proof.
  intros Hi. unfold worker_at. destruct (store s !! w) as [k|] eqn:Hk; simpl; [|by split; [|left]].
  destruct (wi_workers _ _ Hi w k Hk) as [_ Ht _ Hr _]. split; [|by right]. intros Hready.
  by apply Hr.
Qed.

Lemma calm_the_worker C w : calm C (the_worker w) read_ok.
Proof. apply calm_look. intros s Hi _. by apply worker_at_ok. Qed.

Lemma calm_begin C w : calm C (begin w) any.
Proof. apply calm_atomically. intros s _ _. split_and!; [apply good_begin|apply spawned_begin|done]. Qed.
Lemma calm_commit C w token snap : items_wf (Items snap) → calm C (atomically (commit arrange w token snap)) any.
Proof.
  intros Hwf. apply calm_atomically. intros s _ _.
  split_and!; [by apply good_commit|apply spawned_commit|done].
Qed.
Lemma calm_abort C w token : calm C (abort w token) any.
Proof. apply calm_modify. intros s _ _. split; [apply good_abort|done]. Qed.
Lemma calm_markStale C w : calm C (markStale w) any.
Proof. apply calm_modify. intros s _ _. split; [apply good_mark_stale|done]. Qed.
Lemma calm_cancel C w : calm C (modify (cancel w)) any.
Proof. apply calm_modify. intros s _ _. split; [apply good_cancel|done]. Qed.
Lemma calm_notify C w : calm C (modify (notify cfg w)) any.
Proof.
  apply calm_modify. intros s _ _. unfold notify. destruct (OnChange cfg); [|split; [apply good_refl|done]].
  split; [|done]. by apply good_frame; auto with watch.
Qed.
Lemma calm_close_cache C w : calm C (modify (close_cache w)) any.
Proof. apply calm_modify. intros s _ _. split; [apply good_close_cache|apply spawned_close_cache]. Qed.
#[local] Hint Resolve calm_the_worker calm_begin calm_commit calm_abort calm_markStale calm_cancel
  calm_notify calm_close_cache calm_when calm_ret : watch.
#[local] Hint Extern 1 (any _) => exact I : watch.

(** Compose calm programs; the continuation's case analysis is left. *)
Ltac calm_seq := eapply calm_bind; [eauto with watch; fail|intros ? ?].

Lemma calm_invalidateCache C w : calm C (invalidateCache cfg w) any.
Proof.
  unfold invalidateCache. calm_seq. eapply calm_bind.
  { apply (calm_atomically _ _ any). intros s _ _.
    split_and!; [apply good_invalidate|apply spawned_invalidate|done]. }
  intros err _. calm_seq. by apply calm_ret.
Qed.

Lemma calm_flushSnapshot C w snap ready :
  (ready = true → items_wf (Items snap)) → calm C (flushSnapshot arrange w snap ready) any.
Proof.
  intros Hwf. unfold flushSnapshot. destruct ready; cbn [negb]; [|by apply calm_ret].
  calm_seq. destruct a as [token|e]; [|by apply calm_ret].
  eapply calm_bind; [by apply calm_commit, Hwf|]. intros [e|] _; [|by apply calm_ret].
  calm_seq. by apply calm_ret.
Qed.

Lemma calm_flushCache C w : calm C (flushCache arrange w) any.
Proof.
  unfold flushCache. eapply calm_bind; [apply calm_the_worker|]. intros k [Hk _].
  destruct (wk_snapshotReady k); cbn [negb]; [|by apply calm_ret].
  eapply calm_bind; [apply calm_flushSnapshot; auto|]. intros err _. calm_seq. by apply calm_ret.
Qed.
#[local] Hint Resolve calm_invalidateCache calm_flushCache : watch.

(** *** Queues *)

Lemma with_subs_id s : with_subs (subs s) s = s.
Proof. by destruct s. Qed.

Lemma alter_None {A} (f : A → A) (l : list A) i : l !! i = None → alter f i l = l.
Proof. revert i. induction l as [|x l IH]; intros [|i]; simpl; intros Hi; try done.
  f_equal. by apply IH.
Qed.

Lemma insert_alter {A} (f : A → A) (l : list A) i x :
  l !! i = Some x → <[i := f x]> l = alter f i l.
Proof. revert i. induction l as [|y l IH]; intros [|i]; simpl; intros Hi; simplify_eq; [done|].
  f_equal. by apply IH.
Qed.

Lemma push_to_alter j e s :
  (push_to j e s).2
  = with_subs (alter (λ ss, set_queue (push (ss_queue ss) e).2 ss) j (subs s)) s.
Proof.
  unfold push_to. destruct (subs s !! j) as [ss|] eqn:Hj.
  - rewrite <- (insert_alter _ _ _ _ Hj). by destruct (push _ _).
  - by rewrite alter_None, with_subs_id.
Qed.

Lemma close_sub_alter j s :
  (close_sub j s).2
  = with_subs (alter (λ ss, set_queue (Queue.Close (ss_queue ss)).2 ss) j (subs s)) s.
Proof.
  unfold close_sub. destruct (subs s !! j) as [ss|] eqn:Hj.
  - rewrite <- (insert_alter _ _ _ _ Hj). by destruct (Queue.Close _).
  - by rewrite alter_None, with_subs_id.
Qed.

Lemma push_view topic ss e q :
  push (ss_queue ss) e = (true, q) → topic_clean e →
  Forall (λ q, topic_clean (q_event q)) (queue (ss_queue ss)) →
  view topic (set_queue q ss) = consume_event topic (view topic ss) e.
Proof.
  intros Hp He Hq. unfold view, history. cbn [ss_queue ss_delivered set_queue].
  rewrite !consume_app, (push_consume _ _ _ _ _ Hp He Hq), consume_app. done.
Qed.

Lemma good_push o j e s :
  topic_clean e →
  (∀ ss, subs s !! j = Some ss → o = Some (ss_worker ss) ∨ ∀ topic, neutral topic e) →
  good cfg o s (push_to j e s).2.
Proof.
  intros He Ho Hi. rewrite push_to_alter. apply good_queue; [|done]. intros ss Hss.
  destruct (wi_queues _ _ Hi j ss Hss) as [_ Hq].
  destruct (push (ss_queue ss) e) as [[] q] eqn:Hp; unfold is_open; cbn [snd ss_worker ss_queue set_queue].
  - destruct (push_true _ _ _ Hp) as (Hop & Hop' & Hqs). split_and!; [done|done| |].
    + intros _. apply Forall_forall. intros x Hx. rewrite Forall_forall in Hq.
      destruct (Hqs x Hx) as [Hx'| ->]; [by apply Hq|done].
    + intros Hw _ k Hk. rewrite (push_view _ _ _ _ Hp He Hq).
      destruct (Ho ss Hss) as [->|Hn]; [done|apply Hn].
  - apply push_false in Hp as ->. by destruct ss.
Qed.

Lemma good_close_sub j s : good cfg None s (close_sub j s).2.
Proof.
  rewrite close_sub_alter. apply good_queue. intros ss Hss. unfold is_open, Queue.Close.
  destruct (Queue.closed (ss_queue ss)) eqn:Hc; simpl; rewrite ?Hc; by split_and!.
Qed.

Lemma good_force_terminal j e s : topic_clean e → good cfg None s (force_terminal j e s).
Proof.
  intros He. apply good_queue. intros ss Hss. unfold is_open, forceTerminal.
  destruct (Queue.closed (ss_queue ss)) eqn:Hc; simpl; rewrite ?Hc; [by split_and!|].
  split_and!; [done|done| |done]. intros _. by constructor.
Qed.

Lemma closed_after_close j s cb : (close_sub j s).1 = Some cb → closed_sub j (close_sub j s).2.
Proof.
  rewrite close_sub_alter. unfold close_sub, closed_sub, is_open.
  destruct (subs s !! j) as [ss|] eqn:Hj; [|done]. intros _.
  eexists. split; [apply alter_sub_lookup; eauto|]. rewrite decide_True by done.
  unfold Queue.Close. destruct (Queue.closed (ss_queue ss)) eqn:Hc; simpl; congruence.
Qed.

Lemma closed_after_force w j e s : member_of w j s → closed_sub j (force_terminal j e s).
Proof.
  intros (ss & Hj & _). unfold closed_sub, is_open. eexists. split; [apply alter_sub_lookup; eauto|].
  rewrite decide_True by done. unfold forceTerminal.
  destruct (Queue.closed (ss_queue ss)) eqn:Hc; simpl; congruence.
Qed.

(** *** Leaving a worker *)

Lemma on_worker_ext w f g s :
  (∀ k, store s !! w = Some k → f k = g k) → on_worker w f s = on_worker w g s.
Proof. intros Hfg. unfold on_worker. f_equal. by apply list_alter_ext. Qed.

Lemma good_unregister_worker w s : good cfg None s (unregister w s).
Proof. apply good_unregister, delete_subseteq. Qed.

Lemma good_remove w j s : closed_sub j s → good cfg None s (remove_locked cfg w j s).2.
Proof.
  intros (ss & Hss & Hop). unfold remove_locked.
  assert (good cfg None s (on_worker w (λ k, set_subscribers (wk_subscribers k ∖ {[j]}) k) s)) as Hdel.
  { rewrite (on_worker_ext _ _ (set_subscribers (wk_subscribers (worker_at w s) ∖ {[j]})))
      by (intros k Hk; by rewrite (worker_at_lookup _ _ _ Hk)).
    apply good_members.
    - intros k Hk. rewrite (worker_at_lookup _ _ _ Hk). set_solver.
    - right. intros i x k Hx _ Hxo Hk Hin. rewrite (worker_at_lookup _ _ _ Hk).
      assert (i ≠ j) by (intros ->; congruence). set_solver. }
  revert Hdel. generalize (on_worker w (λ k, set_subscribers (wk_subscribers k ∖ {[j]}) k) s).
  intros s1 Hdel. destruct (_ && _); [|done]. destruct (negb (is_current w s1) || _).
  - simpl. eapply good_trans; [exact Hdel|]. eapply good_trans; [|apply good_set_stopping].
    destruct (is_current w s1); [apply good_unregister_worker|apply good_refl].
  - simpl. eapply good_trans; [exact Hdel|].
    eapply good_trans; [apply good_timers|apply good_set_idle].
Qed.

Lemma spawned_remove w j s : spawned (remove_locked cfg w j s).2 = spawned s.
Proof.
  unfold remove_locked. destruct (_ && _); [|done]. destruct (_ || _); simpl; [|done].
  by destruct (is_current _ _).
Qed.

Lemma calm_remove w j : calm (closed_sub j) (remove cfg arrange w j) any.
Proof.
  unfold remove. eapply calm_bind.
  { apply (calm_atomically _ _ any). intros s _ Hj.
    split_and!; [by apply good_remove|apply spawned_remove|done]. }
  intros [] _; [|by apply calm_ret]. calm_seq. calm_seq. apply calm_cancel.
Qed.

Lemma safe_read {A} t L w (g : watchWorker → program A) Q :
  (∀ s, watch_inv cfg s → L s →
     ∃ L', stable t L' ∧ L' s ∧ safe t L' (g (worker_at w s)) Q) →
  safe t L (the_worker w ≫= g) Q.
Proof.
  intros Hg s Hi HLs. destruct (Hg s Hi HLs) as (L' & HL' & HLs' & Hs).
  destruct (calm_step t s s Hi (good_refl cfg None s) eq_refl) as [Hok _].
  split; [done|]. by exists L'.
Qed.

Lemma mono_Forall {A} (P : A → world → Prop) l :
  (∀ x, mono (P x)) → mono (λ s, Forall (λ x, P x s) l).
Proof. intros HP o s s' Hc Hl. eapply Forall_impl; [exact Hl|]. intros x. by apply (HP x o s s'). Qed.

Lemma stable_with t L P : stable t L → mono P → stable t (λ s, L s ∧ P s).
Proof. intros HL HP. apply stable_and; [done|by apply mono_stable]. Qed.
#[local] Hint Resolve stable_with mono_Forall : watch.

Lemma closeSubscription_safe t L L' j :
  stable t L' → (∀ s, watch_inv cfg s → L s → L' (close_sub j s).2) →
  safe t L (closeSubscription cfg arrange j) (λ _, L').
Proof.
  intros HL' Hclose. unfold closeSubscription.
  eapply safe_compose; [apply (safe_atomically _ _ _ _ _ (λ cb s, L' s ∧ (is_Some cb → closed_sub j s)))|].
  - intros [w|]; apply stable_with; try done; intros o s s' Hc Hj; [intros _|by intros []].
    eapply closed_sub_mono; eauto.
  - intros s Hi HLs. destruct (calm_step t s (close_sub j s).2 Hi (good_close_sub j s)) as [Hok _].
    { by rewrite close_sub_alter. }
    split_and!; [done|by apply Hclose|]. intros [w Hw]. by eapply closed_after_close.
  - intros [w|].
    + eapply safe_consequence; [|eapply safe_post; [|apply (calm_remove w j t (λ s, L' s ∧ closed_sub j s))]].
      * intros s _ [HLs Hj]. split; [done|]. by apply Hj.
      * intros a s _ [[? _] _]. done.
      * apply stable_with; auto with watch.
      * by intros s _ [_ ?].
    + intros s _ [HLs _]. done.
Qed.

Lemma calm_closeSubscription C j : calm C (closeSubscription cfg arrange j) any.
Proof.
  intros t L HL _. eapply safe_post; [|apply (closeSubscription_safe t L L)]; [by intros [] s|done|].
  intros s Hi HLs. destruct (calm_step t s (close_sub j s).2 Hi (good_close_sub j s)) as [_ HL'].
  - by rewrite close_sub_alter.
  - by apply HL'.
Qed.
#[local] Hint Resolve calm_closeSubscription : watch.

(** *** Broadcasting *)

Lemma plain_clean name k items reason refetch :
  read_ok k → topic_clean (plain_event name (wk_key k) items reason refetch).
Proof. by intros [_ ?]. Qed.

Lemma reset_clean k : read_ok k → topic_clean (slow_consumer_reset (wk_key k)).
Proof. by intros [_ ?]. Qed.

Definition members (w : nat) (targets : list nat) (s : world) : Prop :=
  Forall (λ j, member_of w j s) targets.
Lemma members_mono w targets : mono (members w targets).
Proof. apply mono_Forall. intros j. apply member_of_mono. Qed.
#[local] Hint Resolve members_mono : watch.

(** The refusal branch of [push_all]: whatever is kept, [j] is closed afterwards. *)
Lemma refuse_safe t L w j (P : world → Prop) (rest : program ()) :
  stable t L → (∀ s, watch_inv cfg s → L s → member_of w j s) →
  safe t (λ s, L s ∧ closed_sub j s) rest (λ _, P) →
  safe t L ((k ← the_worker w;
             modify (force_terminal j (slow_consumer_reset (wk_key k)));;
             remove cfg arrange w j);; rest) (λ _, P).
Proof.
  intros HL Hm Hrest. apply (safe_compose _ _ _ _ _ _ (λ _ s, L s ∧ closed_sub j s)); [|intros []; exact Hrest].
  eapply safe_calm_bind; [apply (calm_the_worker (λ _, True))|done|done|]. intros k Hk.
  assert (stable t (λ s, L s ∧ closed_sub j s)) as HLj by auto with watch.
  eapply safe_compose; [apply (safe_modify _ _ _ _ _ (λ s, L s ∧ closed_sub j s) HLj)|].
  - intros s Hi HLs. destruct (calm_step t s _ Hi (good_force_terminal j _ s (reset_clean k Hk)) eq_refl)
      as [Hok HL']. split_and!; [done|by apply HL'|]. eapply closed_after_force. by apply Hm.
  - intros []. eapply safe_post; [|apply (calm_remove w j t); [done|by intros s _ [_ ?]]].
    by intros [] s _ [? _].
Qed.

Lemma calm_push_all w e targets :
  topic_clean e → (∀ topic, neutral topic e) → calm (members w targets) (push_all cfg arrange w e targets) any.
Proof.
  intros He Hn. induction targets as [|j targets IH]; [by apply calm_ret|].
  intros t L HL HC. cbn [push_all]. eapply safe_calm_bind.
  { apply (calm_atomically (λ _, True) (push_to j e) any). intros s _ _. split_and!; [|by rewrite push_to_alter|done].
    apply good_push; [done|by right]. }
  { done. } { done. }
  assert (safe t L (push_all cfg arrange w e targets) (λ a s, L s ∧ any a)) as Hrest.
  { apply IH; [done|]. intros s Hi HLs. specialize (HC s Hi HLs). by inversion HC. }
  intros [] _; [exact Hrest|].
  eapply safe_post; [|apply (refuse_safe t L w j (λ s, L s)); [done| |]].
  - by intros [] s _ HLs.
  - intros s Hi HLs. specialize (HC s Hi HLs). by inversion HC.
  - eapply safe_consequence; [|eapply safe_post; [|exact Hrest]]; [by intros s _ [? _]|by intros [] s _ [? _]].
Qed.

Lemma calm_broadcast C w e :
  topic_clean e → (∀ topic, neutral topic e) → calm C (broadcast cfg arrange order w e) any.
Proof.
  intros He Hn t L HL _. unfold broadcast. apply safe_read. intros s Hi HLs.
  destruct (order (elements (wk_subscribers (worker_at w s)))) as [|j l] eqn:Ho.
  { exists L. split_and!; [done..|]. by intros s' _ HL'. }
  exists (λ s, L s ∧ members w (j :: l) s). split_and!; [by auto with watch|done| |].
  - rewrite <- Ho. unfold members. rewrite order_perm. apply Forall_forall. intros i Hin%elem_of_elements.
    unfold worker_at in Hin. destruct (store s !! w) as [k|] eqn:Hk; [|simpl in Hin; set_solver].
    by apply (wi_members _ _ Hi w k).
  - eapply safe_compose; [apply (calm_push_all w e (j :: l) He Hn t); [auto with watch|by intros s' _ [_ ?]]|].
    intros [] s' _ [[? _] _]. done.
Qed.

Lemma plain_neutral_all topic name key items reason refetch :
  name ∈ ["reset"; "error"; "progress"; "refreshed"] →
  neutral topic (plain_event name key items reason refetch).
Proof. intros Hn. apply plain_neutral. intros Hx. set_solver. Qed.

Lemma calm_plain C w k name items reason refetch :
  read_ok k → name ∈ ["reset"; "error"; "progress"; "refreshed"] →
  calm C (broadcast cfg arrange order w (plain_event name (wk_key k) items reason refetch)) any.
Proof. intros Hk Hn. apply calm_broadcast; [by apply plain_clean|]. intros topic. by apply plain_neutral_all. Qed.

Lemma calm_terminal C w reason : calm C (terminal cfg arrange order w reason) any.
Proof.
  eapply calm_bind; [apply calm_the_worker|]. intros k Hk.
  eapply calm_bind; [apply calm_plain; [done|set_solver]|]. intros _ _. by apply calm_ret.
Qed.
Lemma calm_fail C w errs : calm C (fail cfg arrange order w errs) any.
Proof.
  eapply calm_bind; [apply calm_the_worker|]. intros k Hk.
  eapply calm_bind; [apply calm_plain; [done|set_solver]|]. intros _ _. by apply calm_ret.
Qed.
Lemma calm_refreshed C w : calm C (refreshed cfg arrange order w) any.
Proof.
  eapply calm_bind; [apply calm_the_worker|]. intros k Hk. apply calm_plain; [done|set_solver].
Qed.
#[local] Hint Resolve calm_terminal calm_fail calm_refreshed : watch.

Lemma calm_setConnected C w b : calm C (setConnected w b) any.
Proof.
  eapply calm_bind; [|intros a _; auto with watch].
  apply (calm_atomically _ _ any). intros s _ _. split_and!; [by apply good_flags|done..].
Qed.

Lemma calm_markInitialUnsupported C w e : calm C (markInitialUnsupported w e) any.
Proof.
  apply calm_when, calm_modify. intros s _ _. split; [|done]. by apply good_frame; auto with watch.
Qed.
#[local] Hint Resolve calm_setConnected calm_markInitialUnsupported : watch.

(** ** The worker's own steps *)

Definition due_of (targets : list nat) (e : StreamEvent) (p : list StreamEvent) (j : nat)
    : list StreamEvent := if decide (j ∈ targets) then e :: p else p.

Lemma due_suffix targets e p j : due_of targets e p j `suffix_of` e :: p.
Proof. unfold due_of. case_decide; [done|]. by apply suffix_cons_r. Qed.

Lemma due_stable w targets e p : stable (GoRun w) (owed w (due_of targets e p) (e :: p)).
Proof. apply owed_stable, due_suffix. Qed.
#[local] Hint Resolve due_stable : watch.

Lemma owed_change w due due' p p' s :
  owed w due p s → p' `suffix_of` p →
  (∀ k j ss, store s !! w = Some k → j ∈ wk_subscribers k → subs s !! j = Some ss → is_open ss →
     due' j = due j) →
  owed w due' p' s.
Proof.
  intros (k & Hk & Ha & Hv) Hp Hdue. exists k. split_and!; [done..|]. intros Hr.
  destruct (Hv Hr) as [Hset Hj]. split; [by eapply settles_suffix|].
  intros j ss Hin Hss Hop. rewrite (Hdue k j ss) by done. auto.
Qed.

(** A worker without subscribers owes nothing. *)
Lemma owed_empty w due p due' p' s :
  owed w due p s → wk_subscribers (worker_at w s) = ∅ → p' `suffix_of` p → owed w due' p' s.
Proof.
  intros Ho Hnone Hp. eapply owed_change; [done..|]. intros k j ss Hk Hin.
  rewrite (worker_at_lookup _ _ _ Hk) in Hnone. set_solver.
Qed.

Lemma owed_push w j e p targets s ss q :
  watch_inv cfg s → topic_clean e → NoDup (j :: targets) →
  subs s !! j = Some ss → ss_worker ss = w → push (ss_queue ss) e = (true, q) →
  owed w (due_of (j :: targets) e p) (e :: p) s →
  owed w (due_of targets e p) (e :: p) (push_to j e s).2.
Proof.
  intros Hi He [Hnj _]%NoDup_cons Hss Hw Hp (k & Hk & Ha & Hv).
  rewrite push_to_alter. exists k. destruct (wi_queues _ _ Hi j ss Hss) as [_ Hq].
  destruct (push_true _ _ _ Hp) as (Hop & Hop' & _). split_and!; [done| |].
  - intros i x (y & Hy & ->)%alter_sub_lookup Hxw Hxo. apply (Ha i y Hy).
    + by case_decide.
    + revert Hxo. case_decide; [|done]. subst i. assert (y = ss) as -> by congruence. done.
  - intros Hr. destruct (Hv Hr) as [Hset Hj]. split; [done|].
    intros i x Hin (y & Hy & ->)%alter_sub_lookup Hxo. case_decide as Hij.
    + subst i. assert (y = ss) as -> by congruence.
      specialize (Hj j ss Hin Hss Hop). unfold due_of in *. rewrite decide_True in Hj by set_solver.
      rewrite decide_False by done. rewrite Hp. simpl. by rewrite (push_view _ _ _ _ Hp He Hq).
    + specialize (Hj i y Hin Hy Hxo). unfold due_of in *.
      destruct (decide (i ∈ targets)); [rewrite decide_True in Hj by set_solver; done|].
      by rewrite decide_False in Hj by set_solver.
Qed.

Lemma owed_drop w j e p targets s :
  owed w (due_of (j :: targets) e p) (e :: p) s → closed_sub j s →
  owed w (due_of targets e p) (e :: p) s.
Proof.
  intros Ho (x & Hx & Hxo). eapply owed_change; [done..|]. intros k i ss Hk Hin Hss Hop.
  assert (i ≠ j) by (intros ->; congruence). unfold due_of.
  destruct (decide (i ∈ targets)); [rewrite decide_True by set_solver; done|].
  by rewrite decide_False by set_solver.
Qed.

Lemma step_owner w s s' :
  watch_inv cfg s → good cfg (Some w) s s' → spawned s' = spawned s → step_ok (Some (GoRun w)) s s'.
Proof.
  intros Hi Hg Hsp. destruct (Hg Hi) as [Hi' Hc].
  assert (born watch_system s s' = []) as Hb by (simpl; by rewrite Hsp, drop_all).
  split_and!; [done| |by rewrite Hb]. split; [done|]. unfold born_ok. rewrite Hb.
  split; [constructor|]. intros v Hv. set_solver.
Qed.

Lemma push_to_result j e s ss :
  subs s !! j = Some ss → (push_to j e s).1 = (push (ss_queue ss) e).1.
Proof. unfold push_to. intros ->. by destruct (push _ _). Qed.

Lemma push_all_owner w e p targets :
  topic_clean e → NoDup targets →
  safe (GoRun w) (λ s, owed w (due_of targets e p) (e :: p) s ∧ members w targets s)
    (push_all cfg arrange w e targets) (λ _, owed w (λ _, p) p).
Proof.
  intros He. induction targets as [|j targets IH]; intros Hnd.
  { intros s _ [Ho _]. eapply owed_change; [exact Ho|by apply suffix_cons_r|]. intros k j ss _ _ _ _.
    unfold due_of. by rewrite decide_False by set_solver. }
  specialize (IH (proj2 (proj1 (NoDup_cons _ _) Hnd))). cbn [push_all].
  apply (safe_compose _ _ _ _ _ _ (λ (ok : bool) s,
    owed w (due_of (if ok then targets else j :: targets) e p) (e :: p) s ∧ members w (j :: targets) s)).
  - apply safe_atomically; [by intros []; auto with watch|].
    intros s Hi [Ho Hm]. pose proof Hm as [(ss & Hss & Hw) _]%Forall_cons.
    assert (step_ok (Some (GoRun w)) s (push_to j e s).2) as Hok.
    { apply step_owner; [done| |by rewrite push_to_alter]. apply good_push; [done|]. left. congruence. }
    destruct Hok as (Hi' & Htr & Hb). split; [by split_and!|]. split.
    + rewrite (push_to_result _ _ _ _ Hss). destruct (push (ss_queue ss) e) as [[] q] eqn:Hp; simpl.
      * by eapply owed_push.
      * apply push_false in Hp as Hq. subst q. unfold push_to. rewrite Hss, Hp. simpl.
        rewrite list_insert_id; [by rewrite with_subs_id|]. by destruct ss.
    + destruct Htr as [Hc _]. by eapply members_mono.
  - intros [].
    + eapply safe_consequence; [|exact IH]. intros s _ [Ho Hm]. split; [done|]. by inversion Hm.
    + apply (refuse_safe _ _ _ _ (owed w (λ _, p) p)).
      * auto with watch.
      * intros s _ [_ Hm]. by inversion Hm.
      * eapply safe_consequence; [|exact IH]. intros s _ [[Ho Hm] Hcl].
        split; [by eapply owed_drop|]. by inversion Hm.
Qed.

Lemma broadcast_owner w e p :
  topic_clean e →
  safe (GoRun w) (owed w (λ _, e :: p) (e :: p)) (broadcast cfg arrange order w e)
    (λ ok s, if ok : bool then owed w (λ _, p) p s else settled w s).
Proof.
  intros He. unfold broadcast. apply safe_read. intros s Hi Ho.
  set (l := order (elements (wk_subscribers (worker_at w s)))).
  assert (∀ j, j ∈ l ↔ j ∈ wk_subscribers (worker_at w s)) as Hl.
  { intros j. subst l. by rewrite order_perm, elem_of_elements. }
  assert (NoDup l) as Hnd by (subst l; rewrite order_perm; apply NoDup_elements).
  destruct l as [|j l'] eqn:Hl'.
  - assert (wk_subscribers (worker_at w s) = ∅) as Hnone.
    { apply set_eq. intros j. rewrite <- Hl. set_solver. }
    exists (λ s, owed w (λ _, p) p s ∧ settled w s). split_and!.
    + apply stable_and; auto with watch.
    + eapply owed_empty; [exact Ho|done|by apply suffix_cons_r].
    + eapply owed_empty; [exact Ho|done|apply suffix_nil].
    + intros s' _ [? ?]. by destruct (negb _).
  - exists (λ s, owed w (due_of (j :: l') e p) (e :: p) s ∧ members w (j :: l') s). split_and!.
    + auto with watch.
    + eapply owed_change; [exact Ho|done|]. intros k i ss Hk Hin _ _.
      rewrite (worker_at_lookup _ _ _ Hk) in Hl. unfold due_of. by rewrite decide_True by (by apply Hl).
    + apply Forall_forall. intros i Hin%Hl. unfold worker_at in Hin.
      destruct (store s !! w) as [k|] eqn:Hk; [|simpl in Hin; set_solver].
      by apply (wi_members _ _ Hi w k).
    + eapply safe_compose; [by apply push_all_owner|]. intros [] s' _ Hs'. done.
Qed.

Lemma announce_safe w events :
  Forall topic_clean events →
  safe (GoRun w) (owed w (λ _, events) events) (announce cfg arrange order w events) (λ _, settled w).
Proof.
  intros Hev. induction Hev as [|e events He _ IH]; [by intros s _ Hs|].
  cbn [announce foldr]. eapply safe_compose; [by apply broadcast_owner|].
  intros []; [exact IH|]. by intros s _ Hs.
Qed.

(** *** Changing the retained snapshot *)

Lemma attached_rigid w f s :
  (∀ k, wk_subscribers (f k) = wk_subscribers k) → attached w s → attached w (on_worker w f s).
Proof.
  intros Hf Ha j ss Hj Hw Hop. destruct (Ha j ss Hj Hw Hop) as (k & Hk & Hin). exists (f k).
  split; [|by rewrite Hf]. apply on_worker_lookup. exists k. by rewrite decide_True.
Qed.

Lemma on_worker_same w f s k :
  store s !! w = Some k → store (on_worker w f s) !! w = Some (f k).
Proof. intros Hk. apply on_worker_lookup. exists k. by rewrite decide_True. Qed.

Definition events_of (key : WatchKey) (snap : WatchSnapshot) : result error (list StreamEvent) :=
  SnapshotEvents (Generation key) (key_Topic key) (ResourceVersion snap) snap.

Lemma events_clean key snap events :
  key_Topic key = "" ∨ key_Topic key ∈ topicOrder →
  events_of key snap = Ok events → Forall topic_clean events.
Proof.
  intros Ht (_ & _ & Hs)%SnapshotEvents_shape. apply Forall_lookup. intros j e He.
  destruct (Hs j e He) as (_ & _ & Htop). unfold topic_clean. by rewrite Htop.
Qed.

Lemma idle_ok t s : watch_inv cfg s → step_ok (Some t) s s.
Proof. intros Hi. exact (proj1 (calm_step t s s Hi (good_refl cfg None s) eq_refl)). Qed.

Lemma install_safe w key snap events :
  items_wf (Items snap) → events_of key snap = Ok events →
  safe (GoRun w) (λ s, settled w s ∧ key_is w key s)
    (atomically (installSnapshotLocked cfg w snap events))
    (λ err s, match err with None => owed w (λ _, events) events s | Some _ => settled w s end).
Proof.
  intros Hwf Hev. apply safe_atomically; [by intros [e|]; auto with watch|].
  intros s Hi [Hs (k & Hk & Hkey)]. unfold installSnapshotLocked. rewrite (worker_at_lookup _ _ _ Hk).
  destruct (_ || _ || _); [split; [by apply idle_ok|done]|].
  destruct ((_ <? _)%Z || _ || _) eqn:Hbig;
    [split; [by apply idle_ok|done]|].
  apply orb_false_iff in Hbig as [[Hn Hb]%orb_false_iff Hfit]. bool_to_prop. cbn [fst snd].
  set (f := set_level snap (len (items_json (Items snap))) true events).
  pose proof (wi_workers _ _ Hi w k Hk) as [W1 W2 W3 _ _]. split.
  - apply step_owner; [done| |done]. apply good_owner.
    + intros k0 Hk0. assert (k0 = k) as -> by congruence. split; [done|]. intros _.
      split; try done. intros _. simpl. split_and!; [done|done|lia|lia|]. right.
      unfold topic_of. simpl. rewrite <- Hev, <- Hkey. done.
    + intros _. apply fits_budget; [done|by eapply lookup_lt_Some|apply len_nonneg|done].
  - destruct Hs as (k0 & Hk0 & Ha & _). exists (f k). split_and!; [by apply on_worker_same|by apply attached_rigid|].
    intros _. destruct (snapshot_consume _ _ _ _ _ Hev Hwf) as [Hall Hset].
    unfold topic_of, level. simpl. rewrite Hkey. split; [done|]. auto.
Qed.

(** A change the worker may apply: a delta of its topic whose object has an encoding. *)
Definition delta_of (key : WatchKey) (e : StreamEvent) : Prop :=
  ev_Topic e = key_Topic key ∧ ev_Event e ≠ "snapshot"
  ∧ (is_upsert e = true → (0 < len (object_json (ev_Object e)))%Z).

Lemma current_size k :
  worker_ok k → wk_snapshotReady k = true →
  (if (wk_snapshotBytes k =? 0)%Z
   then match Items (wk_snapshot k) with [] => 2%Z | items => len (items_json items) end
   else wk_snapshotBytes k) = len (items_json (Items (wk_snapshot k))).
Proof.
  intros [_ _ _ Hr _] Hready. destruct (Hr Hready) as (_ & Hb & _). rewrite Hb.
  destruct (_ =? _)%Z; [|done]. by destruct (Items (wk_snapshot k)).
Qed.

Lemma unready_owed w due p s k :
  store s !! w = Some k → attached w s → wk_snapshotReady k = false → owed w due p s.
Proof. intros Hk Ha Hr. exists k. split_and!; [done..|]. by rewrite Hr. Qed.

Lemma update_safe w key e :
  delta_of key e →
  safe (GoRun w) (λ s, settled w s ∧ key_is w key s)
    (atomically (updateSnapshot_locked cfg w e))
    (λ r s, match r with Updated | Untracked => owed w (λ _, [e]) [e] s | _ => settled w s end).
Proof.
  intros (Htop & Hne & Hpos). apply safe_atomically; [by intros []; auto with watch|].
  intros s Hi [Hs (k & Hk & Hkey)]. pose proof Hs as (k0 & Hk0 & Ha & _). simplify_eq.
  pose proof (wi_workers _ _ Hi w k Hk) as Hw. pose proof (idle_ok (GoRun w) s Hi) as Hok.
  unfold updateSnapshot_locked. rewrite (worker_at_lookup _ _ _ Hk).
  destruct (wk_stopping k); [done|]. destruct (wk_snapshotReady k) eqn:Hready; simpl;
    [|split; [done|by eapply unready_owed]].
  rewrite current_size by done. rewrite <- size_delta_exact by done.
  destruct Hw as [W1 W2 W3 W4 _]. destruct (W4 Hready) as (Wwf & Wb & _).
  destruct (apply_event_refines_map (key_Topic (wk_key k)) _ e Wwf) as [Nwf Nmap].
  destruct ((_ <? _)%Z || _ || _) eqn:Hbig; cbn [fst snd].
  - split.
    + apply step_owner; [done| |done]. apply good_owner.
      * intros k1 Hk1. assert (k1 = k) as -> by congruence. split; [done|]. intros _. by split.
      * intros _. apply shrink_budget; [done|by eapply lookup_lt_Some|by apply (held_nonneg cfg)].
    + eapply unready_owed; [by apply on_worker_same|by apply attached_rigid|done].
  - apply orb_false_iff in Hbig as [[Hn Hb]%orb_false_iff Hfit]. bool_to_prop. split.
    + apply step_owner; [done| |done]. apply good_owner.
      * intros k1 Hk1. assert (k1 = k) as -> by congruence. split; [done|]. intros _.
        split; try done. intros _. simpl. split_and!; [done|done|lia|lia|by left].
      * intros _. apply fits_budget; [done|by eapply lookup_lt_Some|apply len_nonneg|done].
    + eexists. split_and!; [by apply on_worker_same|by apply attached_rigid|]. intros _.
      unfold topic_of, level. simpl. rewrite Nmap. split.
      * apply settles_cons; [apply settles_nil|]. unfold consume. simpl.
        by rewrite delta_consume, apply_to_map_idemp.
      * intros j ss Hin Hss Hop. destruct Hs as (k1 & Hk1 & _ & Hv). simplify_eq.
        destruct (Hv Hready) as [_ Hv']. specialize (Hv' j ss Hin Hss Hop). simpl in Hv'.
        unfold topic_of, level in Hv'. unfold consume. simpl. by rewrite delta_consume, Hv'.
Qed.

Lemma bookmark_safe w rv :
  safe (GoRun w) (settled w) (modify (bookmark w rv)) (λ _, settled w).
Proof.
  apply safe_modify; [auto with watch|]. intros s Hi Hs. pose proof Hs as (k & Hk & Ha & Hv).
  pose proof (wi_workers _ _ Hi w k Hk) as Hw. unfold bookmark.
  destruct (wk_snapshotReady k) eqn:Hr.
  - set (f := λ k, if wk_snapshotReady k then _ else k).
    assert (f k = set_level {| ResourceVersion := rv; Items := Items (wk_snapshot k) |}
      (wk_snapshotBytes k) true [] k) as Hf by (subst f; simpl; by rewrite Hr).
    assert (∀ k, wk_subscribers (f k) = wk_subscribers k) as Hsub
      by (intros k'; subst f; simpl; by destruct (wk_snapshotReady k')).
    split.
    + apply step_owner; [done| |done]. apply good_owner.
      * intros k1 Hk1. assert (k1 = k) as -> by congruence. rewrite Hf. split; [done|].
        intros [W1 W2 W3 W4 _]. destruct (W4 Hr) as (V1 & V2 & V3 & V4 & _). split; try done.
        intros _. simpl. split_and!; try done. by left.
      * intros _. apply shrink_budget; [done|by eapply lookup_lt_Some|].
        rewrite (worker_at_lookup _ _ _ Hk), Hf. unfold held_bytes. by rewrite (worker_at_lookup _ _ _ Hk).
    + exists (f k). split_and!; [by apply on_worker_same|by apply attached_rigid|]. rewrite Hf. intros _.
      destruct (Hv eq_refl) as [? Hv']. split; [apply settles_nil|]. auto.
  - rewrite (on_worker_ext _ _ (λ k, k)).
    + split; [|exists k; split_and!; [apply (on_worker_same w (λ k, k)); done|by apply attached_rigid|by rewrite Hr]].
      refine (proj1 (calm_step (GoRun w) s _ Hi _ _)); [|done]. by apply good_flags.
    + intros k1 Hk1. assert (k1 = k) as -> by congruence. by rewrite Hr.
Qed.

(** ** The end of a worker *)

Lemma leaving_close w j l s : leaving w (j :: l) s → leaving w l (close_sub j s).2.
Proof.
  intros (Hk & Hu & Hl). rewrite close_sub_alter. split_and!; [done..|].
  intros i x (y & Hy & ->)%alter_sub_lookup Hw Hop. case_decide as Hij.
  - exfalso. revert Hop. unfold is_open, Queue.Close. simpl.
    destruct (Queue.closed (ss_queue y)) eqn:Hc; simpl; congruence.
  - destruct (elem_of_cons l i j) as [Hcons _]. destruct (Hcons (Hl i y Hy Hw Hop)); done.
Qed.

Lemma close_all_safe t L w l :
  stable t L → safe t (λ s, L s ∧ leaving w l s) (close_all cfg arrange l) (λ _ s, L s ∧ leaving w [] s).
Proof.
  intros HL. induction l as [|j l IH]; [by intros s _ Hs|]. cbn [close_all foldr].
  apply (safe_compose _ _ _ _ _ _ (λ _ s, L s ∧ leaving w l s)); [|intros []; exact IH].
  apply closeSubscription_safe; [auto with watch|].
  intros s Hi [HLs Hl]. split; [|by apply leaving_close].
  refine (proj2 (calm_step t s (close_sub j s).2 Hi (good_close_sub j s) _) L HL HLs).
  by rewrite close_sub_alter.
Qed.

Lemma unregistered_after w s :
  watch_inv cfg s → known w s → unregistered w (if is_current w s then unregister w s else s).
Proof.
  intros Hi [k Hk] i Hw. destruct (is_current w s) eqn:Hc.
  - simpl in Hw. apply lookup_delete_Some in Hw as [Hne Hw]. apply Hne.
    destruct (wi_registered _ _ Hi _ _ Hw) as (k' & Hk' & <-). unfold identity_of.
    by rewrite (worker_at_lookup _ _ _ Hk').
  - destruct (wi_registered _ _ Hi _ _ Hw) as (k' & Hk' & Heq). unfold is_current, identity_of in Hc.
    rewrite (worker_at_lookup _ _ _ Hk') in Hc. apply bool_decide_eq_false in Hc. by rewrite Heq in Hc.
Qed.

(** The locked part of [finish], by the worker's goroutine or on a worker whose subscribers
    are all closed. *)
Lemma finish_locked_good o w s :
  watch_inv cfg s → known w s → (o = Some w ∨ open_within w [] s) → attached w s →
  good cfg o s (finish_locked order w s).2
  ∧ leaving w (finish_locked order w s).1 (finish_locked order w s).2
  ∧ gone w (finish_locked order w s).2.
Proof.
  intros Hi Hkn Ho Ha. unfold finish_locked.
  pose proof (unregistered_after w s Hi Hkn) as Hun.
  set (s1 := if is_current w s then unregister w s else s) in *.
  set (s2 := clear_timer w (set_stopping w s1)).
  assert (good cfg None s s2) as Hg.
  { eapply good_trans; [|eapply good_trans; [apply good_set_stopping|apply good_clear_timer]].
    subst s1. destruct (is_current w s); [apply good_unregister_worker|apply good_refl]. }
  destruct (Hg Hi) as [Hi2 Hc2]. destruct (known_mono w _ _ _ Hc2 Hkn) as [k2 Hk2].
  assert (unregistered w s2) as Hun2.
  { intros i. specialize (Hun i). subst s2. unfold clear_timer, stop_timer, set_stopping. by destruct (wk_idleTimer _). }
  assert (attached w s2) as Ha2.
  { apply (core_attached _ _ _ Hc2); [destruct Hkn; by eapply lookup_lt_Some|done..]. }
  rewrite (worker_at_lookup _ _ _ Hk2). cbn [fst snd].
  assert (subs s2 = subs s) as Hsubs.
  { subst s2 s1. unfold clear_timer, stop_timer, set_stopping. destruct (wk_idleTimer _), (is_current w s); done. }
  split; [|split; [split_and!|]].
  - eapply good_trans; [by apply good_any|]. apply good_members; [set_solver|].
    destruct Ho as [->|Ho]; [by left|right]. intros j ss k Hj Hw Hop _ _. exfalso.
    rewrite Hsubs in Hj. specialize (Ho j ss Hj Hw Hop). set_solver.
  - exists (set_subscribers ∅ k2). by apply on_worker_same.
  - done.
  - intros j ss Hj Hw Hop. destruct (Ha2 j ss Hj Hw Hop) as (k & Hk & Hin). simplify_eq.
    by rewrite order_perm, elem_of_elements.
  - split; [done|]. exists (set_subscribers ∅ k2). split; [by apply on_worker_same|done].
Qed.

Lemma spawned_finish w s : spawned (finish_locked order w s).2 = spawned s.
Proof.
  unfold finish_locked, on_worker. cbn [snd spawned with_store]. rewrite spawned_clear_timer.
  simpl. by destruct (is_current w s).
Qed.

Definition finished (w : nat) (s : world) : Prop :=
  gone w s ∧ open_within w [] s ∧ worker_returned w s.

Lemma finished_mono w : mono (finished w).
Proof.
  intros o s s' Hc (Hg & Hl & Hr). pose proof Hg as (Hu & k & Hk & _).
  destruct (leaving_mono w [] o s s' Hc) as (_ & _ & Hl'); [by split_and!; [exists k|..]|].
  split_and!; [by apply (gone_mono w _ _ _ Hc)|done|by apply (returned_mono w _ _ _ Hc)].
Qed.

Lemma finish_safe t L w :
  stable t L →
  (∀ s, watch_inv cfg s → L s →
     known w s ∧ attached w s ∧ (goroutine_owner t = Some w ∨ open_within w [] s)) →
  safe t L (finish cfg arrange order w) (λ _, finished w).
Proof.
  intros HL Hpre. unfold finish.
  eapply safe_compose; [apply (safe_modify _ _ _ _ _ (λ s, L s ∧ canceled w s)); [auto with watch|]|].
  { intros s Hi HLs. destruct (calm_step t s _ Hi (good_cancel w s) eq_refl) as [Hok HL'].
    split_and!; [done|by apply HL'|]. destruct (Hpre s Hi HLs) as ([k Hk] & _).
    exists (set_canceled k). split; [by apply on_worker_same|done]. }
  intros []. eapply safe_compose.
  { apply (safe_atomically _ _ _ _ _ (λ l s, (gone w s ∧ canceled w s) ∧ leaving w l s)).
    - intros l. auto 6 with watch.
    - intros s Hi [HLs Hcan]. destruct (Hpre s Hi HLs) as (Hkn & Ha & Ho).
      destruct (finish_locked_good (goroutine_owner t) w s Hi Hkn Ho Ha) as (Hg & Hl & Hgone).
      destruct (Hg Hi) as [Hi' Hc']. pose proof (spawned_finish w s) as Hsp.
      assert (born watch_system s (finish_locked order w s).2 = []) as Hb
        by (cbn [born watch_system]; by rewrite Hsp, drop_all).
      split; [|split; [split; [done|by eapply canceled_mono]|done]].
      split; [done|split; [split; [done|]|by rewrite Hb]].
      unfold born_ok. rewrite Hb. split; [constructor|]. intros v Hv. set_solver. }
  intros l. eapply safe_compose.
  { apply (safe_modify _ _ _ _ _ (λ s, (gone w s ∧ worker_returned w s) ∧ leaving w l s)); [auto 6 with watch|].
    intros s Hi [[Hgone Hcan] Hl].
    destruct (calm_step t s _ Hi (good_close_cache w s) (spawned_close_cache w s)) as [Hok HL'].
    split_and!; [done|by apply (HL' (gone w)); auto with watch| |by apply (HL' (leaving w l)); auto with watch].
    destruct Hcan as (k & Hk & Hx). unfold close_cache.
    destruct (Cache.Close (cache s) (wk_cacheSubscription (worker_at w s))) as [sub c] eqn:Hcl.
    exists (set_cache (wk_cacheFresh k) sub k). split_and!; [|done|].
    { by apply (on_worker_same w (λ k, set_cache (wk_cacheFresh k) sub k)). }
    simpl. unfold Cache.Close in Hcl. destruct (sub_closed (wk_cacheSubscription _)) eqn:Hy; by simplify_eq. }
  intros []. eapply safe_post; [|apply close_all_safe; auto with watch].
  intros [] s _ [[Hgone Hret] (_ & _ & Hl)]. done.
Qed.

(** ** The rounds of a worker *)

Definition own {A} (w : nat) (L : world → Prop) (p : program A) (Q : A → world → Prop) : Prop :=
  safe (GoRun w) L p Q.
Definition owner_round (w : nat) (p : round) : Prop :=
  own w (settled w) p (ends watch_spec (GoRun w)).

Lemma own_calm {A B} w L (p : program A) R (g : A → program B) Q :
  calm (λ _, True) p R → stable (GoRun w) L →
  (∀ a, R a → own w L (g a) Q) → own w L (p ≫= g) Q.
Proof. intros Hp HL Hg. by eapply safe_calm_bind. Qed.

Lemma round_calm {A} w (p : program A) R (g : A → round) :
  calm (λ _, True) p R → (∀ a, R a → owner_round w (g a)) → owner_round w (p ≫= g).
Proof. intros Hp Hg. eapply own_calm; [exact Hp|apply settled_stable|exact Hg]. Qed.

Lemma round_goto w h : point_worker h = w → point_ok h → owner_round w (mret (Goto h)).
Proof. by intros Hw Hok s _ Hs. Qed.

Lemma round_await w q (g : answer → round) :
  (∀ a, answer_ok q a → owner_round w (g a)) → owner_round w (receive q ≫= g).
Proof.
  intros Hg. split; [by intros s _ Hs|]. intros s a Hi Hs _ Ha. exists (settled w).
  split_and!; [apply settled_stable|done|]. by apply Hg.
Qed.

Lemma round_key w (g : watchWorker → round) :
  (∀ k, read_ok k → own w (λ s, settled w s ∧ key_is w (wk_key k) s) (g k) (ends watch_spec (GoRun w))) →
  owner_round w (the_worker w ≫= g).
Proof.
  intros Hg. apply safe_read. intros s Hi Hs. pose proof Hs as (k & Hk & _).
  exists (λ s', settled w s' ∧ key_is w (wk_key (worker_at w s)) s'). split; [|split].
  - exact (stable_with _ _ _ (settled_stable w) (key_is_mono w _)).
  - split; [done|]. exists k. split; [done|]. by rewrite (worker_at_lookup _ _ _ Hk).
  - apply Hg. by apply worker_at_ok.
Qed.

Lemma keyed_stable w key : stable (GoRun w) (λ s, settled w s ∧ key_is w key s).
Proof. exact (stable_with _ _ _ (settled_stable w) (key_is_mono w key)). Qed.

Lemma forget_key {A} w key (p : program A) Q :
  own w (settled w) p Q → own w (λ s, settled w s ∧ key_is w key s) p Q.
Proof. apply safe_consequence. by intros s _ [? _]. Qed.

Lemma round_exit w : owner_round w (exit cfg arrange order w).
Proof.
  unfold exit. eapply safe_compose; [apply (finish_safe _ _ w (settled_stable w))|].
  - intros s Hi (k & Hk & Ha & _). split_and!; [by exists k|done|by left].
  - intros []. by intros s _ Hs.
Qed.

Lemma round_fail w errs : owner_round w (fail_exit cfg arrange order w errs).
Proof. eapply round_calm; [apply calm_fail|]. intros [] _. apply round_exit. Qed.

Lemma round_relist w : owner_round w (relist cfg arrange order w).
Proof.
  eapply round_calm; [apply calm_begin|]. intros [token|e] _; [by apply round_goto|apply round_fail].
Qed.

Lemma round_invalidate w errs next :
  owner_round w next → owner_round w (invalidate_or_fail cfg arrange order w errs next).
Proof.
  intros Hn. eapply round_calm; [apply calm_invalidateCache|]. intros [e|] _; [apply round_fail|done].
Qed.

Lemma round_install w key snap events failed ok :
  items_wf (Items snap) → events_of key snap = Ok events → Forall topic_clean events →
  (∀ e, owner_round w (failed e)) → owner_round w ok →
  own w (λ s, settled w s ∧ key_is w key s)
    (install_and_announce cfg arrange order w snap events failed ok) (ends watch_spec (GoRun w)).
Proof.
  intros Hwf Hev Hcl Hf Hok. eapply safe_compose; [by apply (install_safe w key)|].
  intros [e|]; [apply Hf|]. eapply own_calm; [apply calm_notify|apply pending_stable|]. intros [] _.
  eapply safe_compose; [by apply announce_safe|]. intros []; [apply Hok|apply Hf].
Qed.

Lemma round_list_complete w token snap :
  items_wf (Items snap) → owner_round w (list_complete cfg arrange order w token snap).
Proof.
  intros Hwf. apply round_key. intros k [_ Ht].
  change (SnapshotEvents (Generation (wk_key k)) (key_Topic (wk_key k)) (ResourceVersion snap) snap)
    with (events_of (wk_key k) snap).
  destruct (events_of (wk_key k) snap) as [events|e] eqn:Hev.
  - assert (own w (λ s, settled w s ∧ key_is w (wk_key k) s)
      (install_and_announce cfg arrange order w snap events
         (λ e, fail_exit cfg arrange order w [default ContextCanceled e])
         (mret (Goto (AtConnect w (ResourceVersion snap) initial_backoff))))
      (ends watch_spec (GoRun w))) as Hin.
    { apply round_install; [done|done|by eapply events_clean|intros; apply round_fail|by apply round_goto]. }
    eapply own_calm; [by apply calm_commit|apply keyed_stable|]. intros [e|] _; [|exact Hin].
    eapply own_calm; [apply calm_abort|apply keyed_stable|]. intros [] _.
    destruct (is_fenced e); [apply forget_key, round_fail|].
    eapply own_calm; [apply calm_invalidateCache|apply keyed_stable|].
    intros [e'|] _; [apply forget_key, round_fail|exact Hin].
  - apply forget_key. eapply round_calm; [apply calm_abort|]. intros [] _. apply round_fail.
Qed.

Lemma round_list w token previewed : owner_round w (list_round cfg arrange order w token previewed).
Proof.
  apply round_await. intros a Ha. destruct a as [| items|[snap|e]| | | | | | |]; try by apply round_goto.
  - destruct (if (500 <=? previewed)%Z then [] else _) as [|o page]; [by apply round_goto|].
    eapply round_calm; [apply calm_the_worker|]. intros k Hk.
    eapply round_calm; [apply calm_plain; [done|set_solver]|]. intros _ _. by apply round_goto.
  - by apply round_list_complete.
  - eapply round_calm; [apply calm_abort|]. intros [] _.
    destruct (access_lost e); [apply round_invalidate|]; apply round_fail.
Qed.

Lemma round_connected w rv backoff : owner_round w (connected w rv backoff).
Proof. eapply round_calm; [apply calm_setConnected|]. intros [] _. by apply round_goto. Qed.

Lemma round_sync_complete w snap :
  items_wf (Items snap) → owner_round w (sync_complete cfg arrange order w snap).
Proof.
  intros Hwf. apply round_key. intros k [_ Ht].
  change (SnapshotEvents (Generation (wk_key k)) (key_Topic (wk_key k)) (ResourceVersion snap) snap)
    with (events_of (wk_key k) snap).
  destruct (events_of (wk_key k) snap) as [events|e] eqn:Hev; [|apply forget_key, round_relist].
  eapply own_calm; [apply calm_begin|apply keyed_stable|]. intros r _.
  eapply (own_calm _ _ _ any); [|apply keyed_stable|].
  - destruct r as [token|e]; [|by apply calm_ret].
    eapply calm_bind; [by apply calm_commit|]. intros err _. apply calm_when, calm_abort.
  - intros _ _. apply round_install; [done|done|by eapply events_clean|intros; apply round_relist|].
    apply round_connected.
Qed.

Lemma round_unsupported w e :
  owner_round w (markInitialUnsupported w e;; relist cfg arrange order w).
Proof. eapply round_calm; [apply calm_markInitialUnsupported|]. intros [] _. apply round_relist. Qed.

Lemma round_sync w items size :
  items_wf items → owner_round w (sync_round cfg arrange order w items size).
Proof.
  intros Hwf. apply round_await. intros a Ha. destruct a as [| | |ch| | | | | |]; try apply round_relist.
  destruct (ch_Err ch); [apply round_unsupported|].
  destruct (EqualFold (ch_Type ch) "BOOKMARK" && _).
  { destruct (String.eqb (ch_ResourceVersion ch) ""); [apply round_relist|by apply round_sync_complete]. }
  eapply round_calm; [apply calm_the_worker|]. intros k _.
  destruct (EqualFold (ch_Type ch) "ADDED") eqn:Hadd; [|apply round_relist].
  destruct (item_of_topic _ _); [|apply round_relist]. cbn [negb orb].
  destruct (_ || _); [apply round_relist|]. apply round_goto; [done|]. by apply Ha.
Qed.

Lemma round_try w : owner_round w (tryInitialWatch cfg arrange order w).
Proof.
  unfold tryInitialWatch. destruct (negb _); [apply round_relist|].
  eapply round_calm; [by apply (calm_look _ _ any)|]. intros [] _; [apply round_relist|].
  apply round_await. intros a _. destruct a as [[e|]| | | | | | | | |]; try apply round_relist.
  - apply round_unsupported.
  - apply round_goto; [done|]. split; [constructor|apply NoDup_nil_2].
Qed.

Lemma round_run w : owner_round w (run cfg arrange order w).
Proof.
  eapply round_calm; [apply calm_the_worker|]. intros k _.
  destruct (negb (wk_snapshotReady k)); [apply round_try|].
  cbv zeta. destruct (negb (wk_cacheFresh k) || _); [apply round_relist|by apply round_goto].
Qed.

Lemma round_wait w rv backoff : owner_round w (wait_and_reconnect cfg arrange order w rv backoff).
Proof.
  apply round_await. intros a _. destruct a; try apply round_exit. by apply round_goto.
Qed.

Lemma round_expired w : owner_round w (expired cfg arrange order w).
Proof.
  apply round_invalidate. eapply round_calm; [apply calm_refreshed|]. intros _ _. apply round_relist.
Qed.

Lemma round_connect w rv backoff : owner_round w (connect_round cfg arrange order w rv backoff).
Proof.
  apply round_await. intros a _. destruct a as [[e|]| | | | | | | | |]; try apply round_connected.
  destruct (is_resource_expired e); [apply round_expired|].
  destruct (access_lost e); [apply round_invalidate, round_fail|apply round_wait].
Qed.

Lemma updateSnapshot_safe w key e :
  delta_of key e →
  own w (λ s, settled w s ∧ key_is w key s) (updateSnapshot cfg arrange order w e)
    (λ ok s, if ok : bool then owed w (λ _, [e]) [e] s else settled w s).
Proof.
  intros He. eapply safe_compose; [by apply (update_safe w key)|]. intros [].
  - by intros s _ Hs.
  - by intros s _ Hs.
  - by intros s _ Hs.
  - eapply own_calm; [apply calm_invalidateCache|apply settled_stable|]. intros err _.
    eapply (own_calm _ _ _ any); [|apply settled_stable|].
    + destruct err; [apply calm_fail|apply calm_terminal].
    + intros [] _. by intros s _ Hs.
Qed.

Lemma round_disconnect w : owner_round w (disconnect cfg arrange order w).
Proof. eapply round_calm; [apply calm_setConnected|]. intros [] _. apply round_exit. Qed.

Lemma change_delta key ch now e :
  (0 < len (object_json (ch_Object ch)))%Z → watchChangeEvent key ch now = Ok e → delta_of key e.
Proof.
  intros Hpos He. pose proof (watch_change_event_sound key ch now) as Hs. rewrite He in Hs.
  destruct Hs as (_ & Ht & _ & Hev & _ & _ & Hcase). split_and!; [done| |].
  - intros Hsn. unfold is_upsert, is_delete in Hcase. rewrite Hsn in Hcase. simpl in Hcase. naive_solver.
  - intros Hup. destruct Hcase as [(_ & _ & o & Ho & Hch & _)|(Hdel & _)].
    + by rewrite Ho, <- Hch.
    + unfold is_upsert, is_delete in *. apply String.eqb_eq in Hdel. by rewrite Hdel in Hup.
Qed.

Lemma round_change w rv backoff ch :
  (0 < len (object_json (ch_Object ch)))%Z →
  owner_round w (apply_change cfg arrange order format_time w rv backoff ch).
Proof.
  intros Hpos. apply round_key. intros k Hk.
  eapply own_calm; [by apply (calm_look _ _ any)|apply keyed_stable|]. intros now _.
  destruct (watchChangeEvent (wk_key k) ch (format_time now)) as [e|err] eqn:He.
  - pose proof (change_delta _ _ _ _ Hpos He) as Hd. assert (topic_clean e) as Hce.
    { destruct Hd as [Ht _]. unfold topic_clean. rewrite Ht. apply Hk. }
    eapply safe_compose; [by apply updateSnapshot_safe|]. intros []; cbn [negb]; [|apply round_disconnect].
    eapply own_calm; [apply calm_markStale|apply pending_stable|]. intros [] _.
    eapply own_calm; [apply calm_notify|apply pending_stable|]. intros [] _.
    eapply safe_compose; [by apply broadcast_owner|]. intros []; [by apply round_goto|apply round_disconnect].
  - apply forget_key. eapply round_calm; [apply calm_setConnected|]. intros [] _.
    eapply round_calm; [apply calm_terminal|]. intros [] _. apply round_exit.
Qed.

Lemma round_stream w rv backoff : owner_round w (stream_round cfg arrange order format_time w rv backoff).
Proof.
  apply round_await. intros a Ha. destruct a as [| | |ch| | | | | |]; try apply round_disconnect.
  - destruct (ch_Err ch) as [e|].
    + eapply round_calm; [apply calm_setConnected|]. intros [] _.
      destruct (is_resource_expired e); [apply round_expired|].
      destruct (access_lost e); [apply round_invalidate|]; apply round_fail.
    + destruct (EqualFold (ch_Type ch) "BOOKMARK"); [|by apply round_change].
      destruct (String.eqb (ch_ResourceVersion ch) ""); [by apply round_goto|].
      eapply safe_compose; [apply bookmark_safe|]. intros []. by apply round_goto.
  - eapply round_calm; [apply calm_setConnected|]. intros [] _. apply round_wait.
  - by apply round_goto.
Qed.

(** ** Subscribing *)

Lemma identity_fields k1 k2 :
  key_clean k1 → key_clean k2 → key_Topic k1 ∈ topicOrder → key_Topic k2 ∈ topicOrder →
  WatchKey_identity k1 = WatchKey_identity k2 →
  Generation k1 = Generation k2 ∧ key_Topic k1 = key_Topic k2.
Proof.
  intros (G1 & C1 & S1) (G2 & C2 & S2) T1 T2 Heq. unfold WatchKey_identity in Heq.
  apply nul_split in Heq as [Hg Heq]; [|done..]. apply nul_split in Heq as [_ Heq]; [|done..].
  apply nul_split in Heq as [_ Heq]; [|done..].
  apply nul_split in Heq as [Ht _]; [done|by apply topics_nul_free..].
Qed.

Lemma gvr_topic key : key_GVR key ∈ TopicGVRs (key_Topic key) → key_Topic key ∈ topicOrder.
Proof.
  intros Hin. apply topicGVRs_supported. unfold TopicGVRs in Hin.
  destruct (topicGVRs (key_Topic key)); [done|]. simpl in Hin. set_solver.
Qed.

Lemma fill_queue_spec key initial q ok q' :
  fill_queue key q initial = (ok, q') → Queue.closed q = false →
  key_Topic key ∈ topicOrder → Forall topic_clean initial →
  Forall (λ x, topic_clean (q_event x)) (queue q) →
  Forall (λ x, topic_clean (q_event x)) (queue q')
  ∧ if ok then ∀ topic m, consume topic m (q_event <$> queue q')
                        = consume topic m ((q_event <$> queue q) ++ initial)
    else Queue.closed q' = true.
Proof.
  intros Hf Hc Ht Hi. revert q Hf Hc. induction Hi as [|e initial He _ IH]; intros q Hf Hc Hq; simpl in Hf.
  { simplify_eq. split; [done|]. intros topic m. by rewrite app_nil_r. }
  destruct (push q e) as [[] q1] eqn:Hp.
  - destruct (push_true _ _ _ Hp) as (_ & Hc1 & Hq1).
    destruct (IH q1 Hf Hc1) as [Hq' Hrest].
    { apply Forall_forall. intros x Hx. rewrite Forall_forall in Hq.
      destruct (Hq1 x Hx) as [?| ->]; [by apply Hq|done]. }
    split; [done|]. destruct ok; [|done]. intros topic m.
    rewrite Hrest, consume_app, (push_consume _ _ _ _ _ Hp He Hq), <- consume_app, <- app_assoc. done.
  - apply push_false in Hp as ->. simplify_eq. unfold forceTerminal. rewrite Hc. simpl.
    split; [|done]. constructor; [|constructor]. by right.
Qed.

Lemma prepare_initial_ok w key s k :
  watch_inv cfg s → store s !! w = Some k →
  Generation (wk_key k) = Generation key → key_Topic (wk_key k) = key_Topic key →
  let '(r, s') := prepare_initial w key s in
  good cfg None s s' ∧ spawned s' = spawned s ∧ subs s' = subs s ∧ workers s' = workers s
  ∧ ∃ k', store s' !! w = Some k' ∧ soft k k'
    ∧ match r with
      | Ok initial => Forall topic_clean initial
          ∧ (wk_snapshotReady k' = true → ∀ m, consume (topic_of k') m initial = level k')
      | Err _ => True
      end.
Proof.
  intros Hi Hk Hg Ht. pose proof (wi_workers _ _ Hi w k Hk) as Hok. unfold prepare_initial.
  rewrite (worker_at_lookup _ _ _ Hk). destruct Hok as [W1 W2 W3 W4 W5].
  assert (∀ evs, events_of (wk_key k) (wk_snapshot k) = Ok evs → wk_snapshotReady k = true →
    Forall topic_clean evs ∧ ∀ m, consume (topic_of k) m evs = level k) as Hevs.
  { intros evs Hev Hr. split; [eapply events_clean; [|done]; by right|].
    destruct (W4 Hr) as (Hwf & _). by destruct (snapshot_consume _ _ _ _ _ Hev Hwf). }
  destruct (wk_initial k) as [|e0 l0] eqn:Hin; [destruct (wk_snapshotReady k) eqn:Hr|].
  - rewrite <- Hg, <- Ht.
    change (SnapshotEvents (Generation (wk_key k)) (key_Topic (wk_key k)) (ResourceVersion (wk_snapshot k))
      (wk_snapshot k)) with (events_of (wk_key k) (wk_snapshot k)).
    destruct (events_of (wk_key k) (wk_snapshot k)) as [evs|e] eqn:Hev.
    + split_and!; [|done..|].
      * apply good_soft. intros k0 Hk0. assert (k0 = k) as -> by congruence. split; [done|]. intros _.
        split; try done; intros Hr'; [|simpl in Hr'; congruence].
        destruct (W4 eq_refl) as (V1 & V2 & V3 & V4 & _). simpl. split_and!; try done. by right.
      * exists (set_initial evs k). split; [by apply on_worker_same|]. split; [done|].
        destruct (Hevs evs eq_refl eq_refl) as [V1 V2]. done.
    + split_and!; [apply good_refl|done..|]. exists k. by split_and!.
  - split_and!; [apply good_refl|done..|]. exists k. split; [done|]. split; [done|].
    split; [constructor|]. intros Hr'. congruence.
  - split_and!; [apply good_refl|done..|]. exists k. split; [done|]. split; [done|].
    destruct (wk_snapshotReady k) eqn:Hr.
    + destruct (W4 eq_refl) as (_ & _ & _ & _ & [Hnil|Hev]); [done|].
      destruct (Hevs _ Hev eq_refl) as [V1 V2]. done.
    + destruct (W5 eq_refl) as [_ Hnil]. done.
Qed.

Lemma unregister_gone w s : watch_inv cfg s → unregistered w (unregister w s).
Proof.
  intros Hi i. cbn [workers unregister with_workers]. intros [Hne Hw]%lookup_delete_Some. apply Hne.
  destruct (wi_registered _ _ Hi _ _ Hw) as (k' & Hk' & <-). unfold identity_of.
  by rewrite (worker_at_lookup _ _ _ Hk').
Qed.

(** Where a call of [Subscribe] may leave the state. *)
Definition join_result (w : nat) (created : bool) (s s' : world) (r : subscribed) : Prop :=
  match r with
  | Refused _ => spawned s' = spawned s
  | Joined j w' => w' = w ∧
      spawned s' = spawned s ++ (if created then [GoRun w] else []) ++ [GoWatchContext j w]
  | Rejected j w' created' => w' = w ∧ created' = created ∧ spawned s' = spawned s
      ∧ closed_sub j s' ∧ (created = true → leaving w [] s')
  end.

Lemma join_worker_ok w created key s k :
  watch_inv cfg s → key_clean key → key_Topic key ∈ topicOrder →
  store s !! w = Some k → workers s !! WatchKey_identity key = Some w →
  (created = true → wk_subscribers k = ∅ ∧ attached w s) →
  let '(r, s') := join_worker w created key s in
  good cfg None s s' ∧ join_result w created s s' r.
Proof.
  intros Hi Hkey Htop Hk Hreg Hnew. unfold join_worker.
  set (s1 := clear_timer w s).
  assert (good cfg None s s1) as G1 by apply good_clear_timer. destruct (G1 Hi) as [Hi1 C1].
  assert (spawned s1 = spawned s) as P1 by apply spawned_clear_timer.
  assert (workers s1 = workers s) as M1 by (subst s1; unfold clear_timer, stop_timer; by destruct (wk_idleTimer _)).
  assert (store s1 !! w = Some (set_idle None (wk_stopping k) k)) as Hk1.
  { subst s1. unfold clear_timer.
    apply (on_worker_same w (λ k, set_idle None (wk_stopping k) k)). unfold stop_timer.
    by destruct (wk_idleTimer (worker_at w s)). }
  destruct (wi_registered _ _ Hi _ _ Hreg) as (k0 & Hk0 & Hid). simplify_eq.
  destruct (wi_workers _ _ Hi w k Hk) as [W1 W2 W3 _ _].
  destruct (identity_fields (wk_key k) key W1 Hkey W2 Htop Hid) as [Hg Ht].
  pose proof (prepare_initial_ok w key s1 _ Hi1 Hk1 Hg Ht) as Hprep.
  destruct (prepare_initial w key s1) as [r s2].
  destruct Hprep as (G2 & P2 & B2 & M2 & k2 & Hk2 & (K2 & X2 & _) & Hinit).
  destruct r as [initial|e]; [|split; [by eapply good_trans|cbn [join_result]; congruence]].
  destruct (G2 Hi1) as [Hi2 C2]. destruct Hinit as [Hclean Hview].
  destruct (fill_queue key fresh_queue initial) as [ok q] eqn:Hfill.
  destruct (fill_queue_spec key initial fresh_queue ok q Hfill eq_refl Htop Hclean (Forall_nil_2 _))
    as [Hq Hres]. set (j := length (subs s2)).
  set (ss := {| ss_queue := q; ss_worker := w; ss_delivered := []; ss_ctxDone := false |}).
  set (s3 := on_worker w _ _).
  assert (good cfg None s2 s3) as G3.
  { apply (good_join cfg w (WatchKey_identity key) k2); [done|congruence|done|done|].
    intros Hop Hr. destruct ok; [|unfold is_open in Hop; simpl in Hop; congruence].
    unfold view, history. simpl. rewrite Hres. by apply Hview. }
  destruct (G3 Hi2) as [Hi3 C3]. assert (good cfg None s s3) as G by (by eapply good_trans, good_trans).
  destruct ok.
  { split; [eapply good_trans; [exact G|]; by apply good_frame; auto with watch|].
    split; [done|]. simpl. by rewrite P2, P1. }
  assert (subs s3 !! j = Some ss) as Hj by (by apply list_lookup_middle).
  assert (store s3 !! w = Some (set_subscribers (wk_subscribers k2 ∪ {[j]}) k2)) as Hk3.
  { apply (on_worker_same w (λ k, set_subscribers (wk_subscribers k ∪ {[j]}) k)). done. }
  assert (closed_sub j s3) as Hcl by (exists ss; split; [done|unfold is_open; simpl; congruence]).
  destruct created; [|by split_and!; [..|simpl; rewrite P2, P1]].
  assert (good cfg None s3 (set_stopping w (unregister w s3))) as G4
    by (eapply good_trans; [apply good_unregister_worker|apply good_set_stopping]).
  split; [by eapply good_trans|]. split_and!; [done|done|simpl; by rewrite P2, P1|done|].
  intros _. destruct (Hnew eq_refl) as [Hnone Hatt]. split_and!.
  - eexists. by apply (on_worker_same w).
  - intros i. apply (unregister_gone w s3 Hi3).
  - intros i x Hx Hw Hop. assert (attached w s3) as Ha3.
    { apply (core_attached _ _ _ C3); [by eapply lookup_lt_Some|done|].
      apply (core_attached _ _ _ C2); [by eapply lookup_lt_Some|done|].
      apply (core_attached _ _ _ C1); [by eapply lookup_lt_Some|done..]. }
    destruct (Ha3 i x Hx Hw Hop) as (k4 & Hk4 & Hin). rewrite Hk3 in Hk4. simplify_eq.
    simpl in Hin. rewrite X2 in Hin. simpl in Hin. rewrite Hnone in Hin.
    assert (i = j) as -> by set_solver. destruct Hcl as (y & Hy & Hyo).
    exfalso. apply Hyo. change (subs s3 !! j = Some x) in Hx. assert (y = x) as -> by congruence. done.
Qed.

Lemma on_last f k c s :
  on_worker (length (store s)) f (with_store (store s ++ [k]) (with_cache c s))
  = with_store (store s ++ [f k]) (with_cache c s).
Proof.
  unfold on_worker. cbn [store with_store with_cache].
  rewrite <- (Nat.add_0_r (length (store s))) at 1. rewrite alter_app_r. done.
Qed.

Lemma fits_new k c s size :
  watch_inv cfg s →
  snapshotFitsLocked cfg (length (store s)) size (with_store (store s ++ [k]) (with_cache c s)) = true →
  (size + SnapshotBytes s ≤ snapshot_limit cfg)%Z.
Proof.
  intros Hi Hfit. unfold snapshotFitsLocked in Hfit. bool_to_prop. fold (snapshot_limit cfg) in Hfit.
  etrans; [|exact Hfit]. apply Z.add_le_mono_l, Z.eq_le_incl. unfold SnapshotBytes. apply map_sum_ext.
  intros i v Hv. destruct (wi_registered _ _ Hi i v Hv) as (k' & Hk' & _).
  pose proof (lookup_lt_Some _ _ _ Hk'). rewrite decide_False by lia.
  unfold held_bytes, worker_at. simpl. by rewrite lookup_app_l by done.
Qed.

(** A created worker: registered under its key, alone, with what the cache had. *)
Definition created_at (w : nat) (key : WatchKey) (s : world) : Prop :=
  ∃ k, store s !! w = Some k ∧ wk_subscribers k = ∅ ∧ workers s !! WatchKey_identity key = Some w.

Lemma create_worker_ok key s :
  watch_inv cfg s → key_clean key → closed s = false → workers s !! WatchKey_identity key = None →
  let '(r, s') := create_worker cfg key s in
  good cfg None s s' ∧ spawned s' = spawned s ∧ subs s' = subs s
  ∧ match r with Ok w => w = length (store s) ∧ created_at w key s' | Err _ => True end.
Proof.
  intros Hi Hkey Hopen Hfree. unfold create_worker.
  destruct (Cache.Subscribe (cache s) (cache_key key)) as [[sub|e] c] eqn:Hsub;
    pose proof (Subscribe_step (cache s) (cache_key key)) as Hst; rewrite Hsub in Hst; simpl in Hst;
    [|split_and!; [by apply good_cache|done..]].
  destruct (Subscribe_live _ _ _ _ Hsub) as (Hlive & Hgen & Hsc & Hgvr).
  pose proof (gvr_topic key Hgvr) as Htop. set (w := length (store s)).
  assert (worker_ok (new_worker key sub)) as Hnew by (by split).
  assert (∀ k c', worker_ok k → wk_key k = key → wk_subscribers k = ∅ → cache_step (cache s) c' →
    (wk_snapshotBytes k + SnapshotBytes s ≤ snapshot_limit cfg)%Z →
    let s' := with_workers (<[WatchKey_identity key := w]> (workers s))
                (with_store (store s ++ [k]) (with_cache c' s)) in
    good cfg None s s' ∧ spawned s' = spawned s ∧ subs s' = subs s ∧ w = w ∧ created_at w key s') as Hreg.
  { intros k c' Hk Hkk Hnone Hc' Hb. rewrite <- Hkk. split_and!; [|done..|].
    - apply good_register; rewrite ?Hkk; done.
    - exists k. split_and!; [by apply list_lookup_middle|done|apply lookup_insert_eq]. }
  cbn [cache with_store with_cache clock]. destruct (Load c sub (clock s)) as [cached c1] eqn:Hload.
  assert (cache_step (cache s) c1) as Hc1.
  { eapply cache_step_trans; [exact Hst|]. pose proof (Load_step c sub (clock s)) as Hl. by rewrite Hload in Hl. }
  assert (0 + SnapshotBytes s ≤ snapshot_limit cfg)%Z as Hb0 by apply Hi.
  destruct cached as [found|]; [|by apply (Hreg (new_worker key sub) c1)].
  case_bool_decide; [by apply (Hreg (new_worker key sub) c1)|].
  assert (∀ e c', cache_step (cache s) c' →
    let s' := cancel w (close_cache w (with_store (store s ++ [new_worker key sub]) (with_cache c' s))) in
    good cfg None s s' ∧ spawned s' = spawned s ∧ subs s' = subs s
    ∧ match (@Err error nat e) with Ok w => w = length (store s) ∧ created_at w key s' | Err _ => True end) as Hgive.
  { intros e c' Hc' s'. split_and!; try done.
    - eapply good_trans; [by apply (good_orphan cfg (new_worker key sub) c')|].
      eapply good_trans; [apply good_close_cache|apply good_cancel].
    - subst s'. unfold close_cache. by destruct (Cache.Close _ _).
    - subst s'. unfold close_cache. by destruct (Cache.Close _ _). }
  change (SnapshotEvents (Generation key) (key_Topic key) (ResourceVersion (cs_Snapshot found)) (cs_Snapshot found))
    with (events_of key (cs_Snapshot found)).
  change (with_cache c1 (with_store (store s ++ [new_worker key sub]) (with_cache c s)))
    with (with_store (store s ++ [new_worker key sub]) (with_cache c1 s)).
  assert (items_wf (Items (cs_Snapshot found))) as Hwf.
  { eapply (Load_wf c sub (clock s)); [|by rewrite Hload]. eapply cache_step_wf; [exact Hst|]. apply Hi. }
  destruct (events_of key (cs_Snapshot found)) as [events|e] eqn:Hev.
  - unfold installSnapshotLocked. destruct (_ || _ || _); [by apply (Hgive ContextCanceled)|].
    destruct ((_ <? _)%Z || _ || _) eqn:Hbig; [by apply (Hgive memory_budget)|].
    apply orb_false_iff in Hbig as [[Hn Hb]%orb_false_iff Hfit%negb_false_iff]. bool_to_prop.
    apply fits_new in Hfit; [|done]. subst w. rewrite !on_last.
    apply (Hreg (set_cache (bool_decide (cs_State found = CacheStateFresh)) sub
      (set_level (cs_Snapshot found) (len (items_json (Items (cs_Snapshot found)))) true events
         (new_worker key sub))) c1); try done.
    destruct Hnew as [W1 W2 W3 _ _]. split; try done. intros _. simpl. split_and!; try done; try lia. by right.
  - unfold invalidate. cbn [cache with_store with_cache].
    destruct (Invalidate c1 (cache_key key)) as [[e'|] c2] eqn:Hinv;
      pose proof (Invalidate_step c1 (cache_key key)) as Hi2; rewrite Hinv in Hi2;
      (assert (cache_step (cache s) c2) as Hc2 by (by eapply cache_step_trans)).
    + by apply (Hgive e').
    + by apply (Hreg (new_worker key sub) c2).
Qed.

Lemma born_app s s' l : spawned s' = spawned s ++ l → born watch_system s s' = l.
Proof. intros Hl. cbn [born watch_system]. by rewrite Hl, drop_app_length. Qed.

(** A step of a goroutine that owns nothing, with the goroutines it starts. *)
Lemma step_spawn t s s' l :
  goroutine_owner t = None → watch_inv cfg s' → core None s s' → spawned s' = spawned s ++ l →
  NoDup (omap goroutine_owner l) →
  (∀ w, w ∈ omap goroutine_owner l → length (store s) ≤ w < length (store s')) →
  Forall (λ g, pre watch_spec g s') l → step_ok (Some t) s s'.
Proof.
  intros Ht Hi Hc Hl Hnd Hw Hpre. pose proof (born_app _ _ _ Hl) as Hb.
  split; [done|]. rewrite Hb. split; [|done]. split; [simpl; by rewrite Ht|].
  unfold born_ok. by rewrite Hb.
Qed.

Definition rejected_ok (r : subscribed) (s : world) : Prop :=
  match r with
  | Rejected j w true => leaving w [] s
  | Rejected j w false => closed_sub j s
  | _ => True
  end.

Lemma join_step t w created key s0 s k :
  goroutine_owner t = None → watch_inv cfg s0 → core None s0 s → spawned s = spawned s0 →
  watch_inv cfg s → key_clean key → key_Topic key ∈ topicOrder →
  store s !! w = Some k → workers s !! WatchKey_identity key = Some w →
  (created = true → length (store s0) ≤ w ∧ wk_subscribers k = ∅ ∧ attached w s) →
  step_ok (Some t) s0 (join_worker w created key s).2
  ∧ rejected_ok (join_worker w created key s).1 (join_worker w created key s).2.
Proof.
  intros Ht Hi0 Hc0 Hsp Hi Hkey Htop Hk Hreg Hnew.
  pose proof (join_worker_ok w created key s k Hi Hkey Htop Hk Hreg) as Hj.
  destruct (join_worker w created key s) as [r s']. cbn [fst snd].
  destruct Hj as [Hg Hres]; [intros Hx; by destruct (Hnew Hx)|].
  destruct (Hg Hi) as [Hi' Hc]. assert (core None s0 s') as Hc' by (by eapply core_trans).
  pose proof (core_length _ _ _ Hc) as Hlen. apply lookup_lt_Some in Hk as Hw.
  destruct r as [e|j w'|j w' created']; simpl in Hres.
  - split; [|done]. apply (step_spawn t _ _ []); auto; [by rewrite app_nil_r; congruence|constructor|].
    intros v Hv. simpl in Hv. set_solver.
  - destruct Hres as [-> Hl]. split; [|done]. rewrite Hsp in Hl.
    apply (step_spawn t _ _ _ Ht Hi' Hc' Hl); destruct created; simpl.
    + apply NoDup_singleton.
    + constructor.
    + intros v ->%list_elem_of_singleton. destruct (Hnew eq_refl). lia.
    + intros v Hv. set_solver.
    + destruct (Hnew eq_refl) as (_ & Hnone & Ha). repeat constructor; try done.
      apply (owed_core _ _ _ None s); [done|done|done|]. exists k. split_and!; [done|done|].
      intros _. split; [apply settles_nil|]. intros i ss Hin. rewrite Hnone in Hin. set_solver.
    + repeat constructor.
  - destruct Hres as (-> & -> & Hl & Hcl & Hleave). split.
    + apply (step_spawn t _ _ []); auto; [by rewrite app_nil_r; congruence|constructor|].
      intros v Hv. simpl in Hv. set_solver.
    + destruct created; simpl; auto.
Qed.

Lemma subscribe_step t key s :
  goroutine_owner t = None → watch_inv cfg s → key_clean key → key_Topic key ∈ topicOrder →
  step_ok (Some t) s (Subscribe_locked cfg key s).2
  ∧ rejected_ok (Subscribe_locked cfg key s).1 (Subscribe_locked cfg key s).2.
Proof.
  intros Ht Hi Hkey Htop. unfold Subscribe_locked.
  destruct (closed s) eqn:Hc; [split; [by apply idle_ok|done]|].
  destruct (workers s !! WatchKey_identity key) as [w|] eqn:Hreg.
  - destruct (wi_registered _ _ Hi _ _ Hreg) as (k & Hk & _).
    by apply (join_step t w false key s s k); auto using core_refl.
  - pose proof (create_worker_ok key s Hi Hkey Hc Hreg) as Hcr.
    destruct (create_worker cfg key s) as [[w|e] s1]; destruct Hcr as (Hg & Hsp & Hsu & Hw);
      destruct (Hg Hi) as [Hi1 Hc1].
    + destruct Hw as (-> & k & Hk & Hnone & Hreg1).
      apply (join_step t _ true key s s1 k); auto. intros _. split_and!; [lia|done|].
      intros j ss Hj Hw _. rewrite Hsu in Hj. destruct (wi_queues _ _ Hi j ss Hj). lia.
    + split; [|done]. exact (proj1 (calm_step t s s1 Hi Hg Hsp)).
Qed.

(** ** The other calls *)

Lemma calm_done {A} t L C (p : program A) R (r : call_result) :
  calm C p R → stable t L → (∀ s, watch_inv cfg s → L s → C s) →
  (∀ s, watch_inv cfg s → L s → post watch_spec t r s) →
  safe t L (p;; mret (Done r)) (ends watch_spec t).
Proof.
  intros Hp HL HC Hpost. eapply safe_calm_bind; [done..|]. intros a _ s Hi HLs. by apply Hpost.
Qed.

Lemma true_stable t : stable t (λ _, True).
Proof. by intros u s s' _ _ _ _. Qed.

Lemma subscribe_safe key :
  safe (CallSubscribe key) (λ _, key_clean key) (Subscribe cfg arrange order key)
    (ends watch_spec (CallSubscribe key)).
Proof.
  unfold Subscribe. destruct (negb _); [by intros s _ _|]. destruct (_ || _ || _); [by intros s _ _|].
  case_bool_decide as Hgvr; [|by intros s _ _]. cbn [negb]. apply gvr_topic in Hgvr.
  eapply safe_compose; [apply (safe_atomically _ _ _ _ _ (λ r s, rejected_ok r s))|].
  - intros [|j w|j w []]; simpl; auto using true_stable with watch.
  - intros s Hi Hkey. by apply subscribe_step.
  - intros [e|j w|j w []]; [by intros s _ _..| |].
    + eapply safe_compose; [apply (finish_safe _ (leaving w [])); [auto with watch|]|].
      * intros s Hi (Hk & Hu & Hl). split_and!; [done| |by right].
        intros i ss Hj Hw Hop. specialize (Hl i ss Hj Hw Hop). set_solver.
      * intros []. by intros s _ _.
    + eapply calm_done; [apply calm_remove|apply mono_stable, closed_sub_mono|done|done].
Qed.

Lemma calm_stop_all C reason l : calm C (stop_all cfg arrange order reason l) any.
Proof.
  induction l as [|w l IH]; [by apply calm_ret|]. cbn [stop_all foldr].
  eapply calm_bind; [apply calm_terminal|]. intros [] _.
  eapply calm_bind; [apply calm_cancel|]. intros [] _. exact IH.
Qed.

Lemma good_drop P s : good cfg None s (drop_registered P s).
Proof. apply good_unregister, map_filter_subseteq. Qed.

Lemma dropped_workers P s i w :
  workers (drop_registered P s) !! i = Some w → workers s !! i = Some w ∧ P (worker_at w s) = false.
Proof.
  unfold drop_registered. cbn [workers with_workers]. intros [Hw HP]%map_lookup_filter_Some. done.
Qed.

Lemma good_with_flags b u s : b = closed s → good cfg None s (with_flags b u s).
Proof. intros ->. by apply good_frame; auto with watch. Qed.

Definition fenced (g : string) (s : world) : Prop := g = "" ∨ g ∈ invalidatedGeneration (cache s).
Lemma fenced_mono g : mono (fenced g).
Proof.
  intros o s s' Hc [->|Hg]; [by left|right]. pose proof (core_generations _ _ _ Hc). set_solver.
Qed.

Lemma cancel_dead g s : watch_inv cfg s → fenced g s → dead g (CancelGeneration_locked order g s).2.
Proof.
  intros Hi Hg. split; [done|]. intros i w k [Hw HP]%dropped_workers Hk Heq.
  unfold of_generation in HP. rewrite (worker_at_lookup _ _ k) in HP by done.
  by rewrite Heq, String.eqb_refl in HP.
Qed.

Lemma cancel_safe g :
  safe (CallCancelGeneration g) (λ _, True) (CancelGeneration cfg arrange order g)
    (ends watch_spec (CallCancelGeneration g)).
Proof.
  unfold CancelGeneration.
  eapply safe_compose; [apply (safe_modify _ _ _ _ _ (fenced g)); [apply mono_stable, fenced_mono|]|].
  { intros s Hi _. split.
    - refine (proj1 (calm_step _ s _ Hi _ _)); [|done]. apply good_cache, InvalidateGeneration_step.
    - unfold fenced. destruct (decide (g = "")) as [->|Hg]; [by left|right]. simpl.
      unfold InvalidateGeneration. rewrite (proj2 (String.eqb_neq g "")) by done. simpl.
      destruct (fold_invalidate_frame (with_generations (cache s)
        (<[g := u64_succ (get_or (generationEpoch (cache s)) g 0%Z)]> (generationEpoch (cache s)))
        ({[g]} ∪ invalidatedGeneration (cache s)))
        (generation_identities (with_generations (cache s)
        (<[g := u64_succ (get_or (generationEpoch (cache s)) g 0%Z)]> (generationEpoch (cache s)))
        ({[g]} ∪ invalidatedGeneration (cache s))) g)) as (_ & _ & _ & _ & ->). simpl. set_solver. }
  intros []. eapply safe_compose; [apply (safe_atomically _ _ _ _ _ (λ _, dead g)); [auto with watch|]|].
  { intros s Hi Hg. split; [|by apply cancel_dead]. refine (proj1 (calm_step _ s _ Hi _ _)); [|done].
    eapply good_trans; [by apply good_with_flags|apply good_drop]. }
  intros l. eapply calm_done; [apply (calm_stop_all (λ _, True))|auto with watch|done|done].
Qed.

Lemma good_flag_closed u s : workers s = ∅ → good cfg None s (with_flags true u s).
Proof.
  intros Hw Hi. split.
  - by destruct Hi as [I1 I2 I3 I4 I5 I6 I7].
  - destruct (core_refl None s) as [C1 C2 C3 C4 C5 C6 C7 C8 C9]. by split.
Qed.

Lemma close_frame s :
  drop_registered (λ _, true) (with_flags true (unsupported s) s)
  = with_flags true (unsupported s) (with_workers ∅ s).
Proof.
  unfold drop_registered. cbn [workers with_flags]. destruct s; unfold with_workers, with_flags; simpl.
  f_equal. apply map_empty. intros i. apply map_lookup_filter_None. by right.
Qed.

Lemma close_safe :
  safe CallClose (λ _, True) (Close cfg arrange order) (ends watch_spec CallClose).
Proof.
  unfold Close.
  eapply safe_compose; [apply (safe_atomically _ _ _ _ _ (λ _ s, closed s = true)); [auto with watch|]|].
  { intros s Hi _. unfold Close_locked. destruct (closed s) eqn:Hc; [split; [by apply idle_ok|done]|].
    cbn [fst snd]. rewrite close_frame. split; [|done]. refine (proj1 (calm_step _ s _ Hi _ _)); [|done].
    eapply good_trans; [apply good_unregister, map_empty_subseteq|by apply good_flag_closed]. }
  intros [l|]; [|by intros s _ Hc].
  eapply calm_done; [apply (calm_stop_all (λ _, True))|auto with watch|done|done].
Qed.

Lemma calm_evict_all C l : calm C (evict_all arrange l) any.
Proof.
  induction l as [|w l IH]; [by apply calm_ret|]. cbn [evict_all foldr].
  calm_seq. calm_seq. calm_seq. calm_seq. exact IH.
Qed.

Lemma evict_good l s :
  good cfg None s (foldl (λ s w, clear_timer w (set_stopping w s)) s l)
  ∧ spawned (foldl (λ s w, clear_timer w (set_stopping w s)) s l) = spawned s.
Proof.
  revert s. induction l as [|w l IH]; intros s; [split; [apply good_refl|done]|]. cbn [foldl].
  destruct (IH (clear_timer w (set_stopping w s))) as [Hg ->]. split.
  - eapply good_trans; [apply good_set_stopping|]. eapply good_trans; [apply good_clear_timer|done].
  - by rewrite spawned_clear_timer.
Qed.

Lemma evict_safe :
  safe CallEvictIdle (λ _, True) (EvictIdle arrange order) (ends watch_spec CallEvictIdle).
Proof.
  unfold EvictIdle. eapply (safe_calm_bind _ _ (λ _, True) _ any); [|apply true_stable|done|].
  { apply calm_atomically. intros s _ _. unfold EvictIdle_locked. cbn [fst snd].
    destruct (evict_good (registered order is_idle s) (drop_registered is_idle s)) as [Hg Hsp].
    split_and!; [|by rewrite Hsp|done]. eapply good_trans; [apply good_drop|exact Hg]. }
  intros l _. eapply calm_done; [apply (calm_evict_all (λ _, True))|apply true_stable|done|done].
Qed.

Lemma flush_good w snap ready s :
  (ready = true → items_wf (Items snap)) →
  good cfg None s (flush_section arrange w snap ready s).2
  ∧ spawned (flush_section arrange w snap ready s).2 = spawned s.
Proof.
  intros Hwf. unfold flush_section. destruct ready; cbn [negb]; [|split; [apply good_refl|done]].
  pose proof (good_begin w s) as Hb. pose proof (spawned_begin w s) as Hsb.
  destruct (begin_refresh w s) as [[token|e] s1]; [|done]. cbn [snd] in *.
  pose proof (good_commit w token snap s1 (Hwf eq_refl)) as Hc.
  pose proof (spawned_commit w token snap s1) as Hsc.
  destruct (commit arrange w token snap s1) as [[e|] s2]; cbn [snd] in *; (split; [|by rewrite <- Hsb, <- Hsc]).
  - eapply good_trans; [done|]. eapply good_trans; [done|apply good_abort].
  - by eapply good_trans.
Qed.

Lemma stop_good w s :
  watch_inv cfg s →
  good cfg None s (stopIfIdle_locked arrange w s).2
  ∧ spawned (stopIfIdle_locked arrange w s).2 = spawned s.
Proof.
  intros Hi. unfold stopIfIdle_locked.
  destruct (_ || _); [split; [apply good_set_idle|done]|]. cbv zeta.
  pose proof (good_set_stopping w s) as Hs. destruct (Hs Hi) as [Hi1 _].
  assert (spawned (set_stopping w s) = spawned s) as Hsp by done.
  revert Hs Hi1 Hsp. generalize (set_stopping w s). intros s1 Hs Hi1 Hsp.
  destruct (worker_at_ok w s1 Hi1) as [Hwf _].
  destruct (flush_good w _ _ s1 Hwf) as [Hf Hsf].
  destruct (flush_section arrange w _ _ s1) as [err s2]. cbn [snd] in *.
  split; [|destruct err, (wk_connected (worker_at w s1)); cbn; congruence].
  eapply good_trans; [exact Hs|]. eapply good_trans; [exact Hf|].
  eapply good_trans; [|eapply good_trans; [apply good_unregister_worker|apply good_set_idle]].
  destruct err; [apply good_mark_stale|]. destruct (wk_connected _); [apply good_refl|apply good_mark_stale].
Qed.

Lemma stop_safe w :
  safe (GoStopIfIdle w) (λ _, True) (stopIfIdle arrange w) (ends watch_spec (GoStopIfIdle w)).
Proof.
  unfold stopIfIdle. eapply (safe_calm_bind _ _ (λ _, True) _ any); [|apply true_stable|done|].
  { apply calm_atomically. intros s Hi _. destruct (stop_good w s Hi). done. }
  intros b _. eapply calm_done; [exact (calm_when (λ _, True) b _ (calm_cancel _ w))|apply true_stable|done|done].
Qed.

Lemma context_safe j w :
  safe (GoWatchContext j w) (λ _, True) (watch_context cfg arrange j w)
    (ends watch_spec (GoWatchContext j w)).
Proof.
  unfold watch_context. eapply safe_compose.
  { split; [done|]. intros s e Hi _ _ _. exists (λ _, True). split_and!; [apply true_stable|done|].
    instantiate (1 := λ _ _, True). by intros s' _ _. }
  intros []; try by intros s _ _.
  eapply calm_done; [apply (calm_closeSubscription (λ _, True))|apply true_stable|done|done].
Qed.

Lemma goroutine_safe t :
  safe t (pre watch_spec t) (goroutine_code cfg arrange order t) (ends watch_spec t).
Proof.
  destruct t as [key|j|g| | |w|j w|w]; cbn [goroutine_code pre watch_spec].
  - apply subscribe_safe.
  - eapply calm_done; [apply (calm_closeSubscription (λ _, True))|apply true_stable|done|done].
  - apply cancel_safe.
  - apply close_safe.
  - apply evict_safe.
  - apply round_run.
  - apply context_safe.
  - apply stop_safe.
Qed.

Lemma head_safe t h :
  safe t (at_head watch_spec t h) (enter_point cfg arrange order format_time h) (ends watch_spec t).
Proof.
  destruct t as [key|j|g| | |w|j w|w]; cbn [at_head watch_spec];
    try apply safe_absurd.
  apply (safe_consequence _ _ _ (λ s, settled w s ∧ (point_worker h = w ∧ point_ok h))); [done|].
  apply safe_pure. intros [<- Hp].
  destruct h as [w items size|w token previewed|w rv backoff|w rv backoff];
    cbn [enter_point point_worker point_ok] in *.
  - by apply round_sync.
  - apply round_list.
  - apply round_connect.
  - apply round_stream.
Qed.

(** ** The environment *)

Lemma env_quiet s s' :
  watch_inv cfg s → good cfg None s s' → spawned s' = spawned s → Threads.step_ok watch_system watch_spec None s s'.
Proof.
  intros Hi Hg Hsp. destruct (calm_step CallClose s s' Hi Hg Hsp) as [(Hi' & [Hc Hb] & Hpre) _].
  split; [done|]. split; [by split|done].
Qed.

Lemma consume_good j s : good cfg None s (with_subs (alter consume_next j (subs s)) s).
Proof.
  apply good_queue. intros ss Hss. unfold consume_next, Next_poll, is_open.
  destruct (queue (ss_queue ss)) as [|x rest] eqn:Hq.
  { by destruct (Queue.closed (ss_queue ss)) eqn:Hc; rewrite ?Hq, ?Hc; auto. }
  cbn [ss_worker ss_queue queue Queue.closed]. split_and!; [done|done|by intros [_ ?]%Forall_cons|].
  intros _ _ k _. unfold view, history. cbn [ss_delivered ss_queue queue]. rewrite Hq. simpl.
  by rewrite <- app_assoc.
Qed.

Lemma environment_ok n s :
  watch_inv cfg s → Threads.step_ok watch_system watch_spec None s (env_apply n s).
Proof.
  intros Hi. destruct n as [d|t|j|j|d]; cbn [env_apply].
  - apply env_quiet; [done| |done]. by apply good_frame; auto with watch.
  - destruct (timers s !! t) as [w|]; [|apply env_quiet; [done|apply good_refl|done]].
    assert (good cfg None s (with_spawned (spawned s ++ [GoStopIfIdle w])
      (with_timers (delete t (timers s)) (timer_count s) s))) as Hg
      by (by apply good_frame; auto with watch).
    destruct (Hg Hi) as [Hi' Hc].
    destruct (step_spawn CallClose s _ [GoStopIfIdle w] eq_refl Hi' Hc eq_refl) as (_ & [_ Hb] & Hpre).
    + constructor.
    + intros v Hv. simpl in Hv. set_solver.
    + by repeat constructor.
    + split; [done|]. split; [by split|done].
  - apply env_quiet; [done| |done]. by apply good_queue.
  - apply env_quiet; [done| |done]. apply consume_good.
  - apply env_quiet; [done| |done]. apply good_cache, EvictInactive_step.
Qed.

#[export] Instance watch_sound : Sound watch_system watch_spec.
Proof.
  split.
  - intros [key|j|g| | |w|j w|w]; cbn [pre watch_spec]; auto using true_stable with watch.
  - intros [key|j|g| | |w|j w|w] h; cbn [at_head watch_spec]; auto with watch.
  - intros [key|j|g| | |w|j w|w] r; cbn [post watch_spec]; auto using true_stable with watch.
    apply mono_stable, finished_mono.
  - apply goroutine_safe.
  - apply head_safe.
  - intros [key|j|g| | |w|j w|w] s Hc Hi; try done.
  - apply environment_ok.
  - done.
  - intros u s s' [Hc _]. apply (core_length _ _ _ Hc).
  - intros u s s' [_ [Hn Hk]]. split_and!; [done|by apply Forall_true|done].
Qed.
End safety.
