(* ===== verification/WatchTheorems.v ===== *)
(** * WatchTheorems: what the watch manager guarantees

    The consequences of the file WatchSafety for a manager that starts empty, over every
    sequence of calls, steps, answers and environment events. *)
From Stdlib Require Import Ascii String ZArith Lia.
From stdpp Require Import base gmap strings list fin_maps.
From S2P Require Import Prelude Json Topics Cache CacheInvariant CacheFence Snapshot Queue Cursor Threads.
From S2P Require Import Watch WatchInvariant WatchSafety.

#[export] Instance call_ok_dec g : Decision (call_ok g).
Proof. destruct g; simpl; apply _. Defined.
#[export] Instance answer_ok_dec q a : Decision (answer_ok q a).
Proof. unfold answer_ok, items_wf. destruct q, a; try apply _; repeat case_match; apply _. Defined.

(** The bytes of the snapshots the registered workers retain, as they would be encoded. *)
Definition encoded_bytes (s : Watch.world) (w : nat) : Z :=
  let k := worker_at w s in
  if wk_snapshotReady k then len (items_json (Items (wk_snapshot k))) else 0%Z.

Section theorems.
Context `{GVRPrinter} (cfg : WatchManagerConfig) (arrange : list candidate → list candidate)
        (order : list nat → list nat) (format_time : Z → string).
Context (order_perm : ∀ l, order l ≡ₚ l).

Abbreviation sys := (watch_system cfg arrange order format_time).
Abbreviation cfg_type := (@config Watch.world question answer goroutine point call_result).

Definition manager_start (cc : ResourceCacheConfig) (now : Z) : cfg_type :=
  Config (NewWatchManager (NewResourceCache cc) now) [].

Lemma limit_pos : (0 < snapshot_limit cfg)%Z.
Proof. unfold snapshot_limit. destruct (_ <=? _)%Z eqn:Hl; [done|]. bool_to_prop. lia. Qed.

Lemma start_ok cc now : config_ok sys (watch_spec cfg arrange order format_time) (manager_start cc now).
Proof.
  split; simpl; [|constructor|constructor|constructor|done|intros w Hw; set_solver].
  split; simpl; try done. unfold SnapshotBytes, map_sum. simpl. rewrite map_fold_empty.
  pose proof limit_pos. lia.
Qed.

Lemma reachable_inv cc now c : reachable sys (manager_start cc now) c → watch_inv cfg (shared c).
Proof.
  intros Hr. pose proof (watch_sound cfg arrange order format_time order_perm).
  apply (reachable_ok _ _ _ _ (start_ok cc now) Hr).
Qed.

Lemma held_encoded s w : watch_inv cfg s → is_Some (store s !! w) → held_bytes s w = encoded_bytes s w.
Proof.
  intros Hi [k Hk]. unfold held_bytes, encoded_bytes. rewrite (worker_at_lookup _ _ _ Hk).
  destruct (wi_workers _ _ Hi w k Hk) as [_ _ _ Hr He].
  destruct (wk_snapshotReady k); [by destruct (Hr eq_refl) as (_ & ? & _)|by destruct (He eq_refl)].
Qed.

(** C21: Whatever the callers, the cluster and the scheduler do, the snapshots that the
    manager's registered workers retain never encode to more bytes in total than the
    configured budget, and no worker retains more than 10,000 objects or 10 MiB; the byte
    counters the code compares are the exact encoded sizes. *)
Theorem watch_memory_budget cc now c :
  reachable sys (manager_start cc now) c →
  (map_sum (encoded_bytes (shared c)) (workers (shared c)) ≤ snapshot_limit cfg)%Z
  ∧ SnapshotBytes (shared c) = map_sum (encoded_bytes (shared c)) (workers (shared c))
  ∧ ∀ w k, store (shared c) !! w = Some k → wk_snapshotReady k = true →
      (encoded_bytes (shared c) w ≤ MaximumSnapshotBytes)%Z
      ∧ (Z.of_nat (length (Items (wk_snapshot k))) ≤ MaximumSnapshotItems)%Z.
Proof.
  intros Hr. pose proof (reachable_inv _ _ _ Hr) as Hi.
  assert (SnapshotBytes (shared c) = map_sum (encoded_bytes (shared c)) (workers (shared c))) as Heq.
  { apply map_sum_ext. intros i w Hw. apply held_encoded; [done|].
    destruct (wi_registered _ _ Hi i w Hw) as (k & ? & _). by exists k. }
  split; [rewrite <- Heq; apply (wi_budget _ _ Hi)|]. split; [done|]. intros w k Hk Hready.
  destruct (wo_ready _ (wi_workers _ _ Hi w k Hk) Hready) as (_ & Hb & Hn & Hm & _).
  rewrite <- held_encoded by (done || by exists k). unfold held_bytes.
  by rewrite (worker_at_lookup _ _ _ Hk).
Qed.

(** C6: Whenever a worker's goroutine is blocked (waiting for the cluster, for a change, or
    for its next attempt), every subscriber that is still open has been sent exactly what
    it needs: folding all events it was handed or has queued gives the worker's current
    objects, no update lost, repeated or reordered. *)
Theorem subscribers_see_snapshot cc now c i w q k :
  reachable sys (manager_start cc now) c → blocked c i = Some (GoRun w, q) →
  store (shared c) !! w = Some k → wk_snapshotReady k = true →
  ∀ j ss, subs (shared c) !! j = Some ss → ss_worker ss = w → Queue.closed (ss_queue ss) = false →
  consume (key_Topic (wk_key k)) ∅ (ss_delivered ss ++ (q_event <$> queue (ss_queue ss)))
  = item_map (Items (wk_snapshot k)).
Proof.
  intros Hr Hb Hk Hready j ss Hss Hw Hop.
  pose proof (watch_sound cfg arrange order format_time order_perm) as Hsound.
  destruct (reachable_quiet sys _ _ _ _ _ _ (start_ok cc now) Hr Hb) as (k' & Hk' & Ha & Hv).
  simplify_eq. destruct (Hv Hready) as [_ Hsubs]. destruct (Ha j ss Hss eq_refl Hop) as (k' & Hk' & Hj).
  simplify_eq. exact (Hsubs j ss Hj Hss Hop).
Qed.

(** C39: Once [CancelGeneration] has returned, no worker of that generation is registered at
    any later time: no call and no interleaving brings the generation's watches back. *)
Theorem canceled_generation_never_watched cc now c c' i generation r :
  reachable sys (manager_start cc now) c →
  returned c i = Some (CallCancelGeneration generation, r) → reachable sys c c' →
  ∀ id w, workers (shared c') !! id = Some w →
  Generation (wk_key (worker_at w (shared c'))) ≠ generation.
Proof.
  intros Hr Hd Hr' id w Hw.
  pose proof (watch_sound cfg arrange order format_time order_perm) as Hsound.
  destruct (reachable_post sys _ _ _ _ _ _ _ (start_ok cc now) Hr Hd Hr') as [_ Hdead].
  pose proof (reachable_inv _ _ _ (reachable_trans _ _ _ _ Hr Hr')) as Hi.
  destruct (wi_registered _ _ Hi id w Hw) as (k & Hk & _).
  rewrite (worker_at_lookup _ _ _ Hk). by apply (Hdead id w k).
Qed.

(** Once a worker's goroutine has returned it leaves nothing behind, ever after: it is
    not registered, holds no subscribers, every subscription it served is closed, its
    context is canceled and its reference on the cache is returned. *)
Theorem finished_worker_leaves_nothing cc now c c' i w r :
  reachable sys (manager_start cc now) c → returned c i = Some (GoRun w, r) → reachable sys c c' →
  (∀ id, workers (shared c') !! id ≠ Some w)
  ∧ (∀ j ss, subs (shared c') !! j = Some ss → ss_worker ss = w → Queue.closed (ss_queue ss) = true)
  ∧ ∃ k, store (shared c') !! w = Some k ∧ wk_subscribers k = ∅ ∧ wk_canceled k = true
      ∧ sub_closed (wk_cacheSubscription k) = true.
Proof.
  intros Hr Hd Hr'. pose proof (watch_sound cfg arrange order format_time order_perm) as Hsound.
  destruct (reachable_post sys _ _ _ _ _ _ _ (start_ok cc now) Hr Hd Hr')
    as ((Hu & k & Hk & Hnone) & Hop & (k' & Hk' & Hc & Hs)). simplify_eq.
  split_and!; [done| |by exists k].
  intros j ss Hss Hw. destruct (Queue.closed (ss_queue ss)) eqn:Hq; [done|].
  specialize (Hop j ss Hss Hw Hq). set_solver.
Qed.

(** After [Close] has returned the manager watches nothing, for good. *)
Theorem closed_manager_watches_nothing cc now c c' i r :
  reachable sys (manager_start cc now) c → returned c i = Some (CallClose, r) → reachable sys c c' →
  Watch.closed (shared c') = true ∧ workers (shared c') = ∅.
Proof.
  intros Hr Hd Hr'. pose proof (watch_sound cfg arrange order format_time order_perm) as Hsound.
  pose proof (reachable_post sys _ _ _ _ _ _ _ (start_ok cc now) Hr Hd Hr') as Hc.
  split; [exact Hc|]. apply (wi_closed cfg); [|exact Hc].
  exact (reachable_inv _ _ _ (reachable_trans _ _ _ _ Hr Hr')).
Qed.
End theorems.

(** ** A run of the manager

    A subscriber joins, the worker lists two pods and follows a change. *)
Definition watch_key : WatchKey := {|
  Generation := "gen_1"; Context := "kind"; Scope := "7"; key_Topic := TopicPods;
  key_GVR := GVR "" "v1" "pods"; key_Namespace := "default"; Selector := "";
  EffectiveOrigins := ["default"] |}.
Definition watch_cfg : WatchManagerConfig := {|
  has_port := true; port_progressive := false; port_initial := false; IdleTimeout := 0;
  MaxSnapshotBytes := 0; StreamingLists := false; OnChange := true |}.
Definition added (name rv : string) : WatchChange := {|
  ch_Type := "ADDED"; ch_ResourceVersion := rv; ch_Object := CacheFence.demo_pod name; ch_Deleted := None;
  ch_InitialEventsEnd := false; ch_Err := None |}.

Definition demo_system :=
  @watch_system plain_printer (NewWatchManagerWithConfig watch_cfg) demo_sort id (λ _, "now").
Definition run_some (i n : nat) : list (@move answer goroutine env_event) := replicate n (Run i).

Definition demo_follow : list (@move answer goroutine env_event) :=
  [Call (CallSubscribe watch_key)] ++ run_some 0 3 ++ run_some 1 6
  ++ [Reply 1 (Listed (Ok CacheFence.demo_snapshot))] ++ run_some 1 20
  ++ [Reply 1 (Opened None)] ++ run_some 1 6
  ++ [Reply 1 (Changed (added "c" "42"))] ++ run_some 1 12 ++ [Env (Consume 0)].

Definition demo_start := manager_start CacheFence.demo_config 0.
Lemma demo_run c l :
  bool_decide (moves_ok demo_system c l) = true → reachable demo_system c (schedule demo_system c l).
Proof. intros Hl%bool_decide_eq_true. by apply schedule_reachable. Qed.

Definition demo_following := schedule demo_system demo_start demo_follow.
Lemma demo_following_reached : reachable demo_system demo_start demo_following.
Proof. apply demo_run. by vm_compute. Qed.

Lemma watch_memory_budget_witness :
  (map_sum (encoded_bytes (shared demo_following)) (workers (shared demo_following))
   ≤ snapshot_limit (NewWatchManagerWithConfig watch_cfg))%Z
  ∧ map_sum (encoded_bytes (shared demo_following)) (workers (shared demo_following)) = 10%Z.
Proof.
  split; [|by vm_compute].
  exact (proj1 (@watch_memory_budget plain_printer (NewWatchManagerWithConfig watch_cfg) demo_sort id
    (λ _, "now") (λ l, reflexivity l) CacheFence.demo_config 0 demo_following demo_following_reached)).
Defined.

Definition demo_worker : watchWorker := worker_at 0 (shared demo_following).
Definition demo_subscriber : subscriber :=
  default {| ss_queue := fresh_queue; ss_worker := 0; ss_delivered := []; ss_ctxDone := false |}
    (subs (shared demo_following) !! 0).

Lemma subscribers_see_snapshot_witness :
  (length (ss_delivered demo_subscriber), length (queue (ss_queue demo_subscriber))) = (1, 1)
  ∧ consume (key_Topic (wk_key demo_worker)) ∅
      (ss_delivered demo_subscriber ++ (q_event <$> queue (ss_queue demo_subscriber)))
    = item_map (Items (wk_snapshot demo_worker)).
Proof.
  split; [by vm_compute|].
  refine (@subscribers_see_snapshot plain_printer (NewWatchManagerWithConfig watch_cfg) demo_sort id
    (λ _, "now") (λ l, reflexivity l) CacheFence.demo_config 0 demo_following 1 0 (QStream 0) demo_worker
    demo_following_reached _ _ _ 0 demo_subscriber _ _ _); by vm_compute.
Defined.

(** The generation is canceled, its worker ends, and a new generation is watched. *)
Definition other_key : WatchKey := {|
  Generation := "gen_2"; Context := "kind"; Scope := "7"; key_Topic := TopicPods;
  key_GVR := GVR "" "v1" "pods"; key_Namespace := "default"; Selector := "";
  EffectiveOrigins := ["default"] |}.
Definition demo_canceled :=
  schedule demo_system demo_following
    ([Call (CallCancelGeneration "gen_1")] ++ run_some 3 12 ++ [Reply 1 CtxDone] ++ run_some 1 30).
Definition demo_next :=
  schedule demo_system demo_canceled ([Call (CallSubscribe other_key)] ++ run_some 4 3).

Lemma demo_canceled_reached : reachable demo_system demo_start demo_canceled.
Proof.
  eapply reachable_trans; [exact demo_following_reached|].
  apply demo_run. by vm_compute.
Qed.
Lemma demo_next_reached : reachable demo_system demo_canceled demo_next.
Proof. apply demo_run. by vm_compute. Qed.

Lemma canceled_generation_never_watched_witness :
  size (workers (shared demo_next)) = 1
  ∧ ∀ id w, workers (shared demo_next) !! id = Some w →
      Generation (wk_key (worker_at w (shared demo_next))) ≠ "gen_1".
Proof.
  split; [by vm_compute|].
  refine (@canceled_generation_never_watched plain_printer (NewWatchManagerWithConfig watch_cfg) demo_sort
    id (λ _, "now") (λ l, reflexivity l) CacheFence.demo_config 0 demo_canceled demo_next 3 "gen_1" Returned
    demo_canceled_reached _ demo_next_reached). by vm_compute.
Defined.

Lemma finished_worker_leaves_nothing_witness :
  ∃ k, store (shared demo_next) !! 0 = Some k ∧ wk_subscribers k = ∅ ∧ wk_canceled k = true.
Proof.
  assert (returned demo_canceled 1 = Some (GoRun 0, Returned)) as Hret by (by vm_compute).
  destruct (@finished_worker_leaves_nothing plain_printer (NewWatchManagerWithConfig watch_cfg) demo_sort id
    (λ _, "now") (λ l, reflexivity l) CacheFence.demo_config 0 demo_canceled demo_next 1 0 Returned
    demo_canceled_reached Hret demo_next_reached) as (_ & _ & k & Hk & Hn & Hc & _).
  exact (ex_intro _ k (conj Hk (conj Hn Hc))).
Defined.

Definition demo_closed :=
  schedule demo_system demo_following ([Call CallClose] ++ run_some 3 12).
Lemma demo_closed_reached : reachable demo_system demo_start demo_closed.
Proof.
  eapply reachable_trans; [exact demo_following_reached|].
  apply demo_run. by vm_compute.
Qed.

Lemma closed_manager_watches_nothing_witness :
  size (workers (shared demo_following)) = 1 ∧ workers (shared demo_closed) = ∅.
Proof.
  split; [by vm_compute|].
  refine (proj2 (@closed_manager_watches_nothing plain_printer (NewWatchManagerWithConfig watch_cfg)
    demo_sort id (λ _, "now") (λ l, reflexivity l) CacheFence.demo_config 0 demo_closed demo_closed 3
    Returned demo_closed_reached _ (reach_start _ _))). by vm_compute.
Defined.

(** ** An idle worker without a timer

    The same run with a pod that grows to 65,200 bytes: small enough for a watch event,
    too large for the first chunk of a snapshot. *)
Definition large_pod : option TopicObject :=
  Some (ObjValue (DPod {| pod_Namespace := "default"; pod_Name := "a"; pod_Labels := ∅;
    pod_Status := "Running"; pod_Owner := None; pod_ConfigMaps := []; pod_PVCs := [];
    pod_json := "{" +:+ foldr String "}" (replicate (Z.to_nat 65198) " "%char) |})).
Definition grown : WatchChange := {|
  ch_Type := "MODIFIED"; ch_ResourceVersion := "43"; ch_Object := large_pod; ch_Deleted := None;
  ch_InitialEventsEnd := false; ch_Err := None |}.
Definition demo_leave : list (@move answer goroutine env_event) :=
    ([Reply 1 (Changed grown)] ++ run_some 1 12 ++ [Env (Consume 0); Env (Consume 0)]
     ++ [Call (CallUnsubscribe 0)] ++ run_some 3 6
     ++ [Call (CallSubscribe watch_key)] ++ run_some 4 6).
Definition demo_orphan := schedule demo_system demo_following demo_leave.

(** [Subscribe] stops the idle timer of a worker before it encodes the snapshot for the
    new subscriber. When that encoding fails the caller gets the error, and the worker is
    left registered, without subscribers and without a timer: its watch stays open until
    the generation is canceled or [EvictIdle] runs. *)
Theorem failed_join_orphans_worker :
  reachable demo_system demo_start demo_orphan
  ∧ returned demo_orphan 4 = Some (CallSubscribe watch_key, Subscribed (Err
      (domainError CodeLimitExceeded "A snapshot object exceeds the event limit." None)))
  ∧ workers (shared demo_orphan) !! WatchKey_identity (H := plain_printer) watch_key = Some 0
  ∧ wk_subscribers (worker_at 0 (shared demo_orphan)) = ∅
  ∧ wk_canceled (worker_at 0 (shared demo_orphan)) = false
  ∧ timers (shared demo_orphan) = ∅.
Proof.
  split; [|by vm_compute]. eapply reachable_trans; [exact demo_following_reached|].
  apply (demo_run demo_following demo_leave). by vm_compute.
Qed.
