(* ===== verification/Diff.v ===== *)
(** * Diff: the line diff against the last applied manifest

    Models src/internal/services/resources/diff.go: the bounded line diff that the
    "changed since apply" view shows. Slices are lists; a Go index expression out of range
    panics, which is [None]. [operations] is appended to and reversed at the end in the
    code; here the list is built from the back. *)
From Stdlib Require Import Ascii String ZArith Lia.
From stdpp Require Import base strings list numbers.
From stdpp Require Import gmap.
From S2P Require Import Prelude Encoding Topics Namespaces.

Definition maximumDiffInputLines : nat := Z.to_nat 6000.
Definition MaximumDiffLines : nat := Z.to_nat 4000.

Inductive diffOperationKind := opSame | opInsert | opDelete.
#[export] Instance diffOperationKind_dec : EqDecision diffOperationKind.
Proof. solve_decision. Defined.
Record diffOperation := Operation { kind : diffOperationKind; text : string }.

(** Indexing with bounds checks. *)
Definition at_index {A} (l : list A) (i : Z) : option A :=
  if (i <? 0)%Z then None else l !! Z.to_nat i.
Definition put_index (l : list Z) (i v : Z) : option (list Z) :=
  if (i <? 0)%Z || (Z.of_nat (length l) <=? i)%Z then None else Some (<[Z.to_nat i := v]> l).

Section myers.
Context (previous current : list string).
Abbreviation n := (Z.of_nat (length previous)).
Abbreviation m := (Z.of_nat (length current)).
Abbreviation offset := (n + m)%Z.

(** [k == -d || (k != d && v[k-1+offset] < v[k+1+offset])] *)
Definition goes_down (v : list Z) (d k : Z) : option bool :=
  if (k =? - d)%Z then Some true
  else if (k =? d)%Z then Some false
  else
    left ← at_index v (k - 1 + offset)%Z;
    right ← at_index v (k + 1 + offset)%Z;
    Some (left <? right)%Z.

(** The loop over equal lines; it advances at most [length previous] times. *)
Fixpoint snake (fuel : nat) (x y : Z) : option (Z * Z) :=
  if (x <? n)%Z && (y <? m)%Z then
    a ← at_index previous x;
    b ← at_index current y;
    if String.eqb a b then
      match fuel with
      | 0 => Some (x, y)
      | S fuel => snake fuel (x + 1) (y + 1)
      end
    else Some (x, y)
  else Some (x, y).

(** One diagonal of round [d]: the new state and whether the end was reached. *)
Definition diagonal (d k : Z) (v : list Z) : option (bool * list Z) :=
  down ← goes_down v d k;
  x ← (if down : bool then at_index v (k + 1 + offset)%Z
       else (λ x, (x + 1)%Z) <$> at_index v (k - 1 + offset)%Z);
  '(x, y) ← snake (length previous) x (x - k);
  v' ← put_index v (k + offset)%Z x;
  Some ((n <=? x)%Z && (m <=? y)%Z, v').

(** The diagonals [k], [k+2], ... of round [d], [steps] of them. *)
Fixpoint diagonals (steps : nat) (d k : Z) (v : list Z) : option (bool * list Z) :=
  match steps with
  | 0 => Some (false, v)
  | S steps =>
    '(found, v) ← diagonal d k v;
    if found : bool then Some (true, v) else diagonals steps d (k + 2) v
  end.

(** The walk back over equal lines, and then one edit. *)
Fixpoint retreat (fuel : nat) (px py x y : Z) (operations : list diffOperation)
    : option (Z * Z * list diffOperation) :=
  if (px <? x)%Z && (py <? y)%Z then
    text ← at_index previous (x - 1);
    match fuel with
    | 0 => Some (x, y, operations)
    | S fuel => retreat fuel px py (x - 1) (y - 1) (Operation opSame text :: operations)
    end
  else Some (x, y, operations).

Definition backtrack_step (snapshot : list Z) (d x y : Z) (operations : list diffOperation)
    : option (Z * Z * list diffOperation) :=
  let k := (x - y)%Z in
  down ← goes_down snapshot d k;
  let pk := (if down : bool then k + 1 else k - 1)%Z in
  px ← at_index snapshot (pk + offset)%Z;
  let py := (px - pk)%Z in
  '(x, y, operations) ← retreat (length previous) px py x y operations;
  if (x =? px)%Z then
    text ← at_index current py;
    Some (x, (y - 1)%Z, Operation opInsert text :: operations)
  else
    text ← at_index previous (x - 1);
    Some ((x - 1)%Z, y, Operation opDelete text :: operations).

(** The rounds [steps - 1], ..., 0. *)
Fixpoint backtrack (trace : list (list Z)) (steps : nat) (x y : Z) (operations : list diffOperation)
    : option (list diffOperation) :=
  match steps with
  | 0 => Some operations
  | S d =>
    snapshot ← trace !! d;
    '(x, y, operations) ← backtrack_step snapshot (Z.of_nat d) x y operations;
    backtrack trace d x y operations
  end.

Definition myersBacktrack (trace : list (list Z)) : option (list diffOperation) :=
  backtrack trace (length trace - 1) n m [].

(** The rounds from [d], [steps] of them, and the fallback after the last. *)
Fixpoint search (steps : nat) (d : nat) (v : list Z) (trace : list (list Z))
    : option (list diffOperation) :=
  match steps with
  | 0 => Some (map (Operation opDelete) previous ++ map (Operation opInsert) current)
  | S steps =>
    '(found, v) ← diagonals (S d) (Z.of_nat d) (- Z.of_nat d) v;
    let trace := trace ++ [v] in
    if found : bool then myersBacktrack trace else search steps (S d) v trace
  end.

Definition myersMiddle : option (list diffOperation) :=
  let max := length previous + length current in
  if max =? 0 then Some [] else search (S max) 0 (replicate (2 * max + 1) 0%Z) [].
End myers.

Fixpoint common_prefix (l l' : list string) : nat :=
  match l, l' with
  | a :: l, b :: l' => if String.eqb a b then S (common_prefix l l') else 0
  | _, _ => 0
  end.

Definition myersDiff (previous current : list string) : option (list diffOperation) :=
  let n := length previous in
  let m := length current in
  if n + m =? 0 then Some [] else
  let prefix := common_prefix previous current in
  let suffix := common_prefix (rev (drop prefix previous)) (rev (drop prefix current)) in
  middle ← myersMiddle (take (n - suffix - prefix) (drop prefix previous))
                       (take (m - suffix - prefix) (drop prefix current));
  Some (map (Operation opSame) (take prefix previous) ++ middle
        ++ map (Operation opSame) (drop (n - suffix) previous)).

(** ** The view *)

Definition LF_byte : ascii := "010"%char.

Definition trim_newline (l : list ascii) : list ascii :=
  match rev l with
  | c :: r => if Ascii.eqb c LF_byte then rev r else l
  | [] => l
  end.

Definition splitLines (value : string) : list string :=
  let l := replace_crlf (chars value) in
  match l with
  | [] => [EmptyString]
  | _ => Split (of_chars (trim_newline l)) LF_byte
  end.

Inductive DiffLineKind := DiffSame | DiffAdded | DiffRemoved.
Record DiffLineDTO := DiffLine { dl_Kind : DiffLineKind; dl_Text : string }.
Record LastAppliedDiffDTO := { Absent : bool; Truncated : bool; Lines : list DiffLineDTO }.

Definition diff_line (op : diffOperation) : DiffLineDTO :=
  DiffLine (match kind op with
            | opSame => DiffSame | opInsert => DiffAdded | opDelete => DiffRemoved
            end) (text op).

Fixpoint render (ops : list diffOperation) (lines : list DiffLineDTO) : bool * list DiffLineDTO :=
  match ops with
  | [] => (false, lines)
  | op :: ops =>
    if MaximumDiffLines <=? length lines then (true, lines)
    else render ops (lines ++ [diff_line op])
  end.

Definition DiffYAML (current previous : string) : option LastAppliedDiffDTO :=
  ops ← myersDiff (take maximumDiffInputLines (splitLines previous))
                  (take maximumDiffInputLines (splitLines current));
  let '(truncated, lines) := render ops [] in
  Some {| Absent := false; Truncated := truncated; Lines := lines |}.

(** ** The annotation

    An object of the API server, as far as this file looks at it: whether its annotations
    can be read and written, and the annotations, [None] for a nil map. [JSONToYAML] is the
    converter of sigs.k8s.io/yaml. *)
Record annotated := {
  annotationReader : bool; annotationWriter : bool; annotations : option (gmap string string) }.

Definition LastAppliedAnnotation : string := "kubectl.kubernetes.io/last-applied-configuration".
Definition MaximumYAMLBytes : Z := 10485760.

Section annotation.
Context (JSONToYAML : string → result error string).

Definition ExtractLastApplied (value : annotated) : option string * bool * option error :=
  if negb (annotationReader value) then (None, false, None)
  else match default ∅ (annotations value) !! LastAppliedAnnotation with
       | None => (None, false, None)
       | Some raw =>
         if String.eqb (TrimSpace raw) "" then (None, false, None)
         else if (MaximumYAMLBytes <? Z.of_nat (String.length raw))%Z
         then (None, true, Some (domainError CodeLimitExceeded
                 "The last-applied configuration exceeds the response limit." None))
         else match JSONToYAML raw with
              | Err err => (None, true, Some (domainError CodeValidationFailed
                             "The last-applied configuration is not valid JSON." (Some err)))
              | Ok normalized => (Some normalized, true, None)
              end
       end.

Definition StripLastAppliedAnnotation (value : annotated) : annotated :=
  if negb (annotationWriter value) || negb (annotationReader value) then value
  else match annotations value with
       | None => value
       | Some l =>
         match l !! LastAppliedAnnotation with
         | None => value
         | Some _ => {| annotationReader := annotationReader value;
                        annotationWriter := annotationWriter value;
                        annotations := Some (delete LastAppliedAnnotation l) |}
         end
       end.

(** A stripped object no longer shadows the diff; its other annotations are untouched. *)
Lemma strip_extract value :
  annotationWriter value = true →
  ExtractLastApplied (StripLastAppliedAnnotation value) = (None, false, None)
  ∧ ∀ k, k ≠ LastAppliedAnnotation →
      default ∅ (annotations (StripLastAppliedAnnotation value)) !! k = default ∅ (annotations value) !! k.
Proof.
  intros Hw. unfold StripLastAppliedAnnotation, ExtractLastApplied. rewrite Hw. cbn [negb orb].
  destruct (annotationReader value) eqn:Hr; cbn [negb]; [|by rewrite Hr].
  destruct (annotations value) as [l|] eqn:Ha; [|by rewrite Hr, Ha].
  destruct (l !! LastAppliedAnnotation) as [raw|] eqn:Hl; [|by rewrite Hr, Ha; simpl; rewrite Hl].
  simpl. rewrite lookup_delete_eq. split; [done|]. intros k Hk. by rewrite lookup_delete_ne.
Qed.
End annotation.

(** ** What the diff gets right *)

Lemma common_prefix_le l l' : common_prefix l l' ≤ length l ∧ common_prefix l l' ≤ length l'.
Proof.
  revert l'. induction l as [|a l IH]; intros [|b l']; simpl; try lia.
  destruct (String.eqb a b); [|lia]. specialize (IH l'). lia.
Qed.

Lemma common_prefix_same l : common_prefix l l = length l.
Proof. induction l as [|a l IH]; simpl; [done|]. by rewrite String.eqb_refl, IH. Qed.

Lemma myersDiff_same l : myersDiff l l = Some (map (Operation opSame) l).
Proof.
  unfold myersDiff. destruct l as [|a l]; [done|].
  rewrite common_prefix_same, drop_all. cbn [rev common_prefix].
  rewrite !take_nil, take_ge by lia. cbn -[length]. rewrite drop_ge by lia.
  change (myersMiddle [] []) with (Some (@nil diffOperation)). simpl. by rewrite app_nil_r.
Qed.

(** The loop of [DiffYAML] keeps a prefix. *)
Lemma render_spec ops lines :
  length lines ≤ MaximumDiffLines →
  render ops lines = (MaximumDiffLines <? length lines + length ops,
                      lines ++ (diff_line <$> take (MaximumDiffLines - length lines) ops)).
Proof.
  revert lines. induction ops as [|op ops IH]; intros lines Hl; cbn [render].
  - rewrite take_nil. cbn [fmap list_fmap length]. rewrite app_nil_r, Nat.add_0_r.
    by rewrite (proj2 (Nat.ltb_ge _ _)).
  - destruct (Nat.leb_spec MaximumDiffLines (length lines)) as [Hle|Hlt].
    + replace (MaximumDiffLines - length lines) with 0 by lia. cbn [take fmap list_fmap length].
      rewrite app_nil_r. by rewrite (proj2 (Nat.ltb_lt _ _)) by lia.
    + rewrite IH by (rewrite length_app; simpl; lia). rewrite length_app. cbn [length].
      replace (MaximumDiffLines - length lines) with (S (MaximumDiffLines - (length lines + 1))) by lia.
      cbn [take]. rewrite fmap_cons, <- app_assoc. f_equal. f_equal. lia.
Qed.

(** ** One block of lines *)

Lemma common_prefix_app pre l l' : common_prefix (pre ++ l) (pre ++ l') = length pre + common_prefix l l'.
Proof. induction pre as [|a pre IH]; simpl; [done|]. by rewrite String.eqb_refl, IH. Qed.

Lemma common_prefix_comm l l' : common_prefix l l' = common_prefix l' l.
Proof.
  revert l'. induction l as [|a l IH]; intros [|b l']; simpl; try done.
  rewrite String.eqb_sym. destruct (String.eqb b a); [|done]. by rewrite IH.
Qed.

Lemma common_prefix_full l l' : common_prefix l (l ++ l') = length l.
Proof. induction l as [|a l IH]; simpl; [done|]. by rewrite String.eqb_refl, IH. Qed.

(** The suffix loop consumes the shorter document when the other one has one more block. *)
Lemma block_suffix pre block post :
  let p := common_prefix (pre ++ post) (pre ++ block ++ post) in
  common_prefix (rev (drop p (pre ++ post))) (rev (drop p (pre ++ block ++ post)))
  = length (pre ++ post) - p.
Proof.
  intros p. subst p. rewrite common_prefix_app. set (q := common_prefix post (block ++ post)).
  assert (q ≤ length post) as Hq by (destruct (common_prefix_le post (block ++ post)); lia).
  rewrite !drop_app_add'; [|done|done].
  assert (∃ r, drop q (block ++ post) = r ++ drop q post) as [r Hr].
  { exists (take (length block) (drop q (block ++ post))).
    rewrite <- (take_drop (length block) (drop q (block ++ post))) at 1. f_equal.
    rewrite drop_drop, (Nat.add_comm q), <- drop_drop, drop_app_length. done. }
  rewrite Hr, rev_app_distr, common_prefix_full, length_rev, length_drop, length_app. lia.
Qed.

(** With one side empty, the round that reaches the end leaves the walk back on the outermost
    diagonal, where it reads one past the array. *)
Section one_sided.
Context (previous current : list string).
Abbreviation n := (Z.of_nat (length previous)).
Abbreviation m := (Z.of_nat (length current)).
Abbreviation offset := (n + m)%Z.

Lemma put_index_Some v i x v' :
  put_index v i x = Some v' → (0 ≤ i < Z.of_nat (length v))%Z ∧ v' = <[Z.to_nat i := x]> v.
Proof.
  unfold put_index. destruct (_ || _) eqn:Hb; [done|]. intros [= <-]. bool_to_prop. split; [lia|done].
Qed.

Lemma diagonal_writes d k v b v' :
  diagonal previous current d k v = Some (b, v') →
  ∃ x, (0 ≤ k + offset < Z.of_nat (length v))%Z ∧ v' = <[Z.to_nat (k + offset) := x]> v.
Proof.
  unfold diagonal. destruct (goes_down _ _ _ _ _) as [down|]; [|done]. cbn [mbind option_bind].
  match goal with |- context [(if down then ?a else ?b) ≫= _] => destruct (if down then a else b) as [x0|] end;
    [|done]. cbn [mbind option_bind].
  destruct (snake _ _ _ _ _) as [[x y]|]; [|done]. cbn [mbind option_bind].
  destruct (put_index _ _ _) as [v1|] eqn:Hp; [|done]. intros [= _ <-].
  apply put_index_Some in Hp as [Hr ->]. by exists x.
Qed.

Lemma diagonals_keep steps d k v b v' i :
  diagonals previous current steps d k v = Some (b, v') → (0 ≤ i)%Z →
  (∀ j, (0 ≤ j < Z.of_nat steps)%Z → i ≠ k + 2 * j + offset)%Z →
  length v' = length v ∧ v' !! Z.to_nat i = v !! Z.to_nat i.
Proof.
  revert k v. induction steps as [|steps IH]; intros k v Hd Hi0 Hi; [by injection Hd as _ ->|].
  cbn [diagonals] in Hd. destruct (diagonal _ _ _ _ _) as [[found v1]|] eqn:H1; [|done].
  apply diagonal_writes in H1 as (x & Hr & ->). cbn [mbind option_bind] in Hd.
  assert (i ≠ k + offset)%Z as Hne by (specialize (Hi 0%Z); lia).
  assert (∀ z : Z, <[Z.to_nat (k + offset) := z]> v !! Z.to_nat i = v !! Z.to_nat i) as Hsame
    by (intros z; apply list_lookup_insert_ne; lia).
  destruct found; [simplify_eq; by rewrite length_insert, Hsame|].
  destruct (IH _ _ Hd Hi0) as [-> ->]; [intros j Hj; specialize (Hi (j + 1)%Z); lia|].
  by rewrite length_insert, Hsame.
Qed.

Lemma diagonals_length steps d k v b v' :
  diagonals previous current steps d k v = Some (b, v') → length v' = length v.
Proof.
  intros Hd. apply (diagonals_keep steps d k v b v' (Z.max 0 (k + 2 * Z.of_nat steps + offset + 1)) Hd); lia.
Qed.

Lemma at_index_nat {A} (l : list A) i : (0 ≤ i)%Z → at_index l i = l !! Z.to_nat i.
Proof. intros Hi. unfold at_index. destruct (i <? 0)%Z eqn:Hb; bool_to_prop; [lia|done]. Qed.

Lemma snake_stop fuel x y :
  (n ≤ x ∨ m ≤ y)%Z → snake previous current fuel x y = Some (x, y).
Proof.
  intros Hxy. assert ((x <? n)%Z && (y <? m)%Z = false) as Hs.
  { apply andb_false_iff. rewrite !Z.ltb_ge. lia. }
  destruct fuel; cbn [snake]; by rewrite Hs.
Qed.

(** Each round either ends the search or establishes [inv] for the next. *)
Lemma search_panics (inv : nat → list Z → Prop) (steps d : nat) v trace :
  (∀ d v b v', d ≤ length previous + length current → inv d v →
     diagonals previous current (S d) (Z.of_nat d) (- Z.of_nat d) v = Some (b, v') →
     (b = true → 0 < d) ∧ (b = false → inv (S d) v' ∧ d < length previous + length current)) →
  (∀ l d, length l = 2 * (length previous + length current) + 1 →
     d < length previous + length current → goes_down previous current l (Z.of_nat d) (n - m) = None) →
  d ≤ length previous + length current →
  d + steps = S (length previous + length current) → length trace = d → inv d v →
  length v = 2 * (length previous + length current) + 1 →
  Forall (λ l, length l = 2 * (length previous + length current) + 1) trace →
  search previous current steps d v trace = None.
Proof.
  intros Hround Hend. revert d v trace. induction steps as [|steps IH]; intros d v trace Hmax Hd Ht Hv Hlen Htr;
    [lia|].
  cbn [search]. destruct (diagonals _ _ _ _ _ _) as [[b v']|] eqn:Hdiag; [|done].
  destruct (Hround d v b v') as [Hyes Hno]; [lia|done|done|]. cbn [mbind option_bind].
  pose proof (diagonals_length _ _ _ _ _ _ Hdiag) as Hl.
  destruct b.
  - specialize (Hyes eq_refl). unfold myersBacktrack. rewrite length_app. simpl.
    replace (length trace + 1 - 1) with (S (d - 1)) by lia. cbn [backtrack].
    destruct ((trace ++ [v']) !! (d - 1)) as [l|] eqn:Hlook; [|done]. cbn [mbind option_bind].
    assert (length l = 2 * (length previous + length current) + 1) as Hll.
    { rewrite lookup_app_l in Hlook by lia. exact (Forall_lookup_1 _ _ _ _ Htr Hlook). }
    unfold backtrack_step. cbv zeta. by rewrite Hend by lia.
  - destruct (Hno eq_refl) as [Hinv Hlt]. apply IH; try done; try lia.
    + rewrite length_app. simpl. lia.
    + apply Forall_app. split; [done|]. constructor; [lia|done].
Qed.

Lemma middle_panics (inv : nat → list Z → Prop) :
  0 < length previous + length current →
  (∀ d v b v', d ≤ length previous + length current → inv d v →
     diagonals previous current (S d) (Z.of_nat d) (- Z.of_nat d) v = Some (b, v') →
     (b = true → 0 < d) ∧ (b = false → inv (S d) v' ∧ d < length previous + length current)) →
  (∀ l d, length l = 2 * (length previous + length current) + 1 →
     d < length previous + length current → goes_down previous current l (Z.of_nat d) (n - m) = None) →
  inv 0 (replicate (2 * (length previous + length current) + 1) 0%Z) →
  myersMiddle previous current = None.
Proof.
  intros Hpos Hround Hend Hinv. unfold myersMiddle. rewrite (proj2 (Nat.eqb_neq _ 0)) by lia.
  apply (search_panics inv); try done; try lia. by rewrite length_replicate.
Qed.
End one_sided.

(** Only insertions: the leftmost diagonal stays at column 0. *)
Lemma insert_only_panics current : current ≠ [] → myersMiddle [] current = None.
Proof.
  intros Hne. assert (0 < length current) as Hpos by (destruct current; simpl; [done|lia]).
  apply (middle_panics [] current (λ d v, length v = 2 * length current + 1
    ∧ v !! Z.to_nat (1 - Z.of_nat d + Z.of_nat (length current)) = Some 0%Z)); [done| | |].
  - intros d v b v' Hd [Hlen Hv] Hdiag. cbn [length plus] in Hd |- *. cbn [diagonals] in Hdiag.
    destruct (diagonal _ _ _ _ _) as [[found v1]|] eqn:H1; [|done]. cbn [mbind option_bind] in Hdiag.
    unfold diagonal, goes_down in H1. rewrite Z.eqb_refl in H1. cbn [mbind option_bind length] in H1.
    rewrite at_index_nat in H1 by lia.
    replace (- Z.of_nat d + 1 + (Z.of_nat 0 + Z.of_nat (length current)))%Z
      with (1 - Z.of_nat d + Z.of_nat (length current))%Z in H1 by lia.
    rewrite Hv in H1. cbn [mbind option_bind snake length] in H1.
    change (0 <? Z.of_nat 0)%Z with false in H1. cbn [andb mbind option_bind] in H1.
    destruct (put_index _ _ _) as [v2|] eqn:Hp; [|done]. injection H1 as Hf <-.
    apply put_index_Some in Hp as [Hr ->]. revert Hdiag Hf Hr.
    replace (- Z.of_nat d + (Z.of_nat 0 + Z.of_nat (length current)))%Z
      with (1 - Z.of_nat (S d) + Z.of_nat (length current))%Z by lia.
    intros Hdiag <- Hr. destruct (Z.leb_spec (Z.of_nat (length current)) (0 - - Z.of_nat d)) as [Hle|Hlt].
    { cbn in Hdiag. simplify_eq. split; [lia|done]. }
    change (Z.of_nat 0 <=? 0)%Z with true in Hdiag. cbn [andb] in Hdiag.
    destruct (diagonals_keep [] current _ _ _ _ _ _
      (1 - Z.of_nat (S d) + Z.of_nat (length current)) Hdiag) as [Hl' Hv']; [lia|cbn [length]; lia|].
    split; [intros ->; destruct d; [done|lia]|]. intros ->. split_and!; [by rewrite Hl', length_insert| |lia].
    rewrite Hv'. apply list_lookup_insert_eq. lia.
  - intros l d Hl Hd. unfold goes_down. cbn [length plus] in *.
    rewrite (proj2 (Z.eqb_neq _ _)) by lia. rewrite (proj2 (Z.eqb_neq _ _)) by lia.
    by replace (Z.of_nat 0 - Z.of_nat (length current) - 1 + (Z.of_nat 0 + Z.of_nat (length current)))%Z
      with (-1)%Z by lia.
  - cbn [length plus]. rewrite length_replicate. split; [lia|]. apply lookup_replicate_2. lia.
Qed.

(** Only deletions: the rightmost diagonal advances one line a round. *)
Lemma delete_last previous steps d k v b v' :
  (0 < d)%Z → (k + 2 * Z.of_nat steps = d)%Z → length v = 2 * length previous + 1 →
  (d ≤ Z.of_nat (length previous))%Z →
  v !! Z.to_nat (d - 1 + Z.of_nat (length previous)) = Some (d - 1)%Z →
  diagonals previous [] (S steps) d k v = Some (b, v') →
  b = true ∨ (d < Z.of_nat (length previous))%Z
    ∧ v' !! Z.to_nat (d + Z.of_nat (length previous)) = Some d.
Proof.
  intros Hd. revert k v. induction steps as [|steps IH]; intros k v Hk Hlen Hn Hv Hdiag;
    cbn [diagonals] in Hdiag; destruct (diagonal _ _ _ _ _) as [[found v1]|] eqn:H1;
    try done; cbn [mbind option_bind] in Hdiag; destruct found; try (left; by simplify_eq).
  - right. assert (k = d) as -> by lia. unfold diagonal, goes_down in H1.
    rewrite (proj2 (Z.eqb_neq d (- d))) in H1 by lia. rewrite Z.eqb_refl in H1.
    cbn [mbind option_bind length] in H1. rewrite at_index_nat in H1 by lia.
    replace (d - 1 + (Z.of_nat (length previous) + Z.of_nat 0))%Z
      with (d - 1 + Z.of_nat (length previous))%Z in H1 by lia.
    rewrite Hv in H1. cbn [fmap option_fmap option_map mbind option_bind] in H1.
    rewrite snake_stop in H1 by (cbn [length]; lia). cbn [mbind option_bind] in H1.
    destruct (put_index _ _ _) as [v2|] eqn:Hp; [|done]. injection H1 as Hf <-.
    apply put_index_Some in Hp as [Hr ->]. injection Hdiag as _ <-.
    destruct (Z.leb_spec (Z.of_nat (length previous)) (d - 1 + 1)) as [Hle|Hlt];
      [rewrite (proj2 (Z.leb_le _ _)) in Hf by lia; done|].
    split; [lia|].
    replace (d + (Z.of_nat (length previous) + Z.of_nat 0))%Z with (d + Z.of_nat (length previous))%Z by lia.
    rewrite list_lookup_insert_eq by lia. f_equal. lia.
  - apply diagonal_writes in H1 as (x & Hr & ->). apply IH in Hdiag; try done; try lia.
    + by rewrite length_insert.
    + rewrite list_lookup_insert_ne; [done|]. cbn [length] in *. lia.
Qed.

Lemma delete_only_panics previous : previous ≠ [] → myersMiddle previous [] = None.
Proof.
  intros Hne. assert (0 < length previous) as Hpos by (destruct previous; simpl; [done|lia]).
  apply (middle_panics previous [] (λ d v, length v = 2 * length previous + 1
    ∧ match d with
      | 0 => v = replicate (2 * length previous + 1) 0%Z
      | S d => v !! Z.to_nat (Z.of_nat d + Z.of_nat (length previous)) = Some (Z.of_nat d)
      end)); cbn [length]; rewrite ?Nat.add_0_r; [done| | |].
  - intros d v b v' Hd [Hlen Hv] Hdiag. pose proof (diagonals_length _ _ _ _ _ _ _ _ Hdiag) as Hl.
    destruct d as [|d].
    + subst v. cbn [diagonals] in Hdiag. unfold diagonal, goes_down in Hdiag.
      change (- Z.of_nat 0 =? - Z.of_nat 0)%Z with true in Hdiag. cbn [mbind option_bind length] in Hdiag.
      rewrite at_index_nat, lookup_replicate_2 in Hdiag by lia. cbn [mbind option_bind] in Hdiag.
      rewrite snake_stop in Hdiag by (cbn [length]; lia). cbn [mbind option_bind] in Hdiag.
      destruct (put_index _ _ _) as [v2|] eqn:Hp; [|done]. apply put_index_Some in Hp as [Hr ->].
      cbn [mbind option_bind] in Hdiag. rewrite (proj2 (Z.leb_gt _ _)) in Hdiag by lia.
      injection Hdiag as <- <-. split; [done|]. intros _.
      rewrite length_insert, length_replicate. split_and!; [done| |done].
      replace (Z.of_nat 0 + Z.of_nat (length previous))%Z
        with (- Z.of_nat 0 + (Z.of_nat (length previous) + Z.of_nat 0))%Z by lia.
      rewrite list_lookup_insert_eq by (rewrite length_replicate; lia). done.
    + destruct (delete_last previous (S d) (Z.of_nat (S d)) (- Z.of_nat (S d)) v b v') as [->|[Hlt Hv']];
        try done; try lia.
      * replace (Z.of_nat (S d) - 1)%Z with (Z.of_nat d) by lia. done.
      * split; [lia|]. intros ->. split_and!; [congruence|done|lia].
  - intros l d Hl Hd. unfold goes_down. cbn [length] in *.
    rewrite (proj2 (Z.eqb_neq _ _)) by lia. rewrite (proj2 (Z.eqb_neq _ _)) by lia.
    assert (at_index l (Z.of_nat (length previous) - Z.of_nat 0 + 1
      + (Z.of_nat (length previous) + Z.of_nat 0)) = None) as ->.
    { rewrite at_index_nat by lia. apply lookup_ge_None_2. lia. }
    by destruct (at_index l _).
  - by rewrite length_replicate.
Qed.

(** C40: A document that differs from the last applied one by a single block of lines, added
    or removed at one place, is never shown: the walk back of [myersBacktrack] starts on
    the outermost diagonal of round [D] but tests it against round [D - 1], and reads one
    element before or after the array, which panics. *)
Theorem one_block_diff_panics pre block post :
  block ≠ [] →
  myersDiff (pre ++ post) (pre ++ block ++ post) = None
  ∧ myersDiff (pre ++ block ++ post) (pre ++ post) = None.
Proof.
  intros Hb. assert (0 < length block) as Hlen by (destruct block; simpl; [done|lia]).
  pose proof (block_suffix pre block post) as Hs. cbv zeta in Hs.
  destruct (common_prefix_le (pre ++ post) (pre ++ block ++ post)) as [Hp _].
  assert (length (pre ++ block ++ post) = length block + length (pre ++ post)) as Hl
    by (rewrite !length_app; lia).
  unfold myersDiff. cbv zeta. rewrite (common_prefix_comm (pre ++ block ++ post) (pre ++ post)).
  revert Hs Hp. generalize (common_prefix (pre ++ post) (pre ++ block ++ post)). intros p Hs Hp.
  rewrite (common_prefix_comm (rev (drop p (pre ++ block ++ post))) _), Hs.
  rewrite !(proj2 (Nat.eqb_neq _ 0)) by lia.
  replace (length (pre ++ post) - (length (pre ++ post) - p) - p) with 0 by lia.
  assert (take (length (pre ++ block ++ post) - (length (pre ++ post) - p) - p)
    (drop p (pre ++ block ++ post)) ≠ []) as Hmid.
  { intros Hx%(f_equal length). rewrite length_take, length_drop in Hx. simpl in Hx. lia. }
  rewrite !take_0. by rewrite insert_only_panics, delete_only_panics.
Qed.

(** Even where it returns, the script can be wrong: from one line to three, the result
    neither contains all new lines nor rebuilds the new document. *)
Theorem diff_script_wrong :
  DiffYAML ("b" +:+ String LF_byte "a" +:+ String LF_byte "b") "a"
  = Some {| Absent := false; Truncated := false;
            Lines := [DiffLine DiffRemoved "a"; DiffLine DiffAdded "b"] |}.
Proof. reflexivity. Qed.

(** Identical documents are shown line by line as unchanged, at most 4,000 of them. *)
Theorem identical_documents_unchanged document :
  DiffYAML document document
  = Some {| Absent := false;
            Truncated := MaximumDiffLines <? length (take maximumDiffInputLines (splitLines document));
            Lines := DiffLine DiffSame <$> take MaximumDiffLines (splitLines document) |}.
Proof.
  unfold DiffYAML. rewrite myersDiff_same. cbn [mbind option_bind].
  rewrite render_spec by (simpl; lia). cbn [length]. rewrite Nat.add_0_l, Nat.sub_0_r, length_map. simpl.
  change (map (Operation opSame)) with (fmap (M := list) (Operation opSame)).
  do 2 f_equal. rewrite <- fmap_take, take_take, <- list_fmap_compose.
  replace (MaximumDiffLines `min` maximumDiffInputLines) with MaximumDiffLines; [done|].
  unfold MaximumDiffLines, maximumDiffInputLines. lia.
Qed.

(** ** Witnesses *)

Lemma one_block_diff_panics_witness :
  myersDiff ["kind: Pod"; "spec:"] ["kind: Pod"; "replicas: 2"; "spec:"] = None.
Proof. apply (one_block_diff_panics ["kind: Pod"] ["replicas: 2"] ["spec:"]). done. Defined.
