(* ===== verification/Collection.v ===== *)
(** * Collection: the cache of authorized list pages

    Models src/internal/services/resources/collection_cache.go: bounded list pages of one
    generation, keyed by the request. Every method is one critical section of [cache.mu],
    except [LoadCollectionPage], which releases the lock while it asks for the permission
    on each origin: it is a program of the file Threads. [log] records, for the theorems,
    what happened in which order; no definition reads it. Metrics are left out. *)
From Stdlib Require Import Ascii String ZArith Lia.
From stdpp Require Import base gmap strings list fin_maps.
From S2P Require Import Prelude Topics Cursor Ports Collect Threads.

Definition DefaultCollectionCacheMaxBytes : Z := 67108864.        (* 64 << 20 *)
Definition DefaultCollectionCacheMaxEntries : Z := 512.
Definition DefaultCollectionCacheFreshFor : Z := 30000000000.     (* 30 s *)

Record collectionCacheEntry := {
  ce_data : string; ce_generation : string; ce_collection : string; ce_origins : list Origin;
  ce_expiresAt : Z; ce_lastUsed : Z }.

Record CollectionCacheToken := {
  tk_generation : string; tk_revision : Z; tk_key : string }.

Record CollectionCache := {
  c_entries : gmap string collectionCacheEntry; c_generation : string; c_revision : Z;
  c_bytes : Z; c_maxBytes : Z; c_maxEntries : Z; c_freshFor : Z }.

Definition NewCollectionCache (maxBytes maxEntries freshFor : Z) : CollectionCache := {|
  c_entries := ∅; c_generation := ""; c_revision := 0; c_bytes := 0;
  c_maxBytes := if (maxBytes <=? 0)%Z then DefaultCollectionCacheMaxBytes else maxBytes;
  c_maxEntries := if (maxEntries <=? 0)%Z then DefaultCollectionCacheMaxEntries else maxEntries;
  c_freshFor := if (freshFor <=? 0)%Z then DefaultCollectionCacheFreshFor else freshFor |}.

Definition set_entries (m : gmap string collectionCacheEntry) (b : Z) (c : CollectionCache)
    : CollectionCache := {|
  c_entries := m; c_generation := c_generation c; c_revision := c_revision c; c_bytes := b;
  c_maxBytes := c_maxBytes c; c_maxEntries := c_maxEntries c; c_freshFor := c_freshFor c |}.
Definition set_generation (g : string) (r : Z) (c : CollectionCache) : CollectionCache := {|
  c_entries := c_entries c; c_generation := g; c_revision := r; c_bytes := c_bytes c;
  c_maxBytes := c_maxBytes c; c_maxEntries := c_maxEntries c; c_freshFor := c_freshFor c |}.

Definition data_len (e : collectionCacheEntry) : Z := Z.of_nat (String.length (ce_data e)).

Definition removeLocked (key : string) (c : CollectionCache) : CollectionCache :=
  match c_entries c !! key with
  | Some entry => set_entries (delete key (c_entries c)) (c_bytes c - data_len entry) c
  | None => c
  end.

Definition Begin (generation key : string) (c : CollectionCache)
    : option CollectionCacheToken * CollectionCache :=
  if String.eqb generation "" || String.eqb key "" then (None, c)
  else
    let c := if String.eqb (c_generation c) "" then set_generation generation (c_revision c) c else c in
    if negb (String.eqb (c_generation c) generation) then (None, c)
    else (Some {| tk_generation := generation; tk_revision := c_revision c; tk_key := key |}, c).

Definition SwitchGeneration (next : string) (c : CollectionCache) : CollectionCache :=
  if String.eqb next "" then c
  else set_entries ∅ 0 (set_generation next (u64_succ (c_revision c)) c).

(** Removing while walking the map: every entry is visited once. *)
Definition remove_matching (P : collectionCacheEntry → bool) (c : CollectionCache) : CollectionCache :=
  foldl (λ c key, removeLocked key c) c
    (fst <$> filter (λ p, P p.2 = true) (map_to_list (c_entries c))).

Definition InvalidateCollection (generation collection : string) (c : CollectionCache)
    : CollectionCache :=
  if negb (String.eqb (c_generation c) generation) then c
  else remove_matching (λ e, String.eqb (ce_generation e) generation
                             && String.eqb (ce_collection e) collection)
         (set_generation (c_generation c) (u64_succ (c_revision c)) c).

Definition PurgeExpired (now : Z) (c : CollectionCache) : CollectionCache :=
  remove_matching (λ e, (ce_expiresAt e <=? now)%Z) c.

(** The scan for the least recently used entry; [order] is the order Go walks the map in. *)
Section eviction.
Context (order : list (string * collectionCacheEntry) → list (string * collectionCacheEntry)).

Fixpoint oldest_in (l : list (string * collectionCacheEntry)) (best : string * Z) : string * Z :=
  match l with
  | [] => best
  | (key, entry) :: l =>
    oldest_in l (if String.eqb best.1 "" || (ce_lastUsed entry <? best.2)%Z
                 then (key, ce_lastUsed entry) else best)
  end.
Definition oldest_key (c : CollectionCache) : string :=
  (oldest_in (order (map_to_list (c_entries c))) ("", 0%Z)).1.

(** [EvictLRU]: at most one round per entry. *)
Fixpoint evict_lru (fuel : nat) (target : Z) (c : CollectionCache) : nat * CollectionCache :=
  match fuel with
  | 0 => (0, c)
  | S fuel =>
    if (target <? c_bytes c)%Z && negb (bool_decide (c_entries c = ∅)) then
      let key := oldest_key c in
      if String.eqb key "" then (0, c)
      else let '(n, c) := evict_lru fuel target (removeLocked key c) in (S n, c)
    else (0, c)
  end.
Definition EvictLRU (targetBytes : Z) (c : CollectionCache) : nat * CollectionCache :=
  evict_lru (S (size (c_entries c))) (Z.max 0 targetBytes) c.

(** The loop of [StoreCollectionPage] that makes room; [false] when nothing is left to evict. *)
Fixpoint make_room (fuel : nat) (need : Z) (c : CollectionCache) : bool * CollectionCache :=
  if (c_maxEntries c <=? Z.of_nat (size (c_entries c)))%Z || (c_maxBytes c <? c_bytes c + need)%Z then
    match fuel with
    | 0 => (false, c)
    | S fuel =>
      let key := oldest_key c in
      if String.eqb key "" then (false, c) else make_room fuel need (removeLocked key c)
    end
  else (true, c).

(** ** Storing *)

Definition collectionCacheTopic (collection : string) : option Topic :=
  if String.eqb collection "pods" then Some TopicPods
  else if String.eqb collection "events" then Some TopicEvents
  else if String.eqb collection "workloads" then Some TopicWorkloads
  else if String.eqb collection "services" then Some TopicServices
  else if String.eqb collection "ingresses" then Some TopicIngresses
  else if String.eqb collection "endpoint-slices" then Some TopicEndpointSlices
  else if String.eqb collection "configmaps" then Some TopicConfigMaps
  else None.

(** ** The shared state *)

(** [Started] and [Hit] bracket a [LoadCollectionPage] that found an entry and returned it;
    [Fenced None] is a switch of the generation, [Fenced (Some (g, c))] an invalidation of
    collection [c] in generation [g]. *)
Inductive event :=
| Began (token : CollectionCacheToken)
| Stored (token : CollectionCacheToken) (collection data : string) (origins : list Origin)
| Fenced (scope : option (string * string))
| Started (id : nat)
| Allowed (id : nat) (generation : string) (origin : Origin)
| Hit (id : nat) (key generation data : string) (origins : list Origin).

Record world := { w_cache : CollectionCache; w_now : Z; w_log : list event; w_loads : nat }.
Definition w_set (c : CollectionCache) (l : list event) (w : world) : world :=
  {| w_cache := c; w_now := w_now w; w_log := w_log w ++ l; w_loads := w_loads w |}.

Section pages.
Context {T : Type} (as_topic : T → option TopicObject)
        (marshal : ListResult T → option string) (unmarshal : string → option (ListResult T)).

Definition validCollectionObject (item : T) (topic : Topic) : bool :=
  match as_topic item with
  | None | Some (ObjNilPtr _) => false
  | Some object => String.eqb (resourceTopic object) topic
  end.

(** The checks of [StoreCollectionPage] before the lock: the page and the origins to store. *)
Definition storable (maxBytes : Z) (token : CollectionCacheToken) (collection : string)
    (result : ListResult T) : option (string * list Origin) :=
  match collectionCacheTopic collection, res_Cursor result with
  | Some topic, Some cursor =>
    if match cov_Failed (res_Coverage result) with [] => false | _ => true end
       || String.eqb (tk_key token) "" then None
    else if negb (forallb (λ item, validCollectionObject item topic) (res_Items result)) then None
    else if negb (forallb (λ state, forallb (λ item, validCollectionObject item topic)
                                      (oc_Buffered state)) (cc_Origins cursor)) then None
    else match marshal result with
         | None => None
         | Some data => if (maxBytes <? Z.of_nat (String.length data))%Z then None
                        else Some (data, oc_Origin <$> cc_Origins cursor)
         end
  | _, _ => None
  end.

Definition store_locked (token : CollectionCacheToken) (collection data : string)
    (origins : list Origin) (now : Z) (c : CollectionCache) : bool * CollectionCache :=
  if negb (String.eqb (c_generation c) (tk_generation token))
     || negb (c_revision c =? tk_revision token)%Z then (false, c)
  else
    let c := removeLocked (tk_key token) c in
    let need := Z.of_nat (String.length data) in
    match make_room (S (size (c_entries c))) need c with
    | (false, c) => (false, c)
    | (true, c) =>
      (true, set_entries
         (<[tk_key token := {| ce_data := data; ce_generation := tk_generation token;
                               ce_collection := collection; ce_origins := origins;
                               ce_expiresAt := now + c_freshFor c; ce_lastUsed := now |}]> (c_entries c))
         (c_bytes c + need) c)
    end.

(** ** Calls *)

Inductive call :=
| CallBegin (generation key : string)
| CallSwitch (next : string)
| CallInvalidate (generation collection : string)
| CallPurge
| CallEvict (targetBytes : Z)
| CallStore (token : CollectionCacheToken) (collection : string) (result : ListResult T)
| CallLoad (key generation : string).

Inductive reply :=
| GotToken (token : option CollectionCacheToken)
| Finished
| Removed (n : nat)
| StoreDone (ok : bool)
| Loaded (result : option (ListResult T)).

(** [checker.Check] is asked, and answers with a decision. *)
Abbreviation program := (prog world Key string).
Abbreviation round := (program (outcome Empty_set reply)).

Definition begin_step (generation key : string) (w : world) : option CollectionCacheToken * world :=
  let '(t, c) := Begin generation key (w_cache w) in
  (t, w_set c (match t with Some t => [Began t] | None => [] end) w).
Definition switch_step (next : string) (w : world) : world :=
  w_set (SwitchGeneration next (w_cache w)) (if String.eqb next "" then [] else [Fenced None]) w.
Definition invalidate_step (generation collection : string) (w : world) : world :=
  w_set (InvalidateCollection generation collection (w_cache w))
    (if negb (String.eqb (c_generation (w_cache w)) generation) then [] else [Fenced (Some (generation, collection))]) w.
Definition purge_step (w : world) : nat * world :=
  let c := PurgeExpired (w_now w) (w_cache w) in
  (size (c_entries (w_cache w)) - size (c_entries c), w_set c [] w).
Definition evict_step (target : Z) (w : world) : nat * world :=
  let '(n, c) := EvictLRU target (w_cache w) in (n, w_set c [] w).
Definition store_step (token : CollectionCacheToken) (collection data : string) (origins : list Origin)
    (w : world) : bool * world :=
  let '(ok, c) := store_locked token collection data origins (w_now w) (w_cache w) in
  (ok, w_set c (if ok then [Stored token collection data origins] else []) w).

(** The two critical sections of [LoadCollectionPage]. *)
Definition load_start (key generation : string) (w : world)
    : option (nat * collectionCacheEntry * Z) * world :=
  let c := w_cache w in
  match c_entries c !! key with
  | Some entry =>
    if negb (String.eqb (c_generation c) generation) || negb (String.eqb (ce_generation entry) generation)
       || (ce_expiresAt entry <=? w_now w)%Z then (None, w)
    else (Some (w_loads w, entry, c_revision c),
          {| w_cache := c; w_now := w_now w; w_log := w_log w ++ [Started (w_loads w)];
             w_loads := S (w_loads w) |})
  | None => (None, w)
  end.
Definition touch (now : Z) (e : collectionCacheEntry) : collectionCacheEntry := {|
  ce_data := ce_data e; ce_generation := ce_generation e; ce_collection := ce_collection e;
  ce_origins := ce_origins e; ce_expiresAt := ce_expiresAt e; ce_lastUsed := now |}.
Definition load_finish (id : nat) (key generation : string) (entry : collectionCacheEntry) (revision : Z)
    (w : world) : bool * world :=
  let c := w_cache w in
  match c_entries c !! key with
  | Some current =>
    if String.eqb (ce_generation current) generation && (c_revision c =? revision)%Z
       && (w_now w <? ce_expiresAt current)%Z
    then (true, w_set (set_entries (<[key := touch (w_now w) current]> (c_entries c)) (c_bytes c) c)
                  [Hit id key generation (ce_data entry) (ce_origins entry)] w)
    else (false, w)
  | None => (false, w)
  end.

Definition list_key (generation : string) (o : Origin) : Key := {|
  k_Generation := generation; k_Namespace := org_Namespace o; k_APIGroup := org_APIGroup o;
  k_Resource := org_Resource o; k_Subresource := ""; k_Verb := "list"; k_ResourceName := "" |}.

(** Every origin is checked in turn; the first that is not allowed drops the collection. *)
Fixpoint check_origins (id : nat) (generation collection : string) (origins : list Origin)
    : program bool :=
  match origins with
  | [] => mret true
  | o :: origins =>
    decision ← receive (list_key generation o);
    if negb (String.eqb decision DecisionAllowed)
    then modify (invalidate_step generation collection);; mret false
    else modify (λ w, w_set (w_cache w) [Allowed id generation o] w);;
         check_origins id generation collection origins
  end.

Definition LoadCollectionPage (key generation : string) : program (option (ListResult T)) :=
  found ← atomically (load_start key generation);
  match found with
  | None => mret None
  | Some (id, entry, revision) =>
    ok ← check_origins id generation (ce_collection entry) (ce_origins entry);
    if negb ok then mret None
    else match unmarshal (ce_data entry) with
         | None => mret None
         | Some result =>
           valid ← atomically (load_finish id key generation entry revision);
           mret (if valid : bool then Some result else None)
         end
  end.

Definition StoreCollectionPage (token : CollectionCacheToken) (collection : string) (result : ListResult T)
    : program bool :=
  limit ← look (λ w, c_maxBytes (w_cache w));
  match storable limit token collection result with
  | None => mret false
  | Some (data, origins) => atomically (store_step token collection data origins)
  end.

Definition call_code (g : call) : round :=
  match g with
  | CallBegin generation key => t ← atomically (begin_step generation key); mret (Done (GotToken t))
  | CallSwitch next => modify (switch_step next);; mret (Done Finished)
  | CallInvalidate generation collection =>
    modify (invalidate_step generation collection);; mret (Done Finished)
  | CallPurge => n ← atomically purge_step; mret (Done (Removed n))
  | CallEvict target => n ← atomically (evict_step target); mret (Done (Removed n))
  | CallStore token collection result =>
    ok ← StoreCollectionPage token collection result; mret (Done (StoreDone ok))
  | CallLoad key generation =>
    r ← LoadCollectionPage key generation; mret (Done (Loaded r))
  end.
End pages.
End eviction.
