(* ===== verification/CollectionFence.v ===== *)
(** * CollectionFence: what the page cache guarantees

    The invariant of the file Collection and its consequences under every interleaving of
    calls: the cache stays within its budgets, a page that was read before an invalidation
    is never stored after it, and a hit is a stored page that nothing has invalidated and
    whose origins were all allowed while the call ran. *)
From Stdlib Require Import Ascii String ZArith Lia.
From stdpp Require Import base gmap strings list fin_maps.
From S2P Require Import Prelude Topics Cursor Ports Collect Threads Collection.

(** ** The log *)

Definition is_fence (e : event) : bool := match e with Fenced _ => true | _ => false end.
Definition n_fences (l : list event) : nat := length (filter (λ e, is_fence e = true) l).
Definition rev_of (l : list event) : Z := (Z.of_nat (n_fences l) mod u64_modulus)%Z.

(** Nothing in [l] drops the pages of [collection] in [generation]. *)
Definition unfenced (generation collection : string) (l : list event) : Prop :=
  (Fenced None ∉ l) ∧ (Fenced (Some (generation, collection)) ∉ l).

(** [a] ends with a store of this page, and nothing dropped it since. *)
Definition holds_page (key generation collection data : string) (origins : list Origin)
    (a : list event) : Prop :=
  ∃ x token y, a = x ++ Stored token collection data origins :: y ∧ tk_key token = key
    ∧ tk_generation token = generation ∧ unfenced generation collection y.

(** What an event at the end of [a] means. *)
Definition event_ok (a : list event) (e : event) : Prop :=
  match e with
  | Began token => tk_revision token = rev_of a
  | Stored token _ _ _ => tk_revision token = rev_of a
  | Hit id key generation data origins =>
    ∃ a0 a1 collection, a = a0 ++ Started id :: a1 ∧ holds_page key generation collection data origins a0
      ∧ rev_of a0 = rev_of a ∧ ∀ o, o ∈ origins → Allowed id generation o ∈ a1
  | _ => True
  end.
Definition log_ok : list event → Prop := history_ok event_ok.

Lemma n_fences_app l l' : n_fences (l ++ l') = n_fences l + n_fences l'.
Proof. unfold n_fences. by rewrite filter_app, length_app. Qed.

Lemma rev_of_fence l f : rev_of (l ++ [Fenced f]) = u64_succ (rev_of l).
Proof.
  unfold rev_of, u64_succ, u64_add. rewrite n_fences_app. unfold n_fences at 2. simpl.
  rewrite Zplus_mod_idemp_l. f_equal. lia.
Qed.
Lemma rev_of_other l e : is_fence e = false → rev_of (l ++ [e]) = rev_of l.
Proof.
  intros He. unfold rev_of. rewrite n_fences_app. unfold n_fences at 2. rewrite filter_cons.
  rewrite decide_False by congruence. simpl. by rewrite Nat.add_0_r.
Qed.

(** Equal revisions mean that nothing was invalidated in between, short of 2^64 times. *)
Lemma same_rev_no_fence a l :
  (Z.of_nat (length (a ++ l)) < u64_modulus)%Z → rev_of (a ++ l) = rev_of a → ∀ f, Fenced f ∉ l.
Proof.
  intros Hlen Hr f Hin. unfold rev_of in Hr. rewrite n_fences_app in Hr.
  assert (∀ k, n_fences k ≤ length k) as Hle by (intros; apply length_filter).
  pose proof (Hle a). pose proof (Hle l). rewrite length_app in Hlen.
  rewrite !Z.mod_small in Hr by lia. assert (n_fences l = 0) as Hz by lia.
  apply nil_length_inv in Hz. assert (Fenced f ∈ filter (λ e, is_fence e = true) l) as Hx
    by (by apply list_elem_of_filter). rewrite Hz in Hx. set_solver.
Qed.

Lemma holds_page_grow key g c d os a l :
  holds_page key g c d os a → unfenced g c l → holds_page key g c d os (a ++ l).
Proof.
  intros (x & tok & y & -> & Hk & Hg & [U1 U2]) [V1 V2]. exists x, tok, (y ++ l).
  split_and!; [by rewrite <- app_assoc|done|done|]. split; rewrite elem_of_app; tauto.
Qed.

Lemma unfenced_plain g c e : is_fence e = false → unfenced g c [e].
Proof. intros He. split; intros Hx%list_elem_of_singleton; by subst. Qed.

(** ** The cache *)

Record cache_inv (c : CollectionCache) : Prop := {
  ci_sum : c_bytes c = map_sum data_len (c_entries c);
  ci_bytes : (c_bytes c ≤ c_maxBytes c)%Z;
  ci_count : (Z.of_nat (size (c_entries c)) ≤ c_maxEntries c)%Z;
  ci_limits : (0 < c_maxBytes c ∧ 0 < c_maxEntries c)%Z;
  ci_keys : c_entries c !! "" = None }.

Definition same_frame (c c' : CollectionCache) : Prop :=
  c_generation c' = c_generation c ∧ c_revision c' = c_revision c
  ∧ c_maxBytes c' = c_maxBytes c ∧ c_maxEntries c' = c_maxEntries c ∧ c_freshFor c' = c_freshFor c.

Lemma data_len_nonneg e : (0 ≤ data_len e)%Z.
Proof. unfold data_len. lia. Qed.

(** Dropping entries: what is left was there. *)
Definition shrinks (c c' : CollectionCache) : Prop :=
  same_frame c c' ∧ c_entries c' ⊆ c_entries c ∧ (cache_inv c → cache_inv c').

Lemma shrinks_refl c : shrinks c c.
Proof. split_and!; [by repeat split|done|done]. Qed.
Lemma shrinks_trans c1 c2 c3 : shrinks c1 c2 → shrinks c2 c3 → shrinks c1 c3.
Proof.
  intros ((?&?&?&?&?) & Hs & Hi) ((?&?&?&?&?) & Hs' & Hi'). split_and!; [|by etrans|by auto].
  repeat split; congruence.
Qed.

Lemma removeLocked_shrinks key c : shrinks c (removeLocked key c).
Proof.
  unfold removeLocked. destruct (c_entries c !! key) as [e|] eqn:Hk; [|apply shrinks_refl].
  split_and!; [by repeat split|apply delete_subseteq|]. intros [S B N L K]. pose proof (data_len_nonneg e).
  split; simpl; try done; try lia.
  - rewrite (map_sum_delete _ _ _ e) by done. lia.
  - rewrite map_size_delete_Some by done. lia.
  - destruct (decide (key = "")) as [->|Hne]; [apply lookup_delete_eq|by rewrite lookup_delete_ne].
Qed.

Lemma remove_list_shrinks l c : shrinks c (foldl (λ c key, removeLocked key c) c l).
Proof.
  revert c. induction l as [|key l IH]; intros c; [apply shrinks_refl|].
  eapply shrinks_trans; [apply removeLocked_shrinks|apply IH].
Qed.

Lemma remove_list_lookup l c key e :
  c_entries (foldl (λ c key, removeLocked key c) c l) !! key = Some e → key ∉ l.
Proof.
  revert c. induction l as [|k l IH]; intros c Hk; [set_solver|]. cbn [foldl] in Hk.
  rewrite not_elem_of_cons. split; [|by eapply IH]. intros ->.
  destruct (remove_list_shrinks l (removeLocked k c)) as (_ & Hsub & _).
  eapply lookup_weaken in Hk; [|exact Hsub]. unfold removeLocked in Hk.
  destruct (c_entries c !! k) eqn:Hc; [|congruence]. simpl in Hk. by rewrite lookup_delete_eq in Hk.
Qed.

Lemma remove_matching_spec P c :
  shrinks c (remove_matching P c)
  ∧ ∀ key e, c_entries (remove_matching P c) !! key = Some e → P e = false.
Proof.
  split; [apply remove_list_shrinks|]. intros key e Hk. unfold remove_matching in Hk.
  pose proof (remove_list_lookup _ _ _ _ Hk) as Hn.
  destruct (remove_list_shrinks (fst <$> filter (λ p, P p.2 = true) (map_to_list (c_entries c))) c)
    as (_ & Hsub & _). eapply lookup_weaken in Hk; [|exact Hsub].
  destruct (P e) eqn:HP; [|done]. exfalso. apply Hn, list_elem_of_fmap. exists (key, e).
  split; [done|]. apply list_elem_of_filter. split; [done|]. by apply elem_of_map_to_list.
Qed.

Section cache.
Context (order : list (string * collectionCacheEntry) → list (string * collectionCacheEntry)).
Context (order_perm : ∀ l, order l ≡ₚ l).

Lemma evict_lru_shrinks fuel target c : shrinks c (evict_lru order fuel target c).2.
Proof.
  revert c. induction fuel as [|fuel IH]; intros c; [apply shrinks_refl|]. cbn [evict_lru].
  destruct (_ && _); [|apply shrinks_refl]. destruct (String.eqb _ ""); [apply shrinks_refl|].
  specialize (IH (removeLocked (oldest_key order c) c)).
  destruct (evict_lru _ _ _ _) as [n c']. eapply shrinks_trans; [apply removeLocked_shrinks|exact IH].
Qed.

Lemma make_room_shrinks fuel need c ok c' :
  make_room order fuel need c = (ok, c') →
  shrinks c c' ∧ (ok = true → (c_bytes c' + need ≤ c_maxBytes c' ∧
    Z.of_nat (size (c_entries c')) < c_maxEntries c')%Z).
Proof.
  revert c. induction fuel as [|fuel IH]; intros c; cbn [make_room];
    destruct (_ || _) eqn:Hfull; intros Hm; simplify_eq; try (split; [apply shrinks_refl|]).
  - done.
  - intros _. apply orb_false_iff in Hfull as [H1 H2]. bool_to_prop. lia.
  - destruct (String.eqb _ ""); [simplify_eq; by split; [apply shrinks_refl|]|].
    destruct (IH _ Hm) as [Hs Hok]. split; [|done]. eapply shrinks_trans; [apply removeLocked_shrinks|done].
  - intros _. apply orb_false_iff in Hfull as [H1 H2]. bool_to_prop. lia.
Qed.

(** The scan finds an entry whenever there is one. *)
Lemma oldest_in_spec l best :
  Forall (λ p, p.1 ≠ "") l →
  (oldest_in l best = best ∧ (l = [] ∨ best.1 ≠ "")) ∨ (oldest_in l best).1 ∈ l.*1.
Proof.
  revert best. induction l as [|[key entry] l IH]; intros best Hl; cbn [oldest_in]; [by left; auto|].
  apply Forall_cons in Hl as [Hk Hl]. simpl in Hk. destruct (_ || _) eqn:Hb.
  - right. destruct (IH (key, ce_lastUsed entry) Hl) as [[-> _]|Hin]; [by left|by right].
  - apply orb_false_iff in Hb as [Hb _]. apply String.eqb_neq in Hb.
    destruct (IH best Hl) as [[-> _]|Hin]; [left; auto|right; by right].
Qed.

Lemma oldest_key_found c :
  c_entries c !! "" = None → c_entries c ≠ ∅ → is_Some (c_entries c !! oldest_key order c).
Proof.
  intros Hk Hne. unfold oldest_key.
  assert (Forall (λ p, p.1 ≠ "") (order (map_to_list (c_entries c)))) as Hl.
  { rewrite order_perm. apply Forall_forall. intros [k e] Hin%elem_of_map_to_list. simpl. congruence. }
  destruct (oldest_in_spec _ ("", 0%Z) Hl) as [[_ [Hnil|Hbad]]|Hin]; [|done|].
  - pose proof (order_perm (map_to_list (c_entries c))) as Hp. rewrite Hnil in Hp.
    apply Permutation_nil_l in Hp. symmetry in Hp. by apply map_to_list_empty_iff in Hp.
  - apply list_elem_of_fmap in Hin as ([k e] & -> & Hin). rewrite order_perm in Hin.
    exists e. by apply elem_of_map_to_list.
Qed.

(** There is always room for a page that fits an empty cache. *)
Lemma make_room_ok fuel need c :
  cache_inv c → (need ≤ c_maxBytes c)%Z → size (c_entries c) < fuel → (make_room order fuel need c).1 = true.
Proof.
  revert c. induction fuel as [|fuel IH]; intros c Hi Hneed Hf; [lia|]. cbn [make_room].
  destruct (_ || _) eqn:Hfull; [|done]. pose proof Hi as [S B N L K].
  assert (c_entries c ≠ ∅) as Hne.
  { intros He. rewrite He, map_size_empty in Hfull. rewrite He, map_sum_empty in S.
    apply orb_true_iff in Hfull. bool_to_prop. lia. }
  destruct (oldest_key_found c K Hne) as [e He].
  destruct (String.eqb_spec (oldest_key order c) "") as [Heq|_]; [rewrite Heq in He; congruence|].
  destruct (removeLocked_shrinks (oldest_key order c) c) as ((_ & _ & Hmax & _) & _ & Hinv).
  apply IH; [auto|lia|]. unfold removeLocked. rewrite He. simpl.
  rewrite map_size_delete_Some by done.
  assert (size (c_entries c) ≠ 0) by (by rewrite map_size_non_empty_iff). lia.
Qed.

(** ** The invariant *)

Record pages_inv (w : world) : Prop := {
  pi_cache : cache_inv (w_cache w);
  pi_log : log_ok (w_log w);
  pi_revision : c_revision (w_cache w) = rev_of (w_log w);
  pi_entries : ∀ key e, c_entries (w_cache w) !! key = Some e →
    holds_page key (ce_generation e) (ce_collection e) (ce_data e) (ce_origins e) (w_log w) }.

(** Steps that drop entries, or none, and log one event that is not a fence. *)
Lemma inv_plain w c e :
  pages_inv w → shrinks (w_cache w) c → is_fence e = false → event_ok (w_log w) e →
  pages_inv (w_set c [e] w).
Proof.
  intros [C L R E] ((Hg & Hr & _) & Hsub & Hi) He Hok. split; simpl.
  - auto.
  - by apply history_snoc.
  - by rewrite Hr, R, rev_of_other.
  - intros key x Hx. apply holds_page_grow; [|by apply unfenced_plain].
    apply E. by eapply lookup_weaken.
Qed.

Lemma inv_silent w c : pages_inv w → shrinks (w_cache w) c → pages_inv (w_set c [] w).
Proof.
  intros [C L R E] ((Hg & Hr & _) & Hsub & Hi). split; simpl; rewrite ?app_nil_r; [auto|done|congruence|].
  intros key x Hx. apply E. by eapply lookup_weaken.
Qed.

Lemma begin_inv generation key w : pages_inv w → pages_inv (begin_step generation key w).2.
Proof.
  intros Hi. unfold begin_step, Begin. destruct (_ || _); [by apply inv_silent, shrinks_refl|].
  set (c := if String.eqb _ "" then _ else _).
  assert (pages_inv (w_set c [] w) ∧ c_revision c = c_revision (w_cache w)) as [Hc Hr].
  { subst c. destruct (String.eqb _ ""); [|split; [by apply inv_silent, shrinks_refl|done]].
    destruct Hi as [[S B N L K] Lg R E]. split; [|done]. by split; simpl; rewrite ?app_nil_r. }
  destruct (negb _); [done|]. cbn [snd].
  replace (w_set c _ w) with (w_set c [Began {| tk_generation := generation; tk_revision := c_revision c;
    tk_key := key |}] (w_set c [] w)); [|unfold w_set; simpl; by rewrite app_nil_r].
  apply inv_plain; [done|apply shrinks_refl|done|]. simpl. rewrite app_nil_r, Hr. apply (pi_revision _ Hi).
Qed.

Lemma switch_inv next w : pages_inv w → pages_inv (switch_step next w).
Proof.
  intros Hi. unfold switch_step, SwitchGeneration.
  destruct (String.eqb next ""); [by apply inv_silent, shrinks_refl|].
  destruct Hi as [[S B N L K] Lg R E]. split; simpl.
  - split; simpl; try done; try lia.
    all: try (by rewrite map_sum_empty). all: rewrite ?map_size_empty; lia.
  - by apply history_snoc.
  - by rewrite rev_of_fence, R.
  - intros key e He. by rewrite lookup_empty in He.
Qed.

Lemma invalidate_inv generation collection w :
  pages_inv w → pages_inv (invalidate_step generation collection w).
Proof.
  intros Hi. unfold invalidate_step, InvalidateCollection.
  destruct (negb _); [by apply inv_silent, shrinks_refl|].
  set (P := λ e, String.eqb (ce_generation e) generation && String.eqb (ce_collection e) collection).
  set (c0 := set_generation _ _ _). destruct (remove_matching_spec P c0) as [((_ & Hr & _) & Hsub & Hinv) HP].
  destruct Hi as [C Lg R E]. split; simpl.
  - apply Hinv. by destruct C.
  - by apply history_snoc.
  - by rewrite rev_of_fence, Hr, <- R.
  - intros key e He. specialize (HP key e He). eapply lookup_weaken in He; [|exact Hsub].
    apply holds_page_grow; [by apply E|]. split; intros Hx%list_elem_of_singleton; [done|].
    injection Hx as Hg Hcoll. subst P. simpl in HP. by rewrite Hg, Hcoll, !String.eqb_refl in HP.
Qed.

(** The key of the page was freed before. *)
Lemma store_free key c c' : shrinks (removeLocked key c) c' → c_entries c' !! key = None.
Proof.
  intros (_ & Hsub & _). destruct (c_entries c' !! key) as [e|] eqn:Hk; [|done].
  eapply lookup_weaken in Hk; [|exact Hsub]. unfold removeLocked in Hk.
  destruct (c_entries c !! key) eqn:Hc; [|congruence]. simpl in Hk. by rewrite lookup_delete_eq in Hk.
Qed.

Lemma page_store_inv token collection data origins w :
  (Z.of_nat (String.length data) ≤ c_maxBytes (w_cache w))%Z → tk_key token ≠ "" →
  pages_inv w → pages_inv (store_step order token collection data origins w).2.
Proof.
  intros Hlen Hkey Hi. unfold store_step, store_locked.
  destruct (_ || _) eqn:Hfence; [by apply inv_silent, shrinks_refl|].
  apply orb_false_iff in Hfence as [Hg Hrev]. bool_to_prop.
  set (c1 := removeLocked (tk_key token) (w_cache w)).
  pose proof (removeLocked_shrinks (tk_key token) (w_cache w)) as Hs1. fold c1 in Hs1.
  destruct (make_room order _ _ c1) as [ok c2] eqn:Hroom.
  destruct (make_room_shrinks _ _ _ _ _ Hroom) as [Hs2 Hok].
  pose proof (shrinks_trans _ _ _ Hs1 Hs2) as Hs. destruct ok; cbn [snd]; [|by apply inv_silent].
  specialize (Hok eq_refl). pose proof (inv_silent _ _ Hi Hs) as [C2 L2 R2 E2].
  simpl in C2, L2, R2, E2. rewrite app_nil_r in *. destruct C2 as [S B N L K]. split; simpl.
  - split; simpl; try done; try lia.
    + rewrite map_sum_insert by (by eapply store_free). rewrite <- S. unfold data_len. simpl. lia.
    + rewrite map_size_insert_None by (by eapply store_free). lia.
    + by rewrite lookup_insert_ne.
  - apply history_snoc; [done|]. simpl. rewrite <- R2. destruct Hs as ((_ & -> & _) & _). done.
  - by rewrite rev_of_other, R2.
  - intros key e He. destruct (decide (key = tk_key token)) as [->|Hne].
    + rewrite lookup_insert_eq in He. injection He as <-. simpl. exists (w_log w), token, [].
      split_and!; [done..|]. split; set_solver.
    + rewrite lookup_insert_ne in He by done. apply holds_page_grow; [by apply E2|by apply unfenced_plain].
Qed.

(** ** Loading *)

(** A running load: where it started, with the page it read, and the origins allowed so far. *)
Definition loading (id : nat) (key generation : string) (e : collectionCacheEntry) (revision : Z)
    (allowed : list Origin) (w : world) : Prop :=
  ∃ a0 a1, w_log w = a0 ++ Started id :: a1 ∧ revision = rev_of a0
    ∧ holds_page key generation (ce_collection e) (ce_data e) (ce_origins e) a0
    ∧ ∀ o, o ∈ allowed → Allowed id generation o ∈ a1.

Lemma load_start_inv key generation w id e revision w' :
  pages_inv w → load_start key generation w = (Some (id, e, revision), w') →
  pages_inv w' ∧ w_log w' = w_log w ++ [Started id] ∧ loading id key generation e revision [] w'.
Proof.
  intros Hi. unfold load_start. destruct (c_entries _ !! key) as [x|] eqn:Hk; [|done].
  destruct (_ || _ || _) eqn:Hb; [done|]. intros [= <- <- <- <-].
  apply orb_false_iff in Hb as [Hb _]. apply orb_false_iff in Hb as [_ Hg]. bool_to_prop.
  pose proof (inv_plain w (w_cache w) (Started (w_loads w)) Hi (shrinks_refl _) eq_refl I) as [C L R E].
  split_and!; [by split|done|]. exists (w_log w), []. split_and!; [done|apply (pi_revision _ Hi)| |set_solver].
  rewrite <- Hg. by apply (pi_entries _ Hi).
Qed.

Lemma loading_grow id key g e r al w w' l :
  w_log w' = w_log w ++ l → loading id key g e r al w → loading id key g e r al w'.
Proof.
  intros Hl (a0 & a1 & Hw & Hr & Hp & Ha). exists a0, (a1 ++ l).
  split_and!; [by rewrite Hl, Hw, <- app_assoc|done|done|]. intros o Ho. rewrite elem_of_app. auto.
Qed.

Lemma load_finish_inv id key g e r w :
  pages_inv w → loading id key g e r (ce_origins e) w →
  pages_inv (load_finish id key g e r w).2
  ∧ ((load_finish id key g e r w).1 = true →
     w_log (load_finish id key g e r w).2 = w_log w ++ [Hit id key g (ce_data e) (ce_origins e)])
  ∧ ((load_finish id key g e r w).1 = false → (load_finish id key g e r w).2 = w).
Proof.
  intros Hi (a0 & a1 & Hw & Hr & Hp & Ha). unfold load_finish.
  destruct (c_entries _ !! key) as [x|] eqn:Hk; [|done]. destruct (_ && _ && _) eqn:Hb; [|done].
  apply andb_true_iff in Hb as [Hb _]. apply andb_true_iff in Hb as [_ Hrev]. bool_to_prop. cbn [fst snd].
  split; [|done]. destruct Hi as [[S B N L K] Lg R E]. split; simpl.
  - split; simpl; try done.
    + rewrite (map_sum_overwrite _ _ _ x) by done.
      change (data_len (touch (w_now w) x)) with (data_len x). lia.
    + rewrite map_size_insert_Some by done. lia.
    + destruct (decide (key = "")) as [->|]; [congruence|by rewrite lookup_insert_ne].
  - apply history_snoc; [done|]. exists a0, a1, (ce_collection e). split_and!; [done|done|congruence|done].
  - by rewrite rev_of_other.
  - intros k y Hy. apply holds_page_grow; [|by apply unfenced_plain].
    destruct (decide (k = key)) as [->|Hne]; [|apply E; by rewrite lookup_insert_ne in Hy].
    rewrite lookup_insert_eq in Hy. injection Hy as <-. simpl. by apply E.
Qed.

(** ** Every interleaving *)

Section system.
Context {T : Type} (as_topic : T → option TopicObject)
        (marshal : ListResult T → option string) (unmarshal : string → option (ListResult T)).

Definition tick (d : Z) (w : world) : world := {|
  w_cache := w_cache w; w_now := (w_now w + Z.max 0 d)%Z; w_log := w_log w; w_loads := w_loads w |}.

Definition pages_system : @system world Key string (@call T) Z Empty_set (@reply T) := {|
  ready := λ _ _ _, true;
  code := call_code order as_topic marshal unmarshal;
  enter := λ h, match h with end;
  env := tick;
  born := λ _ _, [];
  owner := λ _, None;
  caller := λ _, None;
  count := λ _, 0;
  callable := λ _, True;
  env_ok := λ _ _, True |}.

Definition pages_spec : @spec world Key (@call T) Empty_set (@reply T) := {|
  invariant := pages_inv;
  trans := λ _ w w', w_log w `prefix_of` w_log w' ∧ c_maxBytes (w_cache w') = c_maxBytes (w_cache w);
  quiet := λ _ _ _, True;
  pre := λ _ _, True;
  at_head := λ _ _ _, False;
  post := λ g r w,
    match g, r with
    | CallLoad key generation, Loaded (Some result) =>
      ∃ id data origins, Hit id key generation data origins ∈ w_log w ∧ unmarshal data = Some result
    | CallStore token collection result, StoreDone true =>
      ∃ data origins, Stored token collection data origins ∈ w_log w ∧ marshal result = Some data
    | _, _ => True
    end;
  unused := λ _ _, True |}.

Abbreviation pstable := (Threads.stable pages_system pages_spec).
Abbreviation psafe := (Threads.safe pages_system pages_spec).

Definition grows (P : world → Prop) : Prop :=
  ∀ w w' l, w_log w' = w_log w ++ l → c_maxBytes (w_cache w') = c_maxBytes (w_cache w) → P w → P w'.
Lemma grows_stable t P : grows P → pstable t P.
Proof. intros HP u w w' _ _ [[l Hl] Hm]. by apply (HP w w' l). Qed.
Lemma grows_true : grows (λ _, True).
Proof. done. Qed.

Lemma step_here t w w' l :
  pages_inv w' → w_log w' = w_log w ++ l → c_maxBytes (w_cache w') = c_maxBytes (w_cache w) →
  Threads.step_ok pages_system pages_spec t w w'.
Proof. intros Hi Hl Hm. split_and!; [done| |constructor]. split; [by exists l|done]. Qed.

Lemma elem_grows e : grows (λ w, e ∈ w_log w).
Proof. intros w w' l -> _ Hin. apply elem_of_app. by left. Qed.

(** Every step extends the log and keeps the limits. *)
Definition extends (w w' : world) : Prop :=
  (∃ l, w_log w' = w_log w ++ l) ∧ c_maxBytes (w_cache w') = c_maxBytes (w_cache w).

Lemma extends_set w c l : c_maxBytes c = c_maxBytes (w_cache w) → extends w (w_set c l w).
Proof. intros Hm. split; [by exists l|done]. Qed.
Lemma extends_refl w : extends w w.
Proof. split; [exists []; by rewrite app_nil_r|done]. Qed.

Lemma begin_extends g k w : extends w (begin_step g k w).2.
Proof.
  unfold begin_step, Begin. destruct (_ || _); [by apply extends_set|].
  destruct (String.eqb (c_generation _) ""); destruct (negb _); by apply extends_set.
Qed.
Lemma switch_extends n w : extends w (switch_step n w).
Proof. apply extends_set. unfold SwitchGeneration. by destruct (String.eqb n ""). Qed.
Lemma invalidate_extends g c w : extends w (invalidate_step g c w).
Proof.
  apply extends_set. unfold InvalidateCollection. destruct (negb _); [done|].
  match goal with |- c_maxBytes (remove_matching ?P ?c0) = _ => 
    destruct (remove_matching_spec P c0) as [((_ & _ & -> & _) & _) _] end. done.
Qed.
Lemma store_extends tok c d o w : extends w (store_step order tok c d o w).2.
Proof.
  unfold store_step, store_locked. destruct (_ || _); [by apply extends_set|].
  destruct (make_room _ _ _ _) as [ok c2] eqn:Hroom.
  destruct (make_room_shrinks _ _ _ _ _ Hroom) as [((_ & _ & Hm & _) & _) _].
  destruct (removeLocked_shrinks (tk_key tok) (w_cache w)) as ((_ & _ & Hm' & _) & _).
  destruct ok; apply extends_set; simpl; congruence.
Qed.

Lemma psafe_step {A} t (L : world → Prop) (f : world → A * world) (P : A → world → Prop) :
  (∀ a, grows (P a)) →
  (∀ w, pages_inv w → L w → pages_inv (f w).2 ∧ extends w (f w).2 ∧ P (f w).1 (f w).2) →
  psafe t L (atomically f) P.
Proof.
  intros HP Hf. apply safe_atomically; [intros a; by apply grows_stable|]. intros w Hi HL.
  destruct (Hf w Hi HL) as (Hi' & [[l Hl] Hm] & HPw). split; [by eapply step_here|done].
Qed.

Lemma psafe_modify t L (f : world → world) :
  grows L → (∀ w, pages_inv w → pages_inv (f w)) → (∀ w, extends w (f w)) →
  psafe t L (modify f) (λ _, L).
Proof.
  intros HL Hf Hx. apply safe_modify; [by apply grows_stable|]. intros w Hi HLw.
  destruct (Hx w) as [[l Hl] Hm]. split; [by eapply step_here; auto|]. by eapply HL.
Qed.

Lemma loading_grows id k g e r al : grows (loading id k g e r al).
Proof. intros w w' l Hl _. by apply (loading_grow _ _ _ _ _ _ _ _ l). Qed.

Lemma check_origins_safe t id key g e r origins done_ :
  psafe t (loading id key g e r done_) (check_origins id g (ce_collection e) origins)
    (λ ok w, ok = true → loading id key g e r (done_ ++ origins) w).
Proof.
  revert done_. induction origins as [|o origins IH]; intros done_; cbn [check_origins].
  { intros w _ Hl _. by rewrite app_nil_r. }
  eapply safe_compose.
  { split; [done|]. intros w d Hi Hl _ _. exists (loading id key g e r done_).
    split_and!; [by apply grows_stable, loading_grows|done|].
    instantiate (1 := λ _ w, loading id key g e r done_ w). by intros w' _ Hl'. }
  intros d. cbv beta. destruct (negb _).
  - eapply safe_compose; [apply psafe_modify; [apply loading_grows|apply invalidate_inv|apply invalidate_extends]|].
    intros []. by intros w _ _.
  - eapply (safe_compose _ _ _ _ _ _ (λ _ w, loading id key g e r (done_ ++ [o]) w)).
    + apply safe_modify; [by apply grows_stable, loading_grows|]. intros w Hi (a0 & a1 & Hw & Hr & Hp & Ha).
      split.
      * apply (step_here _ _ _ [Allowed id g o]); [|done|done]. apply inv_plain; [done|apply shrinks_refl|done|done].
      * exists a0, (a1 ++ [Allowed id g o]). simpl. split_and!; [by rewrite Hw, <- app_assoc|done|done|].
        intros o' [Ho|Ho%list_elem_of_singleton]%elem_of_app; apply elem_of_app; [left; auto|right; subst; by left].
    + intros []. eapply safe_post; [|apply IH]. intros ok w _ Hok Hx. specialize (Hok Hx).
      by rewrite <- app_assoc in Hok.
Qed.

Lemma load_safe key g :
  psafe (CallLoad key g) (λ _, True) (LoadCollectionPage unmarshal key g)
    (λ r w, match r with
            | Some result => ∃ id data origins, Hit id key g data origins ∈ w_log w ∧ unmarshal data = Some result
            | None => True
            end).
Proof.
  unfold LoadCollectionPage.
  eapply (safe_compose _ _ _ _ _ _ (λ r w, match r with
    | Some (id, e, revision) => loading id key g e revision [] w | None => True end)).
  { apply psafe_step; [intros [[[id e] r]|]; [apply loading_grows|apply grows_true]|].
    intros w Hi _. destruct (load_start key g w) as [[[[id e] r]|] w'] eqn:Hs; cbn [fst snd].
    - destruct (load_start_inv _ _ _ _ _ _ _ Hi Hs) as (Hi' & Hl & Hld). split_and!; [done| |done].
      split; [by eexists|]. unfold load_start in Hs. repeat (case_match; try done). by simplify_eq.
    - assert (w' = w) as -> by (unfold load_start in Hs; repeat (case_match; try done); by simplify_eq).
      split_and!; [done|apply extends_refl|done]. }
  intros [[[id e] r]|]; [|by intros w _ _].
  eapply safe_compose; [apply check_origins_safe|]. intros ok. destruct ok; cbn [negb]; [|by intros w _ _].
  destruct (unmarshal (ce_data e)) as [result|] eqn:Hu; [|by intros w _ _].
  eapply (safe_compose _ _ _ _ _ _ (λ valid w, valid = true → Hit id key g (ce_data e) (ce_origins e) ∈ w_log w)).
  - apply psafe_step; [intros a w w' l Hl Hm HP Ha; apply (elem_grows _ w w' l Hl Hm); auto|].
    intros w Hi Hl. destruct (load_finish_inv id key g e r w Hi (Hl eq_refl)) as (Hi' & Hyes & Hno).
    split_and!; [done| |].
    + destruct ((load_finish id key g e r w).1) eqn:Hf; [|rewrite Hno by done; apply extends_refl].
      split; [eexists; by apply Hyes|]. unfold load_finish in *. by repeat case_match.
    + intros Hv. rewrite Hyes by done. apply elem_of_app. right. by left.
  - intros valid w _ Hv. destruct valid; [|done]. exists id, (ce_data e), (ce_origins e). auto.
Qed.

Lemma store_safe token collection result :
  psafe (CallStore token collection result) (λ _, True)
    (StoreCollectionPage order as_topic marshal token collection result)
    (λ ok w, ok = true → ∃ data origins, Stored token collection data origins ∈ w_log w
       ∧ marshal result = Some data).
Proof.
  unfold StoreCollectionPage.
  eapply (safe_compose _ _ _ _ _ _ (λ limit w, c_maxBytes (w_cache w) = limit)).
  { intros w Hi _. split; [apply (step_here _ _ _ []); [done|by rewrite app_nil_r|done]|].
    exists (λ w', c_maxBytes (w_cache w') = c_maxBytes (w_cache w)).
    split_and!; [|done|by intros x _ Hx]. apply grows_stable. intros x y l _ Hm ?. congruence. }
  intros limit. destruct (storable as_topic marshal limit token collection result) as [[data origins]|] eqn:Hs;
    [|by intros w _ _].
  assert ((Z.of_nat (String.length data) ≤ limit)%Z ∧ tk_key token ≠ "" ∧ marshal result = Some data)
    as (Hlen & Hkey & Hm).
  { unfold storable in Hs. destruct (collectionCacheTopic collection); [|done].
    destruct (res_Cursor result); [|done]. destruct (_ || _) eqn:Hk; [done|].
    destruct (negb _); [done|]. destruct (negb _); [done|]. destruct (marshal result) as [d|]; [|done].
    destruct (_ <? _)%Z eqn:Hl; [done|]. simplify_eq. apply orb_false_iff in Hk as [_ Hk]. by bool_to_prop. }
  apply psafe_step.
  { intros a w w' l Hl Hmx HP Ha. destruct (HP Ha) as (d & o & Hin & Hd). exists d, o.
    split; [by apply (elem_grows _ w w' l)|done]. }
  intros w Hi Hlim. split_and!; [apply page_store_inv; [lia|done|done]|apply store_extends|].
  intros Hok. exists data, origins. split; [|done]. unfold store_step in *.
  destruct (store_locked _ _ _ _ _ _ _) as [ok c]. cbn [fst snd] in *. subst ok. simpl.
  apply elem_of_app. right. by left.
Qed.

#[local] Instance pages_sound : Sound pages_system pages_spec.
Proof.
  split.
  - intros t. by intros u w w' _ _ _ _.
  - intros t []. 
  - intros t r. apply grows_stable. intros w w' l Hl Hm. destruct t, r; try done; simpl.
    + destruct ok; [|done]. intros (d & o & Hin & Hd). exists d, o. split; [by apply (elem_grows _ w w' l)|done].
    + destruct result as [result|]; [|done]. intros (id & d & o & Hin & Hd). exists id, d, o.
      split; [by apply (elem_grows _ w w' l)|done].
  - intros [g k|n|g c| |target|tok c r|k g]; cbn [code pages_system call_code pre pages_spec].
    + eapply safe_compose; [apply (psafe_step _ _ _ (λ _ _, True))|by intros a w _ _]; [by intros|].
      intros w Hi _. split_and!; [by apply begin_inv|apply begin_extends|done].
    + eapply safe_compose; [apply psafe_modify; [done|apply switch_inv|apply switch_extends]|]. by intros [] w _ _.
    + eapply safe_compose; [apply psafe_modify; [done|apply invalidate_inv|apply invalidate_extends]|].
      by intros [] w _ _.
    + eapply safe_compose; [apply (psafe_step _ _ _ (λ _ _, True))|by intros a w _ _]; [by intros|].
      intros w Hi _. destruct (remove_matching_spec (λ e, (ce_expiresAt e <=? w_now w)%Z) (w_cache w)) as [Hs _].
      split_and!; [by apply inv_silent|apply extends_set; by destruct Hs as ((_ & _ & ? & _) & _)|done].
    + eapply safe_compose; [apply (psafe_step _ _ _ (λ _ _, True))|by intros a w _ _]; [by intros|].
      intros w Hi _. unfold evict_step, EvictLRU.
      pose proof (evict_lru_shrinks (S (size (c_entries (w_cache w)))) (Z.max 0 target) (w_cache w)) as Hs.
      destruct (evict_lru _ _ _ _) as [n c].
      split_and!; [by apply inv_silent|apply extends_set; by destruct Hs as ((_ & _ & ? & _) & _)|done].
    + eapply safe_compose; [apply store_safe|]. intros ok w _ Hok. simpl. destruct ok; auto.
    + eapply safe_compose; [apply load_safe|]. intros r w _ Hr. simpl. by destruct r.
  - intros t [].
  - done.
  - intros d w Hi. apply (step_here _ _ _ []); [|by rewrite app_nil_r|done]. by destruct Hi.
  - done.
  - done.
  - intros u w w' _. split_and!; [constructor..|]. intros x Hx. set_solver.
Qed.

(** ** The guarantees *)

Definition pages_start (maxBytes maxEntries freshFor now : Z)
    : @config world Key string (@call T) Empty_set (@reply T) :=
  Config {| w_cache := NewCollectionCache maxBytes maxEntries freshFor; w_now := now; w_log := [];
            w_loads := 0 |} [].

Lemma pages_start_ok mb me ff now : config_ok pages_system pages_spec (pages_start mb me ff now).
Proof.
  split; simpl; [|constructor|constructor|constructor|done|intros w Hw; set_solver].
  assert (0 < c_maxBytes (NewCollectionCache mb me ff) ∧ 0 < c_maxEntries (NewCollectionCache mb me ff))%Z
    as [Hb He].
  { simpl. split; destruct (_ <=? 0)%Z eqn:Hx; bool_to_prop; try done; lia. }
  split; simpl.
  - split; cbn [c_bytes c_entries NewCollectionCache]; try done.
    + simpl in *. lia.
    + rewrite map_size_empty. simpl in *. lia.
  - intros a e b Heq. destruct a; discriminate.
  - done.
  - intros key e He'. by rewrite lookup_empty in He'.
Qed.

Lemma pages_reachable mb me ff now c :
  reachable pages_system (pages_start mb me ff now) c → pages_inv (shared c).
Proof. intros Hr. apply (reachable_ok _ _ _ _ (pages_start_ok mb me ff now) Hr). Qed.

(** The page cache never holds more bytes or more pages than its limits, whatever
    stores, loads, invalidations and evictions interleave, and its byte counter is the sum
    of the stored pages. *)
Theorem page_cache_budget mb me ff now c :
  reachable pages_system (pages_start mb me ff now) c →
  let cache := w_cache (shared c) in
  c_bytes cache = map_sum data_len (c_entries cache)
  ∧ (c_bytes cache ≤ c_maxBytes cache)%Z
  ∧ (Z.of_nat (size (c_entries cache)) ≤ c_maxEntries cache)%Z.
Proof. intros Hr. by destruct (pi_cache _ (pages_reachable _ _ _ _ _ Hr)). Qed.

(** A page is stored only if nothing was invalidated since its token was taken: between
    the [Begin] that issued the token and the store there is no switch of the generation
    and no invalidation (short of 2^64 of them). *)
Theorem late_page_fenced mb me ff now c i token collection result :
  reachable pages_system (pages_start mb me ff now) c →
  returned c i = Some (CallStore token collection result, StoreDone true) →
  (Z.of_nat (length (w_log (shared c))) < u64_modulus)%Z →
  ∃ a data origins b, w_log (shared c) = a ++ Stored token collection data origins :: b
    ∧ marshal result = Some data
    ∧ ∀ a0 a1, a = a0 ++ Began token :: a1 → ∀ f, Fenced f ∉ a1.
Proof.
  intros Hr Hret Hlen. pose proof (pages_reachable _ _ _ _ _ Hr) as [_ Lg _ _].
  destruct (reachable_post pages_system _ _ _ c _ _ _ (pages_start_ok mb me ff now) Hr Hret (reach_start _ _))
    as (data & origins & Hin & Hm).
  apply list_elem_of_split in Hin as (a & b & Hlog). exists a, data, origins, b.
  split_and!; [done|done|]. intros a0 a1 Ha f.
  pose proof (Lg _ _ _ Hlog) as Hs. simpl in Hs.
  assert (w_log (shared c) = a0 ++ Began token :: a1 ++ Stored token collection data origins :: b) as Hlog0
    by (by rewrite Hlog, Ha, <- app_assoc). pose proof (Lg _ _ _ Hlog0) as Hb. simpl in Hb.
  apply (same_rev_no_fence (a0 ++ [Began token])).
  - rewrite Hlog, Ha, !length_app in Hlen. rewrite !length_app. simpl in *. lia.
  - rewrite rev_of_other by done. rewrite <- app_assoc. simpl. rewrite <- Ha. congruence.
Qed.

(** A hit returns a page that was stored under this key and generation and not dropped
    since, and while the call ran nothing at all was invalidated and the permission to list
    was confirmed for every origin of the page. *)
Theorem page_hit_sound mb me ff now c i key generation result :
  reachable pages_system (pages_start mb me ff now) c →
  returned c i = Some (CallLoad key generation, Loaded (Some result)) →
  (Z.of_nat (length (w_log (shared c))) < u64_modulus)%Z →
  ∃ x token collection data origins y id a b,
    w_log (shared c) = x ++ Stored token collection data origins
                       :: y ++ Started id :: a ++ Hit id key generation data origins :: b
    ∧ tk_key token = key ∧ tk_generation token = generation ∧ unmarshal data = Some result
    ∧ unfenced generation collection y
    ∧ (∀ f, Fenced f ∉ a) ∧ (∀ o, o ∈ origins → Allowed id generation o ∈ a).
Proof.
  intros Hr Hret Hlen. pose proof (pages_reachable _ _ _ _ _ Hr) as [_ Lg _ _].
  destruct (reachable_post pages_system _ _ _ c _ _ _ (pages_start_ok mb me ff now) Hr Hret (reach_start _ _))
    as (id & data & origins & Hin & Hu).
  apply list_elem_of_split in Hin as (l & b & Hlog). pose proof (Lg _ _ _ Hlog) as Hh.
  destruct Hh as (a0 & a & collection & -> & (x & token & y & -> & Hk & Hg & Hun) & Hrev & Hall).
  exists x, token, collection, data, origins, y, id, a, b.
  split_and!; [rewrite Hlog; by simplify_list_eq|done..| |done].
  apply (same_rev_no_fence ((x ++ Stored token collection data origins :: y) ++ [Started id])).
  - rewrite Hlog, !length_app in Hlen. rewrite !length_app. simpl in *. lia.
  - rewrite (rev_of_other _ (Started id)) by done. rewrite <- (app_assoc _ [_]). simpl. congruence.
Qed.
End system.
End cache.

(** ** A run: a page is stored and served again *)

Definition demo_origin : Origin :=
  {| org_Namespace := "default"; org_APIGroup := ""; org_Version := "v1"; org_Resource := "pods" |}.
Definition demo_row : TopicObject :=
  ObjValue (DPod {| pod_Namespace := "default"; pod_Name := "a"; pod_Labels := ∅;
    pod_Status := "Running"; pod_Owner := None; pod_ConfigMaps := []; pod_PVCs := []; pod_json := "{}" |}).
Definition demo_page : ListResult TopicObject := {|
  res_Items := [demo_row];
  res_Cursor := Some {| cc_Version := 1; cc_Origins := [fresh_origin demo_origin] |};
  res_Complete := true; res_Truncated := false;
  res_Coverage := {| cov_RequestedNamespaces := 1; cov_CompletedNamespaces := 1;
                     cov_DeniedNamespaces := []; cov_Failed := [] |} |}.
Definition demo_pages := pages_system id (T := TopicObject) Some (λ _, Some "{}") (λ _, Some demo_page).
Definition demo_pages_start := pages_start (T := TopicObject) 64 2 30 0.
Definition demo_page_token : CollectionCacheToken :=
  {| tk_generation := "gen_1"; tk_revision := 0; tk_key := "pods?limit=20" |}.

Definition demo_moves : list (@move string (@call TopicObject) Z) :=
  [Call (CallBegin "gen_1" "pods?limit=20"); Run 0;
   Call (CallStore demo_page_token "pods" demo_page); Run 1; Run 1;
   Call (CallLoad "pods?limit=20" "gen_1"); Run 2; Reply 2 DecisionAllowed; Run 2; Run 2].
Definition demo_served := schedule demo_pages demo_pages_start demo_moves.

Lemma demo_served_reached : reachable demo_pages demo_pages_start demo_served.
Proof.
  assert (∀ c l, reachable demo_pages c (schedule demo_pages c l)) as Hall; [|apply Hall].
  intros c l. apply schedule_reachable. revert c. induction l as [|[t|d|i|i e] l IH]; intros c; [done|..];
    (split; [|apply IH]); try done. simpl. by destruct (pool c !! i) as [[? [?|?|?|?]]|].
Qed.

Lemma page_cache_budget_witness :
  (c_bytes (w_cache (shared demo_served)) ≤ c_maxBytes (w_cache (shared demo_served)))%Z
  ∧ c_bytes (w_cache (shared demo_served)) = 2%Z.
Proof.
  split; [|by vm_compute].
  exact (proj1 (proj2 (@page_cache_budget id (λ l, reflexivity l) TopicObject Some (λ _, Some "{}")
    (λ _, Some demo_page) 64 2 30 0 demo_served demo_served_reached))).
Defined.

Lemma late_page_fenced_witness :
  ∃ a data origins b, w_log (shared demo_served) = a ++ Stored demo_page_token "pods" data origins :: b.
Proof.
  assert (returned demo_served 1 = Some (CallStore demo_page_token "pods" demo_page, StoreDone true)) as Hret
    by (by vm_compute).
  assert (Z.of_nat (length (w_log (shared demo_served))) < u64_modulus)%Z as Hlen by (by vm_compute).
  destruct (@late_page_fenced id (λ l, reflexivity l) TopicObject Some (λ _, Some "{}")
    (λ _, Some demo_page) 64 2 30 0 demo_served 1 demo_page_token "pods" demo_page demo_served_reached Hret Hlen)
    as (a & d & o & b & Hl & _).
  exact (ex_intro _ a (ex_intro _ d (ex_intro _ o (ex_intro _ b Hl)))).
Defined.

Lemma page_hit_sound_witness :
  ∃ (id : nat) (a : list event) (origins : list Origin),
    (∀ f, Fenced f ∉ a) ∧ ∀ o, o ∈ origins → Allowed id "gen_1" o ∈ a.
Proof.
  assert (returned demo_served 2 = Some (CallLoad "pods?limit=20" "gen_1", Loaded (Some demo_page))) as Hret
    by (by vm_compute).
  assert (Z.of_nat (length (w_log (shared demo_served))) < u64_modulus)%Z as Hlen by (by vm_compute).
  destruct (@page_hit_sound id (λ l, reflexivity l) TopicObject Some (λ _, Some "{}")
    (λ _, Some demo_page) 64 2 30 0 demo_served 2 "pods?limit=20" "gen_1" demo_page demo_served_reached Hret Hlen)
    as (x & tok & coll & d & o & y & id & a & b & Hl & _ & _ & _ & _ & Hf & Ha).
  exact (ex_intro _ id (ex_intro _ a (ex_intro _ o (conj Hf Ha)))).
Defined.
