(* ===== verification/Index.v ===== *)
(** * Index: the local index over cached snapshots

    Models src/internal/services/resources/index.go: [LocalIndex] gathers the objects of the
    unfiltered, unexpired cache entries of one generation with a statement of coverage per
    topic, [Search] scans them, and [Investigate] relates an object to its owners, pods,
    services, configuration and events.

    Case folding ([strings.ToLower], [strings.EqualFold]) depends on the Unicode tables and
    is a parameter; [order] is the order Go walks the entries in. *)
From Stdlib Require Import Ascii String ZArith Lia.
From stdpp Require Import base gmap strings list fin_maps.
From S2P Require Import Prelude Topics Cache Snapshot.

#[export] Instance GVR_countable : Countable GroupVersionResource.
Proof.
  refine (inj_countable' (λ g, (Group g, Version g, Resource g)) (λ '(g, v, r), GVR g v r) _).
  by intros [].
Defined.

Record IndexCoverage := {
  ic_Topic : Topic; ic_State : CacheState; ic_Complete : bool; ic_LoadedNamespaces : list string }.

Record IndexedResource := {
  ir_APIGroup : string; ir_Kind : string; ir_Namespace : string; ir_Name : string; ir_Status : string }.
#[export] Instance IndexedResource_eq_dec : EqDecision IndexedResource.
Proof. solve_decision. Defined.

Record LocalIndexSnapshot := {
  ix_Generation : string; ix_Coverage : list IndexCoverage; ix_Resources : list IndexedResource;
  ix_NamespaceCount : list (string * gmap string Z); ix_Pods : list PodDTO;
  ix_Workloads : list WorkloadDTO; ix_Services : list ServiceDTO;
  ix_EndpointSlices : list EndpointSliceDTO; ix_ConfigMaps : list ConfigMapListDTO;
  ix_PVCs : list PersistentVolumeClaimDTO; ix_Events : list EventDTO }.

Record Investigation := {
  in_Target : IndexedResource; in_OwnerChain : list IndexedResource; in_Pods : list IndexedResource;
  in_Services : list IndexedResource; in_EndpointSlices : list IndexedResource;
  in_ConfigMaps : list IndexedResource; in_PVCs : list IndexedResource;
  in_Events : list IndexedResource; in_Coverage : list IndexCoverage }.

Definition empty_index (generation : string) : LocalIndexSnapshot := {|
  ix_Generation := generation; ix_Coverage := []; ix_Resources := []; ix_NamespaceCount := [];
  ix_Pods := []; ix_Workloads := []; ix_Services := []; ix_EndpointSlices := []; ix_ConfigMaps := [];
  ix_PVCs := []; ix_Events := [] |}.

Definition cacheStateRank (s : CacheState) : nat :=
  match s with
  | CacheStateFresh => 0 | CacheStateStale => 1 | CacheStateRefreshing => 2
  | CacheStatePartial => 3 | _ => 4
  end.

Section index.
Context `{SliceSort} (lower : string → string) (fold_eq : string → string → bool)
        (order : list (string * resourceCacheEntry) → list (string * resourceCacheEntry)).

Definition workloadAPIGroup (kind : string) : string :=
  if fold_eq kind "Job" || fold_eq kind "CronJob" then "batch" else "apps".

(** ** Collecting *)

Definition indexed (group kind namespace name status : string) : IndexedResource := {|
  ir_APIGroup := group; ir_Kind := kind; ir_Namespace := namespace; ir_Name := name;
  ir_Status := status |}.

(** The row a DTO is listed as. *)
Definition row_of (d : DTO) : IndexedResource :=
  match d with
  | DPod v => indexed "" "Pod" (pod_Namespace v) (pod_Name v) (pod_Status v)
  | DWorkload v => indexed (workloadAPIGroup (workload_Kind v)) (workload_Kind v)
                     (workload_Namespace v) (workload_Name v) (workload_Status v)
  | DService v => indexed "" "Service" (service_Namespace v) (service_Name v) ""
  | DEndpointSlice v => indexed "discovery.k8s.io" "EndpointSlice" (slice_Namespace v) (slice_Name v) ""
  | DConfigMap v => indexed "" "ConfigMap" (configmap_Namespace v) (configmap_Name v) ""
  | DPVC v => indexed "" "PersistentVolumeClaim" (pvc_Namespace v) (pvc_Name v) (pvc_Status v)
  | DEvent v => indexed "" "Event" (event_Namespace v) (event_Name v) (event_Type v)
  | DIngress v => indexed "networking.k8s.io" "Ingress" (ingress_Namespace v) (ingress_Name v) ""
  end.

(** [addObject]: its type switch has the value types only, a pointer falls through. *)
Definition addObject (object : TopicObject) (x : LocalIndexSnapshot) : LocalIndexSnapshot :=
  match object with
  | ObjValue d => {|
      ix_Generation := ix_Generation x; ix_Coverage := ix_Coverage x;
      ix_Resources := ix_Resources x ++ [row_of d]; ix_NamespaceCount := ix_NamespaceCount x;
      ix_Pods := ix_Pods x ++ (if d is DPod v then [v] else []);
      ix_Workloads := ix_Workloads x ++ (if d is DWorkload v then [v] else []);
      ix_Services := ix_Services x ++ (if d is DService v then [v] else []);
      ix_EndpointSlices := ix_EndpointSlices x ++ (if d is DEndpointSlice v then [v] else []);
      ix_ConfigMaps := ix_ConfigMaps x ++ (if d is DConfigMap v then [v] else []);
      ix_PVCs := ix_PVCs x ++ (if d is DPVC v then [v] else []);
      ix_Events := ix_Events x ++ (if d is DEvent v then [v] else []) |}
  | _ => x
  end.

Record coverageState := {
  cv_state : CacheState; cv_complete : bool; cv_namespaces : gset string;
  cv_origins : gmap string (gset GroupVersionResource) }.

Definition unfiltered (generation : string) (k : ResourceCacheKey) : bool :=
  String.eqb (Generation k) generation && String.eqb (Selector k) ""
  && bool_decide (Filters (Query k) = []) && String.eqb (Sort (Query k)) ""
  && String.eqb (Order (Query k)) "" && (PageSize (Query k) =? 0)%Z
  && String.eqb (Cache.Cursor (Query k)) "".

(** What one entry adds to the coverage of its topic. *)
Definition cover_entry (entry : resourceCacheEntry) (state : CacheState)
    (old : option coverageState) : coverageState :=
  let cv := default {| cv_state := state; cv_complete := true; cv_namespaces := ∅;
                       cv_origins := ∅ |} old in
  let ns := key_Namespace (e_key entry) in
  {| cv_state := if cacheStateRank (cv_state cv) <? cacheStateRank state then state else cv_state cv;
     cv_complete := cv_complete cv && negb (e_partial entry
       || bool_decide (state = CacheStatePartial) || bool_decide (state = CacheStateRefreshing));
     cv_namespaces := if String.eqb ns "" then cv_namespaces cv else {[ns]} ∪ cv_namespaces cv;
     cv_origins := <[ns := {[key_GVR (e_key entry)]} ∪ default ∅ (cv_origins cv !! ns)]> (cv_origins cv) |}.

Definition add_item (topic : Topic) (acc : gset string * LocalIndexSnapshot) (object : option TopicObject)
    : gset string * LocalIndexSnapshot :=
  match object, topicObjectIdentity object with
  | Some o, Some identity =>
    let id := topic +:+ nul +:+ identity in
    if bool_decide (id ∈ acc.1) then acc else ({[id]} ∪ acc.1, addObject o acc.2)
  | _, _ => acc
  end.

Definition index_entry (generation : string) (now : Z)
    (acc : gmap Topic coverageState * (gset string * LocalIndexSnapshot))
    (p : string * resourceCacheEntry)
    : gmap Topic coverageState * (gset string * LocalIndexSnapshot) :=
  let entry := p.2 in
  if negb (unfiltered generation (e_key entry)) then acc
  else
    let state := entry_state entry now in
    if bool_decide (state = CacheStateExpired) then acc
    else
      let topic := key_Topic (e_key entry) in
      (<[topic := cover_entry entry state (acc.1 !! topic)]> acc.1,
       foldl (add_item topic) acc.2 (Items (e_snapshot entry))).

Definition indexOriginsComplete (topic : Topic) (origins : gmap string (gset GroupVersionResource))
    (expectedNamespaces : list string) : bool :=
  let expectedGVRs := TopicGVRs topic in
  let containsAll (values : gset GroupVersionResource) :=
    negb (size values <? length expectedGVRs)
    && forallb (λ g, bool_decide (g ∈ values)) expectedGVRs in
  if containsAll (default ∅ (origins !! "")) then true
  else
    let expected := filter (λ ns, ns ≠ "") (TrimSpace <$> expectedNamespaces) in
    match expected with
    | [] => false
    | _ => forallb (λ ns, containsAll (default ∅ (origins !! ns))) expected
    end.

Definition coverage_of (expected : list string) (coverage : gmap Topic coverageState) (topic : Topic)
    : IndexCoverage :=
  match coverage !! topic with
  | None => {| ic_Topic := topic; ic_State := CacheStateExpired; ic_Complete := false;
               ic_LoadedNamespaces := [] |}
  | Some cv => {| ic_Topic := topic; ic_State := cv_state cv;
                  ic_Complete := cv_complete cv && indexOriginsComplete topic (cv_origins cv) expected;
                  ic_LoadedNamespaces := sort_stable str_lt (elements (cv_namespaces cv)) |}
  end.

Definition resource_less (a b : IndexedResource) : bool :=
  if negb (String.eqb (ir_Kind a) (ir_Kind b)) then str_lt (ir_Kind a) (ir_Kind b)
  else if negb (String.eqb (ir_Namespace a) (ir_Namespace b)) then str_lt (ir_Namespace a) (ir_Namespace b)
  else str_lt (ir_Name a) (ir_Name b).

Definition count_resource (counts : gmap string (gmap string Z)) (r : IndexedResource)
    : gmap string (gmap string Z) :=
  if String.eqb (ir_Namespace r) "" || String.eqb (ir_Kind r) "Event" then counts
  else let old := default ∅ (counts !! ir_Namespace r) in
       <[ir_Namespace r := <[ir_Kind r := (get_or old (ir_Kind r) 0 + 1)%Z]> old]> counts.

Definition finalize (x : LocalIndexSnapshot) : LocalIndexSnapshot :=
  let resources := sort_Slice resource_less (ix_Resources x) in
  {| ix_Generation := ix_Generation x; ix_Coverage := ix_Coverage x; ix_Resources := resources;
     ix_NamespaceCount := sort_stable (λ a b, str_lt a.1 b.1)
                            (map_to_list (foldl count_resource ∅ resources));
     ix_Pods := ix_Pods x; ix_Workloads := ix_Workloads x; ix_Services := ix_Services x;
     ix_EndpointSlices := ix_EndpointSlices x; ix_ConfigMaps := ix_ConfigMaps x; ix_PVCs := ix_PVCs x;
     ix_Events := ix_Events x |}.

Definition with_coverage (l : list IndexCoverage) (x : LocalIndexSnapshot) : LocalIndexSnapshot := {|
  ix_Generation := ix_Generation x; ix_Coverage := l; ix_Resources := ix_Resources x;
  ix_NamespaceCount := ix_NamespaceCount x; ix_Pods := ix_Pods x; ix_Workloads := ix_Workloads x;
  ix_Services := ix_Services x; ix_EndpointSlices := ix_EndpointSlices x;
  ix_ConfigMaps := ix_ConfigMaps x; ix_PVCs := ix_PVCs x; ix_Events := ix_Events x |}.

Definition LocalIndex (c : ResourceCache) (generation : string) (expectedNamespaces : list string)
    (now : Z) : LocalIndexSnapshot :=
  if String.eqb generation "" then empty_index generation
  else
    let '(coverage, (_, x)) :=
      foldl (index_entry generation now) (∅, (∅, empty_index generation))
            (order (map_to_list (entries c))) in
    finalize (with_coverage (coverage_of expectedNamespaces coverage <$> topicOrder) x).

(** ** Searching *)

Fixpoint search_rows (term : string) (limit : nat) (rows : list IndexedResource) (found : list IndexedResource)
    : list IndexedResource :=
  match rows with
  | [] => found
  | r :: rows =>
    if Contains (lower (ir_Kind r +:+ " " +:+ ir_Namespace r +:+ " " +:+ ir_Name r +:+ " " +:+ ir_Status r)) term
    then let found := found ++ [r] in
         if length found =? limit then found else search_rows term limit rows found
    else search_rows term limit rows found
  end.
Definition Index_Search (x : LocalIndexSnapshot) (term : string) (limit : Z) : list IndexedResource :=
  let term := lower (TrimSpace term) in
  if String.eqb term "" then []
  else search_rows term (Z.to_nat (if (limit <? 1)%Z || (200 <? limit)%Z then 50 else limit))
         (ix_Resources x) [].

(** ** Relations *)

Definition next_owner (workloads : list WorkloadDTO) (namespace : string) (o : OwnerDTO) : option OwnerDTO :=
  match find (λ w, String.eqb (workload_Namespace w) namespace && fold_eq (workload_Kind w) (owner_Kind o)
                   && String.eqb (workload_Name w) (owner_Name o)) workloads with
  | Some w => workload_Owner w
  | None => None
  end.

(** The loop of [followOwner]: a chain grows to at most eight rows. *)
Fixpoint follow (fuel : nat) (workloads : list WorkloadDTO) (namespace : string) (seen : list string)
    (owner : option OwnerDTO) (chain : list IndexedResource) : list IndexedResource :=
  match fuel, owner with
  | S fuel, Some o =>
    if length chain <? 8 then
      let key := lower (owner_Kind o) +:+ nul +:+ owner_Name o in
      if bool_decide (key ∈ seen) then chain
      else follow fuel workloads namespace (key :: seen) (next_owner workloads namespace o)
             (chain ++ [indexed (workloadAPIGroup (owner_Kind o)) (owner_Kind o) namespace (owner_Name o) ""])
    else chain
  | _, _ => chain
  end.
Definition followOwner (workloads : list WorkloadDTO) (namespace : string) (owner : option OwnerDTO)
    (chain : list IndexedResource) : list IndexedResource :=
  follow 9 workloads namespace [] owner chain.

Definition ownerLeadsTo (workloads : list WorkloadDTO) (namespace : string) (owner : option OwnerDTO)
    (kind name : string) : bool :=
  existsb (λ c, fold_eq (ir_Kind c) kind && String.eqb (ir_Name c) name)
    (followOwner workloads namespace owner []).

Definition addNames (target : gset string) (values : list string) : gset string :=
  list_to_set (filter (λ v, v ≠ "") values) ∪ target.

Definition pod_matches (selector : gmap string string) (p : PodDTO) : bool :=
  bool_decide (map_Forall (λ k v, pod_Labels p !! k = Some v) selector).
Definition anyPodMatches (selector : gmap string string) (pods : list PodDTO) : bool :=
  negb (bool_decide (selector = ∅)) && existsb (pod_matches selector) pods.

(** The pods related to an object, the owner chain, and the names they refer to. *)
Record related := {
  re_chain : list IndexedResource; re_pods : list PodDTO; re_configs : gset string; re_pvcs : gset string }.

Definition related_pod (x : LocalIndexSnapshot) (namespace name : string) : related :=
  match find (λ p, String.eqb (pod_Namespace p) namespace && String.eqb (pod_Name p) name) (ix_Pods x) with
  | Some p => {| re_chain := followOwner (ix_Workloads x) namespace (pod_Owner p) []; re_pods := [p];
                 re_configs := addNames ∅ (pod_ConfigMaps p); re_pvcs := addNames ∅ (pod_PVCs p) |}
  | None => {| re_chain := []; re_pods := []; re_configs := ∅; re_pvcs := ∅ |}
  end.

Definition is_target_workload (kind namespace name : string) (w : WorkloadDTO) : bool :=
  String.eqb (workload_Namespace w) namespace && fold_eq (workload_Kind w) kind
  && String.eqb (workload_Name w) name.
Definition add_workload (x : LocalIndexSnapshot) (namespace : string) (r : related) (w : WorkloadDTO) : related := {|
  re_chain := followOwner (ix_Workloads x) namespace (workload_Owner w) (re_chain r);
  re_pods := re_pods r; re_configs := addNames (re_configs r) (workload_ConfigMaps w);
  re_pvcs := addNames (re_pvcs r) (workload_PVCs w) |}.

Definition owned_pod (x : LocalIndexSnapshot) (kind namespace name : string) (p : PodDTO) : bool :=
  match pod_Owner p with
  | Some o => String.eqb (pod_Namespace p) namespace
              && (fold_eq (owner_Kind o) kind && String.eqb (owner_Name o) name
                  || ownerLeadsTo (ix_Workloads x) namespace (Some o) kind name)
  | None => false
  end.
Definition add_pod (r : related) (p : PodDTO) : related := {|
  re_chain := re_chain r; re_pods := re_pods r ++ [p];
  re_configs := addNames (re_configs r) (pod_ConfigMaps p); re_pvcs := addNames (re_pvcs r) (pod_PVCs p) |}.

Definition related_workload (x : LocalIndexSnapshot) (kind namespace name : string) : related :=
  let r := foldl (add_workload x namespace) {| re_chain := []; re_pods := []; re_configs := ∅; re_pvcs := ∅ |}
             (filter (λ w, is_target_workload kind namespace name w = true) (ix_Workloads x)) in
  foldl add_pod r (filter (λ p, owned_pod x kind namespace name p = true) (ix_Pods x)).

Definition is_row (kind namespace name : string) (r : IndexedResource) : bool :=
  fold_eq (ir_Kind r) kind && String.eqb (ir_Namespace r) namespace && String.eqb (ir_Name r) name.

Definition Investigate (x : LocalIndexSnapshot) (kind namespace name : string) : Investigation :=
  let target := default (indexed "" kind namespace name "") (find (is_row kind namespace name) (ix_Resources x)) in
  let r := if fold_eq kind "Pod" then related_pod x namespace name
           else related_workload x kind namespace name in
  let services := filter (λ s, String.eqb (service_Namespace s) namespace
                               && anyPodMatches (service_Selector s) (re_pods r) = true) (ix_Services x) in
  {| in_Target := target; in_OwnerChain := re_chain r;
     in_Pods := (λ p, indexed "" "Pod" (pod_Namespace p) (pod_Name p) (pod_Status p)) <$> re_pods r;
     in_Services := (λ s, indexed "" "Service" namespace (service_Name s) "") <$> services;
     in_EndpointSlices :=
       (λ s, indexed "discovery.k8s.io" "EndpointSlice" namespace (slice_Name s) "")
       <$> filter (λ s, String.eqb (slice_Namespace s) namespace
                        && bool_decide (slice_ServiceName s ∈ service_Name <$> services) = true) (ix_EndpointSlices x);
     in_ConfigMaps := (λ s, indexed "" "ConfigMap" namespace (configmap_Name s) "")
       <$> filter (λ s, String.eqb (configmap_Namespace s) namespace
                        && bool_decide (configmap_Name s ∈ re_configs r) = true) (ix_ConfigMaps x);
     in_PVCs := (λ s, indexed "" "PersistentVolumeClaim" namespace (pvc_Name s) (pvc_Status s))
       <$> filter (λ s, String.eqb (pvc_Namespace s) namespace
                        && bool_decide (pvc_Name s ∈ re_pvcs r) = true) (ix_PVCs x);
     in_Events := (λ e, indexed "" "Event" namespace (event_Name e) (event_Reason e))
       <$> filter (λ e, String.eqb (event_Namespace e) namespace
                        && (fold_eq (event_ObjectKind e) kind && String.eqb (event_ObjectName e) name
                            || fold_eq (event_ObjectKind e) "Pod"
                               && bool_decide (event_ObjectName e ∈ pod_Name <$> re_pods r)) = true) (ix_Events x);
     in_Coverage := ix_Coverage x |}.

(** ** Owner chains *)

(** One step up: the owner of the workload that [o] names. *)
Definition owns (workloads : list WorkloadDTO) (namespace : string) (o o' : OwnerDTO) : Prop :=
  next_owner workloads namespace o = Some o'.

Lemma follow_spec fuel workloads namespace seen owner chain :
  length chain ≤ 8 →
  length (follow fuel workloads namespace seen owner chain) ≤ 8
  ∧ ∀ r, r ∈ follow fuel workloads namespace seen owner chain → r ∈ chain ∨
      ∃ o o', owner = Some o ∧ rtc (owns workloads namespace) o o'
        ∧ ir_Kind r = owner_Kind o' ∧ ir_Name r = owner_Name o' ∧ ir_Namespace r = namespace.
Proof.
  revert seen owner chain. induction fuel as [|fuel IH]; intros seen owner chain Hl; [by auto|].
  cbn [follow]. destruct owner as [o|]; [|by auto]. destruct (Nat.ltb_spec (length chain) 8); [|by auto].
  case_bool_decide; [by auto|].
  match goal with |- context [follow fuel _ _ ?se ?ow ?ch] => destruct (IH se ow ch) as [Hlen Hin] end;
    [rewrite length_app; simpl; lia|].
  split; [done|]. intros r Hr. destruct (Hin r Hr) as [Hc|(o1 & o2 & Ho & Hrtc & Hk)].
  - apply elem_of_app in Hc as [Hc|Hc%list_elem_of_singleton]; [by left|right]. subst r. by exists o, o.
  - right. exists o, o2. split_and!; try done; [|by destruct Hk as (? & ? & ?)..]. by eapply rtc_l.
Qed.

Lemma add_workloads x namespace l r :
  length (re_chain r) ≤ 8 →
  length (re_chain (foldl (add_workload x namespace) r l)) ≤ 8
  ∧ re_pods (foldl (add_workload x namespace) r l) = re_pods r.
Proof.
  revert r. induction l as [|w l IH]; intros r Hr; [done|]. cbn [foldl].
  apply (IH (add_workload x namespace r w)). simpl. by apply follow_spec.
Qed.

Lemma add_pods l r :
  re_chain (foldl add_pod r l) = re_chain r ∧ re_pods (foldl add_pod r l) = re_pods r ++ l.
Proof.
  revert r. induction l as [|p l IH]; intros r; [by rewrite app_nil_r|]. cbn [foldl].
  destruct (IH (add_pod r p)) as [-> ->]. simpl. by rewrite <- app_assoc.
Qed.

Lemma owned_pod_sound x kind namespace name p :
  owned_pod x kind namespace name p = true →
  ∃ o o', pod_Namespace p = namespace ∧ pod_Owner p = Some o
    ∧ rtc (owns (ix_Workloads x) namespace) o o' ∧ fold_eq (owner_Kind o') kind = true ∧ owner_Name o' = name.
Proof.
  unfold owned_pod. destruct (pod_Owner p) as [o|]; [|done]. intros [Hn Hor]%andb_true_iff.
  apply String.eqb_eq in Hn. exists o. apply orb_true_iff in Hor as [[Hk Hnm]%andb_true_iff|Hlead].
  - apply String.eqb_eq in Hnm. by exists o.
  - unfold ownerLeadsTo in Hlead. apply existsb_exists in Hlead as (r & Hr & [Hk Hnm]%andb_true_iff).
    apply list_elem_of_In in Hr. apply String.eqb_eq in Hnm.
    destruct (follow_spec 9 (ix_Workloads x) namespace [] (Some o) []) as [_ Hin]; [simpl; lia|].
    destruct (Hin r Hr) as [Hbad|(o1 & o2 & [= <-] & Hrtc & Hk2 & Hn2 & _)]; [set_solver|].
    exists o2. split_and!; try done; congruence.
Qed.

(** An investigation relates only what the index shows to be related: the owner chain has
    at most eight rows, and every pod listed for a workload is a pod of the index, in the
    namespace asked for, whose owner leads to that workload by the owner references of the
    indexed workloads. *)
Theorem investigation_sound x kind namespace name :
  fold_eq kind "Pod" = false →
  length (in_OwnerChain (Investigate x kind namespace name)) ≤ 8
  ∧ ∀ r, r ∈ in_Pods (Investigate x kind namespace name) →
      ∃ p o o', p ∈ ix_Pods x ∧ r = row_of (DPod p) ∧ pod_Namespace p = namespace
        ∧ pod_Owner p = Some o ∧ rtc (owns (ix_Workloads x) namespace) o o'
        ∧ fold_eq (owner_Kind o') kind = true ∧ owner_Name o' = name.
Proof.
  intros Hk. unfold Investigate. rewrite Hk. cbn [in_OwnerChain in_Pods]. unfold related_workload. cbv zeta.
  set (r0 := foldl (add_workload x namespace) _ _).
  assert (length (re_chain r0) ≤ 8 ∧ re_pods r0 = []) as [Hlen Hnil] by (apply add_workloads; simpl; lia).
  destruct (add_pods (filter (λ p, owned_pod x kind namespace name p = true) (ix_Pods x)) r0) as [-> ->].
  split; [done|]. rewrite Hnil. intros r (p & -> & Hp)%list_elem_of_fmap. simpl in Hp.
  apply list_elem_of_filter in Hp as [Hown Hp].
  destruct (owned_pod_sound _ _ _ _ _ Hown) as (o & o' & Hrest). exists p, o, o'. done.
Qed.

(** ** What an index says about the cache *)

Context `{!SliceSortOk} (order_perm : ∀ l, order l ≡ₚ l).

(** The entries an index of [generation] is made of. *)
Definition live (generation : string) (now : Z) (e : resourceCacheEntry) : Prop :=
  unfiltered generation (e_key e) = true ∧ entry_state e now ≠ CacheStateExpired.

Definition whole (now : Z) (e : resourceCacheEntry) : Prop :=
  e_partial e = false ∧ entry_state e now ≠ CacheStatePartial ∧ entry_state e now ≠ CacheStateRefreshing.

(** The identity under which an item is indexed once. *)
Definition index_id (e : resourceCacheEntry) (o : option TopicObject) : option string :=
  (λ i, key_Topic (e_key e) +:+ nul +:+ i) <$> topicObjectIdentity o.

(** An item that has a row, unless it is one of the pointers [addObject] passes over. *)
Definition listed (x : LocalIndexSnapshot) (o : option TopicObject) : Prop :=
  match o with
  | Some (ObjValue d) => row_of d ∈ ix_Resources x
  | Some (ObjPtr _) => True
  | _ => False
  end.

Record covers (generation : string) (now : Z) (l : list (string * resourceCacheEntry))
    (topic : Topic) (cv : coverageState) : Prop := {
  cs_whole : cv_complete cv = true → ∀ p, p ∈ l → live generation now p.2 →
    key_Topic (e_key p.2) = topic → whole now p.2;
  cs_gravest : ∀ p, p ∈ l → live generation now p.2 → key_Topic (e_key p.2) = topic →
    cacheStateRank (entry_state p.2 now) ≤ cacheStateRank (cv_state cv);
  cs_state : ∃ p, p ∈ l ∧ live generation now p.2 ∧ key_Topic (e_key p.2) = topic
    ∧ entry_state p.2 now = cv_state cv;
  cs_origins : ∀ ns g, g ∈ default ∅ (cv_origins cv !! ns) →
    ∃ p, p ∈ l ∧ live generation now p.2 ∧ key_Topic (e_key p.2) = topic
      ∧ key_Namespace (e_key p.2) = ns ∧ key_GVR (e_key p.2) = g }.

(** [i] is the identity of an item of a live entry, which is listed; a row is one of those. *)
Definition known_item (generation : string) (now : Z) (l : list (string * resourceCacheEntry))
    (x : LocalIndexSnapshot) (i : string) : Prop :=
  ∃ p o, p ∈ l ∧ live generation now p.2 ∧ o ∈ Items (e_snapshot p.2)
    ∧ index_id p.2 o = Some i ∧ listed x o.
Definition known_row (generation : string) (now : Z) (l : list (string * resourceCacheEntry))
    (r : IndexedResource) : Prop :=
  ∃ p d, p ∈ l ∧ live generation now p.2 ∧ Some (ObjValue d) ∈ Items (e_snapshot p.2) ∧ r = row_of d.

Record items_in (generation : string) (now : Z) (l : list (string * resourceCacheEntry))
    (seen : gset string) (x : LocalIndexSnapshot) : Prop := {
  ii_seen : ∀ p o i, p ∈ l → live generation now p.2 → o ∈ Items (e_snapshot p.2) →
    index_id p.2 o = Some i → i ∈ seen;
  ii_listed : ∀ i, i ∈ seen → known_item generation now l x i;
  ii_rows : ∀ r, r ∈ ix_Resources x → known_row generation now l r }.

Lemma addObject_listed o x i : topicObjectIdentity (Some o) = Some i → listed (addObject o x) (Some o).
Proof. destruct o; [intros _; simpl; apply elem_of_app; right; by left|done|done]. Qed.
Lemma addObject_mono o x o' : listed x o' → listed (addObject o x) o'.
Proof. destruct o' as [[d| |]|], o; simpl; try done. intros Hl. apply elem_of_app. by left. Qed.

(** One more item of a live entry. *)
Lemma add_item_step generation now (l : list (string * resourceCacheEntry)) p o seen x :
  p ∈ l → live generation now p.2 → o ∈ Items (e_snapshot p.2) →
  let acc := add_item (key_Topic (e_key p.2)) (seen, x) o in
  (∀ i, index_id p.2 o = Some i → i ∈ acc.1) ∧ seen ⊆ acc.1
  ∧ ((∀ i, i ∈ seen → known_item generation now l x i) →
     ∀ i, i ∈ acc.1 → known_item generation now l acc.2 i)
  ∧ ∀ r, r ∈ ix_Resources acc.2 → r ∈ ix_Resources x ∨ ∃ d, o = Some (ObjValue d) ∧ r = row_of d.
Proof.
  intros Hp Hl Ho. unfold add_item, index_id. destruct o as [o|]; [|by split_and!; auto].
  destruct (topicObjectIdentity (Some o)) as [i|] eqn:Hid; [|by split_and!; auto]. cbn [fst snd].
  case_bool_decide as Hin; cbn [fst snd].
  { split_and!; auto. by intros j [= <-]. }
  split_and!.
  - intros j [= <-]. set_solver.
  - set_solver.
  - intros Hold j [->%elem_of_singleton|Hj]%elem_of_union.
    + exists p, (Some o). split_and!; [done..|unfold index_id; by rewrite Hid|by eapply addObject_listed].
    + destruct (Hold j Hj) as (p' & o' & ? & ? & ? & ? & ?). exists p', o'.
      split_and!; [done..|by apply addObject_mono].
  - intros r Hr. destruct o as [d|d|f]; simpl in Hr; [|by left..].
    apply elem_of_app in Hr as [Hr|Hr%list_elem_of_singleton]; [by left|right; by exists d].
Qed.

Lemma add_items_in generation now (l : list (string * resourceCacheEntry)) p items seen x :
  p ∈ l → live generation now p.2 → (∀ o, o ∈ items → o ∈ Items (e_snapshot p.2)) →
  (∀ i, i ∈ seen → known_item generation now l x i) →
  (∀ r, r ∈ ix_Resources x → known_row generation now l r) →
  let acc := foldl (add_item (key_Topic (e_key p.2))) (seen, x) items in
  seen ⊆ acc.1 ∧ (∀ o i, o ∈ items → index_id p.2 o = Some i → i ∈ acc.1)
  ∧ (∀ i, i ∈ acc.1 → known_item generation now l acc.2 i)
  ∧ (∀ r, r ∈ ix_Resources acc.2 → known_row generation now l r).
Proof.
  intros Hp Hl. revert seen x. induction items as [|o items IH]; intros seen x Hsub Hold Hrows; cbn [foldl].
  { split_and!; try done. set_solver. }
  destruct (add_item_step generation now l p o seen x Hp Hl) as (A1 & A2 & A3 & A4); [apply Hsub; by left|].
  destruct (add_item _ (seen, x) o) as [seen1 x1]. cbn [fst snd] in *.
  destruct (IH seen1 x1) as (B1 & B2 & B3 & B4).
  - intros o' Ho'. apply Hsub. by right.
  - auto.
  - intros r Hr. destruct (A4 r Hr) as [Hr'|(d & -> & ->)]; [auto|].
    exists p, d. split_and!; try done. apply Hsub. by left.
  - split_and!; [set_solver| |done|done]. intros o' i [->|Ho']%elem_of_cons Hi; [|by eapply B2].
    apply B1. by apply A1.
Qed.

Record index_inv (generation : string) (now : Z) (l : list (string * resourceCacheEntry))
    (acc : gmap Topic coverageState * (gset string * LocalIndexSnapshot)) : Prop := {
  iv_cover : ∀ topic cv, acc.1 !! topic = Some cv → covers generation now l topic cv;
  iv_none : ∀ topic, acc.1 !! topic = None → ∀ p, p ∈ l → live generation now p.2 →
    key_Topic (e_key p.2) ≠ topic;
  iv_items : items_in generation now l acc.2.1 acc.2.2 }.

Lemma known_item_mono g now (l l' : list (string * resourceCacheEntry)) x i :
  known_item g now l x i → known_item g now (l ++ l') x i.
Proof.
  intros (p & o & Hp & Hr). exists p, o. split; [|done]. apply elem_of_app. by left.
Qed.
Lemma known_row_mono g now (l l' : list (string * resourceCacheEntry)) r :
  known_row g now l r → known_row g now (l ++ l') r.
Proof.
  intros (p & d & Hp & Hr). exists p, d. split; [|done]. apply elem_of_app. by left.
Qed.

(** A dead entry changes nothing. *)
Lemma index_dead g now l p acc : ¬ live g now p.2 → index_inv g now l acc → index_inv g now (l ++ [p]) acc.
Proof.
  intros Hd [C N [S L R]].
  assert (∀ q, q ∈ l ++ [p] → live g now q.2 → q ∈ l) as Hold.
  { intros q [Hq| ->%list_elem_of_singleton]%elem_of_app Hl; done. }
  split; [..|split].
  - intros t cv Ht. destruct (C t cv Ht) as [W G (q & Hq & Hr) O]. split; [naive_solver..| |].
    + exists q. split; [apply elem_of_app; by left|done].
    + intros ns x Hx. destruct (O ns x Hx) as (q' & Hq' & Hr'). exists q'. split; [apply elem_of_app; by left|done].
  - naive_solver.
  - naive_solver.
  - intros i Hi. by apply known_item_mono, L.
  - intros r Hr. by apply known_row_mono, R.
Qed.

Lemma cover_entry_ok g now l p old :
  live g now p.2 →
  (∀ cv, old = Some cv → covers g now l (key_Topic (e_key p.2)) cv) →
  (old = None → ∀ q, q ∈ l → live g now q.2 → key_Topic (e_key q.2) ≠ key_Topic (e_key p.2)) →
  covers g now (l ++ [p]) (key_Topic (e_key p.2)) (cover_entry p.2 (entry_state p.2 now) old).
Proof.
  intros Hl Hold Hnone.
  set (cv := default {| cv_state := entry_state p.2 now; cv_complete := true; cv_namespaces := ∅;
                        cv_origins := ∅ |} old).
  assert (p ∈ l ++ [p]) as Hpl by (apply elem_of_app; right; by left).
  assert (
    (cv_complete cv = true → ∀ q, q ∈ l → live g now q.2 →
       key_Topic (e_key q.2) = key_Topic (e_key p.2) → whole now q.2)
    ∧ (∀ q, q ∈ l → live g now q.2 → key_Topic (e_key q.2) = key_Topic (e_key p.2) →
       cacheStateRank (entry_state q.2 now) ≤ cacheStateRank (cv_state cv))
    ∧ (∃ q, q ∈ l ++ [p] ∧ live g now q.2 ∧ key_Topic (e_key q.2) = key_Topic (e_key p.2)
       ∧ entry_state q.2 now = cv_state cv)
    ∧ ∀ ns x, x ∈ default ∅ (cv_origins cv !! ns) →
       ∃ q, q ∈ l ∧ live g now q.2 ∧ key_Topic (e_key q.2) = key_Topic (e_key p.2)
         ∧ key_Namespace (e_key q.2) = ns ∧ key_GVR (e_key q.2) = x) as (W & G & (q0 & Hq0 & Hl0 & Ht0 & Hs0) & O).
  { subst cv. destruct old as [cv|]; simpl.
    - destruct (Hold cv eq_refl) as [W G (q & Hq & Hr) O]. split_and!; [done..| |done].
      exists q. split; [apply elem_of_app; by left|done].
    - split_and!; [| |by exists p|].
      + intros _ q Hq Hlq Ht. by destruct (Hnone eq_refl q Hq Hlq).
      + intros q Hq Hlq Ht. by destruct (Hnone eq_refl q Hq Hlq).
      + intros ns x. rewrite lookup_empty. set_solver. }
  unfold cover_entry. cbv zeta. fold cv. split; cbn [cv_complete cv_origins cv_state].
  - intros [Hc Hp]%andb_true_iff q [Hq| ->%list_elem_of_singleton]%elem_of_app Hlq Ht; [by apply W|].
    apply negb_true_iff in Hp. apply orb_false_iff in Hp as [Hp H3]. apply orb_false_iff in Hp as [H1 H2].
    apply bool_decide_eq_false in H2, H3. done.
  - intros q [Hq| ->%list_elem_of_singleton]%elem_of_app Hlq Ht; [specialize (G q Hq Hlq Ht)|];
      destruct (Nat.ltb_spec (cacheStateRank (cv_state cv)) (cacheStateRank (entry_state p.2 now))); lia.
  - destruct (Nat.ltb_spec (cacheStateRank (cv_state cv)) (cacheStateRank (entry_state p.2 now)));
      [by exists p|by exists q0].
  - intros ns x. destruct (decide (ns = key_Namespace (e_key p.2))) as [->|Hne].
    + rewrite lookup_insert_eq. simpl. intros [->%elem_of_singleton|Hx]%elem_of_union.
      * by exists p.
      * destruct (O _ _ Hx) as (q & Hq & Hr). exists q. split; [apply elem_of_app; by left|done].
    + rewrite lookup_insert_ne by done. intros Hx. destruct (O _ _ Hx) as (q & Hq & Hr). exists q.
      split; [apply elem_of_app; by left|done].
Qed.

Lemma index_entry_inv g now l p acc :
  index_inv g now l acc → index_inv g now (l ++ [p]) (index_entry g now acc p).
Proof.
  intros Hi. unfold index_entry. destruct (unfiltered g (e_key p.2)) eqn:Hu; cbn [negb];
    [|apply index_dead; [by intros [? _]; congruence|done]].
  case_bool_decide as Hs; [apply index_dead; [by intros [_ ?]|done]|].
  assert (live g now p.2) as Hl by done. destruct acc as [cov [seen x]]. destruct Hi as [C N [S L R]].
  cbn [fst snd] in *. assert (p ∈ l ++ [p]) as Hp by (apply elem_of_app; right; by left).
  destruct (add_items_in g now (l ++ [p]) p (Items (e_snapshot p.2)) seen x Hp Hl) as (B1 & B2 & B3 & B4).
  { done. } { intros i Hi. by apply known_item_mono, L. } { intros r Hr. by apply known_row_mono, R. }
  destruct (foldl _ (seen, x) _) as [seen' x']. cbn [fst snd] in *. split; cbn [fst snd]; [..|split; [|done|done]].
  - intros t cv. destruct (decide (t = key_Topic (e_key p.2))) as [->|Hne].
    + rewrite lookup_insert_eq. intros [= <-]. apply cover_entry_ok; [done|apply C|apply N].
    + rewrite lookup_insert_ne by done. intros Ht. destruct (C t cv Ht) as [W G (q0 & Hq0 & Hr0) O]. split.
      * intros Hc q [Hq| ->%list_elem_of_singleton]%elem_of_app; [by apply W|done].
      * intros q [Hq| ->%list_elem_of_singleton]%elem_of_app; [by apply G|done].
      * exists q0. split; [apply elem_of_app; by left|done].
      * intros ns y Hy. destruct (O ns y Hy) as (q & Hq & Hr). exists q. split; [apply elem_of_app; by left|done].
  - intros t Ht q Hq Hlq. destruct (decide (t = key_Topic (e_key p.2))) as [->|Hne];
      [by rewrite lookup_insert_eq in Ht|]. rewrite lookup_insert_ne in Ht by done.
    apply elem_of_app in Hq as [Hq| ->%list_elem_of_singleton]; [by apply (N t Ht)|done].
  - intros q o i Hq Hlq Ho Hid. apply elem_of_app in Hq as [Hq| ->%list_elem_of_singleton]; [|by eapply B2].
    apply B1. by eapply S.
Qed.

Lemma index_fold_inv g now l0 l acc :
  index_inv g now l0 acc → index_inv g now (l0 ++ l) (foldl (index_entry g now) acc l).
Proof.
  revert l0 acc. induction l as [|p l IH]; intros l0 acc Hi; [by rewrite app_nil_r|]. cbn [foldl].
  replace (l0 ++ p :: l) with ((l0 ++ [p]) ++ l) by (by rewrite <- app_assoc).
  by apply IH, index_entry_inv.
Qed.

Lemma index_start_inv g now : index_inv g now [] (∅, (∅, empty_index g)).
Proof.
  split; simpl; [intros ??; by rewrite lookup_empty|set_solver|].
  split; set_solver.
Qed.

Lemma origins_complete topic origins expected :
  indexOriginsComplete topic origins expected = true →
  ∃ scope : list string, scope ≠ []
    ∧ (scope = [""] ∨ scope = filter (λ ns, ns ≠ "") (TrimSpace <$> expected))
    ∧ ∀ ns g, ns ∈ scope → g ∈ TopicGVRs topic → g ∈ default ∅ (origins !! ns).
Proof.
  unfold indexOriginsComplete. cbv zeta.
  destruct (negb (size (default ∅ (origins !! "")) <? _) && _) eqn:Hall.
  - intros _. exists [""]. split_and!; [done|by left|].
    intros ns g ->%list_elem_of_singleton Hg. apply andb_true_iff in Hall as [_ Hall].
    rewrite forallb_forall in Hall. apply list_elem_of_In, Hall in Hg. by apply bool_decide_eq_true in Hg.
  - destruct (filter _ _) as [|n scope] eqn:Hf; [done|]. intros Hx. exists (n :: scope).
    split_and!; [done|right; by rewrite <- Hf|]. intros ns g Hns Hg.
    rewrite forallb_forall in Hx. apply list_elem_of_In, Hx, andb_true_iff in Hns as [_ Hns].
    rewrite forallb_forall in Hns. apply list_elem_of_In, Hns in Hg. by apply bool_decide_eq_true in Hg.
Qed.

(** C38: The local index states only what the cache holds. Every row shows an object of an
    unfiltered, unexpired entry of the generation. Every object of such an entry that has
    an identity is represented: by the row of an object with that identity, or the first
    object with it is a pointer, which has no row. The state of a topic is the gravest of
    its entries, so a topic shown as fresh holds no stale one. A topic is called complete
    only if no entry of it is partial or refreshing, and each resource kind of the topic has
    an entry for every namespace expected, or one for all namespaces. Completeness does not
    say that the entries are fresh: they are exactly when the state is fresh too, and then
    absence from the index is absence from snapshots within their freshness. *)
Theorem index_complete_sound c generation expected now cov :
  generation ≠ "" → cov ∈ ix_Coverage (LocalIndex c generation expected now) →
  let x := LocalIndex c generation expected now in
  let at_ e id := entries c !! id = Some e ∧ live generation now e in
  (∀ r, r ∈ ix_Resources x → ∃ e id d, at_ e id ∧ Some (ObjValue d) ∈ Items (e_snapshot e) ∧ r = row_of d)
  ∧ (∀ e id o i, at_ e id → o ∈ Items (e_snapshot e) → index_id e o = Some i →
       ∃ e' id' o', at_ e' id' ∧ Some o' ∈ Items (e_snapshot e') ∧ index_id e' (Some o') = Some i
         ∧ ((∃ d, o' = ObjValue d ∧ row_of d ∈ ix_Resources x) ∨ ∃ d, o' = ObjPtr d))
  ∧ (∀ e id, at_ e id → key_Topic (e_key e) = ic_Topic cov →
       cacheStateRank (entry_state e now) ≤ cacheStateRank (ic_State cov))
  ∧ (ic_State cov ≠ CacheStateExpired →
       ∃ e id, at_ e id ∧ key_Topic (e_key e) = ic_Topic cov ∧ entry_state e now = ic_State cov)
  ∧ (ic_Complete cov = true →
       (∀ e id, at_ e id → key_Topic (e_key e) = ic_Topic cov → whole now e)
       ∧ ∃ scope : list string, scope ≠ []
           ∧ (scope = [""] ∨ scope = filter (λ ns, ns ≠ "") (TrimSpace <$> expected))
           ∧ ∀ ns g, ns ∈ scope → g ∈ TopicGVRs (ic_Topic cov) →
               ∃ e id, at_ e id ∧ key_Topic (e_key e) = ic_Topic cov
                 ∧ key_Namespace (e_key e) = ns ∧ key_GVR (e_key e) = g).
Proof.
  intros Hg. unfold LocalIndex. apply String.eqb_neq in Hg as ->.
  pose proof (index_fold_inv generation now [] (order (map_to_list (entries c))) _
    (index_start_inv generation now)) as [C N [S L R]]. simpl in C, N, S, L, R.
  destruct (foldl _ _ _) as [coverage [seen x]]. cbn [fst snd] in *.
  assert (∀ p, p ∈ order (map_to_list (entries c)) ↔ entries c !! p.1 = Some p.2) as Hin.
  { intros [id e]. rewrite order_perm. apply elem_of_map_to_list. }
  cbn [ix_Coverage ix_Resources finalize with_coverage]. intros Hcov. cbv zeta.
  split_and!.
  - intros r Hr. rewrite sort_Slice_perm in Hr. destruct (R r Hr) as ([id e] & d & Hp & Hl & Hd & ->).
    apply Hin in Hp. exists e, id, d. done.
  - intros e id o i [He Hl] Ho Hi. destruct (L i) as ([id' e'] & o' & Hp & Hl' & Ho' & Hi' & Hlist).
    { apply (S (id, e) o i); [by apply Hin|done..]. }
    apply Hin in Hp. destruct o' as [o'|]; [|done]. exists e', id', o'. split_and!; try done. simpl.
    destruct o' as [d|d|]; [left; exists d; by rewrite sort_Slice_perm|right; by exists d|done].
  - intros e id [He Hl] Htop. apply list_elem_of_fmap in Hcov as (topic & -> & _). unfold coverage_of in *.
    destruct (coverage !! topic) as [cv|] eqn:Ht; cbn [ic_State ic_Topic] in *.
    + apply (cs_gravest _ _ _ _ _ (C topic cv Ht) (id, e)); [by apply Hin|done..].
    + by destruct (N topic Ht (id, e)); [apply Hin|..].
  - intros Hne. apply list_elem_of_fmap in Hcov as (topic & -> & _). unfold coverage_of in *.
    destruct (coverage !! topic) as [cv|] eqn:Ht; cbn [ic_State ic_Topic] in *; [|done].
    destruct (cs_state _ _ _ _ _ (C topic cv Ht)) as ([id e] & Hp & Hl & Htop & Hs).
    apply Hin in Hp. by exists e, id.
  - intros Hc. apply list_elem_of_fmap in Hcov as (topic & -> & _). unfold coverage_of in *.
    destruct (coverage !! topic) as [cv|] eqn:Ht; [|done]. cbn [ic_Complete ic_Topic] in *.
    apply andb_true_iff in Hc as [Hw Ho]. destruct (C topic cv Ht) as [W _ _ O]. split.
    + intros e id [He Hl] Htop. apply (W Hw (id, e)); [by apply Hin|done..].
    + destruct (origins_complete _ _ _ Ho) as (scope & Hne & Hs & Hall). exists scope.
      split_and!; [done|done|]. intros ns g Hns Hgv.
      destruct (O ns g (Hall ns g Hns Hgv)) as ([id e] & Hp & Hl & ? & ? & ?). apply Hin in Hp. by exists e, id.
Qed.

End index.

(** ** Witnesses *)

Definition demo_index_pod (name owner : string) : PodDTO := {|
  pod_Namespace := "default"; pod_Name := name; pod_Labels := ∅; pod_Status := "Running";
  pod_Owner := Some {| owner_Kind := "ReplicaSet"; owner_Name := owner |}; pod_ConfigMaps := [];
  pod_PVCs := []; pod_json := "{}" |}.
Definition demo_index_entry : resourceCacheEntry := {|
  e_key := {| rk_WatchKey := {| Generation := "gen_1"; Context := "kind"; Scope := "7";
      key_Topic := TopicPods; key_GVR := GVR "" "v1" "pods"; key_Namespace := "default"; Selector := "";
      EffectiveOrigins := ["default"] |};
    Query := {| Filters := []; Sort := ""; Order := ""; PageSize := 0; Cache.Cursor := "" |} |};
  e_snapshot := {| ResourceVersion := "41"; Items := [Some (ObjValue (DPod (demo_index_pod "a-1" "a")))] |};
  e_storedAt := 0; e_lastUsed := 0; e_freshUntil := 30; e_expiresAt := 300; e_bytes := 2;
  e_partial := false; e_refreshing := false |}.
Definition demo_index_cache : ResourceCache :=
  with_entries (NewResourceCache {| cfg_MaxBytes := 64; cfg_MaxEntries := 2; cfg_FreshFor := 30;
    cfg_MaxStale := 300 |}) {["x" := demo_index_entry]} 2.
Definition demo_index : LocalIndexSnapshot :=
  @LocalIndex stable_slice_sort String.eqb id demo_index_cache "gen_1" [" default "] 10.
Definition demo_coverage : IndexCoverage := {|
  ic_Topic := TopicPods; ic_State := CacheStateFresh; ic_Complete := true; ic_LoadedNamespaces := ["default"] |}.

Lemma index_complete_sound_witness :
  demo_coverage ∈ ix_Coverage demo_index ∧ whole 10 demo_index_entry.
Proof.
  assert (demo_coverage ∈ ix_Coverage demo_index) as Hin by (vm_compute; by left).
  split; [exact Hin|].
  refine (proj1 (proj2 (proj2 (proj2 (proj2 (index_complete_sound (H := stable_slice_sort) id String.eqb id
    (λ l, reflexivity l) demo_index_cache "gen_1" [" default "] 10 demo_coverage _ Hin)))) eq_refl)
    demo_index_entry "x" _ eq_refl); [exact stable_slice_sort_ok|done|]. split; [done|]. by split.
Defined.

Definition demo_shop : LocalIndexSnapshot := {|
  ix_Generation := "gen_1"; ix_Coverage := []; ix_Resources := []; ix_NamespaceCount := [];
  ix_Pods := [demo_index_pod "a-1" "a"; demo_index_pod "b-1" "b"];
  ix_Workloads := [{| workload_Kind := "ReplicaSet"; workload_Namespace := "default"; workload_Name := "a";
      workload_Status := ""; workload_Owner := Some {| owner_Kind := "Deployment"; owner_Name := "shop" |};
      workload_ConfigMaps := []; workload_PVCs := []; workload_json := "{}" |}];
  ix_Services := []; ix_EndpointSlices := []; ix_ConfigMaps := []; ix_PVCs := []; ix_Events := [] |}.

Lemma investigation_sound_witness :
  in_Pods (Investigate id String.eqb demo_shop "Deployment" "default" "shop")
  = [row_of String.eqb (DPod (demo_index_pod "a-1" "a"))]
  ∧ length (in_OwnerChain (Investigate id String.eqb demo_shop "Deployment" "default" "shop")) ≤ 8.
Proof.
  split; [by vm_compute|].
  apply (investigation_sound id String.eqb demo_shop "Deployment" "default" "shop"). done.
Defined.
