(* ===== verification/Actions.v ===== *)
(** * Actions: requests, errors and validation of the mutating services

    Models the parts of src/internal/services/actions that the action service, the port
    forwards and the exec sessions share: the public errors (errors.go), the requests and
    commands (types.go, deployment_yaml.go, resource_yaml.go), their validation
    (validation.go) and the audit events (audit.go, support.go). Errors of the cluster are
    foreign values of a type [F] that [ActionErrors] classifies, as apimachinery, [net] and
    the adapters' sentinel errors do. *)
From Stdlib Require Import Ascii String ZArith Lia.
From stdpp Require Import base gmap strings list.
From S2P Require Import Prelude Json Topics Unicode Cursor Ports Retry Pagination Collect Catalogue Access Authorization Selection.
Local Open Scope string_scope.

(** ** Errors *)

Inductive ErrorCode :=
| CodeValidationFailed | CodeForbidden | CodeNotFound | CodeConflict | CodeIdempotencyConflict
| CodeGenerationChanged | CodeSessionGone | CodeLimitExceeded | CodeClusterUnavailable
| CodeAuthenticationUnavailable | CodeAuthorizationUnavailable | CodeUpstreamTimeout
| CodeClientCanceled | CodeExecIdleTimeout | CodeExecDurationLimit | CodeServerShutdown
| CodeProtocolViolation | CodeExecTargetGone | CodeExecUpstreamError | CodeInternal.
#[export] Instance ErrorCode_eq_dec : EqDecision ErrorCode.
Proof. solve_decision. Defined.

Definition messages (code : ErrorCode) : string :=
  match code with
  | CodeValidationFailed => "The action request is invalid."
  | CodeForbidden => "Kubernetes denied this operation."
  | CodeNotFound => "The requested target was not found."
  | CodeConflict => "The target changed before the operation completed."
  | CodeIdempotencyConflict => "The idempotency key was already used for a different request."
  | CodeGenerationChanged => "The active selection changed."
  | CodeSessionGone => "The session is no longer available."
  | CodeLimitExceeded => "The action limit was exceeded."
  | CodeClusterUnavailable => "The Kubernetes API is unavailable."
  | CodeAuthenticationUnavailable => "Kubernetes authentication is unavailable."
  | CodeAuthorizationUnavailable => "Authorization could not be confirmed."
  | CodeUpstreamTimeout => "The Kubernetes API request timed out."
  | CodeClientCanceled => "The request was canceled."
  | CodeExecIdleTimeout => "The exec session was idle for too long."
  | CodeExecDurationLimit => "The exec session reached its duration limit."
  | CodeServerShutdown => "The local server is shutting down."
  | CodeProtocolViolation => "The exec protocol was violated."
  | CodeExecTargetGone => "The exec target is no longer available."
  | CodeExecUpstreamError => "The remote exec stream failed."
  | CodeInternal => "The action failed internally."
  end.

(** The codes of the authorization service are codes of this package. *)
Definition auth_code (c : AuthCode) : ErrorCode :=
  match c with
  | AuthValidationFailed => CodeValidationFailed
  | AuthForbidden => CodeForbidden
  | AuthAuthorizationUnavailable => CodeAuthorizationUnavailable
  | AuthAuthenticationUnavailable => CodeAuthenticationUnavailable
  | AuthClusterUnavailable => CodeClusterUnavailable
  | AuthUpstreamTimeout => CodeUpstreamTimeout
  | AuthClientCanceled => CodeClientCanceled
  end.

Record FieldViolation := Violation { Field : string; Rule : string }.

Inductive ctx_error := Canceled | DeadlineExceeded.
#[export] Instance ctx_error_eq_dec : EqDecision ctx_error.
Proof. solve_decision. Defined.

(** What the adapters' errors are to [errors.Is], [errors.As] and apimachinery. *)
Class ActionErrors (F : Type) := {
  foreign_errors :: OperationErrors F;
  IsRequestEntityTooLarge : F → bool; IsBadRequest : F → bool; IsInvalid : F → bool;
  IsNotFound : F → bool; IsConflict : F → bool; IsAlreadyExists : F → bool; IsGone : F → bool;
  is_PodGone : F → bool; is_ExecTargetGone : F → bool; is_EADDRINUSE : F → bool }.

Section errors.
Context {F : Type} `{!ActionErrors F}.

(** Error values and the chains [Unwrap] walks. The authorization service's errors that
    reach this package have no cause. *)
Inductive aerr :=
| Public (code : ErrorCode) (status : Z) (retryable : bool) (details : list FieldViolation)
    (cause : option aerr)
| AuthErr (e : PublicError)
| CtxErr (e : ctx_error)
| PortUnavailable (e : aerr)               (* errors.Join(errLocalPortUnavailable, e) *)
| Foreign (f : F).

Definition publicError (code : ErrorCode) (status : Z) (retryable : bool) (cause : option aerr) : aerr :=
  Public code status retryable [] cause.
Definition validationError (violations : list FieldViolation) : aerr :=
  Public CodeValidationFailed 400 false violations None.

(** Whether some error of the chain is what [ctx] and [p] say. *)
Fixpoint chain (ctx : ctx_error → bool) (p : F → bool) (err : aerr) : bool :=
  match err with
  | Public _ _ _ _ (Some e) | PortUnavailable e => chain ctx p e
  | Public _ _ _ _ None | AuthErr _ => false
  | CtxErr e => ctx e
  | Foreign f => p f
  end.
Definition chain_is (p : F → bool) : aerr → bool := chain (λ _, false) p.
Definition is_Canceled : aerr → bool := chain (λ e, bool_decide (e = Canceled)) err_canceled.
Definition is_Deadline : aerr → bool := chain (λ e, bool_decide (e = DeadlineExceeded)) err_deadline.
(** [context.DeadlineExceeded] is also a [net.Error] that reports a timeout. *)
Fixpoint chain_network (err : aerr) : option bool :=
  match err with
  | Public _ _ _ _ (Some e) | PortUnavailable e => chain_network e
  | CtxErr DeadlineExceeded => Some true
  | Foreign f => network_error f
  | _ => None
  end.

#[export] Instance aerr_errors : OperationErrors aerr := {|
  err_canceled := is_Canceled; err_deadline := is_Deadline;
  err_IsTimeout := chain_is err_IsTimeout; err_IsServerTimeout := chain_is err_IsServerTimeout;
  err_IsForbidden := chain_is err_IsForbidden; err_IsUnauthorized := chain_is err_IsUnauthorized;
  err_IsServiceUnavailable := chain_is err_IsServiceUnavailable;
  err_IsTooManyRequests := chain_is err_IsTooManyRequests;
  err_IsInternalError := chain_is err_IsInternalError;
  certificate_error := chain_is certificate_error; dns_error := chain_is dns_error;
  network_error := chain_network |}.

(** The first error of this package in the chain, and the first of the authorization
    service. *)
Fixpoint as_Error (err : aerr) : option aerr :=
  match err with
  | Public _ _ _ _ _ => Some err
  | PortUnavailable e => as_Error e
  | _ => None
  end.
Fixpoint as_AuthError (err : aerr) : option PublicError :=
  match err with
  | AuthErr e => Some e
  | Public _ _ _ _ (Some e) | PortUnavailable e => as_AuthError e
  | _ => None
  end.

Definition ErrorCodeOf (err : aerr) : option ErrorCode :=
  match as_Error err with Some (Public code _ _ _ _) => Some code | _ => None end.

Definition translateError (err : aerr) : aerr :=
  match as_Error err with
  | Some e => e
  | None =>
  match as_AuthError err with
  | Some e => publicError (auth_code (pub_Code e)) (pub_HTTPStatus e) (pub_Retryable e) (Some err)
  | None =>
    if is_Canceled err then publicError CodeClientCanceled 0 false (Some err)
    else if is_Deadline err || chain_is err_IsTimeout err || chain_is err_IsServerTimeout err
    then publicError CodeUpstreamTimeout 504 true (Some err)
    else if chain_is IsRequestEntityTooLarge err then publicError CodeLimitExceeded 413 false (Some err)
    else if chain_is IsBadRequest err || chain_is IsInvalid err
    then publicError CodeValidationFailed 400 false (Some err)
    else if chain_is err_IsForbidden err then publicError CodeForbidden 403 false (Some err)
    else if chain_is err_IsUnauthorized err then publicError CodeAuthenticationUnavailable 503 true (Some err)
    else if chain_is IsNotFound err then publicError CodeNotFound 404 false (Some err)
    else if chain_is IsConflict err || chain_is IsAlreadyExists err || chain_is IsGone err
    then publicError CodeConflict 409 false (Some err)
    else if chain_is err_IsServiceUnavailable err || chain_is err_IsTooManyRequests err
            || chain_is err_IsInternalError err
    then publicError CodeClusterUnavailable 503 true (Some err)
    else match chain_network err with
         | Some true => publicError CodeUpstreamTimeout 504 true (Some err)
         | Some false | None => publicError CodeClusterUnavailable 503 true (Some err)
         end
  end
  end.

Definition generation_changed : aerr := publicError CodeGenerationChanged 409 false None.
Definition server_shutdown : aerr := publicError CodeServerShutdown 503 true None.
Definition internal_error : aerr := publicError CodeInternal 500 false None.
Definition session_gone : aerr := publicError CodeSessionGone 410 false None.
Definition limit_exceeded (retryable : bool) : aerr := publicError CodeLimitExceeded 429 retryable None.

(** Canceled requests keep their cause through the translation. *)
Lemma translate_canceled err : as_Error err = None → as_AuthError err = None →
  is_Canceled (translateError err) = is_Canceled err.
Proof.
  intros H1 H2. unfold translateError. rewrite H1, H2.
  by destruct (is_Canceled err) eqn:Hc; repeat case_match.
Qed.
End errors.
Arguments aerr F : clear implicits.

(** ** Requests and commands *)

Inductive Action :=
| ActionRestart | ActionScale | ActionDeletePod | ActionPortForward | ActionExec
| ActionDeleteWorkload | ActionUpdateCronJobSuspend | ActionTriggerCronJob
| ActionUpdateDeployment | ActionUpdateResource | ActionOther (name : string).
#[export] Instance Action_eq_dec : EqDecision Action.
Proof. solve_decision. Defined.
Definition action_name (a : Action) : string :=
  match a with
  | ActionRestart => "restart" | ActionScale => "scale" | ActionDeletePod => "deletePod"
  | ActionPortForward => "portForward" | ActionExec => "exec"
  | ActionDeleteWorkload => "deleteWorkload"
  | ActionUpdateCronJobSuspend => "updateCronJobSuspend"
  | ActionTriggerCronJob => "triggerCronJob" | ActionUpdateDeployment => "updateDeployment"
  | ActionUpdateResource => "updateResource" | ActionOther name => name
  end.

Definition ConsequenceRecreateWorkloadPods := "RECREATE_WORKLOAD_PODS".
Definition ConsequenceChangeReplicaCount := "CHANGE_REPLICA_COUNT".
Definition ConsequenceDeletePod := "DELETE_POD".
Definition ConsequenceExposePodPortLocally := "EXPOSE_POD_PORT_LOCALLY".
Definition ConsequenceExposeServicePortLocally := "EXPOSE_SERVICE_PORT_LOCALLY".
Definition ConsequenceOpenInteractiveProcess := "OPEN_INTERACTIVE_PROCESS".
Definition ConsequenceDeleteResource := "DELETE_RESOURCE".
Definition ConsequenceSuspendCronJob := "SUSPEND_CRONJOB".
Definition ConsequenceResumeCronJob := "RESUME_CRONJOB".
Definition ConsequenceCreateJobFromCronJob := "CREATE_JOB_FROM_CRONJOB".
Definition ConsequenceUpdateDeployment := "UPDATE_DEPLOYMENT".
Definition ConsequenceUpdateResource := "UPDATE_RESOURCE".

Record ActionTargetDTO := {
  tg_ClusterProfileID : Z; tg_Context : string; tg_Namespace : string; tg_Kind : string;
  tg_Name : string }.
Record RouteTarget := { rt_Kind : string; rt_Namespace : string; rt_Name : string }.
#[export] Instance RouteTarget_eq_dec : EqDecision RouteTarget.
Proof. solve_decision. Defined.
Record Confirmation := {
  cf_Confirmed : bool; cf_Action : Action; cf_ConsequenceCode : string;
  cf_Target : ActionTargetDTO; cf_ExpectedGeneration : string }.

Record RestartRequest := { rs_Confirmation : Confirmation; rs_ExpectedResourceVersion : string }.
Record ScaleRequest := {
  sc_Replicas : Z; sc_Confirmation : Confirmation; sc_ExpectedResourceVersion : string }.
(** [PodDeleteRequest] and [WorkloadDeleteRequest] have the same fields. *)
Record DeleteRequest := {
  de_Confirmation : Confirmation; de_ExpectedUID : string; de_ExpectedResourceVersion : string }.
Record CronJobSuspendRequest := {
  cs_Suspend : bool; cs_Confirmation : Confirmation; cs_ExpectedResourceVersion : string }.
Record PortForwardCreateRequest := {
  pf_RemotePort : Z; pf_LocalPort : option Z; pf_Confirmation : Confirmation }.
Record PortForwardDeleteRequest := { pd_Confirmed : bool; pd_ExpectedGeneration : string }.
Record ExecInit := {
  ei_Container : string; ei_Command : list string; ei_TTY : bool; ei_Stdin : bool;
  ei_Confirmation : Confirmation }.
Record YAMLRequest := {
  ym_Confirmation : Confirmation; ym_ExpectedUID : string; ym_ExpectedResourceVersion : string;
  ym_YAML : string }.

Record MutationTarget := {
  mt_ClusterProfileID : Z; mt_Context : string; mt_Generation : string; mt_Namespace : string;
  mt_Kind : string; mt_Name : string }.
Definition with_kind (kind : string) (t : MutationTarget) : MutationTarget := {|
  mt_ClusterProfileID := mt_ClusterProfileID t; mt_Context := mt_Context t;
  mt_Generation := mt_Generation t; mt_Namespace := mt_Namespace t; mt_Kind := kind;
  mt_Name := mt_Name t |}.

Definition mutationTarget (b : SelectionBinding) (t : ActionTargetDTO) : MutationTarget := {|
  mt_ClusterProfileID := bind_ClusterProfileID b; mt_Context := bind_Context b;
  mt_Generation := bind_Generation b; mt_Namespace := tg_Namespace t; mt_Kind := tg_Kind t;
  mt_Name := tg_Name t |}.

(** The calls of [KubernetesActions] (and of the YAML adapters) with their commands. *)
Inductive command :=
| RestartDeployment (t : MutationTarget) (version : string) (restartedAt : Z)
| RestartStatefulSet (t : MutationTarget) (version : string) (restartedAt : Z)
| RestartDaemonSet (t : MutationTarget) (version : string) (restartedAt : Z)
| UpdateScale (t : MutationTarget) (replicas : Z) (version : string)
| DeletePodCommand (t : MutationTarget) (uid version : string)
| DeleteWorkloadCommand (t : MutationTarget) (uid version : string)
| UpdateCronJobSuspendCommand (t : MutationTarget) (suspend : bool) (version : string)
| TriggerCronJobCommand (t : MutationTarget) (jobName : string)
| DeploymentYAMLCommand (t : MutationTarget) (uid version yaml : string)
| ReadResourceYAMLCommand (t : MutationTarget) (collection : string)
| ResourceYAMLCommand (t : MutationTarget) (uid version yaml collection : string).
Definition command_target (c : command) : MutationTarget :=
  match c with
  | RestartDeployment t _ _ | RestartStatefulSet t _ _ | RestartDaemonSet t _ _
  | UpdateScale t _ _ | DeletePodCommand t _ _ | DeleteWorkloadCommand t _ _
  | UpdateCronJobSuspendCommand t _ _ | TriggerCronJobCommand t _
  | DeploymentYAMLCommand t _ _ _ | ReadResourceYAMLCommand t _
  | ResourceYAMLCommand t _ _ _ _ => t
  end.

(** [ActionAcceptedDTO] and [ScaleResultDTO]; [ac_Replicas] is set by a scale only. *)
Record ActionAcceptedDTO := {
  ac_Accepted : bool; ac_Action : Action; ac_Target : ActionTargetDTO; ac_Generation : string;
  ac_ResourceVersion : option string; ac_Replicas : option Z }.
Record ResourceYAMLDocument := {
  yd_YAML : string; yd_Kind : string; yd_UpdateCapability : string; yd_Generation : string }.

(** ** Validation *)

Definition hasControl (value : string) : bool :=
  existsb (λ r, (r <? 32)%N || (r =? 127)%N) (string_runes value).

Definition is_alnum (c : ascii) : bool :=
  in_range 48 57 c || in_range 65 90 c || in_range 97 122 c.
Definition idempotency_char (c : ascii) : bool :=
  is_alnum c || existsb (Ascii.eqb c) (chars "._~-").
(** ^[A-Za-z0-9._~-]{16,128}$ *)
Definition idempotencyKeyPattern (value : string) : bool :=
  forallb idempotency_char (chars value) && (16 <=? len value)%Z && (len value <=? 128)%Z.
Definition session_char (c : ascii) : bool := is_alnum c || existsb (Ascii.eqb c) (chars "_-").
Definition session_tail (s p : string) : bool :=
  match strip_prefix (chars p) (chars s) with
  | Some l => forallb session_char l && (8 <=? length l)%nat && (length l <=? 128)%nat
  | None => false
  end.
(** ^(pf|exec)_[A-Za-z0-9_-]{8,128}$ *)
Definition sessionIDPattern (value : string) : bool :=
  session_tail value "pf_" || session_tail value "exec_".

Definition violated (b : bool) (field rule : string) : list FieldViolation :=
  if b then [Violation field rule] else [].
Definition report {F} (violations : list FieldViolation) : option (aerr F) :=
  match violations with [] => None | _ => Some (validationError violations) end.

Definition restartableWorkloadKinds (route : string) : option string :=
  if String.eqb route "deployments" then Some "Deployment"
  else if String.eqb route "statefulsets" then Some "StatefulSet"
  else if String.eqb route "daemonsets" then Some "DaemonSet" else None.
Definition deletableWorkloadKinds (route : string) : option string :=
  if String.eqb route "deployments" then Some "Deployment"
  else if String.eqb route "statefulsets" then Some "StatefulSet"
  else if String.eqb route "daemonsets" then Some "DaemonSet"
  else if String.eqb route "jobs" then Some "Job"
  else if String.eqb route "cronjobs" then Some "CronJob"
  else if String.eqb route "replicasets" then Some "ReplicaSet" else None.

Definition MaxInt32 : Z := 2147483647.
Definition MaximumExecArguments : Z := 64.
Definition MaximumExecArgumentBytes : Z := 4096.
Definition MaximumExecCommandBytes : Z := 32768.
Definition MaximumDeploymentYAMLBytes : Z := 2097152.
Definition MaximumResourceYAMLBytes : Z := 2097152.

Section validation.
Context {F : Type} `{!ActionErrors F} `{!DnsNames}.
Abbreviation err := (aerr F).
Abbreviation neq a b := (negb (String.eqb a b)).

Definition validateBinding (b : SelectionBinding) : option err :=
  report (violated (bind_ClusterProfileID b <=? 0)%Z "target.clusterProfileId" "positive"
    ++ violated (String.eqb (bind_Context b) "" || (253 <? len (bind_Context b))%Z || hasControl (bind_Context b))
         "target.context" "active_context"
    ++ violated (String.eqb (bind_Generation b) "" || (256 <? len (bind_Generation b))%Z || hasControl (bind_Generation b))
         "expectedGeneration" "active_generation").

Definition validateConfirmation (b : SelectionBinding) (route : RouteTarget) (c : Confirmation)
    (action : Action) (consequence routeKind targetKind : string) : option err :=
  match validateBinding b with
  | Some e => Some e
  | None =>
    let target := cf_Target c in
    report (violated (neq (rt_Kind route) routeKind) "path.kind" routeKind
      ++ violated (negb (IsDNS1123Label (rt_Namespace route))) "path.namespace" "kubernetes_dns_label"
      ++ violated (negb (IsDNS1123Subdomain (rt_Name route))) "path.name" "kubernetes_dns_subdomain"
      ++ violated (negb (cf_Confirmed c)) "confirmed" "must_be_true"
      ++ violated (negb (bool_decide (cf_Action c = action))) "action" (action_name action)
      ++ violated (neq (cf_ConsequenceCode c) consequence) "consequenceCode" consequence
      ++ violated (neq (cf_ExpectedGeneration c) (bind_Generation b)) "expectedGeneration" "matches_active_generation"
      ++ violated (negb (tg_ClusterProfileID target =? bind_ClusterProfileID b)%Z) "target.clusterProfileId" "matches_active_selection"
      ++ violated (neq (tg_Context target) (bind_Context b)) "target.context" "matches_active_selection"
      ++ violated (neq (tg_Namespace target) (rt_Namespace route)) "target.namespace" "matches_path"
      ++ violated (neq (tg_Kind target) targetKind) "target.kind" targetKind
      ++ violated (neq (tg_Name target) (rt_Name route)) "target.name" "matches_path")
  end.

(** The violations [validateOpaquePrecondition] reports for a field. *)
Definition opaque_precondition (field value : string) : list FieldViolation :=
  violated (String.eqb value "" || (256 <? len value)%Z || hasControl value || negb (ValidString value))
    field "non_empty_opaque_max_256".
Definition validateOpaquePrecondition (field value : string) : option err :=
  report (opaque_precondition field value).

(** Go's [if err := a; err != nil { return err }; return b]. *)
Definition first_error (a b : option err) : option err :=
  match a with Some e => Some e | None => b end.

Definition validateRestart (b : SelectionBinding) (route : RouteTarget) (r : RestartRequest) : option err :=
  match restartableWorkloadKinds (rt_Kind route) with
  | None => Some (validationError [Violation "path.kind" "deployments_statefulsets_or_daemonsets"])
  | Some targetKind =>
    first_error
      (validateConfirmation b route (rs_Confirmation r) ActionRestart ConsequenceRecreateWorkloadPods
         (rt_Kind route) targetKind)
      (validateOpaquePrecondition "expectedResourceVersion" (rs_ExpectedResourceVersion r))
  end.

Definition validateScale (b : SelectionBinding) (route : RouteTarget) (r : ScaleRequest) : option err :=
  if neq (rt_Kind route) "deployments" && neq (rt_Kind route) "statefulsets"
  then Some (validationError [Violation "path.kind" "deployments_or_statefulsets"])
  else
    let targetKind := if String.eqb (rt_Kind route) "statefulsets" then "StatefulSet" else "Deployment" in
    first_error
      (validateConfirmation b route (sc_Confirmation r) ActionScale ConsequenceChangeReplicaCount
         (rt_Kind route) targetKind)
      (report (violated (sc_Replicas r <? 0)%Z "replicas" "minimum_0"
        ++ violated (MaxInt32 <? sc_Replicas r)%Z "replicas" "maximum_2147483647"
        ++ opaque_precondition "expectedResourceVersion" (sc_ExpectedResourceVersion r))).

Definition delete_preconditions (r : DeleteRequest) : option err :=
  report (opaque_precondition "expectedUid" (de_ExpectedUID r)
    ++ opaque_precondition "expectedResourceVersion" (de_ExpectedResourceVersion r)).

Definition validateDeletePod (b : SelectionBinding) (route : RouteTarget) (r : DeleteRequest) : option err :=
  first_error
    (validateConfirmation b route (de_Confirmation r) ActionDeletePod ConsequenceDeletePod "pods" "Pod")
    (delete_preconditions r).

Definition validateDeleteWorkload (b : SelectionBinding) (route : RouteTarget) (r : DeleteRequest) : option err :=
  match deletableWorkloadKinds (rt_Kind route) with
  | None => Some (validationError [Violation "path.kind"
      "deployments_statefulsets_daemonsets_jobs_cronjobs_or_replicasets"])
  | Some targetKind =>
    first_error
      (validateConfirmation b route (de_Confirmation r) ActionDeleteWorkload ConsequenceDeleteResource
         (rt_Kind route) targetKind)
      (delete_preconditions r)
  end.

Definition validateCronJobSuspend (b : SelectionBinding) (route : RouteTarget) (r : CronJobSuspendRequest)
    : option err :=
  let consequence := if cs_Suspend r then ConsequenceSuspendCronJob else ConsequenceResumeCronJob in
  first_error
    (validateConfirmation b route (cs_Confirmation r) ActionUpdateCronJobSuspend consequence "cronjobs" "CronJob")
    (validateOpaquePrecondition "expectedResourceVersion" (cs_ExpectedResourceVersion r)).

Definition validateCronJobTrigger (b : SelectionBinding) (route : RouteTarget) (c : Confirmation) : option err :=
  validateConfirmation b route c ActionTriggerCronJob ConsequenceCreateJobFromCronJob "cronjobs" "CronJob".

Definition port_violations (r : PortForwardCreateRequest) : option err :=
  report (violated ((pf_RemotePort r <? 1)%Z || (65535 <? pf_RemotePort r)%Z) "remotePort" "range_1_65535"
    ++ violated (match pf_LocalPort r with
                 | Some p => (p <? 1024)%Z || (65535 <? p)%Z
                 | None => false
                 end) "localPort" "null_or_range_1024_65535").

Definition validatePortForward (b : SelectionBinding) (route : RouteTarget) (r : PortForwardCreateRequest)
    : option err :=
  first_error
    (validateConfirmation b route (pf_Confirmation r) ActionPortForward ConsequenceExposePodPortLocally "pods" "Pod")
    (port_violations r).
Definition validateServicePortForward (b : SelectionBinding) (route : RouteTarget)
    (r : PortForwardCreateRequest) : option err :=
  first_error
    (validateConfirmation b route (pf_Confirmation r) ActionPortForward ConsequenceExposeServicePortLocally
       "services" "Service")
    (port_violations r).

Definition bad_argument (first : bool) (argument : string) : bool :=
  negb (ValidString argument) || existsb (Ascii.eqb Ascii.zero) (chars argument)
  || (MaximumExecArgumentBytes <? len argument)%Z || first && String.eqb argument "".

(** The loop over the arguments: the bytes counted until it ends, and whether it broke. *)
Fixpoint scan_arguments (first : bool) (total : Z) (l : list string) : Z * bool :=
  match l with
  | [] => (total, false)
  | a :: l =>
    let total := (total + len a)%Z in
    if bad_argument first a then (total, true) else scan_arguments false total l
  end.

Definition validateExec (b : SelectionBinding) (route : RouteTarget) (r : ExecInit) : option err :=
  let '(total, bad) := scan_arguments true 0 (ei_Command r) in
  let arguments := Z.of_nat (length (ei_Command r)) in
  first_error
    (validateConfirmation b route (ei_Confirmation r) ActionExec ConsequenceOpenInteractiveProcess "pods" "Pod")
    (report (violated (negb (IsDNS1123Label (ei_Container r))) "container" "kubernetes_dns_label"
      ++ violated ((arguments <? 1)%Z || (MaximumExecArguments <? arguments)%Z) "command" "argv_1_64"
      ++ violated bad "command" "utf8_no_nul_item_max_4096"
      ++ violated (MaximumExecCommandBytes <? total)%Z "command" "total_max_32768")).

Definition validateIdempotencyKey (value : string) : option err :=
  report (violated (negb (idempotencyKeyPattern value)) "Idempotency-Key" "16_128_unreserved_characters").
Definition validateSessionID (value prefix : string) : option err :=
  report (violated (negb (sessionIDPattern value) || negb (HasPrefix value prefix)) "sessionId" "valid_identifier").
End validation.

Definition canonicalWorkloadPath (route : RouteTarget) (suffix : string) : string :=
  "/api/v1/workloads/" +:+ rt_Kind route +:+ "/" +:+ rt_Namespace route +:+ "/" +:+ rt_Name route
  +:+ "/" +:+ suffix.
Definition canonicalPodPath (route : RouteTarget) (suffix : string) : string :=
  let path := "/api/v1/pods/" +:+ rt_Namespace route +:+ "/" +:+ rt_Name route in
  if String.eqb suffix "" then path else path +:+ "/" +:+ suffix.
Definition canonicalServicePath (route : RouteTarget) (suffix : string) : string :=
  let path := "/api/v1/services/" +:+ rt_Namespace route +:+ "/" +:+ rt_Name route in
  if String.eqb suffix "" then path else path +:+ "/" +:+ suffix.

(** ** Audit *)

(** [strings.Map] with a function that drops control characters: invalid bytes become
    U+FFFD. *)
Fixpoint drop_control (fuel : nat) (l : list ascii) : list ascii :=
  match fuel, l with
  | 0, _ | _, [] => []
  | S fuel, c :: rest =>
    match rune_width l with
    | None => ["239"; "191"; "189"]%char ++ drop_control fuel rest
    | Some w =>
      (if (N_of_ascii c <? 32)%N || (N_of_ascii c =? 127)%N then [] else take w l)
      ++ drop_control fuel (drop w l)
    end
  end.
Fixpoint trim_invalid (fuel : nat) (l : list ascii) : list ascii :=
  match fuel with
  | 0 => []
  | S fuel => if valid_utf8 (length l) l then l else trim_invalid fuel (removelast l)
  end.
Definition safeMetadata (value : string) : string :=
  let l := drop_control (String.length value) (chars value) in
  if (length l <=? 256)%nat then string_of_list_ascii l
  else string_of_list_ascii (trim_invalid 257 (take 256 l)).

Record AuditEvent := {
  au_Timestamp : Z; au_Level : string; au_Component : string; au_Operation : string;
  au_Resource : string; au_Duration : Z; au_ErrorCode : option ErrorCode }.

Definition auditResourceKind (kind : string) : string :=
  if existsb (String.eqb kind)
       ["Pod"; "Deployment"; "StatefulSet"; "DaemonSet"; "Job"; "CronJob"; "ReplicaSet"; "Service"]
  then kind else "Unknown".
Definition nonNegativeDuration (value : Z) : Z := if (value <? 0)%Z then 0 else value.

Definition audit_event {F} (now started : Z) (operation : string) (target : MutationTarget)
    (err : option (aerr F)) : AuditEvent := {|
  au_Timestamp := now;
  au_Level := match err with Some _ => "error" | None => "info" end;
  au_Component := "actions";
  au_Operation := safeMetadata operation;
  au_Resource := auditResourceKind (mt_Kind target);
  au_Duration := nonNegativeDuration (now - started);
  au_ErrorCode := match err with
                  | Some e => Some (default CodeInternal (ErrorCodeOf e))
                  | None => None
                  end |}.

(** ** What an accepted request says *)

Section accepted.
Context {F : Type} `{!ActionErrors F} `{!DnsNames}.

Lemma violated_nil b field rule : violated b field rule = [] ↔ b = false.
Proof. by destruct b. Qed.
Lemma report_None (l : list FieldViolation) : report (F := F) l = None ↔ l = [].
Proof. by destruct l. Qed.
Lemma first_error_None (a b : option (aerr F)) : first_error a b = None ↔ a = None ∧ b = None.
Proof. destruct a; naive_solver. Qed.
Lemma opaque_precondition_nil field value :
  opaque_precondition field value = []
  ↔ value ≠ "" ∧ (len value ≤ 256)%Z ∧ hasControl value = false ∧ ValidString value = true.
Proof.
  unfold opaque_precondition. rewrite violated_nil, !orb_false_iff, negb_false_iff, String.eqb_neq, Z.ltb_ge.
  tauto.
Qed.

(** The confirmation matches the action, the route and the active selection. *)
Definition confirmed (b : SelectionBinding) (route : RouteTarget) (c : Confirmation)
    (action : Action) (consequence routeKind targetKind : string) : Prop :=
  rt_Kind route = routeKind
  ∧ IsDNS1123Label (rt_Namespace route) = true ∧ IsDNS1123Subdomain (rt_Name route) = true
  ∧ cf_Confirmed c = true ∧ cf_Action c = action ∧ cf_ConsequenceCode c = consequence
  ∧ cf_ExpectedGeneration c = bind_Generation b
  ∧ cf_Target c = {| tg_ClusterProfileID := bind_ClusterProfileID b; tg_Context := bind_Context b;
                     tg_Namespace := rt_Namespace route; tg_Kind := targetKind;
                     tg_Name := rt_Name route |}.

Lemma confirmation_exact b route c action consequence routeKind targetKind :
  validateConfirmation (F := F) b route c action consequence routeKind targetKind = None
  ↔ validateBinding (F := F) b = None
    ∧ confirmed b route c action consequence routeKind targetKind.
Proof.
  unfold validateConfirmation, confirmed. destruct (validateBinding b); [naive_solver|].
  rewrite report_None, !app_nil, !violated_nil, !negb_false_iff, !String.eqb_eq, Z.eqb_eq, bool_decide_eq_true.
  destruct (cf_Target c); simpl. naive_solver.
Qed.

Lemma binding_generation b : validateBinding (F := F) b = None → bind_Generation b ≠ "".
Proof.
  unfold validateBinding. rewrite report_None, !app_nil, !violated_nil, !orb_false_iff, !String.eqb_neq. tauto.
Qed.
End accepted.

(** ** A selection, and a cluster with one foreign error, for the examples *)

Definition demo_action_errors : ActionErrors unit := {|
  foreign_errors := {|
    err_canceled := λ _, false; err_deadline := λ _, false; err_IsTimeout := λ _, false;
    err_IsServerTimeout := λ _, false; err_IsForbidden := λ _, false; err_IsUnauthorized := λ _, false;
    err_IsServiceUnavailable := λ _, false; err_IsTooManyRequests := λ _, false;
    err_IsInternalError := λ _, false; certificate_error := λ _, false; dns_error := λ _, false;
    network_error := λ _, None |};
  IsRequestEntityTooLarge := λ _, false; IsBadRequest := λ _, false; IsInvalid := λ _, false;
  IsNotFound := λ _, true; IsConflict := λ _, false; IsAlreadyExists := λ _, false; IsGone := λ _, false;
  is_PodGone := λ _, false; is_ExecTargetGone := λ _, false; is_EADDRINUSE := λ _, false |}.

Definition demo_binding : SelectionBinding := {|
  bind_ClusterProfileID := 1; bind_Context := "dev"; bind_Cluster := "dev"; bind_ActiveScopeID := 1;
  bind_Generation := "gen_1" |}.
