(* ===== verification/Idempotency.v ===== *)
(** * Idempotency: at most one execution per key

    Models src/internal/services/actions/idempotency.go. The registry maps an idempotency
    key to an entry; an entry is an object that waiting requests keep after it left the
    map. Objects are named by the number of the request that created them. [Do] is a
    program over any state that holds a registry; a panic of the executed function, which
    [Do] recovers, is not modelled. The registry also records what happened in a log, which
    the code does not have and nothing reads. *)
From Stdlib Require Import Ascii String ZArith Lia.
From stdpp Require Import base gmap strings list.
From S2P Require Import Prelude Json Topics Unicode Cursor Ports Retry Pagination Collect Catalogue Access Authorization Selection Actions Threads.

Definition maximumIdempotencyEntries : nat := Z.to_nat 4096.

Record idempotencyIdentity := {
  id_Method : string; id_Path : string; id_ClusterProfileID : Z; id_Generation : string;
  id_BodyHash : string }.
#[export] Instance idempotencyIdentity_eq_dec : EqDecision idempotencyIdentity.
Proof. solve_decision. Defined.

Section registry.
Context {F : Type} `{!ActionErrors F} {V : Type}.
Abbreviation outcome := (result (aerr F) V).

(** [ie_result] is set when [done] is closed: the outcome and [terminalAt]. *)
Record idempotencyEntry := { ie_identity : idempotencyIdentity; ie_result : option (outcome * Z) }.

Inductive reg_event :=
| Executing (key : string) (identity : idempotencyIdentity) (n : nat) (now : Z)
| Finished (key : string) (n : nat) (r : outcome) (now : Z)
| Replayed (key : string) (identity : idempotencyIdentity) (n m : nat) (r : outcome).

Record idempotencyRegistry := {
  ir_ttl : Z; ir_entries : gmap string nat; ir_objects : gmap nat idempotencyEntry;
  ir_log : list reg_event }.

Definition newIdempotencyRegistry (ttl : Z) : idempotencyRegistry :=
  {| ir_ttl := ttl; ir_entries := ∅; ir_objects := ∅; ir_log := [] |}.

Definition set_entries (m : gmap string nat) (r : idempotencyRegistry) : idempotencyRegistry := {|
  ir_ttl := ir_ttl r; ir_entries := m; ir_objects := ir_objects r; ir_log := ir_log r |}.
Definition put_object (n : nat) (e : idempotencyEntry) (ev : reg_event) (r : idempotencyRegistry)
    : idempotencyRegistry := {|
  ir_ttl := ir_ttl r; ir_entries := ir_entries r; ir_objects := <[n := e]> (ir_objects r);
  ir_log := ir_log r ++ [ev] |}.

(** The entry ended at least [ttl] ago. *)
Definition outlived (now : Z) (r : idempotencyRegistry) (n : nat) : bool :=
  match ir_objects r !! n with
  | Some {| ie_result := Some (_, terminalAt) |} => negb (now <? terminalAt + ir_ttl r)%Z
  | _ => false
  end.
Definition pruneLocked (now : Z) (r : idempotencyRegistry) : idempotencyRegistry :=
  set_entries (filter (λ p, outlived now r p.2 = false) (ir_entries r)) r.

Inductive entered := IdentityConflict | Existing (m : nat) | RegistryFull | Execute.

(** The first critical section of [Do] in request [n]. *)
Definition do_enter (n : nat) (key : string) (identity : idempotencyIdentity) (now : Z)
    (r : idempotencyRegistry) : entered * idempotencyRegistry :=
  let r := pruneLocked now r in
  match ir_entries r !! key with
  | Some m =>
    (if bool_decide (ie_identity <$> ir_objects r !! m = Some identity) then Existing m else IdentityConflict, r)
  | None =>
    if (maximumIdempotencyEntries <=? size (ir_entries r))%nat then (RegistryFull, r)
    else (Execute, put_object n {| ie_identity := identity; ie_result := None |}
                     (Executing key identity n now)
                     (set_entries (<[key := n]> (ir_entries r)) r))
  end.

Definition is_canceled_outcome (o : outcome) : bool :=
  match o with Err e => is_Canceled e | Ok _ => false end.

(** The deferred critical section that closes [done]. *)
Definition do_finish (n : nat) (key : string) (identity : idempotencyIdentity) (o : outcome) (now : Z)
    (r : idempotencyRegistry) : idempotencyRegistry :=
  let r := put_object n {| ie_identity := identity; ie_result := Some (o, now) |}
             (Finished key n o now) r in
  if is_canceled_outcome o then set_entries (delete key (ir_entries r)) r else r.

(** A waiting request reads the entry after [done]. *)
Definition do_replay (n m : nat) (key : string) (identity : idempotencyIdentity)
    (r : idempotencyRegistry) : option outcome * idempotencyRegistry :=
  match ir_objects r !! m with
  | Some {| ie_result := Some (o, _) |} =>
    (Some o, {| ir_ttl := ir_ttl r; ir_entries := ir_entries r; ir_objects := ir_objects r;
                ir_log := ir_log r ++ [Replayed key identity n m o] |})
  | _ => (None, r)
  end.

(** ** The program *)

Section program.
(** The state that holds the registry, and how a request waits for an entry: for [done]
    ([Some None]), or for the end of its context. *)
Context {W Q E : Type} (reg : W → idempotencyRegistry) (set_reg : idempotencyRegistry → W → W)
  (clock : W → Z) (wait : nat → nat → Q) (waited : E → option ctx_error).

Definition on_registry {A} (f : W → idempotencyRegistry → A * idempotencyRegistry) : prog W Q E A :=
  atomically (λ w, ((f w (reg w)).1, set_reg (f w (reg w)).2 w)).

(** The outcome and whether it was replayed. *)
Definition Do (n : nat) (key : string) (identity : idempotencyIdentity) (execute : prog W Q E outcome)
    : prog W Q E (outcome * bool) :=
  o ← on_registry (λ w, do_enter n key identity (clock w));
  match o with
  | IdentityConflict => Ret (Err (publicError CodeIdempotencyConflict 409 false None), false)
  | Existing m =>
    answer ← receive (wait n m);
    match waited answer with
    | Some e => Ret (Err (translateError (CtxErr e)), true)
    | None =>
      r ← on_registry (λ _, do_replay n m key identity);
      Ret (default (Err internal_error) r, true)
    end
  | RegistryFull => Ret (Err (limit_exceeded true), false)
  | Execute =>
    r ← execute;
    _ ← on_registry (λ w r', (tt, do_finish n key identity r (clock w) r'));
    Ret (r, false)
  end.
End program.

(** ** The invariant *)

(** An entry that is no longer in the map was canceled, or ended a [ttl] before [now]. *)
Definition over (ttl now : Z) (l : list reg_event) (key : string) (n : nat) : Prop :=
  ∃ o t, Finished key n o t ∈ l ∧ (is_canceled_outcome o = true ∨ (t + ttl ≤ now)%Z).

(** What each event promises, by what the log already holds. *)
Definition event_ok (ttl : Z) (a : list reg_event) (e : reg_event) : Prop :=
  match e with
  | Executing key identity n now => ∀ identity' m t, Executing key identity' m t ∈ a → over ttl now a key m
  | Finished key n o now => ∃ identity t, Executing key identity n t ∈ a
  | Replayed key identity n m o => (∃ t, Executing key identity m t ∈ a) ∧ ∃ t, Finished key m o t ∈ a
  end.
(** The object of a request and what the log says about it. *)
Record object_ok (r : idempotencyRegistry) (n : nat) (e : idempotencyEntry) (key : string) (t : Z) : Prop := {
  oo_log : Executing key (ie_identity e) n t ∈ ir_log r;
  oo_only : ∀ key' identity t', Executing key' identity n t' ∈ ir_log r →
            key' = key ∧ identity = ie_identity e ∧ t' = t;
  oo_running : ie_result e = None → ir_entries r !! key = Some n;
  oo_ended : ∀ o t', ie_result e = Some (o, t') → Finished key n o t' ∈ ir_log r }.

Record registry_inv (now : Z) (r : idempotencyRegistry) : Prop := {
  ri_log : history_ok (event_ok (ir_ttl r)) (ir_log r);
  ri_objects : ∀ n e, ir_objects r !! n = Some e → ∃ key t, object_ok r n e key t;
  ri_started : ∀ key identity n t, Executing key identity n t ∈ ir_log r → is_Some (ir_objects r !! n);
  ri_entries : ∀ key n, ir_entries r !! key = Some n → ∃ identity t, Executing key identity n t ∈ ir_log r;
  ri_gone : ∀ key identity n t, Executing key identity n t ∈ ir_log r →
            ir_entries r !! key = Some n ∨ over (ir_ttl r) now (ir_log r) key n;
  ri_size : size (ir_entries r) ≤ maximumIdempotencyEntries }.

(** ** It is preserved *)

Lemma over_mono ttl now now' l l' key n :
  (now ≤ now')%Z → over ttl now l key n → over ttl now' (l ++ l') key n.
Proof.
  intros Hn (o & t & Hin & Ht). exists o, t. split; [set_solver|]. destruct Ht; [by left|right; lia].
Qed.

Lemma registry_later now now' r : (now ≤ now')%Z → registry_inv now r → registry_inv now' r.
Proof.
  intros Hn [Hl Ho Hs He Hg Hz]. split; try done. intros key identity n t Hin.
  destruct (Hg _ _ _ _ Hin) as [?|Hov]; [by left|right].
  rewrite <- (app_nil_r (ir_log r)). by eapply over_mono.
Qed.

Lemma prune_inv now r : registry_inv now r → registry_inv now (pruneLocked now r).
Proof.
  intros [Hl Ho Hs He Hg Hz]. split; simpl; try done.
  - intros n e Hn. destruct (Ho n e Hn) as (key & t & [H1 H2 H3 H4]). exists key, t. split; try done.
    intros Hr. apply map_lookup_filter_Some. split; [by apply H3|]. simpl. unfold outlived. rewrite Hn.
    destruct e as [identity res]. simpl in Hr. by rewrite Hr.
  - intros key n [Hin _]%map_lookup_filter_Some. by eapply He.
  - intros key identity n t Hin. destruct (Hg _ _ _ _ Hin) as [Hk|Hov]; [|by right].
    destruct (outlived now r n) eqn:Hout.
    + right. unfold outlived in Hout. destruct (ir_objects r !! n) as [e|] eqn:Hn; [|done].
      destruct (Ho n e Hn) as (key' & t' & [H1 H2 H3 H4]). destruct (H2 _ _ _ Hin) as (-> & _ & _).
      destruct e as [identity' [[o t'']|]]; [|done]. bool_to_prop. exists o, t''.
      split; [by apply H4|by right].
    + left. by apply map_lookup_filter_Some.
  - etrans; [|exact Hz]. apply map_subseteq_size, map_filter_subseteq.
Qed.

Lemma object_ok_grow r r' n e key t l :
  object_ok r n e key t → ir_log r' = ir_log r ++ l →
  (∀ k i t', Executing k i n t' ∉ l) → (ie_result e = None → ir_entries r' !! key = Some n) →
  object_ok r' n e key t.
Proof.
  intros [H1 H2 H3 H4] Hlog Hl Hrun. split; rewrite ?Hlog; [set_solver| |done|].
  - intros k i t' [Hin|Hin]%elem_of_app; [by apply (H2 k i t')|by destruct (Hl k i t')].
  - intros o t' Hr. apply elem_of_app. left. by apply H4.
Qed.

(** Keys of running requests are in the map, so a request that starts overtakes nobody. *)
Lemma do_enter_inv n key identity now r :
  registry_inv now r → ir_objects r !! n = None → registry_inv now (do_enter n key identity now r).2.
Proof.
  intros Hr Hn. unfold do_enter. pose proof (prune_inv now r Hr) as Hp.
  assert (ir_objects (pruneLocked now r) !! n = None) as Hn' by done.
  clear Hr Hn. revert Hp Hn'. generalize (pruneLocked now r). clear r. intros r Hr Hn.
  destruct (ir_entries r !! key) as [m|] eqn:Hk; [done|]. destruct (_ <=? _) eqn:Hfull; [done|].
  apply Nat.leb_gt in Hfull. destruct Hr as [Hl Ho Hs He Hg Hz].
  assert (∀ k i t, Executing k i n t ∉ ir_log r) as Hnew.
  { intros k i t Hin. destruct (Hs _ _ _ _ Hin) as [e He']. congruence. }
  split; simpl.
  - apply history_snoc; [done|]. intros identity' m t Hin. destruct (Hg _ _ _ _ Hin); [congruence|done].
  - intros n' e. rewrite lookup_insert_Some. intros [[<- <-]|[Hne Hn']].
    + exists key, now. split; simpl; [set_solver| |by rewrite lookup_insert_eq|done].
      intros k i t [Hin|Hin]%elem_of_app; [by destruct (Hnew k i t)|].
      apply list_elem_of_singleton in Hin. by simplify_eq.
    + destruct (Ho n' e Hn') as (key' & t & Hok). exists key', t.
      eapply object_ok_grow; [done|done| |].
      * intros k i t' Hin%list_elem_of_singleton. congruence.
      * intros Hrun. simpl. pose proof (oo_running _ _ _ _ _ Hok Hrun) as Hm.
        rewrite lookup_insert_ne; [done|]. congruence.
  - intros k i m t [Hin|Hin]%elem_of_app.
    + destruct (decide (n = m)) as [->|Hne]; [by rewrite lookup_insert_eq|rewrite lookup_insert_ne by done; by eapply Hs].
    + apply list_elem_of_singleton in Hin. simplify_eq. by rewrite lookup_insert_eq.
  - intros k m. rewrite lookup_insert_Some. intros [[<- <-]|[Hne Hin]].
    + exists identity, now. set_solver.
    + destruct (He k m Hin) as (i & t & ?). exists i, t. set_solver.
  - intros k i m t [Hin|Hin]%elem_of_app.
    + destruct (decide (key = k)) as [->|Hne]; [|rewrite lookup_insert_ne by done];
        destruct (Hg _ _ _ _ Hin) as [?|Hov]; try (right; by eapply over_mono); [congruence|by left].
    + apply list_elem_of_singleton in Hin. simplify_eq. left. by rewrite lookup_insert_eq.
  - rewrite map_size_insert_None by done. lia.
Qed.

(** The request that executes ends its own entry. *)
Definition running (r : idempotencyRegistry) (n : nat) (key : string) (identity : idempotencyIdentity) : Prop :=
  ir_objects r !! n = Some {| ie_identity := identity; ie_result := None |}
  ∧ ∃ t, Executing key identity n t ∈ ir_log r.

Lemma do_finish_inv n key identity o now r :
  registry_inv now r → running r n key identity → registry_inv now (do_finish n key identity o now r).
Proof.
  intros [Hl Ho Hs He Hg Hz] [Hn [t Hin]]. destruct (Ho n _ Hn) as (key' & t' & [H1 H2 H3 H4]).
  destruct (H2 _ _ _ Hin) as (<- & _ & <-). simpl in *. specialize (H3 eq_refl).
  assert (∀ m, is_Some (ir_objects r !! m) →
    is_Some (<[n := {| ie_identity := identity; ie_result := Some (o, now) |}]> (ir_objects r) !! m)) as Hsome.
  { intros m Hm. destruct (decide (n = m)) as [->|]; [by rewrite lookup_insert_eq|by rewrite lookup_insert_ne]. }
  assert (∀ k i m t', Executing k i m t' ∈ ir_log r ++ [Finished key n o now] → Executing k i m t' ∈ ir_log r) as Hold.
  { intros k i m t' [?|Hx%list_elem_of_singleton]%elem_of_app; [done|congruence]. }
  unfold do_finish. set (r' := put_object _ _ _ r).
  assert (∀ ents, (∀ m k, ents !! k = Some m → ir_entries r !! k = Some m) →
    (∀ m k, ir_entries r !! k = Some m → ents !! k = Some m ∨ k = key ∧ is_canceled_outcome o = true) →
    size ents ≤ maximumIdempotencyEntries → registry_inv now (set_entries ents r')) as Hgen.
  { intros ents Hsub Hkeep Hsize. split; simpl.
    - apply history_snoc; [done|]. by exists identity, t.
    - intros m e. rewrite lookup_insert_Some. intros [[<- <-]|[Hne Hm]].
      + exists key, t. split; simpl; [set_solver| |done|intros ?? [= <- <-]; set_solver].
        intros k i t' Hx%Hold. by apply H2.
      + destruct (Ho m e Hm) as (k & t' & Hok). exists k, t'. eapply object_ok_grow; [done|done| |].
        * intros ??? ?%list_elem_of_singleton. congruence.
        * intros Hrun. simpl. pose proof (oo_running _ _ _ _ _ Hok Hrun) as Hm'.
          destruct (Hkeep _ _ Hm') as [?|[-> _]]; [done|congruence].
    - intros k i m t' Hx%Hold. by eapply Hsome, Hs.
    - intros k m Hm%Hsub. destruct (He k m Hm) as (i & t' & ?). exists i, t'. set_solver.
    - intros k i m t' Hx%Hold. destruct (Hg _ _ _ _ Hx) as [Hm|Hov]; [|right; by eapply over_mono].
      destruct (Hkeep _ _ Hm) as [?|[-> Hc]]; [by left|right]. assert (m = n) as -> by congruence.
      exists o, now. split; [set_solver|by left].
    - done. }
  destruct (is_canceled_outcome o) eqn:Hc.
  - apply Hgen; simpl.
    + by intros m k [_ ?]%lookup_delete_Some.
    + intros m k Hm. destruct (decide (k = key)) as [->|]; [by right|left]. by apply lookup_delete_Some.
    + etrans; [|exact Hz]. apply map_subseteq_size, delete_subseteq.
  - apply (Hgen (ir_entries r)); [done|by left|done].
Qed.

Lemma replay_inv n m key identity t now r :
  registry_inv now r → Executing key identity m t ∈ ir_log r →
  registry_inv now (do_replay n m key identity r).2.
Proof.
  intros Hr Hin. unfold do_replay. destruct (ir_objects r !! m) as [[identity' [[o t']|]]|] eqn:Hm; try done.
  destruct Hr as [Hl Ho Hs He Hg Hz]. simpl. destruct (Ho m _ Hm) as (key' & t'' & [H1 H2 H3 H4]).
  destruct (H2 _ _ _ Hin) as (<- & -> & <-). simpl in *.
  assert (∀ k i x t', Executing k i x t' ∈ ir_log r ++ [Replayed key identity' n m o] →
                      Executing k i x t' ∈ ir_log r) as Hold.
  { intros k i x t1 [?|Hx%list_elem_of_singleton]%elem_of_app; [done|congruence]. }
  split; simpl; try done.
  - apply history_snoc; [done|]. split; [by exists t|]. exists t'. by apply H4.
  - intros x e Hx. destruct (Ho x e Hx) as (k & t1 & Hok). exists k, t1. eapply object_ok_grow; [done|done| |].
    + intros ??? ?%list_elem_of_singleton. congruence.
    + intros Hrun. by apply (oo_running _ _ _ _ _ Hok).
  - intros k i x t1 Hx%Hold. by eapply Hs.
  - intros k x Hx. destruct (He k x Hx) as (i & t1 & ?). exists i, t1. set_solver.
  - intros k i x t1 Hx%Hold. destruct (Hg _ _ _ _ Hx) as [?|Hov]; [by left|right]. by eapply over_mono.
Qed.

(** ** What one request's step leaves to the others *)

Definition registry_step (u : option nat) (r r' : idempotencyRegistry) : Prop :=
  ir_ttl r' = ir_ttl r ∧ (∃ l, ir_log r' = ir_log r ++ l)
  ∧ ∀ m, u ≠ Some m → ir_objects r' !! m = ir_objects r !! m.

Lemma registry_step_refl u r : registry_step u r r.
Proof. split_and!; [done|exists []; by rewrite app_nil_r|done]. Qed.

Lemma enter_step n key identity now r : registry_step (Some n) r (do_enter n key identity now r).2.
Proof.
  unfold do_enter. destruct (_ !! key); [exact (registry_step_refl _ r)|].
  destruct (_ <=? _); [exact (registry_step_refl _ r)|]. split_and!; [done|by eexists|].
  intros m Hm. simpl. rewrite lookup_insert_ne; [done|congruence].
Qed.
Lemma finish_step n key identity o now r : registry_step (Some n) r (do_finish n key identity o now r).
Proof.
  unfold do_finish. destruct (is_canceled_outcome o); (split_and!; [done|by eexists|]);
    intros m Hm; simpl; (rewrite lookup_insert_ne; [done|congruence]).
Qed.
Lemma replay_step n m key identity r : registry_step (Some n) r (do_replay n m key identity r).2.
Proof.
  unfold do_replay. destruct (ir_objects r !! m) as [[i [[o t]|]]|]; try exact (registry_step_refl _ r).
  split_and!; [done|by eexists|done].
Qed.

Lemma enter_outcome n key identity now r :
  match (do_enter n key identity now r).1 with
  | Execute => running (do_enter n key identity now r).2 n key identity
  | Existing m => registry_inv now r → ∃ t, Executing key identity m t ∈ ir_log (do_enter n key identity now r).2
  | _ => ir_objects (do_enter n key identity now r).2 !! n = ir_objects r !! n
  end.
Proof.
  unfold do_enter. destruct (ir_entries (pruneLocked now r) !! key) as [m|] eqn:Hk; cbn [fst snd].
  - case_bool_decide as Hi; [|done]. intros Hr. apply prune_inv in Hr.
    destruct (ri_entries _ _ Hr _ _ Hk) as (i & t & Hin). exists t.
    destruct (ir_objects (pruneLocked now r) !! m) as [e|] eqn:Hm; [|done].
    destruct (ri_objects _ _ Hr _ _ Hm) as (k & t' & [_ H2 _ _]).
    destruct (H2 _ _ _ Hin) as (-> & -> & ->). simpl in Hi. by injection Hi as <-.
  - destruct (_ <=? _); [done|]. split; simpl; [by rewrite lookup_insert_eq|]. exists now. set_solver.
Qed.
End registry.
Arguments idempotencyRegistry F V : clear implicits.
