(* ===== verification/ActionService.v ===== *)
(** * ActionService: mutations of the cluster

    Models src/internal/services/actions/service.go, deployment_yaml.go and
    resource_yaml.go: the calls that change objects of the cluster, each in its own
    goroutine, with the selection changing and requests being abandoned at any point. A
    call is a program of atomic steps; the cluster, the access reviewer and the random
    source answer at [Await]. [Guard] is the authorization service's, of which
    [Authorization] has the parts used here ([call_guard], [revalidated], [guard_finish]);
    what its review answers is an answer of the environment.

    The log records the steps the theorems speak about; nothing reads it. A request is
    numbered, and its number names its context. *)
From Stdlib Require Import Ascii String ZArith Lia.
From stdpp Require Import base gmap strings list.
From S2P Require Import Prelude Json Topics Unicode Cursor Ports Retry Pagination Collect Catalogue Access Authorization Selection Actions Threads Idempotency.
Local Open Scope string_scope.

Definition DefaultIdempotencyTTL : Z := 600000000000.

(** [int32(z)] *)
Definition int32 (z : Z) : Z := ((z + 2147483648) mod 4294967296 - 2147483648)%Z.

(** [Cleared] is a passed check of the generation inside a registered operation, [Current]
    one elsewhere; [Hook] is [OnGeneration] reading the operations, with the generations
    that were no longer current then. *)
Inductive event :=
| Reviewed (n : nat) (key : Key) (kind : OperationKind) (c : Capability)
| Invalidated (n : nat) (key : Key)
| Current (n : nat) (generation : string)
| Cleared (n : nat) (generation : string)
| Sent (n : nat) (op : Z) (c : command)
| Answered (n : nat) (version : string)
| Hook (n : nat) (current : string) (retired : gset string).
Definition event_request (e : event) : nat :=
  match e with
  | Reviewed n _ _ _ | Invalidated n _ | Current n _ | Cleared n _ | Sent n _ _ | Answered n _
  | Hook n _ _ => n
  end.

Record generationOperation := { go_generation : string; go_request : nat }.

Inductive call :=
| CallRestart (n : nat) (b : SelectionBinding) (route : RouteTarget) (key : string) (r : RestartRequest)
| CallScale (n : nat) (b : SelectionBinding) (route : RouteTarget) (r : ScaleRequest)
| CallDeletePod (n : nat) (b : SelectionBinding) (route : RouteTarget) (r : DeleteRequest)
| CallDeleteWorkload (n : nat) (b : SelectionBinding) (route : RouteTarget) (r : DeleteRequest)
| CallCronJobSuspend (n : nat) (b : SelectionBinding) (route : RouteTarget) (r : CronJobSuspendRequest)
| CallTriggerCronJob (n : nat) (b : SelectionBinding) (route : RouteTarget) (c : Confirmation)
| CallUpdateDeploymentYAML (n : nat) (b : SelectionBinding) (route : RouteTarget) (r : YAMLRequest)
| CallReadResourceYAML (n : nat) (b : SelectionBinding) (res : ScopeResolution) (route : RouteTarget)
| CallUpdateResourceYAML (n : nat) (b : SelectionBinding) (res : ScopeResolution) (route : RouteTarget) (r : YAMLRequest)
| CallOnGeneration (n : nat) (generation : string)
| CallShutdown (n : nat).
Definition request (t : call) : nat :=
  match t with
  | CallRestart n _ _ _ _ | CallScale n _ _ _ | CallDeletePod n _ _ _ | CallDeleteWorkload n _ _ _
  | CallCronJobSuspend n _ _ _ | CallTriggerCronJob n _ _ _ | CallUpdateDeploymentYAML n _ _ _
  | CallReadResourceYAML n _ _ _ | CallUpdateResourceYAML n _ _ _ _
  | CallOnGeneration n _ | CallShutdown n => n
  end.

Inductive question :=
| AskReview (n : nat) (key : Key) (kind : OperationKind)
| AskAdapter (n : nat) (op : Z) (c : command)
| AskRandom (n : nat)
| AskEntry (n m : nat).

Inductive env_move :=
| Tick (d : N)
| ContextEnds (n : nat) (e : ctx_error)
| RotateGeneration (generation : string).

Section service.
Context {F : Type} `{!ActionErrors F} `{!DnsNames}.
(** Whether the adapter has the YAML calls, and the hash of a request's canonical JSON. *)
Context (deployment_yaml resource_yaml : bool) (canonicalBodyHash : RestartRequest → option string).
Abbreviation err := (aerr F).

(** [extra] is the name of a created job or the text of a document. *)
Inductive answer :=
| ReviewIs (c : Capability)
| AdapterOk (version extra : string)
| AdapterErr (e : err)
| RandomIs (bytes : option (list Z))
| EntryDone
| ContextDone (e : ctx_error).

Record world := {
  a_generation : string; a_retired : gset string; a_now : Z; a_ctx : gmap nat ctx_error;
  a_restarts : idempotencyRegistry F ActionAcceptedDTO;
  a_nextOperation : Z; a_operations : gmap Z generationOperation; a_canceled : gset Z;
  a_shutdown : bool; a_audit : list AuditEvent; a_log : list event }.

Definition NewActionService (generation : string) (now ttl : Z) : world := {|
  a_generation := generation; a_retired := ∅; a_now := now; a_ctx := ∅;
  a_restarts := newIdempotencyRegistry ttl; a_nextOperation := 0; a_operations := ∅;
  a_canceled := ∅; a_shutdown := false; a_audit := []; a_log := [] |}.

Definition set_restarts (r : idempotencyRegistry F ActionAcceptedDTO) (w : world) : world := {|
  a_generation := a_generation w; a_retired := a_retired w; a_now := a_now w; a_ctx := a_ctx w; a_restarts := r;
  a_nextOperation := a_nextOperation w; a_operations := a_operations w;
  a_canceled := a_canceled w; a_shutdown := a_shutdown w; a_audit := a_audit w; a_log := a_log w |}.
Definition set_operations (next : Z) (ops : gmap Z generationOperation) (canceled : gset Z)
    (shutdown : bool) (w : world) : world := {|
  a_generation := a_generation w; a_retired := a_retired w; a_now := a_now w; a_ctx := a_ctx w; a_restarts := a_restarts w;
  a_nextOperation := next; a_operations := ops; a_canceled := canceled; a_shutdown := shutdown;
  a_audit := a_audit w; a_log := a_log w |}.
Definition emit (e : event) (w : world) : world := {|
  a_generation := a_generation w; a_retired := a_retired w; a_now := a_now w; a_ctx := a_ctx w; a_restarts := a_restarts w;
  a_nextOperation := a_nextOperation w; a_operations := a_operations w;
  a_canceled := a_canceled w; a_shutdown := a_shutdown w; a_audit := a_audit w;
  a_log := a_log w ++ [e] |}.
Definition add_audit (e : AuditEvent) (w : world) : world := {|
  a_generation := a_generation w; a_retired := a_retired w; a_now := a_now w; a_ctx := a_ctx w; a_restarts := a_restarts w;
  a_nextOperation := a_nextOperation w; a_operations := a_operations w;
  a_canceled := a_canceled w; a_shutdown := a_shutdown w; a_audit := a_audit w ++ [e];
  a_log := a_log w |}.

Abbreviation program := (prog world question answer).

(** [if err := p; err != nil { return err }; k] *)
Definition validateContext (n : nat) : program (option err) :=
  look (λ w, (λ e, translateError (CtxErr e)) <$> a_ctx w !! n).

Definition require (e : event) (generation : string) : program (option err) :=
  atomically (λ w,
    if String.eqb generation "" || negb (String.eqb (a_generation w) generation)
    then (Some generation_changed, w) else (None, emit e w)).
Definition requireCurrent (n : nat) (generation : string) : program (option err) :=
  require (Current n generation) generation.

(** [recordAudit] as a deferred call around [p]. *)
Definition audited {A} (operation : string) (target : MutationTarget) (p : program (result err A))
    : program (result err A) :=
  started ← look a_now;
  r ← p;
  _ ← modify (λ w, add_audit (audit_event (a_now w) started operation target
                     (match r with Err e => Some e | Ok _ => None end)) w);
  Ret r.

(** ** Operations and their contexts *)

Definition beginOperation (n : nat) (generation : string) : program (result err Z) :=
  atomically (λ w,
    if a_shutdown w then (Err server_shutdown, w)
    else
      let id := u64_succ (a_nextOperation w) in
      (Ok id, set_operations id
                (<[id := {| go_generation := generation; go_request := n |}]> (a_operations w))
                (a_canceled w ∖ {[id]}) (a_shutdown w) w)).

Definition cancel (id : Z) : program () :=
  modify (λ w, set_operations (a_nextOperation w) (a_operations w) ({[id]} ∪ a_canceled w) (a_shutdown w) w).
Definition release (id : Z) : program () :=
  _ ← cancel id;
  modify (λ w, set_operations (a_nextOperation w) (delete id (a_operations w)) (a_canceled w) (a_shutdown w) w).

(** A call of the adapter. *)
Definition send (n : nat) (id : Z) (c : command) : program (result err (string * string)) :=
  _ ← modify (emit (Sent n id c));
  a ← receive (AskAdapter n id c);
  match a with
  | AdapterOk version extra => _ ← modify (emit (Answered n version)); Ret (Ok (version, extra))
  | AdapterErr e => Ret (Err e)
  | _ => Ret (Err internal_error)
  end.

(** The function [guarded] hands to [Guard]. *)
Definition operate {A} (n : nat) (generation : string) (operation : Z → program (result err A))
    : program (result err A) :=
  e ← look (λ w, a_ctx w !! n);
  match e with
  | Some e => Ret (Err (CtxErr e))
  | None =>
    id ← beginOperation n generation;
    match id with
    | Err e => Ret (Err e)
    | Ok id =>
      r ← checked (require (Cleared n generation) generation)
            (r ← operation id;
             e ← requireCurrent n generation;
             Ret (match e with Some e => Err e | None => r end));
      _ ← release id;
      Ret r
    end
  end.

(** [Guard] from the review on: the operation, and the key dropped on a 403. *)
Definition reviewed {A} (n : nat) (generation : string) (key : Key) (kind : OperationKind)
    (operation : Z → program (result err A)) : program (result err A) :=
  a ← receive (AskReview n key kind);
  match a with
  | ReviewIs c =>
    _ ← modify (emit (Reviewed n key kind c));
    match revalidated key kind c with
    | GuardDone _ (Some e) => Ret (Err (translateError (AuthErr e)))
    | _ =>
      r ← operate n generation operation;
      match r with
      | Ok a => Ret (Ok a)
      | Err e =>
        now ← look a_now;
        _ ← when (guard_finish c (Some e) now).2 (modify (emit (Invalidated n key)));
        Ret (Err (translateError e))
      end
    end
  | _ => Ret (Err internal_error)
  end.

Definition guarded {A} (n : nat) (generation : string) (key : Key) (kind : OperationKind)
    (operation : Z → program (result err A)) : program (result err A) :=
  now ← look a_now;
  match call_guard key kind now with
  | GuardDone _ (Some e) => Ret (Err (translateError (AuthErr e)))
  | _ => reviewed n generation key kind operation
  end.

(** A guarded operation under an allowlisted capability. *)
Definition with_capability {A} (n : nat) (generation namespace id name : string)
    (operation : Z → program (result err A)) : program (result err A) :=
  match KeyForCapability generation namespace id name with
  | Err e => Ret (Err (translateError (AuthErr e)))
  | Ok key => guarded n generation key OperationMutation operation
  end.

Definition accepted (action : Action) (target : ActionTargetDTO) (generation : string)
    (version : option string) (replicas : option Z) : ActionAcceptedDTO := {|
  ac_Accepted := true; ac_Action := action; ac_Target := target; ac_Generation := generation;
  ac_ResourceVersion := version; ac_Replicas := replicas |}.

(** The result of a mutation that must report a version, and of one that may not. *)
Definition versioned (action : Action) (target : ActionTargetDTO) (generation : string)
    (replicas : option Z) (m : string * string) : program (result err ActionAcceptedDTO) :=
  Ret (if String.eqb m.1 "" then Err internal_error
       else Ok (accepted action target generation (Some m.1) replicas)).
Definition unversioned (action : Action) (target : ActionTargetDTO) (generation : string)
    (m : string * string) : program (result err ActionAcceptedDTO) :=
  Ret (Ok (accepted action target generation (if String.eqb m.1 "" then None else Some m.1) None)).

(** ** The calls *)

Definition restartCapabilityID (kind : string) : option string :=
  if String.eqb kind "deployments" then Some "deployments.restart"
  else if String.eqb kind "statefulsets" then Some "statefulsets.restart"
  else if String.eqb kind "daemonsets" then Some "daemonsets.restart" else None.

Definition deleteCapabilityID (kind : string) : option string :=
  match deletableWorkloadKinds kind with
  | None => None
  | Some k =>
    if String.eqb k "Deployment" then Some "deployments.delete"
    else if String.eqb k "StatefulSet" then Some "statefulsets.delete"
    else if String.eqb k "DaemonSet" then Some "daemonsets.delete"
    else if String.eqb k "Job" then Some "jobs.delete"
    else if String.eqb k "CronJob" then Some "cronjobs.delete"
    else if String.eqb k "ReplicaSet" then Some "replicasets.delete" else None
  end.

Definition restart_kind : err :=
  validationError [Violation "target.kind" "deployments_statefulsets_or_daemonsets"].

(** The command of a restart, by the route's kind. *)
Definition restart_command (kind : string) (t : MutationTarget) (version : string) (now : Z) : option command :=
  if String.eqb kind "deployments" then Some (RestartDeployment t version now)
  else if String.eqb kind "statefulsets" then Some (RestartStatefulSet t version now)
  else if String.eqb kind "daemonsets" then Some (RestartDaemonSet t version now) else None.

Definition restartOnce (n : nat) (b : SelectionBinding) (route : RouteTarget) (r : RestartRequest)
    : program (result err ActionAcceptedDTO) :=
  let dto := cf_Target (rs_Confirmation r) in
  let target := mutationTarget b dto in
  let generation := bind_Generation b in
  audited "restart" target
    (match restartCapabilityID (rt_Kind route) with
     | None => Ret (Err restart_kind)
     | Some id =>
       try (with_capability n generation (mt_Namespace target) id (mt_Name target) (λ op,
              now ← look a_now;
              match restart_command (rt_Kind route) target (rs_ExpectedResourceVersion r) now with
              | Some c => send n op c
              | None => Ret (Err restart_kind)
              end))
         (versioned ActionRestart dto generation None)
     end).

Definition restart_identity (b : SelectionBinding) (route : RouteTarget) (hash : string)
    : idempotencyIdentity := {|
  id_Method := "POST"; id_Path := canonicalWorkloadPath route "restart";
  id_ClusterProfileID := bind_ClusterProfileID b; id_Generation := bind_Generation b;
  id_BodyHash := hash |}.

Definition waited (a : answer) : option ctx_error :=
  match a with ContextDone e => Some e | _ => None end.

Definition Restart (n : nat) (b : SelectionBinding) (route : RouteTarget) (key : string) (r : RestartRequest)
    : program (result err (ActionAcceptedDTO * bool)) :=
  checked (validateContext n)
  (valid (validateRestart b route r)
  (valid (validateIdempotencyKey key)
  (checked (requireCurrent n (bind_Generation b))
  (match canonicalBodyHash r with
   | None => Ret (Err internal_error)
   | Some hash =>
     '(o, replayed) ← Do a_restarts set_restarts a_now AskEntry waited n key
                        (restart_identity b route hash) (restartOnce n b route r);
     Ret (match o with Ok dto => Ok (dto, replayed) | Err e => Err e end)
   end)))).

Definition Scale (n : nat) (b : SelectionBinding) (route : RouteTarget) (r : ScaleRequest)
    : program (result err ActionAcceptedDTO) :=
  let dto := cf_Target (sc_Confirmation r) in
  let target := mutationTarget b dto in
  let generation := bind_Generation b in
  checked (validateContext n)
  (valid (validateScale b route r)
  (checked (requireCurrent n generation)
  (audited "scale" target
    (let id := if String.eqb (rt_Kind route) "statefulsets" then "statefulsets.scale" else "deployments.scale" in
     try (with_capability n generation (mt_Namespace target) id (mt_Name target) (λ op,
            send n op (UpdateScale (with_kind (rt_Kind route) target) (int32 (sc_Replicas r)) (sc_ExpectedResourceVersion r))))
       (versioned ActionScale dto generation (Some (int32 (sc_Replicas r)))))))).

Definition DeletePod (n : nat) (b : SelectionBinding) (route : RouteTarget) (r : DeleteRequest)
    : program (result err ActionAcceptedDTO) :=
  let dto := cf_Target (de_Confirmation r) in
  let target := mutationTarget b dto in
  let generation := bind_Generation b in
  checked (validateContext n)
  (valid (validateDeletePod b route r)
  (checked (requireCurrent n generation)
  (audited "delete_pod" target
    (try (with_capability n generation (mt_Namespace target) "pods.delete" (mt_Name target) (λ op,
            send n op (DeletePodCommand target (de_ExpectedUID r) (de_ExpectedResourceVersion r))))
       (unversioned ActionDeletePod dto generation))))).

Definition DeleteWorkload (n : nat) (b : SelectionBinding) (route : RouteTarget) (r : DeleteRequest)
    : program (result err ActionAcceptedDTO) :=
  let dto := cf_Target (de_Confirmation r) in
  let target := mutationTarget b dto in
  let generation := bind_Generation b in
  checked (validateContext n)
  (valid (validateDeleteWorkload b route r)
  (checked (requireCurrent n generation)
  (audited "delete_workload" target
    (match deleteCapabilityID (rt_Kind route) with
     | None => Ret (Err (validationError [Violation "path.kind" "deletable_workload"]))
     | Some id =>
       try (with_capability n generation (mt_Namespace target) id (mt_Name target) (λ op,
              send n op (DeleteWorkloadCommand target (de_ExpectedUID r) (de_ExpectedResourceVersion r))))
         (unversioned ActionDeleteWorkload dto generation)
     end)))).

Definition UpdateCronJobSuspend (n : nat) (b : SelectionBinding) (route : RouteTarget) (r : CronJobSuspendRequest)
    : program (result err ActionAcceptedDTO) :=
  let dto := cf_Target (cs_Confirmation r) in
  let target := mutationTarget b dto in
  let generation := bind_Generation b in
  checked (validateContext n)
  (valid (validateCronJobSuspend b route r)
  (checked (requireCurrent n generation)
  (audited (if cs_Suspend r then "suspend_cronjob" else "resume_cronjob") target
    (try (with_capability n generation (mt_Namespace target) "cronjobs.suspend" (mt_Name target) (λ op,
            send n op (UpdateCronJobSuspendCommand target (cs_Suspend r) (cs_ExpectedResourceVersion r))))
       (versioned ActionUpdateCronJobSuspend dto generation None))))).

Definition suffix_alphabet : string := "abcdefghijklmnopqrstuvwxyz012345".
Definition randomSuffix (bytes : option (list Z)) : string :=
  match bytes with
  | None => "00000"
  | Some l => string_of_list_ascii ((λ v, default "a"%char (chars suffix_alphabet !! Z.to_nat (v mod 32))) <$> l)
  end.

(** The name of a created job is generated, so the review is for no name. *)
Definition TriggerCronJob (n : nat) (b : SelectionBinding) (route : RouteTarget) (c : Confirmation)
    : program (result err ActionAcceptedDTO) :=
  let target := mutationTarget b (cf_Target c) in
  let generation := bind_Generation b in
  checked (validateContext n)
  (valid (validateCronJobTrigger b route c)
  (checked (requireCurrent n generation)
  (audited "trigger_cronjob" target
    (match KeyForCapability generation (mt_Namespace target) "cronjobs.runnow" "" with
     | Err e => Ret (Err (translateError (AuthErr e)))
     | Ok key =>
       a ← receive (AskRandom n);
       let suffix := randomSuffix (match a with RandomIs bytes => bytes | _ => None end) in
       try (guarded n generation key OperationMutation (λ op,
              send n op (TriggerCronJobCommand target (mt_Name target +:+ "-manual-" +:+ suffix))))
         (λ m, if String.eqb m.2 "" then Ret (Err internal_error)
               else versioned ActionTriggerCronJob (cf_Target c) generation None m)
     end)))).

(** ** YAML documents *)

Definition not_implemented : err := publicError CodeInternal 501 false None.

Definition UpdateDeploymentYAML (n : nat) (b : SelectionBinding) (route : RouteTarget) (r : YAMLRequest)
    : program (result err ActionAcceptedDTO) :=
  let dto := cf_Target (ym_Confirmation r) in
  let target := mutationTarget b dto in
  let generation := bind_Generation b in
  checked (validateContext n)
  (valid (validateConfirmation b route (ym_Confirmation r) ActionUpdateDeployment ConsequenceUpdateDeployment
            "deployments" "Deployment")
  (valid (validateOpaquePrecondition "expectedUid" (ym_ExpectedUID r))
  (valid (validateOpaquePrecondition "expectedResourceVersion" (ym_ExpectedResourceVersion r))
  (valid (report (violated (String.eqb (ym_YAML r) "" || (MaximumDeploymentYAMLBytes <? len (ym_YAML r))%Z)
            "yaml" "bounded_deployment_document"))
  (checked (requireCurrent n generation)
  (if negb deployment_yaml then Ret (Err not_implemented)
   else audited "update_deployment" target
    (try (with_capability n generation (mt_Namespace target) "deployments.update" (mt_Name target) (λ op,
            send n op (DeploymentYAMLCommand target (ym_ExpectedUID r) (ym_ExpectedResourceVersion r) (ym_YAML r))))
       (versioned ActionUpdateDeployment dto generation None)))))))).

Definition yamlResource (b : SelectionBinding) (res : ScopeResolution) (route : RouteTarget) : result err Resource :=
  match validateBinding b with
  | Some e => Err e
  | None =>
    let refused := Err (validationError [Violation "path" "registered_resource_target"]) in
    match Lookup (rt_Kind route) with
    | None => refused
    | Some resource =>
      if negb (ValidName (rt_Name route))
         || res_Namespaced resource && negb (IsDNS1123Label (rt_Namespace route))
         || negb (res_Namespaced resource) && negb (String.eqb (rt_Namespace route) "")
      then refused
      else if res_Namespaced resource && negb (existsb (String.eqb (rt_Namespace route)) (res_Namespaces res))
      then Err (publicError CodeForbidden 403 false None)
      else Ok resource
    end
  end.

Definition yamlKey (b : SelectionBinding) (route : RouteTarget) (resource : Resource) (verb : string) : Key := {|
  k_Generation := bind_Generation b; k_Namespace := rt_Namespace route; k_APIGroup := res_Group resource;
  k_Resource := res_Resource resource; k_Subresource := ""; k_Verb := verb;
  k_ResourceName := rt_Name route |}.

Definition ReadResourceYAML (n : nat) (b : SelectionBinding) (res : ScopeResolution) (route : RouteTarget)
    : program (result err ResourceYAMLDocument) :=
  let generation := bind_Generation b in
  checked (validateContext n)
  (match yamlResource b res route with
   | Err e => Ret (Err e)
   | Ok resource =>
     if negb resource_yaml then Ret (Err not_implemented)
     else
       let target := mutationTarget b {| tg_ClusterProfileID := 0; tg_Context := "";
                       tg_Namespace := rt_Namespace route; tg_Kind := res_Kind resource;
                       tg_Name := rt_Name route |} in
       try (guarded n generation (yamlKey b route resource "get") OperationRead (λ op,
              send n op (ReadResourceYAMLCommand target (rt_Kind route))))
         (λ m, Ret (Ok {| yd_YAML := m.2; yd_Kind := res_Kind resource;
                          yd_UpdateCapability := "yaml." +:+ res_Collection resource +:+ ".update";
                          yd_Generation := generation |}))
   end).

(** The confirmation of a YAML update matches the action, the route and the selection. *)
Definition yaml_confirmed (b : SelectionBinding) (route : RouteTarget) (resource : Resource) (c : Confirmation) : bool :=
  let t := cf_Target c in
  cf_Confirmed c && bool_decide (cf_Action c = ActionUpdateResource)
  && String.eqb (cf_ConsequenceCode c) ConsequenceUpdateResource
  && String.eqb (cf_ExpectedGeneration c) (bind_Generation b)
  && (tg_ClusterProfileID t =? bind_ClusterProfileID b)%Z && String.eqb (tg_Context t) (bind_Context b)
  && String.eqb (tg_Namespace t) (rt_Namespace route) && String.eqb (tg_Name t) (rt_Name route)
  && String.eqb (tg_Kind t) (res_Kind resource).

Definition UpdateResourceYAML (n : nat) (b : SelectionBinding) (res : ScopeResolution) (route : RouteTarget)
    (r : YAMLRequest) : program (result err ActionAcceptedDTO) :=
  let dto := cf_Target (ym_Confirmation r) in
  let target := mutationTarget b dto in
  let generation := bind_Generation b in
  checked (validateContext n)
  (match yamlResource b res route with
   | Err e => Ret (Err e)
   | Ok resource =>
     valid (report (violated (negb (yaml_confirmed b route resource (ym_Confirmation r)))
              "confirmation" "matches_active_target_and_generation"))
     (valid (validateOpaquePrecondition "expectedUid" (ym_ExpectedUID r))
     (valid (validateOpaquePrecondition "expectedResourceVersion" (ym_ExpectedResourceVersion r))
     (valid (report (violated (String.eqb (ym_YAML r) "" || (MaximumResourceYAMLBytes <? len (ym_YAML r))%Z)
               "yaml" "bounded_resource_document"))
     (if negb resource_yaml then Ret (Err not_implemented)
      else audited "update_resource_yaml" target
        (try (guarded n generation (yamlKey b route resource "update") OperationMutation (λ op,
                send n op (ResourceYAMLCommand target (ym_ExpectedUID r) (ym_ExpectedResourceVersion r)
                             (ym_YAML r) (rt_Kind route))))
           (versioned ActionUpdateResource dto generation None))))))
   end).

(** ** Generation changes and shutdown *)

Fixpoint cancel_all (l : list Z) : program () :=
  match l with [] => Ret tt | id :: l => _ ← cancel id; cancel_all l end.

Definition outdated (current : string) (w : world) : list Z :=
  (map_to_list (filter (λ p : Z * generationOperation, go_generation p.2 ≠ current) (a_operations w))).*1.

Definition OnGeneration (n : nat) (current : string) : program () :=
  ids ← atomically (λ w, (outdated current w, emit (Hook n current (a_retired w)) w));
  cancel_all ids.

(** Whether this call was the first. *)
Definition Shutdown : program bool :=
  ids ← atomically (λ w,
    if a_shutdown w then (None, w)
    else (Some (map_to_list (a_operations w)).*1,
          set_operations (a_nextOperation w) (a_operations w) (a_canceled w) true w));
  match ids with
  | None => Ret false
  | Some ids => _ ← cancel_all ids; Ret true
  end.

(** ** The system *)

Inductive reply :=
| ActionReply (r : result err (ActionAcceptedDTO * bool))
| DocumentReply (r : result err ResourceYAMLDocument)
| HookReply
| ShutdownReply (first : bool).

Abbreviation round := (program (outcome Empty_set reply)).

Definition respond (p : program (result err ActionAcceptedDTO)) : round :=
  r ← p; Ret (Done (ActionReply (match r with Ok dto => Ok (dto, false) | Err e => Err e end))).

Definition call_code (t : call) : round :=
  match t with
  | CallRestart n b route key r => x ← Restart n b route key r; Ret (Done (ActionReply x))
  | CallScale n b route r => respond (Scale n b route r)
  | CallDeletePod n b route r => respond (DeletePod n b route r)
  | CallDeleteWorkload n b route r => respond (DeleteWorkload n b route r)
  | CallCronJobSuspend n b route r => respond (UpdateCronJobSuspend n b route r)
  | CallTriggerCronJob n b route c => respond (TriggerCronJob n b route c)
  | CallUpdateDeploymentYAML n b route r => respond (UpdateDeploymentYAML n b route r)
  | CallReadResourceYAML n b res route => x ← ReadResourceYAML n b res route; Ret (Done (DocumentReply x))
  | CallUpdateResourceYAML n b res route r => respond (UpdateResourceYAML n b res route r)
  | CallOnGeneration n g => _ ← OnGeneration n g; Ret (Done HookReply)
  | CallShutdown n => first ← Shutdown; Ret (Done (ShutdownReply first))
  end.

(** An entry's [done], or the end of the waiting request's context. *)
Definition answered (q : question) (w : world) (a : answer) : bool :=
  match q, a with
  | AskReview _ _ _, ReviewIs _ => true
  | AskAdapter _ _ _, (AdapterOk _ _ | AdapterErr _) => true
  | AskRandom _, RandomIs _ => true
  | AskEntry _ m, EntryDone =>
    match ir_objects (a_restarts w) !! m with Some {| ie_result := Some _ |} => true | _ => false end
  | AskEntry n _, ContextDone e => bool_decide (a_ctx w !! n = Some e)
  | _, _ => false
  end.

(** The clock, the end of a request's context, and the selection coordinator publishing a
    generation: never one that was current before. *)
Definition environment (m : env_move) (w : world) : world :=
  match m with
  | Tick d => {|
      a_generation := a_generation w; a_retired := a_retired w; a_now := (a_now w + Z.of_N d)%Z;
      a_ctx := a_ctx w; a_restarts := a_restarts w; a_nextOperation := a_nextOperation w;
      a_operations := a_operations w; a_canceled := a_canceled w; a_shutdown := a_shutdown w;
      a_audit := a_audit w; a_log := a_log w |}
  | ContextEnds n e => {|
      a_generation := a_generation w; a_retired := a_retired w; a_now := a_now w;
      a_ctx := match a_ctx w !! n with Some _ => a_ctx w | None => <[n := e]> (a_ctx w) end;
      a_restarts := a_restarts w; a_nextOperation := a_nextOperation w;
      a_operations := a_operations w; a_canceled := a_canceled w; a_shutdown := a_shutdown w;
      a_audit := a_audit w; a_log := a_log w |}
  | RotateGeneration g =>
    if bool_decide (g ∈ {[a_generation w]} ∪ a_retired w) then w
    else {|
      a_generation := g; a_retired := {[a_generation w]} ∪ a_retired w; a_now := a_now w;
      a_ctx := a_ctx w; a_restarts := a_restarts w; a_nextOperation := a_nextOperation w;
      a_operations := a_operations w; a_canceled := a_canceled w; a_shutdown := a_shutdown w;
      a_audit := a_audit w; a_log := a_log w |}
  end.

(** The reviewer answers with one of the three decisions. *)
Definition decision_known (q : question) (a : answer) : Prop :=
  match a with
  | ReviewIs c => cap_Decision c ∈ [DecisionAllowed; DecisionDenied; DecisionUnknown]
  | _ => True
  end.

Definition action_system : @system world question answer call env_move Empty_set reply := {|
  ready := answered;
  code := call_code;
  enter := λ h, match h with end;
  env := environment;
  born := λ _ _, [];
  owner := λ _, None;
  caller := λ t, Some (request t);
  count := λ _, 0;
  callable := λ _, True;
  env_ok := decision_known |}.
End service.
