(* ===== verification/ActionSafety.v ===== *)
(** * ActionSafety: what the action service guarantees

    The properties of the calls of [ActionService] under every interleaving, with the
    rely/guarantee logic of [Threads]: a command reaches the cluster only for a valid
    request, after a review that allowed it and while its generation was current; a restart
    runs at most once per idempotency key; operations of retired generations are canceled;
    nothing is registered after shutdown. One schedule shows where the idempotency of a
    restart ends. *)
From Stdlib Require Import Ascii String ZArith Lia.
From stdpp Require Import base gmap strings list.
From S2P Require Import Prelude Json Topics Unicode Cursor Ports Retry Pagination Collect Catalogue Access Authorization Selection Actions Threads Idempotency ActionService.
Local Open Scope string_scope.
Local Open Scope list_scope.

Definition is_restart (c : command) : bool :=
  match c with RestartDeployment _ _ _ | RestartStatefulSet _ _ _ | RestartDaemonSet _ _ _ => true | _ => false end.

Section safety.
Context {F : Type} `{!ActionErrors F} `{!DnsNames}.
Context (deployment_yaml resource_yaml : bool) (canonicalBodyHash : RestartRequest → option string).
Abbreviation err := (aerr F).
Abbreviation world := (@world F).
Abbreviation sys := (action_system deployment_yaml resource_yaml canonicalBodyHash).

(** ** What a step of one request may change *)

(** The registered operations of the generations [R] that may have reached the cluster are
    canceled, but for [l]. *)
Definition spared (R : gset string) (l : list Z) (s : world) : Prop :=
  ∀ id o, a_operations s !! id = Some o → go_generation o ∈ R →
          Cleared (go_request o) (go_generation o) ∈ a_log s → id ∈ a_canceled s ∨ id ∈ l.

Record act_trans (u : option nat) (s s' : world) : Prop := {
  at_reg : registry_step u (a_restarts s) (a_restarts s');
  at_now : (a_now s ≤ a_now s')%Z;
  at_log : ∃ l, a_log s' = a_log s ++ l ∧ Forall (λ e, Some (event_request e) = u) l;
  at_ops : ∀ id o, a_operations s' !! id = Some o → a_operations s !! id = Some o ∨ Some (go_request o) = u;
  at_retired : a_retired s ⊆ a_retired s';
  at_spared : ∀ R l, R ⊆ a_retired s → spared R l s → spared R l s';
  at_shutdown : a_shutdown s = true →
    a_shutdown s' = true ∧ dom (a_operations s') ⊆ dom (a_operations s) ∧ a_canceled s ⊆ a_canceled s' }.

(** A request sends at most one command, and a restart only while it executes. *)
Definition sent_once (a : list event) (e : event) : Prop :=
  match e with Sent n _ _ => ∀ id c, Sent n id c ∉ a | _ => True end.

Record act_inv (s : world) : Prop := {
  ai_registry : registry_inv (a_now s) (a_restarts s);
  ai_current : a_generation s ∉ a_retired s;
  ai_sent : history_ok sent_once (a_log s);
  ai_restart : ∀ n id c, Sent n id c ∈ a_log s → is_restart c = true →
               ∃ key identity t, Executing key identity n t ∈ ir_log (a_restarts s) }.

(** ** What a request is about *)

Definition to_key (kind : OperationKind) (r : result PublicError Key) : option (Key * OperationKind) :=
  match r with Ok key => Some (key, kind) | Err _ => None end.

Definition binding_of (t : call) : option (SelectionBinding * RouteTarget) :=
  match t with
  | CallRestart _ b route _ _ | CallScale _ b route _ | CallDeletePod _ b route _
  | CallDeleteWorkload _ b route _ | CallCronJobSuspend _ b route _ | CallTriggerCronJob _ b route _
  | CallUpdateDeploymentYAML _ b route _ | CallReadResourceYAML _ b _ route
  | CallUpdateResourceYAML _ b _ route _ => Some (b, route)
  | CallOnGeneration _ _ | CallShutdown _ => None
  end.

(** The access a request needs. *)
Definition key_of (t : call) : option (Key * OperationKind) :=
  match t with
  | CallRestart _ b route _ r =>
    id ← restartCapabilityID (rt_Kind route);
    to_key OperationMutation (KeyForCapability (bind_Generation b) (rt_Namespace route) id (rt_Name route))
  | CallScale _ b route r =>
    to_key OperationMutation (KeyForCapability (bind_Generation b) (rt_Namespace route)
      (if String.eqb (rt_Kind route) "statefulsets" then "statefulsets.scale" else "deployments.scale") (rt_Name route))
  | CallDeletePod _ b route r =>
    to_key OperationMutation (KeyForCapability (bind_Generation b) (rt_Namespace route) "pods.delete" (rt_Name route))
  | CallDeleteWorkload _ b route r =>
    id ← deleteCapabilityID (rt_Kind route);
    to_key OperationMutation (KeyForCapability (bind_Generation b) (rt_Namespace route) id (rt_Name route))
  | CallCronJobSuspend _ b route r =>
    to_key OperationMutation (KeyForCapability (bind_Generation b) (rt_Namespace route) "cronjobs.suspend" (rt_Name route))
  | CallTriggerCronJob _ b route _ =>
    to_key OperationMutation (KeyForCapability (bind_Generation b) (rt_Namespace route) "cronjobs.runnow" "")
  | CallUpdateDeploymentYAML _ b route _ =>
    to_key OperationMutation (KeyForCapability (bind_Generation b) (rt_Namespace route) "deployments.update" (rt_Name route))
  | CallReadResourceYAML _ b _ route =>
    resource ← Lookup (rt_Kind route); Some (yamlKey b route resource "get", OperationRead)
  | CallUpdateResourceYAML _ b _ route _ =>
    resource ← Lookup (rt_Kind route); Some (yamlKey b route resource "update", OperationMutation)
  | CallOnGeneration _ _ | CallShutdown _ => None
  end.

(** The target on the route, in the selection the request was made in. *)
Definition target_of (b : SelectionBinding) (route : RouteTarget) (kind : string) : MutationTarget := {|
  mt_ClusterProfileID := bind_ClusterProfileID b; mt_Context := bind_Context b;
  mt_Generation := bind_Generation b; mt_Namespace := rt_Namespace route; mt_Kind := kind;
  mt_Name := rt_Name route |}.

(** The command a request asks for, if it is valid. *)
Definition asks_for (t : call) (c : command) : Prop :=
  match t with
  | CallRestart _ b route key r =>
    validateRestart (F := F) b route r = None ∧ validateIdempotencyKey (F := F) key = None
    ∧ ∃ kind now, restartableWorkloadKinds (rt_Kind route) = Some kind
      ∧ restart_command (rt_Kind route) (target_of b route kind) (rs_ExpectedResourceVersion r) now = Some c
  | CallScale _ b route r =>
    validateScale (F := F) b route r = None ∧ (0 ≤ sc_Replicas r ≤ MaxInt32)%Z
    ∧ c = UpdateScale (target_of b route (rt_Kind route)) (sc_Replicas r) (sc_ExpectedResourceVersion r)
  | CallDeletePod _ b route r =>
    validateDeletePod (F := F) b route r = None
    ∧ c = DeletePodCommand (target_of b route "Pod") (de_ExpectedUID r) (de_ExpectedResourceVersion r)
  | CallDeleteWorkload _ b route r =>
    validateDeleteWorkload (F := F) b route r = None
    ∧ ∃ kind, deletableWorkloadKinds (rt_Kind route) = Some kind
      ∧ c = DeleteWorkloadCommand (target_of b route kind) (de_ExpectedUID r) (de_ExpectedResourceVersion r)
  | CallCronJobSuspend _ b route r =>
    validateCronJobSuspend (F := F) b route r = None
    ∧ c = UpdateCronJobSuspendCommand (target_of b route "CronJob") (cs_Suspend r) (cs_ExpectedResourceVersion r)
  | CallTriggerCronJob _ b route cf =>
    validateCronJobTrigger (F := F) b route cf = None
    ∧ ∃ suffix, c = TriggerCronJobCommand (target_of b route "CronJob") (rt_Name route +:+ "-manual-" +:+ suffix)
  | CallUpdateDeploymentYAML _ b route r =>
    validateConfirmation (F := F) b route (ym_Confirmation r) ActionUpdateDeployment
      ConsequenceUpdateDeployment "deployments" "Deployment" = None
    ∧ (0 < len (ym_YAML r) ≤ MaximumDeploymentYAMLBytes)%Z
    ∧ c = DeploymentYAMLCommand (target_of b route "Deployment") (ym_ExpectedUID r)
            (ym_ExpectedResourceVersion r) (ym_YAML r)
  | CallReadResourceYAML _ b res route =>
    ∃ resource, yamlResource (F := F) b res route = Ok resource
      ∧ c = ReadResourceYAMLCommand (target_of b route (res_Kind resource)) (rt_Kind route)
  | CallUpdateResourceYAML _ b res route r =>
    ∃ resource, yamlResource (F := F) b res route = Ok resource
      ∧ yaml_confirmed b route resource (ym_Confirmation r) = true
      ∧ (0 < len (ym_YAML r) ≤ MaximumResourceYAMLBytes)%Z
      ∧ c = ResourceYAMLCommand (target_of b route (res_Kind resource)) (ym_ExpectedUID r)
              (ym_ExpectedResourceVersion r) (ym_YAML r) (rt_Kind route)
  | CallOnGeneration _ _ | CallShutdown _ => False
  end.

(** ** What a request knows *)

Definition grows (P : list event → Prop) : Prop := ∀ l l', P l → P (l ++ l').

(** This request's review of [key] let the operation run. *)
Definition permits (kind : OperationKind) (c : Capability) : Prop :=
  cap_Decision c = DecisionAllowed ∨ kind = OperationRead ∧ cap_Decision c = DecisionUnknown.
Definition allowed (n : nat) (key : Key) (kind : OperationKind) (l : list event) : Prop :=
  ∃ c, Reviewed n key kind c ∈ l ∧ permits kind c.
(** Its generation was current at a check after the review. *)
Definition cleared (n : nat) (key : Key) (kind : OperationKind) (generation : string) (l : list event) : Prop :=
  ∃ a b, l = a ++ Cleared n generation :: b ∧ allowed n key kind a.

Lemma allowed_grows n key kind : grows (allowed n key kind).
Proof. intros l l' (c & Hin & Hp). exists c. split; [set_solver|done]. Qed.
Lemma cleared_grows n key kind g : grows (cleared n key kind g).
Proof. intros l l' (a & b & -> & Ha). exists a, (b ++ l'). by rewrite <- app_assoc. Qed.

(** No command sent, no check passed, no operation registered. *)
Definition before (n : nat) (s : world) : Prop :=
  (∀ id c, Sent n id c ∉ a_log s) ∧ (∀ g, Cleared n g ∉ a_log s)
  ∧ ∀ id o, a_operations s !! id = Some o → go_request o ≠ n.
Definition registered (n : nat) (id : Z) (generation : string) (s : world) : Prop :=
  ∀ id' o, a_operations s !! id' = Some o → go_request o = n → id' = id ∧ go_generation o = generation.
Definition unregistered (n : nat) (s : world) : Prop :=
  ∀ id o, a_operations s !! id = Some o → go_request o ≠ n.
Definition unsent (n : nat) (s : world) : Prop := ∀ id c, Sent n id c ∉ a_log s.

Definition act_unused (n : nat) (s : world) : Prop :=
  ir_objects (a_restarts s) !! n = None ∧ (∀ e, e ∈ a_log s → event_request e ≠ n) ∧ unregistered n s.

(** What the reply to a restart says about the registry. *)
Definition restart_replied (n : nat) (b : SelectionBinding) (route : RouteTarget) (key : string) (req : RestartRequest)
    (r : result err (ActionAcceptedDTO * bool)) (s : world) : Prop :=
  match r with
  | Ok (dto, true) => ∃ hash m, canonicalBodyHash req = Some hash
      ∧ Replayed key (restart_identity b route hash) n m (Ok dto) ∈ ir_log (a_restarts s)
  | Ok (dto, false) => ∃ t, Finished key n (Ok dto) t ∈ ir_log (a_restarts s)
  | Err _ => True
  end.

(** The command was performed, and the cluster answered with [version]. *)
Definition performed (t : call) (version : string) (s : world) : Prop :=
  ∃ id c, asks_for t c ∧ Sent (request t) id c ∈ a_log s ∧ Answered (request t) version ∈ a_log s.
Definition confirmed_by (t : call) (dto : ActionAcceptedDTO) (s : world) : Prop :=
  ∃ v, performed t v s ∧ ac_ResourceVersion dto = (if String.eqb v "" then None else Some v).

Definition act_quiet (t : call) (q : question) (s : world) : Prop :=
  match q with
  | AskAdapter n id c =>
    n = request t ∧ asks_for t c
    ∧ ∃ key kind, key_of t = Some (key, kind)
      ∧ cleared n key kind (mt_Generation (command_target c)) (a_log s)
  | _ => True
  end.

Definition act_spec : @spec world question call Empty_set (@reply F) := {|
  invariant := act_inv;
  trans := λ u s s', act_trans (request <$> u) s s';
  quiet := act_quiet;
  pre := λ t s, act_unused (request t) s;
  at_head := λ _ (h : Empty_set) _, match h with end;
  post := λ t r s,
    match t, r with
    | CallOnGeneration n g, HookReply => ∀ R, Hook n g R ∈ a_log s → R ⊆ a_retired s ∧ spared (R ∖ {[g]}) [] s
    | CallShutdown _, ShutdownReply true =>
      a_shutdown s = true ∧ ∀ id, is_Some (a_operations s !! id) → id ∈ a_canceled s
    | CallShutdown _, ShutdownReply false => True
    | CallOnGeneration _ _, _ | CallShutdown _, _ => False
    | _, ActionReply x =>
      unregistered (request t) s
      ∧ (∀ dto, x = Ok (dto, false) → confirmed_by t dto s)
      ∧ match t with
        | CallRestart n b route key req => restart_replied n b route key req x s
        | _ => ∀ dto, x ≠ Ok (dto, true)
        end
    | _, _ => unregistered (request t) s
    end;
  unused := act_unused |}.

Abbreviation asafe := (safe sys act_spec).
Abbreviation astep := (step_ok sys act_spec).

(** ** Assertions of one request *)

Abbreviation mine := (kept act_trans).

Lemma act_mine_stable t P : mine (request t) P → stable sys act_spec t P.
Proof.
  intros HP u s s' Hu _ Ht. refine (HP _ _ _ _ Ht). destruct u as [u|]; simpl; [|done].
  destruct Hu as [_ Hc]. intros [= Heq]. by apply (Hc (request t)); simpl; [done|congruence].
Qed.

Lemma mine_log n (P : list event → Prop) : grows P → mine n (λ s, P (a_log s)).
Proof. intros HP u s s' _ Ht Hs. destruct (at_log _ _ _ Ht) as (l & -> & _). by apply HP. Qed.

Lemma mine_no_event n (Q : event → Prop) :
  (∀ e, Q e → event_request e = n) → mine n (λ s, ∀ e, Q e → e ∉ a_log s).
Proof.
  intros HQ u s s' Hu Ht Hs e He. destruct (at_log _ _ _ Ht) as (l & -> & Hl).
  intros [Hin|Hin]%elem_of_app; [by apply (Hs e)|]. rewrite Forall_forall in Hl.
  apply Hu. rewrite <- (Hl e Hin). by rewrite (HQ e He).
Qed.
Lemma unsent_mine n : mine n (unsent n).
Proof.
  intros u s s' Hu Ht Hs id c.
  apply (mine_no_event n (λ e, e = Sent n id c)) with u s; [by intros e ->|done|done| |done].
  intros e ->. apply Hs.
Qed.
Lemma uncleared_mine n : mine n (λ s, ∀ g, Cleared n g ∉ a_log s).
Proof.
  intros u s s' Hu Ht Hs g.
  apply (mine_no_event n (λ e, e = Cleared n g)) with u s; [by intros e ->|done|done| |done].
  intros e ->. apply Hs.
Qed.
Lemma unregistered_mine n : mine n (unregistered n).
Proof.
  intros u s s' Hu Ht Hs id o Ho. destruct (at_ops _ _ _ Ht id o Ho) as [Ho'|Ho']; [by eapply Hs|congruence].
Qed.
Lemma registered_mine n id g : mine n (registered n id g).
Proof.
  intros u s s' Hu Ht Hs id' o Ho Hn. destruct (at_ops _ _ _ Ht id' o Ho) as [Ho'|Ho']; [by eapply Hs|congruence].
Qed.
Lemma before_mine n : mine n (before n).
Proof. apply kept_and; [apply unsent_mine|apply kept_and; [apply uncleared_mine|apply unregistered_mine]]. Qed.

Lemma object_mine n (P : option idempotencyEntry → Prop) : mine n (λ s, P (ir_objects (a_restarts s) !! n)).
Proof. intros u s s' Hu Ht Hs. destruct (at_reg _ _ _ Ht) as (_ & _ & Ho). by rewrite Ho. Qed.
Lemma reglog_mine n e : mine n (λ s, e ∈ ir_log (a_restarts s)).
Proof. intros u s s' Hu Ht Hs. destruct (at_reg _ _ _ Ht) as (_ & [l ->] & _). set_solver. Qed.
Lemma running_mine n key identity : mine n (λ s, running (a_restarts s) n key identity).
Proof.
  intros u s s' Hu Ht [Ho [t Hin]]. split; [by eapply (object_mine n (λ o, o = Some _)) with u s|].
  exists t. by eapply reglog_mine.
Qed.
Lemma elem_mine n e : mine n (λ s, e ∈ a_log s).
Proof. apply (mine_log n (λ l, e ∈ l)). intros l l'. set_solver. Qed.
Lemma performed_mine t v : mine (request t) (performed t v).
Proof. apply kept_exists. intros id. apply kept_exists. intros c. auto using kept_and, kept_const, elem_mine. Qed.
Lemma confirmed_mine t dto : mine (request t) (confirmed_by t dto).
Proof. apply kept_exists. intros v. auto using kept_and, kept_const, performed_mine. Qed.
Lemma unused_mine n : mine n (act_unused n).
Proof.
  apply kept_and; [by apply (object_mine n (λ o, o = None))|]. apply kept_and; [|apply unregistered_mine].
  intros u s s' Hu Ht Hs e He Hn.
  refine (mine_no_event n (λ e', e' = e) _ u s s' Hu Ht _ e eq_refl He); [by intros ? ->|].
  intros e' -> Hin. by apply (Hs e).
Qed.
Lemma unused_before n s : act_unused n s → before n s.
Proof.
  intros (_ & Hl & Hops). split_and!; [|intros g Hin; by apply (Hl _ Hin)|done].
  intros id c Hin. by apply (Hl _ Hin).
Qed.

(** ** Steps *)

Lemma spared_same R l s s' :
  a_operations s' = a_operations s → a_canceled s' = a_canceled s → a_log s' = a_log s →
  spared R l s → spared R l s'.
Proof. intros Ho Hc Hl Hs id o. rewrite Ho, Hc, Hl. apply Hs. Qed.

(** A step that leaves operations and log alone. *)
Lemma plain_trans u s s' :
  registry_step u (a_restarts s) (a_restarts s') → (a_now s ≤ a_now s')%Z →
  a_log s' = a_log s → a_operations s' = a_operations s → a_retired s ⊆ a_retired s' →
  a_canceled s' = a_canceled s → a_shutdown s' = a_shutdown s → act_trans u s s'.
Proof.
  intros Hr Hn Hl Ho Hre Hc Hs. split; try done.
  - exists []. by rewrite Hl, app_nil_r.
  - intros id o. rewrite Ho. by left.
  - intros R l _. by apply spared_same.
  - intros Hd. by rewrite Hs, Ho, Hc.
Qed.

Lemma trans_refl u s : act_trans u s s.
Proof. by apply plain_trans; [apply registry_step_refl|lia|..]. Qed.

Lemma act_stay_ok t s : act_inv s → astep t s s.
Proof. intros Hi. split_and!; [done|apply trans_refl|constructor]. Qed.

Lemma act_look_safe {A} t (L : world → Prop) (f : world → A) :
  mine (request t) L → asafe t L (look f) (λ _, L).
Proof. intros HL. apply safe_look; [apply act_stay_ok|by apply act_mine_stable]. Qed.

Lemma audit_safe t (L : world → Prop) (f : world → AuditEvent) :
  mine (request t) L → (∀ s e, L s → L (add_audit e s)) →
  asafe t L (modify (λ w, add_audit (f w) w)) (λ _, L).
Proof.
  intros HL Ha. apply safe_modify; [by apply act_mine_stable|]. intros s Hi Hs. split; [|by apply Ha].
  split_and!; [by destruct Hi|apply plain_trans; [apply registry_step_refl|simpl; lia|done..]|constructor].
Qed.

(** Recording an event of this request. *)
Lemma emit_ok t e s :
  act_inv s → event_request e = request t →
  (∀ g, e = Cleared (request t) g → g = a_generation s) →
  (∀ n id c, e = Sent n id c → unsent n s
    ∧ (is_restart c = true → ∃ key identity t, Executing key identity n t ∈ ir_log (a_restarts s))) →
  astep (Some t) s (emit e s).
Proof.
  intros [Hr Hc Hs Hx] He Hcl Hse. split_and!; [split|split|constructor]; simpl; try done.
  - apply history_snoc; [done|]. destruct e; try done. simpl. by destruct (Hse _ _ _ eq_refl).
  - intros n id c [Hin|Hin%list_elem_of_singleton]%elem_of_app; [by eapply Hx|].
    by destruct (Hse _ _ _ (eq_sym Hin)).
  - apply registry_step_refl.
  - exists [e]. split; [done|]. constructor; [by rewrite He|constructor].
  - by left.
  - intros R l HR Hsp id o Ho Hg Hin. simpl in Ho, Hin. apply elem_of_app in Hin as [Hin|Hin%list_elem_of_singleton].
    + by apply (Hsp id o).
    + destruct Hc. apply HR. rewrite <- (Hcl (go_generation o)); [done|].
      rewrite <- Hin. f_equal. rewrite <- He, <- Hin. done.
Qed.

Lemma emit_safe t e (L L' : world → Prop) :
  event_request e = request t → (∀ g, e ≠ Cleared (request t) g) → (∀ n id c, e ≠ Sent n id c) →
  mine (request t) L' → (∀ s, act_inv s → L s → L' (emit e s)) →
  asafe t L (modify (emit e)) (λ _, L').
Proof.
  intros He Hc Hs HL Hx. apply safe_modify; [by apply act_mine_stable|]. intros s Hi HLs.
  split; [|by apply Hx]. apply emit_ok; [done|done|intros g Hg; by destruct (Hc g)|].
  intros n id c Hn. by destruct (Hs n id c).
Qed.

(** Registry steps of this request. *)
Lemma restarts_ok t r s :
  act_inv s → registry_inv (a_now s) r → registry_step (Some (request t)) (a_restarts s) r →
  astep (Some t) s (set_restarts r s).
Proof.
  intros [Hr Hc Hs Hx] Hr' Hst. split_and!; [split|apply plain_trans|constructor]; simpl; try done; try lia.
  intros n id c Hin Hc'. destruct (Hx n id c Hin Hc') as (k & i & t' & Hin').
  destruct Hst as (_ & [l ->] & _). exists k, i, t'. set_solver.
Qed.

(** Operations. *)
Lemma begin_ok t g s :
  act_inv s → before (request t) s → a_shutdown s = false →
  let id := u64_succ (a_nextOperation s) in
  astep (Some t) s (set_operations id
    (<[id := {| go_generation := g; go_request := request t |}]> (a_operations s))
    (a_canceled s ∖ {[id]}) (a_shutdown s) s).
Proof.
  intros Hi (_ & Hb & _) Hsh id. split_and!; [by destruct Hi|split|constructor]; simpl; try done.
  - apply registry_step_refl.
  - exists []. by rewrite app_nil_r.
  - intros id' o. rewrite lookup_insert_Some. intros [[_ <-]|[_ ?]]; [by right|by left].
  - intros R l _ Hsp id' o. simpl. rewrite lookup_insert_Some. intros [[_ <-]|[Hne Ho]] Hg Hin.
    + by destruct (Hb g).
    + destruct (Hsp id' o Ho Hg Hin); [left; set_solver|by right].
  - congruence.
Qed.

Lemma operations_ok t ops canceled s :
  act_inv s → ops ⊆ a_operations s → a_canceled s ⊆ canceled →
  astep (Some t) s (set_operations (a_nextOperation s) ops canceled (a_shutdown s) s).
Proof.
  intros Hi Hops Hcan. split_and!; [by destruct Hi|split|constructor]; simpl; try done.
  - apply registry_step_refl.
  - exists []. by rewrite app_nil_r.
  - intros id o Ho. left. by eapply lookup_weaken.
  - intros R l _ Hsp id o Ho Hg Hin. destruct (Hsp id o); [by eapply lookup_weaken|done|done|left; set_solver|by right].
  - intros Hs. split_and!; [done|by apply subseteq_dom|done].
Qed.

Lemma act_cancel_safe t id (L L' : world → Prop) :
  mine (request t) L' →
  (∀ s, act_inv s → L s → L' (set_operations (a_nextOperation s) (a_operations s) ({[id]} ∪ a_canceled s) (a_shutdown s) s)) →
  asafe t L (cancel id) (λ _, L').
Proof.
  intros HL Hx. apply safe_modify; [by apply act_mine_stable|]. intros s Hi Hs.
  split; [apply operations_ok; [done|done|set_solver]|by apply Hx].
Qed.

(** ** Programs *)

Lemma act_context_safe t L :
  mine (request t) L → asafe t L (validateContext (request t)) (λ _, L).
Proof. apply act_look_safe. Qed.

Lemma require_safe t e g (L L' : world → Prop) :
  event_request e = request t → (∀ n id c, e ≠ Sent n id c) →
  (∀ g', e = Cleared (request t) g' → g' = g) → mine (request t) L → mine (request t) L' →
  (∀ s, act_inv s → L s → a_generation s = g → L' (emit e s)) →
  asafe t L (require e g) (λ x s, match x with Some _ => L s | None => L' s end).
Proof.
  intros He Hs Hc HL HL' Hx. apply safe_atomically.
  - intros [x|]; by apply act_mine_stable.
  - intros s Hi HLs. simpl. destruct (String.eqb g "" || _) eqn:Hg; simpl; [split; [by apply act_stay_ok|done]|].
    apply orb_false_iff in Hg as [_ Hg]. apply negb_false_iff, String.eqb_eq in Hg.
    split; [|by apply Hx]. apply emit_ok; [done|done| |].
    + intros g' Hg'. by rewrite (Hc g' Hg').
    + intros n id c Hn. by destruct (Hs n id c).
Qed.

(** Facts that only depend on the registry ride along. *)
Definition framed (n : nat) (P : world → Prop) : Prop :=
  mine n P ∧ ∀ s s', a_restarts s' = a_restarts s → P s → P s'.

Lemma audited_safe {A} t operation target (p : prog world question answer (result err A))
    (L : world → Prop) (P : result err A → world → Prop) :
  mine (request t) L → (∀ r, mine (request t) (P r)) → (∀ r s e, P r s → P r (add_audit e s)) →
  asafe t L p P → asafe t L (audited operation target p) P.
Proof.
  intros HL HP Ha Hp. unfold audited. eapply safe_compose; [by apply act_look_safe|]. intros started.
  eapply safe_compose; [exact Hp|]. intros r.
  eapply safe_compose; [apply audit_safe; [by apply HP|by apply Ha]|]. intros []. by apply safe_return.
Qed.

(** What [send] starts from and ends with. *)
Definition ready_to_send (Fr : world → Prop) (n : nat) (id : Z) (g : string) (key : Key) (kind : OperationKind)
    (s : world) : Prop :=
  Fr s ∧ unsent n s ∧ registered n id g s ∧ cleared n key kind g (a_log s).
Definition sent_by (Fr : world → Prop) (t : call) (id : Z) (g : string) (r : result err (string * string)) (s : world) : Prop :=
  Fr s ∧ registered (request t) id g s ∧ ∀ m, r = Ok m → performed t m.1 s.

Lemma ready_mine Fr n id g key kind : framed n Fr → mine n (ready_to_send Fr n id g key kind).
Proof.
  intros [HF _]. repeat apply kept_and; [done|apply unsent_mine|apply registered_mine|].
  apply (mine_log n (cleared n key kind g)), cleared_grows.
Qed.
Lemma sent_mine Fr t id g r : framed (request t) Fr → mine (request t) (sent_by Fr t id g r).
Proof.
  intros [HF _]. repeat apply kept_and; [done|apply registered_mine|].
  apply kept_all. intros m. apply kept_impl, performed_mine.
Qed.

Lemma send_safe Fr t id g key kind c :
  framed (request t) Fr → asks_for t c → key_of t = Some (key, kind) → mt_Generation (command_target c) = g →
  (is_restart c = true → ∀ s, Fr s → ∃ k i u, Executing k i (request t) u ∈ ir_log (a_restarts s)) →
  asafe t (ready_to_send Fr (request t) id g key kind) (send (request t) id c) (sent_by Fr t id g).
Proof.
  intros HF Hask Hkey Hg Hre. unfold send.
  set (L1 := λ s, Fr s ∧ registered (request t) id g s ∧ cleared (request t) key kind g (a_log s)
                  ∧ Sent (request t) id c ∈ a_log s).
  assert (mine (request t) L1) as HL1.
  { destruct HF as [HF _]. repeat apply kept_and; [done|apply registered_mine| |apply elem_mine].
    apply (mine_log _ (cleared _ key kind g)), cleared_grows. }
  eapply safe_compose; [apply (safe_modify _ _ _ _ _ L1); [by apply act_mine_stable|]|].
  { intros s Hi (HFs & Hun & Hreg & Hcl). split.
    - apply emit_ok; [done|done|done|]. intros n id' c' [= <- <- <-]. split; [done|]. eauto.
    - split_and!; [by eapply HF; [|exact HFs]|done|by apply cleared_grows|simpl; set_solver]. }
  intros []. eapply (safe_compose _ _ _ _ (receive _) _ (λ _, L1)).
  { split; [|intros s e Hi HLs _ _; exists L1; split_and!; [by apply act_mine_stable|done|by intros ??]].
    intros s Hi (_ & _ & Hcl & _). split_and!; [done|done|]. exists key, kind. split; [done|].
    by rewrite Hg. }
  intros [cap|version extra|e|bytes| |e]; try (apply safe_return; intros s _ (HFs & Hreg & _); by split_and!).
  eapply safe_compose; [apply (emit_safe t _ L1 (sent_by Fr t id g (Ok (version, extra)))); try done|].
  - by apply sent_mine.
  - intros s Hi (HFs & Hreg & _ & Hs). split_and!; [by eapply HF; [|exact HFs]|done|].
    intros m [= <-]. exists id, c. simpl. split_and!; [done|set_solver..].
  - intros []. by apply safe_return.
Qed.

Definition finished_op (Fr : world → Prop) (t : call) (r : result err (string * string)) (s : world) : Prop :=
  Fr s ∧ unregistered (request t) s ∧ ∀ m, r = Ok m → performed t m.1 s.
Lemma finished_mine Fr t r : framed (request t) Fr → mine (request t) (finished_op Fr t r).
Proof.
  intros [HF _]. repeat apply kept_and; [done|apply unregistered_mine|].
  apply kept_all. intros m. apply kept_impl, performed_mine.
Qed.

Lemma release_safe Fr t id g r :
  framed (request t) Fr →
  asafe t (sent_by Fr t id g r) (release id) (λ _, finished_op Fr t r).
Proof.
  intros HF. unfold release. eapply safe_compose.
  - apply (act_cancel_safe t id _ (sent_by Fr t id g r)); [by apply sent_mine|].
    intros s Hi (HFs & Hreg & Hp). split_and!; [by eapply HF; [|exact HFs]|done|done].
  - intros []. apply safe_modify; [by apply act_mine_stable, finished_mine|]. intros s Hi (HFs & Hreg & Hp). split.
    + apply operations_ok; [done|apply delete_subseteq|done].
    + split_and!; [by eapply HF; [|exact HFs]| |done]. intros id' o Ho Hn. simpl in Ho.
      apply lookup_delete_Some in Ho as [Hne Ho]. by destruct (Hreg id' o Ho Hn).
Qed.

Lemma begin_safe Fr t g key kind :
  framed (request t) Fr →
  asafe t (λ s, Fr s ∧ before (request t) s ∧ allowed (request t) key kind (a_log s)) (beginOperation (request t) g)
    (λ r s, match r with
            | Err _ => Fr s ∧ before (request t) s
            | Ok id => Fr s ∧ unsent (request t) s ∧ registered (request t) id g s ∧ allowed (request t) key kind (a_log s)
            end).
Proof.
  intros HF. apply safe_atomically.
  - intros [id|e]; apply act_mine_stable; repeat apply kept_and; try apply HF;
      auto using unsent_mine, registered_mine, before_mine, uncleared_mine, unregistered_mine.
    apply (mine_log _ (allowed _ _ _)), allowed_grows.
  - intros s Hi (HFs & Hb & Ha). simpl. destruct (a_shutdown s) eqn:Hsh; simpl; [by split; [apply act_stay_ok|]|].
    split; [rewrite <- Hsh; by apply begin_ok|]. split_and!; [by eapply HF; [|exact HFs]|exact (proj1 Hb)| |done].
    intros id' o. simpl. rewrite lookup_insert_Some. intros [[<- <-]|[_ Ho]] Hn; [done|].
    destruct Hb as (_ & _ & Hb). by destruct (Hb id' o Ho).
Qed.

Lemma operate_safe Fr t g key kind operation :
  framed (request t) Fr →
  (∀ id, asafe t (ready_to_send Fr (request t) id g key kind) (operation id) (sent_by Fr t id g)) →
  asafe t (λ s, Fr s ∧ before (request t) s ∧ allowed (request t) key kind (a_log s))
    (operate (request t) g operation) (finished_op Fr t).
Proof.
  intros HF Hop. unfold operate. eapply safe_compose; [apply act_look_safe|].
  { repeat apply kept_and; try apply HF; auto using unsent_mine, uncleared_mine, unregistered_mine.
    apply (mine_log _ (allowed _ _ _)), allowed_grows. }
  intros [e|]; [apply safe_return; intros s _ (HFs & Hb & _); split_and!; [done|exact (proj2 (proj2 Hb))|done]|].
  eapply safe_compose; [by apply begin_safe|].
  intros [id|e]; [|apply safe_return; intros s _ (HFs & Hb); split_and!; [done|exact (proj2 (proj2 Hb))|done]].
  eapply (safe_compose _ _ _ _ _ _ (sent_by Fr t id g)).
  - eapply safe_checked.
    + eapply safe_post; [|apply (require_safe t _ g _ (ready_to_send Fr (request t) id g key kind))]; try done.
      * intros [e|] s Hi Hs; [|exact Hs]. destruct Hs as (HFs & _ & Hreg & _). by split_and!.
      * by intros g' [= <-].
      * repeat apply kept_and; try apply HF; auto using unsent_mine, registered_mine.
        apply (mine_log _ (allowed _ _ _)), allowed_grows.
      * by apply ready_mine.
      * intros s Hi (HFs & Hun & Hreg & Ha) _. split_and!; [by eapply HF; [|exact HFs]| |done|].
        -- intros id' c Hin. simpl in Hin. apply elem_of_app in Hin as [Hin|Hin%list_elem_of_singleton]; [by apply (Hun id' c)|done].
        -- by exists (a_log s), [].
    + eapply safe_compose; [apply Hop|]. intros r.
      eapply safe_compose; [apply (require_safe t _ g _ (sent_by Fr t id g r)); try done; try by apply sent_mine|].
      { intros s Hi (HFs & Hreg & Hp) _. split_and!; [by eapply HF; [|exact HFs]|done|].
        intros m Hm. destruct (Hp m Hm) as (i' & c & Ha & H1 & H2). exists i', c. simpl. split_and!; [done|set_solver..]. }
      intros [e|]; apply safe_return; [|done]. intros s _ (HFs & Hreg & _). by split_and!.
  - intros r. eapply safe_compose; [by apply release_safe|]. intros []. by apply safe_return.
Qed.

Lemma revalidated_permits key kind c :
  cap_Decision c ∈ [DecisionAllowed; DecisionDenied; DecisionUnknown] →
  (∃ res e, revalidated key kind c = GuardDone res (Some e))
  ∨ revalidated key kind c = Operating key kind c ∧ permits kind c.
Proof.
  intros Hd. unfold revalidated. destruct (String.eqb _ DecisionDenied) eqn:H1; [left; eauto|].
  destruct (String.eqb (cap_Decision c) DecisionUnknown) eqn:H2; simpl.
  - apply String.eqb_eq in H2. destruct kind; simpl; try (left; by eauto). right. split; [done|]. by right.
  - right. split; [done|]. left. apply String.eqb_neq in H1, H2.
    rewrite !elem_of_cons in Hd. destruct Hd as [?|[?|[?|Hd]]]; [done|done|done|by inversion Hd].
Qed.

Lemma reviewed_safe Fr t g key kind operation :
  framed (request t) Fr →
  (∀ id, asafe t (ready_to_send Fr (request t) id g key kind) (operation id) (sent_by Fr t id g)) →
  asafe t (λ s, Fr s ∧ before (request t) s) (reviewed (request t) g key kind operation) (finished_op Fr t).
Proof.
  intros HF Hop. pose proof HF as [HFm HFr].
  assert (mine (request t) (λ s, Fr s ∧ before (request t) s)) as HL by auto using kept_and, before_mine.
  assert (∀ e s, Fr s ∧ before (request t) s → finished_op Fr t (Err e) s) as Herr.
  { intros e s [HFs Hb]. split_and!; [done|exact (proj2 (proj2 Hb))|done]. }
  eapply (safe_compose _ _ _ _ (receive _) _ (λ a s, (Fr s ∧ before (request t) s) ∧ decision_known (AskReview (request t) key kind) a)).
  { split; [done|]. intros s a Hi HLs _ Hk. exists (λ s, Fr s ∧ before (request t) s).
    split; [by apply act_mine_stable|split; [done|]]. intros s' _ Hs'. split; [done|exact Hk]. }
  intros [c|v x|e|bytes| |e]; try (apply safe_return; intros s _ [HLs _]; by apply Herr).
  eapply safe_compose.
  { apply (emit_safe t _ _ (λ s, ((Fr s ∧ before (request t) s) ∧ Reviewed (request t) key kind c ∈ a_log s)
             ∧ cap_Decision c ∈ [DecisionAllowed; DecisionDenied; DecisionUnknown])); try done.
    - apply kept_and; [|apply kept_const]. apply kept_and; [done|apply elem_mine].
    - intros s Hi [[HFs (H1 & H2 & H3)] Hk]. simpl in Hk.
      split; [split; [split; [by eapply HFr; [|exact HFs]|split_and!; [| |done]]|simpl; set_solver]|done].
      + intros id c' Hin. simpl in Hin. apply elem_of_app in Hin as [Hin|Hin%list_elem_of_singleton]; [by apply (H1 id c')|done].
      + intros g' Hin. simpl in Hin. apply elem_of_app in Hin as [Hin|Hin%list_elem_of_singleton]; [by apply (H2 g')|done]. }
  intros []. destruct (decide (cap_Decision c ∈ [DecisionAllowed; DecisionDenied; DecisionUnknown])) as [Hk|Hk];
    [|eapply safe_consequence; [|apply safe_absurd]; by intros s _ [_ Hk']].
  destruct (revalidated_permits key kind c Hk) as [(res & e & ->)|[-> Hper]].
  { apply safe_return. intros s _ [[HLs _] _]. by apply Herr. }
  eapply safe_compose; [eapply safe_consequence; [|by apply operate_safe]|].
  { intros s _ [[[HFs Hb] Hin] _]. split_and!; [done|done|]. by exists c. }
  intros [m|e]; [by apply safe_return|]. eapply safe_compose; [by apply act_look_safe, finished_mine|]. intros now'.
  eapply safe_compose.
  { apply safe_when. apply (emit_safe t _ _ (finished_op Fr t (Err e))); try done; [by apply finished_mine|].
    intros s Hi (HFs & Hun & _). split_and!; [by eapply HFr; [|exact HFs]|done|done]. }
  intros []. apply safe_return. intros s _ (HFs & Hun & _). by split_and!.
Qed.

Lemma guarded_safe Fr t g key kind operation :
  framed (request t) Fr →
  (∀ id, asafe t (ready_to_send Fr (request t) id g key kind) (operation id) (sent_by Fr t id g)) →
  asafe t (λ s, Fr s ∧ before (request t) s) (guarded (request t) g key kind operation) (finished_op Fr t).
Proof.
  intros HF Hop. unfold guarded. eapply safe_compose.
  { apply act_look_safe, kept_and; [apply HF|apply before_mine]. }
  intros now. pose proof (reviewed_safe Fr t g key kind operation HF Hop) as Hrest.
  destruct (call_guard key kind now) as [| | | | |res [e|]]; try exact Hrest.
  apply safe_return. intros s _ [HFs Hb]. split_and!; [done|exact (proj2 (proj2 Hb))|done].
Qed.

(** ** The calls *)

Lemma true_framed n : framed n (λ _, True).
Proof. split; [apply kept_const|done]. Qed.

Definition action_post (Fr : world → Prop) (t : call) (r : result err ActionAcceptedDTO) (s : world) : Prop :=
  Fr s ∧ unregistered (request t) s ∧ ∀ dto, r = Ok dto → confirmed_by t dto s.
Lemma action_post_mine Fr t r : framed (request t) Fr → mine (request t) (action_post Fr t r).
Proof.
  intros [HF _]. repeat apply kept_and; [done|apply unregistered_mine|].
  apply kept_all. intros dto. apply kept_impl, confirmed_mine.
Qed.
Lemma action_post_err Fr t e s : Fr s → before (request t) s → action_post Fr t (Err e) s.
Proof. intros HF Hb. split_and!; [done|exact (proj2 (proj2 Hb))|done]. Qed.

Lemma versioned_safe Fr t action target g replicas m :
  asafe t (finished_op Fr t (Ok m)) (versioned action target g replicas m) (action_post Fr t).
Proof.
  apply safe_return. intros s _ (HF & Hun & Hp). split_and!; [done|done|]. intros dto Hd.
  destruct (String.eqb m.1 "") eqn:Hv; simplify_eq. exists m.1. split; [by apply Hp|]. by rewrite Hv.
Qed.
Lemma unversioned_safe Fr t action target g m :
  asafe t (finished_op Fr t (Ok m)) (unversioned action target g m) (action_post Fr t).
Proof.
  apply safe_return. intros s _ (HF & Hun & Hp). split_and!; [done|done|]. intros dto [= <-].
  exists m.1. split; [by apply Hp|done].
Qed.

Lemma current_safe Fr t g :
  framed (request t) Fr →
  asafe t (λ s, Fr s ∧ before (request t) s) (requireCurrent (request t) g) (λ _ s, Fr s ∧ before (request t) s).
Proof.
  intros HF. assert (mine (request t) (λ s, Fr s ∧ before (request t) s)) as HL
    by (apply kept_and; [apply HF|apply before_mine]).
  eapply safe_post; [|apply (require_safe t _ g _ (λ s, Fr s ∧ before (request t) s)); try done].
  - by intros [e|] s _ Hs.
  - intros s Hi [HFs (H1 & H2 & H3)] _. split; [by eapply HF; [|exact HFs]|]. split_and!; [| |done].
    + intros id c Hin. simpl in Hin. apply elem_of_app in Hin as [Hin|Hin%list_elem_of_singleton]; [by apply (H1 id c)|done].
    + intros g' Hin. simpl in Hin. apply elem_of_app in Hin as [Hin|Hin%list_elem_of_singleton]; [by apply (H2 g')|done].
Qed.

(** The frame of every call: its context, its validation, the current generation. *)
Lemma entry_safe {A} Fr t g e (k : prog world question answer (result err A)) P :
  framed (request t) Fr → (∀ e s, Fr s → before (request t) s → P (Err e) s) →
  (e = None → asafe t (λ s, Fr s ∧ before (request t) s) k P) →
  asafe t (λ s, Fr s ∧ before (request t) s)
    (checked (validateContext (request t)) (valid e (checked (requireCurrent (request t) g) k))) P.
Proof.
  intros HF Herr Hk. eapply safe_checked.
  { eapply safe_post; [|apply act_context_safe, kept_and; [apply HF|apply before_mine]].
    intros [x|] s _ Hs; [|exact Hs]. destruct Hs. by apply Herr. }
  apply safe_valid; [intros x _ s _ []; by apply Herr|]. intros He. eapply safe_checked; [|by apply Hk].
  eapply safe_post; [|by apply current_safe]. intros [x|] s _ Hs; [|exact Hs]. destruct Hs. by apply Herr.
Qed.

(** A guarded command, audited, and its result. *)
Lemma perform_safe Fr t operation target g r kind make build :
  framed (request t) Fr →
  (∀ key, r = Ok key → key_of t = Some (key, kind)) →
  (∀ key id, r = Ok key → asafe t (ready_to_send Fr (request t) id g key kind) (make id) (sent_by Fr t id g)) →
  (∀ m, asafe t (finished_op Fr t (Ok m)) (build m) (action_post Fr t)) →
  asafe t (λ s, Fr s ∧ before (request t) s)
    (audited operation target
       (try (match r with
             | Err e => Ret (Err (translateError (AuthErr e)))
             | Ok key => guarded (request t) g key kind make
             end) build))
    (action_post Fr t).
Proof.
  intros HF Hkey Hmake Hbuild. apply audited_safe.
  - apply kept_and; [apply HF|apply before_mine].
  - intros x. by apply action_post_mine.
  - intros x s e (HFs & Hun & Hc). split_and!; [by eapply HF; [|exact HFs]|done|exact Hc].
  - eapply safe_try; [|exact Hbuild]. destruct r as [key|e].
    + eapply safe_post; [|apply guarded_safe; [done|]; by intros id; apply Hmake].
      intros [m|e] s _ Hs; [done|]. destruct Hs as (HFs & Hun & _). by split_and!.
    + apply safe_return. intros s _ [HFs Hb]. by apply action_post_err.
Qed.

Lemma send_true t id g key kind c :
  asks_for t c → key_of t = Some (key, kind) → mt_Generation (command_target c) = g → is_restart c = false →
  asafe t (ready_to_send (λ _, True) (request t) id g key kind) (send (request t) id c) (sent_by (λ _, True) t id g).
Proof. intros Ha Hk Hg Hr. apply send_safe; [apply true_framed|done|done|done|congruence]. Qed.

Lemma confirmed_target b route c action consequence rk tk :
  confirmed b route c action consequence rk tk → mutationTarget b (cf_Target c) = target_of b route tk.
Proof. intros (_ & _ & _ & _ & _ & _ & _ & ->). done. Qed.

Lemma scale_safe n b route r :
  let t := CallScale n b route r in
  asafe t (λ s, True ∧ before n s) (Scale n b route r) (action_post (λ _, True) t).
Proof.
  intros t. unfold Scale. apply (entry_safe _ t); [apply true_framed|intros e s _; by apply action_post_err|].
  intros Hv. assert (validateScale (F := F) b route r = None) as Hv' by done.
  unfold validateScale in Hv. destruct (_ && _) eqn:Hkind; [done|].
  apply first_error_None in Hv as [Hc Hrep]. apply confirmation_exact in Hc as [_ Hc].
  rewrite (confirmed_target _ _ _ _ _ _ _ Hc). apply report_None in Hrep. apply app_nil in Hrep as [H1 Hrep].
  apply app_nil in Hrep as [H2 _]. apply violated_nil in H1, H2. bool_to_prop.
  unfold with_capability. apply (perform_safe _ t); [apply true_framed| | |].
  - intros key Hkey. simpl. simpl in Hkey. by rewrite Hkey.
  - intros key id Hkey. apply send_true; [|simpl; simpl in Hkey; by rewrite Hkey|done|done].
    simpl. split_and!; [done|done|done|]. f_equal.
    unfold int32. rewrite Z.mod_small; unfold MaxInt32 in *; lia.
  - intros m. apply versioned_safe.
Qed.

(** After the validation of a call without a frame. *)
Ltac enter_call t :=
  apply (entry_safe _ t); [apply true_framed|intros e s _; by apply action_post_err|].
Ltac perform t :=
  unfold with_capability; apply (perform_safe _ t);
    [apply true_framed
    |let key := fresh "key" in let H := fresh in intros key H; simpl in H |- *; by rewrite ?H
    |let key := fresh "key" in let id := fresh "id" in let H := fresh in
     intros key id H; simpl in H; apply send_true; [|simpl; by rewrite ?H|done|done]
    |intros m; first [apply versioned_safe|apply unversioned_safe]].

Lemma delete_pod_safe n b route r :
  let t := CallDeletePod n b route r in
  asafe t (λ s, True ∧ before n s) (DeletePod n b route r) (action_post (λ _, True) t).
Proof.
  intros t. unfold DeletePod. enter_call t. intros Hv. pose proof Hv as Hv'.
  apply first_error_None in Hv as [[_ Hc]%confirmation_exact _].
  rewrite (confirmed_target _ _ _ _ _ _ _ Hc). perform t. by split.
Qed.

Lemma suspend_safe n b route r :
  let t := CallCronJobSuspend n b route r in
  asafe t (λ s, True ∧ before n s) (UpdateCronJobSuspend n b route r) (action_post (λ _, True) t).
Proof.
  intros t. unfold UpdateCronJobSuspend. enter_call t. intros Hv. pose proof Hv as Hv'.
  apply first_error_None in Hv as [[_ Hc]%confirmation_exact _].
  rewrite (confirmed_target _ _ _ _ _ _ _ Hc). perform t. by split.
Qed.

(** An audited refusal. *)
Lemma act_refuse_safe Fr t operation target e :
  framed (request t) Fr →
  asafe t (λ s, Fr s ∧ before (request t) s) (audited operation target (Ret (Err e))) (action_post Fr t).
Proof.
  intros HF. apply audited_safe.
  - apply kept_and; [apply HF|apply before_mine].
  - intros x. by apply action_post_mine.
  - intros x s e' (HFs & Hun & Hc). split_and!; [by eapply HF; [|exact HFs]|done|exact Hc].
  - apply safe_return. intros s _ [HFs Hb]. by apply action_post_err.
Qed.

Lemma delete_workload_safe n b route r :
  let t := CallDeleteWorkload n b route r in
  asafe t (λ s, True ∧ before n s) (DeleteWorkload n b route r) (action_post (λ _, True) t).
Proof.
  intros t. unfold DeleteWorkload. enter_call t. intros Hv. pose proof Hv as Hv'. unfold validateDeleteWorkload in Hv.
  destruct (deletableWorkloadKinds (rt_Kind route)) as [kind|] eqn:Hkind; [|done].
  apply first_error_None in Hv as [[_ Hc]%confirmation_exact _].
  rewrite (confirmed_target _ _ _ _ _ _ _ Hc). destruct (deleteCapabilityID (rt_Kind route)) as [id|] eqn:Hid;
    [|apply (act_refuse_safe _ t), true_framed].
  assert (∀ key, KeyForCapability (bind_Generation b) (rt_Namespace route) id (rt_Name route) = Ok key →
                 key_of t = Some (key, OperationMutation)) as Hkey.
  { intros key Hk. simpl. rewrite Hid. simpl. by rewrite Hk. }
  unfold with_capability. apply (perform_safe _ t); [apply true_framed|done| |intros m; apply unversioned_safe].
  intros key op Hk. apply send_true; [|by apply Hkey|done|done]. simpl. split; [done|]. by exists kind.
Qed.

Lemma checked_context {A} t (k : prog world question answer (result err A)) P :
  (∀ e s, before (request t) s → P (Err e) s) →
  asafe t (λ s, True ∧ before (request t) s) k P →
  asafe t (λ s, True ∧ before (request t) s) (checked (validateContext (request t)) k) P.
Proof.
  intros Herr Hk. eapply safe_checked; [|exact Hk].
  eapply safe_post; [|apply act_context_safe, kept_and; [apply kept_const|apply before_mine]].
  intros [x|] s _ Hs; [|exact Hs]. destruct Hs. by apply Herr.
Qed.
Lemma checked_current {A} t g (k : prog world question answer (result err A)) P :
  (∀ e s, before (request t) s → P (Err e) s) →
  asafe t (λ s, True ∧ before (request t) s) k P →
  asafe t (λ s, True ∧ before (request t) s) (checked (requireCurrent (request t) g) k) P.
Proof.
  intros Herr Hk. eapply safe_checked; [|exact Hk].
  eapply safe_post; [|apply current_safe, true_framed].
  intros [x|] s _ Hs; [|exact Hs]. destruct Hs. by apply Herr.
Qed.

Lemma len_pos (v : string) : String.eqb v "" = false → (0 < len v)%Z.
Proof. unfold len. destruct v; [done|]. simpl. lia. Qed.

Lemma deployment_yaml_safe n b route r :
  let t := CallUpdateDeploymentYAML n b route r in
  asafe t (λ s, True ∧ before n s) (UpdateDeploymentYAML deployment_yaml n b route r) (action_post (λ _, True) t).
Proof.
  intros t. assert (∀ e s, before n s → action_post (λ _, True) t (Err e) s) as Herr by (intros; by apply action_post_err).
  apply (checked_context t); [done|]. apply safe_valid; [intros x _ s _ []; by apply Herr|]. intros Hc'.
  pose proof Hc' as [_ Hc]%confirmation_exact. rewrite (confirmed_target _ _ _ _ _ _ _ Hc).
  do 2 (apply safe_valid; [intros x _ s _ []; by apply Herr|intros _]).
  apply safe_valid; [intros x _ s _ []; by apply Herr|]. intros Hy.
  apply report_None, violated_nil, orb_false_iff in Hy as [Hy1 Hy2].
  apply (checked_current t); [done|]. destruct (negb deployment_yaml); [apply safe_return; intros s _ []; by apply Herr|].
  perform t. simpl. split_and!; [done|by apply len_pos|by apply Z.ltb_ge|done].
Qed.

Lemma yamlResource_Ok b res route resource :
  yamlResource (F := F) b res route = Ok resource → Lookup (rt_Kind route) = Some resource.
Proof.
  unfold yamlResource. destruct (validateBinding b); [done|]. destruct (Lookup _); [|done].
  destruct (_ || _); [done|]. destruct (_ && _); [done|]. congruence.
Qed.

Lemma resource_yaml_safe n b res route r :
  let t := CallUpdateResourceYAML n b res route r in
  asafe t (λ s, True ∧ before n s) (UpdateResourceYAML resource_yaml n b res route r) (action_post (λ _, True) t).
Proof.
  intros t. assert (∀ e s, before n s → action_post (λ _, True) t (Err e) s) as Herr by (intros; by apply action_post_err).
  apply (checked_context t); [done|].
  destruct (yamlResource b res route) as [resource|e] eqn:Hres; [|apply safe_return; intros s _ []; by apply Herr].
  apply safe_valid; [intros x _ s _ []; by apply Herr|]. intros Hc%report_None%violated_nil%negb_false_iff.
  do 2 (apply safe_valid; [intros x _ s _ []; by apply Herr|intros _]).
  apply safe_valid; [intros x _ s _ []; by apply Herr|]. intros Hy.
  apply report_None, violated_nil, orb_false_iff in Hy as [Hy1 Hy2].
  destruct (negb resource_yaml); [apply safe_return; intros s _ []; by apply Herr|].
  assert (mutationTarget b (cf_Target (ym_Confirmation r)) = target_of b route (res_Kind resource)) as ->.
  { unfold yaml_confirmed in Hc. rewrite !andb_true_iff in Hc. destruct Hc as [[[[_ _] H1] H2] H3].
    apply String.eqb_eq in H1, H2, H3. unfold mutationTarget, target_of. by rewrite H1, H2, H3. }
  apply (perform_safe _ t _ _ _ (Ok (yamlKey b route resource "update"))); [apply true_framed| | |].
  - intros key [= <-]. simpl. by rewrite (yamlResource_Ok _ _ _ _ Hres).
  - intros key id [= <-]. apply send_true; [|simpl; by rewrite (yamlResource_Ok _ _ _ _ Hres)|done|done].
    simpl. exists resource. split_and!; [done|done|by apply len_pos|by apply Z.ltb_ge|done].
  - intros m. apply versioned_safe.
Qed.

Lemma read_yaml_safe n b res route :
  let t := CallReadResourceYAML n b res route in
  asafe t (λ s, True ∧ before n s) (ReadResourceYAML resource_yaml n b res route) (λ _ s, unregistered n s).
Proof.
  intros t. assert (∀ s, before n s → unregistered n s) as Herr by (by intros s (_ & _ & ?)).
  apply (checked_context t); [intros _; apply Herr|].
  destruct (yamlResource b res route) as [resource|e] eqn:Hres; [|apply safe_return; intros s _ []; by apply Herr].
  destruct (negb resource_yaml); [apply safe_return; intros s _ []; by apply Herr|].
  assert (key_of t = Some (yamlKey b route resource "get", OperationRead)) as Hkey.
  { simpl. by rewrite (yamlResource_Ok _ _ _ _ Hres). }
  eapply safe_try.
  - eapply safe_post; [|apply (guarded_safe (λ _, True) t); [apply true_framed|]].
    + intros [m|e] s _ (_ & Hun & _); [|exact Hun]. instantiate (1 := λ _ s, unregistered n s). exact Hun.
    + intros id. apply send_true; [|done|done|done]. simpl. by exists resource.
  - intros m. by apply safe_return.
Qed.

Lemma trigger_safe n b route c :
  let t := CallTriggerCronJob n b route c in
  asafe t (λ s, True ∧ before n s) (TriggerCronJob n b route c) (action_post (λ _, True) t).
Proof.
  intros t. unfold TriggerCronJob. enter_call t. intros Hv. pose proof Hv as [_ Hc]%confirmation_exact.
  rewrite (confirmed_target _ _ _ _ _ _ _ Hc).
  destruct (KeyForCapability (bind_Generation b) (mt_Namespace (target_of b route "CronJob")) "cronjobs.runnow" "")
    as [key|e] eqn:Hk; [|apply (act_refuse_safe _ t), true_framed].
  assert (mine n (λ s, True ∧ before n s)) as HL by (apply kept_and; [apply kept_const|apply before_mine]).
  apply (audited_safe t); [done|intros x; apply action_post_mine, true_framed|by intros x s e (? & ? & ?)|].
  eapply (safe_compose _ _ _ _ (receive _) _ (λ _ s, True ∧ before n s)).
  { split; [done|]. intros s a _ Hs _ _. exists (λ s, True ∧ before n s).
    split; [by apply (act_mine_stable t)|split; [done|by intros ??]]. }
  intros a. eapply safe_try.
  - eapply safe_post; [|apply (guarded_safe (λ _, True) t); [apply true_framed|]].
    + intros [m|e] s _ Hs; [exact Hs|]. destruct Hs as (HFs & Hun & _). by split_and!.
    + intros id. apply send_true; [|simpl; simpl in Hk; by rewrite Hk|done|done]. simpl. split; [done|]. by eexists.
  - intros m. simpl. destruct (String.eqb m.2 ""); [|apply versioned_safe].
    apply safe_return. intros s _ (HFs & Hun & _). by split_and!.
Qed.

(** ** Restarts *)

Lemma registry_safe {A} t (L : world → Prop) (f : world → idempotencyRegistry F ActionAcceptedDTO → A * idempotencyRegistry F ActionAcceptedDTO)
    (P : A → world → Prop) :
  (∀ a, mine (request t) (P a)) →
  (∀ s, act_inv s → L s →
     registry_inv (a_now s) (f s (a_restarts s)).2
     ∧ registry_step (Some (request t)) (a_restarts s) (f s (a_restarts s)).2
     ∧ P (f s (a_restarts s)).1 (set_restarts (f s (a_restarts s)).2 s)) →
  asafe t L (on_registry a_restarts set_restarts f) P.
Proof.
  intros HP Hf. apply safe_atomically; [intros a; by apply act_mine_stable|]. intros s Hi HL.
  destruct (Hf s Hi HL) as (H1 & H2 & H3). split; [by apply restarts_ok|done].
Qed.

Definition new_entry (n : nat) (s : world) : Prop := ir_objects (a_restarts s) !! n = None.
Lemma new_entry_framed n : framed n (new_entry n).
Proof. split; [apply (object_mine n (λ o, o = None))|]. intros s s' Hr. unfold new_entry. by rewrite Hr. Qed.
Definition executing (n : nat) (key : string) (identity : idempotencyIdentity) (s : world) : Prop :=
  running (a_restarts s) n key identity.
Lemma executing_framed n key identity : framed n (executing n key identity).
Proof. split; [apply running_mine|]. intros s s' Hr. unfold executing. by rewrite Hr. Qed.

Lemma restart_once_safe n b route key r identity :
  let t := CallRestart n b route key r in
  validateRestart (F := F) b route r = None → validateIdempotencyKey (F := F) key = None →
  asafe t (λ s, executing n key identity s ∧ before n s) (restartOnce n b route r)
    (action_post (executing n key identity) t).
Proof.
  intros t Hv Hk. pose proof Hv as Hv'. unfold validateRestart in Hv.
  destruct (restartableWorkloadKinds (rt_Kind route)) as [kind|] eqn:Hkind; [|done].
  apply first_error_None in Hv as [[_ Hc]%confirmation_exact _]. unfold restartOnce.
  rewrite (confirmed_target _ _ _ _ _ _ _ Hc).
  destruct (restartCapabilityID (rt_Kind route)) as [id|] eqn:Hid;
    [|apply (act_refuse_safe _ t), executing_framed].
  assert (∀ k, KeyForCapability (bind_Generation b) (rt_Namespace route) id (rt_Name route) = Ok k →
               key_of t = Some (k, OperationMutation)) as Hkey.
  { intros k Hk'. simpl. rewrite Hid. simpl. by rewrite Hk'. }
  unfold with_capability.
  apply (perform_safe _ t); [apply executing_framed|done| |intros m; apply versioned_safe].
  intros k op Hk'. eapply safe_compose; [apply act_look_safe, ready_mine, executing_framed|]. intros now.
  destruct (restart_command _ _ _ _) as [c|] eqn:Hcmd.
  - apply send_safe; [apply executing_framed| |by apply Hkey| |].
    + simpl. split_and!; [done|done|]. by exists kind, now.
    + unfold restart_command in Hcmd. by repeat case_match; simplify_eq.
    + intros _ s [_ [u Hin]]. by exists key, identity, u.
  - apply safe_return. intros s _ (HFs & _ & Hreg & _). by split_and!.
Qed.

(** The outcome of [Do] and what the registry's log says of it. *)
Definition did (t : call) (n : nat) (key : string) (identity : idempotencyIdentity) (x : result err ActionAcceptedDTO * bool) (s : world) : Prop :=
  unregistered n s ∧
  ∀ dto, x.1 = Ok dto →
    if x.2 : bool then ∃ m, Replayed key identity n m (Ok dto) ∈ ir_log (a_restarts s)
    else confirmed_by t dto s ∧ ∃ u, Finished key n (Ok dto) u ∈ ir_log (a_restarts s).
Lemma did_mine t key identity x : mine (request t) (did t (request t) key identity x).
Proof.
  apply kept_and; [apply unregistered_mine|]. apply kept_all. intros dto. apply kept_impl. destruct x.2.
  - apply kept_exists; intros ?. apply reglog_mine.
  - apply kept_and; [apply confirmed_mine|]. apply kept_exists. intros u. apply reglog_mine.
Qed.

Lemma do_safe n b route key r identity :
  let t := CallRestart n b route key r in
  validateRestart (F := F) b route r = None → validateIdempotencyKey (F := F) key = None →
  asafe t (λ s, new_entry n s ∧ before n s)
    (Do a_restarts set_restarts a_now AskEntry waited n key identity (restartOnce n b route r))
    (did t n key identity).
Proof.
  intros t Hv Hk. unfold Do.
  assert (∀ x s, before n s → (∀ dto, x.1 ≠ Ok dto) → did t n key identity x s) as Herr.
  { intros x s (_ & _ & Hun) Hx. split; [done|]. intros dto Hd. by destruct (Hx dto). }
  eapply safe_compose.
  { apply (registry_safe t _ _ (λ o s, before n s ∧ match o with
      | Execute => executing n key identity s
      | Existing m => ∃ u, Executing key identity m u ∈ ir_log (a_restarts s)
      | _ => True end)).
    - intros o. apply kept_and; [apply before_mine|]. destruct o; try apply kept_const; [|apply running_mine].
      apply kept_exists. intros u. apply reglog_mine.
    - intros s Hi [Hnew Hb]. pose proof (ai_registry _ Hi) as Hr.
      split_and!; [by apply do_enter_inv|apply enter_step|done|].
      pose proof (enter_outcome n key identity (a_now s) (a_restarts s)) as Ho.
      destruct (do_enter _ _ _ _ _).1; try done. by apply Ho. }
  intros [|m| |].
  - apply safe_return. intros s _ [Hb _]. by apply Herr.
  - eapply (safe_compose _ _ _ _ (receive _) _ (λ _ s, before n s ∧ ∃ u, Executing key identity m u ∈ ir_log (a_restarts s))).
    { assert (mine n (λ s, before n s ∧ ∃ u, Executing key identity m u ∈ ir_log (a_restarts s))) as HL.
      { apply kept_and; [apply before_mine|]. apply kept_exists. intros u. apply reglog_mine. }
      split; [done|]. intros s a _ Hs _ _. exists (λ s, before n s ∧ ∃ u, Executing key identity m u ∈ ir_log (a_restarts s)).
      split; [by apply (act_mine_stable t)|split; [done|by intros ??]]. }
    intros a. destruct (waited a) as [e|]; [apply safe_return; intros s _ [Hb _]; by apply Herr|].
    eapply safe_compose.
    { apply (registry_safe t _ _ (λ o s, before n s ∧ ∀ dto, o = Some (Ok dto) →
        Replayed key identity n m (Ok dto) ∈ ir_log (a_restarts s))).
      - intros o. apply kept_and; [apply before_mine|]. apply kept_all. intros dto. apply kept_impl, reglog_mine.
      - intros s Hi [Hb [u Hu]]. split_and!; [eapply replay_inv; [apply Hi|exact Hu]|apply replay_step|done|].
        intros dto Hd. unfold do_replay in *. destruct (ir_objects (a_restarts s) !! m) as [[i [[o u']|]]|]; try done.
        simpl in *. simplify_eq. set_solver. }
    intros o. apply safe_return. intros s _ [Hb Ho]. split; [by destruct Hb as (_ & _ & ?)|].
    intros dto Hd. simpl in *. destruct o as [o|]; simpl in Hd; [|done]. subst. exists m. by apply Ho.
  - apply safe_return. intros s _ [Hb _]. by apply Herr.
  - eapply safe_compose; [eapply safe_consequence; [|by apply restart_once_safe]|].
    { intros s _ [Hb He]. split; [exact He|exact Hb]. }
    intros o. eapply safe_compose.
    { apply (registry_safe t _ _ (λ _ s, did t n key identity (o, false) s)).
      - intros _. apply did_mine.
      - intros s Hi (He & Hun & Hc). split_and!; [by apply do_finish_inv; [apply Hi|]|apply finish_step|]. split; [done|].
        intros dto Hd. simpl in Hd. subst. split; [by apply Hc|]. exists (a_now s). simpl. set_solver. }
    intros []. by apply safe_return.
Qed.

Lemma restart_safe n b route key r :
  let t := CallRestart n b route key r in
  asafe t (act_unused n) (Restart canonicalBodyHash n b route key r)
    (λ x s, unregistered n s ∧ (∀ dto, x = Ok (dto, false) → confirmed_by t dto s) ∧ restart_replied n b route key r x s).
Proof.
  intros t. eapply safe_consequence; [intros s _ Hu; exact (conj (proj1 Hu) (unused_before n s Hu))|].
  assert (∀ e s, new_entry n s → before n s → unregistered n s ∧ (∀ dto : ActionAcceptedDTO,
    Err e = Ok (dto, false) → confirmed_by t dto s) ∧ restart_replied n b route key r (Err e) s) as Herr.
  { intros e s _ (_ & _ & Hun). by split_and!. }
  unfold Restart. eapply safe_checked.
  { eapply safe_post; [|apply (act_context_safe t), kept_and; [apply new_entry_framed|apply before_mine]].
    intros [x|] s _ Hs; [|exact Hs]. destruct Hs. by apply Herr. }
  apply safe_valid; [intros x _ s _ []; by apply Herr|]. intros Hv.
  apply safe_valid; [intros x _ s _ []; by apply Herr|]. intros Hk.
  eapply safe_checked.
  { eapply safe_post; [|apply (current_safe _ t), new_entry_framed].
    intros [x|] s _ Hs; [|exact Hs]. destruct Hs. by apply Herr. }
  destruct (canonicalBodyHash r) as [hash|] eqn:Hhash; [|apply safe_return; intros s _ []; by apply Herr].
  eapply safe_compose; [by apply do_safe|]. intros [o rep]. apply safe_return. intros s _ [Hun Ho].
  destruct o as [dto|e]; [|by split_and!]. specialize (Ho dto eq_refl). simpl in Ho. destruct rep; simpl.
  - destruct Ho as [m Hm]. split_and!; [done|done|]. by exists hash, m.
  - destruct Ho as [Hc Hf]. split_and!; [done|by intros ? [= <-]|done].
Qed.

(** ** Hooks *)

(** What [OnGeneration] has to cancel still: [l]. *)
Definition hooking (n : nat) (g : string) (l : list Z) (s : world) : Prop :=
  ∀ R, Hook n g R ∈ a_log s → R ⊆ a_retired s ∧ spared (R ∖ {[g]}) l s.
Lemma hooking_mine n g l : mine n (hooking n g l).
Proof.
  intros u s s' Hu Ht Hs R Hin. destruct (at_log _ _ _ Ht) as (k & Hl & Hk). rewrite Hl in Hin.
  apply elem_of_app in Hin as [Hin|Hin].
  - destruct (Hs R Hin) as [H1 H2]. pose proof (at_retired _ _ _ Ht). split; [set_solver|].
    apply (at_spared _ _ _ Ht); [set_solver|done].
  - rewrite Forall_forall in Hk. destruct Hu. by rewrite <- (Hk _ Hin).
Qed.

Lemma cancel_all_safe t (L : list Z → world → Prop) l :
  (∀ l, mine (request t) (L l)) →
  (∀ id l s, L (id :: l) s → L l (set_operations (a_nextOperation s) (a_operations s) ({[id]} ∪ a_canceled s) (a_shutdown s) s)) →
  asafe t (L l) (cancel_all l) (λ _, L []).
Proof.
  intros HL Hx. induction l as [|id l IH]; [by apply safe_return|]. cbn [cancel_all].
  eapply safe_compose; [apply (act_cancel_safe t id _ (L l)); [done|by intros s _; apply Hx]|]. by intros [].
Qed.

Lemma on_generation_safe n g :
  let t := CallOnGeneration n g in
  asafe t (act_unused n) (OnGeneration n g) (λ _, hooking n g []).
Proof.
  intros t. unfold OnGeneration. eapply safe_compose.
  { apply (safe_atomically _ _ t (act_unused n) (λ w, (outdated g w, emit (Hook n g (a_retired w)) w)) (hooking n g)).
    - intros l. apply (act_mine_stable t), hooking_mine.
    - intros s Hi Hu. split; [apply emit_ok; done|]. simpl. intros R Hin. simpl in Hin.
      apply elem_of_app in Hin as [Hin|Hin%list_elem_of_singleton]; [by destruct Hu as (_ & Hl & _); destruct (Hl _ Hin)|].
      injection Hin as ->. split; [done|]. intros id o Ho Hg _. right. unfold outdated.
      apply list_elem_of_fmap. exists (id, o). split; [done|]. apply elem_of_map_to_list, map_lookup_filter_Some.
      split; [done|]. set_solver. }
  intros l. apply (cancel_all_safe t (hooking n g)); [apply hooking_mine|].
  intros id l' s Hs R Hin. destruct (Hs R Hin) as [H1 H2]. split; [done|]. intros id' o Ho Hg Hc. simpl.
  destruct (H2 id' o Ho Hg Hc) as [?|[->|?]%elem_of_cons]; [left; set_solver|left; set_solver|by right].
Qed.

Definition stopping (l : list Z) (s : world) : Prop :=
  a_shutdown s = true ∧ ∀ id, is_Some (a_operations s !! id) → id ∈ a_canceled s ∨ id ∈ l.
Lemma stopping_mine n l : mine n (stopping l).
Proof.
  intros u s s' Hu Ht [H1 H2]. destruct (at_shutdown _ _ _ Ht H1) as (H3 & H4 & H5). split; [done|].
  intros id Hid. apply elem_of_dom in Hid. apply H4, elem_of_dom, H2 in Hid as [?|?]; [left; set_solver|by right].
Qed.

Lemma shutdown_safe n :
  let t := CallShutdown n in
  asafe t (act_unused n) Shutdown (λ first s, first = true → stopping [] s).
Proof.
  intros t. unfold Shutdown. eapply safe_compose.
  { apply (safe_atomically _ _ t (act_unused n) _ (λ o s, match o with Some l => stopping l s | None => True end)).
    - intros [l|]; apply (act_mine_stable t); [apply stopping_mine|apply kept_const].
    - intros s Hi Hu. simpl. destruct (a_shutdown s) eqn:Hsh; simpl; [split; [by apply act_stay_ok|done]|]. split.
      + split_and!; [by destruct Hi|split|constructor]; simpl; try done; [apply registry_step_refl|exists []; by rewrite app_nil_r|by left].
      + split; [done|]. intros id [o Ho]. right. apply list_elem_of_fmap. exists (id, o).
        split; [done|]. by apply elem_of_map_to_list. }
  intros [l|]; [|by apply safe_return]. eapply safe_compose; [apply (cancel_all_safe t stopping)|].
  - intros l'. apply stopping_mine.
  - intros id l' s [H1 H2]. split; [done|]. intros id' Hid. simpl.
    destruct (H2 id' Hid) as [?|[->|?]%elem_of_cons]; [left; set_solver|left; set_solver|by right].
  - intros []. apply safe_return. by intros s _ ? _.
Qed.

(** ** Soundness *)

Lemma act_environment_ok m s : act_inv s → astep None s (environment m s).
Proof.
  intros Hi. pose proof Hi as [Hr Hc Hs Hx]. destruct m as [d|n e|g]; simpl.
  - split_and!; [split; simpl; try done; by eapply registry_later; [|done]; lia|apply plain_trans; simpl; try done|constructor];
      [apply registry_step_refl|lia].
  - split_and!; [by split|apply plain_trans; simpl; try done|constructor]; [apply registry_step_refl].
  - case_bool_decide as Hg; [by apply act_stay_ok|].
    split_and!; [by split|apply plain_trans; simpl; try done|constructor]; [apply registry_step_refl|set_solver].
Qed.

Lemma respond_safe t L (p : prog world question answer (result err ActionAcceptedDTO)) :
  asafe t L p (action_post (λ _, True) t) →
  (match t with CallRestart _ _ _ _ _ | CallOnGeneration _ _ | CallShutdown _ => False | _ => True end) →
  asafe t L (respond p) (ends act_spec t).
Proof.
  intros Hp Ht. eapply safe_compose; [exact Hp|]. intros r. apply safe_return. intros s _ (_ & Hun & Hc).
  assert (∀ dto, match r with Ok dto => Ok (dto, false) | Err e => Err e end = Ok (dto, false) → confirmed_by t dto s) as Hc'.
  { intros dto Hd. destruct r; simplify_eq. by apply Hc. }
  assert (∀ dto, match r with Ok dto => Ok (dto, false) | Err e => Err e end ≠ Ok (dto, true)) as Hn by (by destruct r).
  destruct t; try done; by split_and!.
Qed.

Lemma code_safe t : asafe t (act_unused (request t)) (call_code deployment_yaml resource_yaml canonicalBodyHash t) (ends act_spec t).
Proof.
  assert (∀ (p : prog world question answer (outcome Empty_set reply)),
    asafe t (λ s, True ∧ before (request t) s) p (ends act_spec t) → asafe t (act_unused (request t)) p (ends act_spec t)) as Hin.
  { intros p. apply safe_consequence. intros s _ Hu. split; [done|]. by apply unused_before. }
  destruct t as [n b route key r|n b route r|n b route r|n b route r|n b route r|n b route c|n b route r|n b res route|n b res route r|n g|n];
    cbn [call_code request] in *.
  - eapply safe_compose; [apply restart_safe|]. intros x. by apply safe_return.
  - apply Hin, respond_safe; [apply scale_safe|done].
  - apply Hin, respond_safe; [apply delete_pod_safe|done].
  - apply Hin, respond_safe; [apply delete_workload_safe|done].
  - apply Hin, respond_safe; [apply suspend_safe|done].
  - apply Hin, respond_safe; [apply trigger_safe|done].
  - apply Hin, respond_safe; [apply deployment_yaml_safe|done].
  - apply Hin. eapply safe_compose; [apply read_yaml_safe|]. intros x. by apply safe_return.
  - apply Hin, respond_safe; [apply resource_yaml_safe|done].
  - eapply safe_compose; [apply on_generation_safe|]. intros []. by apply safe_return.
  - eapply safe_compose; [apply shutdown_safe|]. intros first. apply safe_return. intros s _ Hf.
    destruct first; simpl; [|done]. destruct (Hf eq_refl) as [H1 H2]. split; [done|].
    intros id Hid. destruct (H2 id Hid) as [?|Hn]; [done|by inversion Hn].
Qed.

Lemma post_mine t r : mine (request t) (λ s, post act_spec t r s).
Proof.
  assert (∀ x, mine (request t) (λ s, unregistered (request t) s
      ∧ (∀ dto, x = Ok (dto, false) → confirmed_by t dto s) ∧ match t with CallRestart n b route key req => restart_replied n b route key req x s | _ => ∀ dto, x ≠ Ok (dto, true) end)) as Ha.
  { intros x. apply kept_and; [apply unregistered_mine|]. apply kept_and.
    - apply kept_all. intros dto. apply kept_impl, confirmed_mine.
    - destruct t; try apply kept_const. destruct x as [[dto []]|]; simpl; try apply kept_const.
      + do 2 (apply kept_exists; intros ?). apply kept_and; [apply kept_const|apply reglog_mine].
      + apply kept_exists; intros ?. apply reglog_mine. }
  pose proof (unregistered_mine (request t)) as Hun.
  destruct t, r as [x|x| |first]; simpl in *; try apply Ha; try exact Hun; try apply kept_const; try apply hooking_mine.
  destruct first; [|apply kept_const]. intros u s s' Hu Ht [H1 H2].
  destruct (stopping_mine n [] u s s' Hu Ht) as [H3 H4]; [split; [done|by left; apply H2]|].
  split; [done|]. intros id Hid. destruct (H4 id Hid) as [?|Hn]; [done|by inversion Hn].
Qed.

#[export] Instance act_sound : Sound sys act_spec.
Proof.
  split.
  - intros t. apply act_mine_stable, unused_mine.
  - intros t [].
  - intros t r. apply act_mine_stable, post_mine.
  - apply code_safe.
  - intros t [].
  - intros t s _ _ Hu. split; [done|]. by apply Hu.
  - apply act_environment_ok.
  - intros n u s s' Ht Hu. apply (unused_mine n _ _ _ Hu). simpl in Ht. by destruct u.
  - done.
  - intros u s s' _. split_and!; [constructor..|]. intros w Hw. set_solver.
Qed.

(** ** The guarantees *)

Definition action_start (generation : string) (now ttl : Z) : @config world question (@answer F) call Empty_set (@reply F) :=
  Config (NewActionService generation now ttl) [].

Lemma action_start_ok g now ttl : config_ok sys act_spec (action_start g now ttl).
Proof.
  split; simpl; [|constructor|constructor|constructor| |intros w Hw; set_solver].
  - split; simpl; [split; simpl; try set_solver|set_solver|by intros [|? ?] ???|set_solver].
    + by intros [|? ?] ???.
    + rewrite map_size_empty. lia.
  - intros n _. split_and!; [done|set_solver|by intros id o Ho].
Qed.

Context (g : string) (now ttl : Z).
Abbreviation start := (action_start g now ttl).

Lemma action_inv c : reachable sys start c → act_inv (shared c).
Proof. intros Hr. apply (reachable_ok _ _ _ _ (action_start_ok g now ttl) Hr). Qed.

(** C7: Whatever requests, cancellations and selection changes interleave: while a command
    is at the cluster, it is the command of a request that passed validation, on the target
    of its route and in the selection of its binding; a review made by this request for
    exactly the access the action needs allowed it (reads may go ahead when the review is
    undecided), and after that review the request's generation was found to be current. *)
Theorem action_command_authorized c i t n id cmd :
  reachable sys start c → blocked c i = Some (t, AskAdapter n id cmd) →
  n = request t ∧ asks_for t cmd
  ∧ ∃ key kind cap a b, key_of t = Some (key, kind)
    ∧ a_log (shared c) = a ++ Cleared n (mt_Generation (command_target cmd)) :: b
    ∧ Reviewed n key kind cap ∈ a ∧ permits kind cap.
Proof.
  intros Hr Hb. pose proof (reachable_quiet _ _ _ _ _ _ _ (action_start_ok g now ttl) Hr Hb)
    as (Hn & Ha & key & kind & Hk & x & y & Hl & cap & Hin & Hp).
  split_and!; [done|done|]. exists key, kind, cap, x, y. by split_and!.
Qed.

(** C8: A restart runs at most once per idempotency key. When a request starts to execute
    under a key, every earlier execution under that key, for whatever request body, has
    ended, and was canceled or ended at least the time to live before; a restart command is
    only sent by a request that is executing, and no request sends two commands. *)
Theorem restart_at_most_once c :
  reachable sys start c →
  let log := ir_log (a_restarts (shared c)) in
  (∀ a key identity n u b, log = a ++ Executing key identity n u :: b →
     ∀ identity' m u', Executing key identity' m u' ∈ a →
     ∃ o ended, Finished key m o ended ∈ a
       ∧ (is_canceled_outcome o = true ∨ (ended + ir_ttl (a_restarts (shared c)) ≤ u)%Z))
  ∧ (∀ n id cmd, Sent n id cmd ∈ a_log (shared c) → is_restart cmd = true →
     ∃ key identity u, Executing key identity n u ∈ log)
  ∧ ∀ a n id cmd b, a_log (shared c) = a ++ Sent n id cmd :: b → ∀ id' cmd', Sent n id' cmd' ∉ a.
Proof.
  intros Hr log. destruct (action_inv c Hr) as [Hreg _ Hs Hx]. split_and!; [|done|].
  - intros a key identity n u b Hl identity' m u' Hin.
    destruct (ri_log _ _ Hreg _ _ _ Hl _ _ _ Hin) as (o & t & H1 & H2). by exists o, t.
  - intros a n id cmd b Hl. apply (Hs _ _ _ Hl).
Qed.

(** C9: An action is reported as accepted only when it was performed: this request sent the
    command it asked for and the cluster answered it with the reported resource version; a
    replayed restart reports the recorded result of the one execution under its key that
    has the same method, path, cluster, generation and body. *)
Theorem accepted_action_performed c i t dto replayed :
  reachable sys start c → returned c i = Some (t, ActionReply (Ok (dto, replayed))) →
  if replayed : bool then
    ∃ n b route key r hash m u ended, t = CallRestart n b route key r ∧ canonicalBodyHash r = Some hash
      ∧ Executing key (restart_identity b route hash) m u ∈ ir_log (a_restarts (shared c))
      ∧ Finished key m (Ok dto) ended ∈ ir_log (a_restarts (shared c))
  else ∃ v id cmd, asks_for t cmd ∧ Sent (request t) id cmd ∈ a_log (shared c)
      ∧ Answered (request t) v ∈ a_log (shared c)
      ∧ ac_ResourceVersion dto = (if String.eqb v "" then None else Some v).
Proof.
  intros Hr Hret. pose proof (reachable_post _ _ _ _ _ _ _ _ (action_start_ok g now ttl) Hr Hret (reach_start _ c)) as Hp.
  destruct (action_inv c Hr) as [Hreg _ _ _]. destruct replayed.
  - destruct t as [n b route key r|n b route r|n b route r|n b route r|n b route r|n b route cf|n b route r|n b res route|n b res route r|n g'|n];
      simpl in Hp; try done; try by destruct Hp as (_ & _ & Hno); destruct (Hno dto).
    destruct Hp as (_ & _ & hash & m & Hh & Hin). apply list_elem_of_split in Hin as (a & b' & Hl).
    destruct (ri_log _ _ Hreg _ _ _ Hl) as [[u Hu] [ended He]]. exists n, b, route, key, r, hash, m, u, ended.
    rewrite Hl. split_and!; [done|done|set_solver..].
  - assert (confirmed_by t dto (shared c)) as (v & (id & cmd & Ha & Hs & Hv) & Hver).
    { destruct t; simpl in Hp; try done; destruct Hp as (_ & Hc & _); by apply Hc. }
    by exists v, id, cmd.
Qed.

(** A change of the selection stops what it left behind. Once the action service has
    been told of a new generation, every registered operation of a generation that had
    been retired by then, and that passed its check and so may have reached the cluster,
    has a canceled context, now and at any later time. *)
Theorem retired_operations_canceled c i n g' c' :
  reachable sys start c → returned c i = Some (CallOnGeneration n g', HookReply) → reachable sys c c' →
  ∀ R id o, Hook n g' R ∈ a_log (shared c') → a_operations (shared c') !! id = Some o →
    go_generation o ∈ R → go_generation o ≠ g' →
    Cleared (go_request o) (go_generation o) ∈ a_log (shared c') → id ∈ a_canceled (shared c').
Proof.
  intros Hr Hret Hr' R id o Hin Ho HR Hne Hc.
  pose proof (reachable_post _ _ _ _ _ _ _ _ (action_start_ok g now ttl) Hr Hret Hr') as Hp. simpl in Hp.
  destruct (Hp R Hin) as [_ Hsp]. destruct (Hsp id o Ho) as [?|Hn]; [set_solver|done|done|by inversion Hn].
Qed.

(** After the first shutdown has returned, the contexts of all registered operations are
    canceled. *)
Theorem shutdown_cancels_all c i n c' :
  reachable sys start c → returned c i = Some (CallShutdown n, ShutdownReply true) → reachable sys c c' →
  a_shutdown (shared c') = true ∧ ∀ id, is_Some (a_operations (shared c') !! id) → id ∈ a_canceled (shared c').
Proof.
  intros Hr Hret Hr'. apply (reachable_post _ _ _ _ _ _ _ _ (action_start_ok g now ttl) Hr Hret Hr').
Qed.
End safety.

(** ** A run *)

#[local] Existing Instance demo_action_errors.
Definition demo_route : RouteTarget := {| rt_Kind := "deployments"; rt_Namespace := "shop"; rt_Name := "web" |}.
Definition demo_restart : RestartRequest := {|
  rs_Confirmation := {|
    cf_Confirmed := true; cf_Action := ActionRestart; cf_ConsequenceCode := ConsequenceRecreateWorkloadPods;
    cf_Target := {| tg_ClusterProfileID := 1; tg_Context := "dev"; tg_Namespace := "shop";
                    tg_Kind := "Deployment"; tg_Name := "web" |};
    cf_ExpectedGeneration := "gen_1" |};
  rs_ExpectedResourceVersion := "41" |}.
Definition demo_call (n : nat) : call := CallRestart n demo_binding demo_route "0123456789abcdef" demo_restart.

Definition demo_actions := action_system (F := unit) true true (λ _, Some "hash").
Definition demo_actions_start := action_start (F := unit) "gen_1" 0 DefaultIdempotencyTTL.
Definition demo_key : Key := {|
  k_Generation := "gen_1"; k_Namespace := "shop"; k_APIGroup := "apps"; k_Resource := "deployments";
  k_Subresource := ""; k_Verb := "patch"; k_ResourceName := "web" |}.
Definition demo_allow : Capability := capabilityFor demo_key DecisionAllowed ReasonSARAllowed 0.

(** Steps of goroutine [i] up to the next question. *)
Definition steps (i : nat) : list (@move (@answer unit) call env_move) := replicate 12 (Run i).
Definition demo_sent : list (@move (@answer unit) call env_move) :=
  [Call (demo_call 0)] ++ steps 0 ++ [Reply 0 (ReviewIs demo_allow)] ++ steps 0.
Definition demo_done := demo_sent ++ [Reply 0 (AdapterOk "42" "")] ++ steps 0.
Definition demo_rotated :=
  demo_sent ++ [Env (RotateGeneration "gen_2"); Call (CallOnGeneration 7 "gen_2")] ++ steps 1.
(** The client of the first request is gone, and asks again with the same key. *)
Definition demo_retried :=
  demo_sent ++ [Env (ContextEnds 0 Canceled); Reply 0 (AdapterErr (CtxErr Canceled))] ++ steps 0
  ++ [Call (demo_call 1)] ++ steps 1 ++ [Reply 1 (ReviewIs demo_allow)] ++ steps 1.
Definition demo_at (l : list (@move (@answer unit) call env_move)) := schedule demo_actions demo_actions_start l.

#[local] Instance decision_known_dec (q : question) (a : @answer unit) : Decision (decision_known q a).
Proof. unfold decision_known. destruct a; apply _. Defined.
#[local] Instance demo_callable_dec (t : call) : Decision (callable demo_actions t).
Proof. left. exact I. Defined.
#[local] Instance demo_env_dec (q : question) (a : @answer unit) : Decision (env_ok demo_actions q a).
Proof. apply decision_known_dec. Defined.

Lemma demo_reached l :
  bool_decide (moves_ok demo_actions demo_actions_start l) = true →
  reachable demo_actions demo_actions_start (demo_at l).
Proof. intros Hl. apply schedule_reachable. by apply bool_decide_eq_true in Hl. Qed.

(** A run in which a restart is repeated after its client disconnected. Although the command
    was already at the cluster, the end of the request's context cancels it and drops the
    entry of its key: the same request with the same key, at the same instant, is executed
    and sent a second time. *)
Example disconnect_repeats_restart :
  ∃ c key identity id id' cmd,
    reachable demo_actions demo_actions_start c
    ∧ Executing key identity 0 0%Z ∈ ir_log (a_restarts (shared c))
    ∧ Executing key identity 1 0%Z ∈ ir_log (a_restarts (shared c))
    ∧ Sent 0 id cmd ∈ a_log (shared c) ∧ Sent 1 id' cmd ∈ a_log (shared c)
    ∧ is_restart cmd = true.
Proof.
  exists (demo_at demo_retried), "0123456789abcdef", (restart_identity demo_binding demo_route "hash"), 1%Z, 2%Z,
    (RestartDeployment (target_of demo_binding demo_route "Deployment") "41" 0).
  split_and!; [apply demo_reached; by vm_compute|..|done].
  - apply list_elem_of_lookup_2 with 0. by vm_compute.
  - apply list_elem_of_lookup_2 with 2. by vm_compute.
  - apply list_elem_of_lookup_2 with 3. by vm_compute.
  - apply list_elem_of_lookup_2 with 8. by vm_compute.
Qed.

(** ** Witnesses *)

Definition demo_command : command :=
  RestartDeployment (target_of demo_binding demo_route "Deployment") "41" 0.

Lemma action_command_authorized_witness :
  blocked (demo_at demo_sent) 0 = Some (demo_call 0, AskAdapter 0 1 demo_command)
  ∧ asks_for (F := unit) (demo_call 0) demo_command.
Proof.
  assert (blocked (demo_at demo_sent) 0 = Some (demo_call 0, AskAdapter 0 1 demo_command)) as Hb by (by vm_compute).
  assert (reachable demo_actions demo_actions_start (demo_at demo_sent)) as Hr by (apply demo_reached; by vm_compute).
  split; [exact Hb|].
  exact (proj1 (proj2 (action_command_authorized true true (λ _, Some "hash") "gen_1" 0 DefaultIdempotencyTTL
    (demo_at demo_sent) 0 (demo_call 0) 0 1 demo_command Hr Hb))).
Defined.

Definition demo_ended : @reg_event unit ActionAcceptedDTO :=
  Finished "0123456789abcdef" 0 (Err (Public CodeClientCanceled 0 false [] (Some (CtxErr Canceled)))) 0.
Definition demo_executing (n : nat) : @reg_event unit ActionAcceptedDTO :=
  Executing "0123456789abcdef" (restart_identity demo_binding demo_route "hash") n 0.

Lemma restart_at_most_once_witness :
  ∃ o ended, Finished "0123456789abcdef" 0 o ended ∈ [demo_executing 0; demo_ended]
    ∧ (is_canceled_outcome o = true ∨ (ended + DefaultIdempotencyTTL ≤ 0)%Z).
Proof.
  assert (reachable demo_actions demo_actions_start (demo_at demo_retried)) as Hr by (apply demo_reached; by vm_compute).
  exact (proj1 (restart_at_most_once true true (λ _, Some "hash") "gen_1" 0 DefaultIdempotencyTTL
    (demo_at demo_retried) Hr) [demo_executing 0; demo_ended] "0123456789abcdef"
    (restart_identity demo_binding demo_route "hash") 1 0%Z [] ltac:(by vm_compute)
    (restart_identity demo_binding demo_route "hash") 0 0%Z (list_elem_of_here _ _)).
Defined.

Lemma accepted_action_performed_witness :
  ∃ v id cmd, asks_for (F := unit) (demo_call 0) cmd ∧ Sent 0 id cmd ∈ a_log (shared (demo_at demo_done))
    ∧ Answered 0 v ∈ a_log (shared (demo_at demo_done)) ∧ Some "42" = (if String.eqb v "" then None else Some v).
Proof.
  assert (reachable demo_actions demo_actions_start (demo_at demo_done)) as Hr by (apply demo_reached; by vm_compute).
  exact (accepted_action_performed true true (λ _, Some "hash") "gen_1" 0 DefaultIdempotencyTTL (demo_at demo_done) 0
    (demo_call 0) (accepted ActionRestart (cf_Target (rs_Confirmation demo_restart)) "gen_1" (Some "42") None) false Hr
    ltac:(by vm_compute)).
Defined.

Lemma retired_operations_canceled_witness :
  (1%Z ∈ a_canceled (shared (demo_at demo_rotated))).
Proof.
  assert (reachable demo_actions demo_actions_start (demo_at demo_rotated)) as Hr by (apply demo_reached; by vm_compute).
  refine (retired_operations_canceled true true (λ _, Some "hash") "gen_1" 0 DefaultIdempotencyTTL (demo_at demo_rotated)
    1 7 "gen_2" (demo_at demo_rotated) Hr ltac:(by vm_compute) (reach_start _ _) {["gen_1"]} 1
    {| go_generation := "gen_1"; go_request := 0 |} _ ltac:(by vm_compute) _ _ _).
  - apply list_elem_of_lookup_2 with 4. by vm_compute.
  - set_solver.
  - done.
  - apply list_elem_of_lookup_2 with 2. by vm_compute.
Defined.
