(* ===== verification/Exec.v ===== *)
(** * Exec: interactive sessions in containers

    Models src/internal/services/actions/exec.go and exec_abort.go, and the part of
    src/internal/api/handlers/actions_exec.go that takes a ticket to a running session.
    Tickets, reservations and sessions live in the manager's maps; a session's state is an
    object that the goroutines working on it share after it left the map. Objects, contexts
    and remote processes are named by the number of the request that made them. The
    cluster, the reviewer, the identifier source, the WebSocket handshake and the timers
    answer at [Await] or are steps of the environment.

    Go panics when a channel is closed twice or written after its end; [x_panicked] records
    that it happened. The log and the set of spawned goroutines are read by nothing. *)
From Stdlib Require Import Ascii String ZArith Lia.
From stdpp Require Import base gmap strings list.
From S2P Require Import Prelude Json Topics Unicode Cursor Ports Retry Pagination Collect Catalogue Access Authorization Selection Actions Threads.
Local Open Scope string_scope.
Local Open Scope list_scope.

Definition MaximumExecSessions : nat := 2.
Definition maximumPendingTickets : nat := 128.
Definition ExecWebSocketProtocol : string := "kubepeep.exec.v1".
Definition ExecTicketPrefix : string := "kp-ticket.".

(** ** Terminals *)

Inductive ExecTerminal :=
| TerminalExit (exitCode : option Z) (reason : string) (closeCode : Z)
| TerminalError (code : ErrorCode) (retryable : bool) (closeCode : Z).
#[export] Instance ExecTerminal_eq_dec : EqDecision ExecTerminal.
Proof. solve_decision. Defined.

Definition ExecExitCompleted : string := "completed".
Definition ExecExitRemoteError : string := "remote_error".
Definition ExecExitSignal : string := "signal".
Definition ExecExitCanceled : string := "canceled".

Definition statusForTerminal (code : ErrorCode) : Z :=
  match code with
  | CodeForbidden => 403
  | CodeGenerationChanged => 409
  | CodeLimitExceeded => 429
  | CodeAuthorizationUnavailable | CodeAuthenticationUnavailable | CodeClusterUnavailable
  | CodeServerShutdown => 503
  | CodeUpstreamTimeout => 504
  | _ => 500
  end.

Inductive ExecAbortReason :=
| ExecAbortProtocolViolation | ExecAbortBackpressure | ExecAbortMessageTooLarge | ExecAbortInternal
| ExecAbortOther (name : string).
Definition abort_terminal (reason : ExecAbortReason) : option ExecTerminal :=
  match reason with
  | ExecAbortProtocolViolation => Some (TerminalError CodeProtocolViolation false 1008)
  | ExecAbortBackpressure => Some (TerminalError CodeLimitExceeded true 1008)
  | ExecAbortMessageTooLarge => Some (TerminalError CodeLimitExceeded false 1009)
  | ExecAbortInternal => Some (TerminalError CodeInternal false 1011)
  | ExecAbortOther _ => None
  end.

Section terminals.
Context {F : Type} `{!ActionErrors F}.

Record RemoteExecExit := { re_ExitCode : option Z; re_Signaled : bool; re_Err : option (aerr F) }.

Definition is_target_gone (e : aerr F) : bool := chain_is is_ExecTargetGone e.

Definition translateExecSetupError (e : aerr F) : aerr F :=
  if is_target_gone e then publicError CodeExecTargetGone 404 false (Some e) else translateError e.

Definition terminalForRemoteExit (r : RemoteExecExit) : ExecTerminal :=
  match re_Err r with
  | Some e =>
    if is_target_gone e then TerminalError CodeExecTargetGone false 1008
    else match ErrorCodeOf (translateError e) with
         | Some CodeForbidden => TerminalError CodeForbidden false 1008
         | Some CodeAuthorizationUnavailable => TerminalError CodeAuthorizationUnavailable true 1008
         | Some CodeAuthenticationUnavailable => TerminalError CodeAuthenticationUnavailable true 1011
         | Some CodeClusterUnavailable | Some CodeUpstreamTimeout => TerminalError CodeClusterUnavailable true 1011
         | _ => TerminalError CodeExecUpstreamError false 1011
         end
  | None =>
    if re_Signaled r then TerminalExit None ExecExitSignal 1000
    else match re_ExitCode r with
         | Some code =>
           if (code <? 0)%Z || (255 <? code)%Z then TerminalError CodeExecUpstreamError false 1011
           else TerminalExit (Some code) (if (code =? 0)%Z then ExecExitCompleted else ExecExitRemoteError) 1000
         | None => TerminalExit None ExecExitCompleted 1000
         end
  end.

Definition protocol_error : aerr F :=
  validationError [Violation "Sec-WebSocket-Protocol" "exec_protocol_and_one_ticket"].

(** The loop over the offered protocols: whether the exec protocol was seen, and the ticket. *)
Fixpoint scan_protocols (seen : bool) (ticket : string) (l : list string) : option (bool * string) :=
  match l with
  | [] => Some (seen, ticket)
  | p :: l =>
    if String.eqb p ExecWebSocketProtocol && negb seen then scan_protocols true ticket l
    else if HasPrefix p ExecTicketPrefix && String.eqb ticket ""
    then scan_protocols seen (string_of_list_ascii (drop (String.length ExecTicketPrefix) (chars p))) l
    else None
  end.

Definition separators : string :=
  ", " +:+ String (ascii_of_nat 9) (String (ascii_of_nat 13) (String (ascii_of_nat 10) "")).

Definition parseExecProtocols (protocols : list string) : result (aerr F) string :=
  if negb (length protocols =? 2)%nat then Err protocol_error
  else match scan_protocols false "" protocols with
       | Some (true, ticket) =>
         if String.eqb ticket "" || (256 <? len ticket)%Z || ContainsAny ticket separators
         then Err protocol_error else Ok ticket
       | _ => Err protocol_error
       end.

Record ExecTargetState := { et_PodExists : bool; et_ContainerExists : bool; et_ContainerRunning : bool }.

(** [inspect] after the inspector answered. *)
Definition inspected (upgrade : bool) (r : result (aerr F) ExecTargetState) : option (aerr F) :=
  match r with
  | Err e =>
    if upgrade && (is_target_gone e || bool_decide (ErrorCodeOf (translateError e) = Some CodeNotFound))
    then Some (publicError CodeExecTargetGone 404 false (Some e)) else Some (translateError e)
  | Ok st =>
    if negb (et_PodExists st)
    then Some (publicError (if upgrade then CodeExecTargetGone else CodeNotFound) 404 false None)
    else if negb (et_ContainerExists st) || negb (et_ContainerRunning st)
    then if upgrade && negb (et_ContainerExists st)
         then Some (publicError CodeExecTargetGone 404 false None)
         else Some (validationError [Violation "container" "existing_running_container"])
    else None
  end.
End terminals.

(** ** The manager's state *)

(** [tk_request] is the request that created the ticket. *)
Record execTicket := {
  tk_tokenHash : string; tk_binding : SelectionBinding; tk_target : MutationTarget;
  tk_init : ExecInit; tk_expiresAt : Z; tk_request : nat }.

(** [es_terminal] and [es_closed] are the channel [terminal], [es_touched] is [touch];
    [es_timer] says that the reservation timer is armed, [es_cancel] and [es_remote] name
    the context [cancel] ends and the process [remote]. [es_finished] is [finishOnce]. Read
    by nothing, [es_closer] is who has taken over to close the channel. *)
Record execSessionState := {
  es_id : string; es_leaseID : string; es_binding : SelectionBinding; es_target : MutationTarget;
  es_init : ExecInit; es_terminal : option ExecTerminal; es_closed : bool; es_touched : bool;
  es_timer : bool; es_cancel : option nat; es_remote : option nat; es_active : bool; es_startedAt : Z;
  es_requested : option ExecTerminal; es_finished : bool; es_closer : option who }.

Record ExecGrant := { gr_SessionID : string; gr_Generation : string; gr_leaseID : string }.

Record ExecCommand := {
  xc_Target : MutationTarget; xc_Container : string; xc_Command : list string; xc_TTY : bool;
  xc_Stdin : bool }.
Definition exec_command (target : MutationTarget) (r : ExecInit) : ExecCommand := {|
  xc_Target := target; xc_Container := ei_Container r; xc_Command := ei_Command r;
  xc_TTY := ei_TTY r; xc_Stdin := ei_Stdin r |}.

(** [Issued] is a ticket in the map, [Used] its removal by an upgrade that read the clock
    at [now]; [Cleared] is a passed
    check of the generation; [Launched] is the adapter's [Start]; [Hook] is [OnGeneration]
    reading the sessions, with the generations that were no longer current then. *)
Inductive exec_event :=
| Issued (n : nat) (id : string) (t : execTicket)
| Used (n : nat) (id : string) (t : execTicket) (now : Z)
| ExecReviewed (n : nat) (key : Key) (c : Capability)
| ExecCleared (n : nat) (generation : string)
| Launched (n : nat) (c : ExecCommand)
| ExecHook (n : nat) (current : string) (retired : gset string).
Definition exec_request (e : exec_event) : nat :=
  match e with
  | Issued n _ _ | Used n _ _ _ | ExecReviewed n _ _ | ExecCleared n _ | Launched n _ | ExecHook n _ _ => n
  end.

Inductive goroutine :=
| CallCreateTicket (n : nat) (b : SelectionBinding) (route : RouteTarget) (r : ExecInit)
| CallServe (n : nat) (b : SelectionBinding) (id : string) (protocols : list string)
| CallTouch (n : nat) (id : string)
| CallCancel (n : nat) (id : string)
| CallAbort (n : nat) (id : string) (reason : ExecAbortReason)
| CallOnGeneration (n : nat) (current : string)
| CallShutdown (n : nat)
| GoMonitor (k m : nat)
| GoExpire (k m : nat) (id lease : string).

Record world := {
  x_generation : string; x_retired : gset string; x_now : Z; x_ctx : gmap nat ctx_error;
  x_tickets : gmap string execTicket; x_sessions : gmap string nat;
  x_states : gmap nat execSessionState; x_canceled : gset nat; x_remotes : gset nat;
  x_shutdown : bool; x_panicked : bool; x_audit : list AuditEvent;
  x_spawned : list (nat → goroutine); x_log : list exec_event }.

Definition NewExecService (generation : string) (now : Z) : world := {|
  x_generation := generation; x_retired := ∅; x_now := now; x_ctx := ∅; x_tickets := ∅;
  x_sessions := ∅; x_states := ∅; x_canceled := ∅; x_remotes := ∅; x_shutdown := false;
  x_panicked := false; x_audit := []; x_spawned := []; x_log := [] |}.

(** Updates of single fields. *)
Definition set_maps (tickets : gmap string execTicket) (sessions : gmap string nat)
    (states : gmap nat execSessionState) (w : world) : world := {|
  x_generation := x_generation w; x_retired := x_retired w; x_now := x_now w; x_ctx := x_ctx w;
  x_tickets := tickets; x_sessions := sessions; x_states := states; x_canceled := x_canceled w;
  x_remotes := x_remotes w; x_shutdown := x_shutdown w; x_panicked := x_panicked w;
  x_audit := x_audit w; x_spawned := x_spawned w; x_log := x_log w |}.
Definition set_effects (canceled remotes : gset nat) (shutdown panicked : bool) (w : world) : world := {|
  x_generation := x_generation w; x_retired := x_retired w; x_now := x_now w; x_ctx := x_ctx w;
  x_tickets := x_tickets w; x_sessions := x_sessions w; x_states := x_states w;
  x_canceled := canceled; x_remotes := remotes; x_shutdown := shutdown; x_panicked := panicked;
  x_audit := x_audit w; x_spawned := x_spawned w; x_log := x_log w |}.
Definition set_history (audit : list AuditEvent) (spawned : list (nat → goroutine)) (log : list exec_event)
    (w : world) : world := {|
  x_generation := x_generation w; x_retired := x_retired w; x_now := x_now w; x_ctx := x_ctx w;
  x_tickets := x_tickets w; x_sessions := x_sessions w; x_states := x_states w;
  x_canceled := x_canceled w; x_remotes := x_remotes w; x_shutdown := x_shutdown w;
  x_panicked := x_panicked w; x_audit := audit; x_spawned := spawned; x_log := log |}.
Definition set_clock (generation : string) (retired : gset string) (now : Z) (ctx : gmap nat ctx_error)
    (w : world) : world := {|
  x_generation := generation; x_retired := retired; x_now := now; x_ctx := ctx;
  x_tickets := x_tickets w; x_sessions := x_sessions w; x_states := x_states w;
  x_canceled := x_canceled w; x_remotes := x_remotes w; x_shutdown := x_shutdown w;
  x_panicked := x_panicked w; x_audit := x_audit w; x_spawned := x_spawned w; x_log := x_log w |}.

Definition put_tickets (m : gmap string execTicket) (w : world) : world :=
  set_maps m (x_sessions w) (x_states w) w.
Definition put_sessions (m : gmap string nat) (w : world) : world :=
  set_maps (x_tickets w) m (x_states w) w.
Definition on_state (m : nat) (f : execSessionState → execSessionState) (w : world) : world :=
  set_maps (x_tickets w) (x_sessions w) (alter f m (x_states w)) w.
Definition emit (e : exec_event) (w : world) : world :=
  set_history (x_audit w) (x_spawned w) (x_log w ++ [e]) w.
Definition spawn (g : nat → goroutine) (w : world) : world :=
  set_history (x_audit w) (x_spawned w ++ [g]) (x_log w) w.
Definition cancel_context (m : nat) (w : world) : world :=
  set_effects ({[m]} ∪ x_canceled w) (x_remotes w) (x_shutdown w) (x_panicked w) w.
Definition open_remote (m : nat) (w : world) : world :=
  set_effects (x_canceled w) ({[m]} ∪ x_remotes w) (x_shutdown w) (x_panicked w) w.
Definition close_remote (m : nat) (w : world) : world :=
  set_effects (x_canceled w) (x_remotes w ∖ {[m]}) (x_shutdown w) (x_panicked w) w.

(** Updates of a session's state. *)
Definition with_channel (terminal : option ExecTerminal) (closed : bool) (s : execSessionState) : execSessionState := {|
  es_id := es_id s; es_leaseID := es_leaseID s; es_binding := es_binding s; es_target := es_target s;
  es_init := es_init s; es_terminal := terminal; es_closed := closed; es_touched := es_touched s;
  es_timer := es_timer s; es_cancel := es_cancel s; es_remote := es_remote s; es_active := es_active s;
  es_startedAt := es_startedAt s; es_requested := es_requested s; es_finished := es_finished s;
  es_closer := es_closer s |}.
Definition with_timer (timer : bool) (cancel : option nat) (touched : bool) (s : execSessionState) : execSessionState := {|
  es_id := es_id s; es_leaseID := es_leaseID s; es_binding := es_binding s; es_target := es_target s;
  es_init := es_init s; es_terminal := es_terminal s; es_closed := es_closed s; es_touched := touched;
  es_timer := timer; es_cancel := cancel; es_remote := es_remote s; es_active := es_active s;
  es_startedAt := es_startedAt s; es_requested := es_requested s; es_finished := es_finished s;
  es_closer := es_closer s |}.
Definition activated (n k : nat) (now : Z) (s : execSessionState) : execSessionState := {|
  es_id := es_id s; es_leaseID := es_leaseID s; es_binding := es_binding s; es_target := es_target s;
  es_init := es_init s; es_terminal := es_terminal s; es_closed := es_closed s; es_touched := es_touched s;
  es_timer := es_timer s; es_cancel := es_cancel s; es_remote := Some n; es_active := true;
  es_startedAt := now; es_requested := es_requested s; es_finished := es_finished s;
  es_closer := Some (BySpawned k) |}.
Definition with_requested (t : ExecTerminal) (s : execSessionState) : execSessionState := {|
  es_id := es_id s; es_leaseID := es_leaseID s; es_binding := es_binding s; es_target := es_target s;
  es_init := es_init s; es_terminal := es_terminal s; es_closed := es_closed s; es_touched := es_touched s;
  es_timer := es_timer s; es_cancel := es_cancel s; es_remote := es_remote s; es_active := es_active s;
  es_startedAt := es_startedAt s; es_requested := Some t; es_finished := es_finished s;
  es_closer := es_closer s |}.
Definition taken_over (w : who) (s : execSessionState) : execSessionState := {|
  es_id := es_id s; es_leaseID := es_leaseID s; es_binding := es_binding s; es_target := es_target s;
  es_init := es_init s; es_terminal := es_terminal s; es_closed := es_closed s; es_touched := es_touched s;
  es_timer := false; es_cancel := es_cancel s; es_remote := es_remote s; es_active := es_active s;
  es_startedAt := es_startedAt s; es_requested := es_requested s; es_finished := es_finished s;
  es_closer := Some w |}.
Definition with_finished (s : execSessionState) : execSessionState := {|
  es_id := es_id s; es_leaseID := es_leaseID s; es_binding := es_binding s; es_target := es_target s;
  es_init := es_init s; es_terminal := es_terminal s; es_closed := es_closed s; es_touched := es_touched s;
  es_timer := es_timer s; es_cancel := es_cancel s; es_remote := es_remote s; es_active := es_active s;
  es_startedAt := es_startedAt s; es_requested := es_requested s; es_finished := true;
  es_closer := es_closer s |}.

(** ** Programs *)

(** [AskMonitor] is the [select] of [monitor]. *)
Inductive question :=
| AskInspect (n : nat) (target : MutationTarget) (container : string)
| AskReview (n : nat) (key : Key)
| AskAccept (n : nat)
| AskStart (n : nat) (c : ExecCommand)
| AskMonitor (m : nat).

Inductive env_move :=
| Tick (d : N)
| ContextEnds (n : nat) (e : ctx_error)
| RotateGeneration (generation : string)
| FireReservation (m : nat).

Section manager.
Context {F : Type} `{!ActionErrors F} `{!DnsNames}.
(** The hash of tokens, the random identifiers and tokens of each request, the order in
    which a map is walked, and the life of a ticket. *)
Context (sha256 : string → string) (NewID : nat → string → option string) (NewToken : nat → option string)
  (arrange : list nat → list nat) (ticketTTL : Z).
Abbreviation err := (aerr F).

(** [StartIs] is the remote process, if there is one, and the error of [Start]. *)
Inductive answer :=
| InspectIs (r : result err ExecTargetState)
| ReviewIs (c : Capability)
| Accepted (handshake protocol : bool)
| StartIs (remote : bool) (e : option err)
| RemoteExit (r : @RemoteExecExit F)
| Touched | IdleFired | DurationFired | LifetimeDone.

Abbreviation program := (prog world question answer).

Definition validateContext (n : nat) : program (option err) :=
  look (λ w, (λ e, translateError (CtxErr e)) <$> x_ctx w !! n).

Definition requireCurrent (n : nat) (generation : string) : program (option err) :=
  atomically (λ w,
    if String.eqb generation "" || negb (String.eqb (x_generation w) generation)
    then (Some generation_changed, w) else (None, emit (ExecCleared n generation) w)).

Definition record_audit (started : Z) (operation : string) (target : MutationTarget) (e : option err)
    : program () :=
  modify (λ w, set_history (x_audit w ++ [audit_event (x_now w) started operation target e])
                 (x_spawned w) (x_log w) w).
Definition audited {A} (operation : string) (target : MutationTarget) (p : program (result err A))
    : program (result err A) :=
  started ← look x_now;
  r ← p;
  _ ← record_audit started operation target (match r with Err e => Some e | Ok _ => None end);
  Ret r.

Definition inspect (n : nat) (target : MutationTarget) (container : string) (upgrade : bool)
    : program (option err) :=
  a ← receive (AskInspect n target container);
  Ret (match a with InspectIs r => inspected upgrade r | _ => Some internal_error end).

(** [Revalidate] for an upgrade: the review, always fresh. *)
Definition revalidate (n : nat) (key : Key) : program (option err) :=
  now ← look x_now;
  match call_guard key OperationUpgrade now with
  | GuardDone _ (Some e) => Ret (Some (translateError (AuthErr e)))
  | _ =>
    a ← receive (AskReview n key);
    match a with
    | ReviewIs c =>
      _ ← modify (emit (ExecReviewed n key c));
      Ret (match revalidated key OperationUpgrade c with
           | GuardDone _ (Some e) => Some (translateError (AuthErr e))
           | _ => None
           end)
    | _ => Ret (Some internal_error)
    end
  end.

(** The target's container, the permission, and the generation, in this order. *)
Definition exec_access (n : nat) (generation : string) (target : MutationTarget) (container : string)
    (upgrade : bool) : program (option err) :=
  e ← inspect n target container upgrade;
  match e with
  | Some e => Ret (Some e)
  | None =>
    match KeyForCapability generation (mt_Namespace target) "pods.exec.create" (mt_Name target) with
    | Err e => Ret (Some (translateError (AuthErr e)))
    | Ok key =>
      e ← revalidate n key;
      match e with
      | Some e => Ret (Some e)
      | None => requireCurrent n generation
      end
    end
  end.

Definition pruneTicketsLocked (now : Z) (m : gmap string execTicket) : gmap string execTicket :=
  filter (λ p : string * execTicket, (now < tk_expiresAt p.2)%Z) m.

(** The critical section that stores a ticket. *)
Definition store_ticket (n : nat) (id : string) (t : execTicket) (now : Z) (w : world) : option err * world :=
  let tickets := pruneTicketsLocked now (x_tickets w) in
  let w := put_tickets tickets w in
  if x_shutdown w then (Some server_shutdown, w)
  else if negb (String.eqb (x_generation w) (bind_Generation (tk_binding t))) then (Some generation_changed, w)
  else if (maximumPendingTickets <=? size tickets)%nat then (Some (limit_exceeded false), w)
  else match tickets !! id with
       | Some _ => (Some internal_error, w)
       | None => (None, emit (Issued n id t) (put_tickets (<[id := t]> tickets) w))
       end.

Record ExecTicketDTO := {
  td_SessionID : string; td_WebsocketURL : string; td_Protocols : list string; td_ExpiresAt : Z }.

Definition CreateTicket (n : nat) (b : SelectionBinding) (route : RouteTarget) (r : ExecInit)
    : program (result err ExecTicketDTO) :=
  let target := mutationTarget b (cf_Target (ei_Confirmation r)) in
  let generation := bind_Generation b in
  checked (validateContext n)
  (valid (validateExec b route r)
  (checked (requireCurrent n generation)
  (audited "exec_ticket_create" target
    (checked (exec_access n generation target (ei_Container r) false)
      (match NewID n "exec_", NewToken n with
       | Some id, Some token =>
         if String.eqb token "" || ContainsAny token separators then Ret (Err internal_error)
         else
           now ← look x_now;
           let t := {| tk_tokenHash := sha256 token; tk_binding := b; tk_target := target; tk_init := r;
                       tk_expiresAt := (now + ticketTTL)%Z; tk_request := n |} in
           checked (atomically (store_ticket n id t now))
             (Ret (Ok {| td_SessionID := id; td_WebsocketURL := "/api/v1/exec/" +:+ id +:+ "/stream";
                         td_Protocols := [ExecWebSocketProtocol; ExecTicketPrefix +:+ token];
                         td_ExpiresAt := (now + ticketTTL)%Z |}))
       | _, _ => Ret (Err (publicError CodeInternal 500 false None))
       end))))).

(** The critical section that consumes a ticket. *)
Definition take_ticket (n : nat) (id token : string) (now : Z) (w : world) : result err execTicket * world :=
  let tickets := pruneTicketsLocked now (x_tickets w) in
  let w := put_tickets tickets w in
  match tickets !! id with
  | None => (Err session_gone, w)
  | Some t =>
    if String.eqb (sha256 token) (tk_tokenHash t)
    then (Ok t, emit (Used n id t now) (put_tickets (delete id tickets) w))
    else (Err session_gone, w)
  end.

Definition new_state (id lease : string) (b : SelectionBinding) (t : execTicket) : execSessionState := {|
  es_id := id; es_leaseID := lease; es_binding := b; es_target := tk_target t; es_init := tk_init t;
  es_terminal := None; es_closed := false; es_touched := false; es_timer := true; es_cancel := None;
  es_remote := None; es_active := false; es_startedAt := 0; es_requested := None;
  es_finished := false; es_closer := None |}.

(** The critical section that reserves a session. *)
Definition reserve_session (n : nat) (s : execSessionState) (w : world) : option err * world :=
  if x_shutdown w then (Some server_shutdown, w)
  else if negb (String.eqb (x_generation w) (bind_Generation (es_binding s))) then (Some generation_changed, w)
  else if (MaximumExecSessions <=? size (x_sessions w))%nat then (Some (limit_exceeded false), w)
  else match x_sessions w !! es_id s with
       | Some _ => (Some internal_error, w)
       | None => (None, set_maps (x_tickets w) (<[es_id s := n]> (x_sessions w)) (<[n := s]> (x_states w)) w)
       end.

Definition same_selection (t : execTicket) (b : SelectionBinding) : bool :=
  (bind_ClusterProfileID (tk_binding t) =? bind_ClusterProfileID b)%Z
  && String.eqb (bind_Context (tk_binding t)) (bind_Context b)
  && String.eqb (bind_Generation (tk_binding t)) (bind_Generation b).

Definition AuthorizeUpgrade (n : nat) (b : SelectionBinding) (id : string) (protocols : list string)
    : program (result err ExecGrant) :=
  let generation := bind_Generation b in
  checked (validateContext n)
  (valid (validateBinding b)
  (valid (validateSessionID id "exec_")
  (match parseExecProtocols protocols with
   | Err e => Ret (Err e)
   | Ok token =>
     now ← look x_now;
     r ← atomically (take_ticket n id token now);
     match r with
     | Err e => Ret (Err e)
     | Ok t =>
       audited "exec_upgrade_authorize" (tk_target t)
         (if negb (same_selection t b) then Ret (Err generation_changed)
          else checked (requireCurrent n generation)
            (checked (exec_access n generation (tk_target t) (ei_Container (tk_init t)) true)
              (match NewID n "lease_" with
               | None => Ret (Err (publicError CodeInternal 500 false None))
               | Some lease =>
                 checked (atomically (reserve_session n (new_state id lease b t)))
                   (Ret (Ok {| gr_SessionID := id; gr_Generation := generation; gr_leaseID := lease |}))
               end)))
     end
   end))).

(** ** A session *)

Definition cancel (m : nat) : program () := modify (cancel_context m).
Definition close_process (m : nat) : program () := modify (close_remote m).
Definition if_set (o : option nat) (p : nat → program ()) : program () :=
  match o with Some x => p x | None => Ret tt end.

(** [close(state.terminal)] and [state.terminal <- t], of a channel with room for one. *)
Definition close_terminal (m : nat) : program () :=
  modify (λ w, match x_states w !! m with
               | Some s => if es_closed s then set_effects (x_canceled w) (x_remotes w) (x_shutdown w) true w
                           else on_state m (with_channel (es_terminal s) true) w
               | None => w
               end).
Definition send_terminal (m : nat) (t : ExecTerminal) : program () :=
  modify (λ w, match x_states w !! m with
               | Some s =>
                 if es_closed s || bool_decide (is_Some (es_terminal s))
                 then set_effects (x_canceled w) (x_remotes w) (x_shutdown w) true w
                 else on_state m (with_channel (Some t) false) w
               | None => w
               end).

(** Whether the map has this very state under its identifier. *)
Definition registered_state (m : nat) (w : world) : bool :=
  match x_states w !! m with
  | Some s => bool_decide (x_sessions w !! es_id s = Some m)
  | None => false
  end.
Definition drop_current (m : nat) (w : world) : world :=
  match x_states w !! m with
  | Some s => if registered_state m w then put_sessions (delete (es_id s) (x_sessions w)) w else w
  | None => w
  end.

(** The session a grant names, if its lease is the grant's. *)
Definition leased (g : ExecGrant) (w : world) : option (nat * execSessionState) :=
  m ← x_sessions w !! gr_SessionID g;
  s ← x_states w !! m;
  if negb (String.eqb (es_leaseID s) "") && String.eqb (es_leaseID s) (gr_leaseID g) then Some (m, s) else None.

(** The first critical section of [Start]. *)
Definition start_session (n : nat) (g : ExecGrant) (w : world) : result err (nat * execSessionState) * world :=
  match leased g w with
  | None => (Err session_gone, w)
  | Some (m, s) =>
    if es_active s then (Err session_gone, w)
    else if negb (String.eqb (bind_Generation (es_binding s)) (gr_Generation g))
            || negb (String.eqb (x_generation w) (gr_Generation g))
    then (Err generation_changed,
          on_state m (with_timer false (es_cancel s) (es_touched s))
            (put_sessions (delete (gr_SessionID g) (x_sessions w)) w))
    else (Ok (m, s), on_state m (with_timer false (Some n) (es_touched s)) w)
  end.

(** The last one: the session becomes active, and its monitor is started. *)
Definition activate (n m : nat) (w : world) : bool * world :=
  if registered_state m w && negb (x_shutdown w)
  then (true, spawn (λ k, GoMonitor k m)
                (on_state m (activated n (length (x_spawned w)) (x_now w)) w))
  else (false, w).

Definition started_at (m : nat) (w : world) : Z :=
  match x_states w !! m with Some s => es_startedAt s | None => 0%Z end.

Record ActiveExec := { ax_SessionID : string; ax_Generation : string; ax_TTY : bool; ax_Stdin : bool }.

(** [Start] after a setup that failed. *)
Definition failed_start (n m : nat) (g : ExecGrant) (remote : bool) (e : option err)
    : program (result err ActiveExec) :=
  _ ← cancel n;
  _ ← modify (drop_current m);
  c ← requireCurrent n (gr_Generation g);
  match c with
  | Some c => _ ← when remote (close_process n); Ret (Err c)
  | None =>
    shutdown ← look x_shutdown;
    if shutdown : bool then _ ← when remote (close_process n); Ret (Err server_shutdown)
    else Ret (Err (translateExecSetupError (default internal_error e)))
  end.

Definition Start (n : nat) (g : ExecGrant) : program (result err ActiveExec) :=
  checked (validateContext n)
  (r ← atomically (start_session n g);
   match r with
   | Err e => Ret (Err e)
   | Ok (m, s) =>
     let c := exec_command (es_target s) (es_init s) in
     _ ← modify (emit (Launched n c));
     a ← receive (AskStart n c);
     let '(remote, e) := match a with StartIs remote e => (remote, e) | _ => (false, None) end in
     _ ← when remote (modify (open_remote n));
     if negb remote || bool_decide (is_Some e) then failed_start n m g remote e
     else
       c ← requireCurrent n (gr_Generation g);
       match c with
       | Some c =>
         _ ← cancel n; _ ← close_process n; _ ← modify (drop_current m); Ret (Err c)
       | None =>
         active ← atomically (activate n m);
         if active : bool then
           started ← look (started_at m);
           _ ← record_audit started "exec_start" (es_target s) None;
           Ret (Ok {| ax_SessionID := es_id s; ax_Generation := bind_Generation (es_binding s);
                      ax_TTY := ei_TTY (es_init s); ax_Stdin := ei_Stdin (es_init s) |})
         else _ ← cancel n; _ ← close_process n; Ret (Err session_gone)
       end
   end).

(** An unstarted session leaves the map, and [by] closes its channel. *)
Definition drop_reservation (m : nat) (by_ : who) (w : world) : world :=
  match x_states w !! m with
  | Some s => on_state m (taken_over by_) (put_sessions (delete (es_id s) (x_sessions w)) w)
  | None => w
  end.

Definition ReleaseUpgrade (n : nat) (g : ExecGrant) : program (option err) :=
  r ← atomically (λ w, match leased g w with
                       | Some (m, s) => if es_active s then (None, w) else (Some m, drop_reservation m (ByCall n) w)
                       | None => (None, w)
                       end);
  match r with
  | None => Ret (Some session_gone)
  | Some m => _ ← close_terminal m; Ret None
  end.

Definition expireReservation (k : nat) (id lease : string) : program () :=
  r ← atomically (λ w,
    match m ← x_sessions w !! id; s ← x_states w !! m; Some (m, s) with
    | Some (m, s) => if es_active s || negb (String.eqb (es_leaseID s) lease) then (None, w)
                     else (Some m, drop_reservation m (BySpawned k) w)
    | None => (None, w)
    end);
  match r with None => Ret tt | Some m => close_terminal m end.

(** From a ticket to a running session, as the handler of the stream does it. A handshake
    that fails has no reply; here it is an error like the others. *)
Definition ServeHTTP (n : nat) (b : SelectionBinding) (id : string) (protocols : list string)
    : program (result err ActiveExec) :=
  r ← AuthorizeUpgrade n b id protocols;
  match r with
  | Err e => Ret (Err e)
  | Ok g =>
    a ← receive (AskAccept n);
    match a with
    | Accepted true true => Start n g
    | _ => _ ← ReleaseUpgrade n g; Ret (Err (publicError CodeProtocolViolation 0 false None))
    end
  end.

(** [requestTerminal]: its critical section, and what follows. *)
Definition record_terminal (m : nat) (t : ExecTerminal) (w : world)
    : option (option nat * option nat) * world :=
  match x_states w !! m with
  | Some s =>
    if registered_state m w && negb (bool_decide (is_Some (es_requested s)))
    then (Some (es_cancel s, es_remote s), on_state m (with_requested t) w) else (None, w)
  | None => (None, w)
  end.
Definition request_terminal (m : nat) (t : ExecTerminal) : program () :=
  r ← atomically (record_terminal m t);
  match r with
  | None => Ret tt
  | Some (c, remote) => _ ← if_set c cancel; if_set remote close_process
  end.

(** [finish], once per session. *)
Definition finish (m : nat) (t : ExecTerminal) : program () :=
  first ← atomically (λ w,
    match x_states w !! m with
    | Some s => if es_finished s then (None, w) else (Some tt, on_state m with_finished w)
    | None => (None, w)
    end);
  match first with
  | None => Ret tt
  | Some _ =>
    r ← atomically (λ w, (x_states w !! m, drop_current m w));
    match r with
    | None => Ret tt
    | Some s =>
      _ ← if_set (es_cancel s) cancel;
      _ ← if_set (es_remote s) close_process;
      _ ← send_terminal m t;
      _ ← close_terminal m;
      record_audit (es_startedAt s) "exec_end" (es_target s)
        (match t with
         | TerminalError code retryable _ => Some (publicError code (statusForTerminal code) retryable None)
         | TerminalExit _ _ _ => None
         end)
    end
  end.

Definition requested (m : nat) (w : world) : option ExecTerminal :=
  x_states w !! m ≫= es_requested.

(** One round of [monitor]'s loop: whether it goes on. *)
Definition monitor_round (m : nat) : program bool :=
  a ← receive (AskMonitor m);
  match a with
  | RemoteExit r =>
    t ← look (requested m);
    _ ← finish m (default (terminalForRemoteExit r) t); Ret false
  | Touched =>
    _ ← modify (on_state m (λ s, with_timer (es_timer s) (es_cancel s) false s)); Ret true
  | IdleFired => _ ← request_terminal m (TerminalError CodeExecIdleTimeout false 1001); Ret true
  | DurationFired => _ ← request_terminal m (TerminalError CodeExecDurationLimit false 1001); Ret true
  | _ =>
    t ← look (requested m);
    _ ← finish m (default (TerminalError CodeInternal false 1011) t); Ret false
  end.

(** The active session with an identifier. *)
Definition active_session (id : string) (w : world) : option nat :=
  m ← x_sessions w !! id; s ← x_states w !! m; if es_active s then Some m else None.

Definition Touch (id : string) : program (option err) :=
  m ← look (active_session id);
  match m with
  | None => Ret (Some session_gone)
  | Some m => _ ← modify (on_state m (λ s, with_timer (es_timer s) (es_cancel s) true s)); Ret None
  end.
Definition terminate (id : string) (t : ExecTerminal) : program (option err) :=
  m ← look (active_session id);
  match m with
  | None => Ret (Some session_gone)
  | Some m => _ ← request_terminal m t; Ret None
  end.
Definition Cancel (id : string) : program (option err) :=
  terminate id (TerminalExit None ExecExitCanceled 1000).
Definition Abort (id : string) (reason : ExecAbortReason) : program (option err) :=
  match validateSessionID id "exec_" with
  | Some e => Ret (Some e)
  | None =>
    match abort_terminal reason with
    | None => Ret (Some (validationError [Violation "reason" "supported_exec_abort_reason"]))
    | Some t => terminate id t
    end
  end.

(** ** Generation changes and shutdown *)

(** The sessions [P] selects: those not started, and those active. *)
Definition select_sessions (P : execSessionState → bool) (active : bool) (w : world) : list nat :=
  arrange (filter (λ m, match x_states w !! m with
                        | Some s => P s && Bool.eqb (es_active s) active
                        | None => false
                        end = true) (map_to_list (x_sessions w)).*2).

Definition drop_reservations (l : list nat) (by_ : who) (w : world) : world :=
  set_maps (x_tickets w) (filter (λ p : string * nat, p.2 ∉ l) (x_sessions w))
    (map_imap (λ m s, Some (if bool_decide (m ∈ l) then taken_over by_ s else s)) (x_states w)) w.

Fixpoint close_reservations (l : list nat) : program () :=
  match l with
  | [] => Ret tt
  | m :: l =>
    c ← look (λ w, x_states w !! m ≫= es_cancel);
    _ ← if_set c cancel;
    _ ← close_terminal m;
    close_reservations l
  end.
Fixpoint request_all (l : list nat) (t : ExecTerminal) : program () :=
  match l with [] => Ret tt | m :: l => _ ← request_terminal m t; request_all l t end.

Definition obsolete (current : string) (s : execSessionState) : bool :=
  negb (String.eqb (bind_Generation (es_binding s)) current).

Definition OnGeneration (n : nat) (current : string) : program () :=
  '(reservations, states) ← atomically (λ w,
    let tickets := filter (λ p : string * execTicket, bind_Generation (tk_binding p.2) = current) (x_tickets w) in
    let w := emit (ExecHook n current (x_retired w)) (put_tickets tickets w) in
    let reservations := select_sessions (obsolete current) false w in
    let states := select_sessions (obsolete current) true w in
    ((reservations, states), drop_reservations reservations (ByCall n) w));
  _ ← close_reservations reservations;
  request_all states (TerminalError CodeGenerationChanged false 1001).

Definition Shutdown (n : nat) : program () :=
  r ← atomically (λ w,
    if x_shutdown w then (None, w)
    else
      let w := put_tickets ∅ (set_effects (x_canceled w) (x_remotes w) true (x_panicked w) w) in
      let reservations := select_sessions (λ _, true) false w in
      let states := select_sessions (λ _, true) true w in
      (Some (reservations, states), drop_reservations reservations (ByCall n) w));
  match r with
  | None => Ret tt
  | Some (reservations, states) =>
    _ ← close_reservations reservations;
    request_all states (TerminalError CodeServerShutdown true 1001)
  end.

(** ** The system *)

Inductive reply :=
| TicketReply (r : result err ExecTicketDTO)
| ServeReply (r : result err ActiveExec)
| ErrorReply (e : option err)
| Finished.

Abbreviation round := (program (outcome nat reply)).

Definition monitor (m : nat) : round :=
  again ← monitor_round m; Ret (if again : bool then Goto m else Done Finished).

Definition exec_code (t : goroutine) : round :=
  match t with
  | CallCreateTicket n b route r => x ← CreateTicket n b route r; Ret (Done (TicketReply x))
  | CallServe n b id protocols => x ← ServeHTTP n b id protocols; Ret (Done (ServeReply x))
  | CallTouch _ id => e ← Touch id; Ret (Done (ErrorReply e))
  | CallCancel _ id => e ← Cancel id; Ret (Done (ErrorReply e))
  | CallAbort _ id reason => e ← Abort id reason; Ret (Done (ErrorReply e))
  | CallOnGeneration n g => _ ← OnGeneration n g; Ret (Done Finished)
  | CallShutdown n => _ ← Shutdown n; Ret (Done Finished)
  | GoMonitor _ m => Ret (Goto m)
  | GoExpire k m id lease => _ ← expireReservation k id lease; Ret (Done Finished)
  end.

(** The root context may end at any time, and with it the lifetime of every session. *)
Definition answered (q : question) (w : world) (a : answer) : bool :=
  match q, a with
  | AskInspect _ _ _, InspectIs _ => true
  | AskReview _ _, ReviewIs _ => true
  | AskAccept _, Accepted _ _ => true
  | AskStart _ _, StartIs _ _ => true
  | AskMonitor m, Touched => match x_states w !! m with Some s => es_touched s | None => false end
  | AskMonitor _, (RemoteExit _ | IdleFired | DurationFired | LifetimeDone) => true
  | _, _ => false
  end.

(** The clock, the end of a request's context, a new generation, and the reservation timer
    of a session, which starts [expireReservation] unless it was stopped. *)
Definition environment (e : env_move) (w : world) : world :=
  match e with
  | Tick d => set_clock (x_generation w) (x_retired w) (x_now w + Z.of_N d)%Z (x_ctx w) w
  | ContextEnds n e =>
    set_clock (x_generation w) (x_retired w) (x_now w)
      (match x_ctx w !! n with Some _ => x_ctx w | None => <[n := e]> (x_ctx w) end) w
  | RotateGeneration g =>
    if bool_decide (g ∈ {[x_generation w]} ∪ x_retired w) then w
    else set_clock g ({[x_generation w]} ∪ x_retired w) (x_now w) (x_ctx w) w
  | FireReservation m =>
    match x_states w !! m with
    | Some s =>
      if es_timer s
      then spawn (λ k, GoExpire k m (es_id s) (es_leaseID s))
             (on_state m (with_timer false (es_cancel s) (es_touched s)) w)
      else w
    | None => w
    end
  end.

(** Reviews are decided one way or another, and a [Start] that fails has no process:
    [ExecBackend.Start] of the Kubernetes runtime returns nil with every error. *)
Definition answer_known (q : question) (a : answer) : Prop :=
  match a with
  | ReviewIs c => cap_Decision c ∈ [DecisionAllowed; DecisionDenied; DecisionUnknown]
  | StartIs remote e => remote = true → e = None
  | _ => True
  end.

Definition started_by (s s' : world) : list goroutine :=
  imap (λ i g, g (length (x_spawned s) + i)) (drop (length (x_spawned s)) (x_spawned s')).

Definition request (t : goroutine) : option nat :=
  match t with
  | CallCreateTicket n _ _ _ | CallServe n _ _ _ | CallTouch n _ | CallCancel n _ | CallAbort n _ _
  | CallOnGeneration n _ | CallShutdown n => Some n
  | GoMonitor _ _ | GoExpire _ _ _ _ => None
  end.
Definition spawned_as (t : goroutine) : option nat :=
  match t with GoMonitor k _ | GoExpire k _ _ _ => Some k | _ => None end.

Definition exec_system : @system world question answer goroutine env_move nat reply := {|
  ready := answered;
  code := exec_code;
  enter := monitor;
  env := environment;
  born := started_by;
  owner := spawned_as;
  caller := request;
  count := λ w, length (x_spawned w);
  callable := λ t, spawned_as t = None;
  env_ok := answer_known |}.
End manager.
