(* ===== verification/ExecSafety.v ===== *)
(** * ExecSafety: what the exec manager guarantees

    The properties of the goroutines of [Exec] under every interleaving, with the
    rely/guarantee logic of [Threads]: a process starts only for a ticket that was used for
    the first time, by a caller that knows its token, after reviews that allowed it; the
    limits on tickets and sessions hold; a session's channel is closed once, by one
    goroutine; a session that ended has no process left; sessions of retired generations
    are told to end. *)
From Stdlib Require Import Ascii String ZArith Lia.
From stdpp Require Import base gmap strings list.
From S2P Require Import Prelude Json Topics Unicode Cursor Ports Retry Pagination Collect Catalogue Access Authorization Selection Actions Threads Exec.
Local Open Scope string_scope.
Local Open Scope list_scope.

Section safety.
Context {F : Type} `{!ActionErrors F} `{!DnsNames}.
Context (sha256 : string → string) (NewID : nat → string → option string) (NewToken : nat → option string)
  (arrange : list nat → list nat) (ticketTTL : Z).
(** Random lease identifiers do not repeat, and walking a map visits every entry. *)
Context (leases_unique : ∀ n n' x, NewID n "lease_" = Some x → NewID n' "lease_" = Some x → n = n').
Context (arrange_perm : ∀ l, arrange l ≡ₚ l).
Abbreviation err := (aerr F).
Abbreviation sys := (exec_system (F := F) sha256 NewID NewToken arrange ticketTTL).

(** ** What a step of one goroutine may change *)

(** Who a goroutine is, as the closer of a channel. *)
Definition me (t : goroutine) : who :=
  match t with
  | CallCreateTicket n _ _ _ | CallServe n _ _ _ | CallTouch n _ | CallCancel n _ | CallAbort n _ _
  | CallOnGeneration n _ | CallShutdown n => ByCall n
  | GoMonitor k _ | GoExpire k _ _ _ => BySpawned k
  end.

(** A session's state from one step of [u] to the next, [k] goroutines having been started. *)
Record evolves (u : option who) (k m : nat) (a b : execSessionState) : Prop := {
  ev_id : es_id b = es_id a;
  ev_lease : es_leaseID b = es_leaseID a;
  ev_binding : es_binding b = es_binding a;
  ev_command : exec_command (es_target b) (es_init b) = exec_command (es_target a) (es_init a);
  ev_requested : is_Some (es_requested a) → es_requested b = es_requested a;
  ev_active : es_active a = true ∨ caller_of u ≠ Some m → es_active b = es_active a ∧ es_remote b = es_remote a ∧ es_cancel b = es_cancel a;
  ev_closer : es_closer b = es_closer a
              ∨ es_closer a = None ∧ (es_closer b = u ∨ caller_of u = Some m ∧ es_closer b = Some (BySpawned k));
  ev_channel : es_closer a ≠ u →
    es_closed b = es_closed a ∧ es_terminal b = es_terminal a ∧ es_finished b = es_finished a }.

(** The sessions of the generations [R] that are still in the map were told to end, but
    for [l]. *)
Definition told (R : gset string) (l : list nat) (w : world) : Prop :=
  ∀ id m s, x_sessions w !! id = Some m → x_states w !! m = Some s →
            bind_Generation (es_binding s) ∈ R → is_Some (es_requested s) ∨ m ∈ l.

Record exec_trans (u : option who) (s s' : world) : Prop := {
  xt_log : ∃ l, x_log s' = x_log s ++ l ∧ Forall (λ e, Some (exec_request e) = caller_of u) l;
  xt_spawned : ∃ l, x_spawned s' = x_spawned s ++ l
    ∧ ∀ k, Forall (λ g : nat → goroutine, me (g k) = BySpawned k) l;
  xt_tickets : ∀ id t, x_tickets s' !! id = Some t →
    x_tickets s !! id = Some t ∨ caller_of u = Some (tk_request t);
  xt_states : ∀ m a, x_states s !! m = Some a →
    ∃ b, x_states s' !! m = Some b ∧ evolves u (length (x_spawned s)) m a b;
  xt_new : ∀ m b, x_states s' !! m = Some b →
    is_Some (x_states s !! m) ∨ caller_of u = Some m ∧ es_closer b = None;
  xt_sessions : ∀ id m, x_sessions s' !! id = Some m →
    x_sessions s !! id = Some m ∨ x_states s !! m = None;
  xt_remotes : ∀ m, m ∈ x_remotes s' → m ∈ x_remotes s
    ∨ caller_of u = Some m ∧ ∀ a, x_states s !! m = Some a → es_active a = false;
  xt_retired : x_retired s ⊆ x_retired s';
  xt_told : ∀ R l, R ⊆ x_retired s → told R l s → told R l s';
  xt_shutdown : x_shutdown s = true → x_shutdown s' = true }.

(** ** The invariant *)

(** A ticket is used once, before it expires. *)
Definition allowed (n : nat) (key : Key) (l : list exec_event) : Prop :=
  ∃ c, ExecReviewed n key c ∈ l ∧ cap_Decision c = DecisionAllowed.
Definition cleared (n : nat) (key : Key) (generation : string) (l : list exec_event) : Prop :=
  ∃ a b, l = a ++ ExecCleared n generation :: b ∧ allowed n key a.
Definition access_key (t : MutationTarget) (generation : string) (key : Key) : Prop :=
  KeyForCapability generation (mt_Namespace t) "pods.exec.create" (mt_Name t) = Ok key.

(** A ticket's request was valid, allowed, and made while its generation was current. *)
Definition well_issued (n : nat) (t : execTicket) (l : list exec_event) : Prop :=
  n = tk_request t
  ∧ (∃ route, validateExec (F := F) (tk_binding t) route (tk_init t) = None
      ∧ tk_target t = mutationTarget (tk_binding t) (cf_Target (ei_Confirmation (tk_init t))))
  ∧ (∃ token, NewToken n = Some token ∧ tk_tokenHash t = sha256 token)
  ∧ ∃ key, access_key (tk_target t) (bind_Generation (tk_binding t)) key
      ∧ cleared n key (bind_Generation (tk_binding t)) l.

Definition exec_justified (l : list exec_event) (e : exec_event) : Prop :=
  match e with
  | Issued n id t => well_issued n t l ∧ ∀ id' t', Issued n id' t' ∉ l
  | Used n id t now =>
    (∃ r, Issued r id t ∈ l) ∧ (now < tk_expiresAt t)%Z
    ∧ ∀ n' id' t' now', Used n' id' t' now' ∈ l → tk_request t' ≠ tk_request t
  | _ => True
  end.

Record state_ok (m : nat) (s : execSessionState) : Prop := {
  so_lease : NewID m "lease_" = Some (es_leaseID s);
  so_cancel : ∀ c, es_cancel s = Some c → c = m;
  so_remote : es_remote s = if es_active s then Some m else None;
  so_open : es_closer s = None → es_closed s = false ∧ es_terminal s = None ∧ es_finished s = false;
  so_active : es_active s = true → ∃ k, es_closer s = Some (BySpawned k);
  so_finished : es_terminal s ≠ None → es_finished s = true }.

Record exec_inv (w : world) : Prop := {
  xi_current : x_generation w ∉ x_retired w;
  xi_log : history_ok exec_justified (x_log w);
  xi_tickets : ∀ id t, x_tickets w !! id = Some t →
    Issued (tk_request t) id t ∈ x_log w
    ∧ ∀ n id' t' now, Used n id' t' now ∈ x_log w → tk_request t' ≠ tk_request t;
  xi_pending : (size (x_tickets w) ≤ maximumPendingTickets)%nat;
  xi_states : ∀ m s, x_states w !! m = Some s → state_ok m s;
  xi_sessions : ∀ id m, x_sessions w !! id = Some m →
    ∃ s, x_states w !! m = Some s ∧ es_id s = id ∧ (es_active s = false → es_closer s = None);
  xi_limit : (size (x_sessions w) ≤ MaximumExecSessions)%nat;
  xi_safe : x_panicked w = false }.

(** ** What the goroutines promise *)

(** Request [n] did nothing yet. *)
Definition exec_unused (n : nat) (w : world) : Prop :=
  (∀ e, e ∈ x_log w → exec_request e ≠ n) ∧ x_states w !! n = None ∧ n ∉ x_remotes w
  ∧ ∀ id t, x_tickets w !! id = Some t → tk_request t ≠ n.

(** [t] has the channel of session [m] to itself, and nothing was sent on it. *)
Definition holds (t : goroutine) (m : nat) (w : world) : Prop :=
  ∃ s, x_states w !! m = Some s ∧ es_closer s = Some (me t) ∧ es_closed s = false.
Definition monitoring (k m : nat) (w : world) : Prop :=
  ∃ s, x_states w !! m = Some s ∧ es_closer s = Some (BySpawned k) ∧ es_closed s = false
       ∧ es_active s = true ∧ es_finished s = false.

(** A session that ended: it left the map, its process is closed and its channel has one
    terminal and is closed. *)
Definition gone (m : nat) (w : world) : Prop := ∀ id, x_sessions w !! id ≠ Some m.
Definition ended (k m : nat) (w : world) : Prop :=
  gone m w ∧ m ∉ x_remotes w
  ∧ ∃ s, x_states w !! m = Some s ∧ es_closed s = true ∧ is_Some (es_terminal s) ∧ es_active s = true
         ∧ es_closer s = Some (BySpawned k).

(** What a request has established when it asks for the process [c]. *)
Definition entitled (n : nat) (b : SelectionBinding) (id : string) (protocols : list string) (c : ExecCommand)
    (l : list exec_event) : Prop :=
  ∃ t now token key,
    Used n id t now ∈ l ∧ parseExecProtocols (F := F) protocols = Ok token
    ∧ sha256 token = tk_tokenHash t ∧ same_selection t b = true
    ∧ c = exec_command (tk_target t) (tk_init t)
    ∧ access_key (tk_target t) (bind_Generation b) key ∧ cleared n key (bind_Generation b) l.

Definition exec_quiet (t : goroutine) (q : question) (w : world) : Prop :=
  match q with
  | AskStart n c =>
    match t with
    | CallServe n' b id protocols => n' = n ∧ entitled n b id protocols c (x_log w)
    | _ => False
    end
  | _ => True
  end.

Definition exec_post (t : goroutine) (r : @reply F) (w : world) : Prop :=
  match t, r with
  | CallServe n _ _ _, ServeReply (Err _) => n ∉ x_remotes w
  | CallOnGeneration n g, _ =>
    ∀ R, ExecHook n g R ∈ x_log w → R ⊆ x_retired w ∧ told (R ∖ {[g]}) [] w
  | GoMonitor k m, _ => ended k m w
  | _, _ => True
  end.

Definition exec_spec : @spec world question goroutine nat (@reply F) := {|
  invariant := exec_inv;
  trans := λ u s s', exec_trans (me <$> u) s s';
  quiet := exec_quiet;
  pre := λ t w,
    match t with
    | GoMonitor k m => monitoring k m w
    | GoExpire _ _ _ _ => True
    | _ => ∀ n, request t = Some n → exec_unused n w
    end;
  at_head := λ t m w, ∃ k, t = GoMonitor k m ∧ monitoring k m w;
  post := exec_post;
  unused := exec_unused |}.

Abbreviation xsafe := (safe sys exec_spec).
Abbreviation xstep := (step_ok sys exec_spec).

(** ** Assertions of one goroutine *)

Abbreviation mine := (kept exec_trans).

Lemma exec_mine_stable t P : mine (me t) P → stable sys exec_spec t P.
Proof.
  intros HP u s s' Hu _ Ht. refine (HP _ _ _ _ Ht). destruct u as [u|]; simpl; [|done].
  destruct Hu as [Ho Hc]. intros [= Heq]. destruct t, u; simplify_eq/=; first [by eapply Ho|by eapply Hc].
Qed.
Lemma exec_mine_log n (P : list exec_event → Prop) : (∀ l l', P l → P (l ++ l')) → mine n (λ s, P (x_log s)).
Proof. intros HP u s s' _ Ht Hs. destruct (xt_log _ _ _ Ht) as (l & -> & _). by apply HP. Qed.
Lemma exec_elem_mine n e : mine n (λ s, e ∈ x_log s).
Proof. apply (exec_mine_log n (λ l, e ∈ l)). intros l l'. set_solver. Qed.

Lemma no_event_mine n (Q : exec_event → Prop) :
  (∀ e, Q e → exec_request e = n) → mine (ByCall n) (λ s, ∀ e, Q e → e ∉ x_log s).
Proof.
  intros HQ u s s' Hu Ht Hs e He. destruct (xt_log _ _ _ Ht) as (l & -> & Hl).
  intros [Hin|Hin]%elem_of_app; [by apply (Hs e)|]. rewrite Forall_forall in Hl.
  specialize (Hl e Hin). rewrite (HQ e He) in Hl. destruct u as [[x|x]|]; simplify_eq/=.
Qed.

(** Facts about one session's state that the steps of others keep. *)
Lemma state_mine x m (P : execSessionState → Prop) :
  (∀ u k a b, u ≠ Some x → evolves u k m a b → P a → P b) →
  mine x (λ w, ∃ s, x_states w !! m = Some s ∧ P s).
Proof.
  intros HP u s s' Hu Ht (a & Ha & Hp). destruct (xt_states _ _ _ Ht m a Ha) as (b & Hb & He).
  exists b. split; [done|]. by eapply HP.
Qed.

Lemma holds_mine t m : mine (me t) (holds t m).
Proof.
  apply state_mine. intros u k a b Hu He [Hc Hf]. destruct (ev_channel _ _ _ _ _ He) as [-> _]; [congruence|].
  split; [|done]. destruct (ev_closer _ _ _ _ _ He) as [->|[? _]]; [done|congruence].
Qed.

(** What the monitor knows of its session, in each of its phases. *)
Definition phase (k m : nat) (finished : bool) (terminal : option ExecTerminal) (closed : bool) (w : world) : Prop :=
  ∃ s, x_states w !! m = Some s ∧ es_closer s = Some (BySpawned k) ∧ es_active s = true
       ∧ es_finished s = finished ∧ es_terminal s = terminal ∧ es_closed s = closed.
Lemma phase_mine k m f t c : mine (BySpawned k) (phase k m f t c).
Proof.
  apply state_mine. intros u j a b Hu He (Hc & Ha & Hf & Ht & Hcl).
  destruct (ev_channel _ _ _ _ _ He) as (-> & -> & ->); [congruence|].
  destruct (ev_active _ _ _ _ _ He) as (-> & _); [by left|].
  destruct (ev_closer _ _ _ _ _ He) as [->|[? _]]; [done|congruence].
Qed.
Lemma monitoring_phase k m w : exec_inv w → monitoring k m w ↔ phase k m false None false w.
Proof.
  intros Hi. split.
  - intros (s & Hs & Hc & Hcl & Ha & Hf). exists s. split_and!; try done.
    destruct (es_terminal s) eqn:Ht; [|done]. destruct (xi_states _ Hi m s Hs) as [_ _ _ _ _ Hfin].
    rewrite Hfin in Hf; [done|congruence].
  - intros (s & Hs & Hc & Ha & Hf & Ht & Hcl). by exists s.
Qed.

Lemma gone_mine x m : mine x (λ w, gone m w ∧ is_Some (x_states w !! m)).
Proof.
  intros u s s' Hu Ht [Hg [a Ha]]. destruct (xt_states _ _ _ Ht m a Ha) as (b & Hb & _). split; [|by exists b].
  intros id Hid. destruct (xt_sessions _ _ _ Ht id m Hid); [by apply (Hg id)|congruence].
Qed.
Lemma no_process_mine n : mine (ByCall n) (λ w, n ∉ x_remotes w).
Proof.
  intros u s s' Hu%not_caller Ht Hn Hin. by destruct (xt_remotes _ _ _ Ht n Hin) as [?|[? _]].
Qed.
Lemma phase_no_process_mine k m f t c : mine (BySpawned k) (λ w, phase k m f t c w ∧ m ∉ x_remotes w).
Proof.
  intros u s s' Hu Ht [Hp Hn]. split; [by eapply phase_mine|]. intros Hin. destruct Hp as (a & Ha & _ & Hact & _).
  destruct (xt_remotes _ _ _ Ht m Hin) as [?|[_ Hf]]; [done|]. rewrite (Hf a Ha) in Hact. done.
Qed.
Lemma told_mine x R l : mine x (λ w, R ⊆ x_retired w ∧ told R l w).
Proof.
  intros u s s' Hu Ht [HR Hs]. split; [|by eapply xt_told]. pose proof (xt_retired _ _ _ Ht). set_solver.
Qed.
Lemma exec_unused_mine n : mine (ByCall n) (exec_unused n).
Proof.
  repeat apply kept_and.
  - intros u s s' Hu Ht Hs e He Hn.
    refine (no_event_mine n (λ e', e' = e) _ u s s' Hu Ht _ e eq_refl He); [by intros ? ->|].
    intros e' -> Hin. by apply (Hs e).
  - intros u s s' Hu%not_caller Ht Hs. destruct (x_states s' !! n) as [b|] eqn:Hb; [|done].
    destruct (xt_new _ _ _ Ht n b Hb) as [[? ?]|[? _]]; congruence.
  - apply no_process_mine.
  - intros u s s' Hu%not_caller Ht Hs id t Hid Hn. destruct (xt_tickets _ _ _ Ht id t Hid) as [?|?]; [|congruence].
    by eapply Hs.
Qed.

(** ** Steps *)

Lemma evolves_refl u k m a : evolves u k m a a.
Proof. split; try done; by left. Qed.

(** No event of the log, or of the step, used ticket [t]. *)
Definition unused_ticket (t : execTicket) (l : list exec_event) : Prop :=
  ∀ n id t' now, Used n id t' now ∈ l → tk_request t' ≠ tk_request t.

(** The obligations of a step, from what it does to each part of the state. *)
Record step_parts (u : option goroutine) (s s' : world) (ev : option exec_event)
    (sp : option (nat → goroutine)) : Prop := {
  sp_generation : x_generation s' ∉ x_retired s';
  sp_retired : x_retired s ⊆ x_retired s';
  sp_panicked : x_panicked s' = x_panicked s;
  sp_shutdown : x_shutdown s = true → x_shutdown s' = true;
  sp_log : x_log s' = x_log s ++ option_list ev;
  sp_event : ∀ e, ev = Some e → Some (exec_request e) = caller_of (me <$> u) ∧ exec_justified (x_log s) e;
  sp_spawned : x_spawned s' = x_spawned s ++ option_list sp;
  sp_born : ∀ g, sp = Some g →
    (∀ k, me (g k) = BySpawned k) ∧ pre exec_spec (g (length (x_spawned s))) s';
  sp_tickets : ∀ id t, x_tickets s' !! id = Some t →
    x_tickets s !! id = Some t ∧ unused_ticket t (option_list ev)
    ∨ ev = Some (Issued (tk_request t) id t) ∧ unused_ticket t (x_log s);
  sp_pending : (size (x_tickets s') ≤ maximumPendingTickets)%nat;
  sp_states : ∀ m a, x_states s !! m = Some a →
    ∃ b, x_states s' !! m = Some b ∧ evolves (me <$> u) (length (x_spawned s)) m a b ∧ state_ok m b
         ∧ ∀ id, x_sessions s' !! id = Some m → es_active b = false → es_closer b = None;
  sp_new : ∀ m, is_Some (x_states s' !! m) → is_Some (x_states s !! m);
  sp_sessions : x_sessions s' ⊆ x_sessions s;
  sp_remotes : ∀ m, m ∈ x_remotes s' → m ∈ x_remotes s
    ∨ caller_of (me <$> u) = Some m ∧ ∀ a, x_states s !! m = Some a → es_active a = false }.

Lemma step_intro u s s' ev sp : exec_inv s → step_parts u s s' ev sp → xstep u s s'.
Proof.
  intros Hi Hp. split_and!; [split|split|]; try apply Hp.
  - rewrite (sp_log _ _ _ _ _ Hp). destruct ev as [e|]; simpl; [|rewrite app_nil_r; apply Hi].
    apply history_snoc; [apply Hi|]. by apply (sp_event _ _ _ _ _ Hp).
  - intros id t Hid. rewrite (sp_log _ _ _ _ _ Hp).
    destruct (sp_tickets _ _ _ _ _ Hp id t Hid) as [[Ht Hn]|[-> Hn]].
    + destruct (xi_tickets _ Hi id t Ht) as [Hin Hu]. split; [set_solver|].
      intros n id' t' now [?|?]%elem_of_app; [by eapply Hu|by eapply Hn].
    + split; [set_solver|]. intros n id' t' now [?|?]%elem_of_app; [by eapply Hn|set_solver].
  - intros m b Hb. destruct (sp_new _ _ _ _ _ Hp m) as [a Ha]; [by exists b|].
    destruct (sp_states _ _ _ _ _ Hp m a Ha) as (b' & Hb' & _ & Hok & _). by simplify_eq.
  - intros id m Hid. pose proof (lookup_weaken _ _ _ _ Hid (sp_sessions _ _ _ _ _ Hp)) as Hid0.
    destruct (xi_sessions _ Hi id m Hid0) as (a & Ha & He & _).
    destruct (sp_states _ _ _ _ _ Hp m a Ha) as (b & Hb & Hev & _ & Hact). exists b.
    split_and!; [done|by rewrite (ev_id _ _ _ _ _ Hev)|by eapply Hact].
  - etrans; [apply map_subseteq_size, (sp_sessions _ _ _ _ _ Hp)|apply Hi].
  - rewrite (sp_panicked _ _ _ _ _ Hp). apply Hi.
  - exists (option_list ev). split; [apply Hp|]. destruct ev as [e|]; simpl; [|done].
    constructor; [by apply (sp_event _ _ _ _ _ Hp)|done].
  - exists (option_list sp). split; [apply Hp|]. intros k. destruct sp as [g|]; simpl; [|done].
    constructor; [by apply (sp_born _ _ _ _ _ Hp)|done].
  - intros id t Hid. destruct (sp_tickets _ _ _ _ _ Hp id t Hid) as [[? _]|[-> _]]; [by left|right].
    by destruct (sp_event _ _ _ _ _ Hp _ eq_refl) as [<- _].
  - intros m a Ha. destruct (sp_states _ _ _ _ _ Hp m a Ha) as (b & Hb & Hev & _). by exists b.
  - intros m b Hb. left. apply (sp_new _ _ _ _ _ Hp). by exists b.
  - intros id m Hid. left. by eapply lookup_weaken, (sp_sessions _ _ _ _ _ Hp).
  - intros R l HR Ht id m b Hid Hb Hg. pose proof (lookup_weaken _ _ _ _ Hid (sp_sessions _ _ _ _ _ Hp)) as Hid0.
    destruct (xi_sessions _ Hi id m Hid0) as (a & Ha & _). destruct (sp_states _ _ _ _ _ Hp m a Ha) as (b' & Hb' & Hev & _).
    simplify_eq. rewrite (ev_binding _ _ _ _ _ Hev) in Hg. destruct (Ht id m a Hid0 Ha Hg) as [Hreq|?]; [left|by right].
    by rewrite (ev_requested _ _ _ _ _ Hev).
  - simpl. unfold started_by. rewrite (sp_spawned _ _ _ _ _ Hp), drop_app_length. destruct sp as [g|]; simpl; [|done].
    constructor; [|done]. rewrite Nat.add_0_r. by apply (sp_born _ _ _ _ _ Hp).
Qed.

(** The parts a step leaves alone. *)
Lemma same_states u s s' :
  exec_inv s → x_states s' = x_states s → x_sessions s' ⊆ x_sessions s →
  ∀ m a, x_states s !! m = Some a →
    ∃ b, x_states s' !! m = Some b ∧ evolves u (length (x_spawned s)) m a b ∧ state_ok m b
         ∧ ∀ id, x_sessions s' !! id = Some m → es_active b = false → es_closer b = None.
Proof.
  intros Hi -> Hsub m a Ha. exists a. split_and!; [done|apply evolves_refl|by eapply xi_states|].
  intros id Hid. destruct (xi_sessions _ Hi id m) as (b & Hb & _ & Hc); [by eapply lookup_weaken|]. by simplify_eq.
Qed.

Lemma one_state u s s' m f :
  exec_inv s → x_states s' = alter f m (x_states s) → x_sessions s' ⊆ x_sessions s →
  (∀ a, x_states s !! m = Some a →
    evolves u (length (x_spawned s)) m a (f a) ∧ state_ok m (f a)
    ∧ ∀ id, x_sessions s' !! id = Some m → es_active (f a) = false → es_closer (f a) = None) →
  ∀ m' a, x_states s !! m' = Some a →
    ∃ b, x_states s' !! m' = Some b ∧ evolves u (length (x_spawned s)) m' a b ∧ state_ok m' b
         ∧ ∀ id, x_sessions s' !! id = Some m' → es_active b = false → es_closer b = None.
Proof.
  intros Hi -> Hsub Hf m' a Ha. destruct (decide (m' = m)) as [->|Hne].
  - exists (f a). rewrite lookup_alter_eq, Ha. split; [done|by apply Hf].
  - exists a. rewrite lookup_alter_ne by done. split_and!; [done|apply evolves_refl|by eapply xi_states|].
    intros id Hid. destruct (xi_sessions _ Hi id m') as (b & Hb & _ & Hc); [by eapply lookup_weaken|]. by simplify_eq.
Qed.

Lemma same_tickets s s' :
  x_tickets s' = x_tickets s →
  ∀ id t, x_tickets s' !! id = Some t →
    x_tickets s !! id = Some t ∧ unused_ticket t (option_list None)
    ∨ None = Some (Issued (tk_request t) id t) ∧ unused_ticket t (x_log s).
Proof. intros -> id t Hid. left. split; [done|]. intros ???? Hin. by inversion Hin. Qed.

Lemma pending_subseteq s (m : gmap string execTicket) :
  exec_inv s → m ⊆ x_tickets s → (size m ≤ maximumPendingTickets)%nat.
Proof. intros Hi Hm. etrans; [by apply map_subseteq_size|apply Hi]. Qed.

(** A step on one session that only shrinks the map of sessions. *)
Lemma on_state_ok t s m f sessions :
  exec_inv s → sessions ⊆ x_sessions s →
  (∀ a, x_states s !! m = Some a →
    evolves (Some (me t)) (length (x_spawned s)) m a (f a) ∧ state_ok m (f a)
    ∧ ∀ id, sessions !! id = Some m → es_active (f a) = false → es_closer (f a) = None) →
  xstep (Some t) s (set_maps (x_tickets s) sessions (alter f m (x_states s)) s).
Proof.
  intros Hi Hsub Hf. apply (step_intro _ _ _ None None); [done|]. split; simpl; try done; try apply Hi.
  - by rewrite app_nil_r.
  - by rewrite app_nil_r.
  - by apply (same_tickets s s).
  - exact (one_state (Some (me t)) s (set_maps (x_tickets s) sessions (alter f m (x_states s)) s) m f Hi eq_refl Hsub Hf).
  - intros m'. by rewrite lookup_alter_is_Some.
  - by left.
Qed.

(** A step that changes the contexts, the processes or the audit log. *)
Lemma effects_ok t s canceled remotes audit :
  exec_inv s →
  (∀ m, m ∈ remotes → m ∈ x_remotes s
    ∨ caller_of (Some (me t)) = Some m ∧ ∀ a, x_states s !! m = Some a → es_active a = false) →
  xstep (Some t) s (set_history audit (x_spawned s) (x_log s) (set_effects canceled remotes (x_shutdown s) (x_panicked s) s)).
Proof.
  intros Hi Hr. apply (step_intro _ _ _ None None); [done|]. split; simpl; try done; try apply Hi.
  - by rewrite app_nil_r.
  - by rewrite app_nil_r.
  - by apply (same_tickets s s).
  - by apply (same_states (Some (me t)) s s).
Qed.

(** A step on the tickets, with its event. *)
Lemma tickets_ok t s ev tickets :
  exec_inv s → (size tickets ≤ maximumPendingTickets)%nat →
  (∀ e, ev = Some e → Some (exec_request e) = caller_of (Some (me t)) ∧ exec_justified (x_log s) e) →
  (∀ id t, tickets !! id = Some t →
    x_tickets s !! id = Some t ∧ unused_ticket t (option_list ev)
    ∨ ev = Some (Issued (tk_request t) id t) ∧ unused_ticket t (x_log s)) →
  xstep (Some t) s (set_history (x_audit s) (x_spawned s) (x_log s ++ option_list ev)
                      (set_maps tickets (x_sessions s) (x_states s) s)).
Proof.
  intros Hi Hsz He Ht. apply (step_intro _ _ _ ev None); [done|]. split; simpl; try done; try apply Hi.
  - by rewrite app_nil_r.
  - by apply (same_states (Some (me t)) s s).
  - by left.
Qed.

Lemma sessions_ok t s sessions :
  exec_inv s → sessions ⊆ x_sessions s → xstep (Some t) s (put_sessions sessions s).
Proof.
  intros Hi Hsub. apply (step_intro _ _ _ None None); [done|]. split; simpl; try done; try apply Hi.
  - by rewrite app_nil_r.
  - by rewrite app_nil_r.
  - by apply (same_tickets s s).
  - by apply (same_states (Some (me t)) s (put_sessions sessions s)).
  - by left.
Qed.

Lemma exec_stay_ok t s : exec_inv s → xstep (Some t) s s.
Proof.
  intros Hi. apply (step_intro _ _ _ None None); [done|]. split; simpl; try done; try apply Hi.
  - by rewrite app_nil_r.
  - by rewrite app_nil_r.
  - by apply (same_tickets s s).
  - by apply (same_states (Some (me t)) s s).
  - by left.
Qed.

Lemma put_tickets_ok t s tickets :
  exec_inv s → tickets ⊆ x_tickets s → xstep (Some t) s (put_tickets tickets s).
Proof.
  intros Hi Hsub. apply (step_intro _ _ _ None None); [done|]. split; simpl; try done; try apply Hi.
  - by rewrite app_nil_r.
  - by rewrite app_nil_r.
  - intros id t' Hid. left. split; [by eapply lookup_weaken|]. intros ???? Hin. by inversion Hin.
  - by eapply pending_subseteq.
  - by apply (same_states (Some (me t)) s s).
  - by left.
Qed.

Definition plain_exec_event (e : exec_event) : Prop :=
  match e with Issued _ _ _ | Used _ _ _ _ => False | _ => True end.

Lemma exec_emit_ok t s e :
  exec_inv s → Some (exec_request e) = caller_of (Some (me t)) → plain_exec_event e → xstep (Some t) s (emit e s).
Proof.
  intros Hi He Hp. apply (tickets_ok t s (Some e) (x_tickets s) Hi); [apply Hi| |].
  - intros e' [= <-]. split; [done|]. by destruct e.
  - intros id t' Hid. left. split; [done|]. intros n id' t'' now Hin%list_elem_of_singleton. by subst e.
Qed.

(** ** Program rules *)

Lemma exec_look_safe {A} t (L : world → Prop) (f : world → A) :
  mine (me t) L → xsafe t L (look f) (λ _, L).
Proof. intros HL. apply safe_look; [apply exec_stay_ok|by apply exec_mine_stable]. Qed.

Lemma exec_receive_safe t (L : world → Prop) q :
  mine (me t) L → (∀ s, exec_inv s → L s → exec_quiet t q s) →
  xsafe t L (receive q) (λ a s, L s ∧ answer_known (F := F) q a).
Proof. intros HL Hq. apply safe_receive; [by apply exec_mine_stable|exact Hq]. Qed.

(** An assertion that speaks of neither the audit log nor the contexts. *)
Definition framed (x : who) (L : world → Prop) : Prop :=
  mine x L ∧ ∀ w canceled audit, L w →
    L (set_history audit (x_spawned w) (x_log w) (set_effects canceled (x_remotes w) (x_shutdown w) (x_panicked w) w)).

Lemma exec_audit_safe t L started operation target e :
  framed (me t) L → xsafe t L (record_audit started operation target e) (λ _, L).
Proof.
  intros [HL Hf]. apply safe_modify; [by apply exec_mine_stable|]. intros s Hi Hs. split.
  - refine (effects_ok t s (x_canceled s) (x_remotes s) _ Hi _). by left.
  - exact (Hf s (x_canceled s) _ Hs).
Qed.
Lemma exec_cancel_safe t L c : framed (me t) L → xsafe t L (cancel c) (λ _, L).
Proof.
  intros [HL Hf]. apply safe_modify; [by apply exec_mine_stable|]. intros s Hi Hs. split.
  - refine (effects_ok t s ({[c]} ∪ x_canceled s) (x_remotes s) (x_audit s) Hi _). by left.
  - exact (Hf s ({[c]} ∪ x_canceled s) (x_audit s) Hs).
Qed.
Lemma close_process_safe t L L' p :
  mine (me t) L' → (∀ s, exec_inv s → L s → L' (close_remote p s)) → xsafe t L (close_process p) (λ _, L').
Proof.
  intros HL Hf. apply safe_modify; [by apply exec_mine_stable|]. intros s Hi Hs. split; [|by apply Hf].
  refine (effects_ok t s (x_canceled s) (x_remotes s ∖ {[p]}) (x_audit s) Hi _). intros m [Hm _]%elem_of_difference. by left.
Qed.

Lemma exec_audited_safe {A} t operation target (p : prog world question answer (result err A))
    (L : world → Prop) (P : result err A → world → Prop) :
  mine (me t) L → (∀ r, framed (me t) (P r)) → xsafe t L p P → xsafe t L (audited operation target p) P.
Proof.
  intros HL HP Hp. unfold audited. eapply safe_compose; [by apply exec_look_safe|]. intros started.
  eapply safe_compose; [exact Hp|]. intros r.
  eapply safe_compose; [by apply exec_audit_safe|]. intros []. by apply safe_return.
Qed.

(** ** Access *)

(** An assertion that the events of a check or of a review keep. *)
Definition keeps_events (L : world → Prop) : Prop := ∀ e w, plain_exec_event e → L w → L (emit e w).

Lemma exec_current_safe t n g (L L' : world → Prop) :
  me t = ByCall n → mine (me t) L → mine (me t) L' →
  (∀ s, exec_inv s → L s → L' (emit (ExecCleared n g) s)) →
  xsafe t L (requireCurrent n g) (λ e s, match e with Some _ => L s | None => L' s end).
Proof.
  intros Hn HL HL' Hx. apply safe_atomically; [intros [e|]; by apply exec_mine_stable|]. intros s Hi Hs. simpl.
  destruct (String.eqb g "" || _); simpl; [split; [by apply exec_stay_ok|done]|].
  split; [|by apply Hx]. apply exec_emit_ok; [done|by rewrite Hn|done].
Qed.

Lemma upgrade_allowed key c :
  cap_Decision c ∈ [DecisionAllowed; DecisionDenied; DecisionUnknown] →
  (∃ res e, revalidated key OperationUpgrade c = GuardDone res (Some e)) ∨ cap_Decision c = DecisionAllowed.
Proof.
  intros Hd. unfold revalidated. destruct (String.eqb _ DecisionDenied) eqn:H1; [left; eauto|].
  destruct (String.eqb (cap_Decision c) DecisionUnknown) eqn:H2; simpl; [left; eauto|right].
  apply String.eqb_neq in H1, H2. rewrite !elem_of_cons in Hd.
  destruct Hd as [?|[?|[?|Hd]]]; [done|done|done|by inversion Hd].
Qed.

Lemma revalidate_safe t n key L :
  me t = ByCall n → mine (me t) L → keeps_events L →
  xsafe t L (revalidate n key)
    (λ e s, match e with Some _ => L s | None => L s ∧ allowed n key (x_log s) end).
Proof.
  intros Hn HL Hk. unfold revalidate. eapply safe_compose; [by apply exec_look_safe|]. intros now.
  assert (xsafe t L
    (a ← receive (AskReview n key);
     match a with
     | ReviewIs c =>
       _ ← modify (emit (ExecReviewed n key c));
       Ret (match revalidated key OperationUpgrade c with
            | GuardDone _ (Some e) => Some (translateError (F := F) (AuthErr e))
            | _ => None
            end)
     | _ => Ret (Some internal_error)
     end)
    (λ e s, match e with Some _ => L s | None => L s ∧ allowed n key (x_log s) end)) as Hrest.
  { eapply safe_compose; [by apply exec_receive_safe|].
    intros [r|c|h p|b e|r| | | |]; try (apply safe_return; by intros s _ [? _]).
    eapply safe_compose.
    { apply (safe_modify _ _ _ _ _ (λ s, (L s ∧ ExecReviewed n key c ∈ x_log s)
               ∧ cap_Decision c ∈ [DecisionAllowed; DecisionDenied; DecisionUnknown])).
      - apply exec_mine_stable, kept_and; [apply kept_and; [done|apply exec_elem_mine]|apply kept_const].
      - intros s Hi [Hs Ha]. split; [apply exec_emit_ok; [done|by rewrite Hn|done]|].
        split; [split; [by apply Hk|simpl; set_solver]|done]. }
    intros []. apply safe_return. intros s _ [[Hs Hin] Hd].
    destruct (upgrade_allowed key c Hd) as [(res & e & ->)|Ha]; [done|].
    destruct (revalidated key OperationUpgrade c) as [| | | | |res [e|]]; try done; (split; [done|by exists c]). }
  destruct (call_guard key OperationUpgrade now) as [| | | | |res [e|]]; try exact Hrest.
  by apply safe_return.
Qed.

Definition granted (n : nat) (g : string) (target : MutationTarget) (l : list exec_event) : Prop :=
  ∃ key, access_key target g key ∧ cleared n key g l.
Lemma granted_grows n g target l l' : granted n g target l → granted n g target (l ++ l').
Proof. intros (key & Hk & a & b & -> & Ha). exists key. split; [done|]. exists a, (b ++ l'). by rewrite <- app_assoc. Qed.

Lemma access_safe t n g target container upgrade L :
  me t = ByCall n → mine (me t) L → keeps_events L →
  xsafe t L (exec_access n g target container upgrade)
    (λ e s, match e with Some _ => L s | None => L s ∧ granted n g target (x_log s) end).
Proof.
  intros Hn HL Hk. unfold exec_access, inspect. eapply (safe_compose _ _ _ _ _ _ (λ _, L)).
  { eapply safe_compose; [by apply exec_receive_safe|]. intros a. apply safe_return. by intros s _ [? _]. }
  intros [e|]; [by apply safe_return|].
  destruct (KeyForCapability _ _ _ _) as [key|e] eqn:Hkey; [|by apply safe_return].
  eapply safe_compose; [by apply revalidate_safe|]. intros [e|]; [by apply safe_return|].
  eapply safe_post; [|apply (exec_current_safe t n g _ (λ s, L s ∧ granted n g target (x_log s)))]; try done.
  - by intros [e|] s _ Hs; [apply Hs|].
  - apply kept_and; [done|]. apply (exec_mine_log _ (allowed n key)). intros l l' (c & Hin & Hc). exists c. set_solver.
  - apply kept_and; [done|]. apply (exec_mine_log _ (granted n g target)), granted_grows.
  - intros s Hi [Hs Ha]. split; [by apply Hk|]. exists key. split; [done|]. by exists (x_log s), [].
Qed.

(** ** Tickets *)

Definition unissued (n : nat) (w : world) : Prop := ∀ id t, Issued n id t ∉ x_log w.
Lemma unissued_mine n : mine (ByCall n) (unissued n).
Proof.
  intros u s s' Hu Ht Hs id t.
  apply (no_event_mine n (λ e, e = Issued n id t)) with u s; [by intros e ->|done|done| |done].
  intros e ->. apply Hs.
Qed.
Lemma unissued_keeps n : keeps_events (unissued n).
Proof.
  intros e w He Hw id t. simpl. intros [Hin|Hin%list_elem_of_singleton]%elem_of_app; [by apply (Hw id t)|].
  by subst e.
Qed.

(** A request that issued no ticket has none that was used. *)
Lemma unissued_unused s t : exec_inv s → unissued (tk_request t) s → unused_ticket t (x_log s).
Proof.
  intros Hi Hs n id t' now (a & b & Hl)%list_elem_of_split Heq.
  destruct (xi_log _ Hi a _ b Hl) as ((r & Hin) & _). apply (Hs id t'). rewrite Hl.
  apply list_elem_of_split in Hin as (a' & b' & ->). rewrite <- Heq.
  assert (well_issued r t' a') as [<- _]; [|set_solver].
  apply (xi_log _ Hi a' (Issued r id t') (b' ++ Used n id t' now :: b)). by rewrite Hl, <- app_assoc.
Qed.

Lemma issued_once l n id t id' t' :
  history_ok exec_justified l → Issued n id t ∈ l → Issued n id' t' ∈ l → id = id' ∧ t = t'.
Proof.
  intros Hl (a & b & ->)%list_elem_of_split [Hin|[[= -> ->]|Hin]%elem_of_cons]%elem_of_app; [|done|]; exfalso.
  - by apply (proj2 (Hl a _ b eq_refl) id' t').
  - apply list_elem_of_split in Hin as (a' & b' & ->).
    apply (proj2 (Hl (a ++ Issued n id t :: a') (Issued n id' t') b' ltac:(by rewrite <- app_assoc)) id t). set_solver.
Qed.

Lemma prune_subseteq now m : pruneTicketsLocked now m ⊆ m.
Proof. apply map_filter_subseteq. Qed.

Lemma store_ok t n id tk now s :
  exec_inv s → me t = ByCall n → tk_request tk = n → unissued n s → well_issued n tk (x_log s) →
  xstep (Some t) s (store_ticket (F := F) n id tk now s).2
  ∧ x_states (store_ticket (F := F) n id tk now s).2 = x_states s.
Proof.
  intros Hi Hn Hr Hun Hw. unfold store_ticket.
  assert (xstep (Some t) s (put_tickets (pruneTicketsLocked now (x_tickets s)) s)) as Hput
    by (apply put_tickets_ok; [done|apply prune_subseteq]).
  destruct (x_shutdown _); [done|]. destruct (negb _); [done|].
  destruct (_ <=? _)%nat eqn:Hsz; [done|]. destruct (_ !! id) eqn:Hid; [done|].
  split; [|done]. simpl. apply Nat.leb_gt in Hsz. subst n.
  refine (tickets_ok t s (Some (Issued (tk_request tk) id tk)) (<[id := tk]> (pruneTicketsLocked now (x_tickets s))) Hi _ _ _).
  - rewrite map_size_insert_None by done. lia.
  - intros e [= <-]. simpl. rewrite Hn. split; [done|]. split; [done|apply Hun].
  - intros id' t'. rewrite lookup_insert_Some. intros [[<- <-]|[_ Hid']].
    + right. split; [done|]. by apply unissued_unused.
    + left. split; [by eapply lookup_weaken, prune_subseteq|]. intros ???? Hin%list_elem_of_singleton. done.
Qed.

Lemma take_ok t n id token now s :
  exec_inv s → me t = ByCall n →
  xstep (Some t) s (take_ticket (F := F) sha256 n id token now s).2
  ∧ x_states (take_ticket (F := F) sha256 n id token now s).2 = x_states s
  ∧ x_remotes (take_ticket (F := F) sha256 n id token now s).2 = x_remotes s
  ∧ ∀ tk, (take_ticket (F := F) sha256 n id token now s).1 = Ok tk →
      Used n id tk now ∈ x_log (take_ticket (F := F) sha256 n id token now s).2 ∧ sha256 token = tk_tokenHash tk.
Proof.
  intros Hi Hn. unfold take_ticket.
  assert (xstep (Some t) s (put_tickets (pruneTicketsLocked now (x_tickets s)) s)) as Hput
    by (apply put_tickets_ok; [done|apply prune_subseteq]).
  destruct (_ !! id) as [tk|] eqn:Hid; [|done]. destruct (String.eqb _ _) eqn:Hh; [|done]. simpl.
  apply String.eqb_eq in Hh. split_and!; try done.
  - apply map_lookup_filter_Some in Hid as [Hid Hnow]. simpl in Hnow. destruct (xi_tickets _ Hi id tk Hid) as [Hin Hun].
    refine (tickets_ok t s (Some (Used n id tk now)) (delete id (pruneTicketsLocked now (x_tickets s))) Hi _ _ _).
    + eapply pending_subseteq; [done|]. etrans; [apply delete_subseteq|apply prune_subseteq].
    + intros e [= <-]. simpl. rewrite Hn. split_and!; [done|by eexists|done|done].
    + intros id' t' [Hne Hid']%lookup_delete_Some. left. pose proof (lookup_weaken _ _ _ _ Hid' (prune_subseteq now _)) as Hid0.
      split; [done|]. intros n' id2 t2 now' [= <- <- <- <-]%list_elem_of_singleton Heq.
      destruct (xi_tickets _ Hi id' t' Hid0) as [Hin' _]. rewrite <- Heq in Hin'.
      by destruct (issued_once _ _ _ _ _ _ (xi_log _ Hi) Hin Hin').
  - intros tk' [= <-]. split; [set_solver|done].
Qed.

Lemma exec_true_framed x : framed x (λ _, True).
Proof. split; [apply kept_const|done]. Qed.

Lemma create_safe n b route r :
  xsafe (CallCreateTicket n b route r) (exec_unused n) (CreateTicket sha256 NewID NewToken ticketTTL n b route r)
    (λ _ _, True).
Proof.
  set (t := CallCreateTicket n b route r). unfold CreateTicket.
  set (target := mutationTarget b (cf_Target (ei_Confirmation r))).
  assert (mine (me t) (unissued n)) as Hun by apply unissued_mine.
  eapply (safe_consequence _ _ _ (unissued n)); [intros s _ (Hs & _) id tk Hin; by apply (Hs _ Hin)|].
  eapply (safe_checked _ _ _ _ _ _ (unissued n)); [eapply safe_post; [|by apply exec_look_safe]; by intros [e|]|].
  apply safe_valid; [done|]. intros Hv.
  eapply (safe_checked _ _ _ _ _ _ (unissued n)).
  { eapply safe_post; [|apply (exec_current_safe t n _ _ (unissued n)); try done].
    - by intros [e|].
    - intros s _ Hs. by apply unissued_keeps. }
  apply exec_audited_safe; [done|intros ?; apply exec_true_framed|].
  eapply (safe_checked _ _ _ _ _ _ (λ s, unissued n s ∧ granted n (bind_Generation b) target (x_log s)));
    [eapply safe_post; [|apply (access_safe t n); [done|done|apply unissued_keeps]]; by intros [e|]|].
  destruct (NewID n "exec_") as [id|], (NewToken n) as [token|] eqn:Htok; try by apply safe_return.
  destruct (String.eqb token "" || _); [by apply safe_return|].
  assert (mine (me t) (λ s, unissued n s ∧ granted n (bind_Generation b) target (x_log s))) as HL.
  { apply kept_and; [done|]. apply (exec_mine_log _ (granted _ _ _)), granted_grows. }
  eapply safe_compose; [by apply exec_look_safe|]. intros now.
  eapply (safe_checked _ _ _ _ _ _ (λ _, True)); [|by apply safe_return].
  apply safe_atomically; [intros [e|]; apply exec_mine_stable, kept_const|]. intros s Hi [Hs Hg].
  split; [|by destruct (store_ticket _ _ _ _ _).1].
  apply (store_ok t n); [done|done|done|done|]. split_and!; [done|by exists route|by exists token|exact Hg].
Qed.

(** ** Reservations *)

(** The session of request [n] is not started; it would run [c]. *)
Definition reserved (n : nat) (c : ExecCommand) (w : world) : Prop :=
  ∃ s, x_states w !! n = Some s ∧ es_active s = false ∧ exec_command (es_target s) (es_init s) = c.
Lemma reserved_mine n c : mine (ByCall n) (reserved n c).
Proof.
  apply state_mine. intros u k a b Hu%not_caller He [Ha Hc].
  destruct (ev_active _ _ _ _ _ He) as [-> _]; [by right|]. by rewrite (ev_command _ _ _ _ _ He).
Qed.

Lemma reserve_ok t n st s :
  exec_inv s → me t = ByCall n → x_states s !! n = None → n ∉ x_remotes s →
  state_ok n st → es_closer st = None → es_active st = false →
  (∀ id, x_sessions s !! id ≠ Some n) →
  xstep (Some t) s (reserve_session (F := F) n st s).2
  ∧ x_remotes (reserve_session (F := F) n st s).2 = x_remotes s
  ∧ x_log (reserve_session (F := F) n st s).2 = x_log s
  ∧ ((reserve_session (F := F) n st s).1 = None → x_states (reserve_session (F := F) n st s).2 !! n = Some st).
Proof.
  intros Hi Hn Hnone Hrem Hok Hcl Hact Hfree. pose proof (exec_stay_ok t s Hi) as Hstay. unfold reserve_session.
  destruct (x_shutdown s) eqn:Hsh; [done|]. destruct (negb _) eqn:Hg; [done|].
  destruct (_ <=? _)%nat eqn:Hsz; [done|]. destruct (_ !! es_id st) eqn:Hid; [done|]. cbn [fst snd].
  apply Nat.leb_gt in Hsz. apply negb_false_iff, String.eqb_eq in Hg.
  split_and!; [|done|done|by simpl; rewrite lookup_insert_eq]. split_and!; [split|split|]; simpl; try apply Hi; try done.
  - intros m a. rewrite lookup_insert_Some. intros [[<- <-]|[_ Ha]]; [done|by eapply xi_states].
  - intros id m. rewrite lookup_insert_Some. intros [[<- <-]|[Hne Hm]]; [exists st; by rewrite lookup_insert_eq|].
    destruct (xi_sessions _ Hi id m Hm) as (a & Ha & ? & ?). exists a. rewrite lookup_insert_ne; [done|congruence].
  - rewrite map_size_insert_None by done. lia.
  - exists []. by rewrite app_nil_r.
  - exists []. by rewrite app_nil_r.
  - by left.
  - intros m a Ha. exists a. rewrite lookup_insert_ne by congruence. split; [done|apply evolves_refl].
  - intros m a. rewrite lookup_insert_Some. intros [[<- <-]|[_ Ha]]; [right; by rewrite Hn|left; by exists a].
  - intros id m. rewrite lookup_insert_Some. intros [[_ <-]|[_ ?]]; [by right|by left].
  - by left.
  - intros R l HR Ht id m a. simpl. rewrite !lookup_insert_Some. intros [[<- <-]|[Hne Hm]] [[Hnm <-]|[Hnm Ha]] Hgen; try done.
    + destruct (xi_current _ Hi). apply HR. by rewrite Hg.
    + destruct (xi_sessions _ Hi id m Hm) as (a' & Ha' & _). congruence.
    + by eapply Ht.
  - unfold started_by. simpl. by rewrite drop_all.
Qed.

(** ** Closing a channel *)

Lemma take_over_ok t m s a :
  exec_inv s → x_sessions s !! es_id a = Some m → x_states s !! m = Some a → es_active a = false →
  xstep (Some t) s (drop_reservation m (me t) s) ∧ holds t m (drop_reservation m (me t) s).
Proof.
  intros Hi Hid Ha Hact. unfold drop_reservation. rewrite Ha.
  destruct (xi_sessions _ Hi _ _ Hid) as (a' & Ha' & _ & Hc). rewrite Ha in Ha'. injection Ha' as <-. specialize (Hc Hact).
  destruct (xi_states _ Hi m a Ha) as [H1 H2 H3 H4 H5 H6]. destruct (H4 Hc) as (Hcl & Hte & Hf). split.
  - refine (on_state_ok t s m (taken_over (me t)) (delete (es_id a) (x_sessions s)) Hi (delete_subseteq _ _) _).
    intros b Hb. rewrite Ha in Hb. injection Hb as <-. split_and!; [split|split|]; simpl; try done; try (right; split; [done|by left]).
    + congruence.
    + intros id [Hne Hid']%lookup_delete_Some. destruct (xi_sessions _ Hi id m Hid') as (a2 & Ha2 & He & _). congruence.
  - exists (taken_over (me t) a). simpl. by rewrite lookup_alter_eq, Ha.
Qed.

Lemma with_channel_ok t m s a terminal closed :
  exec_inv s → x_states s !! m = Some a → es_closer a = Some (me t) → (terminal ≠ None → es_finished a = true) →
  xstep (Some t) s (on_state m (with_channel terminal closed) s).
Proof.
  intros Hi Ha Hc Hf. refine (on_state_ok t s m _ (x_sessions s) Hi (reflexivity _) _).
  intros b Hb. simplify_eq. destruct (xi_states _ Hi m a Ha) as [H1 H2 H3 H4 H5 H6].
  split_and!; [split|split|]; simpl; try done; try (by left).
  - congruence.
  - intros id Hid. destruct (xi_sessions _ Hi id m Hid) as (a' & Ha' & _ & ?). by simplify_eq.
Qed.

(** [close] of a channel this goroutine holds does not panic. *)
Lemma close_terminal_safe t m (L L' : world → Prop) :
  mine (me t) L' → (∀ s, exec_inv s → L s → holds t m s) →
  (∀ s a, exec_inv s → L s → x_states s !! m = Some a → L' (on_state m (with_channel (es_terminal a) true) s)) →
  xsafe t L (close_terminal m) (λ _, L').
Proof.
  intros HL Hh Hx. apply safe_modify; [by apply exec_mine_stable|]. intros s Hi Hs.
  destruct (Hh s Hi Hs) as (a & Ha & Hc & Hcl). rewrite Ha, Hcl. split; [|by apply Hx].
  eapply with_channel_ok; [done|done|done|]. exact (so_finished _ _ (xi_states _ Hi m a Ha)).
Qed.

Lemma leased_spec n g s m a :
  exec_inv s → NewID n "lease_" = Some (gr_leaseID g) → leased g s = Some (m, a) →
  m = n ∧ x_states s !! n = Some a ∧ es_id a = gr_SessionID g ∧ x_sessions s !! es_id a = Some n.
Proof.
  intros Hi Hl. unfold leased. destruct (x_sessions s !! gr_SessionID g) as [m'|] eqn:Hid; simpl; [|done].
  destruct (x_states s !! m') as [a'|] eqn:Ha; simpl; [|done].
  destruct (negb _ && _) eqn:Hb; [|done]. intros [= <- <-]. apply andb_true_iff in Hb as [_ Hb].
  apply String.eqb_eq in Hb. destruct (xi_sessions _ Hi _ _ Hid) as (a2 & Ha2 & He & _). simplify_eq.
  pose proof (so_lease _ _ (xi_states _ Hi _ _ Ha)) as Hlease. rewrite Hb in Hlease.
  pose proof (leases_unique _ _ _ Hlease Hl). subst m'. split_and!; [done|done|done|by rewrite He].
Qed.

Lemma exec_release_safe t n g :
  me t = ByCall n → NewID n "lease_" = Some (gr_leaseID g) →
  xsafe t (λ s, n ∉ x_remotes s) (ReleaseUpgrade (F := F) n g) (λ _ s, n ∉ x_remotes s).
Proof.
  intros Hn Hl. unfold ReleaseUpgrade.
  eapply (safe_compose _ _ _ _ _ _ (λ r s, n ∉ x_remotes s ∧ ∀ m, r = Some m → holds t m s)).
  { apply safe_atomically.
    - intros r. apply exec_mine_stable, kept_and; [rewrite Hn; apply no_process_mine|].
      apply kept_all. intros m. apply kept_impl, holds_mine.
    - intros s Hi Hs. pose proof (exec_stay_ok t s Hi). destruct (leased g s) as [[m a]|] eqn:Hle; [|done].
      destruct (leased_spec n g s m a Hi Hl Hle) as (-> & Ha & _ & Hid).
      destruct (es_active a) eqn:Hact; [done|]. cbn [fst snd]. rewrite <- Hn.
      destruct (take_over_ok t n s a Hi Hid Ha Hact) as [Hst Hh]. split; [done|]. split; [|by intros m [= <-]].
      unfold drop_reservation. by rewrite Ha. }
  intros [m|]; [|apply safe_return; by intros s _ [? _]].
  eapply (safe_compose _ _ _ _ _ _ (λ _ s, n ∉ x_remotes s)); [|intros []; by apply safe_return].
  apply (close_terminal_safe t m _ (λ s, n ∉ x_remotes s)); [rewrite Hn; apply no_process_mine| |].
  - intros s _ [_ Hh]. by apply Hh.
  - by intros s a _ [? _] _.
Qed.

Lemma expire_safe k m id lease :
  xsafe (GoExpire k m id lease) (λ _, True) (expireReservation k id lease) (λ _ _, True).
Proof.
  set (t := GoExpire k m id lease). unfold expireReservation.
  eapply (safe_compose _ _ _ _ _ _ (λ r s, ∀ m, r = Some m → holds t m s)).
  { apply safe_atomically.
    - intros r. apply exec_mine_stable, kept_all. intros m'. apply kept_impl, holds_mine.
    - intros s Hi _. pose proof (exec_stay_ok t s Hi). destruct (x_sessions s !! id) as [m'|] eqn:Hid; [|done]. simpl.
      destruct (x_states s !! m') as [a|] eqn:Ha; [|done]. simpl.
      destruct (es_active a || _) eqn:Hact; [done|]. apply orb_false_iff in Hact as [Hact _].
      destruct (xi_sessions _ Hi _ _ Hid) as (a' & Ha' & He & _). rewrite Ha in Ha'. injection Ha' as <-. subst id.
      destruct (take_over_ok t m' s a Hi Hid Ha Hact) as [Hst Hh]. split; [exact Hst|]. by intros ? [= <-]. }
  intros [m'|]; [|by apply safe_return].
  apply (close_terminal_safe t m' _ (λ _, True)); [apply kept_const| |done]. intros s _ Hh. by apply Hh.
Qed.

(** ** Starting a process *)

Lemma drop_current_safe t m L :
  mine (me t) L → (∀ s sessions, L s → L (put_sessions sessions s)) →
  xsafe t L (modify (drop_current m)) (λ _, L).
Proof.
  intros HL Hx. apply safe_modify; [by apply exec_mine_stable|]. intros s Hi Hs. pose proof (exec_stay_ok t s Hi).
  unfold drop_current. destruct (x_states s !! m); [|done]. destruct (registered_state m s); [|done].
  split; [apply sessions_ok; [done|apply delete_subseteq]|by apply Hx].
Qed.

Lemma exec_start_step t n g c s :
  exec_inv s → me t = ByCall n → NewID n "lease_" = Some (gr_leaseID g) → reserved n c s →
  let '(r, s') := start_session (F := F) n g s in
  xstep (Some t) s s' ∧ reserved n c s' ∧ x_remotes s' = x_remotes s ∧ x_log s' = x_log s
  ∧ ∀ m a, r = Ok (m, a) → m = n ∧ exec_command (es_target a) (es_init a) = c.
Proof.
  intros Hi Hn Hl Hres. pose proof (exec_stay_ok t s Hi) as Hstay. unfold start_session.
  destruct (leased g s) as [[m a]|] eqn:Hle; [|done].
  destruct (leased_spec n g s m a Hi Hl Hle) as (-> & Ha & Hid & Hse). destruct Hres as (a' & Ha' & Hact & Hcmd).
  rewrite Ha in Ha'. injection Ha' as <-. rewrite Hact.
  destruct (xi_states _ Hi n a Ha) as [H1 H2 H3 H4 H5 H6].
  assert (∀ f : execSessionState → execSessionState, es_active (f a) = es_active a →
    exec_command (es_target (f a)) (es_init (f a)) = exec_command (es_target a) (es_init a) →
    ∀ sessions, reserved n c (set_maps (x_tickets s) sessions (alter f n (x_states s)) s)) as Hkeep.
  { intros f Hfa Hfc sessions. exists (f a). simpl. rewrite lookup_alter_eq, Ha. split_and!; [done|congruence|congruence]. }
  destruct (negb _ || _); split_and!; try done; try (by apply (Hkeep (with_timer _ _ _))).
  - refine (on_state_ok t s n _ (delete (gr_SessionID g) (x_sessions s)) Hi (delete_subseteq _ _) _).
    intros b Hb. rewrite Ha in Hb. injection Hb as <-. split_and!; [split|split|]; simpl; try done; try by left.
    intros id [Hne Hid']%lookup_delete_Some. destruct (xi_sessions _ Hi id n Hid') as (a2 & Ha2 & He & _). congruence.
  - refine (on_state_ok t s n _ (x_sessions s) Hi (reflexivity _) _).
    intros b Hb. rewrite Ha in Hb. injection Hb as <-. split_and!; [split|split|]; simpl; try done; try (by left).
    + rewrite Hn, Hact. simpl. intros [?|?]; congruence.
    + congruence.
    + intros id Hid'. destruct (xi_sessions _ Hi id n Hid') as (a2 & Ha2 & _ & ?). by simplify_eq.
  - by intros m b [= <- <-].
Qed.

Lemma activate_ok t n c s :
  exec_inv s → me t = ByCall n → reserved n c s → xstep (Some t) s (activate n n s).2.
Proof.
  intros Hi Hn (a & Ha & Hact & _). unfold activate. destruct (registered_state n s && _) eqn:Hcur; [|by apply exec_stay_ok].
  apply andb_true_iff in Hcur as [Hcur _]. unfold registered_state in Hcur. rewrite Ha in Hcur. apply bool_decide_eq_true in Hcur.
  destruct (xi_sessions _ Hi _ _ Hcur) as (a' & Ha' & _ & Hc). rewrite Ha in Ha'. injection Ha' as <-. specialize (Hc Hact).
  destruct (xi_states _ Hi n a Ha) as [H1 H2 H3 H4 H5 H6]. destruct (H4 Hc) as (Hcl & Hte & Hf).
  set (k := length (x_spawned s)). set (f := activated n k (x_now s)). cbn [snd].
  apply (step_intro _ _ _ None (Some (λ k, GoMonitor k n))); [done|]. split; simpl; try done; try apply Hi.
  - by rewrite app_nil_r.
  - intros g [= <-]. split; [done|]. exists (f a). simpl. by rewrite lookup_alter_eq, Ha.
  - by apply (same_tickets s s).
  - refine (one_state (Some (me t)) s (on_state n f s) n f Hi eq_refl (reflexivity _) _).
    intros b Hb. rewrite Ha in Hb. injection Hb as <-. rewrite Hn. split_and!; [split|split|]; simpl; try done.
    + intros [?|?]; congruence.
    + right. split; [done|]. by right.
    + intros _. by exists k.
  - intros m. by rewrite lookup_alter_is_Some.
  - by left.
Qed.

Lemma no_process_framed n : framed (ByCall n) (λ s, n ∉ x_remotes s).
Proof. split; [apply no_process_mine|done]. Qed.

(** A process that is not taken into a session is closed. *)
Lemma failed_start_safe t n m g e :
  me t = ByCall n →
  xsafe t (λ s, n ∉ x_remotes s) (failed_start (F := F) n m g false e) (λ _ s, n ∉ x_remotes s).
Proof.
  intros Hn. pose proof (no_process_framed n) as HF. pose proof HF as [HL _]. rewrite <- Hn in HF, HL. unfold failed_start.
  eapply safe_compose; [by apply exec_cancel_safe|]. intros [].
  eapply safe_compose; [by apply drop_current_safe|]. intros [].
  eapply safe_compose; [eapply (exec_current_safe t n _ _ (λ s, n ∉ x_remotes s)); done|].
  intros [c|]; [by intros s _ Hs|].
  eapply safe_compose; [by apply exec_look_safe|]. intros [|]; by intros s _ Hs.
Qed.

Lemma closed_process_safe {A} t n (L : world → Prop) (k : () → prog world question answer A) P :
  me t = ByCall n → (∀ u, xsafe t (λ s, n ∉ x_remotes s) (k u) P) →
  xsafe t L (close_process n ≫= k) P.
Proof.
  intros Hn Hk. eapply safe_compose; [|exact Hk].
  apply (close_process_safe t L (λ s, n ∉ x_remotes s)); [rewrite Hn; apply no_process_mine|].
  intros s _ _. simpl. set_solver.
Qed.

(** What a request has when it asks for its process. *)
Definition exec_prepared (n : nat) (b : SelectionBinding) (id : string) (protocols : list string) (c : ExecCommand)
    (w : world) : Prop :=
  reserved n c w ∧ n ∉ x_remotes w ∧ entitled n b id protocols c (x_log w).

Lemma entitled_grows n b id protocols c l l' : entitled n b id protocols c l → entitled n b id protocols c (l ++ l').
Proof.
  intros (t & now & token & key & Hu & H1 & H2 & H3 & H4 & H5 & (a & d & -> & Ha)). exists t, now, token, key.
  split_and!; try done; [set_solver|]. exists a, (d ++ l'). by rewrite <- app_assoc.
Qed.
Lemma prepared_mine n b id protocols c : mine (ByCall n) (exec_prepared n b id protocols c).
Proof.
  repeat apply kept_and; [apply reserved_mine|apply no_process_mine|].
  apply (exec_mine_log _ (entitled n b id protocols c)), entitled_grows.
Qed.
Lemma prepared_keeps n b id protocols c : keeps_events (exec_prepared n b id protocols c).
Proof. intros e w _ (H1 & H2 & H3). split_and!; [done|done|by apply entitled_grows]. Qed.

Definition served (n : nat) (r : result err ActiveExec) (w : world) : Prop :=
  match r with Err _ => n ∉ x_remotes w | Ok _ => True end.
Lemma served_framed n r : framed (ByCall n) (served n r).
Proof. destruct r; [apply exec_true_framed|apply no_process_framed]. Qed.

Lemma running_safe t n g c a :
  me t = ByCall n →
  xsafe t (reserved n c)
    (c ← requireCurrent (F := F) n (gr_Generation g);
     match c with
     | Some c => _ ← cancel n; _ ← close_process n; _ ← modify (drop_current n); Ret (Err c)
     | None =>
       active ← atomically (activate n n);
       if active : bool then
         started ← look (started_at n);
         _ ← record_audit started "exec_start" (es_target a) None;
         Ret (Ok {| ax_SessionID := es_id a; ax_Generation := bind_Generation (es_binding a);
                    ax_TTY := ei_TTY (es_init a); ax_Stdin := ei_Stdin (es_init a) |})
       else _ ← cancel n; _ ← close_process n; Ret (Err session_gone)
     end) (served n).
Proof.
  intros Hn. assert (framed (me t) (λ _, True)) as HT by apply exec_true_framed.
  eapply (safe_compose _ _ _ _ _ _ (λ _, reserved n c)).
  { eapply safe_post; [|apply (exec_current_safe t n _ _ (reserved n c)); try done].
    - by intros [e|].
    - rewrite Hn. apply reserved_mine.
    - rewrite Hn. apply reserved_mine. }
  intros [e|].
  - eapply (safe_compose _ _ _ _ _ _ (λ _ _, True)); [eapply safe_consequence; [|by apply exec_cancel_safe]; done|].
    intros []. apply closed_process_safe; [done|]. intros [].
    eapply safe_compose; [apply drop_current_safe; [rewrite Hn; apply no_process_mine|done]|].
    intros []. by apply safe_return.
  - eapply (safe_compose _ _ _ _ _ _ (λ _ _, True)).
    + apply safe_atomically; [intros ?; apply exec_mine_stable, kept_const|]. intros s Hi Hs. split; [|done].
      by eapply activate_ok.
    + intros [|].
      * eapply safe_compose; [apply exec_look_safe, kept_const|]. intros now.
        eapply safe_compose; [by apply exec_audit_safe|]. intros []. by apply safe_return.
      * eapply safe_compose; [by apply exec_cancel_safe|]. intros [].
        apply closed_process_safe; [done|]. intros []. by apply safe_return.
Qed.

Lemma start_safe n b id protocols g c :
  NewID n "lease_" = Some (gr_leaseID g) →
  xsafe (CallServe n b id protocols) (exec_prepared n b id protocols c) (Start (F := F) n g) (served n).
Proof.
  intros Hl. set (t := CallServe n b id protocols). set (L := exec_prepared n b id protocols c).
  assert (mine (me t) L) as HL by apply prepared_mine. unfold Start.
  eapply (safe_checked _ _ _ _ _ _ L); [eapply safe_post; [|by apply exec_look_safe]; intros [e|] s _ Hs; [apply Hs|done]|].
  eapply (safe_compose _ _ _ _ _ _ (λ r s, L s ∧ ∀ m a, r = Ok (m, a) → m = n ∧ exec_command (es_target a) (es_init a) = c)).
  { apply safe_atomically; [intros r; apply exec_mine_stable, kept_and; [done|apply kept_const]|].
    intros s Hi (H1 & H2 & H3). pose proof (exec_start_step t n g c s Hi eq_refl Hl H1) as Hst.
    destruct (start_session n g s) as [r s']. destruct Hst as (Hst & Hr & Hrem & Hlog & Hres). cbn [fst snd].
    split; [done|]. split; [|done]. split_and!; [done|by rewrite Hrem|by rewrite Hlog]. }
  intros [[m a]|e]; [|apply safe_return; intros s _ [(_ & H2 & _) _]; done].
  apply (safe_consequence _ _ _ (λ s, L s ∧ m = n ∧ exec_command (es_target a) (es_init a) = c));
    [intros s _ [Hs Hm]; split; [done|by apply Hm]|].
  eapply safe_compose.
  { apply (safe_modify _ _ _ _ _ (λ s, L s ∧ m = n ∧ exec_command (es_target a) (es_init a) = c)).
    - apply exec_mine_stable, kept_and; [done|apply kept_const].
    - intros s Hi [Hs Hm]. split; [by apply exec_emit_ok|]. split; [by apply prepared_keeps|done]. }
  intros []. eapply safe_compose.
  { apply exec_receive_safe; [apply kept_and; [done|apply kept_const]|].
    intros s Hi [(_ & _ & Hent) [_ Hc]]. simpl. split; [done|]. by rewrite Hc. }
  intros ans. cbv beta.
  set (x := match ans with StartIs remote e => (remote, e) | _ => (false, None) end).
  apply (safe_consequence _ _ _ (λ s, (L s ∧ m = n) ∧ (x.1 = true → x.2 = None))).
  { intros s _ [[Hs [Hm _]] Ha]. split; [done|]. unfold x. by destruct ans. }
  destruct x as [remote e]. cbn [fst snd]. destruct remote; cbn [when negb orb].
  - eapply (safe_compose _ _ _ _ _ _ (λ _ s, (reserved n c s ∧ m = n) ∧ e = None)).
    { apply safe_modify; [apply exec_mine_stable, kept_and; [apply kept_and; [apply reserved_mine|]|]; apply kept_const|].
      intros s Hi [[(H1 & H2 & H3) Hm] He]. split; [|split_and!; [done|done|by apply He]].
      refine (effects_ok t s (x_canceled s) ({[n]} ∪ x_remotes s) (x_audit s) Hi _).
      intros p [->%elem_of_singleton|?]%elem_of_union; [right|by left]. split; [done|].
      intros a' Ha'. destruct H1 as (a2 & Ha2 & Hact & _). by simplify_eq. }
    intros []. destruct e as [e|].
    + apply (safe_consequence _ _ _ (λ _, False)); [by intros s _ [_ ?]|]. by apply safe_absurd.
    + destruct (decide (m = n)) as [->|Hne].
      * apply (safe_consequence _ _ _ (reserved n c)); [by intros s _ [[? _] _]|]. by apply running_safe.
      * apply (safe_consequence _ _ _ (λ _, False)); [by intros s _ [[_ ?] _]|]. by apply safe_absurd.
  - eapply (safe_compose _ _ _ _ _ _ (λ _ s, n ∉ x_remotes s)); [apply safe_return; by intros s _ [[(_ & ? & _) _] _]|].
    intros []. eapply safe_post; [|by apply failed_start_safe]. intros [r|e'] s _ Hs; done.
Qed.

(** ** From a ticket to a process *)

Definition fresh_request (n : nat) (w : world) : Prop := x_states w !! n = None ∧ n ∉ x_remotes w.
Lemma fresh_mine n : mine (ByCall n) (fresh_request n).
Proof.
  apply kept_and; [|apply no_process_mine]. intros u s s' Hu%not_caller Ht Hs.
  destruct (x_states s' !! n) as [a|] eqn:Ha; [|done]. destruct (xt_new _ _ _ Ht n a Ha) as [[? ?]|[? _]]; congruence.
Qed.

Definition authorized (n : nat) (b : SelectionBinding) (id : string) (protocols : list string)
    (r : result err ExecGrant) (w : world) : Prop :=
  match r with
  | Err _ => n ∉ x_remotes w
  | Ok g => NewID n "lease_" = Some (gr_leaseID g) ∧ ∃ c, exec_prepared n b id protocols c w
  end.
Lemma authorized_framed n b id protocols r : framed (ByCall n) (authorized n b id protocols r).
Proof.
  destruct r as [g|e]; [|apply no_process_framed]. split; [|done]. apply kept_and; [apply kept_const|].
  apply kept_exists. intros c. apply prepared_mine.
Qed.

(** The ticket of this request, and what [AuthorizeUpgrade] still has to check. *)
Definition redeemed (n : nat) (id token : string) (tk : execTicket) (w : world) : Prop :=
  fresh_request n w ∧ (∃ now, Used n id tk now ∈ x_log w) ∧ sha256 token = tk_tokenHash tk.
Lemma redeemed_mine n id token tk : mine (ByCall n) (redeemed n id token tk).
Proof.
  apply kept_and; [apply fresh_mine|]. apply kept_and; [apply kept_exists; intros now; apply exec_elem_mine|apply kept_const].
Qed.
Lemma redeemed_keeps n id token tk : keeps_events (redeemed n id token tk).
Proof. intros e w _ (H1 & (now & H2) & H3). split_and!; [done|exists now; simpl; set_solver|done]. Qed.

Lemma reserve_safe n b id protocols token tk lease :
  parseExecProtocols (F := F) protocols = Ok token → same_selection tk b = true → NewID n "lease_" = Some lease →
  let t := CallServe n b id protocols in
  xsafe t (λ s, redeemed n id token tk s ∧ granted n (bind_Generation b) (tk_target tk) (x_log s))
    (atomically (reserve_session (F := F) n (new_state id lease b tk)))
    (λ e s, match e with
            | Some _ => n ∉ x_remotes s
            | None => exec_prepared n b id protocols (exec_command (tk_target tk) (tk_init tk)) s
            end).
Proof.
  intros Hp Hsel Hl t. apply safe_atomically.
  - intros [e|]; apply exec_mine_stable; [apply no_process_mine|apply prepared_mine].
  - intros s Hi [[[Hst Hrem] [[now Hu] Hh]] (key & Hk & Hc)].
    destruct (reserve_ok t n (new_state id lease b tk) s) as (Hstep & Hr & Hlog & Hnew); try done.
    { intros id' Hid. destruct (xi_sessions _ Hi id' n Hid) as (a & Ha & _). congruence. }
    split; [done|]. destruct (reserve_session n _ s) as [[e|] s']; cbn [fst snd] in *; [by rewrite Hr|].
    split_and!; [|by rewrite Hr|rewrite Hlog].
    + exists (new_state id lease b tk). split; [by apply Hnew|done].
    + by exists tk, now, token, key.
Qed.

Lemma authorize_safe n b id protocols :
  xsafe (CallServe n b id protocols) (exec_unused n) (AuthorizeUpgrade sha256 NewID n b id protocols)
    (authorized n b id protocols).
Proof.
  set (t := CallServe n b id protocols). unfold AuthorizeUpgrade.
  apply (safe_consequence _ _ _ (fresh_request n)); [intros s _ (_ & H1 & H2 & _); by split|].
  assert (mine (me t) (fresh_request n)) as Hm by apply fresh_mine.
  assert (∀ e s, fresh_request n s → authorized n b id protocols (Err e) s) as Herr by (by intros e s [_ ?]).
  eapply (safe_checked _ _ _ _ _ _ (fresh_request n)).
  { eapply safe_post; [|by apply exec_look_safe]. intros [e|] s _ Hs; [by apply Herr|done]. }
  apply safe_valid; [intros e _ s _; apply Herr|]. intros _.
  apply safe_valid; [intros e _ s _; apply Herr|]. intros _.
  destruct (parseExecProtocols protocols) as [token|e] eqn:Hp; [|apply safe_return; intros s _; apply Herr].
  eapply safe_compose; [by apply exec_look_safe|]. intros now.
  eapply (safe_compose _ _ _ _ _ _ (λ r s, match r with Ok tk => redeemed n id token tk s | Err _ => fresh_request n s end)).
  { apply safe_atomically; [intros [tk|e]; apply exec_mine_stable; [apply redeemed_mine|done]|].
    intros s Hi [H1 H2]. destruct (take_ok t n id token now s Hi eq_refl) as (Hst & Hs & Hr & Hok). split; [done|].
    destruct (take_ticket _ _ _ _ _ _) as [[tk|e] s']; cbn [fst snd] in *; [|split; [by rewrite Hs|by rewrite Hr]].
    destruct (Hok tk eq_refl) as [Hu Hh]. split_and!; [split; [by rewrite Hs|by rewrite Hr]|by exists now|done]. }
  intros [tk|e]; [|apply safe_return; intros s _; apply Herr].
  assert (mine (me t) (redeemed n id token tk)) as HR by apply redeemed_mine.
  assert (∀ e s, redeemed n id token tk s → authorized n b id protocols (Err e) s) as Herr' by (by intros e s [[_ ?] _]).
  apply exec_audited_safe; [done|intros r; apply authorized_framed|].
  destruct (same_selection tk b) eqn:Hsel; cbn [negb]; [|apply safe_return; intros s _; apply Herr'].
  eapply (safe_checked _ _ _ _ _ _ (redeemed n id token tk)).
  { eapply safe_post; [|apply (exec_current_safe t n _ _ (redeemed n id token tk)); try done].
    - intros [e|] s _ Hs; [by apply Herr'|done].
    - intros s _ Hs. by apply redeemed_keeps. }
  eapply (safe_checked _ _ _ _ _ _ (λ s, redeemed n id token tk s ∧ granted n (bind_Generation b) (tk_target tk) (x_log s))).
  { eapply safe_post; [|apply (access_safe t n); [done|done|apply redeemed_keeps]].
    intros [e|] s _ Hs; [by apply Herr'|done]. }
  destruct (NewID n "lease_") as [lease|] eqn:Hl; [|apply safe_return; intros s _ [Hs _]; by apply Herr'].
  eapply safe_checked; [eapply safe_post; [|by apply (reserve_safe n b id protocols token)]; by intros [e|] s _ Hs; [|exact Hs]|].
  apply safe_return. intros s _ Hs. split; [done|]. by eexists.
Qed.

Lemma accepted_dec (a : @answer F) : {a = Accepted true true} + {a ≠ Accepted true true}.
Proof. destruct a as [| |[] []| | | | | |]; by (left + right). Qed.

Lemma serve_safe n b id protocols :
  xsafe (CallServe n b id protocols) (exec_unused n) (ServeHTTP sha256 NewID n b id protocols) (served n).
Proof.
  set (t := CallServe n b id protocols). unfold ServeHTTP.
  eapply safe_compose; [apply authorize_safe|]. intros [g|e]; [|by apply safe_return].
  destruct (decide (NewID n "lease_" = Some (gr_leaseID g))) as [Hl|Hl];
    [|apply (safe_consequence _ _ _ (λ _, False)); [by intros s _ [? _]|apply safe_absurd]].
  eapply safe_compose.
  { apply exec_receive_safe; [apply (authorized_framed n b id protocols (Ok g))|done]. }
  assert (∀ (x : err), xsafe t (λ s, n ∉ x_remotes s) (_ ← ReleaseUpgrade (F := F) n g; Ret (Err x)) (served n)) as Hrel.
  { intros x. eapply safe_compose; [by apply exec_release_safe|]. intros e. by apply safe_return. }
  intros ans. destruct (accepted_dec ans) as [->|Hne].
  - apply (safe_consequence _ _ _ (λ s, ∃ c, exec_prepared n b id protocols c s)); [by intros s _ [[_ ?] _]|].
    apply safe_exists. intros c. by apply start_safe.
  - apply (safe_consequence _ _ _ (λ s, n ∉ x_remotes s)); [by intros s _ [[_ (c & _ & ? & _)] _]|].
    destruct ans as [r|c|[] []|x e|r| | | |]; try apply Hrel. done.
Qed.

(** ** Ending a session *)

Lemma current_spec s m a :
  exec_inv s → x_states s !! m = Some a → registered_state m s = false → gone m s.
Proof.
  intros Hi Ha Hc id Hid. destruct (xi_sessions _ Hi id m Hid) as (a' & Ha' & He & _).
  unfold registered_state in Hc. rewrite Ha in Hc. apply bool_decide_eq_false in Hc. congruence.
Qed.

Lemma record_ok t m term s : exec_inv s → xstep (Some t) s (record_terminal m term s).2.
Proof.
  intros Hi. unfold record_terminal. destruct (x_states s !! m) as [a|] eqn:Ha; [|by apply exec_stay_ok].
  destruct (registered_state m s && _) eqn:Hc; [|by apply exec_stay_ok]. apply andb_true_iff in Hc as [_ Hc].
  apply negb_true_iff, bool_decide_eq_false in Hc.
  refine (on_state_ok t s m _ (x_sessions s) Hi (reflexivity _) _). intros b Hb. rewrite Ha in Hb. injection Hb as <-.
  destruct (xi_states _ Hi m a Ha) as [H1 H2 H3 H4 H5 H6]. split_and!; [split|split|]; simpl; try done; try by left.
  intros id Hid. destruct (xi_sessions _ Hi id m Hid) as (a2 & Ha2 & _ & ?). by simplify_eq.
Qed.

(** An assertion that the end of a context or of a process keeps. *)
Definition sturdy (x : who) (L : world → Prop) : Prop := framed x L ∧ ∀ w p, L w → L (close_remote p w).

Lemma request_safe t m term (L L' : world → Prop) :
  sturdy (me t) L' → (∀ s, exec_inv s → L s → L' (record_terminal m term s).2) →
  xsafe t L (request_terminal m term) (λ _, L').
Proof.
  intros [HF Hcl] Hx. pose proof HF as [HL _]. unfold request_terminal.
  eapply (safe_compose _ _ _ _ _ _ (λ _, L')).
  { apply safe_atomically; [intros _; by apply exec_mine_stable|]. intros s Hi Hs. split; [by apply record_ok|by apply Hx]. }
  intros [[c p]|]; [|by apply safe_return].
  eapply (safe_compose _ _ _ _ _ _ (λ _, L')); [destruct c; [by apply exec_cancel_safe|by apply safe_return]|]. intros [].
  destruct p as [p|]; [|by apply safe_return]. apply close_process_safe; [done|]. intros s _ Hs. by apply Hcl.
Qed.

Lemma phase_sturdy k m f te c : sturdy (BySpawned k) (phase k m f te c).
Proof. split; [split; [apply phase_mine|done]|done]. Qed.

Lemma phase_record k m m' f te c term s :
  phase k m f te c s → phase k m f te c (record_terminal m' term s).2.
Proof.
  intros (a & Ha & H1 & H2 & H3 & H4 & H5). unfold record_terminal. destruct (x_states s !! m') as [a'|] eqn:Ha'; [|by exists a].
  destruct (registered_state m' s && _); [|by exists a]. destruct (decide (m' = m)) as [->|Hne].
  - exists (with_requested term a). simpl. by rewrite lookup_alter_eq, Ha.
  - exists a. simpl. by rewrite lookup_alter_ne.
Qed.

(** The monitor ends its session: it leaves the map, its process and its channel are closed. *)
Definition left_map (k m : nat) (te : option ExecTerminal) (w : world) : Prop :=
  (gone m w ∧ is_Some (x_states w !! m)) ∧ phase k m true te false w.
Definition left_all (k m : nat) (te : option ExecTerminal) (c : bool) (w : world) : Prop :=
  (gone m w ∧ is_Some (x_states w !! m)) ∧ phase k m true te c w ∧ m ∉ x_remotes w.
Lemma left_map_mine k m te : mine (BySpawned k) (left_map k m te).
Proof. apply kept_and; [apply gone_mine|apply phase_mine]. Qed.
Lemma left_all_mine k m te c : mine (BySpawned k) (left_all k m te c).
Proof. apply kept_and; [apply gone_mine|apply phase_no_process_mine]. Qed.

Lemma finish_once_ok k m s :
  exec_inv s → phase k m false None false s →
  xstep (Some (GoMonitor k m)) s (on_state m with_finished s) ∧ phase k m true None false (on_state m with_finished s).
Proof.
  intros Hi (a & Ha & Hc & Hact & Hf & Ht & Hcl). split.
  - refine (on_state_ok _ s m _ (x_sessions s) Hi (reflexivity _) _). intros b Hb. rewrite Ha in Hb. injection Hb as <-.
    destruct (xi_states _ Hi m a Ha) as [H1 H2 H3 H4 H5 H6]. split_and!; [split|split|]; simpl; try done; try by left.
    + congruence.
    + congruence.
  - exists (with_finished a). simpl. by rewrite lookup_alter_eq, Ha.
Qed.

Lemma send_terminal_safe k m term :
  xsafe (GoMonitor k m) (left_all k m None false) (send_terminal m term) (λ _, left_all k m (Some term) false).
Proof.
  apply safe_modify; [apply exec_mine_stable, left_all_mine|].
  intros s Hi [[Hg Hs] [(a & Ha & Hc & Hact & Hf & Ht & Hcl) Hp]]. rewrite Ha, Hcl, Ht. simpl. split.
  - by eapply (with_channel_ok (GoMonitor k m)).
  - split_and!; [done|simpl; by rewrite lookup_alter_is_Some| |done].
    exists (with_channel (Some term) false a). simpl. by rewrite lookup_alter_eq, Ha.
Qed.

Lemma exec_finish_safe k m term :
  xsafe (GoMonitor k m) (phase k m false None false) (finish (F := F) m term) (λ _, ended k m).
Proof.
  set (t := GoMonitor k m). unfold finish.
  eapply (safe_compose _ _ _ _ _ _ (λ r s, r = Some tt ∧ phase k m true None false s)).
  { apply safe_atomically; [intros r; apply exec_mine_stable, kept_and; [apply kept_const|apply phase_mine]|].
    intros s Hi Hs. pose proof Hs as (a & Ha & _ & _ & Hf & _). rewrite Ha, Hf. simpl.
    destruct (finish_once_ok k m s Hi Hs). by split. }
  intros [[]|]; [|eapply safe_consequence; [|apply safe_absurd]; by intros s _ [? _]].
  eapply (safe_compose _ _ _ _ _ _ (λ r s, (∃ a, r = Some a ∧ es_remote a = Some m) ∧ left_map k m None s)).
  { apply safe_atomically; [intros r; apply exec_mine_stable, kept_and; [apply kept_const|apply left_map_mine]|].
    intros s Hi [_ Hs]. pose proof Hs as (a & Ha & Hc & Hact & _). cbn [fst snd]. rewrite Ha.
    assert (es_remote a = Some m) as Hr by (rewrite (so_remote _ _ (xi_states _ Hi m a Ha)), Hact; done).
    unfold drop_current. rewrite Ha. destruct (registered_state m s) eqn:Hcur.
    - split; [apply sessions_ok; [done|apply delete_subseteq]|]. split; [by exists a|]. split; [split; [|by exists a]|done].
      intros id Hid. simpl in Hid. apply lookup_delete_Some in Hid as [Hne Hid]. destruct (xi_sessions _ Hi id m Hid) as (a' & Ha' & He & _). congruence.
    - split; [by apply exec_stay_ok|]. split; [by exists a|]. split; [split; [|by exists a]|done]. by eapply current_spec. }
  intros [a|]; [|eapply safe_consequence; [|apply safe_absurd]; by intros s _ [(a & ? & _) _]].
  destruct (decide (es_remote a = Some m)) as [Hr|Hr];
    [|eapply safe_consequence; [|apply safe_absurd]; intros s _ [(a' & [= <-] & ?) _]; done].
  eapply (safe_compose _ _ _ _ _ _ (λ _, left_map k m None)).
  { eapply safe_consequence; [intros s _ [_ Hs]; exact Hs|]. destruct (es_cancel a); [|by apply safe_return].
    apply exec_cancel_safe. split; [apply left_map_mine|done]. }
  intros []. rewrite Hr. eapply (safe_compose _ _ _ _ _ _ (λ _, left_all k m None false)).
  { apply close_process_safe; [apply left_all_mine|]. intros s _ [Hg Hp]. split; [exact Hg|]. split; [exact Hp|simpl; set_solver]. }
  intros []. eapply safe_compose; [apply send_terminal_safe|].
  intros []. eapply (safe_compose _ _ _ _ _ _ (λ _, left_all k m (Some term) true)).
  { apply (close_terminal_safe t m _ (left_all k m (Some term) true)); [apply left_all_mine| |].
    - intros s _ (_ & (b & Hb & Hc & _ & _ & _ & Hcl) & _). by exists b.
    - intros s b Hi ([Hg Hs] & (b' & Hb' & Hc & Hact & Hf & Ht & Hcl) & Hp) Hb.
      rewrite Hb in Hb'. injection Hb' as <-.
      split_and!; [done|simpl; by rewrite lookup_alter_is_Some| |done].
      exists (with_channel (es_terminal b) true b). simpl. by rewrite lookup_alter_eq, Hb. }
  intros []. eapply safe_post; [|apply (exec_audit_safe t (left_all k m (Some term) true)); split; [apply left_all_mine|done]].
  intros [] s _ ([Hg _] & (b & Hb & Hc & Hact & Hf & Ht & Hcl) & Hp). split_and!; [done|done|].
  exists b. by rewrite Ht.
Qed.

Lemma touch_ok t m b s :
  exec_inv s → xstep (Some t) s (on_state m (λ a, with_timer (es_timer a) (es_cancel a) b a) s).
Proof.
  intros Hi. refine (on_state_ok t s m _ (x_sessions s) Hi (reflexivity _) _). intros a Ha.
  destruct (xi_states _ Hi m a Ha) as [H1 H2 H3 H4 H5 H6]. split_and!; [split|split|]; simpl; try done; try by left.
  intros id Hid. destruct (xi_sessions _ Hi id m Hid) as (a2 & Ha2 & _ & ?). by simplify_eq.
Qed.

Lemma monitor_safe k m :
  xsafe (GoMonitor k m) (monitoring k m) (monitor m)
    (ends exec_spec (GoMonitor k m)).
Proof.
  set (t := GoMonitor k m). set (L := phase k m false None false).
  apply (safe_consequence _ _ _ L); [intros s Hi; by apply monitoring_phase|]. unfold monitor.
  assert (mine (me t) L) as HL by apply phase_mine.
  eapply (safe_compose _ _ _ _ _ _ (λ again s, if again : bool then L s else ended k m s)).
  2: { intros [|]; apply safe_return; intros s Hi Hs; [|exact Hs]. exists k. split; [done|]. by apply monitoring_phase. }
  unfold monitor_round. eapply safe_compose; [by apply exec_receive_safe|].
  assert (∀ term, xsafe t L (_ ← finish (F := F) m term; Ret false) (λ again s, if again : bool then L s else ended k m s)) as Hfin.
  { intros term. eapply safe_compose; [apply exec_finish_safe|]. intros []. by apply safe_return. }
  assert (∀ term, xsafe t L (_ ← request_terminal m term; Ret true) (λ again s, if again : bool then L s else ended k m s)) as Hreq.
  { intros term. eapply safe_compose; [apply (request_safe t m term L L); [apply phase_sturdy|]|].
    - intros s _. apply phase_record.
    - intros []. by apply safe_return. }
  intros a. apply (safe_consequence _ _ _ L); [by intros s _ [? _]|].
  destruct a as [r|c|h p|b e|r| | | |]; try apply Hreq; try (eapply safe_compose; [by apply exec_look_safe|]; intros term; apply Hfin).
  eapply (safe_compose _ _ _ _ _ _ (λ _, L)); [|intros []; by apply safe_return].
  apply safe_modify; [by apply exec_mine_stable|]. intros s Hi (a & Ha & Hrest). split; [by apply touch_ok|].
  exists (with_timer (es_timer a) (es_cancel a) false a). simpl. by rewrite lookup_alter_eq, Ha.
Qed.

Lemma true_sturdy x : sturdy x (λ _, True).
Proof. split; [apply exec_true_framed|done]. Qed.

Lemma terminate_safe t id term : xsafe t (λ _, True) (terminate (F := F) id term) (λ _ _, True).
Proof.
  unfold terminate. eapply safe_compose; [apply exec_look_safe, kept_const|]. intros [m|]; [|by apply safe_return].
  eapply safe_compose; [apply (request_safe t m term _ (λ _, True)); [apply true_sturdy|done]|]. intros []. by apply safe_return.
Qed.
Lemma touch_safe t id : xsafe t (λ _, True) (Touch (F := F) id) (λ _ _, True).
Proof.
  unfold Touch. eapply safe_compose; [apply exec_look_safe, kept_const|]. intros [m|]; [|by apply safe_return].
  eapply (safe_compose _ _ _ _ _ _ (λ _ _, True)); [|intros []; by apply safe_return].
  apply safe_modify; [apply exec_mine_stable, kept_const|]. intros s Hi _. split; [by apply touch_ok|done].
Qed.
Lemma abort_safe t id reason : xsafe t (λ _, True) (Abort (F := F) id reason) (λ _ _, True).
Proof.
  unfold Abort. destruct (validateSessionID id "exec_"); [by apply safe_return|].
  destruct (abort_terminal reason); [apply terminate_safe|by apply safe_return].
Qed.

(** ** Generation changes and shutdown *)

Lemma selected_spec P act s m :
  exec_inv s → m ∈ select_sessions arrange P act s ↔
    ∃ id a, x_sessions s !! id = Some m ∧ x_states s !! m = Some a ∧ P a = true ∧ es_active a = act.
Proof.
  intros Hi. unfold select_sessions. rewrite arrange_perm, list_elem_of_filter, list_elem_of_fmap. split.
  - intros [Hp ([id m'] & -> & Hin%elem_of_map_to_list)]. simpl in *. destruct (x_states s !! m') as [a|] eqn:Ha; [|done].
    apply andb_true_iff in Hp as [Hp Heq%Bool.eqb_prop]. by exists id, a.
  - intros (id & a & Hid & Ha & Hp & Hact). rewrite Ha, Hp, Hact, Bool.eqb_reflx. split; [done|].
    exists (id, m). split; [done|]. by apply elem_of_map_to_list.
Qed.
Lemma selected_nodup P act s : exec_inv s → NoDup (select_sessions arrange P act s).
Proof.
  intros Hi. unfold select_sessions. rewrite arrange_perm. apply NoDup_filter, NoDup_fmap_2_strong; [|apply NoDup_map_to_list].
  intros [id m] [id' m'] H1%elem_of_map_to_list H2%elem_of_map_to_list Heq. simpl in Heq. subst m'.
  destruct (xi_sessions _ Hi _ _ H1) as (a & Ha & He & _), (xi_sessions _ Hi _ _ H2) as (a' & Ha' & He' & _). congruence.
Qed.

Lemma dropped_lookup l x m w :
  x_states (drop_reservations l x w) !! m = (λ a, if bool_decide (m ∈ l) then taken_over x a else a) <$> x_states w !! m.
Proof. simpl. rewrite map_lookup_imap. by destruct (x_states w !! m). Qed.

(** Reservations leave the map together with what else a step does to tickets and log. *)
Lemma drop_ok t s s1 ev l :
  exec_inv s → x_generation s1 = x_generation s → x_retired s1 = x_retired s → x_panicked s1 = x_panicked s →
  (x_shutdown s = true → x_shutdown s1 = true) → x_log s1 = x_log s ++ option_list ev →
  (∀ e, ev = Some e → Some (exec_request e) = caller_of (Some (me t)) ∧ plain_exec_event e) →
  x_spawned s1 = x_spawned s → x_tickets s1 ⊆ x_tickets s → x_sessions s1 = x_sessions s →
  x_states s1 = x_states s → x_remotes s1 = x_remotes s →
  (∀ m, m ∈ l → ∃ id a, x_sessions s !! id = Some m ∧ x_states s !! m = Some a ∧ es_active a = false) →
  xstep (Some t) s (drop_reservations l (me t) s1)
  ∧ ∀ m, m ∈ l → holds t m (drop_reservations l (me t) s1).
Proof.
  intros Hi Hg Hre Hpa Hsh Hlog Hev Hspa Htk Hse Hst Hrem Hl.
  assert (∀ m a, m ∈ l → x_states s !! m = Some a →
    es_active a = false ∧ es_closer a = None ∧ es_closed a = false ∧ es_terminal a = None) as Hopen.
  { intros m a Hm Ha. destruct (Hl m Hm) as (id & a' & Hid & Ha' & Hact). simplify_eq.
    destruct (xi_sessions _ Hi id m Hid) as (a2 & Ha2 & _ & Hc). simplify_eq. specialize (Hc Hact).
    destruct (so_open _ _ (xi_states _ Hi m _ Ha) Hc) as (? & ? & _). done. }
  split.
  - apply (step_intro _ _ _ ev None); [done|]. split; rewrite ?Hg, ?Hre, ?Hspa; try done.
    + simpl. rewrite Hg, Hre. apply Hi.
    + simpl. by rewrite Hre.
    + intros e He. destruct (Hev e He) as [? Hp]. split; [done|]. by destruct e.
    + simpl. by rewrite Hspa, app_nil_r.
    + intros id tk Hid. left. split; [by eapply lookup_weaken|]. intros n id' t' now Hin. destruct ev as [e|]; [|by inversion Hin].
      apply list_elem_of_singleton in Hin. subst e. by destruct (Hev _ eq_refl).
    + by eapply pending_subseteq.
    + intros m a Ha. rewrite dropped_lookup, Hst, Ha. simpl. eexists. split; [done|].
      destruct (xi_states _ Hi m a Ha) as [H1 H2 H3 H4 H5 H6]. destruct (bool_decide (m ∈ l)) eqn:Hm.
      * apply bool_decide_eq_true in Hm. destruct (Hopen m a Hm Ha) as (Hact & Hc & _).
        split_and!; [split|split|]; simpl; try done; try (right; split; [done|by left]).
        -- congruence.
        -- intros id [_ Hf]%map_lookup_filter_Some. by destruct Hf.
      * split_and!; [apply evolves_refl|done|]. intros id [Hid _]%map_lookup_filter_Some. rewrite Hse in Hid.
        destruct (xi_sessions _ Hi id m Hid) as (a2 & Ha2 & _ & ?). by simplify_eq.
    + intros m. rewrite dropped_lookup, Hst. by destruct (x_states s !! m); [|intros [? ?]].
    + simpl. rewrite <- Hse. apply map_filter_subseteq.
    + intros m. simpl. rewrite Hrem. by left.
  - intros m Hm. destruct (Hl m Hm) as (id & a & _ & Ha & _). destruct (Hopen m a Hm Ha) as (_ & _ & Hcl & _).
    exists (taken_over (me t) a). rewrite dropped_lookup, Hst, Ha, bool_decide_eq_true_2 by done. done.
Qed.

(** What [OnGeneration] has done: the sessions its hook saw were told, but for [l]. *)
Definition hook_told (n : nat) (g : string) (l : list nat) (w : world) : Prop :=
  ∀ R, ExecHook n g R ∈ x_log w → R ⊆ x_retired w ∧ told (R ∖ {[g]}) l w.

Lemma hook_told_mine n g l : mine (ByCall n) (hook_told n g l).
Proof.
  intros u s s' Hu Ht Hs R Hin. destruct (xt_log _ _ _ Ht) as (lg & Hlog & Hf). rewrite Hlog in Hin.
  apply elem_of_app in Hin as [Hin|Hin].
  - destruct (Hs R Hin) as [HR Htold]. assert (R ∖ {[g]} ⊆ x_retired s) as HR' by set_solver.
    destruct (told_mine (ByCall n) (R ∖ {[g]}) l u s s' Hu Ht (conj HR' Htold)) as [_ ?].
    split; [|done]. etrans; [exact HR|apply Ht].
  - rewrite Forall_forall in Hf. specialize (Hf _ Hin). by apply not_caller in Hu.
Qed.

Lemma told_on_state R l m f w :
  (∀ a, es_binding (f a) = es_binding a ∧ (is_Some (es_requested a) → is_Some (es_requested (f a)))) →
  told R l w → told R l (on_state m f w).
Proof.
  intros Hf Ht id m' a Hid Ha Hg. simpl in *. destruct (decide (m' = m)) as [->|Hne].
  - rewrite lookup_alter_eq in Ha. destruct (x_states w !! m) as [a0|] eqn:Ha0; simplify_eq/=.
    destruct (Hf a0) as [Hb Hr]. rewrite Hb in Hg. destruct (Ht id m a0 Hid Ha0 Hg); [left; by apply Hr|by right].
  - rewrite lookup_alter_ne in Ha by done. by eapply Ht.
Qed.
Lemma hook_told_sturdy n g l : sturdy (ByCall n) (hook_told n g l).
Proof. split; [split; [apply hook_told_mine|done]|done]. Qed.
Lemma hook_told_channel n g l m te c w : hook_told n g l w → hook_told n g l (on_state m (with_channel te c) w).
Proof.
  intros Hs R Hin. destruct (Hs R Hin) as [? Ht]. split; [done|]. by apply told_on_state.
Qed.

(** Telling session [m]. *)
Lemma told_record R l m term s :
  exec_inv s → told R (m :: l) s → told R l (record_terminal m term s).2.
Proof.
  intros Hi Ht. unfold record_terminal. destruct (x_states s !! m) as [a|] eqn:Ha.
  2: { intros id m' b Hid Hb Hg. simpl in *. destruct (Ht id m' b Hid Hb Hg) as [?|[->|?]%elem_of_cons]; [by left|congruence|by right]. }
  destruct (registered_state m s) eqn:Hcur; simpl.
  2: { intros id m' b Hid Hb Hg. destruct (Ht id m' b Hid Hb Hg) as [?|[->|?]%elem_of_cons]; [by left| |by right].
       by destruct (current_spec s m a Hi Ha Hcur id). }
  destruct (bool_decide (is_Some (es_requested a))) eqn:Hreq; simpl.
  - apply bool_decide_eq_true in Hreq. intros id m' b Hid Hb Hg.
    destruct (Ht id m' b Hid Hb Hg) as [?|[->|?]%elem_of_cons]; [by left|left; by simplify_eq|by right].
  - intros id m' b Hid Hb Hg. simpl in *. destruct (decide (m' = m)) as [->|Hne].
    + rewrite lookup_alter_eq, Ha in Hb. simplify_eq/=. left. by eexists.
    + rewrite lookup_alter_ne in Hb by done. destruct (Ht id m' b Hid Hb Hg) as [?|[->|?]%elem_of_cons]; [by left|done|by right].
Qed.
Lemma hook_told_record n g l m term s :
  exec_inv s → hook_told n g (m :: l) s → hook_told n g l (record_terminal m term s).2.
Proof.
  intros Hi Hs R Hin. assert (x_log (record_terminal m term s).2 = x_log s ∧ x_retired (record_terminal m term s).2 = x_retired s) as [Hl Hr].
  { unfold record_terminal. destruct (x_states s !! m); [|done]. by destruct (_ && _). }
  rewrite Hl in Hin. rewrite Hr. destruct (Hs R Hin). split; [done|]. by apply told_record.
Qed.

Lemma request_all_safe t (L : list nat → world → Prop) l term :
  (∀ l, sturdy (me t) (L l)) →
  (∀ m l s, exec_inv s → L (m :: l) s → L l (record_terminal m term s).2) →
  xsafe t (L l) (request_all l term) (λ _, L []).
Proof.
  intros HL Hr. induction l as [|m l IH]; [by apply safe_return|]. cbn [request_all].
  eapply safe_compose; [apply (request_safe t m term (L (m :: l)) (L l)); [done|by apply Hr]|]. by intros [].
Qed.

(** Reservations whose channels are still to be closed. *)
Definition to_close (t : goroutine) (l : list nat) (w : world) : Prop := ∀ m, m ∈ l → holds t m w.
Lemma to_close_mine t l : mine (me t) (to_close t l).
Proof. apply kept_all. intros m. apply kept_impl, holds_mine. Qed.

Lemma close_reservations_safe t (Fr : world → Prop) l :
  framed (me t) Fr → (∀ m te c w, Fr w → Fr (on_state m (with_channel te c) w)) → NoDup l →
  xsafe t (λ w, to_close t l w ∧ Fr w) (close_reservations l) (λ _, Fr).
Proof.
  intros [HF HF'] Hc. induction l as [|m l IH]; intros Hnd; [apply safe_return; by intros s _ [_ ?]|].
  apply NoDup_cons in Hnd as [Hm Hnd]. cbn [close_reservations].
  set (L := λ w, to_close t (m :: l) w ∧ Fr w).
  assert (framed (me t) L) as HL.
  { split; [apply kept_and; [apply to_close_mine|done]|]. intros w cs au [H1 H2]. split; [exact H1|by apply HF']. }
  eapply safe_compose; [apply exec_look_safe, HL|]. intros o.
  eapply (safe_compose _ _ _ _ _ _ (λ _, L)); [destruct o; [by apply exec_cancel_safe|by apply safe_return]|]. intros [].
  eapply (safe_compose _ _ _ _ _ _ (λ _ w, to_close t l w ∧ Fr w)); [|intros []; by apply IH].
  apply close_terminal_safe; [apply kept_and; [apply to_close_mine|done]| |].
  - intros s _ [H1 _]. apply H1. by constructor.
  - intros s a Hi [H1 H2] Ha. split; [|by apply Hc]. intros m' Hm'. destruct (H1 m') as (b & Hb & ? & ?); [by constructor|].
    exists b. simpl. rewrite lookup_alter_ne; [done|]. by intros ->.
Qed.

Lemma hook_safe n current :
  xsafe (CallOnGeneration n current) (exec_unused n) (OnGeneration arrange n current) (λ _, hook_told n current []).
Proof.
  set (t := CallOnGeneration n current). unfold OnGeneration.
  eapply (safe_compose _ _ _ _ _ _ (λ r s, NoDup r.1 ∧ to_close t r.1 s ∧ hook_told n current r.2 s)).
  { apply safe_atomically.
    - intros r. apply exec_mine_stable, kept_and; [apply kept_const|]. apply kept_and; [apply to_close_mine|apply hook_told_mine].
    - intros s Hi (Hlog & _). set (tickets := filter _ (x_tickets s)).
      set (s1 := emit (ExecHook n current (x_retired s)) (put_tickets tickets s)). cbn [fst snd].
      change (select_sessions arrange (obsolete current) false s1) with (select_sessions arrange (obsolete current) false s).
      change (select_sessions arrange (obsolete current) true s1) with (select_sessions arrange (obsolete current) true s).
      set (l := select_sessions arrange (obsolete current) false s).
      destruct (drop_ok t s s1 (Some (ExecHook n current (x_retired s))) l Hi) as [Hst Hh]; try done.
      + by intros e [= <-].
      + apply map_filter_subseteq.
      + intros m (id & a & ? & ? & _ & ?)%selected_spec; [by exists id, a|done].
      + split; [exact Hst|]. split; [by apply selected_nodup|]. split; [exact Hh|].
        intros R Hin. simpl in Hin. apply elem_of_app in Hin as [Hin|[= ->]%list_elem_of_singleton]; [by destruct (Hlog _ Hin)|].
        split; [done|]. intros id m a Hid Ha Hg. rewrite dropped_lookup in Ha. change (x_states s1) with (x_states s) in Ha.
        simpl in Hid. apply map_lookup_filter_Some in Hid as [Hid Hl]. simpl in Hl.
        rewrite bool_decide_eq_false_2 in Ha by done. destruct (x_states s !! m) as [a'|] eqn:Ha'; simplify_eq/=.
        assert (obsolete current a = true) as Hout.
        { unfold obsolete. apply negb_true_iff, String.eqb_neq. set_solver. }
        right. apply selected_spec; [done|]. exists id, a. split_and!; try done. destruct (es_active a) eqn:Hact; [done|].
        destruct Hl. apply selected_spec; [done|]. by exists id, a. }
  intros [l states]. cbn [fst snd].
  eapply (safe_compose _ _ _ _ _ _ (λ _, hook_told n current states)).
  { destruct (decide (NoDup l)) as [Hnd|Hnd];
      [|eapply safe_consequence; [|apply safe_absurd]; by intros s _ [? _]].
    eapply safe_consequence; [|apply (close_reservations_safe t (hook_told n current states) l); [apply hook_told_sturdy| |done]].
    - by intros s _ (_ & ? & ?).
    - intros m te c w. apply hook_told_channel. }
  intros []. apply (request_all_safe t (hook_told n current)); [intros l'; apply hook_told_sturdy|].
  intros m l'. apply hook_told_record.
Qed.

Lemma exec_shutdown_safe n : xsafe (CallShutdown n) (λ _, True) (Shutdown arrange n) (λ _ _, True).
Proof.
  set (t := CallShutdown n). unfold Shutdown.
  eapply (safe_compose _ _ _ _ _ _ (λ r s, ∀ l sts, r = Some (l, sts) → NoDup l ∧ to_close t l s)).
  { apply safe_atomically.
    - intros r. apply exec_mine_stable. apply kept_all. intros l. apply kept_all. intros sts. apply kept_impl, kept_and; [apply kept_const|apply to_close_mine].
    - intros s Hi _. destruct (x_shutdown s) eqn:Hsh; [by split; [apply exec_stay_ok|]|]. cbn [fst snd].
      set (s1 := put_tickets ∅ (set_effects (x_canceled s) (x_remotes s) true (x_panicked s) s)).
      change (select_sessions arrange (λ _, true) false s1) with (select_sessions arrange (λ _, true) false s).
      set (l := select_sessions arrange (λ _, true) false s).
      destruct (drop_ok t s s1 None l Hi) as [Hst Hh]; try done.
      + simpl. by rewrite app_nil_r.
      + apply map_empty_subseteq.
      + intros m (id & a & ? & ? & _ & ?)%selected_spec; [by exists id, a|done].
      + split; [exact Hst|]. intros l' sts [= <- _]. split; [by apply selected_nodup|exact Hh]. }
  intros [[l states]|]; [|by apply safe_return].
  eapply (safe_compose _ _ _ _ _ _ (λ _ _, True)).
  { destruct (decide (NoDup l)) as [Hnd|Hnd].
    - eapply safe_consequence; [|apply (close_reservations_safe t (λ _, True) l); [apply exec_true_framed|done|done]].
      intros s _ Hs. split; [by apply (Hs l states)|done].
    - eapply safe_consequence; [|apply safe_absurd]. intros s _ Hs. by destruct (Hs l states eq_refl). }
  intros []. apply (request_all_safe t (λ _ _, True)); [intros l'; apply true_sturdy|done].
Qed.

(** ** The environment, and goroutines that were started *)

Lemma me_spawned t k : me t = BySpawned k → spawned_as t = Some k ∧ request t = None.
Proof. by destruct t; intros [= ->]. Qed.
Lemma me_called t n : me t = ByCall n ↔ request t = Some n.
Proof. destruct t; simpl; naive_solver. Qed.

Lemma started_labels s s' l :
  x_spawned s' = x_spawned s ++ l → (∀ k, Forall (λ g : nat → goroutine, me (g k) = BySpawned k) l) →
  omap spawned_as (started_by s s') = seq (length (x_spawned s)) (length l)
  ∧ Forall (λ t, request t = None) (started_by s s').
Proof.
  intros Hs Hl. unfold started_by. rewrite Hs, drop_app_length. generalize (length (x_spawned s)). clear Hs.
  induction l as [|g l IH]; intros j; [done|].
  assert (∀ k, Forall (λ g : nat → goroutine, me (g k) = BySpawned k) l ∧ me (g k) = BySpawned k) as Hl'.
  { intros k. by destruct (Forall_cons_1 _ _ _ (Hl k)). }
  destruct (IH (λ k, proj1 (Hl' k)) (S j)) as [H1 H2]. destruct (me_spawned _ _ (proj2 (Hl' j))) as [H3 H4].
  assert (imap (λ i g, g (j + S i)) l = imap (λ i g, g (S j + i)) l) as Heq
    by (apply imap_ext; intros; f_equal; lia).
  cbn [imap]. rewrite Nat.add_0_r. unfold compose. cbn [omap list_omap length seq]. rewrite H3, Heq. split; [by rewrite <- H1|by constructor].
Qed.

Lemma clock_ok s generation retired now ctx :
  exec_inv s → x_retired s ⊆ retired → generation ∉ retired →
  xstep None s (set_clock generation retired now ctx s).
Proof.
  intros Hi Hr Hg. apply (step_intro _ _ _ None None); [done|]. split; simpl; try done; try apply Hi.
  - by rewrite app_nil_r.
  - by rewrite app_nil_r.
  - by apply (same_tickets s s).
  - by apply (same_states None s s).
  - by left.
Qed.

Lemma fire_ok s m a :
  exec_inv s → x_states s !! m = Some a →
  xstep None s (spawn (λ k, GoExpire k m (es_id a) (es_leaseID a))
                 (on_state m (with_timer false (es_cancel a) (es_touched a)) s)).
Proof.
  intros Hi Ha. apply (step_intro _ _ _ None (Some (λ k, GoExpire k m (es_id a) (es_leaseID a)))); [done|].
  split; simpl; try done; try apply Hi.
  - by rewrite app_nil_r.
  - by intros g [= <-].
  - by apply (same_tickets s s).
  - refine (one_state None s (on_state m (with_timer false (es_cancel a) (es_touched a)) s) m _ Hi eq_refl (reflexivity _) _).
    intros b Hb. rewrite Ha in Hb. injection Hb as <-.
    destruct (xi_states _ Hi m a Ha) as [H1 H2 H3 H4 H5 H6]. split_and!; [split|split|]; simpl; try done; try by left.
    intros id Hid. destruct (xi_sessions _ Hi id m Hid) as (a2 & Ha2 & _ & ?). by simplify_eq.
  - intros m'. by rewrite lookup_alter_is_Some.
  - by left.
Qed.

Lemma exec_environment e s : exec_inv s → xstep None s (environment e s).
Proof.
  intros Hi. assert (xstep None s s) as Hstay.
  { pose proof (clock_ok s (x_generation s) (x_retired s) (x_now s) (x_ctx s) Hi (reflexivity _) (xi_current _ Hi)).
    by destruct s. }
  destruct e as [d|n e|g|m]; simpl.
  - apply clock_ok; [done|done|apply Hi].
  - apply clock_ok; [done|done|apply Hi].
  - case_bool_decide as Hg; [done|]. apply clock_ok; [done|set_solver|done].
  - destruct (x_states s !! m) as [a|] eqn:Ha; [|done]. destruct (es_timer a); [|done]. by apply fire_ok.
Qed.

Lemma monitoring_mine k m : mine (BySpawned k) (monitoring k m).
Proof.
  apply state_mine. intros u j a b Hu He (Hc & Hcl & Hact & Hf).
  destruct (ev_channel _ _ _ _ _ He) as (-> & _ & ->); [congruence|].
  destruct (ev_active _ _ _ _ _ He) as (-> & _); [by left|].
  destruct (ev_closer _ _ _ _ _ He) as [->|[? _]]; [done|congruence].
Qed.
Lemma ended_mine k m : mine (BySpawned k) (ended k m).
Proof.
  intros u s s' Hu Ht (Hg & Hp & (a & Ha & Hcl & Hte & Hact & Hc)).
  destruct (gone_mine (BySpawned k) m u s s' Hu Ht) as [Hg' _]; [by split; [|exists a]|].
  destruct (phase_no_process_mine k m (es_finished a) (es_terminal a) true u s s' Hu Ht) as [(b & Hb & H1 & H2 & H3 & H4 & H5) Hp'].
  { split; [|done]. by exists a. }
  split_and!; [done|done|]. exists b. split_and!; try done. by rewrite H4.
Qed.

#[export] Instance exec_sound : Sound sys exec_spec.
Proof.
  split.
  - intros t. apply exec_mine_stable. destruct t; simpl; try apply monitoring_mine; try apply kept_const;
      apply kept_all; intros x u s s' Hu Ht Hx [= <-]; by eapply exec_unused_mine; eauto.
  - intros t m. apply exec_mine_stable, kept_exists. intros k u s s' Hu Ht [-> Hm]. split; [done|].
    by eapply monitoring_mine.
  - intros t r. apply exec_mine_stable. destruct t; simpl; try apply kept_const; try apply ended_mine.
    + destruct r as [|[]| |]; simpl; try apply kept_const. apply no_process_mine.
    + apply hook_told_mine.
  - intros t. destruct t; cbn [code exec_system exec_code pre exec_spec request].
    + eapply safe_compose; [eapply safe_consequence; [|apply create_safe]; intros s _ Hs; by apply Hs|]. intros x. by apply safe_return.
    + eapply safe_compose; [eapply safe_consequence; [|apply serve_safe]; intros s _ Hs; by apply Hs|]. intros x. by apply safe_return.
    + eapply safe_compose; [eapply safe_consequence; [|apply touch_safe]; done|]. intros x. by apply safe_return.
    + eapply safe_compose; [eapply safe_consequence; [|apply terminate_safe]; done|]. intros x. by apply safe_return.
    + eapply safe_compose; [eapply safe_consequence; [|apply abort_safe]; done|]. intros x. by apply safe_return.
    + eapply safe_compose; [eapply safe_consequence; [|apply hook_safe]; intros s _ Hs; by apply Hs|]. intros x. by apply safe_return.
    + eapply safe_compose; [eapply safe_consequence; [|apply exec_shutdown_safe]; done|]. intros x. by apply safe_return.
    + intros s Hi Hs. by exists k.
    + eapply safe_compose; [apply expire_safe|]. intros x. by apply safe_return.
  - intros t m. apply safe_exists. intros k.
    destruct t as [| | | | | | |k' m'|];
      try (eapply safe_consequence; [|apply safe_absurd]; by intros s _ [? _]).
    destruct (decide (k' = k ∧ m' = m)) as [[-> ->]|Hne].
    + eapply safe_consequence; [|exact (monitor_safe k m)]. by intros s _ [_ Hs].
    + eapply safe_consequence; [|apply safe_absurd]. intros s _ [[= -> ->] _]. by destruct Hne.
  - intros t s Hc Hi Hn. split; [exact Hc|]. destruct t; simpl in *; try done; intros n' [= <-]; by apply Hn.
  - intros e s Hi. by apply exec_environment.
  - intros n u s s' Ht Hu Hs. assert (me <$> u ≠ Some (ByCall n)) as Hne.
    { destruct u as [u|]; simpl in *; [|done]. intros [= Hm%me_called]. done. }
    exact (exec_unused_mine n _ s s' Hne Ht Hs).
  - intros u s s' Ht. destruct (xt_spawned _ _ _ Ht) as (l & Hl & _). simpl. rewrite Hl, length_app. lia.
  - intros u s s' Ht. destruct (xt_spawned _ _ _ Ht) as (l & Hl & Hme). simpl.
    destruct (started_labels s s' l Hl Hme) as [H1 H2]. rewrite H1, Hl, length_app. split_and!; [apply NoDup_seq|done|].
    intros w [? ?]%elem_of_seq. lia.
Qed.

(** ** The theorems *)

Context (generation : string) (now : Z).
Abbreviation start := (Config (NewExecService generation now) []).
Abbreviation config := (@config world question (@answer F) goroutine nat (@reply F)).

Lemma exec_start_ok : config_ok sys exec_spec start.
Proof.
  split; [split|constructor..| |]; simpl; try done; try lia.
  - intros a e b Hl. by destruct a.
  - rewrite map_size_empty. lia.
  - rewrite map_size_empty. lia.
  - intros n _. split_and!; try done. intros e Hin. by inversion Hin.
  - intros w Hw. by inversion Hw.
Qed.

Lemma exec_reachable_inv c : reachable sys start c → exec_inv (shared c).
Proof. intros Hr. apply (reachable_ok sys exec_spec start c exec_start_ok Hr). Qed.

Lemma used_once l n n' id id' t t' now' now2 :
  history_ok exec_justified l → Used n id t now' ∈ l → Used n' id' t' now2 ∈ l →
  tk_request t = tk_request t' → n = n'.
Proof.
  intros Hl (a & b & ->)%list_elem_of_split [Hin|[[= -> _ _ _]|Hin]%elem_of_cons]%elem_of_app Heq; [|done|]; exfalso.
  - destruct (Hl a _ b eq_refl) as (_ & _ & Hn). by apply (Hn n' id' t' now2).
  - apply list_elem_of_split in Hin as (a' & b' & ->).
    destruct (Hl (a ++ Used n id t now' :: a') (Used n' id' t' now2) b' ltac:(by rewrite <- app_assoc)) as (_ & _ & Hn).
    apply (Hn n id t now'); [set_solver|done].
Qed.

(** C10: A process starts in a container only for a request that redeemed a ticket. While the
    adapter's [Start] is pending for request [n], the command is exactly that of the ticket
    [n] removed from the map, before it expired, by showing the token whose hash the ticket
    stores, in the selection the ticket was made in; and [n]'s own fresh review of
    [pods.exec.create] on the target allowed it and its generation was current after that. The
    ticket was issued to one request: its body was valid for its route, the token was that
    request's, and that request's own review allowed it in the same way. *)
Theorem exec_process_authorized (c : config) i t n cmd :
  reachable sys start c → blocked c i = Some (t, AskStart n cmd) →
  ∃ b id protocols token tk now' key,
    t = CallServe n b id protocols
    ∧ parseExecProtocols (F := F) protocols = Ok token ∧ sha256 token = tk_tokenHash tk
    ∧ Used n id tk now' ∈ x_log (shared c) ∧ (now' < tk_expiresAt tk)%Z
    ∧ cmd = exec_command (tk_target tk) (tk_init tk) ∧ same_selection tk b = true
    ∧ access_key (tk_target tk) (bind_Generation b) key ∧ cleared n key (bind_Generation b) (x_log (shared c))
    ∧ ∃ l, Issued (tk_request tk) id tk ∈ x_log (shared c) ∧ l `prefix_of` x_log (shared c)
           ∧ well_issued (tk_request tk) tk l.
Proof.
  intros Hr Hb. pose proof (reachable_quiet sys exec_spec start c i t _ exec_start_ok Hr Hb) as Hq.
  simpl in Hq. destruct t as [|n' b id protocols| | | | | | |]; try done.
  destruct Hq as [-> (tk & now' & token & key & Hu & Hp & Hh & Hs & Hc & Hk & Hcl)].
  pose proof (xi_log _ (exec_reachable_inv c Hr)) as Hl. pose proof Hu as (a & d & Ha)%list_elem_of_split.
  destruct (Hl a _ d Ha) as ((r & Hin) & Hexp & _). apply list_elem_of_split in Hin as (a' & d' & Ha').
  assert (x_log (shared c) = a' ++ Issued r id tk :: (d' ++ Used n id tk now' :: d)) as Hlog
    by (rewrite Ha, Ha', <- app_assoc; done).
  destruct (Hl a' _ _ Hlog) as [Hw _]. pose proof Hw as [Hreq _].
  exists b, id, protocols, token, tk, now', key. split_and!; try done.
  exists a'. subst r. split_and!; [rewrite Hlog; set_solver|rewrite Hlog; by eexists|done].
Qed.

(** A ticket is good for one process, and the manager never holds more than 128 tickets
    and two sessions: two uses of tickets of one request are the same use, whoever asked, a
    used ticket is not in the map any more, and both limits hold whatever the interleaving. *)
Theorem exec_tickets_single_use (c : config) :
  reachable sys start c →
  (∀ n n' id id' t t' u u', Used n id t u ∈ x_log (shared c) → Used n' id' t' u' ∈ x_log (shared c) →
     tk_request t = tk_request t' → n = n')
  ∧ (∀ n id t u id' t', Used n id t u ∈ x_log (shared c) → x_tickets (shared c) !! id' = Some t' →
       tk_request t' ≠ tk_request t)
  ∧ (size (x_tickets (shared c)) ≤ maximumPendingTickets)%nat
  ∧ (size (x_sessions (shared c)) ≤ MaximumExecSessions)%nat.
Proof.
  intros Hr. pose proof (exec_reachable_inv c Hr) as Hi. split_and!; try apply Hi.
  - intros n n' id id' t t' u u'. by eapply used_once, Hi.
  - intros n id t u id' t' Hu Hid Heq. destruct (xi_tickets _ Hi id' t' Hid) as [_ Hn]. by apply (Hn n id t u).
Qed.

(** C11: Sessions end once and leave nothing behind. Whatever the races between the client, the
    idle and duration timers, a generation change, shutdown and the process itself, no channel
    is closed or written twice (Go would panic); a monitor that returned has left its session
    unregistered, its process closed, and exactly one terminal in its closed channel; a request
    for a process that failed has left no process behind. *)
Theorem exec_session_ends_once (c : config) :
  reachable sys start c →
  x_panicked (shared c) = false
  ∧ (∀ i k m, returned c i = Some (GoMonitor k m, Finished) →
       (∀ id, x_sessions (shared c) !! id ≠ Some m) ∧ m ∉ x_remotes (shared c)
       ∧ ∃ s, x_states (shared c) !! m = Some s ∧ is_Some (es_terminal s) ∧ es_closed s = true)
  ∧ ∀ i n b id protocols e, returned c i = Some (CallServe n b id protocols, ServeReply (Err e)) →
       n ∉ x_remotes (shared c).
Proof.
  intros Hr. split_and!; [apply (exec_reachable_inv c Hr)| |].
  - intros i k m Hret. destruct (reachable_post sys exec_spec start c c i _ _ exec_start_ok Hr Hret) as (H1 & H2 & s & H3 & H4 & H5 & _);
      [constructor|]. split_and!; [done|done|]. by exists s.
  - intros i n b id protocols e Hret. apply (reachable_post sys exec_spec start c c i _ _ exec_start_ok Hr Hret). constructor.
Qed.

(** Generation fence for sessions. Once [OnGeneration current] has returned, every session
    of a generation that was no longer current when it looked, other than [current] itself,
    is out of the map or was told to end, now and in every later state. *)
Theorem retired_sessions_told (c c' : config) i n current :
  reachable sys start c → returned c i = Some (CallOnGeneration n current, Finished) → reachable sys c c' →
  ∀ R id m s, ExecHook n current R ∈ x_log (shared c') →
    x_sessions (shared c') !! id = Some m → x_states (shared c') !! m = Some s →
    bind_Generation (es_binding s) ∈ R → bind_Generation (es_binding s) ≠ current → is_Some (es_requested s).
Proof.
  intros Hr Hret Hr' R id m s Hin Hid Hs Hg Hne.
  pose proof (reachable_post sys exec_spec start c c' i _ _ exec_start_ok Hr Hret Hr') as Hp. simpl in Hp.
  destruct (Hp R Hin) as [_ Ht]. destruct (Ht id m s Hid Hs) as [?|Hl]; [set_solver|done|by inversion Hl].
Qed.
End safety.

(** ** A run: a session is opened in a pod and its process exits *)

#[local] Existing Instance demo_action_errors.

Definition letters (n : nat) : string := string_of_list_ascii (replicate n "a"%char).
Definition demo_id (n : nat) (prefix : string) : option string := Some (prefix +:+ "01234567" +:+ letters n).
Definition demo_token (n : nat) : option string := Some ("token" +:+ letters n).

Lemma demo_leases n n' x : demo_id n "lease_" = Some x → demo_id n' "lease_" = Some x → n = n'.
Proof.
  unfold demo_id. intros [= <-] [= Heq]. apply (f_equal list_ascii_of_string) in Heq.
  change (list_ascii_of_string (letters n') = list_ascii_of_string (letters n)) in Heq. unfold letters in Heq.
  rewrite !list_ascii_of_string_of_list_ascii in Heq. apply (f_equal length) in Heq.
  by rewrite !length_replicate in Heq.
Qed.

Definition demo_pod : RouteTarget := {| rt_Kind := "pods"; rt_Namespace := "shop"; rt_Name := "web-0" |}.
Definition demo_init : ExecInit := {|
  ei_Container := "app"; ei_Command := ["sh"]; ei_TTY := true; ei_Stdin := true;
  ei_Confirmation := {|
    cf_Confirmed := true; cf_Action := ActionExec; cf_ConsequenceCode := ConsequenceOpenInteractiveProcess;
    cf_Target := {| tg_ClusterProfileID := 1; tg_Context := "dev"; tg_Namespace := "shop";
                    tg_Kind := "Pod"; tg_Name := "web-0" |};
    cf_ExpectedGeneration := "gen_1" |} |}.
Definition demo_target : MutationTarget := mutationTarget demo_binding (cf_Target (ei_Confirmation demo_init)).
Definition demo_exec_command : ExecCommand := exec_command demo_target demo_init.
Definition demo_exec_key : Key := {|
  k_Generation := "gen_1"; k_Namespace := "shop"; k_APIGroup := ""; k_Resource := "pods";
  k_Subresource := "exec"; k_Verb := "create"; k_ResourceName := "web-0" |}.
Definition demo_exec_allow : Capability := capabilityFor demo_exec_key DecisionAllowed ReasonSARAllowed 0.

Definition demo_exec := exec_system (F := unit) (λ s, s) demo_id demo_token (λ l, l) 30000.
Definition demo_exec_start : @config world question (@answer unit) goroutine nat (@reply unit) :=
  Config (NewExecService "gen_1" 0) [].
Abbreviation demo_moves := (list (@move (@answer unit) goroutine env_move)).

(** Steps of goroutine [i] up to the next question, and its two checks of the access. *)
Definition run_on (i : nat) : demo_moves := replicate 12 (Run i).
Definition checks (i : nat) : demo_moves :=
  run_on i ++ [Reply i (InspectIs (Ok {| et_PodExists := true; et_ContainerExists := true; et_ContainerRunning := true |}))]
  ++ run_on i ++ [Reply i (ReviewIs demo_exec_allow)] ++ run_on i.
Definition demo_serve : goroutine :=
  CallServe 1 demo_binding "exec_01234567" [ExecWebSocketProtocol; "kp-ticket.token"].
Definition demo_asked : demo_moves :=
  [Call (CallCreateTicket 0 demo_binding demo_pod demo_init)] ++ checks 0
  ++ [Call demo_serve] ++ checks 1 ++ [Reply 1 (Accepted true true)] ++ run_on 1.
Definition demo_ended : demo_moves :=
  demo_asked ++ [Reply 1 (StartIs true None)] ++ run_on 1 ++ run_on 2
  ++ [Reply 2 (RemoteExit {| re_ExitCode := Some 0%Z; re_Signaled := false; re_Err := None |})] ++ run_on 2.
(** The selection changes while the process runs. *)
Definition demo_changed : demo_moves :=
  demo_asked ++ [Reply 1 (StartIs true None)] ++ run_on 1 ++ [Env (RotateGeneration "gen_2")]
  ++ [Call (CallOnGeneration 2 "gen_2")] ++ run_on 3.
Definition demo_exec_at (l : demo_moves) := schedule demo_exec demo_exec_start l.

#[local] Instance answer_known_dec (q : question) (a : @answer unit) : Decision (answer_known q a).
Proof. unfold answer_known. destruct a; apply _. Defined.
#[local] Instance demo_callable_dec (t : goroutine) : Decision (callable demo_exec t).
Proof. simpl. apply _. Defined.
#[local] Instance demo_env_dec (q : question) (a : @answer unit) : Decision (env_ok demo_exec q a).
Proof. apply answer_known_dec. Defined.

Lemma demo_exec_reached l :
  bool_decide (moves_ok demo_exec demo_exec_start l) = true → reachable demo_exec demo_exec_start (demo_exec_at l).
Proof. intros Hl. apply schedule_reachable. by apply bool_decide_eq_true in Hl. Qed.

(** ** Witnesses *)

Lemma exec_process_authorized_witness :
  blocked (demo_exec_at demo_asked) 1 = Some (demo_serve, AskStart 1 demo_exec_command)
  ∧ ∃ b id protocols token tk now' key,
      demo_serve = CallServe 1 b id protocols
      ∧ parseExecProtocols (F := unit) protocols = Ok token ∧ token = tk_tokenHash tk
      ∧ Used 1 id tk now' ∈ x_log (shared (demo_exec_at demo_asked)) ∧ (now' < tk_expiresAt tk)%Z
      ∧ demo_exec_command = exec_command (tk_target tk) (tk_init tk) ∧ same_selection tk b = true
      ∧ access_key (tk_target tk) (bind_Generation b) key
      ∧ cleared 1 key (bind_Generation b) (x_log (shared (demo_exec_at demo_asked)))
      ∧ ∃ l, Issued (tk_request tk) id tk ∈ x_log (shared (demo_exec_at demo_asked))
             ∧ l `prefix_of` x_log (shared (demo_exec_at demo_asked))
             ∧ well_issued (F := unit) (λ s, s) demo_token (tk_request tk) tk l.
Proof.
  assert (blocked (demo_exec_at demo_asked) 1 = Some (demo_serve, AskStart 1 demo_exec_command)) as Hb by (by vm_compute).
  assert (reachable demo_exec demo_exec_start (demo_exec_at demo_asked)) as Hr by (apply demo_exec_reached; by vm_compute).
  split; [exact Hb|].
  exact (exec_process_authorized (λ s, s) demo_id demo_token (λ l, l) 30000 demo_leases (λ l, reflexivity l) "gen_1" 0
    (demo_exec_at demo_asked) 1 demo_serve 1 demo_exec_command Hr Hb).
Defined.

Lemma exec_tickets_single_use_witness :
  (size (x_sessions (shared (demo_exec_at demo_asked))) ≤ MaximumExecSessions)%nat.
Proof.
  assert (reachable demo_exec demo_exec_start (demo_exec_at demo_asked)) as Hr by (apply demo_exec_reached; by vm_compute).
  exact (proj2 (proj2 (proj2 (exec_tickets_single_use (λ s, s) demo_id demo_token (λ l, l) 30000 demo_leases
    (λ l, reflexivity l) "gen_1" 0 (demo_exec_at demo_asked) Hr)))).
Defined.

Lemma exec_session_ends_once_witness :
  (∀ id, x_sessions (shared (demo_exec_at demo_ended)) !! id ≠ Some 1) ∧ 1 ∉ x_remotes (shared (demo_exec_at demo_ended))
  ∧ ∃ s, x_states (shared (demo_exec_at demo_ended)) !! 1 = Some s ∧ is_Some (es_terminal s) ∧ es_closed s = true.
Proof.
  assert (reachable demo_exec demo_exec_start (demo_exec_at demo_ended)) as Hr by (apply demo_exec_reached; by vm_compute).
  exact (proj1 (proj2 (exec_session_ends_once (λ s, s) demo_id demo_token (λ l, l) 30000 demo_leases
    (λ l, reflexivity l) "gen_1" 0 (demo_exec_at demo_ended) Hr)) 2 0 1 ltac:(by vm_compute)).
Defined.

Definition demo_session : execSessionState :=
  default (new_state "" "" demo_binding
      {| tk_tokenHash := ""; tk_binding := demo_binding; tk_target := demo_target; tk_init := demo_init;
         tk_expiresAt := 0; tk_request := 0 |})
    (x_states (shared (demo_exec_at demo_changed)) !! 1).

Lemma retired_sessions_told_witness : is_Some (es_requested demo_session).
Proof.
  assert (reachable demo_exec demo_exec_start (demo_exec_at demo_changed)) as Hr by (apply demo_exec_reached; by vm_compute).
  refine (retired_sessions_told (λ s, s) demo_id demo_token (λ l, l) 30000 demo_leases (λ l, reflexivity l) "gen_1" 0
    (demo_exec_at demo_changed) (demo_exec_at demo_changed) 3 2 "gen_2" Hr ltac:(by vm_compute) (reach_start _ _)
    {["gen_1"]} "exec_01234567" 1 demo_session _ ltac:(by vm_compute) ltac:(by vm_compute) _ _).
  - apply list_elem_of_lookup_2 with 10. by vm_compute.
  - apply elem_of_singleton. by vm_compute.
  - by vm_compute.
Defined.
