(* ===== verification/PortForward.v ===== *)
(** * PortForward: local ports that reach into pods

    Models src/internal/services/actions/portforward.go, and the resolution of a Service to
    a pod of src/internal/adapters/kubernetes/actions.go. Sessions, starts and the gate of
    each forwarded object live in the manager's maps; a session and a gate are objects that
    goroutines share after they left the maps. A session, its listener, its upstream handle
    and the contexts of a request are named by the number of the request that made them.
    The cluster, the reviewer, the binder and the handles answer at [Await]; the clock, the
    timers and the ends of contexts are steps of the environment.

    [sync.Once] has three states: a second caller of [stop] waits until the first is done.
    The log, the spawned goroutines and the fields marked so are read by nothing. *)
From Stdlib Require Import Ascii String ZArith Lia.
From stdpp Require Import base gmap strings list sorting.
From S2P Require Import Prelude Json Topics Unicode Cursor Ports Retry Pagination Collect Catalogue Access Authorization Selection Actions Threads Idempotency.
Local Open Scope string_scope.
Local Open Scope list_scope.

Definition MaximumPortForwardSessions : nat := 8.

(** ** Resolving a Service *)

Record ServicePort := {
  sp_Port : Z; sp_Protocol : string; sp_TargetInt : Z; sp_TargetStr : string }.
Record BackingService := { sv_Ports : list ServicePort; sv_Selector : list (string * string) }.
Record ContainerPort := { cp_Name : string; cp_Protocol : string; cp_ContainerPort : Z }.
Record BackingPod := {
  bp_Name : string; bp_Deleting : bool; bp_Phase : string;
  bp_Conditions : list (string * string); bp_Containers : list (list ContainerPort) }.

Definition ProtocolTCP : string := "TCP".

Definition podReady (pod : BackingPod) : bool :=
  match find (λ c, String.eqb c.1 "Ready") (bp_Conditions pod) with
  | Some c => String.eqb c.2 "True"
  | None => false
  end.

(** The first port of a container, then of the pod, with a name and a protocol; the inner
    loop ends at the first match, the outer one at the first positive number. *)
Definition named_port (name protocol : string) (ports : list ContainerPort) : option Z :=
  cp_ContainerPort <$> find (λ p, String.eqb (cp_Name p) name && String.eqb (cp_Protocol p) protocol) ports.
Fixpoint named_pod_port (name protocol : string) (remotePort : Z) (containers : list (list ContainerPort)) : Z :=
  match containers with
  | [] => remotePort
  | ports :: containers =>
    let remotePort := default remotePort (named_port name protocol ports) in
    if (0 <? remotePort)%Z then remotePort else named_pod_port name protocol remotePort containers
  end.

(** The port of one pod, if the pod can be used. *)
Definition backing_port (port : ServicePort) (pod : BackingPod) : option Z :=
  if bp_Deleting pod || negb (String.eqb (bp_Phase pod) "Running") || negb (podReady pod) then None
  else
    let named := negb (String.eqb (sp_TargetStr port) "") in
    let found := if named then named_pod_port (sp_TargetStr port) (sp_Protocol port) 0 (bp_Containers pod)
                 else sp_TargetInt port in
    if named && (found =? 0)%Z then None
    else
      let remotePort := if (found =? 0)%Z then sp_Port port else found in
      if (remotePort <? 1)%Z || (65535 <? remotePort)%Z then None else Some remotePort.

Fixpoint first_backing (port : ServicePort) (pods : list BackingPod) : option (string * Z) :=
  match pods with
  | [] => None
  | pod :: pods =>
    match backing_port port pod with
    | Some remotePort => Some (bp_Name pod, remotePort)
    | None => first_backing port pods
    end
  end.

(** The port of the Service, if it has pods to look for, and the pod among those listed. *)
Definition selected_port (servicePort : Z) (s : BackingService) : option ServicePort :=
  match find (λ p, (sp_Port p =? servicePort)%Z && String.eqb (sp_Protocol p) ProtocolTCP) (sv_Ports s) with
  | Some p => match sv_Selector s with [] => None | _ => Some p end
  | None => None
  end.
Definition backing_pod (port : ServicePort) (pods : list BackingPod) : option (string * Z) :=
  first_backing port (sort_stable (λ a b, str_lt (bp_Name a) (bp_Name b)) pods).

(** ** Sessions *)

Inductive PortForwardStatus :=
| PortForwardActive | PortForwardClosed | PortForwardExpired | PortForwardPodGone | PortForwardFailed.
#[export] Instance PortForwardStatus_eq_dec : EqDecision PortForwardStatus.
Proof. solve_decision. Defined.
Definition status_name (s : PortForwardStatus) : string :=
  match s with
  | PortForwardActive => "active" | PortForwardClosed => "closed" | PortForwardExpired => "expired"
  | PortForwardPodGone => "podGone" | PortForwardFailed => "failed"
  end.

Record PortForwardDTO := {
  dto_SourceKind : string; dto_SourceName : string; dto_SourcePort : Z; dto_ID : string;
  dto_ClusterProfileID : Z; dto_Context : string; dto_Generation : string; dto_Namespace : string;
  dto_Pod : string; dto_RemotePort : Z; dto_LocalAddress : string; dto_LocalPort : Z;
  dto_Status : PortForwardStatus; dto_CreatedAt : Z; dto_ExpiresAt : Z; dto_EndedAt : option Z;
  dto_EndReason : option string }.
Definition dto_ended (status : PortForwardStatus) (now : Z) (d : PortForwardDTO) : PortForwardDTO := {|
  dto_SourceKind := dto_SourceKind d; dto_SourceName := dto_SourceName d; dto_SourcePort := dto_SourcePort d;
  dto_ID := dto_ID d; dto_ClusterProfileID := dto_ClusterProfileID d; dto_Context := dto_Context d;
  dto_Generation := dto_Generation d; dto_Namespace := dto_Namespace d; dto_Pod := dto_Pod d;
  dto_RemotePort := dto_RemotePort d; dto_LocalAddress := dto_LocalAddress d; dto_LocalPort := dto_LocalPort d;
  dto_Status := status; dto_CreatedAt := dto_CreatedAt d; dto_ExpiresAt := dto_ExpiresAt d;
  dto_EndedAt := Some now; dto_EndReason := Some (status_name status) |}.

Record portForwardOrigin := PfOrigin {
  og_generation : string; og_kind : string; og_namespace : string; og_name : string }.
#[export] Instance portForwardOrigin_eq_dec : EqDecision portForwardOrigin.
Proof. solve_decision. Defined.
#[export] Instance portForwardOrigin_countable : Countable portForwardOrigin.
Proof.
  refine (inj_countable' (λ o, (og_generation o, og_kind o, og_namespace o, og_name o))
            (λ '(g, k, ns, n), PfOrigin g k ns n) _). by intros [].
Defined.
Definition dto_origin (d : PortForwardDTO) : portForwardOrigin :=
  PfOrigin (dto_Generation d) (dto_SourceKind d) (dto_Namespace d) (dto_SourceName d).

Inductive once := OnceNew | OnceRunning | OnceDone.
#[export] Instance once_eq_dec : EqDecision once.
Proof. solve_decision. Defined.

(** [ps_timer] says that the expiry timer is armed. *)
Record portForwardSession := {
  ps_dto : PortForwardDTO; ps_target : MutationTarget; ps_timer : bool; ps_once : once }.
Definition with_dto (d : PortForwardDTO) (s : portForwardSession) : portForwardSession := {|
  ps_dto := d; ps_target := ps_target s; ps_timer := ps_timer s; ps_once := ps_once s |}.
Definition with_timer (b : bool) (s : portForwardSession) : portForwardSession := {|
  ps_dto := ps_dto s; ps_target := ps_target s; ps_timer := b; ps_once := ps_once s |}.
Definition with_once (o : once) (s : portForwardSession) : portForwardSession := {|
  ps_dto := ps_dto s; ps_target := ps_target s; ps_timer := ps_timer s; ps_once := o |}.

(** [st_request] and [st_origin] are read by nothing. *)
Record portForwardStart := {
  st_generation : string; st_cancel : option nat; st_stale : bool; st_request : nat;
  st_origin : portForwardOrigin }.
Definition attached (n : nat) (s : portForwardStart) : portForwardStart := {|
  st_generation := st_generation s; st_cancel := Some n; st_stale := st_stale s;
  st_request := st_request s; st_origin := st_origin s |}.
Definition stale (s : portForwardStart) : portForwardStart := {|
  st_generation := st_generation s; st_cancel := st_cancel s; st_stale := true;
  st_request := st_request s; st_origin := st_origin s |}.

(** [gt_token] is the request that sent to the token channel. [gt_members], which nothing
    reads, are the requests that [gt_users] counts. *)
Record portForwardGate := { gt_token : option nat; gt_users : nat; gt_members : gset nat }.

(** ** The state *)

Inductive pf_event :=
| PfReviewed (n : nat) (key : Key) (c : Capability)
| PfCleared (n : nat) (generation : string)
| PfReserved (n : nat) (o : portForwardOrigin)
| PfReplacing (n : nat) (l : list nat)
| PfResolved (n : nat) (s : BackingService) (pods : list BackingPod)
| PfHook (n : nat) (current : string) (retired : gset string) (removed : list nat).
Definition pf_request (e : pf_event) : nat :=
  match e with
  | PfReviewed n _ _ | PfCleared n _ | PfReserved n _ | PfReplacing n _ | PfResolved n _ _
  | PfHook n _ _ _ => n
  end.

Inductive goroutine :=
| CallCreate (n : nat) (b : SelectionBinding) (route : RouteTarget) (key : string) (r : PortForwardCreateRequest)
| CallCreateService (n : nat) (b : SelectionBinding) (route : RouteTarget) (key : string) (r : PortForwardCreateRequest)
| CallList (n : nat) (b : SelectionBinding)
| CallClose (n : nat) (b : SelectionBinding) (id : string) (r : PortForwardDeleteRequest)
| CallOnGeneration (n : nat) (current : string)
| CallShutdown (n : nat)
| GoMonitor (k m : nat)
| GoExpire (k : nat) (id : string).

(** What the environment owns: the published generation and those before it, the clock, the
    requests' contexts and the root context. *)
Record surroundings := {
  en_generation : string; en_retired : gset string; en_now : Z; en_ctx : gmap nat ctx_error;
  en_root : option ctx_error }.
(** What [mu] protects, but for the gates. *)
Record table := {
  tb_sessions : gmap string nat; tb_objects : gmap nat portForwardSession;
  tb_starts : gmap Z portForwardStart; tb_nextStart : Z; tb_shutdown : bool }.
Record gates := { ga_targets : gmap portForwardOrigin nat; ga_objects : gmap nat portForwardGate }.
(** The [AfterFunc]s that are registered and those that run, the lifetime contexts that were
    canceled, the listeners and the handles that are open. *)
Record resources := {
  re_after : gset nat; re_fired : gset nat; re_canceled : gset nat; re_listeners : gset nat;
  re_handles : gset nat }.
Record history := {
  hi_audit : list AuditEvent; hi_spawned : list (nat → goroutine); hi_log : list pf_event }.

Inductive question :=
| AskEntry (n m : nat)
| AskGate (n g : nat)
| AskService (n : nat) (target : MutationTarget)
| AskPods (n : nat) (target : MutationTarget) (selector : list (string * string))
| AskReview (n : nat) (key : Key)
| AskListen (n : nat) (port : Z)
| AskSetup (n : nat)
| AskStart (n : nat) (target : MutationTarget) (remotePort : Z)
| AskHandle (m : nat)
| AskStopped (m : nat).

Inductive env_move :=
| Tick (d : N)
| ContextEnds (n : nat) (e : ctx_error)
| RootEnds
| RotateGeneration (generation : string)
| RunAfterFunc (n : nat)
| FireTimer (m : nat).

Section manager.
Context {F : Type} `{!ActionErrors F} `{!DnsNames}.
(** The hash of a request's canonical JSON, the random identifiers, the order in which a
    map is walked, the errors of the adapter, and the durations. *)
Context (canonicalBodyHash : PortForwardCreateRequest → option string) (NewID : nat → option string)
  (arrange : list nat → list nat) (NewNotFound : string → F) (errActionsClientUnavailable : F)
  (duration retention : Z).
Abbreviation err := (aerr F).

Inductive answer :=
| EntryDone | ContextDone (e : ctx_error) | RootDone (e : ctx_error) | GateFree
| ServiceIs (r : result err BackingService)
| PodsAre (r : result err (list BackingPod))
| ReviewIs (c : Capability)
| ListenIs (r : result err (bool * Z))          (* whether the address is 127.0.0.1, and the port *)
| SetupIs (e : option ctx_error)
| StartIs (handle : bool) (e : option err)
| HandleDone (e : option err)
| Stopped.

Record world := {
  w_env : surroundings; w_table : table; w_gates : gates; w_res : resources;
  w_idem : idempotencyRegistry F PortForwardDTO; w_hist : history }.

Definition newPortForwardService (generation : string) (now idempotencyTTL : Z) : world := {|
  w_env := {| en_generation := generation; en_retired := ∅; en_now := now; en_ctx := ∅; en_root := None |};
  w_table := {| tb_sessions := ∅; tb_objects := ∅; tb_starts := ∅; tb_nextStart := 0; tb_shutdown := false |};
  w_gates := {| ga_targets := ∅; ga_objects := ∅ |};
  w_res := {| re_after := ∅; re_fired := ∅; re_canceled := ∅; re_listeners := ∅; re_handles := ∅ |};
  w_idem := newIdempotencyRegistry idempotencyTTL;
  w_hist := {| hi_audit := []; hi_spawned := []; hi_log := [] |} |}.

(** Updates of single parts. *)
Definition on_env (f : surroundings → surroundings) (w : world) : world := {|
  w_env := f (w_env w); w_table := w_table w; w_gates := w_gates w; w_res := w_res w;
  w_idem := w_idem w; w_hist := w_hist w |}.
Definition on_table (f : table → table) (w : world) : world := {|
  w_env := w_env w; w_table := f (w_table w); w_gates := w_gates w; w_res := w_res w;
  w_idem := w_idem w; w_hist := w_hist w |}.
Definition set_gates (g : gates) (w : world) : world := {|
  w_env := w_env w; w_table := w_table w; w_gates := g; w_res := w_res w;
  w_idem := w_idem w; w_hist := w_hist w |}.
Definition on_res (f : resources → resources) (w : world) : world := {|
  w_env := w_env w; w_table := w_table w; w_gates := w_gates w; w_res := f (w_res w);
  w_idem := w_idem w; w_hist := w_hist w |}.
Definition set_idem (r : idempotencyRegistry F PortForwardDTO) (w : world) : world := {|
  w_env := w_env w; w_table := w_table w; w_gates := w_gates w; w_res := w_res w;
  w_idem := r; w_hist := w_hist w |}.
Definition on_hist (f : history → history) (w : world) : world := {|
  w_env := w_env w; w_table := w_table w; w_gates := w_gates w; w_res := w_res w;
  w_idem := w_idem w; w_hist := f (w_hist w) |}.

Definition p_sessions (w : world) := tb_sessions (w_table w).
Definition p_objects (w : world) := tb_objects (w_table w).
Definition p_starts (w : world) := tb_starts (w_table w).
Definition p_shutdown (w : world) := tb_shutdown (w_table w).
Definition p_generation (w : world) := en_generation (w_env w).
Definition p_retired (w : world) := en_retired (w_env w).
Definition p_now (w : world) := en_now (w_env w).
Definition p_ctx (w : world) := en_ctx (w_env w).
Definition p_log (w : world) := hi_log (w_hist w).
Definition p_spawned (w : world) := hi_spawned (w_hist w).

Definition emit (e : pf_event) : world → world := on_hist (λ h, {|
  hi_audit := hi_audit h; hi_spawned := hi_spawned h; hi_log := hi_log h ++ [e] |}).
Definition spawn (g : nat → goroutine) : world → world := on_hist (λ h, {|
  hi_audit := hi_audit h; hi_spawned := hi_spawned h ++ [g]; hi_log := hi_log h |}).
Definition add_audit (e : AuditEvent) : world → world := on_hist (λ h, {|
  hi_audit := hi_audit h ++ [e]; hi_spawned := hi_spawned h; hi_log := hi_log h |}).
Definition set_sessions (m : gmap string nat) (t : table) : table := {|
  tb_sessions := m; tb_objects := tb_objects t; tb_starts := tb_starts t;
  tb_nextStart := tb_nextStart t; tb_shutdown := tb_shutdown t |}.
Definition set_objects (m : gmap nat portForwardSession) (t : table) : table := {|
  tb_sessions := tb_sessions t; tb_objects := m; tb_starts := tb_starts t;
  tb_nextStart := tb_nextStart t; tb_shutdown := tb_shutdown t |}.
Definition set_starts (m : gmap Z portForwardStart) (next : Z) (shutdown : bool) (t : table) : table := {|
  tb_sessions := tb_sessions t; tb_objects := tb_objects t; tb_starts := m;
  tb_nextStart := next; tb_shutdown := shutdown |}.
Definition put_starts (m : gmap Z portForwardStart) (t : table) : table :=
  set_starts m (tb_nextStart t) (tb_shutdown t) t.
Definition on_object (m : nat) (f : portForwardSession → portForwardSession) : world → world :=
  on_table (λ t, set_objects (alter f m (tb_objects t)) t).

Definition set_after (after fired : gset nat) (r : resources) : resources := {|
  re_after := after; re_fired := fired; re_canceled := re_canceled r;
  re_listeners := re_listeners r; re_handles := re_handles r |}.
Definition cancel_context (n : nat) : world → world := on_res (λ r, {|
  re_after := re_after r; re_fired := re_fired r; re_canceled := {[n]} ∪ re_canceled r;
  re_listeners := re_listeners r; re_handles := re_handles r |}).
Definition set_io (listeners handles : gset nat) : world → world := on_res (λ r, {|
  re_after := re_after r; re_fired := re_fired r; re_canceled := re_canceled r;
  re_listeners := listeners; re_handles := handles |}).
Definition open_listener (n : nat) (w : world) : world :=
  set_io ({[n]} ∪ re_listeners (w_res w)) (re_handles (w_res w)) w.
Definition close_listener (n : nat) (w : world) : world :=
  set_io (re_listeners (w_res w) ∖ {[n]}) (re_handles (w_res w)) w.
Definition open_handle (n : nat) (w : world) : world :=
  set_io (re_listeners (w_res w)) ({[n]} ∪ re_handles (w_res w)) w.
Definition close_handle (n : nat) (w : world) : world :=
  set_io (re_listeners (w_res w)) (re_handles (w_res w) ∖ {[n]}) w.

Abbreviation program := (prog world question answer).

Definition validateContext (n : nat) : program (option err) :=
  look (λ w, (λ e, translateError (CtxErr e)) <$> p_ctx w !! n).
Definition requireCurrent (n : nat) (generation : string) : program (option err) :=
  atomically (λ w,
    if String.eqb generation "" || negb (String.eqb (p_generation w) generation)
    then (Some generation_changed, w) else (None, emit (PfCleared n generation) w)).
Definition record_audit (started : Z) (operation : string) (target : MutationTarget) (e : option err)
    : program () :=
  modify (λ w, add_audit (audit_event (p_now w) started operation target e) w).
Definition cancel (n : nat) : program () := modify (cancel_context n).

(** ** Gates *)

Definition at_gate (g : nat) (f : portForwardGate → portForwardGate) (w : world) : world :=
  set_gates {| ga_targets := ga_targets (w_gates w); ga_objects := alter f g (ga_objects (w_gates w)) |} w.

(** The critical section that finds the gate of an object or makes one, and counts its user. *)
Definition enter_gate (n : nat) (o : portForwardOrigin) (w : world) : nat * world :=
  let join x := {| gt_token := gt_token x; gt_users := S (gt_users x); gt_members := {[n]} ∪ gt_members x |} in
  match ga_targets (w_gates w) !! o with
  | Some g => (g, at_gate g join w)
  | None =>
    (n, set_gates {| ga_targets := <[o := n]> (ga_targets (w_gates w));
                     ga_objects := <[n := join {| gt_token := None; gt_users := 0; gt_members := ∅ |}]>
                                     (ga_objects (w_gates w)) |} w)
  end.
Definition release_ref (n g : nat) (o : portForwardOrigin) (w : world) : world :=
  let w := at_gate g (λ x, {| gt_token := gt_token x; gt_users := pred (gt_users x);
                              gt_members := gt_members x ∖ {[n]} |}) w in
  match ga_objects (w_gates w) !! g with
  | Some {| gt_users := 0 |} =>
    set_gates {| ga_targets := delete o (ga_targets (w_gates w)); ga_objects := ga_objects (w_gates w) |} w
  | _ => w
  end.
Definition set_token (g : nat) (t : option nat) : world → world := at_gate g (λ x, {|
  gt_token := t; gt_users := gt_users x; gt_members := gt_members x |}).

(** The result is the gate whose token the request holds. *)
Definition acquireTarget (n : nat) (o : portForwardOrigin) : program (result err nat) :=
  g ← atomically (enter_gate n o);
  a ← receiving (AskGate n g) (λ a, match a with GateFree => set_token g (Some n) | _ => id end);
  match a with
  | GateFree => Ret (Ok g)
  | ContextDone e | RootDone e => _ ← modify (release_ref n g o); Ret (Err (CtxErr e))
  | _ => Ret (Err internal_error)
  end.
Definition release_gate (n g : nat) (o : portForwardOrigin) : program () :=
  _ ← modify (set_token g None); modify (release_ref n g o).

(** ** Ending sessions *)

(** [stop]: the body of [stopOnce] for its first caller, a wait for the others. *)
Definition once_enter (m : nat) (w : world) : bool * world :=
  match p_objects w !! m with
  | Some s => if bool_decide (ps_once s = OnceNew) then (true, on_object m (with_once OnceRunning) w)
              else (false, w)
  | None => (false, w)
  end.
Definition stop (m : nat) : program () :=
  first ← atomically (once_enter m);
  if first : bool then
    _ ← modify (on_object m (with_timer false));
    _ ← cancel m;
    _ ← modify (close_listener m);
    _ ← modify (close_handle m);
    modify (on_object m (with_once OnceDone))
  else _ ← receive (AskStopped m); Ret tt.

Definition is_active (m : nat) (w : world) : bool :=
  match p_objects w !! m with
  | Some s => bool_decide (dto_Status (ps_dto s) = PortForwardActive)
  | None => false
  end.
Definition end_object (m : nat) (status : PortForwardStatus) (w : world) : world :=
  on_object m (λ s, with_dto (dto_ended status (p_now w) (ps_dto s)) s) w.

Definition terminalStatusError (status : PortForwardStatus) : option err :=
  match status with
  | PortForwardClosed | PortForwardExpired | PortForwardPodGone => None
  | _ => Some (publicError CodeClusterUnavailable 503 true None)
  end.

(** The critical section of [finish]. *)
Definition end_session (id : string) (status : PortForwardStatus) (w : world)
    : option (nat * portForwardSession) * world :=
  match m ← p_sessions w !! id; s ← p_objects w !! m; Some (m, s) with
  | Some (m, s) => if is_active m w then (Some (m, s), end_object m status w) else (None, w)
  | None => (None, w)
  end.
Definition finish (id : string) (status : PortForwardStatus) : program () :=
  r ← atomically (end_session id status);
  match r with
  | None => Ret tt
  | Some (m, s) =>
    _ ← stop m;
    record_audit (dto_CreatedAt (ps_dto s)) "port_forward_end" (ps_target s) (terminalStatusError status)
  end.

Definition object_id (m : nat) (w : world) : string :=
  match p_objects w !! m with Some s => dto_ID (ps_dto s) | None => "" end.

Definition monitor (m : nat) : program () :=
  a ← receive (AskHandle m);
  id ← look (object_id m);
  finish id (match a with
             | HandleDone (Some e) => if chain_is is_PodGone e then PortForwardPodGone else PortForwardFailed
             | _ => PortForwardFailed
             end).

(** ** The critical sections of [createOnce] *)

Definition pruneLocked (now : Z) (w : world) : world :=
  on_table (λ t, set_sessions
    (filter (λ p : string * nat,
       match tb_objects t !! p.2 with
       | Some s => match dto_EndedAt (ps_dto s) with
                   | Some ended => (now <? ended + retention)%Z
                   | None => true
                   end
       | None => true
       end = true) (tb_sessions t)) t) w.

(** The objects in the map of sessions that satisfy [P]. *)
Definition sessions_with (P : portForwardSession → bool) (w : world) : list nat :=
  filter (λ m, match p_objects w !! m with Some s => P s | None => false end = true)
    (map_to_list (p_sessions w)).*2.
Definition active_session (s : portForwardSession) : bool :=
  bool_decide (dto_Status (ps_dto s) = PortForwardActive).
Definition of_origin (o : portForwardOrigin) (s : portForwardSession) : bool :=
  bool_decide (dto_origin (ps_dto s) = o).

Definition reserve (n : nat) (o : portForwardOrigin) (w : world) : result err Z * world :=
  let w := pruneLocked (p_now w) w in
  if p_shutdown w then (Err server_shutdown, w)
  else
    let active := (size (p_starts w) + length (sessions_with active_session w))%nat in
    let replacing := match sessions_with (λ s, active_session s && of_origin o s) w with [] => false | _ => true end in
    if (MaximumPortForwardSessions <=? active)%nat && negb replacing then (Err (limit_exceeded false), w)
    else
      let id := u64_succ (tb_nextStart (w_table w)) in
      (Ok id, emit (PfReserved n o)
                (on_table (set_starts
                   (<[id := {| st_generation := og_generation o; st_cancel := None; st_stale := false;
                               st_request := n; st_origin := o |}]> (p_starts w)) id false) w)).

Fixpoint close_each (l : list nat) : program () :=
  match l with
  | [] => Ret tt
  | m :: l => id ← look (object_id m); _ ← finish id PortForwardClosed; _ ← stop m; close_each l
  end.
Definition closeTarget (n : nat) (o : portForwardOrigin) : program () :=
  previous ← atomically (λ w, let l := arrange (sessions_with (of_origin o) w) in (l, emit (PfReplacing n l) w));
  close_each previous.

(** Whether the start is unknown, or the server is shutting down, or the start is stale. *)
Definition attach (n : nat) (id : Z) (w : world) : option (bool * bool) * world :=
  match p_starts w !! id with
  | None => (None, w)
  | Some s => (Some (p_shutdown w, st_stale s), on_table (put_starts (<[id := attached n s]> (p_starts w))) w)
  end.
Definition attachReservation (n : nat) (id : Z) : program (option err) :=
  r ← atomically (attach n id);
  match r with
  | None => _ ← cancel n; Ret (Some internal_error)
  | Some (shutdown, stale) =>
    if shutdown || stale
    then _ ← cancel n; Ret (Some (if shutdown : bool then server_shutdown else generation_changed))
    else Ret None
  end.
Definition releaseReservation (id : Z) : program () :=
  c ← atomically (λ w, (p_starts w !! id ≫= st_cancel, on_table (put_starts (delete id (p_starts w))) w));
  match c with Some n => cancel n | None => Ret tt end.

(** [context.AfterFunc(ctx, cancel)], and the function it returns. *)
Definition after_func (n : nat) (w : world) : world :=
  on_res (λ r, match p_ctx w !! n with
               | Some _ => set_after (re_after r) ({[n]} ∪ re_fired r) r
               | None => set_after ({[n]} ∪ re_after r) (re_fired r) r
               end) w.
Definition stop_after (n : nat) : world → world :=
  on_res (λ r, set_after (re_after r ∖ {[n]}) (re_fired r) r).

(** The critical section that publishes the session [n]. *)
Definition publish (n : nat) (start : Z) (generation id : string) (w : world) : option err * world :=
  let isStale := match p_starts w !! start with Some s => st_stale s | None => false end in
  let w := on_table (put_starts (delete start (p_starts w))) w in
  if p_shutdown w then (Some server_shutdown, w)
  else if isStale || negb (String.eqb (p_generation w) generation) then (Some generation_changed, w)
  else
    let w := stop_after n w in
    match p_ctx w !! n with
    | Some e => (Some (translateError (CtxErr e)), w)
    | None =>
      match p_sessions w !! id with
      | Some _ => (Some internal_error, w)
      | None =>
        (None, on_object n (with_timer true) (on_table (λ t, set_sessions (<[id := n]> (tb_sessions t)) t) w))
      end
    end.

(** ** Creating a session *)

(** The variables [createOnce] shares with the function it hands to [Guard]. *)
Record setup := {
  su_error : option err; su_start : option Z; su_identifier : string; su_listener : option Z;
  su_handle : bool }.
Definition nothing_set : setup := {|
  su_error := None; su_start := None; su_identifier := ""; su_listener := None; su_handle := false |}.
Definition with_error (e : err) (s : setup) : setup := {|
  su_error := Some e; su_start := su_start s; su_identifier := su_identifier s;
  su_listener := su_listener s; su_handle := su_handle s |}.

(** [if err := p; err != nil { operationErr = err; return err }; k] *)
Definition or_fail (s : setup) (p : program (option err)) (k : program setup) : program setup :=
  e ← p; match e with Some e => Ret (with_error e s) | None => k end.

Definition translateBindError (n : nat) (e : err) : program err :=
  a ← receive (AskSetup n);
  Ret (match a with
       | SetupIs (Some c) => translateError (CtxErr c)
       | _ => if chain_is is_EADDRINUSE e then publicError CodeConflict 409 false (Some (PortUnavailable e))
              else publicError CodeInternal 500 false (Some e)
       end).

(** From the bound listener to the upstream connection. *)
Definition connect (n : nat) (generation : string) (target : MutationTarget) (remotePort : Z) (s : setup)
    : program setup :=
  a ← receive (AskStart n target remotePort);
  let '(handle, e) := match a with StartIs handle e => (handle, e) | _ => (false, None) end in
  let s := {| su_error := su_error s; su_start := su_start s; su_identifier := su_identifier s;
              su_listener := su_listener s; su_handle := handle |} in
  _ ← when handle (modify (open_handle n));
  match e with
  | Some e => _ ← cancel n; _ ← modify (close_listener n); Ret (with_error e s)
  | None =>
    if negb handle then _ ← cancel n; _ ← modify (close_listener n); Ret (with_error internal_error s)
    else
      c ← requireCurrent n generation;
      match c with
      | Some c =>
        _ ← cancel n; _ ← modify (close_listener n); _ ← modify (close_handle n); Ret (with_error c s)
      | None => Ret s
      end
  end.

Definition bind_port (n : nat) (generation : string) (target : MutationTarget) (r : PortForwardCreateRequest)
    (s : setup) : program setup :=
  a ← receive (AskListen n (default 0%Z (pf_LocalPort r)));
  match a with
  | ListenIs (Ok (loopback, port)) =>
    _ ← modify (open_listener n);
    let s := {| su_error := su_error s; su_start := su_start s; su_identifier := su_identifier s;
                su_listener := Some port; su_handle := su_handle s |} in
    if negb loopback || (port <? 1024)%Z || (65535 <? port)%Z
    then _ ← modify (close_listener n); Ret (with_error internal_error s)
    else connect n generation target (pf_RemotePort r) s
  | ListenIs (Err e) => e ← translateBindError n e; Ret (with_error e s)
  | _ => Ret (with_error internal_error s)
  end.

(** What runs once the slot is reserved: the old session ends, then the new one starts. *)
Definition replace (n : nat) (o : portForwardOrigin) (target : MutationTarget) (r : PortForwardCreateRequest)
    (start : Z) : program setup :=
  let s := {| su_error := None; su_start := Some start; su_identifier := ""; su_listener := None;
              su_handle := false |} in
  _ ← closeTarget n o;
  _ ← modify (after_func n);
  or_fail s (attachReservation n start)
  (or_fail s (requireCurrent n (og_generation o))
  (match NewID n with
   | None => Ret (with_error (publicError CodeInternal 500 false None) s)
   | Some id =>
     bind_port n (og_generation o) target r
       {| su_error := None; su_start := Some start; su_identifier := id; su_listener := None;
          su_handle := false |}
   end)).

(** The function handed to [Guard]. *)
Definition upgrade (n : nat) (o : portForwardOrigin) (target : MutationTarget) (r : PortForwardCreateRequest)
    : program setup :=
  or_fail nothing_set (look (λ w, CtxErr <$> p_ctx w !! n))
  (or_fail nothing_set (requireCurrent n (og_generation o))
  (start ← atomically (reserve n o);
   match start with
   | Err e => Ret (with_error e nothing_set)
   | Ok start => replace n o target r start
   end)).

(** [Guard] for an upgrade: what the function left, if it ran, and the error. *)
Definition guarded (n : nat) (key : Key) (operation : program setup) : program (option setup * option err) :=
  now ← look p_now;
  match call_guard key OperationUpgrade now with
  | GuardDone _ (Some e) => Ret (None, Some (AuthErr e))
  | _ =>
    a ← receive (AskReview n key);
    match a with
    | ReviewIs c =>
      _ ← modify (emit (PfReviewed n key c));
      match revalidated key OperationUpgrade c with
      | GuardDone _ (Some e) => Ret (None, Some (AuthErr e))
      | _ =>
        s ← operation;
        Ret (Some s, (λ e, AuthErr (TranslateOperationError e)) <$> su_error s)
      end
    | _ => Ret (None, Some internal_error)
    end
  end.

(** [createOnce] after [Guard] failed. *)
Definition guard_failed (n : nat) (generation : string) (ran : option setup) (e : err)
    : program (result err PortForwardDTO) :=
  let s := default nothing_set ran in
  _ ← when (bool_decide (is_Some (su_listener s)) && negb (su_handle s)) (modify (close_listener n));
  _ ← match su_start s with Some start => releaseReservation start | None => Ret tt end;
  c ← requireCurrent n generation;
  match c with
  | Some c => Ret (Err c)
  | None =>
    shutdown ← look p_shutdown;
    if shutdown : bool then Ret (Err server_shutdown)
    else Ret (Err (translateError (default e (ran ≫= su_error))))
  end.

Definition new_dto (b : SelectionBinding) (target : MutationTarget) (source request : PortForwardCreateRequest)
    (id : string) (port now : Z) : PortForwardDTO := {|
  dto_SourceKind := tg_Kind (cf_Target (pf_Confirmation source));
  dto_SourceName := tg_Name (cf_Target (pf_Confirmation source));
  dto_SourcePort := pf_RemotePort source; dto_ID := id; dto_ClusterProfileID := bind_ClusterProfileID b;
  dto_Context := bind_Context b; dto_Generation := bind_Generation b; dto_Namespace := mt_Namespace target;
  dto_Pod := mt_Name target; dto_RemotePort := pf_RemotePort request; dto_LocalAddress := "127.0.0.1";
  dto_LocalPort := port; dto_Status := PortForwardActive; dto_CreatedAt := now;
  dto_ExpiresAt := (now + duration)%Z; dto_EndedAt := None; dto_EndReason := None |}.

Definition publish_session (n : nat) (start : Z) (dto : PortForwardDTO) (target : MutationTarget)
    : program (result err PortForwardDTO) :=
  _ ← modify (on_table (λ t, set_objects
        (<[n := {| ps_dto := dto; ps_target := target; ps_timer := false; ps_once := OnceNew |}]> (tb_objects t)) t));
  e ← atomically (publish n start (dto_Generation dto) (dto_ID dto));
  match e with
  | Some e => _ ← stop n; Ret (Err e)
  | None => _ ← modify (spawn (λ k, GoMonitor k n)); Ret (Ok dto)
  end.

Definition create_guarded (n : nat) (b : SelectionBinding) (o : portForwardOrigin) (target : MutationTarget)
    (request source : PortForwardCreateRequest) : program (result err PortForwardDTO) :=
  match KeyForCapability (bind_Generation b) (mt_Namespace target) "pods.portforward.create" (mt_Name target) with
  | Err e => Ret (Err (translateError (AuthErr e)))
  | Ok key =>
    '(ran, e) ← guarded n key (upgrade n o target request);
    match e with
    | Some e => guard_failed n (bind_Generation b) ran e
    | None =>
      match ran with
      | Some {| su_start := Some start; su_identifier := id; su_listener := Some port; su_handle := true |} =>
        now ← look p_now;
        publish_session n start (new_dto b target source request id port now) target
      | Some {| su_start := Some start |} => _ ← releaseReservation start; Ret (Err internal_error)
      | _ => Ret (Err internal_error)
      end
    end
  end.

Definition origin_of (b : SelectionBinding) (source : PortForwardCreateRequest) : portForwardOrigin :=
  let t := cf_Target (pf_Confirmation source) in
  PfOrigin (bind_Generation b) (tg_Kind t) (tg_Namespace t) (tg_Name t).

Definition createOnce (n : nat) (b : SelectionBinding) (request source : PortForwardCreateRequest)
    : program (result err PortForwardDTO) :=
  let o := origin_of b source in
  let target := mutationTarget b (cf_Target (pf_Confirmation request)) in
  g ← acquireTarget n o;
  match g with
  | Err e => Ret (Err (translateError e))
  | Ok g =>
    started ← look p_now;
    r ← create_guarded n b o target request source;
    _ ← modify (stop_after n);
    _ ← record_audit started "port_forward_start" target (match r with Err e => Some e | Ok _ => None end);
    _ ← release_gate n g o;
    Ret r
  end.

Definition create_identity (b : SelectionBinding) (path hash : string) : idempotencyIdentity := {|
  id_Method := "POST"; id_Path := path; id_ClusterProfileID := bind_ClusterProfileID b;
  id_Generation := bind_Generation b; id_BodyHash := hash |}.

Definition waited (a : answer) : option ctx_error :=
  match a with ContextDone e => Some e | _ => None end.

(** [Create] and [CreateService] up to the function that executes once. *)
Definition create_with (n : nat) (b : SelectionBinding) (path key : string) (r : PortForwardCreateRequest)
    (invalid : option err) (execute : program (result err PortForwardDTO))
    : program (result err (PortForwardDTO * bool)) :=
  checked (validateContext n)
  (valid invalid
  (valid (validateIdempotencyKey key)
  (checked (requireCurrent n (bind_Generation b))
  (match canonicalBodyHash r with
   | None => Ret (Err internal_error)
   | Some hash =>
     '(o, replayed) ← Do w_idem set_idem p_now AskEntry waited n key (create_identity b path hash) execute;
     Ret (match o with Ok dto => Ok (dto, replayed) | Err e => Err e end)
   end)))).

Definition Create (n : nat) (b : SelectionBinding) (route : RouteTarget) (key : string)
    (r : PortForwardCreateRequest) : program (result err (PortForwardDTO * bool)) :=
  create_with n b (canonicalPodPath route "port-forward") key r (validatePortForward b route r)
    (createOnce n b r r).

(** [ResolveServicePort] of the adapter: the pod and its port. *)
Definition ResolveServicePort (n : nat) (target : MutationTarget) (servicePort : Z)
    : program (result err (MutationTarget * Z)) :=
  if String.eqb (mt_Namespace target) "" || String.eqb (mt_Name target) "" || (servicePort <? 1)%Z
     || (65535 <? servicePort)%Z
  then Ret (Err (Foreign errActionsClientUnavailable))
  else
    a ← receive (AskService n target);
    match a with
    | ServiceIs (Err e) => Ret (Err e)
    | ServiceIs (Ok s) =>
      match selected_port servicePort s with
      | None => Ret (Err (Foreign (NewNotFound (mt_Name target))))
      | Some port =>
        a ← receive (AskPods n target (sv_Selector s));
        match a with
        | PodsAre (Err e) => Ret (Err e)
        | PodsAre (Ok pods) =>
          _ ← modify (emit (PfResolved n s pods));
          match backing_pod port pods with
          | None => Ret (Err (Foreign (NewNotFound (mt_Name target))))
          | Some (name, remotePort) =>
            Ret (Ok ({| mt_ClusterProfileID := mt_ClusterProfileID target; mt_Context := mt_Context target;
                        mt_Generation := mt_Generation target; mt_Namespace := mt_Namespace target;
                        mt_Kind := "Pod"; mt_Name := name |}, remotePort))
          end
        | _ => Ret (Err internal_error)
        end
      end
    | _ => Ret (Err internal_error)
    end.

(** The request for the pod a Service was resolved to. *)
Definition pod_request (r : PortForwardCreateRequest) (pod : MutationTarget) (remotePort : Z)
    : PortForwardCreateRequest :=
  let c := pf_Confirmation r in
  let t := cf_Target c in
  {| pf_RemotePort := remotePort; pf_LocalPort := pf_LocalPort r;
     pf_Confirmation := {|
       cf_Confirmed := cf_Confirmed c; cf_Action := cf_Action c; cf_ConsequenceCode := cf_ConsequenceCode c;
       cf_Target := {| tg_ClusterProfileID := tg_ClusterProfileID t; tg_Context := tg_Context t;
                       tg_Namespace := mt_Namespace pod; tg_Kind := "Pod"; tg_Name := mt_Name pod |};
       cf_ExpectedGeneration := cf_ExpectedGeneration c |} |}.

Definition resolve_and_create (n : nat) (b : SelectionBinding) (r : PortForwardCreateRequest)
    : program (result err PortForwardDTO) :=
  p ← ResolveServicePort n (mutationTarget b (cf_Target (pf_Confirmation r))) (pf_RemotePort r);
  match p with
  | Err e => Ret (Err (translateError e))
  | Ok (pod, remotePort) =>
    checked (requireCurrent n (bind_Generation b)) (createOnce n b (pod_request r pod remotePort) r)
  end.
Definition CreateService (n : nat) (b : SelectionBinding) (route : RouteTarget) (key : string)
    (r : PortForwardCreateRequest) : program (result err (PortForwardDTO * bool)) :=
  create_with n b (canonicalServicePath route "port-forward") key r (validateServicePortForward b route r)
    (resolve_and_create n b r).

(** ** Listing and closing *)

Definition pf_less (a b : PortForwardDTO) : bool :=
  if (dto_CreatedAt a =? dto_CreatedAt b)%Z then str_lt (dto_ID a) (dto_ID b)
  else (dto_CreatedAt a <? dto_CreatedAt b)%Z.

(** The critical section of [List]. The order in which [sort.Slice] gets the rows is that
    of a map; the identifiers differ, so the sorted rows do not depend on it. *)
Definition list_rows (generation : string) (w : world) : list PortForwardDTO * world :=
  let w := pruneLocked (p_now w) w in
  let objects := sessions_with (λ s, String.eqb (dto_Generation (ps_dto s)) generation) w in
  (sort_stable pf_less (ps_dto <$> omap (λ m, p_objects w !! m) objects), w).

Definition List (n : nat) (b : SelectionBinding) : program (result err (list PortForwardDTO)) :=
  valid (validateBinding b)
  (checked (requireCurrent n (bind_Generation b))
  (rows ← atomically (list_rows (bind_Generation b)); Ret (Ok rows))).

(** The critical section of [Close]. *)
Definition close_session (id generation : string) (w : world) : result err (nat * portForwardSession * Z) * world :=
  let w := pruneLocked (p_now w) w in
  match m ← p_sessions w !! id; s ← p_objects w !! m; Some (m, s) with
  | None => (Err (publicError CodeNotFound 404 false None), w)
  | Some (m, s) =>
    if negb (String.eqb (dto_Generation (ps_dto s)) generation) then (Err generation_changed, w)
    else if negb (active_session s) then (Err session_gone, w)
    else (Ok (m, s, p_now w), end_object m PortForwardClosed w)
  end.
Definition Close (n : nat) (b : SelectionBinding) (id : string) (r : PortForwardDeleteRequest)
    : program (result err ()) :=
  checked (validateContext n)
  (valid (validateBinding b)
  (valid (validateSessionID id "pf_")
  (valid (if pd_Confirmed r then None else Some (validationError [Violation "confirmed" "must_be_true"]))
  (valid (if String.eqb (pd_ExpectedGeneration r) (bind_Generation b) then None else Some generation_changed)
  (checked (requireCurrent n (bind_Generation b))
  (x ← atomically (close_session id (bind_Generation b));
   match x with
   | Err e => Ret (Err e)
   | Ok (m, s, now) =>
     _ ← stop m;
     _ ← record_audit now "port_forward_end" (ps_target s) None;
     Ret (Ok tt)
   end)))))).

(** ** Generation changes and shutdown *)

(** The contexts of the starts that satisfy [P]. *)
Definition start_cancels (P : portForwardStart → bool) (w : world) : list nat :=
  arrange (omap (λ p : Z * portForwardStart, if P p.2 then st_cancel p.2 else None) (map_to_list (p_starts w))).
Definition retire (P : portForwardStart → bool) (Q : portForwardSession → bool) (shutdown : bool) (w : world)
    : world :=
  on_table (λ t, set_starts ((λ s, if P s then stale s else s) <$> tb_starts t) (tb_nextStart t) shutdown
    (set_sessions (filter (λ p : string * nat,
        match tb_objects t !! p.2 with Some s => Q s | None => false end = false) (tb_sessions t)) t)) w.

Fixpoint cancel_all (l : list nat) : program () :=
  match l with [] => Ret tt | n :: l => _ ← cancel n; cancel_all l end.
Fixpoint stop_all (l : list nat) (e : err) : program () :=
  match l with
  | [] => Ret tt
  | m :: l =>
    _ ← stop m;
    s ← look (λ w, p_objects w !! m);
    _ ← match s with
        | Some s => record_audit (dto_CreatedAt (ps_dto s)) "port_forward_end" (ps_target s) (Some e)
        | None => Ret tt
        end;
    stop_all l e
  end.

Definition obsolete (current : string) (generation : string) : bool := negb (String.eqb generation current).

Definition OnGeneration (n : nat) (current : string) : program () :=
  '(cancels, removed) ← atomically (λ w,
    let old s := obsolete current (st_generation s) in
    let gone s := obsolete current (dto_Generation (ps_dto s)) in
    let removed := arrange (sessions_with gone w) in
    ((start_cancels old w, removed),
     emit (PfHook n current (p_retired w) removed) (retire old gone (p_shutdown w) w)));
  _ ← cancel_all cancels;
  stop_all removed generation_changed.

Definition Shutdown : program () :=
  r ← atomically (λ w,
    if p_shutdown w then (None, w)
    else
      let all {A} (_ : A) := true in
      (Some (start_cancels all w, arrange (sessions_with all w)), retire all all true w));
  match r with
  | None => Ret tt
  | Some (cancels, removed) => _ ← cancel_all cancels; stop_all removed server_shutdown
  end.

(** ** The system *)

Inductive reply :=
| CreateReply (r : result err (PortForwardDTO * bool))
| ListReply (r : result err (list PortForwardDTO))
| CloseReply (r : result err ())
| Finished.

Abbreviation round := (program (outcome Empty_set reply)).

Definition pf_code (t : goroutine) : round :=
  match t with
  | CallCreate n b route key r => x ← Create n b route key r; Ret (Done (CreateReply x))
  | CallCreateService n b route key r => x ← CreateService n b route key r; Ret (Done (CreateReply x))
  | CallList n b => x ← List n b; Ret (Done (ListReply x))
  | CallClose n b id r => x ← Close n b id r; Ret (Done (CloseReply x))
  | CallOnGeneration n g => _ ← OnGeneration n g; Ret (Done Finished)
  | CallShutdown _ => _ ← Shutdown; Ret (Done Finished)
  | GoMonitor _ m => _ ← monitor m; Ret (Done Finished)
  | GoExpire _ id => _ ← finish id PortForwardExpired; Ret (Done Finished)
  end.

Definition lifetime_done (n : nat) (w : world) : bool :=
  bool_decide (n ∈ re_canceled (w_res w)) || bool_decide (is_Some (en_root (w_env w))).

(** An answer that is possible now. The setup of a tunnel may time out at any time. *)
Definition answered (q : question) (w : world) (a : answer) : bool :=
  match q, a with
  | AskEntry _ m, EntryDone =>
    match ir_objects (w_idem w) !! m with Some {| ie_result := Some _ |} => true | _ => false end
  | AskEntry n _, ContextDone e => bool_decide (p_ctx w !! n = Some e)
  | AskGate _ g, GateFree =>
    match ga_objects (w_gates w) !! g with Some {| gt_token := None |} => true | _ => false end
  | AskGate n _, ContextDone e => bool_decide (p_ctx w !! n = Some e)
  | AskGate _ _, RootDone e => bool_decide (en_root (w_env w) = Some e)
  | AskService _ _, ServiceIs _ => true
  | AskPods _ _ _, PodsAre _ => true
  | AskReview _ _, ReviewIs _ => true
  | AskListen _ _, ListenIs _ => true
  | AskSetup n, SetupIs (Some Canceled) => lifetime_done n w
  | AskSetup _, SetupIs (Some DeadlineExceeded) => true
  | AskSetup n, SetupIs None => negb (lifetime_done n w)
  | AskStart _ _ _, StartIs _ _ => true
  | AskHandle _, HandleDone _ => true
  | AskStopped m, Stopped =>
    match p_objects w !! m with Some s => bool_decide (ps_once s = OnceDone) | None => true end
  | _, _ => false
  end.

Definition environment (e : env_move) (w : world) : world :=
  match e with
  | Tick d => on_env (λ v, {| en_generation := en_generation v; en_retired := en_retired v;
      en_now := (en_now v + Z.of_N d)%Z; en_ctx := en_ctx v; en_root := en_root v |}) w
  | ContextEnds n e =>
    match p_ctx w !! n with
    | Some _ => w
    | None =>
      on_res (λ r, if bool_decide (n ∈ re_after r) then set_after (re_after r ∖ {[n]}) ({[n]} ∪ re_fired r) r else r)
        (on_env (λ v, {| en_generation := en_generation v; en_retired := en_retired v; en_now := en_now v;
           en_ctx := <[n := e]> (en_ctx v); en_root := en_root v |}) w)
    end
  | RootEnds => on_env (λ v, {| en_generation := en_generation v; en_retired := en_retired v;
      en_now := en_now v; en_ctx := en_ctx v; en_root := Some Canceled |}) w
  | RotateGeneration g =>
    if bool_decide (g ∈ {[p_generation w]} ∪ p_retired w) then w
    else on_env (λ v, {| en_generation := g; en_retired := {[en_generation v]} ∪ en_retired v;
           en_now := en_now v; en_ctx := en_ctx v; en_root := en_root v |}) w
  | RunAfterFunc n =>
    if bool_decide (n ∈ re_fired (w_res w))
    then cancel_context n (on_res (λ r, set_after (re_after r) (re_fired r ∖ {[n]}) r) w) else w
  | FireTimer m =>
    match p_objects w !! m with
    | Some s => if ps_timer s
                then spawn (λ k, GoExpire k (dto_ID (ps_dto s))) (on_object m (with_timer false) w) else w
    | None => w
    end
  end.

(** Reviews are decided one way or another, and a [Start] that fails has no handle:
    [PortForwardBackend.Start] of the Kubernetes runtime returns nil with every error. *)
Definition answer_known (q : question) (a : answer) : Prop :=
  match a with
  | ReviewIs c => cap_Decision c ∈ [DecisionAllowed; DecisionDenied; DecisionUnknown]
  | StartIs handle e => handle = true → e = None
  | _ => True
  end.

Definition started_by (s s' : world) : list goroutine :=
  imap (λ i g, g (length (p_spawned s) + i)) (drop (length (p_spawned s)) (p_spawned s')).

Definition request (t : goroutine) : option nat :=
  match t with
  | CallCreate n _ _ _ _ | CallCreateService n _ _ _ _ | CallList n _ | CallClose n _ _ _
  | CallOnGeneration n _ | CallShutdown n => Some n
  | GoMonitor _ _ | GoExpire _ _ => None
  end.
Definition spawned_as (t : goroutine) : option nat :=
  match t with GoMonitor k _ | GoExpire k _ => Some k | _ => None end.

(** Fewer than 2^64 - 1 requests are made: [nextStart] does not wrap. *)
Definition numbered (n : nat) : Prop := (Z.of_nat n < u64_modulus - 1)%Z.

Definition pf_system : @system world question answer goroutine env_move Empty_set reply := {|
  ready := answered;
  code := pf_code;
  enter := λ h, match h with end;
  env := environment;
  born := started_by;
  owner := spawned_as;
  caller := request;
  count := λ w, length (p_spawned w);
  callable := λ t, match request t with Some n => numbered n | None => False end;
  env_ok := answer_known |}.
End manager.
Arguments world F : clear implicits.
