(* ===== verification/PortForwardSafety.v ===== *)
(** * PortForwardSafety: what the port-forward manager guarantees

    The properties of the goroutines of [PortForward] under every interleaving, with the
    rely/guarantee logic of [Threads]: a tunnel is opened only for a valid request, after a
    review that allowed it and while its generation was current; the limit on sessions
    holds while sessions are replaced, and an object has at most one; a request that failed
    leaves nothing open; a port is bound again only after its old session released it; a
    session ends once; sessions of retired generations leave the map and are stopped. *)
From Stdlib Require Import Ascii String ZArith Lia.
From stdpp Require Import base gmap strings list sorting.
From S2P Require Import Prelude Json Topics Unicode Cursor Ports Retry Pagination Collect Catalogue Access Authorization Selection Actions Threads Idempotency PortForward.
Local Open Scope string_scope.
Local Open Scope list_scope.

Section safety.
Context {F : Type} `{!ActionErrors F} `{!DnsNames}.
Context (canonicalBodyHash : PortForwardCreateRequest → option string) (NewID : nat → option string)
  (arrange : list nat → list nat) (NewNotFound : string → F) (errActionsClientUnavailable : F)
  (duration retention : Z).
(** Walking a map visits every entry once. *)
Context (arrange_perm : ∀ l, arrange l ≡ₚ l).
Abbreviation err := (aerr F).
Abbreviation world := (world F).
Abbreviation sys := (pf_system (F := F) canonicalBodyHash NewID arrange NewNotFound
  errActionsClientUnavailable duration retention).

Implicit Types (s : world) (ev : option pf_event).

(** ** What holds of the state *)

(** [m] is an active session of the map, for the object [o]. *)
Definition live (o : portForwardOrigin) (m : nat) (t : table) : Prop :=
  (∃ id, tb_sessions t !! id = Some m)
  ∧ ∃ x, tb_objects t !! m = Some x ∧ active_session x = true ∧ dto_origin (ps_dto x) = o.
Definition vacant_but (l : list nat) (o : portForwardOrigin) (t : table) : Prop := ∀ m, live o m t → m ∈ l.
Definition vacant : portForwardOrigin → table → Prop := vacant_but [].
(** No session of the map is of the generation [g]. *)
Definition absent (g : string) (t : table) : Prop :=
  ∀ id m x, tb_sessions t !! id = Some m → tb_objects t !! m = Some x → dto_Generation (ps_dto x) ≠ g.

(** Request [n] uses the gate [g] of the object [o]; with [b], it holds the token. *)
Definition member (n : nat) (o : portForwardOrigin) (g : nat) (b : bool) (w : gates) : Prop :=
  ga_targets w !! o = Some g
  ∧ ∃ x, ga_objects w !! g = Some x ∧ n ∈ gt_members x ∧ (b = true ↔ gt_token x = Some n).
Definition outside (n : nat) (w : gates) : Prop :=
  ∀ g x, ga_objects w !! g = Some x → n ∉ gt_members x.

Definition only (n g : nat) (w : gates) : Prop :=
  ∀ g' x, ga_objects w !! g' = Some x → n ∈ gt_members x → g' = g.

Definition my_start (n : nat) (id : Z) (o : portForwardOrigin) (t : table) : Prop :=
  ∃ st, tb_starts t !! id = Some st ∧ st_request st = n ∧ st_origin st = o.
Definition no_start (n : nat) (t : table) : Prop :=
  ∀ id st, tb_starts t !! id = Some st → st_request st ≠ n.

(** What request [n] opened is closed again. *)
Definition closed (n : nat) (r : resources) : Prop := n ∉ re_listeners r ∧ n ∉ re_handles r.
Definition released (m : nat) (r : resources) : Prop := closed m r ∧ m ∈ re_canceled r.
Definition stopped (m : nat) (t : table) : Prop :=
  ∃ x, tb_objects t !! m = Some x ∧ ps_once x = OnceDone.

(** The slots in use: the starts, and the active sessions that no start replaces. *)
Definition unclaimed (o : portForwardOrigin) (t : table) : Prop :=
  map_Forall (λ _ st, st_origin st ≠ o) (tb_starts t).
Definition counted (t : table) (p : string * nat) : Prop :=
  match tb_objects t !! p.2 with
  | Some x => active_session x = true ∧ unclaimed (dto_origin (ps_dto x)) t
  | None => False
  end.
#[export] Instance counted_dec t p : Decision (counted t p).
Proof. unfold counted. destruct (_ !! _); [|apply _]. apply and_dec; [apply _|]. unfold unclaimed. apply _. Defined.
Definition load (t : table) : nat := (size (filter (counted t) (tb_sessions t)) + size (tb_starts t))%nat.

Definition reservers (l : list pf_event) : list nat :=
  omap (λ e, match e with PfReserved n _ => Some n | _ => None end) l.

Record pf_inv (s : world) : Prop := {
  pi_registry : registry_inv (p_now s) (w_idem s);
  pi_current : p_generation s ∉ p_retired s;
  pi_sessions : ∀ id m, p_sessions s !! id = Some m →
    ∃ x, p_objects s !! m = Some x ∧ dto_ID (ps_dto x) = id;
  pi_single : ∀ o m m', live o m (w_table s) → live o m' (w_table s) → m = m';
  pi_gates : ∀ g x, ga_objects (w_gates s) !! g = Some x →
    gt_users x = size (gt_members x) ∧ ∀ n, gt_token x = Some n → n ∈ gt_members x;
  pi_targets : ∀ o g, ga_targets (w_gates s) !! o = Some g → is_Some (ga_objects (w_gates s) !! g);
  pi_starts : ∀ id st, p_starts s !! id = Some st →
    ∃ g, member (st_request st) (st_origin st) g true (w_gates s);
  pi_one_start : ∀ id id' st st', p_starts s !! id = Some st → p_starts s !! id' = Some st' →
    st_request st = st_request st' → id = id';
  pi_counter : tb_nextStart (w_table s) = Z.of_nat (length (reservers (p_log s)))
    ∧ ∀ id st, p_starts s !! id = Some st → (id ≤ tb_nextStart (w_table s))%Z;
  pi_reservers : NoDup (reservers (p_log s)) ∧ Forall numbered (reservers (p_log s));
  pi_load : (load (w_table s) ≤ MaximumPortForwardSessions)%nat;
  pi_done : ∀ m x, p_objects s !! m = Some x → ps_once x = OnceDone → released m (w_res s) }.

(** ** What a step may change *)

Definition me (t : goroutine) : who :=
  match t with
  | CallCreate n _ _ _ _ | CallCreateService n _ _ _ _ | CallList n _ | CallClose n _ _ _
  | CallOnGeneration n _ | CallShutdown n => ByCall n
  | GoMonitor k _ | GoExpire k _ => BySpawned k
  end.

(** A session from one step to the next: it ends once, and [stopOnce] goes forward. *)
Record grown (a b : portForwardSession) : Prop := {
  gr_target : ps_target b = ps_target a;
  gr_dto : ps_dto b = ps_dto a
    ∨ active_session a = true ∧ ∃ status now, status ≠ PortForwardActive ∧ ps_dto b = dto_ended status now (ps_dto a);
  gr_done : ps_once a = OnceDone → ps_once b = OnceDone }.

Record objects_step (c : option nat) (t t' : table) : Prop := {
  os_grown : ∀ m a, tb_objects t !! m = Some a → ∃ b, tb_objects t' !! m = Some b ∧ grown a b;
  os_new : ∀ m b, tb_objects t' !! m = Some b → is_Some (tb_objects t !! m) ∨ c = Some m }.
Definition starts_step (c : option nat) (t t' : table) : Prop :=
  ∀ n, c ≠ Some n →
    (∀ id o, my_start n id o t → my_start n id o t') ∧ (no_start n t → no_start n t').
Record gates_step (c : option nat) (w w' : gates) : Prop := {
  gs_member : ∀ n o g b, c ≠ Some n → member n o g b w → member n o g b w';
  gs_outside : ∀ n, c ≠ Some n → outside n w → outside n w';
  gs_only : ∀ n g, c ≠ Some n → only n g w → only n g w';
  gs_new : ∀ g, is_Some (ga_objects w' !! g) → is_Some (ga_objects w !! g) ∨ c = Some g }.
Record io_step (c : option nat) (t : table) (r r' : resources) : Prop := {
  io_listeners : ∀ m, m ∈ re_listeners r' → m ∈ re_listeners r ∨ c = Some m ∧ tb_objects t !! m = None;
  io_handles : ∀ m, m ∈ re_handles r' → m ∈ re_handles r ∨ c = Some m ∧ tb_objects t !! m = None;
  io_canceled : re_canceled r ⊆ re_canceled r' }.
Definition log_step (c : option nat) (l l' : list pf_event) : Prop :=
  ∃ x, l' = l ++ x ∧ Forall (λ e, Some (pf_request e) = c) x.
Definition spawned_step (l l' : list (nat → goroutine)) : Prop :=
  ∃ x, l' = l ++ x ∧ ∀ k, Forall (λ g : nat → goroutine, me (g k) = BySpawned k) x.

Record pf_trans (u : option who) (s s' : world) : Prop := {
  pt_reg : registry_step (caller_of u) (w_idem s) (w_idem s');
  pt_now : (p_now s ≤ p_now s')%Z;
  pt_retired : p_retired s ⊆ p_retired s';
  pt_log : log_step (caller_of u) (p_log s) (p_log s');
  pt_spawned : spawned_step (p_spawned s) (p_spawned s');
  pt_objects : objects_step (caller_of u) (w_table s) (w_table s');
  pt_starts : starts_step (caller_of u) (w_table s) (w_table s');
  pt_gates : gates_step (caller_of u) (w_gates s) (w_gates s');
  pt_io : io_step (caller_of u) (w_table s) (w_res s) (w_res s');
  pt_vacant : ∀ n o g l, caller_of u ≠ Some n → member n o g true (w_gates s) →
    vacant_but l o (w_table s) → vacant_but l o (w_table s');
  pt_absent : ∀ g, g ∈ p_retired s → absent g (w_table s) → absent g (w_table s') }.

Lemma grown_refl a : grown a a.
Proof. split; auto. Qed.
Lemma objects_refl c t : objects_step c t t.
Proof. split; [intros m a Ha; exists a; split; [done|apply grown_refl]|intros m b Hb; left; by exists b]. Qed.
Lemma objects_same c t t' : tb_objects t' = tb_objects t → objects_step c t t'.
Proof. intros Ht. destruct (objects_refl c t) as [H1 H2]. split; by rewrite Ht. Qed.
Lemma starts_refl c t : starts_step c t t.
Proof. by intros n _. Qed.
Lemma gates_refl c w : gates_step c w w.
Proof. split; auto. Qed.
Lemma io_refl c t r : io_step c t r r.
Proof. split; auto. Qed.
Lemma log_refl c l : log_step c l l.
Proof. exists []. by rewrite app_nil_r. Qed.
Lemma spawned_refl l : spawned_step l l.
Proof. exists []. by rewrite app_nil_r. Qed.
Lemma log_event c l e : Some (pf_request e) = c → log_step c l (l ++ [e]).
Proof. intros He. exists [e]. split; [done|]. by constructor. Qed.

Create HintDb pf.
Hint Resolve registry_step_refl grown_refl objects_refl starts_refl gates_refl io_refl log_refl
  spawned_refl log_event Z.le_refl : pf.

Lemma grown_same a b : grown a b →
  dto_ID (ps_dto b) = dto_ID (ps_dto a) ∧ dto_origin (ps_dto b) = dto_origin (ps_dto a)
  ∧ (active_session b = true → active_session a = true).
Proof.
  unfold active_session. intros [_ [->|(Ha & st & now & Hst & ->)] _]; [done|]. by split_and!.
Qed.
Lemma origin_generation d d' : dto_origin d = dto_origin d' → dto_Generation d = dto_Generation d'.
Proof. by intros [=]. Qed.

(** ** Steps on the table *)

(** Sessions leave the map and end; what is new is not in the map. *)
Record shrinks (c : option nat) (t t' : table) : Prop := {
  sh_sessions : tb_sessions t' ⊆ tb_sessions t;
  sh_objects : objects_step c t t' }.

(** The sessions of the map are objects. *)
Definition sessions_ok (t : table) : Prop :=
  ∀ id m, tb_sessions t !! id = Some m → ∃ x, tb_objects t !! m = Some x ∧ dto_ID (ps_dto x) = id.

Lemma shrinks_lookup c t t' id m x :
  sessions_ok t → shrinks c t t' → tb_sessions t' !! id = Some m → tb_objects t' !! m = Some x →
  ∃ a, tb_sessions t !! id = Some m ∧ tb_objects t !! m = Some a ∧ grown a x.
Proof.
  intros Ht [Hs [Ho _]] Hid Hx. pose proof (lookup_weaken _ _ _ _ Hid Hs) as Hid0.
  destruct (Ht id m Hid0) as (a & Ha & _). destruct (Ho m a Ha) as (b & Hb & Hg). simplify_eq. by exists a.
Qed.
Lemma shrinks_ok c t t' : sessions_ok t → shrinks c t t' → sessions_ok t'.
Proof.
  intros Ht [Hs [Ho _]] id m Hid. destruct (Ht id m) as (a & Ha & He); [by eapply lookup_weaken|].
  destruct (Ho m a Ha) as (b & Hb & Hg). exists b. split; [done|]. by rewrite (proj1 (grown_same _ _ Hg)).
Qed.
Lemma shrinks_live c t t' o m : sessions_ok t → shrinks c t t' → live o m t' → live o m t.
Proof.
  intros Ht Hs ((id & Hid) & x & Hx & Ha & Ho). destruct (shrinks_lookup _ _ _ _ _ _ Ht Hs Hid Hx) as (a & H1 & H2 & Hg).
  destruct (grown_same _ _ Hg) as (_ & Horig & Hact). split; [by exists id|]. exists a.
  split_and!; [done|by apply Hact|congruence].
Qed.
Lemma shrinks_absent c t t' g : sessions_ok t → shrinks c t t' → absent g t → absent g t'.
Proof.
  intros Ht Hs Ha id m x Hid Hx. destruct (shrinks_lookup _ _ _ _ _ _ Ht Hs Hid Hx) as (a & H1 & H2 & Hg).
  destruct (grown_same _ _ Hg) as (_ & Horig & _). rewrite (origin_generation _ _ Horig). by eapply Ha.
Qed.

Lemma counted_live t id m : tb_sessions t !! id = Some m → counted t (id, m) →
  ∃ o, live o m t ∧ unclaimed o t.
Proof.
  intros Hid. unfold counted. simpl. destruct (tb_objects t !! m) as [x|] eqn:Hx; [|done]. intros [Ha Hu].
  exists (dto_origin (ps_dto x)). split; [|done]. split; [by exists id|]. by exists x.
Qed.
Lemma live_counted t o id m : tb_sessions t !! id = Some m → live o m t → unclaimed o t → counted t (id, m).
Proof. intros Hid (_ & x & Hx & Ha & <-) Hu. unfold counted. simpl. by rewrite Hx. Qed.

(** The sessions that count are some of those that counted, if no claim is given up. *)
Lemma shrinks_counted c t t' p :
  sessions_ok t → shrinks c t t' → (∀ o, unclaimed o t' → unclaimed o t) →
  tb_sessions t' !! p.1 = Some p.2 → counted t' p → counted t p.
Proof.
  destruct p as [id m]. intros Ht Hs Hu Hid Hc. destruct (counted_live _ _ _ Hid Hc) as (o & Hl & Ho).
  eapply live_counted; [by eapply lookup_weaken, sh_sessions|by eapply shrinks_live|by apply Hu].
Qed.
Lemma filter_mono {K A} `{Countable K} (P Q : K * A → Prop) `{!∀ x, Decision (P x), !∀ x, Decision (Q x)} (m m' : gmap K A) :
  m' ⊆ m → (∀ i x, m' !! i = Some x → Q (i, x) → P (i, x)) → filter Q m' ⊆ filter P m.
Proof.
  intros Hm HP. apply map_subseteq_spec. intros i x [Hi HQ]%map_lookup_filter_Some.
  apply map_lookup_filter_Some. split; [by eapply lookup_weaken|]. by apply HP.
Qed.
Lemma shrinks_load c t t' :
  sessions_ok t → shrinks c t t' → (∀ o, unclaimed o t' → unclaimed o t) →
  (size (tb_starts t') ≤ size (tb_starts t))%nat → (load t' ≤ load t)%nat.
Proof.
  intros Ht Hs Hu Hn. unfold load.
  pose proof (map_subseteq_size _ _ (filter_mono (counted t) (counted t') _ _ (sh_sessions _ _ _ Hs)
    (λ i x Hi, shrinks_counted _ _ _ (i, x) Ht Hs Hu Hi))). lia.
Qed.

(** The starts as others see them. *)
Definition shape (st : portForwardStart) : nat * portForwardOrigin := (st_request st, st_origin st).
Definition same_shape (t t' : table) : Prop :=
  ∀ id, shape <$> tb_starts t' !! id = shape <$> tb_starts t !! id.

Lemma shape_lookup t t' id st :
  same_shape t t' → tb_starts t' !! id = Some st →
  ∃ st0, tb_starts t !! id = Some st0 ∧ st_request st0 = st_request st ∧ st_origin st0 = st_origin st.
Proof.
  intros Hs Hid. specialize (Hs id). rewrite Hid in Hs. destruct (tb_starts t !! id) as [st0|]; [|done].
  simpl in Hs. injection Hs as H1 H2. by exists st0.
Qed.
Lemma same_shape_sym t t' : same_shape t t' → same_shape t' t.
Proof. intros Hs id. by rewrite Hs. Qed.
Lemma shape_unclaimed t t' o : same_shape t t' → unclaimed o t' → unclaimed o t.
Proof.
  intros Hs%same_shape_sym Hu id st Hid. destruct (shape_lookup _ _ _ _ Hs Hid) as (st' & Hid' & _ & <-).
  exact (Hu id st' Hid').
Qed.
Lemma shape_starts c t t' : same_shape t t' → starts_step c t t'.
Proof.
  intros Hs n _. split.
  - intros id o (st & Hid & <- & <-). destruct (shape_lookup _ _ _ _ (same_shape_sym _ _ Hs) Hid) as (st' & ? & ? & ?).
    by exists st'.
  - intros Hn id st Hid. destruct (shape_lookup _ _ _ _ Hs Hid) as (st' & Hid' & <- & _). by apply (Hn id).
Qed.
Lemma shape_size t t' : same_shape t t' → size (tb_starts t') = size (tb_starts t).
Proof.
  intros Hs. rewrite <- !size_dom. f_equal. apply set_eq. intros id. rewrite !elem_of_dom.
  specialize (Hs id). destruct (tb_starts t !! id), (tb_starts t' !! id); try done; naive_solver.
Qed.

(** ** The specification *)

(** This request's review allowed the access, and its generation was current afterwards. *)
Definition allowed (n : nat) (key : Key) (l : list pf_event) : Prop :=
  ∃ c, PfReviewed n key c ∈ l ∧ cap_Decision c = DecisionAllowed.
Definition cleared (n : nat) (key : Key) (g : string) (l : list pf_event) : Prop :=
  ∃ a b, l = a ++ PfCleared n g :: b ∧ allowed n key a.
Definition access_key (g namespace pod : string) (key : Key) : Prop :=
  KeyForCapability g namespace "pods.portforward.create" pod = Ok key.

(** The pod in the namespace of the route, in the selection of the request. *)
Definition pod_target (b : SelectionBinding) (route : RouteTarget) (name : string) : MutationTarget := {|
  mt_ClusterProfileID := bind_ClusterProfileID b; mt_Context := bind_Context b;
  mt_Generation := bind_Generation b; mt_Namespace := rt_Namespace route; mt_Kind := "Pod"; mt_Name := name |}.

(** The tunnel a request asks for, if it is valid: to the pod on the route, or to the pod
    that its Service was resolved to. *)
Definition asks_for (t : goroutine) (target : MutationTarget) (port : Z) (l : list pf_event) : Prop :=
  match t with
  | CallCreate _ b route key r =>
    validatePortForward (F := F) b route r = None ∧ validateIdempotencyKey (F := F) key = None
    ∧ target = pod_target b route (rt_Name route) ∧ port = pf_RemotePort r
  | CallCreateService n b route key r =>
    validateServicePortForward (F := F) b route r = None ∧ validateIdempotencyKey (F := F) key = None
    ∧ ∃ sv pods p name, PfResolved n sv pods ∈ l ∧ selected_port (pf_RemotePort r) sv = Some p
        ∧ backing_pod p pods = Some (name, port) ∧ target = pod_target b route name
  | _ => False
  end.
Definition binding_of (t : goroutine) : option (SelectionBinding * PortForwardCreateRequest) :=
  match t with
  | CallCreate _ b _ _ r | CallCreateService _ b _ _ r => Some (b, r)
  | _ => None
  end.
(** The slot of the tunnel is reserved. *)
Definition reserved (t : goroutine) (w : table) : Prop :=
  ∃ n b r id, me t = ByCall n ∧ binding_of t = Some (b, r) ∧ my_start n id (origin_of b r) w.

(** The sessions that a request replaces have released what they held. *)
Definition replaced (n : nat) (s : world) : Prop :=
  ∃ l, PfReplacing n l ∈ p_log s ∧ Forall (λ m, stopped m (w_table s)) l.

Definition pf_quiet (t : goroutine) (q : question) (s : world) : Prop :=
  match q with
  | AskListen n port => me t = ByCall n ∧ replaced n s ∧ reserved t (w_table s)
  | AskStart n target port =>
    me t = ByCall n ∧ asks_for t target port (p_log s) ∧ reserved t (w_table s)
    ∧ ∃ key, access_key (mt_Generation target) (mt_Namespace target) (mt_Name target) key
        ∧ cleared n key (mt_Generation target) (p_log s)
  | _ => True
  end.

Definition pf_unused (n : nat) (s : world) : Prop :=
  ir_objects (w_idem s) !! n = None ∧ (∀ e, e ∈ p_log s → pf_request e ≠ n) ∧ p_objects s !! n = None
  ∧ closed n (w_res s) ∧ no_start n (w_table s) ∧ outside n (w_gates s)
  ∧ ga_objects (w_gates s) !! n = None.

(** The session that a request made. *)
Definition made (n : nat) (dto : PortForwardDTO) (t : table) : Prop :=
  ∃ x, tb_objects t !! n = Some x
    ∧ (ps_dto x = dto ∨ ∃ status now, status ≠ PortForwardActive ∧ ps_dto x = dto_ended status now dto).
(** A request that ended: it holds no slot and no gate, and what it opened is closed or is
    the session's. *)
Definition settled (n : nat) (r : result err PortForwardDTO) (s : world) : Prop :=
  no_start n (w_table s) ∧ outside n (w_gates s)
  ∧ match r with Err _ => closed n (w_res s) | Ok dto => made n dto (w_table s) end.

Definition hooked (n : nat) (g : string) (removed : list nat) (s : world) : Prop :=
  (∃ R, PfHook n g R removed ∈ p_log s)
  ∧ ∀ R l, PfHook n g R l ∈ p_log s →
    l = removed ∧ R ⊆ p_retired s ∧ ∀ g', g' ∈ R → g' ≠ g → absent g' (w_table s).

(** A session that was closed on request, and has released what it held. *)
Definition closed_session (id generation : string) (s : world) : Prop :=
  ∃ m, stopped m (w_table s) ∧ ∃ x, p_objects s !! m = Some x ∧ dto_ID (ps_dto x) = id
    ∧ dto_Generation (ps_dto x) = generation ∧ dto_Status (ps_dto x) = PortForwardClosed.

Definition pf_post (t : goroutine) (r : @reply F) (s : world) : Prop :=
  match t, r with
  | (CallCreate n _ _ _ _ | CallCreateService n _ _ _ _), CreateReply x =>
    match x with
    | Ok (dto, false) => settled n (Ok dto) s
    | Ok (dto, true) => no_start n (w_table s) ∧ outside n (w_gates s) ∧ closed n (w_res s)
    | Err e => settled n (Err e) s
    end
  | CallOnGeneration n g, Finished =>
    ∃ l, hooked n g l s ∧ Forall (λ m, stopped m (w_table s)) l
  | CallClose _ b id _, CloseReply (Ok _) => closed_session id (bind_Generation b) s
  | (CallCreate _ _ _ _ _ | CallCreateService _ _ _ _ _ | CallOnGeneration _ _), _ => False
  | _, _ => True
  end.

Definition pf_spec : @spec world question goroutine Empty_set (@reply F) := {|
  invariant := pf_inv;
  trans := λ u s s', pf_trans (me <$> u) s s';
  quiet := pf_quiet;
  pre := λ t s, ∀ n, request t = Some n → pf_unused n s ∧ numbered n;
  at_head := λ _ (h : Empty_set) _, match h with end;
  post := pf_post;
  unused := pf_unused |}.

Abbreviation psafe := (safe sys pf_spec).
Abbreviation pstep := (step_ok sys pf_spec).
Abbreviation mine := (kept pf_trans).

(** ** Obligations of a step *)

(** No goroutine is started. *)
Lemma calm_born (s s' : world) : p_spawned s' = p_spawned s → Forall (λ t, pre pf_spec t s') (born sys s s').
Proof. intros Hs. simpl. unfold started_by. rewrite Hs, drop_all. constructor. Qed.

Lemma starts_inv_transfer s s' :
  pf_inv s → w_gates s' = w_gates s → same_shape (w_table s) (w_table s') →
  (∀ id st, p_starts s' !! id = Some st → ∃ g, member (st_request st) (st_origin st) g true (w_gates s'))
  ∧ (∀ id id' st st', p_starts s' !! id = Some st → p_starts s' !! id' = Some st' →
       st_request st = st_request st' → id = id').
Proof.
  intros Hi Hg Hs. split.
  - intros id st Hid. destruct (shape_lookup _ _ _ _ Hs Hid) as (st0 & H0 & <- & <-). rewrite Hg. by eapply pi_starts.
  - intros id id' st st' Hid Hid' Heq. destruct (shape_lookup _ _ _ _ Hs Hid) as (a & Ha & Hra & _).
    destruct (shape_lookup _ _ _ _ Hs Hid') as (a' & Ha' & Hra' & _).
    eapply (pi_one_start _ Hi); [exact Ha|exact Ha'|congruence].
Qed.

(** What the rest of the state has to do with a step on the table. *)
Record table_only (s s' : world) (ev : option pf_event) : Prop := {
  to_env : w_env s' = w_env s;
  to_gates : w_gates s' = w_gates s;
  to_res : w_res s' = w_res s;
  to_idem : w_idem s' = w_idem s;
  to_spawned : p_spawned s' = p_spawned s;
  to_log : p_log s' = p_log s ++ option_list ev }.

(** The obligations that are left when the table shrinks. *)
Record table_parts (c : option nat) (s s' : world) : Prop := {
  tp_shrinks : shrinks c (w_table s) (w_table s');
  tp_starts : starts_step c (w_table s) (w_table s');
  tp_holders : ∀ id st, p_starts s' !! id = Some st →
    ∃ g, member (st_request st) (st_origin st) g true (w_gates s');
  tp_one : ∀ id id' st st', p_starts s' !! id = Some st → p_starts s' !! id' = Some st' →
    st_request st = st_request st' → id = id';
  tp_counter : tb_nextStart (w_table s') = Z.of_nat (length (reservers (p_log s')))
    ∧ ∀ id st, p_starts s' !! id = Some st → (id ≤ tb_nextStart (w_table s'))%Z;
  tp_reservers : NoDup (reservers (p_log s')) ∧ Forall numbered (reservers (p_log s'));
  tp_load : (load (w_table s') ≤ MaximumPortForwardSessions)%nat;
  tp_done : ∀ m x, p_objects s' !! m = Some x → ps_once x = OnceDone → released m (w_res s') }.

Lemma table_step t s s' ev :
  pf_inv s → table_only s s' ev → (∀ e, ev = Some e → Some (pf_request e) = caller_of (Some (me t))) →
  table_parts (caller_of (Some (me t))) s s' → pstep (Some t) s s'.
Proof.
  intros Hi [He Hg Hr Hd Hsp Hl] Hev [Hsh Hst Hho Hon Hco Hre Hlo Hdo].
  assert (p_now s' = p_now s) as Hnow by (unfold p_now; by rewrite He).
  assert (p_retired s' = p_retired s) as Hret by (unfold p_retired; by rewrite He).
  pose proof (pi_sessions _ Hi) as Hses. split_and!.
  - split; rewrite ?Hnow, ?Hret, ?Hg, ?Hd; try apply Hi; try done.
    + unfold p_generation. rewrite He. apply Hi.
    + eapply (shrinks_ok _ (w_table s)); [exact Hses|exact Hsh].
    + intros o m m' H1 H2. apply (pi_single _ Hi o); by eapply shrinks_live.
    + rewrite <- Hg. done.
  - split; rewrite ?Hnow, ?Hret, ?Hg, ?Hd, ?Hr, ?Hsp; auto with pf.
    + rewrite Hl. destruct ev as [e|]; simpl; [apply log_event, Hev; done|rewrite app_nil_r; apply log_refl].
    + apply Hsh.
    + intros n o g l _ _ Hv m Hm. eapply Hv, shrinks_live; [exact Hses|done|done].
    + intros g _. by eapply shrinks_absent.
  - by apply calm_born.
Qed.

(** The starts keep their shape, and the log has no reservation more. *)
Lemma calm_table t s s' ev :
  pf_inv s → table_only s s' ev → (∀ e, ev = Some e → Some (pf_request e) = caller_of (Some (me t))) →
  reservers (option_list ev) = [] → tb_nextStart (w_table s') = tb_nextStart (w_table s) →
  shrinks (caller_of (Some (me t))) (w_table s) (w_table s') → same_shape (w_table s) (w_table s') →
  (∀ m x, p_objects s' !! m = Some x → ps_once x = OnceDone →
     (∃ a, p_objects s !! m = Some a ∧ ps_once a = OnceDone) ∨ released m (w_res s)) →
  pstep (Some t) s s'.
Proof.
  intros Hi Ho Hev Hres Hnext Hsh Hshape Hdone. apply (table_step t s s' ev); [done..|].
  assert (reservers (p_log s') = reservers (p_log s)) as Hreq.
  { unfold reservers in *. rewrite (to_log _ _ _ Ho), omap_app, Hres. apply app_nil_r. }
  destruct (starts_inv_transfer s s' Hi (to_gates _ _ _ Ho) Hshape) as [H1 H2].
  split; try done; rewrite ?Hreq, ?Hnext.
  - by apply shape_starts.
  - destruct (pi_counter _ Hi) as [Hc Hid]. split; [done|]. intros id st Hst.
    destruct (shape_lookup _ _ _ _ Hshape Hst) as (st0 & H0 & _). by eapply Hid.
  - apply Hi.
  - etrans; [|apply (pi_load _ Hi)]. eapply shrinks_load; [exact (pi_sessions _ Hi)|exact Hsh| |].
    + intros o. by apply shape_unclaimed.
    + by rewrite (shape_size _ _ Hshape).
  - intros m x Hx Hd. rewrite (to_res _ _ _ Ho). destruct (Hdone m x Hx Hd) as [(a & Ha & Hda)|?]; [|done].
    by eapply pi_done.
Qed.

(** ** Steps on the rest of the state *)

(** The gates after a step of [c]: who holds a token for a start keeps it. *)
Record gates_parts (c : option nat) (s : world) (g' : gates) : Prop := {
  gp_step : gates_step c (w_gates s) g';
  gp_users : ∀ g x, ga_objects g' !! g = Some x →
    gt_users x = size (gt_members x) ∧ ∀ n, gt_token x = Some n → n ∈ gt_members x;
  gp_targets : ∀ o g, ga_targets g' !! o = Some g → is_Some (ga_objects g' !! g);
  gp_own : ∀ n, c = Some n → no_start n (w_table s) ∨ ∀ o g, member n o g true (w_gates s) → member n o g true g' }.

Lemma gates_same c s : pf_inv s → gates_parts c s (w_gates s).
Proof. intros Hi. split; [apply gates_refl|apply Hi|apply Hi|]. intros n _. right. done. Qed.

Record rest_parts (c : option nat) (s s' : world) (ev : option pf_event) : Prop := {
  rp_table : w_table s' = w_table s;
  rp_reg : registry_inv (p_now s') (w_idem s') ∧ registry_step c (w_idem s) (w_idem s');
  rp_now : (p_now s ≤ p_now s')%Z;
  rp_retired : p_retired s ⊆ p_retired s' ∧ p_generation s' ∉ p_retired s';
  rp_gates : gates_parts c s (w_gates s');
  rp_io : io_step c (w_table s) (w_res s) (w_res s');
  rp_log : p_log s' = p_log s ++ option_list ev ∧ reservers (option_list ev) = [];
  rp_event : ∀ e, ev = Some e → Some (pf_request e) = c }.

Lemma rest_invariant u s s' ev :
  pf_inv s → rest_parts (caller_of u) s s' ev → spawned_step (p_spawned s) (p_spawned s') →
  pf_inv s' ∧ pf_trans u s s'.
Proof.
  intros Hi [Ht [Hr Hrs] Hn [Hre Hg] [Hgs Hgu Hgt Hown] [Hli Hha Hca] [Hl Hno] Hev] Hsp.
  assert (reservers (p_log s') = reservers (p_log s)) as Hreq.
  { unfold reservers in *. rewrite Hl, omap_app, Hno. apply app_nil_r. }
  assert (∀ m, closed m (w_res s) → is_Some (p_objects s !! m) → closed m (w_res s')) as Hcl.
  { intros m [H1 H2] [x Hx]. split; [intros Hin; destruct (Hli m Hin) as [?|[_ Hx']]|intros Hin; destruct (Hha m Hin) as [?|[_ Hx']]];
      try done; unfold p_objects in Hx; congruence. }
  split; [split|split]; unfold p_objects, p_sessions, p_starts in *; rewrite ?Ht, ?Hreq; try apply Hi; try done; auto with pf.
  - intros id st Hid. destruct (pi_starts _ Hi id st Hid) as [g Hm]. exists g.
    destruct (decide (caller_of u = Some (st_request st))) as [Hc|Hc]; [|by apply (gs_member _ _ _ Hgs)].
    destruct (Hown _ Hc) as [Hns|Hk]; [by destruct (Hns id st Hid)|by apply Hk].
  - intros m x Hx Hd. destruct (pi_done _ Hi m x Hx Hd) as [Hc Hin]. split; [|by apply Hca]. eapply Hcl; [done|by exists x].
  - rewrite Hl. destruct ev as [e|]; simpl; [by apply log_event, Hev|rewrite app_nil_r; apply log_refl].
Qed.

Lemma rest_step t s s' ev :
  pf_inv s → rest_parts (caller_of (Some (me t))) s s' ev → p_spawned s' = p_spawned s → pstep (Some t) s s'.
Proof.
  intros Hi Hp Hsp. destruct (rest_invariant (Some (me t)) s s' ev Hi Hp) as [H1 H2].
  { rewrite Hsp. apply spawned_refl. }
  split_and!; [done|done|by apply calm_born].
Qed.

Lemma pf_stay_ok t s : pf_inv s → pstep (Some t) s s.
Proof.
  intros Hi. apply (rest_step t s s None Hi); [|done]. split; auto with pf.
  - split; [apply Hi|apply registry_step_refl].
  - split; [done|apply Hi].
  - exact (gates_same _ s Hi).
  - split; [symmetry; apply app_nil_r|done].
  - done.
Qed.

(** The log, the audit log, and the resources. *)
Lemma pf_emit_ok t s e :
  pf_inv s → Some (pf_request e) = caller_of (Some (me t)) → reservers [e] = [] → pstep (Some t) s (emit e s).
Proof.
  intros Hi He Hr. apply (rest_step t s _ (Some e) Hi); [|done]. split; auto with pf; try done.
  - split; [apply Hi|apply registry_step_refl].
  - split; [done|apply Hi].
  - exact (gates_same _ s Hi).
  - by intros e' [= <-].
Qed.
Lemma pf_audit_ok t s e : pf_inv s → pstep (Some t) s (add_audit e s).
Proof.
  intros Hi. apply (rest_step t s _ None Hi); [|done]. split; auto with pf; try done.
  - split; [apply Hi|apply registry_step_refl].
  - split; [done|apply Hi].
  - exact (gates_same _ s Hi).
  - split; [symmetry; apply app_nil_r|done].
Qed.
Lemma res_ok t s f :
  pf_inv s → io_step (caller_of (Some (me t))) (w_table s) (w_res s) (f (w_res s)) → pstep (Some t) s (on_res f s).
Proof.
  intros Hi Hio. apply (rest_step t s _ None Hi); [|done]. split; auto with pf; try done.
  - split; [apply Hi|apply registry_step_refl].
  - split; [done|apply Hi].
  - exact (gates_same _ s Hi).
  - split; [symmetry; apply app_nil_r|done].
Qed.
Lemma gates_ok t s g :
  pf_inv s → gates_parts (caller_of (Some (me t))) s g → pstep (Some t) s (set_gates g s).
Proof.
  intros Hi Hg. apply (rest_step t s _ None Hi); [|done]. split; auto with pf; try done.
  - split; [apply Hi|apply registry_step_refl].
  - split; [done|apply Hi].
  - split; [symmetry; apply app_nil_r|done].
Qed.
Lemma idem_ok t s r :
  pf_inv s → registry_inv (p_now s) r → registry_step (caller_of (Some (me t))) (w_idem s) r →
  pstep (Some t) s (set_idem r s).
Proof.
  intros Hi Hr Hs. apply (rest_step t s _ None Hi); [|done]. split; auto with pf; try done.
  - split; [done|apply Hi].
  - exact (gates_same _ s Hi).
  - split; [symmetry; apply app_nil_r|done].
Qed.

(** ** Steps on the table *)

Lemma table_only_intro s f : table_only s (on_table f s) None.
Proof. split; try done. symmetry. apply app_nil_r. Qed.

Lemma same_shape_refl t : same_shape t t.
Proof. by intros id. Qed.

Lemma objects_alter c t m f :
  (∀ a, tb_objects t !! m = Some a → grown a (f a)) →
  objects_step c t (set_objects (alter f m (tb_objects t)) t).
Proof.
  intros Hf. split; simpl.
  - intros m' a Ha. destruct (decide (m' = m)) as [->|Hne].
    + exists (f a). rewrite lookup_alter_eq, Ha. split; [done|by apply Hf].
    + exists a. rewrite lookup_alter_ne by done. split; [done|apply grown_refl].
  - intros m' b Hb. left. apply (lookup_alter_is_Some f _ m). by exists b.
Qed.

(** A session object changes, and sessions leave the map. *)
Lemma object_table t s sess m f :
  pf_inv s → sess ⊆ p_sessions s →
  (∀ a, p_objects s !! m = Some a →
     grown a (f a) ∧ (ps_once (f a) = OnceDone → ps_once a = OnceDone ∨ released m (w_res s))) →
  pstep (Some t) s (on_table (λ t, set_objects (alter f m (tb_objects t)) (set_sessions sess t)) s).
Proof.
  intros Hi Hs Hf. eapply (calm_table t s _ None Hi); try done.
  - apply table_only_intro.
  - split; [done|]. destruct (objects_alter (caller_of (Some (me t))) (w_table s) m f) as [H1 H2];
      [intros a Ha; by apply Hf|]. split; done.
  - simpl. intros m' x Hx Hd. unfold p_objects in *. simpl in Hx. destruct (decide (m' = m)) as [->|Hne].
    + rewrite lookup_alter_eq in Hx. destruct (tb_objects (w_table s) !! m) as [a|] eqn:Ha; [|done].
      simplify_eq/=. destruct (Hf a eq_refl) as [_ Hx]. destruct (Hx Hd); [left; by exists a|by right].
    + rewrite lookup_alter_ne in Hx by done. left. by exists x.
Qed.
Lemma on_object_ok t s m f :
  pf_inv s →
  (∀ a, p_objects s !! m = Some a →
     grown a (f a) ∧ (ps_once (f a) = OnceDone → ps_once a = OnceDone ∨ released m (w_res s))) →
  pstep (Some t) s (on_object m f s).
Proof. intros Hi Hf. exact (object_table t s (p_sessions s) m f Hi ltac:(done) Hf). Qed.

Lemma grown_timer a b : grown a (with_timer b a).
Proof. split; auto. Qed.
Lemma grown_once a o : (ps_once a = OnceDone → o = OnceDone) → grown a (with_once o a).
Proof. split; auto. Qed.
Lemma grown_ended a status now :
  active_session a = true → status ≠ PortForwardActive → grown a (with_dto (dto_ended status now (ps_dto a)) a).
Proof. intros Ha Hs. split; [done| |done]. right. split; [done|]. by exists status, now. Qed.

Definition pruned now (w : world) : gmap string nat := p_sessions (pruneLocked retention now w).
Lemma pruned_subseteq now s : pruned now s ⊆ p_sessions s.
Proof. apply map_filter_subseteq. Qed.

Lemma prune_ok t s now : pf_inv s → pstep (Some t) s (pruneLocked retention now s).
Proof.
  intros Hi. eapply (calm_table t s _ None Hi); try done.
  - apply table_only_intro.
  - split; [apply pruned_subseteq|]. by apply objects_same.
  - intros m x Hx Hd. left. by exists x.
Qed.

(** The critical sections of [finish] and of [Close]. *)
Lemma end_session_ok t s id status :
  pf_inv s → status ≠ PortForwardActive → pstep (Some t) s (end_session id status s).2.
Proof.
  intros Hi Hst. unfold end_session.
  destruct (p_sessions s !! id) as [m|] eqn:Hid; simpl; [|by apply pf_stay_ok].
  destruct (p_objects s !! m) as [x|] eqn:Hx; simpl; [|by apply pf_stay_ok].
  unfold is_active. rewrite Hx. destruct (bool_decide _) eqn:Ha; simpl; [|by apply pf_stay_ok].
  apply on_object_ok; [done|]. intros a Ha'. simplify_eq. split; [by apply grown_ended|by left].
Qed.
Lemma close_session_ok t s id g : pf_inv s → pstep (Some t) s (close_session retention id g s).2.
Proof.
  intros Hi. unfold close_session. set (w := pruneLocked retention (p_now s) s).
  destruct (p_sessions w !! id) as [m|] eqn:Hid; simpl; [|by apply prune_ok].
  destruct (p_objects w !! m) as [x|] eqn:Hx; simpl; [|by apply prune_ok].
  destruct (negb (String.eqb _ g)); [by apply prune_ok|].
  destruct (active_session x) eqn:Ha; simpl; [|by apply prune_ok].
  refine (object_table t s (pruned (p_now s) s) m _ Hi (pruned_subseteq _ _) _).
  intros a Ha'. change (p_objects w) with (p_objects s) in Hx. simplify_eq. split; [by apply grown_ended|by left].
Qed.

(** The request makes its session. *)
Lemma alloc_ok t s n x :
  pf_inv s → me t = ByCall n → p_objects s !! n = None → ps_once x = OnceNew →
  pstep (Some t) s (on_table (λ t, set_objects (<[n := x]> (tb_objects t)) t) s).
Proof.
  intros Hi Hn Hnone Hx. unfold p_objects in *. eapply (calm_table t s _ None Hi); try done.
  - apply table_only_intro.
  - split; [done|]. split; simpl.
    + intros m a Ha. exists a. rewrite lookup_insert_ne by congruence. split; [done|apply grown_refl].
    + intros m b. rewrite lookup_insert_Some. intros [[<- <-]|[_ Hb]]; [right; by rewrite Hn|left; by exists b].
  - intros m y Hy Hd. unfold p_objects in Hy. simpl in Hy. apply lookup_insert_Some in Hy as [[<- <-]|[_ Hy]]; [congruence|].
    left. by exists y.
Qed.

Lemma attach_ok t s n id : pf_inv s → pstep (Some t) s (attach n id s).2.
Proof.
  intros Hi. unfold attach. destruct (p_starts s !! id) as [st|] eqn:Hst; simpl; [|by apply pf_stay_ok].
  eapply (calm_table t s _ None Hi); try done.
  - apply table_only_intro.
  - split; [done|by apply objects_same].
  - intros id'. unfold put_starts. simpl. destruct (decide (id' = id)) as [->|Hne].
    + rewrite lookup_insert_eq. unfold p_starts in Hst. by rewrite Hst.
    + by rewrite lookup_insert_ne.
  - intros m x Hx Hd. left. by exists x.
Qed.

(** [OnGeneration] and [Shutdown]: starts become stale, sessions leave the map. *)
Lemma retire_ok t s P Q shutdown ev :
  pf_inv s → (∀ e, ev = Some e → Some (pf_request e) = caller_of (Some (me t))) → reservers (option_list ev) = [] →
  pstep (Some t) s (match ev with Some e => emit e (retire P Q shutdown s) | None => retire P Q shutdown s end).
Proof.
  intros Hi He Hr. eapply (calm_table t s _ ev Hi).
  - destruct ev as [e|]; [split; done|apply table_only_intro].
  - done.
  - done.
  - by destruct ev.
  - destruct ev as [e|]; (split; [apply map_filter_subseteq|by apply objects_same]).
  - intros id. assert (∀ o : option portForwardStart, shape <$> ((λ st, if P st then stale st else st) <$> o) = shape <$> o) as Ho.
    { intros [st|]; simpl; [|done]. by destruct (P st). }
    destruct ev as [e|]; simpl; rewrite lookup_fmap; apply Ho.
  - intros m x Hx Hd. left. exists x. by destruct ev.
Qed.

(** ** Two steps in one critical section *)

Lemma grown_trans a b c : grown a b → grown b c → grown a c.
Proof.
  intros Hab Hbc. destruct (grown_same _ _ Hab) as (_ & _ & Hact). destruct Hab as [T1 D1 O1], Hbc as [T2 D2 O2]. split.
  - congruence.
  - destruct D2 as [->|(Hb & st & now & Hst & ->)]; [exact D1|]. right. split; [by apply Hact|]. exists st, now.
    split; [done|]. by destruct D1 as [->|(_ & st' & now' & _ & ->)].
  - auto.
Qed.
Lemma registry_step_trans c (r r' r'' : idempotencyRegistry F PortForwardDTO) :
  registry_step c r r' → registry_step c r' r'' → registry_step c r r''.
Proof.
  intros (T1 & (l & L1) & O1) (T2 & (l' & L2) & O2). split_and!; [congruence| |].
  - exists (l ++ l'). by rewrite L2, L1, app_assoc.
  - intros m Hm. rewrite O2 by done. by apply O1.
Qed.
Lemma trans_trans u s1 s2 s3 : pf_trans u s1 s2 → pf_trans u s2 s3 → pf_trans u s1 s3.
Proof.
  intros [R1 N1 E1 L1 S1 O1 T1 G1 I1 V1 A1] [R2 N2 E2 L2 S2 O2 T2 G2 I2 V2 A2]. split.
  - by eapply registry_step_trans.
  - lia.
  - set_solver.
  - destruct L1 as (x & Lx & Hx), L2 as (y & Ly & Hy). exists (x ++ y).
    rewrite Ly, Lx, app_assoc. split; [done|by apply Forall_app].
  - destruct S1 as (x & Lx & Hx), S2 as (y & Ly & Hy). exists (x ++ y).
    rewrite Ly, Lx, app_assoc. split; [done|]. intros k. by apply Forall_app.
  - destruct O1 as [P1 Q1], O2 as [P2 Q2]. split.
    + intros m a Ha. destruct (P1 m a Ha) as (b & Hb & Hab). destruct (P2 m b Hb) as (d & Hd & Hbd).
      exists d. split; [done|by eapply grown_trans].
    + intros m b Hb. destruct (Q2 m b Hb) as [[a Ha]|Hc]; [by eapply Q1|by right].
  - intros n Hn. destruct (T1 n Hn), (T2 n Hn). auto.
  - destruct G1 as [P1 Q1 O1' W1], G2 as [P2 Q2 O2' W2]. split; [auto|auto|auto|]. intros g Hg. destruct (W2 g Hg) as [?|?]; auto.
  - destruct I1 as [P1 Q1 W1], I2 as [P2 Q2 W2]. assert (∀ m, tb_objects (w_table s2) !! m = None → tb_objects (w_table s1) !! m = None) as Hno.
    { intros m Hm. destruct (tb_objects (w_table s1) !! m) as [a|] eqn:Ha; [|done].
      destruct (os_grown _ _ _ O1 m a Ha) as (b & Hb & _). congruence. }
    split; [| |set_solver].
    + intros m Hm. destruct (P2 m Hm) as [?|[? ?]]; [by apply P1|right; auto].
    + intros m Hm. destruct (Q2 m Hm) as [?|[? ?]]; [by apply Q1|right; auto].
  - intros n o g l Hn Hm Hv. eapply V2; [done| |by eapply V1]. by apply (gs_member _ _ _ G1).
  - intros g Hg Ha. apply A2; [by apply E1|by apply A1].
Qed.
Lemma pstep_trans t s1 s2 s3 :
  pstep (Some t) s1 s2 → pstep (Some t) s2 s3 → p_spawned s3 = p_spawned s1 → pstep (Some t) s1 s3.
Proof.
  intros (_ & T1 & _) (I2 & T2 & _) Hs. split_and!; [done|exact (trans_trans _ _ _ _ T1 T2)|by apply calm_born].
Qed.

(** ** Counting slots *)

Lemma bounded_length (k : Z) (l : list nat) :
  (0 ≤ k)%Z → NoDup l → Forall (λ n, (Z.of_nat n < k)%Z) l → (Z.of_nat (length l) ≤ k)%Z.
Proof.
  intros Hk Hl Hb. assert (l ⊆+ seq 0 (Z.to_nat k)) as Hsub.
  { apply NoDup_submseteq; [done|]. intros n Hn. rewrite Forall_forall in Hb. specialize (Hb n Hn).
    apply elem_of_seq. lia. }
  apply submseteq_length in Hsub. rewrite length_seq in Hsub. lia.
Qed.

Lemma length_filter_snd {A B} (P : B → Prop) `{!∀ x, Decision (P x)} (l : list (A * B)) :
  length (filter P l.*2) = length (filter (λ p, P p.2) l).
Proof.
  induction l as [|[a b] l IH]; [done|]. rewrite fmap_cons, !filter_cons. simpl.
  destruct (decide (P b)); simpl; by rewrite IH.
Qed.
Lemma sessions_with_size P s :
  length (sessions_with P s)
  = size (filter (λ p : string * nat, match p_objects s !! p.2 with Some x => P x | None => false end = true) (p_sessions s)).
Proof.
  unfold sessions_with. rewrite length_filter_snd, map_filter_alt. rewrite <- length_map_to_list.
  symmetry. apply Permutation_length, map_to_list_to_map.
  eapply sublist_NoDup; [apply (NoDup_fst_map_to_list (p_sessions s))|apply fmap_sublist, sublist_filter].
Qed.
Lemma sessions_with_elem P s m :
  m ∈ sessions_with P s ↔ ∃ id x, p_sessions s !! id = Some m ∧ p_objects s !! m = Some x ∧ P x = true.
Proof.
  unfold sessions_with. rewrite list_elem_of_filter, list_elem_of_fmap. split.
  - intros [HP ([id m'] & -> & Hin%elem_of_map_to_list)]. simpl in *.
    destruct (p_objects s !! m') as [x|] eqn:Hx; [|done]. by exists id, x.
  - intros (id & x & Hid & Hx & HP). rewrite Hx. split; [done|]. exists (id, m). by rewrite elem_of_map_to_list.
Qed.

(** Giving up a start frees the session it was to replace. *)
Lemma drop_counted t id st p :
  tb_starts t !! id = Some st → counted (put_starts (delete id (tb_starts t)) t) p →
  counted t p ∨ ∃ x, tb_objects t !! p.2 = Some x ∧ active_session x = true ∧ dto_origin (ps_dto x) = st_origin st.
Proof.
  intros Hst. unfold counted. simpl. destruct (tb_objects t !! p.2) as [x|] eqn:Hx; [|done]. intros [Ha Hu].
  destruct (decide (st_origin st = dto_origin (ps_dto x))) as [Heq|Hne]; [right; by exists x|left].
  split; [done|]. intros id' st' Hid'. destruct (decide (id' = id)) as [->|Hid]; [by simplify_eq|].
  apply (Hu id'). simpl. by rewrite lookup_delete_ne.
Qed.
Lemma drop_filter t id st :
  tb_starts t !! id = Some st → vacant (st_origin st) t →
  filter (counted (put_starts (delete id (tb_starts t)) t)) (tb_sessions t) ⊆ filter (counted t) (tb_sessions t).
Proof.
  intros Hst Hv. apply filter_mono; [done|]. intros i m Hi Hc.
  destruct (drop_counted _ _ _ _ Hst Hc) as [?|(x & Hx & Ha & Ho)]; [done|]. exfalso. apply (not_elem_of_nil m), Hv.
  split; [by exists i|]. by exists x.
Qed.
Lemma size_delete_le {A} (m : gmap string A) i : (size m ≤ S (size (delete i m)))%nat.
Proof. rewrite map_size_delete. destruct (m !! i); unfold id; lia. Qed.
Lemma drop_load t id st :
  sessions_ok t → (∀ o m m', live o m t → live o m' t → m = m') → tb_starts t !! id = Some st →
  (load (put_starts (delete id (tb_starts t)) t) ≤ load t)%nat.
Proof.
  intros Hok Hs Hst. unfold load. simpl. set (t' := put_starts _ t).
  assert (size (delete id (tb_starts t)) = pred (size (tb_starts t)) ∧ size (tb_starts t) ≠ 0%nat) as [-> Hpos].
  { rewrite map_size_delete, Hst. split; [done|]. intros H0%map_size_empty_inv. by rewrite H0 in Hst. }
  destruct (decide (filter (counted t') (tb_sessions t) ⊆ filter (counted t) (tb_sessions t))) as [Hsub|Hn].
  { apply map_subseteq_size in Hsub. lia. }
  assert (∃ i0 m0, tb_sessions t !! i0 = Some m0 ∧ live (st_origin st) m0 t) as (i0 & m0 & Hi0 & Hl0).
  { destruct (map_choose (filter (λ p, ¬ counted t p) (filter (counted t') (tb_sessions t)))) as (i0 & m0 & Hin).
    - intros He. apply Hn. apply map_subseteq_spec. intros i m Hi.
      destruct (decide (counted t (i, m))) as [Hc|Hc].
      + apply map_lookup_filter_Some. apply map_lookup_filter_Some in Hi. naive_solver.
      + assert (filter (λ p, ¬ counted t p) (filter (counted t') (tb_sessions t)) !! i = Some m) as Hx
          by (by apply map_lookup_filter_Some). by rewrite He in Hx.
    - apply map_lookup_filter_Some in Hin as [[Hin Hc']%map_lookup_filter_Some Hc]. exists i0, m0. split; [done|].
      destruct (drop_counted _ _ _ _ Hst Hc') as [?|(x & Hx & Ha & Ho)]; [done|]. split; [by exists i0|]. by exists x. }
  assert (delete i0 (filter (counted t') (tb_sessions t)) ⊆ filter (counted t) (tb_sessions t)) as Hsub.
  { apply map_subseteq_spec. intros i m [Hne [Hi Hc']%map_lookup_filter_Some]%lookup_delete_Some.
    apply map_lookup_filter_Some. split; [done|].
    destruct (drop_counted _ _ _ _ Hst Hc') as [?|(x & Hx & Ha & Ho)]; [done|]. exfalso. apply Hne.
    assert (m = m0) as -> by (apply (Hs (st_origin st)); [split; [by exists i|by exists x]|done]).
    destruct (Hok i0 m0 Hi0) as (y & Hy & <-), (Hok i m0 Hi) as (z & Hz & <-). congruence. }
  apply map_subseteq_size in Hsub. pose proof (size_delete_le (filter (counted t') (tb_sessions t)) i0). lia.
Qed.

Lemma pf_drop_ok t s n id o :
  pf_inv s → me t = ByCall n → my_start n id o (w_table s) →
  pstep (Some t) s (on_table (put_starts (delete id (p_starts s))) s).
Proof.
  intros Hi Hn (st & Hst & Hr & Ho). apply (table_step t s _ None Hi); [apply table_only_intro|done|]. rewrite Hn.
  assert (∀ id' st', delete id (p_starts s) !! id' = Some st' → p_starts s !! id' = Some st') as Hdel.
  { by intros id' st' [_ ?]%lookup_delete_Some. }
  split; simpl; unfold p_starts in *; simpl.
  - split; [done|by apply objects_same].
  - intros n' Hne. split.
    + intros id' o' (st' & Hst' & Hr' & Ho'). exists st'. split; [|done]. simpl. rewrite lookup_delete_ne; [done|].
      intros ->. by simplify_eq.
    + intros Hns id' st' Hst'%Hdel. by eapply Hns.
  - intros id' st' Hst'%Hdel. by eapply pi_starts.
  - intros i j a b Ha%Hdel Hb%Hdel. by apply (pi_one_start _ Hi).
  - destruct (pi_counter _ Hi) as [Hc Hle]. split; [done|]. intros id' st' Hst'%Hdel. by eapply Hle.
  - apply Hi.
  - etrans; [|apply (pi_load _ Hi)]. eapply drop_load; [exact (pi_sessions _ Hi)|exact (pi_single _ Hi)|exact Hst].
  - exact (pi_done _ Hi).
Qed.

(** Only the request that holds the gate of an object has a start for it. *)
Lemma gate_owner s n o g id st :
  pf_inv s → member n o g true (w_gates s) → p_starts s !! id = Some st → st_origin st = o → st_request st = n.
Proof.
  intros Hi (Hg & x & Hx & _ & Ht) Hst <-. destruct (pi_starts _ Hi id st Hst) as (g' & Hg' & x' & Hx' & _ & Ht').
  simplify_eq. apply proj1 in Ht, Ht'. specialize (Ht eq_refl). specialize (Ht' eq_refl). congruence.
Qed.

(** What [reserve] counts, and what it makes of the slots. *)
Lemma active_load s :
  (load (w_table s) ≤ size (p_starts s) + length (sessions_with active_session s))%nat.
Proof.
  rewrite sessions_with_size. unfold load. rewrite Nat.add_comm. apply Nat.add_le_mono_l, map_subseteq_size, filter_mono; [done|].
  intros id m _. unfold counted, p_objects. simpl. destruct (_ !! _); naive_solver.
Qed.

Definition with_start (id : Z) (st : portForwardStart) (s : world) : world :=
  on_table (set_starts (<[id := st]> (p_starts s)) id false) s.

Lemma reserve_load s id st :
  pf_inv s → p_starts s !! id = None → unclaimed (st_origin st) (w_table s) →
  (size (p_starts s) + length (sessions_with active_session s) < MaximumPortForwardSessions
   ∨ ∃ m, live (st_origin st) m (w_table s))%nat →
  (load (w_table (with_start id st s)) ≤ MaximumPortForwardSessions)%nat.
Proof.
  intros Hi Hnone Hun Hlim. pose proof (pi_load _ Hi) as Hload. unfold load in *. simpl. fold (p_starts s) in *.
  rewrite map_size_insert_None by done.
  set (t' := set_starts (<[id := st]> (p_starts s)) id false (w_table s)).
  assert (∀ o, unclaimed o t' → unclaimed o (w_table s) ∧ st_origin st ≠ o) as Hsub.
  { intros o Ho. split.
    - intros i x Hx. apply (Ho i x). simpl. rewrite lookup_insert_ne; [done|]. intros ->.
      unfold p_starts in Hnone. congruence.
    - apply (Ho id st). simpl. by rewrite lookup_insert_eq. }
  assert (∀ i m, counted t' (i, m) → counted (w_table s) (i, m)
            ∧ ∀ x, p_objects s !! m = Some x → dto_origin (ps_dto x) ≠ st_origin st) as Hc.
  { intros i m. unfold counted, p_objects. simpl. destruct (tb_objects (w_table s) !! m) as [x|] eqn:Hx; [|done].
    intros [Ha [Ho Hne]%Hsub]. split; [by split|]. intros y [= <-]. by apply not_eq_sym. }
  destruct Hlim as [Hlim|(m0 & (i0 & Hi0) & x0 & Hx0 & Ha0 & Ho0)].
  - assert (size (filter (counted t') (tb_sessions (w_table s))) ≤ length (sessions_with active_session s))%nat; [|lia].
    rewrite sessions_with_size. apply map_subseteq_size, filter_mono; [done|]. intros i m _ Hm. simpl.
    destruct (Hc i m Hm) as [Hm' _]. unfold counted, p_objects in *. simpl in *. destruct (tb_objects (w_table s) !! m); [|done]. by destruct Hm'.
  - assert (filter (counted t') (tb_sessions (w_table s)) ⊆ delete i0 (filter (counted (w_table s)) (tb_sessions (w_table s)))) as Hss.
    { apply map_subseteq_spec. intros i m [Him Hm]%map_lookup_filter_Some. destruct (Hc i m Hm) as [Hm' Hne].
      apply lookup_delete_Some. split; [|by apply map_lookup_filter_Some]. intros <-. simplify_eq. by apply (Hne x0). }
    apply map_subseteq_size in Hss. rewrite map_size_delete in Hss.
    assert (filter (counted (w_table s)) (tb_sessions (w_table s)) !! i0 = Some m0) as Hin.
    { apply map_lookup_filter_Some. split; [done|]. unfold counted. simpl. by rewrite Hx0, Ho0. }
    rewrite Hin in Hss. assert (size (filter (counted (w_table s)) (tb_sessions (w_table s))) ≠ 0%nat); [|lia].
    intros H0%map_size_empty_inv. by rewrite H0 in Hin.
Qed.

Definition new_start (n : nat) (o : portForwardOrigin) : portForwardStart := {|
  st_generation := og_generation o; st_cancel := None; st_stale := false; st_request := n; st_origin := o |}.

(** The counter does not wrap. *)
Lemma next_start s n :
  pf_inv s → numbered n → n ∉ reservers (p_log s) →
  u64_succ (tb_nextStart (w_table s)) = (tb_nextStart (w_table s) + 1)%Z
  ∧ p_starts s !! (tb_nextStart (w_table s) + 1)%Z = None.
Proof.
  intros Hi Hn Hnew. destruct (pi_counter _ Hi) as [Hc Hle]. destruct (pi_reservers _ Hi) as [Hnd Hall]. split.
  - apply u64_succ_small. rewrite Hc.
    pose proof (bounded_length (u64_modulus - 1) (n :: reservers (p_log s)) ltac:(by vm_compute)
      ltac:(by constructor) ltac:(by constructor)) as Hb. cbn [length] in Hb. lia.
  - destruct (p_starts s !! _) as [st|] eqn:Hst; [|done]. specialize (Hle _ _ Hst). lia.
Qed.

Lemma with_start_ok t s n o g :
  pf_inv s → me t = ByCall n → numbered n → n ∉ reservers (p_log s) → no_start n (w_table s) →
  member n o g true (w_gates s) → p_shutdown s = false →
  (size (p_starts s) + length (sessions_with active_session s) < MaximumPortForwardSessions
   ∨ ∃ m, live o m (w_table s))%nat →
  pstep (Some t) s (emit (PfReserved n o) (with_start (u64_succ (tb_nextStart (w_table s))) (new_start n o) s)).
Proof.
  intros Hi Hn Hnum Hnew Hno Hm Hsh Hlim. destruct (next_start s n Hi Hnum Hnew) as [-> Hnone].
  set (id := (tb_nextStart (w_table s) + 1)%Z) in *.
  assert (∀ i st, <[id := new_start n o]> (p_starts s) !! i = Some st →
    i = id ∧ st = new_start n o ∨ i ≠ id ∧ p_starts s !! i = Some st ∧ st_request st ≠ n) as Hins.
  { intros i st. rewrite lookup_insert_Some. intros [[<- <-]|[Hne Hst]]; [by left|right].
    split_and!; [done|done|by eapply Hno]. }
  assert (unclaimed o (w_table s)) as Hun.
  { intros i st Hst Heq. by apply (Hno i st Hst), (gate_owner s n o g i st). }
  assert (reservers (p_log s ++ [PfReserved n o]) = reservers (p_log s) ++ [n]) as Hres
    by (unfold reservers; by rewrite omap_app).
  apply (table_step t s _ (Some (PfReserved n o)) Hi); [split; done|by intros e [= <-]; simpl; rewrite Hn|]. rewrite Hn.
  split; simpl; unfold p_starts in *; simpl.
  - split; [done|by apply objects_same].
  - intros n' Hne. split.
    + intros i o' (st & Hst & Hr & Ho). exists st. split; [|done]. simpl.
      rewrite lookup_insert_ne; [done|]. intros <-. congruence.
    + intros Hns i st [(-> & ->)|(_ & Hst & _)]%Hins; [simpl; congruence|by eapply Hns].
  - intros i st [(-> & ->)|(_ & Hst & _)]%Hins; [by exists g|by eapply pi_starts].
  - intros i j a b [(-> & ->)|(_ & Ha & Hra)]%Hins [(-> & ->)|(_ & Hb & Hrb)]%Hins Heq; simpl in *; try done; try congruence.
    by apply (pi_one_start _ Hi i j a b).
  - unfold p_log in *. simpl. rewrite Hres, length_app. destruct (pi_counter _ Hi) as [Hc Hle]. simpl. unfold id. split.
    + unfold p_log in Hc. lia.
    + intros i st [(-> & ->)|(_ & Hst & _)]%Hins; [unfold id; lia|]. specialize (Hle i st Hst). lia.
  - unfold p_log in *. simpl. rewrite Hres. destruct (pi_reservers _ Hi) as [Hnd Hall]. split.
    + apply NoDup_app. split_and!; [done|set_solver|apply NoDup_singleton].
    + apply Forall_app. split; [done|]. by constructor.
  - exact (reserve_load s id (new_start n o) Hi Hnone Hun Hlim).
  - exact (pi_done _ Hi).
Qed.

Lemma pf_reserve_ok t s n o g :
  pf_inv s → me t = ByCall n → numbered n → n ∉ reservers (p_log s) → no_start n (w_table s) →
  member n o g true (w_gates s) →
  pstep (Some t) s (reserve retention (F := F) n o s).2
  ∧ match (reserve retention (F := F) n o s).1 with
    | Ok id => my_start n id o (w_table (reserve retention (F := F) n o s).2)
    | Err _ => no_start n (w_table (reserve retention (F := F) n o s).2)
    end
  ∧ w_gates (reserve retention (F := F) n o s).2 = w_gates s
  ∧ w_res (reserve retention (F := F) n o s).2 = w_res s
  ∧ w_idem (reserve retention (F := F) n o s).2 = w_idem s
  ∧ p_objects (reserve retention (F := F) n o s).2 = p_objects s
  ∧ p_log (reserve retention (F := F) n o s).2 `prefix_of` p_log s ++ [PfReserved n o]
  ∧ p_log s `prefix_of` p_log (reserve retention (F := F) n o s).2.
Proof.
  intros Hi Hn Hnum Hnew Hno Hm. unfold reserve. set (w := pruneLocked retention (p_now s) s).
  pose proof (prune_ok t s (p_now s) Hi) as Hp. destruct (p_shutdown w) eqn:Hsh; cbn [fst snd].
  { split_and!; try done. by apply prefix_app_r. }
  destruct (andb _ _) eqn:Hlim; cbn [fst snd].
  { split_and!; try done. by apply prefix_app_r. }
  split_and!; try done; [|by exists (new_start n o); split; [apply lookup_insert_eq|]|by apply prefix_app_r].
  eapply (pstep_trans t s w); [done| |done].
  eapply (with_start_ok t w n o g); try done; [apply Hp|].
  apply andb_false_iff in Hlim as [Hlim|Hlim]; [left; by apply Nat.leb_gt in Hlim|right].
  apply negb_false_iff in Hlim. destruct (sessions_with _ w) as [|m l] eqn:Hl; [done|].
  assert (m ∈ sessions_with (λ x, active_session x && of_origin o x) w) as Hin by (rewrite Hl; constructor).
  apply sessions_with_elem in Hin as (id & x & Hid & Hx & [Ha Ho]%andb_true_iff). apply bool_decide_eq_true in Ho.
  exists m. split; [by exists id|]. by exists x.
Qed.

(** A session enters the map. *)
Definition published (n : nat) (id : string) (s : world) : world :=
  on_object n (with_timer true) (on_table (λ t, set_sessions (<[id := n]> (tb_sessions t)) t) s).

Lemma insert_ok t s n o g id x :
  pf_inv s → me t = ByCall n → (load (w_table s) < MaximumPortForwardSessions)%nat → vacant o (w_table s) →
  member n o g true (w_gates s) → p_sessions s !! id = None → p_objects s !! n = Some x →
  dto_ID (ps_dto x) = id → dto_origin (ps_dto x) = o → dto_Generation (ps_dto x) = p_generation s →
  pstep (Some t) s (published n id s).
Proof.
  intros Hi Hn Hload Hv Hm Hid Hx Hxid Hxo Hxg.
  assert (∀ i m, p_sessions (published n id s) !! i = Some m →
            i = id ∧ m = n ∨ p_sessions s !! i = Some m ∧ m ≠ n) as Hses.
  { intros i m. unfold p_sessions. simpl. rewrite lookup_insert_Some. intros [[<- <-]|[Hne Him]]; [by left|right].
    split; [done|]. intros ->. destruct (pi_sessions _ Hi i n Him) as (y & Hy & He). congruence. }
  assert (∀ m y, p_objects (published n id s) !! m = Some y →
            ∃ a, p_objects s !! m = Some a ∧ ps_dto y = ps_dto a ∧ ps_once y = ps_once a) as Hobj.
  { intros m y. unfold p_objects. simpl. destruct (decide (m = n)) as [->|Hne].
    - rewrite lookup_alter_eq. destruct (tb_objects (w_table s) !! n) as [a|]; [|done]. intros [= <-]. by exists a.
    - rewrite lookup_alter_ne by done. intros Hy. by exists y. }
  assert (∀ o' m, live o' m (w_table (published n id s)) → o' = o ∧ m = n ∨ live o' m (w_table s)) as Hlive.
  { intros o' m ((i & Him) & y & Hy & Ha & <-). destruct (Hobj m y Hy) as (a & Ha' & Hd & _). rewrite Hd.
    unfold active_session in Ha. rewrite Hd in Ha.
    destruct (Hses i m Him) as [[-> ->]|[Him' _]]; [left; split; [congruence|done]|right].
    split; [by exists i|]. by exists a. }
  split_and!; [split; try apply Hi|split; auto with pf|by apply calm_born].
  - intros i m Him. destruct (Hses i m Him) as [[-> ->]|[Him' Hne]].
    + exists (with_timer true x). split; [|done]. unfold p_objects in *. simpl. by rewrite lookup_alter_eq, Hx.
    + destruct (pi_sessions _ Hi i m Him') as (y & Hy & He). exists y. split; [|done].
      unfold p_objects in *. simpl. by rewrite lookup_alter_ne.
  - intros o' m m' [[-> ->]|H1]%Hlive [[? ->]|H2]%Hlive; simplify_eq;
      [done|by apply Hv, not_elem_of_nil in H2|by apply Hv, not_elem_of_nil in H1|].
    by apply (pi_single _ Hi o').
  - unfold load in *. simpl. assert (filter (counted (w_table (published n id s))) (<[id := n]> (tb_sessions (w_table s)))
      ⊆ <[id := n]> (filter (counted (w_table s)) (tb_sessions (w_table s)))) as Hsub.
    { apply map_subseteq_spec. intros i m [Him Hc]%map_lookup_filter_Some.
      destruct (Hses i m Him) as [[-> ->]|[Him' Hne]]; [by rewrite lookup_insert_eq|].
      rewrite lookup_insert_ne; [|intros <-; unfold p_sessions in Hid, Him'; congruence].
      apply map_lookup_filter_Some. split; [done|]. revert Hc. unfold counted. simpl. by rewrite lookup_alter_ne. }
    apply map_subseteq_size in Hsub. etrans; [apply Nat.add_le_mono_r; exact Hsub|].
    rewrite map_size_insert. case_match; unfold Datatypes.id; lia.
  - intros m y Hy Hd. destruct (Hobj m y Hy) as (a & Ha & _ & Ho). apply (pi_done _ Hi m a Ha). congruence.
  - destruct (objects_alter (caller_of (Some (me t))) (w_table s) n (with_timer true)) as [P1 P2];
      [intros a _; apply grown_timer|by split].
  - by apply shape_starts.
  - intros n' o' g' l Hne Hm' Hv' m [[-> ->]|Hl]%Hlive; [|by apply (Hv' m)]. simpl in Hne. rewrite Hn in Hne.
    destruct Hm as (Hg & y & Hy & _ & Ht), Hm' as (Hg' & y' & Hy' & _ & Ht'). simplify_eq.
    apply proj1 in Ht, Ht'. specialize (Ht eq_refl). specialize (Ht' eq_refl). simpl in Hne. congruence.
  - intros g' Hg' Ha i m y Him Hy. destruct (Hobj m y Hy) as (a & Ha' & -> & _).
    destruct (Hses i m Him) as [[-> ->]|[Him' _]]; [|by eapply Ha]. assert (a = x) as -> by congruence.
    rewrite Hxg. intros <-. by apply (pi_current _ Hi).
Qed.

Lemma no_start_drop s n id st :
  pf_inv s → p_starts s !! id = Some st → st_request st = n →
  no_start n (w_table (on_table (put_starts (delete id (p_starts s))) s)).
Proof.
  intros Hi Hst Hr id' st' Hst'. simpl in Hst'. apply lookup_delete_Some in Hst' as [Hne Hst']. intros Hr'.
  apply Hne. eapply (pi_one_start _ Hi); [exact Hst|exact Hst'|congruence].
Qed.
Lemma vacant_drop_load s id st :
  p_starts s !! id = Some st → vacant (st_origin st) (w_table s) → (load (w_table s) ≤ MaximumPortForwardSessions)%nat →
  (load (w_table (on_table (put_starts (delete id (p_starts s))) s)) < MaximumPortForwardSessions)%nat.
Proof.
  intros Hst Hv Hl. unfold load in *. simpl. fold (p_starts s) in *.
  pose proof (map_subseteq_size _ _ (drop_filter (w_table s) id st Hst Hv)) as Hle. fold (p_starts s) in Hle.
  assert (size (delete id (p_starts s)) < size (p_starts s))%nat; [|lia].
  rewrite map_size_delete, Hst. assert (size (p_starts s) ≠ 0%nat); [|lia]. intros H0%map_size_empty_inv. by rewrite H0 in Hst.
Qed.

Lemma publish_ok t s n start o g x :
  pf_inv s → me t = ByCall n → my_start n start o (w_table s) → vacant o (w_table s) → member n o g true (w_gates s) →
  p_objects s !! n = Some x → dto_origin (ps_dto x) = o →
  let r := publish (F := F) n start (og_generation o) (dto_ID (ps_dto x)) s in
  pstep (Some t) s r.2 ∧ no_start n (w_table r.2) ∧ w_gates r.2 = w_gates s ∧ w_idem r.2 = w_idem s
  ∧ p_log r.2 = p_log s ∧ ∃ y, p_objects r.2 !! n = Some y ∧ ps_dto y = ps_dto x.
Proof.
  intros Hi Hn Hs Hv Hm Hx Ho. pose proof Hs as (st & Hst & Hr & Hso).
  pose proof (pf_drop_ok t s n start o Hi Hn Hs) as Hd. pose proof (no_start_drop s n start st Hi Hst Hr) as Hns.
  assert (load (w_table (on_table (put_starts (delete start (p_starts s))) s)) < MaximumPortForwardSessions)%nat as Hl
    by (apply (vacant_drop_load s start st Hst); [by rewrite Hso|apply Hi]).
  assert (vacant o (w_table (on_table (put_starts (delete start (p_starts s))) s))) as Hv' by exact Hv.
  revert Hd Hns Hl Hv'. unfold publish. set (w := on_table (put_starts (delete start (p_starts s))) s). intros Hd Hns Hl Hv'.
  assert (∀ v, pf_inv v → pstep (Some t) v (stop_after n v)) as Hafter by (intros v Hv0; apply res_ok; [done|by split; auto]).
  destruct (p_shutdown w); cbn [fst snd]; [by split_and!; [..|by exists x]|].
  destruct (_ || negb (String.eqb _ _)) eqn:Hg; cbn [fst snd]; [by split_and!; [..|by exists x]|].
  apply orb_false_iff in Hg as [_ Hg]. apply negb_false_iff, String.eqb_eq in Hg.
  assert (pstep (Some t) s (stop_after n w)) as Hsw by (eapply pstep_trans; [exact Hd|apply Hafter, Hd|done]).
  destruct (p_ctx _ !! n); cbn [fst snd]; [by split_and!; [..|by exists x]|].
  destruct (p_sessions _ !! _) eqn:Hid; cbn [fst snd]; [by split_and!; [..|by exists x]|].
  split_and!; try done.
  - eapply (pstep_trans t s w); [exact Hd| |done].
    assert (pstep (Some t) w (published n (dto_ID (ps_dto x)) w)) as Hp.
    { eapply (insert_ok t w n o g _ x); try done; [apply Hd|]. rewrite <- Ho in Hg. by rewrite Hg. }
    eapply pstep_trans; [exact Hp| |done]. apply (Hafter (published n (dto_ID (ps_dto x)) w)), Hp.
  - exists (with_timer true x). split; [|done]. unfold p_objects in *. simpl. by rewrite lookup_alter_eq, Hx.
Qed.

(** ** Steps on the gates *)

(** One gate changes, with its users counted right, for the others as it was. *)
Lemma at_gate_parts s n g f y :
  pf_inv s → ga_objects (w_gates s) !! g = Some y →
  gt_users (f y) = size (gt_members (f y)) → (∀ m, gt_token (f y) = Some m → m ∈ gt_members (f y)) →
  (∀ m, m ≠ n → (m ∈ gt_members (f y) ↔ m ∈ gt_members y) ∧ (gt_token (f y) = Some m ↔ gt_token y = Some m)) →
  no_start n (w_table s) ∨ gt_token y ≠ Some n →
  gates_parts (Some n) s (w_gates (at_gate g f s)).
Proof.
  intros Hi Hy Hu Hm Hoth Hown. unfold at_gate, set_gates. cbn [w_gates].
  assert (∀ g' x, alter f g (ga_objects (w_gates s)) !! g' = Some x →
            g' = g ∧ x = f y ∨ g' ≠ g ∧ ga_objects (w_gates s) !! g' = Some x) as Hin.
  { intros g' x. destruct (decide (g' = g)) as [->|Hne]; [rewrite lookup_alter_eq, Hy; intros [= <-]; by left|].
    rewrite lookup_alter_ne by done. by right. }
  assert (∀ g' x, ga_objects (w_gates s) !! g' = Some x → g' ≠ g →
            alter f g (ga_objects (w_gates s)) !! g' = Some x) as Hout by (intros; by rewrite lookup_alter_ne).
  split; [split|..]; cbn [ga_targets ga_objects].
  - intros m o g' b Hne (Ht & x & Hx & Hxm & Hxt). split; [done|]. simpl.
    destruct (decide (g' = g)) as [->|Hg]; [|exists x; split; [by apply Hout|done]]. simplify_eq.
    destruct (Hoth m ltac:(congruence)) as [H1 H2]. exists (f y). rewrite lookup_alter_eq, Hy, H1, H2. done.
  - intros m Hne Ho g' x [[-> ->]|[_ Hx]]%Hin; [|by eapply Ho].
    destruct (Hoth m ltac:(congruence)) as [-> _]. by eapply Ho.
  - intros m g0 Hne Ho g' x [[-> ->]|[_ Hx]]%Hin Hxm; [|by eapply Ho].
    destruct (Hoth m ltac:(congruence)) as [H1 _]. apply (Ho g y Hy). by apply H1.
  - intros g' Hg. left. by apply (lookup_alter_is_Some f _ g).
  - intros g' x [[-> ->]|[_ Hx]]%Hin; [done|by apply (pi_gates _ Hi g')].
  - intros o g' Hg. apply (lookup_alter_is_Some f _ g). by eapply pi_targets.
  - intros m [= <-]. destruct Hown as [?|Hown]; [by left|right]. intros o g' (Ht & x & Hx & Hxm & Hxt).
    split; [done|]. simpl. destruct (decide (g' = g)) as [->|Hg]; [|exists x; split; [by apply Hout|done]].
    simplify_eq. exfalso. by apply Hown, Hxt.
Qed.

Lemma enter_gate_ok t s n o :
  pf_inv s → me t = ByCall n → outside n (w_gates s) → ga_objects (w_gates s) !! n = None →
  let r := enter_gate (F := F) n o s in
  pstep (Some t) s r.2 ∧ member n o r.1 false (w_gates r.2) ∧ only n r.1 (w_gates r.2)
  ∧ w_table r.2 = w_table s ∧ w_res r.2 = w_res s ∧ w_idem r.2 = w_idem s ∧ w_hist r.2 = w_hist s.
Proof.
  intros Hi Hn Ho Hnew. unfold enter_gate. set (join := λ x, _).
  destruct (ga_targets (w_gates s) !! o) as [g|] eqn:Hg; cbn [fst snd].
  - destruct (pi_targets _ Hi o g Hg) as [y Hy]. destruct (pi_gates _ Hi g y Hy) as [Hu Hm].
    pose proof (Ho g y Hy) as Hny. split_and!; try done.
    + apply gates_ok; [done|]. rewrite Hn. apply (at_gate_parts s n g join y); try done; simpl.
      * rewrite size_union by set_solver. rewrite size_singleton. lia.
      * intros m Htm. specialize (Hm m Htm). set_solver.
      * intros m Hne. split; [set_solver|done].
      * right. intros Ht. by apply Hny, Hm.
    + split; [done|]. exists (join y). simpl. rewrite lookup_alter_eq, Hy. split_and!; [done|set_solver|].
      split; [done|]. intros Ht. exfalso. by apply Hny, Hm.
    + intros g' x. simpl. destruct (decide (g' = g)) as [->|Hne]; [done|]. rewrite lookup_alter_ne by done.
      intros Hx Hin. by destruct (Ho g' x Hx).
  - assert (∀ x, is_Some (ga_objects (w_gates s) !! x) → x ≠ n) as Hneq by (intros x [y Hy] ->; congruence).
    split_and!; try done.
    + apply gates_ok; [done|]. rewrite Hn. split; [split|..]; simpl.
      * intros m o' g' b Hne (Ht & x & Hx & Hxm & Hxt). split; simpl.
        -- rewrite lookup_insert_ne; [done|congruence].
        -- exists x. rewrite lookup_insert_ne; [done|]. apply not_eq_sym, Hneq. by exists x.
      * intros m Hne Hm g' x. simpl. rewrite lookup_insert_Some. intros [[<- <-]|[_ Hx]]; [simpl|by eapply Hm].
        intros Hin. apply Hne. f_equal. set_solver.
      * intros m g0 Hne Hm g' x. simpl. rewrite lookup_insert_Some. intros [[<- <-]|[_ Hx]]; [simpl|by eapply Hm].
        intros Hin. exfalso. apply Hne. f_equal. set_solver.
      * intros g'. rewrite lookup_insert_is_Some. intros [<-|[_ ?]]; [by right|by left].
      * intros g' x. rewrite lookup_insert_Some. intros [[<- <-]|[_ Hx]]; [|by apply (pi_gates _ Hi g')]. simpl.
        split; [|done]. change (1 = size ({[n]} ∪ ∅ : gset nat)). rewrite (right_id_L ∅ (∪)), size_singleton. done.
      * intros o' g'. rewrite lookup_insert_Some. intros [[<- <-]|[_ Hx]]; [by rewrite lookup_insert_eq|].
        apply lookup_insert_is_Some. destruct (decide (n = g')); [by left|right]. split; [done|]. by eapply pi_targets.
      * intros m [= <-]. right. intros o' g' (_ & x & Hx & Hxm & _). by destruct (Ho g' x Hx).
    + split; simpl; [by rewrite lookup_insert_eq|]. eexists. rewrite lookup_insert_eq. split_and!; [done|simpl; set_solver|done].
    + intros g' x. simpl. rewrite lookup_insert_Some. intros [[<- _]|[_ Hx]] Hin; [done|]. by destruct (Ho g' x Hx).
Qed.

(** The token is taken, and given back. *)
Lemma take_token_ok t s n o g :
  pf_inv s → me t = ByCall n → member n o g false (w_gates s) →
  (∀ x, ga_objects (w_gates s) !! g = Some x → gt_token x = None) →
  pstep (Some t) s (set_token g (Some n) s) ∧ member n o g true (w_gates (set_token g (Some n) s)).
Proof.
  intros Hi Hn (Ht & y & Hy & Hm & _) Hfree. specialize (Hfree y Hy). destruct (pi_gates _ Hi g y Hy) as [Hu _]. split.
  - apply gates_ok; [done|]. rewrite Hn. apply (at_gate_parts s n g _ y); try done; simpl.
    + by intros m [= <-].
    + intros m Hne. split; [done|]. rewrite Hfree. split; congruence.
    + right. congruence.
  - split; [done|]. eexists. simpl. rewrite lookup_alter_eq, Hy. done.
Qed.
Lemma give_token_ok t s n o g :
  pf_inv s → me t = ByCall n → member n o g true (w_gates s) → no_start n (w_table s) →
  pstep (Some t) s (set_token g None s) ∧ member n o g false (w_gates (set_token g None s)).
Proof.
  intros Hi Hn (Ht & y & Hy & Hm & Hxt) Hns. destruct (pi_gates _ Hi g y Hy) as [Hu _].
  assert (gt_token y = Some n) as Htok by (by apply Hxt). split.
  - apply gates_ok; [done|]. rewrite Hn. apply (at_gate_parts s n g _ y); try done; simpl.
    + intros m Hne. split; [done|]. rewrite Htok. split; congruence.
    + by left.
  - split; [done|]. eexists. simpl. rewrite lookup_alter_eq, Hy. done.
Qed.

(** A gate without users leaves the map. *)
Lemma drop_target_ok t s n o g x :
  pf_inv s → me t = ByCall n → outside n (w_gates s) → ga_targets (w_gates s) !! o = Some g →
  ga_objects (w_gates s) !! g = Some x → gt_users x = 0 →
  pstep (Some t) s (set_gates {| ga_targets := delete o (ga_targets (w_gates s)); ga_objects := ga_objects (w_gates s) |} s).
Proof.
  intros Hi Hn Ho Hg Hx Hu. destruct (pi_gates _ Hi g x Hx) as [Hs _]. apply gates_ok; [done|]. rewrite Hn.
  split; [split|..]; simpl.
  - intros m o' g' b Hne (Ht & y & Hy & Hym & Hyt). split; [|by exists y]. simpl.
    destruct (decide (o = o')) as [<-|Hoo]; [|by rewrite lookup_delete_ne]. exfalso. simplify_eq.
    assert (gt_members x ≡ ∅) as He by (apply size_empty_iff; congruence). set_solver.
  - done.
  - done.
  - auto.
  - intros g' y Hy. by apply (pi_gates _ Hi g').
  - intros o' g' [_ Ho']%lookup_delete_Some. by eapply pi_targets.
  - intros m [= <-]. right. intros o' g' (_ & y & Hy & Hym & _). by destruct (Ho g' y Hy).
Qed.

Lemma release_ref_ok t s n o g :
  pf_inv s → me t = ByCall n → member n o g false (w_gates s) → only n g (w_gates s) →
  let s' := release_ref (F := F) n g o s in
  pstep (Some t) s s' ∧ outside n (w_gates s') ∧ w_table s' = w_table s ∧ w_res s' = w_res s
  ∧ w_idem s' = w_idem s ∧ w_hist s' = w_hist s.
Proof.
  intros Hi Hn (Ht & y & Hy & Hm & Hxt) Honly. destruct (pi_gates _ Hi g y Hy) as [Hu Htm].
  assert (gt_token y ≠ Some n) as Htok by (intros Heq; by apply Hxt in Heq).
  unfold release_ref. set (f := λ x, _). set (s1 := at_gate g f s).
  assert (pstep (Some t) s s1) as H1.
  { apply gates_ok; [done|]. rewrite Hn. apply (at_gate_parts s n g f y); try done; simpl.
    - rewrite size_difference by set_solver. rewrite size_singleton. lia.
    - intros m Htm'. specialize (Htm m Htm'). assert (m ≠ n) by congruence. set_solver.
    - intros m Hne. split; [set_solver|done].
    - by right. }
  assert (ga_objects (w_gates s1) !! g = Some (f y)) as Hs1 by (simpl; by rewrite lookup_alter_eq, Hy).
  assert (outside n (w_gates s1)) as Hout.
  { intros g' x. simpl. destruct (decide (g' = g)) as [->|Hne].
    - rewrite lookup_alter_eq, Hy. intros [= <-]. simpl. set_solver.
    - rewrite lookup_alter_ne by done. intros Hx Hin. by apply Hne, (Honly g' x). }
  rewrite Hs1. destruct (f y) as [tok [|users] mem] eqn:Hfy; split_and!; try done.
  eapply pstep_trans; [exact H1| |done].
  eapply (drop_target_ok t s1 n o g (f y)); try done; [apply H1|by rewrite Hfy|by rewrite Hfy].
Qed.

(** ** Steps of the environment and of timers *)

Lemma env_rest s s' :
  pf_inv s → rest_parts (caller_of None) s s' None → p_spawned s' = p_spawned s → pstep None s s'.
Proof.
  intros Hi Hp Hsp. destruct (rest_invariant None s s' None Hi Hp) as [H1 H2].
  { rewrite Hsp. apply spawned_refl. }
  split_and!; [done|done|by apply calm_born].
Qed.

(** The environment moves the clock, the generation and the contexts. *)
Lemma env_ok_step s f g :
  pf_inv s → (p_now s ≤ en_now (f (w_env s)))%Z → p_retired s ⊆ en_retired (f (w_env s)) →
  en_generation (f (w_env s)) ∉ en_retired (f (w_env s)) → io_step None (w_table s) (w_res s) (g (w_res s)) →
  pstep None s (on_res g (on_env f s)).
Proof.
  intros Hi Hn Hr Hg Hio. apply env_rest; [done| |done]. split; try done.
  - split; [exact (registry_later _ _ _ Hn (pi_registry _ Hi))|apply registry_step_refl].
  - exact (gates_same _ s Hi).
  - split; [symmetry; apply app_nil_r|done].
Qed.

(** A timer that fires starts [finish]. *)
Lemma pf_fire_ok s m x :
  pf_inv s → p_objects s !! m = Some x →
  pstep None s (spawn (λ k, GoExpire k (dto_ID (ps_dto x))) (on_object m (with_timer false) s)).
Proof.
  intros Hi Hx.
  assert (pf_inv (on_object m (with_timer false) s) ∧ pf_trans None s (on_object m (with_timer false) s)) as [H1 H2].
  { (* the same obligations as for a goroutine that is no caller *)
    destruct (on_object_ok (GoExpire 0 "") s m (with_timer false) Hi) as (I & T & _).
    - intros a _. split; [apply grown_timer|intros Hd; by left].
    - split; [done|]. destruct T as [A B C D E O S G I1 V W]. by split. }
  split_and!.
  - destruct H1. by split.
  - destruct H2 as [A B C D E O S G I V W]. split; try done. exists [λ k, GoExpire k (dto_ID (ps_dto x))].
    split; [done|]. intros k. by constructor.
  - simpl. unfold started_by, p_spawned. simpl. rewrite drop_app_length. simpl. constructor; [|done]. by intros n.
Qed.

Lemma pf_environment_ok e s : pf_inv s → pstep None s (environment (F := F) e s).
Proof.
  intros Hi. pose proof (pi_current _ Hi) as Hc.
  assert (pstep None s s) as Hstay.
  { apply env_rest; [done| |done]. split; auto with pf; try done.
    - split; [apply Hi|apply registry_step_refl].
    - exact (gates_same _ s Hi).
    - split; [symmetry; apply app_nil_r|done]. }
  destruct e as [d|n e| |g|n|m]; cbn [environment].
  - refine (env_ok_step s _ id Hi _ _ _ _); simpl; [unfold p_now; lia|done|done|apply io_refl].
  - destruct (p_ctx s !! n) eqn:Hn; [done|]. refine (env_ok_step s _ _ Hi _ _ _ _); simpl; [done..|].
    case_bool_decide; by split; simpl; auto.
  - refine (env_ok_step s _ id Hi _ _ _ _); simpl; [done..|apply io_refl].
  - case_bool_decide as Hg; [done|]. refine (env_ok_step s _ id Hi _ _ _ _); simpl; [done| | |apply io_refl].
    + unfold p_retired. set_solver.
    + exact Hg.
  - case_bool_decide; [|done]. unfold cancel_context.
    refine (env_ok_step s id (λ r, _) Hi _ _ _ _); simpl; [done..|]. split; simpl; auto. set_solver.
  - destruct (p_objects s !! m) as [x|] eqn:Hx; [|done]. destruct (ps_timer x); [|done]. by apply pf_fire_ok.
Qed.

(** ** Assertions of one goroutine *)

Lemma pf_mine_stable t P : mine (me t) P → stable sys pf_spec t P.
Proof.
  intros HP u s s' Hu _ Ht. refine (HP _ _ _ _ Ht). destruct u as [u|]; simpl; [|done].
  destruct Hu as [Ho Hc]. intros [= Heq]. destruct t, u; simplify_eq/=; first [by eapply Ho|by eapply Hc].
Qed.

(** Facts that every step keeps. *)
Definition lasting (P : world → Prop) : Prop := ∀ u s s', pf_trans u s s' → P s → P s'.
Lemma lasting_mine x P : lasting P → mine x P.
Proof. intros HP u s s' _. apply HP. Qed.

Definition grows (P : list pf_event → Prop) : Prop := ∀ l l', P l → P (l ++ l').
Lemma log_lasting (P : list pf_event → Prop) : grows P → lasting (λ s, P (p_log s)).
Proof. intros HP u s s' Ht Hs. destruct (pt_log _ _ _ Ht) as (l & -> & _). by apply HP. Qed.
Lemma elem_lasting e : lasting (λ s, e ∈ p_log s).
Proof. apply (log_lasting (λ l, e ∈ l)). intros l l'. set_solver. Qed.
Lemma object_lasting m (P : portForwardSession → Prop) :
  (∀ a b, grown a b → P a → P b) → lasting (λ s, ∃ x, p_objects s !! m = Some x ∧ P x).
Proof.
  intros HP u s s' Ht (x & Hx & Hp). destruct (os_grown _ _ _ (pt_objects _ _ _ Ht) m x Hx) as (y & Hy & Hg).
  exists y. split; [done|by eapply HP].
Qed.
Lemma exists_lasting m : lasting (λ s, is_Some (p_objects s !! m)).
Proof.
  intros u s s' Ht [x Hx]. destruct (os_grown _ _ _ (pt_objects _ _ _ Ht) m x Hx) as (y & Hy & _). by exists y.
Qed.
Lemma stopped_lasting m : lasting (λ s, stopped m (w_table s)).
Proof. apply (object_lasting m (λ x, ps_once x = OnceDone)). intros a b Hg. apply (gr_done _ _ Hg). Qed.
Lemma all_stopped_lasting l : lasting (λ s, Forall (λ m, stopped m (w_table s)) l).
Proof. intros u s s' Ht Hl. eapply Forall_impl; [exact Hl|]. intros m. by eapply stopped_lasting. Qed.
Lemma made_lasting n dto : lasting (λ s, made n dto (w_table s)).
Proof.
  apply (object_lasting n (λ x, ps_dto x = dto
    ∨ ∃ status now, status ≠ PortForwardActive ∧ ps_dto x = dto_ended status now dto)).
  unfold active_session. intros a b [_ [->|(Ha & st & now & Hst & Hb)] _] Hd; [done|]. right. exists st, now. split; [done|].
  rewrite Hb. destruct Hd as [->|(st' & now' & _ & ->)]; [done|]. done.
Qed.
Lemma identified_lasting m i : lasting (λ s, ∃ x, p_objects s !! m = Some x ∧ dto_ID (ps_dto x) = i).
Proof. apply object_lasting. intros a b Hg <-. apply (grown_same _ _ Hg). Qed.
Lemma canceled_lasting m : lasting (λ s, m ∈ re_canceled (w_res s)).
Proof. intros u s s' Ht Hm. by apply (io_canceled _ _ _ _ (pt_io _ _ _ Ht)). Qed.
Lemma absent_lasting (R : gset string) g :
  lasting (λ s, R ⊆ p_retired s ∧ ∀ g', g' ∈ R → g' ≠ g → absent g' (w_table s)).
Proof.
  intros u s s' Ht [HR Ha]. pose proof (pt_retired _ _ _ Ht). split; [set_solver|].
  intros g' Hg' Hne. apply (pt_absent _ _ _ Ht); [set_solver|by apply Ha].
Qed.

(** What a request opened, and its session's object, are closed for good. *)
Lemma listener_closed_lasting m : lasting (λ s, is_Some (p_objects s !! m) ∧ m ∉ re_listeners (w_res s)).
Proof.
  intros u s s' Ht [Hs Hm]. split; [by eapply exists_lasting|]. intros Hin.
  destruct (io_listeners _ _ _ _ (pt_io _ _ _ Ht) m Hin) as [?|[_ Hn]]; [done|]. destruct Hs as [x Hx].
  unfold p_objects in Hx. congruence.
Qed.
Lemma handle_closed_lasting m : lasting (λ s, is_Some (p_objects s !! m) ∧ m ∉ re_handles (w_res s)).
Proof.
  intros u s s' Ht [Hs Hm]. split; [by eapply exists_lasting|]. intros Hin.
  destruct (io_handles _ _ _ _ (pt_io _ _ _ Ht) m Hin) as [?|[_ Hn]]; [done|]. destruct Hs as [x Hx].
  unfold p_objects in Hx. congruence.
Qed.

(** Facts about request [n] that the steps of others keep. *)
Lemma pf_no_event_mine n (Q : pf_event → Prop) :
  (∀ e, Q e → pf_request e = n) → mine (ByCall n) (λ s, ∀ e, Q e → e ∉ p_log s).
Proof.
  intros HQ u s s' Hu%not_caller Ht Hs e He. destruct (pt_log _ _ _ Ht) as (l & -> & Hl).
  intros [Hin|Hin]%elem_of_app; [by apply (Hs e)|]. rewrite Forall_forall in Hl.
  specialize (Hl e Hin). rewrite (HQ e He) in Hl. congruence.
Qed.
Lemma reservers_elem n l : n ∈ reservers l ↔ ∃ o, PfReserved n o ∈ l.
Proof.
  unfold reservers. rewrite list_elem_of_omap. split.
  - intros (e & Hin & He). destruct e; simplify_eq/=. eauto.
  - intros [o Hin]. by exists (PfReserved n o).
Qed.
Lemma unreserved_mine n : mine (ByCall n) (λ s, n ∉ reservers (p_log s)).
Proof.
  intros u s s' Hu Ht Hs [o Hin]%reservers_elem.
  refine (pf_no_event_mine n (λ e, ∃ o, e = PfReserved n o) _ u s s' Hu Ht _ (PfReserved n o) _ Hin); [by intros e [? ->]| |by exists o].
  intros e [o' ->] He. apply Hs, reservers_elem. by exists o'.
Qed.
Lemma no_object_mine n : mine (ByCall n) (λ s, p_objects s !! n = None).
Proof.
  intros u s s' Hu%not_caller Ht Hs. destruct (p_objects s' !! n) as [x|] eqn:Hx; [|done].
  destruct (os_new _ _ _ (pt_objects _ _ _ Ht) n x Hx) as [[y Hy]|?]; [|done]. unfold p_objects in Hs. congruence.
Qed.
Lemma closed_mine n : mine (ByCall n) (λ s, closed n (w_res s)).
Proof.
  intros u s s' Hu%not_caller Ht [Hl Hh]. split; intros Hin.
  - by destruct (io_listeners _ _ _ _ (pt_io _ _ _ Ht) n Hin) as [?|[? _]].
  - by destruct (io_handles _ _ _ _ (pt_io _ _ _ Ht) n Hin) as [?|[? _]].
Qed.
Lemma no_handle_mine n : mine (ByCall n) (λ s, n ∉ re_handles (w_res s)).
Proof. intros u s s' Hu%not_caller Ht Hs Hin. by destruct (io_handles _ _ _ _ (pt_io _ _ _ Ht) n Hin) as [?|[? _]]. Qed.
Lemma no_listener_mine n : mine (ByCall n) (λ s, n ∉ re_listeners (w_res s)).
Proof. intros u s s' Hu%not_caller Ht Hs Hin. by destruct (io_listeners _ _ _ _ (pt_io _ _ _ Ht) n Hin) as [?|[? _]]. Qed.
Lemma no_start_mine n : mine (ByCall n) (λ s, no_start n (w_table s)).
Proof. intros u s s' Hu%not_caller Ht. apply (pt_starts _ _ _ Ht n Hu). Qed.
Lemma my_start_mine n id o : mine (ByCall n) (λ s, my_start n id o (w_table s)).
Proof. intros u s s' Hu%not_caller Ht. apply (pt_starts _ _ _ Ht n Hu). Qed.
Lemma outside_mine n : mine (ByCall n) (λ s, outside n (w_gates s)).
Proof. intros u s s' Hu%not_caller Ht. by apply (gs_outside _ _ _ (pt_gates _ _ _ Ht)). Qed.
Lemma only_mine n g : mine (ByCall n) (λ s, only n g (w_gates s)).
Proof. intros u s s' Hu%not_caller Ht. by apply (gs_only _ _ _ (pt_gates _ _ _ Ht)). Qed.
Lemma member_mine n o g b : mine (ByCall n) (λ s, member n o g b (w_gates s)).
Proof. intros u s s' Hu%not_caller Ht. by apply (gs_member _ _ _ (pt_gates _ _ _ Ht)). Qed.
Lemma no_gate_mine n : mine (ByCall n) (λ s, ga_objects (w_gates s) !! n = None).
Proof.
  intros u s s' Hu%not_caller Ht Hs. destruct (ga_objects (w_gates s') !! n) as [x|] eqn:Hx; [|done].
  destruct (gs_new _ _ _ (pt_gates _ _ _ Ht) n) as [[y Hy]|?]; [by exists x|congruence|done].
Qed.
Lemma vacant_mine n o g l :
  mine (ByCall n) (λ s, member n o g true (w_gates s) ∧ vacant_but l o (w_table s)).
Proof.
  intros u s s' Hu Ht [Hm Hv]. split; [by eapply member_mine|]. by eapply pt_vacant; [|apply not_caller|..].
Qed.
Lemma reg_object_mine n (P : option (idempotencyEntry (F := F)) → Prop) :
  mine (ByCall n) (λ s, P (ir_objects (w_idem s) !! n)).
Proof. intros u s s' Hu%not_caller Ht Hs. destruct (pt_reg _ _ _ Ht) as (_ & _ & Ho). by rewrite Ho. Qed.
Lemma reg_log_lasting e : lasting (λ s, e ∈ ir_log (w_idem s)).
Proof. intros u s s' Ht Hs. destruct (pt_reg _ _ _ Ht) as (_ & [l ->] & _). set_solver. Qed.
Lemma pf_running_mine n key identity : mine (ByCall n) (λ s, running (w_idem s) n key identity).
Proof.
  intros u s s' Hu Ht [Ho [t Hin]]. split; [by eapply (reg_object_mine n (λ o, o = Some _)) with u s|].
  exists t. by eapply reg_log_lasting.
Qed.
Lemma pf_unused_mine n : mine (ByCall n) (pf_unused n).
Proof.
  repeat apply kept_and; [by apply (reg_object_mine n (λ o, o = None))| | | | | | |].
  - intros u s s' Hu Ht Hs e He Hn.
    refine (pf_no_event_mine n (λ e', e' = e) _ u s s' Hu Ht _ e eq_refl He); [by intros ? ->|].
    intros e' -> Hin. by apply (Hs e).
  - apply no_object_mine.
  - apply no_listener_mine.
  - apply no_handle_mine.
  - apply no_start_mine.
  - apply outside_mine.
  - apply no_gate_mine.
Qed.

(** Events that are neither a reservation nor a generation change. *)
Definition plain (e : pf_event) : Prop := match e with PfReserved _ _ | PfHook _ _ _ _ => False | _ => True end.
Lemma plain_reservers l : Forall plain l → reservers l = [].
Proof. induction 1 as [|[] l He _ IH]; try done; exact IH. Qed.

(** ** Steps that disturb nobody

    Most steps of a goroutine end sessions, close what they hold, or write to a log. *)
Record undisturbed s s' : Prop := {
  un_idem : w_idem s' = w_idem s;
  un_gates : w_gates s' = w_gates s;
  un_retired : p_retired s ⊆ p_retired s';
  un_log : ∃ l, p_log s' = p_log s ++ l ∧ Forall plain l;
  un_shape : same_shape (w_table s) (w_table s');
  un_shrinks : shrinks None (w_table s) (w_table s');
  un_listeners : re_listeners (w_res s') ⊆ re_listeners (w_res s);
  un_handles : re_handles (w_res s') ⊆ re_handles (w_res s);
  un_canceled : re_canceled (w_res s) ⊆ re_canceled (w_res s') }.

(** What a goroutine knows through its own undisturbing steps and the steps of others. *)
Record carried (x : who) (K : world → Prop) : Prop := {
  ca_mine : mine x K;
  ca_own : ∀ s s', pf_inv s → undisturbed s s' → K s → K s' }.

Lemma carried_and x P Q : carried x P → carried x Q → carried x (λ s, P s ∧ Q s).
Proof.
  intros [P1 P2] [Q1 Q2]. split; [by apply kept_and|]. intros s s' Hi Hu [HP HQ].
  split; [by eapply P2|by eapply Q2].
Qed.
Lemma carried_const x (P : Prop) : carried x (λ _, P).
Proof. split; [apply kept_const|done]. Qed.
Lemma carried_exists {A} x (P : A → world → Prop) : (∀ a, carried x (P a)) → carried x (λ s, ∃ a, P a s).
Proof.
  intros HP. split; [apply kept_exists; intros a; apply HP|]. intros s s' Hi Hu [a Ha]. exists a. exact (ca_own _ _ (HP a) s s' Hi Hu Ha).
Qed.
Lemma carried_impl x (P : Prop) Q : (P → carried x Q) → carried x (λ s, P → Q s).
Proof.
  intros HQ. split; [intros u s s' Hu Ht HPQ HP; exact (ca_mine _ _ (HQ HP) u s s' Hu Ht (HPQ HP))|].
  intros s s' Hi Hu HPQ HP. exact (ca_own _ _ (HQ HP) s s' Hi Hu (HPQ HP)).
Qed.

Lemma carried_log x (P : list pf_event → Prop) : grows P → carried x (λ s, P (p_log s)).
Proof.
  intros HP. split; [by apply lasting_mine, log_lasting|]. intros s s' _ Hu Hs.
  destruct (un_log _ _ Hu) as (l & -> & _). by apply HP.
Qed.
Lemma carried_elem x e : carried x (λ s, e ∈ p_log s).
Proof. apply (carried_log x (λ l, e ∈ l)). intros l l'. set_solver. Qed.
Lemma carried_object x m (P : portForwardSession → Prop) :
  (∀ a b, grown a b → P a → P b) → carried x (λ s, ∃ y, p_objects s !! m = Some y ∧ P y).
Proof.
  intros HP. split; [by apply lasting_mine, object_lasting|]. intros s s' _ Hu (y & Hy & Hp).
  destruct (os_grown _ _ _ (sh_objects _ _ _ (un_shrinks _ _ Hu)) m y Hy) as (z & Hz & Hg). exists z. split; [done|by eapply HP].
Qed.
Lemma carried_stopped x m : carried x (λ s, stopped m (w_table s)).
Proof. apply (carried_object x m (λ y, ps_once y = OnceDone)). intros a b Hg. apply (gr_done _ _ Hg). Qed.
Lemma carried_identified x m i : carried x (λ s, ∃ y, p_objects s !! m = Some y ∧ dto_ID (ps_dto y) = i).
Proof. apply carried_object. intros a b Hg <-. apply (grown_same _ _ Hg). Qed.
Lemma carried_known x m : carried x (λ s, is_Some (p_objects s !! m)).
Proof.
  split; [apply lasting_mine, exists_lasting|]. intros s s' _ Hu [y Hy].
  destruct (os_grown _ _ _ (sh_objects _ _ _ (un_shrinks _ _ Hu)) m y Hy) as (z & Hz & _). by exists z.
Qed.
Lemma carried_canceled x m : carried x (λ s, m ∈ re_canceled (w_res s)).
Proof.
  split; [apply lasting_mine, canceled_lasting|]. intros s s' _ Hu. pose proof (un_canceled _ _ Hu). set_solver.
Qed.
Lemma carried_no_listener x m : carried x (λ s, is_Some (p_objects s !! m) ∧ m ∉ re_listeners (w_res s)).
Proof.
  split; [apply lasting_mine, listener_closed_lasting|]. intros s s' Hi Hu [Hs Hm].
  split; [by eapply (ca_own _ _ (carried_known x m))|]. pose proof (un_listeners _ _ Hu). set_solver.
Qed.
Lemma carried_no_handle x m : carried x (λ s, is_Some (p_objects s !! m) ∧ m ∉ re_handles (w_res s)).
Proof.
  split; [apply lasting_mine, handle_closed_lasting|]. intros s s' Hi Hu [Hs Hm].
  split; [by eapply (ca_own _ _ (carried_known x m))|]. pose proof (un_handles _ _ Hu). set_solver.
Qed.
Lemma carried_all_stopped x l : carried x (λ s, Forall (λ m, stopped m (w_table s)) l).
Proof.
  split; [apply lasting_mine, all_stopped_lasting|]. intros s s' Hi Hu Hl. eapply Forall_impl; [exact Hl|].
  intros m. by eapply (ca_own _ _ (carried_stopped x m)).
Qed.

Lemma carried_closed n : carried (ByCall n) (λ s, closed n (w_res s)).
Proof.
  split; [apply closed_mine|]. intros s s' _ Hu [Hl Hh]. pose proof (un_listeners _ _ Hu). pose proof (un_handles _ _ Hu).
  split; set_solver.
Qed.
Lemma carried_closed_handle n : carried (ByCall n) (λ s, n ∉ re_handles (w_res s)).
Proof. split; [apply no_handle_mine|]. intros s s' _ Hu. pose proof (un_handles _ _ Hu). set_solver. Qed.
Lemma carried_no_object n : carried (ByCall n) (λ s, p_objects s !! n = None).
Proof.
  split; [apply no_object_mine|]. intros s s' _ Hu Hs. destruct (p_objects s' !! n) as [y|] eqn:Hy; [|done].
  destruct (os_new _ _ _ (sh_objects _ _ _ (un_shrinks _ _ Hu)) n y Hy) as [[z Hz]|?]; [|done].
  unfold p_objects in Hs. congruence.
Qed.
Lemma carried_no_start n : carried (ByCall n) (λ s, no_start n (w_table s)).
Proof. split; [apply no_start_mine|]. intros s s' _ Hu. by apply (shape_starts None _ _ (un_shape _ _ Hu) n). Qed.
Lemma carried_my_start n id o : carried (ByCall n) (λ s, my_start n id o (w_table s)).
Proof. split; [apply my_start_mine|]. intros s s' _ Hu. by apply (shape_starts None _ _ (un_shape _ _ Hu) n). Qed.
Lemma carried_gates n (P : gates → Prop) : mine (ByCall n) (λ s, P (w_gates s)) → carried (ByCall n) (λ s, P (w_gates s)).
Proof. intros HP. split; [done|]. intros s s' _ Hu. by rewrite (un_gates _ _ Hu). Qed.
Lemma carried_idem n (P : idempotencyRegistry F PortForwardDTO → Prop) :
  mine (ByCall n) (λ s, P (w_idem s)) → carried (ByCall n) (λ s, P (w_idem s)).
Proof. intros HP. split; [done|]. intros s s' _ Hu. by rewrite (un_idem _ _ Hu). Qed.
Lemma carried_unreserved n : carried (ByCall n) (λ s, n ∉ reservers (p_log s)).
Proof.
  split; [apply unreserved_mine|]. intros s s' _ Hu Hs. destruct (un_log _ _ Hu) as (l & Hl & Hr%plain_reservers).
  unfold reservers in *. rewrite Hl, omap_app, Hr, app_nil_r. done.
Qed.
Lemma carried_vacant n o g l :
  carried (ByCall n) (λ s, member n o g true (w_gates s) ∧ vacant_but l o (w_table s)).
Proof.
  split; [apply vacant_mine|]. intros s s' Hi Hu [Hm Hv]. split; [by rewrite (un_gates _ _ Hu)|].
  intros m Hm'. eapply Hv, shrinks_live; [exact (pi_sessions _ Hi)|exact (un_shrinks _ _ Hu)|done].
Qed.

Lemma undisturbed_refl s : undisturbed s s.
Proof.
  split; try done; [exists []; split; [by rewrite app_nil_r|constructor]|].
  split; [done|apply objects_refl].
Qed.
(** A step that only writes to the logs, or only closes and cancels. *)
Lemma undisturbed_emit s e : plain e → undisturbed s (emit e s).
Proof. intros He. destruct (undisturbed_refl s). split; try done. exists [e]. split; [done|]. by constructor. Qed.
Lemma undisturbed_audit s e : undisturbed s (add_audit e s).
Proof. by destruct (undisturbed_refl s). Qed.
Lemma undisturbed_res s f :
  re_listeners (f (w_res s)) ⊆ re_listeners (w_res s) → re_handles (f (w_res s)) ⊆ re_handles (w_res s) →
  re_canceled (w_res s) ⊆ re_canceled (f (w_res s)) → undisturbed s (on_res f s).
Proof. intros H1 H2 H3. by destruct (undisturbed_refl s). Qed.
Lemma undisturbed_object s m f :
  (∀ a, p_objects s !! m = Some a → grown a (f a)) → undisturbed s (on_object m f s).
Proof.
  intros Hf. destruct (undisturbed_refl s). split; try done. split; [done|].
  destruct (objects_alter None (w_table s) m f Hf). by split.
Qed.
Lemma undisturbed_prune s now : undisturbed s (pruneLocked retention now s).
Proof.
  destruct (undisturbed_refl s). split; try done. split; [apply (pruned_subseteq now s)|by apply objects_same].
Qed.
Lemma undisturbed_attach s n id : undisturbed s (attach n id s).2.
Proof.
  unfold attach. destruct (p_starts s !! id) as [st|] eqn:Hst; cbn [fst snd]; [|apply undisturbed_refl].
  destruct (undisturbed_refl s). split; try done; [|split; [done|by apply objects_same]].
  intros id'. unfold put_starts. simpl. destruct (decide (id' = id)) as [->|Hne].
  - rewrite lookup_insert_eq. unfold p_starts in Hst. by rewrite Hst.
  - by rewrite lookup_insert_ne.
Qed.
Lemma undisturbed_end s id status : status ≠ PortForwardActive → undisturbed s (end_session id status s).2.
Proof.
  intros Hst. unfold end_session. destruct (p_sessions s !! id) as [m|] eqn:Hid; simpl; [|apply undisturbed_refl].
  destruct (p_objects s !! m) as [x|] eqn:Hx; simpl; [|apply undisturbed_refl].
  unfold is_active. rewrite Hx. destruct (bool_decide _) eqn:Ha; simpl; [|apply undisturbed_refl].
  apply undisturbed_object. intros a Ha'. simplify_eq. by apply grown_ended.
Qed.

(** ** Program rules *)

Lemma pf_look_safe {A} t (L : world → Prop) (f : world → A) : mine (me t) L → psafe t L (look f) (λ _, L).
Proof. intros HL. apply safe_look; [apply pf_stay_ok|by apply pf_mine_stable]. Qed.

(** A read whose result says something lasting. *)
Lemma look_safe {A} t (L : world → Prop) (f : world → A) (P : A → world → Prop) :
  (∀ a, mine (me t) (P a)) → (∀ s, pf_inv s → L s → P (f s) s) → psafe t L (look f) P.
Proof.
  intros HP Hf s Hi Hs. split; [by apply pf_stay_ok|]. exists (P (f s)).
  split_and!; [apply pf_mine_stable, HP|by apply Hf|by intros ???].
Qed.

Lemma pf_receive_safe t (L : world → Prop) q :
  mine (me t) L → (∀ s, pf_inv s → L s → pf_quiet t q s) →
  psafe t L (receive q) (λ a s, L s ∧ answer_known (F := F) q a).
Proof. intros HL Hq. apply safe_receive; [by apply pf_mine_stable|exact Hq]. Qed.

(** A wait whose answer says something lasting. *)
Lemma await_safe t (L : world → Prop) q (P : answer → world → Prop) :
  (∀ a, mine (me t) (P a)) → (∀ s, pf_inv s → L s → pf_quiet t q s) →
  (∀ s a, pf_inv s → L s → answered q s a = true → P a s) →
  psafe t L (receive q) P.
Proof.
  intros HP Hq Ha. split; [exact Hq|]. intros s a Hi Hs Hr _. exists (P a).
  split_and!; [by apply pf_mine_stable|by apply Ha|by intros ???].
Qed.

Lemma step_safe t (L : world → Prop) (f : world → world) (L' : world → Prop) :
  mine (me t) L' → (∀ s, pf_inv s → L s → pstep (Some t) s (f s) ∧ L' (f s)) →
  psafe t L (modify f) (λ _, L').
Proof. intros HL. exact (safe_modify sys pf_spec t L f L' (pf_mine_stable t L' HL)). Qed.

(** An undisturbing step. *)
Lemma carry_safe t K f :
  carried (me t) K → (∀ s, pf_inv s → K s → pstep (Some t) s (f s) ∧ undisturbed s (f s)) →
  psafe t K (modify f) (λ _, K).
Proof.
  intros [HK1 HK2] Hf. apply step_safe; [done|]. intros s Hi Hs. destruct (Hf s Hi Hs) as [Hst Hu].
  split; [done|by eapply HK2].
Qed.

Lemma pf_audit_safe t K started operation target e :
  carried (me t) K → psafe t K (record_audit started operation target e) (λ _, K).
Proof. intros HK. apply carry_safe; [done|]. intros s Hi _. split; [by apply pf_audit_ok|apply undisturbed_audit]. Qed.

Lemma pf_cancel_safe t K c : carried (me t) K → psafe t K (cancel c) (λ _ s, K s ∧ c ∈ re_canceled (w_res s)).
Proof.
  intros HK. pose proof (carried_canceled (me t) c) as Hc.
  apply step_safe; [apply kept_and; [apply HK|apply Hc]|]. intros s Hi Hs.
  assert (undisturbed s (cancel_context c s)) as Hu by (apply undisturbed_res; simpl; set_solver).
  split; [|split; [by eapply (ca_own _ _ HK)|simpl; set_solver]].
  apply res_ok; [done|]. split; simpl; auto. set_solver.
Qed.
Lemma cancel_only_safe t K c : carried (me t) K → psafe t K (cancel c) (λ _, K).
Proof. intros HK. eapply safe_post; [|by apply pf_cancel_safe]. by intros [] s _ [? _]. Qed.

Lemma close_listener_safe t K m :
  carried (me t) K → psafe t K (modify (close_listener m)) (λ _, K).
Proof.
  intros HK. apply carry_safe; [done|]. intros s Hi _. split.
  - apply (res_ok t s _ Hi). split; simpl; [set_solver|auto|done].
  - apply undisturbed_res; simpl; set_solver.
Qed.
Lemma close_handle_safe t K m :
  carried (me t) K → psafe t K (modify (close_handle m)) (λ _, K).
Proof.
  intros HK. apply carry_safe; [done|]. intros s Hi _. split.
  - apply (res_ok t s _ Hi). split; simpl; [auto|set_solver|done].
  - apply undisturbed_res; simpl; set_solver.
Qed.
(** Closing one's own listener and handle. *)
Lemma close_own_listener t n K :
  me t = ByCall n → carried (me t) K →
  psafe t (λ s, K s ∧ n ∉ re_handles (w_res s)) (modify (close_listener n)) (λ _ s, K s ∧ closed n (w_res s)).
Proof.
  intros Hn HK. apply step_safe; [apply kept_and; [apply HK|rewrite Hn; apply closed_mine]|].
  intros s Hi [Hs Hh].
  assert (undisturbed s (close_listener n s)) as Hu by (apply undisturbed_res; simpl; set_solver).
  split; [|split; [by eapply (ca_own _ _ HK)|split; simpl; set_solver]].
  apply (res_ok t s _ Hi). split; simpl; [set_solver|auto|done].
Qed.
Lemma close_own_handle t n K :
  me t = ByCall n → carried (me t) K →
  psafe t (λ s, K s ∧ n ∉ re_listeners (w_res s)) (modify (close_handle n)) (λ _ s, K s ∧ closed n (w_res s)).
Proof.
  intros Hn HK. apply step_safe; [apply kept_and; [apply HK|rewrite Hn; apply closed_mine]|].
  intros s Hi [Hs Hh].
  assert (undisturbed s (close_handle n s)) as Hu by (apply undisturbed_res; simpl; set_solver).
  split; [|split; [by eapply (ca_own _ _ HK)|split; simpl; set_solver]].
  apply (res_ok t s _ Hi). split; simpl; [auto|set_solver|done].
Qed.

(** ** Ending sessions *)

Lemma object_safe t K m f :
  carried (me t) K → (∀ a, grown a (f a)) → (∀ a, ps_once (f a) = OnceDone → ps_once a = OnceDone) →
  psafe t K (modify (on_object m f)) (λ _, K).
Proof.
  intros HK Hf Hd. apply carry_safe; [done|]. intros s Hi _. split.
  - apply on_object_ok; [done|]. intros a _. split; [apply Hf|]. intros Ha. left. by apply Hd.
  - apply undisturbed_object. intros a _. apply Hf.
Qed.

Lemma pf_stop_safe t K m :
  carried (me t) K → (∀ s, pf_inv s → K s → is_Some (p_objects s !! m)) →
  psafe t K (stop m) (λ _ s, K s ∧ stopped m (w_table s)).
Proof.
  intros HK Hm. unfold stop. eapply (safe_compose _ _ _ _ _ _ (λ _, K)).
  { apply safe_atomically; [intros _; apply pf_mine_stable, HK|]. intros s Hi Hs. unfold once_enter.
    destruct (p_objects s !! m) as [x|] eqn:Hx; [|split; [by apply pf_stay_ok|done]].
    case_bool_decide as Ho; cbn [fst snd]; [|split; [by apply pf_stay_ok|done]].
    assert (∀ a, p_objects s !! m = Some a → grown a (with_once OnceRunning a)) as Hg.
    { intros a Ha. simplify_eq. apply grown_once. congruence. }
    split; [|by eapply (ca_own _ _ HK), Hs; [|apply undisturbed_object]].
    apply on_object_ok; [done|]. intros a Ha. split; [by apply Hg|done]. }
  intros [|].
  - eapply safe_compose.
    { apply object_safe; [exact HK|intros a; apply grown_timer|done]. }
    intros []. eapply safe_compose; [by apply pf_cancel_safe|]. intros [].
    pose proof (carried_no_listener (me t) m) as Hl. pose proof (carried_no_handle (me t) m) as Hh.
    pose proof (carried_and _ _ _ HK (carried_canceled (me t) m)) as HK1.
    eapply (safe_compose _ _ _ _ _ _ (λ _ s, (K s ∧ m ∈ re_canceled (w_res s))
              ∧ is_Some (p_objects s !! m) ∧ m ∉ re_listeners (w_res s))).
    { apply step_safe; [apply kept_and; [apply HK1|apply Hl]|]. intros s Hi [Hs Hc].
      assert (undisturbed s (close_listener m s)) as Hu by (apply undisturbed_res; simpl; set_solver).
      split; [apply (res_ok t s _ Hi); split; simpl; [set_solver|auto|done]|].
      split; [by eapply (ca_own _ _ HK1)|]. split; [exact (Hm s Hi Hs)|simpl; set_solver]. }
    intros []. pose proof (carried_and _ _ _ HK1 Hl) as HK2.
    eapply (safe_compose _ _ _ _ _ _ (λ _ s, ((K s ∧ m ∈ re_canceled (w_res s))
              ∧ is_Some (p_objects s !! m) ∧ m ∉ re_listeners (w_res s))
              ∧ is_Some (p_objects s !! m) ∧ m ∉ re_handles (w_res s))).
    { apply step_safe; [apply kept_and; [apply HK2|apply Hh]|]. intros s Hi [[Hs Hc] Hs2].
      assert (undisturbed s (close_handle m s)) as Hu by (apply undisturbed_res; simpl; set_solver).
      split; [apply (res_ok t s _ Hi); split; simpl; [auto|set_solver|done]|].
      split; [eapply (ca_own _ _ HK2); [exact Hi|exact Hu|by split]|].
      split; [exact (Hm s Hi Hs)|simpl; set_solver]. }
    intros []. apply step_safe; [apply kept_and; [apply HK|apply carried_stopped]|].
    intros s Hi [[[Hs Hc] [_ Hli]] [[x Hx] Hha]]. split.
    + apply on_object_ok; [done|]. intros a Ha. split; [by apply grown_once|]. intros _. right. by repeat split.
    + split.
      * eapply (ca_own _ _ HK); [exact Hi| |exact Hs]. apply undisturbed_object. intros a _. by apply grown_once.
      * exists (with_once OnceDone x). split; [|done]. unfold p_objects in Hx. simpl. by rewrite lookup_alter_eq, Hx.
  - eapply (safe_compose _ _ _ _ _ _ (λ _ s, K s ∧ stopped m (w_table s))); [|intros a; by apply safe_return].
    apply await_safe; [intros _; apply kept_and; [apply HK|apply carried_stopped]|done|].
    intros s a Hi Hs Ha. split; [done|]. destruct (Hm s Hi Hs) as [x Hx]. destruct a; try done. simpl in Ha.
    rewrite Hx in Ha. apply bool_decide_eq_true in Ha. by exists x.
Qed.

(** [finish], from one assertion to another across the critical section. *)
Lemma pf_finish_safe t (K K' : world → Prop) id status :
  mine (me t) K → carried (me t) K' → status ≠ PortForwardActive →
  (∀ s, pf_inv s → K s → K' (end_session id status s).2) →
  psafe t K (finish id status) (λ _, K').
Proof.
  intros HK HK' Hst Hend. unfold finish.
  eapply (safe_compose _ _ _ _ _ _ (λ r s, K' s ∧ match r with Some (m, _) => is_Some (p_objects s !! m) | None => True end)).
  - apply safe_atomically.
    + intros [[m x]|]; apply pf_mine_stable, kept_and; try apply HK'; [apply carried_known|apply kept_const].
    + intros s Hi Hs. split; [by apply end_session_ok|]. split; [by apply Hend|].
      unfold end_session. destruct (p_sessions s !! id) as [m|] eqn:Hid; simpl; [|done].
      destruct (p_objects s !! m) as [x|] eqn:Hx; simpl; [|done]. destruct (is_active m s); simpl; [|done].
      unfold p_objects in *. simpl. by rewrite lookup_alter_eq, Hx.
  - intros [[m x]|]; [|apply safe_return; by intros s _ [? _]].
    pose proof (carried_and _ _ _ HK' (carried_known (me t) m)) as HK2.
    eapply safe_compose; [by apply (pf_stop_safe t _ m HK2); intros s _ [_ ?]|]. intros [].
    eapply safe_consequence; [|by apply pf_audit_safe]. by intros s _ [[? _] _].
Qed.
Lemma finish_carry_safe t K id status :
  carried (me t) K → status ≠ PortForwardActive → psafe t K (finish id status) (λ _, K).
Proof.
  intros HK Hst. apply pf_finish_safe; [apply HK|done|done|]. intros s Hi Hs.
  eapply (ca_own _ _ HK); [done|by apply undisturbed_end|done].
Qed.

(** ** Replacing the session of an object *)

Lemma carried_all_known x l : carried x (λ s, Forall (λ m, is_Some (p_objects s !! m)) l).
Proof.
  split.
  - intros u s s' _ Ht Hl. eapply Forall_impl; [exact Hl|]. intros m. by apply (exists_lasting m u).
  - intros s s' Hi Hu Hl. eapply Forall_impl; [exact Hl|]. intros m. by apply (ca_own _ _ (carried_known x m) s).
Qed.

(** Ending the session [m] leaves it no longer live. *)
Lemma end_vacant s m l o x status :
  pf_inv s → status ≠ PortForwardActive → vacant_but (m :: l) o (w_table s) → p_objects s !! m = Some x →
  vacant_but l o (w_table (end_session (dto_ID (ps_dto x)) status s).2).
Proof.
  intros Hi Hst Hv Hx m' Hl. pose proof (undisturbed_end s (dto_ID (ps_dto x)) status Hst) as Hu.
  pose proof (shrinks_live _ _ _ _ _ (pi_sessions _ Hi) (un_shrinks _ _ Hu) Hl) as Hl0.
  pose proof (Hv m' Hl0) as [Hm|Hm]%elem_of_cons; [|exact Hm]. subst m'. exfalso.
  destruct Hl0 as ((i & Hid) & y & Hy & Ha & Ho). unfold p_objects in Hx. simplify_eq.
  destruct (pi_sessions _ Hi i m Hid) as (z & Hz & Hzi). unfold p_objects in Hz. simplify_eq.
  destruct Hl as (_ & y' & Hy' & Ha' & _). revert Hy'. unfold end_session, p_sessions, p_objects. rewrite Hid. simpl.
  rewrite Hx. simpl. unfold is_active, p_objects. rewrite Hx. unfold active_session in Ha. rewrite Ha. simpl.
  rewrite lookup_alter_eq, Hx. simpl. intros [= <-]. unfold active_session in Ha'. apply bool_decide_eq_true in Ha'.
  simpl in Ha'. done.
Qed.

Lemma close_each_safe t n o g l K :
  me t = ByCall n → carried (me t) K →
  psafe t (λ s, K s ∧ (member n o g true (w_gates s) ∧ vacant_but l o (w_table s))
                ∧ Forall (λ m, is_Some (p_objects s !! m)) l)
    (close_each l)
    (λ _ s, K s ∧ Forall (λ m, stopped m (w_table s)) l ∧ member n o g true (w_gates s) ∧ vacant o (w_table s)).
Proof.
  intros Hn. revert K. induction l as [|m l IH]; intros K HK; cbn [close_each].
  { apply safe_return. intros s _ (Hs & Hv & _). split; [done|]. by split. }
  assert (∀ l', carried (me t) (λ s, member n o g true (w_gates s) ∧ vacant_but l' o (w_table s))) as Hvac
    by (intros l'; rewrite Hn; apply carried_vacant).
  eapply safe_compose.
  { apply (look_safe t _ _ (λ i s, (K s ∧ (member n o g true (w_gates s) ∧ vacant_but (m :: l) o (w_table s))
             ∧ Forall (λ m, is_Some (p_objects s !! m)) (m :: l))
             ∧ ∃ x, p_objects s !! m = Some x ∧ dto_ID (ps_dto x) = i)).
    - intros i. apply (carried_and _ _ _ (carried_and _ _ _ HK (carried_and _ _ _ (Hvac _) (carried_all_known _ _))) (carried_identified _ m i)).
    - intros s Hi Hs. split; [done|]. destruct Hs as (_ & _ & Hk). apply Forall_cons in Hk as [[x Hx] _].
      exists x. split; [done|]. unfold object_id. by rewrite Hx. }
  intros i. pose proof (carried_and _ _ _ HK (carried_and _ _ _ (Hvac l) (carried_all_known (me t) (m :: l)))) as HK1.
  eapply safe_compose.
  { apply (pf_finish_safe t _ _ i PortForwardClosed) with (2 := HK1); [|done|].
    - apply (carried_and _ _ _ (carried_and _ _ _ HK (carried_and _ _ _ (Hvac _) (carried_all_known _ _))) (carried_identified _ m i)).
    - intros s Hi ((Hs & [Hm Hv] & Hk) & x & Hx & <-).
      pose proof (undisturbed_end s (dto_ID (ps_dto x)) PortForwardClosed ltac:(done)) as Hu.
      split; [by apply (ca_own _ _ HK s)|]. split; [|by apply (ca_own _ _ (carried_all_known (me t) (m :: l)) s)].
      split; [by rewrite (un_gates _ _ Hu)|]. by eapply end_vacant. }
  intros []. eapply safe_compose.
  { apply (pf_stop_safe t _ m HK1). intros s _ (_ & _ & Hk). by apply Forall_cons in Hk as [? _]. }
  intros []. pose proof (IH _ (carried_and _ _ _ HK (carried_stopped (me t) m))) as Hrest.
  eapply safe_consequence; [|eapply safe_post; [|exact Hrest]].
  - intros s _ [(Hs & Hv & Hk) Hst]. apply Forall_cons in Hk as [_ Hk]. exact (conj (conj Hs Hst) (conj Hv Hk)).
  - intros [] s _ ([Hs Hst] & Hl & Hm & Hv). split_and!; [done|by constructor|done|done].
Qed.

Lemma close_target_safe t n o g K :
  me t = ByCall n → carried (me t) K →
  psafe t (λ s, K s ∧ member n o g true (w_gates s)) (closeTarget arrange n o)
    (λ _ s, (K s ∧ replaced n s) ∧ member n o g true (w_gates s) ∧ vacant o (w_table s)).
Proof.
  intros Hn HK. unfold closeTarget.
  eapply (safe_compose _ _ _ _ _ _ (λ l s, (K s ∧ PfReplacing n l ∈ p_log s)
            ∧ (member n o g true (w_gates s) ∧ vacant_but l o (w_table s))
            ∧ Forall (λ m, is_Some (p_objects s !! m)) l)).
  - apply safe_atomically.
    + intros l. apply pf_mine_stable. rewrite Hn.
      apply kept_and; [apply kept_and; [rewrite <- Hn; apply HK|apply (carried_elem (ByCall n))]|].
      apply kept_and; [apply vacant_mine|apply (carried_all_known (ByCall n))].
    + intros s Hi [Hs Hm]. cbn [fst snd]. set (l := arrange _). split; [apply pf_emit_ok; [done|by rewrite Hn|done]|].
      split; [split; [apply (ca_own _ _ HK s _ Hi); [by apply undisturbed_emit|done]|simpl; set_solver]|].
      assert (∀ m, m ∈ l ↔ ∃ id x, p_sessions s !! id = Some m ∧ p_objects s !! m = Some x ∧ of_origin o x = true) as Hl.
      { intros m. unfold l. rewrite arrange_perm. apply sessions_with_elem. }
      split; [split; [done|]|].
      * intros m ((id & Hid) & x & Hx & Ha & Ho). apply Hl. exists id, x. split_and!; [done|done|].
        by apply bool_decide_eq_true.
      * apply Forall_forall. intros m (id & x & _ & Hx & _)%Hl. by exists x.
  - intros l. pose proof (close_each_safe t n o g l _ Hn (carried_and _ _ _ HK (carried_elem (me t) (PfReplacing n l)))) as Hrest.
    eapply safe_post; [|exact Hrest]. intros [] s _ ([Hs Hin] & Hl & Hm & Hv). split; [split; [done|]|done]. by exists l.
Qed.

(** ** Creating a session *)

(** What a request knows that speaks of neither its slot nor its gate nor what it opened. *)
Record framed (x : who) (Fr : world → Prop) : Prop := {
  fr_carried : carried x Fr;
  fr_frame : ∀ s s', w_idem s' = w_idem s → (∃ l, p_log s' = p_log s ++ l) → Fr s → Fr s' }.
Lemma framed_and x P Q : framed x P → framed x Q → framed x (λ s, P s ∧ Q s).
Proof.
  intros [P1 P2] [Q1 Q2]. split; [by apply carried_and|]. intros s s' H1 H2 [HP HQ]. split; [by eapply P2|by eapply Q2].
Qed.
Lemma framed_log x (P : list pf_event → Prop) : grows P → framed x (λ s, P (p_log s)).
Proof. intros HP. split; [by apply carried_log|]. intros s s' _ [l ->]. apply HP. Qed.
Lemma pf_allowed_grows n key : grows (allowed n key).
Proof. intros l l' (c & Hin & Hc). exists c. set_solver. Qed.
Lemma pf_cleared_grows n key g : grows (cleared n key g).
Proof. intros l l' (a & b & -> & Ha). exists a, (b ++ l'). by rewrite <- app_assoc. Qed.

Definition gated (n : nat) (o : portForwardOrigin) (g : nat) s : Prop :=
  member n o g true (w_gates s) ∧ only n g (w_gates s).
Definition idle (n : nat) s : Prop :=
  p_objects s !! n = None ∧ closed n (w_res s) ∧ no_start n (w_table s).

Lemma carried_gated n o g : carried (ByCall n) (gated n o g).
Proof.
  apply carried_and; [apply (carried_gates n (member n o g true)), member_mine|apply (carried_gates n (only n g)), only_mine].
Qed.
Lemma carried_idle n : carried (ByCall n) (idle n).
Proof. apply carried_and; [apply carried_no_object|apply carried_and; [apply carried_closed|apply carried_no_start]]. Qed.
Lemma carried_replaced x n : carried x (replaced n).
Proof. apply carried_exists. intros l. apply carried_and; [apply carried_elem|apply carried_all_stopped]. Qed.

Lemma pf_current_safe t n gen K (L' : world → Prop) :
  me t = ByCall n → carried (me t) K → mine (me t) L' →
  (∀ s, pf_inv s → K s → gen ≠ "" → L' (emit (PfCleared n gen) s)) →
  psafe t K (requireCurrent n gen) (λ e s, match e with Some _ => K s | None => L' s end).
Proof.
  intros Hn HK HL Hx. apply safe_atomically; [intros [e|]; apply pf_mine_stable; [apply HK|done]|].
  intros s Hi Hs. simpl. destruct (String.eqb gen "" || _) eqn:Hg; simpl; [split; [by apply pf_stay_ok|done]|].
  apply orb_false_iff in Hg as [Hg%String.eqb_neq _].
  split; [|by apply Hx]. apply pf_emit_ok; [done|by rewrite Hn|done].
Qed.
Lemma current_keep_safe t n gen K :
  me t = ByCall n → carried (me t) K → psafe t K (requireCurrent n gen) (λ _, K).
Proof.
  intros Hn HK. eapply safe_post; [|apply (pf_current_safe t n gen K K Hn HK); [apply HK|]]; [by intros [e|]|].
  intros s Hi Hs _. apply (ca_own _ _ HK s (emit (PfCleared n gen) s) Hi); [by apply undisturbed_emit|done].
Qed.

(** The gate of the object. *)
Definition gate_answer (a : @answer F) : bool :=
  match a with GateFree | ContextDone _ | RootDone _ => true | _ => false end.
Lemma acquire_safe t n o Fr :
  me t = ByCall n → framed (me t) Fr →
  psafe t (λ s, Fr s ∧ idle n s ∧ outside n (w_gates s) ∧ ga_objects (w_gates s) !! n = None ∧ n ∉ reservers (p_log s))
    (acquireTarget n o)
    (λ r s, Fr s ∧ idle n s ∧ n ∉ reservers (p_log s)
            ∧ match r with Ok g => gated n o g s | Err _ => outside n (w_gates s) end).
Proof.
  intros Hn HF. pose proof (fr_carried _ _ HF) as HFc. rewrite Hn in HFc.
  pose proof (carried_and _ _ _ HFc (carried_and _ _ _ (carried_idle n) (carried_unreserved n))) as HB.
  assert (∀ b g, mine (ByCall n) (λ s, (Fr s ∧ idle n s ∧ n ∉ reservers (p_log s)) ∧ member n o g b (w_gates s) ∧ only n g (w_gates s))) as Hmem.
  { intros b g. apply kept_and; [apply HB|apply kept_and; [apply member_mine|apply only_mine]]. }
  assert (∀ r : result err nat, mine (ByCall n) (λ s, Fr s ∧ idle n s ∧ n ∉ reservers (p_log s)
            ∧ match r with Ok g => gated n o g s | Err _ => outside n (w_gates s) end)) as Hpost.
  { intros r. apply kept_and; [apply HFc|]. apply kept_and; [apply carried_idle|].
    apply kept_and; [apply unreserved_mine|]. destruct r; [apply carried_gated|apply outside_mine]. }
  unfold acquireTarget.
  eapply (safe_compose _ _ _ _ _ _ (λ g s, (Fr s ∧ idle n s ∧ n ∉ reservers (p_log s)) ∧ member n o g false (w_gates s) ∧ only n g (w_gates s))).
  { apply safe_atomically; [intros g; apply pf_mine_stable; rewrite Hn; apply Hmem|].
    intros s Hi (Hs & (Ho & Hc & Hst) & Hout & Hgate & Hres).
    destruct (enter_gate_ok t s n o Hi Hn Hout Hgate) as (Hstep & Hm & Hon & Ht & Hr & Hd & Hh). split; [done|].
    split; [|done]. split_and!.
    - eapply (fr_frame _ _ HF); [exact Hd| |exact Hs]. exists []. unfold p_log. by rewrite Hh, app_nil_r.
    - split_and!; [unfold p_objects in *; by rewrite Ht|by rewrite Hr|by rewrite Ht].
    - unfold p_log in *. by rewrite Hh. }
  intros g. eapply (safe_compose _ _ _ _ _ _ (λ a s, gate_answer a = true ∧ (Fr s ∧ idle n s ∧ n ∉ reservers (p_log s))
     ∧ member n o g (match a with GateFree => true | _ => false end) (w_gates s) ∧ only n g (w_gates s))).
  { apply safe_receiving; [intros a; apply pf_mine_stable; rewrite Hn; apply kept_and; [apply kept_const|apply Hmem]|done|].
    intros s a Hi (Hs & Hm & Hon) Ha _.
    destruct a; try done; try (split; [by apply pf_stay_ok|done]).
    destruct (take_token_ok t s n o g Hi Hn Hm) as [Hstep Hm'].
    { intros x Hx. simpl in Ha. rewrite Hx in Ha. by destruct x as [[|] ? ?]. }
    split; [done|]. split; [done|]. split; [|split; [done|]].
    - destruct Hs as (HFs & Hid & Hres). split_and!; [|exact Hid|exact Hres].
      refine (fr_frame _ _ HF s _ _ _ HFs); [done|exists []; symmetry; apply app_nil_r].
    - intros g' x. simpl. destruct (decide (g' = g)) as [->|Hne]; [done|]. rewrite lookup_alter_ne by done. apply Hon. }
  assert (∀ e, psafe t (λ s, (Fr s ∧ idle n s ∧ n ∉ reservers (p_log s)) ∧ member n o g false (w_gates s) ∧ only n g (w_gates s))
    (_ ← modify (release_ref n g o); Ret (Err (CtxErr e)))
    (λ (r : result err nat) s, Fr s ∧ idle n s ∧ n ∉ reservers (p_log s)
            ∧ match r with Ok g => gated n o g s | Err _ => outside n (w_gates s) end)) as Hrel.
  { intros e. eapply (safe_compose _ _ _ _ _ _ (λ _ s, Fr s ∧ idle n s ∧ n ∉ reservers (p_log s) ∧ outside n (w_gates s)));
      [|intros []; by apply safe_return].
    apply step_safe; [rewrite Hn; apply (Hpost (Err (CtxErr e)))|]. intros s Hi ((HFs & (Ho & Hc & Hst) & Hres) & Hm & Hon).
    destruct (release_ref_ok t s n o g Hi Hn Hm Hon) as (Hstep & Hout & Ht & Hr & Hd & Hh). split; [done|]. split_and!.
    - eapply (fr_frame _ _ HF); [exact Hd| |exact HFs]. exists []. unfold p_log. by rewrite Hh, app_nil_r.
    - split_and!; [unfold p_objects in *; by rewrite Ht|by rewrite Hr|by rewrite Ht].
    - unfold p_log in *. by rewrite Hh.
    - done. }
  intros [|e|e| | | | | | | | |]; try (apply safe_return; by intros s _ [? _]).
  - eapply safe_consequence; [|apply Hrel]. by intros s _ [_ ?].
  - eapply safe_consequence; [|apply Hrel]. by intros s _ [_ ?].
  - apply safe_return. by intros s _ (_ & (HFs & Hid & Hres) & Hm & Hon).
Qed.

(** What the function handed to [Guard] leaves. *)
Definition after_setup (Fr : world → Prop) (n : nat) (o : portForwardOrigin) (g : nat) (u : @setup F) s : Prop :=
  (Fr s ∧ p_objects s !! n = None ∧ gated n o g s)
  ∧ match su_start u with Some start => my_start n start o (w_table s) | None => no_start n (w_table s) end
  ∧ match su_error u with
    | Some _ => closed n (w_res s)
    | None => vacant o (w_table s)
              ∧ is_Some (su_start u) ∧ is_Some (su_listener u) ∧ su_handle u = true
    end.

(** What a request knows once its slot is reserved and the old session is gone. *)
Definition slotted (Fr : world → Prop) (n : nat) (o : portForwardOrigin) (g : nat) (start : Z) s : Prop :=
  (Fr s ∧ p_objects s !! n = None ∧ gated n o g s) ∧ my_start n start o (w_table s)
  ∧ (member n o g true (w_gates s) ∧ vacant o (w_table s)) ∧ replaced n s.

Lemma carried_basis n o g Fr :
  framed (ByCall n) Fr → carried (ByCall n) (λ s, Fr s ∧ p_objects s !! n = None ∧ gated n o g s).
Proof. intros [HF _]. apply carried_and; [done|apply carried_and; [apply carried_no_object|apply carried_gated]]. Qed.
Lemma carried_slotted n o g start Fr : framed (ByCall n) Fr → carried (ByCall n) (slotted Fr n o g start).
Proof.
  intros HF. apply carried_and; [by apply carried_basis|]. apply carried_and; [apply carried_my_start|].
  apply carried_and; [apply (carried_vacant n o g [])|apply carried_replaced].
Qed.
Lemma slotted_io Fr n o g start s l h :
  framed (ByCall n) Fr → slotted Fr n o g start s → slotted Fr n o g start (set_io l h s).
Proof.
  intros HF ((HFs & Ho & Hg) & Hs & Hv & Hr). split; [|exact (conj Hs (conj Hv Hr))]. split; [|exact (conj Ho Hg)].
  refine (fr_frame _ _ HF s _ _ _ HFs); [done|]. exists []. symmetry. apply app_nil_r.
Qed.

Lemma open_io_ok t s n l h :
  pf_inv s → me t = ByCall n → p_objects s !! n = None →
  l ⊆ {[n]} ∪ re_listeners (w_res s) → h ⊆ {[n]} ∪ re_handles (w_res s) → pstep (Some t) s (set_io l h s).
Proof.
  intros Hi Hn Ho Hl Hh. apply (res_ok t s _ Hi). rewrite Hn. split; simpl; [| |done]; intros m Hm.
  - apply Hl, elem_of_union in Hm as [->%elem_of_singleton|?]; [right; split; done|by left].
  - apply Hh, elem_of_union in Hm as [->%elem_of_singleton|?]; [right; split; done|by left].
Qed.

(** Closing the listener first, then the handle. *)
Lemma close_listener_first t n K :
  me t = ByCall n → carried (me t) K →
  psafe t K (modify (close_listener n)) (λ _ s, K s ∧ n ∉ re_listeners (w_res s)).
Proof.
  intros Hn HK. apply step_safe; [apply kept_and; [apply HK|rewrite Hn; apply no_listener_mine]|].
  intros s Hi Hs. assert (undisturbed s (close_listener n s)) as Hu by (apply undisturbed_res; simpl; set_solver).
  split; [|split; [by eapply (ca_own _ _ HK)|simpl; set_solver]].
  apply (res_ok t s _ Hi). split; simpl; [set_solver|auto|done].
Qed.

Section connecting.
Context (t : goroutine) (n : nat) (o : portForwardOrigin) (g : nat) (start : Z) (b : SelectionBinding)
  (r0 : PortForwardCreateRequest) (key : Key) (target : MutationTarget) (Fr : world → Prop).
Context (Hn : me t = ByCall n) (Ho : o = origin_of b r0) (Hb : binding_of t = Some (b, r0))
  (HF : framed (ByCall n) Fr).
Context (Hkey : access_key (mt_Generation target) (mt_Namespace target) (mt_Name target) key)
  (Hgen : mt_Generation target = og_generation o).
Context (Hcleared : ∀ s, Fr s → cleared n key (og_generation o) (p_log s)).

Lemma slotted_reserved s : slotted Fr n o g start s → reserved t (w_table s).
Proof. intros (_ & Hs & _). exists n, b, r0, start. by rewrite <- Ho. Qed.

(** A failed setup, its listener and handle closed. *)
Lemma slotted_failed s u e :
  su_start u = Some start → slotted Fr n o g start s → closed n (w_res s) → after_setup Fr n o g (with_error e u) s.
Proof. intros Hs (Hb' & Hst & _) Hc. split; [done|]. unfold with_error. simpl. by rewrite Hs. Qed.

Lemma own_carried : carried (me t) (slotted Fr n o g start).
Proof. rewrite Hn. by apply carried_slotted. Qed.

Lemma connect_safe u port :
  su_start u = Some start → is_Some (su_listener u) → su_error u = None →
  (∀ s, Fr s → asks_for t target port (p_log s)) →
  psafe t (λ s, slotted Fr n o g start s ∧ n ∉ re_handles (w_res s))
    (connect n (og_generation o) target port u) (after_setup Fr n o g).
Proof.
  intros Hu Hli Hue Hask. pose proof own_carried as HK. unfold connect.
  eapply safe_compose.
  { apply pf_receive_safe.
    - apply kept_and; [apply HK|rewrite Hn; apply no_handle_mine].
    - intros s Hi [Hs _]. split_and!; [done|apply Hask, Hs|by apply slotted_reserved|].
      exists key. split; [done|]. rewrite Hgen. apply Hcleared, Hs. }
  intros a. set (he := match a with StartIs handle e => (handle, e) | _ => (false, None) end).
  assert (∀ s, answer_known (AskStart n target port) a → he.1 = true → he.2 = None) as Hhe
    by (intros s Ha; unfold he; destruct a; try done; exact Ha).
  destruct he as [handle e]. simpl in Hhe.
  set (u' := {| su_error := _; su_start := _; su_identifier := _; su_listener := _; su_handle := _ |}).
  eapply (safe_compose _ _ _ _ _ _ (λ _ s, slotted Fr n o g start s
            ∧ (handle = false → n ∉ re_handles (w_res s)) ∧ (handle = true → e = None))).
  { destruct handle; cbn [when].
    - apply step_safe; [apply kept_and; [apply HK|by intros v s s' _ _ [_ He]]|].
      intros s Hi [[Hs _] Ha]. split; [|split; [by apply slotted_io|split; [done|by apply Hhe]]].
      apply (open_io_ok t s n); [done|done|apply Hs|set_solver|set_solver].
    - apply safe_return. intros s _ [[Hs Hh] _]. by split_and!. }
  intros []. assert (su_start u' = Some start) as Hu' by exact Hu.
  assert (∀ e, psafe t (λ s, slotted Fr n o g start s ∧ n ∉ re_handles (w_res s))
    (_ ← cancel n; _ ← modify (close_listener n); Ret (with_error e u')) (after_setup Fr n o g)) as Hfail.
  { intros e'. eapply safe_compose.
    { apply cancel_only_safe. apply carried_and; [apply HK|rewrite Hn; apply carried_closed_handle]. }
    intros []. eapply safe_compose; [by apply close_own_listener|]. intros [].
    apply safe_return. intros s _ [Hs Hc]. by apply slotted_failed. }
  destruct e as [e|].
  { eapply safe_consequence; [|apply Hfail]. intros s _ (Hs & Hh & He). split; [done|]. destruct handle; [by specialize (He eq_refl)|by apply Hh]. }
  destruct handle; cbn [negb]; [|eapply safe_consequence; [|apply Hfail]; intros s _ (Hs & Hh & _); split; [done|by apply Hh]].
  eapply safe_compose; [eapply safe_consequence; [|by apply current_keep_safe]; by intros s _ [? _]|].
  intros [c|].
  - eapply safe_compose; [by apply cancel_only_safe|]. intros [].
    eapply safe_compose; [by apply close_listener_first|]. intros [].
    eapply safe_compose; [by apply close_own_handle|]. intros [].
    apply safe_return. intros s _ [Hs Hc]. by apply slotted_failed.
  - apply safe_return. intros s _ (Hb' & Hst & [_ Hv] & _). split; [done|]. simpl. rewrite Hu, Hue.
    by repeat split.
Qed.

Lemma bind_safe u (req : PortForwardCreateRequest) :
  su_start u = Some start → su_error u = None →
  (∀ s, Fr s → asks_for t target (pf_RemotePort req) (p_log s)) →
  psafe t (λ s, slotted Fr n o g start s ∧ closed n (w_res s))
    (bind_port n (og_generation o) target req u) (after_setup Fr n o g).
Proof.
  intros Hu Hue Hask. pose proof own_carried as HK. unfold bind_port.
  assert (carried (me t) (λ s, slotted Fr n o g start s ∧ closed n (w_res s))) as HKc
    by (apply carried_and; [done|rewrite Hn; apply carried_closed]).
  eapply safe_compose.
  { apply pf_receive_safe; [apply HKc|]. intros s Hi [Hs _]. split_and!; [done|apply Hs|by apply slotted_reserved]. }
  assert (∀ e, psafe t (λ s, slotted Fr n o g start s ∧ closed n (w_res s)) (Ret (with_error e u)) (after_setup Fr n o g)) as Herr.
  { intros e. apply safe_return. intros s _ [Hs Hc]. by apply slotted_failed. }
  assert (∀ A : Prop, psafe t (λ s, (slotted Fr n o g start s ∧ closed n (w_res s)) ∧ A)
    (Ret (with_error internal_error u)) (after_setup Fr n o g)) as Hint.
  { intros A. eapply safe_consequence; [|apply Herr]. by intros s _ [? _]. }
  intros [| | | | | | |[[loopback port]|e]| | | |]; try apply Hint.
  - eapply safe_compose.
    { apply (step_safe t _ _ (λ s, slotted Fr n o g start s ∧ n ∉ re_handles (w_res s))).
      - apply kept_and; [apply HK|rewrite Hn; apply no_handle_mine].
      - intros s Hi [[Hs [_ Hh]] _]. split; [|split; [by apply slotted_io|done]].
        apply (open_io_ok t s n); [done|done|apply Hs|set_solver|set_solver]. }
    intros []. set (u' := {| su_error := _; su_start := _; su_identifier := _; su_listener := _; su_handle := _ |}).
    destruct (_ || (65535 <? port)%Z).
    + eapply safe_compose; [by apply close_own_listener|]. intros [].
      apply safe_return. intros s _ [Hs Hc]. by apply (slotted_failed s u').
    + apply connect_safe; try done.
  - eapply safe_compose; [|intros e'; apply Herr].
    unfold translateBindError. eapply safe_compose; [apply pf_receive_safe; [|done]|].
    + apply kept_and; [apply HKc|apply kept_const].
    + intros a. apply safe_return. by intros s _ [[? _] _].
Qed.
End connecting.

Lemma attach_reservation_safe t n start K :
  carried (me t) K → psafe t K (attachReservation n start) (λ _, K).
Proof.
  intros HK. unfold attachReservation. eapply (safe_compose _ _ _ _ _ _ (λ _, K)).
  - apply safe_atomically; [intros _; apply pf_mine_stable, HK|]. intros s Hi Hs.
    split; [by apply attach_ok|]. apply (ca_own _ _ HK s _ Hi); [apply undisturbed_attach|done].
  - intros [[shutdown isStale]|].
    + destruct (shutdown || isStale); [|by apply safe_return].
      eapply safe_compose; [by apply cancel_only_safe|]. intros []. by apply safe_return.
    + eapply safe_compose; [by apply cancel_only_safe|]. intros []. by apply safe_return.
Qed.
Lemma after_func_safe t n K : carried (me t) K → psafe t K (modify (after_func n)) (λ _, K).
Proof.
  intros HK. apply carry_safe; [done|]. intros s Hi _. unfold after_func. split.
  - apply res_ok; [done|]. destruct (p_ctx s !! n); by split; simpl; auto.
  - apply undisturbed_res; by destruct (p_ctx s !! n).
Qed.
Lemma stop_after_safe t n K : carried (me t) K → psafe t K (modify (stop_after n)) (λ _, K).
Proof.
  intros HK. apply carry_safe; [done|]. intros s Hi _. split; [apply res_ok; [done|by split; auto]|by apply undisturbed_res].
Qed.

(** [if err := p; err != nil], where [p] leaves what is known alone. *)
Lemma or_fail_safe t K (u : @setup F) p k P :
  psafe t K p (λ _, K) → (∀ e s, pf_inv s → K s → P (with_error e u) s) → psafe t K k P → psafe t K (or_fail u p k) P.
Proof.
  intros Hp He Hk. unfold or_fail. eapply safe_compose; [exact Hp|]. intros [e|]; [|done].
  apply safe_return. intros s Hi Hs. by apply He.
Qed.

Section creating.
Context (t : goroutine) (n : nat) (o : portForwardOrigin) (g : nat) (b : SelectionBinding)
  (r0 : PortForwardCreateRequest) (key : Key) (target : MutationTarget) (req : PortForwardCreateRequest).
Context (Hn : me t = ByCall n) (Ho : o = origin_of b r0) (Hb : binding_of t = Some (b, r0)).
Context (Hkey : access_key (mt_Generation target) (mt_Namespace target) (mt_Name target) key)
  (Hgen : mt_Generation target = og_generation o).
Context (Hnum : numbered n).

Lemma replace_safe Fr start :
  framed (ByCall n) Fr → (∀ s, Fr s → cleared n key (og_generation o) (p_log s)) →
  (∀ s, Fr s → asks_for t target (pf_RemotePort req) (p_log s)) →
  psafe t (λ s, (Fr s ∧ p_objects s !! n = None ∧ gated n o g s) ∧ my_start n start o (w_table s) ∧ closed n (w_res s))
    (replace NewID arrange n o target req start) (after_setup Fr n o g).
Proof.
  intros HF Hcl Hask. unfold replace. set (u := {| su_error := None |}).
  pose proof (carried_and _ _ _ (carried_basis n o g Fr HF)
    (carried_and _ _ _ (carried_my_start n start o) (carried_closed n))) as HK. rewrite <- Hn in HK.
  eapply safe_compose.
  { eapply safe_consequence; [|exact (close_target_safe t n o g _ Hn HK)]. intros s _ Hs. split; [exact Hs|].
    by destruct Hs as ((_ & _ & Hm & _) & _). }
  intros []. set (K := λ s, slotted Fr n o g start s ∧ closed n (w_res s)).
  assert (carried (me t) K) as HK2 by (rewrite Hn; apply carried_and; [by apply carried_slotted|apply carried_closed]).
  assert (∀ e u' s, su_start u' = Some start → K s → after_setup Fr n o g (with_error e u') s) as Hfail.
  { intros e u' s Hu [Hs Hc]. by eapply slotted_failed. }
  eapply safe_compose.
  { eapply safe_consequence; [|apply (after_func_safe t n K HK2)].
    intros s _ [[(Hbs & Hst & Hc) Hre] Hv]. split; [|exact Hc]. by repeat split; try apply Hbs; try apply Hv. }
  intros []. apply or_fail_safe; [by apply attach_reservation_safe|intros e s _; by apply Hfail|].
  apply or_fail_safe; [by apply current_keep_safe|intros e s _; by apply Hfail|].
  destruct (NewID n) as [id|].
  - by eapply (bind_safe t n o g start b r0 key target Fr).
  - apply safe_return. intros s _. by apply Hfail.
Qed.

(** The function handed to [Guard], once a review allowed it. *)
Lemma upgrade_safe Fr :
  framed (ByCall n) Fr → (∀ s, Fr s → allowed n key (p_log s)) →
  (∀ s, Fr s → asks_for t target (pf_RemotePort req) (p_log s)) →
  psafe t (λ s, Fr s ∧ idle n s ∧ gated n o g s ∧ n ∉ reservers (p_log s))
    (upgrade NewID arrange retention n o target req) (after_setup Fr n o g).
Proof.
  intros HF Hal Hask. unfold upgrade.
  pose proof (carried_and _ _ _ (fr_carried _ _ HF) (carried_and _ _ _ (carried_idle n)
    (carried_and _ _ _ (carried_gated n o g) (carried_unreserved n)))) as HK. rewrite <- Hn in HK.
  set (K := λ s, Fr s ∧ idle n s ∧ gated n o g s ∧ n ∉ reservers (p_log s)) in *.
  assert (∀ e s, K s → after_setup Fr n o g (with_error e nothing_set) s) as Hfail.
  { intros e s (HFs & (Hob & Hc & Hst) & Hg & _). by repeat split; try apply Hg; try apply Hc. }
  apply or_fail_safe; [apply pf_look_safe, HK|intros e s _; apply Hfail|].
  set (Fr' := λ s, Fr s ∧ cleared n key (og_generation o) (p_log s)).
  assert (framed (ByCall n) Fr') as HF'.
  { apply framed_and; [done|]. apply (framed_log _ (cleared n key (og_generation o))), pf_cleared_grows. }
  unfold or_fail. eapply safe_compose.
  { apply (pf_current_safe t n (og_generation o) K (λ s, K s ∧ cleared n key (og_generation o) (p_log s)) Hn HK).
    - apply kept_and; [apply HK|]. rewrite Hn. apply lasting_mine, (log_lasting (cleared n key (og_generation o))), pf_cleared_grows.
    - intros s Hi Hs _. split; [apply (ca_own _ _ HK s); [done|by apply undisturbed_emit|done]|].
      exists (p_log s), []. split; [done|]. apply Hal, Hs. }
  intros [e|]; [apply safe_return; intros s _; apply Hfail|].
  eapply (safe_compose _ _ _ _ _ _ (λ r s, (Fr' s ∧ p_objects s !! n = None ∧ gated n o g s) ∧ closed n (w_res s)
            ∧ match r with Ok start => my_start n start o (w_table s) | Err _ => no_start n (w_table s) end)).
  - apply safe_atomically.
    + intros r. apply pf_mine_stable. rewrite Hn. apply kept_and; [by apply carried_basis|].
      apply kept_and; [apply closed_mine|]. destruct r; [apply my_start_mine|apply no_start_mine].
    + intros s Hi [(HFs & (Hob & Hc & Hst) & Hg & Hres) Hcl].
      destruct (pf_reserve_ok t s n o g Hi Hn Hnum Hres Hst (proj1 Hg)) as (H1 & H2 & H3 & H4 & H5 & H6 & _ & H8).
      split; [done|]. split_and!; [|by rewrite H6|by unfold gated; rewrite H3|by rewrite H4|done].
      refine (fr_frame _ _ HF' s _ H5 _ _); [|by split]. destruct H8 as [l Hl]. by exists l.
  - intros [start|e].
    + eapply safe_consequence; [|eapply safe_post; [|apply (replace_safe Fr' start HF')]].
      * intros s _ (Hbs & Hc & Hst). exact (conj Hbs (conj Hst Hc)).
      * intros u s _ (([HFs _] & Hob & Hg) & Hst & Hu). exact (conj (conj HFs (conj Hob Hg)) (conj Hst Hu)).
      * by intros s [_ ?].
      * intros s [? _]. by apply Hask.
    + apply safe_return. intros s _ (([HFs _] & Hob & Hg) & Hc & Hst). exact (conj (conj HFs (conj Hob Hg)) (conj Hst Hc)).
Qed.

(** [Guard]: the function ran only if the review allowed it. *)
Definition guard_result (Fr : world → Prop) (x : option (@setup F) * option err) s : Prop :=
  match x with
  | (None, Some _) => Fr s ∧ idle n s ∧ gated n o g s
  | (Some u, e) => after_setup Fr n o g u s ∧ (e = None ↔ su_error u = None)
  | (None, None) => False
  end.

Lemma upgrade_permitted k c :
  cap_Decision c ∈ [DecisionAllowed; DecisionDenied; DecisionUnknown] →
  (∃ res e, revalidated k OperationUpgrade c = GuardDone res (Some e)) ∨ cap_Decision c = DecisionAllowed.
Proof.
  intros Hd. unfold revalidated. destruct (String.eqb _ DecisionDenied) eqn:H1; [left; eauto|].
  destruct (String.eqb (cap_Decision c) DecisionUnknown) eqn:H2; simpl; [left; eauto|right].
  apply String.eqb_neq in H1, H2. rewrite !elem_of_cons in Hd.
  destruct Hd as [?|[?|[?|Hd]]]; [done|done|done|by inversion Hd].
Qed.

Lemma guard_safe Fr :
  framed (ByCall n) Fr → (∀ s, Fr s → asks_for t target (pf_RemotePort req) (p_log s)) →
  psafe t (λ s, Fr s ∧ idle n s ∧ gated n o g s ∧ n ∉ reservers (p_log s))
    (PortForward.guarded n key (upgrade NewID arrange retention n o target req)) (guard_result Fr).
Proof.
  intros HF Hask. unfold PortForward.guarded.
  pose proof (carried_and _ _ _ (fr_carried _ _ HF) (carried_and _ _ _ (carried_idle n)
    (carried_and _ _ _ (carried_gated n o g) (carried_unreserved n)))) as HK. rewrite <- Hn in HK.
  set (K := λ s, Fr s ∧ idle n s ∧ gated n o g s ∧ n ∉ reservers (p_log s)) in *.
  assert (∀ e s, K s → guard_result Fr (None, Some e) s) as Hfail by (by intros e s (? & ? & ? & _)).
  eapply safe_compose; [apply pf_look_safe, HK|]. intros now.
  set (rest := a ← receive (AskReview n key); _).
  assert (psafe t K rest (guard_result Fr)) as Hrest; [|destruct (call_guard key OperationUpgrade now) as [| | | | |res [e|]]; try exact Hrest; by apply safe_return; intros s _; apply Hfail].
  unfold rest. clear rest. eapply safe_compose; [by apply pf_receive_safe; [apply HK|]|].
  intros [| | | | | |c| | | | |]; try (apply safe_return; intros s _ [? _]; by apply Hfail).
  eapply safe_compose.
  { apply (step_safe t _ _ (λ s, (K s ∧ PfReviewed n key c ∈ p_log s)
             ∧ cap_Decision c ∈ [DecisionAllowed; DecisionDenied; DecisionUnknown])).
    - apply kept_and; [apply kept_and; [apply HK|apply (carried_elem (me t))]|apply kept_const].
    - intros s Hi [Hs Ha]. split; [apply pf_emit_ok; [done|by rewrite Hn|done]|].
      split; [split; [by apply (ca_own _ _ HK s), Hs; [|apply undisturbed_emit]|simpl; set_solver]|exact Ha]. }
  intros []. destruct (decide (cap_Decision c ∈ [DecisionAllowed; DecisionDenied; DecisionUnknown])) as [Hd|Hd];
    [|eapply safe_consequence; [|apply safe_absurd]; by intros s _ [_ ?]].
  destruct (upgrade_permitted key c Hd) as [(res & e & ->)|Hal].
  { apply safe_return. intros s _ [[? _] _]. by apply Hfail. }
  set (Fr' := λ s, Fr s ∧ allowed n key (p_log s)).
  assert (framed (ByCall n) Fr') as HF'.
  { apply framed_and; [done|]. apply (framed_log _ (allowed n key)), pf_allowed_grows. }
  assert (psafe t (λ s, (K s ∧ PfReviewed n key c ∈ p_log s) ∧ cap_Decision c ∈ [DecisionAllowed; DecisionDenied; DecisionUnknown])
    (u ← upgrade NewID arrange retention n o target req;
     Ret (Some u, (λ e, AuthErr (TranslateOperationError e)) <$> su_error u)) (guard_result Fr)) as Hup.
  { eapply (safe_compose _ _ _ _ _ _ (after_setup Fr' n o g)).
    - eapply safe_consequence; [|apply (upgrade_safe Fr' HF')].
      + intros s _ [[(HFs & Hid & Hg & Hres) Hin] _]. exact (conj (conj HFs (ex_intro _ c (conj Hin Hal))) (conj Hid (conj Hg Hres))).
      + by intros s [_ ?].
      + intros s [? _]. by apply Hask.
    - intros u. apply safe_return. intros s _ (([HFs _] & Hob & Hg) & Hst & Hu).
      split; [exact (conj (conj HFs (conj Hob Hg)) (conj Hst Hu))|]. by destruct (su_error u). }
  destruct (revalidated key OperationUpgrade c) as [| | | | |res [e|]]; try exact Hup.
  apply safe_return. intros s _ [[? _] _]. by apply Hfail.
Qed.
End creating.

(** The end of [createOnce], before the gate is given back. *)
Definition finished (Fr : world → Prop) (n : nat) (o : portForwardOrigin) (g : nat) (r : result err PortForwardDTO) s : Prop :=
  (Fr s ∧ gated n o g s ∧ no_start n (w_table s))
  ∧ match r with Err _ => closed n (w_res s) | Ok dto => made n dto (w_table s) end.

Lemma carried_made x n dto : carried x (λ s, made n dto (w_table s)).
Proof.
  split; [apply lasting_mine, made_lasting|]. intros s s' Hi Hu Hm.
  assert (∀ a b : portForwardSession, grown a b →
    (ps_dto a = dto ∨ ∃ status now, status ≠ PortForwardActive ∧ ps_dto a = dto_ended status now dto) →
    ps_dto b = dto ∨ ∃ status now, status ≠ PortForwardActive ∧ ps_dto b = dto_ended status now dto) as Hg.
  { intros a b [_ [->|(_ & st & now & Hst & ->)] _] Ha; [done|]. right. exists st, now. split; [done|].
    by destruct Ha as [->|(st' & now' & _ & ->)]. }
  exact (ca_own _ _ (carried_object x n _ Hg) s s' Hi Hu Hm).
Qed.
Lemma carried_finished Fr n o g r : framed (ByCall n) Fr → carried (ByCall n) (finished Fr n o g r).
Proof.
  intros HF. apply carried_and; [apply carried_and; [apply HF|apply carried_and; [apply carried_gated|apply carried_no_start]]|].
  destruct r; [apply carried_made|apply carried_closed].
Qed.

(** A spawned monitor. *)
Lemma spawn_safe t K n :
  mine (me t) K → (∀ s, K s → K (spawn (λ k, GoMonitor k n) s)) →
  psafe t K (modify (spawn (λ k, GoMonitor k n))) (λ _, K).
Proof.
  intros HK Hf. apply step_safe; [done|]. intros s Hi Hs. split; [|by apply Hf].
  destruct (rest_invariant (Some (me t)) s (spawn (λ k, GoMonitor k n) s) None Hi) as [H1 H2].
  - split; auto with pf; try done.
    + split; [apply Hi|apply registry_step_refl].
    + split; [done|apply Hi].
    + exact (gates_same _ s Hi).
    + split; [symmetry; apply app_nil_r|done].
  - exists [λ k, GoMonitor k n]. split; [done|]. intros k. by constructor.
  - split_and!; [done|done|]. simpl. unfold started_by, p_spawned. simpl. rewrite drop_app_length. simpl.
    constructor; [|done]. by intros m.
Qed.

Section finishing.
Context (t : goroutine) (n : nat) (o : portForwardOrigin) (g : nat) (Fr : world → Prop).
Context (Hn : me t = ByCall n) (HF : framed (ByCall n) Fr).

Lemma pf_release_safe start :
  psafe t (λ s, (Fr s ∧ gated n o g s ∧ closed n (w_res s)) ∧ my_start n start o (w_table s))
    (releaseReservation start) (λ _ s, Fr s ∧ gated n o g s ∧ closed n (w_res s) ∧ no_start n (w_table s)).
Proof.
  unfold releaseReservation.
  assert (carried (me t) (λ s, Fr s ∧ gated n o g s ∧ closed n (w_res s) ∧ no_start n (w_table s))) as HK.
  { rewrite Hn. apply carried_and; [apply HF|]. apply carried_and; [apply carried_gated|].
    apply carried_and; [apply carried_closed|apply carried_no_start]. }
  eapply (safe_compose _ _ _ _ _ _ (λ _ s, Fr s ∧ gated n o g s ∧ closed n (w_res s) ∧ no_start n (w_table s))).
  - apply safe_atomically; [intros _; apply pf_mine_stable, HK|]. intros s Hi ((HFs & Hg & Hc) & Hst).
    cbn [fst snd]. split; [by eapply pf_drop_ok|]. destruct Hst as (st & Hst & Hr & _).
    split; [|split; [exact Hg|split; [exact Hc|by eapply no_start_drop]]].
    refine (fr_frame _ _ HF s _ _ _ HFs); [done|]. exists []. symmetry. apply app_nil_r.
  - intros [c|]; [by apply cancel_only_safe|by apply safe_return].
Qed.

(** [Guard] failed: nothing stays open. *)
Lemma guard_failed_safe gen x e :
  psafe t (λ s, guard_result n o g Fr (x, Some e) s) (guard_failed n gen x e) (finished Fr n o g).
Proof.
  unfold guard_failed. set (u := default nothing_set x).
  set (start_fact := λ s, match su_start u with Some start => my_start n start o (w_table s) | None => no_start n (w_table s) end).
  set (K := λ s, (Fr s ∧ gated n o g s ∧ closed n (w_res s)) ∧ start_fact s).
  assert (carried (me t) K) as HK.
  { rewrite Hn. apply carried_and.
    - apply carried_and; [apply HF|]. apply carried_and; [apply carried_gated|apply carried_closed].
    - unfold start_fact. destruct (su_start u); [apply carried_my_start|apply carried_no_start]. }
  eapply safe_compose.
  { eapply safe_consequence; [|apply safe_when, (close_listener_safe t K n HK)].
    unfold K, start_fact, u. intros s _ Hs. destruct x as [u'|]; simpl in *.
    - destruct Hs as (((HFs & Hob & Hg) & Hst & Hu) & He). destruct (su_error u') eqn:Herr; [by split|].
      destruct He as [_ He]. by discriminate He.
    - destruct Hs as (HFs & (Hob & Hc & Hst) & Hg). done. }
  intros []. set (K' := λ s, Fr s ∧ gated n o g s ∧ closed n (w_res s) ∧ no_start n (w_table s)).
  assert (carried (me t) K') as HK'.
  { rewrite Hn. apply carried_and; [apply HF|]. apply carried_and; [apply carried_gated|].
    apply carried_and; [apply carried_closed|apply carried_no_start]. }
  assert (∀ s e', K' s → finished Fr n o g (Err e') s) as Hfin.
  { intros s e' (HFs & Hg & Hc & Hst). exact (conj (conj HFs (conj Hg Hst)) Hc). }
  eapply (safe_compose _ _ _ _ _ _ (λ _, K')).
  { unfold K, start_fact. destruct (su_start u) as [start|]; [apply pf_release_safe|].
    apply safe_return. intros s _ ((HFs & Hg & Hc) & Hst). by split_and!. }
  intros []. eapply safe_compose; [by apply current_keep_safe|]. intros [c|].
  - apply safe_return. intros s _ Hs. by apply Hfin.
  - eapply safe_compose; [apply pf_look_safe, HK'|].
    intros [|]; apply safe_return; intros s _ Hs; by apply Hfin.
Qed.

Lemma publish_session_safe start dto target :
  dto_origin dto = o → dto_Generation dto = og_generation o →
  psafe t (λ s, (Fr s ∧ p_objects s !! n = None ∧ gated n o g s) ∧ my_start n start o (w_table s) ∧ vacant o (w_table s))
    (publish_session n start dto target) (finished Fr n o g).
Proof.
  intros Hdo Hdg. unfold publish_session. set (x := {| ps_dto := dto |}).
  set (K := λ s, (Fr s ∧ gated n o g s) ∧ made n dto (w_table s)).
  assert (carried (ByCall n) K) as HK.
  { apply carried_and; [apply carried_and; [apply HF|apply carried_gated]|apply carried_made]. }
  pose proof (carried_vacant n o g []) as HV. pose proof (carried_my_start n start o) as HS.
  eapply (safe_compose _ _ _ _ _ _ (λ _ s, (K s ∧ my_start n start o (w_table s))
            ∧ member n o g true (w_gates s) ∧ vacant o (w_table s))).
  { apply step_safe; [rewrite Hn; apply kept_and; [apply kept_and; [apply HK|apply HS]|apply HV]|].
    intros s Hi ((HFs & Hob & Hg) & Hst & Hv).
    split; [by apply (alloc_ok t s n x)|]. split; [split; [split; [split; [|exact Hg]|]|exact Hst]|split; [exact (proj1 Hg)|]].
    - refine (fr_frame _ _ HF s _ _ _ HFs); [done|]. exists []. symmetry. apply app_nil_r.
    - exists x. simpl. rewrite lookup_insert_eq. split; [done|by left].
    - intros m ((i & Him) & y & Hy & Ha & Hyo). apply (Hv m). split; [by exists i|].
      destruct (pi_sessions _ Hi i m Him) as (z & Hz & _). exists z. split; [exact Hz|]. simpl in Hy.
      rewrite lookup_insert_ne in Hy by (intros <-; congruence). unfold p_objects in Hz.
      assert (z = y) as -> by congruence. by split. }
  intros []. eapply (safe_compose _ _ _ _ _ _ (λ _ s, K s ∧ no_start n (w_table s))).
  { apply safe_atomically; [intros _; apply pf_mine_stable; rewrite Hn; apply kept_and; [apply HK|apply no_start_mine]|].
    intros s Hi ((((HFs & Hg) & Hm) & Hst) & Hmem & Hv). destruct Hm as (y & Hy & Hd).
    assert (dto_ID (ps_dto y) = dto_ID dto ∧ dto_origin (ps_dto y) = o) as [Hid Hyo].
    { by destruct Hd as [->|(st & now & _ & ->)]. }
    destruct (publish_ok t s n start o g y Hi Hn Hst Hv Hmem Hy Hyo) as (H1 & H2 & H3 & H4 & H5 & z & Hz & Hzd).
    rewrite Hdg, <- Hid. split; [done|]. split; [|done]. split; [split|].
    - refine (fr_frame _ _ HF s _ _ _ HFs); [done|]. exists []. by rewrite app_nil_r.
    - unfold gated. by rewrite H3.
    - exists z. split; [done|]. by rewrite Hzd. }
  assert (carried (me t) (λ s, K s ∧ no_start n (w_table s))) as HK2
    by (rewrite Hn; apply carried_and; [done|apply carried_no_start]).
  intros [e|].
  - eapply safe_compose; [apply (pf_stop_safe t _ n HK2); intros s _ [[_ (y & Hy & _)] _]; by exists y|].
    intros []. apply safe_return. intros s Hi [[[[HFs Hg] _] Hst] (y & Hy & Hdone)].
    split; [by split_and!|]. apply (pi_done _ Hi n y Hy Hdone).
  - eapply safe_compose; [apply (spawn_safe t _ n (ca_mine _ _ HK2))|].
    + intros s [[[HFs Hg] Hm] Hst]. split; [split; [split; [|exact Hg]|exact Hm]|exact Hst].
      refine (fr_frame _ _ HF s _ _ _ HFs); [done|]. exists []. symmetry. apply app_nil_r.
    + intros []. apply safe_return. intros s _ [[[HFs Hg] Hm] Hst]. exact (conj (conj HFs (conj Hg Hst)) Hm).
Qed.
End finishing.

Section once_each.
Context (t : goroutine) (n : nat) (b : SelectionBinding) (r0 req : PortForwardCreateRequest).
Context (Hn : me t = ByCall n) (Hb : binding_of t = Some (b, r0)) (Hnum : numbered n).

Lemma create_guarded_safe g target Fr :
  framed (ByCall n) Fr → mt_Generation target = bind_Generation b →
  mt_Namespace target = tg_Namespace (cf_Target (pf_Confirmation r0)) →
  (∀ s, Fr s → asks_for t target (pf_RemotePort req) (p_log s)) →
  psafe t (λ s, Fr s ∧ idle n s ∧ gated n (origin_of b r0) g s ∧ n ∉ reservers (p_log s))
    (create_guarded NewID arrange duration retention n b (origin_of b r0) target req r0)
    (finished Fr n (origin_of b r0) g).
Proof.
  intros HF Hg Hns Hask. unfold create_guarded. set (o := origin_of b r0).
  destruct (KeyForCapability _ _ _ _) as [key|e] eqn:Hkey.
  2: { apply safe_return. intros s _ (HFs & (Ho & Hc & Hst) & Hgt & _). exact (conj (conj HFs (conj Hgt Hst)) Hc). }
  eapply safe_compose.
  { eapply (guard_safe t n o g b r0 key target req); try done. unfold access_key. by rewrite Hg. }
  intros [x [e|]]; [by apply guard_failed_safe|].
  destruct x as [[ue [start|] id li he]|]; cbn [guard_result].
  2: { eapply safe_consequence; [|apply safe_absurd]. intros s _ [(_ & _ & Hu) He]. simpl in *.
       destruct ue; [by destruct He as [He _]; specialize (He eq_refl)|]. destruct Hu as (_ & Hu & _). by destruct Hu. }
  2: { eapply safe_consequence; [|apply safe_absurd]. by intros s _ ?. }
  destruct li as [port|]; [destruct he|].
  - eapply (safe_consequence _ _ _ (λ s, (Fr s ∧ p_objects s !! n = None ∧ gated n o g s)
      ∧ my_start n start o (w_table s) ∧ member n o g true (w_gates s) ∧ vacant o (w_table s))).
    { intros s _ [(Hbs & Hst & Hu) He]. simpl in *.
      destruct ue; [by destruct He as [He _]; specialize (He eq_refl)|]. destruct Hu as [Hv _].
      split; [exact Hbs|]. split; [exact Hst|]. split; [apply Hbs|exact Hv]. }
    eapply safe_compose; [apply pf_look_safe|].
    { rewrite Hn. apply (ca_mine _ _ (carried_and _ _ _ (carried_basis n o g Fr HF)
        (carried_and _ _ _ (carried_my_start n start o) (carried_vacant n o g [])))). }
    intros now. eapply safe_consequence; [|apply (publish_session_safe t n o g Fr Hn HF start _ target)].
    + intros s _ (Hbs & Hst & _ & Hv). exact (conj Hbs (conj Hst Hv)).
    + unfold dto_origin, new_dto, o, origin_of. simpl. by rewrite Hns.
    + done.
  - eapply safe_consequence; [|apply safe_absurd]. intros s _ [(_ & _ & Hu) He]. simpl in *.
    destruct ue; [by destruct He as [He _]; specialize (He eq_refl)|]. by destruct Hu as (_ & _ & _ & ?).
  - eapply safe_consequence; [|apply safe_absurd]. intros s _ [(_ & _ & Hu) He]. simpl in *.
    destruct ue; [by destruct He as [He _]; specialize (He eq_refl)|]. destruct Hu as (_ & _ & Hu & _). by destruct Hu.
Qed.

Lemma create_once_safe Fr :
  framed (ByCall n) Fr → tg_Namespace (cf_Target (pf_Confirmation req)) = tg_Namespace (cf_Target (pf_Confirmation r0)) →
  (∀ s, Fr s → asks_for t (mutationTarget b (cf_Target (pf_Confirmation req))) (pf_RemotePort req) (p_log s)) →
  psafe t (λ s, Fr s ∧ idle n s ∧ outside n (w_gates s) ∧ ga_objects (w_gates s) !! n = None ∧ n ∉ reservers (p_log s))
    (createOnce NewID arrange duration retention n b req r0) (λ r s, Fr s ∧ settled n r s).
Proof.
  intros HF Hns Hask. unfold createOnce. set (o := origin_of b r0). set (target := mutationTarget b _).
  eapply safe_compose; [apply (acquire_safe t n o Fr Hn); by rewrite Hn|].
  intros [g|e].
  2: { apply safe_return. intros s _ (HFs & (Ho & Hc & Hst) & _ & Hout). split; [done|]. exact (conj Hst (conj Hout Hc)). }
  eapply safe_compose; [apply pf_look_safe|].
  { rewrite Hn. apply kept_and; [apply HF|]. apply kept_and; [apply carried_idle|]. apply kept_and; [apply unreserved_mine|apply carried_gated]. }
  intros started. eapply safe_compose.
  { eapply safe_consequence; [|apply (create_guarded_safe g target Fr HF); try done].
    intros s _ (HFs & Hid & Hres & Hg). by split_and!. }
  intros r. pose proof (carried_finished Fr n o g r HF) as HK. rewrite <- Hn in HK.
  eapply safe_compose; [by apply stop_after_safe|]. intros [].
  eapply safe_compose; [by apply pf_audit_safe|]. intros []. unfold release_gate.
  set (M := λ s, match r with Err _ => closed n (w_res s) | Ok dto => made n dto (w_table s) end).
  assert (mine (ByCall n) M) as HM by (unfold M; destruct r; [apply carried_made|apply closed_mine]).
  eapply (safe_compose _ _ _ _ _ _ (λ _ s, Fr s ∧ settled n r s)); [|intros []; by apply safe_return].
  eapply (safe_compose _ _ _ _ _ _ (λ _ s, (Fr s ∧ no_start n (w_table s) ∧ M s)
            ∧ member n o g false (w_gates s) ∧ only n g (w_gates s))).
  - apply step_safe.
    + rewrite Hn. apply kept_and; [apply kept_and; [apply HF|apply kept_and; [apply no_start_mine|done]]|].
      apply kept_and; [apply member_mine|apply only_mine].
    + intros s Hi ((HFs & [Hm Hon] & Hst) & HMs).
      destruct (give_token_ok t s n o g Hi Hn Hm Hst) as [Hstep Hm']. split; [done|].
      split; [split; [|exact (conj Hst HMs)]|split; [exact Hm'|]].
      * refine (fr_frame _ _ HF s _ _ _ HFs); [done|]. exists []. symmetry. apply app_nil_r.
      * intros g' x. simpl. destruct (decide (g' = g)) as [->|Hne]; [done|]. rewrite lookup_alter_ne by done. apply Hon.
  - intros []. apply step_safe.
    + rewrite Hn. apply kept_and; [apply HF|]. apply kept_and; [apply no_start_mine|]. apply kept_and; [apply outside_mine|done].
    + intros s Hi ((HFs & Hst & HMs) & Hm & Hon).
      destruct (release_ref_ok t s n o g Hi Hn Hm Hon) as (Hstep & Hout & Ht & Hr & Hd & Hh). split; [done|]. split.
      * refine (fr_frame _ _ HF s _ Hd _ HFs). exists []. unfold p_log. by rewrite Hh, app_nil_r.
      * split; [by rewrite Ht|]. split; [done|]. unfold M in HMs. destruct r; [by rewrite Ht|by rewrite Hr].
Qed.
End once_each.

(** ** Idempotent creation *)

Lemma pf_registry_safe {A} t (L : world → Prop) (f : world → idempotencyRegistry F PortForwardDTO → A * idempotencyRegistry F PortForwardDTO)
    (P : A → world → Prop) :
  (∀ a, mine (me t) (P a)) →
  (∀ s, pf_inv s → L s →
     registry_inv (p_now s) (f s (w_idem s)).2
     ∧ registry_step (caller_of (Some (me t))) (w_idem s) (f s (w_idem s)).2
     ∧ P (f s (w_idem s)).1 (set_idem (f s (w_idem s)).2 s)) →
  psafe t L (on_registry w_idem set_idem f) P.
Proof.
  intros HP Hf. apply safe_atomically; [intros a; by apply pf_mine_stable|]. intros s Hi HL.
  destruct (Hf s Hi HL) as (H1 & H2 & H3). split; [by apply idem_ok|done].
Qed.

Definition ready_once (n : nat) s : Prop :=
  idle n s ∧ outside n (w_gates s) ∧ ga_objects (w_gates s) !! n = None ∧ n ∉ reservers (p_log s).
Lemma carried_ready n : carried (ByCall n) (ready_once n).
Proof.
  apply carried_and; [apply carried_idle|]. apply carried_and; [apply (carried_gates n (outside n)), outside_mine|].
  apply carried_and; [apply (carried_gates n (λ w, ga_objects w !! n = None)), no_gate_mine|apply carried_unreserved].
Qed.
Definition resting (n : nat) s : Prop := no_start n (w_table s) ∧ outside n (w_gates s) ∧ closed n (w_res s).
Lemma ready_resting n s : ready_once n s → resting n s.
Proof. intros ((_ & Hc & Hst) & Hout & _). by split_and!. Qed.
Definition create_post (n : nat) (x : result err PortForwardDTO * bool) s : Prop :=
  if x.2 then resting n s else settled n x.1 s.
Lemma resting_post n e s (rep : bool) : resting n s → create_post n (Err e, rep) s.
Proof. by intros; destruct rep. Qed.
Lemma carried_settled n r : carried (ByCall n) (settled n r).
Proof.
  apply carried_and; [apply carried_no_start|]. apply carried_and; [apply (carried_gates n (outside n)), outside_mine|].
  destruct r; [apply carried_made|apply carried_closed].
Qed.
Lemma carried_resting n : carried (ByCall n) (resting n).
Proof.
  apply carried_and; [apply carried_no_start|]. apply carried_and; [apply (carried_gates n (outside n)), outside_mine|apply carried_closed].
Qed.

Lemma pf_do_safe t n key identity execute :
  me t = ByCall n →
  psafe t (λ s, running (w_idem s) n key identity ∧ ready_once n s) execute
    (λ r s, running (w_idem s) n key identity ∧ settled n r s) →
  psafe t (λ s, ir_objects (w_idem s) !! n = None ∧ ready_once n s)
    (Do w_idem set_idem p_now AskEntry waited n key identity execute) (create_post n).
Proof.
  intros Hn Hex. unfold Do.
  eapply safe_compose.
  { apply (pf_registry_safe t _ _ (λ o s, ready_once n s ∧ match o with
      | Execute => running (w_idem s) n key identity
      | Existing m => ∃ u, Executing key identity m u ∈ ir_log (w_idem s)
      | _ => True end)).
    - intros o. rewrite Hn. apply kept_and; [apply carried_ready|]. destruct o; try apply kept_const; [|apply pf_running_mine].
      apply kept_exists. intros u. apply lasting_mine, reg_log_lasting.
    - intros s Hi [Hnew Hr]. pose proof (pi_registry _ Hi) as Hreg. rewrite Hn.
      split_and!; [by apply do_enter_inv|apply enter_step|exact Hr|].
      pose proof (enter_outcome n key identity (p_now s) (w_idem s)) as Ho.
      destruct (do_enter _ _ _ _ _).1; try done. by apply Ho. }
  intros [|m| |].
  - apply safe_return. intros s _ [Hr _]. by apply resting_post, ready_resting.
  - assert (mine (ByCall n) (λ s, ready_once n s ∧ ∃ u, Executing key identity m u ∈ ir_log (w_idem s))) as HL.
    { apply kept_and; [apply carried_ready|]. apply kept_exists. intros u. apply lasting_mine, reg_log_lasting. }
    eapply safe_compose; [apply pf_receive_safe; [by rewrite Hn|done]|].
    intros a. destruct (waited a) as [e|]; [apply safe_return; intros s _ [[Hr _] _]; by apply resting_post, ready_resting|].
    eapply safe_compose.
    { apply (pf_registry_safe t _ _ (λ _ s, resting n s)); [intros _; rewrite Hn; apply carried_resting|].
      intros s Hi [[Hr [u Hu]] _]. rewrite Hn. split_and!; [eapply replay_inv; [apply Hi|exact Hu]|apply replay_step|].
      exact (ready_resting n s Hr). }
    intros o. by apply safe_return.
  - apply safe_return. intros s _ [Hr _]. by apply resting_post, ready_resting.
  - eapply safe_compose; [eapply safe_consequence; [|exact Hex]; by intros s _ [? ?]|].
    intros r. eapply safe_compose.
    { apply (pf_registry_safe t _ _ (λ _ s, settled n r s)); [intros _; rewrite Hn; apply carried_settled|].
      intros s Hi [Hrun Hs]. rewrite Hn. split_and!; [by apply do_finish_inv; [apply Hi|]|apply finish_step|exact Hs]. }
    intros []. by apply safe_return.
Qed.

Definition reply_post (n : nat) (x : result err (PortForwardDTO * bool)) s : Prop :=
  match x with
  | Ok (dto, false) => settled n (Ok dto) s
  | Ok (dto, true) => resting n s
  | Err e => settled n (Err e) s
  end.
Lemma resting_reply n e s : resting n s → reply_post n (Err e) s.
Proof. done. Qed.

Lemma create_with_safe t n b path key r invalid execute :
  me t = ByCall n →
  (∀ identity, invalid = None → validateIdempotencyKey (F := F) key = None →
     psafe t (λ s, running (w_idem s) n key identity ∧ ready_once n s) execute
       (λ r s, running (w_idem s) n key identity ∧ settled n r s)) →
  psafe t (pf_unused n) (create_with canonicalBodyHash n b path key r invalid execute) (reply_post n).
Proof.
  intros Hn Hex. unfold create_with.
  set (K := λ s, ir_objects (w_idem s) !! n = None ∧ ready_once n s).
  assert (carried (me t) K) as HK.
  { rewrite Hn. apply carried_and; [apply (carried_idem n (λ r, ir_objects r !! n = None)), (reg_object_mine n (λ o, o = None))|apply carried_ready]. }
  assert (∀ e s, K s → reply_post n (Err e) s) as Herr by (intros e s [_ Hr]; by apply resting_reply, ready_resting).
  eapply (safe_consequence _ _ _ K).
  { intros s _ (H1 & H2 & H3 & H4 & H5 & H6 & H7). split; [done|]. split; [by split_and!|]. split_and!; [done|done|].
    intros [o Hin]%reservers_elem. by apply (H2 (PfReserved n o)). }
  eapply safe_checked.
  { eapply safe_post; [|apply pf_look_safe, HK]. intros [e|] s _ Hs; [by apply Herr|exact Hs]. }
  apply safe_valid; [intros e _ s _; by apply Herr|]. intros Hv.
  apply safe_valid; [intros e _ s _; by apply Herr|]. intros Hk.
  eapply safe_checked.
  { eapply safe_post; [|by apply (current_keep_safe t n _ K)]. intros [e|] s _ Hs; [by apply Herr|exact Hs]. }
  destruct (canonicalBodyHash r) as [hash|]; [|apply safe_return; intros s _; by apply Herr].
  eapply safe_compose; [apply (pf_do_safe t n key (create_identity b path hash) execute Hn); by apply Hex|].
  intros [[dto|e] [|]]; apply safe_return; intros s _ Hs; exact Hs.
Qed.

Lemma running_framed n key identity : framed (ByCall n) (λ s, running (w_idem s) n key identity).
Proof.
  split; [apply (carried_idem n (λ r, running r n key identity)), pf_running_mine|].
  intros s s' Hr _. by rewrite Hr.
Qed.

Lemma pf_create_safe n b route key r :
  numbered n →
  psafe (CallCreate n b route key r) (pf_unused n) (Create canonicalBodyHash NewID arrange duration retention n b route key r)
    (reply_post n).
Proof.
  intros Hnum. apply create_with_safe; [done|]. intros identity Hv Hk. pose proof Hv as Hv'.
  apply first_error_None in Hv as [[_ Hc]%confirmation_exact _]. destruct Hc as (_ & _ & _ & _ & _ & _ & _ & Ht).
  apply (create_once_safe (CallCreate n b route key r) n b r r eq_refl eq_refl Hnum); [apply running_framed|done|].
  intros s _. simpl. rewrite Ht. by split_and!.
Qed.

Lemma resolve_safe t n target port K :
  me t = ByCall n → carried (me t) K →
  psafe t K (ResolveServicePort NewNotFound errActionsClientUnavailable n target port)
    (λ r s, K s ∧ match r with
                  | Ok (pod, remotePort) =>
                    mt_Namespace pod = mt_Namespace target
                    ∧ ∃ sv pods p, PfResolved n sv pods ∈ p_log s ∧ selected_port port sv = Some p
                        ∧ backing_pod p pods = Some (mt_Name pod, remotePort)
                  | Err _ => True
                  end).
Proof.
  intros Hn HK. unfold ResolveServicePort. destruct (_ || (65535 <? port)%Z); [by apply safe_return|].
  eapply safe_compose; [apply pf_receive_safe; [apply HK|done]|].
  intros [| | | |[sv|e]| | | | | | |]; try (apply safe_return; by intros s _ [? _]).
  destruct (selected_port port sv) as [p|] eqn:Hp; [|apply safe_return; by intros s _ [? _]].
  eapply safe_compose; [apply pf_receive_safe; [apply kept_and; [apply HK|apply kept_const]|done]|].
  intros [| | | | |[pods|e]| | | | | |]; try (apply safe_return; by intros s _ [[? _] _]).
  eapply (safe_compose _ _ _ _ _ _ (λ _ s, K s ∧ PfResolved n sv pods ∈ p_log s)).
  { apply step_safe; [apply kept_and; [apply HK|apply (carried_elem (me t))]|]. intros s Hi [[Hs _] _].
    split; [apply pf_emit_ok; [done|by rewrite Hn|done]|].
    split; [by apply (ca_own _ _ HK s), Hs; [|apply undisturbed_emit]|simpl; set_solver]. }
  intros []. destruct (backing_pod p pods) as [[name remotePort]|] eqn:Hb; apply safe_return; intros s _ [Hs Hin]; [|done].
  split; [done|]. split; [done|]. by exists sv, pods, p.
Qed.

Lemma create_service_safe n b route key r :
  numbered n →
  psafe (CallCreateService n b route key r) (pf_unused n)
    (CreateService canonicalBodyHash NewID arrange NewNotFound errActionsClientUnavailable duration retention n b route key r)
    (reply_post n).
Proof.
  intros Hnum. apply create_with_safe; [done|]. intros identity Hv Hk. pose proof Hv as Hv'.
  apply first_error_None in Hv as [[_ Hc]%confirmation_exact _]. destruct Hc as (_ & _ & _ & _ & _ & _ & _ & Ht).
  set (t := CallCreateService n b route key r). set (K := λ s, running (w_idem s) n key identity ∧ ready_once n s).
  assert (carried (ByCall n) K) as HK by (apply carried_and; [apply running_framed|apply carried_ready]).
  assert (∀ e s, K s → running (w_idem s) n key identity ∧ settled n (Err e) s) as Herr
    by (intros e s [Hr Hs]; split; [done|by apply ready_resting]).
  unfold resolve_and_create. eapply safe_compose; [by apply (resolve_safe t n _ _ K)|].
  intros [[pod remotePort]|e]; [|apply safe_return; intros s _ [? _]; by apply Herr].
  set (R := λ l : list pf_event, ∃ sv pods p, PfResolved n sv pods ∈ l ∧ selected_port (pf_RemotePort r) sv = Some p
              ∧ backing_pod p pods = Some (mt_Name pod, remotePort)).
  assert (grows R) as HR.
  { intros l l' (sv & pods & p & Hin & Hrest). exists sv, pods, p. split; [set_solver|done]. }
  rewrite Ht. destruct (decide (mt_Namespace pod = rt_Namespace route)) as [Hns|Hns];
    [|eapply safe_consequence; [|apply safe_absurd]; intros s _ (_ & Hns' & _); by apply Hns].
  eapply (safe_consequence _ _ _ (λ s, K s ∧ R (p_log s))); [by intros s _ (Hs & _ & Hp)|].
  assert (carried (ByCall n) (λ s, K s ∧ R (p_log s))) as HK2 by (apply carried_and; [done|by apply carried_log]).
  eapply safe_checked.
  { eapply safe_post; [|by apply (current_keep_safe t n _ (λ s, K s ∧ R (p_log s)))].
    intros [e|] s _ Hs; [apply Herr, Hs|exact Hs]. }
  eapply safe_consequence; [|eapply safe_post; [|apply (create_once_safe t n b r (pod_request r pod remotePort) eq_refl eq_refl Hnum
    (λ s, running (w_idem s) n key identity ∧ R (p_log s)))]].
  - intros s _ [[Hr Hs] HRs]. exact (conj (conj Hr HRs) Hs).
  - intros x s _ [[Hr _] Hs]. by split.
  - apply framed_and; [apply running_framed|by apply framed_log].
  - simpl. by rewrite Ht.
  - intros s [_ (sv & pods & p & Hin & Hsel & Hbp)]. simpl. split_and!; [done|done|].
    exists sv, pods, p, (mt_Name pod). split_and!; [done|done|done|].
    unfold pod_target, mutationTarget. simpl. by rewrite Hns.
Qed.

(** ** Generation changes, shutdown, and closing on request *)

Lemma pf_cancel_all_safe t K l : carried (me t) K → psafe t K (cancel_all l) (λ _, K).
Proof.
  intros HK. induction l as [|n l IH]; cbn [cancel_all]; [by apply safe_return|].
  eapply safe_compose; [by apply cancel_only_safe|]. intros []. exact IH.
Qed.

Lemma stop_all_safe t l e : ∀ K, carried (me t) K →
  psafe t (λ s, K s ∧ Forall (λ m, is_Some (p_objects s !! m)) l) (stop_all l e)
    (λ _ s, K s ∧ Forall (λ m, stopped m (w_table s)) l).
Proof.
  induction l as [|m l IH]; intros K HK; cbn [stop_all]; [apply safe_return; by intros s _ [? _]|].
  pose proof (carried_and _ _ _ HK (carried_all_known (me t) (m :: l))) as HK1.
  eapply safe_compose; [apply (pf_stop_safe t _ m HK1); by intros s _ [_ [? _]%Forall_cons]|]. intros [].
  pose proof (carried_and _ _ _ HK1 (carried_stopped (me t) m)) as HK2.
  eapply safe_compose; [apply pf_look_safe, HK2|]. intros x.
  eapply (safe_compose _ _ _ _ _ _ (λ _, _)); [destruct x as [x|]; [apply (pf_audit_safe t _ _ _ _ _ HK2)|by apply safe_return]|].
  intros []. eapply safe_consequence; [|eapply safe_post; [|apply (IH _ (carried_and _ _ _ HK (carried_stopped (me t) m)))]].
  - intros s _ [[Hs [_ Hl]%Forall_cons] Hst]. by split_and!.
  - intros [] s _ [[Hs Hst] Hl]. split; [done|by constructor].
Qed.

Lemma carried_hooked n g l : carried (ByCall n) (hooked n g l).
Proof.
  apply carried_and; [apply carried_exists; intros R; apply carried_elem|]. split.
  - intros u s s' Hu Ht Hs R l' Hin. destruct (pt_log _ _ _ Ht) as (x & Hx & Hall). rewrite Hx in Hin.
    apply elem_of_app in Hin as [Hin|Hin].
    + destruct (Hs R l' Hin) as [Hl Ha]. split; [done|]. exact (absent_lasting R g u s s' Ht Ha).
    + rewrite Forall_forall in Hall. specialize (Hall _ Hin). exfalso. by apply not_caller in Hu.
  - intros s s' Hi Hu Hs R l' Hin. destruct (un_log _ _ Hu) as (x & Hx & Hall). rewrite Hx in Hin.
    apply elem_of_app in Hin as [Hin|Hin]; [|rewrite Forall_forall in Hall; by specialize (Hall _ Hin)].
    destruct (Hs R l' Hin) as (Hl & HR & Ha). split; [done|]. split; [etrans; [exact HR|apply Hu]|].
    intros g' Hg' Hne. eapply shrinks_absent; [exact (pi_sessions _ Hi)|apply Hu|by apply Ha].
Qed.

Lemma pf_hook_safe n current :
  psafe (CallOnGeneration n current) (pf_unused n) (OnGeneration arrange n current)
    (λ _ s, ∃ l, hooked n current l s ∧ Forall (λ m, stopped m (w_table s)) l).
Proof.
  set (t := CallOnGeneration n current). unfold OnGeneration.
  assert (∀ l, carried (me t) (λ s, hooked n current l s ∧ Forall (λ m, is_Some (p_objects s !! m)) l)) as HK
    by (intros l; apply carried_and; [apply carried_hooked|apply carried_all_known]).
  eapply (safe_compose _ _ _ _ _ _ (λ r s, hooked n current r.2 s ∧ Forall (λ m, is_Some (p_objects s !! m)) r.2)).
  { apply safe_atomically; [intros r; apply pf_mine_stable, HK|]. intros s Hi (_ & Hnew & _).
    set (removed := arrange _). cbn [fst snd]. set (e := PfHook n current (p_retired s) removed).
    split; [exact (retire_ok t s _ _ (p_shutdown s) (Some e) Hi ltac:(by intros ? [= <-]) eq_refl)|].
    assert (∀ m, m ∈ removed ↔ ∃ id x, p_sessions s !! id = Some m ∧ p_objects s !! m = Some x
              ∧ obsolete current (dto_Generation (ps_dto x)) = true) as Hl.
    { intros m. unfold removed. rewrite arrange_perm. apply sessions_with_elem. }
    split; [|apply Forall_forall; intros m (id & x & _ & Hx & _)%Hl; by exists x].
    split; [exists (p_retired s); simpl; set_solver|]. intros R l Hin. simpl in Hin. apply elem_of_app in Hin as [Hin|[= -> ->]%list_elem_of_singleton];
      [by destruct (Hnew _ Hin)|]. split; [done|]. split; [done|].
    intros g' _ Hne id m x Hid Hx <-. simpl in Hid, Hx. apply map_lookup_filter_Some in Hid as [Hid Hf]. simpl in Hf.
    rewrite Hx in Hf. unfold obsolete in Hf. by apply negb_false_iff, String.eqb_eq in Hf. }
  intros [cancels removed]. cbn [fst snd]. eapply safe_compose; [apply (pf_cancel_all_safe t _ cancels (HK removed))|].
  intros []. eapply safe_post; [|apply (stop_all_safe t _ _ _ (carried_hooked n current removed))].
  intros [] s _ Hs. by exists removed.
Qed.

Lemma pf_shutdown_safe n : psafe (CallShutdown n) (λ _, True) (Shutdown arrange) (λ _ _, True).
Proof.
  set (t := CallShutdown n). unfold Shutdown. pose proof (carried_const (me t) True) as HT.
  eapply (safe_compose _ _ _ _ _ _ (λ r s, match r with Some (_, l) => Forall (λ m, is_Some (p_objects s !! m)) l | None => True end)).
  { apply safe_atomically; [intros [[c l]|]; apply pf_mine_stable; [apply carried_all_known|apply kept_const]|].
    intros s Hi _. destruct (p_shutdown s); cbn [fst snd]; [split; [by apply pf_stay_ok|done]|].
    split; [by apply (retire_ok t s _ _ true None Hi)|]. apply Forall_forall. intros m.
    rewrite arrange_perm, sessions_with_elem. intros (id & x & _ & Hx & _). by exists x. }
  intros [[cancels removed]|]; [|by apply safe_return].
  eapply safe_compose; [apply (pf_cancel_all_safe t _ cancels (carried_all_known (me t) removed))|]. intros [].
  eapply safe_consequence; [|eapply safe_post; [|apply (stop_all_safe t removed server_shutdown _ HT)]]; done.
Qed.

Lemma carried_closed_object x m id g :
  carried x (λ s, ∃ y, p_objects s !! m = Some y ∧ dto_ID (ps_dto y) = id ∧ dto_Generation (ps_dto y) = g
                 ∧ dto_Status (ps_dto y) = PortForwardClosed).
Proof.
  apply carried_object. intros a b [_ [->|(Ha & _)] _] (H1 & H2 & H3); [done|].
  unfold active_session in Ha. apply bool_decide_eq_true in Ha. congruence.
Qed.

(** A check that says nothing of the state. *)
Lemma check_safe {A} t p (k : prog world question answer (result err A)) P :
  psafe t (λ _, True) p (λ _ _, True) → (∀ e s, P (Err e) s) → psafe t (λ _, True) k P →
  psafe t (λ _, True) (checked p k) P.
Proof. intros Hp He Hk. eapply safe_compose; [exact Hp|]. intros [e|]; [by apply safe_return|exact Hk]. Qed.

Lemma pf_close_safe n b id r :
  psafe (CallClose n b id r) (λ _, True) (Close retention n b id r)
    (λ x s, match x with Ok _ => closed_session id (bind_Generation b) s | Err _ => True end).
Proof.
  set (t := CallClose n b id r). unfold Close. pose proof (carried_const (me t) True) as HT.
  apply check_safe; [apply pf_look_safe, HT|done|].
  apply safe_valid; [done|intros _]. apply safe_valid; [done|intros _].
  apply safe_valid; [done|intros _]. apply safe_valid; [done|intros _].
  apply check_safe; [by apply (current_keep_safe t n _ (λ _, True))|done|].
  pose (K := λ m s, ∃ y, p_objects s !! m = Some y ∧ dto_ID (ps_dto y) = id
              ∧ dto_Generation (ps_dto y) = bind_Generation b ∧ dto_Status (ps_dto y) = PortForwardClosed).
  assert (∀ m, carried (me t) (K m)) as HK by (intros m; apply carried_closed_object).
  eapply (safe_compose _ _ _ _ _ _ (λ x s, match x with Ok (m, _, _) => K m s | Err _ => True end)).
  { apply safe_atomically; [intros [[[m y] now]|e]; apply pf_mine_stable; [apply HK|apply kept_const]|].
    intros s Hi _. split; [by apply close_session_ok|]. unfold close_session. set (w := pruneLocked retention (p_now s) s).
    destruct (p_sessions w !! id) as [m|] eqn:Hid; simpl; [|done].
    destruct (p_objects w !! m) as [x|] eqn:Hx; simpl; [|done].
    destruct (negb (String.eqb _ _)) eqn:Hg; [done|]. apply negb_false_iff, String.eqb_eq in Hg.
    destruct (active_session x); simpl; [|done]. unfold K, p_objects in *. simpl in *. rewrite lookup_alter_eq, Hx.
    eexists. split; [done|]. split_and!; simpl; [|done|done].
    apply map_lookup_filter_Some in Hid as [Hid _]. destruct (pi_sessions _ Hi id m Hid) as (y & Hy & <-).
    unfold p_objects in Hy. congruence. }
  intros [[[m y] now]|e]; [|by apply safe_return].
  eapply safe_compose; [apply (pf_stop_safe t _ m (HK m)); intros s _ (x & Hx & _); by exists x|]. intros [].
  eapply safe_compose; [apply (pf_audit_safe t _ _ _ _ _ (carried_and _ _ _ (HK m) (carried_stopped (me t) m)))|].
  intros []. apply safe_return. intros s _ [Hk Hst]. by exists m.
Qed.

Lemma list_safe n b : psafe (CallList n b) (λ _, True) (List retention n b) (λ _ _, True).
Proof.
  set (t := CallList n b). unfold List. pose proof (carried_const (me t) True) as HT.
  apply safe_valid; [done|intros _].
  apply check_safe; [by apply (current_keep_safe t n _ (λ _, True))|done|].
  eapply (safe_compose _ _ _ _ _ _ (λ _ _, True)); [|intros rows; by apply safe_return].
  apply safe_atomically; [intros _; apply pf_mine_stable, kept_const|]. intros s Hi _. split; [by apply prune_ok|done].
Qed.

Lemma pf_monitor_safe k m : psafe (GoMonitor k m) (λ _, True) (monitor m) (λ _ _, True).
Proof.
  set (t := GoMonitor k m). unfold monitor. pose proof (carried_const (me t) True) as HT.
  eapply safe_compose; [by apply pf_receive_safe|]. intros a.
  eapply (safe_compose _ _ _ _ _ _ (λ _ _, True)); [eapply safe_consequence; [|apply pf_look_safe, HT]; done|]. intros id.
  apply (finish_carry_safe t _ id _ HT). destruct a as [| | | | | | | | | |[e|]|]; try done. by destruct (chain_is _ e).
Qed.

(** ** Soundness *)

Lemma pf_me_spawned t k : me t = BySpawned k → spawned_as t = Some k ∧ request t = None.
Proof. by destruct t; intros [= ->]. Qed.
Lemma pf_me_called t n : me t = ByCall n ↔ request t = Some n.
Proof. clear. destruct t; simpl; split; congruence. Qed.

Lemma pf_started_labels s s' l :
  p_spawned s' = p_spawned s ++ l → (∀ k, Forall (λ g : nat → goroutine, me (g k) = BySpawned k) l) →
  omap spawned_as (started_by s s') = seq (length (p_spawned s)) (length l)
  ∧ Forall (λ t, request t = None) (started_by s s').
Proof.
  intros Hs Hl. unfold started_by. rewrite Hs, drop_app_length. generalize (length (p_spawned s)). clear Hs.
  induction l as [|g l IH]; intros j; [done|].
  assert (∀ k, Forall (λ g : nat → goroutine, me (g k) = BySpawned k) l ∧ me (g k) = BySpawned k) as Hl'.
  { intros k. by destruct (Forall_cons_1 _ _ _ (Hl k)). }
  destruct (IH (λ k, proj1 (Hl' k)) (S j)) as [H1 H2]. destruct (pf_me_spawned _ _ (proj2 (Hl' j))) as [H3 H4].
  assert (imap (λ i g, g (j + S i)) l = imap (λ i g, g (S j + i)) l) as Heq
    by (apply imap_ext; intros; f_equal; lia).
  cbn [imap]. rewrite Nat.add_0_r. unfold compose. cbn [omap list_omap length seq]. rewrite H3, Heq. split; [by rewrite <- H1|by constructor].
Qed.

Lemma closed_session_mine x id g : mine x (closed_session id g).
Proof. apply kept_exists. intros m. apply (carried_and _ _ _ (carried_stopped x m) (carried_closed_object x m id g)). Qed.

#[export] Instance pf_sound : Sound sys pf_spec.
Proof.
  split.
  - intros t. apply pf_mine_stable, kept_all. intros n u s s' Hu Ht Hs Hn. destruct (Hs Hn) as [H1 H2]. split; [|done].
    apply (pf_unused_mine n u s s'); [|done|done]. apply pf_me_called in Hn. by rewrite <- Hn.
  - by intros t [].
  - intros t r. apply pf_mine_stable.
    destruct t, r as [[[dto [|]]|e]|r|[|]|]; simpl; try apply kept_const;
      try apply carried_settled; try apply carried_resting; try apply closed_session_mine.
    apply kept_exists. intros l. apply (carried_and _ _ _ (carried_hooked n current l) (carried_all_stopped _ l)).
  - assert (∀ t n, request t = Some n → ∀ s, pre pf_spec t s → pf_unused n s ∧ numbered n) as Hpre by auto.
    assert (∀ {A} t n (p : prog world question answer A) P, request t = Some n →
      (numbered n → psafe t (pf_unused n) p P) → psafe t (pre pf_spec t) p P) as Hstart.
    { intros A t n p P Hn Hp. eapply (safe_consequence _ _ _ (λ s, pf_unused n s ∧ numbered n)); [|by apply safe_pure].
      intros s _ Hs. by apply (Hpre t). }
    intros t. destruct t; cbn [code pf_system pf_code].
    + eapply safe_compose; [by eapply Hstart; [|intros; by apply pf_create_safe]|]. intros [[dto [|]]|e]; by apply safe_return.
    + eapply safe_compose; [by eapply Hstart; [|intros; by apply create_service_safe]|]. intros [[dto [|]]|e]; by apply safe_return.
    + eapply safe_compose; [eapply safe_consequence; [|apply list_safe]; done|]. intros x. by apply safe_return.
    + eapply safe_compose; [eapply safe_consequence; [|apply pf_close_safe]; done|]. intros x. by apply safe_return.
    + eapply safe_compose; [by eapply Hstart; [|intros; by apply pf_hook_safe]|]. intros x. by apply safe_return.
    + eapply safe_compose; [eapply safe_consequence; [|apply pf_shutdown_safe]; done|]. intros x. by apply safe_return.
    + eapply safe_compose; [eapply safe_consequence; [|apply pf_monitor_safe]; done|]. intros x. by apply safe_return.
    + eapply safe_compose; [eapply safe_consequence; [|apply (finish_carry_safe (GoExpire k id) (λ _, True) id PortForwardExpired (carried_const _ True))]; done|].
      intros x. by apply safe_return.
  - by intros t [].
  - intros t s Hc Hi Hn. simpl in Hc. split.
    + by destruct t.
    + intros n Hr. split; [by apply Hn|]. by rewrite Hr in Hc.
  - intros e s Hi. by apply pf_environment_ok.
  - intros n u s s' Ht Hu Hs. assert (me <$> u ≠ Some (ByCall n)) as Hne.
    { destruct u as [u|]; simpl in *; [|done]. intros [= Hm%pf_me_called]. done. }
    exact (pf_unused_mine n _ s s' Hne Ht Hs).
  - intros u s s' Ht. destruct (pt_spawned _ _ _ Ht) as (l & Hl & _). simpl. rewrite Hl, length_app. lia.
  - intros u s s' Ht. destruct (pt_spawned _ _ _ Ht) as (l & Hl & Hme). simpl.
    destruct (pf_started_labels s s' l Hl Hme) as [H1 H2]. rewrite H1, Hl, length_app. split_and!; [apply NoDup_seq|done|].
    intros w [? ?]%elem_of_seq. lia.
Qed.
End safety.
