(* ===== verification/PortForwardTheorems.v ===== *)
(** * PortForwardTheorems: the guarantees of the port-forward manager

    The properties of every reachable configuration, from the proof of [PortForwardSafety]
    that every goroutine of [PortForward] keeps to its specification, and a run in which a
    tunnel is opened, its generation retired and its session removed. *)
From Stdlib Require Import Ascii String ZArith Lia.
From stdpp Require Import base gmap strings list sorting.
From S2P Require Import Prelude Json Topics Unicode Cursor Ports Retry Pagination Collect Catalogue Access Authorization Selection Actions Threads Idempotency PortForward PortForwardSafety.
Local Open Scope string_scope.
Local Open Scope list_scope.

(** ** Choosing the pod of a Service *)

Lemma first_backing_find port pods :
  first_backing port pods =
    (λ p, (bp_Name p, default 0%Z (backing_port port p))) <$> find (λ p, bool_decide (is_Some (backing_port port p))) pods.
Proof.
  induction pods as [|pod pods IH]; [done|]. simpl. destruct (backing_port port pod) as [z|] eqn:Hp; [|exact IH].
  simpl. by rewrite Hp.
Qed.
Lemma backing_port_sound port pod p :
  backing_port port pod = Some p →
  bp_Deleting pod = false ∧ bp_Phase pod = "Running" ∧ podReady pod = true ∧ (1 ≤ p ≤ 65535)%Z.
Proof.
  unfold backing_port. destruct (bp_Deleting pod); [done|]. destruct (String.eqb_spec (bp_Phase pod) "Running"); [|done].
  destruct (podReady pod); [|done]. simpl. set (named := negb _). set (found := if named then _ else _).
  destruct (named && (found =? 0)%Z); [done|]. set (q := if (found =? 0)%Z then _ else _).
  destruct (Z.ltb_spec q 1); [done|]. destruct (Z.ltb_spec 65535 q); [done|]. simpl. intros [= <-]. by split_and!.
Qed.

Lemma first_backing_spec port pods :
  sorted_by (λ a b, str_lt (bp_Name a) (bp_Name b)) pods →
  match first_backing port pods with
  | Some (name, p) => ∃ pod, pod ∈ pods ∧ bp_Name pod = name ∧ backing_port port pod = Some p
      ∧ ∀ other, other ∈ pods → is_Some (backing_port port other) → str_lt (bp_Name other) name = false
  | None => ∀ pod, pod ∈ pods → backing_port port pod = None
  end.
Proof.
  unfold sorted_by. induction 1 as [|pod pods Hs IH Hle]; cbn [first_backing]; [by intros pod ?%not_elem_of_nil|].
  destruct (backing_port port pod) as [z|] eqn:Hp.
  - exists pod. split_and!; [constructor|done|done|]. intros other [->|Hin]%elem_of_cons _.
    + apply (swo_irrefl (less := str_lt)).
    + rewrite Forall_forall in Hle. by apply Hle.
  - destruct (first_backing port pods) as [[name q]|].
    + destruct IH as (pod' & Hin & Hn & Hb & Hall). exists pod'. split_and!; [by constructor|done|done|].
      intros other [->|Ho]%elem_of_cons Hsome; [rewrite Hp in Hsome; by destruct Hsome|by apply Hall].
    + intros pod' [->|Hin]%elem_of_cons; [done|by apply IH].
Qed.

(** A Service is forwarded to its first usable pod. The pod chosen is one of those listed,
    is not being deleted, runs and is ready, the port is a valid TCP port, and no other usable
    pod has a smaller name, whatever the order of the list; when none is chosen no pod listed
    was usable. *)
Theorem service_pod_first_usable port pods :
  match backing_pod port pods with
  | Some (name, p) => ∃ pod, pod ∈ pods ∧ bp_Name pod = name ∧ backing_port port pod = Some p
      ∧ bp_Deleting pod = false ∧ bp_Phase pod = "Running" ∧ podReady pod = true ∧ (1 ≤ p ≤ 65535)%Z
      ∧ ∀ other, other ∈ pods → is_Some (backing_port port other) → str_lt (bp_Name other) name = false
  | None => ∀ pod, pod ∈ pods → backing_port port pod = None
  end.
Proof.
  unfold backing_pod. set (less := λ a b, str_lt (bp_Name a) (bp_Name b)).
  assert (sorted_by less (sort_stable less pods)) as Hs
    by (apply sort_stable_sorted, (key_swo bp_Name str_lt)).
  pose proof (first_backing_spec port _ Hs) as Hf. pose proof (sort_stable_perm less pods) as Hp.
  destruct (first_backing port (sort_stable less pods)) as [[name p]|].
  - destruct Hf as (pod & Hin & Hn & Hb & Hall). exists pod. rewrite Hp in Hin.
    destruct (backing_port_sound _ _ _ Hb) as (H1 & H2 & H3 & H4). split_and!; try done; try apply H4.
    intros other Ho. apply Hall. by rewrite Hp.
  - intros pod Hin. apply Hf. by rewrite Hp.
Qed.

Section theorems.
Context {F : Type} `{!ActionErrors F} `{!DnsNames}.
Context (canonicalBodyHash : PortForwardCreateRequest → option string) (NewID : nat → option string)
  (arrange : list nat → list nat) (NewNotFound : string → F) (errActionsClientUnavailable : F)
  (duration retention : Z).
Context (arrange_perm : ∀ l, arrange l ≡ₚ l).
Context (generation : string) (now ttl : Z).
Abbreviation err := (aerr F).
Abbreviation world := (world F).
Abbreviation sys := (pf_system (F := F) canonicalBodyHash NewID arrange NewNotFound
  errActionsClientUnavailable duration retention).
Abbreviation start := (Config (newPortForwardService (F := F) generation now ttl) []).
Abbreviation config := (@config world question (@answer F) goroutine Empty_set (@reply F)).

#[local] Instance pf_is_sound : Sound sys (pf_spec (F := F)).
Proof. by apply pf_sound. Qed.

Lemma registry_start_inv t : registry_inv t (newIdempotencyRegistry (F := F) (V := PortForwardDTO) ttl).
Proof.
  split; simpl; try done; try set_solver.
  - by intros [|? ?] ???.
  - rewrite map_size_empty. lia.
Qed.

Lemma pf_start_ok : config_ok sys pf_spec start.
Proof.
  split; [split|constructor..| |]; simpl; try done.
  - apply registry_start_inv.
  - intros o m m' ((id & Hid) & _). done.
  - split; constructor.
  - vm_compute. lia.
  - intros n _. split_and!; try done. intros e Hin. by inversion Hin.
  - intros w Hw. by inversion Hw.
Qed.

Lemma pf_reachable_inv (c : config) : reachable sys start c → pf_inv (shared c).
Proof. intros Hr. apply (reachable_ok sys pf_spec start c pf_start_ok Hr). Qed.

(** ** Counting active sessions *)

Lemma image_length {A B} (f : A → B) (l : list A) (k : list B) :
  NoDup l → (∀ x y, x ∈ l → y ∈ l → f x = f y → x = y) → (∀ x, x ∈ l → f x ∈ k) → (length l ≤ length k)%nat.
Proof.
  intros Hl Hf Hk. rewrite <- (length_fmap f l). apply submseteq_length, NoDup_submseteq.
  - induction Hl as [|x l Hx Hl IH]; [constructor|]. rewrite fmap_cons. constructor.
    + intros (y & Hy & Hin)%list_elem_of_fmap. assert (x = y) as ->; [|done].
      apply Hf; [constructor|by constructor|done].
    + apply IH; [intros y z Hy Hz|intros y Hy]; [apply Hf|apply Hk]; by constructor.
  - intros y (x & -> & Hx)%list_elem_of_fmap. by apply Hk.
Qed.

(** An active session that does not count is claimed by the start of its object. *)
Lemma active_within_load (s : world) :
  pf_inv s → (length (sessions_with active_session s) ≤ load (w_table s))%nat.
Proof.
  intros Hi. rewrite sessions_with_size. set (A := filter _ (p_sessions s)).
  assert (∀ id m, A !! id = Some m → ∃ o, live o m (w_table s)) as HA.
  { intros id m [Hid Hm]%map_lookup_filter_Some. simpl in Hm. destruct (p_objects s !! m) as [x|] eqn:Hx; [|done].
    exists (dto_origin (ps_dto x)). split; [by exists id|]. by exists x. }
  assert (size A = size (filter (counted (w_table s)) A) + size (filter (λ p, ¬ counted (w_table s) p) A))%nat as ->.
  { rewrite <- map_size_disj_union by apply map_disjoint_filter_complement. by rewrite map_filter_union_complement. }
  unfold load. apply Nat.add_le_mono.
  - apply map_subseteq_size, filter_mono; [apply map_filter_subseteq|done].
  - rewrite <- !length_map_to_list.
    pose (f := λ p : string * nat, dto_origin <$> (ps_dto <$> p_objects s !! p.2)).
    rewrite <- (length_fmap (λ p : Z * portForwardStart, Some (st_origin p.2))).
    assert (∀ p, p ∈ map_to_list (filter (λ p, ¬ counted (w_table s) p) A) →
      p_sessions s !! p.1 = Some p.2 ∧ ∃ o, f p = Some o ∧ live o p.2 (w_table s) ∧ ¬ unclaimed o (w_table s)) as Hp.
    { intros [id m] [Hin Hc]%elem_of_map_to_list%map_lookup_filter_Some. destruct (HA id m Hin) as (o & Hl).
      apply map_lookup_filter_Some in Hin as [Hid _]. split; [done|]. exists o. split_and!; [|done|].
      - destruct Hl as (_ & x & Hx & _ & <-). unfold f, p_objects. simpl. by rewrite Hx.
      - intros Hu. apply Hc. by eapply live_counted. }
    apply (image_length f); [apply NoDup_map_to_list| |].
    + intros [id m] [id' m'] Hx Hy Hf. destruct (Hp _ Hx) as (Hid & o & Ho & Hl & _), (Hp _ Hy) as (Hid' & o' & Ho' & Hl' & _).
      simpl in *. assert (o' = o) as -> by congruence. assert (m' = m) as -> by (by apply (pi_single _ Hi o)).
      destruct (pi_sessions _ Hi _ _ Hid) as (y & Hy1 & <-), (pi_sessions _ Hi _ _ Hid') as (z & Hz & <-).
      assert (y = z) as -> by congruence. done.
    + intros p Hin. destruct (Hp p Hin) as (_ & o & -> & _ & Hu). apply list_elem_of_fmap.
      destruct (decide (Exists (λ q : Z * portForwardStart, st_origin q.2 = o) (map_to_list (p_starts s)))) as [Hex|Hno].
      * apply Exists_exists in Hex as (q & Hq & Ho). exists q. split; [by rewrite Ho|done].
      * destruct Hu. intros i st Hst Heq. apply Hno, Exists_exists. exists (i, st).
        split; [by apply elem_of_map_to_list|done].
Qed.

(** C13: The limits of the manager hold in every reachable state, also while sessions are
    replaced, closed or expire: there are at most eight active sessions, the slots in use
    (sessions being set up, and active sessions that none of these replaces) are at most
    eight, an object has at most one active session, and at most one session being set up. *)
Theorem forwards_bounded (c : config) :
  reachable sys start c →
  (length (sessions_with active_session (shared c)) ≤ MaximumPortForwardSessions)%nat
  ∧ (load (w_table (shared c)) ≤ MaximumPortForwardSessions)%nat
  ∧ (∀ id id' m m' x x', p_sessions (shared c) !! id = Some m → p_sessions (shared c) !! id' = Some m' →
       p_objects (shared c) !! m = Some x → p_objects (shared c) !! m' = Some x' →
       active_session x = true → active_session x' = true →
       dto_origin (ps_dto x) = dto_origin (ps_dto x') → id = id' ∧ m = m')
  ∧ ∀ i i' st st', p_starts (shared c) !! i = Some st → p_starts (shared c) !! i' = Some st' →
      st_origin st = st_origin st' → i = i'.
Proof.
  intros Hr. pose proof (pf_reachable_inv c Hr) as Hi. pose proof (pi_load _ Hi) as Hl. split_and!.
  - etrans; [by apply active_within_load|done].
  - done.
  - intros id id' m m' x x' Hid Hid' Hx Hx' Ha Ha' Ho.
    assert (m = m') as <-.
    { apply (pi_single _ Hi (dto_origin (ps_dto x))); split; try (by eexists); eexists; by split_and!. }
    split; [|done]. destruct (pi_sessions _ Hi _ _ Hid) as (y & Hy & <-), (pi_sessions _ Hi _ _ Hid') as (z & Hz & <-).
    congruence.
  - intros i i' st st' Hst Hst' Ho. destruct (pi_starts _ Hi i st Hst) as (g & Hm).
    pose proof (gate_owner _ _ _ _ _ _ Hi Hm Hst' (eq_sym Ho)) as Heq. eapply (pi_one_start _ Hi); [exact Hst|exact Hst'|done].
Qed.

(** C12: A tunnel is opened only with permission. While the call that opens the upstream
    connection is pending for request [n], the pod and the port are those [n] asks for: the
    pod of its route, or the pod that its Service was resolved to during this request, by a
    request body and an idempotency key that are valid. [n]'s own fresh review of
    [pods.portforward.create] on that pod allowed it, its generation was current after that,
    and it holds a slot reserved for its object. *)
Theorem tunnel_authorized (c : config) i t n target port :
  reachable sys start c → blocked c i = Some (t, AskStart n target port) →
  request t = Some n ∧ asks_for (F := F) t target port (p_log (shared c))
  ∧ (∃ key, access_key (mt_Generation target) (mt_Namespace target) (mt_Name target) key
       ∧ cleared n key (mt_Generation target) (p_log (shared c)))
  ∧ ∃ b r id, binding_of t = Some (b, r) ∧ my_start n id (origin_of b r) (w_table (shared c)).
Proof.
  intros Hr Hb. destruct (reachable_quiet sys pf_spec start c i t _ pf_start_ok Hr Hb) as (Hn & Hask & Hres & Hk).
  split_and!; [by apply pf_me_called|done|done|]. destruct Hres as (m & b & r & id & Hm & Hbind & Hst).
  assert (m = n) as -> by congruence. by exists b, r, id.
Qed.

(** A local port is bound only after the sessions of the same object released what they
    held: when request [n] binds its listener, every session object it found for its object
    was stopped: its context is canceled, its listener and its upstream handle are closed.
    The slot stays reserved for [n] meanwhile. *)
Theorem port_bound_after_release (c : config) i t n port :
  reachable sys start c → blocked c i = Some (t, AskListen n port) →
  (∃ l, PfReplacing n l ∈ p_log (shared c) ∧ ∀ m, m ∈ l → released m (w_res (shared c)))
  ∧ ∃ b r id, binding_of t = Some (b, r) ∧ my_start n id (origin_of b r) (w_table (shared c)).
Proof.
  intros Hr Hb. destruct (reachable_quiet sys pf_spec start c i t _ pf_start_ok Hr Hb) as (Hn & (l & Hin & Hl) & Hres).
  split.
  - exists l. split; [done|]. intros m Hm. rewrite Forall_forall in Hl. destruct (Hl m Hm) as (x & Hx & Hd).
    by eapply (pi_done _ (pf_reachable_inv c Hr)).
  - destruct Hres as (m & b & r & id & Hm & Hbind & Hst). assert (m = n) as -> by congruence. by exists b, r, id.
Qed.

(** C14: A request to forward a port leaves nothing behind. Once it has returned, however it
    went and whatever ran meanwhile, it has no reserved slot and no place at a gate, in every
    later state. If it failed, or replayed the result of another request, the listener and the
    upstream handle it opened are closed; if it made a session, the session object has the
    returned description, or that description as it was when the session ended. *)
Theorem forward_leaves_nothing (c c' : config) i t n x :
  reachable sys start c → request t = Some n → returned c i = Some (t, CreateReply x) → reachable sys c c' →
  (∃ b r, binding_of t = Some (b, r)) →
  no_start n (w_table (shared c')) ∧ outside n (w_gates (shared c'))
  ∧ match x with
    | Ok (dto, false) => ∃ s, p_objects (shared c') !! n = Some s
        ∧ (ps_dto s = dto ∨ ∃ status at', status ≠ PortForwardActive ∧ ps_dto s = dto_ended status at' dto)
    | _ => n ∉ re_listeners (w_res (shared c')) ∧ n ∉ re_handles (w_res (shared c'))
    end.
Proof.
  intros Hr Hn Hret Hr' (b & r & Hb). pose proof (reachable_post sys pf_spec start c c' i t _ pf_start_ok Hr Hret Hr') as Hp.
  destruct t; simplify_eq/=; by destruct x as [[dto [|]]|e].
Qed.

(** Generation fence. Once [OnGeneration g] has returned, no session of a generation that
    was retired when it looked, other than [g] itself, is in the map, in any later state, and
    the sessions it removed are stopped: context canceled, listener and handle closed. *)
Theorem retired_forwards_gone (c c' : config) i n g :
  reachable sys start c → returned c i = Some (CallOnGeneration n g, Finished) → reachable sys c c' →
  ∃ removed, (∃ R, PfHook n g R removed ∈ p_log (shared c'))
    ∧ (∀ R l, PfHook n g R l ∈ p_log (shared c') → l = removed ∧
         ∀ id m x, p_sessions (shared c') !! id = Some m → p_objects (shared c') !! m = Some x →
           dto_Generation (ps_dto x) ∈ R → dto_Generation (ps_dto x) = g)
    ∧ ∀ m, m ∈ removed → released m (w_res (shared c')).
Proof.
  intros Hr Hret Hr'. destruct (reachable_post sys pf_spec start c c' i _ _ pf_start_ok Hr Hret Hr') as (l & (Hex & Hh) & Hl).
  exists l. split_and!; [done| |].
  - intros R l' Hin. destruct (Hh R l' Hin) as (-> & _ & Ha). split; [done|]. intros id m x Hid Hx HR.
    destruct (decide (dto_Generation (ps_dto x) = g)) as [|Hne]; [done|]. by destruct (Ha _ HR Hne id m x Hid Hx).
  - intros m Hm. rewrite Forall_forall in Hl. destruct (Hl m Hm) as (x & Hx & Hd).
    by eapply (pi_done _ (pf_reachable_inv c' (reachable_trans _ _ _ _ Hr Hr'))).
Qed.

(** The end of a session is final. A session object that is no longer active keeps its
    description (status, end time and reason) for ever, so its end is recorded once; and one
    that was stopped keeps its context canceled and its listener and handle closed. A [Close]
    that succeeded ended the session it names, of its own generation, as closed on request,
    and stopped it. *)
Theorem ended_forward_final (c c' : config) :
  reachable sys start c → reachable sys c c' →
  (∀ m x, p_objects (shared c) !! m = Some x → active_session x = false →
     ∃ y, p_objects (shared c') !! m = Some y ∧ ps_dto y = ps_dto x
       ∧ (ps_once x = OnceDone → released m (w_res (shared c'))))
  ∧ ∀ i n b id r, returned c i = Some (CallClose n b id r, CloseReply (Ok tt)) →
      ∃ m x, p_objects (shared c') !! m = Some x ∧ dto_ID (ps_dto x) = id
        ∧ dto_Generation (ps_dto x) = bind_Generation b ∧ dto_Status (ps_dto x) = PortForwardClosed
        ∧ released m (w_res (shared c')).
Proof.
  intros Hr Hr'. pose proof (pf_reachable_inv c' (reachable_trans _ _ _ _ Hr Hr')) as Hi'. split.
  - intros m x Hx Ha. pose (P := λ s : world, ∃ y, p_objects s !! m = Some y
      ∧ (ps_dto y = ps_dto x ∧ (ps_once x = OnceDone → ps_once y = OnceDone))).
    assert (P (shared c')) as (y & Hy & Hd & Ho).
    { refine (reachable_kept sys pf_spec start c c' P _ pf_start_ok Hr Hr' _); [|by exists x]. intros u s s' _ Ht.
      refine (object_lasting m _ _ _ s s' Ht). intros a b [_ Hdto Hdone] [Hda Hoa].
      unfold active_session in *. rewrite Hda in Hdto. destruct Hdto as [->|(Hact & _)]; [|congruence]. auto. }
    exists y. split_and!; [done|done|]. intros Hdone. apply (pi_done _ Hi' m y Hy). by apply Ho.
  - intros i n b id r Hret.
    destruct (reachable_post sys pf_spec start c c' i _ _ pf_start_ok Hr Hret Hr') as (m & (y & Hy & Hd) & x & Hx & Hid & Hg & Hs).
    exists m, x. exact (conj Hx (conj Hid (conj Hg (conj Hs (pi_done _ Hi' m y Hy Hd))))).
Qed.
End theorems.

(** ** A run: a tunnel is replaced, then its generation is retired *)

#[local] Existing Instance demo_action_errors.

Definition forward_id (n : nat) : option string := Some ("pf_" +:+ string_of_list_ascii (replicate (8 + n) "a"%char)).
Definition forward_route : RouteTarget := {| rt_Kind := "pods"; rt_Namespace := "shop"; rt_Name := "db-0" |}.
Definition forward_request : PortForwardCreateRequest := {|
  pf_RemotePort := 5432; pf_LocalPort := Some 15432%Z;
  pf_Confirmation := {|
    cf_Confirmed := true; cf_Action := ActionPortForward; cf_ConsequenceCode := ConsequenceExposePodPortLocally;
    cf_Target := {| tg_ClusterProfileID := 1; tg_Context := "dev"; tg_Namespace := "shop";
                    tg_Kind := "Pod"; tg_Name := "db-0" |};
    cf_ExpectedGeneration := "gen_1" |} |}.
Definition forward_key : Key := {|
  k_Generation := "gen_1"; k_Namespace := "shop"; k_APIGroup := ""; k_Resource := "pods";
  k_Subresource := "portforward"; k_Verb := "create"; k_ResourceName := "db-0" |}.
Definition forward_allow : Capability := capabilityFor forward_key DecisionAllowed ReasonSARAllowed 0.
Definition forward_target : MutationTarget := pod_target demo_binding forward_route "db-0".
Definition forward_call (n : nat) (key : string) : goroutine :=
  CallCreate n demo_binding forward_route key forward_request.

Definition demo_hash (r : PortForwardCreateRequest) : option string := Some "hash".
Definition demo_not_found (name : string) : unit := tt.
Definition forward_system := pf_system (F := unit) demo_hash forward_id (λ l, l) demo_not_found tt 60000 60000.
Definition forward_start : @config (world unit) question (@answer unit) goroutine Empty_set (@reply unit) :=
  Config (newPortForwardService "gen_1" 0 1000) [].
Abbreviation forward_moves := (list (@move (@answer unit) goroutine env_move)).

Definition steps_of (i : nat) : forward_moves := replicate 60 (Run i).
(** Up to the bind of the port, up to the upstream connection, and to the end. *)
Definition asked_port (i n : nat) (key : string) : forward_moves :=
  [Call (forward_call n key)] ++ steps_of i ++ [Reply i GateFree] ++ steps_of i ++ [Reply i (ReviewIs forward_allow)]
  ++ steps_of i ++ [Reply i Stopped] ++ steps_of i.
Definition asked_tunnel (i n : nat) (key : string) : forward_moves :=
  asked_port i n key ++ [Reply i (ListenIs (Ok (true, 15432%Z)))] ++ steps_of i.
Definition opened_tunnel (i n : nat) (key : string) : forward_moves :=
  asked_tunnel i n key ++ [Reply i (StartIs true None)] ++ steps_of i.
Definition first_asked : forward_moves := asked_tunnel 0 0 "0123456789abcdef".
Definition first_tunnel : forward_moves := opened_tunnel 0 0 "0123456789abcdef".
Definition second_port : forward_moves := first_tunnel ++ asked_port 2 1 "fedcba9876543210".
Definition second_tunnel : forward_moves := first_tunnel ++ opened_tunnel 2 1 "fedcba9876543210".
Definition retired_tunnel : forward_moves :=
  second_tunnel ++ [Env (RotateGeneration "gen_2"); Call (CallOnGeneration 2 "gen_2")] ++ steps_of 4
  ++ [Reply 4 Stopped] ++ steps_of 4.
Definition forward_at (l : forward_moves) := schedule forward_system forward_start l.

#[local] Instance forward_answer_dec (q : question) (a : @answer unit) : Decision (answer_known q a).
Proof. unfold answer_known. destruct a as [| | | | | |c| | |[] [e|]| |]; apply _. Defined.
#[local] Instance forward_callable_dec (t : goroutine) : Decision (callable forward_system t).
Proof. simpl. unfold numbered. destruct (request t); apply _. Defined.
#[local] Instance forward_env_dec (q : question) (a : @answer unit) : Decision (env_ok forward_system q a).
Proof. apply forward_answer_dec. Defined.

Lemma forward_reached l :
  bool_decide (moves_ok forward_system forward_start l) = true → reachable forward_system forward_start (forward_at l).
Proof. intros Hl. apply schedule_reachable. by apply bool_decide_eq_true in Hl. Qed.

(** ** Witnesses *)

Lemma forwards_bounded_witness :
  length (sessions_with active_session (shared (forward_at second_tunnel))) = 1
  ∧ (length (sessions_with active_session (shared (forward_at second_tunnel))) ≤ MaximumPortForwardSessions)%nat.
Proof.
  assert (reachable forward_system forward_start (forward_at second_tunnel)) as Hr by (apply forward_reached; by vm_compute).
  split; [by vm_compute|].
  exact (proj1 (forwards_bounded demo_hash forward_id (λ l, l) demo_not_found tt 60000 60000 (λ l, reflexivity l)
    "gen_1" 0 1000 (forward_at second_tunnel) Hr)).
Defined.

Lemma tunnel_authorized_witness :
  blocked (forward_at first_asked) 0 = Some (forward_call 0 "0123456789abcdef", AskStart 0 forward_target 5432)
  ∧ request (forward_call 0 "0123456789abcdef") = Some 0
  ∧ asks_for (F := unit) (forward_call 0 "0123456789abcdef") forward_target 5432 (p_log (shared (forward_at first_asked)))
  ∧ (∃ key, access_key (mt_Generation forward_target) (mt_Namespace forward_target) (mt_Name forward_target) key
       ∧ cleared 0 key (mt_Generation forward_target) (p_log (shared (forward_at first_asked))))
  ∧ ∃ b r id, binding_of (forward_call 0 "0123456789abcdef") = Some (b, r)
       ∧ my_start 0 id (origin_of b r) (w_table (shared (forward_at first_asked))).
Proof.
  assert (reachable forward_system forward_start (forward_at first_asked)) as Hr by (apply forward_reached; by vm_compute).
  assert (blocked (forward_at first_asked) 0
    = Some (forward_call 0 "0123456789abcdef", AskStart 0 forward_target 5432)) as Hb by (by vm_compute).
  split; [exact Hb|].
  exact (tunnel_authorized demo_hash forward_id (λ l, l) demo_not_found tt 60000 60000 (λ l, reflexivity l)
    "gen_1" 0 1000 (forward_at first_asked) 0 _ 0 forward_target 5432 Hr Hb).
Defined.

Lemma port_bound_after_release_witness :
  (∃ l, PfReplacing 1 l ∈ p_log (shared (forward_at second_port))
        ∧ ∀ m, m ∈ l → released m (w_res (shared (forward_at second_port))))
  ∧ ∃ b r id, binding_of (forward_call 1 "fedcba9876543210") = Some (b, r)
       ∧ my_start 1 id (origin_of b r) (w_table (shared (forward_at second_port))).
Proof.
  assert (reachable forward_system forward_start (forward_at second_port)) as Hr by (apply forward_reached; by vm_compute).
  exact (port_bound_after_release demo_hash forward_id (λ l, l) demo_not_found tt 60000 60000 (λ l, reflexivity l)
    "gen_1" 0 1000 (forward_at second_port) 2 (forward_call 1 "fedcba9876543210") 1 15432 Hr ltac:(by vm_compute)).
Defined.

Definition second_dto : PortForwardDTO :=
  new_dto 60000 demo_binding forward_target forward_request forward_request "pf_aaaaaaaaa" 15432 0.

Lemma forward_leaves_nothing_witness :
  no_start 1 (w_table (shared (forward_at second_tunnel))) ∧ outside 1 (w_gates (shared (forward_at second_tunnel)))
  ∧ ∃ s, p_objects (shared (forward_at second_tunnel)) !! 1 = Some s
      ∧ (ps_dto s = second_dto
         ∨ ∃ status at', status ≠ PortForwardActive ∧ ps_dto s = dto_ended status at' second_dto).
Proof.
  assert (reachable forward_system forward_start (forward_at second_tunnel)) as Hr by (apply forward_reached; by vm_compute).
  exact (forward_leaves_nothing demo_hash forward_id (λ l, l) demo_not_found tt 60000 60000 (λ l, reflexivity l)
    "gen_1" 0 1000 (forward_at second_tunnel) (forward_at second_tunnel) 2 (forward_call 1 "fedcba9876543210") 1
    (Ok (second_dto, false)) Hr eq_refl ltac:(by vm_compute) (reach_start _ _)
    (ex_intro _ demo_binding (ex_intro _ forward_request eq_refl))).
Defined.

Lemma retired_forwards_gone_witness :
  ∃ removed, (∃ R, PfHook 2 "gen_2" R removed ∈ p_log (shared (forward_at retired_tunnel)))
    ∧ (∀ R l, PfHook 2 "gen_2" R l ∈ p_log (shared (forward_at retired_tunnel)) → l = removed ∧
         ∀ id m x, p_sessions (shared (forward_at retired_tunnel)) !! id = Some m →
           p_objects (shared (forward_at retired_tunnel)) !! m = Some x →
           dto_Generation (ps_dto x) ∈ R → dto_Generation (ps_dto x) = "gen_2")
    ∧ ∀ m, m ∈ removed → released m (w_res (shared (forward_at retired_tunnel))).
Proof.
  assert (reachable forward_system forward_start (forward_at retired_tunnel)) as Hr by (apply forward_reached; by vm_compute).
  exact (retired_forwards_gone demo_hash forward_id (λ l, l) demo_not_found tt 60000 60000 (λ l, reflexivity l)
    "gen_1" 0 1000 (forward_at retired_tunnel) (forward_at retired_tunnel) 4 2 "gen_2" Hr ltac:(by vm_compute)
    (reach_start _ _)).
Defined.

Definition first_session : portForwardSession :=
  default {| ps_dto := second_dto; ps_target := forward_target; ps_timer := false; ps_once := OnceNew |}
    (p_objects (shared (forward_at second_port)) !! 0).
Lemma ended_forward_final_witness :
  ∃ y, p_objects (shared (forward_at second_port)) !! 0 = Some y ∧ ps_dto y = ps_dto first_session
    ∧ (ps_once first_session = OnceDone → released 0 (w_res (shared (forward_at second_port)))).
Proof.
  assert (reachable forward_system forward_start (forward_at second_port)) as Hr by (apply forward_reached; by vm_compute).
  exact (proj1 (ended_forward_final demo_hash forward_id (λ l, l) demo_not_found tt 60000 60000 (λ l, reflexivity l)
    "gen_1" 0 1000 (forward_at second_port) (forward_at second_port) Hr (reach_start _ _))
    0 first_session ltac:(by vm_compute) ltac:(by vm_compute)).
Defined.
