(* ===== verification/Dashboard.v ===== *)
(** * Dashboard: blocks, budgets and text of the dashboard

    Models budgets.go, errors.go, helpers.go and the blocks of dto.go of
    src/internal/services/dashboard, and the paging loops that its services share.

    An instant is its distance in nanoseconds from Go's zero [time.Time]. The Kubernetes API
    is a parameter: what it answers to the [k]-th call of a request, and what the context
    says at that moment, are functions of [k], so theorems hold for every upstream and
    every deadline. *)
From Stdlib Require Import Ascii String ZArith Lia.
From stdpp Require Import base gmap strings list sorting.
From S2P Require Import Prelude Json Unicode.
Local Open Scope string_scope.
Local Open Scope list_scope.

(** ** Time *)

Definition instant := Z.
Definition IsZero (t : instant) : bool := (t =? 0)%Z.
Definition After (t u : instant) : bool := (u <? t)%Z.
Definition Before (t u : instant) : bool := (t <? u)%Z.

Definition MaxInt64 : Z := 9223372036854775807.
Definition MinInt64 : Z := -9223372036854775808.
(** [t.Sub(u)] saturates. *)
Definition Sub (t u : instant) : Z := Z.max MinInt64 (Z.min MaxInt64 (t - u)).

Definition Second : Z := 1000000000.
Definition Minute : Z := 60 * Second.
Definition Hour : Z := 60 * Minute.

Definition ageSeconds (created now : instant) : Z :=
  if IsZero created || After created now then 0%Z else Z.quot (Sub now created) Second.

Definition maxInt32 (left right : Z) : Z := if (right <? left)%Z then left else right.

(** ** Text *)

Definition replacement : list ascii := [chr 239; chr 191; chr 189].

(** [strings.ToValidUTF8]: a run of invalid bytes is one replacement. *)
Fixpoint to_valid (fuel : nat) (invalid : bool) (l : list ascii) : list ascii :=
  match fuel, l with
  | O, _ | _, [] => []
  | S f, _ :: rest =>
    match rune_width l with
    | Some w => take w l ++ to_valid f false (drop w l)
    | None => (if invalid then [] else replacement) ++ to_valid f true rest
    end
  end.
Definition ToValidUTF8 (s : string) : string := of_chars (to_valid (String.length s) false (chars s)).

Definition blank_control (c : ascii) : ascii :=
  if (byte c <? 32)%N && negb (byte c =? 10)%N && negb (byte c =? 13)%N && negb (byte c =? 9)%N then " "%char else c.

(** Bytes are dropped from the end until the rest is valid. *)
Fixpoint trim_invalid (fuel : nat) (l : list ascii) : list ascii :=
  match fuel with
  | O => []
  | S f => if valid_utf8 (length l) l then l else trim_invalid f (removelast l)
  end.
Definition truncateUTF8 (value : string) (maximum : Z) : string * bool :=
  let maximum := Z.max maximum 0 in
  if (len value <=? maximum)%Z then (value, false)
  else (of_chars (trim_invalid (Z.to_nat maximum) (take (Z.to_nat maximum) (chars value))), true).

Definition sanitizeText (value : string) (maximum : Z) : string :=
  (truncateUTF8 (of_chars (blank_control <$> chars (ToValidUTF8 value))) maximum).1.

Definition stringPointer (value : string) : option string := if String.eqb value "" then None else Some value.

Definition appendUnique (values : list string) (value : string) : list string :=
  if existsb (String.eqb value) values then values else values ++ [value].

(** The first occurrences of the non-empty values, sorted. *)
Fixpoint first_values (seen : gset string) (values : list string) : list string :=
  match values with
  | [] => []
  | value :: values =>
    if String.eqb value "" || bool_decide (value ∈ seen) then first_values seen values
    else value :: first_values ({[value]} ∪ seen) values
  end.
Definition canonicalNamespaces (values : list string) : list string :=
  sort_stable str_lt (first_values ∅ values).

(** ** Budgets *)

Definition DefaultPageSize : Z := 100.
Definition DefaultMaxItems : Z := 5000.
Definition DefaultMaxPages : Z := 50.
Definition DefaultRestartLimit : Z := 10.
Definition MaximumRestartLimit : Z := 50.
Definition MaximumProblemText : Z := 4096.
Definition MaximumStatusBytes : Z := 256.
Definition DefaultBlockTimeout : Z := 8 * Second.
Definition MaximumBlockTimeout : Z := 60 * Second.

Record QueryBudget := { qb_Timeout : Z; qb_PageSize : Z; qb_MaxItems : Z; qb_MaxPages : Z }.
Definition DefaultQueryBudget : QueryBudget := {|
  qb_Timeout := DefaultBlockTimeout; qb_PageSize := DefaultPageSize; qb_MaxItems := DefaultMaxItems;
  qb_MaxPages := DefaultMaxPages |}.
Definition NewQueryBudget (timeout : Z) : QueryBudget :=
  let d := DefaultQueryBudget in
  if (0 <? timeout)%Z
  then {| qb_Timeout := timeout; qb_PageSize := qb_PageSize d; qb_MaxItems := qb_MaxItems d; qb_MaxPages := qb_MaxPages d |}
  else d.
Definition Normalized (b : QueryBudget) : QueryBudget :=
  let d := DefaultQueryBudget in
  let timeout := if (qb_Timeout b <=? 0)%Z then qb_Timeout d else qb_Timeout b in {|
  qb_Timeout := if (MaximumBlockTimeout <? timeout)%Z then MaximumBlockTimeout else timeout;
  qb_PageSize := if (qb_PageSize b <=? 0)%Z || (500 <? qb_PageSize b)%Z then qb_PageSize d else qb_PageSize b;
  qb_MaxItems := if (qb_MaxItems b <=? 0)%Z then qb_MaxItems d else qb_MaxItems b;
  qb_MaxPages := if (qb_MaxPages b <=? 0)%Z then qb_MaxPages d else qb_MaxPages b |}.

(** ** Errors *)

Definition CodeValidationFailed := "VALIDATION_FAILED".
Definition CodeForbidden := "FORBIDDEN".
Definition CodeFeatureUnavailable := "FEATURE_UNAVAILABLE".
Definition CodeAuthorizationUnavailable := "AUTHORIZATION_UNAVAILABLE".
Definition CodeUpstreamTimeout := "UPSTREAM_TIMEOUT".
Definition CodeClusterUnavailable := "CLUSTER_UNAVAILABLE".
Definition CodeClientCanceled := "CLIENT_CANCELED".

(** An error of this package or of a port that has a public code, the two context errors,
    or any other error. *)
Inductive failure :=
| PublicError (code message : string) (denied : bool)
| DeadlineExceeded | Canceled | OtherError.

Definition validationError (message : string) : failure := PublicError CodeValidationFailed message false.
Definition NewDeniedError : failure := PublicError CodeForbidden "Access to the requested resource was denied." true.
Definition NewFeatureUnavailableError : failure :=
  PublicError CodeFeatureUnavailable "The optional feature is unavailable." false.
Definition NewAuthorizationUnavailableError : failure :=
  PublicError CodeAuthorizationUnavailable "Authorization could not be confirmed." false.

Record PartialError := { pe_Namespace : string; pe_Code : string; pe_Message : string }.
Definition classifyPartialError (namespace : string) (e : failure) : PartialError * bool :=
  let partial code message := {| pe_Namespace := namespace; pe_Code := code; pe_Message := message |} in
  match e with
  | PublicError code message denied => (partial code message, denied)
  | DeadlineExceeded => (partial CodeUpstreamTimeout "Collection timed out.", false)
  | Canceled => (partial CodeClientCanceled "Collection was canceled.", false)
  | OtherError => (partial CodeClusterUnavailable "The Kubernetes API is temporarily unavailable.", false)
  end.

(** ** Blocks *)

Record CoverageDTO := {
  cv_RequestedNamespaces : Z; cv_CompletedNamespaces : Z; cv_DeniedNamespaces : list string;
  cv_Failed : list PartialError }.
Definition emptyCoverage (requested : Z) : CoverageDTO := {|
  cv_RequestedNamespaces := requested; cv_CompletedNamespaces := 0; cv_DeniedNamespaces := []; cv_Failed := [] |}.
Definition one_completed (c : CoverageDTO) : CoverageDTO := {|
  cv_RequestedNamespaces := cv_RequestedNamespaces c; cv_CompletedNamespaces := cv_CompletedNamespaces c + 1;
  cv_DeniedNamespaces := cv_DeniedNamespaces c; cv_Failed := cv_Failed c |}.
Definition cover_error (partial : PartialError) (denied : bool) (namespace : string) (c : CoverageDTO) : CoverageDTO := {|
  cv_RequestedNamespaces := cv_RequestedNamespaces c; cv_CompletedNamespaces := cv_CompletedNamespaces c;
  cv_DeniedNamespaces := if denied then appendUnique (cv_DeniedNamespaces c) namespace else cv_DeniedNamespaces c;
  cv_Failed := if denied then cv_Failed c else cv_Failed c ++ [partial] |}.
Definition mergeCoverage (destination source : CoverageDTO) : CoverageDTO := {|
  cv_RequestedNamespaces := Z.max (cv_RequestedNamespaces destination) (cv_RequestedNamespaces source);
  cv_CompletedNamespaces := Z.min (cv_CompletedNamespaces destination) (cv_CompletedNamespaces source);
  cv_DeniedNamespaces := foldl appendUnique (cv_DeniedNamespaces destination) (cv_DeniedNamespaces source);
  cv_Failed := cv_Failed destination ++ cv_Failed source |}.

Record DashboardBlockDTO (T : Type) := {
  bk_Value : T; bk_Complete : bool; bk_Truncated : bool; bk_Coverage : option CoverageDTO;
  bk_Errors : list PartialError }.
Arguments bk_Value {_} _.
Arguments bk_Complete {_} _.
Arguments bk_Truncated {_} _.
Arguments bk_Coverage {_} _.
Arguments bk_Errors {_} _.
Arguments Build_DashboardBlockDTO {_} _ _ _ _ _.

Definition blockWithValue {T} (value : T) (coverage : option CoverageDTO) : DashboardBlockDTO T :=
  Build_DashboardBlockDTO value true false coverage [].
Definition addBlockError {T} (namespace : string) (e : failure) (b : DashboardBlockDTO T) : DashboardBlockDTO T :=
  let '(partial, denied) := classifyPartialError namespace e in
  Build_DashboardBlockDTO (bk_Value b) false (bk_Truncated b) (cover_error partial denied namespace <$> bk_Coverage b)
    (bk_Errors b ++ [partial]).
Definition with_value {T U} (value : U) (b : DashboardBlockDTO T) : DashboardBlockDTO U :=
  Build_DashboardBlockDTO value (bk_Complete b) (bk_Truncated b) (bk_Coverage b) (bk_Errors b).
Definition block_truncated {T} (b : DashboardBlockDTO T) : DashboardBlockDTO T :=
  Build_DashboardBlockDTO (bk_Value b) false true (bk_Coverage b) (bk_Errors b).
Definition block_incomplete {T} (b : DashboardBlockDTO T) : DashboardBlockDTO T :=
  Build_DashboardBlockDTO (bk_Value b) false (bk_Truncated b) (bk_Coverage b) (bk_Errors b).
Definition block_completed {T} (b : DashboardBlockDTO T) : DashboardBlockDTO T :=
  Build_DashboardBlockDTO (bk_Value b) (bk_Complete b) (bk_Truncated b) (one_completed <$> bk_Coverage b) (bk_Errors b).

(** [copyBlockState]: the state of the source, with another value. *)
Definition copyBlockState {T U} (value : T) (source : DashboardBlockDTO U) : DashboardBlockDTO T := with_value value source.
Definition mergeBlockState {T} (complete truncated : bool) (errors : list PartialError) (b : DashboardBlockDTO T)
    : DashboardBlockDTO T :=
  Build_DashboardBlockDTO (bk_Value b) (bk_Complete b && complete) (bk_Truncated b || truncated) (bk_Coverage b)
    (bk_Errors b ++ errors).
(** Both coverages are merged if both are there. *)
Definition mergeBlockCoverage {T} (source : option CoverageDTO) (b : DashboardBlockDTO T) : DashboardBlockDTO T :=
  Build_DashboardBlockDTO (bk_Value b) (bk_Complete b) (bk_Truncated b)
    (match bk_Coverage b, source with Some d, Some s => Some (mergeCoverage d s) | c, _ => c end) (bk_Errors b).

(** ** Collecting pages

    [Page A] is what a port answers: items and the continue token. *)
Record page (A : Type) := { pg_Items : list A; pg_Continue : string }.
Arguments pg_Items {_} _.
Arguments pg_Continue {_} _.
Arguments Build_page {_} _ _.

Section paging.
Context {A : Type} (expired : nat → option failure)
  (ListPage : nat → string → Z → string → result failure (page A)) (budget : QueryBudget).

Record loaded := { ld_items : list A; ld_complete : bool; ld_truncated : bool; ld_error : option failure }.

(** [loadPodNamespace], and [loadNamespace] of the event service: the loop over at most
    [pages] more pages; the last result is the number of the next call. *)
Fixpoint load_pages (pages : nat) (maximumItems : Z) (namespace continuation : string) (result : list A) (k : nat)
    : loaded * nat :=
  match pages with
  | O => ({| ld_items := result; ld_complete := false; ld_truncated := negb (String.eqb continuation ""); ld_error := None |}, k)
  | S pages =>
    let remaining := (maximumItems - Z.of_nat (length result))%Z in
    if (remaining <=? 0)%Z
    then ({| ld_items := result; ld_complete := false; ld_truncated := true; ld_error := None |}, k)
    else
      match expired k with
      | Some e => ({| ld_items := result; ld_complete := false; ld_truncated := false; ld_error := Some e |}, k)
      | None =>
        match ListPage k namespace (qb_PageSize budget) continuation with
        | Err e => ({| ld_items := result; ld_complete := false; ld_truncated := false; ld_error := Some e |}, S k)
        | Ok response =>
          if (remaining <? Z.of_nat (length (pg_Items response)))%Z
          then ({| ld_items := result ++ take (Z.to_nat remaining) (pg_Items response); ld_complete := false;
                   ld_truncated := true; ld_error := None |}, S k)
          else
            let result := result ++ pg_Items response in
            if String.eqb (pg_Continue response) ""
            then ({| ld_items := result; ld_complete := true; ld_truncated := false; ld_error := None |}, S k)
            else load_pages pages maximumItems namespace (pg_Continue response) result (S k)
        end
      end
  end.
Definition loadNamespace (maximumItems : Z) (namespace : string) (k : nat) : loaded * nat :=
  load_pages (Z.to_nat (qb_MaxPages budget)) maximumItems namespace "" [] k.

(** The loop over the namespaces. *)
Fixpoint load_namespaces (namespaces : list string) (block : DashboardBlockDTO (list A)) (k : nat)
    : DashboardBlockDTO (list A) * nat :=
  match namespaces with
  | [] => (block, k)
  | namespace :: namespaces =>
    let remaining := (qb_MaxItems budget - Z.of_nat (length (bk_Value block)))%Z in
    if (remaining <=? 0)%Z then (block_truncated block, k)
    else
      let '(l, k) := loadNamespace remaining namespace k in
      let block := with_value (bk_Value block ++ ld_items l) block in
      match ld_error l with
      | Some e => load_namespaces namespaces (addBlockError namespace e block) k
      | None =>
        let block := if ld_complete l then block_completed block else block in
        let block := if ld_truncated l then block_truncated block else block in
        load_namespaces namespaces block k
      end
  end.
(** [None] for a service or a port that is missing. *)
Definition load (available : bool) (selected : list string) (k : nat) : DashboardBlockDTO (list A) * nat :=
  let namespaces := canonicalNamespaces selected in
  let block := blockWithValue [] (Some (emptyCoverage (Z.of_nat (length namespaces)))) in
  if available then load_namespaces namespaces block k else (addBlockError "" NewFeatureUnavailableError block, k).
End paging.

(** ** Sums and filters of lists, up to the order of the elements *)

Lemma sum_Z_nonneg l : Forall (λ x, 0 ≤ x)%Z l → (0 ≤ sum_Z l)%Z.
Proof. induction 1 as [|x l Hx _ IH]; [done|]. rewrite sum_Z_cons. lia. Qed.
#[export] Instance sum_Z_proper : Proper ((≡ₚ) ==> (=)) sum_Z.
Proof.
  intros l k. unfold sum_Z.
  induction 1 as [|x l k _ IH|x y l|l1 l2 l3 _ IH1 _ IH2]; cbn [foldr]; [done|by rewrite IH|lia|congruence].
Qed.
#[export] Instance List_filter_proper {A} (p : A → bool) : Proper ((≡ₚ) ==> (≡ₚ)) (List.filter p).
Proof.
  intros l k.
  induction 1 as [|x l k _ IH|x y l|l1 l2 l3 _ IH1 _ IH2]; cbn [List.filter]; [done|destruct (p x); by rewrite IH| |by etrans].
  destruct (p x), (p y); try done. constructor.
Qed.

(** ** Orders by several keys *)

(** The first key that differs decides. *)
Lemma lex_swo {A K} (key : A → K) (eqb lt : K → K → bool) (rest : A → A → bool) :
  (∀ x y, eqb x y = true ↔ x = y) → StrictWeakOrder lt → (∀ x y, lt x y = false → lt y x = false → x = y) →
  StrictWeakOrder rest →
  StrictWeakOrder (λ l r, if negb (eqb (key l) (key r)) then lt (key l) (key r) else rest l r).
Proof.
  intros Heq Hlt Htot Hrest.
  assert (∀ x y, eqb x y = false ↔ x ≠ y) as Hne.
  { intros x y. rewrite <- Heq. by destruct (eqb x y). }
  assert (∀ x y, negb (eqb x y) = true → lt x y = false → lt y x = true) as Hsw.
  { intros x y Hn%negb_true_iff Hl. apply Hne in Hn. destruct (lt y x) eqn:E; [done|]. by destruct Hn; apply Htot. }
  split.
  - intros x. rewrite (proj2 (Heq _ _) eq_refl). apply swo_irrefl.
  - intros x y z. destruct (negb (eqb (key x) (key y))) eqn:E1, (negb (eqb (key y) (key z))) eqn:E2; intros H1 H2.
    + pose proof (swo_trans _ _ _ H1 H2) as H3. destruct (eqb (key x) (key z)) eqn:E3; [|done].
      apply Heq in E3. rewrite E3 in H3. by rewrite swo_irrefl in H3.
    + apply negb_false_iff, Heq in E2. by rewrite <- E2, E1.
    + apply negb_false_iff, Heq in E1. by rewrite E1, E2.
    + apply negb_false_iff, Heq in E1, E2. rewrite E1, E2, (proj2 (Heq _ _) eq_refl). by eapply swo_trans.
  - intros x y z. destruct (negb (eqb (key x) (key y))) eqn:E1, (negb (eqb (key y) (key z))) eqn:E2; intros H1 H2.
    + pose proof (swo_incomp _ _ _ H1 H2) as H3. destruct (eqb (key x) (key z)) eqn:E3; [|done].
      apply Heq in E3. rewrite E3 in H1. pose proof (Hsw _ _ E2 H2) as H4. by rewrite H1 in H4.
    + apply negb_false_iff, Heq in E2. by rewrite <- E2, E1.
    + apply negb_false_iff, Heq in E1. by rewrite E1, E2.
    + apply negb_false_iff, Heq in E1, E2. rewrite E1, E2, (proj2 (Heq _ _) eq_refl). by eapply swo_incomp.
Qed.

#[export] Instance Zltb_swo : StrictWeakOrder Z.ltb.
Proof. split; intros; bool_to_prop; try apply Z.ltb_ge; try apply Z.ltb_lt; lia. Qed.
Lemma flip_swo {A} (less : A → A → bool) : StrictWeakOrder less → StrictWeakOrder (λ x y, less y x).
Proof. intros []. split; eauto. Qed.
Lemma lex_Z {A} (key : A → Z) (rest : A → A → bool) : StrictWeakOrder rest →
  StrictWeakOrder (λ l r, if negb (key l =? key r)%Z then (key l <? key r)%Z else rest l r).
Proof. apply (lex_swo key Z.eqb Z.ltb); [apply Z.eqb_eq|apply _|]. intros. bool_to_prop. lia. Qed.
Lemma lex_Z_down {A} (key : A → Z) (rest : A → A → bool) : StrictWeakOrder rest →
  StrictWeakOrder (λ l r, if negb (key l =? key r)%Z then (key r <? key l)%Z else rest l r).
Proof.
  apply (lex_swo key Z.eqb (λ x y, y <? x)%Z); [apply Z.eqb_eq|apply flip_swo, _|]. intros. bool_to_prop. lia.
Qed.
Lemma str_lt_eq s t : str_lt s t = false → str_lt t s = false → s = t.
Proof. intros H1 H2. apply str_lt_total in H1 as [?|?]; congruence. Qed.
Lemma lex_str {A} (key : A → string) (rest : A → A → bool) : StrictWeakOrder rest →
  StrictWeakOrder (λ l r, if negb (String.eqb (key l) (key r)) then str_lt (key l) (key r) else rest l r).
Proof. apply (lex_swo key String.eqb str_lt); [apply String.eqb_eq|apply _|apply str_lt_eq]. Qed.

(** Sorting does not see the order of elements that all compare differently. *)
Lemma insert_sorted_swap {A} (less : A → A → bool) `{!StrictWeakOrder less} x y l :
  less x y = true → insert_sorted less x (insert_sorted less y l) = insert_sorted less y (insert_sorted less x l).
Proof.
  intros Hxy. pose proof (swo_asym less _ _ Hxy) as Hyx. induction l as [|z l IH]; cbn [insert_sorted].
  - by rewrite Hxy, Hyx.
  - destruct (less z y) eqn:Hzy, (less z x) eqn:Hzx; cbn [insert_sorted]; rewrite ?Hzy, ?Hzx, ?Hxy, ?Hyx; [by rewrite IH|done| |done].
    pose proof (swo_trans _ _ _ Hzx Hxy). congruence.
Qed.
Lemma sort_stable_perm_eq {A} (less : A → A → bool) `{!StrictWeakOrder less} (pre l k post : list A) :
  l ≡ₚ k → (∀ x y, x ∈ l → y ∈ l → x = y ∨ less x y = true ∨ less y x = true) →
  sort_stable less (pre ++ l ++ post) = sort_stable less (pre ++ k ++ post).
Proof.
  intros Hp Hd. assert (sort_stable less (l ++ post) = sort_stable less (k ++ post)) as Heq.
  { revert Hd. induction Hp as [|x l k Hp IH|x y l|l1 l2 l3 H1 IH1 H2 IH2]; intros Hd; simpl.
    - done.
    - rewrite IH; [done|]. intros. apply Hd; by right.
    - destruct (Hd x y) as [->|[Hxy|Hyx]]; [set_solver..|done| |]; [symmetry|]; by apply insert_sorted_swap.
    - rewrite IH1 by done. apply IH2. intros x y Hx Hy. rewrite <- H1 in Hx, Hy. by apply Hd. }
  induction pre as [|x pre IH]; simpl; [done|]. by rewrite IH.
Qed.

(** ** Text: what a sanitized value looks like *)

(** Valid UTF-8: a sequence of runes. *)
Inductive utf8 : list ascii → Prop :=
| utf8_nil : utf8 []
| utf8_rune l w : rune_width l = Some w → utf8 (drop w l) → utf8 l.

Lemma utf8_valid f l : utf8 l → (length l ≤ f)%nat → valid_utf8 f l = true.
Proof.
  intros Hl. revert f. induction Hl as [|l w Hw _ IH]; intros f Hf; [by destruct f|].
  destruct (rune_width_bounds _ _ Hw) as [H1 H2]. destruct l as [|c l]; [done|]. destruct f as [|f]; [simpl in Hf; lia|].
  cbn [valid_utf8]. rewrite Hw. apply IH. rewrite length_drop. simpl in *. lia.
Qed.
Lemma valid_utf8_sound f l : valid_utf8 f l = true → utf8 l.
Proof.
  revert l. induction f as [|f IH]; intros [|c l]; cbn [valid_utf8]; try done; try (intros _; constructor).
  destruct (rune_width (c :: l)) as [w|] eqn:Hw; [|done]. intros Hv. exact (utf8_rune _ w Hw (IH _ Hv)).
Qed.
Lemma utf8_app l k : utf8 l → utf8 k → utf8 (l ++ k).
Proof.
  induction 1 as [|l w Hw _ IH]; [done|]. intros Hk. destruct (rune_width_bounds _ _ Hw) as [_ H2].
  apply (utf8_rune _ w).
  - pose proof (rune_width_app l w (drop w l ++ k) Hw) as Ha. by rewrite app_assoc, take_drop in Ha.
  - rewrite drop_app_le by done. by apply IH.
Qed.

Lemma to_valid_utf8 fuel invalid l : utf8 (to_valid fuel invalid l).
Proof.
  revert invalid l. induction fuel as [|f IH]; intros invalid [|c l]; cbn [to_valid]; try constructor.
  destruct (rune_width (c :: l)) as [w|] eqn:Hw.
  - apply utf8_app; [|apply IH]. apply (utf8_rune _ w).
    + pose proof (rune_width_app _ _ [] Hw) as Ha. by rewrite app_nil_r in Ha.
    + rewrite drop_ge by (rewrite length_take; lia). constructor.
  - apply utf8_app; [|apply IH]. destruct invalid; [constructor|]. apply (utf8_rune _ 3); [by vm_compute|constructor].
Qed.

Lemma blank_control_high c : (128 ≤ byte c)%N → blank_control c = c.
Proof. intros Hc. unfold blank_control. by rewrite (proj2 (N.ltb_ge _ 32)) by lia. Qed.
Lemma blank_control_low c : (byte c ≤ 127)%N → (byte (blank_control c) ≤ 127)%N.
Proof. intros Hc. unfold blank_control. case_match; [by vm_compute|done]. Qed.
Lemma blank_utf8 l : utf8 l → utf8 (blank_control <$> l).
Proof.
  induction 1 as [|l w Hw _ IH]; [constructor|]. apply (utf8_rune _ w).
  - apply (shape_width _ _ (drop w (blank_control <$> l))). apply rune_width_shape in Hw.
    destruct Hw; cbn [fmap list_fmap]; rewrite ?blank_control_high by lia; simpl; try (constructor; done || lia).
    constructor. by apply blank_control_low.
  - by rewrite <- fmap_drop.
Qed.

Lemma length_removelast_cons {A} (c : A) l : length (removelast (c :: l)) = length l.
Proof. revert c. induction l as [|d l IH]; intros c; [done|]. cbn [removelast length] in *. by rewrite IH. Qed.
Lemma trim_invalid_length fuel l : (length (trim_invalid fuel l) ≤ length l)%nat.
Proof.
  revert l. induction fuel as [|f IH]; intros l; simpl; [lia|]. destruct (valid_utf8 _ _); [done|].
  etrans; [apply IH|]. destruct l as [|c l]; [done|]. rewrite length_removelast_cons. simpl. lia.
Qed.
Lemma trim_invalid_utf8 fuel l : utf8 (trim_invalid fuel l).
Proof.
  revert l. induction fuel as [|f IH]; intros l; simpl; [constructor|].
  destruct (valid_utf8 _ l) eqn:Hv; [by eapply valid_utf8_sound|apply IH].
Qed.
Lemma trim_invalid_prefix fuel l : trim_invalid fuel l `prefix_of` l.
Proof.
  revert l. induction fuel as [|f IH]; intros l; simpl; [apply prefix_nil|]. destruct (valid_utf8 _ _); [done|].
  etrans; [apply IH|]. destruct (decide (l = [])) as [->|Hl]; [done|].
  rewrite (app_removelast_last (A := ascii) (l := l) " "%char Hl) at 2. by apply prefix_app_r.
Qed.

Lemma len_of_chars l : len (of_chars l) = Z.of_nat (length l).
Proof. unfold len, of_chars. induction l as [|c l IH]; [done|]. simpl in *. lia. Qed.
Lemma len_chars s : len s = Z.of_nat (length (chars s)).
Proof. by rewrite <- (of_chars_chars s) at 1; rewrite len_of_chars. Qed.

(** What is left is the longest valid prefix. *)
Lemma trim_invalid_longest fuel l k :
  (length l ≤ fuel)%nat → utf8 k → k `prefix_of` l → k `prefix_of` trim_invalid fuel l.
Proof.
  intros Hf Hk. revert l Hf. induction fuel as [|f IH]; intros l Hf Hp.
  - destruct l; [|simpl in Hf; lia]. done.
  - simpl. destruct (valid_utf8 (length l) l) eqn:Hv; [done|]. destruct Hp as [r ->]. destruct r as [|c r _] using rev_ind.
    + rewrite app_nil_r in Hv. by rewrite (utf8_valid _ k) in Hv.
    + assert (removelast (k ++ r ++ [c]) = k ++ r) as Hr by (rewrite app_assoc; apply removelast_last).
      rewrite Hr. apply IH; [|by apply prefix_app_r]. rewrite !length_app in *. simpl in Hf. lia.
Qed.

Lemma truncateUTF8_fits value maximum : (len value ≤ maximum)%Z → truncateUTF8 value maximum = (value, false).
Proof. intros H. unfold truncateUTF8. pose proof (Nat2Z.is_nonneg (String.length value)). unfold len in *.
  by rewrite (proj2 (Z.leb_le _ _)) by lia. Qed.

Lemma truncateUTF8_spec value maximum (v := (truncateUTF8 value maximum).1) :
  utf8 (chars value) →
  utf8 (chars v) ∧ (len v ≤ Z.max maximum 0)%Z ∧ chars v `prefix_of` chars value
  ∧ ∀ k, utf8 k → k `prefix_of` chars value → (Z.of_nat (length k) ≤ maximum)%Z → k `prefix_of` chars v.
Proof.
  intros Hv. unfold v, truncateUTF8. destruct (Z.leb_spec (len value) (Z.max maximum 0)) as [Hle|Hgt]; simpl; [done|].
  rewrite chars_of_chars, len_of_chars. set (m := Z.to_nat (Z.max maximum 0)). split_and!.
  - apply trim_invalid_utf8.
  - pose proof (trim_invalid_length m (take m (chars value))) as Hl. rewrite length_take in Hl. lia.
  - etrans; [apply trim_invalid_prefix|]. apply prefix_take.
  - intros k Hk [r Hr] Hm. apply trim_invalid_longest; [rewrite length_take; lia|done|].
    rewrite Hr, take_app_ge by lia. by apply prefix_app_r.
Qed.

(** No control character but tab, line feed and carriage return. *)
Definition printable (c : ascii) : Prop := (32 ≤ byte c)%N ∨ byte c ∈ [9; 10; 13]%N.
#[export] Instance printable_dec c : Decision (printable c).
Proof. unfold printable. apply _. Defined.
Lemma blank_printable c : printable (blank_control c).
Proof.
  unfold printable, blank_control. destruct (N.ltb_spec (byte c) 32) as [Hc|Hc]; [|by left].
  destruct (N.eqb_spec (byte c) 10) as [Ec|]; [right; simpl; rewrite Ec; set_solver|].
  destruct (N.eqb_spec (byte c) 13) as [Ec|]; [right; simpl; rewrite Ec; set_solver|].
  destruct (N.eqb_spec (byte c) 9) as [Ec|]; [right; simpl; rewrite Ec; set_solver|]. left. by vm_compute.
Qed.
Lemma blank_id c : printable c → blank_control c = c.
Proof.
  unfold printable, blank_control. intros [Hc|Hc]; [by rewrite (proj2 (N.ltb_ge _ _) Hc)|].
  repeat (apply elem_of_cons in Hc as [Ec|Hc]; [by rewrite Ec|]). by apply not_elem_of_nil in Hc.
Qed.
Lemma blank_fmap_id l : Forall printable l → blank_control <$> l = l.
Proof. induction 1 as [|c l Hc _ IH]; [done|]. by rewrite fmap_cons, blank_id, IH. Qed.
Lemma to_valid_id fuel l : utf8 l → (length l ≤ fuel)%nat → to_valid fuel false l = l.
Proof.
  intros Hl. revert fuel. induction Hl as [|l w Hw _ IH]; intros fuel Hf; [by destruct fuel|].
  destruct (rune_width_bounds _ _ Hw) as [H1 H2]. destruct l as [|c l]; [simpl in H2; lia|]. destruct fuel as [|f]; [simpl in Hf; lia|].
  cbn [to_valid]. rewrite Hw, IH by (rewrite length_drop; simpl in *; lia). apply take_drop.
Qed.

(** the text of an upstream that the dashboard shows is valid UTF-8, within the limit,
    and has no control character but tabs and line ends; text that already is so is shown
    as it is. *)
Theorem sanitized_text_safe (value : string) (maximum : Z) :
  let shown := sanitizeText value maximum in
  utf8 (chars shown) ∧ (len shown ≤ Z.max maximum 0)%Z ∧ Forall printable (chars shown)
  ∧ (utf8 (chars value) ∧ (len value ≤ maximum)%Z ∧ Forall printable (chars value) → shown = value).
Proof.
  intros shown. subst shown. unfold sanitizeText, ToValidUTF8. rewrite chars_of_chars.
  set (blanked := of_chars (blank_control <$> to_valid _ false (chars value))).
  assert (utf8 (chars blanked)) as Hb by (unfold blanked; rewrite chars_of_chars; apply blank_utf8, to_valid_utf8).
  destruct (truncateUTF8_spec blanked maximum Hb) as (Hv & Hl & Hp & _). split_and!; [done|done| |].
  - destruct Hp as [r Hr]. assert (Forall printable (chars blanked)) as Hall; [|rewrite Hr in Hall; by apply Forall_app in Hall as [? _]].
    unfold blanked. rewrite chars_of_chars. apply Forall_fmap, Forall_true. intros c. apply blank_printable.
  - intros (Hu & Hm & Hc). assert (blanked = value) as ->; [|by rewrite truncateUTF8_fits].
    unfold blanked. rewrite to_valid_id; [|done|pose proof (len_chars value); unfold len in *; lia].
    rewrite blank_fmap_id by done. apply of_chars_chars.
Qed.

(** ** Collecting: what a complete block holds *)

Section collecting.
Context {A : Type} (expired : nat → option failure)
  (ListPage : nat → string → Z → string → result failure (page A)) (budget : QueryBudget).

(** From call [k] on, the API answers [n] pages of [namespace], the first for the token
    [cont] and the last without one: [items]. *)
Inductive lists (namespace : string) : nat → string → nat → list A → nat → Prop :=
| lists_last k cont items :
    expired k = None → ListPage k namespace (qb_PageSize budget) cont = Ok (Build_page items "") →
    lists namespace k cont 1 items (S k)
| lists_more k cont items next n rest k' :
    expired k = None → ListPage k namespace (qb_PageSize budget) cont = Ok (Build_page items next) → next ≠ "" →
    lists namespace (S k) next n rest k' →
    lists namespace k cont (S n) (items ++ rest) k'.

(** It does so for each namespace in turn, within the page budget. *)
Inductive lists_all : nat → list string → list A → nat → Prop :=
| lists_none k : lists_all k [] [] k
| lists_next k namespace n items k1 namespaces rest k' :
    lists namespace k "" n items k1 → (Z.of_nat n ≤ qb_MaxPages budget)%Z → lists_all k1 namespaces rest k' →
    lists_all k (namespace :: namespaces) (items ++ rest) k'.

Abbreviation load_pages := (load_pages expired ListPage budget).
Abbreviation loadNamespace := (loadNamespace expired ListPage budget).
Abbreviation load_namespaces := (load_namespaces expired ListPage budget).

Lemma load_pages_sound pages maximum ns cont result k l k' :
  load_pages pages maximum ns cont result k = (l, k') →
  (Z.of_nat (length result) ≤ maximum → Z.of_nat (length (ld_items l)) ≤ maximum)%Z
  ∧ (ld_complete l = true → ld_truncated l = false ∧ ld_error l = None
      ∧ ∃ n items, lists ns k cont n items k' ∧ (n ≤ pages)%nat ∧ ld_items l = result ++ items)
  ∧ (ld_complete l = false → pages ≠ 0%nat ∨ cont ≠ "" → ld_truncated l = true ∨ ld_error l ≠ None)
  ∧ (ld_error l ≠ None → ld_truncated l = false).
Proof.
  revert cont result k. induction pages as [|pages IH]; intros cont result k; cbn [Dashboard.load_pages].
  { intros [= <- <-]. simpl. split_and!; try done. intros _ [?|Hc]; [done|]. left. by apply String.eqb_neq in Hc as ->. }
  destruct (Z.leb_spec (maximum - Z.of_nat (length result)) 0); [by intros [= <- <-]; simpl; split_and!; auto|].
  destruct (expired k) as [e|] eqn:He; [by intros [= <- <-]; simpl; split_and!; auto|].
  destruct (ListPage k ns _ cont) as [[items next]|e] eqn:Hp; [|by intros [= <- <-]; simpl; split_and!; auto]. simpl.
  destruct (Z.ltb_spec (maximum - Z.of_nat (length result)) (Z.of_nat (length items))).
  { intros [= <- <-]. simpl. split_and!; auto; try done. rewrite length_app, length_take. lia. }
  destruct (String.eqb_spec next "") as [->|Hn].
  { intros [= <- <-]. simpl. split_and!; [|intros _|done|done].
    - rewrite length_app. lia.
    - split_and!; [done..|]. exists 1%nat, items. split_and!; [by constructor|lia|done]. }
  intros Hl. apply IH in Hl as (H1 & H2 & H3 & H4). split_and!; [|intros Hc|intros Hc _; apply H3; auto|done].
  - intros _. apply H1. rewrite length_app. lia.
  - apply H2 in Hc as (Ht & He' & n & rest & Hl & Hle & Hi). split_and!; [done..|].
    exists (S n), (items ++ rest). split_and!; [by eapply lists_more|lia|by rewrite Hi, app_assoc].
Qed.

Lemma load_pages_complete pages maximum ns cont n items result k k' :
  lists ns k cont n items k' → (n ≤ pages)%nat → (Z.of_nat (length (result ++ items)) < maximum)%Z →
  load_pages pages maximum ns cont result k =
    ({| ld_items := result ++ items; ld_complete := true; ld_truncated := false; ld_error := None |}, k').
Proof.
  intros Hl. revert pages result. induction Hl as [k cont items He Hp|k cont items next n rest k' He Hp Hn Hl IH];
    intros [|pages] result Hle Hm; try lia; cbn [Dashboard.load_pages]; rewrite !length_app in Hm;
    rewrite (proj2 (Z.leb_gt _ _)) by lia; rewrite He, Hp; simpl; rewrite (proj2 (Z.ltb_ge _ _)) by lia; [done|].
  apply String.eqb_neq in Hn as ->. rewrite IH; [by rewrite app_assoc|lia|rewrite !length_app; lia].
Qed.

(** What is said of a block of which [k] namespaces are done. *)
Record block_ok (b : DashboardBlockDTO (list A)) (done requested : Z) : Prop := {
  ok_complete : bk_Complete b = negb (bk_Truncated b) && bool_decide (bk_Errors b = []);
  ok_items : (Z.of_nat (length (bk_Value b)) ≤ qb_MaxItems budget)%Z;
  ok_coverage : ∃ c, bk_Coverage b = Some c ∧ cv_RequestedNamespaces c = requested
    ∧ (cv_CompletedNamespaces c + Z.of_nat (length (cv_DeniedNamespaces c)) + Z.of_nat (length (cv_Failed c)) ≤ done)%Z
    ∧ (0 ≤ cv_CompletedNamespaces c)%Z ∧ (bk_Complete b = true ↔ cv_CompletedNamespaces c = done) }.

Lemma appendUnique_length l x : (length (appendUnique l x) ≤ S (length l))%nat.
Proof. unfold appendUnique. destruct (existsb _ l); [lia|]. rewrite length_app. simpl. lia. Qed.

Lemma addBlockError_ok ns e b done requested :
  block_ok b done requested → block_ok (addBlockError ns e b) (done + 1) requested.
Proof.
  intros [_ Hi (c & Hc & Hr & Hn & H0 & _)]. unfold addBlockError. destruct (classifyPartialError ns e) as [partial denied].
  split; simpl; [|done|].
  - rewrite bool_decide_eq_false_2; [by rewrite andb_false_r|]. by destruct (bk_Errors b).
  - eexists. rewrite Hc. split; [done|]. simpl. split_and!; [done| |done|split; [done|lia]].
    pose proof (appendUnique_length (cv_DeniedNamespaces c) ns). destruct denied; rewrite ?length_app; simpl; lia.
Qed.

(** One namespace: its block afterwards. *)
Definition after_namespace (ns : string) (l : loaded (A:=A)) (b : DashboardBlockDTO (list A)) : DashboardBlockDTO (list A) :=
  let b := with_value (bk_Value b ++ ld_items l) b in
  match ld_error l with
  | Some e => addBlockError ns e b
  | None => let b := if ld_complete l then block_completed b else b in if ld_truncated l then block_truncated b else b
  end.
Lemma load_namespaces_cons ns nss b k :
  load_namespaces (ns :: nss) b k =
    let remaining := (qb_MaxItems budget - Z.of_nat (length (bk_Value b)))%Z in
    if (remaining <=? 0)%Z then (block_truncated b, k)
    else let '(l, k) := loadNamespace remaining ns k in load_namespaces nss (after_namespace ns l b) k.
Proof.
  cbn [Dashboard.load_namespaces]. unfold after_namespace. destruct (_ <=? 0)%Z; [done|]. cbv zeta.
  destruct (loadNamespace _ _ _) as [l k1]. by destruct (ld_error l).
Qed.

Lemma after_namespace_ok ns maximum l b k k' done requested :
  (0 < qb_MaxPages budget)%Z → maximum = (qb_MaxItems budget - Z.of_nat (length (bk_Value b)))%Z → (0 ≤ maximum)%Z →
  loadNamespace maximum ns k = (l, k') → block_ok b done requested →
  block_ok (after_namespace ns l b) (done + 1) requested
  ∧ (bk_Complete (after_namespace ns l b) = true → bk_Complete b = true ∧ bk_Value (after_namespace ns l b) = bk_Value b ++ ld_items l
      ∧ ∃ n, lists ns k "" n (ld_items l) k' ∧ (Z.of_nat n ≤ qb_MaxPages budget)%Z).
Proof.
  intros Hp -> Hm Hl [Hc Hi (c & Hcv & Hr & Hn & H0 & Hd)].
  apply load_pages_sound in Hl as (H1 & H2 & H3 & H4). simpl in H1. specialize (H1 Hm).
  assert (block_ok (with_value (bk_Value b ++ ld_items l) b) done requested) as Hb.
  { split; simpl; [done|rewrite length_app; lia|by eauto 10]. }
  unfold after_namespace. destruct (ld_error l) as [e|] eqn:He.
  { split; [by apply addBlockError_ok|]. unfold addBlockError. destruct (classifyPartialError ns e). done. }
  destruct (ld_complete l) eqn:Hlc.
  - destruct (H2 eq_refl) as (-> & _ & n & items & Hl & Hle & Hit). simpl in Hit. subst items. split; [|simpl; intros ->].
    + split; simpl; [done|rewrite length_app; lia|]. eexists. rewrite Hcv. split; [done|]. simpl. split_and!; [done|lia..|].
      rewrite Hd. lia.
    + split_and!; [done..|]. exists n. split; [done|lia].
  - assert (ld_truncated l = true) as ->. { destruct (H3 eq_refl) as [?|?]; [left; lia|done|done]. }
    split; [|done]. split; simpl; [done|rewrite length_app; lia|]. exists c. split_and!; [done..|lia|done|]. split; [done|].
    intros. lia.
Qed.

Lemma load_namespaces_ok nss b k b' k' done requested :
  (0 < qb_MaxPages budget)%Z → load_namespaces nss b k = (b', k') → block_ok b done requested →
  block_ok b' (done + Z.of_nat (length nss)) requested
  ∧ (bk_Complete b' = true → bk_Complete b = true
      ∧ ∃ items, bk_Value b' = bk_Value b ++ items ∧ lists_all k nss items k').
Proof.
  intros Hp. revert b k done. induction nss as [|ns nss IH]; intros b k done.
  { intros [= <- <-] Hb. simpl. rewrite Z.add_0_r. split; [done|]. intros Hc. split; [done|]. exists [].
    rewrite app_nil_r. split; [done|constructor]. }
  rewrite load_namespaces_cons. cbv zeta. destruct (Z.leb_spec (qb_MaxItems budget - Z.of_nat (length (bk_Value b))) 0) as [Hle|Hgt].
  - intros [= <- <-] [Hc Hi (c & Hcv & Hr & Hn & H0 & Hd)]. split; [|done]. split; simpl; [done..|]. exists c.
    split_and!; [done..|lia|done|]. split; [done|]. lia.
  - destruct (loadNamespace _ ns k) as [l k1] eqn:Hl. intros Hrun Hb.
    destruct (after_namespace_ok ns _ l b k k1 done requested Hp eq_refl ltac:(lia) Hl Hb) as [Hb1 Hc1].
    apply (IH _ _ (done + 1)%Z) in Hrun as [Hb' Hc']; [|done]. split.
    + replace (done + Z.of_nat (length (ns :: nss)))%Z with (done + 1 + Z.of_nat (length nss))%Z by (simpl; lia). done.
    + intros Hc. destruct (Hc' Hc) as (Hca & items & Hv & Hall). destruct (Hc1 Hca) as (Hcb & Hva & n & Hli & Hn).
      split; [done|]. exists (ld_items l ++ items). rewrite Hv, Hva, app_assoc. split; [done|]. by eapply lists_next.
Qed.

Lemma load_namespaces_complete nss items b k k' :
  lists_all k nss items k' → bk_Complete b = true → (Z.of_nat (length (bk_Value b ++ items)) < qb_MaxItems budget)%Z →
  ∃ b', load_namespaces nss b k = (b', k') ∧ bk_Complete b' = true ∧ bk_Value b' = bk_Value b ++ items.
Proof.
  intros Hl. revert b. induction Hl as [k|k ns n items k1 nss rest k' Hli Hn Hall IH]; intros b Hc Hm.
  { exists b. by rewrite app_nil_r. }
  rewrite load_namespaces_cons. cbv zeta. rewrite !length_app in Hm. rewrite (proj2 (Z.leb_gt _ _)) by lia.
  assert (loadNamespace (qb_MaxItems budget - Z.of_nat (length (bk_Value b))) ns k
    = ({| ld_items := items; ld_complete := true; ld_truncated := false; ld_error := None |}, k1)) as ->.
  { unfold Dashboard.loadNamespace. apply (load_pages_complete _ _ _ _ n items []); [done|lia|simpl; lia]. }
  unfold after_namespace. simpl. destruct (IH (block_completed (with_value (bk_Value b ++ items) b))) as (b' & Hb' & Hc' & Hv').
  - done.
  - simpl. rewrite !length_app. lia.
  - exists b'. split_and!; [done..|]. rewrite Hv'. simpl. by rewrite app_assoc.
Qed.
End collecting.

Lemma Normalized_pos b :
  (0 < qb_MaxPages (Normalized b) ∧ 0 < qb_MaxItems (Normalized b) ∧ 0 < qb_PageSize (Normalized b) ≤ 500
   ∧ 0 < qb_Timeout (Normalized b) ≤ MaximumBlockTimeout)%Z.
Proof.
  unfold Normalized, DefaultQueryBudget; simpl. unfold DefaultMaxPages, MaximumBlockTimeout, DefaultBlockTimeout, DefaultMaxItems,
    DefaultPageSize, Second.
  split_and!; repeat case_match; bool_to_prop; lia.
Qed.

Lemma load_block {A} (expired : nat → option failure)
    (ListPage : nat → string → Z → string → result failure (page A)) (configured : QueryBudget) (selected : list string)
    (budget := Normalized configured) (namespaces := canonicalNamespaces selected) block calls :
  load expired ListPage budget true selected 0 = (block, calls) →
  (Z.of_nat (length (bk_Value block)) ≤ qb_MaxItems budget)%Z
  ∧ (bk_Complete block = true ↔ bk_Truncated block = false ∧ bk_Errors block = [])
  ∧ (∃ c, bk_Coverage block = Some c ∧ cv_RequestedNamespaces c = Z.of_nat (length namespaces)
       ∧ (0 ≤ cv_CompletedNamespaces c ≤ cv_RequestedNamespaces c)%Z
       ∧ (bk_Complete block = true ↔ cv_CompletedNamespaces c = cv_RequestedNamespaces c))
  ∧ (bk_Complete block = true → lists_all expired ListPage budget 0 namespaces (bk_Value block) calls)
  ∧ (∀ items k, lists_all expired ListPage budget 0 namespaces items k → (Z.of_nat (length items) < qb_MaxItems budget)%Z →
       bk_Complete block = true ∧ bk_Value block = items).
Proof.
  unfold load. fold namespaces. set (start := blockWithValue [] _). intros Hrun.
  destruct (Normalized_pos configured) as (Hp & Hi & _).
  assert (block_ok budget start 0 (Z.of_nat (length namespaces))) as Hs.
  { split; [done|exact (Z.lt_le_incl _ _ Hi)|]. eexists. split; [done|]. simpl. split_and!; lia || done. }
  destruct (load_namespaces_ok _ _ budget _ _ _ _ _ _ _ Hp Hrun Hs) as [[Hc Hl (c & Hcv & Hr & Hn & H0 & Hd)] Hall].
  split_and!; [done| | | |].
  - rewrite Hc, andb_true_iff, negb_true_iff, bool_decide_eq_true. done.
  - exists c. rewrite Hd, Hr. split_and!; [done..|lia|lia|done].
  - intros Hcb. by destruct (Hall Hcb) as (_ & items & -> & Hli).
  - intros items k Hli Hm. destruct (load_namespaces_complete _ _ _ namespaces items start 0 k Hli eq_refl Hm) as (b' & Hb' & Hc' & Hv').
    rewrite Hrun in Hb'. by simplify_eq.
Qed.

(** C15: a dashboard block that calls itself complete holds exactly what the API listed for
    every selected namespace, each to its last page, with no error and every namespace
    counted as completed; a block that is not complete says so by an error or by being
    truncated; and what the API answers in full, with fewer items than the budget, gives a
    complete block. *)
Theorem complete_block_holds_everything {A} (expired : nat → option failure)
    (ListPage : nat → string → Z → string → result failure (page A)) (configured : QueryBudget) (selected : list string)
    (budget := Normalized configured) (namespaces := canonicalNamespaces selected) block calls :
  load expired ListPage budget true selected 0 = (block, calls) →
  (Z.of_nat (length (bk_Value block)) ≤ qb_MaxItems budget)%Z
  ∧ (bk_Complete block = true ↔ bk_Truncated block = false ∧ bk_Errors block = [])
  ∧ (∃ c, bk_Coverage block = Some c ∧ cv_RequestedNamespaces c = Z.of_nat (length namespaces)
       ∧ (0 ≤ cv_CompletedNamespaces c ≤ cv_RequestedNamespaces c)%Z
       ∧ (bk_Complete block = true ↔ cv_CompletedNamespaces c = cv_RequestedNamespaces c))
  ∧ (bk_Complete block = true → lists_all expired ListPage budget 0 namespaces (bk_Value block) calls)
  ∧ (∀ items k, lists_all expired ListPage budget 0 namespaces items k → (Z.of_nat (length items) < qb_MaxItems budget)%Z →
       bk_Complete block = true ∧ bk_Value block = items).
Proof. apply load_block. Qed.

(** Two namespaces, the first in two pages. *)
Definition demo_pages (k : nat) (namespace : string) (size : Z) (cont : string) : result failure (page string) :=
  if String.eqb namespace "a"
  then if String.eqb cont "" then Ok (Build_page ["a1"; "a2"] "next") else Ok (Build_page ["a3"] "")
  else Ok (Build_page ["b1"] "").
Lemma complete_block_holds_everything_witness :
  let '(block, calls) := load (λ _, None) demo_pages (Normalized DefaultQueryBudget) true ["b"; ""; "a"; "b"] 0 in
  bk_Complete block = true ∧ bk_Value block = ["a1"; "a2"; "a3"; "b1"]
  ∧ lists_all (λ _, None) demo_pages (Normalized DefaultQueryBudget) 0 ["a"; "b"] (bk_Value block) calls.
Proof.
  destruct (load _ _ _ _ _ _) as [block calls] eqn:Hl. pose proof Hl as Hrun.
  vm_compute in Hrun. injection Hrun as Hb _. subst block. split_and!; [done..|].
  destruct (complete_block_holds_everything (λ _, None) demo_pages DefaultQueryBudget ["b"; ""; "a"; "b"] _ _ Hl)
    as (_ & _ & _ & H & _). exact (H eq_refl).
Defined.
