(* ===== verification/DashboardPods.v ===== *)
(** * DashboardPods: restarts, problems and the pod overview

    Models pods.go of src/internal/services/dashboard and its podhealth package. Pods and
    events are records with the fields the code reads. The pod port, the event port and the
    owner resolver are parameters that answer by the number of the call; the two ports are
    read concurrently and count their calls apart. *)
From Stdlib Require Import Ascii String ZArith Lia.
From stdpp Require Import base gmap strings list sorting.
From S2P Require Import Prelude Dashboard.
Local Open Scope string_scope.
Local Open Scope list_scope.

(** ** Data *)

Record ContainerStateWaiting := { wt_Reason : string; wt_Message : string }.
Record ContainerStateTerminated := { tm_Reason : string; tm_Message : string; tm_ExitCode : Z }.
Record ContainerState := {
  cs_Waiting : option ContainerStateWaiting; cs_Running : bool; cs_Terminated : option ContainerStateTerminated }.
Record ContainerStatus := {
  st_Name : string; st_RestartCount : Z; st_Ready : bool; st_State : ContainerState;
  st_LastTerminationState : ContainerState }.
Record PodCondition := { cd_Type : string; cd_Status : string; cd_Reason : string; cd_Message : string }.
Record OwnerReference := {
  or_APIVersion : string; or_Kind : string; or_Name : string; or_UID : string; or_Controller : option bool }.
Record Pod := {
  pod_Namespace : string; pod_Name : string; pod_UID : string; pod_CreationTimestamp : instant;
  pod_OwnerReferences : list OwnerReference; pod_Phase : string; pod_Reason : string; pod_Message : string;
  pod_ContainerStatuses : list ContainerStatus; pod_InitContainerStatuses : list ContainerStatus;
  pod_EphemeralContainerStatuses : list ContainerStatus; pod_Conditions : list PodCondition }.

Record ResourceRef := { rf_APIGroup : string; rf_Kind : string; rf_Namespace : string; rf_Name : string; rf_UID : string }.
Record NormalizedEvent := {
  ne_UID : string; ne_Namespace : string; ne_RegardingKind : string; ne_RegardingName : string; ne_RegardingUID : string;
  ne_Type : string; ne_Reason : string; ne_Message : string; ne_Count : Z; ne_Source : string; ne_ObservedAt : instant }.

Inductive ContainerType := ContainerRegular | ContainerInit | ContainerEphemeral.
Inductive RestartSeverity := RestartHealthy | RestartAttention | RestartWarning | RestartCritical.
Inductive ProblemSeverity := ProblemInfo | ProblemWarning | ProblemCritical.
Inductive ProblemSource :=
| ProblemPodStatus | ProblemContainerWaiting | ProblemContainerTerminated | ProblemContainerStatus | ProblemCondition
| ProblemEvent.
#[export] Instance ContainerType_eq_dec : EqDecision ContainerType.
Proof. solve_decision. Defined.
#[export] Instance ProblemSeverity_eq_dec : EqDecision ProblemSeverity.
Proof. solve_decision. Defined.

Record RestartDTO := {
  rs_Namespace : string; rs_Pod : string; rs_Owner : option ResourceRef; rs_Container : string;
  rs_ContainerType : ContainerType; rs_Restarts : Z; rs_Severity : RestartSeverity; rs_Status : string;
  rs_LastReason : string; rs_AgeSeconds : Z }.
Record ProblemPodDTO := {
  pb_Resource : ResourceRef; pb_Namespace : string; pb_Pod : string; pb_Owner : option ResourceRef;
  pb_Container : option string; pb_ContainerType : option ContainerType; pb_Status : string; pb_Reason : option string;
  pb_Message : option string; pb_Summary : string; pb_Source : ProblemSource; pb_Severity : ProblemSeverity;
  pb_AgeSeconds : Z; pb_Actions : list string }.
Record PodOverview := { ov_Total : Z; ov_Healthy : Z; ov_Problematic : Z; ov_Restarts : Z }.
Record PodNamespaceHealth := { nh_ProblematicPods : Z; nh_ContainerRestarts : Z }.

(** ** Owners *)

Definition apiGroup (apiVersion : string) : string :=
  match list_find (λ c, c = "/"%char) (chars apiVersion) with
  | Some (slash, _) => of_chars (take slash (chars apiVersion))
  | None => ""
  end.
Definition resourceRef (apiVersion kind namespace name uid : string) : option ResourceRef :=
  if String.eqb kind "" || String.eqb name "" then None
  else Some {| rf_APIGroup := apiGroup apiVersion; rf_Kind := kind; rf_Namespace := namespace; rf_Name := name; rf_UID := uid |}.
Definition ControllingOwner (references : list OwnerReference) : option OwnerReference :=
  List.find (λ r, bool_decide (or_Controller r = Some true)) references.
Definition DirectPodOwner (pod : Pod) : option ResourceRef :=
  match ControllingOwner (pod_OwnerReferences pod) with
  | Some o => resourceRef (or_APIVersion o) (or_Kind o) (pod_Namespace pod) (or_Name o) (or_UID o)
  | None => None
  end.

(** [podhealth.Problematic], the badge of the resource lists. *)
Definition Problematic (phase : string) (readyCurrent readyDesired restarts : Z) (statusGroups : list (list ContainerStatus))
    : bool :=
  String.eqb phase "Pending" || String.eqb phase "Failed" || String.eqb phase "Unknown"
  || (String.eqb phase "Running" && negb (readyCurrent =? readyDesired)%Z)
  || (3 <=? restarts)%Z
  || existsb (existsb (λ status,
       match cs_Waiting (st_State status), cs_Terminated (st_State status) with
       | Some _, _ => true
       | None, Some t => negb (tm_ExitCode t =? 0)%Z
       | None, None => false
       end)) statusGroups.

(** ** Restarts *)

Definition RestartSeverityFor (restarts : Z) : RestartSeverity :=
  if (restarts <=? 0)%Z then RestartHealthy
  else if (restarts <=? 2)%Z then RestartAttention
  else if (restarts <=? 9)%Z then RestartWarning
  else RestartCritical.
Definition or_else (s fallback : string) : string := if String.eqb s "" then fallback else s.
Definition containerStatus (status : ContainerStatus) : string * string :=
  let current :=
    match cs_Waiting (st_State status), cs_Running (st_State status), cs_Terminated (st_State status) with
    | Some w, _, _ => or_else (wt_Reason w) "Waiting"
    | None, true, _ => "Running"
    | None, false, Some t => or_else (tm_Reason t) "Terminated"
    | None, false, None => "Unknown"
    end in
  let last :=
    match cs_Terminated (st_LastTerminationState status), cs_Terminated (st_State status) with
    | Some t, _ => tm_Reason t
    | None, Some t => tm_Reason t
    | None, None => ""
    end in
  (sanitizeText current MaximumStatusBytes, sanitizeText last MaximumStatusBytes).

Definition typeRank (value : ContainerType) : Z :=
  match value with ContainerRegular => 0 | ContainerInit => 1 | ContainerEphemeral => 2 end.
Definition restart_less (l r : RestartDTO) : bool :=
  if negb (rs_Restarts l =? rs_Restarts r)%Z then (rs_Restarts r <? rs_Restarts l)%Z
  else if negb (String.eqb (rs_Namespace l) (rs_Namespace r)) then str_lt (rs_Namespace l) (rs_Namespace r)
  else if negb (String.eqb (rs_Pod l) (rs_Pod r)) then str_lt (rs_Pod l) (rs_Pod r)
  else if negb (typeRank (rs_ContainerType l) =? typeRank (rs_ContainerType r))%Z
    then (typeRank (rs_ContainerType l) <? typeRank (rs_ContainerType r))%Z
  else str_lt (rs_Container l) (rs_Container r).
Definition SortRestarts (rows : list RestartDTO) : list RestartDTO := sort_stable restart_less rows.

(** The statuses of a pod, with their container type, in the order the code visits them. *)
Definition all_statuses (pod : Pod) : list (ContainerStatus * ContainerType) :=
  ((λ s, (s, ContainerRegular)) <$> pod_ContainerStatuses pod)
  ++ ((λ s, (s, ContainerInit)) <$> pod_InitContainerStatuses pod)
  ++ ((λ s, (s, ContainerEphemeral)) <$> pod_EphemeralContainerStatuses pod).
Definition restart_row (pod : Pod) (owner : option ResourceRef) (now : instant) (s : ContainerStatus * ContainerType)
    : RestartDTO :=
  let '(status, containerType) := s in
  let '(current, last) := containerStatus status in {|
  rs_Namespace := pod_Namespace pod; rs_Pod := pod_Name pod; rs_Owner := owner; rs_Container := st_Name status;
  rs_ContainerType := containerType; rs_Restarts := st_RestartCount status;
  rs_Severity := RestartSeverityFor (st_RestartCount status); rs_Status := current; rs_LastReason := last;
  rs_AgeSeconds := ageSeconds (pod_CreationTimestamp pod) now |}.
Definition PodRestarts (pod : Pod) (owner : option ResourceRef) (now : instant) : list RestartDTO :=
  SortRestarts (restart_row pod owner now <$> List.filter (λ s, (0 <? st_RestartCount s.1)%Z) (all_statuses pod)).

(** ** Problems *)

Record problemCandidate := {
  pc_priority : Z; pc_severity : ProblemSeverity; pc_container : option string; pc_containerType : option ContainerType;
  pc_reason : option string; pc_message : option string; pc_source : ProblemSource; pc_event : option NormalizedEvent;
  pc_stateOrder : Z }.

Definition reason_text (s : string) : option string := stringPointer (sanitizeText s MaximumStatusBytes).
Definition message_text (s : string) : option string := stringPointer (sanitizeText s MaximumProblemText).

Definition waitingProblem (reason : string) : option (Z * ProblemSeverity) :=
  if existsb (String.eqb reason) ["CrashLoopBackOff"; "CreateContainerConfigError"; "RunContainerError"]
  then Some (3, ProblemCritical)%Z
  else if existsb (String.eqb reason) ["ImagePullBackOff"; "ErrImagePull"] then Some (5, ProblemWarning)%Z
  else None.
Definition podAgeAtLeast (created now : instant) (minimum : Z) : bool :=
  negb (IsZero created) && negb (After created now) && (minimum <=? Sub now created)%Z.

Definition hasCaseInsensitivePrefix (value prefix : string) : bool :=
  if (len value <? len prefix)%Z then false
  else EqualFold (of_chars (take (String.length prefix) (chars value))) prefix.

(** The priority of an event as a problem of the pod. *)
Definition about_pod (pod : Pod) (e : NormalizedEvent) : bool :=
  EqualFold (ne_Type e) "Warning" && String.eqb (ne_RegardingKind e) "Pod"
  && String.eqb (ne_Namespace e) (pod_Namespace pod) && String.eqb (ne_RegardingName e) (pod_Name pod)
  && negb (String.eqb (ne_RegardingUID e) "") && String.eqb (ne_RegardingUID e) (pod_UID pod).
Definition recent (now : instant) (e : NormalizedEvent) : bool :=
  negb (IsZero (ne_ObservedAt e)) && negb (Before (ne_ObservedAt e) (now - 15 * Minute)%Z)
  && negb (After (ne_ObservedAt e) (now + Minute)%Z).
Definition event_priority (e : NormalizedEvent) : option Z :=
  if String.eqb (ne_Reason e) "Unhealthy" && hasCaseInsensitivePrefix (ne_Message e) "Liveness probe failed" then Some 4%Z
  else if String.eqb (ne_Reason e) "FailedScheduling" then Some 7%Z
  else if String.eqb (ne_Reason e) "Unhealthy" && hasCaseInsensitivePrefix (ne_Message e) "Readiness probe failed" then Some 8%Z
  else None.
Definition newerEvent (l r : NormalizedEvent) : bool :=
  if negb (ne_ObservedAt l =? ne_ObservedAt r)%Z then After (ne_ObservedAt l) (ne_ObservedAt r)
  else if negb (ne_Count l =? ne_Count r)%Z then (ne_Count r <? ne_Count l)%Z
  else if negb (String.eqb (ne_Reason l) (ne_Reason r)) then str_lt (ne_Reason l) (ne_Reason r)
  else str_lt (ne_UID l) (ne_UID r).

Definition best_event (pod : Pod) (now : instant) (best : gmap Z NormalizedEvent) (e : NormalizedEvent)
    : gmap Z NormalizedEvent :=
  if about_pod pod e && recent now e
  then
    match event_priority e with
    | None => best
    | Some priority =>
      match best !! priority with
      | Some current => if newerEvent e current then <[priority := e]> best else best
      | None => <[priority := e]> best
      end
    end
  else best.
Definition event_severity (priority : Z) : ProblemSeverity := if (priority =? 4)%Z then ProblemCritical else ProblemWarning.

Definition oom_problems (name : string) (containerType : ContainerType) (states : list (option ContainerStateTerminated))
    : list problemCandidate :=
  concat (imap (λ stateOrder state,
    match state with
    | Some t =>
      if String.eqb (tm_Reason t) "OOMKilled"
      then [{| pc_priority := 2; pc_severity := ProblemCritical; pc_container := stringPointer name;
               pc_containerType := Some containerType; pc_reason := reason_text (tm_Reason t);
               pc_message := message_text (tm_Message t); pc_source := ProblemContainerTerminated; pc_event := None;
               pc_stateOrder := Z.of_nat stateOrder |}]
      else []
    | None => []
    end) states).
Definition container_problems (pod : Pod) (now : instant) (s : ContainerStatus * ContainerType) : list problemCandidate :=
  let '(container, containerType) := s in
  let name := st_Name container in
  oom_problems name containerType [cs_Terminated (st_State container); cs_Terminated (st_LastTerminationState container)]
  ++ match cs_Waiting (st_State container) with
     | Some waiting =>
       match waitingProblem (wt_Reason waiting) with
       | Some (priority, severity) =>
         [{| pc_priority := priority; pc_severity := severity; pc_container := stringPointer name;
             pc_containerType := Some containerType; pc_reason := reason_text (wt_Reason waiting);
             pc_message := message_text (wt_Message waiting); pc_source := ProblemContainerWaiting; pc_event := None;
             pc_stateOrder := 0 |}]
       | None => []
       end
     | None => []
     end
  ++ if String.eqb (pod_Phase pod) "Running" && negb (st_Ready container)
        && podAgeAtLeast (pod_CreationTimestamp pod) now (2 * Minute)
     then [{| pc_priority := 9; pc_severity := ProblemWarning; pc_container := stringPointer name;
              pc_containerType := Some containerType; pc_reason := stringPointer "NotReady"; pc_message := None;
              pc_source := ProblemContainerStatus; pc_event := None; pc_stateOrder := 0 |}]
     else [].

(** A candidate that names no container. *)
Definition pod_problem (priority : Z) (severity : ProblemSeverity) (reason message : string) (source : ProblemSource)
    (event : option NormalizedEvent) : problemCandidate := {|
  pc_priority := priority; pc_severity := severity; pc_container := None; pc_containerType := None;
  pc_reason := reason_text reason; pc_message := message_text message; pc_source := source; pc_event := event;
  pc_stateOrder := 0 |}.
Definition status_problems (pod : Pod) : list problemCandidate :=
  if String.eqb (pod_Phase pod) "Failed" || String.eqb (pod_Reason pod) "Evicted"
  then [pod_problem 1 ProblemCritical (pod_Reason pod) (pod_Message pod) ProblemPodStatus None] else [].
Definition unschedulable (c : PodCondition) : bool :=
  String.eqb (cd_Type c) "PodScheduled" && String.eqb (cd_Status c) "False" && String.eqb (cd_Reason c) "Unschedulable".
Definition condition_problems (pod : Pod) : list problemCandidate :=
  (λ c, pod_problem 6 ProblemWarning (cd_Reason c) (cd_Message c) ProblemCondition None)
    <$> List.filter unschedulable (pod_Conditions pod).
Definition pending_problems (pod : Pod) (now : instant) : list problemCandidate :=
  if String.eqb (pod_Phase pod) "Pending" && podAgeAtLeast (pod_CreationTimestamp pod) now (5 * Minute)
  then [pod_problem 10 ProblemWarning (pod_Reason pod) (pod_Message pod) ProblemPodStatus None] else [].

Definition type_key (c : problemCandidate) : Z := match pc_containerType c with Some t => typeRank t | None => 99 end.
Definition lessProblemCandidate (l r : problemCandidate) : bool :=
  let by_evidence :=
    match pc_event l, pc_event r with
    | Some e, Some e' => if newerEvent e e' then true else (pc_stateOrder l <? pc_stateOrder r)%Z
    | _, _ => (pc_stateOrder l <? pc_stateOrder r)%Z
    end in
  if negb (bool_decide (pc_severity l = pc_severity r)) then bool_decide (pc_severity l = ProblemCritical)
  else if negb (pc_priority l =? pc_priority r)%Z then (pc_priority l <? pc_priority r)%Z
  else if bool_decide (is_Some (pc_containerType l)) || bool_decide (is_Some (pc_containerType r))
  then
    if negb (type_key l =? type_key r)%Z then (type_key l <? type_key r)%Z
    else
      let leftName := default "" (pc_container l) in let rightName := default "" (pc_container r) in
      if negb (String.eqb leftName rightName) then str_lt leftName rightName else by_evidence
  else by_evidence.

Definition non_empty (s : option string) : option string :=
  match s with Some s => if String.eqb s "" then None else Some s | None => None end.
Definition problemSummary (reason message : option string) : string :=
  match non_empty reason, non_empty message with
  | Some r, _ => r
  | None, Some m => m
  | None, None => "Observed problem"
  end.

Section pods.
(** The order of a walk over a map. *)
Context (order : list (Z * NormalizedEvent) → list (Z * NormalizedEvent)).

Definition matchingProblemEvents (pod : Pod) (events : list NormalizedEvent) (now : instant) : list (Z * NormalizedEvent) :=
  order (map_to_list (foldl (best_event pod now) ∅ events)).
Definition event_problems (matches : list (Z * NormalizedEvent)) : list problemCandidate :=
  (λ m, pod_problem m.1 (event_severity m.1) (ne_Reason m.2) (ne_Message m.2) ProblemEvent (Some m.2)) <$> matches.

Definition problem_candidates (pod : Pod) (events : list NormalizedEvent) (now : instant) : list problemCandidate :=
  status_problems pod ++ concat (container_problems pod now <$> all_statuses pod) ++ condition_problems pod
  ++ event_problems (matchingProblemEvents pod events now) ++ pending_problems pod now.

Definition problem_of (pod : Pod) (owner : option ResourceRef) (now : instant) (winner : problemCandidate) : ProblemPodDTO := {|
  pb_Resource := {| rf_APIGroup := ""; rf_Kind := "Pod"; rf_Namespace := pod_Namespace pod; rf_Name := pod_Name pod;
                    rf_UID := pod_UID pod |};
  pb_Namespace := pod_Namespace pod; pb_Pod := pod_Name pod; pb_Owner := owner; pb_Container := pc_container winner;
  pb_ContainerType := pc_containerType winner;
  pb_Status := sanitizeText (or_else (pod_Phase pod) "Unknown") MaximumStatusBytes; pb_Reason := pc_reason winner;
  pb_Message := pc_message winner; pb_Summary := problemSummary (pc_reason winner) (pc_message winner);
  pb_Source := pc_source winner; pb_Severity := pc_severity winner;
  pb_AgeSeconds := ageSeconds (pod_CreationTimestamp pod) now; pb_Actions := ["inspect"; "logs"] |}.
Definition ClassifyProblemPod (pod : Pod) (events : list NormalizedEvent) (owner : option ResourceRef) (now : instant)
    : option ProblemPodDTO :=
  match sort_stable lessProblemCandidate (problem_candidates pod events now) with
  | [] => None
  | winner :: _ => Some (problem_of pod owner now winner)
  end.
End pods.

Definition severity_rank (value : ProblemSeverity) : Z :=
  match value with ProblemCritical => 0 | ProblemWarning => 1 | ProblemInfo => 2 end.
Definition problem_less (l r : ProblemPodDTO) : bool :=
  if negb (bool_decide (pb_Severity l = pb_Severity r)) then (severity_rank (pb_Severity l) <? severity_rank (pb_Severity r))%Z
  else if negb (String.eqb (pb_Namespace l) (pb_Namespace r)) then str_lt (pb_Namespace l) (pb_Namespace r)
  else if negb (String.eqb (pb_Pod l) (pb_Pod r)) then str_lt (pb_Pod l) (pb_Pod r)
  else str_lt (default "" (pb_Container l)) (default "" (pb_Container r)).
Definition SortProblems (values : list ProblemPodDTO) : list ProblemPodDTO := sort_stable problem_less values.

(** [podIsPositivelyHealthy]: the first Ready condition decides. *)
Definition pod_ready (pod : Pod) : bool :=
  match List.find (λ c, String.eqb (cd_Type c) "Ready") (pod_Conditions pod) with
  | Some c => String.eqb (cd_Status c) "True"
  | None => false
  end.
Definition podIsPositivelyHealthy (pod : Pod) : bool :=
  String.eqb (pod_Phase pod) "Running" && pod_ready pod && negb (bool_decide (pod_ContainerStatuses pod = []))
  && forallb (λ s, st_Ready s && cs_Running (st_State s)) (pod_ContainerStatuses pod).

(** ** The pod service *)

Definition pod_key (namespace name : string) : string := namespace +:+ "/" +:+ name.
Definition pod_less (l r : Pod) : bool :=
  if negb (String.eqb (pod_Namespace l) (pod_Namespace r)) then str_lt (pod_Namespace l) (pod_Namespace r)
  else if negb (String.eqb (pod_Name l) (pod_Name r)) then str_lt (pod_Name l) (pod_Name r)
  else str_lt (pod_UID l) (pod_UID r).

(** A nil port is [false]. [NewPodService] stores the normalized budget. *)
Record PodService := { ps_pods : bool; ps_events : bool; ps_owners : bool; ps_budget : QueryBudget }.
Definition NewPodService (pods events owners : bool) (budget : QueryBudget) : PodService := {|
  ps_pods := pods; ps_events := events; ps_owners := owners; ps_budget := Normalized budget |}.

(** [unavailablePodOverview] and its like: a block of a service that is missing. *)
Definition unavailable_block {T} (value : T) : DashboardBlockDTO T :=
  addBlockError "" NewFeatureUnavailableError (blockWithValue value None).

Definition pod_restarts (pod : Pod) : Z := sum_Z ((λ s, maxInt32 (st_RestartCount s.1) 0) <$> all_statuses pod).

Section service.
Context `{SliceSort} (order : list (Z * NormalizedEvent) → list (Z * NormalizedEvent))
  (podsExpired eventsExpired : nat → option failure)
  (ListPods : nat → string → Z → string → result failure (page Pod))
  (ListEvents : nat → string → Z → string → result failure (page NormalizedEvent))
  (ResolvePodOwner : nat → option Pod → result failure (option ResourceRef)) (now : instant).

Definition loadPods (s : PodService) (selected : list string) : DashboardBlockDTO (list Pod) :=
  let block := (load podsExpired ListPods (ps_budget s) (ps_pods s) selected 0).1 in
  if ps_pods s then with_value (sort_Slice pod_less (bk_Value block)) block else block.
Definition loadEvents (s : PodService) (selected : list string) : DashboardBlockDTO (list NormalizedEvent) :=
  (load eventsExpired ListEvents (ps_budget s) (ps_events s) selected 0).1.
Definition loadPodEvidence (s : PodService) (selected : list string)
    : DashboardBlockDTO (list Pod) * DashboardBlockDTO (list NormalizedEvent) :=
  (loadPods s selected, loadEvents s selected).
(** The block of a result that needs both. *)
Definition evidence_block {T} (value : T) (pods : DashboardBlockDTO (list Pod)) (events : DashboardBlockDTO (list NormalizedEvent))
    : DashboardBlockDTO T :=
  mergeBlockCoverage (bk_Coverage events)
    (mergeBlockState (bk_Complete events) (bk_Truncated events) (bk_Errors events) (copyBlockState value pods)).

(** The next call of the resolver is [k]. *)
Definition resolveOwner (s : PodService) (pod : option Pod) (k : nat) : option ResourceRef * nat :=
  if ps_owners s
  then (match ResolvePodOwner k pod with Ok owner => owner | Err _ => pod ≫= DirectPodOwner end, S k)
  else (pod ≫= DirectPodOwner, k).

Definition podsByName (pods : list Pod) : gmap string Pod :=
  foldl (λ m pod, <[pod_key (pod_Namespace pod) (pod_Name pod) := pod]> m) ∅ pods.
Definition with_owner (owner : option ResourceRef) (r : RestartDTO) : RestartDTO := {|
  rs_Namespace := rs_Namespace r; rs_Pod := rs_Pod r; rs_Owner := owner; rs_Container := rs_Container r;
  rs_ContainerType := rs_ContainerType r; rs_Restarts := rs_Restarts r; rs_Severity := rs_Severity r;
  rs_Status := rs_Status r; rs_LastReason := rs_LastReason r; rs_AgeSeconds := rs_AgeSeconds r |}.
(** The owner of the pod of each row, resolved once per pod. *)
Fixpoint enrich (s : PodService) (pods : gmap string Pod) (rows : list RestartDTO) (owners : gmap string (option ResourceRef))
    (k : nat) : list RestartDTO * nat :=
  match rows with
  | [] => ([], k)
  | row :: rows =>
    let key := pod_key (rs_Namespace row) (rs_Pod row) in
    match owners !! key with
    | Some owner => let '(rest, k) := enrich s pods rows owners k in (with_owner owner row :: rest, k)
    | None =>
      let '(owner, k) := resolveOwner s (pods !! key) k in
      let '(rest, k) := enrich s pods rows (<[key := owner]> owners) k in
      (with_owner owner row :: rest, k)
    end
  end.

Definition restart_rows (pods : list Pod) : list RestartDTO :=
  SortRestarts (concat ((λ pod, PodRestarts pod (DirectPodOwner pod) now) <$> pods)).
Definition Restarts (service : option PodService) (selected : list string) (limit : Z) : DashboardBlockDTO (list RestartDTO) :=
  let limit := if (limit =? 0)%Z then DefaultRestartLimit else limit in
  let result := blockWithValue [] (Some (emptyCoverage (Z.of_nat (length (canonicalNamespaces selected))))) in
  if (limit <? 1)%Z || (MaximumRestartLimit <? limit)%Z
  then addBlockError "" (validationError "limit must be between 1 and 50") result
  else
    match service with
    | None => addBlockError "" NewFeatureUnavailableError result
    | Some s =>
      let pods := loadPods s selected in
      let rows := restart_rows (bk_Value pods) in
      let result := copyBlockState rows pods in
      let result :=
        if (limit <? Z.of_nat (length rows))%Z
        then block_truncated (with_value (take (Z.to_nat limit) rows) result) else result in
      with_value (enrich s (podsByName (bk_Value pods)) (bk_Value result) ∅ 0).1 result
    end.

(** The owner of every pod is resolved before it is classified. *)
Fixpoint problems_of (s : PodService) (pods : list Pod) (events : list NormalizedEvent) (k : nat) : list ProblemPodDTO * nat :=
  match pods with
  | [] => ([], k)
  | pod :: pods =>
    let '(owner, k) := resolveOwner s (Some pod) k in
    let '(rest, k) := problems_of s pods events k in
    (match ClassifyProblemPod order pod events owner now with Some p => p :: rest | None => rest end, k)
  end.
Definition Problems (service : option PodService) (selected : list string) : DashboardBlockDTO (list ProblemPodDTO) :=
  match service with
  | None => unavailable_block []
  | Some s =>
    let '(pods, events) := loadPodEvidence s selected in
    evidence_block (SortProblems (problems_of s (bk_Value pods) (bk_Value events) 0).1) pods events
  end.

Definition is_problem (events : list NormalizedEvent) (pod : Pod) : bool :=
  bool_decide (is_Some (ClassifyProblemPod order pod events None now)).
Definition overview_pod (events : list NormalizedEvent) (v : PodOverview) (pod : Pod) : PodOverview :=
  let problematic := is_problem events pod in {|
  ov_Total := ov_Total v;
  ov_Healthy := if negb problematic && podIsPositivelyHealthy pod then (ov_Healthy v + 1)%Z else ov_Healthy v;
  ov_Problematic := if problematic then (ov_Problematic v + 1)%Z else ov_Problematic v;
  ov_Restarts := (ov_Restarts v + pod_restarts pod)%Z |}.
Definition Overview (service : option PodService) (selected : list string) : DashboardBlockDTO PodOverview :=
  let zero := {| ov_Total := 0; ov_Healthy := 0; ov_Problematic := 0; ov_Restarts := 0 |} in
  match service with
  | None => unavailable_block zero
  | Some s =>
    let '(pods, events) := loadPodEvidence s selected in
    evidence_block (foldl (overview_pod (bk_Value events))
      {| ov_Total := Z.of_nat (length (bk_Value pods)); ov_Healthy := 0; ov_Problematic := 0; ov_Restarts := 0 |}
      (bk_Value pods)) pods events
  end.

Definition health_of_pod (events : list NormalizedEvent) (health : gmap string PodNamespaceHealth) (pod : Pod)
    : gmap string PodNamespaceHealth :=
  let entry := get_or health (pod_Namespace pod) {| nh_ProblematicPods := 0; nh_ContainerRestarts := 0 |} in
  <[pod_Namespace pod := {|
      nh_ProblematicPods := if is_problem events pod then (nh_ProblematicPods entry + 1)%Z else nh_ProblematicPods entry;
      nh_ContainerRestarts := (nh_ContainerRestarts entry + pod_restarts pod)%Z |}]> health.
Definition NamespaceHealth (service : option PodService) (selected : list string)
    : DashboardBlockDTO (gmap string PodNamespaceHealth) :=
  match service with
  | None => unavailable_block ∅
  | Some s =>
    let '(pods, events) := loadPodEvidence s selected in
    evidence_block (foldl (health_of_pod (bk_Value events)) ∅ (bk_Value pods)) pods events
  end.
End service.
