(* ===== verification/DashboardProblems.v ===== *)
(** * DashboardProblems: what the pod service shows

    The restart list is the top of one ranking of all containers; the problem of a pod is its
    gravest evidence and does not depend on the order in which events and maps are walked; the
    overview counts every pod once. *)
From Stdlib Require Import Ascii String ZArith Lia.
From stdpp Require Import base gmap strings list sorting.
From S2P Require Import Prelude Dashboard DashboardPods.
Local Open Scope string_scope.
Local Open Scope list_scope.

(** ** The comparators are strict weak orders *)

#[export] Instance restart_less_swo : StrictWeakOrder restart_less.
Proof.
  apply (lex_Z_down rs_Restarts), (lex_str rs_Namespace), (lex_str rs_Pod), (lex_Z (λ r, typeRank (rs_ContainerType r))).
  apply (key_swo rs_Container str_lt).
Qed.
#[export] Instance pod_less_swo : StrictWeakOrder pod_less.
Proof. apply (lex_str pod_Namespace), (lex_str pod_Name), (key_swo pod_UID str_lt). Qed.
#[export] Instance newerEvent_swo : StrictWeakOrder newerEvent.
Proof.
  apply (lex_Z_down ne_ObservedAt), (lex_Z_down ne_Count), (lex_str ne_Reason), (key_swo ne_UID str_lt).
Qed.
Lemma newerEvent_total e e' : newerEvent e e' = false → newerEvent e' e = false → ne_UID e = ne_UID e'.
Proof.
  unfold newerEvent, After. rewrite (Z.eqb_sym (ne_ObservedAt e')), (Z.eqb_sym (ne_Count e')), (String.eqb_sym (ne_Reason e')).
  repeat case_match; intros; bool_to_prop; try lia; [|by apply str_lt_eq].
  exfalso. by eapply H1, str_lt_eq.
Qed.

(** ** Evidence that something is wrong with a pod *)

(** [e] is a recent warning about the pod, a problem of priority [p]; none is newer. *)
Definition relevant (pod : Pod) (now : instant) (p : Z) (e : NormalizedEvent) : Prop :=
  about_pod pod e = true ∧ recent now e = true ∧ event_priority e = Some p.
Definition newest (pod : Pod) (events : list NormalizedEvent) (now : instant) (p : Z) (e : NormalizedEvent) : Prop :=
  e ∈ events ∧ relevant pod now p e ∧ ∀ e', e' ∈ events → relevant pod now p e' → newerEvent e' e = false.

Definition container_problem (priority : Z) (severity : ProblemSeverity) (s : ContainerStatus * ContainerType)
    (reason message : option string) (source : ProblemSource) (stateOrder : Z) : problemCandidate := {|
  pc_priority := priority; pc_severity := severity; pc_container := stringPointer (st_Name s.1);
  pc_containerType := Some s.2; pc_reason := reason; pc_message := message; pc_source := source; pc_event := None;
  pc_stateOrder := stateOrder |}.

Inductive evidence (pod : Pod) (events : list NormalizedEvent) (now : instant) : problemCandidate → Prop :=
| failed_pod :
    pod_Phase pod = "Failed" ∨ pod_Reason pod = "Evicted" →
    evidence pod events now (pod_problem 1 ProblemCritical (pod_Reason pod) (pod_Message pod) ProblemPodStatus None)
| oom_killed s t i :
    s ∈ all_statuses pod →
    i = 0%Z ∧ cs_Terminated (st_State s.1) = Some t ∨ i = 1%Z ∧ cs_Terminated (st_LastTerminationState s.1) = Some t →
    tm_Reason t = "OOMKilled" →
    evidence pod events now (container_problem 2 ProblemCritical s (reason_text (tm_Reason t)) (message_text (tm_Message t))
      ProblemContainerTerminated i)
| stuck_waiting s w p severity :
    s ∈ all_statuses pod → cs_Waiting (st_State s.1) = Some w → waitingProblem (wt_Reason w) = Some (p, severity) →
    evidence pod events now (container_problem p severity s (reason_text (wt_Reason w)) (message_text (wt_Message w))
      ProblemContainerWaiting 0)
| not_ready s :
    s ∈ all_statuses pod → pod_Phase pod = "Running" → st_Ready s.1 = false →
    podAgeAtLeast (pod_CreationTimestamp pod) now (2 * Minute) = true →
    evidence pod events now (container_problem 9 ProblemWarning s (Some "NotReady") None ProblemContainerStatus 0)
| not_scheduled c :
    c ∈ pod_Conditions pod → unschedulable c = true →
    evidence pod events now (pod_problem 6 ProblemWarning (cd_Reason c) (cd_Message c) ProblemCondition None)
| warned e p :
    newest pod events now p e →
    evidence pod events now (pod_problem p (event_severity p) (ne_Reason e) (ne_Message e) ProblemEvent (Some e))
| long_pending :
    pod_Phase pod = "Pending" → podAgeAtLeast (pod_CreationTimestamp pod) now (5 * Minute) = true →
    evidence pod events now (pod_problem 10 ProblemWarning (pod_Reason pod) (pod_Message pod) ProblemPodStatus None).

(** ** The newest event of each priority *)

Definition best_events (pod : Pod) (events : list NormalizedEvent) (now : instant) : gmap Z NormalizedEvent :=
  foldl (best_event pod now) ∅ events.

Lemma best_event_other pod now best e p : ¬ relevant pod now p e → best_event pod now best e !! p = best !! p.
Proof.
  intros Hr. unfold best_event, relevant in *. destruct (about_pod pod e), (recent now e); simpl; try done.
  destruct (event_priority e) as [q|]; [|done]. assert (q ≠ p) by (intros ->; by destruct Hr).
  destruct (best !! q); [destruct (newerEvent e n)|]; by rewrite ?lookup_insert_ne.
Qed.
Lemma best_event_same pod now best e p :
  relevant pod now p e →
  best_event pod now best e !! p = match best !! p with Some c => Some (if newerEvent e c then e else c) | None => Some e end.
Proof.
  intros (Ha & Hr & Hp). unfold best_event. rewrite Ha, Hr, Hp. simpl.
  destruct (best !! p) as [c|] eqn:Hb; [destruct (newerEvent e c)|]; by rewrite ?lookup_insert_eq.
Qed.
#[export] Instance relevant_dec pod now p e : Decision (relevant pod now p e).
Proof. unfold relevant. apply _. Defined.

Lemma best_some pod events now p e :
  e ∈ events → relevant pod now p e → best_events pod events now !! p ≠ None.
Proof.
  unfold best_events. intros Hin Hr. induction events as [|x events IH] using rev_ind; [by apply not_elem_of_nil in Hin|]. rewrite foldl_snoc.
  destruct (decide (relevant pod now p x)) as [Hx|Hx].
  - rewrite best_event_same by done. by destruct (_ !! p).
  - rewrite best_event_other by done. apply IH. set_solver.
Qed.
Lemma best_events_newest pod events now p e : best_events pod events now !! p = Some e → newest pod events now p e.
Proof.
  unfold best_events. revert e. induction events as [|x events IH] using rev_ind; intros e; [done|].
  rewrite foldl_snoc. destruct (decide (relevant pod now p x)) as [Hx|Hx].
  - rewrite best_event_same by done. destruct (foldl _ ∅ events !! p) as [c|] eqn:Hc.
    + destruct (IH c eq_refl) as (Hin & Hr & Hmax). intros [= <-]. destruct (newerEvent x c) eqn:Hn.
      * split_and!; [set_solver|done|]. intros e' [He'| ->%list_elem_of_singleton]%elem_of_app Hr'; [|apply swo_irrefl].
        specialize (Hmax e' He' Hr'). destruct (newerEvent e' x) eqn:E; [|done]. pose proof (swo_trans _ _ _ E Hn). congruence.
      * split_and!; [set_solver|done|]. intros e' [He'| ->%list_elem_of_singleton]%elem_of_app Hr'; [by apply Hmax|done].
    + intros [= <-]. split_and!; [set_solver|done|]. intros e' [He'| ->%list_elem_of_singleton]%elem_of_app Hr'; [|apply swo_irrefl].
      exfalso. clear IH. revert Hc. apply (best_some pod events now p e'); done.
  - rewrite best_event_other by done. intros He. destruct (IH e He) as (Hin & Hr & Hmax). split_and!; [set_solver|done|].
    intros e' [He'| ->%list_elem_of_singleton]%elem_of_app Hr'; [by apply Hmax|done].
Qed.

(** ** The candidates are the evidence *)

Lemma elem_of_concat_fmap {A B} (f : A → list B) (l : list A) y :
  y ∈ concat (f <$> l) ↔ ∃ x, x ∈ l ∧ y ∈ f x.
Proof.
  induction l as [|x l IH]; simpl; [set_solver|]. rewrite elem_of_app, IH. set_solver.
Qed.
Lemma elem_of_List_filter {A} (p : A → bool) (l : list A) x : x ∈ List.filter p l ↔ x ∈ l ∧ p x = true.
Proof. rewrite !list_elem_of_In. apply List.filter_In. Qed.

Section candidates.
Context (order : list (Z * NormalizedEvent) → list (Z * NormalizedEvent)) (order_perm : ∀ l, order l ≡ₚ l).

Lemma matching_elem pod events now p e :
  (p, e) ∈ matchingProblemEvents order pod events now ↔ best_events pod events now !! p = Some e.
Proof. unfold matchingProblemEvents. rewrite order_perm. apply elem_of_map_to_list. Qed.

Lemma oom_elem name ct s0 s1 c :
  c ∈ oom_problems name ct [s0; s1] ↔
  ∃ t i, (i = 0%Z ∧ s0 = Some t ∨ i = 1%Z ∧ s1 = Some t) ∧ tm_Reason t = "OOMKilled"
    ∧ c = {| pc_priority := 2; pc_severity := ProblemCritical; pc_container := stringPointer name;
             pc_containerType := Some ct; pc_reason := reason_text (tm_Reason t);
             pc_message := message_text (tm_Message t); pc_source := ProblemContainerTerminated; pc_event := None;
             pc_stateOrder := i |}.
Proof.
  unfold oom_problems. simpl. rewrite app_nil_r, elem_of_app. split.
  - intros [Hc|Hc]; [destruct s0 as [t|]|destruct s1 as [t|]]; try by apply not_elem_of_nil in Hc.
    all: destruct (String.eqb_spec (tm_Reason t) "OOMKilled"); [|by apply not_elem_of_nil in Hc].
    all: apply list_elem_of_singleton in Hc as ->; eauto 10.
  - intros (t & i & Hi & Hr & ->). destruct Hi as [[-> ->]|[-> ->]]; [left|right]; rewrite Hr; simpl; by apply list_elem_of_singleton.
Qed.

Lemma container_problems_elem pod now events s c :
  s ∈ all_statuses pod → c ∈ container_problems pod now s → evidence pod events now c.
Proof.
  intros Hs. unfold container_problems. destruct s as [st ct]. rewrite !elem_of_app, oom_elem. intros [Hc|[Hc|Hc]].
  - destruct Hc as (t & i & Hi & Hr & ->). by apply (oom_killed _ _ _ (st, ct)).
  - destruct (cs_Waiting (st_State st)) as [w|] eqn:Hw; [|by apply not_elem_of_nil in Hc].
    destruct (waitingProblem (wt_Reason w)) as [[p sev]|] eqn:Hp; [|by apply not_elem_of_nil in Hc].
    apply list_elem_of_singleton in Hc as ->. by apply (stuck_waiting _ _ _ (st, ct)).
  - destruct (String.eqb_spec (pod_Phase pod) "Running"); [|by apply not_elem_of_nil in Hc].
    destruct (st_Ready st) eqn:Hr; [by apply not_elem_of_nil in Hc|]. simpl in Hc.
    destruct (podAgeAtLeast _ _ _) eqn:Ha; [|by apply not_elem_of_nil in Hc].
    apply list_elem_of_singleton in Hc as ->. by apply (not_ready _ _ _ (st, ct)).
Qed.

Lemma candidates_are_evidence pod events now c :
  c ∈ problem_candidates order pod events now → evidence pod events now c.
Proof.
  unfold problem_candidates. rewrite !elem_of_app. intros [Hc|[Hc|[Hc|[Hc|Hc]]]].
  - unfold status_problems in Hc. destruct (_ || _) eqn:E; [|by apply not_elem_of_nil in Hc].
    apply list_elem_of_singleton in Hc as ->. apply failed_pod. apply orb_true_iff in E as [E|E]; apply String.eqb_eq in E; auto.
  - apply elem_of_concat_fmap in Hc as (s & Hs & Hc). by eapply container_problems_elem.
  - apply list_elem_of_fmap in Hc as (cd & -> & [Hin Hu]%elem_of_List_filter). by apply not_scheduled.
  - apply list_elem_of_fmap in Hc as ([p e] & -> & Hm). simpl. apply warned. by apply best_events_newest, matching_elem.
  - unfold pending_problems in Hc. destruct (_ && _) eqn:E; [|by apply not_elem_of_nil in Hc].
    apply list_elem_of_singleton in Hc as ->. apply andb_true_iff in E as [E ?]. apply String.eqb_eq in E. by apply long_pending.
Qed.

(** Every piece of evidence is a candidate, but that of two equally new events one is enough. *)
Lemma evidence_has_candidate pod events now c :
  evidence pod events now c →
  ∃ c', c' ∈ problem_candidates order pod events now ∧ pc_priority c' = pc_priority c.
Proof.
  unfold problem_candidates. setoid_rewrite elem_of_app. setoid_rewrite elem_of_app. setoid_rewrite elem_of_app. setoid_rewrite elem_of_app.
  destruct 1 as [Hf|[st ct] t i Hs Hi Hr|[st ct] w p sev Hs Hw Hp|[st ct] Hs Hph Hr Ha|cd Hin Hu|e p Hn|Hph Ha].
  - eexists. split; [left|]; [|done]. unfold status_problems. rewrite (proj2 (orb_true_iff _ _)); [by apply list_elem_of_singleton|].
    by rewrite !String.eqb_eq.
  - eexists. split; [right; left; apply elem_of_concat_fmap; exists (st, ct); split; [done|]|].
    + unfold container_problems. rewrite !elem_of_app, oom_elem. left. exists t, i. split; [done|split; [done|reflexivity]].
    + done.
  - eexists. split; [right; left; apply elem_of_concat_fmap; exists (st, ct); split; [done|]|].
    + unfold container_problems. rewrite !elem_of_app. right. left. simpl in Hw. rewrite Hw, Hp.
      by apply list_elem_of_singleton.
    + done.
  - eexists. split; [right; left; apply elem_of_concat_fmap; exists (st, ct); split; [done|]|].
    + unfold container_problems. rewrite !elem_of_app. right. right. simpl in Hr. rewrite Hph, Hr, Ha.
      by apply list_elem_of_singleton.
    + done.
  - eexists. split; [right; right; left; apply list_elem_of_fmap; exists cd; split; [done|]|done]. by apply elem_of_List_filter.
  - destruct Hn as (Hin & Hr & _). pose proof (best_some pod events now p e Hin Hr) as Hb.
    destruct (best_events pod events now !! p) as [e'|] eqn:He; [|done].
    eexists. split; [right; right; right; left; apply list_elem_of_fmap; exists (p, e'); split; [done|]|done]. by apply matching_elem.
  - eexists. split; [right; right; right; right|]; [|done]. unfold pending_problems. rewrite Hph, Ha. by apply list_elem_of_singleton.
Qed.
End candidates.

(** ** The order of the candidates *)

Definition candidate_order (l r : problemCandidate) : bool :=
  if negb (pc_priority l =? pc_priority r)%Z then (pc_priority l <? pc_priority r)%Z
  else if negb (type_key l =? type_key r)%Z then (type_key l <? type_key r)%Z
  else if negb (String.eqb (default "" (pc_container l)) (default "" (pc_container r)))
    then str_lt (default "" (pc_container l)) (default "" (pc_container r))
  else (pc_stateOrder l <? pc_stateOrder r)%Z.
#[export] Instance candidate_order_swo : StrictWeakOrder candidate_order.
Proof.
  apply (lex_Z pc_priority), (lex_Z type_key), (lex_str (λ c, default "" (pc_container c))), (key_swo pc_stateOrder Z.ltb).
Qed.

Lemma waitingProblem_severity r p sev :
  waitingProblem r = Some (p, sev) → p = 3%Z ∧ sev = ProblemCritical ∨ p = 5%Z ∧ sev = ProblemWarning.
Proof. unfold waitingProblem. repeat case_match; intros; simplify_eq; auto. Qed.
Lemma event_priority_cases e p : event_priority e = Some p → p = 4%Z ∨ p = 7%Z ∨ p = 8%Z.
Proof. unfold event_priority. repeat case_match; intros; simplify_eq; auto. Qed.

(** Severity follows priority; only events carry an event; without a type there is no name. *)
Lemma evidence_shape pod events now c :
  evidence pod events now c →
  pc_severity c = (if (pc_priority c <=? 4)%Z then ProblemCritical else ProblemWarning)
  ∧ (∀ e, pc_event c = Some e → newest pod events now (pc_priority c) e)
  ∧ (pc_containerType c = None → pc_container c = None).
Proof.
  destruct 1 as [Hf|s t i Hs Hi Hr|s w p sev Hs Hw Hp|s Hs Hph Hr Ha|cd Hin Hu|e p Hn|Hph Ha]; simpl; split_and!; try done.
  - by apply waitingProblem_severity in Hp as [[-> ->]|[-> ->]].
  - pose proof Hn as (_ & (_ & _ & Hp) & _). by apply event_priority_cases in Hp as [->|[->| ->]].
  - by intros ? [= <-].
Qed.

Lemma candidate_less_order pod events now c d :
  evidence pod events now c → evidence pod events now d →
  (∀ e e', pc_event c = Some e → pc_event d = Some e' → pc_priority c = pc_priority d → e = e') →
  lessProblemCandidate c d = candidate_order c d.
Proof.
  intros Hc Hd He. apply evidence_shape in Hc as (Sc & _ & Nc), Hd as (Sd & _ & Nd).
  unfold lessProblemCandidate, candidate_order. cbv zeta.
  set (by_evidence := match pc_event c with Some _ => _ | None => _ end).
  assert (pc_priority c = pc_priority d → by_evidence = (pc_stateOrder c <? pc_stateOrder d)%Z) as Hby.
  { intros Hp. unfold by_evidence. destruct (pc_event c) as [e|], (pc_event d) as [e'|]; try done.
    rewrite (He e e' eq_refl eq_refl Hp). by rewrite swo_irrefl. }
  clearbody by_evidence. clear He.
  destruct (Z.eqb_spec (pc_priority c) (pc_priority d)) as [Hp|Hp]; simpl.
  - rewrite Hby by done. rewrite Sc, Sd, Hp, bool_decide_eq_true_2 by done. simpl. unfold type_key.
    destruct (pc_containerType c), (pc_containerType d); simpl; rewrite ?bool_decide_eq_true_2 by eauto; simpl; try done.
    by rewrite Nc, Nd.
  - rewrite Sc, Sd. destruct (Z.leb_spec (pc_priority c) 4), (Z.leb_spec (pc_priority d) 4); simpl; try done.
    + symmetry. apply Z.ltb_lt. lia.
    + symmetry. apply Z.ltb_ge. lia.
Qed.

Lemma sort_stable_ext {A} (less less' : A → A → bool) (l : list A) :
  (∀ x y, x ∈ l → y ∈ l → less x y = less' x y) → sort_stable less l = sort_stable less' l.
Proof.
  intros He. induction l as [|x l IH]; simpl; [done|]. rewrite IH by (intros; apply He; by right).
  assert (∀ y, y ∈ sort_stable less' l → less y x = less' y x) as Hx.
  { intros y Hy. rewrite sort_stable_perm in Hy. apply He; [by right|by left]. }
  revert Hx. generalize (sort_stable less' l). clear. intros k. induction k as [|y k IH]; intros Hx; simpl; [done|].
  rewrite Hx by by left. destruct (less' y x); [|done]. f_equal. apply IH. intros. apply Hx. by right.
Qed.

Section problems.
Context (order : list (Z * NormalizedEvent) → list (Z * NormalizedEvent)) (order_perm : ∀ l, order l ≡ₚ l).

Lemma candidate_event pod events now c e :
  c ∈ problem_candidates order pod events now → pc_event c = Some e →
  (pc_priority c, e) ∈ matchingProblemEvents order pod events now.
Proof.
  unfold problem_candidates. rewrite !elem_of_app. intros [Hc|[Hc|[Hc|[Hc|Hc]]]] He.
  - unfold status_problems in Hc. destruct (_ || _); [|by apply not_elem_of_nil in Hc]. by apply list_elem_of_singleton in Hc as ->.
  - exfalso. apply elem_of_concat_fmap in Hc as ([st ct] & Hs & Hc). revert Hc. unfold container_problems. rewrite !elem_of_app, oom_elem.
    intros [(?&?&?&?&->)|[Hc|Hc]]; [done| |]; repeat case_match; try (by apply not_elem_of_nil in Hc);
      by apply list_elem_of_singleton in Hc as ->.
  - by apply list_elem_of_fmap in Hc as (cd & -> & _).
  - apply list_elem_of_fmap in Hc as ([p e'] & -> & Hm). by injection He as ->.
  - unfold pending_problems in Hc. destruct (_ && _); [|by apply not_elem_of_nil in Hc]. by apply list_elem_of_singleton in Hc as ->.
Qed.
Lemma candidates_sorted_by_order pod events now :
  sort_stable lessProblemCandidate (problem_candidates order pod events now)
  = sort_stable candidate_order (problem_candidates order pod events now).
Proof.
  apply sort_stable_ext. intros c d Hc Hd. apply (candidate_less_order pod events now).
  1, 2: by eapply (candidates_are_evidence order).
  intros e e' He He' Hp. apply (candidate_event pod events now) in He, He'; [|done..].
  apply matching_elem in He, He'; [|done..]. congruence.
Qed.
End problems.

(** A pod is a problem when there is evidence against it. *)
Lemma classified_iff_evidence (order : list (Z * NormalizedEvent) → list (Z * NormalizedEvent)) pod events owner now :
  (∀ l, order l ≡ₚ l) → is_Some (ClassifyProblemPod order pod events owner now) ↔ ∃ c, evidence pod events now c.
Proof.
  intros Hperm. unfold ClassifyProblemPod. rewrite candidates_sorted_by_order by done.
  pose proof (sort_stable_perm candidate_order (problem_candidates order pod events now)) as Hp.
  destruct (sort_stable _ _) as [|w l].
  - split; [by intros []|]. intros [c (c' & Hc' & _)%(evidence_has_candidate order Hperm)].
    rewrite <- Hp in Hc'. by apply not_elem_of_nil in Hc'.
  - split; [|done]. intros _. exists w. apply (candidates_are_evidence order Hperm). rewrite <- Hp. by left.
Qed.

(** C17: the problem shown for a pod is a piece of evidence found in its status or in a recent
    warning event, and none of the evidence is graver: its priority is the lowest, and it is
    critical when any of the evidence is. A pod is shown as healthy only without evidence. *)
Theorem problem_is_the_gravest (order : list (Z * NormalizedEvent) → list (Z * NormalizedEvent))
    (pod : Pod) (events : list NormalizedEvent) (owner : option ResourceRef) (now : instant) :
  (∀ l, order l ≡ₚ l) →
  match ClassifyProblemPod order pod events owner now with
  | None => ∀ c, ¬ evidence pod events now c
  | Some p => ∃ c, evidence pod events now c ∧ p = problem_of pod owner now c
      ∧ (∀ c', evidence pod events now c' → (pc_priority c ≤ pc_priority c')%Z)
      ∧ (pb_Severity p = ProblemCritical ↔ ∃ c', evidence pod events now c' ∧ pc_severity c' = ProblemCritical)
  end.
Proof.
  intros Hperm. unfold ClassifyProblemPod. rewrite candidates_sorted_by_order by done.
  pose proof (sort_stable_perm candidate_order (problem_candidates order pod events now)) as Hp.
  pose proof (sort_stable_sorted candidate_order (problem_candidates order pod events now)) as Hs.
  destruct (sort_stable _ _) as [|w l].
  - intros c Hc. apply (evidence_has_candidate order Hperm) in Hc as (c' & Hc' & _). rewrite <- Hp in Hc'. by apply not_elem_of_nil in Hc'.
  - assert (evidence pod events now w) as Hw by (apply (candidates_are_evidence order Hperm); rewrite <- Hp; by left).
    assert (∀ c, evidence pod events now c → (pc_priority w ≤ pc_priority c)%Z) as Hmin.
    { intros c Hc. apply (evidence_has_candidate order Hperm) in Hc as (c' & Hc' & <-). rewrite <- Hp in Hc'.
      apply elem_of_cons in Hc' as [->|Hc']; [done|]. apply StronglySorted_inv in Hs as [_ Hs].
      rewrite Forall_forall in Hs. specialize (Hs c' Hc'). unfold candidate_order in Hs.
      destruct (Z.eqb_spec (pc_priority c') (pc_priority w)) as [->|]; simpl in Hs; [done|]. bool_to_prop. done. }
    exists w. split_and!; [done..|]. split; [intros Hcr; by exists w|]. intros (c & Hc & Hcr). simpl.
    specialize (Hmin c Hc). apply evidence_shape in Hw as (-> & _), Hc as (Hsc & _). rewrite Hsc in Hcr.
    destruct (Z.leb_spec (pc_priority c) 4); [|done]. by rewrite (proj2 (Z.leb_le _ _)) by lia.
Qed.

(** ** Independence of the order of events and of map walks *)

Lemma NoDup_uid_inj (events : list NormalizedEvent) e e' :
  NoDup (ne_UID <$> events) → e ∈ events → e' ∈ events → ne_UID e = ne_UID e' → e = e'.
Proof.
  induction events as [|x events IH]; [set_solver|]. rewrite fmap_cons, NoDup_cons. intros [Hx Hn].
  intros [->|He]%elem_of_cons [->|He']%elem_of_cons Hu; [done| | |by apply IH].
  - destruct Hx. rewrite Hu. by apply list_elem_of_fmap_2.
  - destruct Hx. rewrite <- Hu. by apply list_elem_of_fmap_2.
Qed.
Lemma best_events_perm pod events events' now :
  events ≡ₚ events' → NoDup (ne_UID <$> events) → best_events pod events now = best_events pod events' now.
Proof.
  intros Hp Hn. apply map_eq. intros p.
  destruct (best_events pod events now !! p) as [e|] eqn:He, (best_events pod events' now !! p) as [e'|] eqn:He'.
  - apply best_events_newest in He as (Hin & Hr & Hmax), He' as (Hin' & Hr' & Hmax'). rewrite <- Hp in Hin'.
    f_equal. apply (NoDup_uid_inj events); [done..|]. apply newerEvent_total; [|by apply Hmax].
    apply Hmax'; [by rewrite <- Hp|done].
  - apply best_events_newest in He as (Hin & Hr & _). rewrite Hp in Hin. by destruct (best_some pod events' now p e).
  - apply best_events_newest in He' as (Hin & Hr & _). rewrite <- Hp in Hin. by destruct (best_some pod events now p e').
  - done.
Qed.

(** C18: which problem a pod is shown with depends neither on the order in which the API lists
    the events, whose UIDs are distinct, nor on the order in which the code walks its map of
    events. *)
Theorem problem_order_independent (order order' : list (Z * NormalizedEvent) → list (Z * NormalizedEvent))
    (pod : Pod) (events events' : list NormalizedEvent) (owner : option ResourceRef) (now : instant) :
  (∀ l, order l ≡ₚ l) → (∀ l, order' l ≡ₚ l) → events ≡ₚ events' → NoDup (ne_UID <$> events) →
  ClassifyProblemPod order pod events owner now = ClassifyProblemPod order' pod events' owner now.
Proof.
  intros Ho Ho' Hp Hn. unfold ClassifyProblemPod. rewrite !candidates_sorted_by_order by done.
  assert (sort_stable candidate_order (problem_candidates order pod events now)
    = sort_stable candidate_order (problem_candidates order' pod events' now)) as ->; [|done].
  unfold problem_candidates. set (pre := concat _). set (mid := condition_problems pod).
  rewrite 2!(assoc (++) pre mid), 2!(assoc (++) (status_problems pod) (pre ++ mid)).
  unfold matchingProblemEvents. fold (best_events pod events now) (best_events pod events' now).
  rewrite (best_events_perm pod events events') by done. apply sort_stable_perm_eq; [apply _| |].
  - unfold event_problems. by rewrite Ho, Ho'.
  - intros x y ([p e] & -> & Hx)%list_elem_of_fmap ([q e'] & -> & Hy)%list_elem_of_fmap. rewrite Ho in Hx, Hy.
    apply elem_of_map_to_list in Hx, Hy. destruct (decide (p = q)) as [->|Hpq]; [left; congruence|right].
    unfold candidate_order. simpl. rewrite (proj2 (Z.eqb_neq _ _) Hpq), (proj2 (Z.eqb_neq q p)) by done. simpl.
    rewrite !Z.ltb_lt. lia.
Qed.

(** ** The overview and the restart list *)

Section service.
Context `{SliceSortOk} (order : list (Z * NormalizedEvent) → list (Z * NormalizedEvent))
  (podsExpired eventsExpired : nat → option failure)
  (ListPods : nat → string → Z → string → result failure (page Pod))
  (ListEvents : nat → string → Z → string → result failure (page NormalizedEvent))
  (ResolvePodOwner : nat → option Pod → result failure (option ResourceRef)) (now : instant).

Lemma overview_fold events pods v :
  foldl (overview_pod order now events) v pods = {|
    ov_Total := ov_Total v;
    ov_Healthy := (ov_Healthy v + Z.of_nat (length (List.filter (λ p, negb (is_problem order now events p) && podIsPositivelyHealthy p) pods)))%Z;
    ov_Problematic := (ov_Problematic v + Z.of_nat (length (List.filter (is_problem order now events) pods)))%Z;
    ov_Restarts := (ov_Restarts v + sum_Z (pod_restarts <$> pods))%Z |}.
Proof.
  revert v. induction pods as [|pod pods IH]; intros v; [destruct v; simpl; f_equal; unfold sum_Z; simpl; lia|].
  cbn [foldl List.filter]. rewrite fmap_cons.
  rewrite IH. unfold overview_pod. change (list_fmap _ _ pod_restarts pods) with (pod_restarts <$> pods). rewrite sum_Z_cons.
  destruct (is_problem order now events pod); simpl; [f_equal; lia|].
  destruct (podIsPositivelyHealthy pod); simpl; f_equal; lia.
Qed.

Lemma evidence_block_complete {T} (v : T) pods events :
  bk_Complete (evidence_block v pods events) = bk_Complete pods && bk_Complete events.
Proof. done. Qed.
Lemma evidence_block_value {T} (v : T) pods events : bk_Value (evidence_block v pods events) = v.
Proof. done. Qed.

Lemma loadPods_listed s selected :
  ps_pods s = true → ps_budget s = Normalized (ps_budget s) → bk_Complete (loadPods podsExpired ListPods s selected) = true →
  ∃ pods k, lists_all podsExpired ListPods (ps_budget s) 0 (canonicalNamespaces selected) pods k
    ∧ bk_Value (loadPods podsExpired ListPods s selected) ≡ₚ pods.
Proof.
  intros Hs Hb. unfold loadPods. rewrite Hs. destruct (load _ _ _ _ _ _) as [block k] eqn:Hl. simpl. intros Hc.
  rewrite Hb in Hl |- *. apply load_block in Hl as (_ & _ & _ & Hl & _). exists (bk_Value block), k.
  split; [by apply Hl|apply sort_Slice_perm].
Qed.
Lemma loadEvents_listed s selected :
  ps_events s = true → ps_budget s = Normalized (ps_budget s) → bk_Complete (loadEvents eventsExpired ListEvents s selected) = true →
  ∃ k, lists_all eventsExpired ListEvents (ps_budget s) 0 (canonicalNamespaces selected)
    (bk_Value (loadEvents eventsExpired ListEvents s selected)) k.
Proof.
  intros Hs Hb. unfold loadEvents. rewrite Hs. destruct (load _ _ _ _ _ _) as [block k] eqn:Hl. simpl. intros Hc.
  rewrite Hb in Hl |- *. apply load_block in Hl as (_ & _ & _ & Hl & _). exists k. by apply Hl.
Qed.
Lemma Normalized_idem b : Normalized (Normalized b) = Normalized b.
Proof.
  destruct (Normalized_pos b) as (Hp & Hi & [Hz1 Hz2] & [Ht1 Ht2]). destruct (Normalized b) as [t z i p]. simpl in *. unfold Normalized.
  simpl. rewrite !(proj2 (Z.leb_gt _ _)) by lia. rewrite !(proj2 (Z.ltb_ge _ _)) by lia. done.
Qed.
End service.

(** An overview that calls itself complete counts exactly the pods that the API lists in all
    the selected namespaces, having read every event of these namespaces: each pod is a
    problem, positively healthy or neither, and never both. *)
Lemma complete_overview_exact `{SliceSortOk} order podsExpired eventsExpired ListPods ListEvents now owners configured
    (selected : list string) (budget := Normalized configured) (namespaces := canonicalNamespaces selected)
    (block := Overview order podsExpired eventsExpired ListPods ListEvents now
                (Some (NewPodService true true owners configured)) selected) :
  bk_Complete block = true →
  ∃ pods events kp ke,
    lists_all podsExpired ListPods budget 0 namespaces pods kp
    ∧ lists_all eventsExpired ListEvents budget 0 namespaces events ke
    ∧ bk_Value block = {|
        ov_Total := Z.of_nat (length pods);
        ov_Healthy := Z.of_nat (length (List.filter (λ p, negb (is_problem order now events p) && podIsPositivelyHealthy p) pods));
        ov_Problematic := Z.of_nat (length (List.filter (is_problem order now events) pods));
        ov_Restarts := sum_Z (pod_restarts <$> pods) |}
    ∧ (ov_Healthy (bk_Value block) + ov_Problematic (bk_Value block) ≤ ov_Total (bk_Value block))%Z.
Proof.
  unfold block, Overview, loadPodEvidence. set (s := NewPodService _ _ _ _). cbv zeta beta iota.
  rewrite evidence_block_complete, evidence_block_value, overview_fold. intros [Hcp Hce]%andb_true_iff.
  assert (ps_budget s = Normalized (ps_budget s)) as Hb by (symmetry; apply Normalized_idem).
  destruct (loadPods_listed podsExpired ListPods s selected eq_refl Hb Hcp) as (pods & kp & Hlp & Hperm).
  destruct (loadEvents_listed eventsExpired ListEvents s selected eq_refl Hb Hce) as (ke & Hle).
  eexists pods, _, kp, ke. split_and!; [exact Hlp|exact Hle| |].
  - cbn [ov_Total ov_Healthy ov_Problematic ov_Restarts]. rewrite !Z.add_0_l.
    f_equal; [by rewrite Hperm|by rewrite Hperm|by rewrite Hperm|by rewrite Hperm].
  - cbn [ov_Total ov_Healthy ov_Problematic ov_Restarts]. clear. set (events := bk_Value (loadEvents _ _ _ _)). generalize (bk_Value (loadPods podsExpired ListPods s selected)).
    intros l. induction l as [|p l IH]; simpl; [lia|]. destruct (is_problem order now events p); simpl; [lia|].
    destruct (podIsPositivelyHealthy p); simpl; lia.
Qed.

(** ** The restart list *)

Definition erase (r : RestartDTO) : RestartDTO := with_owner None r.
Lemma restart_less_owner o o' l r : restart_less (with_owner o l) (with_owner o' r) = restart_less l r.
Proof. done. Qed.
Lemma enrich_rows resolve s pods rows owners k :
  erase <$> (enrich resolve s pods rows owners k).1 = erase <$> rows.
Proof.
  revert owners k. induction rows as [|row rows IH]; intros owners k; cbn [enrich]; [done|].
  destruct (owners !! _) as [o|].
  - destruct (enrich _ _ _ _ _ _) as [rest k'] eqn:He. simpl. f_equal. specialize (IH owners k). by rewrite He in IH.
  - destruct (resolveOwner _ _ _ _) as [o k1]. destruct (enrich _ _ _ _ _ _) as [rest k'] eqn:He. simpl. f_equal.
    specialize (IH (<[pod_key (rs_Namespace row) (rs_Pod row):=o]> owners) k1). by rewrite He in IH.
Qed.

(** Every container of the pods that was restarted, one row each. *)
Definition restarted (now : instant) (pods : list Pod) : list RestartDTO :=
  concat ((λ pod, restart_row pod (DirectPodOwner pod) now
    <$> List.filter (λ s, (0 <? st_RestartCount s.1)%Z) (all_statuses pod)) <$> pods).
Lemma restart_rows_perm now pods : restart_rows now pods ≡ₚ restarted now pods.
Proof.
  unfold restart_rows, SortRestarts, restarted. rewrite sort_stable_perm. induction pods as [|pod pods IH]; simpl; [done|].
  rewrite IH. apply Permutation_app_tail. unfold PodRestarts, SortRestarts. by rewrite sort_stable_perm.
Qed.

Lemma sorted_by_take {A} (less : A → A → bool) (n : nat) (l : list A) :
  sorted_by less l → sorted_by less (take n l) ∧ ∀ x y, x ∈ take n l → y ∈ drop n l → less y x = false.
Proof.
  unfold sorted_by. revert n. induction l as [|a l IH]; intros [|n] Hs; simpl; try (split; [constructor|by intros ? ? ?%not_elem_of_nil]).
  apply StronglySorted_inv in Hs as [Hs Ha]. destruct (IH n Hs) as [Ht Hd]. rewrite Forall_forall in Ha. split.
  - constructor; [done|]. apply Forall_forall. intros x Hx. apply Ha. rewrite <- (take_drop n l). set_solver.
  - intros x y [->|Hx]%elem_of_cons Hy; [|by apply Hd]. apply Ha. rewrite <- (take_drop n l). set_solver.
Qed.
Lemma sorted_by_erase (l k : list RestartDTO) : erase <$> l = erase <$> k → sorted_by restart_less l → sorted_by restart_less k.
Proof.
  unfold sorted_by. revert k. induction l as [|x l IH]; intros [|y k] He Hs; try done.
  rewrite !fmap_cons in He. apply (inj2 cons) in He as [Hxy Hlk]. apply StronglySorted_inv in Hs as [Hs Hx]. constructor; [by apply IH|].
  clear -Hx Hxy Hlk. revert k Hlk. induction Hx as [|z l Hz _ IH]; intros [|w k] Hlk; try done. rewrite !fmap_cons in Hlk. apply (inj2 cons) in Hlk as [Hzw Hlk].
  constructor; [|by apply IH]. rewrite <- (restart_less_owner None None w y). fold (erase w) (erase y). rewrite <- Hxy, <- Hzw. done.
Qed.

(** C36: the restart list is the top of one ranking: it is sorted, and together with the rows
    left out it is every restarted container of the collected pods exactly once; nothing left
    out ranks above anything shown, at most [limit] rows are shown, and the list says that it
    is truncated when a row is left out. The owner is looked up for shown rows only. *)
Theorem restarts_are_the_top `{SliceSortOk} podsExpired ListPods ResolvePodOwner now
    (s : PodService) (selected : list string) (limit : Z)
    (pods := bk_Value (loadPods podsExpired ListPods s selected))
    (block := Restarts podsExpired ListPods ResolvePodOwner now (Some s) selected limit) :
  (1 ≤ limit ≤ MaximumRestartLimit)%Z →
  (Z.of_nat (length (bk_Value block)) ≤ limit)%Z
  ∧ sorted_by restart_less (bk_Value block)
  ∧ ∃ dropped,
      (erase <$> bk_Value block) ++ (erase <$> dropped) ≡ₚ erase <$> restarted now pods
      ∧ (∀ shown out, shown ∈ bk_Value block → out ∈ dropped → restart_less out shown = false)
      ∧ (dropped ≠ [] → Z.of_nat (length (bk_Value block)) = limit ∧ bk_Truncated block = true ∧ bk_Complete block = false).
Proof.
  intros Hl. unfold block, Restarts. rewrite (proj2 (Z.eqb_neq limit 0)) by lia. cbv zeta.
  rewrite (proj2 (Z.ltb_ge limit 1)), (proj2 (Z.ltb_ge _ limit)) by lia. cbn [orb]. fold pods.
  set (rows := restart_rows now pods). set (n := Z.to_nat limit).
  set (result := if (limit <? _)%Z then _ else _).
  assert (bk_Value result = take n rows ∧ (drop n rows ≠ [] → bk_Truncated result = true ∧ bk_Complete result = false)) as [Hv Htr].
  { unfold result. destruct (Z.ltb_spec limit (Z.of_nat (length rows))) as [Hlt|Hge]; simpl; [done|].
    rewrite take_ge, drop_ge by lia. done. }
  clearbody result. simpl. rewrite Hv.
  pose proof (enrich_rows ResolvePodOwner s (podsByName pods) (take n rows) ∅ 0) as He.
  set (shown := (enrich _ _ _ _ _ _).1) in *.
  assert (length shown = length (take n rows)) as Hlen.
  { pose proof (f_equal length He) as Hf. by rewrite !length_fmap in Hf. }
  assert (sorted_by restart_less rows) as Hs by apply sort_stable_sorted, _.
  destruct (sorted_by_take restart_less n rows Hs) as [Ht Hd].
  split_and!; [rewrite Hlen, length_take; lia|by eapply sorted_by_erase|]. exists (drop n rows). split_and!.
  - rewrite He, <- fmap_app, take_drop. unfold rows. by rewrite restart_rows_perm.
  - intros x y Hx Hy. assert (erase x ∈ erase <$> take n rows) as Hx' by (rewrite <- He; by apply list_elem_of_fmap_2).
    apply list_elem_of_fmap in Hx' as (x' & Hxx & Hx'). rewrite <- (restart_less_owner None None y x). fold (erase y) (erase x).
    rewrite Hxx. exact (Hd x' y Hx' Hy).
  - intros Hne. split; [|by apply Htr]. rewrite Hlen, length_take.
    assert (n < length rows)%nat; [|lia]. apply Nat.nle_gt. intros Hge. by rewrite drop_ge in Hne.
Qed.

(** ** A pod with two containers *)

Definition no_state : ContainerState := {| cs_Waiting := None; cs_Running := true; cs_Terminated := None |}.
Definition demo_status (name : string) (restarts : Z) (ready : bool) (state : ContainerState) : ContainerStatus := {|
  st_Name := name; st_RestartCount := restarts; st_Ready := ready; st_State := state; st_LastTerminationState := no_state |}.
Definition demo_pod : Pod := {|
  pod_Namespace := "shop"; pod_Name := "cart"; pod_UID := "u1"; pod_CreationTimestamp := Hour; pod_OwnerReferences := [];
  pod_Phase := "Running"; pod_Reason := ""; pod_Message := "";
  pod_ContainerStatuses :=
    [demo_status "web" 0 false no_state;
     demo_status "db" 4 false {| cs_Waiting := Some {| wt_Reason := "CrashLoopBackOff"; wt_Message := "back-off" |};
                                 cs_Running := false; cs_Terminated := None |}];
  pod_InitContainerStatuses := []; pod_EphemeralContainerStatuses := []; pod_Conditions := [] |}.
Definition demo_event (uid reason message : string) (observed : instant) : NormalizedEvent := {|
  ne_UID := uid; ne_Namespace := "shop"; ne_RegardingKind := "Pod"; ne_RegardingName := "cart"; ne_RegardingUID := "u1";
  ne_Type := "Warning"; ne_Reason := reason; ne_Message := message; ne_Count := 1; ne_Source := ""; ne_ObservedAt := observed |}.
Definition demo_now : instant := (2 * Hour)%Z.
Definition demo_events : list NormalizedEvent :=
  [demo_event "e1" "Unhealthy" "Readiness probe failed: timeout" (demo_now - Minute)%Z;
   demo_event "e2" "Unhealthy" "liveness probe failed: timeout" (demo_now - Minute)%Z;
   demo_event "e3" "Unhealthy" "Liveness probe failed: refused" demo_now].

Lemma problem_is_the_gravest_witness :
  let shown := ClassifyProblemPod id demo_pod demo_events None demo_now in
  (λ p, (pb_Container p, pb_Summary p, pb_Severity p)) <$> shown = Some (Some "db", "CrashLoopBackOff", ProblemCritical)
  ∧ ∃ c, evidence demo_pod demo_events demo_now c ∧ shown = Some (problem_of demo_pod None demo_now c)
      ∧ ∀ c', evidence demo_pod demo_events demo_now c' → (pc_priority c ≤ pc_priority c')%Z.
Proof.
  intros shown. split; [by vm_compute|].
  pose proof (problem_is_the_gravest id demo_pod demo_events None demo_now (λ l, reflexivity l)) as H. fold shown in H.
  assert (is_Some shown) as [p Hp] by (vm_compute; by eexists). rewrite Hp in H |- *.
  destruct H as (c & He & -> & Hmin & _). by exists c.
Defined.

Lemma problem_order_independent_witness :
  ClassifyProblemPod (@rev _) demo_pod (rev demo_events) None demo_now = ClassifyProblemPod id demo_pod demo_events None demo_now.
Proof.
  apply problem_order_independent.
  - intros l. symmetry. apply Permutation_rev.
  - reflexivity.
  - symmetry. apply Permutation_rev.
  - apply (bool_decide_unpack _). by vm_compute.
Defined.

Definition demo_list_pods (k : nat) (namespace : string) (size : Z) (cont : string) : result failure (page Pod) :=
  Ok (Build_page [demo_pod] "").
Definition demo_list_events (k : nat) (namespace : string) (size : Z) (cont : string) : result failure (page NormalizedEvent) :=
  Ok (Build_page demo_events "").
Lemma restarts_are_the_top_witness :
  let s := NewPodService true true false DefaultQueryBudget in
  let block := @Restarts stable_slice_sort (λ _, None) demo_list_pods (λ _ _, Ok None) demo_now (Some s) ["shop"] 10 in
  rs_Container <$> bk_Value block = ["db"] ∧ rs_Severity <$> bk_Value block = [RestartWarning]
  ∧ sorted_by restart_less (bk_Value block).
Proof.
  intros s block. split_and!; [by vm_compute..|].
  apply (@restarts_are_the_top stable_slice_sort stable_slice_sort_ok (λ _, None) demo_list_pods (λ _ _, Ok None) demo_now s
    ["shop"] 10). unfold MaximumRestartLimit. lia.
Defined.
