(* ===== verification/DashboardWorkloads.v ===== *)
(** * DashboardWorkloads: the status of workloads

    Models workloads.go of src/internal/services/dashboard. Objects are records with the
    fields the code reads; replica counts are 32-bit integers that upstream may send
    negative. The workload port is a parameter that answers by the number of the call. *)
From Stdlib Require Import Ascii String ZArith Lia.
From stdpp Require Import base gmap strings list sorting.
From S2P Require Import Prelude Dashboard DashboardPods DashboardProblems.
Local Open Scope string_scope.
Local Open Scope list_scope.

(** ** Data *)

Record ObjectMeta := {
  om_Namespace : string; om_Name : string; om_UID : string; om_CreationTimestamp : instant; om_Generation : Z;
  om_OwnerUIDs : list string }.
Record Deployment := {
  dp_meta : ObjectMeta; dp_Replicas : option Z; dp_ReadyReplicas : Z; dp_AvailableReplicas : Z; dp_UpdatedReplicas : Z;
  dp_ObservedGeneration : Z; dp_Conditions : list PodCondition }.
Record StatefulSet := {
  ss_meta : ObjectMeta; ss_Replicas : option Z; ss_ReadyReplicas : Z; ss_AvailableReplicas : Z; ss_UpdatedReplicas : Z;
  ss_ObservedGeneration : Z }.
Record DaemonSet := {
  ds_meta : ObjectMeta; ds_NumberReady : Z; ds_DesiredNumberScheduled : Z; ds_NumberAvailable : Z;
  ds_UpdatedNumberScheduled : Z; ds_NumberUnavailable : Z; ds_ObservedGeneration : Z }.
Record JobCondition := { jc_Type : string; jc_Status : string; jc_LastTransitionTime : instant }.
Record Job := {
  jb_meta : ObjectMeta; jb_Completions : option Z; jb_Suspend : option bool; jb_Ready : option Z; jb_Succeeded : Z;
  jb_Failed : Z; jb_Active : Z; jb_CompletionTime : option instant; jb_Conditions : list JobCondition }.
Record CronJob := {
  cj_meta : ObjectMeta; cj_Suspend : option bool; cj_Active : Z; cj_LastScheduleTime : option instant }.

Inductive WorkloadStatus :=
| WorkloadHealthy | WorkloadProgressing | WorkloadDegraded | WorkloadSuspended | WorkloadCompleted | WorkloadFailed
| WorkloadUnknown.
#[export] Instance WorkloadStatus_eq_dec : EqDecision WorkloadStatus.
Proof. solve_decision. Defined.
Record WorkloadDTO := {
  wd_Namespace : string; wd_Kind : string; wd_Name : string; wd_Ready : option Z; wd_Desired : option Z;
  wd_Available : option Z; wd_Updated : option Z; wd_Status : WorkloadStatus; wd_AgeSeconds : Z }.

(** ** Classification *)

Definition observedCurrent (generation observed : Z) : bool := (0 <? generation)%Z && (0 <? observed)%Z && (generation <=? observed)%Z.
(** A missing count is 1, a negative one 0. *)
Definition desired_count (spec : option Z) : Z := match spec with Some n => maxInt32 n 0 | None => 1 end.
Definition is_true (b : option bool) : bool := match b with Some b => b | None => false end.

Definition deadline_exceeded (c : PodCondition) : bool :=
  String.eqb (cd_Type c) "Progressing" && String.eqb (cd_Status c) "False" && String.eqb (cd_Reason c) "ProgressDeadlineExceeded".
Definition ClassifyDeployment (value : Deployment) (now : instant) : WorkloadDTO :=
  let desired := desired_count (dp_Replicas value) in
  let ready := dp_ReadyReplicas value in let available := dp_AvailableReplicas value in let updated := dp_UpdatedReplicas value in
  let deadlineExceeded := existsb deadline_exceeded (dp_Conditions value) in {|
  wd_Namespace := om_Namespace (dp_meta value); wd_Kind := "Deployment"; wd_Name := om_Name (dp_meta value);
  wd_Ready := Some (maxInt32 ready 0); wd_Desired := Some desired; wd_Available := Some (maxInt32 available 0);
  wd_Updated := Some (maxInt32 updated 0);
  wd_Status :=
    if negb (observedCurrent (om_Generation (dp_meta value)) (dp_ObservedGeneration value)) then WorkloadUnknown
    else if deadlineExceeded || (available <? desired)%Z then WorkloadDegraded
    else if (updated <? desired)%Z || (ready <? desired)%Z then WorkloadProgressing
    else if (ready =? desired)%Z && (available =? desired)%Z && (updated =? desired)%Z then WorkloadHealthy
    else WorkloadUnknown;
  wd_AgeSeconds := ageSeconds (om_CreationTimestamp (dp_meta value)) now |}.

Definition ClassifyStatefulSetWithAvailability (value : StatefulSet) (availableCollected : bool) (now : instant) : WorkloadDTO :=
  let desired := desired_count (ss_Replicas value) in {|
  wd_Namespace := om_Namespace (ss_meta value); wd_Kind := "StatefulSet"; wd_Name := om_Name (ss_meta value);
  wd_Ready := Some (maxInt32 (ss_ReadyReplicas value) 0); wd_Desired := Some desired;
  wd_Available := if availableCollected then Some (maxInt32 (ss_AvailableReplicas value) 0) else None;
  wd_Updated := Some (maxInt32 (ss_UpdatedReplicas value) 0);
  wd_Status :=
    if negb availableCollected || negb (observedCurrent (om_Generation (ss_meta value)) (ss_ObservedGeneration value))
    then WorkloadUnknown
    else if (ss_ReadyReplicas value <? desired)%Z then WorkloadDegraded
    else if (ss_UpdatedReplicas value <? desired)%Z then WorkloadProgressing
    else WorkloadHealthy;
  wd_AgeSeconds := ageSeconds (om_CreationTimestamp (ss_meta value)) now |}.

Definition ClassifyDaemonSet (value : DaemonSet) (now : instant) : WorkloadDTO :=
  let desired := ds_DesiredNumberScheduled value in {|
  wd_Namespace := om_Namespace (ds_meta value); wd_Kind := "DaemonSet"; wd_Name := om_Name (ds_meta value);
  wd_Ready := Some (maxInt32 (ds_NumberReady value) 0); wd_Desired := Some (maxInt32 desired 0);
  wd_Available := Some (maxInt32 (ds_NumberAvailable value) 0);
  wd_Updated := Some (maxInt32 (ds_UpdatedNumberScheduled value) 0);
  wd_Status :=
    if negb (observedCurrent (om_Generation (ds_meta value)) (ds_ObservedGeneration value)) then WorkloadUnknown
    else if (0 <? ds_NumberUnavailable value)%Z || (ds_NumberReady value <? desired)%Z then WorkloadDegraded
    else if (ds_UpdatedNumberScheduled value <? desired)%Z then WorkloadProgressing
    else WorkloadHealthy;
  wd_AgeSeconds := ageSeconds (om_CreationTimestamp (ds_meta value)) now |}.

Definition jobCondition (value : Job) (conditionType : string) : option JobCondition :=
  List.find (λ c, String.eqb (jc_Type c) conditionType) (jb_Conditions value).
Definition condition_true (c : option JobCondition) : bool :=
  match c with Some c => String.eqb (jc_Status c) "True" | None => false end.
Definition jobFailed (value : Job) : bool := condition_true (jobCondition value "Failed").

Definition ClassifyJob (value : Job) (now : instant) : WorkloadDTO :=
  let desired := desired_count (jb_Completions value) in {|
  wd_Namespace := om_Namespace (jb_meta value); wd_Kind := "Job"; wd_Name := om_Name (jb_meta value);
  wd_Ready := (λ r, maxInt32 r 0) <$> jb_Ready value; wd_Desired := Some desired;
  wd_Available := Some (maxInt32 (jb_Succeeded value) 0); wd_Updated := None;
  wd_Status :=
    if condition_true (jobCondition value "Failed") then WorkloadFailed
    else if (0 <? jb_Failed value)%Z then WorkloadFailed
    else if is_true (jb_Suspend value) then WorkloadSuspended
    else if (0 <? jb_Active value)%Z then WorkloadProgressing
    else if condition_true (jobCondition value "Complete") then WorkloadCompleted
    else if (desired <=? jb_Succeeded value)%Z then WorkloadCompleted
    else WorkloadUnknown;
  wd_AgeSeconds := ageSeconds (om_CreationTimestamp (jb_meta value)) now |}.

Definition ownedByUID (references : list string) (uid : string) : bool :=
  if String.eqb uid "" then false else existsb (λ r, String.eqb r uid) references.
Definition jobTerminalTime (value : Job) : instant :=
  foldl (λ latest c,
    if negb (String.eqb (jc_Status c) "True") || (negb (String.eqb (jc_Type c) "Failed") && negb (String.eqb (jc_Type c) "Complete"))
    then latest
    else if After (jc_LastTransitionTime c) latest then jc_LastTransitionTime c else latest)
    (default 0%Z (jb_CompletionTime value)) (jb_Conditions value).
Definition job_time (job : Job) : instant :=
  if IsZero (jobTerminalTime job) then om_CreationTimestamp (jb_meta job) else jobTerminalTime job.
Definition owned_by (cronJob : CronJob) (job : Job) : bool :=
  String.eqb (om_Namespace (jb_meta job)) (om_Namespace (cj_meta cronJob))
  && ownedByUID (om_OwnerUIDs (jb_meta job)) (om_UID (cj_meta cronJob)).
Definition later_job (job winner : Job) : bool :=
  After (job_time job) (job_time winner)
  || (job_time job =? job_time winner)%Z && str_lt (om_Name (jb_meta job)) (om_Name (jb_meta winner)).
Definition latestOwnedJob (cronJob : CronJob) (jobs : list Job) : option Job :=
  foldl (λ winner job,
    if negb (owned_by cronJob job) then winner
    else match winner with
         | None => Some job
         | Some w => if later_job job w then Some job else winner
         end) None jobs.

Definition recently_failed (cronJob : CronJob) (jobs : list Job) (now : instant) : bool :=
  match latestOwnedJob cronJob jobs with
  | Some latest =>
    jobFailed latest && negb (IsZero (job_time latest))
    && (0 <=? Sub now (job_time latest))%Z && (Sub now (job_time latest) <=? 24 * Hour)%Z
  | None => false
  end.
Definition ClassifyCronJob (value : CronJob) (jobs : list Job) (now : instant) : WorkloadDTO := {|
  wd_Namespace := om_Namespace (cj_meta value); wd_Kind := "CronJob"; wd_Name := om_Name (cj_meta value);
  wd_Ready := Some (cj_Active value); wd_Desired := None; wd_Available := None; wd_Updated := None;
  wd_Status :=
    if recently_failed value jobs now then WorkloadFailed
    else if is_true (cj_Suspend value) then WorkloadSuspended
    else if (0 <? cj_Active value)%Z then WorkloadProgressing
    else match cj_LastScheduleTime value with
         | Some t => if IsZero t then WorkloadUnknown else WorkloadHealthy
         | None => WorkloadUnknown
         end;
  wd_AgeSeconds := ageSeconds (om_CreationTimestamp (cj_meta value)) now |}.

Definition workloadKindRank (kind : string) : Z :=
  if String.eqb kind "Deployment" then 0 else if String.eqb kind "StatefulSet" then 1
  else if String.eqb kind "DaemonSet" then 2 else if String.eqb kind "Job" then 3
  else if String.eqb kind "CronJob" then 4 else 5.
Definition workload_less (l r : WorkloadDTO) : bool :=
  if negb (workloadKindRank (wd_Kind l) =? workloadKindRank (wd_Kind r))%Z
  then (workloadKindRank (wd_Kind l) <? workloadKindRank (wd_Kind r))%Z
  else if negb (String.eqb (wd_Namespace l) (wd_Namespace r)) then str_lt (wd_Namespace l) (wd_Namespace r)
  else str_lt (wd_Name l) (wd_Name r).
Definition SortWorkloads (values : list WorkloadDTO) : list WorkloadDTO := sort_stable workload_less values.

(** ** The workload service *)

(** The error of an issue may be nil. *)
Record WorkloadIssue := { wi_Kind : string; wi_Err : option failure }.
Record WorkloadPage := {
  wp_Deployments : list Deployment; wp_StatefulSets : list StatefulSet;
  wp_StatefulSetAvailable : option (gmap string bool); wp_DaemonSets : list DaemonSet; wp_Jobs : list Job;
  wp_CronJobs : list CronJob; wp_Continue : string; wp_Issues : list WorkloadIssue }.
Definition workloadPageCount (page : WorkloadPage) : Z :=
  Z.of_nat (length (wp_Deployments page) + length (wp_StatefulSets page) + length (wp_DaemonSets page)
    + length (wp_Jobs page) + length (wp_CronJobs page)).
Definition issues_only (issues : list WorkloadIssue) : WorkloadPage := {|
  wp_Deployments := []; wp_StatefulSets := []; wp_StatefulSetAvailable := None; wp_DaemonSets := []; wp_Jobs := [];
  wp_CronJobs := []; wp_Continue := ""; wp_Issues := issues |}.

Definition classify_page (allJobs : list Job) (now : instant) (page : WorkloadPage) : list WorkloadDTO :=
  ((λ d, ClassifyDeployment d now) <$> wp_Deployments page)
  ++ ((λ s, ClassifyStatefulSetWithAvailability s
         (match wp_StatefulSetAvailable page with Some m => get_or m (om_UID (ss_meta s)) false | None => true end) now)
       <$> wp_StatefulSets page)
  ++ ((λ d, ClassifyDaemonSet d now) <$> wp_DaemonSets page)
  ++ ((λ j, ClassifyJob j now) <$> wp_Jobs page)
  ++ ((λ c, ClassifyCronJob c allJobs now) <$> wp_CronJobs page).
Definition all_jobs (pages : list WorkloadPage) : list Job := concat (wp_Jobs <$> pages).
Definition classify_pages (now : instant) (pages : list WorkloadPage) : list WorkloadDTO :=
  concat (classify_page (all_jobs pages) now <$> pages).

Record loaded_pages := { lw_pages : list WorkloadPage; lw_complete : bool; lw_truncated : bool; lw_error : option failure }.

Section service.
Context (expired : nat → option failure) (ListWorkloads : nat → string → Z → string → result failure WorkloadPage)
  (budget : QueryBudget).

Fixpoint load_workload_pages (pages : nat) (maximumItems : Z) (namespace continuation : string) (items : Z)
    (fullyCollected : bool) (result : list WorkloadPage) (k : nat) : loaded_pages * nat :=
  match pages with
  | O => ({| lw_pages := result; lw_complete := false; lw_truncated := negb (String.eqb continuation ""); lw_error := None |}, k)
  | S pages =>
    if (maximumItems <=? items)%Z
    then ({| lw_pages := result; lw_complete := false; lw_truncated := true; lw_error := None |}, k)
    else
      match expired k with
      | Some e => ({| lw_pages := result; lw_complete := false; lw_truncated := false; lw_error := Some e |}, k)
      | None =>
        match ListWorkloads k namespace (qb_PageSize budget) continuation with
        | Err e => ({| lw_pages := result; lw_complete := false; lw_truncated := false; lw_error := Some e |}, S k)
        | Ok response =>
          let issues := negb (bool_decide (wp_Issues response = [])) in
          let fullyCollected := if issues then false else fullyCollected in
          if (maximumItems <? items + workloadPageCount response)%Z
          then ({| lw_pages := if issues then result ++ [issues_only (wp_Issues response)] else result;
                   lw_complete := false; lw_truncated := true; lw_error := None |}, S k)
          else
            let result := result ++ [response] in
            if String.eqb (wp_Continue response) ""
            then ({| lw_pages := result; lw_complete := fullyCollected; lw_truncated := false; lw_error := None |}, S k)
            else load_workload_pages pages maximumItems namespace (wp_Continue response) (items + workloadPageCount response)
                   fullyCollected result (S k)
        end
      end
  end.
Definition loadWorkloadNamespace (maximumItems : Z) (namespace : string) (k : nat) : loaded_pages * nat :=
  load_workload_pages (Z.to_nat (qb_MaxPages budget)) maximumItems namespace "" 0 true [] k.

Definition add_issues {T} (namespace : string) (pages : list WorkloadPage) (block : DashboardBlockDTO T) : DashboardBlockDTO T :=
  foldl (λ b issue, match wi_Err issue with Some e => addBlockError namespace e b | None => b end) block
    (concat (wp_Issues <$> pages)).
Fixpoint list_namespaces (now : instant) (namespaces : list string) (collectedItems : Z)
    (block : DashboardBlockDTO (list WorkloadDTO)) (k : nat) : DashboardBlockDTO (list WorkloadDTO) * nat :=
  match namespaces with
  | [] => (block, k)
  | namespace :: namespaces =>
    let remaining := (qb_MaxItems budget - collectedItems)%Z in
    if (remaining <=? 0)%Z then (block_truncated block, k)
    else
      let '(l, k) := loadWorkloadNamespace remaining namespace k in
      let block := match lw_error l with Some e => addBlockError namespace e block | None => block end in
      let block := if lw_complete l then block_completed block else block in
      let block := if lw_truncated l then block_truncated block else block in
      let block := add_issues namespace (lw_pages l) block in
      let block := with_value (bk_Value block ++ classify_pages now (lw_pages l)) block in
      list_namespaces now namespaces (collectedItems + sum_Z (workloadPageCount <$> lw_pages l)) block k
  end.
Definition List_workloads (available : bool) (now : instant) (selected : list string) : DashboardBlockDTO (list WorkloadDTO) :=
  let namespaces := canonicalNamespaces selected in
  let block := blockWithValue [] (Some (emptyCoverage (Z.of_nat (length namespaces)))) in
  if available
  then let block := (list_namespaces now namespaces 0 block 0).1 in with_value (SortWorkloads (bk_Value block)) block
  else addBlockError "" NewFeatureUnavailableError block.

Definition unhealthy (w : WorkloadDTO) : bool := bool_decide (wd_Status w = WorkloadDegraded) || bool_decide (wd_Status w = WorkloadFailed).
Definition unknown (w : WorkloadDTO) : bool := bool_decide (wd_Status w = WorkloadUnknown).
Definition incomplete_if {T} (b : bool) (block : DashboardBlockDTO T) : DashboardBlockDTO T :=
  if b then block_incomplete block else block.
Definition Degraded (available : bool) (now : instant) (selected : list string) : DashboardBlockDTO (list WorkloadDTO) :=
  let all := List_workloads available now selected in
  incomplete_if (existsb unknown (bk_Value all)) (copyBlockState (List.filter unhealthy (bk_Value all)) all).
Definition count_unhealthy (m : gmap string Z) (w : WorkloadDTO) : gmap string Z :=
  if unhealthy w then <[wd_Namespace w := (get_or m (wd_Namespace w) 0 + 1)%Z]> m else m.
(** [None] is a nil service. *)
Definition DegradedByNamespace (service : option bool) (now : instant) (selected : list string) : DashboardBlockDTO (gmap string Z) :=
  match service with
  | None => unavailable_block ∅
  | Some available =>
    let all := List_workloads available now selected in
    incomplete_if (existsb unknown (bk_Value all)) (copyBlockState (foldl count_unhealthy ∅ (bk_Value all)) all)
  end.
End service.

(** ** The verdicts, kind by kind *)

Definition observed (m : ObjectMeta) (observedGeneration : Z) : Prop :=
  (0 < om_Generation m ≤ observedGeneration)%Z.
(** A missing count asks for one replica, a negative one for none. *)
Definition wanted (count : option Z) : Z := Z.max 0 (default 1%Z count).

Definition rollout_stuck (d : Deployment) : Prop :=
  ∃ c, c ∈ dp_Conditions d ∧ cd_Type c = "Progressing" ∧ cd_Status c = "False"
       ∧ cd_Reason c = "ProgressDeadlineExceeded".
Inductive deployment_verdict (d : Deployment) : WorkloadStatus → Prop :=
| deployment_outdated : ¬ observed (dp_meta d) (dp_ObservedGeneration d) → deployment_verdict d WorkloadUnknown
| deployment_degraded :
    observed (dp_meta d) (dp_ObservedGeneration d) →
    rollout_stuck d ∨ (dp_AvailableReplicas d < wanted (dp_Replicas d))%Z → deployment_verdict d WorkloadDegraded
| deployment_progressing :
    observed (dp_meta d) (dp_ObservedGeneration d) → ¬ rollout_stuck d →
    (wanted (dp_Replicas d) ≤ dp_AvailableReplicas d)%Z →
    (dp_UpdatedReplicas d < wanted (dp_Replicas d) ∨ dp_ReadyReplicas d < wanted (dp_Replicas d))%Z →
    deployment_verdict d WorkloadProgressing
| deployment_healthy :
    observed (dp_meta d) (dp_ObservedGeneration d) → ¬ rollout_stuck d →
    dp_AvailableReplicas d = wanted (dp_Replicas d) → dp_UpdatedReplicas d = wanted (dp_Replicas d) →
    dp_ReadyReplicas d = wanted (dp_Replicas d) → deployment_verdict d WorkloadHealthy
| deployment_surplus :
    observed (dp_meta d) (dp_ObservedGeneration d) → ¬ rollout_stuck d →
    (wanted (dp_Replicas d) ≤ dp_AvailableReplicas d)%Z → (wanted (dp_Replicas d) ≤ dp_UpdatedReplicas d)%Z →
    (wanted (dp_Replicas d) ≤ dp_ReadyReplicas d)%Z →
    (3 * wanted (dp_Replicas d) < dp_AvailableReplicas d + dp_UpdatedReplicas d + dp_ReadyReplicas d)%Z →
    deployment_verdict d WorkloadUnknown.

(** [available]: whether the available count was reported at all. *)
Inductive statefulset_verdict (s : StatefulSet) (available : bool) : WorkloadStatus → Prop :=
| statefulset_outdated :
    available = false ∨ ¬ observed (ss_meta s) (ss_ObservedGeneration s) → statefulset_verdict s available WorkloadUnknown
| statefulset_degraded :
    available = true → observed (ss_meta s) (ss_ObservedGeneration s) →
    (ss_ReadyReplicas s < wanted (ss_Replicas s))%Z → statefulset_verdict s available WorkloadDegraded
| statefulset_progressing :
    available = true → observed (ss_meta s) (ss_ObservedGeneration s) →
    (ss_UpdatedReplicas s < wanted (ss_Replicas s) ≤ ss_ReadyReplicas s)%Z → statefulset_verdict s available WorkloadProgressing
| statefulset_healthy :
    available = true → observed (ss_meta s) (ss_ObservedGeneration s) →
    (wanted (ss_Replicas s) ≤ ss_ReadyReplicas s)%Z → (wanted (ss_Replicas s) ≤ ss_UpdatedReplicas s)%Z →
    statefulset_verdict s available WorkloadHealthy.

Inductive daemonset_verdict (d : DaemonSet) : WorkloadStatus → Prop :=
| daemonset_outdated : ¬ observed (ds_meta d) (ds_ObservedGeneration d) → daemonset_verdict d WorkloadUnknown
| daemonset_degraded :
    observed (ds_meta d) (ds_ObservedGeneration d) →
    (0 < ds_NumberUnavailable d ∨ ds_NumberReady d < ds_DesiredNumberScheduled d)%Z → daemonset_verdict d WorkloadDegraded
| daemonset_progressing :
    observed (ds_meta d) (ds_ObservedGeneration d) → (ds_NumberUnavailable d ≤ 0)%Z →
    (ds_UpdatedNumberScheduled d < ds_DesiredNumberScheduled d ≤ ds_NumberReady d)%Z → daemonset_verdict d WorkloadProgressing
| daemonset_healthy :
    observed (ds_meta d) (ds_ObservedGeneration d) → (ds_NumberUnavailable d ≤ 0)%Z →
    (ds_DesiredNumberScheduled d ≤ ds_NumberReady d)%Z → (ds_DesiredNumberScheduled d ≤ ds_UpdatedNumberScheduled d)%Z →
    daemonset_verdict d WorkloadHealthy.

(** The first condition of a type is true. *)
Definition condition_holds (j : Job) (type : string) : Prop :=
  ∃ before c after, jb_Conditions j = before ++ c :: after ∧ Forall (λ c', jc_Type c' ≠ type) before
    ∧ jc_Type c = type ∧ jc_Status c = "True".
Definition suspended (flag : option bool) : Prop := flag = Some true.
Inductive job_verdict (j : Job) : WorkloadStatus → Prop :=
| job_failed : condition_holds j "Failed" ∨ (0 < jb_Failed j)%Z → job_verdict j WorkloadFailed
| job_suspended :
    ¬ condition_holds j "Failed" → (jb_Failed j ≤ 0)%Z → suspended (jb_Suspend j) → job_verdict j WorkloadSuspended
| job_progressing :
    ¬ condition_holds j "Failed" → (jb_Failed j ≤ 0)%Z → ¬ suspended (jb_Suspend j) → (0 < jb_Active j)%Z →
    job_verdict j WorkloadProgressing
| job_completed :
    ¬ condition_holds j "Failed" → (jb_Failed j ≤ 0)%Z → ¬ suspended (jb_Suspend j) → (jb_Active j ≤ 0)%Z →
    condition_holds j "Complete" ∨ (wanted (jb_Completions j) ≤ jb_Succeeded j)%Z → job_verdict j WorkloadCompleted
| job_unknown :
    ¬ condition_holds j "Failed" → (jb_Failed j ≤ 0)%Z → ¬ suspended (jb_Suspend j) → (jb_Active j ≤ 0)%Z →
    ¬ condition_holds j "Complete" → (jb_Succeeded j < wanted (jb_Completions j))%Z → job_verdict j WorkloadUnknown.

(** The latest job of a cron job: the one that ended last - or, without an end, was created
    last -, then the least name, then the first listed. *)
Definition ending (c : JobCondition) : Prop := jc_Status c = "True" ∧ (jc_Type c = "Failed" ∨ jc_Type c = "Complete").
#[export] Instance ending_dec c : Decision (ending c).
Proof. unfold ending. apply _. Defined.
Definition ended_at (j : Job) : Z :=
  foldr Z.max (default 0%Z (jb_CompletionTime j)) (jc_LastTransitionTime <$> filter ending (jb_Conditions j)).
Definition dated (j : Job) : Z := if decide (ended_at j = 0%Z) then om_CreationTimestamp (jb_meta j) else ended_at j.
Definition owns (c : CronJob) (j : Job) : Prop :=
  om_Namespace (jb_meta j) = om_Namespace (cj_meta c) ∧ om_UID (cj_meta c) ≠ ""
  ∧ om_UID (cj_meta c) ∈ om_OwnerUIDs (jb_meta j).
Definition later (j k : Job) : Prop :=
  (dated k < dated j)%Z ∨ dated j = dated k ∧ str_lt (om_Name (jb_meta j)) (om_Name (jb_meta k)) = true.
Definition latest (c : CronJob) (jobs : list Job) (j : Job) : Prop :=
  ∃ before after, jobs = before ++ j :: after ∧ owns c j
    ∧ (∀ k, k ∈ before → owns c k → later j k) ∧ (∀ k, k ∈ after → owns c k → ¬ later k j).
Definition last_run_failed (c : CronJob) (jobs : list Job) (now : instant) : Prop :=
  ∃ j, latest c jobs j ∧ condition_holds j "Failed" ∧ dated j ≠ 0%Z ∧ (0 ≤ now - dated j ≤ 24 * Hour)%Z.
Inductive cronjob_verdict (c : CronJob) (jobs : list Job) (now : instant) : WorkloadStatus → Prop :=
| cronjob_failed : last_run_failed c jobs now → cronjob_verdict c jobs now WorkloadFailed
| cronjob_suspended :
    ¬ last_run_failed c jobs now → suspended (cj_Suspend c) → cronjob_verdict c jobs now WorkloadSuspended
| cronjob_progressing :
    ¬ last_run_failed c jobs now → ¬ suspended (cj_Suspend c) → (0 < cj_Active c)%Z →
    cronjob_verdict c jobs now WorkloadProgressing
| cronjob_healthy t :
    ¬ last_run_failed c jobs now → ¬ suspended (cj_Suspend c) → (cj_Active c ≤ 0)%Z →
    cj_LastScheduleTime c = Some t → t ≠ 0%Z → cronjob_verdict c jobs now WorkloadHealthy
| cronjob_unknown :
    ¬ last_run_failed c jobs now → ¬ suspended (cj_Suspend c) → (cj_Active c ≤ 0)%Z →
    cj_LastScheduleTime c = None ∨ cj_LastScheduleTime c = Some 0%Z → cronjob_verdict c jobs now WorkloadUnknown.

(** *** The tests of the code *)

Lemma observedCurrent_spec m o : observedCurrent (om_Generation m) o = true ↔ observed m o.
Proof. unfold observedCurrent, observed. rewrite !andb_true_iff, !Z.ltb_lt, Z.leb_le. lia. Qed.
Lemma desired_wanted count : desired_count count = wanted count.
Proof. unfold desired_count, wanted, maxInt32. destruct count; simpl; [|done]. case_match; bool_to_prop; lia. Qed.
Lemma deadline_spec d : existsb deadline_exceeded (dp_Conditions d) = true ↔ rollout_stuck d.
Proof.
  rewrite existsb_elem. unfold rollout_stuck, deadline_exceeded.
  split; intros (c & Hc & Hd); exists c; (split; [done|]); rewrite !andb_true_iff, !String.eqb_eq in *; tauto.
Qed.
Lemma condition_spec j type : condition_true (jobCondition j type) = true ↔ condition_holds j type.
Proof.
  unfold jobCondition, condition_holds. induction (jb_Conditions j) as [|c l IH]; cbn [List.find].
  { split; [done|]. by intros ([]&?&?&?&_). }
  destruct (String.eqb_spec (jc_Type c) type) as [Hr|Hr].
  - simpl. rewrite String.eqb_eq. split; [intros Hs; by exists [], c, l|].
    intros ([|c' before]&c1&after&Heq&Hf&_&Hs); simplify_eq/=; [done|]. by apply Forall_cons in Hf as [? _].
  - rewrite IH. split; intros (before&c1&after&Heq&Hf&Hs).
    + exists (c :: before), c1, after. rewrite Heq. split_and!; [done|by constructor|apply Hs..].
    + destruct before as [|c' before]; simplify_eq/=; [by destruct Hs|]. apply Forall_cons in Hf as [_ Hf].
      by exists before, c1, after.
Qed.
Lemma suspended_spec flag : is_true flag = true ↔ suspended flag.
Proof. unfold suspended. destruct flag as [[]|]; simpl; split; congruence. Qed.

Lemma foldr_max_acc x y l : foldr Z.max (Z.max x y) l = Z.max x (foldr Z.max y l).
Proof. induction l as [|z l IH]; simpl; [done|]. rewrite IH. lia. Qed.
Lemma jobTerminalTime_spec j : jobTerminalTime j = ended_at j.
Proof.
  unfold jobTerminalTime, ended_at. generalize (default 0%Z (jb_CompletionTime j)) as t.
  induction (jb_Conditions j) as [|c l IH]; intros t; [done|]. cbn [foldl]. rewrite IH, filter_cons.
  destruct (String.eqb_spec (jc_Status c) "True"), (String.eqb_spec (jc_Type c) "Failed"), (String.eqb_spec (jc_Type c) "Complete");
    cbn [negb orb andb]; unfold ending; first [rewrite decide_True by tauto|rewrite decide_False by tauto]; try done;
    rewrite fmap_cons; cbn [foldr]; unfold After;
    (destruct (Z.ltb_spec t (jc_LastTransitionTime c)); [rewrite <- (Z.max_l (jc_LastTransitionTime c) t) at 1 by lia
       |rewrite <- (Z.max_r (jc_LastTransitionTime c) t) at 1 by lia]; apply foldr_max_acc).
Qed.
Lemma job_time_spec j : job_time j = dated j.
Proof. unfold job_time, dated, IsZero. rewrite jobTerminalTime_spec. by case_decide; case_match; bool_to_prop. Qed.
Lemma owned_by_spec c j : owned_by c j = true ↔ owns c j.
Proof.
  unfold owned_by, owns, ownedByUID. rewrite andb_true_iff, String.eqb_eq.
  destruct (String.eqb_spec (om_UID (cj_meta c)) "") as [|]; [naive_solver|].
  rewrite existsb_elem. setoid_rewrite String.eqb_eq. naive_solver.
Qed.
Lemma later_job_spec j k : later_job j k = true ↔ later j k.
Proof.
  unfold later_job, later, After. by rewrite !job_time_spec, orb_true_iff, andb_true_iff, Z.ltb_lt, Z.eqb_eq.
Qed.
Lemma later_trans j k l : later j k → later k l → later j l.
Proof.
  unfold later. intros [H1|[H1 H1']] [H2|[H2 H2']]; [left; lia..|]. right. split; [lia|]. by eapply swo_trans.
Qed.
Lemma not_later_trans j k l : later j k → ¬ later l k → later j l.
Proof.
  unfold later. intros H Hn. destruct (Z.lt_trichotomy (dated l) (dated j)) as [?|[Heq|?]]; [by left| |].
  - destruct H as [H|[H Hs]]; [exfalso; apply Hn; left; lia|]. right. split; [done|].
    destruct (str_lt (om_Name (jb_meta j)) (om_Name (jb_meta l))) eqn:Hjl; [done|]. exfalso. apply Hn. right.
    split; [congruence|]. apply str_lt_total in Hjl as [<-|Hlj]; [done|by eapply swo_trans].
  - exfalso. apply Hn. destruct H as [H|[H _]]; left; lia.
Qed.

Lemma latest_unique c jobs j k : latest c jobs j → latest c jobs k → j = k.
Proof.
  intros (b & a & Hj & Hoj & Hbj & Haj) (b' & a' & Hk & Hok & Hbk & Hak). rewrite Hj in Hk.
  apply app_eq_inv in Hk as [([|x l] & Hb & Ha)|([|x l] & Hb & Ha)]; simplify_eq/=; try done.
  - exfalso. apply (Hak j); [set_solver|done|]. apply Hbj; [set_solver|done].
  - exfalso. apply (Haj k); [set_solver|done|]. apply Hbk; [set_solver|done].
Qed.
Lemma latestOwnedJob_sound c jobs :
  match latestOwnedJob c jobs with Some j => latest c jobs j | None => ∀ k, k ∈ jobs → ¬ owns c k end.
Proof.
  unfold latestOwnedJob. induction jobs as [|x jobs IH] using rev_ind; [by intros k ?%not_elem_of_nil|].
  rewrite foldl_snoc. destruct (foldl _ None jobs) as [w|].
  - destruct IH as (b & a & -> & How & Hb & Ha). destruct (owned_by c x) eqn:Hx; cbn [negb].
    + apply owned_by_spec in Hx. destruct (later_job x w) eqn:Hl.
      * apply later_job_spec in Hl. exists (b ++ w :: a), []. split_and!; [done|done| |by intros k ?%not_elem_of_nil].
        intros k [Hk|[->|Hk]%elem_of_cons]%elem_of_app Hok; [|done|].
        -- eapply later_trans; [exact Hl|by apply Hb].
        -- eapply not_later_trans; [exact Hl|by apply Ha].
      * exists b, (a ++ [x]). split_and!; [by rewrite <- app_assoc|done|done|].
        intros k [Hk| ->%list_elem_of_singleton]%elem_of_app Hok; [by apply Ha|].
        rewrite <- later_job_spec. congruence.
    + exists b, (a ++ [x]). split_and!; [by rewrite <- app_assoc|done|done|].
      intros k [Hk| ->%list_elem_of_singleton]%elem_of_app Hok; [by apply Ha|]. apply owned_by_spec in Hok. congruence.
  - destruct (owned_by c x) eqn:Hx; cbn [negb].
    + apply owned_by_spec in Hx. exists jobs, []. split_and!; [done|done| |by intros k ?%not_elem_of_nil].
      intros k Hk Hok. by destruct (IH k Hk).
    + intros k [Hk| ->%list_elem_of_singleton]%elem_of_app; [by apply IH|]. rewrite <- owned_by_spec. congruence.
Qed.
Lemma recently_failed_spec c jobs now : recently_failed c jobs now = true ↔ last_run_failed c jobs now.
Proof.
  unfold recently_failed, last_run_failed, jobFailed. pose proof (latestOwnedJob_sound c jobs) as Hl.
  destruct (latestOwnedJob c jobs) as [w|].
  - rewrite !andb_true_iff, negb_true_iff, !Z.leb_le, condition_spec, job_time_spec. unfold IsZero. rewrite Z.eqb_neq.
    assert (0 ≤ Sub now (dated w) ∧ Sub now (dated w) ≤ 24 * Hour ↔ 0 ≤ now - dated w ≤ 24 * Hour)%Z as Hsub.
    { unfold Sub, MinInt64, MaxInt64, Hour, Minute, Second. lia. }
    split.
    + intros [[[? ?] ?] ?]. exists w. split_and!; try done; by apply Hsub.
    + intros (j & Hj & ? & ? & ?). assert (j = w) as -> by by eapply latest_unique. tauto.
  - split; [done|]. intros (j & (b & a & -> & Ho & _) & _). exfalso. apply (Hl j); [set_solver|done].
Qed.

(** *** One verdict each *)

Lemma deployment_verdict_fun d s t : deployment_verdict d s → deployment_verdict d t → s = t.
Proof. destruct 1, 1; try done; exfalso; naive_solver lia. Qed.
Lemma statefulset_verdict_fun x a s t : statefulset_verdict x a s → statefulset_verdict x a t → s = t.
Proof. destruct 1, 1; try done; exfalso; naive_solver lia. Qed.
Lemma daemonset_verdict_fun d s t : daemonset_verdict d s → daemonset_verdict d t → s = t.
Proof. destruct 1, 1; try done; exfalso; naive_solver lia. Qed.
Lemma job_verdict_fun j s t : job_verdict j s → job_verdict j t → s = t.
Proof. destruct 1, 1; try done; exfalso; naive_solver lia. Qed.
Lemma cronjob_verdict_fun c jobs now s t : cronjob_verdict c jobs now s → cronjob_verdict c jobs now t → s = t.
Proof. destruct 1, 1; try done; exfalso; naive_solver lia. Qed.

Lemma ClassifyDeployment_verdict d now : deployment_verdict d (wd_Status (ClassifyDeployment d now)).
Proof.
  simpl. rewrite desired_wanted. destruct (observedCurrent _ _) eqn:Ho; cbn [negb];
    [apply observedCurrent_spec in Ho|constructor; rewrite <- observedCurrent_spec; congruence].
  destruct (existsb _ _) eqn:Hd; cbn [orb]; [apply deadline_spec in Hd; constructor; auto|].
  assert (¬ rollout_stuck d) by (rewrite <- deadline_spec; congruence).
  repeat case_match; bool_to_prop; by constructor; auto; try lia.
Qed.

Lemma ClassifyStatefulSet_verdict x a now : statefulset_verdict x a (wd_Status (ClassifyStatefulSetWithAvailability x a now)).
Proof.
  simpl. rewrite desired_wanted. destruct a; cbn [negb orb]; [|constructor; by left].
  destruct (observedCurrent _ _) eqn:Ho; cbn [negb];
    [apply observedCurrent_spec in Ho|constructor; right; rewrite <- observedCurrent_spec; congruence].
  repeat case_match; bool_to_prop; by constructor; auto; try lia.
Qed.
Lemma ClassifyDaemonSet_verdict d now : daemonset_verdict d (wd_Status (ClassifyDaemonSet d now)).
Proof.
  simpl. destruct (observedCurrent _ _) eqn:Ho; cbn [negb];
    [apply observedCurrent_spec in Ho|constructor; rewrite <- observedCurrent_spec; congruence].
  repeat case_match; bool_to_prop; by constructor; auto; try lia.
Qed.
Lemma ClassifyJob_verdict j now : job_verdict j (wd_Status (ClassifyJob j now)).
Proof.
  simpl. rewrite desired_wanted.
  pose proof (condition_spec j "Failed") as Hf. pose proof (condition_spec j "Complete") as Hc.
  pose proof (suspended_spec (jb_Suspend j)) as Hs.
  destruct (condition_true (jobCondition j "Failed")), (condition_true (jobCondition j "Complete")), (is_true (jb_Suspend j));
    repeat case_match; bool_to_prop; constructor; try lia; naive_solver lia.
Qed.
Lemma ClassifyCronJob_verdict c jobs now : cronjob_verdict c jobs now (wd_Status (ClassifyCronJob c jobs now)).
Proof.
  simpl. pose proof (recently_failed_spec c jobs now) as Hf. pose proof (suspended_spec (cj_Suspend c)) as Hs.
  destruct (recently_failed c jobs now); [constructor; naive_solver|].
  destruct (is_true (cj_Suspend c)); [constructor; naive_solver|].
  destruct (Z.ltb_spec 0 (cj_Active c)); [constructor; naive_solver|].
  destruct (cj_LastScheduleTime c) as [t|] eqn:Ht; [|constructor; naive_solver].
  unfold IsZero. destruct (Z.eqb_spec t 0) as [->|]; [constructor; naive_solver|by eapply cronjob_healthy; try done; naive_solver].
Qed.

(** C35: the status shown for a workload is exactly the verdict of its kind. A deployment is
    healthy iff the status its controller observed is of the current generation, no rollout
    exceeded its deadline, and available, updated and ready replicas all equal the wanted
    ones; a stateful set iff its available count was reported, its status is current, and
    ready and updated replicas reach the wanted ones; a daemon set iff its status is current,
    none of its pods is unavailable, and ready and updated pods reach the desired ones; a job
    never; a cron job iff its latest job did not fail within a day, it is neither suspended
    nor active, and it has been scheduled. The other verdicts - degraded, progressing, failed,
    suspended, completed, unknown - are pinned in the same way, and a status that is out of
    date leaves a deployment, stateful set or daemon set unknown. *)
Theorem workload_verdicts_exact (now : instant) :
  (∀ d s, wd_Status (ClassifyDeployment d now) = s ↔ deployment_verdict d s)
  ∧ (∀ x available s, wd_Status (ClassifyStatefulSetWithAvailability x available now) = s ↔ statefulset_verdict x available s)
  ∧ (∀ d s, wd_Status (ClassifyDaemonSet d now) = s ↔ daemonset_verdict d s)
  ∧ (∀ j s, wd_Status (ClassifyJob j now) = s ↔ job_verdict j s)
  ∧ (∀ c jobs s, wd_Status (ClassifyCronJob c jobs now) = s ↔ cronjob_verdict c jobs now s).
Proof.
  split_and!.
  - intros d s. pose proof (ClassifyDeployment_verdict d now). split; [by intros <-|by apply deployment_verdict_fun].
  - intros x a s. pose proof (ClassifyStatefulSet_verdict x a now). split; [by intros <-|by apply statefulset_verdict_fun].
  - intros d s. pose proof (ClassifyDaemonSet_verdict d now). split; [by intros <-|by apply daemonset_verdict_fun].
  - intros j s. pose proof (ClassifyJob_verdict j now). split; [by intros <-|by apply job_verdict_fun].
  - intros c jobs s. pose proof (ClassifyCronJob_verdict c jobs now). split; [by intros <-|by apply cronjob_verdict_fun].
Qed.

(** ** What a complete list of workloads holds *)

Section collecting.
Context (expired : nat → option failure) (ListWorkloads : nat → string → Z → string → result failure WorkloadPage)
  (budget : QueryBudget).

(** From call [k] on, the API answers the pages of one namespace, the last without a token;
    [workloads_all] is one such answer per namespace. *)
Inductive workloads (namespace : string) : nat → string → list WorkloadPage → nat → Prop :=
| workloads_last k cont p :
    expired k = None → ListWorkloads k namespace (qb_PageSize budget) cont = Ok p → wp_Continue p = "" →
    workloads namespace k cont [p] (S k)
| workloads_more k cont p ps k' :
    expired k = None → ListWorkloads k namespace (qb_PageSize budget) cont = Ok p → wp_Continue p ≠ "" →
    workloads namespace (S k) (wp_Continue p) ps k' → workloads namespace k cont (p :: ps) k'.
Inductive workloads_all : nat → list string → list (list WorkloadPage) → nat → Prop :=
| workloads_none k : workloads_all k [] [] k
| workloads_next k namespace ps k1 namespaces rest k' :
    workloads namespace k "" ps k1 → workloads_all k1 namespaces rest k' →
    workloads_all k (namespace :: namespaces) (ps :: rest) k'.

Lemma load_workload_pages_sound pages maximum ns cont items fully result k l k' :
  load_workload_pages expired ListWorkloads budget pages maximum ns cont items fully result k = (l, k') →
  lw_error l = None → lw_truncated l = false → pages ≠ 0%nat ∨ cont ≠ "" →
  ∃ ps, workloads ns k cont ps k' ∧ lw_pages l = result ++ ps.
Proof.
  revert cont items fully result k. induction pages as [|pages IH]; intros cont items fully result k; cbn [load_workload_pages].
  { intros [= <- <-] _ Ht [?|Hc]; [done|]. simpl in Ht. by apply String.eqb_neq in Hc as Hc'; rewrite Hc' in Ht. }
  destruct (_ <=? _)%Z; [by intros [= <- <-]|]. destruct (expired k) as [e|] eqn:He; [by intros [= <- <-]|].
  destruct (ListWorkloads k ns _ cont) as [p|e] eqn:Hp; [|by intros [= <- <-]].
  destruct (_ <? _)%Z; [by intros [= <- <-]|]. destruct (String.eqb_spec (wp_Continue p) "") as [Hc|Hc].
  - intros [= <- <-] _ _ _. exists [p]. split; [by apply workloads_last|done].
  - intros Hl Herr Ht _. eapply IH in Hl as (ps & Hps & Hr); [|done|done|by right].
    exists (p :: ps). split; [by apply workloads_more|]. rewrite Hr, <- app_assoc. done.
Qed.

(** No page reported a failure of one kind. *)
Definition no_issue (pages : list WorkloadPage) : Prop := ∀ i, i ∈ concat (wp_Issues <$> pages) → wi_Err i = None.
Lemma addBlockError_incomplete {T} ns e (b : DashboardBlockDTO T) : bk_Complete (addBlockError ns e b) = false.
Proof. unfold addBlockError. by destruct (classifyPartialError ns e). Qed.
Lemma addBlockError_value {T} ns e (b : DashboardBlockDTO T) : bk_Value (addBlockError ns e b) = bk_Value b.
Proof. unfold addBlockError. by destruct (classifyPartialError ns e). Qed.
Lemma add_issues_spec {T} ns pages (b : DashboardBlockDTO T) :
  bk_Value (add_issues ns pages b) = bk_Value b
  ∧ (bk_Complete (add_issues ns pages b) = true → bk_Complete b = true ∧ no_issue pages).
Proof.
  unfold add_issues, no_issue. revert b. induction (concat (wp_Issues <$> pages)) as [|i l IH]; intros b; simpl.
  { split; [done|]. intros Hc. split; [done|]. by intros i ?%not_elem_of_nil. }
  destruct (wi_Err i) as [e|] eqn:Hi.
  - destruct (IH (addBlockError ns e b)) as [Hv Hc]. rewrite addBlockError_value in Hv. split; [done|].
    intros H. apply Hc in H as [H _]. by rewrite addBlockError_incomplete in H.
  - destruct (IH b) as [Hv Hc]. split; [done|]. intros H. apply Hc in H as [H Hn]. split; [done|].
    intros j [->|Hj]%elem_of_cons; auto.
Qed.

Lemma list_namespaces_sound now nss collected b k b' k' :
  (0 < qb_MaxPages budget)%Z →
  list_namespaces expired ListWorkloads budget now nss collected b k = (b', k') → bk_Complete b' = true →
  bk_Complete b = true ∧ ∃ ps, workloads_all k nss ps k' ∧ bk_Value b' = bk_Value b ++ concat (classify_pages now <$> ps)
    ∧ Forall no_issue ps.
Proof.
  intros Hp. revert collected b k. induction nss as [|ns nss IH]; intros collected b k; cbn [list_namespaces].
  { intros [= <- <-] Hc. split; [done|]. exists []. simpl. rewrite app_nil_r. split_and!; [constructor|done|constructor]. }
  destruct (_ <=? 0)%Z; [by intros [= <- <-]|]. destruct (loadWorkloadNamespace _ _ _ _ _ _) as [l k1] eqn:Hl.
  intros Hrun Hc. apply IH in Hrun as (Hcb & ps & Hps & Hv & Hn); [|done]. simpl in Hcb, Hv.
  set (b1 := match lw_error l with Some e => addBlockError ns e b | None => b end) in *.
  set (b2 := if lw_complete l then block_completed b1 else b1) in *.
  set (b3 := if lw_truncated l then block_truncated b2 else b2) in *.
  destruct (add_issues_spec ns (lw_pages l) b3) as [Hvi Hci]. apply Hci in Hcb as [Hc3 Hni].
  assert (bk_Complete b2 = bk_Complete b1) as Hc2 by (unfold b2; by destruct (lw_complete l)).
  assert (lw_truncated l = false ∧ bk_Complete b1 = true) as [Ht Hc1].
  { unfold b3 in Hc3. destruct (lw_truncated l); [done|]. by rewrite <- Hc2. }
  assert (lw_error l = None ∧ bk_Complete b = true) as [He Hcb].
  { unfold b1 in Hc1. destruct (lw_error l); [by rewrite addBlockError_incomplete in Hc1|done]. }
  destruct (load_workload_pages_sound _ _ _ _ _ _ _ _ _ _ Hl He Ht) as (ps1 & Hps1 & Hpl); [left; lia|]. simpl in Hpl.
  split; [done|]. exists (ps1 :: ps). split_and!; [by eapply workloads_next| |constructor; [by rewrite <- Hpl|done]].
  rewrite Hv, Hvi, Hpl. assert (bk_Value b3 = bk_Value b) as ->.
  { unfold b3, b2, b1. rewrite Ht, He. by destruct (lw_complete l). }
  simpl. by rewrite <- app_assoc.
Qed.
End collecting.

(** When the degraded workloads call themselves complete, every page of workloads of every
    selected namespace was read without a failure, every workload in them has a known status,
    and the workloads shown are exactly the degraded and failed ones: an empty list proves
    that there are none. *)
Lemma degraded_workloads_authoritative expired ListWorkloads configured available now (selected : list string)
    (budget := Normalized configured) (block := Degraded expired ListWorkloads budget available now selected) :
  bk_Complete block = true →
  available = true
  ∧ ∃ pages k, workloads_all expired ListWorkloads budget 0 (canonicalNamespaces selected) pages k
      ∧ Forall no_issue pages
      ∧ let all := concat (classify_pages now <$> pages) in
        Forall (λ w, wd_Status w ≠ WorkloadUnknown) all
        ∧ bk_Value block ≡ₚ List.filter unhealthy all
        ∧ (bk_Value block = [] → Forall (λ w, wd_Status w ≠ WorkloadDegraded ∧ wd_Status w ≠ WorkloadFailed) all).
Proof.
  unfold block, Degraded, List_workloads. destruct (Normalized_pos configured) as (Hp & _). fold budget in Hp.
  destruct available; [|done]. cbv zeta.
  set (start := blockWithValue [] _). destruct (list_namespaces _ _ _ _ _ _ _ _) as [b k] eqn:Hl. simpl.
  destruct (existsb unknown (SortWorkloads (bk_Value b))) eqn:Hu; simpl; [done|]. intros Hc. split; [done|].
  apply list_namespaces_sound in Hl as (_ & pages & Hps & Hv & Hn); [|done|done]. simpl in Hv.
  assert (SortWorkloads (bk_Value b) ≡ₚ concat (classify_pages now <$> pages)) as Hperm.
  { unfold SortWorkloads. by rewrite sort_stable_perm, Hv. }
  exists pages, k. split_and!; [done|done| | |].
  - apply Forall_forall. intros w Hw Hun. rewrite <- Hperm in Hw. rewrite <- not_true_iff_false in Hu. apply Hu, existsb_elem.
    exists w. split; [done|]. by apply bool_decide_eq_true.
  - by rewrite Hperm.
  - intros Hnil. apply Forall_forall. intros w Hw. rewrite <- Hperm in Hw.
    assert (¬ unhealthy w = true) as Hh.
    { intros Hh. assert (w ∈ List.filter unhealthy (SortWorkloads (bk_Value b))) as Hin by by apply elem_of_List_filter.
      rewrite Hnil in Hin. by apply not_elem_of_nil in Hin. }
    unfold unhealthy in Hh. rewrite orb_true_iff, !bool_decide_eq_true in Hh. tauto.
Qed.

(** ** A deployment *)

Definition demo_meta (name : string) (generation : Z) : ObjectMeta := {|
  om_Namespace := "shop"; om_Name := name; om_UID := name; om_CreationTimestamp := Hour; om_Generation := generation;
  om_OwnerUIDs := [] |}.
Definition demo_deployment (ready : Z) : Deployment := {|
  dp_meta := demo_meta "web" 2; dp_Replicas := Some 3%Z; dp_ReadyReplicas := ready; dp_AvailableReplicas := ready;
  dp_UpdatedReplicas := 3; dp_ObservedGeneration := 2; dp_Conditions := [] |}.
Lemma workload_verdicts_exact_witness :
  deployment_verdict (demo_deployment 3) WorkloadHealthy ∧ deployment_verdict (demo_deployment 2) WorkloadDegraded.
Proof. split; apply (workload_verdicts_exact Hour); by vm_compute. Defined.
