(* ===== verification/DashboardEvents.v ===== *)
(** * DashboardEvents: normalized and grouped Kubernetes events

    Models events.go of src/internal/services/dashboard. The SHA-256 digest in hexadecimal and
    the text of an instant are parameters; so is the order in which a map is walked. *)
From Stdlib Require Import Ascii String ZArith Lia.
From stdpp Require Import base gmap strings list sorting.
From S2P Require Import Prelude Dashboard DashboardPods.
Local Open Scope string_scope.
Local Open Scope list_scope.

(** ** Normalization *)

Record EventSeries := { es_Count : Z; es_LastObservedTime : instant }.
Record CoreEvent := {
  ce_UID : string; ce_Namespace : string; ce_InvolvedKind : string; ce_InvolvedName : string; ce_InvolvedUID : string;
  ce_Type : string; ce_Reason : string; ce_Message : string; ce_Count : Z; ce_Series : option EventSeries;
  ce_EventTime : instant; ce_LastTimestamp : instant; ce_CreationTimestamp : instant; ce_ReportingController : string;
  ce_SourceComponent : string }.
Record EventsV1 := {
  e1_UID : string; e1_Namespace : string; e1_RegardingKind : string; e1_RegardingName : string; e1_RegardingUID : string;
  e1_Type : string; e1_Reason : string; e1_Note : string; e1_DeprecatedCount : Z; e1_Series : option EventSeries;
  e1_EventTime : instant; e1_DeprecatedLastTimestamp : instant; e1_CreationTimestamp : instant;
  e1_ReportingController : string; e1_DeprecatedSourceComponent : string }.

Definition firstEventTime (values : list instant) : instant :=
  match List.find (λ value, negb (IsZero value)) values with Some value => value | None => 0%Z end.
Definition seriesTime (series : option EventSeries) : instant :=
  match series with Some s => es_LastObservedTime s | None => 0%Z end.
(** The count of the series, if there is one, and never a negative one. *)
Definition event_count (count : Z) (series : option EventSeries) : Z :=
  let count := match series with Some s => es_Count s | None => count end in
  if (count <? 0)%Z then 0%Z else count.

Definition NormalizeCoreEvent (event : CoreEvent) : NormalizedEvent := {|
  ne_UID := ce_UID event; ne_Namespace := ce_Namespace event; ne_RegardingKind := ce_InvolvedKind event;
  ne_RegardingName := ce_InvolvedName event; ne_RegardingUID := ce_InvolvedUID event; ne_Type := ce_Type event;
  ne_Reason := ce_Reason event; ne_Message := ce_Message event; ne_Count := event_count (ce_Count event) (ce_Series event);
  ne_Source := or_else (ce_ReportingController event) (ce_SourceComponent event);
  ne_ObservedAt := firstEventTime
    [ce_EventTime event; seriesTime (ce_Series event); ce_LastTimestamp event; ce_CreationTimestamp event] |}.
Definition NormalizeEventsV1 (event : EventsV1) : NormalizedEvent := {|
  ne_UID := e1_UID event; ne_Namespace := e1_Namespace event; ne_RegardingKind := e1_RegardingKind event;
  ne_RegardingName := e1_RegardingName event; ne_RegardingUID := e1_RegardingUID event; ne_Type := e1_Type event;
  ne_Reason := e1_Reason event; ne_Message := e1_Note event;
  ne_Count := event_count (e1_DeprecatedCount event) (e1_Series event);
  ne_Source := or_else (e1_ReportingController event) (e1_DeprecatedSourceComponent event);
  ne_ObservedAt := firstEventTime
    [e1_EventTime event; seriesTime (e1_Series event); e1_DeprecatedLastTimestamp event; e1_CreationTimestamp event] |}.

(** ** Grouping *)

Definition normalizeEventType (value : string) : string :=
  if EqualFold value "Normal" then "Normal" else if EqualFold value "Warning" then "Warning" else "Unknown".

Record EventGroupKey := {
  gk_Namespace : string; gk_RegardingKind : string; gk_RegardingName : string; gk_RegardingUID : string; gk_Type : string;
  gk_Reason : string; gk_Message : string; gk_Source : string }.
#[export] Instance EventGroupKey_eq_dec : EqDecision EventGroupKey.
Proof. solve_decision. Defined.
#[export] Instance EventGroupKey_countable : Countable EventGroupKey.
Proof.
  apply (inj_countable' (λ k, (gk_Namespace k, gk_RegardingKind k, gk_RegardingName k, gk_RegardingUID k,
    (gk_Type k, gk_Reason k, gk_Message k, gk_Source k)))
    (λ '(a, b, c, d, (e, f, g, h)), Build_EventGroupKey a b c d e f g h)). by intros [].
Defined.

Record aggregate := { ag_key : EventGroupKey; ag_uid : string; ag_observed : instant; ag_count : Z }.

Definition key_of (event : NormalizedEvent) : EventGroupKey := {|
  gk_Namespace := ne_Namespace event; gk_RegardingKind := ne_RegardingKind event; gk_RegardingName := ne_RegardingName event;
  gk_RegardingUID := ne_RegardingUID event; gk_Type := normalizeEventType (ne_Type event); gk_Reason := ne_Reason event;
  gk_Message := ne_Message event; gk_Source := ne_Source event |}.
(** The sum saturates. *)
Definition saturating_add (count n : Z) : Z :=
  if (0 <? n)%Z then (if (MaxInt64 - n <? count)%Z then MaxInt64 else count + n)%Z else count.
Definition merge_event (current : aggregate) (event : NormalizedEvent) : aggregate :=
  let newer := After (ne_ObservedAt event) (ag_observed current)
    || (ne_ObservedAt event =? ag_observed current)%Z && str_lt (ne_UID event) (ag_uid current) in {|
  ag_key := key_of event; ag_uid := if newer then ne_UID event else ag_uid current;
  ag_observed := if newer then ne_ObservedAt event else ag_observed current;
  ag_count := saturating_add (ag_count current) (ne_Count event) |}.
Definition no_aggregate (key : EventGroupKey) : aggregate := {| ag_key := key; ag_uid := ""; ag_observed := 0%Z; ag_count := 0 |}.
Definition group_event (warningsOnly : bool) (groups : gmap EventGroupKey aggregate) (event : NormalizedEvent)
    : gmap EventGroupKey aggregate :=
  let key := key_of event in
  if warningsOnly && negb (String.eqb (gk_Type key) "Warning") then groups
  else <[key := merge_event (get_or groups key (no_aggregate key)) event]> groups.
Definition group_map (warningsOnly : bool) (events : list NormalizedEvent) : gmap EventGroupKey aggregate :=
  foldl (group_event warningsOnly) ∅ events.

Definition aggregate_less (l r : aggregate) : bool :=
  if negb (ag_observed l =? ag_observed r)%Z then (ag_observed r <? ag_observed l)%Z
  else if negb (String.eqb (gk_Namespace (ag_key l)) (gk_Namespace (ag_key r)))
    then str_lt (gk_Namespace (ag_key l)) (gk_Namespace (ag_key r))
  else str_lt (ag_uid l) (ag_uid r).

Record EventDTO := {
  ev_Timestamp : option string; ev_Namespace : string; ev_ObjectKind : string; ev_ObjectName : string; ev_Reason : string;
  ev_Message : string; ev_Count : Z; ev_Source : option string; ev_Type : string; ev_cursorIdentity : string }.

Section rows.
Context `{SliceSort} (sha256hex : string → string) (format : instant → string)
  (order : list aggregate → list aggregate).

Definition event_row (item : aggregate) : EventDTO :=
  let key := ag_key item in
  let timestamp := if IsZero (ag_observed item) then None else Some (format (ag_observed item)) in {|
  ev_Timestamp := timestamp; ev_Namespace := gk_Namespace key;
  ev_ObjectKind := sanitizeText (gk_RegardingKind key) MaximumStatusBytes;
  ev_ObjectName := sanitizeText (gk_RegardingName key) MaximumStatusBytes;
  ev_Reason := sanitizeText (gk_Reason key) MaximumStatusBytes;
  ev_Message := sanitizeText (gk_Message key) MaximumProblemText; ev_Count := ag_count item;
  ev_Source := stringPointer (sanitizeText (gk_Source key) MaximumStatusBytes); ev_Type := gk_Type key;
  ev_cursorIdentity := Join [default "" timestamp; gk_Namespace key; ag_uid item;
    sha256hex (Join [gk_RegardingKind key; gk_RegardingName key; gk_RegardingUID key; gk_Type key; gk_Reason key;
                     gk_Message key; gk_Source key] nul)] nul |}.
Definition groupEvents (events : list NormalizedEvent) (warningsOnly : bool) : list EventDTO :=
  event_row <$> sort_Slice aggregate_less (order (snd <$> map_to_list (group_map warningsOnly events))).
Definition GroupEvents (events : list NormalizedEvent) : list EventDTO := groupEvents events false.
Definition GroupWarningEvents (events : list NormalizedEvent) : list EventDTO := groupEvents events true.

(** [FormatInt] is [strconv]'s. *)
Definition EventCursorIdentity (FormatInt : Z → string) (value : EventDTO) : string :=
  if negb (String.eqb (ev_cursorIdentity value) "") then ev_cursorIdentity value
  else Join [default "" (ev_Timestamp value); ev_Namespace value;
    sha256hex (Join [ev_ObjectKind value; ev_ObjectName value; ev_Type value; ev_Reason value; ev_Message value;
                     default "" (ev_Source value); FormatInt (ev_Count value)] nul)] nul.

Context (expired : nat → option failure)
  (ListEvents : nat → string → Z → string → result failure (page NormalizedEvent)).
(** The budget is the normalized one of [NewEventService]. *)
Definition collect (budget : QueryBudget) (available warningsOnly : bool) (selected : list string)
    : DashboardBlockDTO (list EventDTO) :=
  let all := (load expired ListEvents budget available selected 0).1 in
  with_value (if available then groupEvents (bk_Value all) warningsOnly else []) all.
Definition Warnings budget available selected := collect budget available true selected.
Definition All budget available selected := collect budget available false selected.
End rows.

(** The occurrences of a list of rows, for the summary. *)
Fixpoint occurrence_count (events : list EventDTO) (result : Z) : Z :=
  match events with
  | [] => result
  | event :: events =>
    if (ev_Count event <=? 0)%Z then occurrence_count events result
    else if (MaxInt64 - ev_Count event <? result)%Z then MaxInt64
    else occurrence_count events (result + ev_Count event)
  end.
Definition eventOccurrenceCount (events : list EventDTO) : Z := occurrence_count events 0.

(** ** Each event is counted in one row *)

(** The least of two elements of a strict total order does not depend on their order. *)
Definition least {A} (less : A → A → bool) (current x : A) : A := if less x current then x else current.
Lemma least_swap {A} (less : A → A → bool) `{!StrictWeakOrder less} (a x y : A) :
  (∀ x y, less x y = false → less y x = false → x = y) → least less (least less a x) y = least less (least less a y) x.
Proof.
  intros Htot. unfold least. destruct (less x a) eqn:Hxa, (less y a) eqn:Hya; rewrite ?Hxa, ?Hya.
  - destruct (less y x) eqn:Hyx, (less x y) eqn:Hxy; try done; [|by apply Htot].
    pose proof (swo_trans _ _ _ Hyx Hxy) as H. by rewrite swo_irrefl in H.
  - destruct (less y x) eqn:Hyx; [|done]. pose proof (swo_trans _ _ _ Hyx Hxa). congruence.
  - destruct (less x y) eqn:Hxy; [|done]. pose proof (swo_trans _ _ _ Hxy Hya). congruence.
  - done.
Qed.

Definition mark_less (l r : instant * string) : bool :=
  if negb (l.1 =? r.1)%Z then (r.1 <? l.1)%Z else str_lt l.2 r.2.
#[export] Instance mark_less_swo : StrictWeakOrder mark_less.
Proof. apply (lex_Z_down fst), (key_swo snd str_lt). Qed.
Lemma mark_less_total l r : mark_less l r = false → mark_less r l = false → l = r.
Proof.
  destruct l as [o u], r as [o' u']. unfold mark_less. simpl. rewrite (Z.eqb_sym o'). destruct (Z.eqb_spec o o') as [->|]; simpl.
  - intros. f_equal. by apply str_lt_eq.
  - intros. bool_to_prop. lia.
Qed.
Definition mark (a : aggregate) : instant * string := (ag_observed a, ag_uid a).
Definition event_mark (e : NormalizedEvent) : instant * string := (ne_ObservedAt e, ne_UID e).
Lemma merge_mark a e : mark (merge_event a e) = least mark_less (mark a) (event_mark e).
Proof.
  unfold merge_event, mark, least, mark_less, event_mark, After. simpl.
  destruct (Z.ltb_spec (ag_observed a) (ne_ObservedAt e)); simpl.
  - by rewrite (proj2 (Z.eqb_neq _ _)) by lia.
  - destruct (Z.eqb_spec (ne_ObservedAt e) (ag_observed a)); simpl; [by destruct (str_lt (ne_UID e) (ag_uid a))|done].
Qed.
Lemma aggregate_eq a b : ag_key a = ag_key b → mark a = mark b → ag_count a = ag_count b → a = b.
Proof. destruct a, b. unfold mark. simpl. intros -> [= -> ->] ->. done. Qed.

Lemma saturating_add_min c n : (0 ≤ c ≤ MaxInt64)%Z → saturating_add c n = Z.min MaxInt64 (c + Z.max 0 n).
Proof. intros. unfold saturating_add. repeat case_match; bool_to_prop; lia. Qed.

Lemma merge_swap a x y :
  key_of x = key_of y → (0 ≤ ag_count a ≤ MaxInt64)%Z →
  merge_event (merge_event a x) y = merge_event (merge_event a y) x.
Proof.
  intros Hk Hc. apply aggregate_eq; [simpl; done| |].
  - rewrite !merge_mark. apply least_swap; [apply _|apply mark_less_total].
  - simpl. rewrite !saturating_add_min; rewrite ?saturating_add_min by done; lia.
Qed.
Lemma merge_count a e : (0 ≤ ag_count a ≤ MaxInt64)%Z → (0 ≤ ag_count (merge_event a e) ≤ MaxInt64)%Z.
Proof. intros. simpl. rewrite saturating_add_min by done. lia. Qed.
Lemma merge_all_perm key a es es' :
  es ≡ₚ es' → Forall (λ e, key_of e = key) es → (0 ≤ ag_count a ≤ MaxInt64)%Z →
  foldl merge_event a es = foldl merge_event a es'.
Proof.
  intros Hp. revert a. induction Hp as [|x l k Hp IH|x y l|l1 l2 l3 H1 IH1 H2 IH2]; intros a Hf Hc; simpl.
  - done.
  - apply Forall_cons in Hf as [_ Hf]. apply IH; [done|by apply merge_count].
  - apply Forall_cons in Hf as [Hy Hf]. apply Forall_cons in Hf as [Hx _]. by rewrite merge_swap by congruence.
  - rewrite IH1 by done. apply IH2; [|done]. by rewrite <- H1.
Qed.

(** The events of a row. *)
Definition belongs (warningsOnly : bool) (key : EventGroupKey) (e : NormalizedEvent) : bool :=
  bool_decide (key_of e = key) && negb (warningsOnly && negb (String.eqb (gk_Type key) "Warning")).
Lemma group_map_lookup w events key :
  group_map w events !! key =
    match List.filter (belongs w key) events with [] => None | es => Some (foldl merge_event (no_aggregate key) es) end.
Proof.
  unfold group_map. induction events as [|e events IH] using rev_ind; [done|].
  rewrite foldl_snoc, List.filter_app. unfold group_event at 1. unfold belongs at 2. cbn [List.filter].
  destruct (w && negb (String.eqb (gk_Type (key_of e)) "Warning")) eqn:Hw.
  - destruct (bool_decide_reflect (key_of e = key)) as [<-|Hk]; rewrite ?Hw; simpl; by rewrite app_nil_r.
  - destruct (bool_decide_reflect (key_of e = key)) as [<-|Hk]; cbn [andb].
    + rewrite Hw. cbn [negb]. rewrite lookup_insert_eq. unfold get_or. rewrite IH.
      destruct (List.filter _ events) as [|x l]; simpl; [done|]. by rewrite foldl_app.
    + by rewrite lookup_insert_ne, app_nil_r.
Qed.
Lemma belongs_key w key e : belongs w key e = true → key_of e = key.
Proof. unfold belongs. rewrite andb_true_iff, bool_decide_eq_true. tauto. Qed.
Lemma filter_belongs_key w key events : Forall (λ e, key_of e = key) (List.filter (belongs w key) events).
Proof. apply Forall_forall. intros e [_ He]%list_elem_of_In%List.filter_In. by eapply belongs_key. Qed.
Lemma no_aggregate_count key : (0 ≤ ag_count (no_aggregate key) ≤ MaxInt64)%Z.
Proof. unfold MaxInt64. simpl. lia. Qed.
Lemma group_map_perm w events events' : events ≡ₚ events' → group_map w events = group_map w events'.
Proof.
  intros Hp. apply map_eq. intros key. rewrite !group_map_lookup.
  assert (List.filter (belongs w key) events ≡ₚ List.filter (belongs w key) events') as Hf by by rewrite Hp.
  destruct (List.filter (belongs w key) events) as [|e l] eqn:He.
  { by apply Permutation_nil in Hf as ->. }
  destruct (List.filter (belongs w key) events') as [|e' l']; [by symmetry in Hf; apply Permutation_nil in Hf|]. f_equal.
  apply (merge_all_perm key); [done|rewrite <- He; apply filter_belongs_key|apply no_aggregate_count].
Qed.

(** The occurrences of some events. *)
Definition occurrences (es : list NormalizedEvent) : Z := sum_Z ((λ e, Z.max 0 (ne_Count e)) <$> es).
Lemma occurrences_cons e es : occurrences (e :: es) = (Z.max 0 (ne_Count e) + occurrences es)%Z.
Proof. done. Qed.
Lemma occurrences_nonneg es : (0 ≤ occurrences es)%Z.
Proof. apply sum_Z_nonneg, Forall_fmap, Forall_forall. intros e _. simpl. lia. Qed.

Lemma merge_all_key key a es : Forall (λ e, key_of e = key) es → ag_key a = key → ag_key (foldl merge_event a es) = key.
Proof. intros Hf. revert a. induction Hf; intros a Ha; simpl; auto. Qed.
Lemma merge_all_count a es :
  (0 ≤ ag_count a ≤ MaxInt64)%Z →
  ag_count (foldl merge_event a es) = Z.min MaxInt64 (ag_count a + occurrences es).
Proof.
  revert a. induction es as [|e es IH]; intros a Ha; cbn [foldl]; [unfold occurrences, sum_Z; simpl; lia|].
  rewrite IH by by apply merge_count. rewrite occurrences_cons. pose proof (occurrences_nonneg es).
  simpl. rewrite saturating_add_min by done. lia.
Qed.
Lemma merge_all_mark a es e : e ∈ es → mark_less (event_mark e) (mark (foldl merge_event a es)) = false.
Proof.
  induction es as [|x es IH] using rev_ind; [by intros ?%not_elem_of_nil|]. rewrite foldl_snoc, merge_mark. unfold least.
  intros [He| ->%list_elem_of_singleton]%elem_of_app.
  - destruct (mark_less (event_mark x) _) eqn:Hx; [|by apply IH]. specialize (IH He).
    destruct (mark_less (event_mark e) (event_mark x)) eqn:E; [|done]. pose proof (swo_trans _ _ _ E Hx). congruence.
  - destruct (mark_less (event_mark x) _) eqn:Hx; [apply swo_irrefl|done].
Qed.

(** ** What grouping promises *)

Definition shown_event (warningsOnly : bool) (e : NormalizedEvent) : bool :=
  negb (warningsOnly && negb (String.eqb (normalizeEventType (ne_Type e)) "Warning")).

(** What two events share to be shown in one row. *)
Definition identity (e : NormalizedEvent) :=
  (ne_Namespace e, ne_RegardingKind e, ne_RegardingName e, ne_RegardingUID e,
   (normalizeEventType (ne_Type e), ne_Reason e, ne_Message e, ne_Source e)).
(** The events of a row, the newest instant among them, and the least UID at this instant. An
    event without an instant has no say. *)
Record event_group := { eg_events : list NormalizedEvent; eg_newest : instant; eg_uid : string }.
Definition eg_namespace (g : event_group) : string :=
  match eg_events g with e :: _ => ne_Namespace e | [] => "" end.
Record group_ok (g : event_group) : Prop := {
  eg_some : eg_events g ≠ [];
  eg_same : ∀ e e', e ∈ eg_events g → e' ∈ eg_events g → identity e = identity e';
  eg_last : ∀ e, e ∈ eg_events g → (ne_ObservedAt e ≤ eg_newest g)%Z;
  eg_least : ∀ e, e ∈ eg_events g → ne_ObservedAt e = eg_newest g → str_lt (ne_UID e) (eg_uid g) = false;
  eg_from : eg_newest g = 0%Z ∧ eg_uid g = ""
            ∨ ∃ e, e ∈ eg_events g ∧ ne_ObservedAt e = eg_newest g ∧ ne_UID e = eg_uid g }.
(** The row of a group, from any of its events. *)
Definition group_row (sha256hex : string → string) (format : instant → string) (g : event_group) (e : NormalizedEvent)
    : EventDTO :=
  let timestamp := if (eg_newest g =? 0)%Z then None else Some (format (eg_newest g)) in {|
  ev_Timestamp := timestamp; ev_Namespace := ne_Namespace e;
  ev_ObjectKind := sanitizeText (ne_RegardingKind e) MaximumStatusBytes;
  ev_ObjectName := sanitizeText (ne_RegardingName e) MaximumStatusBytes;
  ev_Reason := sanitizeText (ne_Reason e) MaximumStatusBytes;
  ev_Message := sanitizeText (ne_Message e) MaximumProblemText;
  ev_Count := Z.min MaxInt64 (occurrences (eg_events g));
  ev_Source := stringPointer (sanitizeText (ne_Source e) MaximumStatusBytes);
  ev_Type := normalizeEventType (ne_Type e);
  ev_cursorIdentity := Join [default "" timestamp; ne_Namespace e; eg_uid g;
    sha256hex (Join [ne_RegardingKind e; ne_RegardingName e; ne_RegardingUID e; normalizeEventType (ne_Type e);
                     ne_Reason e; ne_Message e; ne_Source e] nul)] nul |}.
Definition shown_as (sha256hex : string → string) (format : instant → string) (g : event_group) (row : EventDTO) : Prop :=
  ∀ e, e ∈ eg_events g → row = group_row sha256hex format g e.
(** Newest first, then by namespace and UID. *)
Definition group_less (l r : event_group) : bool :=
  (eg_newest r <? eg_newest l)%Z
  || (eg_newest l =? eg_newest r)%Z
     && (str_lt (eg_namespace l) (eg_namespace r)
         || String.eqb (eg_namespace l) (eg_namespace r) && str_lt (eg_uid l) (eg_uid r)).

Lemma belongs_shown w key e : belongs w key e = bool_decide (key_of e = key) && shown_event w e.
Proof. unfold belongs, shown_event. by destruct (bool_decide_reflect (key_of e = key)) as [<-|]. Qed.
Lemma key_of_identity e e' : key_of e = key_of e' ↔ identity e = identity e'.
Proof. unfold key_of, identity. split; [by intros [=]; f_equal; congruence|by intros [=]; f_equal]. Qed.

Lemma filter_split {A} (p q : A → bool) l :
  (∀ x, p x = true → q x = true → False) →
  List.filter p l ++ List.filter q l ≡ₚ List.filter (λ x, p x || q x) l.
Proof.
  intros Hd. induction l as [|x l IH]; simpl; [done|].
  destruct (p x) eqn:Hp, (q x) eqn:Hq; simpl; [by destruct (Hd x)| | |done].
  - by rewrite IH.
  - by rewrite <- Permutation_middle, IH.
Qed.
Lemma filter_ext_elem {A} (p q : A → bool) l : (∀ x, x ∈ l → p x = q x) → List.filter p l = List.filter q l.
Proof.
  intros Hp. induction l as [|x l IH]; simpl; [done|]. rewrite (Hp x) by by left.
  rewrite IH by (intros y Hy; apply Hp; by right). done.
Qed.
Lemma sorted_by_fmap {A B} (less : A → A → bool) (less' : B → B → bool) (f : A → B) l :
  (∀ x y, x ∈ l → y ∈ l → less' (f x) (f y) = less x y) → sorted_by less l → sorted_by less' (f <$> l).
Proof.
  intros Hf Hs. unfold sorted_by in *. induction Hs as [|x l Hs IH Hx]; [constructor|]. rewrite fmap_cons. constructor.
  - apply IH. intros y z Hy Hz. apply Hf; by right.
  - apply Forall_fmap, Forall_forall. intros y Hy. simpl. rewrite Hf by (by left || by right).
    rewrite Forall_forall in Hx. by apply Hx.
Qed.
#[export] Instance aggregate_less_swo : StrictWeakOrder aggregate_less.
Proof. apply (lex_Z_down ag_observed), (lex_str (gk_Namespace ∘ ag_key)), (key_swo ag_uid str_lt). Qed.

(** The groups of some keys hold the shown events of these keys, each once. *)
Lemma groups_partition w events keys :
  NoDup keys →
  concat ((λ key, List.filter (belongs w key) events) <$> keys)
  ≡ₚ List.filter (λ e, bool_decide (key_of e ∈ keys) && shown_event w e) events.
Proof.
  induction 1 as [|key keys Hk _ IH].
  { induction events as [|e events IH]; [done|]. cbn [List.filter].
    destruct (bool_decide_reflect (key_of e ∈ [])) as [Hin|_]; [by apply not_elem_of_nil in Hin|exact IH]. }
  rewrite fmap_cons. cbn [concat]. rewrite IH, filter_split.
  - erewrite List.filter_ext; [reflexivity|]. intros e. cbv beta. rewrite belongs_shown.
    destruct (shown_event w e); rewrite ?andb_false_r, ?andb_true_r; [|done].
    apply eq_true_iff_eq. rewrite orb_true_iff, !bool_decide_eq_true. set_solver.
  - intros e. rewrite belongs_shown, !andb_true_iff, !bool_decide_eq_true. intros [-> _] [? _]. done.
Qed.

Lemma merge_all_from a es :
  mark (foldl merge_event a es) = mark a ∨ ∃ e, e ∈ es ∧ mark (foldl merge_event a es) = event_mark e.
Proof.
  induction es as [|x es IH] using rev_ind; [by left|]. rewrite foldl_snoc, merge_mark. unfold least.
  destruct (mark_less (event_mark x) _); [right; exists x; set_solver|].
  destruct IH as [IH|(e & He & IH)]; [by left|right]. exists e. split; [set_solver|done].
Qed.

Section grouping.
Context `{SliceSortOk} (sha256hex : string → string) (format : instant → string)
  (order : list aggregate → list aggregate) (warningsOnly : bool) (events : list NormalizedEvent).
Context (order_perm : ∀ l, order l ≡ₚ l).

Let items := sort_Slice aggregate_less (order (snd <$> map_to_list (group_map warningsOnly events))).
Definition group_of (a : aggregate) : event_group := {|
  eg_events := List.filter (belongs warningsOnly (ag_key a)) events; eg_newest := ag_observed a; eg_uid := ag_uid a |}.

Lemma items_perm : items ≡ₚ snd <$> map_to_list (group_map warningsOnly events).
Proof. unfold items. by rewrite sort_Slice_perm, order_perm. Qed.
Lemma aggregate_spec key a :
  group_map warningsOnly events !! key = Some a →
  ag_key a = key ∧ eg_events (group_of a) ≠ [] ∧ a = foldl merge_event (no_aggregate key) (eg_events (group_of a)).
Proof.
  rewrite group_map_lookup. intros Ha.
  assert (ag_key a = key) as Hk.
  { destruct (List.filter (belongs warningsOnly key) events) as [|x l] eqn:He; [done|]. injection Ha as <-.
    apply (merge_all_key key (no_aggregate key) (x :: l)); [rewrite <- He; apply filter_belongs_key|done]. }
  unfold group_of. cbn [eg_events]. rewrite Hk. destruct (List.filter _ events); [done|]. by injection Ha as <-.
Qed.
Lemma item_group a : a ∈ items → ∃ key, group_map warningsOnly events !! key = Some a.
Proof.
  rewrite items_perm. intros ([key v] & -> & Hk%elem_of_map_to_list)%list_elem_of_fmap. by exists key.
Qed.
Lemma group_of_event a e : e ∈ eg_events (group_of a) → key_of e = ag_key a.
Proof. intros [_ He]%list_elem_of_In%List.filter_In. by eapply belongs_key. Qed.

Lemma group_of_ok a : a ∈ items → group_ok (group_of a).
Proof.
  intros (key & Ha)%item_group. destruct (aggregate_spec key a Ha) as (Hk & Hne & Hfold).
  assert (∀ e, e ∈ eg_events (group_of a) → mark_less (event_mark e) (mark a) = false) as Hmark
    by (intros e He; rewrite Hfold; by apply merge_all_mark).
  split; [done| | | |].
  - intros e e' He He'. apply key_of_identity. by rewrite !(group_of_event a).
  - intros e He. specialize (Hmark e He). unfold mark_less in Hmark. simpl in *.
    destruct (Z.eqb_spec (ne_ObservedAt e) (ag_observed a)); simpl in Hmark; [lia|]. bool_to_prop. lia.
  - intros e He Ho. specialize (Hmark e He). unfold mark_less in Hmark. simpl in *. by rewrite Ho, Z.eqb_refl in Hmark.
  - destruct (merge_all_from (no_aggregate key) (eg_events (group_of a))) as [Hm|(e & He & Hm)]; rewrite <- Hfold in Hm.
    + left. unfold mark in Hm. simpl in *. by injection Hm.
    + right. exists e. unfold mark, event_mark in Hm. injection Hm as Ho Hu. done.
Qed.
Lemma group_of_row a : a ∈ items → shown_as sha256hex format (group_of a) (event_row sha256hex format a).
Proof.
  intros (key & Ha)%item_group e He. destruct (aggregate_spec key a Ha) as (Hk & _ & Hfold).
  assert (ag_count a = Z.min MaxInt64 (occurrences (eg_events (group_of a)))) as Hc.
  { rewrite Hfold at 1. rewrite merge_all_count by apply no_aggregate_count. by rewrite Z.add_0_l. }
  apply group_of_event in He. unfold event_row, group_row. rewrite <- He, Hc. done.
Qed.

Lemma items_keys : NoDup (ag_key <$> items).
Proof.
  rewrite items_perm, <- list_fmap_compose.
  assert ((ag_key ∘ snd) <$> map_to_list (group_map warningsOnly events) = fst <$> map_to_list (group_map warningsOnly events)) as ->.
  { apply list_fmap_ext. intros i [key a] Hi%list_elem_of_lookup_2%elem_of_map_to_list. simpl. by apply aggregate_spec in Hi as [? _]. }
  apply NoDup_fst_map_to_list.
Qed.
Lemma shown_in_items e : e ∈ events → shown_event warningsOnly e = true → key_of e ∈ ag_key <$> items.
Proof.
  intros He Hs. assert (is_Some (group_map warningsOnly events !! key_of e)) as [a Ha].
  { rewrite group_map_lookup. assert (e ∈ List.filter (belongs warningsOnly (key_of e)) events) as Hin.
    { apply list_elem_of_In, List.filter_In. split; [by apply list_elem_of_In|]. rewrite belongs_shown, Hs.
      by rewrite bool_decide_eq_true_2. }
    destruct (List.filter _ events); [by apply not_elem_of_nil in Hin|done]. }
  apply list_elem_of_fmap. exists a. split; [by apply aggregate_spec in Ha as [? _]|]. rewrite items_perm.
  apply list_elem_of_fmap. exists (key_of e, a). split; [done|]. by apply elem_of_map_to_list.
Qed.
Lemma groups_hold_all : concat (eg_events <$> (group_of <$> items)) ≡ₚ List.filter (shown_event warningsOnly) events.
Proof.
  rewrite <- list_fmap_compose.
  assert ((eg_events ∘ group_of) <$> items = (λ key, List.filter (belongs warningsOnly key) events) <$> (ag_key <$> items)) as ->
    by (by rewrite <- list_fmap_compose).
  rewrite groups_partition by apply items_keys.
  erewrite filter_ext_elem; [reflexivity|]. intros e He. destruct (shown_event warningsOnly e) eqn:Hs; [|by rewrite andb_false_r].
  by rewrite bool_decide_eq_true_2 by by apply shown_in_items.
Qed.
Lemma groups_distinct i j a a' e e' :
  items !! i = Some a → items !! j = Some a' → e ∈ eg_events (group_of a) → e' ∈ eg_events (group_of a') →
  identity e = identity e' → i = j.
Proof.
  intros Hi Hj He%group_of_event He'%group_of_event Hid%key_of_identity.
  eapply (NoDup_lookup (ag_key <$> items)); [apply items_keys| |]; rewrite list_lookup_fmap.
  - by rewrite Hi.
  - rewrite Hj. simpl. congruence.
Qed.
Lemma groups_sorted : sorted_by group_less (group_of <$> items).
Proof.
  assert (∀ a, a ∈ items → eg_namespace (group_of a) = gk_Namespace (ag_key a)) as Hns.
  { intros a Ha. pose proof (group_of_ok a Ha) as [Hne _ _ _ _]. unfold eg_namespace.
    destruct (eg_events (group_of a)) as [|e l] eqn:He; [done|].
    rewrite <- (group_of_event a e); [done|]. rewrite He. by left. }
  apply (sorted_by_fmap aggregate_less); [|by apply sort_Slice_sorted, aggregate_less_swo].
  intros a b Ha Hb. unfold group_less, aggregate_less. rewrite !Hns by done. cbn [eg_newest eg_uid group_of].
  destruct (Z.eqb_spec (ag_observed a) (ag_observed b)) as [->|Hne]; cbn [negb].
  - rewrite Z.ltb_irrefl. cbn [orb andb]. destruct (String.eqb_spec (gk_Namespace (ag_key a)) (gk_Namespace (ag_key b))) as [->|];
      cbn [negb andb orb]; [by rewrite swo_irrefl|by rewrite orb_false_r].
  - by rewrite orb_false_r.
Qed.
End grouping.

(** C34: grouping loses and invents nothing. The rows are exactly the rows of a partition of
    the events that are shown: every such event is in one group, the events of a group have one
    identity and those of two groups have different ones. Each row shows the fields of its
    events, the number of their occurrences - up to the largest integer - and the newest of
    their instants, if any has one, and the rows are sorted, newest first. They do not depend
    on the order in which the API lists the events nor on the order of the walk over the
    groups. *)
Theorem events_grouped_exactly `{SliceSortOk} sha256hex format (order order' : list aggregate → list aggregate)
    (warningsOnly : bool) (events events' : list NormalizedEvent) :
  (∀ l, order l ≡ₚ l) → (∀ l, order' l ≡ₚ l) → events ≡ₚ events' →
  let rows := groupEvents sha256hex format order events warningsOnly in
  (∃ groups : list event_group,
     Forall2 (shown_as sha256hex format) groups rows ∧ Forall group_ok groups
     ∧ concat (eg_events <$> groups) ≡ₚ List.filter (shown_event warningsOnly) events
     ∧ (∀ i j g g' e e', groups !! i = Some g → groups !! j = Some g' → e ∈ eg_events g → e' ∈ eg_events g' →
          identity e = identity e' → i = j)
     ∧ sorted_by group_less groups)
  ∧ rows ≡ₚ groupEvents sha256hex format order' events' warningsOnly.
Proof.
  intros Ho Ho' Hp rows. split.
  - set (items := sort_Slice aggregate_less (order (snd <$> map_to_list (group_map warningsOnly events)))).
    exists (group_of warningsOnly events <$> items). split_and!.
    + unfold rows, groupEvents. fold items. apply Forall2_fmap, Forall_Forall2_diag, Forall_forall. intros a Ha.
      by apply (group_of_row sha256hex format order).
    + apply Forall_fmap, Forall_forall. intros a Ha.
      by apply (group_of_ok order).
    + by apply (groups_hold_all order).
    + intros i j g g' e e' (a & -> & Hi)%list_lookup_fmap_Some (a' & -> & Hj)%list_lookup_fmap_Some. 
      by eapply (groups_distinct order).
    + by apply (groups_sorted order).
  - unfold rows, groupEvents. apply fmap_Permutation. by rewrite !sort_Slice_perm, Ho, Ho', (group_map_perm _ _ _ Hp).
Qed.

(** ** Occurrences *)

Lemma occurrence_count_min rows c :
  (0 ≤ c ≤ MaxInt64)%Z → Forall (λ r, 0 ≤ ev_Count r)%Z rows →
  occurrence_count rows c = Z.min MaxInt64 (c + sum_Z (ev_Count <$> rows)).
Proof.
  intros Hc Hr. revert c Hc. induction Hr as [|r rows Hr Hrows IH]; intros c Hc; cbn [occurrence_count]; [unfold sum_Z; simpl; lia|].
  rewrite fmap_cons, sum_Z_cons. assert (0 ≤ sum_Z (ev_Count <$> rows))%Z by by apply sum_Z_nonneg, Forall_fmap.
  destruct (Z.leb_spec (ev_Count r) 0); [rewrite IH by done; f_equal; lia|].
  destruct (Z.ltb_spec (MaxInt64 - ev_Count r) c); [lia|]. rewrite IH by lia. f_equal. lia.
Qed.

Lemma group_map_count w events key a : group_map w events !! key = Some a → (0 ≤ ag_count a ≤ MaxInt64)%Z.
Proof.
  rewrite group_map_lookup. destruct (List.filter _ _) as [|e l]; [done|]. intros [= <-].
  rewrite merge_all_count by apply merge_count, no_aggregate_count.
  pose proof (merge_count (no_aggregate key) e (no_aggregate_count key)). pose proof (occurrences_nonneg l). lia.
Qed.
Lemma group_map_total w events :
  Z.min MaxInt64 (map_sum ag_count (group_map w events)) = Z.min MaxInt64 (occurrences (List.filter (shown_event w) events)).
Proof.
  induction events as [|e events IH] using rev_ind; [done|]. unfold occurrences. rewrite List.filter_app, fmap_app, sum_Z_app.
  fold (occurrences (List.filter (shown_event w) events)) (occurrences (List.filter (shown_event w) [e])).
  unfold group_map. rewrite foldl_snoc. fold (group_map w events). unfold group_event. cbn [List.filter]. unfold shown_event at 2.
  change (gk_Type (key_of e)) with (normalizeEventType (ne_Type e)).
  destruct (w && negb _); cbn [negb]; [by rewrite Z.add_0_r|]. rewrite occurrences_cons. change (occurrences []) with 0%Z.
  pose proof (λ k v, group_map_count w events k v) as Hrange.
  assert (0 ≤ map_sum ag_count (group_map w events))%Z as Hpos by (apply map_sum_nonneg; intros k v Hk; apply Hrange in Hk; lia).
  pose proof (occurrences_nonneg (List.filter (shown_event w) events)).
  destruct (group_map w events !! key_of e) as [a|] eqn:Ha; unfold get_or; rewrite Ha; simpl default.
  - rewrite (map_sum_overwrite _ _ _ a) by done. pose proof (Hrange _ _ Ha). simpl ag_count. rewrite saturating_add_min by done.
    assert (ag_count a ≤ map_sum ag_count (group_map w events))%Z; [|lia].
    rewrite <- (insert_delete_id _ _ _ Ha), map_sum_insert by apply lookup_delete_eq.
    assert (0 ≤ map_sum ag_count (delete (key_of e) (group_map w events)))%Z; [|lia].
    apply map_sum_nonneg. intros k v [_ Hk]%lookup_delete_Some. apply Hrange in Hk. lia.
  - rewrite map_sum_insert by done. simpl ag_count. rewrite saturating_add_min by (unfold MaxInt64; lia). lia.
Qed.

(** The number of warning events on the summary is the number of occurrences of the
    events that were collected, up to the largest integer: neither the grouping nor the
    formatting of rows changes it. *)
Lemma occurrences_survive_grouping `{SliceSortOk} sha256hex format (order : list aggregate → list aggregate)
    (warningsOnly : bool) (events : list NormalizedEvent) :
  (∀ l, order l ≡ₚ l) →
  eventOccurrenceCount (groupEvents sha256hex format order events warningsOnly)
  = Z.min MaxInt64 (occurrences (List.filter (shown_event warningsOnly) events)).
Proof.
  intros Ho. rewrite <- group_map_total. unfold eventOccurrenceCount, groupEvents.
  set (items := sort_Slice _ _). assert (items ≡ₚ (map_to_list (group_map warningsOnly events)).*2) as Hi.
  { unfold items. by rewrite sort_Slice_perm, Ho. }
  assert (∀ a, a ∈ items → (0 ≤ ag_count a)%Z) as Hpos.
  { intros a Ha. rewrite Hi in Ha. apply list_elem_of_fmap in Ha as ([k v] & -> & Hk%elem_of_map_to_list).
    apply group_map_count in Hk. simpl. lia. }
  rewrite occurrence_count_min; [|unfold MaxInt64; lia|].
  - rewrite Z.add_0_l, <- list_fmap_compose. f_equal. unfold map_sum.
    trans (sum_Z (ag_count <$> (map_to_list (group_map warningsOnly events)).*2)).
    { change (ev_Count ∘ event_row sha256hex format) with ag_count. by rewrite Hi. }
    clear. rewrite map_fold_foldr. induction (map_to_list (group_map warningsOnly events)) as [|[k v] l IH]; [done|].
    rewrite !fmap_cons. rewrite sum_Z_cons. rewrite IH. done.
  - apply Forall_fmap, Forall_forall. intros a Ha. by apply Hpos.
Qed.

(** Two warnings and a normal event about one object. *)
Definition demo_warning (uid type : string) (count : Z) (observed : instant) : NormalizedEvent := {|
  ne_UID := uid; ne_Namespace := "shop"; ne_RegardingKind := "Pod"; ne_RegardingName := "cart"; ne_RegardingUID := "u";
  ne_Type := type; ne_Reason := "BackOff"; ne_Message := "m"; ne_Count := count; ne_Source := "kubelet"; ne_ObservedAt := observed |}.
Definition demo_batch : list NormalizedEvent :=
  [demo_warning "u1" "Warning" 3 5%Z; demo_warning "u2" "warning" 4 7%Z; demo_warning "u3" "Normal" 9 8%Z].
Lemma events_grouped_exactly_witness :
  let rows := @groupEvents stable_slice_sort id (λ _, "t") id demo_batch true in
  ev_Count <$> rows = [7%Z]
  ∧ rows ≡ₚ @groupEvents stable_slice_sort id (λ _, "t") (@rev _) (rev demo_batch) true.
Proof.
  intros rows. split; [by vm_compute|].
  apply (@events_grouped_exactly stable_slice_sort stable_slice_sort_ok id (λ _, "t") id (@rev _) true demo_batch (rev demo_batch)).
  - reflexivity.
  - intros l. symmetry. apply Permutation_rev.
  - apply Permutation_rev.
Defined.
