(* ===== verification/DashboardSummary.v ===== *)
(** * DashboardSummary: the counters of the dashboard and the pod metrics

    Models summary.go, metrics.go and the counters of dto.go of
    src/internal/services/dashboard. The services of the summary run concurrently and share
    nothing; a summary is a function of what they answer, [None] for a service that is
    missing. Quantities of the metrics API arrive as the integers that its own library
    returns for them. *)
From Stdlib Require Import Ascii String ZArith Lia.
From stdpp Require Import base gmap strings list sorting.
From S2P Require Import Prelude Dashboard DashboardPods DashboardProblems DashboardWorkloads DashboardEvents.
Local Open Scope string_scope.
Local Open Scope list_scope.

(** ** Counters *)

Inductive CounterState :=
| CounterAvailable | CounterDenied | CounterUnavailable | CounterNotCollected | CounterCollecting | CounterTruncated
| CounterOther (state : string).
Record CounterDTO := { ct_State : CounterState; ct_Value : option Z }.

Definition AvailableCounter (value : Z) : CounterDTO := {|
  ct_State := CounterAvailable; ct_Value := Some (if (value <? 0)%Z then 0%Z else value) |}.
Definition TruncatedCounter (value : Z) : CounterDTO := {|
  ct_State := CounterTruncated; ct_Value := Some (if (value <? 0)%Z then 0%Z else value) |}.
Definition EmptyCounter (state : CounterState) : CounterDTO :=
  match state with
  | CounterDenied | CounterUnavailable | CounterNotCollected | CounterCollecting => {| ct_State := state; ct_Value := None |}
  | _ => {| ct_State := CounterUnavailable; ct_Value := None |}
  end.
Definition onlyDenied (errors : list PartialError) : bool :=
  negb (bool_decide (errors = [])) && forallb (λ e, String.eqb (pe_Code e) CodeForbidden) errors.
Definition counterForBlock (value : Z) (complete truncated : bool) (errors : list PartialError) : CounterDTO :=
  if truncated then TruncatedCounter value
  else if complete then AvailableCounter value
  else if onlyDenied errors then EmptyCounter CounterDenied
  else EmptyCounter CounterUnavailable.
Definition normalizeLogCounter (value : CounterDTO) : CounterDTO :=
  match ct_State value with
  | CounterAvailable | CounterTruncated =>
    match ct_Value value with
    | Some v => if (v <? 0)%Z then EmptyCounter CounterUnavailable else {| ct_State := ct_State value; ct_Value := Some v |}
    | None => EmptyCounter CounterUnavailable
    end
  | CounterDenied | CounterUnavailable | CounterNotCollected | CounterCollecting =>
    {| ct_State := ct_State value; ct_Value := None |}
  | CounterOther _ => EmptyCounter CounterNotCollected
  end.
Definition state_is (c : CounterDTO) (s : CounterState) : bool :=
  match ct_State c, s with
  | CounterAvailable, CounterAvailable | CounterDenied, CounterDenied | CounterUnavailable, CounterUnavailable
  | CounterNotCollected, CounterNotCollected | CounterCollecting, CounterCollecting | CounterTruncated, CounterTruncated => true
  | _, _ => false
  end.

(** ** The summary *)

Record SummaryDTO := {
  sm_Namespaces : CounterDTO; sm_PodsTotal : CounterDTO; sm_PodsHealthy : CounterDTO; sm_PodsProblematic : CounterDTO;
  sm_WorkloadsDegraded : CounterDTO; sm_Restarts : CounterDTO; sm_WarningEvents : CounterDTO;
  sm_PossibleLogMatches : CounterDTO }.

Definition block_counter {T} (value : Z) (b : DashboardBlockDTO T) : CounterDTO :=
  counterForBlock value (bk_Complete b) (bk_Truncated b) (bk_Errors b).
Definition Summary (podService : option (DashboardBlockDTO PodOverview))
    (workloadService : option (DashboardBlockDTO (list WorkloadDTO))) (eventService : option (DashboardBlockDTO (list EventDTO)))
    (selected : list string) (possibleLogMatches : CounterDTO) : DashboardBlockDTO SummaryDTO :=
  let pods := default (unavailable_block {| ov_Total := 0; ov_Healthy := 0; ov_Problematic := 0; ov_Restarts := 0 |}) podService in
  let workloads := default (unavailable_block []) workloadService in
  let events := default (unavailable_block []) eventService in
  let logCounter := normalizeLogCounter possibleLogMatches in
  Build_DashboardBlockDTO {|
    sm_Namespaces := AvailableCounter (Z.of_nat (length (canonicalNamespaces selected)));
    sm_PodsTotal := block_counter (ov_Total (bk_Value pods)) pods;
    sm_PodsHealthy := block_counter (ov_Healthy (bk_Value pods)) pods;
    sm_PodsProblematic := block_counter (ov_Problematic (bk_Value pods)) pods;
    sm_WorkloadsDegraded := block_counter (Z.of_nat (length (bk_Value workloads))) workloads;
    sm_Restarts := block_counter (ov_Restarts (bk_Value pods)) pods;
    sm_WarningEvents := block_counter (eventOccurrenceCount (bk_Value events)) events;
    sm_PossibleLogMatches := logCounter |}
    (bk_Complete pods && bk_Complete workloads && bk_Complete events
     && negb (state_is logCounter CounterCollecting) && negb (state_is logCounter CounterTruncated))
    (bk_Truncated pods || bk_Truncated workloads || bk_Truncated events || state_is logCounter CounterTruncated)
    None (bk_Errors pods ++ bk_Errors workloads ++ bk_Errors events).

Record NamespaceHealthDTO := {
  nd_Namespace : string; nd_ProblematicPods : Z; nd_ContainerRestarts : Z; nd_DegradedWorkloads : Z }.
Definition namespace_health (podService : option (DashboardBlockDTO (gmap string PodNamespaceHealth)))
    (workloadService : option (DashboardBlockDTO (gmap string Z))) (selected : list string)
    : DashboardBlockDTO (list NamespaceHealthDTO) :=
  let pods := default (unavailable_block ∅) podService in
  let workloads := default (unavailable_block ∅) workloadService in
  let values := (λ namespace,
    let entry := get_or (bk_Value pods) namespace {| nh_ProblematicPods := 0; nh_ContainerRestarts := 0 |} in {|
    nd_Namespace := namespace; nd_ProblematicPods := nh_ProblematicPods entry;
    nd_ContainerRestarts := nh_ContainerRestarts entry;
    nd_DegradedWorkloads := get_or (bk_Value workloads) namespace 0%Z |}) <$> canonicalNamespaces selected in
  mergeBlockCoverage (bk_Coverage workloads)
    (Build_DashboardBlockDTO values (bk_Complete pods && bk_Complete workloads) (bk_Truncated pods || bk_Truncated workloads)
       (bk_Coverage pods) (bk_Errors pods ++ bk_Errors workloads)).

(** ** Metrics *)

Record ContainerMetrics := { cm_Name : string; cm_CPUMillicores : Z; cm_MemoryBytes : Z }.
Record PodMetrics := { pm_Namespace : string; pm_Name : string; pm_Window : Z; pm_Containers : list ContainerMetrics }.
Record PodMetricDTO := {
  pt_Namespace : string; pt_Pod : string; pt_CPUMillicores : Z; pt_MemoryBytes : Z; pt_Containers : list ContainerMetrics }.
Record MetricRankDTO := { mr_Namespace : string; mr_Pod : string; mr_CPUMillicores : Z; mr_MemoryBytes : Z }.
Record MetricsDTO := {
  mt_CollectedAt : option instant; mt_WindowSeconds : Z; mt_Pods : list PodMetricDTO; mt_TopCPU : list MetricRankDTO;
  mt_TopMemory : list MetricRankDTO }.
Definition no_metrics : MetricsDTO := {|
  mt_CollectedAt := None; mt_WindowSeconds := 0; mt_Pods := []; mt_TopCPU := []; mt_TopMemory := [] |}.

(** [None] is [errInvalidMetric]. *)
Fixpoint sum_containers (containers : list ContainerMetrics) (cpu memory : Z) : option (Z * Z) :=
  match containers with
  | [] => Some (cpu, memory)
  | c :: containers =>
    if (cm_CPUMillicores c <? 0)%Z || (cm_MemoryBytes c <? 0)%Z || (MaxInt64 - cm_CPUMillicores c <? cpu)%Z
       || (MaxInt64 - cm_MemoryBytes c <? memory)%Z
    then None
    else sum_containers containers (cpu + cm_CPUMillicores c) (memory + cm_MemoryBytes c)
  end.
Definition lessMetricIdentity (l r : MetricRankDTO) : bool :=
  if negb (String.eqb (mr_Namespace l) (mr_Namespace r)) then str_lt (mr_Namespace l) (mr_Namespace r)
  else str_lt (mr_Pod l) (mr_Pod r).
Definition cpu_less (l r : MetricRankDTO) : bool :=
  if negb (mr_CPUMillicores l =? mr_CPUMillicores r)%Z then (mr_CPUMillicores r <? mr_CPUMillicores l)%Z else lessMetricIdentity l r.
Definition memory_less (l r : MetricRankDTO) : bool :=
  if negb (mr_MemoryBytes l =? mr_MemoryBytes r)%Z then (mr_MemoryBytes r <? mr_MemoryBytes l)%Z else lessMetricIdentity l r.
Definition pod_metric_less (l r : PodMetricDTO) : bool :=
  if negb (String.eqb (pt_Namespace l) (pt_Namespace r)) then str_lt (pt_Namespace l) (pt_Namespace r)
  else str_lt (pt_Pod l) (pt_Pod r).
Definition rank_of (p : PodMetricDTO) : MetricRankDTO := {|
  mr_Namespace := pt_Namespace p; mr_Pod := pt_Pod p; mr_CPUMillicores := pt_CPUMillicores p; mr_MemoryBytes := pt_MemoryBytes p |}.

Section metrics.
Context `{SliceSort}.

Definition pod_metric (metric : PodMetrics) : option PodMetricDTO :=
  '(cpu, memory) ← sum_containers (pm_Containers metric) 0 0;
  Some {| pt_Namespace := pm_Namespace metric; pt_Pod := pm_Name metric; pt_CPUMillicores := cpu; pt_MemoryBytes := memory;
          pt_Containers := sort_Slice (λ l r, str_lt (cm_Name l) (cm_Name r)) (pm_Containers metric) |}.
(** The pods and the largest window so far. *)
Fixpoint build_pods (values : list PodMetrics) (pods : list PodMetricDTO) (window : Z) : option (list PodMetricDTO * Z) :=
  match values with
  | [] => Some (pods, window)
  | metric :: values =>
    if (pm_Window metric <=? 0)%Z then None
    else
      let window := if (window <? pm_Window metric)%Z then pm_Window metric else window in
      match pod_metric metric with
      | Some pod => build_pods values (pods ++ [pod]) window
      | None => None
      end
  end.
Definition buildMetrics (values : list PodMetrics) (capturedAt : instant) (emptyWindow : Z) : option MetricsDTO :=
  '(pods, window) ← build_pods values [] 0;
  let window := if (window =? 0)%Z then emptyWindow else window in
  if (window =? 0)%Z then None
  else
    let seconds := Z.quot window Second in
    if (seconds <=? 0)%Z then None
    else
      let pods := sort_Slice pod_metric_less pods in
      let ranks := rank_of <$> pods in
      Some {| mt_CollectedAt := Some capturedAt; mt_WindowSeconds := seconds; mt_Pods := pods;
              mt_TopCPU := take 10 (sort_Slice cpu_less ranks); mt_TopMemory := take 10 (sort_Slice memory_less ranks) |}.
Definition BuildMetrics (values : list PodMetrics) (capturedAt : instant) : option MetricsDTO := buildMetrics values capturedAt 0.

(** What the authorizer answers. *)
Inductive PermissionDecision := PermissionAllowed | PermissionDenied | PermissionUnknown | PermissionOther (s : string).
Record MetricsPage := { mp_Items : list PodMetrics; mp_Continue : string; mp_Window : Z }.

Context (expired : nat → option failure) (Available : nat → result failure bool)
  (CanListPodMetrics : nat → string → result failure PermissionDecision)
  (ListPodMetrics : nat → string → Z → string → result failure MetricsPage) (capturedAt : instant) (budget : QueryBudget).

Record loaded_metrics := {
  lm_items : list PodMetrics; lm_window : Z; lm_complete : bool; lm_truncated : bool; lm_error : option failure }.
Definition metricsCollectionWindow (sample observation : Z) : Z := if (0 <? sample)%Z then sample else observation.
Fixpoint load_metric_pages (pages : nat) (maximumItems : Z) (namespace continuation : string) (result : list PodMetrics)
    (sample observation : Z) (k : nat) : loaded_metrics * nat :=
  let done items sample observation complete truncated error := {|
    lm_items := items; lm_window := metricsCollectionWindow sample observation; lm_complete := complete;
    lm_truncated := truncated; lm_error := error |} in
  match pages with
  | O => (done result sample observation false (negb (String.eqb continuation "")) None, k)
  | S pages =>
    let remaining := (maximumItems - Z.of_nat (length result))%Z in
    if (remaining <=? 0)%Z then (done result sample observation false true None, k)
    else
      match expired k with
      | Some e => (done result sample observation false false (Some e), k)
      | None =>
        match ListPodMetrics k namespace (qb_PageSize budget) continuation with
        | Err e => (done result sample observation false false (Some e), S k)
        | Ok response =>
          let pageWindow := match mp_Items response with
                            | first :: _ => if (mp_Window response =? 0)%Z then pm_Window first else mp_Window response
                            | [] => mp_Window response
                            end in
          let sampled := negb (bool_decide (mp_Items response = [])) in
          let sample := if sampled && (0 <? pageWindow)%Z && (sample <? pageWindow)%Z then pageWindow else sample in
          let observation := if negb sampled && (observation <? pageWindow)%Z then pageWindow else observation in
          if (remaining <? Z.of_nat (length (mp_Items response)))%Z
          then (done (result ++ take (Z.to_nat remaining) (mp_Items response)) sample observation false true None, S k)
          else
            let result := result ++ mp_Items response in
            if String.eqb (mp_Continue response) "" then (done result sample observation true false None, S k)
            else load_metric_pages pages maximumItems namespace (mp_Continue response) result sample observation (S k)
        end
      end
  end.
Definition loadMetricNamespace (maximumItems : Z) (namespace : string) (k : nat) : loaded_metrics * nat :=
  load_metric_pages (Z.to_nat (qb_MaxPages budget)) maximumItems namespace "" [] 0 0 k.

(** Why a namespace is not listed; [authorizer] is false when there is none. *)
Definition not_permitted (authorizer : bool) (namespace : string) (k : nat) : option failure * nat :=
  if authorizer
  then (match CanListPodMetrics k namespace with
        | Err e => Some e
        | Ok PermissionAllowed => None
        | Ok PermissionDenied => Some NewDeniedError
        | Ok _ => Some NewAuthorizationUnavailableError
        end, S k)
  else (Some NewAuthorizationUnavailableError, k).
Fixpoint collect_metrics (authorizer : bool) (namespaces : list string) (all : list PodMetrics) (sample observation : Z)
    (block : DashboardBlockDTO MetricsDTO) (k : nat) : DashboardBlockDTO MetricsDTO * list PodMetrics * Z * Z :=
  match namespaces with
  | [] => (block, all, sample, observation)
  | namespace :: namespaces =>
    let remaining := (qb_MaxItems budget - Z.of_nat (length all))%Z in
    if (remaining <=? 0)%Z then (block_truncated block, all, sample, observation)
    else
      match not_permitted authorizer namespace k with
      | (Some e, k) => collect_metrics authorizer namespaces all sample observation (addBlockError namespace e block) k
      | (None, k) =>
        let '(l, k) := loadMetricNamespace remaining namespace k in
        let sampled := (0 <? lm_window l)%Z && negb (bool_decide (lm_items l = [])) in
        let observation := if negb sampled && (observation <? lm_window l)%Z then lm_window l else observation in
        let sample := if sampled && (sample <? lm_window l)%Z then lm_window l else sample in
        let all := all ++ lm_items l in
        match lm_error l with
        | Some e => collect_metrics authorizer namespaces all sample observation (addBlockError namespace e block) k
        | None =>
          let block := if lm_complete l then block_completed block else block in
          let block := if lm_truncated l then block_truncated block else block in
          collect_metrics authorizer namespaces all sample observation block k
        end
      end
  end.
(** [port] is false for a missing service or port. *)
Definition Collect (port authorizer : bool) (selected : list string) : DashboardBlockDTO MetricsDTO :=
  let namespaces := canonicalNamespaces selected in
  let block := blockWithValue no_metrics (Some (emptyCoverage (Z.of_nat (length namespaces)))) in
  if negb port then addBlockError "" NewFeatureUnavailableError block
  else
    match Available 0 with
    | Err e => addBlockError "" e block
    | Ok false => addBlockError "" NewFeatureUnavailableError block
    | Ok true =>
      let '(block, all, sample, observation) := collect_metrics authorizer namespaces [] 0 0 block 1 in
      let collectionWindow := if (sample =? 0)%Z then observation else sample in
      if (collectionWindow =? 0)%Z && bool_decide (all = []) && negb (bool_decide (bk_Errors block = [])) then block
      else
        match buildMetrics all capturedAt collectionWindow with
        | Some value => with_value value block
        | None => addBlockError "" OtherError block
        end
    end.
End metrics.

(** ** What the counters say *)

Definition counter_wf (c : CounterDTO) : Prop :=
  match ct_State c with
  | CounterAvailable | CounterTruncated => ∃ v, ct_Value c = Some v ∧ (0 ≤ v)%Z
  | CounterOther _ => False
  | _ => ct_Value c = None
  end.
Lemma AvailableCounter_wf v : counter_wf (AvailableCounter v).
Proof. unfold counter_wf. simpl. eexists. split; [done|]. case_match; bool_to_prop; lia. Qed.
Lemma counterForBlock_wf v complete truncated errors : counter_wf (counterForBlock v complete truncated errors).
Proof.
  unfold counterForBlock. destruct truncated; [apply (AvailableCounter_wf v)|]. destruct complete; [apply AvailableCounter_wf|].
  by destruct (onlyDenied errors).
Qed.
Lemma normalizeLogCounter_wf c : counter_wf (normalizeLogCounter c).
Proof.
  destruct c as [s v]. unfold normalizeLogCounter, counter_wf. destruct s; simpl; try done; destruct v as [v|]; simpl; try done;
    destruct (Z.ltb_spec v 0); simpl; try done; by eexists.
Qed.
(** The counter shows [n] and calls it exact. *)
Definition shows (c : CounterDTO) (n : Z) : Prop := ct_State c = CounterAvailable ∧ ct_Value c = Some n.
Lemma AvailableCounter_shows v n : (0 ≤ v)%Z → shows (AvailableCounter v) n ↔ n = v.
Proof.
  intros Hv. unfold shows, AvailableCounter. cbn [ct_State ct_Value]. rewrite (proj2 (Z.ltb_ge _ _)) by done.
  split; [by intros [_ [= ->]]|by intros ->].
Qed.
Lemma block_counter_shows {T} v (b : DashboardBlockDTO T) n :
  (0 ≤ v)%Z → shows (block_counter v b) n → bk_Complete b = true ∧ n = v.
Proof.
  unfold block_counter, counterForBlock. intros Hv. destruct (bk_Truncated b); [by intros []|].
  destruct (bk_Complete b); [by rewrite AvailableCounter_shows|]. destruct (onlyDenied _); by intros [].
Qed.
Lemma block_counter_complete {T} v (b : DashboardBlockDTO T) n :
  shows (block_counter v b) n → bk_Complete b = true.
Proof.
  unfold block_counter, counterForBlock. destruct (bk_Truncated b); [by intros []|].
  destruct (bk_Complete b); [done|]. destruct (onlyDenied _); by intros [].
Qed.
Lemma complete_shows {T} v (b : DashboardBlockDTO T) :
  bk_Truncated b = false → bk_Complete b = true → ct_State (block_counter v b) = CounterAvailable.
Proof. unfold block_counter, counterForBlock. by intros -> ->. Qed.
Lemma normalizeLogCounter_shows c n : shows (normalizeLogCounter c) n ↔ shows c n ∧ (0 ≤ n)%Z.
Proof.
  unfold shows. destruct c as [s v]. unfold normalizeLogCounter.
  destruct s; cbn [ct_State ct_Value]; try (split; [by intros []|by intros [[] _]]).
  - destruct v as [v|]; [|split; [by intros []|by intros [[] _]]].
    destruct (Z.ltb_spec v 0); cbn; split; naive_solver lia.
  - destruct v as [v|]; [|split; [by intros []|by intros [[] _]]].
    destruct (Z.ltb_spec v 0); cbn; split; naive_solver.
Qed.

(** ** What the counters count *)

(** A pod that proves to be healthy: it runs, its first Ready condition is true, and it has
    containers, all of them ready and running. *)
Definition proven_healthy (pod : Pod) : Prop :=
  pod_Phase pod = "Running"
  ∧ (∃ before c after, pod_Conditions pod = before ++ c :: after ∧ Forall (λ c', cd_Type c' ≠ "Ready") before
       ∧ cd_Type c = "Ready" ∧ cd_Status c = "True")
  ∧ pod_ContainerStatuses pod ≠ []
  ∧ Forall (λ s, st_Ready s = true ∧ cs_Running (st_State s) = true) (pod_ContainerStatuses pod).
Definition restarts_of (pod : Pod) : Z :=
  sum_Z ((λ s, Z.max 0 (st_RestartCount s))
    <$> pod_ContainerStatuses pod ++ pod_InitContainerStatuses pod ++ pod_EphemeralContainerStatuses pod).
(** [n] of the [l] satisfy [P]. *)
Definition how_many {A} (P : A → Prop) (l : list A) (n : Z) : Prop :=
  ∃ f, (∀ x, f x = true ↔ P x) ∧ n = Z.of_nat (length (List.filter f l)).

Lemma pod_ready_spec pod :
  pod_ready pod = true ↔
  ∃ before c after, pod_Conditions pod = before ++ c :: after ∧ Forall (λ c', cd_Type c' ≠ "Ready") before
    ∧ cd_Type c = "Ready" ∧ cd_Status c = "True".
Proof.
  unfold pod_ready. induction (pod_Conditions pod) as [|c l IH]; cbn [List.find].
  { split; [done|]. by intros ([]&?&?&?&_). }
  destruct (String.eqb_spec (cd_Type c) "Ready") as [Hr|Hr].
  - rewrite String.eqb_eq. split; [intros Hs; by exists [], c, l|].
    intros ([|c' before]&c1&after&Heq&Hf&_&Hs); simplify_eq/=; [done|]. by apply Forall_cons in Hf as [? _].
  - rewrite IH. split; intros (before&c1&after&Heq&Hf&Hs).
    + exists (c :: before), c1, after. rewrite Heq. split_and!; [done|by constructor|apply Hs..].
    + destruct before as [|c' before]; simplify_eq/=; [by destruct Hs|]. apply Forall_cons in Hf as [_ Hf].
      by exists before, c1, after.
Qed.
Lemma podIsPositivelyHealthy_spec pod : podIsPositivelyHealthy pod = true ↔ proven_healthy pod.
Proof.
  unfold podIsPositivelyHealthy, proven_healthy.
  rewrite !andb_true_iff, String.eqb_eq, pod_ready_spec, negb_true_iff, bool_decide_eq_false.
  assert (forallb (λ s, st_Ready s && cs_Running (st_State s)) (pod_ContainerStatuses pod) = true
    ↔ Forall (λ s, st_Ready s = true ∧ cs_Running (st_State s) = true) (pod_ContainerStatuses pod)) as ->.
  { induction (pod_ContainerStatuses pod) as [|s l IH]; simpl; [by split|].
    by rewrite Forall_cons, andb_true_iff, IH, andb_true_iff. }
  tauto.
Qed.
Lemma pod_restarts_spec pod : pod_restarts pod = restarts_of pod.
Proof.
  unfold pod_restarts, restarts_of, all_statuses. f_equal. rewrite !fmap_app, <- !list_fmap_compose.
  assert (∀ s (t : ContainerType), maxInt32 (st_RestartCount (s, t).1) 0 = Z.max 0 (st_RestartCount s)) as Hmax.
  { intros s t. unfold maxInt32. simpl. destruct (Z.ltb_spec 0 (st_RestartCount s)); lia. }
  f_equal; [|f_equal]; apply list_fmap_ext; intros ? s _; apply Hmax.
Qed.
Lemma is_problem_spec order now events pod :
  (∀ l, order l ≡ₚ l) → is_problem order now events pod = true ↔ ∃ c, evidence pod events now c.
Proof.
  intros Ho. unfold is_problem. rewrite bool_decide_eq_true. apply classified_iff_evidence, Ho.
Qed.

Lemma first_values_spec seen values :
  NoDup (first_values seen values)
  ∧ ∀ x, x ∈ first_values seen values ↔ x ∈ values ∧ x ≠ "" ∧ x ∉ seen.
Proof.
  revert seen. induction values as [|v values IH]; intros seen; cbn [first_values].
  { split; [constructor|]. intros x. rewrite elem_of_nil. tauto. }
  destruct (String.eqb_spec v "") as [->|Hv]; cbn [orb].
  { destruct (IH seen) as [Hn Hx]. split; [done|]. intros x. rewrite Hx. set_solver. }
  case_bool_decide as Hs.
  - destruct (IH seen) as [Hn Hx]. split; [done|]. intros x. rewrite Hx. set_solver.
  - destruct (IH ({[v]} ∪ seen)) as [Hn Hx]. split.
    + constructor; [rewrite Hx; set_solver|done].
    + intros x. rewrite elem_of_cons, Hx. destruct (decide (x = v)) as [->|]; set_solver.
Qed.
Lemma canonicalNamespaces_spec values :
  NoDup (canonicalNamespaces values) ∧ ∀ x, x ∈ canonicalNamespaces values ↔ x ∈ values ∧ x ≠ "".
Proof.
  unfold canonicalNamespaces. destruct (first_values_spec ∅ values) as [Hn Hx]. rewrite sort_stable_perm. split; [done|].
  intros x. rewrite sort_stable_perm, Hx. set_solver.
Qed.

(** *** A complete block is not truncated *)

Definition coherent {T} (b : DashboardBlockDTO T) : Prop := bk_Complete b = true → bk_Truncated b = false.

Lemma addBlockError_coherent {T} namespace e (b : DashboardBlockDTO T) : coherent (addBlockError namespace e b).
Proof. unfold coherent. by rewrite addBlockError_incomplete. Qed.
Lemma load_coherent {A} expired (ListPage : nat → string → Z → string → result failure (page A)) configured available selected :
  coherent (load expired ListPage (Normalized configured) available selected 0).1.
Proof.
  destruct available; [|unfold load; apply addBlockError_coherent].
  destruct (load _ _ _ _ _ _) as [block k] eqn:Hl. apply load_block in Hl as (_ & Hc & _). intros Hb. by apply Hc in Hb as [? _].
Qed.
Lemma add_issues_coherent {T} namespace pages (b : DashboardBlockDTO T) : coherent b → coherent (add_issues namespace pages b).
Proof.
  unfold add_issues. revert b. induction (concat (wp_Issues <$> pages)) as [|i l IH]; intros b Hb; simpl; [done|].
  apply IH. destruct (wi_Err i); [apply addBlockError_coherent|done].
Qed.
Lemma list_namespaces_coherent expired ListWorkloads budget now nss collected b k :
  coherent b → coherent (list_namespaces expired ListWorkloads budget now nss collected b k).1.
Proof.
  revert collected b k. induction nss as [|ns nss IH]; intros collected b k Hb; cbn [list_namespaces]; [done|].
  destruct (_ <=? 0)%Z; [done|]. destruct (loadWorkloadNamespace _ _ _ _ _ _) as [l k1]. apply IH.
  apply (add_issues_coherent ns (lw_pages l)). destruct (lw_truncated l); [done|].
  assert (coherent (match lw_error l with Some e => addBlockError ns e b | None => b end)) as Hc
    by (destruct (lw_error l); [apply addBlockError_coherent|done]).
  by destruct (lw_complete l).
Qed.
Lemma Degraded_coherent expired ListWorkloads budget available now selected :
  coherent (Degraded expired ListWorkloads budget available now selected).
Proof.
  unfold Degraded, List_workloads. destruct available; [|apply addBlockError_coherent].
  assert (coherent (list_namespaces expired ListWorkloads budget now (canonicalNamespaces selected) 0
    (blockWithValue [] (Some (emptyCoverage (Z.of_nat (length (canonicalNamespaces selected)))))) 0).1) as Hc
    by by apply list_namespaces_coherent.
  cbv zeta. by destruct (existsb _ _).
Qed.
Lemma Overview_coherent `{SliceSort} order podsExpired eventsExpired ListPods ListEvents now pods events owners configured selected :
  coherent (Overview order podsExpired eventsExpired ListPods ListEvents now
    (Some (NewPodService pods events owners configured)) selected).
Proof.
  set (s := NewPodService pods events owners configured).
  assert (coherent (loadPods podsExpired ListPods s selected)) as Hp.
  { unfold loadPods. pose proof (load_coherent podsExpired ListPods configured pods selected) as Hc.
    change (ps_budget s) with (Normalized configured). change (ps_pods s) with pods.
    by destruct pods. }
  assert (coherent (loadEvents eventsExpired ListEvents s selected)) as He.
  { unfold loadEvents. change (ps_budget s) with (Normalized configured). change (ps_events s) with events.
    destruct events; [apply load_coherent|apply addBlockError_coherent]. }
  unfold Overview, loadPodEvidence, coherent. cbv beta iota zeta.
  change (bk_Complete (evidence_block ?v ?p ?e)) with (bk_Complete p && bk_Complete e).
  change (bk_Truncated (evidence_block ?v ?p ?e)) with (bk_Truncated p || bk_Truncated e).
  intros [Hcp Hce]%andb_true_iff. by rewrite (Hp Hcp), (He Hce).
Qed.
Lemma Warnings_coherent `{SliceSort} sha256hex format walk expired ListWarnings configured available selected :
  coherent (Warnings sha256hex format walk expired ListWarnings (Normalized configured) available selected).
Proof.
  unfold Warnings, collect. pose proof (load_coherent expired ListWarnings configured available selected) as Hc.
  by destruct (load _ _ _ _ _ _).
Qed.

(** *** The numbers *)

Section counters.
Context `{SliceSortOk} (order : list (Z * NormalizedEvent) → list (Z * NormalizedEvent))
  (podsExpired eventsExpired workloadsExpired warningsExpired : nat → option failure)
  (ListPods : nat → string → Z → string → result failure (page Pod))
  (ListEvents ListWarnings : nat → string → Z → string → result failure (page NormalizedEvent))
  (ListWorkloads : nat → string → Z → string → result failure WorkloadPage) (now : instant) (owners : bool)
  (sha256hex : string → string) (format : instant → string) (walk : list aggregate → list aggregate)
  (configured : QueryBudget) (selected : list string).
Context (order_perm : ∀ l, order l ≡ₚ l) (walk_perm : ∀ l, walk l ≡ₚ l).

Let budget := Normalized configured.
Let namespaces := canonicalNamespaces selected.
Let overview := Overview order podsExpired eventsExpired ListPods ListEvents now
  (Some (NewPodService true true owners configured)) selected.
Let degraded := Degraded workloadsExpired ListWorkloads budget true now selected.
Let warnings := Warnings sha256hex format walk warningsExpired ListWarnings budget true selected.

(** The four counters of pods, from all the pods and all the events of the namespaces. *)
Lemma pod_counters_exact :
  bk_Complete overview = true →
  ∃ pods events kp ke, lists_all podsExpired ListPods budget 0 namespaces pods kp
    ∧ lists_all eventsExpired ListEvents budget 0 namespaces events ke
    ∧ ov_Total (bk_Value overview) = Z.of_nat (length pods)
    ∧ how_many (λ p, proven_healthy p ∧ ¬ ∃ c, evidence p events now c) pods (ov_Healthy (bk_Value overview))
    ∧ how_many (λ p, ∃ c, evidence p events now c) pods (ov_Problematic (bk_Value overview))
    ∧ ov_Restarts (bk_Value overview) = sum_Z (restarts_of <$> pods).
Proof.
  intros Hc. destruct (complete_overview_exact order podsExpired eventsExpired ListPods ListEvents now owners configured
    selected Hc) as (pods & events & kp & ke & Hp & He & Hv & _). fold overview in Hv. rewrite Hv.
  exists pods, events, kp, ke. split_and!; [done|done|done| | |].
  - eexists. split; [|done]. intros p. simpl.
    rewrite andb_true_iff, negb_true_iff, podIsPositivelyHealthy_spec, <- not_true_iff_false, is_problem_spec by done. tauto.
  - eexists. split; [|done]. intros p. by apply is_problem_spec.
  - simpl. f_equal. apply list_fmap_ext. intros ? p _. apply pod_restarts_spec.
Qed.

Lemma overview_nonneg :
  bk_Complete overview = true →
  (0 ≤ ov_Total (bk_Value overview) ∧ 0 ≤ ov_Healthy (bk_Value overview)
   ∧ 0 ≤ ov_Problematic (bk_Value overview) ∧ 0 ≤ ov_Restarts (bk_Value overview))%Z.
Proof.
  intros (pods & events & kp & ke & _ & _ & Ht & (f & _ & Hh) & (g & _ & Hp) & Hr)%pod_counters_exact.
  split_and!; [lia..|]. rewrite Hr. apply sum_Z_nonneg, Forall_fmap, Forall_forall. intros p _. simpl.
  apply sum_Z_nonneg, Forall_fmap, Forall_forall. intros st _. simpl. lia.
Qed.

Lemma degraded_counter_exact n :
  shows (block_counter (Z.of_nat (length (bk_Value degraded))) degraded) n →
  ∃ pages k, workloads_all workloadsExpired ListWorkloads budget 0 namespaces pages k ∧ Forall no_issue pages
    ∧ let all := concat (classify_pages now <$> pages) in
      Forall (λ w, wd_Status w ≠ WorkloadUnknown) all
      ∧ how_many (λ w, wd_Status w = WorkloadDegraded ∨ wd_Status w = WorkloadFailed) all n.
Proof.
  intros [Hc ->]%block_counter_shows; [|lia].
  apply degraded_workloads_authoritative in Hc as (_ & pages & k & Hp & Hi & Hk & Hperm & _). exists pages, k.
  split; [done|]. split; [done|]. split; [done|]. exists unhealthy. split; [|f_equal; exact (Permutation_length Hperm)].
  intros w. unfold unhealthy. by rewrite orb_true_iff, !bool_decide_eq_true.
Qed.

Lemma warnings_counter_exact n :
  shows (block_counter (eventOccurrenceCount (bk_Value warnings)) warnings) n →
  ∃ events k, lists_all warningsExpired ListWarnings budget 0 namespaces events k
    ∧ n = Z.min MaxInt64 (occurrences (List.filter (shown_event true) events)).
Proof.
  assert (∃ all k, load warningsExpired ListWarnings budget true selected 0 = (all, k)
    ∧ warnings = with_value (groupEvents sha256hex format walk (bk_Value all) true) all) as (all & k & Hl & He).
  { unfold warnings, Warnings, collect. destruct (load _ _ _ _ _ _) as [all k]. by exists all, k. }
  rewrite He. cbn [bk_Value with_value]. rewrite occurrences_survive_grouping by done.
  intros [Hca ->]%block_counter_shows;
    [|pose proof (occurrences_nonneg (List.filter (shown_event true) (bk_Value all))); unfold MaxInt64; lia].
  apply load_block in Hl as (_ & _ & _ & Hl & _). exists (bk_Value all), k. split; [by apply Hl|done].
Qed.
End counters.

(** C16: every counter of the summary is well formed: a number only when it is available or
    truncated. And a number shown as available is exact, computed from everything the API
    lists in all selected namespaces, read to the last page without a failure: the distinct
    namespaces; the pods, the pods that prove to be healthy with no evidence against them, the
    pods with evidence, and the restarts of all their containers; the degraded and failed
    workloads, all of known status; the occurrences of warning events, up to the largest
    integer; and the caller's own number of possible log matches. Conversely the counters of a
    complete service are available. *)
Theorem available_counters_exact `{SliceSortOk} order podsExpired eventsExpired ListPods ListEvents now owners
    workloadsExpired ListWorkloads sha256hex format walk warningsExpired ListWarnings configured selected logs
    (budget := Normalized configured) (namespaces := canonicalNamespaces selected)
    (overview := Overview order podsExpired eventsExpired ListPods ListEvents now
                   (Some (NewPodService true true owners configured)) selected)
    (degraded := Degraded workloadsExpired ListWorkloads budget true now selected)
    (warnings := Warnings sha256hex format walk warningsExpired ListWarnings budget true selected)
    (value := bk_Value (Summary (Some overview) (Some degraded) (Some warnings) selected logs)) :
  (∀ l, order l ≡ₚ l) → (∀ l, walk l ≡ₚ l) →
  Forall counter_wf [sm_Namespaces value; sm_PodsTotal value; sm_PodsHealthy value; sm_PodsProblematic value;
    sm_WorkloadsDegraded value; sm_Restarts value; sm_WarningEvents value; sm_PossibleLogMatches value]
  ∧ (∃ ns, NoDup ns ∧ (∀ x, x ∈ ns ↔ x ∈ selected ∧ x ≠ "") ∧ ns ≡ₚ namespaces
       ∧ shows (sm_Namespaces value) (Z.of_nat (length ns)))
  ∧ (bk_Complete overview = true →
       ∃ pods events kp ke, lists_all podsExpired ListPods budget 0 namespaces pods kp
         ∧ lists_all eventsExpired ListEvents budget 0 namespaces events ke
         ∧ shows (sm_PodsTotal value) (Z.of_nat (length pods))
         ∧ (∃ n, how_many (λ p, proven_healthy p ∧ ¬ ∃ c, evidence p events now c) pods n ∧ shows (sm_PodsHealthy value) n)
         ∧ (∃ n, how_many (λ p, ∃ c, evidence p events now c) pods n ∧ shows (sm_PodsProblematic value) n)
         ∧ shows (sm_Restarts value) (sum_Z (restarts_of <$> pods)))
  ∧ (bk_Complete overview = false →
       ∀ n, ¬ shows (sm_PodsTotal value) n ∧ ¬ shows (sm_PodsHealthy value) n ∧ ¬ shows (sm_PodsProblematic value) n
            ∧ ¬ shows (sm_Restarts value) n)
  ∧ (∀ n, shows (sm_WorkloadsDegraded value) n →
       ∃ pages k, workloads_all workloadsExpired ListWorkloads budget 0 namespaces pages k ∧ Forall no_issue pages
         ∧ let all := concat (classify_pages now <$> pages) in
           Forall (λ w, wd_Status w ≠ WorkloadUnknown) all
           ∧ how_many (λ w, wd_Status w = WorkloadDegraded ∨ wd_Status w = WorkloadFailed) all n)
  ∧ (∀ n, shows (sm_WarningEvents value) n →
       ∃ events k, lists_all warningsExpired ListWarnings budget 0 namespaces events k
         ∧ n = Z.min MaxInt64 (occurrences (List.filter (shown_event true) events)))
  ∧ (bk_Complete degraded = true → ct_State (sm_WorkloadsDegraded value) = CounterAvailable)
  ∧ (bk_Complete warnings = true → ct_State (sm_WarningEvents value) = CounterAvailable)
  ∧ (∀ n, shows (sm_PossibleLogMatches value) n ↔ shows logs n ∧ (0 ≤ n)%Z).
Proof.
  intros Ho Hw. subst value. unfold Summary. cbn [default from_option id sm_Namespaces sm_PodsTotal sm_PodsHealthy sm_PodsProblematic
    sm_WorkloadsDegraded sm_Restarts sm_WarningEvents sm_PossibleLogMatches bk_Value].
  split; [repeat constructor; apply AvailableCounter_wf || apply counterForBlock_wf || apply normalizeLogCounter_wf|].
  split; [|split; [|split; [|split; [|split; [|split; [|split]]]]]].
  - exists namespaces. destruct (canonicalNamespaces_spec selected). split_and!; [done..|]. by apply AvailableCounter_shows; [lia|].
  - intros Hc. destruct (overview_nonneg order podsExpired eventsExpired ListPods ListEvents now owners configured selected Ho Hc)
      as (?&?&?&?).
    destruct (pod_counters_exact order podsExpired eventsExpired ListPods ListEvents now owners configured selected Ho Hc)
      as (pods & events & kp & ke & Hp & He & Ht & Hh & Hb & Hr).
    assert (∀ v n, (0 ≤ v)%Z → v = n → shows (block_counter v overview) n) as Hs.
    { intros v n Hv <-. unfold block_counter, counterForBlock.
      assert (bk_Truncated overview = false) as -> by by apply Overview_coherent.
      rewrite Hc. by apply AvailableCounter_shows. }
    exists pods, events, kp, ke. split_and!; [done|done|by apply Hs| | |by apply Hs].
    + eexists. split; [exact Hh|by apply Hs].
    + eexists. split; [exact Hb|by apply Hs].
  - intros Hc n. split_and!; intros Hs%block_counter_complete; congruence.
  - apply degraded_counter_exact.
  - by apply warnings_counter_exact.
  - intros Hc. apply complete_shows; [by apply Degraded_coherent|done].
  - intros Hc. apply complete_shows; [by apply Warnings_coherent|done].
  - apply normalizeLogCounter_shows.
Qed.

(** ** The metrics are exact sums, and their rankings the top of all pods *)

Definition total_cpu (metric : PodMetrics) : Z := sum_Z (cm_CPUMillicores <$> pm_Containers metric).
Definition total_memory (metric : PodMetrics) : Z := sum_Z (cm_MemoryBytes <$> pm_Containers metric).
Definition rank_of_metric (metric : PodMetrics) : MetricRankDTO := {|
  mr_Namespace := pm_Namespace metric; mr_Pod := pm_Name metric; mr_CPUMillicores := total_cpu metric;
  mr_MemoryBytes := total_memory metric |}.
Definition metric_valid (metric : PodMetrics) : Prop :=
  (0 < pm_Window metric)%Z ∧ Forall (λ c, 0 ≤ cm_CPUMillicores c ∧ 0 ≤ cm_MemoryBytes c)%Z (pm_Containers metric)
  ∧ (total_cpu metric ≤ MaxInt64)%Z ∧ (total_memory metric ≤ MaxInt64)%Z.
(** [top] is sorted, has at most ten elements, and nothing else of [all] ranks above it. *)
Definition top_of (less : MetricRankDTO → MetricRankDTO → bool) (top all : list MetricRankDTO) : Prop :=
  sorted_by less top ∧ (length top ≤ 10)%nat
  ∧ ∃ rest, top ++ rest ≡ₚ all ∧ ∀ x y, x ∈ top → y ∈ rest → less y x = false.

#[export] Instance lessMetricIdentity_swo : StrictWeakOrder lessMetricIdentity.
Proof. apply (lex_str mr_Namespace), (key_swo mr_Pod str_lt). Qed.
#[export] Instance cpu_less_swo : StrictWeakOrder cpu_less.
Proof. apply (lex_Z_down mr_CPUMillicores), _. Qed.
#[export] Instance memory_less_swo : StrictWeakOrder memory_less.
Proof. apply (lex_Z_down mr_MemoryBytes), _. Qed.

Lemma sum_containers_spec cs cpu memory :
  (0 ≤ cpu ≤ MaxInt64)%Z → (0 ≤ memory ≤ MaxInt64)%Z →
  let total_c := (cpu + sum_Z (cm_CPUMillicores <$> cs))%Z in let total_m := (memory + sum_Z (cm_MemoryBytes <$> cs))%Z in
  let valid := Forall (λ c, 0 ≤ cm_CPUMillicores c ∧ 0 ≤ cm_MemoryBytes c)%Z cs ∧ (total_c ≤ MaxInt64)%Z ∧ (total_m ≤ MaxInt64)%Z in
  match sum_containers cs cpu memory with
  | Some (c, m) => valid ∧ c = total_c ∧ m = total_m
  | None => ¬ valid
  end.
Proof.
  revert cpu memory. induction cs as [|x cs IH]; intros cpu memory Hc Hm; cbn [sum_containers].
  { unfold sum_Z. simpl. split; [split; [constructor|lia]|lia]. }
  rewrite !fmap_cons, !sum_Z_cons.
  destruct (_ || _) eqn:E.
  - intros (Hf & H1 & H2). apply Forall_cons in Hf as [[Hx1 Hx2] Hf].
    assert (0 ≤ sum_Z (cm_CPUMillicores <$> cs) ∧ 0 ≤ sum_Z (cm_MemoryBytes <$> cs))%Z as [? ?].
    { split; apply sum_Z_nonneg, Forall_fmap, (Forall_impl _ _ _ Hf); by intros y []. }
    apply orb_true_iff in E as [E|E]; [apply orb_true_iff in E as [E|E]; [apply orb_true_iff in E as [E|E]|]|]; bool_to_prop; lia.
  - apply orb_false_iff in E as [E E4]. apply orb_false_iff in E as [E E3]. apply orb_false_iff in E as [E1 E2]. bool_to_prop.
    specialize (IH (cpu + cm_CPUMillicores x) (memory + cm_MemoryBytes x))%Z. cbv zeta in IH.
    rewrite !Z.add_assoc. destruct (sum_containers cs _ _) as [[c m]|].
    + destruct IH as [(Hf & ?) ?]; [lia..|]. split_and!; try lia. by constructor.
    + intros (Hf & ?). apply Forall_cons in Hf as [_ Hf]. apply IH; [lia|lia|]. split_and!; [done|lia..].
Qed.

Section exact.
Context `{SliceSortOk}.

Lemma pod_metric_spec metric :
  match pod_metric metric with
  | Some pod => rank_of pod = rank_of_metric metric ∧ ((0 < pm_Window metric)%Z → metric_valid metric)
  | None => ¬ metric_valid metric
  end.
Proof.
  unfold pod_metric, metric_valid, rank_of_metric, total_cpu, total_memory.
  pose proof (sum_containers_spec (pm_Containers metric) 0 0) as Hs. cbv zeta in Hs. rewrite !Z.add_0_l in Hs.
  destruct (sum_containers _ 0 0) as [[c m]|]; simpl.
  - destruct Hs as [? [-> ->]]; [unfold MaxInt64; lia..|]. done.
  - unfold MaxInt64 in *. intros [_ Hv]. apply Hs; [lia|lia|done].
Qed.
Lemma build_pods_spec values pods window :
  match build_pods values pods window with
  | Some (pods', w) => Forall metric_valid values ∧ rank_of <$> pods' = (rank_of <$> pods) ++ (rank_of_metric <$> values)
      ∧ (window ≤ w)%Z ∧ Forall (λ m, pm_Window m ≤ w)%Z values
  | None => ¬ Forall metric_valid values
  end.
Proof.
  revert pods window. induction values as [|m values IH]; intros pods window; cbn [build_pods].
  { rewrite app_nil_r. split_and!; try constructor; done. }
  destruct (Z.leb_spec (pm_Window m) 0) as [Hw|Hw].
  { intros Hf. apply Forall_cons in Hf as [(? & _) _]. lia. }
  pose proof (pod_metric_spec m) as Hm. destruct (pod_metric m) as [pod|].
  - destruct Hm as [Hr Hv]. specialize (IH (pods ++ [pod]) (if (window <? pm_Window m)%Z then pm_Window m else window)).
    destruct (build_pods _ _ _) as [[pods' w]|].
    + destruct IH as (Hf & He & Hww & Hall). split_and!; [constructor; auto| | |].
      * rewrite He, fmap_app, <- app_assoc. simpl. by rewrite Hr.
      * destruct (Z.ltb_spec window (pm_Window m)); lia.
      * constructor; [|done]. destruct (Z.ltb_spec window (pm_Window m)); lia.
    + intros Hf. apply IH. by apply Forall_cons in Hf as [_ ?].
  - intros Hf. by apply Forall_cons in Hf as [? _].
Qed.

Lemma top_of_take less `{!StrictWeakOrder less} l : top_of less (take 10 (sort_Slice less l)) l.
Proof.
  destruct (sorted_by_take less 10 (sort_Slice less l)) as [Hs Hd]; [by apply sort_Slice_sorted|].
  split_and!; [done|rewrite length_take; lia|]. exists (drop 10 (sort_Slice less l)). rewrite take_drop. split; [apply sort_Slice_perm|done].
Qed.

(** metrics are shown only when every sample is valid - a positive window, no negative
    usage and no sum beyond 64 bits - and then each pod shows the exact sum of its containers,
    the rankings are the top ten of all pods, and the window is at least a second. A single
    invalid sample makes the whole block an error rather than a wrong sum. *)
Theorem metrics_exact (values : list PodMetrics) (capturedAt : instant) (emptyWindow : Z) :
  match buildMetrics values capturedAt emptyWindow with
  | Some m =>
    Forall metric_valid values
    ∧ rank_of <$> mt_Pods m ≡ₚ rank_of_metric <$> values
    ∧ top_of cpu_less (mt_TopCPU m) (rank_of_metric <$> values)
    ∧ top_of memory_less (mt_TopMemory m) (rank_of_metric <$> values)
    ∧ (1 ≤ mt_WindowSeconds m)%Z
  | None => ¬ Forall metric_valid values
      ∨ Forall (λ m, pm_Window m < Second)%Z values ∧ (values = [] → emptyWindow < Second)%Z
  end.
Proof.
  unfold buildMetrics. pose proof (build_pods_spec values [] 0) as Hb.
  destruct (build_pods values [] 0) as [[pods window]|] eqn:Hwin; [|by left]. simpl mbind. cbv beta iota.
  destruct Hb as (Hf & Hr & Hw & Hall). cbn [app fmap list_fmap] in Hr.
  set (w := if (window =? 0)%Z then emptyWindow else window).
  assert ((w < Second)%Z → Forall (λ m, pm_Window m < Second)%Z values ∧ (values = [] → emptyWindow < Second)%Z) as Hsmall.
  { unfold w. intros Hlt. destruct (Z.eqb_spec window 0) as [->|Hne].
    - split; [|done]. apply (Forall_impl _ _ _ Hall). unfold Second. intros m Hm. lia.
    - split; [apply (Forall_impl _ _ _ Hall); intros m Hm; lia|]. intros ->. by injection Hwin as <-. }
  destruct (Z.eqb_spec w 0) as [Hw0|Hw0]; [right; apply Hsmall; rewrite Hw0; unfold Second; lia|].
  destruct (Z.leb_spec (Z.quot w Second) 0) as [Hq|Hq].
  - right. apply Hsmall. apply Z.nle_gt. intros Hge. assert (1 ≤ Z.quot w Second)%Z; [|lia].
    rewrite <- (Z.quot_same Second) by done. apply Z.quot_le_mono; [done|lia].
  - assert (rank_of <$> sort_Slice pod_metric_less pods ≡ₚ rank_of_metric <$> values) as Hp by by rewrite sort_Slice_perm, Hr.
    simpl. split_and!; [done|done| | |lia].
    + destruct (top_of_take cpu_less (rank_of <$> sort_Slice pod_metric_less pods)) as (? & ? & rest & Hrest & ?).
      split_and!; [done..|]. exists rest. split; [by rewrite Hrest|done].
    + destruct (top_of_take memory_less (rank_of <$> sort_Slice pod_metric_less pods)) as (? & ? & rest & Hrest & ?).
      split_and!; [done..|]. exists rest. split; [by rewrite Hrest|done].
Qed.
End exact.

(** ** Metrics are read only where they may be listed *)

Section permission.
Context `{SliceSort} (expired : nat → option failure) (Available : nat → result failure bool)
  (Can : nat → string → result failure PermissionDecision) (capturedAt : instant) (budget : QueryBudget)
  (List List' : nat → string → Z → string → result failure MetricsPage).
Context (same : ∀ namespace, (∃ k, Can k namespace = Ok PermissionAllowed) →
  ∀ k size cont, List k namespace size cont = List' k namespace size cont).

Lemma load_metric_pages_same namespace pages maximum cont result sample observation k :
  (∃ k, Can k namespace = Ok PermissionAllowed) →
  load_metric_pages expired List budget pages maximum namespace cont result sample observation k
  = load_metric_pages expired List' budget pages maximum namespace cont result sample observation k.
Proof.
  intros Ha. revert cont result sample observation k. induction pages as [|pages IH]; intros cont result sample observation k; [done|].
  cbn [load_metric_pages]. destruct (_ <=? 0)%Z; [done|]. destruct (expired k); [done|]. rewrite (same namespace Ha).
  destruct (List' k namespace _ cont) as [p|e]; [|done]. destruct (_ <? _)%Z; [done|]. destruct (String.eqb _ _); [done|]. apply IH.
Qed.
Lemma collect_metrics_same authorizer namespaces all sample observation block k :
  collect_metrics expired Can List budget authorizer namespaces all sample observation block k
  = collect_metrics expired Can List' budget authorizer namespaces all sample observation block k.
Proof.
  revert all sample observation block k. induction namespaces as [|namespace namespaces IH]; intros; cbn [collect_metrics]; [done|].
  destruct (_ <=? 0)%Z; [done|]. destruct (not_permitted Can authorizer namespace k) as [[e|] k1] eqn:Hp; [apply IH|].
  assert (∃ k, Can k namespace = Ok PermissionAllowed) as Ha.
  { unfold not_permitted in Hp. destruct authorizer; [|done]. exists k. by destruct (Can k namespace) as [[]|]. }
  unfold loadMetricNamespace. rewrite load_metric_pages_same by done. destruct (load_metric_pages _ _ _ _ _ _ _ _ _ _ _) as [l k2].
  destruct (lm_error l); apply IH.
Qed.
End permission.

(** the metrics of a namespace are read only if the authorizer allows listing them there:
    what the metrics API would answer for any other namespace has no influence on the result,
    and without an authorizer nothing it answers has. *)
Theorem metrics_need_permission `{SliceSort} expired Available Can capturedAt budget port authorizer selected
    (List List' : nat → string → Z → string → result failure MetricsPage) :
  (∀ namespace, (∃ k, Can k namespace = Ok PermissionAllowed) → ∀ k size cont, List k namespace size cont = List' k namespace size cont) →
  Collect expired Available Can List capturedAt budget port authorizer selected
  = Collect expired Available Can List' capturedAt budget port authorizer selected.
Proof.
  intros Hs. unfold Collect. destruct port; [|done]. cbn [negb]. destruct (Available 0) as [[]|]; [|done..].
  by rewrite (collect_metrics_same expired Can budget List List').
Qed.

(** ** Witnesses *)

Definition demo_listing (k : nat) (namespace : string) (size : Z) (cont : string) : result failure MetricsPage := Ok {|
  mp_Items := [{| pm_Namespace := namespace; pm_Name := "p"; pm_Window := 30 * Second;
                  pm_Containers := [{| cm_Name := "c"; cm_CPUMillicores := 5; cm_MemoryBytes := 7 |}] |}];
  mp_Continue := ""; mp_Window := 0 |}.
Definition demo_can (k : nat) (namespace : string) : result failure PermissionDecision :=
  Ok (if String.eqb namespace "open" then PermissionAllowed else PermissionDenied).
Lemma metrics_need_permission_witness :
  let listing' := λ k namespace size cont,
    if String.eqb namespace "open" then demo_listing k namespace size cont else Err OtherError in
  let collected := λ l, @Collect stable_slice_sort (λ _, None) (λ _, Ok true) demo_can l 1%Z DefaultQueryBudget true true ["open"; "shut"] in
  collected demo_listing = collected listing'
  ∧ pt_Namespace <$> mt_Pods (bk_Value (collected demo_listing)) = ["open"].
Proof.
  intros listing' collected. split; [|by vm_compute].
  apply (@metrics_need_permission stable_slice_sort (λ _, None) (λ _, Ok true) demo_can 1%Z DefaultQueryBudget true true
    ["open"; "shut"] demo_listing listing').
  intros namespace [k Hk] k' size cont. unfold listing'. unfold demo_can in Hk. by destruct (String.eqb namespace "open").
Defined.

Definition demo_workloads (k : nat) (namespace : string) (size : Z) (cont : string) : result failure WorkloadPage := Ok {|
  wp_Deployments := [demo_deployment 2; demo_deployment 3]; wp_StatefulSets := []; wp_StatefulSetAvailable := None;
  wp_DaemonSets := []; wp_Jobs := []; wp_CronJobs := []; wp_Continue := ""; wp_Issues := [] |}.
Definition demo_page_events (k : nat) (namespace : string) (size : Z) (cont : string) : result failure (page NormalizedEvent) :=
  Ok (Build_page demo_batch "").
Lemma available_counters_exact_witness :
  let overview := @Overview stable_slice_sort id (λ _, None) (λ _, None) demo_list_pods demo_list_events demo_now
       (Some (NewPodService true true false DefaultQueryBudget)) ["shop"] in
  let value := bk_Value (Summary (Some overview)
    (Some (Degraded (λ _, None) demo_workloads (Normalized DefaultQueryBudget) true demo_now ["shop"]))
    (Some (@Warnings stable_slice_sort id (λ _, "t") id (λ _, None) demo_page_events (Normalized DefaultQueryBudget) true ["shop"]))
    ["shop"] (EmptyCounter CounterCollecting)) in
  sm_PodsTotal value = AvailableCounter 1 ∧ sm_WarningEvents value = AvailableCounter 7
  ∧ sm_WorkloadsDegraded value = AvailableCounter 1
  ∧ ∃ pods events kp ke, lists_all (λ _, None) demo_list_pods (Normalized DefaultQueryBudget) 0 ["shop"] pods kp
      ∧ lists_all (λ _, None) demo_list_events (Normalized DefaultQueryBudget) 0 ["shop"] events ke
      ∧ shows (sm_PodsTotal value) (Z.of_nat (length pods)).
Proof.
  intros overview value. split_and!; [by vm_compute..|].
  destruct (@available_counters_exact stable_slice_sort stable_slice_sort_ok id (λ _, None) (λ _, None) demo_list_pods demo_list_events
    demo_now false (λ _, None) demo_workloads id (λ _, "t") id (λ _, None) demo_page_events DefaultQueryBudget ["shop"]
    (EmptyCounter CounterCollecting)) as (_ & _ & H & _); [done|done|].
  destruct H as (pods & events & kp & ke & Hp & He & Ht & _); [by vm_compute|].
  exists pods, events, kp, ke. split_and!; [exact Hp|exact He|exact Ht].
Defined.
Lemma metrics_exact_witness :
  ∃ m, @buildMetrics stable_slice_sort [{| pm_Namespace := "a"; pm_Name := "p"; pm_Window := 30 * Second;
      pm_Containers := [{| cm_Name := "c"; cm_CPUMillicores := 5; cm_MemoryBytes := 7 |};
                        {| cm_Name := "b"; cm_CPUMillicores := 6; cm_MemoryBytes := 1 |}] |}] 1%Z 0 = Some m
    ∧ mr_CPUMillicores <$> mt_TopCPU m = [11%Z] ∧ (1 ≤ mt_WindowSeconds m)%Z.
Proof.
  set (values := [_]). pose proof (@metrics_exact stable_slice_sort stable_slice_sort_ok values 1%Z 0) as H.
  assert (is_Some (@buildMetrics stable_slice_sort values 1%Z 0)) as [m Hm] by (vm_compute; by eexists).
  rewrite Hm in H. exists m. split; [done|]. split; [|tauto].
  assert ((λ m, mr_CPUMillicores <$> mt_TopCPU m) <$> @buildMetrics stable_slice_sort values 1%Z 0 = Some [11%Z]) as E by by vm_compute.
  rewrite Hm in E. by injection E.
Defined.
